(* ===== verification/_CoqProject ===== *)
-Q . S2P
Prelude.v
Ord.v
BTreeMap.v
BinaryKey.v
Bounds.v
Interval.v
IntervalSet.v
Timestamp.v
Identifier.v
Value.v
Sorting.v
SortingDecode.v
Base32.v
IdV6.v
Document.v
TableMapping.v
IndexRegistry.v
IndexUpdates.v
IndexKeys.v
MemoryIndexes.v
IndexSnapshot.v
QueryRange.v
Validator.v
Shape.v
ShapeInference.v
ShapeMultiset.v
ShapeMerge.v
ShapeUnion.v
ShapeCandidates.v
ShapePush.v
ShapeTracking.v
ShapeRemoval.v
ShapeHistory.v
Schema.v
TableRegistry.v
QueryReads.v
Reads.v
SchemaRegistry.v
TableSummaries.v
TransactionIndex.v
QueryStream.v
WriteLog.v
SnapshotManager.v
Committer.v
SummaryBootstrap.v
Writes.v
Serializability.v
Slab.v
IntervalMap.v
IntervalTreap.v
Subscription.v
SubscriptionWorker.v
Sync.v
SyncClient.v
SyncProtocol.v
SyncProgress.v
SyncSystem.v
SyncErrors.v
SchemaModel.v
SchemaWorker.v
SchemaLiveness.v
Persistence.v
Retention.v
RetentionDeletes.v
RetentionReads.v
RetentionLog.v
RetentionCommit.v
RetentionSystem.v
