(* ===== verification/Prelude.v ===== *)
(** * A verification of the core of the Convex backend

    The Convex backend is a reactive document database.  A transaction reads a
    consistent snapshot, records what it read, buffers its writes and commits
    through a single-threaded committer that validates it against the commits
    since its snapshot (optimistic concurrency control).  The result of a query
    can be subscribed to: a worker follows the log of commits and invalidates a
    subscription when a commit touches something the query read.  This library
    models the code that these promises rest on and proves them.

    ** Parts of the program and where they are modelled

    Sources are under src/crates/.  A definition has the name of the Rust item
    it models where Rocq allows it, and its comment names the item otherwise.

    Vocabulary
    - Prelude.v: [outcome] (a return, an [Err] or a panic), its monad, loops,
      [expect]/[ensure]/[assert!], lemmas on lists, bytes and integers.
    - Ord.v: Rust's [Ord] as a class, with lexicographic instances and the
      tactic [order].  BTreeMap.v: ordered maps as sorted association lists.

    Keys and values
    - BinaryKey.v, Bounds.v, Interval.v, IntervalSet.v
      (common/src/interval/*.rs): byte keys, half-open intervals and the sets
      of disjoint intervals in which reads are recorded.
    - Timestamp.v (convex/sync_types/src/timestamp.rs): 64-bit timestamps.
    - Identifier.v (sync_types/src/identifier.rs, value/src/field_name.rs,
      field_path.rs): identifiers, field names and field paths.
    - Value.v (value/src): values, their sizes, nesting and validity.
    - Sorting.v, SortingDecode.v (value/src/sorting.rs): the order-preserving
      encoding of values in index keys, and its decoder.
    - Base32.v, IdV6.v (value/src/base32.rs, id_v6.rs): document ids.
    - Document.v (common/src/document.rs, index.rs, types/index.rs,
      packed_value/src/lib.rs): documents, index names, index keys.

    Tables and indexes
    - TableMapping.v (value/src/table_mapping.rs), TableRegistry.v
      (database/src/table_registry.rs): the tables, their names, numbers and
      states, and how writes to the system table of tables change them.
    - IndexRegistry.v, IndexUpdates.v (indexing/src/index_registry.rs): which
      indexes a table has, the keys a document has in them, the updates of the
      indexes that a write makes.  IndexKeys.v: no key is a prefix of another.
    - MemoryIndexes.v, IndexSnapshot.v
      (indexing/src/backend_in_memory_indexes.rs): the indexes in memory, and
      reads at one timestamp from memory, a cache and persistence.
    - TransactionIndex.v (database/src/transaction_index.rs): the indexes with
      the pending writes of a transaction.
    - QueryRange.v (common/src/query.rs): the interval of an index that the
      range expressions of a query describe.
    - QueryStream.v (database/src/query, bootstrap_model/user_facing.rs): the
      operators of a query, which page through a range of the transaction's
      index and record what they read.

    Schemas
    - Validator.v (common/src/schemas/validator.rs,
      virtual_system_mapping.rs): the types of values that schemas and
      arguments are checked against.
    - Shape.v, ShapeInference.v (shape_inference/src): the types that are
      inferred from the documents of a table, how they are compared, and how
      they change when a value is inserted or removed.  ShapeMultiset.v: the
      values that a counted shape stands for.  ShapeMerge.v, ShapeUnion.v,
      ShapeCandidates.v, ShapePush.v: merging of shapes, the union builder and
      the supertypes it falls back on.  ShapeTracking.v, ShapeRemoval.v,
      ShapeHistory.v: insertion, removal, and any sequence of them.
    - TableSummaries.v (database/src/table_summary.rs, snapshot_manager.rs):
      the number, size and shape of the documents of each table, kept up to
      date with every write.  SummaryBootstrap.v (table_summary.rs,
      persistence_helpers.rs): computing them from the tables or a checkpoint
      and the log.
    - Schema.v (common/src/schemas/mod.rs): the schema of a database, its
      enforcement, and which tables a schema change must scan.
    - SchemaRegistry.v (database/src/schema_registry.rs): the schemas in use by
      state, as the system table of schemas says.  SchemaModel.v
      (database/src/bootstrap_model/schema): submitting, validating, applying
      and failing schemas, and the check of every write against them.
      SchemaWorker.v (application/src/schema_worker): the worker that validates
      a schema against the documents that exist, running between the
      transactions of others.  SchemaLiveness.v: the worker left alone.

    Concurrency control (database/src)
    - QueryReads.v (search/src/query.rs): what a text search read, and the
      index of the subscriptions to text searches.
    - Reads.v (reads.rs): the read set of a transaction and the two ways to
      test a write against it.
    - Writes.v (writes.rs): the write set of a transaction, nested
      transactions, the reads that a write depends on, and limits.
    - WriteLog.v (write_log.rs, token.rs): recent commits, retention, tokens,
      waiters, and the writes that are validated but not yet published.
    - SnapshotManager.v (snapshot_manager.rs): the versions of the metadata and
      in-memory indexes in a time window.
    - Committer.v (committer.rs): the commit loop as a state machine, whose
      events are its messages, the completions of persistence writes and its
      timer.  Serializability.v: the specification it implements.

    Subscriptions
    - Slab.v: the slab crate, an interface.  IntervalMap.v: the interface of
      the interval map.  IntervalTreap.v (interval_map/src/lib.rs): its
      implementation, a treap of nodes that point at each other in a slab.
    - Subscription.v (subscription.rs): validity cells, watch channels, the
      retention coordinator and the subscription manager.
      SubscriptionWorker.v (subscription.rs): clients, queues and several
      managers running together over the log that the committer appends to.

    Persistence and retention
    - Persistence.v (sqlite/src/lib.rs, common/src/persistence.rs,
      persistence_helpers.rs): the log of documents and the rows of indexes in
      sqlite, how they are written, read at a timestamp and deleted.
    - Retention.v (retention.rs): the workers that advance the earliest
      readable snapshots and delete what no later snapshot reads, with their
      cursors and checkpoints.  RetentionDeletes.v, RetentionReads.v,
      RetentionLog.v: what a round deletes and what it leaves.
      RetentionCommit.v: commits keep the log and the rows in step.
      RetentionSystem.v: all of them running together, with failures and
      restarts.

    Sync protocol
    - Sync.v (sync/src/state.rs, worker.rs): the session of a connected client,
      its queries, their subscriptions and the transitions it is sent.
      SyncClient.v (convex/src/base_client): the state machine of the Rust
      client, its subscriptions, results, requests and outgoing messages.
    - SyncProtocol.v: what the transitions establish at the client.
      SyncProgress.v: when a session does not fail.  SyncSystem.v: client and
      server together, with reconnections.  SyncErrors.v: where they fail.

    ** What the theorems show

    - Committed transactions are serializable in timestamp order; no two
      commits of a run conflict; publishing a validated commit never fails
      (Serializability.v).
    - While a subscription says it is current, no commit since its reads
      overlaps, by the keys it logged, the intervals and the text searches with
      a filter or a term among them (a search with neither is not watched); a
      manager that advances decides every subscriber and finds the commits it
      needs in the log; a subscription that is not current was announced to its
      watcher (SubscriptionWorker.v).
    - The transitions of a sync session take the client from version to version
      to the results of its queries at the version's timestamp, although
      unchanged results are not sent and unchanged queries not rerun
      (SyncProtocol.v); with an orderly client and an application that answers
      no turn of the session fails (SyncProgress.v); client and server accept
      each other's messages, and a client that has caught up shows every
      subscriber the result of its query (errors up to the bytes that are
      hashed), through reconnections that leave no message unsent
      (SyncSystem.v).
    - A read set reports a conflict exactly when a write touches an interval or
      a search in it, the test on logged keys agrees with the test on
      documents, and recording, merging and limits do what they say (Reads.v,
      QueryReads.v, WriteLog.v).
    - The interval map answers stabbing queries exactly, keeps the treap
      invariant and never panics (IntervalTreap.v); interval sets are unions
      (IntervalSet.v).
    - Database indexes in memory hold exactly the live documents after every
      write (MemoryIndexes.v); a range read at a snapshot returns exactly the
      rows of a prefix of the interval, however it is split between memory,
      cache and persistence (IndexSnapshot.v); a transaction sees its own
      writes (TransactionIndex.v); a query on the transaction's index returns
      the documents it should, terminates, records the keys it depends on, and
      can be resumed from its cursor, in a range without pending rows of the
      transaction (QueryStream.v); the interval of a query holds exactly the
      documents that satisfy its range expressions, up to strings with zero
      bytes and objects with empty field names (QueryRange.v).
    - While commits, backfills, failing rounds of retention and restarts are
      interleaved, a scan of an index or of the log at a timestamp that is
      accepted then or later returns exactly what was there before anything was
      deleted; the bounds stay in order; index retention ends and leaves no
      superseded row of the window when deletes are enabled (RetentionSystem.v).
    - The write set of a transaction is the difference between what it found
      and what it left, nested transactions are undone or kept as a whole,
      writes that race with a change of their table or of the same new id
      conflict, and the limits on writes hold (Writes.v).
    - A validator accepts exactly the values of its type; subset and subtype
      tests are the functions their code describes and have no false positives; a table that a schema change does not
      scan holds conforming documents only; deleting an unreferenced table
      keeps documents valid (Validator.v, Shape.v, Schema.v).
    - Whatever transactions run beside the worker, every document conforms to
      the active and to the validated schema, schemas move along the documented
      states, and at most one has each role (SchemaWorker.v); left alone, the
      worker validates or fails every pending schema (SchemaLiveness.v); the
      registry says what the documents say, and a lookup in it conflicts with
      every later change of the answer (SchemaRegistry.v).
    - The inferred shape of a table contains its documents and counts them
      exactly, after any insertions and removals, and none of the assertions of
      the union builder fails (ShapeHistory.v); the summaries of the tables
      follow every write, never overflow or fail while there is room, and meet
      what the schema worker expects of them (TableSummaries.v,
      SchemaLiveness.v); so do the summaries that are computed from a
      checkpoint and the log, where a table is empty when its document goes
      (SummaryBootstrap.v).
    - Index keys order documents like the values they index, the encoding
      decodes, and the packed routine agrees with the reference (Sorting.v,
      SortingDecode.v, Document.v); document ids round-trip (Base32.v, IdV6.v).
    - The index registry stays consistent under updates, and the table registry
      under the changes of a table that the code handles; the snapshot of a timestamp is found (IndexRegistry.v, TableRegistry.v,
      SnapshotManager.v).

    Seventeen theorems show where the code does less than it means to: merging two
    text searches of one index loses conflicts, a pending index hides the key of
    the enabled index of its name, an empty field name makes sort keys
    ambiguous, deleting a hidden table panics, a pending row beyond the
    page of the snapshot makes a range read skip documents, an index equality
    on a string also finds strings that continue with a zero byte, the test
    whether a schema can hold a field overlooks records, a sync session ends
    when a query that had returned is temporarily unavailable, the messages left
    over from a lost connection make the new one fail, a mutation of the Rust
    client completes before its writes are visible, an error that differs in
    its data alone is not sent again, the schema worker divides by zero when the
    documents it is to scan are deleted as it begins, a schema that is
    overwritten and submitted again in one transaction can be lost, the totals
    over all tables go on counting tables that were dropped, the table
    summaries cannot be rewound past the creation of a table with documents,
    index rows with keys of more than 2500 bytes are never deleted, and an index
    backfill does not end while retention is switched off.

    ** Modelling decisions

    - Machine integers are [Z]; truncation, wrapping and overflow checks are
      written out where the code has them.  Bytes are [Z] in a list, with
      [bytes] for the range.  Indexing out of range, [expect], [unwrap],
      [assert!] and [unreachable!] are [Panic], and the theorems that exclude a
      panic say so.  [debug_assert!] is not part of the release build.
    - Recursion that is not structural takes fuel, and running out of it is
      [Panic] or an error: [read_sort_key_fuel] is the length of the input
      (every call reads a byte); the base32 loops take the number of chunks;
      [fuel_of] is one more than the number of nodes of the treap (each step
      goes down or up one level); a query waits for at most one more page than
      there are rows at which pages can end, and [filter_loop] takes a buffered
      row in each round; [is_subset] and [is_subtype] take the sum of the
      heights of the two types, which every recursive call lowers; the rounds
      of [delete_all_no_checkpoint] are as many as the timestamps in the window,
      since every round advances the cursor.  The
      theorems show that the result is returned with that fuel.  The functions
      of ShapeInference.v call each other ([ops_of] ties the knot); [evals]
      says what they return with every sufficient fuel.  The counts in shapes
      are unbounded, the totals of the summaries are checked against [u64].
      The versions and query ids of the sync protocol, u32 in the code, are
      unbounded: a session would have to make 2^32 changes to reach the bound.
    - Floating-point values are their 64 bits; the one computation with doubles,
      in the schema worker, is on integers with the rounding written out.
    - Concurrent tasks are events of a step function; the theorems quantify
      over all sequences of events.  Each handler is atomic: the committer is
      one task, and the handlers of a subscription manager take the locks they
      share for each access.  Clocks and random numbers are inputs.
    - Code outside the repository is a parameter or a class with its documented
      laws: SHA-256 (without collisions between the results of a session), the text
      tokenizer, the random number generator, the slab.
      Components of the repository that a client only uses through an interface
      are classes or records ([StringMap], [IntervalMapOps], [SnapshotParts],
      [InMemoryIndexes], [PersistenceSnapshot], [QueryStream]) as well;
      IntervalTreap.v discharges the laws of the interval map, and the laws of
      streams hold of [IndexRange] and are preserved by [Limit] and [Filter].
    - Metrics, tracing, usage accounting and heap sizes have no effect on the
      results and are left out, or are the list of their calls where the code
      returns them.

    ** Not modelled

    The persistence drivers for postgres and mysql and file storage are I/O; the
    UDF runtime (isolate, node_executor) binds V8; the HTTP server, the
    application layer and the system-table models orchestrate transactions; the
    authentication layer wraps cryptographic libraries; vector search wraps a
    third-party engine.  Of the code with logic of its own, the operations
    of a transaction, the component registry, the adaptive radix tree of the
    in-memory text index and the backfill of indexes are left.  Of retention,
    the deletion of the documents of dropped tables and rate limits are left
    out; of the sync protocol, the execution of mutations and actions and the
    websocket. *)

(** * Prelude: shared vocabulary of the development (root file) *)

From stdpp Require Export prelude.
From Stdlib Require Export ZArith Lia.

#[global] Set Default Goal Selector "!".

(** ** Outcomes of Rust code

    A Rust function returns normally, returns [Err(e)] through
    [anyhow::Result], or panics ([assert!], [expect], [unreachable!], an
    out-of-range index).  [outcome E A] keeps the three apart, so that
    "never panics" is a theorem and not an assumption. *)

Inductive outcome (E A : Type) : Type :=
| Ret (a : A)
| Err (e : E)
| Panic.

Arguments Ret {E A} a.
Arguments Err {E A} e.
Arguments Panic {E A}.

Definition obind {E A B : Type} (m : outcome E A) (f : A -> outcome E B) : outcome E B :=
  match m with
  | Ret a => f a
  | Err e => Err e
  | Panic => Panic
  end.

Definition omap {E A B : Type} (f : A -> B) (m : outcome E A) : outcome E B :=
  obind m (fun a => Ret (f a)).

(** [opt.expect(..)] / [opt.unwrap()]. *)
Definition expect {E A : Type} (o : option A) : outcome E A :=
  match o with Some a => Ret a | None => Panic end.

(** [opt.ok_or(e)] / [anyhow::ensure!]. *)
Definition ok_or {E A : Type} (o : option A) (e : E) : outcome E A :=
  match o with Some a => Ret a | None => Err e end.

Definition ensure {E : Type} (b : bool) (e : E) : outcome E unit :=
  if b then Ret tt else Err e.

(** [assert!(b)]. *)
Definition rassert {E : Type} (b : bool) : outcome E unit :=
  if b then Ret tt else Panic.

Declare Scope rust_scope.
Delimit Scope rust_scope with rust.

Notation "'let?' x ':=' m 'in' k" := (obind m (fun x => k))
  (at level 10, x pattern, m at level 100, k at level 200) : rust_scope.
Notation "m ';?' k" := (obind m (fun _ => k))
  (at level 100, k at level 200, right associativity) : rust_scope.
Open Scope rust_scope.

(** Left-to-right loop over a list in the outcome monad
    ([for x in xs { .. }] with [?] or panics inside). *)
Fixpoint foldM {E S A : Type} (f : S -> A -> outcome E S) (s : S) (xs : list A) : outcome E S :=
  match xs with
  | [] => Ret s
  | x :: xs' => let? s' := f s x in foldM f s' xs'
  end.

Lemma foldM_app {E S A} (f : S -> A -> outcome E S) s xs ys :
  foldM f s (xs ++ ys) = (let? s' := foldM f s xs in foldM f s' ys).
Proof.
  revert s. induction xs as [|x xs IH]; intros s; simpl; [done|].
  destruct (f s x); simpl; [apply IH|done|done].
Qed.

(** A loop whose body cannot fail under an invariant [P] returns, and keeps it. *)
Lemma foldM_inv {E S A} (P : S -> Prop) (f : S -> A -> outcome E S) xs s :
  P s ->
  (forall s x, x ∈ xs -> P s -> exists s', f s x = Ret s' /\ P s') ->
  exists s', foldM f s xs = Ret s' /\ P s'.
Proof.
  revert s. induction xs as [|x xs IH]; intros s Hs Hf; simpl; [eauto|].
  destruct (Hf s x) as (s1 & -> & Hs1); [set_solver|done|]. simpl.
  apply IH; [done|]. intros s2 y Hy. apply Hf. set_solver.
Qed.

(** Case analysis on the outcome of a computation in a hypothesis. *)
Ltac destruct_outcome :=
  repeat match goal with
  | H : obind ?m _ = _ |- _ =>
      let E := fresh "Eout" in destruct m eqn:E; simpl in H; try discriminate H
  | H : Ret _ = Ret _ |- _ => injection H; clear H; intros; subst
  | H : Err _ = Err _ |- _ => injection H; clear H; intros; subst
  end.

(** ** Small automation *)

(** Split boolean conjunctions and turn boolean tests into propositions. *)
Ltac bool_hyps :=
  repeat match goal with
  | H : _ && _ = true |- _ => apply andb_prop in H; destruct H
  | H : _ || _ = false |- _ => apply orb_false_iff in H; destruct H
  | H : negb _ = true |- _ => apply negb_true_iff in H
  | H : negb _ = false |- _ => apply negb_false_iff in H
  | H : (_ <? _)%Z = true |- _ => apply Z.ltb_lt in H
  | H : (_ <? _)%Z = false |- _ => apply Z.ltb_ge in H
  | H : (_ <=? _)%Z = true |- _ => apply Z.leb_le in H
  | H : (_ <=? _)%Z = false |- _ => apply Z.leb_gt in H
  | H : (_ =? _)%Z = true |- _ => apply Z.eqb_eq in H
  | H : (_ =? _)%Z = false |- _ => apply Z.eqb_neq in H
  end.

Create HintDb convex discriminated.

(** ** Computations that cannot panic *)

Definition safe {E A} (m : outcome E A) : Prop := m <> Panic.

Lemma safe_bind {E A B} (m : outcome E A) (f : A -> outcome E B) :
  safe m -> (forall a, m = Ret a -> safe (f a)) -> safe (obind m f).
Proof. unfold safe. destruct m; simpl; [|done..]. auto. Qed.

Lemma safe_Ret {E A} (a : A) : safe (E := E) (Ret a).
Proof. done. Qed.
Lemma safe_Err {E A} (e : E) : safe (A := A) (Err e).
Proof. done. Qed.
Lemma safe_ensure {E} b (e : E) : safe (ensure b e).
Proof. by destruct b. Qed.
Lemma safe_ok_or {E A} (o : option A) (e : E) : safe (ok_or o e).
Proof. by destruct o. Qed.

#[export] Hint Resolve safe_Ret safe_Err safe_ensure safe_ok_or : convex.

(** Walks down binds and case distinctions. *)
Ltac prove_safe :=
  repeat first
    [ solve [eauto with convex]
    | apply safe_bind; [|intros]
    | match goal with |- safe (if ?b then _ else _) => destruct b eqn:? end
    | match goal with |- safe (match ?x with _ => _ end) => destruct x eqn:? end ].

(** ** Lists *)

(** [Iterator::take_while]. *)
Fixpoint take_while {A} (p : A -> bool) (l : list A) : list A :=
  match l with
  | [] => []
  | x :: l' => if p x then x :: take_while p l' else []
  end.

Lemma take_while_elem {A} (p : A -> bool) l x : x ∈ take_while p l -> x ∈ l /\ p x = true.
Proof.
  induction l as [|y l IH]; simpl; [by rewrite elem_of_nil|].
  destruct (p y) eqn:Hy; [|by rewrite elem_of_nil].
  rewrite elem_of_cons. intros [->|Hx]; [by split; [left|]|].
  destruct (IH Hx). by split; [right|].
Qed.

(** Iterator::filter with a boolean closure. *)
Fixpoint bfilter {A} (p : A -> bool) (l : list A) : list A :=
  match l with
  | [] => []
  | x :: l' => if p x then x :: bfilter p l' else bfilter p l'
  end.

Lemma elem_of_bfilter {A} (p : A -> bool) l x : x ∈ bfilter p l <-> x ∈ l /\ p x = true.
Proof.
  induction l as [|y l IH]; simpl; [set_solver|].
  destruct (p y) eqn:Hy; rewrite !elem_of_cons, IH; [naive_solver|].
  split; [naive_solver|]. intros [[->|] ?]; [congruence|done].
Qed.

(** Iterator::filter_map. *)
Fixpoint filter_map {A B} (f : A -> option B) (l : list A) : list B :=
  match l with
  | [] => []
  | x :: l' => match f x with Some y => y :: filter_map f l' | None => filter_map f l' end
  end.

Lemma elem_of_filter_map {A B} (f : A -> option B) l y :
  y ∈ filter_map f l <-> exists x, x ∈ l /\ f x = Some y.
Proof.
  induction l as [|x l IH]; simpl; [set_solver|].
  destruct (f x) as [z|] eqn:Hf; rewrite ?elem_of_cons, IH; setoid_rewrite elem_of_cons; [|naive_solver].
  split; [naive_solver|]. intros (x' & [->|] & ?); [left; congruence|right; eauto].
Qed.

Lemma filter_map_app {A B} (f : A -> option B) l k : filter_map f (l ++ k) = filter_map f l ++ filter_map f k.
Proof. induction l as [|x l IH]; simpl; [done|]. destruct (f x); simpl; by rewrite IH. Qed.

Lemma bfilter_all {A} (p : A -> bool) l :
  (forall x, x ∈ l -> p x = true) -> bfilter p l = l.
Proof.
  induction l as [|y l IH]; intros H; simpl; [done|].
  rewrite (H y) by left. f_equal. apply IH. intros x Hx. apply H. by right.
Qed.

Lemma bfilter_none {A} (p : A -> bool) l :
  (forall x, x ∈ l -> p x = false) -> bfilter p l = [].
Proof.
  induction l as [|y l IH]; intros H; simpl; [done|].
  rewrite (H y) by left. apply IH. intros x Hx. apply H. by right.
Qed.

Lemma bfilter_app {A} (p : A -> bool) l k : bfilter p (l ++ k) = bfilter p l ++ bfilter p k.
Proof. induction l as [|y l IH]; simpl; [done|]. destruct (p y); by rewrite IH. Qed.

Lemma bfilter_Permutation {A} (p : A -> bool) l k : l ≡ₚ k -> bfilter p l ≡ₚ bfilter p k.
Proof.
  induction 1 as [|x l k _ IH|x y l|l k m _ IH1 _ IH2]; simpl; [done| | |by etrans].
  - destruct (p x); [by constructor|done].
  - destruct (p x), (p y); try done. by apply perm_swap.
Qed.

Lemma existsb_elem {A} (p : A -> bool) l : existsb p l = true <-> exists x, x ∈ l /\ p x = true.
Proof. rewrite existsb_exists. by setoid_rewrite <- list_elem_of_In. Qed.

Lemma forallb_elem {A} (p : A -> bool) l : forallb p l = true <-> forall x, x ∈ l -> p x = true.
Proof. rewrite forallb_forall. by setoid_rewrite <- list_elem_of_In. Qed.

Lemma elem_of_concat_map {A B} (f : A -> list B) l y : y ∈ concat (map f l) <-> exists x, x ∈ l /\ y ∈ f x.
Proof.
  induction l as [|x l IH]; cbn [map concat]; [set_solver|]. rewrite elem_of_app, IH. setoid_rewrite elem_of_cons. naive_solver.
Qed.

(** What a family of lists holds, when one member is replaced. *)
Lemma concat_map_split {A B} (f : A -> list B) l i x :
  l !! i = Some x -> concat (map f l) ≡ₚ f x ++ concat (map f (delete i l)).
Proof.
  intros Hi. rewrite <- (take_drop_middle l i x Hi) at 1. rewrite delete_take_drop, !map_app, !concat_app. cbn [map concat].
  by rewrite !(assoc (++)), (comm (++) (concat (map f (take i l))) (f x)).
Qed.

Lemma concat_map_insert {A B} (f : A -> list B) l i x y :
  l !! i = Some x -> concat (map f (<[i := y]> l)) ≡ₚ f y ++ concat (map f (delete i l)).
Proof.
  intros Hi. apply lookup_lt_Some in Hi. rewrite (concat_map_split f (<[i := y]> l) i y) by (by apply list_lookup_insert_eq).
  by rewrite !delete_take_drop, take_insert_ge, drop_insert_lt by lia.
Qed.

(** ** Bytes *)

(** A [u8] is a [Z] in [0, 256). *)
Definition u8 (b : Z) : Prop := (0 <= b < 256)%Z.
Definition bytes (l : list Z) : Prop := Forall u8 l.

#[global] Instance u8_dec b : Decision (u8 b).
Proof. unfold u8. apply _. Defined.

#[global] Instance bytes_dec l : Decision (bytes l).
Proof. unfold bytes. apply _. Defined.

Lemma bytes_app l k : bytes (l ++ k) <-> bytes l /\ bytes k.
Proof. apply Forall_app. Qed.

Lemma bytes_cons b l : bytes (b :: l) <-> u8 b /\ bytes l.
Proof. apply Forall_cons. Qed.
