(* ===== verification/Ord.v ===== *)
(** * Ord: Rust's [Ord] trait

    [Ord A] is the [cmp] method of [std::cmp::Ord]; [OrdLaws A] are the laws
    the trait documents (a total order consistent with [Eq]).  The instances
    are the ones the code relies on: integers, [bool], derived lexicographic
    orders on tuples and structs, [Option] ([None] first) and slices.  The
    tactic [order] closes goals about [cmp]-comparisons. *)

From S2P Require Import Prelude.

Class Ord (A : Type) := cmp : A -> A -> comparison.
#[global] Hint Mode Ord ! : typeclass_instances.

Class OrdLaws (A : Type) `{!Ord A} : Prop := {
  cmp_eq_iff (x y : A) : cmp x y = Eq <-> x = y;
  cmp_opp (x y : A) : cmp y x = CompOpp (cmp x y);
  cmp_lt_trans (x y z : A) : cmp x y = Lt -> cmp y z = Lt -> cmp x z = Lt;
}.

Declare Scope ord_scope.
Delimit Scope ord_scope with ord.
Open Scope ord_scope.

Definition ltb {A} `{Ord A} (x y : A) : bool := match cmp x y with Lt => true | _ => false end.
Definition leb {A} `{Ord A} (x y : A) : bool := match cmp x y with Gt => false | _ => true end.
Definition eqb {A} `{Ord A} (x y : A) : bool := match cmp x y with Eq => true | _ => false end.

Definition olt {A} `{Ord A} (x y : A) : Prop := cmp x y = Lt.
Definition ole {A} `{Ord A} (x y : A) : Prop := cmp x y <> Gt.

Infix "≺" := olt (at level 70, no associativity) : ord_scope.
Infix "≼" := ole (at level 70, no associativity) : ord_scope.
Infix "<?" := ltb (at level 70, no associativity) : ord_scope.
Infix "<=?" := leb (at level 70, no associativity) : ord_scope.
Infix "==?" := eqb (at level 70, no associativity) : ord_scope.

(** [std::cmp::max] (the second argument when equal) and [min]. *)
Definition omax {A} `{Ord A} (x y : A) : A := if y <? x then x else y.
Definition omin {A} `{Ord A} (x y : A) : A := if y <? x then y else x.

Section laws.
Context {A : Type} `{OrdLaws A}.
Implicit Types x y z : A.

Lemma cmp_refl x : cmp x x = Eq.
Proof. by apply cmp_eq_iff. Qed.

Lemma olt_irrefl x : ~ x ≺ x.
Proof. unfold olt. by rewrite cmp_refl. Qed.

Lemma olt_trans x y z : x ≺ y -> y ≺ z -> x ≺ z.
Proof. apply cmp_lt_trans. Qed.

Lemma ole_alt x y : x ≼ y <-> x ≺ y \/ x = y.
Proof.
  unfold ole, olt. rewrite <- cmp_eq_iff. destruct (cmp x y); naive_solver.
Qed.

Lemma not_olt x y : ~ x ≺ y <-> y ≼ x.
Proof. unfold ole, olt. rewrite (cmp_opp x y). destruct (cmp x y); naive_solver. Qed.

Lemma not_ole x y : ~ x ≼ y <-> y ≺ x.
Proof. unfold ole, olt. rewrite (cmp_opp x y). destruct (cmp x y); naive_solver. Qed.

Lemma ole_refl x : x ≼ x.
Proof. apply ole_alt. by right. Qed.

Lemma olt_ole x y : x ≺ y -> x ≼ y.
Proof. rewrite ole_alt. by left. Qed.

Lemma olt_ole_trans x y z : x ≺ y -> y ≼ z -> x ≺ z.
Proof. rewrite ole_alt. intros ? [?| ->]; [by eapply olt_trans|done]. Qed.

Lemma ole_olt_trans x y z : x ≼ y -> y ≺ z -> x ≺ z.
Proof. rewrite ole_alt. intros [?| ->] ?; [by eapply olt_trans|done]. Qed.

Lemma ole_trans x y z : x ≼ y -> y ≼ z -> x ≼ z.
Proof. rewrite (ole_alt x y). intros [?| ->] ?; [|done]. apply olt_ole. by eapply olt_ole_trans. Qed.

Lemma ole_antisym x y : x ≼ y -> y ≼ x -> x = y.
Proof. rewrite (ole_alt x y). intros [?|?] Hyx; [|done]. by apply not_olt in Hyx. Qed.

Lemma olt_total x y : x ≺ y \/ x = y \/ y ≺ x.
Proof.
  destruct (cmp x y) eqn:E; [right; left; by apply cmp_eq_iff|by left|].
  right; right. unfold olt. by rewrite cmp_opp, E.
Qed.

Lemma ltb_lt x y : (x <? y) = true <-> x ≺ y.
Proof. unfold ltb, olt. destruct (cmp x y); naive_solver. Qed.
Lemma ltb_ge x y : (x <? y) = false <-> y ≼ x.
Proof. rewrite <- not_olt, <- ltb_lt. by destruct (x <? y). Qed.
Lemma leb_le x y : (x <=? y) = true <-> x ≼ y.
Proof. unfold leb, ole. destruct (cmp x y); naive_solver. Qed.
Lemma leb_gt x y : (x <=? y) = false <-> y ≺ x.
Proof. rewrite <- not_ole, <- leb_le. by destruct (x <=? y). Qed.
Lemma eqb_eq x y : (x ==? y) = true <-> x = y.
Proof. rewrite <- cmp_eq_iff. unfold eqb. destruct (cmp x y); naive_solver. Qed.
Lemma eqb_neq x y : (x ==? y) = false <-> x <> y.
Proof. rewrite <- eqb_eq. by destruct (x ==? y). Qed.
Lemma eqb_refl x : (x ==? x) = true.
Proof. by apply eqb_eq. Qed.

#[global] Instance ord_eq_dec : EqDecision A.
Proof. intros x y. destruct (x ==? y) eqn:E; [left; by apply eqb_eq|right; by apply eqb_neq]. Defined.
End laws.

#[global] Remove Hints ord_eq_dec : typeclass_instances.

#[global] Instance olt_dec {A} `{Ord A} (x y : A) : Decision (x ≺ y).
Proof. unfold olt. apply _. Defined.
#[global] Instance ole_dec {A} `{Ord A} (x y : A) : Decision (x ≼ y).
Proof. unfold ole. apply _. Defined.

(** Turn every boolean or negated comparison in the context into [≺], [≼], [=]. *)
Ltac order_norm :=
  repeat match goal with
  | H : (_ <? _) = true |- _ => apply ltb_lt in H
  | H : (_ <? _) = false |- _ => apply ltb_ge in H
  | H : (_ <=? _) = true |- _ => apply leb_le in H
  | H : (_ <=? _) = false |- _ => apply leb_gt in H
  | H : (_ ==? _) = true |- _ => apply eqb_eq in H
  | H : (_ ==? _) = false |- _ => apply eqb_neq in H
  | H : ~ (_ ≺ _) |- _ => apply not_olt in H
  | H : ~ (_ ≼ _) |- _ => apply not_ole in H
  end.

(** Derive one new consequence of two comparisons. *)
Ltac order_new P prf :=
  lazymatch goal with
  | _ : P |- _ => fail
  | _ => pose proof (prf : P)
  end.

Ltac order_sat :=
  repeat match goal with
  | H : ?x ≺ ?x |- _ => exfalso; exact (olt_irrefl x H)
  | H1 : ?x ≺ ?y, H2 : ?y ≺ ?z |- _ => order_new (x ≺ z) (olt_trans x y z H1 H2)
  | H1 : ?x ≺ ?y, H2 : ?y ≼ ?z |- _ => order_new (x ≺ z) (olt_ole_trans x y z H1 H2)
  | H1 : ?x ≼ ?y, H2 : ?y ≺ ?z |- _ => order_new (x ≺ z) (ole_olt_trans x y z H1 H2)
  | H1 : ?x ≼ ?y, H2 : ?y ≼ ?z |- _ => order_new (x ≼ z) (ole_trans x y z H1 H2)
  end.

(** Decide comparison goals from the comparisons in the context. *)
Ltac order :=
  intros; order_norm; subst;
  lazymatch goal with
  | |- (_ <? _) = true => apply ltb_lt
  | |- (_ <? _) = false => apply ltb_ge
  | |- (_ <=? _) = true => apply leb_le
  | |- (_ <=? _) = false => apply leb_gt
  | |- _ => idtac
  end;
  first
  [ assumption
  | apply ole_refl
  | lazymatch goal with
    | |- ?x ≺ ?y => destruct (decide (x ≺ y)) as [?|]; [assumption|exfalso; order_norm; order_sat]
    | |- ?x ≼ ?y => destruct (decide (x ≼ y)) as [?|]; [assumption|exfalso; order_norm; order_sat]
    | |- ?x = ?y => apply ole_antisym;
        [destruct (decide (x ≼ y)) as [?|]; [assumption|exfalso; order_norm; order_sat]
        |destruct (decide (y ≼ x)) as [?|]; [assumption|exfalso; order_norm; order_sat]]
    | |- ?x <> ?y => intros ->; exfalso; order_sat
    | |- _ => exfalso; order_sat
    end
  | exfalso; order_sat ].

(** ** Instances *)

#[global] Instance Z_Ord : Ord Z := Z.compare.
#[global] Instance Z_OrdLaws : OrdLaws Z.
Proof.
  constructor; unfold cmp, Z_Ord.
  - apply Z.compare_eq_iff.
  - intros x y. apply Z.compare_antisym.
  - intros x y z. rewrite !Z.compare_lt_iff. lia.
Qed.

Lemma Z_olt (x y : Z) : x ≺ y <-> (x < y)%Z.
Proof. apply Z.compare_lt_iff. Qed.
Lemma Z_ole (x y : Z) : x ≼ y <-> (x <= y)%Z.
Proof. unfold ole, cmp, Z_Ord. by rewrite Z.compare_le_iff. Qed.

Lemma Z_ltb_spec (a b : Z) : BoolSpec (a < b)%Z (b <= a)%Z (a <? b).
Proof.
  destruct (a <? b) eqn:E; constructor; [apply Z_olt; by apply ltb_lt|apply Z_ole; by apply ltb_ge].
Qed.
Lemma Z_leb_spec (a b : Z) : BoolSpec (a <= b)%Z (b < a)%Z (a <=? b).
Proof.
  destruct (a <=? b) eqn:E; constructor; [apply Z_ole; by apply leb_le|apply Z_olt; by apply leb_gt].
Qed.

#[global] Instance nat_Ord : Ord nat := Nat.compare.
#[global] Instance nat_OrdLaws : OrdLaws nat.
Proof.
  constructor; unfold cmp, nat_Ord.
  - apply Nat.compare_eq_iff.
  - intros x y. apply Nat.compare_antisym.
  - intros x y z. rewrite !Nat.compare_lt_iff. lia.
Qed.

(** [false < true]. *)
#[global] Instance bool_Ord : Ord bool := fun a b =>
  match a, b with
  | false, true => Lt
  | true, false => Gt
  | _, _ => Eq
  end.
#[global] Instance bool_OrdLaws : OrdLaws bool.
Proof.
  constructor; unfold cmp, bool_Ord.
  - intros [] []; split; congruence.
  - by intros [] [].
  - by intros [] [] [].
Qed.

(** Ordering of a two-field struct or tuple: the first field decides first. *)
Definition lex_cmp (c d : comparison) : comparison := match c with Eq => d | c => c end.

#[global] Instance prod_Ord {A B} `{Ord A, Ord B} : Ord (A * B) := fun p q =>
  lex_cmp (cmp p.1 q.1) (cmp p.2 q.2).

#[global] Instance prod_OrdLaws {A B} `{OrdLaws A, OrdLaws B} : OrdLaws (A * B).
Proof.
  constructor; unfold cmp, prod_Ord.
  - intros [a b] [a' b']; simpl. destruct (cmp a a') eqn:E; simpl.
    + apply cmp_eq_iff in E as ->. rewrite cmp_eq_iff. naive_solver.
    + split; [done|]. intros [= -> ->]. by rewrite cmp_refl in E.
    + split; [done|]. intros [= -> ->]. by rewrite cmp_refl in E.
  - intros [a b] [a' b']; simpl. rewrite (cmp_opp a a').
    destruct (cmp a a'); simpl; [apply cmp_opp|done|done].
  - intros [a1 b1] [a2 b2] [a3 b3]; simpl.
    destruct (cmp a1 a2) eqn:E1; simpl; [|intros _|done].
    + apply cmp_eq_iff in E1 as ->.
      destruct (cmp a2 a3); simpl; [apply cmp_lt_trans|done|done].
    + destruct (cmp a2 a3) eqn:E2; simpl; [|intros _|done].
      * apply cmp_eq_iff in E2 as ->. by rewrite E1.
      * by rewrite (cmp_lt_trans a1 a2 a3).
Qed.

Lemma pair_olt {A B} `{OrdLaws A, OrdLaws B} (a a' : A) (b b' : B) :
  (a, b) ≺ (a', b') <-> a ≺ a' \/ a = a' /\ b ≺ b'.
Proof.
  unfold olt. change (cmp (a, b) (a', b')) with (lex_cmp (cmp a a') (cmp b b')).
  rewrite <- cmp_eq_iff. destruct (cmp a a'); simpl; intuition congruence.
Qed.

(** [None < Some(_)]. *)
#[global] Instance option_Ord {A} `{Ord A} : Ord (option A) := fun a b =>
  match a, b with
  | None, None => Eq
  | None, Some _ => Lt
  | Some _, None => Gt
  | Some x, Some y => cmp x y
  end.

#[global] Instance option_OrdLaws {A} `{OrdLaws A} : OrdLaws (option A).
Proof.
  constructor; unfold cmp, option_Ord.
  - intros [x|] [y|]; rewrite ?cmp_eq_iff; naive_solver.
  - intros [x|] [y|]; try done. apply cmp_opp.
  - intros [x|] [y|] [z|]; try done. apply cmp_lt_trans.
Qed.

(** Slices compare lexicographically, a proper prefix first. *)
Fixpoint list_cmp {A} `{Ord A} (l k : list A) : comparison :=
  match l, k with
  | [], [] => Eq
  | [], _ :: _ => Lt
  | _ :: _, [] => Gt
  | x :: l', y :: k' => lex_cmp (cmp x y) (list_cmp l' k')
  end.

#[global] Instance list_Ord {A} `{Ord A} : Ord (list A) := list_cmp.

#[global] Instance list_OrdLaws {A} `{OrdLaws A} : OrdLaws (list A).
Proof.
  constructor; unfold cmp, list_Ord.
  - induction x as [|a x IH]; intros [|b y]; simpl; try done.
    destruct (cmp a b) eqn:E; simpl.
    + apply cmp_eq_iff in E as ->. rewrite IH. naive_solver.
    + split; [done|]. intros [= -> ->]. by rewrite cmp_refl in E.
    + split; [done|]. intros [= -> ->]. by rewrite cmp_refl in E.
  - induction x as [|a x IH]; intros [|b y]; simpl; try done.
    rewrite (cmp_opp a b). destruct (cmp a b); simpl; [apply IH|done|done].
  - induction x as [|a x IH]; intros [|b y] [|c z]; simpl; try done.
    destruct (cmp a b) eqn:E1; simpl; [|intros _|done].
    + apply cmp_eq_iff in E1 as ->. destruct (cmp b c); simpl; [apply IH|done|done].
    + destruct (cmp b c) eqn:E2; simpl; [|intros _|done].
      * apply cmp_eq_iff in E2 as ->. by rewrite E1.
      * by rewrite (cmp_lt_trans a b c).
Qed.

Section list_order.
Context {A : Type} `{OrdLaws A}.
Implicit Types l k m : list A.

Lemma nil_ole l : [] ≼ l.
Proof. by destruct l. Qed.

Lemma not_olt_nil l : ~ l ≺ [].
Proof. by destruct l. Qed.

Lemma cons_olt x y l k : x :: l ≺ y :: k <-> x ≺ y \/ x = y /\ l ≺ k.
Proof.
  unfold olt. change (cmp (x :: l) (y :: k)) with (lex_cmp (cmp x y) (cmp l k)).
  rewrite <- cmp_eq_iff. destruct (cmp x y); simpl; intuition congruence.
Qed.

Lemma app_olt_same l k m : l ++ k ≺ l ++ m <-> k ≺ m.
Proof.
  induction l as [|x l IH]; simpl; [done|]. rewrite cons_olt, IH.
  split; [intros [Hx|[_ ?]]; [by apply olt_irrefl in Hx|done]|by right].
Qed.

Lemma app_ole_same l k m : l ++ k ≼ l ++ m <-> k ≼ m.
Proof. by rewrite <- !not_olt, app_olt_same. Qed.

(** A slice is at most every slice it is a prefix of. *)
Lemma prefix_ole l k : l `prefix_of` k -> l ≼ k.
Proof.
  intros [m ->]. rewrite <- (app_nil_r l) at 1. apply app_ole_same, nil_ole.
Qed.
End list_order.

(** An order read off an injective key, as a derived [Ord] of an enum or struct. *)
Lemma OrdLaws_key {A B} `{OrdLaws B} (key : A -> B) : (forall x y, key x = key y -> x = y) ->
  @OrdLaws A (fun x y => cmp (key x) (key y)).
Proof.
  intros Hinj. constructor.
  - intros x y. unfold cmp at 1. rewrite cmp_eq_iff. split; [apply Hinj|by intros ->].
  - intros x y. exact (cmp_opp (key x) (key y)).
  - intros x y z. exact (cmp_lt_trans (key x) (key y) (key z)).
Qed.
