(* ===== verification/BTreeMap.v ===== *)
(** * BTreeMap: the ordered maps of [std::collections] and [imbl]

    [BTreeMap K V] is the list of entries in ascending key order.  The
    operations are the ones the modelled code calls: [get], [insert],
    [remove], [range] with the bounds used, [first]/[last] and iteration
    (the list itself).  [wf] is the representation invariant (strictly
    ascending keys); every operation preserves it and is characterised by
    membership of entries. *)

From S2P Require Import Prelude Ord.

Module BTreeMap.

Definition t (K V : Type) : Type := list (K * V).

Section ops.
Context {K V : Type} `{Ord K}.
Implicit Types (k : K) (v : V) (m : t K V).

Fixpoint get k m : option V :=
  match m with
  | [] => None
  | (k', v') :: m' => if k ==? k' then Some v' else get k m'
  end.

Fixpoint insert k v m : t K V :=
  match m with
  | [] => [(k, v)]
  | (k', v') :: m' =>
      match cmp k k' with
      | Lt => (k, v) :: m
      | Eq => (k, v) :: m'
      | Gt => (k', v') :: insert k v m'
      end
  end.

Fixpoint remove k m : t K V :=
  match m with
  | [] => []
  | (k', v') :: m' => if k ==? k' then m' else (k', v') :: remove k m'
  end.

(** [map.range(lo..)], [map.range(..hi)], [map.range(..=hi)], [map.range(lo..=hi)]. *)
Definition range_from (lo : K) m : t K V := bfilter (fun e => lo <=? e.1) m.
Definition range_to (hi : K) m : t K V := bfilter (fun e => e.1 <? hi) m.
Definition range_to_incl (hi : K) m : t K V := bfilter (fun e => e.1 <=? hi) m.
Definition range_incl (lo hi : K) m : t K V :=
  bfilter (fun e => (lo <=? e.1) && (e.1 <=? hi)) m.

Fixpoint wf m : Prop :=
  match m with
  | [] => True
  | (k, _) :: m' => (forall e, e ∈ m' -> k ≺ e.1) /\ wf m'
  end.
End ops.

Section laws.
Context {K V : Type} `{OrdLaws K}.
Implicit Types (k : K) (v : V) (m : t K V).

Lemma wf_bfilter p m : wf m -> wf (bfilter p m).
Proof.
  induction m as [|[k v] m IH]; simpl; [done|]. intros [Hlt Hwf].
  destruct (p (k, v)); simpl; [|by apply IH]. split; [|by apply IH].
  intros e He. apply Hlt. by apply elem_of_bfilter in He as [? _].
Qed.

Lemma wf_app_inv m1 m2 : wf (m1 ++ m2) -> wf m1 /\ wf m2.
Proof.
  induction m1 as [|[k v] m1 IH]; simpl; [done|]. intros [Hlt Hwf].
  destruct (IH Hwf). split; [|done]. split; [|done]. intros e He. apply Hlt. set_solver.
Qed.

Lemma wf_app m1 m2 :
  wf m1 -> wf m2 -> (forall e1 e2, e1 ∈ m1 -> e2 ∈ m2 -> e1.1 ≺ e2.1) -> wf (m1 ++ m2).
Proof.
  induction m1 as [|[k v] m1 IH]; simpl; [done|]. intros [Hlt Hwf] H2 H12. split.
  - intros e [He|He]%elem_of_app; [by apply Hlt|]. apply (H12 (k, v)); [left|done].
  - apply IH; [done..|]. intros e1 e2 He1 He2. apply H12; [by right|done].
Qed.

Lemma wf_app_lt m1 m2 e1 e2 : wf (m1 ++ m2) -> e1 ∈ m1 -> e2 ∈ m2 -> e1.1 ≺ e2.1.
Proof.
  induction m1 as [|[k v] m1 IH]; simpl; [set_solver|]. intros [Hlt Hwf] [->|He]%elem_of_cons H2; [|by apply IH].
  apply Hlt. set_solver.
Qed.

Lemma wf_unique m k v v' : wf m -> (k, v) ∈ m -> (k, v') ∈ m -> v = v'.
Proof.
  induction m as [|[k0 v0] m IH]; simpl; [by rewrite elem_of_nil|]. intros [Hlt Hwf].
  rewrite !elem_of_cons. intros [Heq|Hin] [Heq'|Hin']; simplify_eq; [done|..].
  - apply Hlt in Hin'. by apply olt_irrefl in Hin'.
  - apply Hlt in Hin. by apply olt_irrefl in Hin.
  - by apply IH.
Qed.

Lemma elem_of_get m k v : wf m -> get k m = Some v <-> (k, v) ∈ m.
Proof.
  induction m as [|[k0 v0] m IH]; simpl; [by rewrite elem_of_nil|]. intros [Hlt Hwf].
  rewrite elem_of_cons. destruct (k ==? k0) eqn:E.
  - apply eqb_eq in E as ->. split; [intros [= ->]; by left|].
    intros [[= ->]|Hin]; [done|]. apply Hlt in Hin. by apply olt_irrefl in Hin.
  - rewrite IH by done. split; [by right|]. intros [[= -> ->]|Hin]; [|done].
    by rewrite eqb_refl in E.
Qed.

Lemma get_None m k : get k m = None <-> forall v, (k, v) ∉ m.
Proof.
  induction m as [|[k0 v0] m IH]; simpl; [set_solver|]. destruct (k ==? k0) eqn:E.
  - apply eqb_eq in E as ->. split; [done|]. intros Hn. destruct (Hn v0). left.
  - rewrite IH. setoid_rewrite elem_of_cons. split; [|naive_solver].
    intros Hn v [[= -> ->]|Hin]; [by rewrite eqb_refl in E|by apply (Hn v)].
Qed.

Lemma elem_of_insert m k v k' v' :
  wf m -> (k', v') ∈ insert k v m <-> (k' = k /\ v' = v) \/ (k' <> k /\ (k', v') ∈ m).
Proof.
  induction m as [|[k0 v0] m IH]; simpl; [set_solver|]. intros [Hlt Hwf].
  assert (Hne : forall w, (k', w) ∈ m -> k' <> k0).
  { intros w Hw ->. apply Hlt in Hw. by apply olt_irrefl in Hw. }
  destruct (cmp k k0) eqn:E; rewrite !elem_of_cons.
  - apply cmp_eq_iff in E as ->. naive_solver.
  - assert (forall w, (k', w) ∈ m -> k' <> k).
    { intros w Hw ->. apply Hlt in Hw. simpl in Hw. apply (olt_irrefl k0). by eapply olt_trans. }
    assert (k0 <> k) by (intros ->; by rewrite cmp_refl in E). naive_solver.
  - rewrite IH by done. assert (k0 <> k) by (intros ->; by rewrite cmp_refl in E). naive_solver.
Qed.

Lemma wf_insert m k v : wf m -> wf (insert k v m).
Proof.
  induction m as [|[k0 v0] m IH]; simpl; [set_solver|]. intros [Hlt Hwf].
  destruct (cmp k k0) eqn:E; simpl.
  - apply cmp_eq_iff in E as ->. done.
  - split; [|done]. intros e [->|He]%elem_of_cons; [done|]. eapply olt_trans; [exact E|by apply Hlt].
  - split; [|by apply IH]. intros [k1 v1] He. simpl.
    apply elem_of_insert in He as [[-> ->]|[_ Hin]]; [|by apply (Hlt (k1, v1))|done].
    unfold olt. by rewrite cmp_opp, E.
Qed.

Lemma insert_last m k v : wf (m ++ [(k, v)]) -> insert k v m = m ++ [(k, v)].
Proof.
  induction m as [|[k0 v0] m IH]; simpl; [done|]. intros [Hlt Hwf].
  assert (Hk : k0 ≺ k) by (apply (Hlt (k, v)), elem_of_app; right; left).
  rewrite cmp_opp. unfold olt in Hk. rewrite Hk. simpl. by rewrite IH.
Qed.

Lemma elem_of_remove m k k' v' :
  wf m -> (k', v') ∈ remove k m <-> k' <> k /\ (k', v') ∈ m.
Proof.
  induction m as [|[k0 v0] m IH]; simpl; [set_solver|]. intros [Hlt Hwf].
  destruct (k ==? k0) eqn:E.
  - apply eqb_eq in E as ->. rewrite elem_of_cons. split; [|naive_solver].
    intros Hin. split; [|by right]. intros ->. apply Hlt in Hin. by apply olt_irrefl in Hin.
  - rewrite !elem_of_cons, IH by done. apply eqb_neq in E. naive_solver.
Qed.

Lemma wf_remove m k : wf m -> wf (remove k m).
Proof.
  induction m as [|[k0 v0] m IH]; simpl; [done|]. intros [Hlt Hwf].
  destruct (k ==? k0); [done|]. simpl. split; [|by apply IH].
  intros [k1 v1] He. apply elem_of_remove in He as [_ ?]; [by apply (Hlt (k1, v1))|done].
Qed.

Lemma get_insert_eq m k v : wf m -> get k (insert k v m) = Some v.
Proof.
  intros Hm. apply elem_of_get; [by apply wf_insert|]. apply elem_of_insert; [done|]. by left.
Qed.

Lemma get_insert_ne m k k' v : wf m -> k' <> k -> get k' (insert k v m) = get k' m.
Proof.
  intros Hm Hne. apply option_eq. intros v'.
  rewrite !elem_of_get, elem_of_insert by auto using wf_insert. naive_solver.
Qed.

Lemma get_insert_if `{!EqDecision K} m k k' v :
  wf m -> get k' (insert k v m) = if decide (k' = k) then Some v else get k' m.
Proof. intros Hm. destruct (decide (k' = k)) as [->|]; [by apply get_insert_eq|by apply get_insert_ne]. Qed.

Lemma get_remove_eq m k : wf m -> get k (remove k m) = None.
Proof. intros Hm. apply get_None. intros v Hin%elem_of_remove; naive_solver. Qed.

Lemma get_remove_ne m k k' : wf m -> k' <> k -> get k' (remove k m) = get k' m.
Proof.
  intros Hm Hne. apply option_eq. intros v'.
  rewrite !elem_of_get, elem_of_remove by auto using wf_remove. naive_solver.
Qed.

Lemma get_remove_Some m k k' v : wf m -> get k' (remove k m) = Some v -> get k' m = Some v.
Proof.
  intros Hm. rewrite !elem_of_get, elem_of_remove by auto using wf_remove. naive_solver.
Qed.

(** On a sorted map, [take_while] of a downward closed test is [filter]. *)
Lemma take_while_downward (p : K * V -> bool) m :
  wf m -> (forall e e', e ∈ m -> e' ∈ m -> e.1 ≺ e'.1 -> p e' = true -> p e = true) ->
  take_while p m = bfilter p m.
Proof.
  induction m as [|[k v] m IH]; simpl; [done|]. intros [Hlt Hwf] Hdown.
  destruct (p (k, v)) eqn:Hp.
  - f_equal. apply IH; [done|]. intros e e' He He'. apply Hdown; by right.
  - symmetry. apply bfilter_none. intros e He. destruct (p e) eqn:Hpe; [|done].
    rewrite (Hdown (k, v) e) in Hp; [done|left|by right|by apply Hlt|done].
Qed.

(** Well-formed maps with the same entries are the same list. *)
Lemma wf_ext m1 m2 : wf m1 -> wf m2 -> (forall e, e ∈ m1 <-> e ∈ m2) -> m1 = m2.
Proof.
  revert m2. induction m1 as [|[k1 v1] m1 IH]; intros [|[k2 v2] m2]; simpl; intros H1 H2 Hin.
  - done.
  - by destruct (proj1 (elem_of_nil _) (proj2 (Hin (k2, v2)) (list_elem_of_here _ _))).
  - by destruct (proj1 (elem_of_nil _) (proj1 (Hin (k1, v1)) (list_elem_of_here _ _))).
  - destruct H1 as [Hlt1 H1], H2 as [Hlt2 H2].
    assert (Hh : (k1, v1) = (k2, v2)).
    { pose proof (proj1 (Hin (k1, v1)) (list_elem_of_here _ _)) as Ha.
      pose proof (proj2 (Hin (k2, v2)) (list_elem_of_here _ _)) as Hb.
      apply elem_of_cons in Ha as [?|Ha]; [done|]. apply elem_of_cons in Hb as [?|Hb]; [done|].
      apply Hlt2 in Ha. apply Hlt1 in Hb. simpl in *. exfalso. order. }
    injection Hh as <- <-. f_equal. apply IH; [done..|]. intros e. split; intros He.
    + pose proof (proj1 (Hin e) (list_elem_of_further _ _ _ He)) as Hc.
      apply elem_of_cons in Hc as [->|?]; [|done]. apply Hlt1 in He. by apply olt_irrefl in He.
    + pose proof (proj2 (Hin e) (list_elem_of_further _ _ _ He)) as Hc.
      apply elem_of_cons in Hc as [->|?]; [|done]. apply Hlt2 in He. by apply olt_irrefl in He.
Qed.

Lemma wf_NoDup_fst m : wf m -> NoDup m.*1.
Proof.
  induction m as [|[k v] m IH]; simpl; [constructor|]. intros [Hlt Hwf].
  constructor; [|by apply IH]. intros (e & -> & He)%list_elem_of_fmap.
  apply Hlt in He. by apply olt_irrefl in He.
Qed.

(** The last entry of a well-formed map has the greatest key. *)
Lemma last_Some m e :
  wf m -> last m = Some e -> e ∈ m /\ forall e', e' ∈ m -> e'.1 ≼ e.1.
Proof.
  intros Hm. induction m as [|[k v] m IH]; [done|]. destruct Hm as [Hlt Hwf].
  destruct m as [|e1 m].
  - intros [= <-]. split; [left|]. intros e' ->%list_elem_of_singleton. apply ole_refl.
  - change (last ((k, v) :: e1 :: m)) with (last (e1 :: m)). intros Hl.
    destruct (IH Hwf Hl) as [Hin Hmax]. split; [by right|].
    intros e' [->|He']%elem_of_cons; [|by apply Hmax]. apply olt_ole, Hlt, Hin.
Qed.

Lemma last_range_to_Some hi m e :
  wf m -> last (range_to hi m) = Some e ->
  e ∈ m /\ e.1 ≺ hi /\ forall e', e' ∈ m -> e'.1 ≺ hi -> e'.1 ≼ e.1.
Proof.
  intros Hm Hl. apply last_Some in Hl as [He Hmax]; [|by apply wf_bfilter].
  apply elem_of_bfilter in He as [He Hlt]. apply ltb_lt in Hlt. split_and!; [done..|].
  intros e' He' Hlt'. apply Hmax, elem_of_bfilter. split; [done|by apply ltb_lt].
Qed.

Lemma last_range_to_incl_Some hi m e :
  wf m -> last (range_to_incl hi m) = Some e ->
  e ∈ m /\ e.1 ≼ hi /\ forall e', e' ∈ m -> e'.1 ≼ hi -> e'.1 ≼ e.1.
Proof.
  intros Hm Hl. apply last_Some in Hl as [He Hmax]; [|by apply wf_bfilter].
  apply elem_of_bfilter in He as [He Hlt]. apply leb_le in Hlt. split_and!; [done..|].
  intros e' He' Hlt'. apply Hmax, elem_of_bfilter. split; [done|by apply leb_le].
Qed.

Lemma last_bfilter_None (p : K * V -> bool) m :
  last (bfilter p m) = None -> forall e, e ∈ m -> p e = false.
Proof.
  rewrite last_None. intros Hnil e He. destruct (p e) eqn:Hp; [|done].
  assert (Hin : e ∈ bfilter p m) by (by apply elem_of_bfilter).
  rewrite Hnil in Hin. by apply elem_of_nil in Hin.
Qed.
(** Entries that are changed in place, each to a related one. *)
Lemma get_Forall2 {W} (R : V -> W -> Prop) m (m' : t K W) :
  Forall2 (fun e e' => e'.1 = e.1 /\ R e.2 e'.2) m m' -> wf m ->
  wf m' /\ forall k, option_Forall2 R (get k m) (get k m').
Proof.
  induction 1 as [|[k1 v] [k2 w] m m' [Hk HR] Hm IH]; simpl in *; [by repeat constructor|]. intros [Hlt Hwf]. subst k2.
  destruct (IH Hwf) as [Hwf' Hget]. split; [split; [|done]|].
  - intros [k2 w2] [j Hj]%list_elem_of_lookup. destruct (Forall2_lookup_r _ _ _ _ _ Hm Hj) as ([k3 v3] & Hin3 & Heq & _). simpl in *. subst.
    apply (Hlt (k3, v3)). by apply list_elem_of_lookup_2 in Hin3.
  - intros k. destruct (k ==? k1); [by constructor|apply Hget].
Qed.

Lemma get_app m1 m2 k : get k (m1 ++ m2) = match get k m1 with Some v => Some v | None => get k m2 end.
Proof. induction m1 as [|[q w] m1 IH]; simpl; [done|]. by destruct (k ==? q). Qed.
End laws.

(** Maps are related entry by entry when their lookups are. *)
Lemma Forall2_get `{OrdLaws K} {V W} (R : K -> V -> W -> Prop) (m : t K V) : forall (m' : t K W), wf m -> wf m' ->
  (forall k, option_Forall2 (R k) (get k m) (get k m')) -> Forall2 (fun e e' => e.1 = e'.1 /\ R e.1 e.2 e'.2) m m'.
Proof.
  induction m as [|[k v] m IH]; intros [|[k' w] m']; simpl; intros Hm Hm' Hget; [constructor|..].
  - specialize (Hget k'). rewrite eqb_refl in Hget. inversion Hget.
  - specialize (Hget k). rewrite eqb_refl in Hget. inversion Hget.
  - destruct Hm as [Hlt Hm], Hm' as [Hlt' Hm'].
    assert (Hk : k = k').
    { pose proof (Hget k) as H1. pose proof (Hget k') as H2. rewrite eqb_refl in H1, H2. destruct (k ==? k') eqn:E; [by apply eqb_eq|].
      destruct (k' ==? k) eqn:E'; [apply eqb_eq in E' as ->; by rewrite eqb_refl in E|].
      destruct (get k m') as [w'|] eqn:Hw; [|by inversion H1]. destruct (get k' m) as [v'|] eqn:Hv; [|by inversion H2].
      apply elem_of_get in Hw; [|done]. apply elem_of_get in Hv; [|done]. apply Hlt' in Hw. apply Hlt in Hv. simpl in *. exfalso. order. }
    subst k'. constructor; [|apply IH; [done..|]].
    + split; [done|]. specialize (Hget k). rewrite eqb_refl in Hget. by inversion Hget.
    + intros q. specialize (Hget q). destruct (q ==? k) eqn:E; [|done]. apply eqb_eq in E as ->.
      rewrite (proj2 (get_None m k)), (proj2 (get_None m' k)); [constructor|..]; intros x Hx; [apply Hlt' in Hx|apply Hlt in Hx]; by apply olt_irrefl in Hx.
Qed.

End BTreeMap.

#[export] Hint Resolve BTreeMap.wf_insert BTreeMap.wf_remove BTreeMap.wf_bfilter : convex.
