(* ===== verification/BinaryKey.v ===== *)
(** * BinaryKey: byte-string keys (src/crates/common/src/interval/key.rs)

    A [BinaryKey] is a [Vec<u8>], ordered like a slice.  [increment] is the
    loop of [BinaryKey::increment]: it pops trailing 255 bytes and bumps the
    last remaining one. *)

From S2P Require Import Prelude Ord.

(** [struct BinaryKey { key: Vec<u8> }]. *)
Notation BinaryKey := (list Z).

Definition min : BinaryKey := [].

(** The [while let Some(byte) = incremented.last_mut()] loop; the argument is
    the key with its last byte first. *)
Fixpoint increment_loop (rev_key : list Z) : option (list Z) :=
  match rev_key with
  | [] => None
  | byte :: rest =>
      if (byte <? 255)%Z then Some (byte + 1 :: rest)%Z else increment_loop rest
  end.

Definition increment (key : BinaryKey) : option BinaryKey :=
  match increment_loop (rev key) with
  | Some k => Some (rev k)
  | None => None
  end.

(** ** Facts about the loop *)

Lemma increment_shape key :
  match increment key with
  | Some k' => exists pre b suf,
      key = pre ++ b :: suf /\ k' = pre ++ [(b + 1)%Z] /\ (b < 255)%Z /\ Forall (fun c => 255 <= c)%Z suf
  | None => Forall (fun c => 255 <= c)%Z key
  end.
Proof.
  unfold increment.
  assert (Hloop : forall r, match increment_loop r with
    | Some k' => exists pre b suf, r = suf ++ b :: pre /\ k' = (b + 1)%Z :: pre
        /\ (b < 255)%Z /\ Forall (fun c => 255 <= c)%Z suf
    | None => Forall (fun c => 255 <= c)%Z r
    end).
  { induction r as [|b r IH]; simpl; [constructor|].
    destruct (Z.ltb_spec b 255).
    - exists r, b, []. repeat split; [done|constructor].
    - destruct (increment_loop r) as [k'|]; [|by constructor].
      destruct IH as (pre & b' & suf & -> & -> & ? & ?).
      exists pre, b', (b :: suf). repeat split; [done|by constructor]. }
  specialize (Hloop (rev key)). destruct (increment_loop (rev key)) as [k'|].
  - destruct Hloop as (pre & b & suf & Hrev & -> & Hb & Hsuf).
    exists (rev pre), b, (rev suf). repeat split; [|done|].
    + rewrite <- (rev_involutive key), Hrev, rev_app_distr. simpl. by rewrite <- app_assoc.
    + by apply Forall_rev.
  - rewrite <- (rev_involutive key). by apply Forall_rev.
Qed.

(** Every extension of [key] lies below [increment key]. *)
Lemma increment_above key k' s :
  increment key = Some k' -> key `prefix_of` s -> s ≺ k'.
Proof.
  intros Hinc [t ->]. pose proof (increment_shape key) as Hs. rewrite Hinc in Hs.
  destruct Hs as (pre & b & suf & -> & -> & _ & _).
  rewrite <- app_assoc. apply (app_olt_same (A := Z)). simpl.
  apply cons_olt. left. apply Z_olt. lia.
Qed.

(** A key between [key] and [increment key] extends [key]. *)
Lemma increment_between key k' s :
  bytes s -> increment key = Some k' -> key ≼ s -> s ≺ k' -> key `prefix_of` s.
Proof.
  intros Hbs Hinc Hle Hlt. pose proof (increment_shape key) as Hs. rewrite Hinc in Hs.
  destruct Hs as (pre & b & suf & -> & -> & Hb & Hsuf). clear Hinc.
  revert s Hbs Hle Hlt. induction pre as [|p pre IH]; intros [|c s] Hbs Hle Hlt; simpl in *.
  - exfalso. by apply Hle.
  - apply Forall_cons in Hbs as [Hc Hbs].
    apply (not_olt (A := list Z)) in Hle. rewrite cons_olt in Hle.
    apply (cons_olt (A := Z)) in Hlt. rewrite !Z_olt in *.
    assert (c = b) as ->.
    { destruct Hlt as [Hlt|[Hc1 Hlt]]; [lia|]. by apply not_olt_nil in Hlt. }
    assert (Hss : suf ≼ s) by (apply not_olt; naive_solver). clear Hle Hlt.
    apply prefix_cons. revert s Hbs Hss.
    induction Hsuf as [|d suf Hd Hsuf IHs]; intros s Hbs Hss; [apply prefix_nil|].
    destruct s as [|e s]; [exfalso; by apply Hss|].
    apply Forall_cons in Hbs as [He Hbs]. unfold u8 in He.
    apply (not_olt (A := list Z)) in Hss. rewrite cons_olt, Z_olt in Hss.
    assert (d = e) as -> by (destruct (Z.lt_trichotomy d e) as [|[]]; naive_solver lia).
    apply prefix_cons, IHs; [done|]. apply not_olt. naive_solver.
  - exfalso. by apply Hle.
  - apply Forall_cons in Hbs as [Hc Hbs].
    apply (not_olt (A := list Z)) in Hle. rewrite cons_olt in Hle.
    apply (cons_olt (A := Z)) in Hlt. rewrite !Z_olt in *.
    assert (c = p) as -> by (destruct (Z.lt_trichotomy c p) as [|[]]; naive_solver lia).
    apply prefix_cons, IH; [done| |].
    + apply (not_olt (A := list Z)). naive_solver.
    + destruct Hlt as [|[_ ?]]; [lia|done].
Qed.

Lemma increment_None_prefix key s :
  bytes s -> increment key = None -> key ≼ s -> key `prefix_of` s.
Proof.
  intros Hbs Hinc. pose proof (increment_shape key) as Hs. rewrite Hinc in Hs. clear Hinc.
  revert s Hbs. induction Hs as [|d key Hd Hs IH]; intros s Hbs Hle; [apply prefix_nil|].
  destruct s as [|e s]; [exfalso; by apply Hle|].
  apply Forall_cons in Hbs as [He Hbs]. unfold u8 in He.
  apply (not_olt (A := list Z)) in Hle. rewrite cons_olt, Z_olt in Hle.
  assert (d = e) as -> by (destruct (Z.lt_trichotomy d e) as [|[]]; naive_solver lia).
  apply prefix_cons, IH; [done|]. apply not_olt. naive_solver.
Qed.

Lemma bytes_increment key k' : bytes key -> increment key = Some k' -> bytes k'.
Proof.
  intros Hk Hinc. pose proof (increment_shape key) as Hs. rewrite Hinc in Hs.
  destruct Hs as (pre & b & suf & -> & -> & Hb & _).
  apply bytes_app in Hk as [Hpre Hk]. apply bytes_cons in Hk as [Hb' _].
  apply bytes_app. split; [done|]. constructor; [|constructor]. unfold u8 in *. lia.
Qed.

(** [BinaryKey::increment] computes the least upper bound of the keys with
    prefix [key], so that prefixes become half-open intervals, and returns
    [None] exactly when no key is above all of them. *)
Theorem increment_least_upper_bound key :
  match increment key with
  | Some k' =>
      (forall s, key `prefix_of` s -> s ≺ k') /\
      (forall t, bytes t -> (forall s, key `prefix_of` s -> s ≺ t) -> k' ≼ t)
  | None => forall t, bytes t -> exists s, key `prefix_of` s /\ t ≼ s
  end.
Proof.
  destruct (increment key) as [k'|] eqn:Hinc.
  - split; [intros s; by apply increment_above|].
    intros t Ht Hub. apply not_olt. intros Hlt.
    assert (key ≺ t) by (apply Hub; exists []; by rewrite app_nil_r).
    apply (olt_irrefl t), Hub, (increment_between _ _ t Ht Hinc); [by apply olt_ole|done].
  - intros t Ht. destruct (decide (key ≼ t)) as [Hle|Hlt].
    + exists t. split; [by apply increment_None_prefix|apply ole_refl].
    + exists key. split; [done|]. apply not_ole in Hlt. by apply olt_ole.
Qed.

Example increment_ex1 : increment [5; 6]%Z = Some [5; 7]%Z.
Proof. reflexivity. Qed.
Example increment_ex2 : increment [5; 255; 255]%Z = Some [6]%Z.
Proof. reflexivity. Qed.
Example increment_ex3 : increment [255; 255; 255]%Z = None.
Proof. reflexivity. Qed.
