(* ===== verification/Bounds.v ===== *)
(** * Bounds: interval bounds (src/crates/common/src/interval/bounds.rs)

    [StartIncluded] wraps a key, so it is a key here; [Bound] is the enum
    [End] (and its borrowed twin [EndRef]), with the derived order that puts
    every [Excluded] before [Unbounded]. *)

From S2P Require Import Prelude Ord BinaryKey.

(** [pub struct StartIncluded(pub BinaryKey)]. *)
Notation StartIncluded := (list Z).

(** [pub enum End { Excluded(BinaryKey), Unbounded }]. *)
Inductive Bound : Type :=
| Excluded (key : BinaryKey)
| Unbounded.

#[global] Instance Bound_EqDecision : EqDecision Bound.
Proof. solve_decision. Defined.

Definition Bound_cmp (a b : Bound) : comparison :=
  match a, b with
  | Excluded s, Excluded t => cmp s t
  | Excluded _, Unbounded => Lt
  | Unbounded, Excluded _ => Gt
  | Unbounded, Unbounded => Eq
  end.

#[global] Instance Bound_Ord : Ord Bound := Bound_cmp.
#[global] Instance Bound_OrdLaws : OrdLaws Bound.
Proof.
  constructor; unfold cmp, Bound_Ord, Bound_cmp.
  - intros [x|] [y|]; try (split; congruence). rewrite cmp_eq_iff. naive_solver.
  - intros [x|] [y|]; try done. apply cmp_opp.
  - intros [x|] [y|] [z|]; try done. apply cmp_lt_trans.
Qed.

(** [End::after_prefix]. *)
Definition after_prefix (key : BinaryKey) : Bound :=
  match increment key with
  | None => Unbounded
  | Some key => Excluded key
  end.

(** [End::included]: [key + [0]]. *)
Definition included (key : BinaryKey) : Bound := Excluded (key ++ [0%Z]).

(** [End::is_disjoint]: is [(-inf, end)] disjoint from [[start, +inf)]? *)
Definition end_is_disjoint (e : Bound) (start : StartIncluded) : bool :=
  match e with
  | Unbounded => false
  | Excluded s => s <=? start
  end.

(** [End::is_adjacent]. *)
Definition end_is_adjacent (e : Bound) (start : StartIncluded) : bool :=
  match e with
  | Unbounded => false
  | Excluded s => s ==? start
  end.

(** [End::greater_than] / [EndRef::greater_than]. *)
Definition greater_than (e : Bound) (key : BinaryKey) : bool :=
  match e with
  | Excluded end_ => key <? end_
  | Unbounded => true
  end.

(** A bound lies above a key. *)
Definition above (e : Bound) (k : BinaryKey) : Prop := greater_than e k = true.

#[global] Instance above_dec e k : Decision (above e k).
Proof. unfold above. apply _. Defined.

Lemma above_Excluded s k : above (Excluded s) k <-> k ≺ s.
Proof. apply ltb_lt. Qed.
Lemma above_Unbounded k : above Unbounded k <-> True.
Proof. done. Qed.

Lemma Excluded_le s t : Excluded s ≼ Excluded t <-> s ≼ t.
Proof. done. Qed.
Lemma Excluded_lt s t : Excluded s ≺ Excluded t <-> s ≺ t.
Proof. done. Qed.
Lemma le_Unbounded e : e ≼ Unbounded.
Proof. by destruct e. Qed.
Lemma Unbounded_le e : Unbounded ≼ e -> e = Unbounded.
Proof. destruct e; [|done]. intros H. by destruct H. Qed.

(** Bounds are ordered like the sets of keys below them. *)
Lemma above_mono e1 e2 k : e1 ≼ e2 -> above e1 k -> above e2 k.
Proof.
  destruct e1 as [s|], e2 as [t|]; rewrite ?above_Excluded, ?Excluded_le; try done. order.
Qed.

(** Above [k] means the successor bound [included k] is at most the bound. *)
Lemma above_le_end e s k : above e k -> end_is_disjoint e s = true -> k ≺ s.
Proof. destruct e as [t|]; simpl; [|done]. rewrite above_Excluded. order. Qed.

Lemma end_is_disjoint_false e s : end_is_disjoint e s = false <-> above e s.
Proof.
  destruct e as [t|]; simpl; [|done]. by rewrite leb_gt, above_Excluded.
Qed.

Lemma Bound_total_above e1 e2 : e1 ≺ e2 -> exists k, e1 = Excluded k /\ above e2 k.
Proof.
  destruct e1 as [s|], e2 as [t|]; try done.
  - intros H. exists s. by rewrite above_Excluded.
  - intros _. by exists s.
Qed.
