(* ===== verification/Interval.v ===== *)
(** * Interval: half-open key intervals (src/crates/common/src/interval/mod.rs)

    [Interval] and [IntervalRef] hold the same data, so one record stands for
    both.  The theorems characterise every predicate by the set of keys the
    interval contains. *)

From S2P Require Import Prelude Ord BinaryKey Bounds.

Record Interval : Type := MkInterval { start : StartIncluded; end_ : Bound }.

#[global] Instance Interval_EqDecision : EqDecision Interval.
Proof. solve_decision. Defined.

(** [query::Order] and [query::CursorPosition]. *)
Inductive Order := Asc | Desc.
Inductive CursorPosition := After (last_key : BinaryKey) | CursorEnd.

Definition prefix (key : BinaryKey) : Interval :=
  {| start := key; end_ := after_prefix key |}.

Definition empty : Interval := {| start := min; end_ := Excluded min |}.

Definition all : Interval := {| start := min; end_ := Unbounded |}.

(** [IntervalRef::is_empty]. *)
Definition is_empty (i : Interval) : bool :=
  match end_ i with
  | Unbounded => false
  | Excluded t => t <=? start i
  end.

(** [IntervalRef::contains]. *)
Definition contains (i : Interval) (point : BinaryKey) : bool :=
  let after_start := start i <=? point in
  let before_end :=
    match end_ i with
    | Excluded t => point <? t
    | Unbounded => true
    end in
  after_start && before_end.

Definition is_superset (self other : Interval) : bool :=
  is_empty other || ((start self <=? start other) && (end_ other <=? end_ self)).

Definition contains_cursor (i : Interval) (cursor : CursorPosition) : bool :=
  match cursor with
  | After last_key => contains i last_key
  | CursorEnd => true
  end.

Definition is_disjoint (self other : Interval) : bool :=
  is_empty self
  || is_empty other
  || end_is_disjoint (end_ other) (start self)
  || end_is_disjoint (end_ self) (start other).

Definition is_adjacent (self other : Interval) : bool :=
  if is_empty self || is_empty other then false
  else end_is_adjacent (end_ self) (start other) || end_is_adjacent (end_ other) (start self).

Definition split_after (self : Interval) (last_key : BinaryKey) (order : Order)
    : Interval * Interval :=
  match order with
  | Asc =>
      ({| start := start self; end_ := after_prefix last_key |},
       match increment last_key with
       | Some last_key_incr => {| start := last_key_incr; end_ := end_ self |}
       | None => empty
       end)
  | Desc =>
      ({| start := last_key; end_ := end_ self |},
       {| start := start self; end_ := Excluded last_key |})
  end.

Definition split (self : Interval) (cursor : CursorPosition) (order : Order)
    : Interval * Interval :=
  match cursor with
  | After last_key => split_after self last_key order
  | CursorEnd => (self, empty)
  end.

Definition singleton (value : BinaryKey) : Interval :=
  {| start := value; end_ := included value |}.

(** [<[T]>::strip_prefix]. *)
Fixpoint strip_prefix (s p : list Z) : option (list Z) :=
  match p, s with
  | [], _ => Some s
  | x :: p', y :: s' => if (x =? y)%Z then strip_prefix s' p' else None
  | _ :: _, [] => None
  end.

Definition is_singleton (i : Interval) : option BinaryKey :=
  match end_ i with
  | Excluded e =>
      if bool_decide (strip_prefix e (start i) = Some [0%Z]) then Some (start i) else None
  | Unbounded => None
  end.

(** ** Membership *)

Definition inside (i : Interval) (p : BinaryKey) : Prop := contains i p = true.

Lemma inside_alt i p : inside i p <-> start i ≼ p /\ above (end_ i) p.
Proof.
  unfold inside, contains, above, greater_than. rewrite andb_true_iff, leb_le. done.
Qed.

Lemma contains_false i p : contains i p = false <-> ~ inside i p.
Proof. unfold inside. by destruct (contains i p). Qed.

(** A non-empty interval contains its start. *)
Lemma nonempty_start i : is_empty i = false <-> inside i (start i).
Proof.
  rewrite inside_alt. unfold is_empty. destruct (end_ i) as [t|] eqn:E.
  - rewrite above_Excluded, leb_gt. split; [intros; split; [apply ole_refl|done]|naive_solver].
  - split; [intros; split; [apply ole_refl|done]|done].
Qed.

Lemma is_empty_spec i : is_empty i = true <-> forall p, ~ inside i p.
Proof.
  split.
  - unfold is_empty. destruct (end_ i) as [t|] eqn:E; [|done]. intros Hle p.
    rewrite inside_alt, E, above_Excluded. intros [??]. order.
  - intros Hno. destruct (is_empty i) eqn:E; [done|]. apply nonempty_start in E. by destruct (Hno (start i)).
Qed.

Lemma is_superset_spec self other :
  is_superset self other = true <-> forall p, inside other p -> inside self p.
Proof.
  unfold is_superset. rewrite orb_true_iff, andb_true_iff, !leb_le. split.
  - intros [Hemp|[Hs He]] p Hp; [by apply is_empty_spec with (p := p) in Hemp|].
    rewrite inside_alt in *. destruct Hp. split; [order|by eapply above_mono].
  - intros Hsub. destruct (is_empty other) eqn:E; [by left|right]. split.
    + apply nonempty_start, Hsub, inside_alt in E. naive_solver.
    + apply nonempty_start, inside_alt in E as [Hst Hab].
      apply not_olt. intros Hlt. apply Bound_total_above in Hlt as (k & Ek & Hk).
      (* the larger of [start other] and [k] is in [other] but not in [self] *)
      destruct (decide (k ≼ start other)) as [Hle|Hlt].
      * assert (Hin : inside self (start other)) by (by apply Hsub, inside_alt).
        apply inside_alt in Hin as [_ Hin]. rewrite Ek, above_Excluded in Hin. order.
      * assert (Hin : inside self k). { apply Hsub, inside_alt. split; [order|done]. }
        apply inside_alt in Hin as [_ Hin]. rewrite Ek, above_Excluded in Hin. order.
Qed.

Lemma is_disjoint_spec self other :
  is_disjoint self other = true <-> forall p, ~ (inside self p /\ inside other p).
Proof.
  unfold is_disjoint. rewrite !orb_true_iff. split.
  - intros H p [H1 H2]. destruct H as [[[H|H]|H]|H].
    + by apply (proj1 (is_empty_spec self) H p).
    + by apply (proj1 (is_empty_spec other) H p).
    + rewrite inside_alt in *. destruct H1, H2.
      assert (p ≺ start self) by (by apply (above_le_end (end_ other))). order.
    + rewrite inside_alt in *. destruct H1, H2.
      assert (p ≺ start other) by (by apply (above_le_end (end_ self))). order.
  - intros Hno. destruct (is_empty self) eqn:E1; [by left; left; left|].
    destruct (is_empty other) eqn:E2; [by left; left; right|].
    destruct (end_is_disjoint (end_ other) (start self)) eqn:E3; [by left; right|].
    destruct (end_is_disjoint (end_ self) (start other)) eqn:E4; [by right|]. exfalso.
    apply end_is_disjoint_false in E3, E4.
    apply nonempty_start, inside_alt in E1 as [_ ?]. apply nonempty_start, inside_alt in E2 as [_ ?].
    destruct (decide (start self ≼ start other)) as [Hle|Hlt].
    + apply (Hno (start other)). rewrite !inside_alt. repeat split; [done..|apply ole_refl|done].
    + apply not_ole, olt_ole in Hlt. apply (Hno (start self)). rewrite !inside_alt.
      repeat split; [apply ole_refl|done..].
Qed.

Lemma prefix_contains key p :
  bytes p -> contains (prefix key) p = true <-> key `prefix_of` p.
Proof.
  intros Hp. change (inside (prefix key) p <-> key `prefix_of` p).
  rewrite inside_alt. simpl. unfold after_prefix. destruct (increment key) as [k'|] eqn:E.
  - rewrite above_Excluded. split; [intros [??]; by eapply increment_between|].
    intros Hpre. split; [by apply prefix_ole|by eapply increment_above].
  - split; [intros [? _]; by apply increment_None_prefix|].
    intros Hpre. split; [by apply prefix_ole|done].
Qed.

(** Nothing lies strictly between [k] and [k ++ [0]]. *)
Lemma succ_key k p : bytes p -> k ≺ p -> k ++ [0%Z] ≼ p.
Proof.
  revert p. induction k as [|b k IH]; intros [|c p] Hp; try done; simpl.
  - intros _. apply bytes_cons in Hp as [[Hc _] _]. apply not_olt.
    rewrite cons_olt, Z_olt. intros [|[_ H]]; [lia|]. by apply not_olt_nil in H.
  - apply bytes_cons in Hp as [_ Hp]. rewrite <- not_olt, !cons_olt, !Z_olt.
    intros [Hlt|[Hb Hlt]] [Hlt'|[Hb' Hlt']]; try lia. by apply (IH _ Hp), not_olt in Hlt.
Qed.

Lemma singleton_contains value p :
  bytes p -> contains (singleton value) p = true <-> p = value.
Proof.
  intros Hp. change (inside (singleton value) p <-> p = value).
  rewrite inside_alt. simpl. unfold included. rewrite above_Excluded. split.
  - intros [Hle Hlt]. destruct (olt_total value p) as [H|[->|H]]; [|done|order].
    apply (succ_key _ _ Hp) in H. order.
  - intros ->. split; [apply ole_refl|]. rewrite <- (app_nil_r value) at 1. by apply app_olt_same.
Qed.

Lemma strip_prefix_Some s p r : strip_prefix s p = Some r <-> s = p ++ r.
Proof.
  revert s. induction p as [|x p IH]; intros [|y s]; simpl; try (split; congruence).
  destruct (Z.eqb_spec x y) as [->|]; [|split; congruence]. rewrite IH. split; congruence.
Qed.

(** [split]: within [self], the first half and the rest partition the keys. *)
Lemma split_after_partition self last_key order p :
  bytes p -> bytes last_key -> inside self p -> inside self last_key ->
  contains (split_after self last_key order).2 p = negb (contains (split_after self last_key order).1 p).
Proof.
  intros Hp Hk Hin Hlast. rewrite inside_alt in Hin, Hlast. destruct Hin as [Hs He], Hlast as [Hls Hle].
  apply eq_true_iff_eq. rewrite negb_true_iff, contains_false.
  change (inside (split_after self last_key order).2 p <-> ~ inside (split_after self last_key order).1 p).
  rewrite !inside_alt. destruct order; simpl.
  - unfold after_prefix. destruct (increment last_key) as [k'|] eqn:E; simpl.
    + rewrite above_Excluded, <- not_olt. naive_solver.
    + split; [|intros []; done]. intros [_ H]. apply above_Excluded in H. by apply not_olt_nil in H.
  - rewrite above_Excluded, <- not_ole. naive_solver.
Qed.
