(* ===== verification/IntervalSet.v ===== *)
(** * IntervalSet: sets of keys as merged intervals
      (src/crates/common/src/interval/interval_set.rs)

    [IntervalSet] is the enum of the source; its [BTreeMap<StartIncluded, End>]
    is a [BTreeMap.t].  [wf] is the invariant the source documents (intervals
    non-empty, non-intersecting and non-adjacent).  The theorems show that [add]
    is set union, that [contains], [contains_interval],
    [split_interval_components] and [subtract_from_interval] mean what their
    comments say, that no [expect], [unreachable!] or [BTreeMap::range] panic
    can fire, and that the protobuf form round-trips. *)

From S2P Require Import Prelude Ord BTreeMap BinaryKey Bounds Interval.

Inductive IntervalSet : Type :=
| Intervals (intervals : BTreeMap.t StartIncluded Bound)
| All.

Definition new : IntervalSet := Intervals [].

Definition is_empty (self : IntervalSet) : bool :=
  match self with
  | Intervals intervals => bool_decide (intervals = [])
  | All => false
  end.

Definition len (self : IntervalSet) : nat :=
  match self with
  | Intervals intervals => length intervals
  | All => 1
  end.

Definition to_interval (e : StartIncluded * Bound) : Interval := MkInterval e.1 e.2.

(** The coroutine [intersecting_or_adjacent], as the list it yields. *)
Definition intersecting_or_adjacent (intervals : BTreeMap.t StartIncluded Bound)
    (interval : Interval) : list Interval :=
  let preceding :=
    match last (BTreeMap.range_to (start interval) intervals) with
    | Some (other_start, other_end) =>
        let other := MkInterval other_start other_end in
        if negb (is_disjoint interval other) || is_adjacent interval other then [other] else []
    | None => []
    end in
  let following :=
    take_while
      (fun e => negb (end_is_disjoint (end_ interval) e.1 && negb (end_is_adjacent (end_ interval) e.1)))
      (BTreeMap.range_from (start interval) intervals) in
  preceding ++ map to_interval following.

(** One iteration of the merging loop of [add]. *)
Definition add_merge {E} (st : StartIncluded * Bound * BTreeMap.t StartIncluded Bound)
    (other_interval : Interval) : outcome E (StartIncluded * Bound * BTreeMap.t StartIncluded Bound) :=
  let '(merged_start, merged_end, intervals) := st in
  let merged_start := if start other_interval <? merged_start then start other_interval else merged_start in
  let merged_end := if merged_end <? end_ other_interval then end_ other_interval else merged_end in
  let? _ := expect (BTreeMap.get (start other_interval) intervals) in
  Ret (merged_start, merged_end, BTreeMap.remove (start other_interval) intervals).

Definition add {E} (self : IntervalSet) (interval : Interval) : outcome E IntervalSet :=
  if Interval.is_empty interval then Ret self
  else
    let self := if bool_decide (interval = all) then All else self in
    match self with
    | All => Ret All
    | Intervals intervals =>
        let other_intervals := intersecting_or_adjacent intervals interval in
        let? (merged_start, merged_end, intervals) :=
          foldM add_merge (start interval, end_ interval, intervals) other_intervals in
        Ret (Intervals (BTreeMap.insert merged_start merged_end intervals))
    end.

Definition interval_preceding (self : IntervalSet) (k : BinaryKey) : option Interval :=
  match self with
  | All => Some all
  | Intervals intervals =>
      match last (BTreeMap.range_to_incl k intervals) with
      | Some (s, e) => Some (MkInterval s e)
      | None => None
      end
  end.

Definition contains (self : IntervalSet) (k : BinaryKey) : bool :=
  match interval_preceding self k with
  | None => false
  | Some interval => Interval.contains interval k
  end.

(** [IntervalSet::iter]. *)
Definition iter (self : IntervalSet) : list Interval :=
  match self with
  | All => [all]
  | Intervals intervals => map to_interval intervals
  end.

(** The [for (interval_start, interval_end) in intersecting] loop of
    [split_interval_components], with the final [yield]. *)
Fixpoint components_loop {E} (target_end : Bound) (component_start : BinaryKey)
    (intersecting : list (StartIncluded * Bound)) : outcome E (list (bool * Interval)) :=
  match intersecting with
  | [] => Ret [(false, MkInterval component_start target_end)]
  | (interval_start, interval_end) :: rest =>
      let before := (false, MkInterval component_start (Excluded interval_start)) in
      if target_end <=? interval_end then
        Ret [before; (true, MkInterval interval_start target_end)]
      else
        match interval_end with
        | Unbounded => Panic
        | Excluded e =>
            let? comps := components_loop target_end e rest in
            Ret (before :: (true, MkInterval interval_start interval_end) :: comps)
        end
  end.

(** [intervals.range(IntervalRef { start, end })], which panics when
    [start > end]. *)
Definition range_interval {E} (i : Interval) (intervals : BTreeMap.t StartIncluded Bound)
    : outcome E (BTreeMap.t StartIncluded Bound) :=
  match end_ i with
  | Excluded t =>
      if t <? start i then Panic
      else Ret (bfilter (fun e => (start i <=? e.1) && (e.1 <? t)) intervals)
  | Unbounded => Ret (BTreeMap.range_from (start i) intervals)
  end.

Definition split_interval_components {E} (self : IntervalSet) (target : Interval)
    : outcome E (list (bool * Interval)) :=
  match self with
  | All => Ret [(true, target)]
  | Intervals intervals =>
      if Interval.is_empty target then Ret []
      else
        let scan (first : list (bool * Interval)) (component_start : BinaryKey) :=
          let? intersecting := range_interval (MkInterval component_start (end_ target)) intervals in
          let? rest := components_loop (end_ target) component_start intersecting in
          Ret (first ++ rest) in
        match interval_preceding self (start target) with
        | None => scan [] (start target)
        | Some interval_before =>
            if end_ target <=? end_ interval_before then Ret [(true, target)]
            else
              match end_ interval_before with
              | Unbounded => Panic
              | Excluded interval_before_end =>
                  if start target <? interval_before_end then
                    scan [(true, MkInterval (start target) (end_ interval_before))] interval_before_end
                  else scan [] (start target)
              end
        end
  end.

Definition contains_interval {E} (self : IntervalSet) (target : Interval) : outcome E bool :=
  let? comps := split_interval_components self target in
  Ret (forallb (fun c => c.1) comps).

Definition subtract_from_interval {E} (self : IntervalSet) (target : Interval)
    : outcome E IntervalSet :=
  let? comps := split_interval_components self target in
  Ret (Intervals
    (fold_left
       (fun difference c =>
          if negb c.1 then BTreeMap.insert (start c.2) (end_ c.2) difference else difference)
       comps [])).

(** ** Protobuf form *)

Inductive EndProto := Exclusive (key : list Z) | AfterAll.
Record IntervalProto := { start_inclusive : list Z; end_proto : option EndProto }.

#[global] Instance EndProto_EqDecision : EqDecision EndProto.
Proof. solve_decision. Defined.
#[global] Instance IntervalProto_EqDecision : EqDecision IntervalProto.
Proof. solve_decision. Defined.

Definition ALL_INTERVAL_PROTO : list IntervalProto :=
  [{| start_inclusive := []; end_proto := Some AfterAll |}].

Definition interval_to_proto (e : StartIncluded * Bound) : IntervalProto :=
  {| start_inclusive := e.1;
     end_proto := Some match e.2 with Unbounded => AfterAll | Excluded k => Exclusive k end |}.

Definition to_protos (set : IntervalSet) : list IntervalProto :=
  match set with
  | All => ALL_INTERVAL_PROTO
  | Intervals intervals => map interval_to_proto intervals
  end.

Inductive proto_error := IntervalMissingEnd.

Definition add_proto (set : IntervalSet) (interval : IntervalProto) : outcome proto_error IntervalSet :=
  match end_proto interval with
  | None => Err IntervalMissingEnd
  | Some e =>
      add set (MkInterval (start_inclusive interval)
        match e with AfterAll => Unbounded | Exclusive k => Excluded k end)
  end.

Definition try_from_protos (intervals : list IntervalProto) : outcome proto_error IntervalSet :=
  if bool_decide (intervals = ALL_INTERVAL_PROTO) then Ret All
  else foldM add_proto new intervals.

(** [PartialEq for IntervalSet]. *)
Definition eq_set (self other : IntervalSet) : bool :=
  match self, other with
  | All, All => true
  | All, Intervals intervals | Intervals intervals, All =>
      bool_decide (intervals = BTreeMap.insert min Unbounded [])
  | Intervals x, Intervals y => bool_decide (x = y)
  end.

(** ** The representation invariant *)

(** The bound [e] leaves a gap before the start [s]. *)
Definition before (e : Bound) (s : BinaryKey) : Prop :=
  match e with Excluded k => k ≺ s | Unbounded => False end.

#[global] Instance before_dec e s : Decision (before e s).
Proof. destruct e; apply _. Defined.

Definition wf_map (m : BTreeMap.t StartIncluded Bound) : Prop :=
  BTreeMap.wf m /\
  (forall s e, (s, e) ∈ m -> above e s) /\
  (forall s e s' e', (s, e) ∈ m -> (s', e') ∈ m -> s ≺ s' -> before e s').

Definition wf (self : IntervalSet) : Prop :=
  match self with Intervals m => wf_map m | All => True end.

(** The keys a map of intervals stands for. *)
Definition covers (m : BTreeMap.t StartIncluded Bound) (p : BinaryKey) : Prop :=
  exists s e, (s, e) ∈ m /\ s ≼ p /\ above e p.

Definition denotes (self : IntervalSet) (p : BinaryKey) : Prop :=
  match self with Intervals m => covers m p | All => True end.

Lemma above_down e k k' : above e k -> k' ≼ k -> above e k'.
Proof. destruct e as [t|]; [|done]. rewrite !above_Excluded. order. Qed.

Lemma before_above e s p : before e s -> above e p -> p ≺ s.
Proof. destruct e as [t|]; simpl; [|done]. rewrite above_Excluded. order. Qed.

Lemma not_before e s p : ~ before e s -> p ≺ s -> above e p.
Proof. destruct e as [t|]; simpl; [|done]. rewrite above_Excluded. order. Qed.

Lemma before_mono e s s' : before e s -> s ≼ s' -> before e s'.
Proof. destruct e as [t|]; simpl; [|done]. order. Qed.

Lemma before_le e e' s : e' ≼ e -> before e s -> before e' s.
Proof.
  destruct e as [t|], e' as [t'|]; simpl; try done.
  rewrite Excluded_le. order.
Qed.

Lemma not_above e p : ~ above e p -> exists k, e = Excluded k /\ k ≼ p.
Proof. destruct e as [t|]; [|done]. rewrite above_Excluded, not_olt. eauto. Qed.

Lemma above_not_before e s : above e s -> ~ before e s.
Proof. intros Ha Hb. by apply (olt_irrefl s), (before_above e). Qed.

(** The boolean guards of the two scans, as [before]. *)
Lemma disjoint_not_adjacent e s :
  end_is_disjoint e s && negb (end_is_adjacent e s) = true <-> before e s.
Proof.
  destruct e as [t|]; simpl; [|done]. rewrite andb_true_iff, leb_le, negb_true_iff, eqb_neq.
  split; [|intros; split; [order|intros ->; order]].
  intros [[?| ->]%ole_alt Hne]; [done|]. by destruct Hne.
Qed.

(** Overlapping or adjacent. *)
Definition touches (i : Interval) (s : BinaryKey) (e : Bound) : Prop :=
  ~ before e (start i) /\ ~ before (end_ i) s.

#[global] Instance touches_dec i s e : Decision (touches i s e).
Proof. unfold touches. apply _. Defined.

Lemma preceding_guard i s e :
  inside i (start i) -> above e s -> s ≺ start i ->
  negb (is_disjoint i (MkInterval s e)) || is_adjacent i (MkInterval s e) = true
  <-> ~ before e (start i).
Proof.
  intros Hi He Hs. pose proof (proj1 (inside_alt _ _) Hi) as [_ Hab].
  assert (He1 : Interval.is_empty i = false) by (by apply nonempty_start).
  assert (He2 : Interval.is_empty (MkInterval s e) = false)
    by (apply nonempty_start, inside_alt; simpl; split; [apply ole_refl|done]).
  unfold is_disjoint, is_adjacent. rewrite He1, He2. simpl.
  rewrite (proj2 (end_is_disjoint_false (end_ i) s)) by (eapply above_down; [done|order]).
  assert (Hadj : end_is_adjacent (end_ i) s = false).
  { destruct (end_ i) as [t|]; simpl; [|done]. rewrite above_Excluded in Hab. apply eqb_neq. order. }
  rewrite Hadj, orb_false_r. simpl.
  rewrite <- disjoint_not_adjacent.
  destruct (end_is_disjoint e (start i)), (end_is_adjacent e (start i)); simpl; split; congruence.
Qed.

(** The scan yields exactly the stored intervals that touch [i]. *)
Lemma elem_of_intersecting m i o :
  wf_map m -> Interval.is_empty i = false ->
  o ∈ intersecting_or_adjacent m i <-> (start o, end_ o) ∈ m /\ touches i (start o) (end_ o).
Proof.
  intros (Hbt & Hab & Hsep) Hne. apply nonempty_start in Hne as Hin.
  pose proof (proj1 (inside_alt _ _) Hin) as [_ Hi].
  unfold intersecting_or_adjacent. rewrite elem_of_app.
  rewrite BTreeMap.take_while_downward; [|by apply BTreeMap.wf_bfilter|].
  2:{ intros [s e] [s' e'] _ _ Hlt. rewrite !negb_true_iff, <- !not_true_iff_false, !disjoint_not_adjacent.
      simpl in *. intros Hn Hb. apply Hn. eapply before_mono; [done|order]. }
  assert (Hfol : o ∈ map to_interval (bfilter (fun e => negb (end_is_disjoint (end_ i) e.1
      && negb (end_is_adjacent (end_ i) e.1))) (BTreeMap.range_from (start i) m))
    <-> (start o, end_ o) ∈ m /\ start i ≼ start o /\ touches i (start o) (end_ o)).
  { rewrite list_elem_of_fmap. setoid_rewrite elem_of_bfilter. setoid_rewrite elem_of_bfilter.
    setoid_rewrite leb_le. setoid_rewrite negb_true_iff. setoid_rewrite <- not_true_iff_false.
    setoid_rewrite disjoint_not_adjacent. split.
    - intros ([s e] & -> & [Hm Hs] & Hnb). simpl in *. split_and!; [done..|]. split; [|done].
      simpl. apply above_not_before. eapply above_down; [by apply (Hab s)|done].
    - intros (Hm & Hs & _ & Hnb). exists (start o, end_ o). simpl. split_and!; [by destruct o|done..]. }
  rewrite Hfol. clear Hfol. split.
  - intros [Hpre|(? & _ & ?)]; [|done].
    destruct (last (BTreeMap.range_to (start i) m)) as [[s e]|] eqn:Hl; [|by apply elem_of_nil in Hpre].
    apply BTreeMap.last_range_to_Some in Hl as (Hm & Hs & _); [|done]. simpl in *.
    destruct (negb (is_disjoint i (MkInterval s e)) || is_adjacent i (MkInterval s e)) eqn:Hg;
      [|by apply elem_of_nil in Hpre].
    apply list_elem_of_singleton in Hpre as ->. simpl. split; [done|].
    apply preceding_guard in Hg; [|done|by apply (Hab s)|done]. split; [done|]. simpl.
    apply above_not_before. eapply above_down; [done|order].
  - intros [Hm Ht]. destruct (decide (start i ≼ start o)) as [Hle|Hlt]; [by right|left].
    apply not_ole in Hlt.
    destruct (last (BTreeMap.range_to (start i) m)) as [[s e]|] eqn:Hl.
    2:{ pose proof (BTreeMap.last_bfilter_None _ _ Hl _ Hm) as Hf. simpl in Hf. order. }
    apply BTreeMap.last_range_to_Some in Hl as (Hms & Hs & Hmax); [|done]. simpl in *.
    assert (Hso : start o = s).
    { pose proof (Hmax _ Hm Hlt) as Hle. simpl in Hle. apply ole_alt in Hle as [Hlt'|?]; [|done].
      destruct Ht as [Hnb _]. destruct Hnb. eapply before_mono; [by eapply (Hsep (start o))|order]. }
    subst s. assert (e = end_ o) as -> by (by apply (BTreeMap.wf_unique m (start o))).
    rewrite (proj2 (preceding_guard i (start o) (end_ o) Hin (Hab _ _ Hm) Hlt) (proj1 Ht)).
    apply list_elem_of_singleton. by destruct o.
Qed.

(** ** [add] is set union *)

(** The merging loop removes the listed intervals and widens the bounds to
    their extremes; its [expect] never fires. *)
Lemma add_merge_loop {E} os ms me m :
  BTreeMap.wf m ->
  NoDup (start <$> os) ->
  (forall o, o ∈ os -> (start o, end_ o) ∈ m) ->
  exists ms' me' m', foldM (E := E) add_merge (ms, me, m) os = Ret (ms', me', m') /\
    BTreeMap.wf m' /\
    (forall s e, (s, e) ∈ m' <-> (s, e) ∈ m /\ forall o, o ∈ os -> start o <> s) /\
    (ms' ≼ ms /\ forall o, o ∈ os -> ms' ≼ start o) /\
    (ms' = ms \/ exists o, o ∈ os /\ ms' = start o) /\
    (me ≼ me' /\ forall o, o ∈ os -> end_ o ≼ me') /\
    (me' = me \/ exists o, o ∈ os /\ me' = end_ o).
Proof.
  revert ms me m. induction os as [|o os IH]; intros ms me m Hwf Hnd Hin; simpl.
  { exists ms, me, m. setoid_rewrite elem_of_nil. split_and!; first [apply ole_refl|done|naive_solver]. }
  apply NoDup_cons in Hnd as [Hno Hnd].
  assert (Hget : BTreeMap.get (start o) m = Some (end_ o)).
  { apply BTreeMap.elem_of_get; [done|]. apply Hin. left. }
  rewrite Hget. simpl.
  destruct (IH (if start o <? ms then start o else ms) (if me <? end_ o then end_ o else me)
    (BTreeMap.remove (start o) m)) as (ms' & me' & m' & -> & Hwf' & Hm' & [Hs1 Hs2] & Hs & [He1 He2] & He).
  - by apply BTreeMap.wf_remove.
  - done.
  - intros o' Ho'. apply BTreeMap.elem_of_remove; [done|]. split; [|apply Hin; by right].
    intros Heq. apply Hno. rewrite <- Heq. by apply list_elem_of_fmap_2.
  - exists ms', me', m'. split_and!; [done..| | | | | | |].
    + intros s e. rewrite Hm', BTreeMap.elem_of_remove by done. setoid_rewrite elem_of_cons. naive_solver.
    + destruct (start o <? ms) eqn:Hc; order.
    + intros o' [->|Ho']%elem_of_cons; [|by apply Hs2]. destruct (start o <? ms) eqn:Hc; order.
    + setoid_rewrite elem_of_cons. destruct (start o <? ms); naive_solver.
    + destruct (me <? end_ o) eqn:Hc; order.
    + intros o' [->|Ho']%elem_of_cons; [|by apply He2]. destruct (me <? end_ o) eqn:Hc; order.
    + setoid_rewrite elem_of_cons. destruct (me <? end_ o); naive_solver.
Qed.

Lemma NoDup_intersecting m i :
  wf_map m -> NoDup (start <$> intersecting_or_adjacent m i).
Proof.
  intros (Hbt & _). unfold intersecting_or_adjacent. rewrite fmap_app. apply NoDup_app. split_and!.
  - destruct (last _) as [[s e]|]; [|constructor]. case_match; [apply NoDup_singleton|constructor].
  - intros s Hs (o & -> & Ho)%list_elem_of_fmap.
    apply list_elem_of_fmap in Ho as ([s' e'] & -> & He). simpl in Hs.
    apply take_while_elem in He as [He _]. apply elem_of_bfilter in He as [_ Hle]. simpl in Hle.
    destruct (last (BTreeMap.range_to (start i) m)) as [[s e]|] eqn:Hl; [|by apply elem_of_nil in Hs].
    apply BTreeMap.last_range_to_Some in Hl as (_ & Hlt & _); [|done]. simpl in Hlt.
    case_match; [|by apply elem_of_nil in Hs]. apply list_elem_of_singleton in Hs. simpl in Hs. order.
  - assert (Hwf : forall (p : StartIncluded * Bound -> bool) m, BTreeMap.wf m -> BTreeMap.wf (take_while p m)).
    { intros p m'. induction m' as [|[k v] m' IH]; simpl; [done|]. intros [Hlt Hwf].
      destruct (p (k, v)); simpl; [|done]. split; [|by apply IH].
      intros e He. apply Hlt. by apply take_while_elem in He as [? _]. }
    rewrite <- list_fmap_compose. apply (BTreeMap.wf_NoDup_fst (K := list Z)).
    apply Hwf. by apply BTreeMap.wf_bfilter.
Qed.

(** The entries after [add]: one merged interval and the untouched ones. *)
Lemma add_entries {E} m i :
  wf_map m -> Interval.is_empty i = false -> i <> all ->
  exists ms me m'', add (E := E) (Intervals m) i = Ret (Intervals m'') /\ BTreeMap.wf m'' /\
    (forall s e, (s, e) ∈ m'' <-> (s = ms /\ e = me) \/ ((s, e) ∈ m /\ ~ touches i s e)) /\
    ms ≼ start i /\ end_ i ≼ me /\
    (forall s e, (s, e) ∈ m -> touches i s e -> ms ≼ s /\ e ≼ me) /\
    (ms = start i \/ exists e, (ms, e) ∈ m /\ touches i ms e) /\
    (me = end_ i \/ exists s, (s, me) ∈ m /\ touches i s me).
Proof.
  intros Hwf Hne Hall. pose proof Hwf as (Hbt & Hab & Hsep).
  pose proof (elem_of_intersecting m i) as Hel.
  unfold add. rewrite Hne, bool_decide_false by done.
  destruct (add_merge_loop (E := E) (intersecting_or_adjacent m i) (start i) (end_ i) m)
    as (ms & me & m' & -> & Hwf' & Hm' & [Hs1 Hs2] & Hs & [He1 He2] & He); [done|by apply NoDup_intersecting|..].
  { intros o Ho. by apply Hel in Ho as [? _]. }
  assert (Hm'' : forall s e, (s, e) ∈ m' <-> (s, e) ∈ m /\ ~ touches i s e).
  { intros s e. rewrite Hm'. split.
    - intros [Hin Hno]. split; [done|]. intros Ht. apply (Hno (MkInterval s e)); [|done]. by apply Hel.
    - intros [Hin Hno]. split; [done|]. intros o Ho <-. apply Hel in Ho as [Hin' Ht]; [|done..].
      rewrite (BTreeMap.wf_unique m (start o) e (end_ o)) in Hno; done. }
  assert (Hms : ms = start i \/ exists e, (ms, e) ∈ m /\ touches i ms e).
  { destruct Hs as [?|(o & Ho & ->)]; [by left|right]. exists (end_ o). by apply Hel. }
  exists ms, me, (BTreeMap.insert ms me m'). simpl. split_and!; [done|by apply BTreeMap.wf_insert|..]; [|done..| |done|].
  - intros s e. rewrite BTreeMap.elem_of_insert, Hm'' by done. split; [naive_solver|].
    intros [?|[Hin Hno]]; [by left|right]. split; [|done]. intros ->. apply Hno.
    destruct Hms as [->|(e' & Hin' & Ht)].
    + split; simpl; apply above_not_before; [by apply (Hab (start i))|].
      by apply (proj1 (inside_alt _ _)), nonempty_start.
    + by rewrite (BTreeMap.wf_unique m ms e e').
  - intros s e Hin Ht. apply (Hel (MkInterval s e)) in Hwf as [_ Hw]; [|done].
    assert (Ho : MkInterval s e ∈ intersecting_or_adjacent m i) by (by apply Hw).
    split; [by apply Hs2 in Ho|by apply He2 in Ho].
  - destruct He as [?|(o & Ho & ->)]; [by left|right]. exists (start o). by apply Hel.
Qed.

Lemma add_wf_map m m' i ms me :
  wf_map m -> inside i (start i) -> BTreeMap.wf m' ->
  (forall s e, (s, e) ∈ m' <-> (s = ms /\ e = me) \/ ((s, e) ∈ m /\ ~ touches i s e)) ->
  ms ≼ start i -> end_ i ≼ me ->
  (ms = start i \/ exists e, (ms, e) ∈ m /\ touches i ms e) ->
  (me = end_ i \/ exists s, (s, me) ∈ m /\ touches i s me) ->
  wf_map m'.
Proof.
  intros (Hbt & Hab & Hsep) Hin Hwf Hm' Hs He Hms Hme. apply inside_alt in Hin as [_ Hi].
  split; [done|]. split.
  - intros s e [[-> ->]|[? _]]%Hm'; [|by apply (Hab s)].
    eapply above_down; [|done]. by eapply above_mono.
  - assert (Hgap : forall s e, (s, e) ∈ m -> ~ touches i s e -> before e (start i) \/ before (end_ i) s).
    { intros s e _ Hnt. unfold touches in Hnt.
      destruct (decide (before e (start i))); [by left|]. destruct (decide (before (end_ i) s)); [by right|]. naive_solver. }
    intros s e s' e' [[-> ->]|[H1 Ht1]]%Hm' [[-> ->]|[H2 Ht2]]%Hm' Hlt.
    + by apply olt_irrefl in Hlt.
    + (* the merged interval, then an untouched one *)
      assert (Hr : before (end_ i) s').
      { destruct (Hgap _ _ H2 Ht2) as [Hb|]; [|done]. exfalso.
        assert (s' ≺ start i) by (eapply before_above; [done|by apply (Hab s')]).
        destruct Hms as [->|(eo & Ho & [Hto _])]; [order|].
        apply Hto. eapply before_mono; [by eapply (Hsep ms)|order]. }
      destruct Hme as [->|(so & Ho & [Hto1 Hto2])]; [done|].
      destruct (olt_total so s') as [|[->|Hlt']]; [by eapply (Hsep so)| |].
      * destruct Hto2. done.
      * destruct Hto2. eapply before_mono; [done|order].
    + (* an untouched interval, then the merged one *)
      assert (Hl : before e (start i)).
      { destruct (Hgap _ _ H1 Ht1) as [|Hb]; [done|]. exfalso.
        assert (start i ≺ s) by (by eapply before_above). order. }
      destruct Hms as [->|(eo & Ho & _)]; [done|by eapply (Hsep s)].
    + by eapply (Hsep s).
Qed.

Lemma add_covers m m' i ms me p :
  wf_map m -> inside i (start i) ->
  (forall s e, (s, e) ∈ m' <-> (s = ms /\ e = me) \/ ((s, e) ∈ m /\ ~ touches i s e)) ->
  ms ≼ start i -> end_ i ≼ me ->
  (forall s e, (s, e) ∈ m -> touches i s e -> ms ≼ s /\ e ≼ me) ->
  (ms = start i \/ exists e, (ms, e) ∈ m /\ touches i ms e) ->
  (me = end_ i \/ exists s, (s, me) ∈ m /\ touches i s me) ->
  covers m' p <-> covers m p \/ inside i p.
Proof.
  intros (Hbt & Hab & Hsep) Hin Hm' Hs He Hcov Hms Hme. rewrite inside_alt. split.
  - intros (s & e & [[-> ->]|[Hm _]]%Hm' & Hp1 & Hp2); [|left; by exists s, e].
    destruct (decide (start i ≼ p)) as [Hge|Hlt].
    + destruct (decide (above (end_ i) p)) as [|Hna]; [by right|].
      destruct Hme as [->|(so & Ho & [_ Hto])]; [done|]. left. exists so, me. split_and!; [done| |done].
      apply not_above in Hna as (k & Hk & Hkp). rewrite Hk in Hto. simpl in Hto. order.
    + apply not_ole in Hlt. destruct Hms as [->|(eo & Ho & [Hto _])]; [order|].
      left. exists ms, eo. split_and!; [done..|]. by eapply not_before.
  - intros [(s & e & Hm & Hp1 & Hp2)|[Hp1 Hp2]].
    + destruct (decide (touches i s e)) as [Ht|Hnt].
      * destruct (Hcov _ _ Hm Ht). exists ms, me. split_and!; [by apply Hm'; left|order|by eapply above_mono].
      * exists s, e. split_and!; [by apply Hm'; right|done..].
    + exists ms, me. split_and!; [by apply Hm'; left|order|by eapply above_mono].
Qed.

(** [add] returns (no [expect] fires), keeps the invariant, and denotes the union. *)
Lemma add_spec {E} self i :
  wf self ->
  exists self', add (E := E) self i = Ret self' /\ wf self' /\
    forall p, denotes self' p <-> denotes self p \/ inside i p.
Proof.
  intros Hwf. destruct (Interval.is_empty i) eqn:Hne.
  { exists self. unfold add. rewrite Hne. split_and!; [done..|]. intros p.
    pose proof (proj1 (is_empty_spec i) Hne p). naive_solver. }
  destruct (decide (i = all)) as [->|Hall].
  { exists All. unfold add. rewrite Hne, bool_decide_true by done. split_and!; [done..|].
    intros p. split; [|done]. intros _. right. apply inside_alt. split; [apply nil_ole|done]. }
  destruct self as [m|].
  - destruct (add_entries (E := E) m i) as (ms & me & m' & -> & Hwf' & Hm' & ? & ? & ? & ? & ?); [done..|].
    apply nonempty_start in Hne. exists (Intervals m'). split_and!; [done|by eapply add_wf_map|].
    intros p. by eapply add_covers.
  - exists All. unfold add. rewrite Hne, bool_decide_false by done. split_and!; [done..|]. naive_solver.
Qed.

(** [add] does not produce errors, so its result does not depend on their type. *)
Lemma add_merge_any {E E'} os : forall st r,
  foldM (add_merge (E := E)) st os = Ret r -> foldM (add_merge (E := E')) st os = Ret r.
Proof.
  induction os as [|o os IH]; intros [[s e] m] r; cbn [foldM]; [congruence|]. unfold add_merge.
  destruct (BTreeMap.get (start o) m); cbn; [apply IH|done].
Qed.

Lemma add_ret self i :
  wf self ->
  exists self', (forall E, add (E := E) self i = Ret self') /\ wf self' /\
    forall p, denotes self' p <-> denotes self p \/ inside i p.
Proof.
  intros Hwf. destruct (add_spec (E := False) self i Hwf) as (self' & Hadd & Hspec). exists self'. split; [|done].
  intros E. unfold add in *. destruct (Interval.is_empty i); [congruence|].
  destruct (if bool_decide (i = all) then All else self) as [m|]; [|congruence].
  destruct (foldM (add_merge (E := False)) _ _) as [[[s e] m']| |] eqn:Hf; try done.
  apply (add_merge_any (E' := E)) in Hf. rewrite Hf. cbn in *. congruence.
Qed.

(** ** Membership *)

Lemma interval_preceding_Some m k i :
  wf_map m -> interval_preceding (Intervals m) k = Some i ->
  (start i, end_ i) ∈ m /\ start i ≼ k /\ forall s e, (s, e) ∈ m -> s ≼ k -> s ≼ start i.
Proof.
  intros (Hbt & _). simpl. destruct (last (BTreeMap.range_to_incl k m)) as [[s e]|] eqn:Hl; [|done].
  intros [= <-]. apply BTreeMap.last_range_to_incl_Some in Hl as (? & ? & Hmax); [|done].
  split_and!; [done..|]. intros s' e' Hin. by apply (Hmax (s', e')).
Qed.

Lemma interval_preceding_None m k s e :
  interval_preceding (Intervals m) k = None -> (s, e) ∈ m -> k ≺ s.
Proof.
  simpl. destruct (last (BTreeMap.range_to_incl k m)) as [[? ?]|] eqn:Hl; [done|].
  intros _ Hin. apply (BTreeMap.last_bfilter_None _ _ Hl) in Hin. simpl in Hin. order.
Qed.

(** Only the interval preceding [k] can contain it. *)
Lemma covers_preceding m k s e i :
  wf_map m -> interval_preceding (Intervals m) k = Some i ->
  (s, e) ∈ m -> s ≼ k -> above e k -> s = start i /\ e = end_ i.
Proof.
  intros Hwf Hi Hin Hs He. pose proof Hwf as (Hbt & Hab & Hsep).
  apply interval_preceding_Some in Hi as (Hm & Hk & Hmax); [|done].
  pose proof (Hmax _ _ Hin Hs) as Hle. apply ole_alt in Hle as [Hlt|Heq].
  - assert (k ≺ start i) by (eapply before_above; [by eapply (Hsep s)|done]). order.
  - subst s. split; [done|]. by apply (BTreeMap.wf_unique m (start i)).
Qed.

Lemma contains_spec self k : wf self -> contains self k = true <-> denotes self k.
Proof.
  intros Hwf. unfold contains. destruct self as [m|].
  - destruct (interval_preceding (Intervals m) k) as [i|] eqn:Hi; simpl denotes.
    + change (inside i k <-> covers m k). rewrite inside_alt. split.
      * intros [??]. apply interval_preceding_Some in Hi as (? & _); [|done]. by exists (start i), (end_ i).
      * intros (s & e & Hin & Hs & He). destruct (covers_preceding m k s e i) as [-> ->]; done.
    + split; [done|]. intros (s & e & Hin & Hs & _).
      pose proof (interval_preceding_None _ _ _ _ Hi Hin). order.
  - simpl. split; [done|]. intros _. apply inside_alt. split; [apply nil_ole|done].
Qed.

Lemma denotes_iter self p : denotes self p <-> exists i, i ∈ iter self /\ inside i p.
Proof.
  destruct self as [m|]; simpl.
  - setoid_rewrite list_elem_of_fmap. setoid_rewrite inside_alt. split.
    + intros (s & e & Hin & ?). exists (MkInterval s e). split; [by exists (s, e)|done].
    + intros (i & ([s e] & -> & Hin) & ?). by exists s, e.
  - split; [|done]. intros _. exists all. split; [by left|]. apply inside_alt. split; [apply nil_ole|done].
Qed.

#[global] Instance denotes_dec self p : Decision (denotes self p).
Proof.
  destruct (decide (Exists (fun i => Interval.contains i p = true) (iter self))) as [H|H].
  - left. apply denotes_iter. apply Exists_exists in H as (i & ? & ?). by exists i.
  - right. intros (i & ? & ?)%denotes_iter. apply H, Exists_exists. by exists i.
Defined.

(** ** Splitting an interval into components *)

(** The map of the components outside the set, in order. *)
Definition outside (comps : list (bool * Interval)) : BTreeMap.t StartIncluded Bound :=
  map (fun c => (start c.2, end_ c.2)) (bfilter (fun c => negb c.1) comps).

(** Components that follow each other without gaps from [lo] up to [hi]. *)
Inductive chain : BinaryKey -> Bound -> list (bool * Interval) -> Prop :=
| chain_one b lo hi : chain lo hi [(b, MkInterval lo hi)]
| chain_cons b lo mid hi comps :
    lo ≼ mid -> Excluded mid ≼ hi -> chain mid hi comps ->
    chain lo hi ((b, MkInterval lo (Excluded mid)) :: comps).

(** What the components of [target] within the stored intervals [m] promise. *)
Record components_ok (m : BTreeMap.t StartIncluded Bound) (lo : BinaryKey) (hi : Bound)
    (comps : list (bool * Interval)) : Prop := {
  comps_cover p : (lo ≼ p /\ above hi p) <-> exists c, c ∈ comps /\ inside c.2 p;
  comps_label c p : c ∈ comps -> inside c.2 p -> c.1 = true <-> covers m p;
  comps_low c : c ∈ comps -> lo ≼ start c.2;
  comps_outside_wf : wf_map (outside comps);
  comps_chain : chain lo hi comps;
}.

Lemma elem_of_outside comps s e : (s, e) ∈ outside comps <-> (false, MkInterval s e) ∈ comps.
Proof.
  unfold outside. rewrite list_elem_of_fmap. setoid_rewrite elem_of_bfilter. split.
  - intros ([[] i] & [= -> ->] & Hin & Hb); [done|]. by destruct i.
  - intros Hin. by exists (false, MkInterval s e).
Qed.

Lemma wf_map_nil : wf_map [].
Proof. split; [done|]. by setoid_rewrite elem_of_nil. Qed.

(** Prepending a separated interval. *)
Lemma wf_map_cons s e m :
  above e s -> (forall s' e', (s', e') ∈ m -> before e s') -> wf_map m -> wf_map ((s, e) :: m).
Proof.
  intros He Hb (Hbt & Hab & Hsep).
  assert (Hlt : forall s' e', (s', e') ∈ m -> s ≺ s') by (intros; eapply before_above; eauto).
  split; [split; [intros [s' e'] ?; by eapply Hlt|done]|]. split.
  - intros s' e' [[= -> ->]|?]%elem_of_cons; [done|by apply (Hab s')].
  - intros s1 e1 s2 e2 [[= -> ->]|H1]%elem_of_cons [[= -> ->]|H2]%elem_of_cons Hlt12.
    + by apply olt_irrefl in Hlt12.
    + by eapply Hb.
    + apply Hlt in H1. order.
    + by eapply (Hsep s1).
Qed.

Lemma wf_map_singleton s e : above e s -> wf_map [(s, e)].
Proof. intros He. apply wf_map_cons; [done| |apply wf_map_nil]. by setoid_rewrite elem_of_nil. Qed.

Lemma wf_map_tail x m : wf_map (x :: m) -> wf_map m.
Proof.
  destruct x as [s e]. intros ([_ Hbt] & Hab & Hsep). split; [done|]. split.
  - intros s' e' ?. apply (Hab s'). by right.
  - intros s1 e1 s2 e2 ??. apply (Hsep s1 e1 s2 e2); by right.
Qed.

Lemma wf_map_head_before s e m s' e' : wf_map ((s, e) :: m) -> (s', e') ∈ m -> before e s'.
Proof.
  intros ([Hlt _] & _ & Hsep) Hin. apply (Hsep s e s' e'); [left|by right|by apply (Hlt (s', e'))].
Qed.

Lemma covers_cons s e m p : covers ((s, e) :: m) p <-> (s ≼ p /\ above e p) \/ covers m p.
Proof.
  unfold covers. setoid_rewrite elem_of_cons. split.
  - intros (s' & e' & [[= -> ->]|Hin] & ?); [by left|right; eauto].
  - intros [?|(s' & e' & ? & ?)]; [exists s, e; auto|exists s', e'; auto].
Qed.

Lemma components_single b lo hi m :
  above hi lo ->
  (forall p, lo ≼ p -> above hi p -> b = true <-> covers m p) ->
  components_ok m lo hi [(b, MkInterval lo hi)].
Proof.
  intros Hhi Hb. constructor.
  - intros p. setoid_rewrite list_elem_of_singleton. setoid_rewrite inside_alt.
    split; [intros ?; by eexists|by intros (c & -> & ?)].
  - intros c p ->%list_elem_of_singleton [??]%inside_alt. by apply Hb.
  - intros c ->%list_elem_of_singleton. apply ole_refl.
  - destruct b; simpl; [apply wf_map_nil|by apply wf_map_singleton].
  - constructor.
Qed.

(** Gluing a labelled piece [[lo, mid)] in front of the components from [mid] on. *)
Lemma components_cons b lo mid hi m comps :
  lo ≺ mid -> above hi lo -> Excluded mid ≼ hi ->
  (forall p, lo ≼ p -> p ≺ mid -> b = true <-> covers m p) ->
  (b = false -> forall s e, (s, e) ∈ outside comps -> mid ≺ s) ->
  components_ok m mid hi comps ->
  components_ok m lo hi ((b, MkInterval lo (Excluded mid)) :: comps).
Proof.
  intros Hlt Hhi Hmid Hb Hout [Hcov Hlab Hlow Hwf Hch]. constructor.
  - intros p. setoid_rewrite elem_of_cons. split.
    + intros [Hp1 Hp2]. destruct (decide (mid ≼ p)) as [Hge|Hl].
      * destruct (proj1 (Hcov p)) as (c & ? & ?); [done|]. exists c. auto.
      * apply not_ole in Hl. eexists. split; [by left|]. apply inside_alt. split; [done|by apply above_Excluded].
    + intros (c & [->|Hc] & Hin).
      * apply inside_alt in Hin as [? Hab]. split; [done|]. by eapply above_mono.
      * destruct (proj2 (Hcov p)) as [? ?]; [by exists c|]. split; [order|done].
  - intros c p [->|Hc]%elem_of_cons Hin; [|by apply Hlab].
    apply inside_alt in Hin as [? Hab]. apply above_Excluded in Hab. by apply Hb.
  - intros c [->|Hc]%elem_of_cons; [apply ole_refl|]. apply Hlow in Hc. order.
  - destruct b; [done|]. simpl. apply wf_map_cons; [by apply above_Excluded| |done].
    intros s e Hin. simpl. by eapply Hout.
  - constructor; [by apply olt_ole|done..].
Qed.

Lemma components_ext m m' lo hi comps :
  (forall p, lo ≼ p -> above hi p -> covers m p <-> covers m' p) ->
  components_ok m' lo hi comps -> components_ok m lo hi comps.
Proof.
  intros Hext [Hcov Hlab Hlow Hwf Hch]. constructor; [done| |done..].
  intros c p Hc Hp. rewrite (Hlab _ _ Hc Hp). symmetry. apply Hext; apply Hcov; by exists c.
Qed.

Lemma components_loop_ok {E} l te cs :
  wf_map l -> above te cs ->
  (forall s e, (s, e) ∈ l -> cs ≺ s /\ above te s) ->
  exists comps, components_loop (E := E) te cs l = Ret comps /\ components_ok l cs te comps.
Proof.
  revert cs. induction l as [|[s e] l IH]; intros cs Hwf Hte Hl; simpl.
  { eexists. split; [done|]. apply components_single; [done|]. intros p _ _. split; [done|].
    intros (s & e & Hin & _). by apply elem_of_nil in Hin. }
  destruct (Hl s e) as [Hcs Hs]; [by left|].
  assert (He : above e s) by (apply Hwf; left).
  assert (Hgap : forall p, cs ≼ p -> p ≺ s -> false = true <-> covers ((s, e) :: l) p).
  { intros p Hp Hps. split; [done|]. intros [[? _]|(s' & e' & Hin & ? & _)]%covers_cons; [order|].
    pose proof (before_above _ _ _ (wf_map_head_before _ _ _ _ _ Hwf Hin) He). order. }
  destruct (te <=? e) eqn:Hle.
  - eexists. split; [done|]. apply leb_le in Hle.
    apply components_cons; [done..| |done| |].
    + destruct te; [apply Excluded_le|done]. apply above_Excluded in Hs. order.
    + intros _ s' e' Hin. by apply elem_of_nil in Hin.
    + apply components_single; [done|]. intros p ? Hp. split; [|done]. intros _. apply covers_cons. left.
      split; [done|]. by eapply above_mono.
  - apply leb_gt in Hle. apply Bound_total_above in Hle as (k & -> & Hk).
    apply above_Excluded in He.
    destruct (IH k) as (comps & -> & Hok); [by eapply wf_map_tail|done| |].
    { intros s' e' Hin. split; [by apply (wf_map_head_before _ _ _ _ _ Hwf Hin)|by apply (Hl s' e'); right]. }
    assert (Hk' : Excluded k ≼ te).
    { destruct te; [apply Excluded_le|done]. apply above_Excluded in Hk. order. }
    eexists. split; [done|]. apply components_cons; [done..| |done| |].
    + destruct te; [apply Excluded_le|done]. apply above_Excluded in Hs. order.
    + intros _ s' e' Hin. apply (elem_of_outside comps) in Hin.
      apply (comps_low _ _ _ _ Hok) in Hin. simpl in Hin. order.
    + apply components_cons; [done..| |done|].
      * intros p ? Hp. split; [|done]. intros _. apply covers_cons. left. split; [done|by apply above_Excluded].
      * eapply components_ext; [|done]. intros p Hp _. rewrite covers_cons, above_Excluded.
        split; [intros [[_ ?]|?]; [order|done]|by right].
Qed.

(** The range scanned after [component_start] and the whole map cover the same
    keys from there on. *)
Lemma range_interval_ok {E} m cs te :
  wf_map m -> above te cs ->
  (forall s e, (s, e) ∈ m -> s ≼ cs -> ~ above e cs) ->
  exists l, range_interval (E := E) (MkInterval cs te) m = Ret l /\ wf_map l /\
    (forall s e, (s, e) ∈ l -> cs ≼ s /\ above te s) /\
    (forall p, cs ≼ p -> above te p -> covers m p <-> covers l p).
Proof.
  intros (Hbt & Hab & Hsep) Hte Hno. unfold range_interval. simpl.
  assert (Hsub : forall (p : StartIncluded * Bound -> bool), wf_map (bfilter p m)).
  { intros p. split; [by apply BTreeMap.wf_bfilter|]. setoid_rewrite elem_of_bfilter. split; [naive_solver|].
    intros s e s' e' [? _] [? _]. by apply (Hsep s e s' e'). }
  assert (Hstart : forall s e p, (s, e) ∈ m -> s ≼ p -> above e p -> cs ≼ p -> cs ≼ s).
  { intros s e p Hin Hs He Hp. apply not_olt. intros Hlt.
    apply (Hno s e Hin); [by apply olt_ole|by eapply above_down]. }
  assert (Hcov : forall (q : StartIncluded * Bound -> bool),
    (forall s e, (s, e) ∈ m -> q (s, e) = true <-> cs ≼ s /\ above te s) ->
    forall p, cs ≼ p -> above te p -> covers m p <-> covers (bfilter q m) p).
  { intros q Hq p Hp Htp. unfold covers. setoid_rewrite elem_of_bfilter. split.
    - intros (s & e & Hin & Hs & He). exists s, e. split_and!; [done| |done..]. apply (Hq s e Hin).
      split; [by eapply Hstart|by eapply above_down].
    - intros (s & e & [Hin _] & ?). by exists s, e. }
  destruct te as [t|].
  - apply above_Excluded in Hte. destruct (t <? cs) eqn:Hc; [order|].
    assert (Hq : forall (s : StartIncluded) (e : Bound), (cs <=? (s, e).1) && ((s, e).1 <? t) = true <-> cs ≼ s /\ above (Excluded t) s).
    { intros s e. simpl. by rewrite andb_true_iff, leb_le, ltb_lt, above_Excluded. }
    eexists. split; [done|]. split; [apply Hsub|]. split.
    + intros s e [_ ?]%elem_of_bfilter. by apply Hq in H.
    + apply Hcov. intros s e _. apply Hq.
  - eexists. split; [done|]. split; [apply Hsub|]. split.
    + intros s e [_ Hs]%elem_of_bfilter. simpl in Hs. apply leb_le in Hs. done.
    + apply Hcov. intros s e _. simpl. rewrite leb_le. naive_solver.
Qed.

(** From [component_start] on, the scan produces the components of the rest. *)
Lemma scan_ok {E} m cs te :
  wf_map m -> above te cs ->
  (forall s e, (s, e) ∈ m -> s ≼ cs -> ~ above e cs) ->
  exists l comps, range_interval (E := E) (MkInterval cs te) m = Ret l /\
    components_loop (E := E) te cs l = Ret comps /\
    components_ok m cs te comps /\
    (forall s e, (s, e) ∈ outside comps -> cs ≼ s).
Proof.
  intros Hwf Hte Hno.
  destruct (range_interval_ok (E := E) m cs te) as (l & Hr & Hl & Hin & Hcov); [done..|].
  destruct (components_loop_ok (E := E) l te cs) as (comps & Hc & Hok); [done..| |].
  - intros s e Hse. destruct (Hin s e Hse) as [Hs Ht]. split; [|done].
    apply ole_alt in Hs as [|<-]; [done|]. exfalso.
    destruct (proj2 (Hcov cs (ole_refl _) Hte)) as (s & e' & Hm & Hs & He'); [|by eapply (Hno s e')].
    exists cs, e. split_and!; [done|apply ole_refl|by apply Hl].
  - exists l, comps. split_and!; [done..|by eapply components_ext|].
    intros s e Hse%elem_of_outside. by apply (comps_low _ _ _ _ Hok) in Hse.
Qed.

Lemma covers_at m s e p : wf_map m -> (s, e) ∈ m -> s ≼ p -> above e p -> covers m p.
Proof. intros. by exists s, e. Qed.

Lemma split_components_ok {E} m target :
  wf_map m -> Interval.is_empty target = false ->
  exists comps, split_interval_components (E := E) (Intervals m) target = Ret comps /\
    components_ok m (start target) (end_ target) comps.
Proof.
  intros Hwf Hne. apply nonempty_start in Hne as Hin. apply inside_alt in Hin as [_ Hte].
  unfold split_interval_components. rewrite Hne.
  destruct (interval_preceding (Intervals m) (start target)) as [[bs be]|] eqn:Hp.
  2:{ destruct (scan_ok (E := E) m (start target) (end_ target)) as (l & comps & -> & Hc & Hok & _); [done..| |].
      { intros s e Hm Hs. pose proof (interval_preceding_None _ _ _ _ Hp Hm). order. }
      simpl. rewrite Hc. by eexists. }
  pose proof (interval_preceding_Some _ _ _ Hwf Hp) as (Hm & Hbs & _). simpl in Hm, Hbs. cbn [end_ start].
  destruct (end_ target <=? be) eqn:Hle.
  { apply leb_le in Hle. eexists. split; [done|]. destruct target as [ts te]. apply components_single; [done|].
    simpl in *. intros p ??. split; [|done]. intros _. eapply (covers_at m bs be); [done..|order|by eapply above_mono]. }
  apply leb_gt in Hle. apply Bound_total_above in Hle as (k & -> & Hk).
  destruct (start target <? k) eqn:Hlt.
  - apply ltb_lt in Hlt.
    destruct (scan_ok (E := E) m k (end_ target)) as (l & comps & -> & Hc & Hok & Hout); [done..| |].
    { intros s e Hse Hs. destruct (decide (s ≼ bs)) as [Hsb|Hsb].
      - apply ole_alt in Hsb as [Hsb| ->].
        + intros Ha. pose proof (before_above _ _ _ (proj2 (proj2 Hwf) _ _ _ _ Hse Hm Hsb) Ha). order.
        + pose proof (BTreeMap.wf_unique _ _ _ _ (proj1 Hwf) Hse Hm) as ->. rewrite above_Excluded. apply olt_irrefl.
      - apply not_ole in Hsb. pose proof (proj2 (proj2 Hwf) _ _ _ _ Hm Hse Hsb) as Hb. simpl in Hb. order. }
    cbn -[components_loop]. rewrite Hc. eexists. split; [done|]. simpl. apply components_cons; [done..| | |done|done].
    + destruct (end_ target); [apply Excluded_le|done]. apply above_Excluded in Hk. order.
    + intros p ??. split; [|done]. intros _. eapply (covers_at m bs); [done..|order|by apply above_Excluded].
  - apply ltb_ge in Hlt.
    destruct (scan_ok (E := E) m (start target) (end_ target)) as (l & comps & -> & Hc & Hok & _); [done..| |].
    { intros s e Hse Hs Ha. destruct (covers_preceding _ _ _ _ _ Hwf Hp Hse Hs Ha) as [_ ->].
      simpl in Ha. rewrite above_Excluded in Ha. order. }
    simpl. rewrite Hc. by eexists.
Qed.

(** [split_interval_components] never panics; its pieces cover [target], each
    lies wholly inside or wholly outside the set, as labelled. *)
Lemma split_interval_components_spec {E} self target :
  wf self ->
  exists comps, split_interval_components (E := E) self target = Ret comps /\
    (forall p, inside target p <-> exists c, c ∈ comps /\ inside c.2 p) /\
    (forall c p, c ∈ comps -> inside c.2 p -> c.1 = true <-> denotes self p) /\
    (forall c, c ∈ comps -> c.1 = false -> Interval.is_empty c.2 = false) /\
    wf_map (outside comps).
Proof.
  intros Hwf. destruct self as [m|].
  2:{ exists [(true, target)]. split; [done|]. setoid_rewrite list_elem_of_singleton. split_and!.
      - intros p. split; [intros; by eexists|by intros (? & -> & ?)].
      - by intros c p ->.
      - by intros c ->.
      - apply wf_map_nil. }
  destruct (Interval.is_empty target) eqn:Hne.
  { exists []. unfold split_interval_components. rewrite Hne. split; [done|].
    setoid_rewrite elem_of_nil. split_and!; [|done..|apply wf_map_nil].
    intros p. pose proof (proj1 (is_empty_spec target) Hne p). naive_solver. }
  destruct (split_components_ok (E := E) m target) as (comps & -> & [Hcov Hlab Hlow Hout _]); [done..|].
  exists comps. split; [done|]. split_and!; [|done| |done].
  - intros p. by rewrite inside_alt, Hcov.
  - intros [b [s e]] Hc. simpl. intros ->. apply nonempty_start, inside_alt. simpl.
    split; [apply ole_refl|]. apply Hout. by apply elem_of_outside.
Qed.

(** The components of a non-empty target follow each other. *)
Lemma split_interval_components_chain {E} self target comps :
  wf self -> split_interval_components (E := E) self target = Ret comps ->
  (Interval.is_empty target = true /\ comps = []) \/ chain (start target) (end_ target) comps.
Proof.
  intros Hwf Hs. destruct self as [m|]; [|injection Hs as <-; destruct target; right; constructor].
  destruct (Interval.is_empty target) eqn:Hne.
  - unfold split_interval_components in Hs. rewrite Hne in Hs. injection Hs as <-. by left.
  - destruct (split_components_ok (E := E) m target) as (comps' & Hs' & Hok); [done..|].
    rewrite Hs in Hs'. injection Hs' as <-. right. apply Hok.
Qed.

Lemma contains_interval_spec {E} self target :
  wf self ->
  exists b, contains_interval (E := E) self target = Ret b /\
    (b = true <-> forall p, inside target p -> denotes self p).
Proof.
  intros Hwf. unfold contains_interval.
  destruct (split_interval_components_spec (E := E) self target) as (comps & -> & Hcov & Hlab & Hne & _); [done|].
  eexists. split; [done|]. rewrite forallb_elem. split.
  - intros Hall p (c & Hc & Hp)%Hcov. apply (Hlab c p Hc Hp), Hall, Hc.
  - intros Hsub c Hc. destruct (c.1) eqn:Hb; [done|].
    pose proof (Hne c Hc Hb) as Hp%nonempty_start.
    rewrite <- Hb. apply (Hlab c _ Hc Hp), Hsub, Hcov. by exists c.
Qed.

(** Collecting separated intervals in ascending order is the identity. *)
Lemma collect_outside comps acc :
  BTreeMap.wf (acc ++ outside comps) ->
  fold_left (fun difference (c : bool * Interval) =>
    if negb c.1 then BTreeMap.insert (start c.2) (end_ c.2) difference else difference) comps acc
  = acc ++ outside comps.
Proof.
  revert acc. induction comps as [|[[] [s e]] comps IH]; intros acc Hwf; simpl.
  - by rewrite app_nil_r.
  - by apply IH.
  - assert (Hacc : BTreeMap.wf (acc ++ [(s, e)])).
    { apply BTreeMap.wf_app_inv with (m2 := outside comps). by rewrite <- app_assoc. }
    rewrite (BTreeMap.insert_last acc s e) by done.
    rewrite IH; rewrite <- app_assoc; [done|]. exact Hwf.
Qed.

(** [subtract_from_interval] is the set difference [target \ self], as a
    well-formed set. *)
Lemma subtract_from_interval_spec {E} self target :
  wf self ->
  exists d, subtract_from_interval (E := E) self target = Ret d /\ wf d /\
    forall p, denotes d p <-> inside target p /\ ~ denotes self p.
Proof.
  intros Hwf. unfold subtract_from_interval.
  destruct (split_interval_components_spec (E := E) self target) as (comps & -> & Hcov & Hlab & _ & Hout); [done|].
  simpl. rewrite collect_outside by apply Hout. eexists. split; [done|]. split; [done|].
  intros p. simpl. rewrite Hcov. split.
  - intros (s & e & Hse%elem_of_outside & Hp).
    assert (Hin : inside (MkInterval s e) p) by (by apply inside_alt).
    split; [by eexists|]. intros Hd. by apply (Hlab _ _ Hse Hin) in Hd.
  - intros [([b [s e]] & Hc & Hp) Hnd]. simpl in Hp. pose proof (Hlab _ _ Hc Hp) as Hb. simpl in Hb.
    destruct b; [tauto|]. exists s, e. rewrite elem_of_outside. split; [done|]. by apply (inside_alt (MkInterval s e)).
Qed.

(** ** The protobuf form round-trips *)

Lemma wf_map_app_before m s e s' e' :
  wf_map (m ++ [(s, e)]) -> (s', e') ∈ m -> before e' s.
Proof.
  intros (Hbt & _ & Hsep) Hin. apply (Hsep s' e' s e); [set_solver..|].
  apply (BTreeMap.wf_app_lt m [(s, e)] (s', e') (s, e)); [done..|left].
Qed.

Lemma wf_map_app_l m m' : wf_map (m ++ m') -> wf_map m.
Proof.
  intros (Hbt & Hab & Hsep). split; [by apply BTreeMap.wf_app_inv in Hbt as [? _]|]. split.
  - intros s e Hin. apply (Hab s). set_solver.
  - intros s e s' e' H1 H2. apply (Hsep s e s' e'); set_solver.
Qed.

(** Adding an interval past the end of the set appends it. *)
Lemma add_append {E} m s e :
  wf_map (m ++ [(s, e)]) -> MkInterval s e <> all ->
  add (E := E) (Intervals m) (MkInterval s e) = Ret (Intervals (m ++ [(s, e)])).
Proof.
  intros Hwf Hall.
  assert (He : above e s) by (apply Hwf; set_solver).
  destruct (add_entries (E := E) m (MkInterval s e)) as (ms & me & m' & -> & Hwf' & Hm' & _ & _ & _ & Hms & Hme).
  { by eapply wf_map_app_l. }
  { apply nonempty_start, inside_alt. simpl. split; [apply ole_refl|done]. }
  { done. }
  assert (Hnt : forall s' e', (s', e') ∈ m -> ~ touches (MkInterval s e) s' e').
  { intros s' e' Hin [Hb _]. by apply Hb, (wf_map_app_before m s e s' e'). }
  assert (ms = s) as -> by (destruct Hms as [?|(? & ? & ?)]; [done|by edestruct Hnt]).
  assert (me = e) as -> by (destruct Hme as [?|(? & ? & ?)]; [done|by edestruct Hnt]).
  do 2 f_equal. apply BTreeMap.wf_ext; [done|apply Hwf|]. intros [s' e']. rewrite Hm', elem_of_app, list_elem_of_singleton.
  split; [naive_solver|]. intros [Hin|[= -> ->]]; [right; split; [done|by apply Hnt]|by left].
Qed.

Lemma foldM_add_proto acc m :
  wf_map (acc ++ m) -> (min, Unbounded) ∉ m ->
  foldM add_proto (Intervals acc) (map interval_to_proto m) = Ret (Intervals (acc ++ m)).
Proof.
  revert acc. induction m as [|[s e] m IH]; intros acc Hwf Hall; simpl; [by rewrite app_nil_r|].
  assert (Hadd : add_proto (Intervals acc) (interval_to_proto (s, e)) = add (Intervals acc) (MkInterval s e))
    by (by destruct e).
  rewrite (cons_middle (s, e)), app_assoc in *.
  rewrite Hadd, add_append; [|by eapply wf_map_app_l|].
  - simpl. apply IH; [done|set_solver].
  - intros [= -> ->]. apply Hall. left.
Qed.

(** Decoding the encoded set gives a set equal to it (in the sense of the
    source's [PartialEq]). *)
Lemma try_from_protos_to_protos self :
  wf self -> exists self', try_from_protos (to_protos self) = Ret self' /\ eq_set self self' = true.
Proof.
  intros Hwf. destruct self as [m|]; [|by exists All].
  destruct (decide ((min, Unbounded) ∈ m)) as [Hin|Hin].
  - assert (m = [(min, Unbounded)]) as ->.
    { destruct Hwf as (Hbt & Hab & Hsep). apply BTreeMap.wf_ext; [done|by apply wf_map_singleton|].
      intros [s e]. rewrite list_elem_of_singleton. split; [|by intros [= -> ->]].
      intros Hse. destruct (olt_total min s) as [Hlt|[<-|Hlt]].
      - by apply (Hsep _ _ _ _ Hin Hse) in Hlt.
      - by rewrite (BTreeMap.wf_unique m min e Unbounded).
      - by apply not_olt_nil in Hlt. }
    by exists All.
  - exists (Intervals m). unfold try_from_protos. rewrite bool_decide_false.
    + split; [by apply (foldM_add_proto [] m)|]. simpl. by apply bool_decide_true.
    + intros Heq. apply Hin. unfold to_protos, ALL_INTERVAL_PROTO in Heq.
      destruct m as [|[s [k|]] [|? ?]]; try done. simpl in Heq.
      injection Heq as ->. left.
Qed.

Lemma eq_set_denotes a b p : eq_set a b = true -> denotes a p <-> denotes b p.
Proof.
  assert (Hall : covers [(min, Unbounded)] p).
  { exists min, Unbounded. split_and!; [left|apply nil_ole|done]. }
  destruct a as [m|], b as [m'|]; simpl; rewrite ?bool_decide_eq_true; [intros ->..|]; done.
Qed.

(** ** The set as clients see it *)

Definition example_set : IntervalSet := Intervals [([1]%Z, Excluded [2]%Z); ([4]%Z, Unbounded)].

Lemma example_set_wf : wf example_set.
Proof.
  apply wf_map_cons; [done| |by apply wf_map_singleton].
  intros s e [= -> ->]%list_elem_of_singleton. done.
Qed.

(** [IntervalSet::add] is set union, never panics, and keeps the invariant
    (disjoint, non-adjacent, non-empty intervals in order) on which the lookups
    rely: afterwards [contains] answers true exactly for the keys of the old set
    and of the new interval. *)
Theorem add_is_union self i :
  wf self ->
  exists self', (forall E, add (E := E) self i = Ret self') /\ wf self' /\
    forall k, contains self' k = true <-> contains self k = true \/ Interval.contains i k = true.
Proof.
  intros Hwf. destruct (add_ret self i Hwf) as (self' & Ha & Hwf' & Hd). exists self'. split_and!; [done..|].
  intros k. rewrite !contains_spec by done. apply Hd.
Qed.

Lemma add_is_union_witness :
  exists self', (forall E, add (E := E) example_set (MkInterval [2]%Z (Excluded [3]%Z)) = Ret self') /\ wf self' /\
    forall k, contains self' k = true <->
      contains example_set k = true \/ Interval.contains (MkInterval [2]%Z (Excluded [3]%Z)) k = true.
Proof. apply add_is_union, example_set_wf. Defined.

(** [split_interval_components] never panics and cuts the target into
    pieces that cover it, each wholly inside or wholly outside the set as
    labelled; [contains_interval] and [subtract_from_interval] compute from
    them inclusion and set difference, the latter a well-formed set again. *)
Theorem split_components_exact {E} self target :
  wf self ->
  exists comps b d,
    split_interval_components (E := E) self target = Ret comps /\
    (forall p, inside target p <-> exists c, c ∈ comps /\ inside c.2 p) /\
    (forall c p, c ∈ comps -> inside c.2 p -> c.1 = true <-> denotes self p) /\
    contains_interval (E := E) self target = Ret b /\
    (b = true <-> forall p, inside target p -> denotes self p) /\
    subtract_from_interval (E := E) self target = Ret d /\ wf d /\
    (forall p, denotes d p <-> inside target p /\ ~ denotes self p).
Proof.
  intros Hwf.
  destruct (split_interval_components_spec (E := E) self target Hwf) as (comps & Hc & Hcov & Hlab & _).
  destruct (contains_interval_spec (E := E) self target Hwf) as (b & Hb & Hbs).
  destruct (subtract_from_interval_spec (E := E) self target Hwf) as (d & Hd & Hwd & Hds).
  exists comps, b, d. split_and!; done.
Qed.

Lemma split_components_exact_witness :
  exists comps b d,
    split_interval_components (E := False) example_set (MkInterval [1; 5]%Z (Excluded [5]%Z)) = Ret comps /\
    contains_interval (E := False) example_set (MkInterval [1; 5]%Z (Excluded [5]%Z)) = Ret b /\
    subtract_from_interval (E := False) example_set (MkInterval [1; 5]%Z (Excluded [5]%Z)) = Ret d /\
    length comps = 3%nat /\ b = false /\ d = Intervals [([2]%Z, Excluded [4]%Z)].
Proof.
  destruct (split_components_exact (E := False) example_set (MkInterval [1; 5]%Z (Excluded [5]%Z)) example_set_wf)
    as (comps & b & d & Hc & _ & _ & Hb & _ & Hd & _).
  exists comps, b, d. split_and!; [done..| | |].
  - vm_compute in Hc. by injection Hc as <-.
  - vm_compute in Hb. by injection Hb as <-.
  - vm_compute in Hd. by injection Hd as <-.
Defined.

(** The protobuf form of an interval set round-trips: decoding the
    encoded set succeeds with a set that the source's [PartialEq] calls equal
    to it and that contains the same keys. *)
Theorem protos_roundtrip self :
  wf self ->
  exists self', try_from_protos (to_protos self) = Ret self' /\ eq_set self self' = true /\
    forall p, denotes self' p <-> denotes self p.
Proof.
  intros Hwf. destruct (try_from_protos_to_protos self Hwf) as (self' & ? & Heq). exists self'.
  split_and!; [done..|]. intros p. symmetry. by apply eq_set_denotes.
Qed.

Lemma protos_roundtrip_witness :
  exists self', try_from_protos (to_protos example_set) = Ret self' /\ eq_set example_set self' = true /\
    forall p, denotes self' p <-> denotes example_set p.
Proof. apply protos_roundtrip, example_set_wf. Defined.
