(* ===== verification/Timestamp.v ===== *)
(** * Timestamp: transaction timestamps
      (src/crates/convex/sync_types/src/timestamp.rs)

    A [Timestamp] is a [u64] that the constructors keep at most [i64::MAX]; it
    is a [Z] here, with [valid] for the bound.  Arithmetic is written at its
    width: [Duration::as_nanos() as u64] truncates, [checked_add] fails above
    [u64::MAX]. *)

From S2P Require Import Prelude Ord.

Local Open Scope Z_scope.

Notation Timestamp := Z (only parsing).

Definition u64_max : Z := 2 ^ 64 - 1.

(** [Timestamp::MAX] and [Timestamp::MIN]. *)
Definition MAX : Timestamp := 2 ^ 63 - 1.
Definition MIN : Timestamp := 0.

Inductive ts_error :=
| AlreadyAtMax
| AlreadyAtMin
| OverflowU64
| OverflowI64
| AlreadyGreater
| NegativeI64
| TooLarge
| InvalidDigit
| EmptyString.

Definition succ_opt (self : Timestamp) : option Timestamp :=
  if MAX <=? self then None else Some (self + 1).

Definition succ (self : Timestamp) : outcome ts_error Timestamp :=
  ok_or (succ_opt self) AlreadyAtMax.

Definition pred_opt (self : Timestamp) : option Timestamp :=
  if self <=? MIN then None else Some (self - 1).

Definition pred (self : Timestamp) : outcome ts_error Timestamp :=
  ok_or (pred_opt self) AlreadyAtMin.

(** A [Duration] is its number of nanoseconds (a [u128]). *)
Definition as_nanos_u64 (duration : Z) : Z := duration mod 2 ^ 64.

Definition add (self : Timestamp) (duration : Z) : outcome ts_error Timestamp :=
  let sum := self + as_nanos_u64 duration in
  let? nanos := (if u64_max <? sum then Err OverflowU64 else Ret sum) in
  let? _ := ensure (nanos <=? MAX) OverflowI64 in
  Ret nanos.

Definition sub (self : Timestamp) (duration : Z) : outcome ts_error Timestamp :=
  let nanos := as_nanos_u64 duration in
  if self <=? nanos then Err AlreadyGreater else Ret (self - nanos).

(** [impl From<Timestamp> for i64]: [ts.0 as i64]. *)
Definition to_i64 (ts : Timestamp) : Z := if ts <? 2 ^ 63 then ts else ts - 2 ^ 64.

(** [impl TryFrom<i64> for Timestamp]. *)
Definition try_from_i64 (value : Z) : outcome ts_error Timestamp :=
  if value <? 0 then Err NegativeI64 else Ret value.

(** [impl TryFrom<u64> for Timestamp]. *)
Definition try_from_u64 (value : Z) : outcome ts_error Timestamp :=
  if MAX <? value then Err TooLarge else Ret value.

(** [#[derive(FromStr)]] on the one-field struct is [u64::from_str]: decimal
    digits after at most one plus sign, failing above [u64::MAX]. *)
Fixpoint parse_digits (acc : Z) (s : list Z) : outcome ts_error Z :=
  match s with
  | [] => Ret acc
  | c :: s =>
      if (48 <=? c) && (c <=? 57) then
        let acc := acc * 10 + (c - 48) in
        if u64_max <? acc then Err OverflowU64 else parse_digits acc s
      else Err InvalidDigit
  end.

Definition from_str (s : list Z) : outcome ts_error Timestamp :=
  match s with
  | [] => Err EmptyString
  | c :: digits =>
      if c =? 43 then match digits with [] => Err InvalidDigit | _ => parse_digits 0 digits end
      else parse_digits 0 s
  end.

(** ** The bound the constructors keep *)

Definition valid (ts : Timestamp) : Prop := MIN <= ts <= MAX.

#[global] Instance valid_dec ts : Decision (valid ts).
Proof. unfold valid. apply _. Defined.

Ltac ts_cases :=
  unfold succ, succ_opt, pred, pred_opt, add, sub, try_from_u64, try_from_i64, to_i64, ensure, ok_or, valid in *;
  repeat match goal with
  | |- context [if ?a <? ?b then _ else _] => destruct (Z.ltb_spec a b)
  | |- context [if ?a <=? ?b then _ else _] => destruct (Z.leb_spec a b)
  end.

Lemma succ_spec ts :
  valid ts ->
  match succ ts with
  | Ret ts' => ts' = ts + 1 /\ valid ts'
  | Err e => ts = MAX /\ e = AlreadyAtMax
  | Panic => False
  end.
Proof. intros H. ts_cases; simpl; unfold MAX, MIN in *; split; try done; lia. Qed.

Lemma succ_gt ts ts' : succ ts = Ret ts' -> ts < ts'.
Proof. ts_cases; simpl; intros [= <-]. lia. Qed.

Lemma pred_succ ts ts' : valid ts -> succ ts = Ret ts' -> pred ts' = Ret ts.
Proof.
  intros Hv. ts_cases; simpl; intros [= <-]; unfold MIN, MAX in *; [lia|]. f_equal. lia.
Qed.

Lemma duration_add_spec ts d :
  valid ts -> 0 <= d < 2 ^ 64 ->
  add ts d = if MAX <? ts + d then Err (if u64_max <? ts + d then OverflowU64 else OverflowI64) else Ret (ts + d).
Proof.
  intros Hv Hd. unfold add, as_nanos_u64. rewrite Z.mod_small by lia. unfold ensure.
  destruct (Z.ltb_spec MAX (ts + d)), (Z.ltb_spec u64_max (ts + d)); simpl; try done;
    destruct (Z.leb_spec (ts + d) MAX); try done; unfold MAX, u64_max in *; lia.
Qed.

Lemma to_i64_valid ts : valid ts -> to_i64 ts = ts.
Proof. unfold valid, MIN, MAX, to_i64. intros Hv. destruct (Z.ltb_spec ts (2 ^ 63)); lia. Qed.

(** The SQL representation ([i64]) round-trips in both directions. *)
Lemma i64_roundtrip ts : valid ts -> try_from_i64 (to_i64 ts) = Ret ts /\ try_from_u64 ts = Ret ts.
Proof.
  intros Hv. rewrite to_i64_valid by done. unfold valid, MIN, MAX in *. unfold try_from_i64, try_from_u64, MAX.
  destruct (Z.ltb_spec ts 0), (Z.ltb_spec (2 ^ 63 - 1) ts); try done; lia.
Qed.

Lemma try_from_i64_valid v ts : v < 2 ^ 63 -> try_from_i64 v = Ret ts -> valid ts /\ to_i64 ts = v.
Proof.
  unfold try_from_i64. destruct (Z.ltb_spec v 0); [done|]. intros ? [= ->].
  assert (valid ts) by (unfold valid, MIN, MAX; lia). split; [done|by apply to_i64_valid].
Qed.

(** The derived [FromStr] does not check the bound that the other
    constructors keep: parsing [i64::MAX + 1] succeeds with a timestamp above
    [Timestamp::MAX], whose cast to [i64] is negative. *)
Theorem from_str_skips_bound :
  exists s ts, from_str s = Ret ts /\ ts = MAX + 1 /\ ~ valid ts /\ try_from_u64 ts = Err TooLarge /\
    to_i64 ts = - 2 ^ 63 /\ try_from_i64 (to_i64 ts) = Err NegativeI64.
Proof.
  exists [57;50;50;51;51;55;50;48;51;54;56;53;52;55;55;53;56;48;56], (2 ^ 63).
  split_and!; [reflexivity..| |reflexivity|reflexivity|reflexivity]. intros [_ H]. by apply H.
Qed.
