(* ===== verification/Identifier.v ===== *)
(** * Identifier: identifiers, field names and field paths
      (src/crates/convex/sync_types/src/identifier.rs,
       src/crates/value/src/field_name.rs, src/crates/value/src/field_path.rs)

    A Rust [str] is its UTF-8 bytes.  Every test the source makes on a [char]
    is a test for an ASCII character, so it is the same test on the bytes: a
    byte of a multi-byte character is at least 128 and fails each of them. *)

From S2P Require Import Prelude Ord.

Local Open Scope Z_scope.

Notation str := (list Z) (only parsing).

Definition MAX_IDENTIFIER_LEN : nat := 64.
Definition MAX_FIELD_NAME_LENGTH : Z := 1024.

Definition is_ascii_alphabetic (c : Z) : bool :=
  ((65 <=? c) && (c <=? 90)) || ((97 <=? c) && (c <=? 122)).
Definition is_ascii_alphanumeric (c : Z) : bool :=
  is_ascii_alphabetic c || ((48 <=? c) && (c <=? 57)).
Definition is_ascii (c : Z) : bool := c <? 128.
Definition is_ascii_control (c : Z) : bool := (c <? 32) || (c =? 127).
Definition underscore : Z := 95.
Definition dollar : Z := 36.
Definition dot : Z := 46.

Inductive ident_error :=
| InvalidFirstCharacter
| IdentifierEmpty
| InvalidCharacter
| IdentifierTooLong
| OnlyUnderscores
| ReservedDollar
| FieldNameTooLong
| EmptyPath.

(** [check_valid_identifier_inner]. *)
Definition check_valid_identifier (s : str) : outcome ident_error unit :=
  let? chars :=
    match s with
    | c :: chars =>
        if is_ascii_alphabetic c then Ret chars
        else if c =? underscore then Ret chars
        else Err InvalidFirstCharacter
    | [] => Err IdentifierEmpty
    end in
  let? _ := ensure (forallb (fun c => negb (negb (is_ascii_alphanumeric c) && negb (c =? underscore))) chars)
              InvalidCharacter in
  let? _ := ensure (negb (MAX_IDENTIFIER_LEN <? length s)%nat) IdentifierTooLong in
  let? _ := ensure (negb (forallb (fun c => c =? underscore) s)) OnlyUnderscores in
  Ret tt.

(** [MIN_IDENTIFIER = "A"]. *)
Definition MIN_IDENTIFIER : str := [65].

(** [check_valid_field_name_inner]. *)
Definition check_valid_field_name (s : str) : outcome ident_error unit :=
  let? _ := ensure (negb (match s with c :: _ => c =? dollar | [] => false end)) ReservedDollar in
  let? _ := ensure (forallb (fun c => negb (negb (is_ascii c) || is_ascii_control c)) s) InvalidCharacter in
  let? _ := ensure (negb (MAX_FIELD_NAME_LENGTH <? Z.of_nat (length s))) FieldNameTooLong in
  Ret tt.

Definition is_valid_field_name (s : str) : bool :=
  match check_valid_field_name s with Ret _ => true | _ => false end.
Definition is_valid_identifier (s : str) : bool :=
  match check_valid_identifier s with Ret _ => true | _ => false end.

(** [FieldName::is_system]. *)
Definition is_system (s : str) : bool :=
  match s with c :: _ => c =? underscore | [] => false end.

(** [IdentifierFieldName::from_str]. *)
Definition IdentifierFieldName_from_str (s : str) : outcome ident_error str :=
  check_valid_field_name s ;? check_valid_identifier s ;? Ret s.

(** ** Field paths *)

(** [FieldPath { fields }], with the fields as [IdentifierFieldName]s. *)
Notation FieldPath := (list (list Z)) (only parsing).

(** [FieldPath::new]. *)
Definition FieldPath_new (fields : list str) : outcome ident_error FieldPath :=
  ensure (match fields with [] => false | _ => true end) EmptyPath ;? Ret fields.

Fixpoint trim_start_dots (s : str) : str :=
  match s with
  | c :: s' => if c =? dot then trim_start_dots s' else s
  | [] => []
  end.

(** [path.trim_matches('.')]. *)
Definition trim_dots (s : str) : str := rev (trim_start_dots (rev (trim_start_dots s))).

(** [s.split('.')]: always at least one piece. *)
Fixpoint split_dots (s : str) : list str :=
  match s with
  | [] => [[]]
  | c :: s' =>
      if c =? dot then [] :: split_dots s'
      else match split_dots s' with
           | piece :: rest => (c :: piece) :: rest
           | [] => [[c]]
           end
  end.

Fixpoint mapM {E A B} (f : A -> outcome E B) (l : list A) : outcome E (list B) :=
  match l with
  | [] => Ret []
  | x :: l => let? y := f x in let? ys := mapM f l in Ret (y :: ys)
  end.

(** [FieldPath::from_str]. *)
Definition FieldPath_from_str (path : str) : outcome ident_error FieldPath :=
  let trimmed_path := trim_dots path in
  match trimmed_path with
  | [] => Err EmptyPath
  | _ => let? fields := mapM IdentifierFieldName_from_str (split_dots trimmed_path) in FieldPath_new fields
  end.

(** [impl From<FieldPath> for String]: [fields.join(".")]. *)
Fixpoint FieldPath_to_string (fields : FieldPath) : str :=
  match fields with
  | [] => []
  | [f] => f
  | f :: rest => f ++ dot :: FieldPath_to_string rest
  end.

(** ** What validity means *)

Ltac ascii_lia :=
  unfold is_ascii_alphanumeric, is_ascii_alphabetic, is_ascii, is_ascii_control, underscore, dollar, dot in *; lia.

Lemma ensure_Ret {E} b (e : E) u : ensure b e = Ret u <-> b = true.
Proof. destruct b, u; simpl; split; congruence. Qed.

Lemma bind_ensure_Ret {E A} b (e : E) (k : unit -> outcome E A) a :
  obind (ensure b e) k = Ret a <-> b = true /\ k tt = Ret a.
Proof. destruct b; simpl; naive_solver. Qed.

Definition field_char (c : Z) : Prop := 32 <= c < 127.
Definition ident_char (c : Z) : Prop := is_ascii_alphanumeric c = true \/ c = underscore.

Lemma check_valid_field_name_spec s u :
  Forall u8 s ->
  check_valid_field_name s = Ret u <->
    head s <> Some dollar /\ Forall field_char s /\ Z.of_nat (length s) <= MAX_FIELD_NAME_LENGTH.
Proof.
  intros Hs. unfold check_valid_field_name. rewrite !bind_ensure_Ret, !negb_true_iff, forallb_elem, Z.ltb_ge.
  assert (Hc : (forall x, x ∈ s -> negb (negb (is_ascii x) || is_ascii_control x) = true) <-> Forall field_char s).
  { rewrite Forall_forall. rewrite Forall_forall in Hs. split; intros H x Hx; specialize (H x Hx); specialize (Hs x Hx);
      unfold field_char, u8 in *; ascii_lia. }
  rewrite Hc. destruct s as [|c s]; simpl.
  - destruct u. naive_solver.
  - rewrite Z.eqb_neq. destruct u. naive_solver.
Qed.

Lemma check_valid_identifier_spec s u :
  check_valid_identifier s = Ret u <->
    (exists c chars, s = c :: chars /\ (is_ascii_alphabetic c = true \/ c = underscore)) /\
    Forall ident_char s /\ (length s <= MAX_IDENTIFIER_LEN)%nat /\ ~ Forall (eq underscore) s.
Proof.
  unfold check_valid_identifier.
  assert (Hall : forall l, forallb (fun c => negb (negb (is_ascii_alphanumeric c) && negb (c =? underscore))) l = true
    <-> Forall ident_char l).
  { intros l. rewrite forallb_elem, Forall_forall. unfold ident_char.
    split; intros H x Hx; specialize (H x Hx); destruct (is_ascii_alphanumeric x), (Z.eqb_spec x underscore);
      simpl in *; naive_solver. }
  assert (Hund : negb (forallb (fun c => c =? underscore) s) = true <-> ~ Forall (eq underscore) s).
  { rewrite negb_true_iff, <- not_true_iff_false, forallb_elem, Forall_forall. setoid_rewrite Z.eqb_eq. naive_solver. }
  assert (Hlen : negb (MAX_IDENTIFIER_LEN <? length s)%nat = true <-> (length s <= MAX_IDENTIFIER_LEN)%nat).
  { rewrite negb_true_iff. apply Nat.ltb_ge. }
  destruct s as [|c s]; simpl.
  { split; [done|]. by intros [(? & ? & ? & _) _]. }
  destruct (is_ascii_alphabetic c) eqn:Hc; [|destruct (Z.eqb_spec c underscore) as [->|Hne]].
  - cbn [obind]. rewrite !bind_ensure_Ret, Hall, Hund, Hlen, (Forall_cons ident_char).
    assert (ident_char c) by (left; unfold is_ascii_alphanumeric; by rewrite Hc). destruct u.
    split; [intros (? & ? & ? & _)|intros (_ & [_ ?] & ? & ?); done]. split_and!; [exists c, s; auto|done..].
  - cbn [obind]. rewrite !bind_ensure_Ret, Hall, Hund, Hlen, (Forall_cons ident_char).
    assert (ident_char underscore) by (by right). destruct u.
    split; [intros (? & ? & ? & _)|intros (_ & [_ ?] & ? & ?); done]. split_and!; [exists underscore, s; auto|done..].
  - simpl. split; [done|]. intros [(? & ? & [= <- <-] & [?|?]) _]; congruence.
Qed.

(** [MIN_IDENTIFIER] is a lower bound of the valid identifiers. *)
Lemma min_identifier_spec s u : check_valid_identifier s = Ret u -> MIN_IDENTIFIER ≼ s.
Proof.
  intros ((c & chars & -> & Hc) & _)%check_valid_identifier_spec.
  assert (Hge : 65 <= c) by (destruct Hc; [ascii_lia|subst; unfold underscore; lia]).
  apply not_olt. unfold MIN_IDENTIFIER. rewrite cons_olt, Z_olt. intros [?|[_ H]]; [lia|]. by apply not_olt_nil in H.
Qed.

(** ** Field paths round-trip through their string form *)

Definition ident_field (s : str) : Prop := IdentifierFieldName_from_str s = Ret s.

Lemma ident_field_chars s : ident_field s -> s <> [] /\ Forall ident_char s.
Proof.
  unfold ident_field, IdentifierFieldName_from_str.
  destruct (check_valid_field_name s); simpl; try done.
  destruct (check_valid_identifier s) as [u| |] eqn:E; simpl; try done. intros _.
  apply check_valid_identifier_spec in E as ((c & l & -> & _) & ? & _). done.
Qed.

Lemma ident_char_not_dot c : ident_char c -> c <> dot.
Proof. intros [H|H]; [ascii_lia|subst; done]. Qed.

Lemma split_dots_piece f : Forall ident_char f -> split_dots f = [f].
Proof.
  induction 1 as [|c f Hc Hf IH]; simpl; [done|].
  rewrite (proj2 (Z.eqb_neq c dot)) by (by apply ident_char_not_dot). by rewrite IH.
Qed.

Lemma split_dots_app f rest : Forall ident_char f -> split_dots (f ++ dot :: rest) = f :: split_dots rest.
Proof.
  induction 1 as [|c f Hc Hf IH]; simpl; [done|].
  rewrite (proj2 (Z.eqb_neq c dot)) by (by apply ident_char_not_dot). by rewrite IH.
Qed.

Lemma split_dots_to_string p :
  p <> [] -> Forall ident_field p -> split_dots (FieldPath_to_string p) = p.
Proof.
  intros Hne. induction 1 as [|f p Hf Hp IH]; [done|]. apply ident_field_chars in Hf as [_ Hf].
  destruct p as [|g p]; [by apply split_dots_piece|].
  change (split_dots (f ++ dot :: FieldPath_to_string (g :: p)) = f :: g :: p).
  rewrite split_dots_app, IH; done.
Qed.

Lemma trim_start_nodot s c : head s = Some c -> c <> dot -> trim_start_dots s = s.
Proof. destruct s as [|x s]; simpl; [done|]. intros [= ->] Hc. by rewrite (proj2 (Z.eqb_neq c dot)). Qed.

Lemma to_string_head p :
  p <> [] -> Forall ident_field p -> exists c, head (FieldPath_to_string p) = Some c /\ c <> dot.
Proof.
  destruct p as [|f p]; [done|]. intros _ [Hf _]%Forall_cons. apply ident_field_chars in Hf as [Hne Hf].
  destruct f as [|c f]; [done|]. apply Forall_cons in Hf as [Hc _]. exists c.
  split; [by destruct p|by apply ident_char_not_dot].
Qed.

Lemma to_string_last p :
  p <> [] -> Forall ident_field p -> exists c, last (FieldPath_to_string p) = Some c /\ c <> dot.
Proof.
  intros Hne. induction 1 as [|f p Hf Hp IH]; [done|]. destruct p as [|g p].
  - apply ident_field_chars in Hf as [Hne' Hf]. simpl. destruct (last f) as [c|] eqn:Hl.
    + exists c. split; [done|]. apply last_Some in Hl as (l & ->). apply Forall_app in Hf as [_ Hc].
      apply (Forall_singleton ident_char) in Hc. by apply ident_char_not_dot.
    + by apply last_None in Hl.
  - destruct IH as (c & Hl & Hc); [done|]. exists c. split; [|done].
    change (last (f ++ dot :: FieldPath_to_string (g :: p)) = Some c).
    rewrite last_app, last_cons, Hl. done.
Qed.

Lemma trim_dots_to_string p :
  p <> [] -> Forall ident_field p -> trim_dots (FieldPath_to_string p) = FieldPath_to_string p.
Proof.
  intros Hne Hp. destruct (to_string_head p) as (c & Hh & Hc); [done..|].
  destruct (to_string_last p) as (d & Hl & Hd); [done..|].
  unfold trim_dots. rewrite (trim_start_nodot (FieldPath_to_string p) c) by done.
  rewrite (trim_start_nodot _ d), rev_involutive; [done| |done].
  apply last_Some in Hl as (l & ->). by rewrite rev_app_distr.
Qed.

Lemma mapM_id {E A} (f : A -> outcome E A) l : Forall (fun x => f x = Ret x) l -> mapM f l = Ret l.
Proof. induction 1 as [|x l Hx Hl IH]; simpl; [done|]. by rewrite Hx, IH. Qed.

(** Field paths round-trip through their string form: joining the fields
    with dots and parsing the result returns the same path, for every
    non-empty path of fields that are valid identifiers. *)
Theorem field_path_roundtrip p :
  p <> [] -> Forall ident_field p -> FieldPath_from_str (FieldPath_to_string p) = Ret p.
Proof.
  intros Hne Hp. unfold FieldPath_from_str. rewrite trim_dots_to_string by done.
  destruct (to_string_head p) as (c & Hh & _); [done..|].
  destruct (FieldPath_to_string p) as [|x s] eqn:Hs; [done|].
  rewrite <- Hs, split_dots_to_string, (mapM_id _ p Hp) by done. by destruct p.
Qed.

Lemma field_path_roundtrip_witness :
  FieldPath_from_str (FieldPath_to_string [[95; 105; 100]; [97]]) = Ret [[95; 105; 100]; [97]].
Proof. apply field_path_roundtrip; [done|]. repeat constructor. Defined.
