(* ===== verification/Value.v ===== *)
(** * Value: Convex values (src/crates/value/src)

    [ConvexValue] is the enum of [lib.rs].  An [f64] is its 64 bits and a
    [String] its UTF-8 bytes.  The [size] and [nesting] that [ConvexArray] and
    [ConvexObject] cache at construction are the functions that compute them.
    [valid] collects what the constructors of the source guarantee:
    [ConvexString::try_from], [ConvexBytes::try_from], [ConvexArray::try_from],
    [ConvexObject::try_from], [FieldName::from_str], and the ranges of the
    primitive types. *)

From S2P Require Import Prelude Ord BTreeMap Identifier.

Local Open Scope Z_scope.

Inductive ConvexValue : Type :=
| Null
| Int64 (i : Z)
| Float64 (bits : Z)
| Boolean (b : bool)
| String (s : list Z)
| Bytes (b : list Z)
| Array (items : list ConvexValue)
| Object (fields : list (list Z * ConvexValue)).

Section ind.
Variable P : ConvexValue -> Prop.
Hypothesis HNull : P Null.
Hypothesis HInt64 : forall i, P (Int64 i).
Hypothesis HFloat64 : forall f, P (Float64 f).
Hypothesis HBoolean : forall b, P (Boolean b).
Hypothesis HString : forall s, P (String s).
Hypothesis HBytes : forall b, P (Bytes b).
Hypothesis HArray : forall items, Forall P items -> P (Array items).
Hypothesis HObject : forall fields, Forall (fun e => P e.2) fields -> P (Object fields).

Fixpoint ConvexValue_ind' (v : ConvexValue) : P v :=
  match v with
  | Null => HNull
  | Int64 i => HInt64 i
  | Float64 f => HFloat64 f
  | Boolean b => HBoolean b
  | String s => HString s
  | Bytes b => HBytes b
  | Array items =>
      HArray items
        ((fix go l : Forall P l :=
            match l with
            | [] => Forall_nil_2 _
            | x :: l => Forall_cons_2 _ _ _ (ConvexValue_ind' x) (go l)
            end) items)
  | Object fields =>
      HObject fields
        ((fix go l : Forall (fun e => P e.2) l :=
            match l with
            | [] => Forall_nil_2 _
            | e :: l => Forall_cons_2 _ _ _ (ConvexValue_ind' e.2) (go l)
            end) fields)
  end.
End ind.

(** ** Sizes and limits *)

Definition MAX_SIZE : Z := Z.shiftl 1 25.
Definition MAX_NESTING : nat := 64.
Definition MAX_ARRAY_LEN : Z := 8192.
Definition MAX_OBJECT_FIELDS : Z := 1024.

Inductive value_error :=
| ValueTooLarge
| TooNested
| ArrayTooLong
| TooManyFields.

Definition check_system_size (size : Z) : outcome value_error unit :=
  if MAX_SIZE <? size then Err ValueTooLarge else Ret tt.

Definition check_nesting (nesting : nat) : outcome value_error unit :=
  if (MAX_NESTING <? nesting)%nat then Err TooNested else Ret tt.

Definition zlen {A} (l : list A) : Z := Z.of_nat (length l).

(** [iter().sum()] and [iter().max().unwrap_or(0)]. *)
Definition zsum (l : list Z) : Z := fold_right Z.add 0 l.
Definition nmax (l : list nat) : nat := fold_right Nat.max 0%nat l.

(** [impl Size for ConvexValue]. *)
Fixpoint size (self : ConvexValue) : Z :=
  match self with
  | Null => 1
  | Int64 _ => 1 + 8
  | Float64 _ => 1 + 8
  | Boolean _ => 1
  | String s => 1 + zlen s + 1
  | Bytes b => 1 + zlen b + 1
  | Array items => 1 + zsum (map size items) + 1
  | Object fields => 1 + zsum (map (fun e => zlen e.1 + 1 + size e.2) fields) + 1
  end.

Fixpoint nesting (self : ConvexValue) : nat :=
  match self with
  | Null | Int64 _ | Float64 _ | Boolean _ | String _ | Bytes _ => 0
  | Array items => 1 + nmax (map nesting items)
  | Object fields => 1 + nmax (map (fun e => nesting e.2) fields)
  end.

(** [ConvexString::try_from], [ConvexBytes::try_from]. *)
Definition ConvexString_try_from (s : list Z) : outcome value_error ConvexValue :=
  let size := 1 + zlen s + 1 in
  check_system_size size ;? Ret (String s).

Definition ConvexBytes_try_from (v : list Z) : outcome value_error ConvexValue :=
  let size := 1 + zlen v + 1 in
  check_system_size size ;? Ret (Bytes v).

(** [ConvexArray::try_from]. *)
Definition ConvexArray_try_from (items : list ConvexValue) : outcome value_error ConvexValue :=
  if MAX_ARRAY_LEN <? zlen items then Err ArrayTooLong
  else
    let size := 1 + zsum (map size items) + 1 in
    check_system_size size ;?
    let nesting := (1 + nmax (map nesting items))%nat in
    check_nesting nesting ;?
    Ret (Array items).

(** [ConvexObject::try_from]. *)
Definition ConvexObject_try_from (fields : BTreeMap.t (list Z) ConvexValue) : outcome value_error ConvexValue :=
  if MAX_OBJECT_FIELDS <? zlen fields then Err TooManyFields
  else
    let size := 1 + zsum (map (fun e => zlen e.1 + 1 + size e.2) fields) + 1 in
    check_system_size size ;?
    let nesting := (1 + nmax (map (fun e => nesting e.2) fields))%nat in
    check_nesting nesting ;?
    Ret (Object fields).

(** [ConvexObject::get_path] on the fields of an object. *)
Fixpoint get_path_loop (v : ConvexValue) (fields : list (list Z)) : option ConvexValue :=
  match fields with
  | [] => Some v
  | field :: rest =>
      match v with
      | Object o =>
          match BTreeMap.get field o with
          | Some v => get_path_loop v rest
          | None => None
          end
      | _ => None
      end
  end.

Definition get_path (self : BTreeMap.t (list Z) ConvexValue) (field_path : FieldPath) : option ConvexValue :=
  match field_path with
  | [] => None
  | first :: rest =>
      match BTreeMap.get first self with
      | Some v => get_path_loop v rest
      | None => None
      end
  end.

(** [ConvexObject::shallow_merge]. *)
Definition shallow_merge (self other : BTreeMap.t (list Z) ConvexValue) : outcome value_error ConvexValue :=
  let self_fields :=
    fold_left (fun self_fields e => BTreeMap.insert e.1 e.2 self_fields) other self in
  ConvexObject_try_from self_fields.

(** [ConvexObject::filter_fields], whose [expect] discharges the re-validation. *)
Definition filter_fields {E} (self : BTreeMap.t (list Z) ConvexValue) (filter : list Z -> bool)
    : outcome E ConvexValue :=
  match ConvexObject_try_from (bfilter (fun e => filter e.1) self) with
  | Ret o => Ret o
  | _ => Panic
  end.

Definition filter_system_fields {E} (self : BTreeMap.t (list Z) ConvexValue) : outcome E ConvexValue :=
  filter_fields self (fun k => negb (is_system k)).

(** ** UTF-8 ([String::from_utf8]) *)

Definition cont (b : Z) : bool := (128 <=? b) && (b <=? 191).

Fixpoint utf8_valid (s : list Z) : bool :=
  match s with
  | [] => true
  | a :: s1 =>
      if a <? 128 then utf8_valid s1
      else
        match s1 with
        | [] => false
        | b :: s2 =>
            if (194 <=? a) && (a <=? 223) then cont b && utf8_valid s2
            else
              match s2 with
              | [] => false
              | c :: s3 =>
                  if (224 <=? a) && (a <=? 239) then
                    ((if a =? 224 then 160 else 128) <=? b) && (b <=? (if a =? 237 then 159 else 191))
                    && cont c && utf8_valid s3
                  else
                    match s3 with
                    | [] => false
                    | d :: s4 =>
                        (240 <=? a) && (a <=? 244)
                        && ((if a =? 240 then 144 else 128) <=? b) && (b <=? (if a =? 244 then 143 else 191))
                        && cont c && cont d && utf8_valid s4
                    end
              end
        end
  end.

(** ** Validity *)

Definition i64 (i : Z) : bool := (- 2 ^ 63 <=? i) && (i <? 2 ^ 63).
Definition u64 (i : Z) : bool := (0 <=? i) && (i <? 2 ^ 64).
Definition all_bytes (l : list Z) : bool := bool_decide (bytes l).

(** Strictly ascending field names: what iterating a [BTreeMap] yields. *)
Fixpoint ascending (l : list (list Z)) : bool :=
  match l with
  | [] => true
  | k :: l => forallb (fun k' => (k <? k')%ord) l && ascending l
  end.

Fixpoint valid (v : ConvexValue) : bool :=
  match v with
  | Null | Boolean _ => true
  | Int64 i => i64 i
  | Float64 bits => u64 bits
  | String s => all_bytes s && utf8_valid s && (size v <=? MAX_SIZE)
  | Bytes b => all_bytes b && (size v <=? MAX_SIZE)
  | Array items =>
      (zlen items <=? MAX_ARRAY_LEN) && (size v <=? MAX_SIZE) && (nesting v <=? MAX_NESTING)%nat
      && forallb valid items
  | Object fields =>
      (zlen fields <=? MAX_OBJECT_FIELDS) && (size v <=? MAX_SIZE) && (nesting v <=? MAX_NESTING)%nat
      && ascending (map fst fields)
      && forallb (fun e => all_bytes e.1 && is_valid_field_name e.1 && valid e.2) fields
  end.

(** No object in the value has the empty field name. *)
Fixpoint named (v : ConvexValue) : bool :=
  match v with
  | Array items => forallb named items
  | Object fields => forallb (fun e => negb (bool_decide (e.1 = [])) && named e.2) fields
  | _ => true
  end.

Lemma ascending_wf {V} (m : BTreeMap.t (list Z) V) : ascending (map fst m) = true <-> BTreeMap.wf m.
Proof.
  induction m as [|[k v] m IH]; simpl; [done|]. rewrite andb_true_iff, IH, forallb_elem.
  setoid_rewrite ltb_lt. split; intros [H1 H2]; split; try done.
  - intros e He. apply H1. by apply list_elem_of_fmap_2.
  - intros k' Hk'. apply list_elem_of_fmap in Hk' as (e & -> & He). by apply H1.
Qed.

(** ** Limits *)

Lemma check_system_size_Ret s u : check_system_size s = Ret u <-> s <= MAX_SIZE.
Proof. unfold check_system_size. destruct (Z.ltb_spec MAX_SIZE s), u; split; try done; lia. Qed.

Lemma check_nesting_Ret n u : check_nesting n = Ret u <-> (n <= MAX_NESTING)%nat.
Proof. unfold check_nesting. destruct (Nat.ltb_spec MAX_NESTING n), u; split; try done; lia. Qed.

Lemma zsum_nonneg l : Forall (fun x => 0 <= x) l -> 0 <= zsum l.
Proof. induction 1; simpl; lia. Qed.

Lemma zlen_nonneg {A} (l : list A) : 0 <= zlen l.
Proof. unfold zlen. lia. Qed.

Lemma size_pos v : 0 < size v.
Proof.
  induction v as [| | | | | |items IH|fields IH] using ConvexValue_ind'; simpl; try lia.
  - pose proof (zlen_nonneg s). lia.
  - pose proof (zlen_nonneg b). lia.
  - assert (0 <= zsum (map size items)); [|lia]. apply zsum_nonneg, Forall_map. eapply Forall_impl; [done|]. simpl. lia.
  - assert (0 <= zsum (map (fun e => zlen e.1 + 1 + size e.2) fields)); [|lia].
    apply zsum_nonneg, Forall_map. eapply Forall_impl; [done|]. intros e He. simpl in *.
    pose proof (zlen_nonneg e.1). lia.
Qed.

Lemma zsum_bfilter {A} (g : A -> Z) p l :
  (forall x, 0 <= g x) -> zsum (map g (bfilter p l)) <= zsum (map g l).
Proof. intros Hg. induction l as [|x l IH]; simpl; [done|]. specialize (Hg x). destruct (p x); simpl; lia. Qed.

Lemma nmax_bfilter {A} (g : A -> nat) p l : (nmax (map g (bfilter p l)) <= nmax (map g l))%nat.
Proof. induction l as [|x l IH]; simpl; [done|]. destruct (p x); simpl; lia. Qed.

Lemma length_bfilter {A} p (l : list A) : (length (bfilter p l) <= length l)%nat.
Proof. induction l as [|x l IH]; simpl; [done|]. destruct (p x); simpl; lia. Qed.

(** What the three constructors of compound values check. *)
Definition array_limits (items : list ConvexValue) : Prop :=
  zlen items <= MAX_ARRAY_LEN /\ size (Array items) <= MAX_SIZE /\ (nesting (Array items) <= MAX_NESTING)%nat.
Definition object_limits (fields : BTreeMap.t (list Z) ConvexValue) : Prop :=
  zlen fields <= MAX_OBJECT_FIELDS /\ size (Object fields) <= MAX_SIZE /\ (nesting (Object fields) <= MAX_NESTING)%nat.

Lemma bind_check_size {A} s (k : unit -> outcome value_error A) a :
  obind (check_system_size s) k = Ret a <-> s <= MAX_SIZE /\ k tt = Ret a.
Proof.
  unfold check_system_size. destruct (Z.ltb_spec MAX_SIZE s); simpl; split; try done; try tauto. lia.
Qed.

Lemma bind_check_nesting {A} n (k : unit -> outcome value_error A) a :
  obind (check_nesting n) k = Ret a <-> (n <= MAX_NESTING)%nat /\ k tt = Ret a.
Proof.
  unfold check_nesting. destruct (Nat.ltb_spec MAX_NESTING n); simpl; split; try done; try tauto. lia.
Qed.

Lemma ConvexArray_try_from_Ret items v :
  ConvexArray_try_from items = Ret v <-> v = Array items /\ array_limits items.
Proof.
  unfold ConvexArray_try_from, array_limits. destruct (Z.ltb_spec MAX_ARRAY_LEN (zlen items)).
  - split; [done|lia].
  - rewrite bind_check_size, bind_check_nesting. simpl. split; [intros (? & ? & [= <-]); split_and!; done|].
    intros (-> & _ & ? & ?). done.
Qed.

Lemma ConvexObject_try_from_Ret fields v :
  ConvexObject_try_from fields = Ret v <-> v = Object fields /\ object_limits fields.
Proof.
  unfold ConvexObject_try_from, object_limits. destruct (Z.ltb_spec MAX_OBJECT_FIELDS (zlen fields)).
  - split; [done|lia].
  - rewrite bind_check_size, bind_check_nesting. simpl. split; [intros (? & ? & [= <-]); split_and!; done|].
    intros (-> & _ & ? & ?). done.
Qed.

Lemma valid_Array items :
  valid (Array items) = true <-> array_limits items /\ forall v, v ∈ items -> valid v = true.
Proof.
  cbn [valid]. rewrite !andb_true_iff, !Z.leb_le, Nat.leb_le, forallb_elem. unfold array_limits. tauto.
Qed.

Lemma valid_Object fields :
  valid (Object fields) = true <-> object_limits fields /\ BTreeMap.wf fields /\
    forall e, e ∈ fields -> bytes e.1 /\ is_valid_field_name e.1 = true /\ valid e.2 = true.
Proof.
  cbn [valid]. rewrite !andb_true_iff, !Z.leb_le, Nat.leb_le, forallb_elem, ascending_wf.
  setoid_rewrite andb_true_iff. setoid_rewrite andb_true_iff. unfold all_bytes.
  setoid_rewrite bool_decide_eq_true. unfold object_limits. setoid_rewrite <- (and_assoc (bytes _)). tauto.
Qed.

(** [filter_fields]: the [expect] never fires on an object the constructors
    made, and the result is again one. *)
Lemma filter_fields_spec {E} fields (f : list Z -> bool) :
  valid (Object fields) = true ->
  exists fields', filter_fields (E := E) fields f = Ret (Object fields') /\ valid (Object fields') = true /\
    forall e, e ∈ fields' <-> e ∈ fields /\ f e.1 = true.
Proof.
  intros ((Hl & Hs & Hn) & Hwf & Hv)%valid_Object.
  set (fields' := bfilter (fun e => f e.1) fields).
  assert (Hlim : object_limits fields').
  { unfold object_limits in *. simpl in *. pose proof (length_bfilter (fun e => f e.1) fields).
    pose proof (nmax_bfilter (fun e => nesting e.2) (fun e => f e.1) fields).
    pose proof (zsum_bfilter (fun e => zlen e.1 + 1 + size e.2) (fun e => f e.1) fields
      ltac:(intros [??]; simpl; pose proof (size_pos c); pose proof (zlen_nonneg l); lia)).
    unfold fields'. split_and!; [unfold zlen in *; lia|lia..]. }
  exists fields'. split_and!.
  - unfold filter_fields. fold fields'. by rewrite (proj2 (ConvexObject_try_from_Ret fields' (Object fields'))).
  - apply valid_Object. split_and!; [done|by apply BTreeMap.wf_bfilter|].
    intros e [He _]%elem_of_bfilter. by apply Hv.
  - intros e. exact (elem_of_bfilter (fun e => f e.1) fields e).
Qed.

(** [shallow_merge]: the fields of [other] win. *)
Lemma shallow_merge_get self other v k :
  BTreeMap.wf self -> BTreeMap.wf other ->
  shallow_merge self other = Ret v ->
  exists fields, v = Object fields /\ BTreeMap.wf fields /\
    BTreeMap.get k fields = match BTreeMap.get k other with Some w => Some w | None => BTreeMap.get k self end.
Proof.
  intros Hs Ho. unfold shallow_merge.
  assert (Hfold : forall acc, BTreeMap.wf acc ->
    let m := fold_left (fun self_fields e => BTreeMap.insert e.1 e.2 self_fields) other acc in
    BTreeMap.wf m /\ BTreeMap.get k m =
      match BTreeMap.get k other with Some w => Some w | None => BTreeMap.get k acc end).
  { clear v. induction other as [|[k0 v0] other IH]; intros acc Hacc; simpl in *; [done|].
    destruct Ho as [Hlt Ho]. destruct (IH Ho (BTreeMap.insert k0 v0 acc)) as [? ->]; [by apply BTreeMap.wf_insert|].
    split; [done|]. destruct (k ==? k0)%ord eqn:E.
    - apply eqb_eq in E as ->. rewrite BTreeMap.get_insert_eq by done.
      assert (BTreeMap.get k0 other = None) as ->; [|done].
      apply BTreeMap.get_None. intros w Hw. apply Hlt in Hw. by apply olt_irrefl in Hw.
    - apply eqb_neq in E. by rewrite BTreeMap.get_insert_ne. }
  intros [-> _]%ConvexObject_try_from_Ret. destruct (Hfold self Hs). eauto.
Qed.
