(* ===== verification/Sorting.v ===== *)
(** * Sorting: order-preserving sort keys (src/crates/value/src/sorting.rs)

    [write_sort_key] appends the key of a value to a writer, as in the source
    (its [assert!] is an outcome); [enc] is the same key as a pure function,
    and [write_sort_key_enc] relates the two.  [value_cmp] is the manual
    [impl Ord for ConvexValue].  The main lemma [enc_cmp] says that comparing
    keys, followed by any tails, is comparing the values and then the tails:
    order preservation, injectivity and prefix-freeness all follow. *)

From S2P Require Import Prelude Ord BTreeMap Identifier Value.

Local Open Scope Z_scope.

Definition UNDEFINED_TAG : Z := 1.
Definition NULL_TAG : Z := 3.
Definition NEG_INT64_8_BYTE_TAG : Z := 4.
Definition ZERO_INT64_TAG : Z := 8.
Definition POS_INT64_8_BYTE_TAG : Z := 12.
Definition FLOAT64_TAG : Z := 13.
Definition FALSE_BOOLEAN_TAG : Z := 14.
Definition TRUE_BOOLEAN_TAG : Z := 15.
Definition STRING_TAG : Z := 16.
Definition BYTES_TAG : Z := 17.
Definition ARRAY_TAG : Z := 18.
Definition OBJECT_TAG : Z := 21.
Definition TERMINATOR_BYTE : Z := 0.
Definition ESCAPE_BYTE : Z := 255.

(** [BufMut::put_u8] and [BufMut::put] on a [Vec<u8>]. *)
Definition put_u8 (writer : list Z) (b : Z) : list Z := writer ++ [b].
Definition put (writer bs : list Z) : list Z := writer ++ bs.

(** The [k] low bytes of [x], most significant first. *)
Fixpoint be_bytes (k : nat) (x : Z) : list Z :=
  match k with
  | O => []
  | S k => (x / 256 ^ Z.of_nat k) mod 256 :: be_bytes k x
  end.

(** [i64::to_be_bytes]. *)
Definition to_be_bytes (n : Z) : list Z := be_bytes 8 (n mod 2 ^ 64).

Definition write_escaped_bytes (buf : list Z) (writer : list Z) : list Z :=
  let writer :=
    fold_left
      (fun writer byte =>
         let writer := put_u8 writer byte in
         if byte =? TERMINATOR_BYTE then put_u8 writer ESCAPE_BYTE else writer)
      buf writer in
  put_u8 writer TERMINATOR_BYTE.

Definition int_tag_diff (n : Z) : Z :=
  if (-128 <=? n) && (n <=? 127) then 1
  else if (-32768 <=? n) && (n <=? 32767) then 2
  else if (-2147483648 <=? n) && (n <=? 2147483647) then 3
  else 4.

Definition write_tagged_int {E} (n : Z) (writer : list Z) : outcome E (list Z) :=
  let tag_diff := int_tag_diff n in
  let tag := if n <? 0 then ZERO_INT64_TAG - tag_diff else ZERO_INT64_TAG + tag_diff in
  let num_bytes := Z.to_nat (Z.shiftl 1 (tag_diff - 1)) in
  let buf := to_be_bytes n in
  let empty := if n <? 0 then 255 else 0 in
  let? _ := rassert (forallb (fun b => b =? empty) (take (8 - num_bytes) buf)) in
  let writer := put_u8 writer tag in
  Ret (put writer (drop (8 - num_bytes) buf)).

(** The bits of a float, mapped to an unsigned integer in total order. *)
Definition float_sort_bits (f : Z) : Z :=
  if negb (Z.land f (Z.shiftl 1 63) =? 0) then Z.lxor f (2 ^ 64 - 1)
  else Z.lor f (Z.shiftl 1 63).

Fixpoint write_sort_key {E} (value : ConvexValue) (writer : list Z) : outcome E (list Z) :=
  match value with
  | Null => Ret (put_u8 writer NULL_TAG)
  | Int64 i => if i =? 0 then Ret (put_u8 writer ZERO_INT64_TAG) else write_tagged_int i writer
  | Float64 f =>
      let f := float_sort_bits f in
      let writer := put_u8 writer FLOAT64_TAG in
      Ret (put writer (be_bytes 8 f))
  | Boolean false => Ret (put_u8 writer FALSE_BOOLEAN_TAG)
  | Boolean true => Ret (put_u8 writer TRUE_BOOLEAN_TAG)
  | String s => Ret (write_escaped_bytes s (put_u8 writer STRING_TAG))
  | Bytes b => Ret (write_escaped_bytes b (put_u8 writer BYTES_TAG))
  | Array array =>
      let writer := put_u8 writer ARRAY_TAG in
      let? writer := foldM (fun writer element => write_sort_key element writer) writer array in
      Ret (put_u8 writer TERMINATOR_BYTE)
  | Object object =>
      let writer := put_u8 writer OBJECT_TAG in
      let? writer :=
        foldM (fun writer pair => write_sort_key pair.2 (write_escaped_bytes pair.1 writer)) writer object in
      Ret (put_u8 writer TERMINATOR_BYTE)
  end.

Definition write_sort_key_or_undefined {E} (value : option ConvexValue) (writer : list Z)
    : outcome E (list Z) :=
  match value with
  | Some value => write_sort_key value writer
  | None => Ret (put_u8 writer UNDEFINED_TAG)
  end.

(** [ConvexValue::sort_key]. *)
Definition sort_key {E} (self : ConvexValue) : outcome E (list Z) := write_sort_key self [].

Definition values_to_bytes {E} (values : list (option ConvexValue)) : outcome E (list Z) :=
  foldM (fun out value => write_sort_key_or_undefined value out) [] values.

(** ** [impl Ord for ConvexValue] *)

Definition type_tag (v : ConvexValue) : nat :=
  match v with
  | Null => 1
  | Int64 _ => 2
  | Float64 _ => 3
  | Boolean _ => 4
  | String _ => 5
  | Bytes _ => 6
  | Array _ => 7
  | Object _ => 10
  end.

(** [Iterator::cmp]: lexicographic comparison of two sequences. *)
Definition lexicographic {A} (f : A -> A -> comparison) : list A -> list A -> comparison :=
  fix go xs ys :=
    match xs, ys with
    | [], [] => Eq
    | [], _ :: _ => Lt
    | _ :: _, [] => Gt
    | x :: xs, y :: ys => lex_cmp (f x y) (go xs ys)
    end.

(** [f64::total_cmp]: compare the bits as signed integers after flipping the
    magnitude bits of the negative ones. *)
Definition total_cmp_key (bits : Z) : Z :=
  let left := if bits <? 2 ^ 63 then bits else bits - 2 ^ 64 in
  Z.lxor left (Z.shiftr (Z.shiftr left 63 mod 2 ^ 64) 1).

(** Once the tags are equal the two values have the same constructor, so the
    [panic!] arms of the source are the last, dead, case. *)
Fixpoint value_cmp (self other : ConvexValue) : comparison :=
  match Nat.compare (type_tag self) (type_tag other) with
  | Eq =>
      match self, other with
      | Null, Null => Eq
      | Int64 self_, Int64 other_ => cmp self_ other_
      | Float64 self_, Float64 other_ => cmp (total_cmp_key self_) (total_cmp_key other_)
      | Boolean self_, Boolean other_ => cmp self_ other_
      | String self_, String other_ => cmp self_ other_
      | Bytes self_, Bytes other_ => cmp self_ other_
      | Array self_, Array other_ => lexicographic value_cmp self_ other_
      | Object self_, Object other_ =>
          lexicographic (fun p q => lex_cmp (cmp p.1 q.1) (value_cmp p.2 q.2)) self_ other_
      | _, _ => Eq
      end
  | c => c
  end.

(** ** The sort key as a pure function *)

Fixpoint esc (buf : list Z) : list Z :=
  match buf with
  | [] => [TERMINATOR_BYTE]
  | b :: buf => if b =? TERMINATOR_BYTE then b :: ESCAPE_BYTE :: esc buf else b :: esc buf
  end.

(** Number of payload bytes of an integer. *)
Definition int_bytes (n : Z) : nat := Z.to_nat (Z.shiftl 1 (int_tag_diff n - 1)).

Definition enc_int (n : Z) : list Z :=
  (if n <? 0 then ZERO_INT64_TAG - int_tag_diff n else ZERO_INT64_TAG + int_tag_diff n)
  :: be_bytes (int_bytes n) (n mod 256 ^ Z.of_nat (int_bytes n)).

Fixpoint enc (v : ConvexValue) : list Z :=
  match v with
  | Null => [NULL_TAG]
  | Int64 i => if i =? 0 then [ZERO_INT64_TAG] else enc_int i
  | Float64 f => FLOAT64_TAG :: be_bytes 8 (float_sort_bits f)
  | Boolean b => [if b then TRUE_BOOLEAN_TAG else FALSE_BOOLEAN_TAG]
  | String s => STRING_TAG :: esc s
  | Bytes b => BYTES_TAG :: esc b
  | Array items => ARRAY_TAG :: concat (map enc items) ++ [TERMINATOR_BYTE]
  | Object fields => OBJECT_TAG :: concat (map (fun e => esc e.1 ++ enc e.2) fields) ++ [TERMINATOR_BYTE]
  end.

Definition enc_opt (v : option ConvexValue) : list Z :=
  match v with Some v => enc v | None => [UNDEFINED_TAG] end.

(** *** Big-endian bytes *)

Lemma length_be_bytes k x : length (be_bytes k x) = k.
Proof. induction k; simpl; congruence. Qed.

Lemma be_bytes_mod k x y : x mod 256 ^ Z.of_nat k = y mod 256 ^ Z.of_nat k -> be_bytes k x = be_bytes k y.
Proof.
  revert x y. induction k as [|k IH]; intros x y Hxy; simpl; [done|].
  rewrite Nat2Z.inj_succ, Z.pow_succ_r in Hxy by lia.
  assert (0 < 256 ^ Z.of_nat k) by (apply Z.pow_pos_nonneg; lia).
  set (p := 256 ^ Z.of_nat k) in *. rewrite (Z.mul_comm 256) in Hxy.
  rewrite !Z.rem_mul_r in Hxy by lia.
  pose proof (Z.mod_pos_bound x p). pose proof (Z.mod_pos_bound y p).
  assert (x mod p = y mod p /\ (x / p) mod 256 = (y / p) mod 256) as [Hm Hd]; [|f_equal; [done|by apply IH]].
  assert (x mod p = (x mod p + p * ((x / p) mod 256)) mod p) as ->.
  { by rewrite Z.mul_comm, Z.mod_add, Z.mod_mod by lia. }
  assert (y mod p = (y mod p + p * ((y / p) mod 256)) mod p) as ->.
  { by rewrite Z.mul_comm, Z.mod_add, Z.mod_mod by lia. }
  rewrite Hxy. split; [done|]. nia.
Qed.

Lemma be_bytes_mod_l k x : be_bytes k (x mod 256 ^ Z.of_nat k) = be_bytes k x.
Proof. apply be_bytes_mod. by rewrite Z.mod_mod by (apply Z.pow_nonzero; lia). Qed.

Lemma drop_be_bytes k j x : drop j (be_bytes (j + k) x) = be_bytes k x.
Proof. induction j as [|j IH]; simpl; [by rewrite drop_0|done]. Qed.

Lemma bytes_be_bytes k x : bytes (be_bytes k x).
Proof. induction k; constructor; [apply Z.mod_pos_bound; lia|done]. Qed.

Lemma lex_cmp_assoc a b c : lex_cmp (lex_cmp a b) c = lex_cmp a (lex_cmp b c).
Proof. by destruct a. Qed.

Lemma cmp_cons (x y : Z) l k : cmp (x :: l) (y :: k) = lex_cmp (cmp x y) (cmp l k).
Proof. done. Qed.

Lemma lex_cmp_lt x y (l k : list Z) : x < y -> cmp (x :: l) (y :: k) = Lt.
Proof. intros Hlt. rewrite cmp_cons. apply Z_olt in Hlt. unfold olt in Hlt. by rewrite Hlt. Qed.

Lemma lex_cmp_gt x y (l k : list Z) : y < x -> cmp (x :: l) (y :: k) = Gt.
Proof. intros Hlt. rewrite cmp_opp, lex_cmp_lt; done. Qed.

Lemma lex_cmp_eq (x : Z) l k : cmp (x :: l) (x :: k) = cmp l k.
Proof. rewrite cmp_cons. by rewrite cmp_refl. Qed.

(** Equal-length big-endian bytes compare like the numbers. *)
Lemma be_bytes_cmp k x y r1 r2 :
  0 <= x < 256 ^ Z.of_nat k -> 0 <= y < 256 ^ Z.of_nat k ->
  cmp (be_bytes k x ++ r1) (be_bytes k y ++ r2) = lex_cmp (cmp x y) (cmp r1 r2).
Proof.
  revert x y. induction k as [|k IH]; intros x y Hx Hy.
  { simpl in Hx, Hy. replace x with 0 by lia. replace y with 0 by lia. done. }
  rewrite Nat2Z.inj_succ, Z.pow_succ_r in Hx, Hy by lia. simpl be_bytes.
  rewrite <- (be_bytes_mod_l k x), <- (be_bytes_mod_l k y).
  assert (0 < 256 ^ Z.of_nat k) by (apply Z.pow_pos_nonneg; lia).
  set (p := 256 ^ Z.of_nat k) in *.
  pose proof (Z.mod_pos_bound x p). pose proof (Z.mod_pos_bound y p).
  assert (Hdx : (x / p) mod 256 = x / p) by (apply Z.mod_small; split; [by apply Z.div_pos; lia|apply Z.div_lt_upper_bound; lia]).
  assert (Hdy : (y / p) mod 256 = y / p) by (apply Z.mod_small; split; [by apply Z.div_pos; lia|apply Z.div_lt_upper_bound; lia]).
  rewrite Hdx, Hdy. simpl app.
  pose proof (Z.div_mod x p) as Ex. pose proof (Z.div_mod y p) as Ey.
  destruct (Z.lt_trichotomy (x / p) (y / p)) as [Hlt|[Heq|Hgt]].
  - rewrite lex_cmp_lt by done. assert (Hxy : x < y) by nia. apply Z_olt in Hxy. unfold olt in Hxy. by rewrite Hxy.
  - rewrite Heq, lex_cmp_eq, IH by lia. f_equal. unfold cmp, Z_Ord.
    destruct (Z.compare_spec (x mod p) (y mod p)); symmetry;
      [apply Z.compare_eq_iff|apply Z.compare_lt_iff|apply Z.compare_gt_iff]; nia.
  - rewrite lex_cmp_gt by done. assert (Hxy : y < x) by nia. apply Z_olt in Hxy. unfold olt in Hxy.
    by rewrite cmp_opp, Hxy.
Qed.

(** *** [write_sort_key] appends [enc] *)

Lemma write_escaped_bytes_esc buf writer : write_escaped_bytes buf writer = writer ++ esc buf.
Proof.
  unfold write_escaped_bytes, put_u8. revert writer. induction buf as [|b buf IH]; intros writer; simpl; [done|].
  rewrite IH. destruct (b =? TERMINATOR_BYTE); by rewrite <- !app_assoc.
Qed.

Lemma int_range_cases n :
  i64 n = true ->
  (int_tag_diff n = 1 /\ int_bytes n = 1%nat /\ -128 <= n <= 127) \/
  (int_tag_diff n = 2 /\ int_bytes n = 2%nat /\ -32768 <= n <= 32767 /\ (n < -128 \/ 127 < n)) \/
  (int_tag_diff n = 3 /\ int_bytes n = 4%nat /\ -2147483648 <= n <= 2147483647 /\ (n < -32768 \/ 32767 < n)) \/
  (int_tag_diff n = 4 /\ int_bytes n = 8%nat /\ -9223372036854775808 <= n <= 9223372036854775807 /\
   (n < -2147483648 \/ 2147483647 < n)).
Proof.
  unfold i64, int_bytes, int_tag_diff. intros Hn. bool_hyps.
  destruct (Z.leb_spec (-128) n), (Z.leb_spec n 127); simpl; try (left; split_and!; done || lia);
  destruct (Z.leb_spec (-32768) n), (Z.leb_spec n 32767); simpl; try (right; left; split_and!; done || lia); try lia;
  destruct (Z.leb_spec (-2147483648) n), (Z.leb_spec n 2147483647); simpl;
    try (right; right; left; split_and!; done || lia); try lia; right; right; right; split_and!; done || lia.
Qed.

(** The bytes left off are the sign extension. *)
Lemma high_bytes n k j :
  (k <= 7)%nat -> - 2 ^ (8 * Z.of_nat k) <= n < 2 ^ (8 * Z.of_nat k) -> (k <= j <= 7)%nat ->
  ((n mod 2 ^ 64) / 256 ^ Z.of_nat j) mod 256 = if n <? 0 then 255 else 0.
Proof.
  intros Hk Hn Hj.
  assert (Hp : forall i : nat, 256 ^ Z.of_nat i = 2 ^ (8 * Z.of_nat i)).
  { intros i. rewrite Z.pow_mul_r by lia. done. }
  assert (Hjk : 2 ^ (8 * Z.of_nat k) <= 2 ^ (8 * Z.of_nat j)) by (apply Z.pow_le_mono_r; lia).
  assert (Hj7 : 2 ^ (8 * Z.of_nat j) * 2 ^ (64 - 8 * Z.of_nat j) = 2 ^ 64)
    by (rewrite <- Z.pow_add_r by lia; f_equal; lia).
  assert (H8 : 2 ^ (64 - 8 * Z.of_nat j) = 256 * 2 ^ (56 - 8 * Z.of_nat j)).
  { change 256 with (2 ^ 8). rewrite <- Z.pow_add_r by lia. f_equal. lia. }
  rewrite Hp. assert (0 < 2 ^ (8 * Z.of_nat j)) by (apply Z.pow_pos_nonneg; lia).
  assert (0 < 2 ^ (56 - 8 * Z.of_nat j)) by (apply Z.pow_pos_nonneg; lia).
  destruct (Z.ltb_spec n 0) as [Hneg|Hpos].
  - assert (n mod 2 ^ 64 = n + 2 ^ 64) as ->.
    { symmetry. apply Z.mod_unique with (-1); [left|]; nia. }
    assert ((n + 2 ^ 64) / 2 ^ (8 * Z.of_nat j) = 2 ^ (64 - 8 * Z.of_nat j) - 1) as ->.
    { symmetry. apply Z.div_unique with (n + 2 ^ (8 * Z.of_nat j)); [left|]; nia. }
    symmetry. apply Z.mod_unique with (2 ^ (56 - 8 * Z.of_nat j) - 1); [left|]; lia.
  - rewrite (Z.mod_small n) by nia. rewrite Z.div_small by lia. done.
Qed.

Lemma take_be_bytes x k m b :
  (forall j : nat, (k <= j < k + m)%nat -> (x / 256 ^ Z.of_nat j) mod 256 = b) ->
  forallb (fun c => c =? b) (take m (be_bytes (m + k) x)) = true.
Proof.
  induction m as [|m IH]; intros H; simpl; [done|]. rewrite (H (m + k)%nat), Z.eqb_refl by lia. simpl.
  apply IH. intros j Hj. apply H. lia.
Qed.

Lemma int_bytes_bounds n : i64 n = true ->
  (int_bytes n <= 8)%nat /\ 8%nat = (8 - int_bytes n + int_bytes n)%nat /\
  ((int_bytes n <= 7)%nat -> - 2 ^ (8 * Z.of_nat (int_bytes n)) <= n < 2 ^ (8 * Z.of_nat (int_bytes n))).
Proof.
  intros Hn.
  destruct (int_range_cases n Hn) as [(_ & -> & ?)|[(_ & -> & ? & _)|[(_ & -> & ? & _)|(_ & -> & ? & _)]]];
    split_and!; simpl; lia.
Qed.

(** The payload is the low bytes, and the bytes left off are constant. *)
Lemma to_be_bytes_low n :
  i64 n = true ->
  drop (8 - int_bytes n) (to_be_bytes n) = be_bytes (int_bytes n) (n mod 256 ^ Z.of_nat (int_bytes n)).
Proof.
  intros Hn. destruct (int_bytes_bounds n Hn) as (Hk8 & H8 & _). unfold to_be_bytes.
  rewrite H8 at 2. rewrite drop_be_bytes, be_bytes_mod_l. apply be_bytes_mod.
  assert (2 ^ 64 = 256 ^ Z.of_nat (int_bytes n) * 256 ^ (8 - Z.of_nat (int_bytes n))) as ->.
  { rewrite <- Z.pow_add_r by lia. replace (Z.of_nat (int_bytes n) + (8 - Z.of_nat (int_bytes n))) with 8 by lia. done. }
  rewrite Z.rem_mul_r by (try apply Z.pow_nonzero; try apply Z.pow_pos_nonneg; lia).
  rewrite (Z.mul_comm (256 ^ Z.of_nat (int_bytes n))), Z.mod_add, Z.mod_mod by (apply Z.pow_nonzero; lia). done.
Qed.

Lemma to_be_bytes_high n :
  i64 n = true ->
  forallb (fun b => b =? (if n <? 0 then 255 else 0)) (take (8 - int_bytes n) (to_be_bytes n)) = true.
Proof.
  intros Hn. destruct (int_bytes_bounds n Hn) as (Hk8 & H8 & Hk). unfold to_be_bytes.
  rewrite H8 at 2. apply take_be_bytes. intros j Hj. apply (high_bytes n (int_bytes n) j); lia.
Qed.

Lemma write_tagged_int_enc {E} n writer :
  i64 n = true -> write_tagged_int (E := E) n writer = Ret (writer ++ enc_int n).
Proof.
  intros Hn. unfold write_tagged_int, enc_int. fold (int_bytes n).
  rewrite to_be_bytes_high, to_be_bytes_low by done. simpl rassert. cbn [obind].
  unfold put, put_u8. by rewrite <- app_assoc.
Qed.

Lemma foldM_append {E A} (f : list Z -> A -> outcome E (list Z)) (g : A -> list Z) xs w :
  (forall x w, x ∈ xs -> f w x = Ret (w ++ g x)) -> foldM f w xs = Ret (w ++ concat (map g xs)).
Proof.
  revert w. induction xs as [|x xs IH]; intros w Hf; simpl; [by rewrite app_nil_r|].
  rewrite Hf by left. simpl. rewrite IH, <- app_assoc; [done|]. intros y w' Hy. apply Hf. by right.
Qed.

(** The [assert!] of [write_tagged_int] never fires on a valid value. *)
Lemma write_sort_key_enc {E} v writer :
  valid v = true -> write_sort_key (E := E) v writer = Ret (writer ++ enc v).
Proof.
  revert writer. induction v as [| | |b| | |items IH|fields IH] using ConvexValue_ind'; intros writer Hv;
    simpl write_sort_key; simpl enc; unfold put, put_u8.
  - done.
  - destruct (i =? 0); [done|]. by apply write_tagged_int_enc.
  - by rewrite <- app_assoc.
  - by destruct b.
  - by rewrite write_escaped_bytes_esc, <- app_assoc.
  - by rewrite write_escaped_bytes_esc, <- app_assoc.
  - apply valid_Array in Hv as [_ Hv]. rewrite Forall_forall in IH.
    rewrite (foldM_append _ enc) by auto. simpl. by rewrite <- !app_assoc.
  - apply valid_Object in Hv as (_ & _ & Hv). rewrite Forall_forall in IH.
    rewrite (foldM_append _ (fun e => esc e.1 ++ enc e.2)).
    + simpl. by rewrite <- !app_assoc.
    + intros e w He. rewrite write_escaped_bytes_esc, IH, <- app_assoc; [done..|]. by apply Hv.
Qed.

Definition valid_opt (v : option ConvexValue) : bool := match v with Some v => valid v | None => true end.

Lemma values_to_bytes_enc {E} vs :
  (forall v, v ∈ vs -> valid_opt v = true) -> values_to_bytes (E := E) vs = Ret (concat (map enc_opt vs)).
Proof.
  intros Hv. unfold values_to_bytes. rewrite (foldM_append _ enc_opt); [done|].
  intros [v|] w Hin; simpl; [|done]. apply write_sort_key_enc. by apply (Hv (Some v)).
Qed.

(** ** Order preservation *)

(** What may follow a key: nothing, or a byte other than the escape byte. *)
Definition tail_ok (r : list Z) : Prop := match r with [] => True | b :: _ => b < ESCAPE_BYTE end.

Lemma esc_cmp a b r1 r2 :
  bytes a -> bytes b -> tail_ok r1 -> tail_ok r2 ->
  cmp (esc a ++ r1) (esc b ++ r2) = lex_cmp (cmp a b) (cmp r1 r2).
Proof.
  unfold tail_ok, ESCAPE_BYTE. intros Ha Hb H1 H2. revert b Hb.
  induction Ha as [|x a Hx Ha IH]; intros b Hb; destruct Hb as [|y b Hy Hb]; simpl; unfold TERMINATOR_BYTE, u8 in *.
  - by rewrite lex_cmp_eq.
  - destruct (Z.eqb_spec y 0) as [->|Hne]; simpl; [|by rewrite lex_cmp_lt by lia].
    rewrite lex_cmp_eq. destruct r1 as [|c r1]; [done|]. by rewrite lex_cmp_lt.
  - destruct (Z.eqb_spec x 0) as [->|Hne]; simpl; [|by rewrite lex_cmp_gt by lia].
    rewrite lex_cmp_eq. destruct r2 as [|c r2]; [done|]. by rewrite lex_cmp_gt.
  - rewrite (cmp_cons x y), lex_cmp_assoc, <- IH by done.
    destruct (Z.lt_trichotomy x y) as [Hlt|[->|Hgt]].
    + pose proof Hlt as Hc. apply Z_olt in Hc. unfold olt in Hc. rewrite Hc.
      destruct (x =? 0), (y =? 0); simpl; by rewrite lex_cmp_lt.
    + rewrite cmp_refl. destruct (y =? 0); simpl; by rewrite ?lex_cmp_eq.
    + pose proof Hgt as Hc. apply Z_olt in Hc. unfold olt in Hc. rewrite (cmp_opp y x), Hc.
      destruct (x =? 0), (y =? 0); simpl; by rewrite lex_cmp_gt.
Qed.

Lemma lxor_ones l n : 0 <= n -> 0 <= l < 2 ^ n -> Z.lxor l (Z.ones n) = Z.ones n - l.
Proof.
  intros Hn Hl.
  assert (Hdis : Z.land (Z.lxor l (Z.ones n)) l = 0).
  { apply Z.bits_inj'. intros i Hi. rewrite Z.land_spec, Z.lxor_spec, Z.bits_0.
    destruct (Z.lt_ge_cases i n).
    - rewrite Z.ones_spec_low by lia. by destruct (Z.testbit l i).
    - rewrite <- (Z.mod_small l (2 ^ n)) by lia. rewrite Z.mod_pow2_bits_high by lia. by rewrite andb_false_r. }
  apply Z.add_nocarry_lxor in Hdis. rewrite (Z.lxor_comm l (Z.ones n)) in *.
  rewrite Z.lxor_assoc, Z.lxor_nilpotent, Z.lxor_0_r in Hdis. lia.
Qed.

Lemma land_bit63 f : u64 f = true -> (Z.land f (Z.shiftl 1 63) =? 0) = (f <? 2 ^ 63).
Proof.
  unfold u64. intros Hf. bool_hyps.
  assert (Hland : Z.land f (Z.shiftl 1 63) = if Z.testbit f 63 then 2 ^ 63 else 0).
  { apply Z.bits_inj'. intros i Hi. rewrite Z.land_spec, Z.shiftl_spec by lia.
    destruct (Z.eq_dec i 63) as [->|Hne].
    - rewrite andb_true_r. by destruct (Z.testbit f 63).
    - assert (Z.testbit 1 (i - 63) = false) as ->.
      { destruct (Z.lt_ge_cases i 63); [by apply Z.testbit_neg_r; lia|]. by apply (Z.bits_above_log2 1); simpl; lia. }
      rewrite andb_false_r. destruct (Z.testbit f 63); [|by rewrite Z.bits_0]. symmetry. apply Z.pow2_bits_false. lia. }
  rewrite Hland.
  assert (Hbit : Z.testbit f 63 = negb (f <? 2 ^ 63)).
  { destruct (Z.ltb_spec f (2 ^ 63)); cbn [negb].
    - rewrite <- (Z.mod_small f (2 ^ 63)) by lia. by apply Z.mod_pow2_bits_high.
    - apply Z.testbit_true; [lia|]. rewrite <- (Z.div_unique f (2 ^ 63) 1 (f - 2 ^ 63)); [done|left; lia|lia]. }
  rewrite Hbit. by destruct (f <? 2 ^ 63).
Qed.

(** The written bits are the [total_cmp] key, shifted to be unsigned. *)
Lemma float_sort_bits_key f :
  u64 f = true -> float_sort_bits f = total_cmp_key f + 2 ^ 63 /\ 0 <= float_sort_bits f < 2 ^ 64.
Proof.
  intros Hf. unfold float_sort_bits, total_cmp_key. rewrite land_bit63 by done. unfold u64 in Hf. bool_hyps.
  destruct (Z.ltb_spec f (2 ^ 63)) as [Hlt|Hge]; cbn [negb].
  - assert (Z.shiftr f 63 = 0) as ->.
    { rewrite Z.shiftr_div_pow2 by lia. apply Z.div_small. lia. }
    change (Z.shiftr (0 mod 2 ^ 64) 1) with 0. rewrite Z.lxor_0_r.
    assert (Z.lor f (Z.shiftl 1 63) = f + 2 ^ 63) as ->; [|lia].
    rewrite <- Z.lxor_lor, <- Z.add_nocarry_lxor; [done| |];
      apply Z.eqb_eq; rewrite land_bit63; first [by apply Z.ltb_lt|unfold u64; lia].
  - assert (Z.shiftr (f - 2 ^ 64) 63 = -1) as ->.
    { rewrite Z.shiftr_div_pow2 by lia. symmetry. apply Z.div_unique with (f - 2 ^ 63); lia. }
    change (Z.shiftr (-1 mod 2 ^ 64) 1) with (Z.ones 63). change (2 ^ 64 - 1) with (Z.ones 64).
    rewrite lxor_ones by lia.
    assert (Z.lxor (f - 2 ^ 64) (Z.ones 63) = -1 - (Z.ones 63 - (-1 - (f - 2 ^ 64)))) as ->.
    { rewrite <- (lxor_ones (-1 - (f - 2 ^ 64)) 63) by lia.
      replace (-1 - (f - 2 ^ 64)) with (Z.lnot (f - 2 ^ 64)) by (unfold Z.lnot; lia).
      rewrite <- Z.lnot_lxor_l. unfold Z.lnot. lia. }
    change (Z.ones 64) with (2 ^ 64 - 1). change (Z.ones 63) with (2 ^ 63 - 1). lia.
Qed.

Definition int_tag (n : Z) : Z :=
  if n =? 0 then ZERO_INT64_TAG
  else if n <? 0 then ZERO_INT64_TAG - int_tag_diff n else ZERO_INT64_TAG + int_tag_diff n.

Definition int_payload (n : Z) : list Z :=
  if n =? 0 then [] else be_bytes (int_bytes n) (n mod 256 ^ Z.of_nat (int_bytes n)).

Lemma enc_Int64 n : enc (Int64 n) = int_tag n :: int_payload n.
Proof. simpl. unfold int_tag, int_payload, enc_int. by destruct (n =? 0). Qed.

Ltac int_cases H :=
  destruct (int_range_cases _ H) as
    [(?Htd & ?Hb & ?Hr)|[(?Htd & ?Hb & ?Hr)|[(?Htd & ?Hb & ?Hr)|(?Htd & ?Hb & ?Hr)]]].

Lemma int_tag_lt a b : i64 a = true -> i64 b = true -> int_tag a < int_tag b -> a < b.
Proof.
  intros Ha Hb. unfold int_tag, ZERO_INT64_TAG.
  destruct (Z.eqb_spec a 0), (Z.eqb_spec b 0), (Z.ltb_spec a 0), (Z.ltb_spec b 0);
    int_cases Ha; int_cases Hb; lia.
Qed.

Lemma int_tag_bounds n : i64 n = true -> NEG_INT64_8_BYTE_TAG <= int_tag n <= POS_INT64_8_BYTE_TAG.
Proof.
  intros Hn. unfold int_tag, ZERO_INT64_TAG, NEG_INT64_8_BYTE_TAG, POS_INT64_8_BYTE_TAG.
  destruct (n =? 0), (n <? 0); int_cases Hn; lia.
Qed.

Lemma int_tag_eq a b :
  i64 a = true -> i64 b = true -> int_tag a = int_tag b -> a <> 0 ->
  b <> 0 /\ int_bytes a = int_bytes b /\ (a < 0 <-> b < 0).
Proof.
  intros Ha Hb. unfold int_tag, ZERO_INT64_TAG.
  destruct (Z.eqb_spec a 0), (Z.eqb_spec b 0), (Z.ltb_spec a 0), (Z.ltb_spec b 0);
    int_cases Ha; int_cases Hb; intros; split_and!; try lia; try congruence.
Qed.

(** Modulo the payload width, a number of either sign keeps its place. *)
Lemma int_mod n :
  i64 n = true ->
  0 <= n mod 256 ^ Z.of_nat (int_bytes n) < 256 ^ Z.of_nat (int_bytes n) /\
  n mod 256 ^ Z.of_nat (int_bytes n) = if n <? 0 then n + 256 ^ Z.of_nat (int_bytes n) else n.
Proof.
  intros Hn. split; [apply Z.mod_pos_bound, Z.pow_pos_nonneg; lia|].
  assert (Hr' : - 256 ^ Z.of_nat (int_bytes n) <= 2 * n < 256 ^ Z.of_nat (int_bytes n)).
  { int_cases Hn; rewrite Hb; simpl; lia. }
  destruct (Z.ltb_spec n 0); [|by apply Z.mod_small; lia].
  symmetry. apply Z.mod_unique with (-1); lia.
Qed.

Lemma enc_int_cmp a b r1 r2 :
  i64 a = true -> i64 b = true ->
  cmp (enc (Int64 a) ++ r1) (enc (Int64 b) ++ r2) = lex_cmp (cmp a b) (cmp r1 r2).
Proof.
  intros Ha Hb. rewrite !enc_Int64. simpl app.
  destruct (Z.lt_trichotomy (int_tag a) (int_tag b)) as [Hlt|[Heq|Hgt]].
  - rewrite lex_cmp_lt by done. apply int_tag_lt, Z_olt in Hlt; [|done..]. unfold olt in Hlt. by rewrite Hlt.
  - rewrite Heq, lex_cmp_eq. destruct (Z.eq_dec a 0) as [->|Hne].
    + destruct (Z.eq_dec b 0) as [->|Hne]; [done|]. symmetry in Heq.
      by apply int_tag_eq in Heq as (? & _); [..|done].
    + apply int_tag_eq in Heq as (Hne' & Hbytes & Hsign); [|done..]. unfold int_payload.
      rewrite !(proj2 (Z.eqb_neq _ 0)) by done.
      destruct (int_mod a Ha) as [Ha1 Ha2], (int_mod b Hb) as [Hb1 Hb2].
      rewrite <- Hbytes in *. rewrite be_bytes_cmp by done. f_equal. rewrite Ha2, Hb2. unfold cmp, Z_Ord.
      destruct (Z.ltb_spec a 0), (Z.ltb_spec b 0); try lia; try done;
      (destruct (Z.compare_spec a b); [apply Z.compare_eq_iff|apply Z.compare_lt_iff|apply Z.compare_gt_iff]; lia).
  - rewrite lex_cmp_gt by done. apply int_tag_lt, Z_olt in Hgt; [|done..]. unfold olt in Hgt.
    by rewrite (cmp_opp b a), Hgt.
Qed.

(** The first byte of a key determines and orders the type. *)
Definition tag_of (v : ConvexValue) : Z :=
  match v with
  | Null => NULL_TAG
  | Int64 i => int_tag i
  | Float64 _ => FLOAT64_TAG
  | Boolean b => if b then TRUE_BOOLEAN_TAG else FALSE_BOOLEAN_TAG
  | String _ => STRING_TAG
  | Bytes _ => BYTES_TAG
  | Array _ => ARRAY_TAG
  | Object _ => OBJECT_TAG
  end.

Lemma enc_tag v : exists l, enc v = tag_of v :: l.
Proof.
  destruct v as [|i| | | | | |]; try (eexists; reflexivity).
  rewrite enc_Int64. eexists; reflexivity.
Qed.

Lemma tag_of_lt v w :
  valid v = true -> valid w = true -> (type_tag v < type_tag w)%nat -> tag_of v < tag_of w.
Proof.
  intros Hv Hw.
  assert (Hint : forall i, valid (Int64 i) = true -> 4 <= int_tag i <= 12) by (intros; by apply int_tag_bounds).
  destruct v as [|i| |b| | | |], w as [|j| |b'| | | |]; simpl; try lia; intros _;
    try (apply Hint in Hv); try (apply Hint in Hw); try destruct b; try destruct b';
    unfold NULL_TAG, FLOAT64_TAG, TRUE_BOOLEAN_TAG, FALSE_BOOLEAN_TAG, STRING_TAG, BYTES_TAG, ARRAY_TAG, OBJECT_TAG; lia.
Qed.

Lemma tag_of_bounds v : valid v = true -> 3 <= tag_of v <= 21.
Proof.
  intros Hv. destruct v as [|i| |b| | | |]; simpl;
    unfold NULL_TAG, FLOAT64_TAG, TRUE_BOOLEAN_TAG, FALSE_BOOLEAN_TAG, STRING_TAG, BYTES_TAG, ARRAY_TAG, OBJECT_TAG; try lia.
  - pose proof (int_tag_bounds i Hv) as H. unfold NEG_INT64_8_BYTE_TAG, POS_INT64_8_BYTE_TAG in H. lia.
  - destruct b; lia.
Qed.

Lemma enc_tail_ok v r : valid v = true -> tail_ok (enc v ++ r).
Proof.
  intros Hv. destruct (enc_tag v) as [l ->]. simpl. pose proof (tag_of_bounds v Hv). unfold ESCAPE_BYTE. lia.
Qed.

Lemma type_tag_eq_cases v w : type_tag v = type_tag w ->
  match v, w with
  | Null, Null | Int64 _, Int64 _ | Float64 _, Float64 _ | Boolean _, Boolean _ | String _, String _
  | Bytes _, Bytes _ | Array _, Array _ | Object _, Object _ => True
  | _, _ => False
  end.
Proof. by destruct v, w. Qed.

(** Values of different types: the tags decide. *)
Lemma enc_cmp_tags v w r1 r2 :
  valid v = true -> valid w = true -> type_tag v <> type_tag w ->
  cmp (enc v ++ r1) (enc w ++ r2) = lex_cmp (value_cmp v w) (cmp r1 r2).
Proof.
  intros Hv Hw Hne. destruct (enc_tag v) as [l ->], (enc_tag w) as [k ->]. simpl app.
  assert (Hc : value_cmp v w = Nat.compare (type_tag v) (type_tag w)).
  { destruct v, w; done. }
  rewrite Hc. destruct (Nat.compare_spec (type_tag v) (type_tag w)) as [|Hlt|Hgt]; [done| |].
  - by rewrite lex_cmp_lt by (by apply tag_of_lt).
  - by rewrite lex_cmp_gt by (by apply tag_of_lt).
Qed.

(** Element-wise: terminated sequences of self-delimiting items. *)
Lemma seq_cmp {A} (g : A -> list Z) (f : A -> A -> comparison) xs ys r1 r2 :
  (forall x y t1 t2, x ∈ xs -> y ∈ ys -> tail_ok t1 -> tail_ok t2 ->
     cmp (g x ++ t1) (g y ++ t2) = lex_cmp (f x y) (cmp t1 t2)) ->
  (forall x, x ∈ xs \/ x ∈ ys -> exists c l, g x = c :: l /\ 0 < c < ESCAPE_BYTE) ->
  cmp (concat (map g xs) ++ TERMINATOR_BYTE :: r1) (concat (map g ys) ++ TERMINATOR_BYTE :: r2)
  = lex_cmp (lexicographic f xs ys) (cmp r1 r2).
Proof.
  assert (Htail : forall zs r, (forall x, x ∈ zs -> exists c l, g x = c :: l /\ 0 < c < ESCAPE_BYTE) ->
    tail_ok (concat (map g zs) ++ TERMINATOR_BYTE :: r)).
  { intros [|z zs] r Hz; simpl; [done|]. destruct (Hz z) as (c & l & -> & ?); [left|]. simpl. lia. }
  revert ys. induction xs as [|x xs IH]; intros ys Hf Hg; destruct ys as [|y ys]; simpl.
  - by rewrite lex_cmp_eq.
  - destruct (Hg y) as (c & l & -> & Hc); [right; left|]. simpl. by rewrite lex_cmp_lt by apply Hc.
  - destruct (Hg x) as (c & l & -> & Hc); [left; left|]. simpl. by rewrite lex_cmp_gt by apply Hc.
  - rewrite <- !app_assoc, Hf, lex_cmp_assoc, IH; [done|..].
    + intros. apply Hf; [by right..|done|done].
    + intros z [?|?]; apply Hg; [left|right]; by right.
    + left.
    + left.
    + apply Htail. intros. apply Hg. left. by right.
    + apply Htail. intros. apply Hg. right. by right.
Qed.

Lemma enc_head_range v : valid v = true -> exists c l, enc v = c :: l /\ 0 < c < ESCAPE_BYTE.
Proof.
  intros Hv. destruct (enc_tag v) as [l ->]. exists (tag_of v), l. split; [done|].
  pose proof (tag_of_bounds v Hv). unfold ESCAPE_BYTE. lia.
Qed.

Lemma field_head_range k : bytes k -> is_valid_field_name k = true -> k <> [] ->
  exists c l, esc k = c :: l /\ 0 < c < ESCAPE_BYTE.
Proof.
  intros Hb Hk Hne. unfold is_valid_field_name in Hk.
  destruct (check_valid_field_name k) as [u| |] eqn:E; try done.
  apply check_valid_field_name_spec in E as (_ & Hc & _); [|done].
  destruct k as [|c k]; [done|]. apply Forall_cons in Hc as [Hc _]. unfold field_char in Hc. simpl.
  unfold ESCAPE_BYTE, TERMINATOR_BYTE. destruct (Z.eqb_spec c 0); [lia|]. do 2 eexists. split; [done|lia].
Qed.

Definition is_text (v : ConvexValue) : bool := match v with String _ | Bytes _ => true | _ => false end.

(** Comparing keys followed by tails is comparing the values, then the tails;
    only the encoding of strings and bytes leaves its end to the tail. *)
Lemma enc_cmp_any v w r1 r2 :
  valid v = true -> named v = true -> valid w = true -> named w = true -> (is_text v = true -> tail_ok r1 /\ tail_ok r2) ->
  cmp (enc v ++ r1) (enc w ++ r2) = lex_cmp (value_cmp v w) (cmp r1 r2).
Proof.
  revert w r1 r2. induction v as [|a|f|b|s|b|xs IH|xs IH] using ConvexValue_ind';
    intros w r1 r2 Hv Hnv Hw Hnw Hr;
    (match goal with |- cmp (enc ?v ++ _) _ = _ => destruct (decide (type_tag v = type_tag w)) as [Ht|Ht] end;
      [|by apply enc_cmp_tags]);
    apply type_tag_eq_cases in Ht; destruct w as [|a'|f'|b'|s'|b'|ys|ys]; try done; clear Ht.
  - simpl in Hv, Hw. change (value_cmp (Int64 a) (Int64 a')) with (cmp a a'). by apply enc_int_cmp.
  - change (value_cmp (Float64 f) (Float64 f')) with (cmp (total_cmp_key f) (total_cmp_key f')).
    cbn [enc app]. rewrite lex_cmp_eq.
    destruct (float_sort_bits_key f Hv) as [Hk Hb], (float_sort_bits_key f' Hw) as [Hk' Hb'].
    rewrite be_bytes_cmp by done. f_equal. rewrite Hk, Hk'. unfold cmp, Z_Ord.
    destruct (Z.compare_spec (total_cmp_key f) (total_cmp_key f'));
      [apply Z.compare_eq_iff|apply Z.compare_lt_iff|apply Z.compare_gt_iff]; lia.
  - by destruct b, b'.
  - destruct (Hr eq_refl) as [Hr1 Hr2]. cbn [enc app]. rewrite lex_cmp_eq. change (value_cmp (String s) (String s')) with (cmp s s').
    simpl in Hv, Hw. bool_hyps. apply esc_cmp; [by eapply bool_decide_eq_true_1..|done|done].
  - destruct (Hr eq_refl) as [Hr1 Hr2]. cbn [enc app]. rewrite lex_cmp_eq. change (value_cmp (Bytes b) (Bytes b')) with (cmp b b').
    simpl in Hv, Hw. bool_hyps. apply esc_cmp; [by eapply bool_decide_eq_true_1..|done|done].
  - cbn [enc app]. rewrite lex_cmp_eq, <- !app_assoc. simpl app.
    change (value_cmp (Array xs) (Array ys)) with (lexicographic value_cmp xs ys).
    apply valid_Array in Hv as [_ Hv], Hw as [_ Hw]. simpl in Hnv, Hnw. rewrite forallb_elem in Hnv, Hnw.
    rewrite Forall_forall in IH. apply seq_cmp; [by intros; apply IH; auto|].
    intros x [Hx|Hx]; apply enc_head_range; auto.
  - cbn [enc app]. rewrite lex_cmp_eq, <- !app_assoc. simpl app.
    change (value_cmp (Object xs) (Object ys)) with
      (lexicographic (fun p q => lex_cmp (cmp p.1 q.1) (value_cmp p.2 q.2)) xs ys).
    apply valid_Object in Hv as (_ & _ & Hv), Hw as (_ & _ & Hw). simpl in Hnv, Hnw. rewrite forallb_elem in Hnv, Hnw.
    rewrite Forall_forall in IH.
    assert (Hn : forall x, x ∈ xs \/ x ∈ ys -> x.1 <> [] /\ named x.2 = true /\ bytes x.1 /\
      is_valid_field_name x.1 = true /\ valid x.2 = true).
    { intros x Hx. assert (Hb : negb (bool_decide (x.1 = [])) && named x.2 = true) by (destruct Hx; auto).
      bool_hyps. split; [by eapply bool_decide_eq_false_1|]. split; [done|]. destruct Hx; auto. }
    apply seq_cmp.
    + intros x y t1 t2 Hx Hy Ht1 Ht2. rewrite <- !app_assoc.
      destruct (Hn x (or_introl Hx)) as (? & ? & ? & ? & ?), (Hn y (or_intror Hy)) as (? & ? & ? & ? & ?).
      rewrite esc_cmp by (try done; by apply enc_tail_ok). rewrite lex_cmp_assoc. f_equal. by apply IH.
    + intros x Hx. destruct (Hn x Hx) as (? & ? & ? & ? & ?).
      destruct (field_head_range x.1) as (c & l & -> & ?); [done..|]. simpl. eauto.
Qed.

Lemma enc_cmp v w r1 r2 :
  valid v = true -> named v = true -> valid w = true -> named w = true -> tail_ok r1 -> tail_ok r2 ->
  cmp (enc v ++ r1) (enc w ++ r2) = lex_cmp (value_cmp v w) (cmp r1 r2).
Proof. intros. by apply enc_cmp_any. Qed.
