(* ===== verification/SortingDecode.v ===== *)
(** * SortingDecode: reading sort keys back
      (module [sorting_decode] of src/crates/value/src/sorting.rs)

    A reader is the bytes left to read.  [BytePeeker] only adds one byte of
    look-ahead, so peeking is matching on the head.  The recursion of
    [_read_sort_key] is on fuel: every call consumes at least one byte, so the
    length of the input is enough, and [read_sort_key_roundtrip] shows that the
    decoder returns the value with that fuel. *)

From S2P Require Import Prelude Ord BTreeMap Identifier Value Sorting.

Local Open Scope Z_scope.

Inductive decode_error :=
| UnexpectedEof
| InvalidUtf8
| BadFieldName (e : ident_error)
| BadValue (e : value_error)
| DuplicateElement
| EscapeTag
| UnrecognizedTag (tag : Z)
| OutOfFuel.

Notation reader := (list Z) (only parsing).
Notation decode A := (outcome decode_error (A * list Z)).

(** [?] with [From]: inject an error. *)
Definition map_err {E F A} (f : E -> F) (m : outcome E A) : outcome F A :=
  match m with Ret a => Ret a | Err e => Err (f e) | Panic => Panic end.

Definition read_u8 (r : reader) : decode Z :=
  match r with b :: r => Ret (b, r) | [] => Err UnexpectedEof end.

(** [Read::read_exact]. *)
Definition read_exact (n : nat) (r : reader) : decode (list Z) :=
  if (length r <? n)%nat then Err UnexpectedEof else Ret (take n r, drop n r).

Fixpoint read_escaped_bytes (r : reader) : decode (list Z) :=
  match r with
  | [] => Err UnexpectedEof
  | byte :: r =>
      if byte =? TERMINATOR_BYTE then
        match r with
        | e :: r' =>
            if e =? ESCAPE_BYTE then
              let? (out, r'') := read_escaped_bytes r' in
              Ret (TERMINATOR_BYTE :: out, r'')
            else Ret ([], r)
        | [] => Ret ([], r)
        end
      else
        let? (out, r') := read_escaped_bytes r in
        Ret (byte :: out, r')
  end.

Definition read_escaped_string (r : reader) : decode (list Z) :=
  let? (s, r) := read_escaped_bytes r in
  if utf8_valid s then Ret (s, r) else Err InvalidUtf8.

(** [uN::from_be_bytes]. *)
Definition from_be (l : list Z) : Z := fold_left (fun acc b => acc * 256 + b) l 0.

Definition to_signed (x : Z) : Z := if x <? 2 ^ 63 then x else x - 2 ^ 64.

Definition read_tagged_int (tag : Z) (r : reader) : decode Z :=
  let is_negative := tag <? ZERO_INT64_TAG in
  let tag_diff := Z.max tag ZERO_INT64_TAG - Z.min tag ZERO_INT64_TAG in
  let num_bytes := Z.to_nat (Z.shiftl 1 (tag_diff - 1)) in
  let? (bs, r) := read_exact num_bytes r in
  let buf := replicate (8 - num_bytes) (if is_negative then 255 else 0) ++ bs in
  Ret (to_signed (from_be buf), r).

(** Undoes [float_sort_bits]. *)
Definition float_from_sort_bits (n : Z) : Z :=
  if negb (Z.land n (Z.shiftl 1 63) =? 0) then Z.land n (Z.lxor (Z.shiftl 1 63) (2 ^ 64 - 1))
  else Z.lxor n (2 ^ 64 - 1).

Fixpoint read_terminated {A} (fuel : nat) (read_element : A -> reader -> decode A) (a : A) (r : reader) : decode A :=
  match fuel with
  | O => Err OutOfFuel
  | S fuel =>
      match r with
      | b :: r' =>
          if b =? TERMINATOR_BYTE then Ret (a, r')
          else let? (a, r) := read_element a r in read_terminated fuel read_element a r
      | [] => let? (a, r) := read_element a r in read_terminated fuel read_element a r
      end
  end.

(** The closures passed to [read_terminated]. *)
Definition read_array_element (read : reader -> decode ConvexValue) (elements : list ConvexValue) (r : reader)
    : decode (list ConvexValue) :=
  let? (v, r) := read r in Ret (elements ++ [v], r).

Definition read_object_element (read : reader -> decode ConvexValue)
    (elements : BTreeMap.t (list Z) ConvexValue) (r : reader) : decode (BTreeMap.t (list Z) ConvexValue) :=
  let? (field, r) := read_escaped_string r in
  let? _ := map_err BadFieldName (check_valid_field_name field) in
  let? (value, r) := read r in
  match BTreeMap.get field elements with
  | Some _ => Err DuplicateElement
  | None => Ret (BTreeMap.insert field value elements, r)
  end.

Fixpoint read_sort_key_fuel (fuel : nat) (r : reader) : decode ConvexValue :=
  match fuel with
  | O => Err OutOfFuel
  | S fuel =>
      let? (tag, r) := read_u8 r in
      if tag =? NULL_TAG then Ret (Null, r)
      else if tag =? ZERO_INT64_TAG then Ret (Int64 0, r)
      else if (NEG_INT64_8_BYTE_TAG <=? tag) && (tag <=? POS_INT64_8_BYTE_TAG) then
        let? (i, r) := read_tagged_int tag r in Ret (Int64 i, r)
      else if tag =? FLOAT64_TAG then
        let? (bs, r) := read_exact 8 r in
        Ret (Float64 (float_from_sort_bits (from_be bs)), r)
      else if tag =? FALSE_BOOLEAN_TAG then Ret (Boolean false, r)
      else if tag =? TRUE_BOOLEAN_TAG then Ret (Boolean true, r)
      else if tag =? STRING_TAG then
        let? (s, r) := read_escaped_string r in
        let? v := map_err BadValue (ConvexString_try_from s) in Ret (v, r)
      else if tag =? BYTES_TAG then
        let? (b, r) := read_escaped_bytes r in
        let? v := map_err BadValue (ConvexBytes_try_from b) in Ret (v, r)
      else if tag =? ARRAY_TAG then
        let? (elements, r) := read_terminated fuel (read_array_element (read_sort_key_fuel fuel)) [] r in
        let? v := map_err BadValue (ConvexArray_try_from elements) in Ret (v, r)
      else if tag =? OBJECT_TAG then
        let? (elements, r) := read_terminated fuel (read_object_element (read_sort_key_fuel fuel)) [] r in
        let? v := map_err BadValue (ConvexObject_try_from elements) in Ret (v, r)
      else if tag =? ESCAPE_BYTE then Err EscapeTag
      else Err (UnrecognizedTag tag)
  end.

(** [ConvexValue::read_sort_key], with as much fuel as there is input. *)
Definition read_sort_key (r : reader) : decode ConvexValue := read_sort_key_fuel (S (length r)) r.

(** The [while reader.peek()?.is_some()] loop of [bytes_to_values]. *)
Fixpoint bytes_to_values_loop (fuel : nat) (r : reader) : outcome decode_error (list (option ConvexValue)) :=
  match r with
  | [] => Ret []
  | _ :: _ =>
      match fuel with
      | O => Err OutOfFuel
      | S fuel =>
          let? (value, r) := read_sort_key r in
          let? values := bytes_to_values_loop fuel r in
          Ret (Some value :: values)
      end
  end.

Definition bytes_to_values (r : reader) : outcome decode_error (list (option ConvexValue)) :=
  bytes_to_values_loop (length r) r.

(** ** Decoding inverts encoding *)

Lemma from_be_acc k x acc :
  fold_left (fun acc b => acc * 256 + b) (be_bytes k x) acc = acc * 256 ^ Z.of_nat k + x mod 256 ^ Z.of_nat k.
Proof.
  revert acc. induction k as [|k IH]; intros acc; cbn [be_bytes fold_left].
  { change (256 ^ Z.of_nat 0) with 1. rewrite Z.mod_1_r. lia. }
  rewrite IH, Nat2Z.inj_succ, Z.pow_succ_r by lia.
  assert (0 < 256 ^ Z.of_nat k) by (apply Z.pow_pos_nonneg; lia).
  rewrite (Z.mul_comm 256 (256 ^ Z.of_nat k)), Z.rem_mul_r by lia. lia.
Qed.

Lemma from_be_be_bytes k x : 0 <= x < 256 ^ Z.of_nat k -> from_be (be_bytes k x) = x.
Proof. intros Hx. unfold from_be. rewrite from_be_acc, Z.mod_small by done. lia. Qed.

Lemma read_exact_app l r : read_exact (length l) (l ++ r) = Ret (l, r).
Proof.
  unfold read_exact. rewrite length_app. destruct (Nat.ltb_spec (length l + length r) (length l)); [lia|].
  by rewrite take_app_length, drop_app_length.
Qed.

Lemma forallb_replicate (b : Z) l : forallb (fun c => c =? b) l = true -> l = replicate (length l) b.
Proof.
  induction l as [|x l IH]; simpl; [done|]. intros H. bool_hyps. subst. f_equal. auto.
Qed.

Lemma to_signed_mod n : i64 n = true -> to_signed (n mod 2 ^ 64) = n.
Proof.
  unfold i64, to_signed. intros H. bool_hyps. destruct (Z.lt_ge_cases n 0).
  - replace (n mod 2 ^ 64) with (n + 2 ^ 64) by (apply Z.mod_unique with (-1); lia).
    destruct (Z.ltb_spec (n + 2 ^ 64) (2 ^ 63)); lia.
  - rewrite Z.mod_small by lia. destruct (Z.ltb_spec n (2 ^ 63)); lia.
Qed.

Lemma read_tagged_int_payload n r :
  i64 n = true -> n <> 0 -> read_tagged_int (int_tag n) (int_payload n ++ r) = Ret (n, r).
Proof.
  intros Hn Hne. unfold read_tagged_int.
  assert (Htd : Z.max (int_tag n) ZERO_INT64_TAG - Z.min (int_tag n) ZERO_INT64_TAG = int_tag_diff n /\
    (int_tag n <? ZERO_INT64_TAG) = (n <? 0)).
  { unfold int_tag, ZERO_INT64_TAG. rewrite (proj2 (Z.eqb_neq n 0)) by done.
    destruct (Z.ltb_spec n 0); int_cases Hn; rewrite Htd; split; done. }
  destruct Htd as [-> ->]. fold (int_bytes n). unfold int_payload. rewrite (proj2 (Z.eqb_neq n 0)) by done.
  assert (Hl : int_bytes n = length (be_bytes (int_bytes n) (n mod 256 ^ Z.of_nat (int_bytes n))))
    by (by rewrite length_be_bytes).
  rewrite Hl at 1. rewrite read_exact_app. cbn [obind]. rewrite <- to_be_bytes_low by done.
  assert (Hrep : replicate (8 - int_bytes n) (if n <? 0 then 255 else 0) = take (8 - int_bytes n) (to_be_bytes n)).
  { pose proof (forallb_replicate _ _ (to_be_bytes_high n Hn)) as Hr. rewrite Hr at 1. f_equal.
    rewrite length_take. unfold to_be_bytes. rewrite length_be_bytes. lia. }
  rewrite Hrep, take_drop. unfold to_be_bytes.
  rewrite from_be_be_bytes by (apply Z.mod_pos_bound; lia). by rewrite to_signed_mod.
Qed.

Lemma float_from_to f : u64 f = true -> float_from_sort_bits (float_sort_bits f) = f.
Proof.
  intros Hf. destruct (float_sort_bits_key f Hf) as [_ Hb].
  assert (Hu : u64 (float_sort_bits f) = true) by (unfold u64; lia).
  unfold float_from_sort_bits. rewrite land_bit63 by done. clear Hu.
  unfold float_sort_bits in *. rewrite land_bit63 in * by done. unfold u64 in Hf. bool_hyps.
  destruct (Z.ltb_spec f (2 ^ 63)) as [Hlt|Hge]; cbn [negb] in *.
  - assert (Hlor : Z.lor f (Z.shiftl 1 63) = f + 2 ^ 63).
    { rewrite <- Z.lxor_lor, <- Z.add_nocarry_lxor; [done| |];
        apply Z.eqb_eq; rewrite land_bit63; first [by apply Z.ltb_lt|unfold u64; lia]. }
    rewrite Hlor in *. destruct (Z.ltb_spec (f + 2 ^ 63) (2 ^ 63)); [lia|]. cbn [negb].
    change (Z.lxor (Z.shiftl 1 63) (2 ^ 64 - 1)) with (Z.ones 63).
    rewrite Z.land_ones by lia. symmetry. apply Z.mod_unique with 1; lia.
  - change (2 ^ 64 - 1) with (Z.ones 64) in *. rewrite !lxor_ones in * by (rewrite ?lxor_ones; lia).
    change (Z.ones 64) with (2 ^ 64 - 1) in *.
    destruct (Z.ltb_spec (2 ^ 64 - 1 - f) (2 ^ 63)); [|lia]. cbn [negb].
    change (2 ^ 64 - 1) with (Z.ones 64) in *. rewrite lxor_ones; lia.
Qed.

Lemma read_escaped_bytes_esc l r : tail_ok r -> read_escaped_bytes (esc l ++ r) = Ret (l, r).
Proof.
  intros Hr. induction l as [|b l IH]; cbn [esc app].
  - cbn. destruct r as [|e r]; [done|]. simpl in Hr. by rewrite (proj2 (Z.eqb_neq e ESCAPE_BYTE)) by lia.
  - destruct (Z.eqb_spec b TERMINATOR_BYTE) as [->|Hne]; cbn [app read_escaped_bytes].
    + simpl. by rewrite IH.
    + rewrite (proj2 (Z.eqb_neq b TERMINATOR_BYTE)) by done. by rewrite IH.
Qed.

(** Enough fuel to read a key back. *)
Lemma read_terminated_seq {A B} (g : B -> list Z) (read : A -> list Z -> decode A) (step : A -> B -> A)
    xs fuel a r :
  (length xs < fuel)%nat ->
  (forall x xs1 xs2 t, xs = xs1 ++ x :: xs2 -> tail_ok t ->
     read (fold_left step xs1 a) (g x ++ t) = Ret (step (fold_left step xs1 a) x, t)) ->
  (forall x, x ∈ xs -> exists c l, g x = c :: l /\ 0 < c < ESCAPE_BYTE) ->
  read_terminated fuel read a (concat (map g xs) ++ TERMINATOR_BYTE :: r) = Ret (fold_left step xs a, r).
Proof.
  revert fuel a. induction xs as [|x xs IH]; intros fuel a Hfuel Hread Hg; simpl in *.
  { by destruct fuel; [lia|]. }
  destruct fuel as [|fuel]; [lia|]. cbn [read_terminated]. destruct (Hg x) as (c & l & Hgx & Hc); [left|].
  rewrite <- app_assoc. pose proof (Hread x [] xs (concat (map g xs) ++ TERMINATOR_BYTE :: r) eq_refl) as Hx.
  rewrite Hgx in *. cbn [app fold_left] in *. rewrite (proj2 (Z.eqb_neq c TERMINATOR_BYTE)) by (unfold TERMINATOR_BYTE; lia).
  rewrite Hx.
  - cbn [obind]. apply IH; [lia| |].
    + intros y xs1 xs2 t -> Ht. apply (Hread y (x :: xs1) xs2 t); done.
    + intros y Hy. apply Hg. by right.
  - destruct xs as [|y xs]; simpl; [done|]. destruct (Hg y) as (d & k & -> & ?); [right; left|]. simpl. lia.
Qed.

Lemma fold_left_snoc {A} (l acc : list A) : fold_left (fun acc x => acc ++ [x]) l acc = acc ++ l.
Proof.
  revert acc. induction l as [|x l IH]; intros acc; simpl; [by rewrite app_nil_r|]. rewrite IH. by rewrite <- app_assoc.
Qed.

Lemma fold_left_insert {V} (l acc : BTreeMap.t (list Z) V) :
  BTreeMap.wf (acc ++ l) -> fold_left (fun acc e => BTreeMap.insert e.1 e.2 acc) l acc = acc ++ l.
Proof.
  revert acc. induction l as [|[k v] l IH]; intros acc Hwf; simpl; [by rewrite app_nil_r|].
  assert (Hacc : BTreeMap.wf (acc ++ [(k, v)])).
  { apply BTreeMap.wf_app_inv with (m2 := l). by rewrite <- app_assoc. }
  rewrite BTreeMap.insert_last by done. rewrite IH; rewrite <- app_assoc; done.
Qed.

Lemma length_concat_le {A} (g : A -> list Z) xs x :
  x ∈ xs -> (length (g x) <= length (concat (map g xs)))%nat.
Proof. induction 1; simpl; rewrite length_app; lia. Qed.

Lemma length_concat_ge {A} (g : A -> list Z) xs :
  (forall x, x ∈ xs -> g x <> []) -> (length xs <= length (concat (map g xs)))%nat.
Proof.
  induction xs as [|x xs IH]; simpl; [lia|]. intros Hg. rewrite length_app.
  assert (length (g x) <> 0)%nat by (intros H0%length_zero_iff_nil; by apply (Hg x); [left|]).
  assert (length xs <= length (concat (map g xs)))%nat; [|lia]. apply IH. intros y Hy. apply Hg. by right.
Qed.

Lemma named_Object fields :
  named (Object fields) = true <-> forall e, e ∈ fields -> e.1 <> [] /\ named e.2 = true.
Proof.
  simpl. rewrite forallb_elem. setoid_rewrite andb_true_iff. setoid_rewrite negb_true_iff.
  setoid_rewrite bool_decide_eq_false. done.
Qed.

(** Field names are ASCII, hence UTF-8. *)
Lemma field_name_utf8 k : bytes k -> is_valid_field_name k = true ->
  utf8_valid k = true /\ check_valid_field_name k = Ret tt.
Proof.
  intros Hb Hk. unfold is_valid_field_name in Hk.
  destruct (check_valid_field_name k) as [[]| |] eqn:E; try done. split; [|done].
  apply check_valid_field_name_spec in E as (_ & Hc & _); [|done]. clear Hb Hk.
  induction Hc as [|c k Hc _ IH]; simpl; [done|]. unfold field_char in Hc.
  destruct (Z.ltb_spec c 128); [done|lia].
Qed.

Lemma read_string_roundtrip s r :
  bytes s -> utf8_valid s = true -> tail_ok r -> read_escaped_string (esc s ++ r) = Ret (s, r).
Proof. intros Hb Hu Hr. unfold read_escaped_string. rewrite read_escaped_bytes_esc by done. simpl. by rewrite Hu. Qed.

(** The element loops, given that each element reads back. *)
Definition reads_back (fuel : nat) (v : ConvexValue) : Prop :=
  forall r, tail_ok r -> read_sort_key_fuel fuel (enc v ++ r) = Ret (v, r).

Lemma read_array_enc xs fuel r :
  (forall v, v ∈ xs -> valid v = true /\ reads_back fuel v) ->
  (length (concat (map enc xs)) < fuel)%nat ->
  read_terminated fuel (read_array_element (read_sort_key_fuel fuel)) []
    (concat (map enc xs) ++ TERMINATOR_BYTE :: r) = Ret (xs, r).
Proof.
  intros Hv Hfuel. rewrite (read_terminated_seq enc _ (fun acc x => acc ++ [x])).
  - by rewrite fold_left_snoc.
  - assert (length xs <= length (concat (map enc xs)))%nat; [|lia].
    apply length_concat_ge. intros x Hx Hnil. destruct (enc_tag x) as [l Hl]. by rewrite Hl in Hnil.
  - intros x xs1 xs2 t -> Ht. unfold read_array_element.
    destruct (Hv x) as [_ Hrx]; [set_solver|]. by rewrite Hrx.
  - intros x Hx. by apply enc_head_range, Hv.
Qed.

Lemma read_object_enc xs fuel r :
  BTreeMap.wf xs ->
  (forall e, e ∈ xs -> e.1 <> [] /\ bytes e.1 /\ is_valid_field_name e.1 = true /\ valid e.2 = true /\
     reads_back fuel e.2) ->
  (length (concat (map (fun e => esc e.1 ++ enc e.2) xs)) < fuel)%nat ->
  read_terminated fuel (read_object_element (read_sort_key_fuel fuel)) []
    (concat (map (fun e => esc e.1 ++ enc e.2) xs) ++ TERMINATOR_BYTE :: r) = Ret (xs, r).
Proof.
  intros Hwf Hv Hfuel.
  rewrite (read_terminated_seq (fun e => esc e.1 ++ enc e.2) _ (fun acc e => BTreeMap.insert e.1 e.2 acc)).
  - by rewrite fold_left_insert.
  - assert (length xs <= length (concat (map (fun e => esc e.1 ++ enc e.2) xs)))%nat; [|lia].
    apply length_concat_ge. intros x Hx Hnil. destruct (enc_tag x.2) as [l Hl]. rewrite Hl in Hnil.
    by destruct (esc x.1).
  - intros x xs1 xs2 t -> Ht. destruct (Hv x) as (_ & Hb & Hk & Hvx & Hrx); [set_solver|].
    destruct (field_name_utf8 x.1) as [Hu Hck]; [done..|].
    unfold read_object_element. rewrite <- app_assoc, read_string_roundtrip; [|done..|by apply enc_tail_ok].
    cbn [obind]. rewrite Hck. cbn [map_err obind]. rewrite Hrx by done.
    cbn [obind]. rewrite fold_left_insert by (by eapply (BTreeMap.wf_app_inv _ (x :: xs2))).
    cbn [app]. assert (BTreeMap.get x.1 xs1 = None) as ->; [|done].
    apply BTreeMap.get_None. intros w Hw.
    pose proof (BTreeMap.wf_app_lt xs1 (x :: xs2) (x.1, w) x Hwf Hw ltac:(left)) as Hlt. by apply olt_irrefl in Hlt.
  - intros x Hx. destruct (Hv x Hx) as (? & ? & ? & _).
    destruct (field_head_range x.1) as (c & l & -> & ?); [done..|]. simpl. eauto.
Qed.

Lemma read_int_enc i fuel r :
  i64 i = true -> read_sort_key_fuel (S fuel) (enc (Int64 i) ++ r) = Ret (Int64 i, r).
Proof.
  intros Hv. rewrite enc_Int64. cbn [app read_sort_key_fuel read_u8 obind].
  destruct (Z.eq_dec i 0) as [->|Hne]; [done|].
  pose proof (int_tag_bounds i Hv) as Hb.
  rewrite (proj2 (Z.eqb_neq (int_tag i) NULL_TAG)) by (unfold NULL_TAG, NEG_INT64_8_BYTE_TAG in *; lia).
  rewrite (proj2 (Z.eqb_neq (int_tag i) ZERO_INT64_TAG)).
  2:{ unfold int_tag, ZERO_INT64_TAG. rewrite (proj2 (Z.eqb_neq i 0)) by done.
      destruct (i <? 0); int_cases Hv; lia. }
  rewrite (proj2 (andb_true_iff _ _)) by (split; apply Z.leb_le; apply Hb).
  by rewrite read_tagged_int_payload.
Qed.

Lemma read_sort_key_fuel_enc v fuel :
  valid v = true -> named v = true -> (length (enc v) <= fuel)%nat -> reads_back fuel v.
Proof.
  revert fuel. induction v as [|i|f|b|s|b|xs IH|xs IH] using ConvexValue_ind';
    intros fuel Hv Hn Hfuel r Hr;
    (destruct fuel as [|fuel]; [match goal with Hf : (length (enc ?v) <= _)%nat |- _ =>
       destruct (enc_tag v) as [l Hl]; rewrite Hl in Hf; simpl in Hf; lia end|]).
  - done.
  - by apply read_int_enc.
  - cbn [enc app read_sort_key_fuel read_u8 obind]. cbn -[be_bytes read_exact float_from_sort_bits].
    destruct (float_sort_bits_key f Hv) as [_ Hb].
    rewrite <- (length_be_bytes 8 (float_sort_bits f)) at 1. rewrite read_exact_app. cbn [obind].
    by rewrite from_be_be_bytes, float_from_to.
  - by destruct b.
  - simpl in Hv. bool_hyps. cbn [enc app read_sort_key_fuel read_u8 obind]. cbn -[read_escaped_string ConvexString_try_from].
    rewrite read_string_roundtrip by (first [by eapply bool_decide_eq_true_1|done]). cbn [obind].
    unfold ConvexString_try_from, check_system_size. by rewrite (proj2 (Z.ltb_ge _ _)).
  - simpl in Hv. bool_hyps. cbn [enc app read_sort_key_fuel read_u8 obind]. cbn -[read_escaped_bytes ConvexBytes_try_from].
    rewrite read_escaped_bytes_esc by done. cbn [obind].
    unfold ConvexBytes_try_from, check_system_size. by rewrite (proj2 (Z.ltb_ge _ _)).
  - apply valid_Array in Hv as [Hlim Hv]. simpl in Hn. rewrite forallb_elem in Hn. rewrite Forall_forall in IH.
    cbn [enc app read_sort_key_fuel read_u8 obind length] in *. rewrite length_app in Hfuel. cbn [length] in Hfuel.
    cbn -[read_terminated read_array_element read_sort_key_fuel ConvexArray_try_from].
    rewrite <- app_assoc. cbn [app]. rewrite read_array_enc; [|intros v Hin; split; [auto|]|lia].
    + cbn [obind]. by rewrite (proj2 (ConvexArray_try_from_Ret xs (Array xs))).
    + apply IH; auto. pose proof (length_concat_le enc xs v Hin). lia.
  - apply valid_Object in Hv as (Hlim & Hwf & Hv). rewrite named_Object in Hn. rewrite Forall_forall in IH.
    cbn [enc app read_sort_key_fuel read_u8 obind length] in *. rewrite length_app in Hfuel. cbn [length] in Hfuel.
    cbn -[read_terminated read_object_element read_sort_key_fuel ConvexObject_try_from].
    rewrite <- app_assoc. cbn [app]. rewrite read_object_enc; [|done|intros e Hin|lia].
    + cbn [obind]. by rewrite (proj2 (ConvexObject_try_from_Ret xs (Object xs))).
    + destruct (Hv e Hin) as (? & ? & ?), (Hn e Hin). split_and!; try done. apply IH; try done.
      pose proof (length_concat_le (fun e => esc e.1 ++ enc e.2) xs e Hin) as Hle.
      cbn beta in Hle. rewrite length_app in Hle. lia.
Qed.

Lemma read_sort_key_enc v r :
  valid v = true -> named v = true -> tail_ok r -> read_sort_key (enc v ++ r) = Ret (v, r).
Proof.
  intros Hv Hn Hr. unfold read_sort_key. apply read_sort_key_fuel_enc; [done..| |done].
  rewrite length_app. lia.
Qed.

Lemma enc_inj v w :
  valid v = true -> named v = true -> valid w = true -> named w = true -> enc v = enc w -> v = w.
Proof.
  intros Hv Hnv Hw Hnw Heq.
  pose proof (read_sort_key_enc v [] Hv Hnv I) as H1. pose proof (read_sort_key_enc w [] Hw Hnw I) as H2.
  rewrite Heq, H2 in H1. congruence.
Qed.

(** On valid values the manual [Ord] and [Eq] agree with equality. *)
Lemma value_cmp_eq v w :
  valid v = true -> named v = true -> valid w = true -> named w = true -> value_cmp v w = Eq <-> v = w.
Proof.
  intros Hv Hnv Hw Hnw. pose proof (enc_cmp v w [] [] Hv Hnv Hw Hnw I I) as Hc.
  rewrite !app_nil_r in Hc. assert (Hl : forall c, lex_cmp c (cmp (@nil Z) []) = c) by (by intros []).
  rewrite Hl in Hc. rewrite <- Hc, cmp_eq_iff. split; [by apply enc_inj|by intros ->].
Qed.

Lemma bytes_to_values_enc vs fuel :
  (forall v, v ∈ vs -> valid v = true /\ named v = true) ->
  (length vs <= fuel)%nat ->
  bytes_to_values_loop fuel (concat (map enc vs)) = Ret (map Some vs).
Proof.
  revert fuel. induction vs as [|v vs IH]; intros fuel Hv Hfuel; [by destruct fuel|].
  destruct (Hv v) as [Hvv Hnv]; [left|]. simpl in Hfuel. destruct fuel as [|fuel]; [lia|].
  simpl concat. destruct (enc_tag v) as [l Hl]. unfold bytes_to_values_loop. rewrite Hl. cbn [app]. fold bytes_to_values_loop.
  change (tag_of v :: l ++ concat (map enc vs)) with ((tag_of v :: l) ++ concat (map enc vs)). rewrite <- Hl.
  rewrite read_sort_key_enc; [|done..|].
  - cbn [obind]. rewrite IH; [done| |lia]. intros w Hw. apply Hv. by right.
  - destruct vs as [|w vs]; [done|]. simpl. apply enc_tail_ok, Hv. right. left.
Qed.

(** ** Tuples of optional values: the keys of index entries *)

Definition opt_cmp (a b : option ConvexValue) : comparison :=
  match a, b with
  | None, None => Eq
  | None, Some _ => Lt
  | Some _, None => Gt
  | Some v, Some w => value_cmp v w
  end.

Definition good (v : ConvexValue) : Prop := valid v = true /\ named v = true.
Definition good_opt (v : option ConvexValue) : Prop := match v with Some v => good v | None => True end.

#[global] Instance good_opt_dec v : Decision (good_opt v).
Proof. destruct v; unfold good_opt, good; apply _. Defined.

Lemma enc_opt_cmp v w r1 r2 :
  good_opt v -> good_opt w -> tail_ok r1 -> tail_ok r2 ->
  cmp (enc_opt v ++ r1) (enc_opt w ++ r2) = lex_cmp (opt_cmp v w) (cmp r1 r2).
Proof.
  destruct v as [v|], w as [w|]; simpl; intros Hv Hw Hr1 Hr2.
  - destruct Hv, Hw. by apply enc_cmp.
  - destruct (enc_tag v) as [l ->]. simpl. destruct Hv as [Hv _]. apply tag_of_bounds in Hv.
    unfold UNDEFINED_TAG. by rewrite lex_cmp_gt by lia.
  - destruct (enc_tag w) as [l ->]. simpl. destruct Hw as [Hw _]. apply tag_of_bounds in Hw.
    unfold UNDEFINED_TAG. by rewrite lex_cmp_lt by lia.
  - by rewrite lex_cmp_eq.
Qed.

Lemma enc_opt_tail_ok vs : Forall good_opt vs -> tail_ok (concat (map enc_opt vs)).
Proof.
  destruct 1 as [|[v|] vs Hv _]; simpl; [done| |done]. by apply enc_tail_ok, Hv.
Qed.

Lemma enc_opts_cmp vs ws :
  Forall good_opt vs -> Forall good_opt ws ->
  cmp (concat (map enc_opt vs)) (concat (map enc_opt ws)) = lexicographic opt_cmp vs ws.
Proof.
  intros Hvs. revert ws. induction Hvs as [|v vs Hv Hvs IH]; intros ws [|w ws' Hw Hws]; simpl.
  - done.
  - destruct w as [w|]; simpl; [|done]. by destruct (enc_tag w) as [l ->].
  - destruct v as [v|]; simpl; [|done]. by destruct (enc_tag v) as [l ->].
  - rewrite enc_opt_cmp by (try done; by apply enc_opt_tail_ok). by rewrite IH.
Qed.

Lemma Forall_good_valid vs : Forall good_opt vs -> forall v, v ∈ vs -> valid_opt v = true.
Proof. rewrite Forall_forall. intros Hv [v|] Hin; [|done]. by apply (Hv _ Hin). Qed.

(** ** Theorems *)

(** C29: order preservation of [sort_key]: for values without an empty field
    name, writing the sort key never panics and comparing the keys as byte
    strings is the manual [Ord] on the values. *)
Theorem sort_key_order {E} (v w : ConvexValue) :
  good v -> good w ->
  exists k1 k2, sort_key (E := E) v = Ret k1 /\ sort_key (E := E) w = Ret k2 /\ cmp k1 k2 = value_cmp v w.
Proof.
  intros [Hv Hnv] [Hw Hnw]. exists (enc v), (enc w).
  split_and!; [by apply write_sort_key_enc..|].
  pose proof (enc_cmp v w [] [] Hv Hnv Hw Hnw I I) as Hc. rewrite !app_nil_r in Hc. rewrite Hc.
  by destruct (value_cmp v w).
Qed.

Lemma sort_key_order_witness :
  exists k1 k2, sort_key (E := unit) (Array [Int64 (-129); Object [([97], String [0; 1])]]) = Ret k1 /\
    sort_key (E := unit) (Array [Int64 (-128); Float64 0]) = Ret k2 /\ cmp k1 k2 = Lt.
Proof.
  exact (sort_key_order (Array [Int64 (-129); Object [([97], String [0; 1])]]) (Array [Int64 (-128); Float64 0])
    ltac:(split; vm_compute; reflexivity) ltac:(split; vm_compute; reflexivity)).
Defined.

(** Order preservation of [values_to_bytes], the key of an index entry:
    keys of tuples of (possibly undefined) values compare like the tuples,
    undefined first. *)
Theorem values_to_bytes_order {E} (vs ws : list (option ConvexValue)) :
  Forall good_opt vs -> Forall good_opt ws ->
  exists k1 k2, values_to_bytes (E := E) vs = Ret k1 /\ values_to_bytes (E := E) ws = Ret k2 /\
    cmp k1 k2 = lexicographic opt_cmp vs ws.
Proof.
  intros Hv Hw. exists (concat (map enc_opt vs)), (concat (map enc_opt ws)).
  split_and!; [by apply values_to_bytes_enc, Forall_good_valid..|]. by apply enc_opts_cmp.
Qed.

Lemma values_to_bytes_order_witness :
  exists k1 k2, values_to_bytes (E := unit) [Some (Int64 5); None] = Ret k1 /\
    values_to_bytes (E := unit) [Some (Int64 5); Some Null] = Ret k2 /\ cmp k1 k2 = Lt.
Proof.
  exact (values_to_bytes_order [Some (Int64 5); None] [Some (Int64 5); Some Null]
    ltac:(apply (bool_decide_unpack _); vm_compute; exact I) ltac:(apply (bool_decide_unpack _); vm_compute; exact I)).
Defined.

(** C30: round trip of sort keys: for a valid value without an empty field name,
    reading back its key, followed by any bytes that do not start with the
    escape byte, returns the value and leaves those bytes (the key of an object
    with an empty field name does not read back). *)
Theorem sort_key_roundtrip (v : ConvexValue) (r : list Z) :
  good v -> tail_ok r ->
  exists k, sort_key (E := decode_error) v = Ret k /\ read_sort_key (k ++ r) = Ret (v, r).
Proof.
  intros [Hv Hn] Hr. exists (enc v). split; [by apply write_sort_key_enc|by apply read_sort_key_enc].
Qed.

Lemma sort_key_roundtrip_witness :
  exists k, sort_key (E := decode_error) (Object [([97], Array [Int64 300; Null])]) = Ret k /\
    read_sort_key (k ++ [1; 2]) = Ret (Object [([97], Array [Int64 300; Null])], [1; 2]).
Proof.
  exact (sort_key_roundtrip (Object [([97], Array [Int64 300; Null])]) [1; 2]
    ltac:(split; vm_compute; reflexivity) ltac:(vm_compute; reflexivity)).
Defined.

(** Round trip of index keys: [bytes_to_values] inverts [values_to_bytes]
    on sequences of defined values. *)
Theorem values_roundtrip (vs : list ConvexValue) :
  Forall good vs ->
  exists k, values_to_bytes (E := decode_error) (map Some vs) = Ret k /\ bytes_to_values k = Ret (map Some vs).
Proof.
  intros Hv. exists (concat (map enc vs)). rewrite Forall_forall in Hv. split.
  - rewrite values_to_bytes_enc; [by rewrite map_map|].
    intros v (w & -> & Hw)%list_elem_of_fmap. by apply Hv.
  - apply bytes_to_values_enc; [done|]. apply length_concat_ge. intros x Hx Hnil.
    destruct (enc_tag x) as [l Hl]. by rewrite Hl in Hnil.
Qed.

Lemma values_roundtrip_witness :
  exists k, values_to_bytes (E := decode_error) [Some (Bytes [0; 255]); Some (Boolean true)] = Ret k /\
    bytes_to_values k = Ret [Some (Bytes [0; 255]); Some (Boolean true)].
Proof.
  exact (values_roundtrip [Bytes [0; 255]; Boolean true]
    ltac:(repeat constructor; vm_compute; reflexivity)).
Defined.

(** With an empty field name, which [check_valid_field_name] accepts, both
    guarantees fail: [[{}, 6] < [{"": 5}]] as values but not as sort keys, and the
    key of [{"": 5}] does not read back. *)
Theorem empty_field_name_breaks_sort_keys :
  let v := Array [Object []; Int64 6] in
  let w := Array [Object [([], Int64 5)]] in
  valid v = true /\ valid w = true /\ value_cmp v w = Lt /\
  (exists k1 k2, sort_key (E := decode_error) v = Ret k1 /\ sort_key (E := decode_error) w = Ret k2 /\ cmp k1 k2 = Gt) /\
  (exists k, sort_key (E := decode_error) (Object [([], Int64 5)]) = Ret k /\
     read_sort_key k = Ret (Object [], [9; 5; 0])).
Proof.
  cbv zeta. split_and!; [vm_compute; reflexivity..| |].
  - exists [18; 21; 0; 9; 6; 0], [18; 21; 0; 9; 5; 0; 0]. split_and!; vm_compute; reflexivity.
  - exists [21; 0; 9; 5; 0]. split; vm_compute; reflexivity.
Qed.
