(* ===== verification/Base32.v ===== *)
(** * Base32: Crockford base32 (src/crates/value/src/base32.rs)

    Bytes and characters are [Z]; shifts that a [u8] truncates are taken
    modulo 256.  Indexing out of bounds is [Panic]. *)

From S2P Require Import Prelude Ord Identifier Value.

Local Open Scope Z_scope.

(** ["0123456789abcdefghjkmnpqrstvwxyz"]. *)
Definition ALPHABET : list Z :=
  [48; 49; 50; 51; 52; 53; 54; 55; 56; 57;
   97; 98; 99; 100; 101; 102; 103; 104; 106; 107; 109; 110;
   112; 113; 114; 115; 116; 118; 119; 120; 121; 122].

(** The [while i < 32] loop filling the table. *)
Definition DECODE_TABLE : list Z :=
  fold_left (fun table i => <[Z.to_nat (default 0 (ALPHABET !! i)) := Z.of_nat i]> table)
    (seq 0 32) (replicate 256 255).

Definition encoded_len (len : nat) : nat :=
  let last_chunk :=
    match (len mod 5)%nat with
    | 0%nat => 0 | 1%nat => 2 | 2%nat => 4 | 3%nat => 5 | _ => 7
    end%nat in
  ((len / 5) * 8 + last_chunk)%nat.

(** [usize::div_ceil]. *)
Definition div_ceil (a b : nat) : nat := ((a + b - 1) / b)%nat.

Definition encoded_buffer_len (len : nat) : nat := (div_ceil len 5 * 8)%nat.

(** [<[T]>::chunks(k)], on fuel (a chunk is never empty). *)
Fixpoint chunks_fuel {A} (fuel : nat) (k : nat) (l : list A) : list (list A) :=
  match fuel, l with
  | S fuel, _ :: _ => take k l :: chunks_fuel fuel k (drop k l)
  | _, _ => []
  end.
Definition chunks {A} (k : nat) (l : list A) : list (list A) := chunks_fuel (length l) k l.

Definition alphabet {E} (index : Z) : outcome E Z := expect (ALPHABET !! Z.to_nat index).

(** The zero-extended block of a chunk. *)
Definition block_of (n : nat) (chunk : list Z) : list Z := take n chunk ++ replicate (n - length chunk) 0.

(** Eight groups of five bits. *)
Definition block_indexes (block : list Z) : list Z :=
  let b i := default 0 (block !! i) in
  [ Z.shiftr (Z.land (b 0%nat) 248) 3;
    Z.lor (Z.shiftl (Z.land (b 0%nat) 7) 2) (Z.shiftr (Z.land (b 1%nat) 192) 6);
    Z.shiftr (Z.land (b 1%nat) 62) 1;
    Z.lor (Z.shiftl (Z.land (b 1%nat) 1) 4) (Z.shiftr (Z.land (b 2%nat) 240) 4);
    Z.lor (Z.shiftl (Z.land (b 2%nat) 15) 1) (Z.shiftr (b 3%nat) 7);
    Z.shiftr (Z.land (b 3%nat) 124) 2;
    Z.lor (Z.shiftl (Z.land (b 3%nat) 3) 3) (Z.shiftr (Z.land (b 4%nat) 224) 5);
    Z.land (b 4%nat) 31 ].

Definition encode_chunk {E} (c : list Z * list Z) : outcome E (list Z) :=
  let '(chunk, out_chunk) := c in
  let block := block_of 5 chunk in
  (if (length out_chunk <? 8)%nat then Panic else Ret tt) ;?
  mapM alphabet (block_indexes block).

(** Writes into the prefix of [out]; the rest of the buffer is kept. *)
Definition encode_into {E} (out data : list Z) : outcome E (list Z) :=
  let? written := mapM encode_chunk (zip (chunks 5 data) (chunks 8 out)) in
  Ret (concat written ++ drop (8 * length written) out).

(** [String::from_utf8(..).unwrap()]. *)
Definition unwrap_utf8 {E} (s : list Z) : outcome E (list Z) := if utf8_valid s then Ret s else Panic.

Definition encode {E} (data : list Z) : outcome E (list Z) :=
  let out := replicate (encoded_buffer_len (length data)) 0 in
  let? out := encode_into out data in
  unwrap_utf8 (take (encoded_len (length data)) out).

(** The error also carries the offending [char], which is the one at [position]. *)
Record InvalidBase32Error := { position : nat; string : list Z }.

Fixpoint decode_indexes (data : list Z) (pos : nat) (chunk : list Z) : outcome InvalidBase32Error (list Z) :=
  match chunk with
  | [] => Ret []
  | byte :: chunk =>
      let? index := expect (DECODE_TABLE !! Z.to_nat byte) in
      if index =? 255 then Err {| position := pos; string := data |}
      else let? rest := decode_indexes data (S pos) chunk in Ret (index :: rest)
  end.

Definition shl (x n : Z) : Z := Z.shiftl x n mod 256.

Definition regroup (indexes : list Z) : list Z :=
  let i k := default 0 (indexes !! k) in
  [ Z.lor (shl (i 0%nat) 3) (Z.shiftr (i 1%nat) 2);
    Z.lor (Z.lor (shl (i 1%nat) 6) (shl (i 2%nat) 1)) (Z.shiftr (i 3%nat) 4);
    Z.lor (shl (i 3%nat) 4) (Z.shiftr (i 4%nat) 1);
    Z.lor (Z.lor (shl (i 4%nat) 7) (shl (i 5%nat) 2)) (Z.shiftr (i 6%nat) 3);
    Z.lor (shl (i 6%nat) 5) (i 7%nat) ].

Fixpoint decode_chunks (data : list Z) (pos : nat) (cs : list (list Z)) : outcome InvalidBase32Error (list Z) :=
  match cs with
  | [] => Ret []
  | chunk :: cs =>
      let? indexes := decode_indexes data pos chunk in
      let? out := decode_chunks data (pos + length chunk) cs in
      Ret (regroup (block_of 8 indexes) ++ out)
  end.

Definition decode (data : list Z) : outcome InvalidBase32Error (list Z) :=
  let out_length := (length data * 5 / 8)%nat in
  let? out := decode_chunks data 0 (chunks 8 data) in
  Ret (take out_length out).

(** ** Bounded exhaustive checks *)

Definition range (n : nat) : list Z := map Z.of_nat (seq 0 n).

Lemma range_forall n (P : Z -> bool) : forallb P (range n) = true -> forall x, 0 <= x < Z.of_nat n -> P x = true.
Proof.
  rewrite forallb_elem. intros H x Hx. apply H, list_elem_of_fmap. exists (Z.to_nat x).
  split; [lia|]. apply list_elem_of_In, in_seq. lia.
Qed.

Lemma range_forall2 n m (P : Z -> Z -> bool) :
  forallb (fun a => forallb (P a) (range m)) (range n) = true ->
  forall x y, 0 <= x < Z.of_nat n -> 0 <= y < Z.of_nat m -> P x y = true.
Proof. intros H x y Hx Hy. eapply range_forall in H; [|done]. by eapply range_forall in H. Qed.

Lemma range_forall3 n m k (P : Z -> Z -> Z -> bool) :
  forallb (fun a => forallb (fun b => forallb (P a b) (range k)) (range m)) (range n) = true ->
  forall x y z, 0 <= x < Z.of_nat n -> 0 <= y < Z.of_nat m -> 0 <= z < Z.of_nat k -> P x y z = true.
Proof. intros H x y z Hx Hy Hz. eapply range_forall2 in H; [|done..]. by eapply range_forall in H. Qed.

(** *** The bit groups as arithmetic *)

Lemma group_hi b : 0 <= b < 256 -> Z.shiftr (Z.land b 248) 3 = b / 8 /\ Z.shiftr (Z.land b 62) 1 = (b mod 64) / 2
  /\ Z.shiftr (Z.land b 124) 2 = (b mod 128) / 4 /\ Z.land b 31 = b mod 32.
Proof.
  intros Hb.
  pose proof (range_forall 256 (fun b => (Z.shiftr (Z.land b 248) 3 =? b / 8) && (Z.shiftr (Z.land b 62) 1 =? (b mod 64) / 2)
    && (Z.shiftr (Z.land b 124) 2 =? (b mod 128) / 4) && (Z.land b 31 =? b mod 32)) ltac:(vm_compute; reflexivity) b Hb) as H.
  cbn beta in H. bool_hyps. done.
Qed.

Lemma group_pair a b : 0 <= a < 256 -> 0 <= b < 256 ->
  Z.lor (Z.shiftl (Z.land a 7) 2) (Z.shiftr (Z.land b 192) 6) = (a mod 8) * 4 + b / 64 /\
  Z.lor (Z.shiftl (Z.land a 1) 4) (Z.shiftr (Z.land b 240) 4) = (a mod 2) * 16 + b / 16 /\
  Z.lor (Z.shiftl (Z.land a 15) 1) (Z.shiftr b 7) = (a mod 16) * 2 + b / 128 /\
  Z.lor (Z.shiftl (Z.land a 3) 3) (Z.shiftr (Z.land b 224) 5) = (a mod 4) * 8 + b / 32.
Proof.
  intros Ha Hb.
  pose proof (range_forall2 256 256 (fun a b =>
    (Z.lor (Z.shiftl (Z.land a 7) 2) (Z.shiftr (Z.land b 192) 6) =? (a mod 8) * 4 + b / 64) &&
    (Z.lor (Z.shiftl (Z.land a 1) 4) (Z.shiftr (Z.land b 240) 4) =? (a mod 2) * 16 + b / 16) &&
    (Z.lor (Z.shiftl (Z.land a 15) 1) (Z.shiftr b 7) =? (a mod 16) * 2 + b / 128) &&
    (Z.lor (Z.shiftl (Z.land a 3) 3) (Z.shiftr (Z.land b 224) 5) =? (a mod 4) * 8 + b / 32))
    ltac:(vm_compute; reflexivity) a b Ha Hb) as H.
  cbn beta in H. bool_hyps. done.
Qed.

Lemma regroup_pair a b : 0 <= a < 32 -> 0 <= b < 32 ->
  Z.lor (shl a 3) (Z.shiftr b 2) = a * 8 + b / 4 /\
  Z.lor (shl a 4) (Z.shiftr b 1) = (a mod 16) * 16 + b / 2 /\
  Z.lor (shl a 5) b = (a mod 8) * 32 + b.
Proof.
  intros Ha Hb.
  pose proof (range_forall2 32 32 (fun a b =>
    (Z.lor (shl a 3) (Z.shiftr b 2) =? a * 8 + b / 4) &&
    (Z.lor (shl a 4) (Z.shiftr b 1) =? (a mod 16) * 16 + b / 2) &&
    (Z.lor (shl a 5) b =? (a mod 8) * 32 + b))
    ltac:(vm_compute; reflexivity) a b Ha Hb) as H.
  cbn beta in H. bool_hyps. done.
Qed.

Lemma regroup_triple a b c : 0 <= a < 32 -> 0 <= b < 32 -> 0 <= c < 32 ->
  Z.lor (Z.lor (shl a 6) (shl b 1)) (Z.shiftr c 4) = (a mod 4) * 64 + b * 2 + c / 16 /\
  Z.lor (Z.lor (shl a 7) (shl b 2)) (Z.shiftr c 3) = (a mod 2) * 128 + b * 4 + c / 8.
Proof.
  intros Ha Hb Hc.
  pose proof (range_forall3 32 32 32 (fun a b c =>
    (Z.lor (Z.lor (shl a 6) (shl b 1)) (Z.shiftr c 4) =? (a mod 4) * 64 + b * 2 + c / 16) &&
    (Z.lor (Z.lor (shl a 7) (shl b 2)) (Z.shiftr c 3) =? (a mod 2) * 128 + b * 4 + c / 8))
    ltac:(vm_compute; reflexivity) a b c Ha Hb Hc) as H.
  cbn beta in H. bool_hyps. done.
Qed.

Definition index (i : Z) : Prop := 0 <= i < 32.

Lemma block_indexes_arith b0 b1 b2 b3 b4 :
  u8 b0 -> u8 b1 -> u8 b2 -> u8 b3 -> u8 b4 ->
  block_indexes [b0; b1; b2; b3; b4] =
    [b0 / 8; (b0 mod 8) * 4 + b1 / 64; (b1 mod 64) / 2; (b1 mod 2) * 16 + b2 / 16; (b2 mod 16) * 2 + b3 / 128;
     (b3 mod 128) / 4; (b3 mod 4) * 8 + b4 / 32; b4 mod 32].
Proof.
  unfold u8. intros. unfold block_indexes. cbn -[Z.shiftr Z.land Z.lor Z.shiftl Z.div Z.modulo Z.mul Z.add shl].
  destruct (group_hi b0) as (? & _); [done|]. destruct (group_hi b1) as (_ & ? & _); [done|].
  destruct (group_hi b3) as (_ & _ & ? & _); [done|]. destruct (group_hi b4) as (_ & _ & _ & ?); [done|].
  destruct (group_pair b0 b1) as (? & _); [done..|]. destruct (group_pair b1 b2) as (_ & ? & _); [done..|].
  destruct (group_pair b2 b3) as (_ & _ & ? & _); [done..|]. destruct (group_pair b3 b4) as (_ & _ & _ & ?); [done..|].
  congruence.
Qed.

Lemma regroup_block b0 b1 b2 b3 b4 :
  u8 b0 -> u8 b1 -> u8 b2 -> u8 b3 -> u8 b4 ->
  Forall index (block_indexes [b0; b1; b2; b3; b4]) /\
  regroup (block_indexes [b0; b1; b2; b3; b4]) = [b0; b1; b2; b3; b4].
Proof.
  intros H0 H1 H2 H3 H4. rewrite block_indexes_arith by done. unfold u8 in *.
  set (i1 := (b0 mod 8) * 4 + b1 / 64). set (i3 := (b1 mod 2) * 16 + b2 / 16).
  set (i4 := (b2 mod 16) * 2 + b3 / 128). set (i6 := (b3 mod 4) * 8 + b4 / 32).
  assert (0 <= b0 / 8 < 32) by (Z.div_mod_to_equations; lia).
  assert (0 <= i1 < 32) by (unfold i1; Z.div_mod_to_equations; lia).
  assert (0 <= (b1 mod 64) / 2 < 32) by (Z.div_mod_to_equations; lia).
  assert (0 <= i3 < 32) by (unfold i3; Z.div_mod_to_equations; lia).
  assert (0 <= i4 < 32) by (unfold i4; Z.div_mod_to_equations; lia).
  assert (0 <= (b3 mod 128) / 4 < 32) by (Z.div_mod_to_equations; lia).
  assert (0 <= i6 < 32) by (unfold i6; Z.div_mod_to_equations; lia).
  assert (0 <= b4 mod 32 < 32) by (Z.div_mod_to_equations; lia).
  split; [by repeat (apply Forall_cons_2; [done|])|]. unfold regroup. cbn -[Z.shiftr Z.land Z.lor Z.shiftl Z.div Z.modulo Z.mul Z.add shl].
  destruct (regroup_pair (b0 / 8) i1) as (-> & _); [done..|].
  destruct (regroup_triple i1 ((b1 mod 64) / 2) i3) as (-> & _); [done..|].
  destruct (regroup_pair i3 i4) as (_ & -> & _); [done..|].
  destruct (regroup_triple i4 ((b3 mod 128) / 4) i6) as (_ & ->); [done..|].
  destruct (regroup_pair i6 (b4 mod 32)) as (_ & _ & ->); [done..|].
  unfold i1, i3, i4, i6. clear -H0 H1 H2 H3 H4. repeat f_equal; Z.div_mod_to_equations; lia.
Qed.

(** ** Characters *)

Definition alph (i : Z) : Z := default 0 (ALPHABET !! Z.to_nat i).

Lemma alphabet_alph {E} i : index i -> alphabet (E := E) i = Ret (alph i).
Proof.
  intros Hi. unfold alphabet, alph, expect. destruct (ALPHABET !! Z.to_nat i) eqn:Hl; [done|].
  apply lookup_ge_None in Hl. unfold index in Hi. simpl in Hl. lia.
Qed.

Definition alph_check (i : Z) : bool :=
  match DECODE_TABLE !! Z.to_nat (alph i) with Some j => j =? i | None => false end && (alph i <? 128).

Lemma alph_spec i : index i ->
  DECODE_TABLE !! Z.to_nat (alph i) = Some i /\ i <> 255 /\ alph i < 128.
Proof.
  intros Hi. unfold index in Hi.
  pose proof (range_forall 32 alph_check ltac:(vm_compute; reflexivity) i Hi) as H. apply andb_true_iff in H as [H1 H2].
  destruct (DECODE_TABLE !! Z.to_nat (alph i)); [|done]. bool_hyps. subst. split_and!; [done|lia|done].
Qed.

Lemma mapM_alphabet {E} idx : Forall index idx -> mapM (alphabet (E := E)) idx = Ret (map alph idx).
Proof. induction 1 as [|i idx Hi Hidx IH]; simpl; [done|]. by rewrite alphabet_alph, IH. Qed.

Lemma decode_indexes_alph data pos idx : Forall index idx -> decode_indexes data pos (map alph idx) = Ret idx.
Proof.
  intros Hidx. revert pos. induction Hidx as [|i idx Hi Hidx IH]; intros pos; cbn [map decode_indexes]; [done|].
  destruct (alph_spec i Hi) as (-> & Hne & _). cbn [expect obind].
  rewrite (proj2 (Z.eqb_neq i 255)) by done. by rewrite IH.
Qed.

Lemma utf8_alph idx : Forall index idx -> utf8_valid (map alph idx) = true.
Proof.
  induction 1 as [|i idx Hi Hidx IH]; cbn [map utf8_valid]; [done|].
  destruct (alph_spec i Hi) as (_ & _ & Hlt). by rewrite (proj2 (Z.ltb_lt _ _)).
Qed.

(** ** Chunks *)

Lemma chunks_fuel_enough {A} k (l : list A) f : (0 < k)%nat -> (length l <= f)%nat -> chunks_fuel f k l = chunks k l.
Proof.
  intros Hk. unfold chunks. remember (length l) as n eqn:Hn.
  assert (Hle : (length l <= n)%nat) by lia. clear Hn. revert f l Hle.
  induction n as [|n IH]; intros f l Hle Hf.
  { destruct l; [by destruct f|simpl in Hle; lia]. }
  destruct f as [|f]; [lia|]. destruct l as [|x l]; [done|]. cbn [chunks_fuel]. f_equal.
  destruct k as [|k]; [lia|]. simpl in *. apply IH; [rewrite length_drop|]; lia.
Qed.

Lemma chunks_nil {A} k : chunks k (@nil A) = [].
Proof. done. Qed.

Lemma chunks_cons {A} k (c l : list A) :
  (0 < k)%nat -> length c = k -> chunks k (c ++ l) = c :: chunks k l.
Proof.
  intros Hk Hc. destruct c as [|x c]; [simpl in Hc; lia|]. unfold chunks at 1. cbn [app length chunks_fuel].
  change (x :: c ++ l) with ((x :: c) ++ l). rewrite take_app_length', drop_app_length' by done.
  f_equal. apply chunks_fuel_enough; [done|]. rewrite length_app. lia.
Qed.

Lemma chunks_short {A} k (l : list A) : (0 < length l <= k)%nat -> chunks k l = [l].
Proof.
  intros Hl. destruct l as [|x l]; [simpl in Hl; lia|]. unfold chunks. cbn [length chunks_fuel].
  rewrite take_ge, drop_ge by lia. by destruct (length l).
Qed.

Lemma chunks_map {A B} (f : A -> B) k l : chunks k (map f l) = map (map f) (chunks k l).
Proof.
  unfold chunks. rewrite length_map. generalize (length l) as n. intros n. revert l.
  induction n as [|n IH]; intros [|x l]; try done. cbn [map chunks_fuel].
  change (f x :: map f l) with (f <$> (x :: l)). rewrite <- fmap_take, <- fmap_drop. f_equal. apply IH.
Qed.

(** Induction by chunks of five. *)
Lemma list_ind5 {A} (P : list A -> Prop) :
  (forall l, (length l < 5)%nat -> P l) ->
  (forall a b c d e l, P l -> P (a :: b :: c :: d :: e :: l)) -> forall l, P l.
Proof.
  intros Hs Hc l. remember (length l) as n eqn:Hn. assert (Hle : (length l <= n)%nat) by lia. clear Hn. revert l Hle.
  induction n as [|n IH]; intros l Hle; [apply Hs; lia|].
  destruct l as [|a [|b [|c [|d [|e l]]]]]; [apply Hs; simpl; lia..|]. apply Hc, IH. simpl in Hle. lia.
Qed.

(** The encoded data as five-bit indexes. *)
Definition indexes_of (data : list Z) : list Z :=
  take (encoded_len (length data)) (concat (map (fun c => block_indexes (block_of 5 c)) (chunks 5 data))).

Lemma encoded_len_5 n : encoded_len (5 + n) = (8 + encoded_len n)%nat.
Proof.
  unfold encoded_len. replace ((5 + n) / 5)%nat with (1 + n / 5)%nat.
  - replace ((5 + n) mod 5)%nat with (n mod 5)%nat; [lia|].
    rewrite <- (Nat.Div0.mod_add n 1 5). f_equal. lia.
  - rewrite <- (Nat.div_add_l 1 5 n) by lia. f_equal.
Qed.

Lemma indexes_of_cons a b c d e l :
  indexes_of (a :: b :: c :: d :: e :: l) = block_indexes [a; b; c; d; e] ++ indexes_of l.
Proof.
  unfold indexes_of. change (a :: b :: c :: d :: e :: l) with ([a; b; c; d; e] ++ l).
  rewrite chunks_cons by (simpl; lia). rewrite length_app. change (length [a; b; c; d; e]) with 5%nat.
  rewrite encoded_len_5. cbn [map concat]. change (block_of 5 [a; b; c; d; e]) with [a; b; c; d; e].
  change (8 + encoded_len (length l))%nat with (length (block_indexes [a; b; c; d; e]) + encoded_len (length l))%nat.
  by rewrite take_app_add.
Qed.

(** ** Encoding *)

Lemma block_of_5 c : bytes c -> (length c <= 5)%nat ->
  exists b0 b1 b2 b3 b4, block_of 5 c = [b0; b1; b2; b3; b4] /\ u8 b0 /\ u8 b1 /\ u8 b2 /\ u8 b3 /\ u8 b4.
Proof.
  intros Hb Hl. assert (u8 0) by done.
  destruct c as [|b0 [|b1 [|b2 [|b3 [|b4 [|]]]]]]; try (simpl in Hl; lia);
    rewrite ?bytes_cons in Hb; unfold block_of; cbn; do 5 eexists; split_and!; try reflexivity; try done; tauto.
Qed.

Lemma block_indexes_index c : bytes c -> (length c <= 5)%nat -> Forall index (block_indexes (block_of 5 c)).
Proof.
  intros Hb Hl. destruct (block_of_5 c Hb Hl) as (? & ? & ? & ? & ? & -> & ? & ? & ? & ? & ?). by apply regroup_block.
Qed.

Definition encode_block (c : list Z) : list Z := map alph (block_indexes (block_of 5 c)).

Lemma encode_chunk_ok {E} c o : bytes c -> (length c <= 5)%nat -> length o = 8%nat ->
  encode_chunk (E := E) (c, o) = Ret (encode_block c).
Proof.
  intros Hb Hc Ho. unfold encode_chunk. rewrite Ho. cbn [Nat.ltb Nat.leb obind].
  by rewrite mapM_alphabet by (by apply block_indexes_index).
Qed.

Lemma div_ceil_5 n : div_ceil (5 + n) 5 = S (div_ceil n 5).
Proof.
  unfold div_ceil. change (S ((n + 5 - 1) / 5)) with (1 + (n + 5 - 1) / 5)%nat. rewrite <- (Nat.div_add_l 1 5 (n + 5 - 1)) by lia. f_equal. lia.
Qed.

Lemma zip_cons {A B} (a : A) (b : B) l k : zip (a :: l) (b :: k) = (a, b) :: zip l k.
Proof. done. Qed.

Lemma encode_chunks_ok {E} data : forall out m,
  bytes data -> length out = (8 * m)%nat -> (div_ceil (length data) 5 <= m)%nat ->
  mapM (encode_chunk (E := E)) (zip (chunks 5 data) (chunks 8 out)) = Ret (map encode_block (chunks 5 data)).
Proof.
  induction data as [l Hl|a b c d e l IH] using list_ind5; intros out m Hb Hout Hm.
  - destruct l as [|x l']; [done|]. rewrite chunks_short by (simpl in *; lia).
    assert (Hm1 : (1 <= m)%nat).
    { assert (div_ceil (length (x :: l')) 5 = 1)%nat; [|lia]. unfold div_ceil. cbn [length] in *.
      symmetry. apply Nat.div_unique with (length l'); lia. }
    rewrite <- (take_drop 8 out), chunks_cons by (rewrite ?length_take; lia). rewrite zip_cons. cbn [mapM].
    rewrite encode_chunk_ok; [|done|lia|rewrite length_take; lia]. done.
  - change (a :: b :: c :: d :: e :: l) with ([a; b; c; d; e] ++ l) in *.
    rewrite length_app, div_ceil_5 in Hm. apply bytes_app in Hb as [Hb1 Hb2].
    rewrite chunks_cons by (simpl; lia).
    rewrite <- (take_drop 8 out), chunks_cons by (rewrite ?length_take; lia). rewrite zip_cons. cbn [mapM].
    rewrite encode_chunk_ok; [|done|simpl; lia|rewrite length_take; lia]. cbn [obind].
    rewrite (IH (drop 8 out) (m - 1)%nat); [done..|rewrite length_drop; lia|lia].
Qed.

Lemma length_block_indexes b : length (block_indexes b) = 8%nat.
Proof. done. Qed.

Lemma concat_encode_block data :
  concat (map encode_block (chunks 5 data))
  = map alph (concat (map (fun c => block_indexes (block_of 5 c)) (chunks 5 data))).
Proof. by rewrite concat_map, map_map. Qed.

Lemma encoded_len_le data :
  (encoded_len (length data) <= length (concat (map (fun c => block_indexes (block_of 5 c)) (chunks 5 data))))%nat.
Proof.
  induction data as [l Hl|a b c d e l IH] using list_ind5.
  - destruct l as [|x l']; [done|]. rewrite chunks_short by (simpl in *; lia). cbn [map concat].
    rewrite app_nil_r, length_block_indexes. destruct l' as [|? [|? [|? [|]]]]; simpl in *; try lia; vm_compute; lia.
  - change (a :: b :: c :: d :: e :: l) with ([a; b; c; d; e] ++ l).
    rewrite chunks_cons, length_app by (simpl; lia). cbn [map concat length]. rewrite length_app, length_block_indexes.
    change (5 + length l)%nat with (5 + length l)%nat. rewrite encoded_len_5. lia.
Qed.

Lemma length_indexes_of data : length (indexes_of data) = encoded_len (length data).
Proof. unfold indexes_of. rewrite length_take. pose proof (encoded_len_le data). lia. Qed.

Lemma indexes_of_index data : bytes data -> Forall index (indexes_of data).
Proof.
  induction data as [l Hl|a b c d e l IH] using list_ind5; intros Hb.
  - unfold indexes_of. apply Forall_take. destruct l as [|x l']; [constructor|].
    rewrite chunks_short by (simpl in *; lia). cbn [map concat]. rewrite app_nil_r. apply block_indexes_index; [done|lia].
  - rewrite indexes_of_cons. change (a :: b :: c :: d :: e :: l) with ([a; b; c; d; e] ++ l) in Hb.
    apply bytes_app in Hb as [Hb1 Hb2]. apply Forall_app. split; [|by apply IH].
    by apply (block_indexes_index [a; b; c; d; e]).
Qed.

Lemma encode_into_ok out data m :
  bytes data -> length out = (8 * m)%nat -> (div_ceil (length data) 5 <= m)%nat ->
  exists out', (forall E, encode_into (E := E) out data = Ret out') /\
    take (encoded_len (length data)) out' = map alph (indexes_of data).
Proof.
  intros Hb Hout Hm. eexists. split.
  { intros E. unfold encode_into. rewrite (encode_chunks_ok data out m) by done. reflexivity. }
  rewrite concat_encode_block. unfold indexes_of.
  rewrite take_app_le by (rewrite length_map; apply encoded_len_le). symmetry. apply fmap_take.
Qed.

Lemma base32_encode_ok {E} data : bytes data -> encode (E := E) data = Ret (map alph (indexes_of data)).
Proof.
  intros Hb. unfold encode.
  destruct (encode_into_ok (replicate (encoded_buffer_len (length data)) 0) data (div_ceil (length data) 5))
    as (out & -> & Hout); [done|rewrite length_replicate; unfold encoded_buffer_len; lia|done|].
  cbn [obind]. rewrite Hout. unfold unwrap_utf8. by rewrite utf8_alph by (by apply indexes_of_index).
Qed.

(** ** Decoding *)

Lemma decode_chunks_alph data pos cs :
  Forall (Forall index) cs ->
  decode_chunks data pos (map (map alph) cs) = Ret (concat (map (fun c => regroup (block_of 8 c)) cs)).
Proof.
  intros Hcs. revert pos. induction Hcs as [|c cs Hc Hcs IH]; intros pos; cbn [map decode_chunks concat]; [done|].
  rewrite decode_indexes_alph by done. cbn [obind]. by rewrite IH.
Qed.

Lemma Forall_chunks {A} (P : A -> Prop) k l : Forall P l -> Forall (Forall P) (chunks k l).
Proof.
  unfold chunks. generalize (length l) as n. intros n. revert l.
  induction n as [|n IH]; intros [|x l] Hl; cbn [chunks_fuel]; try constructor.
  - by apply Forall_take.
  - by apply IH, Forall_drop.
Qed.

Definition regroup_all (idx : list Z) : list Z :=
  take (length idx * 5 / 8) (concat (map (fun c => regroup (block_of 8 c)) (chunks 8 idx))).

Lemma decode_alph idx : Forall index idx -> decode (map alph idx) = Ret (regroup_all idx).
Proof.
  intros Hidx. unfold decode, regroup_all. rewrite chunks_map, decode_chunks_alph by (by apply Forall_chunks).
  cbn [obind]. by rewrite length_map.
Qed.

Lemma regroup_all_cons c l :
  length c = 8%nat -> regroup_all (c ++ l) = regroup c ++ regroup_all l.
Proof.
  intros Hc. unfold regroup_all. rewrite chunks_cons by (done || lia). cbn [map concat].
  rewrite length_app, Hc. replace ((8 + length l) * 5 / 8)%nat with (5 + length l * 5 / 8)%nat.
  - assert (block_of 8 c = c) as ->.
    { unfold block_of. rewrite Hc, take_ge by lia. by rewrite app_nil_r. }
    change 5%nat with (length (regroup c)) at 1. by rewrite take_app_add.
  - rewrite <- Nat.div_add_l by lia. f_equal.
Qed.

Lemma regroup_indexes data : bytes data -> regroup_all (indexes_of data) = data.
Proof.
  induction data as [l Hl|a b c d e l IH] using list_ind5; intros Hb.
  - assert (u8 0) by done. unfold indexes_of.
    destruct l as [|a [|b [|c [|d [|]]]]]; try (simpl in Hl; lia); try done; rewrite ?bytes_cons in Hb;
      rewrite chunks_short by (simpl; lia); cbn [map concat]; rewrite app_nil_r; unfold block_of at 1;
      cbn [length Nat.sub replicate take app];
      (match goal with |- regroup_all (take _ (block_indexes [?x0; ?x1; ?x2; ?x3; ?x4])) = _ =>
         destruct (regroup_block x0 x1 x2 x3 x4) as [_ Hr]; [tauto..|];
         rewrite (block_indexes_arith x0 x1 x2 x3 x4) in * by tauto end);
      unfold regroup_all; rewrite chunks_short by (vm_compute; lia); cbn [map concat]; rewrite app_nil_r;
      (etrans; [apply (f_equal (fun r => take _ r)); exact Hr|reflexivity]).
  - rewrite indexes_of_cons, regroup_all_cons by done.
    change (a :: b :: c :: d :: e :: l) with ([a; b; c; d; e] ++ l) in *.
    apply bytes_app in Hb as [Hb1 Hb2]. rewrite IH by done. f_equal.
    rewrite !bytes_cons in Hb1. apply regroup_block; tauto.
Qed.

(** ** Decoding arbitrary input *)

Definition table_check (b : Z) : bool :=
  match DECODE_TABLE !! Z.to_nat b with
  | Some j => (j =? 255) || ((0 <=? j) && (j <? 32))
  | None => false
  end.

Lemma table_total b : u8 b -> exists j, DECODE_TABLE !! Z.to_nat b = Some j /\ (j = 255 \/ index j).
Proof.
  intros Hb. pose proof (range_forall 256 table_check ltac:(vm_compute; reflexivity) b Hb) as H.
  unfold table_check in H. destruct (DECODE_TABLE !! Z.to_nat b) as [j|]; [|done]. exists j. split; [done|].
  unfold index. apply orb_true_iff in H as [H|H]; bool_hyps; [by left|by right].
Qed.

Lemma decode_indexes_total data pos chunk :
  bytes chunk ->
  match decode_indexes data pos chunk with
  | Ret idx => Forall index idx /\ length idx = length chunk
  | Err _ => True
  | Panic => False
  end.
Proof.
  intros Hb. revert pos. induction Hb as [|b chunk Hb _ IH]; intros pos; cbn [decode_indexes]; [done|].
  destruct (table_total b Hb) as (j & -> & Hj). cbn [expect obind].
  destruct (Z.eqb_spec j 255); [done|]. specialize (IH (S pos)).
  destruct (decode_indexes data (S pos) chunk); cbn [obind]; [|done..].
  destruct IH. split; [constructor; [naive_solver|done]|simpl; congruence].
Qed.

Lemma regroup_bytes idx : Forall index idx -> length idx = 8%nat -> bytes (regroup idx).
Proof.
  intros Hidx Hl. destruct idx as [|i0 [|i1 [|i2 [|i3 [|i4 [|i5 [|i6 [|i7 [|]]]]]]]]]; try done.
  rewrite !Forall_cons in Hidx. destruct Hidx as (H0 & H1 & H2 & H3 & H4 & H5 & H6 & H7 & _). unfold index in *.
  unfold regroup. cbn -[Z.shiftr Z.land Z.lor Z.shiftl Z.div Z.modulo Z.mul Z.add shl].
  destruct (regroup_pair i0 i1) as (-> & _); [done..|].
  destruct (regroup_triple i1 i2 i3) as (-> & _); [done..|].
  destruct (regroup_pair i3 i4) as (_ & -> & _); [done..|].
  destruct (regroup_triple i4 i5 i6) as (_ & ->); [done..|].
  destruct (regroup_pair i6 i7) as (_ & _ & ->); [done..|].
  repeat (apply Forall_cons_2; [unfold u8; Z.div_mod_to_equations; lia|]). constructor.
Qed.

Lemma decode_chunks_total data pos cs :
  Forall bytes cs -> Forall (fun c => length c <= 8)%nat cs ->
  match decode_chunks data pos cs with Ret out => bytes out | Err _ => True | Panic => False end.
Proof.
  intros Hb. revert pos. induction Hb as [|c cs Hc _ IH]; intros pos Hl; cbn [decode_chunks]; [constructor|].
  apply Forall_cons in Hl as [Hlc Hl]. pose proof (decode_indexes_total data pos c Hc) as Hi.
  destruct (decode_indexes data pos c) as [idx| |]; cbn [obind]; [|done..]. destruct Hi as [Hi Hli].
  specialize (IH (pos + length c)%nat Hl). destruct (decode_chunks data (pos + length c) cs); cbn [obind]; [|done..].
  apply bytes_app. split; [|done]. apply regroup_bytes; unfold block_of.
  - apply Forall_app. split; [by apply Forall_take|]. by apply Forall_replicate.
  - rewrite length_app, length_take, length_replicate. lia.
Qed.

Lemma chunks_length {A} k (l : list A) : Forall (fun c => length c <= k)%nat (chunks k l).
Proof.
  unfold chunks. generalize (length l) as n. intros n. revert l.
  induction n as [|n IH]; intros [|x l]; cbn [chunks_fuel]; constructor; [|apply IH].
  rewrite length_take. lia.
Qed.

Lemma base32_decode_total data :
  bytes data -> match decode data with Ret out => bytes out | Err _ => True | Panic => False end.
Proof.
  intros Hb. unfold decode.
  pose proof (decode_chunks_total data 0 (chunks 8 data) (Forall_chunks _ _ _ Hb) (chunks_length 8 data)) as H.
  destruct (decode_chunks data 0 (chunks 8 data)); cbn [obind]; [|done..]. by apply Forall_take.
Qed.

(** ** Theorems *)

(** Base32 round trip: encoding never panics, produces exactly
    [encoded_len] characters, and decoding gives the data back. *)
Theorem base32_roundtrip (data : list Z) :
  bytes data ->
  exists s, encode (E := InvalidBase32Error) data = Ret s /\
    length s = encoded_len (length data) /\ decode s = Ret data.
Proof.
  intros Hb. exists (map alph (indexes_of data)). split_and!.
  - by apply base32_encode_ok.
  - by rewrite length_map, length_indexes_of.
  - by rewrite decode_alph, regroup_indexes by (try apply indexes_of_index; done).
Qed.

Lemma base32_roundtrip_witness :
  exists s, encode (E := InvalidBase32Error) [0; 255; 7; 128; 64; 1; 2] = Ret s /\
    length s = encoded_len 7 /\ decode s = Ret [0; 255; 7; 128; 64; 1; 2].
Proof.
  exact (base32_roundtrip [0; 255; 7; 128; 64; 1; 2] ltac:(apply (bool_decide_unpack _); vm_compute; exact I)).
Defined.
