(* ===== verification/IdV6.v ===== *)
(** * IdV6: document ids (src/crates/value/src/id_v6.rs)

    A [DeveloperDocumentId] is a table number (a positive [u32]) and 16 bytes.
    It is written as VInt(table number), the 16 bytes and a Fletcher-16
    checksum, in base32.  Writes past the end of a buffer are [Panic]. *)

From S2P Require Import Prelude Ord Identifier Value Base32.

Local Open Scope Z_scope.

Record DeveloperDocumentId := MkId { table : Z; internal_id : list Z }.

#[global] Instance DeveloperDocumentId_EqDecision : EqDecision DeveloperDocumentId.
Proof. solve_decision. Defined.

Definition MIN_TABLE_NUMBER_LEN : nat := 1.
Definition MAX_TABLE_NUMBER_LEN : nat := 5.
Definition INTERNAL_ID_LEN : nat := 16.
Definition FOOTER_LEN : nat := 2.
Definition VERSION : Z := 0.

Definition MIN_BINARY_LEN : nat := MIN_TABLE_NUMBER_LEN + INTERNAL_ID_LEN + FOOTER_LEN.
Definition MIN_BASE32_LEN : nat := Base32.encoded_len MIN_BINARY_LEN.
Definition MAX_BINARY_LEN : nat := MAX_TABLE_NUMBER_LEN + INTERNAL_ID_LEN + FOOTER_LEN.
Definition MAX_BASE32_LEN : nat := Base32.encoded_len MAX_BINARY_LEN.

Inductive VintDecodeError := VintTooLarge | Truncated.

Inductive IdDecodeError :=
| InvalidBase32 (e : InvalidBase32Error)
| InvalidLength (n : nat)
| InvalidTableNumber (e : VintDecodeError)
| ZeroTableNumber
| InvalidIdVersion (found expected : Z).

(** [vint_encode]: the bytes written, into a slice of [space] bytes. *)
Fixpoint vint_encode {E} (n : Z) (space : nat) : outcome E (list Z) :=
  match space with
  | O => Panic
  | S space =>
      if n <? 128 then Ret [n]
      else
        let? rest := vint_encode (Z.shiftr n 7) space in
        Ret (Z.lor (Z.land n 127) 128 :: rest)
  end.

Definition vint_len (n : Z) : nat :=
  if n <? Z.shiftl 1 7 then 1
  else if n <? Z.shiftl 1 14 then 2
  else if n <? Z.shiftl 1 21 then 3
  else if n <? Z.shiftl 1 28 then 4
  else 5.

(** [vint_decode]: [i] is the loop counter and [n] the accumulator; returns the
    number and the count of bytes read. *)
Fixpoint vint_decode_loop (fuel : nat) (i : Z) (n : Z) (pos : nat) (buf : list Z)
    : outcome VintDecodeError (Z * nat) :=
  match fuel with
  | O => Err VintTooLarge
  | S fuel =>
      match buf with
      | [] => Err Truncated
      | byte :: buf =>
          let pos := S pos in
          let n := Z.lor n (Z.shiftl (Z.land byte 127) (i * 7) mod 2 ^ 32) in
          if byte <? 128 then Ret (n, pos) else vint_decode_loop fuel (i + 1) n pos buf
      end
  end.

(** The loop gives up when [i >= 5], so five rounds of fuel are exact. *)
Definition vint_decode (buf : list Z) : outcome VintDecodeError (Z * nat) :=
  vint_decode_loop 5 0 0 0 buf.

Definition fletcher16 (buf : list Z) : Z :=
  let '(c0, c1) :=
    fold_left (fun c byte => let c0 := (c.1 + byte) mod 256 in (c0, (c.2 + c0) mod 256)) buf (0, 0) in
  Z.lor (Z.shiftl c1 8) c0.

(** [u16::to_le_bytes], [u16::from_le_bytes]. *)
Definition to_le_bytes16 (x : Z) : list Z := [x mod 256; (x / 256) mod 256].
Definition from_le_bytes16 (l : list Z) : Z :=
  match l with [a; b] => a + 256 * b | _ => 0 end.

(** The binary form: the first [pos] bytes of [buf] in [encode_into]. *)
Definition to_binary {E} (self : DeveloperDocumentId) : outcome E (list Z) :=
  let? buf := vint_encode (table self) MAX_BINARY_LEN in
  let buf := buf ++ internal_id self in
  let? _ := rassert (length buf <=? MAX_BINARY_LEN)%nat in
  let footer := Z.lxor (fletcher16 buf) VERSION in
  let buf := buf ++ to_le_bytes16 footer in
  let? _ := rassert (length buf <=? MAX_BINARY_LEN)%nat in
  Ret buf.

Definition encode_into {E} (self : DeveloperDocumentId) (out : list Z) : outcome E (list Z) :=
  let? buf := to_binary self in
  let? out := Base32.encode_into out buf in
  Base32.unwrap_utf8 (take (Base32.encoded_len (length buf)) out).

(** [encode], with a default [EncodedDocumentIdBuffer]. *)
Definition encode {E} (self : DeveloperDocumentId) : outcome E (list Z) :=
  encode_into self (replicate (Base32.encoded_buffer_len MAX_BINARY_LEN) 0).

(** [DeveloperDocumentId::encoded_len]. *)
Definition encoded_len (self : DeveloperDocumentId) : nat :=
  Base32.encoded_len (vint_len (table self) + 16 + 2).

Definition lift_err {E F A} (f : E -> F) (m : outcome E A) : outcome F A :=
  match m with Ret a => Ret a | Err e => Err (f e) | Panic => Panic end.

(** [buf.get(pos..pos + n)]. *)
Definition slice (buf : list Z) (pos n : nat) : option (list Z) :=
  if (pos + n <=? length buf)%nat then Some (take n (drop pos buf)) else None.

Definition decode (s : list Z) : outcome IdDecodeError DeveloperDocumentId :=
  if (length s <? MIN_BASE32_LEN)%nat || (MAX_BASE32_LEN <? length s)%nat then Err (InvalidLength (length s))
  else
    let? buf := lift_err InvalidBase32 (Base32.decode s) in
    let? (table_number, pos) := lift_err InvalidTableNumber (vint_decode buf) in
    let? _ := ensure (0 <? table_number) ZeroTableNumber in
    let? internal_id := ok_or (slice buf pos 16) (InvalidLength (length s)) in
    let pos := (pos + 16)%nat in
    let expected_footer := Z.lxor (fletcher16 (take pos buf)) VERSION in
    let? footer_bytes := ok_or (slice buf pos 2) (InvalidLength (length s)) in
    let footer := from_le_bytes16 footer_bytes in
    let pos := (pos + 2)%nat in
    let? _ := ensure (expected_footer =? footer) (InvalidIdVersion footer expected_footer) in
    let? _ := ensure (pos =? length buf)%nat (InvalidLength (length s)) in
    let id := MkId table_number internal_id in
    let? encoded := encode id in
    let? _ := ensure (bool_decide (encoded = s)) (InvalidLength (length s)) in
    Ret id.

(** [is_noncanonical_id]. *)
Definition is_noncanonical_id (s : list Z) : outcome IdDecodeError bool :=
  match decode s with
  | Ret id => let? e := encode id in Ret (negb (bool_decide (s = e)))
  | Err _ => Ret false
  | Panic => Panic
  end.

(** The ids the types allow: a positive [u32] and sixteen bytes. *)
Definition valid_id (id : DeveloperDocumentId) : Prop :=
  0 < table id < 2 ^ 32 /\ length (internal_id id) = 16%nat /\ bytes (internal_id id).

#[global] Instance valid_id_dec id : Decision (valid_id id).
Proof. unfold valid_id. apply _. Defined.

(** ** VInt *)

Lemma lor_shiftl_add a b k : 0 <= k -> 0 <= a < 2 ^ k -> 0 <= b -> Z.lor a (b * 2 ^ k) = a + b * 2 ^ k.
Proof.
  intros Hk Ha Hb.
  assert (Hdis : Z.land a (b * 2 ^ k) = 0).
  { rewrite <- Z.shiftl_mul_pow2 by done. apply Z.bits_inj'. intros i Hi. rewrite Z.land_spec, Z.bits_0.
    destruct (Z.lt_ge_cases i k).
    - rewrite Z.shiftl_spec_low by done. apply andb_false_r.
    - rewrite <- (Z.mod_small a (2 ^ k)) by done. by rewrite Z.mod_pow2_bits_high by lia. }
  rewrite <- Z.lxor_lor by done. symmetry. by apply Z.add_nocarry_lxor.
Qed.

Lemma lor_lt a b k : 0 <= k -> 0 <= a < 2 ^ k -> 0 <= b < 2 ^ k -> 0 <= Z.lor a b < 2 ^ k.
Proof.
  intros Hk Ha Hb. assert (H0 : 0 <= Z.lor a b) by (apply Z.lor_nonneg; lia). split; [done|].
  destruct (Z.eq_dec (Z.lor a b) 0) as [->|Hne]; [apply Z.pow_pos_nonneg; lia|].
  apply Z.log2_lt_pow2; [lia|]. rewrite Z.log2_lor by lia.
  destruct (Z.eq_dec a 0) as [->|]; destruct (Z.eq_dec b 0) as [->|]; try done.
  - rewrite Z.max_r by apply Z.log2_nonneg. apply Z.log2_lt_pow2; lia.
  - rewrite Z.max_l by apply Z.log2_nonneg. apply Z.log2_lt_pow2; lia.
  - apply Z.max_lub_lt; apply Z.log2_lt_pow2; lia.
Qed.

Lemma low7 n : 0 <= n -> Z.land n 127 = n mod 128.
Proof. intros. change 127 with (Z.ones 7). by rewrite Z.land_ones. Qed.

Lemma cont_byte n : 0 <= n -> Z.lor (Z.land n 127) 128 = n mod 128 + 128.
Proof.
  intros. rewrite low7 by done. change 128 with (1 * 2 ^ 7) at 2 4. apply lor_shiftl_add; [done| |done].
  apply Z.mod_pos_bound. done.
Qed.

Lemma vint_decode_loop_S fuel i n pos byte buf :
  vint_decode_loop (S fuel) i n pos (byte :: buf) =
    let n := Z.lor n (Z.shiftl (Z.land byte 127) (i * 7) mod 2 ^ 32) in
    if byte <? 128 then Ret (n, S pos) else vint_decode_loop fuel (i + 1) n (S pos) buf.
Proof. done. Qed.

Lemma vint_roundtrip_loop fuel : forall space (i : Z) acc pos n rest,
  (0 < fuel <= space)%nat -> i + Z.of_nat fuel = 5 -> 0 <= i ->
  0 <= n < 2 ^ (7 * Z.of_nat fuel) -> 0 <= acc < 2 ^ (i * 7) -> n * 2 ^ (i * 7) < 2 ^ 32 ->
  exists l, (forall E, vint_encode (E := E) n space = Ret l) /\ bytes l /\
    vint_decode_loop fuel i acc pos (l ++ rest) = Ret (acc + n * 2 ^ (i * 7), (pos + length l)%nat).
Proof.
  induction fuel as [|fuel IH]; intros space i acc pos n rest Hf Hi5 Hi Hn Hacc Hmax; [lia|].
  destruct space as [|space]; [lia|].
  assert (Hp : 0 < 2 ^ (i * 7)) by (apply Z.pow_pos_nonneg; lia).
  destruct (Z.ltb_spec n 128) as [Hlt|Hge].
  - exists [n]. split; [intros E; cbn [vint_encode]; by rewrite (proj2 (Z.ltb_lt n 128)) by done|].
    split; [repeat constructor; lia|]. cbn [app]. rewrite vint_decode_loop_S. cbv zeta.
    rewrite (proj2 (Z.ltb_lt n 128)) by done. rewrite low7, (Z.mod_small n 128) by lia.
    rewrite Z.shiftl_mul_pow2 by lia. rewrite (Z.mod_small (n * 2 ^ (i * 7))) by nia. rewrite lor_shiftl_add by lia.
    do 2 f_equal. simpl. lia.
  - destruct fuel as [|fuel]; [change (2 ^ (7 * Z.of_nat 1)) with 128 in Hn; lia|].
    assert (Hdm : n = 128 * (n / 128) + n mod 128) by (by apply Z.div_mod).
    pose proof (Z.mod_pos_bound n 128 ltac:(lia)) as Hm.
    assert (Hpow : 2 ^ ((i + 1) * 7) = 128 * 2 ^ (i * 7)).
    { replace ((i + 1) * 7) with (7 + i * 7) by lia. by rewrite Z.pow_add_r by lia. }
    assert (Hpf : 2 ^ (7 * Z.of_nat (S (S fuel))) = 128 * 2 ^ (7 * Z.of_nat (S fuel))).
    { replace (7 * Z.of_nat (S (S fuel))) with (7 + 7 * Z.of_nat (S fuel)) by lia. by rewrite Z.pow_add_r by lia. }
    assert (0 <= n / 128) by (apply Z.div_pos; lia).
    destruct (IH space (i + 1) (acc + (n mod 128) * 2 ^ (i * 7)) (S pos) (n / 128) rest) as (l & Hl & Hb & Hdec);
      [lia|lia|lia|nia|nia|nia|].
    exists (n mod 128 + 128 :: l). split.
    { intros E. cbn [vint_encode]. rewrite (proj2 (Z.ltb_ge n 128)), Z.shiftr_div_pow2 by lia. change (2 ^ 7) with 128.
      rewrite Hl. cbn [obind]. by rewrite cont_byte by lia. }
    split; [constructor; [unfold u8; lia|done]|].
    cbn [app]. rewrite vint_decode_loop_S. cbv zeta. rewrite (proj2 (Z.ltb_ge (n mod 128 + 128) 128)) by lia.
    assert (Z.land (n mod 128 + 128) 127 = n mod 128) as ->.
    { rewrite low7 by lia. symmetry. apply Z.mod_unique with 1; lia. }
    rewrite Z.shiftl_mul_pow2 by lia. rewrite (Z.mod_small (n mod 128 * 2 ^ (i * 7))) by nia.
    rewrite lor_shiftl_add by lia. rewrite Hdec. do 2 f_equal; [rewrite Hpow; nia|simpl; lia].
Qed.

Lemma vint_encode_len {E} n space l :
  0 <= n < 2 ^ 32 -> vint_encode (E := E) n (5 + space) = Ret l -> length l = vint_len n.
Proof.
  intros Hn. unfold vint_len. cbn [Nat.add vint_encode].
  rewrite !Z.shiftr_div_pow2 by lia. rewrite !Z.div_div by (simpl; lia).
  change (2 ^ 7) with 128. change (128 * 128) with 16384. change (16384 * 128) with 2097152.
  change (2097152 * 128) with 268435456.
  change (Z.shiftl 1 7) with 128. change (Z.shiftl 1 14) with 16384.
  change (Z.shiftl 1 21) with 2097152. change (Z.shiftl 1 28) with 268435456.
  destruct (Z.ltb_spec n 128); [by intros [= <-]|].
  destruct (Z.ltb_spec (n / 128) 128), (Z.ltb_spec n 16384); try (Z.div_mod_to_equations; lia); [by intros [= <-]|].
  destruct (Z.ltb_spec (n / 16384) 128), (Z.ltb_spec n 2097152); try (Z.div_mod_to_equations; lia); [by intros [= <-]|].
  destruct (Z.ltb_spec (n / 2097152) 128), (Z.ltb_spec n 268435456); try (Z.div_mod_to_equations; lia); [by intros [= <-]|].
  destruct (Z.ltb_spec (n / 268435456) 128); [by intros [= <-]|Z.div_mod_to_equations; lia].
Qed.

Lemma vint_roundtrip_aux n space rest :
  0 <= n < 2 ^ 32 ->
  exists l, (forall E, vint_encode (E := E) n (5 + space) = Ret l) /\ bytes l /\ length l = vint_len n /\
    vint_decode (l ++ rest) = Ret (n, length l).
Proof.
  intros Hn. destruct (vint_roundtrip_loop 5 (5 + space) 0 0 0 n rest) as (l & Hl & Hb & Hd);
    [lia|lia|lia|change (2 ^ (7 * Z.of_nat 5)) with (2 ^ 35); lia|simpl; lia|simpl; lia|].
  exists l. split_and!; [done..|by eapply vint_encode_len, (Hl unit)|]. unfold vint_decode. rewrite Hd. do 2 f_equal. simpl. lia.
Qed.

Lemma vint_len_bounds n : (1 <= vint_len n <= 5)%nat.
Proof. unfold vint_len. repeat case_match; lia. Qed.

(** ** The checksum *)

Lemma fletcher16_range buf : 0 <= fletcher16 buf < 2 ^ 16.
Proof.
  unfold fletcher16.
  assert (Hinv : forall c, u8 c.1 -> u8 c.2 ->
    let r := fold_left (fun c byte => let c0 := (c.1 + byte) mod 256 in (c0, (c.2 + c0) mod 256)) buf c in
    u8 r.1 /\ u8 r.2).
  { induction buf as [|b buf IH]; intros c H1 H2; [done|]. cbn [fold_left]. apply IH; apply Z.mod_pos_bound; lia. }
  destruct (Hinv (0, 0)) as [H1 H2]; [done..|]. cbv zeta in H1, H2. destruct (fold_left _ buf _) as [c0 c1].
  simpl in H1, H2. unfold u8 in *. rewrite Z.shiftl_mul_pow2 by lia. rewrite Z.lor_comm.
  rewrite lor_shiftl_add by lia. lia.
Qed.

Lemma le_bytes16_roundtrip x : 0 <= x < 2 ^ 16 -> from_le_bytes16 (to_le_bytes16 x) = x /\ bytes (to_le_bytes16 x).
Proof.
  intros Hx. simpl. split; [Z.div_mod_to_equations; lia|]. repeat constructor; try apply Z.mod_pos_bound; lia.
Qed.

(** ** Encoding an id *)

Lemma to_binary_ok id :
  valid_id id ->
  exists t buf, (forall E, to_binary (E := E) id = Ret buf) /\ bytes buf /\
    (forall rest, vint_decode (t ++ rest) = Ret (table id, length t)) /\
    buf = (t ++ internal_id id) ++ to_le_bytes16 (fletcher16 (t ++ internal_id id)) /\
    length t = vint_len (table id).
Proof.
  intros (Ht & Hl & Hb).
  assert (Hrt : forall rest, exists l, (forall E, vint_encode (E := E) (table id) MAX_BINARY_LEN = Ret l) /\ bytes l /\
    length l = vint_len (table id) /\ vint_decode (l ++ rest) = Ret (table id, length l)).
  { intros rest. apply (vint_roundtrip_aux (table id) 18 rest). lia. }
  destruct (Hrt []) as (t & Hvi & Hbt & Hlen & _). pose proof (vint_len_bounds (table id)) as Hvl.
  exists t, ((t ++ internal_id id) ++ to_le_bytes16 (fletcher16 (t ++ internal_id id))).
  split_and!; [|apply bytes_app; split; [by apply bytes_app|]| |done|done].
  - intros E. unfold to_binary. rewrite Hvi. cbn [obind]. unfold VERSION. rewrite Z.lxor_0_r.
    assert (Hle : (length (t ++ internal_id id) + 2 <= MAX_BINARY_LEN)%nat) by (rewrite length_app; unfold MAX_BINARY_LEN,
      MAX_TABLE_NUMBER_LEN, INTERNAL_ID_LEN, FOOTER_LEN; lia).
    rewrite (proj2 (Nat.leb_le (length (t ++ internal_id id)) _)) by lia. cbn [rassert obind].
    rewrite (proj2 (Nat.leb_le (length (_ ++ to_le_bytes16 _)) _)) by (rewrite (length_app _ (to_le_bytes16 _)); simpl length; lia).
    done.
  - apply le_bytes16_roundtrip, fletcher16_range.
  - intros rest. destruct (Hrt rest) as (t' & Hvi' & _ & _ & Hd). specialize (Hvi unit). rewrite Hvi' in Hvi. injection Hvi as ->. done.
Qed.

Lemma encode_ok id :
  valid_id id ->
  exists t buf, (forall E, encode (E := E) id = Ret (map alph (indexes_of buf))) /\ bytes buf /\
    (forall rest, vint_decode (t ++ rest) = Ret (table id, length t)) /\
    buf = (t ++ internal_id id) ++ to_le_bytes16 (fletcher16 (t ++ internal_id id)) /\
    length t = vint_len (table id).
Proof.
  intros Hv. destruct (to_binary_ok id Hv) as (t & buf & Hbin & Hb & Hd & Hbuf & Hlt).
  exists t, buf. split_and!; [|done..]. intros E. unfold encode, encode_into. rewrite Hbin. cbn [obind].
  assert (Hlen : (length buf <= 23)%nat).
  { rewrite Hbuf, !length_app, Hlt. destruct Hv as (_ & -> & _). pose proof (vint_len_bounds (table id)). simpl length. lia. }
  destruct (Base32.encode_into_ok (replicate (encoded_buffer_len MAX_BINARY_LEN) 0) buf 5)
    as (out & -> & Hout); [done|by rewrite length_replicate| |].
  - unfold div_ceil. assert ((length buf + 5 - 1) / 5 < 6)%nat; [|lia]. apply Nat.Div0.div_lt_upper_bound. lia.
  - cbn [obind]. rewrite Hout. unfold unwrap_utf8. by rewrite utf8_alph by (by apply indexes_of_index).
Qed.

Lemma slice_app a b c n : length b = n -> slice (a ++ b ++ c) (length a) n = Some b.
Proof.
  intros Hn. unfold slice. rewrite !length_app. rewrite (proj2 (Nat.leb_le _ _)) by lia.
  rewrite drop_app_length. by rewrite take_app_length' by done.
Qed.

Lemma id_length_range n : (19 <= n <= 23)%nat ->
  (Base32.encoded_len n <? MIN_BASE32_LEN)%nat || (MAX_BASE32_LEN <? Base32.encoded_len n)%nat = false.
Proof.
  intros Hn. assert (n = 19 \/ n = 20 \/ n = 21 \/ n = 22 \/ n = 23)%nat as H by lia.
  by destruct H as [->|[->|[->|[->| ->]]]].
Qed.

Lemma decode_encode id s : valid_id id -> encode (E := IdDecodeError) id = Ret s -> decode s = Ret id.
Proof.
  intros Hv Henc. pose proof Hv as (Ht & Hl & Hb).
  destruct (encode_ok id Hv) as (t & buf & Henc' & Hbuf & Hvd & Heq & Hlt).
  pose proof (vint_len_bounds (table id)) as Hvl.
  assert (Hs : s = map alph (indexes_of buf)) by (specialize (Henc' IdDecodeError); congruence).
  assert (Hlen : length buf = (length t + 16 + 2)%nat) by (rewrite Heq, !length_app, Hl; simpl length; lia).
  assert (Hta : (length t + 16)%nat = length (t ++ internal_id id)) by (rewrite length_app; lia).
  assert (Hdec : vint_decode buf = Ret (table id, length t)) by (by rewrite Heq, <- app_assoc, Hvd).
  assert (Hs1 : slice buf (length t) 16 = Some (internal_id id)) by (rewrite Heq, <- app_assoc; by apply slice_app).
  assert (Hs2 : slice buf (length t + 16) 2 = Some (to_le_bytes16 (fletcher16 (t ++ internal_id id)))).
  { rewrite Hta, Heq, <- (app_nil_r (to_le_bytes16 _)). by apply slice_app. }
  assert (Htk : take (length t + 16) buf = t ++ internal_id id) by (rewrite Hta, Heq; by apply take_app_length).
  unfold decode. rewrite Hs at 1 2. rewrite length_map, length_indexes_of, id_length_range by lia.
  rewrite Hs at 1. rewrite decode_alph, regroup_indexes by (try apply indexes_of_index; done). cbn [lift_err obind].
  rewrite Hdec. cbn [lift_err obind]. rewrite (proj2 (Z.ltb_lt 0 (table id))) by lia. cbn [ensure obind].
  rewrite Hs1. cbn [ok_or obind]. rewrite Hs2, Htk. cbn [ok_or obind].
  unfold VERSION. rewrite Z.lxor_0_r, (proj1 (le_bytes16_roundtrip _ (fletcher16_range _))), Z.eqb_refl.
  cbn [ensure obind]. rewrite Hlen, Nat.eqb_refl. cbn [ensure obind].
  assert (MkId (table id) (internal_id id) = id) as -> by (by destruct id). rewrite Henc. cbn [obind].
  by rewrite bool_decide_true.
Qed.

(** ** Decoding only accepts canonical encodings, and never panics *)

Lemma vint_decode_loop_range fuel i n pos buf r :
  0 <= i -> bytes buf -> 0 <= n < 2 ^ 32 -> vint_decode_loop fuel i n pos buf = Ret r -> 0 <= r.1 < 2 ^ 32.
Proof.
  revert i n pos buf. induction fuel as [|fuel IH]; intros i n pos [|b buf] Hi Hb Hn; try done.
  apply bytes_cons in Hb as [_ Hb]. rewrite vint_decode_loop_S. cbv zeta.
  set (n' := Z.lor n _). assert (0 <= n' < 2 ^ 32) by (apply lor_lt; [lia..|by apply Z.mod_pos_bound]).
  destruct (b <? 128); [by intros [= <-]|]. apply IH; [lia|done|done].
Qed.

Lemma vint_decode_no_panic fuel i n pos buf : vint_decode_loop fuel i n pos buf <> Panic.
Proof.
  revert i n pos buf. induction fuel as [|fuel IH]; intros i n pos [|b buf]; try done.
  rewrite vint_decode_loop_S. cbv zeta. by destruct (b <? 128).
Qed.

Lemma slice_Some buf pos n l : slice buf pos n = Some l -> length l = n /\ (bytes buf -> bytes l).
Proof.
  unfold slice. destruct (Nat.leb_spec (pos + n) (length buf)); [|done]. intros [= <-].
  split; [rewrite length_take, length_drop; lia|]. intros. by apply Forall_take, Forall_drop.
Qed.

Lemma decode_total s :
  bytes s ->
  match decode s with
  | Ret id => valid_id id /\ encode (E := IdDecodeError) id = Ret s
  | Err _ => True
  | Panic => False
  end.
Proof.
  intros Hs. unfold decode. destruct ((length s <? MIN_BASE32_LEN)%nat || (MAX_BASE32_LEN <? length s)%nat); [done|].
  pose proof (Base32.base32_decode_total s Hs) as Hbuf. destruct (Base32.decode s) as [buf| |]; cbn [lift_err obind]; [|done..].
  destruct (vint_decode buf) as [[tn pos]| |] eqn:Hv; cbn [lift_err obind]; [|done|by apply vint_decode_no_panic in Hv].
  apply vint_decode_loop_range in Hv; [|lia|done|lia]. cbn [fst] in Hv.
  destruct (Z.ltb_spec 0 tn); cbn [ensure obind]; [|done].
  destruct (slice buf pos 16) as [iid|] eqn:Hs1; cbn [ok_or obind]; [|done].
  destruct (slice buf (pos + 16) 2) as [ft|]; cbn [ok_or obind]; [|done].
  destruct (_ =? _); cbn [ensure obind]; [|done]. destruct (_ =? _)%nat; cbn [ensure obind]; [|done].
  apply slice_Some in Hs1 as [Hl Hb].
  assert (Hvid : valid_id (MkId tn iid)) by (unfold valid_id; simpl; split_and!; [lia|lia|done|by apply Hb]).
  destruct (encode_ok _ Hvid) as (t & b & Henc & _). rewrite Henc. cbn [obind].
  destruct (bool_decide _) eqn:Hbd; cbn [ensure obind]; [|done]. apply bool_decide_eq_true_1 in Hbd. by subst.
Qed.

(** The test vector of [test_document_id_stability]. *)
Example document_id_stability :
  encode (E := unit)
    (MkId 1017 (fold_left (fun l _ => l ++ [(default 0 (last l) * 251) mod 256]) (seq 0 15) [251]))
  = Ret [122; 52; 51; 122; 112; 54; 99; 51; 101; 55; 53; 103; 107; 109; 122; 49;
         107; 102; 119; 106; 54; 109; 98; 98; 120; 53; 115; 119; 50; 56; 49; 104].
Proof. vm_compute. reflexivity. Qed.

(** ** Theorems *)

(** VInt round trip: a [u32] is written in [vint_len] bytes and read back
    from them, whatever follows. *)
Theorem vint_roundtrip {E} (n : Z) (space : nat) (rest : list Z) :
  0 <= n < 2 ^ 32 -> (5 <= space)%nat ->
  exists l, vint_encode (E := E) n space = Ret l /\ length l = vint_len n /\
    vint_decode (l ++ rest) = Ret (n, length l).
Proof.
  intros Hn Hsp. destruct (vint_roundtrip_aux n (space - 5) rest Hn) as (l & Hl & _ & Hlen & Hd). specialize (Hl E).
  exists l. replace (5 + (space - 5))%nat with space in Hl by lia. done.
Qed.

Lemma vint_roundtrip_witness :
  exists l, vint_encode (E := unit) 4294967295 6 = Ret l /\ length l = vint_len 4294967295 /\
    vint_decode (l ++ [1; 2]) = Ret (4294967295, length l).
Proof. exact (vint_roundtrip 4294967295 6 [1; 2] ltac:(lia) ltac:(lia)). Defined.

(** Document ids round-trip: encoding an id never panics, the string has
    the length [encoded_len] computes, and decoding it gives the id back. *)
Theorem id_roundtrip (id : DeveloperDocumentId) :
  valid_id id ->
  exists s, encode (E := IdDecodeError) id = Ret s /\ length s = encoded_len id /\ decode s = Ret id.
Proof.
  intros Hv. destruct (encode_ok id Hv) as (t & buf & Henc & _ & _ & Heq & Hlt).
  eexists. split; [done|]. split; [|by apply decode_encode].
  rewrite length_map, length_indexes_of. unfold encoded_len. f_equal.
  destruct Hv as (_ & Hl & _). rewrite Heq, !length_app, Hl, Hlt. simpl length. lia.
Qed.

Lemma id_roundtrip_witness :
  exists s, encode (E := IdDecodeError) (MkId 10001 (replicate 16 255)) = Ret s /\
    length s = encoded_len (MkId 10001 (replicate 16 255)) /\ decode s = Ret (MkId 10001 (replicate 16 255)).
Proof.
  exact (id_roundtrip (MkId 10001 (replicate 16 255)) ltac:(apply (bool_decide_unpack _); vm_compute; exact I)).
Defined.

(** [decode] is one-to-one and total: on any byte string it returns a
    well-formed id whose encoding is that very string, or an error; it never
    panics. *)
Theorem id_decode_canonical (s : list Z) :
  bytes s ->
  match decode s with
  | Ret id => valid_id id /\ encode (E := IdDecodeError) id = Ret s
  | Err _ => True
  | Panic => False
  end.
Proof. apply decode_total. Qed.

Lemma id_decode_canonical_witness :
  let s := [122; 52; 51; 122; 112; 54; 99; 51; 101; 55; 53; 103; 107; 109; 122; 49;
            107; 102; 119; 106; 54; 109; 98; 98; 120; 53; 115; 119; 50; 56; 49; 104] in
  match decode s with
  | Ret id => valid_id id /\ encode (E := IdDecodeError) id = Ret s
  | Err _ => True
  | Panic => False
  end.
Proof. cbv zeta. apply id_decode_canonical. apply (bool_decide_unpack _). vm_compute. exact I. Defined.
