(* ===== verification/Document.v ===== *)
(** * Document: documents, index names and index keys
      (src/crates/common/src/document.rs, src/crates/common/src/index.rs,
       src/crates/common/src/types/index.rs,
       src/crates/common/src/document_index_keys.rs,
       src/crates/packed_value/src/lib.rs)

    A [PackedDocument] holds a packed value; packing only changes the memory
    layout, so the value is a [ConvexValue] here and [open_path] walks it the
    way [PackedValue::open_path] does.  [index_key] is the optimised routine
    that writes an index key without unpacking the document; the reference is
    [ResolvedDocument::index_key] followed by [IndexKey::to_bytes]. *)

From S2P Require Import Prelude Ord BTreeMap Identifier Value Sorting SortingDecode Base32 IdV6.

Local Open Scope Z_scope.

(** [TabletId] and [InternalId] are 16 bytes. *)
Notation TabletId := (list Z) (only parsing).
Notation InternalId := (list Z) (only parsing).
Notation IndexDescriptor := (list Z) (only parsing).

(** [TabletIndexName]: ordered by table, then descriptor. *)
Notation TabletIndexName := (list Z * list Z)%type (only parsing).

Definition table_of (n : TabletIndexName) : TabletId := n.1.
Definition descriptor (n : TabletIndexName) : IndexDescriptor := n.2.

(** ["by_id"], ["by_creation_time"], [IndexDescriptor::MIN]. *)
Definition INDEX_BY_ID_DESCRIPTOR : IndexDescriptor := [98; 121; 95; 105; 100].
Definition INDEX_BY_CREATION_TIME_DESCRIPTOR : IndexDescriptor :=
  [98; 121; 95; 99; 114; 101; 97; 116; 105; 111; 110; 95; 116; 105; 109; 101].
Definition DESCRIPTOR_MIN : IndexDescriptor := MIN_IDENTIFIER.

Definition is_reserved (self : IndexDescriptor) : bool :=
  bool_decide (self = INDEX_BY_ID_DESCRIPTOR) || bool_decide (self = INDEX_BY_CREATION_TIME_DESCRIPTOR)
  || is_system self.

Inductive name_error := BadDescriptor (e : ident_error) | NameReserved | NotReserved.

(** [GenericIndexName::new], [new_reserved], [by_id], [by_creation_time], [min_for_table]. *)
Definition index_name_new (table : TabletId) (d : IndexDescriptor) : outcome name_error TabletIndexName :=
  lift_err BadDescriptor (check_valid_identifier d) ;?
  ensure (negb (is_reserved d)) NameReserved ;?
  Ret (table, d).
Definition index_name_new_reserved (table : TabletId) (d : IndexDescriptor) : outcome name_error TabletIndexName :=
  lift_err BadDescriptor (check_valid_identifier d) ;?
  ensure (is_reserved d) NotReserved ;?
  Ret (table, d).
Definition by_id (table : TabletId) : TabletIndexName := (table, INDEX_BY_ID_DESCRIPTOR).
Definition by_creation_time (table : TabletId) : TabletIndexName := (table, INDEX_BY_CREATION_TIME_DESCRIPTOR).
Definition min_for_table (table : TabletId) : TabletIndexName := (table, DESCRIPTOR_MIN).

Record ResolvedDocumentId := MkResolved { tablet_id : TabletId; developer_id : DeveloperDocumentId }.

#[global] Instance ResolvedDocumentId_EqDecision : EqDecision ResolvedDocumentId.
Proof. solve_decision. Defined.

(** [PackedDocument(PackedValue, ResolvedDocumentId)]. *)
Record PackedDocument := MkDoc { value : ConvexValue; id : ResolvedDocumentId }.

(** [PackedValue::open_path]. *)
Definition open_path (self : ConvexValue) (field_path : FieldPath) : option ConvexValue :=
  match field_path with
  | [] => None
  | _ => get_path_loop self field_path
  end.

(** [PackedDocument::index_key]. *)
Definition index_key {E} (self : PackedDocument) (fields : list FieldPath) : outcome E (list Z) :=
  let? out := foldM (fun out field_path => write_sort_key_or_undefined (open_path (value self) field_path) out)
                [] fields in
  let? encoded := IdV6.encode (developer_id (id self)) in
  write_sort_key (String encoded) out.

(** ** The reference: [IndexKey] *)

Record IndexKey := { values_with_id : list (option ConvexValue); key_id : DeveloperDocumentId }.

(** [impl From<DeveloperDocumentId> for ConvexValue]. *)
Definition id_to_value {E} (i : DeveloperDocumentId) : outcome E ConvexValue :=
  let? s := IdV6.encode i in
  match ConvexString_try_from s with Ret v => Ret v | _ => Panic end.

Definition new_allow_missing {E} (index_values : list (option ConvexValue)) (i : DeveloperDocumentId)
    : outcome E IndexKey :=
  let? id_value := id_to_value i in
  Ret {| values_with_id := index_values ++ [Some id_value]; key_id := i |}.

(** [IndexKey::indexed_values]. *)
Definition indexed_values (k : IndexKey) : list (option ConvexValue) :=
  take (length (values_with_id k) - 1) (values_with_id k).

Definition to_bytes {E} (k : IndexKey) : outcome E (list Z) := values_to_bytes (values_with_id k).

(** [ResolvedDocument::index_key]: the document's value is an object. *)
Definition resolved_index_key {E} (doc_fields : BTreeMap.t (list Z) ConvexValue) (i : DeveloperDocumentId)
    (fields : list FieldPath) : outcome E IndexKey :=
  let values := map (fun field => get_path doc_fields field) fields in
  new_allow_missing values i.

(** ** [SplitKey] *)

Definition MAX_INDEX_KEY_PREFIX_LEN : nat := 2500.

Record SplitKey := { split_prefix : list Z; split_suffix : option (list Z) }.

Definition SplitKey_new (key : list Z) : SplitKey :=
  if (MAX_INDEX_KEY_PREFIX_LEN <? length key)%nat then
    {| split_prefix := take MAX_INDEX_KEY_PREFIX_LEN key; split_suffix := Some (drop MAX_INDEX_KEY_PREFIX_LEN key) |}
  else {| split_prefix := key; split_suffix := None |}.

(** ** Index keys of a document ([DocumentIndexKeys]) *)

(** [SearchValueTokens]: the distinct tokens of a text. *)
Notation SearchValueTokens := (list (list Z)) (only parsing).

(** [FilterValue]: bytes. *)
Notation FilterValue := (list Z) (only parsing).

Record SearchIndexKeyValue := {
  filter_values : BTreeMap.t (list (list Z)) FilterValue;
  search_field : list (list Z);
  search_field_value : option SearchValueTokens;
}.

Inductive DocumentIndexKeyValue :=
| Standard (key : list Z)
| Search (v : SearchIndexKeyValue).

Notation DocumentIndexKeys := (BTreeMap.t (list Z * list Z) DocumentIndexKeyValue) (only parsing).

(** [token.char_indices().skip(1)]: the byte offsets where a later character
    starts, i.e. where the byte is not a UTF-8 continuation byte. *)
Definition char_starts (token : list Z) : list nat :=
  bfilter (fun i => negb (cont (default 0 (token !! i)))) (seq 1 (length token - 1)).

Definition insert_token (x : list Z) (set : list (list Z)) : list (list Z) :=
  if existsb (fun y => bool_decide (y = x)) set then set else set ++ [x].

(** One round of the loop of [calculate_prefixes]; a [HashSet] has no order,
    the list is one enumeration of it. *)
Definition add_prefixes (set : list (list Z)) (token : list Z) : list (list Z) :=
  if existsb (fun y => bool_decide (y = token)) set then set
  else fold_left (fun set i => insert_token (take i token) set) (char_starts token) (set ++ [token]).

Definition calculate_prefixes (tokens : SearchValueTokens) : list (list Z) :=
  fold_left add_prefixes tokens [].

(** [for_each_token]: the tokens the closure is called with. *)
Definition for_each_token (self : SearchValueTokens) (prefix : bool) : list (list Z) :=
  if prefix then calculate_prefixes self else self.

(** ** Index keys *)

Lemma open_path_get_path o p : open_path (Object o) p = get_path o p.
Proof. by destruct p. Qed.

(** A document as the database stores it: an object of valid values without
    empty field names, and a well-formed id. *)
Definition good_doc (d : PackedDocument) : Prop :=
  (exists o, value d = Object o) /\ good (value d) /\ valid_id (developer_id (id d)).

Lemma get_path_loop_good v p w : good v -> get_path_loop v p = Some w -> good w.
Proof.
  revert v. induction p as [|f p IH]; intros v Hv; simpl; [by intros [= <-]|].
  destruct v as [| | | | | | |o]; try done. destruct (BTreeMap.get f o) as [v'|] eqn:Hg; [|done].
  destruct Hv as [Hv Hn]. apply valid_Object in Hv as (_ & Hwf & Hv). rewrite named_Object in Hn.
  apply BTreeMap.elem_of_get in Hg; [|done]. apply IH. split; [by apply (Hv _ Hg)|by apply (Hn _ Hg)].
Qed.

Lemma open_path_good v p : good v -> good_opt (open_path v p).
Proof.
  intros Hv. unfold open_path, good_opt. destruct p as [|f p]; [done|].
  destruct (get_path_loop v (f :: p)) eqn:Hg; [|done]. by eapply get_path_loop_good.
Qed.

(** The text of a well-formed id, as a value. *)
Definition id_value (i : DeveloperDocumentId) : ConvexValue :=
  match IdV6.encode (E := unit) i with Ret s => String s | _ => Null end.

Lemma all_bytes_alph idx : Forall index idx -> bytes (map alph idx).
Proof.
  induction 1 as [|i idx Hi _ IH]; [constructor|]. constructor; [|done]. unfold u8.
  destruct (alph_spec i Hi) as (_ & _ & Hlt). split; [|lia].
  unfold alph. destruct (ALPHABET !! Z.to_nat i) as [c|] eqn:Hl; [|done]. simpl.
  assert (Hall : Forall (fun c => 0 <= c) ALPHABET) by (repeat constructor; lia).
  rewrite Forall_forall in Hall. apply Hall. by eapply list_elem_of_lookup_2.
Qed.

Lemma id_encode_value i :
  valid_id i -> exists s, (forall E, IdV6.encode (E := E) i = Ret s) /\ id_value i = String s /\ good (String s) /\
    IdV6.decode s = Ret i /\ (forall E, id_to_value (E := E) i = Ret (String s)).
Proof.
  intros Hv. destruct (IdV6.encode_ok i Hv) as (t & buf & Henc & Hb & _ & Heq & Hlt).
  set (s := map alph (indexes_of buf)) in *.
  assert (Hlen : (length s <= 40)%nat).
  { unfold s. rewrite length_map, length_indexes_of, Heq, !length_app, Hlt.
    destruct Hv as (_ & -> & _). pose proof (vint_len_bounds (table i)).
    assert (Hc : (vint_len (table i) = 1 \/ vint_len (table i) = 2 \/ vint_len (table i) = 3 \/
      vint_len (table i) = 4 \/ vint_len (table i) = 5)%nat) by lia.
    destruct Hc as [->|[->|[->|[->| ->]]]]; vm_compute; lia. }
  assert (Hsz : size (String s) <= MAX_SIZE) by (cbn [size]; unfold zlen; change MAX_SIZE with 33554432; lia).
  exists s. split_and!; [done| | |by apply IdV6.decode_encode|].
  - unfold id_value. by rewrite Henc.
  - split; [|done]. cbn [valid]. rewrite !andb_true_iff. split_and!.
    + by apply bool_decide_eq_true_2, all_bytes_alph, indexes_of_index.
    + by apply utf8_alph, indexes_of_index.
    + by apply Z.leb_le.
  - intros E. unfold id_to_value. rewrite Henc. cbn [obind]. unfold ConvexString_try_from, check_system_size.
    cbn [size] in Hsz. by rewrite (proj2 (Z.ltb_ge _ _)).
Qed.

(** The values an index entry of the document is ordered by. *)
Definition index_values (d : PackedDocument) (fields : list FieldPath) : list (option ConvexValue) :=
  map (fun f => open_path (value d) f) fields ++ [Some (id_value (developer_id (id d)))].

Lemma index_values_good d fields : good_doc d -> Forall good_opt (index_values d fields).
Proof.
  intros (_ & Hv & Hid). unfold index_values. apply Forall_app. split.
  - apply Forall_map, Forall_forall. intros f _. by apply open_path_good.
  - constructor; [|constructor]. destruct (id_encode_value _ Hid) as (s & _ & -> & Hg & _). done.
Qed.

Lemma index_key_enc {E} d fields :
  good_doc d -> index_key (E := E) d fields = Ret (concat (map enc_opt (index_values d fields))).
Proof.
  intros Hd. pose proof Hd as (_ & Hv & Hid). unfold index_key.
  rewrite (foldM_append _ (fun f => enc_opt (open_path (value d) f))).
  2:{ intros f w _. pose proof (open_path_good (value d) f Hv) as Hg.
      destruct (open_path (value d) f) as [v|]; simpl; [|done]. by apply write_sort_key_enc, Hg. }
  cbn [obind app]. destruct (id_encode_value _ Hid) as (s & Henc & Hval & [Hg _] & _).
  rewrite Henc. cbn [obind]. rewrite write_sort_key_enc by done.
  unfold index_values. rewrite map_app, concat_app, map_map, Hval. cbn [map concat enc_opt]. by rewrite app_nil_r.
Qed.

Lemma resolved_index_key_ok {E} d o fields :
  good_doc d -> value d = Object o ->
  exists k, resolved_index_key (E := E) o (developer_id (id d)) fields = Ret k /\
    values_with_id k = index_values d fields.
Proof.
  intros (_ & Hv & Hid) Ho. unfold resolved_index_key, new_allow_missing.
  destruct (id_encode_value _ Hid) as (s & _ & Hval & _ & _ & Hto). rewrite Hto. cbn [obind]. eexists. split; [done|].
  simpl. unfold index_values. rewrite Hval, Ho. f_equal. apply map_ext. intros f. by rewrite open_path_get_path.
Qed.

(** *** Splitting long keys *)

Lemma cmp_app_take (k p r : list Z) :
  (length k <= length p)%nat -> cmp k (p ++ r) = lex_cmp (cmp k p) (cmp [] r).
Proof.
  revert p. induction k as [|x k IH]; intros [|y p] Hl; simpl in *; try lia.
  - by destruct r.
  - done.
  - rewrite !cmp_cons, lex_cmp_assoc, <- IH by lia. done.
Qed.

Lemma cmp_app_same_length (p q r s : list Z) :
  length p = length q -> cmp (p ++ r) (q ++ s) = lex_cmp (cmp p q) (cmp r s).
Proof.
  revert q. induction p as [|x p IH]; intros [|y q] Hl; simpl in *; try lia; [done|].
  rewrite !cmp_cons, lex_cmp_assoc, <- IH by lia. done.
Qed.

Definition split_join (k : SplitKey) : list Z :=
  split_prefix k ++ match split_suffix k with Some s => s | None => [] end.

(** Order of the persisted form: prefix first, then the suffix ([NULL] first). *)
Definition split_cmp (a b : SplitKey) : comparison :=
  lex_cmp (cmp (split_prefix a) (split_prefix b)) (cmp (split_suffix a) (split_suffix b)).

Lemma split_key_cases key :
  (SplitKey_new key = {| split_prefix := key; split_suffix := None |} /\ (length key <= MAX_INDEX_KEY_PREFIX_LEN)%nat) \/
  (exists p s, key = p ++ s /\ length p = MAX_INDEX_KEY_PREFIX_LEN /\ s <> [] /\
     SplitKey_new key = {| split_prefix := p; split_suffix := Some s |}).
Proof.
  unfold SplitKey_new. destruct (Nat.ltb_spec MAX_INDEX_KEY_PREFIX_LEN (length key)) as [Hlt|Hge]; [right|by left].
  exists (take MAX_INDEX_KEY_PREFIX_LEN key), (drop MAX_INDEX_KEY_PREFIX_LEN key).
  split_and!; [by rewrite take_drop|rewrite length_take; lia| |done].
  intros Hnil%(f_equal length). rewrite length_drop in Hnil. simpl in Hnil. lia.
Qed.

Lemma split_key_order_aux k1 k2 : split_cmp (SplitKey_new k1) (SplitKey_new k2) = cmp k1 k2.
Proof.
  destruct (split_key_cases k1) as [[-> H1]|(p1 & s1 & -> & H1 & Hn1 & ->)],
    (split_key_cases k2) as [[-> H2]|(p2 & s2 & -> & H2 & Hn2 & ->)]; unfold split_cmp; cbn [split_prefix split_suffix].
  - by destruct (cmp k1 k2).
  - rewrite cmp_app_take by lia. by destruct s2.
  - rewrite (cmp_opp k2 (p1 ++ s1)), cmp_app_take, (cmp_opp k2 p1) by lia. destruct s1; [done|]. by destruct (cmp k2 p1).
  - rewrite cmp_app_same_length by lia. done.
Qed.

(** *** Prefix tokens *)

Lemma elem_of_insert_token x set y : y ∈ insert_token x set <-> y ∈ set \/ y = x.
Proof.
  unfold insert_token. destruct (existsb _ set) eqn:He.
  - apply existsb_elem in He as (z & Hz & Hb). apply bool_decide_eq_true_1 in Hb as ->. naive_solver.
  - rewrite elem_of_app, list_elem_of_singleton. done.
Qed.

(** The proper prefixes of a token that end at a character boundary. *)
Definition char_prefix (token p : list Z) : Prop := exists i, i ∈ char_starts token /\ p = take i token.

Lemma elem_of_insert_prefixes t idx acc p :
  p ∈ fold_left (fun set i => insert_token (take i t) set) idx acc <-> p ∈ acc \/ exists i, i ∈ idx /\ p = take i t.
Proof.
  revert acc. induction idx as [|i idx IH]; intros acc; cbn [fold_left].
  - split; [by left|]. intros [?|(i & Hi & _)]; [done|by apply elem_of_nil in Hi].
  - rewrite IH, elem_of_insert_token. setoid_rewrite elem_of_cons. naive_solver.
Qed.

Lemma char_starts_spec t i :
  i ∈ char_starts t <-> (1 <= i < length t)%nat /\ cont (default 0 (t !! i)) = false.
Proof.
  unfold char_starts. rewrite elem_of_bfilter, negb_true_iff, elem_of_seq. split; intros [? ?]; split; try done; lia.
Qed.

(** A character prefix of a character prefix is one of the token. *)
Lemma char_prefix_trans t p q : char_prefix t p -> char_prefix p q -> char_prefix t q.
Proof.
  intros (i & Hi & ->) (j & Hj & ->). apply char_starts_spec in Hi as [Hi Hci]. apply char_starts_spec in Hj as [Hj Hcj].
  rewrite length_take in Hj. exists j. split.
  - apply char_starts_spec. split; [lia|]. by rewrite lookup_take_lt in Hcj by lia.
  - rewrite take_take. f_equal. lia.
Qed.

Definition prefix_closed (set : list (list Z)) : Prop := forall p q, p ∈ set -> char_prefix p q -> q ∈ set.

Lemma elem_of_add_prefixes set t p :
  prefix_closed set -> p ∈ add_prefixes set t <-> p ∈ set \/ p = t \/ char_prefix t p.
Proof.
  intros Hc. unfold add_prefixes. destruct (existsb _ set) eqn:He.
  - apply existsb_elem in He as (z & Hz & Hb). apply bool_decide_eq_true_1 in Hb as ->.
    split; [by left|]. intros [?|[->|?]]; [done..|by eapply Hc].
  - rewrite elem_of_insert_prefixes, elem_of_app, list_elem_of_singleton. unfold char_prefix. naive_solver.
Qed.

Lemma add_prefixes_closed set t : prefix_closed set -> prefix_closed (add_prefixes set t).
Proof.
  intros Hc a b Ha Hab. apply (elem_of_add_prefixes set t a Hc) in Ha. apply (elem_of_add_prefixes set t b Hc).
  destruct Ha as [?|[->|?]]; [left; by eapply Hc|by right; right|right; right; by eapply char_prefix_trans].
Qed.

Lemma calculate_prefixes_spec tokens p :
  p ∈ calculate_prefixes tokens <-> exists t, t ∈ tokens /\ (p = t \/ char_prefix t p).
Proof.
  unfold calculate_prefixes.
  assert (Hgen : forall set, prefix_closed set ->
    p ∈ fold_left add_prefixes tokens set <-> p ∈ set \/ exists t, t ∈ tokens /\ (p = t \/ char_prefix t p)).
  { induction tokens as [|t tokens IH]; intros set Hc; cbn [fold_left].
    { split; [by left|]. intros [?|(t & Ht & _)]; [done|by apply elem_of_nil in Ht]. }
    rewrite IH, elem_of_add_prefixes by (try done; by apply add_prefixes_closed).
    setoid_rewrite elem_of_cons. naive_solver. }
  rewrite Hgen by (intros a b Ha; by apply elem_of_nil in Ha). rewrite elem_of_nil. naive_solver.
Qed.

(** Equal tuples of the same length have equal last components. *)
Lemma lexicographic_last vs ws v w :
  length vs = length ws -> lexicographic opt_cmp (vs ++ [Some v]) (ws ++ [Some w]) = Eq -> value_cmp v w = Eq.
Proof.
  revert ws. induction vs as [|x vs IH]; intros [|y ws] Hl; simpl in *; try lia.
  - by destruct (value_cmp v w).
  - destruct (opt_cmp x y); simpl; [|done..]. apply IH. lia.
Qed.

(** *** Ranges of index names *)

(** [map.range(min_for_table(t)..).take_while(|name| name.table() == t)] is all
    the entries of table [t], when the names are valid. *)
Lemma elem_of_table_range {V} (m : BTreeMap.t (list Z * list Z) V) t e :
  BTreeMap.wf m -> (forall e, e ∈ m -> is_valid_identifier e.1.2 = true) ->
  e ∈ take_while (fun e => bool_decide (e.1.1 = t)) (BTreeMap.range_from (min_for_table t) m)
  <-> e ∈ m /\ e.1.1 = t.
Proof.
  intros Hwf Hv. rewrite BTreeMap.take_while_downward; [|by apply BTreeMap.wf_bfilter|].
  - unfold BTreeMap.range_from. rewrite !elem_of_bfilter, bool_decide_eq_true, leb_le. split; [naive_solver|].
    intros [He Ht]. split_and!; [done| |done]. destruct e as [[t' d] v]. simpl in *. subst t'.
    specialize (Hv _ He). simpl in Hv. unfold is_valid_identifier in Hv.
    destruct (check_valid_identifier d) as [u| |] eqn:E; try done. apply min_identifier_spec in E.
    apply not_olt. unfold min_for_table, DESCRIPTOR_MIN. rewrite pair_olt. intros [H|[_ H]]; order.
  - intros [[t1 d1] v1] [[t2 d2] v2] H1 H2 Hlt. rewrite !bool_decide_eq_true. simpl. intros ->.
    unfold BTreeMap.range_from in H1. apply elem_of_bfilter in H1 as [_ H1]. apply leb_le in H1. simpl in H1, Hlt.
    apply not_olt in H1. unfold min_for_table in H1. rewrite pair_olt in H1. rewrite pair_olt in Hlt.
    destruct (olt_total t1 t) as [?|[?|?]]; [tauto|done|]. destruct Hlt as [?|[? _]]; [order|done].
Qed.

(** ** Theorems *)

Lemma good_doc_example : good_doc (MkDoc (Object [([97], Int64 1)]) (MkResolved [1] (MkId 3 (replicate 16 7)))).
Proof.
  split; [by eexists|]. split; [split; vm_compute; reflexivity|]. apply (bool_decide_unpack _). vm_compute. exact I.
Defined.

Lemma good_doc_example2 : good_doc (MkDoc (Object [([97], Int64 2)]) (MkResolved [1] (MkId 3 (replicate 16 8)))).
Proof.
  split; [by eexists|]. split; [split; vm_compute; reflexivity|]. apply (bool_decide_unpack _). vm_compute. exact I.
Defined.

(** [PackedDocument::index_key], which never unpacks the document, writes
    exactly the bytes of [ResolvedDocument::index_key().to_bytes()], and
    neither panics. *)
Theorem packed_index_key_equiv {E} (d : PackedDocument) (o : BTreeMap.t (list Z) ConvexValue) (fields : list FieldPath) :
  good_doc d -> value d = Object o ->
  exists key bs, resolved_index_key (E := E) o (developer_id (id d)) fields = Ret key /\
    to_bytes (E := E) key = Ret bs /\ index_key (E := E) d fields = Ret bs.
Proof.
  intros Hd Ho. destruct (resolved_index_key_ok (E := E) d o fields Hd Ho) as (key & Hk & Hv).
  exists key, (concat (map enc_opt (index_values d fields))). split_and!; [done| |by apply index_key_enc].
  unfold to_bytes. rewrite Hv. by apply values_to_bytes_enc, Forall_good_valid, index_values_good.
Qed.

Lemma packed_index_key_equiv_witness :
  let d := MkDoc (Object [([97], Int64 1)]) (MkResolved [1] (MkId 3 (replicate 16 7))) in
  exists key bs, resolved_index_key (E := unit) [([97], Int64 1)] (developer_id (id d)) [[[97]]; [[98]]] = Ret key /\
    to_bytes (E := unit) key = Ret bs /\ index_key (E := unit) d [[[97]]; [[98]]] = Ret bs.
Proof. exact (packed_index_key_equiv _ [([97], Int64 1)] [[[97]]; [[98]]] good_doc_example eq_refl). Defined.

(** Index keys order documents by their indexed values, then by id: the
    byte comparison of two keys of the same index is the lexicographic [Ord]
    comparison of (field values, id), and equal keys belong to the same id. *)
Theorem index_key_order (d1 d2 : PackedDocument) (fields : list FieldPath) :
  good_doc d1 -> good_doc d2 ->
  exists k1 k2, index_key (E := unit) d1 fields = Ret k1 /\ index_key (E := unit) d2 fields = Ret k2 /\
    cmp k1 k2 = lexicographic opt_cmp (index_values d1 fields) (index_values d2 fields) /\
    (k1 = k2 -> developer_id (id d1) = developer_id (id d2)).
Proof.
  intros H1 H2. do 2 eexists. split_and!; [by apply index_key_enc..| |].
  - apply enc_opts_cmp; by apply index_values_good.
  - intros Heq. assert (Hc : lexicographic opt_cmp (index_values d1 fields) (index_values d2 fields) = Eq).
    { rewrite <- enc_opts_cmp by (by apply index_values_good). by apply cmp_eq_iff. }
    apply lexicographic_last in Hc; [|by rewrite !length_map].
    destruct (id_encode_value _ (proj2 (proj2 H1))) as (s1 & _ & Hv1 & Hg1 & Hd1 & _).
    destruct (id_encode_value _ (proj2 (proj2 H2))) as (s2 & _ & Hv2 & Hg2 & Hd2 & _).
    rewrite Hv1, Hv2 in Hc. apply value_cmp_eq in Hc; [|apply Hg1|apply Hg1|apply Hg2|apply Hg2].
    injection Hc as ->. congruence.
Qed.

Lemma index_key_order_witness :
  let d1 := MkDoc (Object [([97], Int64 1)]) (MkResolved [1] (MkId 3 (replicate 16 7))) in
  let d2 := MkDoc (Object [([97], Int64 2)]) (MkResolved [1] (MkId 3 (replicate 16 8))) in
  exists k1 k2, index_key (E := unit) d1 [[[97]]] = Ret k1 /\ index_key (E := unit) d2 [[[97]]] = Ret k2 /\
    cmp k1 k2 = lexicographic opt_cmp (index_values d1 [[[97]]]) (index_values d2 [[[97]]]) /\
    (k1 = k2 -> developer_id (id d1) = developer_id (id d2)).
Proof. exact (index_key_order _ _ [[[97]]] good_doc_example good_doc_example2). Defined.

(** splitting a key for storage loses nothing and keeps the order: prefix
    and suffix rejoin to the key, and (prefix, suffix) pairs compare like the
    keys. *)
Theorem split_key_order (k1 k2 : list Z) :
  split_join (SplitKey_new k1) = k1 /\
  (length (split_prefix (SplitKey_new k1)) <= MAX_INDEX_KEY_PREFIX_LEN)%nat /\
  split_cmp (SplitKey_new k1) (SplitKey_new k2) = cmp k1 k2.
Proof.
  split_and!; [| |apply split_key_order_aux];
    destruct (split_key_cases k1) as [[-> ?]|(p & s & -> & ? & _ & ->)]; unfold split_join;
    cbn [split_prefix split_suffix]; rewrite ?app_nil_r; lia || done.
Qed.
