(* ===== verification/TableMapping.v ===== *)
(** * TableMapping: tablets, table numbers and table names
      (src/crates/value/src/table_mapping.rs, table_name.rs)

    Every tablet (a physical table) has a namespace, a number and a name; the
    maps from names and numbers back to tablets hold the active tablets only.
    The persistent [OrdMap]s are sorted maps.  [name_lookup], [number_lookup]
    and [tablet_lookup] are what the maps mean; two mappings are equivalent
    when these agree (an emptied namespace may keep an empty map). *)

From S2P Require Import Prelude Ord BTreeMap Identifier Value Sorting SortingDecode Base32 IdV6 Document.

Local Open Scope Z_scope.

(** ** Data *)

Inductive TableNamespace :=
| Global
| ByComponent (id : DeveloperDocumentId).

#[global] Instance TableNamespace_EqDecision : EqDecision TableNamespace.
Proof. solve_decision. Defined.

(** The derived order: [Global] first, components by table number and id. *)
Definition namespace_rank (n : TableNamespace) : option (Z * list Z) :=
  match n with Global => None | ByComponent i => Some (table i, internal_id i) end.

Lemma namespace_rank_inj a b : namespace_rank a = namespace_rank b -> a = b.
Proof. by destruct a as [|[t i]], b as [|[t' i']]; simpl; intros [=]; subst. Qed.

#[global] Instance TableNamespace_Ord : Ord TableNamespace := fun a b => cmp (namespace_rank a) (namespace_rank b).

#[global] Instance TableNamespace_OrdLaws : OrdLaws TableNamespace.
Proof. exact (OrdLaws_key namespace_rank namespace_rank_inj). Qed.

Notation TableNumber := Z (only parsing).
Notation TableName := (list Z) (only parsing).

(** [TabletIdAndTableNumber]. *)
Record TabletIdAndTableNumber := MkTabletId { it_tablet : TabletId; it_number : TableNumber }.

Record TableMapping := MkMapping {
  tablet_to_table : BTreeMap.t (list Z) (TableNamespace * TableNumber * TableName);
  table_name_to_canonical_tablet : BTreeMap.t TableNamespace (BTreeMap.t (list Z) (list Z));
  table_number_to_canonical_tablet : BTreeMap.t TableNamespace (BTreeMap.t Z (list Z));
}.

Inductive mapping_error := CannotFindTable | TableDoesNotExist.

(** [TableName::is_system]: the name starts with ["_"]. *)
Definition is_system (n : TableName) : bool := match n with c :: _ => c =? 95 | [] => false end.

(** ** [TableMapping] *)

Definition mapping_new : TableMapping := MkMapping [] [] [].

Definition mapping_iter (self : TableMapping) : list (TabletId * TableNamespace * TableNumber * TableName) :=
  map (fun e : TabletId * (TableNamespace * TableNumber * TableName) => (e.1, e.2.1.1, e.2.1.2, e.2.2)) (tablet_to_table self).

(** [entry(namespace).or_default().insert(k, v)] and [.remove(k)]. *)
Definition nested_insert {K} `{Ord K} (ns : TableNamespace) (k : K) (v : TabletId)
    (m : BTreeMap.t TableNamespace (BTreeMap.t K (list Z))) : BTreeMap.t TableNamespace (BTreeMap.t K (list Z)) :=
  BTreeMap.insert ns (BTreeMap.insert k v (default [] (BTreeMap.get ns m))) m.
Definition nested_remove {K} `{Ord K} (ns : TableNamespace) (k : K)
    (m : BTreeMap.t TableNamespace (BTreeMap.t K (list Z))) : BTreeMap.t TableNamespace (BTreeMap.t K (list Z)) :=
  BTreeMap.insert ns (BTreeMap.remove k (default [] (BTreeMap.get ns m))) m.

(** [get(namespace).and_then(|m| m.get(k))]. *)
Definition nested_get {K} `{Ord K} (ns : TableNamespace) (k : K)
    (m : BTreeMap.t TableNamespace (BTreeMap.t K (list Z))) : option TabletId :=
  match BTreeMap.get ns m with Some m => BTreeMap.get k m | None => None end.

Definition insert_tablet (self : TableMapping) (tablet_id : TabletId) (namespace : TableNamespace)
    (table_number : TableNumber) (name : TableName) : TableMapping :=
  MkMapping (BTreeMap.insert tablet_id (namespace, table_number, name) (tablet_to_table self))
    (table_name_to_canonical_tablet self) (table_number_to_canonical_tablet self).

Definition mapping_insert (self : TableMapping) (tablet_id : TabletId) (namespace : TableNamespace)
    (table_number : TableNumber) (name : TableName) : TableMapping :=
  let self := insert_tablet self tablet_id namespace table_number name in
  MkMapping (tablet_to_table self)
    (nested_insert namespace name tablet_id (table_name_to_canonical_tablet self))
    (nested_insert namespace table_number tablet_id (table_number_to_canonical_tablet self)).

Definition mapping_remove {E} (self : TableMapping) (tablet_id : TabletId) : outcome E TableMapping :=
  let? (namespace, number, name) := expect (BTreeMap.get tablet_id (tablet_to_table self)) in
  let names := table_name_to_canonical_tablet self in
  let numbers := table_number_to_canonical_tablet self in
  Ret (MkMapping (BTreeMap.remove tablet_id (tablet_to_table self))
    (if bool_decide (nested_get namespace name names = Some tablet_id) then nested_remove namespace name names else names)
    (if bool_decide (nested_get namespace number numbers = Some tablet_id) then nested_remove namespace number numbers else numbers)).

Definition tablet_id_exists (self : TableMapping) (i : TabletId) : bool :=
  match BTreeMap.get i (tablet_to_table self) with Some _ => true | None => false end.

Definition get_table_metadata (self : TableMapping) (i : TabletId)
    : outcome mapping_error (TableNamespace * TableNumber * TableName) :=
  ok_or (BTreeMap.get i (tablet_to_table self)) CannotFindTable.

Definition tablet_name (self : TableMapping) (i : TabletId) : outcome mapping_error TableName :=
  let? (_, _, name) := get_table_metadata self i in Ret name.
Definition tablet_number (self : TableMapping) (i : TabletId) : outcome mapping_error TableNumber :=
  let? (_, number, _) := get_table_metadata self i in Ret number.
Definition tablet_namespace (self : TableMapping) (i : TabletId) : outcome mapping_error TableNamespace :=
  let? (namespace, _, _) := get_table_metadata self i in Ret namespace.

Definition is_system_tablet (self : TableMapping) (i : TabletId) : bool :=
  match BTreeMap.get i (tablet_to_table self) with Some (_, _, name) => is_system name | None => false end.

(** [TableMapping::update]. *)
Definition mapping_update (self other : TableMapping) : TableMapping :=
  fold_left (fun self (e : TabletId * (TableNamespace * TableNumber * TableName)) =>
    mapping_insert self e.1 e.2.1.1 e.2.1.2 e.2.2) (tablet_to_table other) self.

Definition mapping_is_active (self : TableMapping) (tablet_id : TabletId) : bool :=
  match BTreeMap.get tablet_id (tablet_to_table self) with
  | None => false
  | Some (namespace, number, _) =>
      match nested_get namespace number (table_number_to_canonical_tablet self) with
      | None => false
      | Some active => bool_decide (tablet_id = active)
      end
  end.

Definition mapping_iter_active_user_tables (self : TableMapping) : list (TabletId * TableNamespace * TableNumber * TableName) :=
  bfilter (fun '(i, _, _, name) => negb (is_system name) && mapping_is_active self i) (mapping_iter self).

Definition namespaces_for_name (self : TableMapping) (name : TableName) : list TableNamespace :=
  map (fun '(_, ns, _, _) => ns) (bfilter (fun '(_, _, _, n) => bool_decide (n = name)) (mapping_iter self)).

(** ** [NamespacedTableMapping] *)

Record NamespacedTableMapping := MkNamespaced {
  ns_namespace : TableNamespace;
  ns_tablet_to_table : BTreeMap.t (list Z) (TableNamespace * TableNumber * TableName);
  ns_table_name_to_canonical_tablet : BTreeMap.t (list Z) (list Z);
  ns_table_number_to_canonical_tablet : BTreeMap.t Z (list Z);
}.

(** [TableMapping::namespace]. *)
Definition mapping_namespace (self : TableMapping) (ns : TableNamespace) : NamespacedTableMapping :=
  {| ns_namespace := ns; ns_tablet_to_table := tablet_to_table self;
     ns_table_name_to_canonical_tablet := default [] (BTreeMap.get ns (table_name_to_canonical_tablet self));
     ns_table_number_to_canonical_tablet := default [] (BTreeMap.get ns (table_number_to_canonical_tablet self)) |}.

Definition ns_iter (self : NamespacedTableMapping) : list (TabletId * TableNumber * TableName) :=
  map (fun e : TabletId * (TableNamespace * TableNumber * TableName) => (e.1, e.2.1.2, e.2.2))
    (bfilter (fun e => bool_decide (e.2.1.1 = ns_namespace self)) (ns_tablet_to_table self)).

Definition id_if_exists (self : NamespacedTableMapping) (name : TableName) : option TabletId :=
  BTreeMap.get name (ns_table_name_to_canonical_tablet self).

Definition id_and_number_if_exists (self : NamespacedTableMapping) (name : TableName) : option TabletIdAndTableNumber :=
  match id_if_exists self name with
  | Some i => option_map (fun '(_, number, _) => MkTabletId i number) (BTreeMap.get i (ns_tablet_to_table self))
  | None => None
  end.

(** [NamespacedTableMapping::id] and [name_to_tablet]. *)
Definition name_to_id (self : NamespacedTableMapping) (name : TableName) : outcome mapping_error TabletIdAndTableNumber :=
  ok_or (id_and_number_if_exists self name) CannotFindTable.
Definition name_to_tablet (self : NamespacedTableMapping) (name : TableName) : outcome mapping_error TabletId :=
  let? i := name_to_id self name in Ret (it_tablet i).
Definition name_to_id_user_input (self : NamespacedTableMapping) (name : TableName)
    : outcome mapping_error TabletIdAndTableNumber :=
  ok_or (id_and_number_if_exists self name) TableDoesNotExist.
Definition name_to_number_user_input (self : NamespacedTableMapping) (name : TableName) : outcome mapping_error TableNumber :=
  let? i := name_to_id_user_input self name in Ret (it_number i).

Definition name_exists (self : NamespacedTableMapping) (name : TableName) : bool :=
  match id_if_exists self name with Some _ => true | None => false end.

Definition name_by_number_if_exists (self : NamespacedTableMapping) (number : TableNumber) : option TableName :=
  match BTreeMap.get number (ns_table_number_to_canonical_tablet self) with
  | Some i => option_map (fun '(_, _, name) => name) (BTreeMap.get i (ns_tablet_to_table self))
  | None => None
  end.

Definition number_to_name (self : NamespacedTableMapping) (number : TableNumber) : outcome mapping_error TableName :=
  ok_or (name_by_number_if_exists self number) CannotFindTable.
Definition number_to_tablet (self : NamespacedTableMapping) (number : TableNumber) : outcome mapping_error TabletId :=
  ok_or (BTreeMap.get number (ns_table_number_to_canonical_tablet self)) CannotFindTable.

Definition tablet_matches_name (self : NamespacedTableMapping) (tablet_id : TabletId) (name : TableName) : bool :=
  match BTreeMap.get tablet_id (ns_tablet_to_table self) with
  | Some (_, _, table_name) => bool_decide (name = table_name)
  | None => false
  end.

Definition ns_is_active (self : NamespacedTableMapping) (tablet_id : TabletId) : bool :=
  match BTreeMap.get tablet_id (ns_tablet_to_table self) with
  | None => false
  | Some (_, number, _) =>
      match BTreeMap.get number (ns_table_number_to_canonical_tablet self) with
      | None => false
      | Some active => bool_decide (tablet_id = active)
      end
  end.

Definition ns_iter_active_user_tables (self : NamespacedTableMapping) : list (TabletId * TableNumber * TableName) :=
  bfilter (fun '(i, _, name) => negb (is_system name) && ns_is_active self i) (ns_iter self).

(** [to_value]: what the dashboard is sent. *)
Definition to_value (self : NamespacedTableMapping) (with_system_tables : bool) : BTreeMap.t Z (list Z) :=
  fold_left (fun m '(_, number, name) => BTreeMap.insert number name m)
    (bfilter (fun '(_, _, name) => with_system_tables || negb (is_system name))
       (bfilter (fun '(i, _, _) => ns_is_active self i) (ns_iter self))) [].

(** ** What a mapping means *)

Definition tablet_lookup (m : TableMapping) (t : TabletId) : option (TableNamespace * TableNumber * TableName) :=
  BTreeMap.get t (tablet_to_table m).
Definition name_lookup (m : TableMapping) (ns : TableNamespace) (n : TableName) : option TabletId :=
  nested_get ns n (table_name_to_canonical_tablet m).
Definition number_lookup (m : TableMapping) (ns : TableNamespace) (n : TableNumber) : option TabletId :=
  nested_get ns n (table_number_to_canonical_tablet m).

(** Sorted maps at both levels. *)
Definition nested_wf {K} `{Ord K} (m : BTreeMap.t TableNamespace (BTreeMap.t K (list Z))) : Prop :=
  BTreeMap.wf m /\ forall ns inner, BTreeMap.get ns m = Some inner -> BTreeMap.wf inner.

Record mapping_wf (m : TableMapping) : Prop := {
  mw_tablets : BTreeMap.wf (tablet_to_table m);
  mw_names : nested_wf (table_name_to_canonical_tablet m);
  mw_numbers : nested_wf (table_number_to_canonical_tablet m);
}.

Record mapping_eq (m m' : TableMapping) : Prop := {
  me_tablets t : tablet_lookup m t = tablet_lookup m' t;
  me_names ns n : name_lookup m ns n = name_lookup m' ns n;
  me_numbers ns n : number_lookup m ns n = number_lookup m' ns n;
}.

#[global] Instance mapping_eq_Equivalence : Equivalence mapping_eq.
Proof.
  split; [by split|intros a b []; by split|intros a b c [H1 H2 H3] [H4 H5 H6]; split; intros; [by rewrite H1|by rewrite H2|by rewrite H3]].
Qed.

Section nested.
Context {K} `{OrdLaws K, !EqDecision K}.
Implicit Types m : BTreeMap.t TableNamespace (BTreeMap.t K (list Z)).

Lemma nested_default_wf ns m : nested_wf m -> BTreeMap.wf (default [] (BTreeMap.get ns m)).
Proof. intros [_ Hin]. destruct (BTreeMap.get ns m) as [x|] eqn:Hg; [by apply (Hin ns)|done]. Qed.

Lemma nested_put ns m inner :
  nested_wf m -> BTreeMap.wf inner -> nested_wf (BTreeMap.insert ns inner m) /\
  forall ns' k, nested_get ns' k (BTreeMap.insert ns inner m) = if decide (ns' = ns) then BTreeMap.get k inner else nested_get ns' k m.
Proof.
  intros [Hwf Hin] Hi. split.
  - split; [by apply BTreeMap.wf_insert|]. intros ns' x. rewrite BTreeMap.get_insert_if by done.
    destruct (decide (ns' = ns)); [by intros [= <-]|apply Hin].
  - intros ns' k. unfold nested_get. rewrite BTreeMap.get_insert_if by done. by destruct (decide (ns' = ns)).
Qed.

Lemma nested_get_default ns k m : BTreeMap.get k (default [] (BTreeMap.get ns m)) = nested_get ns k m.
Proof. unfold nested_get. by destruct (BTreeMap.get ns m). Qed.

Lemma nested_insert_ok ns k v m :
  nested_wf m -> nested_wf (nested_insert ns k v m) /\
  forall ns' k', nested_get ns' k' (nested_insert ns k v m) = if decide (ns' = ns /\ k' = k) then Some v else nested_get ns' k' m.
Proof.
  intros Hm. pose proof (nested_default_wf ns m Hm) as Hd.
  destruct (nested_put ns m (BTreeMap.insert k v (default [] (BTreeMap.get ns m))) Hm) as [Hwf Hg]; [by apply BTreeMap.wf_insert|].
  split; [done|]. intros ns' k'. unfold nested_insert. rewrite Hg. destruct (decide (ns' = ns)) as [->|Hne].
  - rewrite BTreeMap.get_insert_if, nested_get_default by done. destruct (decide (k' = k)) as [->|].
    + by rewrite decide_True.
    + rewrite decide_False; [done|naive_solver].
  - rewrite decide_False; [done|naive_solver].
Qed.

Lemma nested_remove_ok ns k m :
  nested_wf m -> nested_wf (nested_remove ns k m) /\
  forall ns' k', nested_get ns' k' (nested_remove ns k m) = if decide (ns' = ns /\ k' = k) then None else nested_get ns' k' m.
Proof.
  intros Hm. pose proof (nested_default_wf ns m Hm) as Hd.
  destruct (nested_put ns m (BTreeMap.remove k (default [] (BTreeMap.get ns m))) Hm) as [Hwf Hg]; [by apply BTreeMap.wf_remove|].
  split; [done|]. intros ns' k'. unfold nested_remove. rewrite Hg. destruct (decide (ns' = ns)) as [->|Hne].
  - destruct (decide (k' = k)) as [->|].
    + rewrite BTreeMap.get_remove_eq by done. by rewrite decide_True.
    + rewrite BTreeMap.get_remove_ne, nested_get_default by done. rewrite decide_False; [done|naive_solver].
  - rewrite decide_False; [done|naive_solver].
Qed.
End nested.

(** *** The operations *)

Lemma mapping_new_wf : mapping_wf mapping_new.
Proof. by repeat split. Qed.

Lemma insert_tablet_ok m t ns number name :
  mapping_wf m -> mapping_wf (insert_tablet m t ns number name) /\
  (forall t', tablet_lookup (insert_tablet m t ns number name) t' = if decide (t' = t) then Some (ns, number, name) else tablet_lookup m t') /\
  (forall ns' n, name_lookup (insert_tablet m t ns number name) ns' n = name_lookup m ns' n) /\
  (forall ns' n, number_lookup (insert_tablet m t ns number name) ns' n = number_lookup m ns' n).
Proof.
  intros [Ht Hn Hu]. split; [constructor; [by apply BTreeMap.wf_insert|done|done]|]. split_and!; [|done|done].
  intros t'. apply BTreeMap.get_insert_if. done.
Qed.

Lemma mapping_insert_ok m t ns number name :
  mapping_wf m -> mapping_wf (mapping_insert m t ns number name) /\
  (forall t', tablet_lookup (mapping_insert m t ns number name) t' = if decide (t' = t) then Some (ns, number, name) else tablet_lookup m t') /\
  (forall ns' n, name_lookup (mapping_insert m t ns number name) ns' n = if decide (ns' = ns /\ n = name) then Some t else name_lookup m ns' n) /\
  (forall ns' n, number_lookup (mapping_insert m t ns number name) ns' n = if decide (ns' = ns /\ n = number) then Some t else number_lookup m ns' n).
Proof.
  intros Hm. destruct (insert_tablet_ok m t ns number name Hm) as ([Ht Hn Hu] & Hl & _).
  destruct (nested_insert_ok ns name t _ Hn) as [Hn' Hgn], (nested_insert_ok ns number t _ Hu) as [Hu' Hgu].
  split; [by constructor|]. split_and!; [apply Hl|apply Hgn|apply Hgu].
Qed.

(** Removing a tablet takes the names and numbers that resolve to it with it. *)
Lemma mapping_remove_ok {E} m t ns number name :
  mapping_wf m -> tablet_lookup m t = Some (ns, number, name) ->
  exists m', mapping_remove (E := E) m t = Ret m' /\ mapping_wf m' /\
    (forall t', tablet_lookup m' t' = if decide (t' = t) then None else tablet_lookup m t') /\
    (forall ns' n, name_lookup m' ns' n =
       if decide (ns' = ns /\ n = name /\ name_lookup m ns' n = Some t) then None else name_lookup m ns' n) /\
    (forall ns' n, number_lookup m' ns' n =
       if decide (ns' = ns /\ n = number /\ number_lookup m ns' n = Some t) then None else number_lookup m ns' n).
Proof.
  intros [Ht Hn Hu] Hl. unfold mapping_remove. unfold tablet_lookup in Hl. rewrite Hl. cbn [expect obind].
  set (names := table_name_to_canonical_tablet m) in *. set (numbers := table_number_to_canonical_tablet m) in *.
  eexists. split; [done|].
  assert (Hnames : nested_wf (if bool_decide (nested_get ns name names = Some t) then nested_remove ns name names else names)).
  { destruct (bool_decide _); [by apply nested_remove_ok|done]. }
  assert (Hnumbers : nested_wf (if bool_decide (nested_get ns number numbers = Some t) then nested_remove ns number numbers else numbers)).
  { clear Hnames. destruct (bool_decide _); [by apply nested_remove_ok|done]. }
  split; [constructor; [by apply BTreeMap.wf_remove|done|done]|]. split_and!.
  - intros t'. unfold tablet_lookup. cbn [tablet_to_table]. destruct (decide (t' = t)) as [->|];
      [by apply BTreeMap.get_remove_eq|by apply BTreeMap.get_remove_ne].
  - intros ns' n. unfold name_lookup. cbn [table_name_to_canonical_tablet]. fold names. clear Hnames Hnumbers. case_bool_decide as Hc.
    + rewrite (proj2 (nested_remove_ok ns name names Hn)). destruct (decide (ns' = ns /\ n = name)) as [[-> ->]|];
        [by rewrite decide_True|rewrite decide_False; [done|naive_solver]].
    + rewrite decide_False; [done|]. intros (-> & -> & ?). done.
  - intros ns' n. unfold number_lookup. cbn [table_number_to_canonical_tablet]. fold numbers. clear Hnames Hnumbers. case_bool_decide as Hc.
    + rewrite (proj2 (nested_remove_ok ns number numbers Hu)). destruct (decide (ns' = ns /\ n = number)) as [[-> ->]|];
        [by rewrite decide_True|rewrite decide_False; [done|naive_solver]].
    + rewrite decide_False; [done|]. intros (-> & -> & ?). done.
Qed.

Lemma mapping_remove_absent {E} m t : tablet_lookup m t = None -> mapping_remove (E := E) m t = Panic.
Proof. unfold mapping_remove, tablet_lookup. by intros ->. Qed.
