(* ===== verification/IndexRegistry.v ===== *)
(** * IndexRegistry: which indexes exist on which table
      (src/crates/indexing/src/index_registry.rs,
       src/crates/common/src/bootstrap_model/index/index_config.rs,
       [FilterValue] of src/crates/common/src/query.rs)

    The persistent [OrdMap]s and [OrdSet] are sorted maps.  Parsing an [_index]
    document ([TabletIndexMetadata::from_document]), the SHA-256 hash of long
    filter values and the text tokenizer are parameters of the functions that
    use them.  [registry_ok] is the consistency between the three collections
    that the source's [panic!]s rely on. *)

From S2P Require Import Prelude Ord BTreeMap Identifier Value Sorting SortingDecode Base32 IdV6 Document.

Local Open Scope Z_scope.

(** [DatabaseIndexState], [TextIndexState] and [VectorIndexState]; the state a
    backfill carries besides [staged] plays no role in the registry, and
    [Enabled] is [SnapshottedAt] for the search indexes. *)
Inductive OnDiskState :=
| Backfilling (staged : bool)
| Backfilled (staged : bool)
| Enabled.

(** The spec of each kind of index ([filter_fields] is a [BTreeSet], here in order). *)
Inductive IndexConfig :=
| Database (fields : list (list (list Z))) (on_disk_state : OnDiskState)
| Text (text_field : list (list Z)) (filter_fields : list (list (list Z))) (on_disk_state : OnDiskState)
| Vector (dimensions : Z) (vector_field : list (list Z)) (filter_fields : list (list (list Z))) (on_disk_state : OnDiskState).

#[global] Instance OnDiskState_EqDecision : EqDecision OnDiskState.
Proof. solve_decision. Defined.

Definition on_disk_state (c : IndexConfig) : OnDiskState :=
  match c with Database _ s | Text _ _ s | Vector _ _ _ s => s end.

Definition state_is_staged (s : OnDiskState) : bool :=
  match s with Backfilling staged => staged | Backfilled staged => staged | Enabled => false end.

(** [IndexConfig::is_staged], [is_enabled], [same_spec]. *)
Definition is_staged (c : IndexConfig) : bool := state_is_staged (on_disk_state c).
Definition is_enabled (c : IndexConfig) : bool := bool_decide (on_disk_state c = Enabled).

Definition same_spec (a b : IndexConfig) : bool :=
  match a, b with
  | Database f _, Database f' _ => bool_decide (f = f')
  | Text s f _, Text s' f' _ => bool_decide (s = s') && bool_decide (f = f')
  | Vector d s f _, Vector d' s' f' _ => (d =? d') && bool_decide (s = s') && bool_decide (f = f')
  | _, _ => false
  end.

(** [Index { id, metadata }] with [metadata: TabletIndexMetadata { name, config }]. *)
Record Index := MkIndex { index_id : list Z; name : list Z * list Z; config : IndexConfig }.

Record IndexRegistry := MkRegistry {
  index_table : list Z;
  enabled_indexes : BTreeMap.t (list Z * list Z) Index;
  pending_indexes : BTreeMap.t (list Z * list Z) Index;
  indexes_by_table_set : BTreeMap.t (list Z * list Z) unit;
}.

Definition get_enabled (self : IndexRegistry) (n : TabletIndexName) : option Index :=
  BTreeMap.get n (enabled_indexes self).
Definition get_pending (self : IndexRegistry) (n : TabletIndexName) : option Index :=
  BTreeMap.get n (pending_indexes self).

Definition insert (self : IndexRegistry) (index : Index) : IndexRegistry :=
  let by_table := BTreeMap.insert (name index) tt (indexes_by_table_set self) in
  if is_enabled (config index) then
    MkRegistry (index_table self) (BTreeMap.insert (name index) index (enabled_indexes self))
      (pending_indexes self) by_table
  else
    MkRegistry (index_table self) (enabled_indexes self)
      (BTreeMap.insert (name index) index (pending_indexes self)) by_table.

Definition remove {E} (self : IndexRegistry) (to_remove : Index) : outcome E IndexRegistry :=
  let enabled := is_enabled (config to_remove) in
  let remove_from := if enabled then enabled_indexes self else pending_indexes self in
  let other := if enabled then pending_indexes self else enabled_indexes self in
  let? removed := expect (BTreeMap.get (name to_remove) remove_from) in
  let? _ := rassert (bool_decide (index_id removed = index_id to_remove)) in
  let remove_from := BTreeMap.remove (name to_remove) remove_from in
  let? by_table :=
    match BTreeMap.get (name to_remove) other with
    | Some _ => Ret (indexes_by_table_set self)
    | None =>
        expect (BTreeMap.get (name to_remove) (indexes_by_table_set self)) ;?
        Ret (BTreeMap.remove (name to_remove) (indexes_by_table_set self))
    end in
  Ret (if enabled then MkRegistry (index_table self) remove_from (pending_indexes self) by_table
       else MkRegistry (index_table self) (enabled_indexes self) remove_from by_table).

(** The name rebuilt from an entry of [indexes_by_table]. *)
Definition rebuild_name {E} (t : TabletId) (d : IndexDescriptor) : outcome E TabletIndexName :=
  if bool_decide (d = INDEX_BY_ID_DESCRIPTOR) then Ret (by_id t)
  else if bool_decide (d = INDEX_BY_CREATION_TIME_DESCRIPTOR) then Ret (by_creation_time t)
  else if is_reserved d then match index_name_new_reserved t d with Ret n => Ret n | _ => Panic end
  else match index_name_new t d with Ret n => Ret n | _ => Panic end.

(** The body of the [flat_map] of [indexes_by_table]. *)
Definition indexes_named {E} (self : IndexRegistry) (td : TabletIndexName) : outcome E (list Index) :=
  let? index_name := rebuild_name td.1 td.2 in
  let result := filter_map (fun indexes => BTreeMap.get index_name indexes)
                  [enabled_indexes self; pending_indexes self] in
  match result with [] => Panic | _ => Ret result end.

Definition indexes_by_table {E} (self : IndexRegistry) (tablet : TabletId) : outcome E (list Index) :=
  let entries :=
    take_while (fun e => bool_decide (e.1.1 = tablet))
      (BTreeMap.range_from (min_for_table tablet) (indexes_by_table_set self)) in
  let? groups := mapM (fun e => indexes_named self e.1) entries in
  Ret (concat groups).

Inductive registry_error :=
| IdMismatch
| TableChanged
| SystemIndexRenamed
| SpecChanged
| NonexistentIndex
| MissingInIndex
| MissingById
| NotById
| ByIdNotEnabled
| ByIdNotDatabase
| SecondEnabled
| SecondPending
| BadMetadata
| IndexStaged
| IndexBackfilling
| IndexNotFound.

Definition existing_is_none_or_equal (existing : option Index) (updated : Index) : bool :=
  match existing with None => true | Some e => bool_decide (index_id e = index_id updated) end.

Definition verify_index_state (enabled_index pending_index : option Index) (metadata : Index)
    : outcome registry_error unit :=
  if is_enabled (config metadata) then
    ensure (existing_is_none_or_equal enabled_index metadata) SecondEnabled
  else ensure (existing_is_none_or_equal pending_index metadata) SecondPending.

(** [IndexRegistry::require_enabled]. *)
Definition require_enabled (self : IndexRegistry) (n : TabletIndexName) : outcome registry_error Index :=
  match get_enabled self n with
  | Some enabled => Ret enabled
  | None =>
      match get_pending self n with
      | Some index => if is_staged (config index) then Err IndexStaged else Err IndexBackfilling
      | None => Err IndexNotFound
      end
  end.

Definition contains_key {V} (n : TabletIndexName) (m : BTreeMap.t (list Z * list Z) V) : bool :=
  match BTreeMap.get n m with Some _ => true | None => false end.

Definition is_by_id (n : TabletIndexName) : bool := bool_decide (n.2 = INDEX_BY_ID_DESCRIPTOR).
Definition is_by_id_or_creation_time (n : TabletIndexName) : bool :=
  is_by_id n || bool_decide (n.2 = INDEX_BY_CREATION_TIME_DESCRIPTOR).

Section updates.
(** [TabletIndexMetadata::from_document]: [None] when parsing fails. *)
Context (from_document : PackedDocument -> option Index).

Definition tablet (d : PackedDocument) : TabletId := tablet_id (id d).

(** The checks when both versions are present. *)
Definition verify_both (self : IndexRegistry) (old_document new_document : PackedDocument)
    : outcome registry_error unit :=
  ensure (bool_decide (id old_document = id new_document)) IdMismatch ;?
  ensure (table (developer_id (id old_document)) =? table (developer_id (id new_document))) IdMismatch ;?
  if bool_decide (tablet old_document = index_table self) then
    let? old_metadata := ok_or (from_document old_document) BadMetadata in
    let? new_metadata := ok_or (from_document new_document) BadMetadata in
    ensure (bool_decide ((name old_metadata).1 = (name new_metadata).1)) TableChanged ;?
    (if is_by_id_or_creation_time (name old_metadata) then
       ensure (bool_decide (name old_metadata = name new_metadata)) SystemIndexRenamed
     else Ret tt) ;?
    ensure (same_spec (config old_metadata) (config new_metadata)) SpecChanged
  else Ret tt.

(** The checks on the old version. *)
Definition verify_old (self : IndexRegistry) (old_document : PackedDocument) : outcome registry_error unit :=
  (if bool_decide (tablet old_document = index_table self) then
     let? metadata := ok_or (from_document old_document) BadMetadata in
     ensure (contains_key (name metadata) (enabled_indexes self)
             || contains_key (name metadata) (pending_indexes self)) NonexistentIndex
   else Ret tt) ;?
  ensure (contains_key (tablet old_document, INDEX_BY_ID_DESCRIPTOR) (indexes_by_table_set self)) MissingInIndex.

(** The checks on the new version. *)
Definition verify_new (self : IndexRegistry) (new_document : PackedDocument) : outcome registry_error unit :=
  let tablet_id := tablet new_document in
  ensure (contains_key (by_id tablet_id) (enabled_indexes self)) MissingById ;?
  if bool_decide (tablet_id = index_table self) then
    let? metadata := ok_or (from_document new_document) BadMetadata in
    (if bool_decide ((name metadata).1 = index_table self) then ensure (is_by_id (name metadata)) NotById
     else Ret tt) ;?
    (if is_by_id (name metadata) then
       match config metadata with
       | Database _ on_disk_state => ensure (bool_decide (on_disk_state = Enabled)) ByIdNotEnabled
       | _ => Err ByIdNotDatabase
       end
     else Ret tt) ;?
    verify_index_state (get_enabled self (name metadata)) (get_pending self (name metadata)) metadata
  else Ret tt.

Definition verify_update (self : IndexRegistry) (old_document new_document : option PackedDocument)
    : outcome registry_error unit :=
  match old_document, new_document with
  | Some old, Some new => verify_both self old new
  | _, _ => Ret tt
  end ;?
  match old_document with Some old => verify_old self old | None => Ret tt end ;?
  match new_document with Some new => verify_new self new | None => Ret tt end.

Definition apply_verified_update {E} (self : IndexRegistry) (deletion insertion : option PackedDocument)
    : outcome E (IndexRegistry * bool) :=
  let? (self, modified) :=
    match deletion with
    | Some old_document =>
        if bool_decide (tablet old_document = index_table self) then
          let? index := expect (from_document old_document) in
          let? self := remove self index in
          Ret (self, true)
        else Ret (self, false)
    | None => Ret (self, false)
    end in
  match insertion with
  | Some new_document =>
      if bool_decide (tablet new_document = index_table self) then
        let? index := expect (from_document new_document) in
        Ret (insert self index, true)
      else Ret (self, modified)
  | None => Ret (self, modified)
  end.

Definition update (self : IndexRegistry) (deletion insertion : option PackedDocument)
    : outcome registry_error IndexRegistry :=
  verify_update self deletion insertion ;?
  let? (self, _) := apply_verified_update self deletion insertion in
  Ret self.
End updates.

(** ** Index keys of a document *)

Definition MAX_FILTER_FIELD_LENGTH : nat := 32.

(** ["by_table_id"] and ["table_id"]. *)
Definition INDEX_BY_TABLE_ID_VIRTUAL_INDEX_DESCRIPTOR : IndexDescriptor :=
  [98; 121; 95; 116; 97; 98; 108; 101; 95; 105; 100].
Definition TABLE_ID_FIELD_PATH : FieldPath := [[116; 97; 98; 108; 101; 95; 105; 100]].

Section keys.
(** SHA-256 and the full-text analyzer. *)
Context (sha256 : list Z -> list Z) (search_tokenizer : list Z -> list (list Z)).

(** [FilterValue::from_search_value]. *)
Definition from_search_value {E} (value : option ConvexValue) : outcome E (list Z) :=
  let? sort_key := match value with Some value => sort_key value | None => Ret [UNDEFINED_TAG] end in
  Ret (if (length sort_key <? MAX_FILTER_FIELD_LENGTH)%nat then sort_key else sha256 sort_key).

(** The key of one index, [None] for vector indexes. *)
Definition index_key_value {E} (document : PackedDocument) (config : IndexConfig)
    : outcome E (option DocumentIndexKeyValue) :=
  match config with
  | Database fields _ =>
      let? key := index_key document fields in
      Ret (Some (Standard key))
  | Text search_field filter_fields _ =>
      let? filter_values :=
        foldM (fun m field =>
                 let? bytes := from_search_value (open_path (value document) field) in
                 Ret (BTreeMap.insert field bytes m))
          [] filter_fields in
      let search_field_value :=
        match open_path (value document) search_field with
        | Some (String string) => Some (search_tokenizer string)
        | _ => None
        end in
      Ret (Some (Search {| filter_values := filter_values; search_field := search_field;
                           search_field_value := search_field_value |}))
  | Vector _ _ _ _ => Ret None
  end.

Definition document_index_keys {E} (self : IndexRegistry) (document : PackedDocument)
    : outcome E (BTreeMap.t (list Z * list Z) DocumentIndexKeyValue) :=
  let? indexes := indexes_by_table self (tablet_id (id document)) in
  let? map :=
    foldM (fun m index =>
             let? key := index_key_value document (config index) in
             Ret match key with Some key => BTreeMap.insert (name index) key m | None => m end)
      [] indexes in
  if bool_decide (tablet_id (id document) = index_table self) then
    let? index_name :=
      match index_name_new (tablet_id (id document)) INDEX_BY_TABLE_ID_VIRTUAL_INDEX_DESCRIPTOR with
      | Ret n => Ret n | _ => Panic
      end in
    let? key := index_key document [TABLE_ID_FIELD_PATH] in
    Ret (BTreeMap.insert index_name (Standard key) map)
  else Ret map.
End keys.

(** ** Consistency of the registry *)

Record registry_ok (r : IndexRegistry) : Prop := {
  reg_wf_enabled : BTreeMap.wf (enabled_indexes r);
  reg_wf_pending : BTreeMap.wf (pending_indexes r);
  reg_wf_by_table : BTreeMap.wf (indexes_by_table_set r);
  reg_enabled n i : get_enabled r n = Some i -> name i = n /\ is_enabled (config i) = true;
  reg_pending n i : get_pending r n = Some i -> name i = n /\ is_enabled (config i) = false;
  reg_by_table n : contains_key n (indexes_by_table_set r) = contains_key n (enabled_indexes r) || contains_key n (pending_indexes r);
  reg_names n : contains_key n (indexes_by_table_set r) = true -> is_valid_identifier n.2 = true;
}.

Lemma contains_key_insert {V} n n' (v : V) m :
  BTreeMap.wf m -> contains_key n (BTreeMap.insert n' v m) = bool_decide (n = n') || contains_key n m.
Proof.
  intros Hm. unfold contains_key. destruct (decide (n = n')) as [->|Hne].
  - rewrite BTreeMap.get_insert_eq by done. by rewrite bool_decide_true.
  - rewrite BTreeMap.get_insert_ne by done. by rewrite bool_decide_false.
Qed.

Lemma contains_key_remove {V} n n' (m : BTreeMap.t (list Z * list Z) V) :
  BTreeMap.wf m -> contains_key n (BTreeMap.remove n' m) = negb (bool_decide (n = n')) && contains_key n m.
Proof.
  intros Hm. unfold contains_key. destruct (decide (n = n')) as [->|Hne].
  - rewrite BTreeMap.get_remove_eq by done. by rewrite bool_decide_true.
  - rewrite BTreeMap.get_remove_ne by done. by rewrite bool_decide_false.
Qed.

Lemma contains_key_get {V} n (m : BTreeMap.t (list Z * list Z) V) : contains_key n m = true <-> exists v, BTreeMap.get n m = Some v.
Proof. unfold contains_key. destruct (BTreeMap.get n m); naive_solver. Qed.

Lemma insert_ok r i : registry_ok r -> is_valid_identifier (name i).2 = true -> registry_ok (insert r i).
Proof.
  intros [He Hp Hb Hen Hpe Hbt Hn] Hi. unfold insert, get_enabled, get_pending in *.
  destruct (is_enabled (config i)) eqn:Hc; constructor; unfold get_enabled, get_pending;
    cbn [enabled_indexes pending_indexes indexes_by_table_set]; try done; try (by apply BTreeMap.wf_insert).
  - intros n j. destruct (decide (n = name i)) as [->|Hne]; [rewrite BTreeMap.get_insert_eq by done; naive_solver|].
    rewrite BTreeMap.get_insert_ne by done. apply Hen.
  - intros n. rewrite !contains_key_insert, Hbt by done. by rewrite orb_assoc.
  - intros n. rewrite contains_key_insert by done. intros [->%bool_decide_eq_true_1|?]%orb_true_iff; auto.
  - intros n j. destruct (decide (n = name i)) as [->|Hne]; [rewrite BTreeMap.get_insert_eq by done; naive_solver|].
    rewrite BTreeMap.get_insert_ne by done. apply Hpe.
  - intros n. rewrite !contains_key_insert, Hbt by done. rewrite !orb_assoc. f_equal. apply orb_comm.
  - intros n. rewrite contains_key_insert by done. intros [->%bool_decide_eq_true_1|?]%orb_true_iff; auto.
Qed.

(** The index with a name and a state, and whether [i] is the one. *)
Definition slot (r : IndexRegistry) (enabled : bool) (n : TabletIndexName) : option Index :=
  if enabled then get_enabled r n else get_pending r n.
Definition occupies (i : Index) (enabled : bool) (n : TabletIndexName) : bool :=
  bool_decide (name i = n) && Bool.eqb (is_enabled (config i)) enabled.

Lemma slot_insert r i b n : registry_ok r -> slot (insert r i) b n = if occupies i b n then Some i else slot r b n.
Proof.
  intros [He Hp _ _ _ _ _]. unfold slot, insert, occupies, get_enabled, get_pending.
  destruct (is_enabled (config i)), b; cbn [enabled_indexes pending_indexes Bool.eqb];
    rewrite ?andb_false_r, ?andb_true_r; try done; rewrite BTreeMap.get_insert_if by done;
    (destruct (decide (n = name i)); [rewrite bool_decide_true by done|rewrite bool_decide_false by done]); done.
Qed.

(** The map an index of this state lives in. *)
Definition home (r : IndexRegistry) (c : IndexConfig) : BTreeMap.t (list Z * list Z) Index :=
  if is_enabled c then enabled_indexes r else pending_indexes r.

(** The document being removed is the registered one. *)
Definition registered (r : IndexRegistry) (i : Index) : Prop :=
  exists j, BTreeMap.get (name i) (home r (config i)) = Some j /\ index_id j = index_id i.

(** Removing a name from one of the two maps: the set of names follows. *)
Lemma names_keep {V W U} (a : BTreeMap.t (list Z * list Z) V) (b : BTreeMap.t (list Z * list Z) W)
    (bt : BTreeMap.t (list Z * list Z) U) x n :
  BTreeMap.wf a -> contains_key n bt = contains_key n a || contains_key n b -> contains_key x b = true ->
  contains_key n bt = contains_key n (BTreeMap.remove x a) || contains_key n b.
Proof.
  intros Ha Hbt Hx. rewrite contains_key_remove, Hbt by done. destruct (decide (n = x)) as [->|Hne].
  - rewrite Hx. by rewrite !orb_true_r.
  - by rewrite bool_decide_false.
Qed.

Lemma names_drop {V W U} (a : BTreeMap.t (list Z * list Z) V) (b : BTreeMap.t (list Z * list Z) W)
    (bt : BTreeMap.t (list Z * list Z) U) x n :
  BTreeMap.wf a -> BTreeMap.wf bt -> contains_key n bt = contains_key n a || contains_key n b ->
  contains_key x b = false ->
  contains_key n (BTreeMap.remove x bt) = contains_key n (BTreeMap.remove x a) || contains_key n b.
Proof.
  intros Ha Hb Hbt Hx. rewrite !contains_key_remove, Hbt by done. destruct (decide (n = x)) as [->|Hne].
  - by rewrite bool_decide_true, Hx.
  - by rewrite bool_decide_false.
Qed.

Lemma slot_remove {E} r r' i b n :
  registry_ok r -> remove (E := E) r i = Ret r' -> slot r' b n = if occupies i b n then None else slot r b n.
Proof.
  intros [He Hp _ _ _ _ _]. unfold remove, slot, occupies, get_enabled, get_pending.
  set (from := if is_enabled _ then enabled_indexes r else _). destruct (BTreeMap.get (name i) from) as [j|]; [|done].
  cbn [expect obind]. destruct (bool_decide (index_id j = index_id i)); [|done]. cbn [rassert obind].
  set (by_table := match BTreeMap.get (name i) _ with Some _ => _ | None => _ end).
  destruct by_table as [bt| |]; try done. cbn [obind]. subst from. intros [= <-].
  destruct (is_enabled (config i)), b; cbn [enabled_indexes pending_indexes Bool.eqb];
    rewrite ?andb_false_r, ?andb_true_r; try done;
    (destruct (decide (name i = n)) as [<-|];
     [rewrite bool_decide_true by done; by apply BTreeMap.get_remove_eq
     |rewrite bool_decide_false by done; by apply BTreeMap.get_remove_ne]).
Qed.

(** [remove] of a registered index does not panic and keeps the registry consistent. *)
Lemma remove_ok {E} r i :
  registry_ok r -> registered r i ->
  exists r', remove (E := E) r i = Ret r' /\ registry_ok r' /\ index_table r' = index_table r.
Proof.
  intros [He Hp Hb Hen Hpe Hbt Hn] (j & Hj & Hid). unfold home in Hj.
  assert (Hin : contains_key (name i) (indexes_by_table_set r) = true).
  { rewrite Hbt. apply orb_true_iff. destruct (is_enabled (config i)); [left|right]; apply contains_key_get; eauto. }
  apply contains_key_get in Hin as [[] Hin].
  set (other := if is_enabled (config i) then pending_indexes r else enabled_indexes r).
  assert (Hn' : forall n, contains_key n (BTreeMap.remove (name i) (indexes_by_table_set r)) = true ->
    is_valid_identifier n.2 = true).
  { intros n. rewrite contains_key_remove by done. intros [_ ?]%andb_true_iff. by apply Hn. }
  assert (Hother : match BTreeMap.get (name i) other with Some _ => contains_key (name i) other = true
    | None => contains_key (name i) other = false end) by (unfold contains_key; by destruct (BTreeMap.get (name i) other)).
  unfold remove. fold other. unfold home, other in *.
  destruct (is_enabled (config i)); rewrite Hj; cbn [expect obind]; rewrite bool_decide_true by done; cbn [rassert obind];
    (rewrite Hin; cbn [expect obind];
     match goal with |- context [match BTreeMap.get (name i) ?m with _ => _ end] =>
       destruct (BTreeMap.get (name i) m) eqn:Ho end; cbn [obind];
     (eexists; split; [done|]; split; [|done]); constructor; unfold get_enabled, get_pending;
     cbn [enabled_indexes pending_indexes indexes_by_table_set];
     try done; try (by apply BTreeMap.wf_remove);
     try (intros n k Hk; first [apply Hen|apply Hpe]; by eapply BTreeMap.get_remove_Some)); intros n.
  - by apply names_keep.
  - by apply names_drop.
  - rewrite orb_comm. apply names_keep; [done| |done]. by rewrite Hbt, orb_comm.
  - rewrite orb_comm. apply names_drop; [done..| |done]. by rewrite Hbt, orb_comm.
Qed.

Lemma rebuild_name_ok {E} t d : is_valid_identifier d = true -> rebuild_name (E := E) t d = Ret (t, d).
Proof.
  intros Hv. unfold is_valid_identifier in Hv. unfold rebuild_name, index_name_new, index_name_new_reserved.
  destruct (check_valid_identifier d) as [[]| |]; try done.
  destruct (decide (d = INDEX_BY_ID_DESCRIPTOR)) as [->|H1]; [by rewrite bool_decide_true|].
  rewrite (bool_decide_false (d = INDEX_BY_ID_DESCRIPTOR)) by done.
  destruct (decide (d = INDEX_BY_CREATION_TIME_DESCRIPTOR)) as [->|H2]; [by rewrite bool_decide_true|].
  rewrite (bool_decide_false (d = INDEX_BY_CREATION_TIME_DESCRIPTOR)) by done.
  cbn [lift_err obind]. by destruct (is_reserved d).
Qed.

Lemma take_while_prefix {A} (p : A -> bool) l : exists rest, l = take_while p l ++ rest.
Proof.
  induction l as [|x l [rest IH]]; [by exists []|]. cbn [take_while]. destruct (p x); [|by eexists].
  exists rest. cbn. by rewrite <- IH.
Qed.

Lemma mapM_ret {A B} (f : forall E, A -> outcome E B) (g : A -> B) l :
  (forall x, x ∈ l -> forall E, f E x = Ret (g x)) -> forall E, mapM (f E) l = Ret (map g l).
Proof.
  intros Hf E. induction l as [|x l IH]; cbn [mapM map]; [done|]. rewrite Hf by left. cbn [obind].
  rewrite IH by (intros; apply Hf; by right). done.
Qed.

(** The indexes with a name: the enabled one first. *)
Definition named (r : IndexRegistry) (n : TabletIndexName) : list Index :=
  filter_map (fun indexes => BTreeMap.get n indexes) [enabled_indexes r; pending_indexes r].

Lemma elem_of_named r n i : i ∈ named r n <-> get_enabled r n = Some i \/ get_pending r n = Some i.
Proof.
  unfold named, get_enabled, get_pending. cbn [filter_map].
  destruct (BTreeMap.get n (enabled_indexes r)), (BTreeMap.get n (pending_indexes r));
    rewrite ?elem_of_cons, ?elem_of_nil; naive_solver.
Qed.

Lemma indexes_named_ok {E} r n :
  registry_ok r -> contains_key n (indexes_by_table_set r) = true -> indexes_named (E := E) r n = Ret (named r n).
Proof.
  intros Hr Hn. unfold indexes_named. rewrite rebuild_name_ok by (by apply (reg_names r Hr)). cbn [obind].
  rewrite (reg_by_table r Hr) in Hn. rewrite <- surjective_pairing. unfold named, contains_key in *. cbn [filter_map].
  by destruct (BTreeMap.get n (enabled_indexes r)), (BTreeMap.get n (pending_indexes r)).
Qed.

(** [indexes_by_table] never panics and yields exactly the enabled and pending
    indexes of the table. *)
Lemma indexes_by_table_ret r t :
  registry_ok r ->
  exists l, (forall E, indexes_by_table (E := E) r t = Ret l) /\
    forall i, i ∈ l <-> (name i).1 = t /\ (get_enabled r (name i) = Some i \/ get_pending r (name i) = Some i).
Proof.
  intros Hr. unfold indexes_by_table.
  set (entries := take_while _ _).
  assert (Hent : forall e, e ∈ entries <-> e ∈ indexes_by_table_set r /\ e.1.1 = t).
  { intros e. apply elem_of_table_range; [apply Hr|]. intros [n []] He. apply (reg_names r Hr), contains_key_get.
    exists tt. by apply BTreeMap.elem_of_get; [apply Hr|]. }
  assert (Hkey : forall n, (n, tt) ∈ indexes_by_table_set r <-> contains_key n (indexes_by_table_set r) = true).
  { intros n. rewrite contains_key_get. rewrite <- BTreeMap.elem_of_get by apply Hr. split; [eauto|by intros [[] ?]]. }
  eexists. split.
  { intros E. rewrite (mapM_ret (fun E e => indexes_named (E := E) r e.1) (fun e => named r e.1)); [reflexivity|].
    intros [n []] [He _]%Hent E'. apply indexes_named_ok; [done|]. by apply Hkey. }
  intros i. rewrite list_elem_of_In, in_concat. setoid_rewrite in_map_iff. setoid_rewrite <- list_elem_of_In. split.
  - intros (g & ([n []] & <- & [He Ht]%Hent) & Hi). simpl in *. apply elem_of_named in Hi.
    assert (name i = n) as ->; [|done]. destruct Hi as [Hi|Hi]; [by apply (reg_enabled r Hr)|by apply (reg_pending r Hr)].
  - intros [Ht Hi]. exists (named r (name i)). split; [|by apply elem_of_named].
    exists (name i, tt). split; [done|]. apply Hent. split; [|done]. apply Hkey.
    rewrite (reg_by_table r Hr). apply orb_true_iff. rewrite !contains_key_get. destruct Hi; eauto.
Qed.

(** An enabled and a pending index of the same name come one after the other, and
    no later index has their name. *)
Lemma indexes_by_table_pair r n i j :
  registry_ok r -> get_enabled r n = Some i -> get_pending r n = Some j ->
  exists l1 l2, (forall E, indexes_by_table (E := E) r n.1 = Ret (l1 ++ i :: j :: l2)) /\ forall x, x ∈ l2 -> name x <> n.
Proof.
  intros Hr Hi Hj. unfold indexes_by_table. set (set0 := BTreeMap.range_from _ _). set (entries := take_while _ set0).
  assert (Hent : forall e, e ∈ entries <-> e ∈ indexes_by_table_set r /\ e.1.1 = n.1).
  { intros e. apply elem_of_table_range; [apply Hr|]. intros [n' []] He. apply (reg_names r Hr), contains_key_get.
    exists tt. by apply BTreeMap.elem_of_get; [apply Hr|]. }
  assert (Hkey : forall n, (n, tt) ∈ indexes_by_table_set r <-> contains_key n (indexes_by_table_set r) = true).
  { intros n'. rewrite contains_key_get. rewrite <- BTreeMap.elem_of_get by apply Hr. split; [eauto|by intros [[] ?]]. }
  assert (Hw : BTreeMap.wf entries).
  { destruct (take_while_prefix (fun e => bool_decide (e.1.1 = n.1)) set0) as [rest Hrest].
    apply (BTreeMap.wf_app_inv entries rest). unfold entries. rewrite <- Hrest. apply BTreeMap.wf_bfilter, Hr. }
  assert (Hn : (n, tt) ∈ entries).
  { apply Hent. split; [|done]. apply Hkey. rewrite (reg_by_table r Hr). apply orb_true_iff. left. apply contains_key_get. by exists i. }
  assert (Hm : forall E, mapM (fun e => indexes_named (E := E) r e.1) entries = Ret (map (fun e => named r e.1) entries)).
  { apply (mapM_ret (fun E e => indexes_named (E := E) r e.1)). intros [n' []] [He _]%Hent E'. apply indexes_named_ok; [done|]. by apply Hkey. }
  apply list_elem_of_split in Hn as (e1 & e2 & He). rewrite He in Hm, Hw.
  exists (concat (map (fun e => named r e.1) e1)), (concat (map (fun e => named r e.1) e2)). split.
  - intros E. rewrite He, Hm. cbn [obind]. rewrite map_app, concat_app. cbn [map concat fst].
    replace (named r n) with [i; j] by (unfold named, get_enabled, get_pending in *; cbn [filter_map]; by rewrite Hi, Hj). done.
  - intros x (g & Hg & Hx)%list_elem_of_In%in_concat Hxn. apply in_map_iff in Hg as ([n' []] & <- & He2%list_elem_of_In).
    apply BTreeMap.wf_app_inv in Hw as [_ [Hlt _]]. specialize (Hlt _ He2). cbn [fst] in *.
    apply list_elem_of_In, elem_of_named in Hx. assert (name x = n').
    { destruct Hx as [Hx|Hx]; [by apply (reg_enabled r Hr)|by apply (reg_pending r Hr)]. }
    subst. by apply olt_irrefl in Hlt.
Qed.

Section update_spec.
Context (from_document : PackedDocument -> option Index).

(** What the [_index] table guarantees: a stored index document is the
    registered one, and names are built from checked identifiers. *)
Definition stored (r : IndexRegistry) (d : PackedDocument) : Prop :=
  tablet d = index_table r -> forall i, from_document d = Some i -> registered r i.
Definition well_named (d : PackedDocument) : Prop :=
  forall i, from_document d = Some i -> is_valid_identifier (name i).2 = true.

Lemma ok_or_Ret {E A} (o : option A) (e : E) a : ok_or o e = Ret a <-> o = Some a.
Proof. destruct o; simpl; split; congruence. Qed.

Lemma verify_old_parses r d u :
  verify_old from_document r d = Ret u -> tablet d = index_table r -> exists i, from_document d = Some i.
Proof.
  unfold verify_old. intros Hv Ht. rewrite bool_decide_true in Hv by done.
  destruct (from_document d) as [i|]; [eauto|done].
Qed.

Lemma verify_new_parses r d u :
  verify_new from_document r d = Ret u -> tablet d = index_table r -> exists i, from_document d = Some i.
Proof.
  unfold verify_new. intros Hv Ht. apply bind_ensure_Ret in Hv as [_ Hv]. rewrite bool_decide_true in Hv by done.
  destruct (from_document d) as [i|]; [eauto|done].
Qed.

Lemma verify_update_safe r old new : safe (verify_update from_document r old new).
Proof.
  unfold verify_update, verify_both, verify_old, verify_new, verify_index_state. prove_safe.
Qed.

(** The index that an [_index] document describes; nothing for the documents
    of other tables. *)
Definition index_of (r : IndexRegistry) (d : option PackedDocument) : option Index :=
  match d with
  | Some d => if bool_decide (tablet d = index_table r) then from_document d else None
  | None => None
  end.
Definition occupies_opt (i : option Index) (b : bool) (n : TabletIndexName) : bool :=
  match i with Some i => occupies i b n | None => false end.

(** The deletion half of an accepted update. *)
Lemma apply_deletion_ok r old u :
  registry_ok r -> (forall d, old = Some d -> stored r d) ->
  match old with Some o => verify_old from_document r o | None => Ret tt end = Ret u ->
  exists r1 m, match old with
    | Some old_document =>
        if bool_decide (tablet old_document = index_table r) then
          let? index := expect (from_document old_document) in
          let? self := remove r index in Ret (self, true)
        else Ret (r, false)
    | None => Ret (r, false)
    end = Ret (r1, m) :> outcome registry_error _ /\ registry_ok r1 /\ index_table r1 = index_table r /\
    forall b n, slot r1 b n = if occupies_opt (index_of r old) b n then None else slot r b n.
Proof.
  intros Hr Hold Hvo. destruct old as [o|]; [|by exists r, false]. cbn [index_of].
  destruct (decide (tablet o = index_table r)) as [Ht|Ht].
  - rewrite bool_decide_true by done. destruct (verify_old_parses r o _ Hvo Ht) as [i Hi]. rewrite Hi. cbn [expect obind].
    destruct (remove_ok (E := registry_error) r i Hr) as (r1 & Hrem & ? & ?); [by eapply (Hold o)|].
    rewrite Hrem. cbn [obind]. exists r1, true. split_and!; [done..|]. intros b n. by eapply slot_remove.
  - rewrite bool_decide_false by done. by exists r, false.
Qed.

Lemma update_ok r old new :
  registry_ok r ->
  (forall d, old = Some d -> stored r d) -> (forall d, new = Some d -> well_named d) ->
  match verify_update from_document r old new with
  | Ret _ =>
      exists r', update from_document r old new = Ret r' /\ registry_ok r' /\ index_table r' = index_table r /\
        forall b n, slot r' b n = if occupies_opt (index_of r new) b n then index_of r new
                                  else if occupies_opt (index_of r old) b n then None else slot r b n
  | Err e => update from_document r old new = Err e
  | Panic => False
  end.
Proof.
  intros Hr Hold Hnew. unfold update.
  destruct (verify_update from_document r old new) as [u| |] eqn:Hv; cbn [obind]; [|done|].
  2:{ by apply verify_update_safe in Hv. }
  unfold verify_update in Hv. unfold apply_verified_update.
  destruct (match old, new with Some o, Some n => verify_both from_document r o n | _, _ => Ret tt end); try done.
  cbn [obind] in Hv.
  destruct (match old with Some o => verify_old from_document r o | None => Ret tt end) eqn:Hvo; try done.
  cbn [obind] in Hv.
  destruct (apply_deletion_ok r old _ Hr Hold Hvo) as (r1 & m & -> & Hr1 & Ht1 & Hs1). cbn [obind].
  destruct new as [d|]; [|by exists r1]. cbn [index_of]. destruct (decide (tablet d = index_table r)) as [Ht|Ht].
  - rewrite !bool_decide_true by congruence. destruct (verify_new_parses r d _ Hv Ht) as [i Hi]. rewrite Hi. cbn [expect obind].
    eexists. split; [done|]. split; [apply insert_ok; [done|by apply (Hnew d)]|].
    split; [unfold insert; by destruct (is_enabled (config i))|]. intros b n. rewrite slot_insert by done. cbn [occupies_opt].
    by rewrite Hs1.
  - rewrite !bool_decide_false by congruence. by exists r1.
Qed.
End update_spec.

Section keys_spec.
Context (sha256 : list Z -> list Z) (search_tokenizer : list Z -> list (list Z)).

Lemma from_search_value_ret v :
  good_opt v -> exists b, forall E, from_search_value sha256 (E := E) v = Ret b.
Proof.
  intros Hv. unfold from_search_value, sort_key. destruct v as [v|]; [|by eexists].
  destruct Hv as [Hv _]. eexists. intros E. by rewrite write_sort_key_enc.
Qed.

(** The filter values of a document's search key. *)
Lemma filter_values_ok d ff :
  good_doc d ->
  exists m, (forall E, foldM (E := E) (fun m field =>
                 let? bytes := from_search_value sha256 (open_path (value d) field) in
                 Ret (BTreeMap.insert field bytes m)) [] ff = Ret m) /\
    forall path fv, path ∈ ff ->
      BTreeMap.get path m = Some fv <-> from_search_value sha256 (E := False) (open_path (value d) path) = Ret fv.
Proof.
  intros Hd. induction ff as [|f ff (m & Hm & Hget)] using rev_ind.
  { exists []. split; [done|]. by intros path fv ?%elem_of_nil. }
  destruct (from_search_value_ret (open_path (value d) f)) as (v & Hv); [apply open_path_good, Hd|].
  assert (Hwf : BTreeMap.wf m).
  { destruct (foldM_inv (E := False) BTreeMap.wf (fun m field =>
      let? bytes := from_search_value sha256 (open_path (value d) field) in
      Ret (BTreeMap.insert field bytes m)) ff []) as (m' & Hm' & Hw); [done| |].
    - intros s x _ Hs. destruct (from_search_value_ret (open_path (value d) x)) as (b & Hb); [apply open_path_good, Hd|].
      rewrite Hb. eexists. split; [done|]. by apply BTreeMap.wf_insert.
    - rewrite Hm in Hm'. by injection Hm' as ->. }
  exists (BTreeMap.insert f v m). split; [intros E; rewrite foldM_app, Hm; cbn [obind foldM]; by rewrite Hv|].
  intros path fv Hin. rewrite BTreeMap.get_insert_if by done. destruct (decide (path = f)) as [->|Hne].
  - rewrite Hv. split; intros [= <-]; done.
  - apply Hget. apply elem_of_app in Hin as [?|Hin]; [done|]. by apply list_elem_of_singleton in Hin.
Qed.

Lemma index_key_value_ret d c :
  good_doc d -> exists kv, forall E, index_key_value sha256 search_tokenizer (E := E) d c = Ret kv.
Proof.
  intros Hd. destruct c as [fields s|sf ff s|dims vf ff s]; cbn [index_key_value].
  - eexists. intros E. rewrite index_key_enc by done. reflexivity.
  - destruct (filter_values_ok d ff Hd) as (m & Hm & _). eexists. intros E. rewrite Hm. reflexivity.
  - by eexists.
Qed.

Definition add_index_key {E} (d : PackedDocument) (m : BTreeMap.t (list Z * list Z) DocumentIndexKeyValue) (index : Index)
    : outcome E (BTreeMap.t (list Z * list Z) DocumentIndexKeyValue) :=
  let? key := index_key_value sha256 search_tokenizer d (config index) in
  Ret match key with Some key => BTreeMap.insert (name index) key m | None => m end.

Lemma add_index_keys_get {E} d n kv l : forall acc,
  good_doc d -> BTreeMap.wf acc ->
  (forall i, i ∈ l -> name i = n -> forall E', index_key_value sha256 search_tokenizer (E := E') d (config i) = Ret (Some kv)) ->
  (BTreeMap.get n acc = Some kv \/ exists i, i ∈ l /\ name i = n) ->
  exists m, foldM (add_index_key (E := E) d) acc l = Ret m /\ BTreeMap.wf m /\ BTreeMap.get n m = Some kv.
Proof.
  induction l as [|i l IH]; intros acc Hd Hacc Hall Hin; cbn [foldM].
  { exists acc. split_and!; [done..|]. destruct Hin as [?|(i & Hi & _)]; [done|by apply elem_of_nil in Hi]. }
  unfold add_index_key at 1. destruct (decide (name i = n)) as [Heq|Hne].
  - rewrite (Hall i ltac:(left) Heq). cbn [obind]. apply IH; [done|by apply BTreeMap.wf_insert| |].
    + intros j Hj. apply Hall. by right.
    + left. subst n. by apply BTreeMap.get_insert_eq.
  - destruct (index_key_value_ret d (config i) Hd) as [kv' Hkv']. rewrite Hkv'. cbn [obind]. apply IH; [done| | |].
    + destruct kv'; [by apply BTreeMap.wf_insert|done].
    + intros j Hj. apply Hall. by right.
    + destruct Hin as [Hin|(j & [->|Hj]%elem_of_cons & Hn)]; [|done|right; eauto].
      left. destruct kv'; [by rewrite BTreeMap.get_insert_ne|done].
Qed.

Lemma add_index_keys_ret d l : forall acc,
  good_doc d -> BTreeMap.wf acc ->
  exists m, (forall E, foldM (add_index_key (E := E) d) acc l = Ret m) /\ BTreeMap.wf m.
Proof.
  induction l as [|i l IH]; intros acc Hd Hacc; [by exists acc|].
  destruct (index_key_value_ret d (config i) Hd) as [kv Hkv].
  destruct (IH (match kv with Some kv => BTreeMap.insert (name i) kv acc | None => acc end) Hd) as (m & Hm & Hwf).
  { destruct kv; [by apply BTreeMap.wf_insert|done]. }
  exists m. split; [|done]. intros E. cbn [foldM]. unfold add_index_key at 1. rewrite Hkv. apply Hm.
Qed.

(** Of an enabled and a pending index of the same name, the keys of a document
    hold the key of the pending one. *)
Lemma document_index_keys_pending r d n i j kv :
  registry_ok r -> good_doc d -> get_enabled r n = Some i -> get_pending r n = Some j ->
  n.1 = tablet_id (id d) -> n.2 <> INDEX_BY_TABLE_ID_VIRTUAL_INDEX_DESCRIPTOR ->
  (forall E, index_key_value sha256 search_tokenizer (E := E) d (config j) = Ret (Some kv)) ->
  exists keys, (forall E, document_index_keys sha256 search_tokenizer (E := E) r d = Ret keys) /\ BTreeMap.get n keys = Some kv.
Proof.
  intros Hr Hd Hi Hj Ht Hv Hkv. destruct (indexes_by_table_pair r n i j Hr Hi Hj) as (l1 & l2 & Hl & Hl2). rewrite Ht in Hl.
  destruct (reg_pending r Hr _ _ Hj) as [Hnj _].
  destruct (add_index_keys_ret d (l1 ++ [i]) []) as (acc & Hacc & Hwf); [done..|].
  destruct (add_index_keys_ret d (j :: l2) acc) as (m & Hm & Hwfm); [done..|].
  assert (Hget : BTreeMap.get n m = Some kv).
  { destruct (add_index_keys_get (E := False) d n kv (j :: l2) acc) as (m' & Hm' & _ & Hget); [done|done| | |].
    - intros x [->|Hx]%elem_of_cons Hxn; [apply Hkv|by apply Hl2 in Hx].
    - right. exists j. split; [left|done].
    - rewrite Hm in Hm'. by injection Hm' as ->. }
  assert (Hall : forall E, foldM (add_index_key (E := E) d) [] (l1 ++ i :: j :: l2) = Ret m).
  { intros E. change (l1 ++ i :: j :: l2) with (l1 ++ [i] ++ (j :: l2)). rewrite app_assoc, foldM_app, Hacc. apply Hm. }
  unfold document_index_keys. unfold add_index_key in Hall. destruct (bool_decide (tablet_id (id d) = index_table r)).
  - eexists. split.
    + intros E. rewrite Hl. cbn [obind]. rewrite Hall. cbn [obind].
      assert (Hnew : index_name_new (tablet_id (id d)) INDEX_BY_TABLE_ID_VIRTUAL_INDEX_DESCRIPTOR
        = Ret (tablet_id (id d), INDEX_BY_TABLE_ID_VIRTUAL_INDEX_DESCRIPTOR)) by done.
      rewrite Hnew. cbn [obind]. rewrite index_key_enc by done. reflexivity.
    + rewrite BTreeMap.get_insert_ne; [done|done|]. intros ->. by apply Hv.
  - exists m. split; [intros E; rewrite Hl; cbn [obind]; by rewrite Hall|done].
Qed.

(** The index [i] is the only one with its name, and not the virtual one. *)
Definition sole (r : IndexRegistry) (i : Index) : Prop :=
  (get_enabled r (name i) = Some i \/ get_pending r (name i) = Some i) /\
  (forall j, get_enabled r (name i) = Some j \/ get_pending r (name i) = Some j -> j = i) /\
  (name i).2 <> INDEX_BY_TABLE_ID_VIRTUAL_INDEX_DESCRIPTOR.

(** A storable document has index keys, and the entry of an index that is
    alone with its name is the key of that index. *)
Lemma document_index_keys_entry r d :
  registry_ok r -> good_doc d ->
  exists keys, (forall E, document_index_keys sha256 search_tokenizer (E := E) r d = Ret keys) /\ BTreeMap.wf keys /\
    forall i kv, sole r i -> (name i).1 = tablet_id (id d) ->
      (forall E, index_key_value sha256 search_tokenizer (E := E) d (config i) = Ret (Some kv)) ->
      BTreeMap.get (name i) keys = Some kv.
Proof.
  intros Hr Hd.
  assert (Hl : exists l, (forall E, indexes_by_table (E := E) r (tablet_id (id d)) = Ret l) /\
    forall i, i ∈ l <-> (name i).1 = tablet_id (id d) /\ (get_enabled r (name i) = Some i \/ get_pending r (name i) = Some i)).
  { by apply indexes_by_table_ret. }
  destruct Hl as (l & Hl & Hli).
  destruct (add_index_keys_ret d l []) as (m & Hm & Hwf); [done..|].
  assert (Hget : forall i kv, sole r i -> (name i).1 = tablet_id (id d) ->
      (forall E, index_key_value sha256 search_tokenizer (E := E) d (config i) = Ret (Some kv)) ->
      BTreeMap.get (name i) m = Some kv).
  { intros i kv (Hreg & Huniq & _) Ht Hkv.
    destruct (add_index_keys_get (E := False) d (name i) kv l []) as (m' & Hm' & _ & Hget); [done|done| | |].
    - intros j [_ Hj]%Hli Hjn E'. rewrite Hjn in Hj. by rewrite (Huniq j Hj).
    - right. exists i. split; [by apply Hli|done].
    - rewrite Hm in Hm'. by injection Hm' as ->. }
  unfold document_index_keys. unfold add_index_key in Hm.
  destruct (bool_decide (tablet_id (id d) = index_table r)).
  - eexists. split; [|split].
    + intros E. rewrite Hl. cbn [obind]. rewrite Hm. cbn [obind].
      assert (Hnew : index_name_new (tablet_id (id d)) INDEX_BY_TABLE_ID_VIRTUAL_INDEX_DESCRIPTOR
        = Ret (tablet_id (id d), INDEX_BY_TABLE_ID_VIRTUAL_INDEX_DESCRIPTOR)) by done.
      rewrite Hnew. cbn [obind]. rewrite index_key_enc by done. reflexivity.
    + by apply BTreeMap.wf_insert.
    + intros i kv Hs Ht Hkv. rewrite BTreeMap.get_insert_ne; [by apply Hget|done|].
      intros Heq. destruct Hs as (_ & _ & Hvirt). apply Hvirt. by rewrite Heq.
  - exists m. split; [intros E; rewrite Hl; cbn [obind]; by rewrite Hm|]. split; [done|apply Hget].
Qed.
End keys_spec.

(** ** The registry follows the [_index] table *)

(** C31: The registry follows the [_index] table.  An update whose old version is
    the registered one is accepted exactly when the checks pass, never panics,
    and keeps the maps of enabled and pending indexes consistent with the set of
    names: afterwards the new index is in the slot of its name and state, the
    old one is gone, no other slot has changed, and listing the indexes of a
    table returns exactly those registered. *)
Theorem registry_update_exact (from_document : PackedDocument -> option Index) r old new :
  registry_ok r ->
  (forall d, old = Some d -> stored from_document r d) -> (forall d, new = Some d -> well_named from_document d) ->
  match verify_update from_document r old new with
  | Ret _ =>
      exists r', update from_document r old new = Ret r' /\ registry_ok r' /\
        (forall b n, slot r' b n =
           if occupies_opt (index_of from_document r new) b n then index_of from_document r new
           else if occupies_opt (index_of from_document r old) b n then None else slot r b n) /\
        forall t, exists l, (forall E, indexes_by_table (E := E) r' t = Ret l) /\
          forall i, i ∈ l <-> (name i).1 = t /\ exists b, slot r' b (name i) = Some i
  | Err e => update from_document r old new = Err e
  | Panic => False
  end.
Proof.
  intros Hr Hold Hnew. pose proof (update_ok from_document r old new Hr Hold Hnew) as Hu.
  destruct (verify_update from_document r old new); [|done..]. destruct Hu as (r' & Hu & Hr' & _ & Hs).
  exists r'. split_and!; [done..|]. intros t. destruct (indexes_by_table_ret r' t Hr') as (l & Hl & Hin).
  exists l. split; [done|]. intros i. rewrite Hin. split; intros [? Hi]; split; try done.
  - destruct Hi; [by exists true|by exists false].
  - destruct Hi as [[] ?]; [by left|by right].
Qed.

Module RegistryExample.
(** A registry with the [by_id] indexes of the [_index] table and of another
    table, on which a pending index is being replaced by its enabled form. *)
Definition by_id_index (t : list Z) (k : Z) : Index :=
  MkIndex (replicate 16 k) (t, INDEX_BY_ID_DESCRIPTOR) (Database [] Enabled).
Definition pending : Index := MkIndex (replicate 16 7) ([1], [98]) (Database [[[97]]] (Backfilled false)).
Definition enabled : Index := MkIndex (replicate 16 7) ([1], [98]) (Database [[[97]]] Enabled).
Definition registry : IndexRegistry :=
  insert (insert (insert (MkRegistry [9] [] [] []) (by_id_index [9] 1)) (by_id_index [1] 2)) pending.
Definition doc (state : Z) : PackedDocument :=
  MkDoc (Object [([115], Int64 state)]) (MkResolved [9] (MkId 3 (replicate 16 7))).
Definition parse (d : PackedDocument) : option Index :=
  match open_path (value d) [[115]] with
  | Some (Int64 0) => Some pending
  | Some (Int64 1) => Some enabled
  | _ => None
  end.

Lemma registry_is_ok : registry_ok registry.
Proof. by repeat apply insert_ok. Qed.
End RegistryExample.

Lemma registry_update_exact_witness :
  exists r', update RegistryExample.parse RegistryExample.registry
               (Some (RegistryExample.doc 0)) (Some (RegistryExample.doc 1)) = Ret r' /\ registry_ok r' /\
    slot r' true ([1], [98]) = Some RegistryExample.enabled /\ slot r' false ([1], [98]) = None.
Proof.
  destruct (registry_update_exact RegistryExample.parse RegistryExample.registry
              (Some (RegistryExample.doc 0)) (Some (RegistryExample.doc 1))) as (r' & Hu & Hr' & Hs & _).
  - apply RegistryExample.registry_is_ok.
  - intros d [= <-] _ i [= <-]. by exists RegistryExample.pending.
  - by intros d [= <-] i [= <-].
  - exists r'. split_and!; [done..| |]; by rewrite Hs.
Defined.
