(* ===== verification/IndexUpdates.v ===== *)
(** * IndexUpdates: what a document update does to the indexes of its table
      (src/crates/indexing/src/index_registry.rs: bootstrap, index_keys,
       index_updates and the listing functions)

    An [IndexKey] is represented by its encoding: keys of one index compare
    like their bytes (Document.v), so the [BTreeMap] of [index_updates] has the
    same entries in the same order. *)

From S2P Require Import Prelude Ord BTreeMap Identifier Value Sorting SortingDecode Base32 IdV6 Document IndexRegistry TableMapping.

Local Open Scope Z_scope.

(** ** Index updates *)

Inductive DatabaseIndexValue :=
| Deleted
| NonClustered (doc_id : ResolvedDocumentId).

Record DatabaseIndexUpdate := MkIndexUpdate {
  upd_index_id : list Z;
  upd_key : list Z;
  upd_value : DatabaseIndexValue;
  is_system_index : bool;
}.

(** [index_keys]: the database indexes of the document's table, with its keys. *)
Definition index_keys {E} (self : IndexRegistry) (document : PackedDocument) : outcome E (list (Index * list Z)) :=
  let? indexes := indexes_by_table self (tablet_id (id document)) in
  let? keys := mapM (fun index =>
    match config index with
    | Database fields _ => let? key := index_key document fields in Ret [(index, key)]
    | _ => Ret []
    end) indexes in
  Ret (concat keys).

Definition put_update (v : DatabaseIndexValue) (updates : BTreeMap.t (list Z * list Z) DatabaseIndexUpdate)
    (e : Index * list Z) : BTreeMap.t (list Z * list Z) DatabaseIndexUpdate :=
  BTreeMap.insert (index_id e.1, e.2)
    {| upd_index_id := index_id e.1; upd_key := e.2; upd_value := v; is_system_index := is_reserved (name e.1).2 |} updates.

Definition index_updates {E} (self : IndexRegistry) (deletion insertion : option PackedDocument)
    : outcome E (list DatabaseIndexUpdate) :=
  let? updates :=
    match deletion with
    | Some old_document =>
        let? keys := index_keys self old_document in Ret (fold_left (put_update Deleted) keys [])
    | None => Ret []
    end in
  let? updates :=
    match insertion with
    | Some new_document =>
        let? keys := index_keys self new_document in
        Ret (fold_left (put_update (NonClustered (id new_document))) keys updates)
    | None => Ret updates
    end in
  Ret (map snd updates).

(** ** Listing *)

Definition is_text_index (c : IndexConfig) : bool := match c with Text _ _ _ => true | _ => false end.
Definition is_vector_index (c : IndexConfig) : bool := match c with Vector _ _ _ _ => true | _ => false end.
Definition is_database_index (c : IndexConfig) : bool := match c with Database _ _ => true | _ => false end.

Definition all_indexes (self : IndexRegistry) : list Index := map snd (enabled_indexes self) ++ map snd (pending_indexes self).

(** [.sorted().dedup()]: the distinct tables in order. *)
Definition all_tables_with_indexes (self : IndexRegistry) : list (list Z) :=
  map fst (fold_left (fun m i => BTreeMap.insert (name i).1 tt m) (all_indexes self) []).

Definition all_text_indexes (self : IndexRegistry) : list Index := bfilter (fun i => is_text_index (config i)) (all_indexes self).
Definition all_vector_indexes (self : IndexRegistry) : list Index := bfilter (fun i => is_vector_index (config i)) (all_indexes self).
Definition all_text_and_vector_indexes (self : IndexRegistry) : list Index :=
  bfilter (fun i => is_text_index (config i) || is_vector_index (config i)) (all_indexes self).
Definition all_database_indexes (self : IndexRegistry) : list Index :=
  bfilter (fun i => is_database_index (config i)) (all_indexes self).

Definition enabled_index_by_index_id (self : IndexRegistry) (i : list Z) : option Index :=
  head (bfilter (fun index => bool_decide (i = index_id index)) (map snd (enabled_indexes self))).
Definition pending_index_by_index_id (self : IndexRegistry) (i : list Z) : option Index :=
  head (bfilter (fun index => bool_decide (i = index_id index)) (map snd (pending_indexes self))).

Definition all_database_index_configs (self : IndexRegistry) : BTreeMap.t (list Z) ((list Z * list Z) * list FieldPath) :=
  fold_left (fun m i =>
    match config i with Database fields _ => BTreeMap.insert (index_id i) (name i, fields) m | _ => m end)
    (all_indexes self) [].

Definition all_enabled_indexes (self : IndexRegistry) : list Index := map snd (enabled_indexes self).

Definition enabled_indexes_for_table (self : IndexRegistry) (t : TabletId) : list Index :=
  map snd (take_while (fun e => bool_decide (e.1.1 = t)) (BTreeMap.range_from (min_for_table t) (enabled_indexes self))).

Definition by_id_indexes (self : IndexRegistry) : BTreeMap.t (list Z) (list Z) :=
  fold_left (fun m i => BTreeMap.insert (name i).1 (index_id i) m)
    (bfilter (fun i => is_by_id (name i)) (all_enabled_indexes self)) [].

Definition has_no_indexes {E} (self : IndexRegistry) (t : TabletId) : outcome E bool :=
  let? table_indexes := indexes_by_table self t in
  Ret (match table_indexes with [] => true | _ => false end).

Definition text_indexes_by_table {E} (self : IndexRegistry) (t : TabletId) : outcome E (list Index) :=
  let? indexes := indexes_by_table self t in Ret (bfilter (fun i => is_text_index (config i)) indexes).
Definition vector_indexes_by_table {E} (self : IndexRegistry) (t : TabletId) : outcome E (list Index) :=
  let? indexes := indexes_by_table self t in Ret (bfilter (fun i => is_vector_index (config i)) indexes).

Definition must_get_by_id (self : IndexRegistry) (t : TabletId) : outcome registry_error Index :=
  ok_or (get_enabled self (by_id t)) MissingById.

Definition index_ids (self : IndexRegistry) : BTreeMap.t (list Z) unit :=
  fold_left (fun m i => BTreeMap.insert (index_id i) tt m) (all_indexes self) [].

(** [same_indexes]: the two sets of ids are equal. *)
Definition same_indexes (self other : IndexRegistry) : bool :=
  bool_decide (map fst (index_ids self) = map fst (index_ids other)).

(** ** Bootstrap *)

Definition INDEX_TABLE : list Z := [95; 105; 110; 100; 101; 120].

Inductive bootstrap_error := NoIndexTable (e : mapping_error) | BadIndexDocument | WrongTable | TwoMetaIndexes | NoMetaIndex.

Section bootstrap.
(** [ParseDocument::parse]: the index and the table its document is in. *)
Context {Doc : Type} (parse : Doc -> option (TabletId * Index)).

Definition lift_mapping {A} (m : outcome mapping_error A) : outcome bootstrap_error A :=
  match m with Ret a => Ret a | Err e => Err (NoIndexTable e) | Panic => Panic end.

(** The loop that separates the [_index.by_id] index from the others. *)
Definition bootstrap_document (index_table : TabletId) (st : option Index * list Index) (document : Doc)
    : outcome bootstrap_error (option Index * list Index) :=
  let? (t, index) := ok_or (parse document) BadIndexDocument in
  let? _ := ensure (bool_decide (t = index_table)) WrongTable in
  if bool_decide (name index = by_id index_table) then
    let? _ := ensure (match st.1 with None => true | _ => false end) TwoMetaIndexes in
    Ret (Some index, st.2)
  else Ret (st.1, st.2 ++ [index]).

Definition registry_bootstrap (table_mapping : TableMapping) (index_documents : list Doc) : outcome bootstrap_error IndexRegistry :=
  let? index_table := lift_mapping (name_to_tablet (mapping_namespace table_mapping Global) INDEX_TABLE) in
  let? _ := lift_mapping (tablet_number table_mapping index_table) in
  let index := MkRegistry index_table [] [] [] in
  let? (meta_index, regular_indexes) := foldM (bootstrap_document index_table) (None, []) index_documents in
  let? meta_index := ok_or meta_index NoMetaIndex in
  Ret (fold_left insert regular_indexes (insert index meta_index)).
End bootstrap.

(** ** Properties *)

(** The key of a document in a database index, as a pure function. *)
Definition doc_key (d : PackedDocument) (fields : list FieldPath) : list Z := concat (map enc_opt (index_values d fields)).

(** The registered database indexes of a table. *)
Definition database_index (r : IndexRegistry) (t : TabletId) (i : Index) (fields : list FieldPath) : Prop :=
  (name i).1 = t /\ (get_enabled r (name i) = Some i \/ get_pending r (name i) = Some i) /\
  exists s, config i = Database fields s.

Lemma document_keys_ret r d :
  registry_ok r -> good_doc d ->
  exists l, (forall E, index_keys (E := E) r d = Ret l) /\
    forall i k, (i, k) ∈ l <-> exists fields, database_index r (tablet_id (id d)) i fields /\ k = doc_key d fields.
Proof.
  intros Hr Hd. destruct (indexes_by_table_ret r (tablet_id (id d)) Hr) as (ixs & Hixs & Hel).
  set (g := fun i : Index => match config i with Database fields _ => [(i, doc_key d fields)] | _ => [] end).
  exists (concat (map g ixs)). split.
  - intros E. unfold index_keys. rewrite Hixs. cbn [obind].
    rewrite (mapM_ret (fun E i => match config i with
      | Database fields _ => let? key := index_key (E := E) d fields in Ret [(i, key)] | _ => Ret [] end) g); [done|].
    intros i _ E'. unfold g. destruct (config i); [by rewrite index_key_enc|done|done].
  - intros i k. rewrite elem_of_concat_map. unfold g, database_index. split.
    + intros (j & Hj & Hin). apply Hel in Hj as (Ht & Hreg). destruct (config j) as [fields s| |] eqn:Hc;
        [|by apply elem_of_nil in Hin..]. apply list_elem_of_singleton in Hin as [= -> ->].
      exists fields. split_and!; eauto.
    + intros (fields & (Ht & Hreg & s & Hc) & ->). exists i. split; [by apply Hel|]. rewrite Hc. left.
Qed.

(** What [index_updates] holds for one index entry. *)
Definition update_at (r : IndexRegistry) (old new : option PackedDocument) (iid k : list Z) : option DatabaseIndexValue -> Prop :=
  fun o => match o with
  | Some (NonClustered i) => exists d ix fields, new = Some d /\ i = id d /\
      database_index r (tablet_id (id d)) ix fields /\ index_id ix = iid /\ k = doc_key d fields
  | Some Deleted => (exists d ix fields, old = Some d /\
      database_index r (tablet_id (id d)) ix fields /\ index_id ix = iid /\ k = doc_key d fields) /\
      ~ exists d ix fields, new = Some d /\ database_index r (tablet_id (id d)) ix fields /\ index_id ix = iid /\ k = doc_key d fields
  | None => ~ (exists d ix fields, (old = Some d \/ new = Some d) /\
      database_index r (tablet_id (id d)) ix fields /\ index_id ix = iid /\ k = doc_key d fields)
  end.

Lemma put_updates_get v keys : forall m iid k,
  BTreeMap.wf m -> BTreeMap.wf (fold_left (put_update v) keys m) /\
  option_map upd_value (BTreeMap.get (iid, k) (fold_left (put_update v) keys m)) =
    if existsb (fun e : Index * list Z => bool_decide (index_id e.1 = iid /\ e.2 = k)) keys then Some v
    else option_map upd_value (BTreeMap.get (iid, k) m).
Proof.
  induction keys as [|[i k'] keys IH]; intros m iid k Hm; cbn [fold_left existsb]; [done|].
  assert (Hm' : BTreeMap.wf (put_update v m (i, k'))) by (by apply BTreeMap.wf_insert).
  destruct (IH _ iid k Hm') as [Hwf ->]. split; [done|]. destruct (existsb _ keys); [by rewrite orb_true_r|]. rewrite orb_false_r.
  unfold put_update. cbn [fst snd]. rewrite BTreeMap.get_insert_if by done.
  case_bool_decide as Hb; [destruct Hb as [-> ->]; by rewrite decide_True|].
  rewrite decide_False; [done|]. intros [= -> ->]. by apply Hb.
Qed.

Lemma put_updates_entry v keys : forall m e,
  (forall e, e ∈ m -> e.1 = (upd_index_id e.2, upd_key e.2)) -> BTreeMap.wf m ->
  e ∈ fold_left (put_update v) keys m -> e.1 = (upd_index_id e.2, upd_key e.2).
Proof.
  induction keys as [|[i k'] keys IH]; intros m e Hm Hwf He; cbn [fold_left] in He; [by apply Hm|].
  apply IH in He; [done| |by apply BTreeMap.wf_insert]. intros [k0 u] Hin.
  apply BTreeMap.elem_of_insert in Hin; [|done]. destruct Hin as [[-> ->]|[_ Hin]]; [done|by apply (Hm _ Hin)].
Qed.

(** The value the updates have for an entry, decided by the keys of both versions. *)
Lemma updates_decide r old new lo ln iid k :
  (forall d, old = Some d -> forall i k, (i, k) ∈ lo <-> exists fields, database_index r (tablet_id (id d)) i fields /\ k = doc_key d fields) ->
  (old = None -> lo = []) ->
  (forall d, new = Some d -> forall i k, (i, k) ∈ ln <-> exists fields, database_index r (tablet_id (id d)) i fields /\ k = doc_key d fields) ->
  (new = None -> ln = []) ->
  let has l := existsb (fun e : Index * list Z => bool_decide (index_id e.1 = iid /\ e.2 = k)) l in
  update_at r old new iid k
    (if has ln then match new with Some d => Some (NonClustered (id d)) | None => None end
     else if has lo then Some Deleted else None).
Proof.
  intros Ho Ho0 Hn Hn0 has.
  assert (Hh : forall l, has l = true <-> exists ix, (ix, k) ∈ l /\ index_id ix = iid).
  { intros l. unfold has. rewrite existsb_elem. setoid_rewrite bool_decide_eq_true. split.
    - intros ([i k'] & Hin & <- & <-). eauto.
    - intros (ix & Hin & <-). by exists (ix, k). }
  assert (Hold : has lo = true <-> exists d ix fields, old = Some d /\ database_index r (tablet_id (id d)) ix fields /\ index_id ix = iid /\ k = doc_key d fields).
  { rewrite Hh. destruct old as [d|]; [|rewrite Ho0 by done; split; [by intros (? & []%elem_of_nil & _)|by intros (? & ? & ? & ? & _)]].
    specialize (Ho d eq_refl). split; [intros (ix & (f & ? & ->)%Ho & ?); naive_solver|].
    intros (d' & ix & f & [= <-] & ? & ? & ?). exists ix. split; [apply Ho; eauto|done]. }
  assert (Hnew : has ln = true <-> exists d ix fields, new = Some d /\ database_index r (tablet_id (id d)) ix fields /\ index_id ix = iid /\ k = doc_key d fields).
  { rewrite Hh. destruct new as [d|]; [|rewrite Hn0 by done; split; [by intros (? & []%elem_of_nil & _)|by intros (? & ? & ? & ? & _)]].
    specialize (Hn d eq_refl). split; [intros (ix & (f & ? & ->)%Hn & ?); naive_solver|].
    intros (d' & ix & f & [= <-] & ? & ? & ?). exists ix. split; [apply Hn; eauto|done]. }
  destruct (has ln) eqn:En.
  - destruct (proj1 Hnew eq_refl) as (d & ix & f & -> & Hdb & Hid & Hk). exists d, ix, f. by split_and!.
  - assert (Hno : ~ exists d ix fields, new = Some d /\ database_index r (tablet_id (id d)) ix fields /\ index_id ix = iid /\ k = doc_key d fields).
    { intros H. apply Hnew in H. discriminate H. }
    destruct (has lo) eqn:Eo; [by split; [apply Hold|]|].
    intros (d & ix & f & [Hd|Hd] & Hrest); [|apply Hno; by exists d, ix, f].
    assert (Hc : false = true) by (apply Hold; by exists d, ix, f). discriminate Hc.
Qed.

(** The updates are the entries whose content changes: those with a key of the
    new version hold it, those with a key of the old version only are deleted. *)
Lemma index_updates_ret r old new :
  registry_ok r -> (forall d, old = Some d \/ new = Some d -> good_doc d) ->
  exists m, (forall E, index_updates (E := E) r old new = Ret (map snd m)) /\ BTreeMap.wf m /\
    (forall e, e ∈ m -> e.1 = (upd_index_id e.2, upd_key e.2)) /\
    forall iid k, update_at r old new iid k (option_map upd_value (BTreeMap.get (iid, k) m)).
Proof.
  intros Hr Hd.
  assert (Hk : forall o : option PackedDocument, (forall d, o = Some d -> good_doc d) -> exists l,
    (forall E, match o with Some d => index_keys (E := E) r d | None => Ret [] end = Ret l) /\ (o = None -> l = []) /\
    forall d, o = Some d -> forall i k, (i, k) ∈ l <-> exists fields, database_index r (tablet_id (id d)) i fields /\ k = doc_key d fields).
  { intros [d|] Hg; [|by exists []]. destruct (document_keys_ret r d Hr (Hg d eq_refl)) as (l & Hl & Hel).
    exists l. split_and!; [done|done|]. by intros ? [= <-]. }
  destruct (Hk old) as (lo & Hlo & Hlo0 & Helo); [eauto|]. destruct (Hk new) as (ln & Hln & Hln0 & Heln); [eauto|].
  set (mo := fold_left (put_update Deleted) lo []).
  set (m := match new with Some d => fold_left (put_update (NonClustered (id d))) ln mo | None => mo end).
  assert (Hmo : BTreeMap.wf mo) by (by apply (put_updates_get Deleted lo [] [] [])).
  exists m. split_and!.
  - intros E. unfold index_updates, m, mo. specialize (Hlo E). specialize (Hln E).
    destruct old as [do|]; destruct new as [dn|]; cbn [obind]; rewrite ?Hlo, ?Hln; cbn [obind]; rewrite ?Hln; cbn [obind];
      try done; by rewrite (Hlo0 eq_refl).
  - unfold m. destruct new as [dn|]; [|done]. by apply (put_updates_get (NonClustered (id dn)) ln mo [] []).
  - intros e He. unfold m in He.
    assert (Hmoe : forall e, e ∈ mo -> e.1 = (upd_index_id e.2, upd_key e.2)).
    { intros e' He'. apply (put_updates_entry Deleted lo [] e'); [by intros ? ?%elem_of_nil|done|done]. }
    destruct new as [dn|]; [|by apply Hmoe]. by apply (put_updates_entry (NonClustered (id dn)) ln mo e).
  - intros iid k. pose proof (updates_decide r old new lo ln iid k Helo Hlo0 Heln Hln0) as Hdec. cbv zeta in Hdec.
    destruct (put_updates_get Deleted lo [] iid k I) as [_ Hgo]. fold mo in Hgo. cbn [BTreeMap.get option_map] in Hgo.
    unfold m. destruct new as [dn|].
    + rewrite (proj2 (put_updates_get (NonClustered (id dn)) ln mo iid k Hmo)), Hgo. exact Hdec.
    + rewrite Hgo. rewrite (Hln0 eq_refl) in Hdec. exact Hdec.
Qed.
