(* ===== verification/IndexKeys.v ===== *)
(** * IndexKeys: what the keys of one index look like

    The keys of the documents of a table in one index (Document.v) are byte
    strings, no key is a proper prefix of another, and documents with the same
    key are the same document.  The cache of an index snapshot and the cursors
    of a range rely on it: they stand for a key by the interval of its
    prefix. *)

From S2P Require Import Prelude Ord BTreeMap BinaryKey Bounds Interval Identifier Value Sorting SortingDecode Base32 IdV6 Document IndexRegistry IndexUpdates.

Local Open Scope Z_scope.

(** ** Keys are bytes *)

Lemma bytes_esc l : bytes l -> bytes (esc l).
Proof.
  induction 1 as [|b l Hb _ IH]; cbn [esc]; [by apply (bool_decide_unpack (bytes [TERMINATOR_BYTE]))|].
  destruct (b =? TERMINATOR_BYTE); rewrite ?bytes_cons; [|done]. by split_and!.
Qed.

Lemma bytes_concat {A} (g : A -> list Z) xs : Forall (fun x => bytes (g x)) xs -> bytes (concat (map g xs)).
Proof. induction 1 as [|x xs Hx _ IH]; cbn [map concat]; [constructor|]. by apply bytes_app. Qed.

Lemma enc_bytes v : valid v = true -> bytes (enc v).
Proof.
  assert (Hend : bytes [TERMINATOR_BYTE]) by (by apply (bool_decide_unpack (bytes [TERMINATOR_BYTE]))).
  induction v as [|n|f|b|s|b|xs IH|xs IH] using ConvexValue_ind'; intros Hv.
  - by apply (bool_decide_unpack (bytes [NULL_TAG])).
  - rewrite enc_Int64. apply bytes_cons. split; [|unfold int_payload; case_match; [constructor|apply bytes_be_bytes]].
    apply int_tag_bounds in Hv. unfold u8, NEG_INT64_8_BYTE_TAG, POS_INT64_8_BYTE_TAG in *. lia.
  - apply bytes_cons. split; [unfold u8, FLOAT64_TAG; lia|apply bytes_be_bytes].
  - destruct b; [by apply (bool_decide_unpack (bytes [TRUE_BOOLEAN_TAG]))|by apply (bool_decide_unpack (bytes [FALSE_BOOLEAN_TAG]))].
  - cbn [valid] in Hv. bool_hyps. apply bytes_cons. split; [unfold u8, STRING_TAG; lia|]. apply bytes_esc.
    by apply bool_decide_eq_true_1 in H.
  - cbn [valid] in Hv. bool_hyps. apply bytes_cons. split; [unfold u8, BYTES_TAG; lia|]. apply bytes_esc.
    by apply bool_decide_eq_true_1 in H.
  - cbn [valid enc] in *. bool_hyps. apply bytes_cons. split; [unfold u8, ARRAY_TAG; lia|]. apply bytes_app. split; [|done].
    apply bytes_concat, Forall_forall. intros x Hx. rewrite Forall_forall in IH. apply (IH x Hx).
    by apply (proj1 (forallb_elem _ _) H0).
  - apply valid_Object in Hv as (_ & _ & Hv). cbn [enc]. apply bytes_cons. split; [unfold u8, OBJECT_TAG; lia|].
    apply bytes_app. split; [|done]. apply bytes_concat, Forall_forall. intros e He. rewrite Forall_forall in IH.
    apply bytes_app. split; [apply bytes_esc|by apply (IH e He), Hv].
    by apply Hv.
Qed.

(** ** No key is a proper prefix of another *)

Lemma esc_no_zero l : 0 ∉ l -> esc l = l ++ [TERMINATOR_BYTE].
Proof.
  induction l as [|b l IH]; intros Hn; cbn [esc app]; [done|]. apply not_elem_of_cons in Hn as [Hb Hn].
  rewrite (proj2 (Z.eqb_neq b TERMINATOR_BYTE)) by (by unfold TERMINATOR_BYTE). by rewrite IH.
Qed.

(** The text of an id has no zero byte. *)
Lemma id_value_text i : valid_id i -> exists s, id_value i = String s /\ good (String s) /\ 0 ∉ s.
Proof.
  intros Hi. destruct (id_encode_value i Hi) as (s & Henc & Hv & Hg & _). exists s. split_and!; [done..|].
  destruct (IdV6.encode_ok i Hi) as (t & buf & Henc' & Hb & _). specialize (Henc unit). rewrite Henc' in Henc. injection Henc as <-.
  intros (x & Hx & Hin)%list_elem_of_fmap. pose proof (indexes_of_index buf Hb) as Hall.
  rewrite Forall_forall in Hall. apply Hall in Hin. apply alph_spec in Hin as (Hd & Hne & _).
  rewrite <- Hx in Hd. change (DECODE_TABLE !! Z.to_nat 0) with (Some 255) in Hd. congruence.
Qed.

Lemma app_zero_inj (s s' t t' : list Z) : 0 ∉ s -> 0 ∉ s' -> s ++ 0 :: t = s' ++ 0 :: t' -> s = s' /\ t = t'.
Proof.
  revert s'. induction s as [|b s IH]; intros [|b' s'] Hs Hs' Heq; simpl in *; simplify_eq; [done|set_solver|set_solver|].
  apply not_elem_of_cons in Hs as [_ Hs], Hs' as [_ Hs']. by destruct (IH s' Hs Hs') as [-> ->].
Qed.

(** Encodings of lists of values of the same length that end with an id. *)
Lemma enc_opts_prefix_free vs ws s s' t :
  Forall good_opt vs -> Forall good_opt ws -> length vs = length ws ->
  good (String s) -> good (String s') -> 0 ∉ s -> 0 ∉ s' ->
  concat (map enc_opt (vs ++ [Some (String s)])) ++ t = concat (map enc_opt (ws ++ [Some (String s')])) ->
  t = [] /\ s = s'.
Proof.
  intros Hvs Hws Hlen Hs Hs' Hz Hz'. revert ws Hws Hlen.
  induction Hvs as [|v vs Hv Hvs IH]; intros [|w ws] Hws Hlen Heq; try discriminate Hlen.
  - cbn [map concat app enc_opt enc] in Heq. injection Heq as Heq.
    rewrite !app_nil_r, !esc_no_zero, <- (assoc (++)) in Heq by done. by apply app_zero_inj in Heq as [-> ->].
  - apply Forall_cons in Hws as [Hw Hws]. cbn [map concat app] in Heq. injection Hlen as Hlen.
    assert (Hg : forall us u, Forall good_opt us -> good (String u) -> Forall good_opt (us ++ [Some (String u)])).
    { intros us u Hus Hu. apply Forall_app. split; [done|]. by apply Forall_singleton. }
    set (r1 := concat (map enc_opt (vs ++ [Some (String s)]))) in *.
    set (r2 := concat (map enc_opt (ws ++ [Some (String s')]))) in *.
    assert (Hr1 : tail_ok (r1 ++ t)).
    { pose proof (enc_opt_tail_ok _ (Hg vs s Hvs Hs)) as Hr. fold r1 in Hr. destruct r1 as [|c r1'] eqn:E; [|done].
      exfalso. revert E. unfold r1. rewrite map_app, concat_app. intros [_ E2]%app_eq_nil. done. }
    assert (Hr2 : tail_ok r2) by (by apply enc_opt_tail_ok, Hg).
    rewrite <- (assoc (++)) in Heq. pose proof (enc_opt_cmp v w _ _ Hv Hw Hr1 Hr2) as Hc.
    rewrite Heq, cmp_refl in Hc. symmetry in Hc. unfold lex_cmp in Hc. destruct (opt_cmp v w); try done.
    apply cmp_eq_iff in Hc. by apply (IH ws).
Qed.

Section documents.
Implicit Types (d : PackedDocument) (fields : list FieldPath).

Lemma doc_key_bytes d fields : good_doc d -> bytes (doc_key d fields).
Proof.
  intros Hd. apply bytes_concat. eapply Forall_impl; [by apply (index_values_good d fields)|].
  intros [v|] Hv; [by apply enc_bytes, Hv|by apply (bool_decide_unpack (bytes [UNDEFINED_TAG]))].
Qed.

Lemma doc_key_prefix d d' fields :
  good_doc d -> good_doc d' -> doc_key d fields `prefix_of` doc_key d' fields ->
  doc_key d fields = doc_key d' fields /\ developer_id (id d) = developer_id (id d').
Proof.
  intros Hd Hd' [t Ht]. destruct Hd as (Ho & Hv & Hi), Hd' as (Ho' & Hv' & Hi').
  destruct (id_value_text _ Hi) as (s & Hs & Hgs & Hz), (id_value_text _ Hi') as (s' & Hs' & Hgs' & Hz').
  assert (Hall : forall v, good v -> Forall good_opt (map (open_path v) fields)).
  { intros v Hg. apply Forall_forall. intros ? (p & -> & _)%list_elem_of_fmap. by apply open_path_good. }
  pose proof Ht as Ht'. unfold doc_key, index_values in Ht. rewrite Hs, Hs' in Ht. symmetry in Ht.
  apply enc_opts_prefix_free in Ht as [-> ->]; [|by apply Hall|by apply Hall|by rewrite !length_map|done..].
  split; [by rewrite Ht', app_nil_r|].
  destruct (id_encode_value _ Hi) as (u & _ & Hu & _ & Hdec & _), (id_encode_value _ Hi') as (u' & _ & Hu' & _ & Hdec' & _).
  rewrite Hs in Hu. rewrite Hs' in Hu'. injection Hu as <-. injection Hu' as <-. congruence.
Qed.

(** The interval of a key's prefix holds no other key of the index. *)
Lemma doc_key_inside_prefix d d' fields :
  good_doc d -> good_doc d' -> inside (prefix (doc_key d fields)) (doc_key d' fields) ->
  doc_key d fields = doc_key d' fields.
Proof. intros Hd Hd' H. apply prefix_contains in H; [|by apply doc_key_bytes]. by apply doc_key_prefix. Qed.

Lemma doc_key_inj d d' fields :
  good_doc d -> good_doc d' -> doc_key d fields = doc_key d' fields -> developer_id (id d) = developer_id (id d').
Proof. intros Hd Hd' H. apply (doc_key_prefix d d' fields Hd Hd'). by rewrite H. Qed.
End documents.
