(* ===== verification/MemoryIndexes.v ===== *)
(** * MemoryIndexes: the in-memory database indexes
      (src/crates/indexing/src/backend_in_memory_indexes.rs:
       DatabaseIndexMap, InMemoryIndexes, BackendInMemoryIndexes)

    An index in memory is the map from the key of each live document of its
    table to the document and the timestamp it was written at.  The documents
    that are live are a function of the document id ([live]); [index_exact]
    says that a map is the index of a table over given fields.  A packed
    document is its value, and the parsed form a [MemoryDocument] caches is
    left out. *)

From S2P Require Import Prelude Ord BTreeMap BinaryKey Bounds Interval Timestamp Identifier Value Sorting SortingDecode Base32 IdV6 Document TableMapping IndexRegistry IndexUpdates IndexKeys.

Local Open Scope Z_scope.

Notation IndexId := (list Z) (only parsing).
Notation IndexKeyBytes := (list Z) (only parsing).

Inductive index_error :=
| MissingMetaIndex
| TableUnknown (e : mapping_error)
| IndexNotEnabled
| IndexForWrongTable
| IndexNotBackfilled
| NotADatabaseIndex
| RegistryErr (e : registry_error)
| PersistenceErr
| NotMakingProgress
| IndexNotUnique
| NotSingleField
| RegistryChanged.

(** [Order::apply]. *)
Definition order_apply {A} (order : Order) (l : list A) : list A :=
  match order with Asc => l | Desc => rev l end.

Lemma elem_of_order_apply {A} order (l : list A) x : x ∈ order_apply order l <-> x ∈ l.
Proof. destruct order; cbn [order_apply]; [done|]. by rewrite !list_elem_of_In, <- in_rev. Qed.

(** ** [DatabaseIndexMap] *)

(** A set of [IndexDocument]s, which compare by their keys: inserting replaces. *)
Record DatabaseIndexMap := MkIndexMap {
  inner : BTreeMap.t IndexKeyBytes (Timestamp * PackedDocument);
  last_modified : Timestamp;
}.

Definition new_at (ts : Timestamp) : DatabaseIndexMap := MkIndexMap [] ts.

(** The entries of an ordered map in an interval. *)
Definition rows_in {V} (interval : Interval) (m : BTreeMap.t IndexKeyBytes V) : BTreeMap.t IndexKeyBytes V :=
  bfilter (fun e => contains interval e.1) m.

Definition index_map_range (self : DatabaseIndexMap) (interval : Interval)
    : list (IndexKeyBytes * (Timestamp * PackedDocument)) := rows_in interval (inner self).

Definition index_map_insert (self : DatabaseIndexMap) (key : IndexKeyBytes) (ts : Timestamp) (document : PackedDocument)
    : DatabaseIndexMap :=
  MkIndexMap (BTreeMap.insert key (ts, document) (inner self)) (Z.max (last_modified self) ts).

Definition index_map_remove (self : DatabaseIndexMap) (k : IndexKeyBytes) (ts : Timestamp) : DatabaseIndexMap :=
  MkIndexMap (BTreeMap.remove k (inner self)) (Z.max (last_modified self) ts).

(** ** [PersistenceSnapshot]: reads at one timestamp

    [index_scan] is the stream of results; its size hint does not change what
    the stream yields. *)
Record PersistenceSnapshot := MkPersistence {
  index_scan : IndexId -> TabletId -> Interval -> Order -> list (outcome index_error (IndexKeyBytes * (Timestamp * PackedDocument)));
  snapshot_ts : Timestamp;
}.

(** ** [InMemoryIndexes] *)

Class InMemoryIndexes (M : Type) := {
  memory_range : M -> IndexId -> Interval -> Order ->
    outcome index_error (option (list (IndexKeyBytes * (Timestamp * PackedDocument))));
}.

(** ** [BackendInMemoryIndexes] *)

Record BackendInMemoryIndexes := MkBackend { in_memory_indexes : BTreeMap.t IndexId DatabaseIndexMap }.

Definition backend_range (self : BackendInMemoryIndexes) (index_id : IndexId) (interval : Interval) (order : Order)
    : outcome index_error (option (list (IndexKeyBytes * (Timestamp * PackedDocument)))) :=
  Ret (option_map (fun index_map => order_apply order (index_map_range index_map interval))
         (BTreeMap.get index_id (in_memory_indexes self))).

#[global] Instance Backend_InMemoryIndexes : InMemoryIndexes BackendInMemoryIndexes := {| memory_range := backend_range |}.

(** [NoInMemoryIndexes]. *)
Inductive NoInMemoryIndexes := MkNoIndexes.
#[global] Instance No_InMemoryIndexes : InMemoryIndexes NoInMemoryIndexes := {| memory_range := fun _ _ _ _ => Ret None |}.

(** The meta index is keyed by the id alone. *)
Definition bootstrap_insert {E} (index_map : DatabaseIndexMap) (e : Timestamp * PackedDocument) : outcome E DatabaseIndexMap :=
  let? index_key := new_allow_missing [] (developer_id (id e.2)) in
  let? bytes := to_bytes index_key in
  Ret (index_map_insert index_map bytes e.1 e.2).

Definition backend_bootstrap (index_registry : IndexRegistry) (index_documents : list (Timestamp * PackedDocument))
    (ts : Timestamp) : outcome index_error BackendInMemoryIndexes :=
  let? meta_index := ok_or (get_enabled index_registry (by_id (index_table index_registry))) MissingMetaIndex in
  let? meta_index_map := foldM bootstrap_insert (new_at ts) index_documents in
  Ret (MkBackend [(index_id meta_index, meta_index_map)]).

(** Adds one document to an index over [fields]. *)
Definition insert_document {E} (fields : list FieldPath) (index_map : DatabaseIndexMap) (e : Timestamp * PackedDocument)
    : outcome E DatabaseIndexMap :=
  let? key := index_key e.2 fields in
  Ret (index_map_insert index_map key e.1 e.2).

(** The checks of [load_enabled] on one index. *)
Definition check_loadable (tablet : TabletId) (index : Index) : outcome index_error unit :=
  ensure (bool_decide ((name index).1 = tablet)) IndexForWrongTable ;?
  match config index with
  | Database _ on_disk_state => ensure (bool_decide (on_disk_state = Enabled)) IndexNotBackfilled
  | _ => Err NotADatabaseIndex
  end.

(** [load_enabled]: the maps of all indexes are filled from one scan. *)
Definition load_enabled (self : BackendInMemoryIndexes) (tablet : TabletId) (indexes : list Index)
    (snapshot : PersistenceSnapshot) : outcome index_error (BackendInMemoryIndexes * (nat * Z)) :=
  let indexes := bfilter (fun index =>
    match BTreeMap.get (index_id index) (in_memory_indexes self) with Some _ => false | None => true end) indexes in
  match indexes with
  | [] => Ret (self, (O, 0))
  | first :: _ =>
      foldM (fun _ index => check_loadable tablet index) tt indexes ;?
      let? entries := mapM (fun r => r) (index_scan snapshot (index_id first) tablet all Asc) in
      let docs := map snd entries in
      let? index_maps := mapM (fun index =>
        match config index with
        | Database fields _ => foldM (insert_document fields) (new_at (snapshot_ts snapshot)) docs
        | _ => Panic
        end) indexes in
      Ret (MkBackend (fold_left (fun m (e : Index * DatabaseIndexMap) => BTreeMap.insert (index_id e.1) e.2 m)
                        (zip indexes index_maps) (in_memory_indexes self)),
           (length entries, fold_left (fun n (e : Timestamp * PackedDocument) => n + size (value e.2)) docs 0))
  end.

(** One round of the first loop of [load_enabled_for_tables]. *)
Definition collect_loadable (table_mapping : TableMapping) (tables : list (list Z))
    (indexes_by_table : BTreeMap.t TabletId (list Index)) (index_metadata : Index)
    : outcome index_error (BTreeMap.t TabletId (list Index)) :=
  let? table_name :=
    match tablet_name table_mapping (name index_metadata).1 with
    | Ret n => Ret n | Err e => Err (TableUnknown e) | Panic => Panic end in
  if bool_decide (table_name ∈ tables) then
    match config index_metadata with
    | Database _ on_disk_state =>
        ensure (bool_decide (on_disk_state = Enabled)) IndexNotEnabled ;?
        let t := (name index_metadata).1 in
        Ret (BTreeMap.insert t (default [] (BTreeMap.get t indexes_by_table) ++ [index_metadata]) indexes_by_table)
    | _ => Ret indexes_by_table
    end
  else Ret indexes_by_table.

Definition load_enabled_for_tables (self : BackendInMemoryIndexes) (index_registry : IndexRegistry)
    (table_mapping : TableMapping) (snapshot : PersistenceSnapshot) (tables : list (list Z))
    : outcome index_error BackendInMemoryIndexes :=
  let? indexes_by_table := foldM (collect_loadable table_mapping tables) [] (all_enabled_indexes index_registry) in
  foldM (fun self (e : TabletId * list Index) =>
    let? (self, _) := load_enabled self e.1 e.2 snapshot in Ret self) self indexes_by_table.

Definition load_index {E} (documents : list (Timestamp * PackedDocument)) (snapshot_timestamp : Timestamp)
    (self : BackendInMemoryIndexes) (index_doc : Index) : outcome E BackendInMemoryIndexes :=
  match config index_doc with
  | Database fields on_disk_state =>
      let? _ := rassert (bool_decide (on_disk_state = Enabled)) in
      let? index_map := foldM (insert_document fields) (new_at snapshot_timestamp) documents in
      Ret (MkBackend (BTreeMap.insert (index_id index_doc) index_map (in_memory_indexes self)))
  | _ => Ret self
  end.

Definition load_table {E} (self : BackendInMemoryIndexes) (index_registry : IndexRegistry) (tablet : TabletId)
    (documents : list (Timestamp * PackedDocument)) (snapshot_timestamp : Timestamp) : outcome E BackendInMemoryIndexes :=
  foldM (load_index documents snapshot_timestamp) self (enabled_indexes_for_table index_registry tablet).

(** The body of the loop of [update]. *)
Definition apply_index_update {E} (ts : Timestamp) (insertion : option PackedDocument) (self : BackendInMemoryIndexes)
    (update : DatabaseIndexUpdate) : outcome E BackendInMemoryIndexes :=
  match BTreeMap.get (upd_index_id update) (in_memory_indexes self) with
  | None => Ret self
  | Some key_set =>
      let? key_set :=
        match upd_value update with
        | Deleted => Ret (index_map_remove key_set (upd_key update) ts)
        | NonClustered doc_id =>
            match insertion with
            | Some doc =>
                let? _ := rassert (bool_decide (doc_id = id doc)) in
                Ret (index_map_insert key_set (upd_key update) ts doc)
            | None => Panic
            end
        end in
      Ret (MkBackend (BTreeMap.insert (upd_index_id update) key_set (in_memory_indexes self)))
  end.

Definition backend_update {E} (self : BackendInMemoryIndexes) (index_registry : IndexRegistry) (ts : Timestamp)
    (deletion insertion : option PackedDocument) : outcome E (BackendInMemoryIndexes * list DatabaseIndexUpdate) :=
  let self :=
    match deletion, insertion with
    | Some old_document, None =>
        if bool_decide (tablet_id (id old_document) = index_table index_registry) then
          MkBackend (BTreeMap.remove (internal_id (developer_id (id old_document))) (in_memory_indexes self))
        else self
    | _, _ => self
    end in
  let? updates := index_updates index_registry deletion insertion in
  let? self := foldM (apply_index_update ts insertion) self updates in
  Ret (self, updates).

Definition in_memory_indexes_last_modified (self : BackendInMemoryIndexes) : BTreeMap.t IndexId Timestamp :=
  map (fun e => (e.1, last_modified e.2)) (in_memory_indexes self).

(** ** What an index holds *)

(** The live documents with the time each was written. *)
Notation live T := (ResolvedDocumentId -> option (T * PackedDocument)) (only parsing).

Section exact.
Context {T : Type}.
Implicit Types (db : live T) (d : PackedDocument) (fields : list FieldPath) (t : TabletId).

Definition db_ok db : Prop := forall i ts d, db i = Some (ts, d) -> id d = i /\ good_doc d.

Definition entry_of db t fields (k : IndexKeyBytes) (v : T * PackedDocument) : Prop :=
  db (id v.2) = Some v /\ tablet_id (id v.2) = t /\ k = doc_key v.2 fields.

(** [m] is the index over [fields] of the table [t]. *)
Definition index_exact db t fields (m : BTreeMap.t IndexKeyBytes (T * PackedDocument)) : Prop :=
  BTreeMap.wf m /\ forall k v, BTreeMap.get k m = Some v <-> entry_of db t fields k v.

Definition write db (i : ResolvedDocumentId) (v : option (T * PackedDocument)) : live T :=
  fun j => if bool_decide (j = i) then v else db j.

(** [old] is the live version of the document [i], and [new] replaces it. *)
Definition write_ok db (i : ResolvedDocumentId) (old new : option PackedDocument) : Prop :=
  old = option_map snd (db i) /\ (forall d, new = Some d -> id d = i /\ good_doc d).

Definition keyed t fields (k : IndexKeyBytes) (o : option PackedDocument) : bool :=
  match o with Some d => bool_decide (tablet_id (id d) = t /\ doc_key d fields = k) | None => false end.

(** What the replacement does to the row of a key. *)
Definition change t fields (ts : T) (old new : option PackedDocument) (k : IndexKeyBytes) : option (option (T * PackedDocument)) :=
  if keyed t fields k new then Some (option_map (pair ts) new)
  else if keyed t fields k old then Some None else None.

Lemma db_ok_write db i old new ts : db_ok db -> write_ok db i old new -> db_ok (write db i (option_map (pair ts) new)).
Proof.
  intros Hdb [_ Hn] j ts' d. unfold write. case_bool_decide as Hj; [|by apply Hdb]. subst j.
  destruct new as [d'|]; [|done]. intros [= _ <-]. by apply Hn.
Qed.

Lemma entry_key_inj db t fields k v v' : db_ok db -> entry_of db t fields k v -> entry_of db t fields k v' -> v = v'.
Proof.
  intros Hdb (Hv & Ht & ->) (Hv' & Ht' & Hk). destruct v as [ts d], v' as [ts' d']. cbn [snd] in *.
  pose proof (proj2 (Hdb _ _ _ Hv)) as Hg. pose proof (proj2 (Hdb _ _ _ Hv')) as Hg'.
  pose proof (doc_key_inj d d' fields Hg Hg' Hk) as Hid.
  assert (Heq : id d = id d'). { destruct (id d), (id d'). simpl in *. congruence. }
  rewrite Heq in Hv. congruence.
Qed.

Lemma entry_good db t fields k v : db_ok db -> entry_of db t fields k v -> good_doc v.2 /\ k = doc_key v.2 fields.
Proof. intros Hdb (Hv & _ & ->). destruct v as [ts d]. split; [by apply Hdb in Hv as [_ ?]|done]. Qed.

Lemma keyed_true t fields k o : keyed t fields k o = true <-> exists d, o = Some d /\ tablet_id (id d) = t /\ k = doc_key d fields.
Proof.
  destruct o as [d|]; cbn [keyed]; [|split; [done|by intros (? & ? & _)]].
  rewrite bool_decide_eq_true. split; [intros [? <-]; eauto|by intros (? & [= <-] & ? & ->)].
Qed.

(** Rewriting the rows as [change] says keeps an index exact. *)
Lemma index_exact_change db t fields m m' i ts old new :
  db_ok db -> write_ok db i old new -> index_exact db t fields m -> BTreeMap.wf m' ->
  (forall k, BTreeMap.get k m' = match change t fields ts old new k with Some o => o | None => BTreeMap.get k m end) ->
  index_exact (write db i (option_map (pair ts) new)) t fields m'.
Proof.
  intros Hdb Hw [Hwf Hm] Hwf' Hget. split; [done|]. intros k v. rewrite Hget.
  pose proof (db_ok_write db i old new ts Hdb Hw) as Hdb'. destruct Hw as [Hold Hnew].
  set (db' := write db i (option_map (pair ts) new)) in *.
  assert (Hother : forall v, id v.2 <> i -> entry_of db' t fields k v <-> entry_of db t fields k v).
  { intros w Hne. unfold entry_of, db', write. by rewrite bool_decide_eq_false_2. }
  assert (Hsame : forall v, id v.2 = i -> entry_of db' t fields k v <-> v.1 = ts /\ Some v.2 = new /\ keyed t fields k new = true).
  { intros [ts' d] Hi. cbn [fst snd] in *. unfold entry_of, db', write. cbn [snd]. rewrite bool_decide_eq_true_2, keyed_true by done.
    split; [destruct new; naive_solver|]. intros (-> & <- & ? & [= <-] & ? & ?). by split_and!. }
  unfold change. destruct (keyed t fields k new) eqn:Hkn.
  - apply keyed_true in Hkn as (d & -> & Ht & Hk). destruct (Hnew d eq_refl) as [Hi Hg]. cbn [option_map].
    assert (Hd : entry_of db' t fields k (ts, d)). { by apply Hsame. }
    split; [by intros [= <-]|]. intros Hv. by rewrite (entry_key_inj _ _ _ _ _ _ Hdb' Hv Hd).
  - destruct (keyed t fields k old) eqn:Hko.
    + split; [done|]. intros Hv. exfalso. apply keyed_true in Hko as (d & Ho & Ht & Hk). rewrite Hold in Ho.
      destruct (db i) as [[ts0 d0]|] eqn:Hi; [|done]. injection Ho as ->.
      destruct (decide (id v.2 = i)) as [Hvi|Hvi]; [apply (Hsame v Hvi) in Hv; naive_solver|]. apply (Hother v Hvi) in Hv.
      assert (He : entry_of db t fields k (ts0, d)). { split_and!; [|done|done]. cbn [snd]. by rewrite (proj1 (Hdb _ _ _ Hi)). }
      apply Hvi. rewrite (entry_key_inj _ _ _ _ _ _ Hdb Hv He). apply (Hdb _ _ _ Hi).
    + rewrite Hm. destruct (decide (id v.2 = i)) as [Hvi|Hvi]; [|by rewrite Hother]. rewrite (Hsame v Hvi).
      split; [|by intros (_ & _ & ?)]. intros (Hv & Ht & Hk). exfalso. rewrite Hvi in Hv.
      assert (Hc : keyed t fields k old = true); [|congruence]. rewrite Hold, Hv. apply keyed_true. cbn. eauto.
Qed.

(** Rewriting the rows of one document. *)
Definition replace_rows t fields (ts : T) (old new : option PackedDocument) (m : BTreeMap.t IndexKeyBytes (T * PackedDocument))
    : BTreeMap.t IndexKeyBytes (T * PackedDocument) :=
  let m := match old with
    | Some d => if bool_decide (tablet_id (id d) = t) then BTreeMap.remove (doc_key d fields) m else m | None => m end in
  match new with
  | Some d => if bool_decide (tablet_id (id d) = t) then BTreeMap.insert (doc_key d fields) (ts, d) m else m | None => m end.

Lemma get_replace_rows t fields ts old new m :
  BTreeMap.wf m -> BTreeMap.wf (replace_rows t fields ts old new m) /\
  forall k, BTreeMap.get k (replace_rows t fields ts old new m) =
    match change t fields ts old new k with Some o => o | None => BTreeMap.get k m end.
Proof.
  intros Hwf. set (m1 := match old with
    | Some d => if bool_decide (tablet_id (id d) = t) then BTreeMap.remove (doc_key d fields) m else m | None => m end).
  assert (Hwf1 : BTreeMap.wf m1) by (unfold m1; destruct old; [case_bool_decide; [by apply BTreeMap.wf_remove|done]|done]).
  assert (H1 : forall k, BTreeMap.get k m1 = if keyed t fields k old then None else BTreeMap.get k m).
  { intros k. unfold m1. destruct old as [d|]; cbn [keyed]; [|done].
    destruct (decide (tablet_id (id d) = t)) as [Ht|Ht]; [rewrite (bool_decide_eq_true_2 _ Ht)|rewrite (bool_decide_eq_false_2 _ Ht)].
    - case_bool_decide as Hk; [destruct Hk as [_ <-]; by apply BTreeMap.get_remove_eq|].
      apply BTreeMap.get_remove_ne; [done|]. intros ->. by apply Hk.
    - rewrite bool_decide_eq_false_2; [done|]. by intros [? _]. }
  unfold replace_rows, change. fold m1. split; [destruct new; [case_bool_decide; [by apply BTreeMap.wf_insert|done]|done]|].
  intros k. destruct new as [d|]; cbn [keyed option_map]; [|rewrite H1; by destruct (keyed t fields k old)].
  destruct (decide (tablet_id (id d) = t)) as [Ht|Ht]; [rewrite (bool_decide_eq_true_2 _ Ht)|rewrite (bool_decide_eq_false_2 _ Ht)].
  - rewrite BTreeMap.get_insert_if by done. case_bool_decide as Hk; case_decide as Hk'; try (exfalso; naive_solver); [done|].
    rewrite H1. by destruct (keyed t fields k old).
  - rewrite bool_decide_eq_false_2 by (by intros [? _]). rewrite H1. by destruct (keyed t fields k old).
Qed.

Lemma index_exact_replace db t fields m i ts old new :
  db_ok db -> write_ok db i old new -> index_exact db t fields m ->
  index_exact (write db i (option_map (pair ts) new)) t fields (replace_rows t fields ts old new m).
Proof.
  intros Hdb Hw Hm. destruct (get_replace_rows t fields ts old new m (proj1 Hm)) as [Hwf Hget].
  by apply (index_exact_change db t fields m) with (old := old).
Qed.

Lemma index_exact_unique db t fields m m' : index_exact db t fields m -> index_exact db t fields m' -> m = m'.
Proof.
  intros [Hw Hm] [Hw' Hm']. apply BTreeMap.wf_ext; [done..|]. intros [k v]. by rewrite <- !BTreeMap.elem_of_get, Hm, Hm'.
Qed.
End exact.

(** ** Index updates and rows *)

(** The definition of an index does not change without a new index id. *)
Definition catalogued (c : IndexId -> option (TabletId * list FieldPath)) (r : IndexRegistry) : Prop :=
  forall t ix fields, database_index r t ix fields -> c (index_id ix) = Some (t, fields).

Definition registered_id (r : IndexRegistry) (iid : IndexId) : Prop :=
  exists t ix fields, database_index r t ix fields /\ index_id ix = iid.

(** The value an update gives to its row. *)
Definition update_row {T} (ts : T) (insertion : option PackedDocument) (v : DatabaseIndexValue) : option (T * PackedDocument) :=
  match v with Deleted => None | NonClustered _ => option_map (pair ts) insertion end.

(** What all folds over a list of index updates have in common: an index reads
    as before, but for the rows that an update of it writes. *)
Lemma fold_updates_read {M R} (rd : M -> IndexKeyBytes -> R) (step : M -> DatabaseIndexUpdate -> M) (inv : M -> Prop)
    (iid : IndexId) (g : DatabaseIndexUpdate -> R) :
  (forall m u, inv m -> inv (step m u) /\
    forall k, rd (step m u) k = if bool_decide (upd_index_id u = iid /\ upd_key u = k) then g u else rd m k) ->
  forall um : BTreeMap.t (IndexId * IndexKeyBytes) DatabaseIndexUpdate,
  BTreeMap.wf um -> (forall e, e ∈ um -> e.1 = (upd_index_id e.2, upd_key e.2)) ->
  forall m, inv m -> inv (fold_left step (map snd um) m) /\
    forall k, rd (fold_left step (map snd um) m) k =
      match BTreeMap.get (iid, k) um with Some u => g u | None => rd m k end.
Proof.
  intros Hstep. induction um as [|[key u] um IH]; intros Hwf Hkeys m Hm; [done|]. destruct Hwf as [Hlt Hwf].
  assert (Hk : key = (upd_index_id u, upd_key u)) by apply (Hkeys (key, u) ltac:(left)).
  destruct (Hstep m u Hm) as [Hm' Hrd]. cbn [map fold_left snd].
  destruct (IH Hwf ltac:(intros; apply Hkeys; by right) _ Hm') as [Hinv Hget]. split; [done|]. intros k. rewrite Hget.
  cbn [BTreeMap.get]. destruct ((iid, k) ==? key)%ord eqn:E.
  - apply eqb_eq in E as <-. injection Hk as Hi Hk.
    rewrite (proj2 (BTreeMap.get_None um (iid, k))); [by rewrite Hrd, bool_decide_eq_true_2|].
    intros v Hv. apply Hlt in Hv. by apply olt_irrefl in Hv.
  - destruct (BTreeMap.get (iid, k) um); [done|]. rewrite Hrd, bool_decide_eq_false_2; [done|].
    intros [<- <-]. rewrite <- Hk in E. by rewrite eqb_refl in E.
Qed.

Section follow.
Context {T : Type} (c : IndexId -> option (TabletId * list FieldPath)) (db : live T).

(** The updates of a registered index are the changes of its rows. *)
Lemma updates_change r old new (ts : T) um iid t fields k :
  catalogued c r -> registered_id r iid -> c iid = Some (t, fields) ->
  (forall iid k, update_at r old new iid k (option_map upd_value (BTreeMap.get (iid, k) um))) ->
  match BTreeMap.get (iid, k) um with Some u => Some (update_row ts new (upd_value u)) | None => None end
  = change t fields ts old new k.
Proof.
  intros Hc (t0 & ix & f0 & Hdb & Hid) Hci Hum. pose proof (Hc _ _ _ Hdb) as Hci'. rewrite Hid, Hci in Hci'. injection Hci' as -> ->.
  assert (Hix : forall ix' t' f', database_index r t' ix' f' -> index_id ix' = iid -> t' = t0 /\ f' = f0).
  { intros ix' t' f' Hd' Hi'. apply Hc in Hd'. rewrite Hi', Hci in Hd'. by injection Hd' as -> ->. }
  assert (Hkey : forall o, keyed t0 f0 k o = true <-> exists d ix fields, o = Some d /\
    database_index r (tablet_id (id d)) ix fields /\ index_id ix = iid /\ k = doc_key d fields).
  { intros o. rewrite keyed_true. split.
    - intros (d & -> & <- & ->). by exists d, ix, f0.
    - intros (d & ix' & f' & -> & Hd' & Hi' & ->). destruct (Hix _ _ _ Hd' Hi') as [<- <-]. by exists d. }
  specialize (Hum iid k). unfold change. destruct (BTreeMap.get (iid, k) um) as [u|] eqn:Hg; cbn [option_map] in Hum.
  - unfold update_row. destruct (upd_value u) as [|i]; cbn [update_at] in Hum.
    + destruct Hum as [Ho Hn]. rewrite (proj2 (Hkey old) Ho). destruct (keyed t0 f0 k new) eqn:E; [|done].
      by apply Hkey, Hn in E.
    + rewrite (proj2 (Hkey new)); [done|]. destruct Hum as (d & ix' & f' & ? & _ & ? & ? & ?). by exists d, ix', f'.
  - cbn [update_at] in Hum.
    destruct (keyed t0 f0 k new) eqn:E; [|destruct (keyed t0 f0 k old) eqn:E'; [|done]];
      [apply Hkey in E as (d & ix' & f' & ? & ?)|apply Hkey in E' as (d & ix' & f' & ? & ?)];
      destruct Hum; exists d, ix', f'; eauto.
Qed.

(** No update names the inserted document unless there is one. *)
Lemma updates_insertion r old new um u :
  (forall iid k, update_at r old new iid k (option_map upd_value (BTreeMap.get (iid, k) um))) ->
  BTreeMap.wf um -> (forall e, e ∈ um -> e.1 = (upd_index_id e.2, upd_key e.2)) -> u ∈ map snd um ->
  forall i, upd_value u = NonClustered i -> exists d, new = Some d /\ i = id d.
Proof.
  intros Hum Hwf Hkeys (e & -> & He)%list_elem_of_fmap i Hi. pose proof (Hkeys e He) as Hk. destruct e as [key u]. cbn [fst snd] in *.
  apply BTreeMap.elem_of_get in He; [|done]. rewrite Hk in He. specialize (Hum (upd_index_id u) (upd_key u)).
  rewrite He in Hum. cbn [option_map] in Hum. rewrite Hi in Hum. cbn [update_at] in Hum.
  destruct Hum as (d & _ & _ & ? & ? & _). by exists d.
Qed.
End follow.

(** ** The in-memory indexes follow the writes *)

Lemma foldM_pure {E S A} (f : S -> A -> outcome E S) (g : S -> A -> S) xs :
  (forall s x, x ∈ xs -> f s x = Ret (g s x)) -> forall s, foldM f s xs = Ret (fold_left g xs s).
Proof.
  induction xs as [|x xs IH]; intros Hf s; cbn [foldM fold_left]; [done|]. rewrite Hf by left. cbn [obind].
  apply IH. intros. apply Hf. by right.
Qed.

(** Every index in memory is the index its id stands for. *)
Definition memory_ok (c : IndexId -> option (TabletId * list FieldPath)) (db : live Timestamp) (self : BackendInMemoryIndexes) : Prop :=
  BTreeMap.wf (in_memory_indexes self) /\
  forall iid im, BTreeMap.get iid (in_memory_indexes self) = Some im ->
    exists t fields, c iid = Some (t, fields) /\ index_exact db t fields (inner im).

Definition memory_step (ts : Timestamp) (new : option PackedDocument) (self : BackendInMemoryIndexes) (u : DatabaseIndexUpdate)
    : BackendInMemoryIndexes :=
  match BTreeMap.get (upd_index_id u) (in_memory_indexes self) with
  | None => self
  | Some im =>
      MkBackend (BTreeMap.insert (upd_index_id u)
        (match update_row ts new (upd_value u) with
         | None => index_map_remove im (upd_key u) ts
         | Some (ts, d) => index_map_insert im (upd_key u) ts d
         end) (in_memory_indexes self))
  end.

Section memory.
Context (ts : Timestamp) (new : option PackedDocument).

Lemma apply_index_update_step {E} self u :
  (forall i, upd_value u = NonClustered i -> exists d, new = Some d /\ i = id d) ->
  apply_index_update (E := E) ts new self u = Ret (memory_step ts new self u).
Proof.
  intros Hu. unfold apply_index_update, memory_step, update_row.
  destruct (BTreeMap.get (upd_index_id u) (in_memory_indexes self)) as [im|]; [|done].
  destruct (upd_value u) as [|i]; cbn [obind]; [done|]. destruct (Hu i eq_refl) as (d & -> & ->).
  by rewrite bool_decide_eq_true_2.
Qed.

Definition mem_row (iid : IndexId) (self : BackendInMemoryIndexes) (k : IndexKeyBytes) : option (Timestamp * PackedDocument) :=
  match BTreeMap.get iid (in_memory_indexes self) with Some im => BTreeMap.get k (inner im) | None => None end.

(** Well-formed, and with the indexes of [ids]. *)
Definition mem_wf (ids : IndexId -> Prop) (self : BackendInMemoryIndexes) : Prop :=
  BTreeMap.wf (in_memory_indexes self) /\
  (forall iid im, BTreeMap.get iid (in_memory_indexes self) = Some im -> BTreeMap.wf (inner im)) /\
  forall iid, is_Some (BTreeMap.get iid (in_memory_indexes self)) <-> ids iid.

Lemma memory_step_ok ids iid self u :
  mem_wf ids self -> ids iid -> mem_wf ids (memory_step ts new self u) /\
  forall k, mem_row iid (memory_step ts new self u) k =
    if bool_decide (upd_index_id u = iid /\ upd_key u = k) then update_row ts new (upd_value u) else mem_row iid self k.
Proof.
  intros (Hwf & Hin & Hids) Hiid. unfold memory_step.
  destruct (BTreeMap.get (upd_index_id u) (in_memory_indexes self)) as [im|] eqn:Hg.
  2:{ split; [done|]. intros k. rewrite bool_decide_eq_false_2; [done|]. intros [Hu _]. rewrite Hu in Hg.
      apply Hids in Hiid as [? ?]. congruence. }
  pose proof (Hin _ _ Hg) as Him. set (im' := match update_row ts new (upd_value u) with None => _ | Some _ => _ end).
  assert (Him' : BTreeMap.wf (inner im') /\ forall k, BTreeMap.get k (inner im') =
    if bool_decide (upd_key u = k) then update_row ts new (upd_value u) else BTreeMap.get k (inner im)).
  { subst im'. destruct (update_row ts new (upd_value u)) as [[ts' d]|]; cbn [inner index_map_insert index_map_remove].
    - split; [by apply BTreeMap.wf_insert|]. intros k. rewrite BTreeMap.get_insert_if by done. case_bool_decide; case_decide; congruence.
    - split; [by apply BTreeMap.wf_remove|]. intros k. case_bool_decide as Hk; [subst k; by apply BTreeMap.get_remove_eq|].
      by apply BTreeMap.get_remove_ne; [|intros ->]. }
  destruct Him' as [Hwf' Hget']. split.
  - split_and!; cbn [in_memory_indexes]; [by apply BTreeMap.wf_insert| |].
    + intros iid' im0. rewrite BTreeMap.get_insert_if by done. case_decide; [by intros [= <-]|apply Hin].
    + intros iid'. rewrite BTreeMap.get_insert_if by done. case_decide as Hi; [|apply Hids]. subst iid'. rewrite <- Hids, Hg. split; eauto.
  - intros k. unfold mem_row. cbn [in_memory_indexes]. rewrite BTreeMap.get_insert_if by done. case_decide as Hi.
    + subst iid. rewrite Hget', Hg. by repeat case_bool_decide; naive_solver.
    + rewrite bool_decide_eq_false_2; [done|]. intros [? _]; congruence.
Qed.
End memory.

(** The indexes that stay in memory are registered when the update arrives. *)
Lemma backend_update_ok c db self r ts i old new :
  db_ok db -> write_ok db i old new -> registry_ok r -> catalogued c r -> memory_ok c db self ->
  (forall iid, is_Some (BTreeMap.get iid (in_memory_indexes self)) -> registered_id r iid \/
     exists d, old = Some d /\ new = None /\ tablet_id (id d) = index_table r /\ iid = internal_id (developer_id (id d))) ->
  exists self' us, (forall E, backend_update (E := E) self r ts old new = Ret (self', us)) /\
    memory_ok c (write db i (option_map (pair ts) new)) self'.
Proof.
  intros Hdb Hw Hr Hc [Hwf Hmem] Hreg.
  assert (Hgood : forall d, old = Some d \/ new = Some d -> good_doc d).
  { intros d [Ho|Hn]; [|by apply (proj2 Hw)]. destruct Hw as [Hold _]. rewrite Ho in Hold.
    destruct (db i) as [[ts0 d0]|] eqn:Hi; [|done]. injection Hold as ->. by apply (Hdb _ _ _ Hi). }
  destruct (index_updates_ret r old new Hr Hgood) as (um & Hum & Hwum & Hkeys & Hat).
  set (self0 := match old, new with
    | Some d, None => if bool_decide (tablet_id (id d) = index_table r) then
        MkBackend (BTreeMap.remove (internal_id (developer_id (id d))) (in_memory_indexes self)) else self
    | _, _ => self end).
  set (ids := fun iid => is_Some (BTreeMap.get iid (in_memory_indexes self0))).
  assert (H0 : BTreeMap.wf (in_memory_indexes self0) /\
    (forall iid im, BTreeMap.get iid (in_memory_indexes self0) = Some im -> BTreeMap.get iid (in_memory_indexes self) = Some im) /\
    forall iid, ids iid -> registered_id r iid).
  { unfold ids, self0. destruct old as [d|]; [destruct new; [|case_bool_decide as Ht]|].
    2:{ cbn [in_memory_indexes]. split_and!; [by apply BTreeMap.wf_remove|intros iid im; by apply BTreeMap.get_remove_Some|].
        intros iid [im Him]. destruct (Hreg iid) as [?|(d' & [= <-] & _ & _ & ->)]; [|done|].
        - exists im. by eapply BTreeMap.get_remove_Some. - by rewrite BTreeMap.get_remove_eq in Him. }
    all: split_and!; [done|done|]; intros iid Hi; destruct (Hreg iid Hi) as [?|(d' & Hd & Hn & Ht' & _)]; [done|]; simplify_eq; done. }
  destruct H0 as (Hwf0 & Hsub & Hregd).
  assert (Hinv : mem_wf ids self0).
  { split_and!; [done| |done]. intros iid im Him. apply Hsub, Hmem in Him as (t & f & _ & [? _]). done. }
  set (self' := fold_left (memory_step ts new) (map snd um) self0). exists self', (map snd um). split.
  - intros E. unfold backend_update. fold self0. rewrite Hum. cbn [obind].
    rewrite (foldM_pure _ (memory_step ts new)); [done|]. intros s u Hu. apply apply_index_update_step.
    by eapply updates_insertion.
  - assert (Hf : forall iid, ids iid -> mem_wf ids self' /\ forall k, mem_row iid self' k =
      match BTreeMap.get (iid, k) um with Some u => update_row ts new (upd_value u) | None => mem_row iid self0 k end).
    { intros iid Hi. apply (fold_updates_read (mem_row iid) (memory_step ts new) (mem_wf ids) iid
        (fun u => update_row ts new (upd_value u))); try done. intros m u Hm. by apply memory_step_ok. }
    assert (Hmw : mem_wf ids self').
    { unfold self'. clear Hf. assert (Hg : forall us s, mem_wf ids s -> mem_wf ids (fold_left (memory_step ts new) us s)); [|by apply Hg].
      induction us as [|u us IH]; intros s Hs; cbn [fold_left]; [done|]. apply IH.
      destruct (BTreeMap.get (upd_index_id u) (in_memory_indexes s)) eqn:E.
      - apply (memory_step_ok ts new ids (upd_index_id u)); [done|]. apply Hs. eauto.
      - unfold memory_step. by rewrite E. }
    split; [apply Hmw|]. intros iid im Him. assert (Hi : ids iid) by (apply Hmw; eauto).
    destruct (Hf iid Hi) as [_ Hrow]. destruct Hi as [im0 Him0]. pose proof (Hsub _ _ Him0) as Him1.
    destruct (Hmem _ _ Him1) as (t & f & Hct & Hex). exists t, f. split; [done|].
    apply (index_exact_change db t f (inner im0)) with (old := old); [done|done|done|by eapply (proj1 (proj2 Hmw))|].
    intros k. specialize (Hrow k). unfold mem_row in Hrow. rewrite Him, Him0 in Hrow. rewrite Hrow.
    rewrite <- (updates_change c r old new ts um iid t f k) by (try done; by apply Hregd; eexists).
    by destruct (BTreeMap.get (iid, k) um).
Qed.

(** ** Loading *)

(** [docs] are the live documents of the table [t]. *)
Definition table_documents {T} (db : live T) (t : TabletId) (docs : list (T * PackedDocument)) : Prop :=
  forall v, v ∈ docs <-> db (id v.2) = Some v /\ tablet_id (id v.2) = t.

Lemma insert_documents_ok fields docs : forall im,
  (forall v, v ∈ docs -> good_doc v.2) -> BTreeMap.wf (inner im) ->
  (forall v w, v ∈ docs -> w ∈ docs -> doc_key v.2 fields = doc_key w.2 fields -> v = w) ->
  exists im', (forall E, foldM (insert_document (E := E) fields) im docs = Ret im') /\ BTreeMap.wf (inner im') /\
    forall k v, BTreeMap.get k (inner im') = Some v <->
      (v ∈ docs /\ k = doc_key v.2 fields) \/
      ((forall w, w ∈ docs -> k <> doc_key w.2 fields) /\ BTreeMap.get k (inner im) = Some v).
Proof.
  induction docs as [|e docs IH]; intros im Hg Hwf Hinj.
  { exists im. split_and!; [done..|]. intros k v. setoid_rewrite elem_of_nil. naive_solver. }
  set (im1 := index_map_insert im (doc_key e.2 fields) e.1 e.2).
  destruct (IH im1) as (im' & Hf & Hwf' & Hget).
  { intros v Hv. apply Hg. by right. } { by apply BTreeMap.wf_insert. } { intros v w Hv Hw. apply Hinj; by right. }
  exists im'. split_and!; [|done|].
  - intros E. cbn [foldM]. unfold insert_document at 1. rewrite index_key_enc by (apply Hg; left). apply Hf.
  - intros k v. rewrite Hget. cbn [im1 index_map_insert inner]. setoid_rewrite elem_of_cons.
    rewrite BTreeMap.get_insert_if by done. destruct e as [ts d]. cbn [fst snd]. split.
    + intros [[Hv ->]|[Hn Hv]]; [by left; split; [right|]|]. case_decide as Hk; [injection Hv as <-; by left; split; [left|]|].
      right. split; [|done]. intros w [->|Hw]; [done|by apply Hn].
    + intros [[[->|Hv] ->]|[Hn Hv]]; [|by left|].
      * destruct (decide (Exists (fun w : Timestamp * PackedDocument => doc_key w.2 fields = doc_key d fields) docs)) as [Hin|Hin].
        -- apply Exists_exists in Hin as (w & Hw & Hk). left. split; [|done].
           by rewrite (Hinj (ts, d) w); [|left|right|].
        -- right. rewrite decide_True by done. split; [|done]. intros w Hw Hk. apply Hin, Exists_exists. eauto.
      * right. split; [intros w Hw; apply Hn; by right|]. rewrite decide_False; [done|]. apply (Hn (ts, d)). by left.
Qed.

Section loading.
Context (c : IndexId -> option (TabletId * list FieldPath)) (db : live Timestamp) (r : IndexRegistry).
Hypothesis Hdb : db_ok db.
Hypothesis Hr : registry_ok r.
Hypothesis Hc : catalogued c r.

Lemma insert_table_documents t fields docs ts :
  table_documents db t docs ->
  exists im, (forall E, foldM (insert_document (E := E) fields) (new_at ts) docs = Ret im) /\ index_exact db t fields (inner im).
Proof.
  intros Hdocs. destruct (insert_documents_ok fields docs (new_at ts)) as (im & Hf & Hwf & Hget).
  - intros [ts' d] Hv. by apply Hdocs in Hv as [[_ ?]%Hdb _].
  - done.
  - intros v w [Hv Htv]%Hdocs [Hw Htw]%Hdocs Hk. by apply (entry_key_inj db t fields (doc_key v.2 fields)).
  - exists im. split; [done|]. split; [done|]. intros k v. unfold table_documents in Hdocs. rewrite Hget, Hdocs. cbn [new_at inner BTreeMap.get]. unfold entry_of. naive_solver.
Qed.

Lemma elem_of_enabled_indexes t ix : ix ∈ enabled_indexes_for_table r t -> get_enabled r (name ix) = Some ix /\ (name ix).1 = t.
Proof.
  unfold enabled_indexes_for_table. intros (e & -> & He)%list_elem_of_fmap. apply elem_of_table_range in He as [He Ht]; [|apply Hr|].
  2:{ intros [n i] Hin. apply (reg_names r Hr). rewrite (reg_by_table r Hr), orb_true_iff. left. apply contains_key_get.
      exists i. by apply BTreeMap.elem_of_get; [apply Hr|]. }
  destruct e as [n i]. cbn [fst snd] in *. apply BTreeMap.elem_of_get in He; [|apply Hr].
  destruct (reg_enabled r Hr n i He) as [-> _]. done.
Qed.

(** Loading the documents of a table makes its enabled indexes exact. *)
Lemma load_table_ok self t docs ts :
  memory_ok c db self -> table_documents db t docs ->
  exists self', (forall E, load_table (E := E) self r t docs ts = Ret self') /\ memory_ok c db self'.
Proof.
  intros Hm Hdocs. pose proof (elem_of_enabled_indexes t) as Hel. unfold load_table. revert self Hm.
  induction (enabled_indexes_for_table r t) as [|ix l IH]; intros self Hm; [by exists self|].
  destruct (Hel ix ltac:(left)) as [Hen Ht]. destruct (reg_enabled r Hr _ _ Hen) as [_ Hst].
  assert (H1 : exists self1, (forall E, load_index (E := E) docs ts self ix = Ret self1) /\ memory_ok c db self1).
  { unfold load_index. destruct (config ix) as [fields s| |] eqn:Hcfg; [|by exists self..].
    destruct (insert_table_documents t fields docs ts Hdocs) as (im & Hf & Hex).
    exists (MkBackend (BTreeMap.insert (index_id ix) im (in_memory_indexes self))). split.
    - intros E. unfold is_enabled in Hst. rewrite ?Hcfg in Hst. cbn [on_disk_state] in Hst. rewrite Hst. cbn [rassert obind]. by rewrite Hf.
    - destruct Hm as [Hwf Hm]. split; [by apply BTreeMap.wf_insert|]. intros iid im'. cbn [in_memory_indexes].
      rewrite BTreeMap.get_insert_if by done. case_decide as Hi; [|apply Hm]. intros [= <-]. exists t, fields. split; [|done].
      subst iid. apply Hc. split_and!; [done|by left|by exists s]. }
  destruct H1 as (self1 & Hl & Hm1). destruct (IH ltac:(intros i Hi; apply Hel; by right) self1 Hm1) as (self' & Hf & Hm').
  exists self'. split; [|done]. intros E. cbn [foldM]. rewrite Hl. apply Hf.
Qed.
End loading.

(** ** Theorems *)

(** C23: the in-memory indexes follow the writes: if every index in memory holds
    exactly the live documents of its table under their keys, then after the
    update of a document (inserted, replaced or deleted) it does so again, and
    a range read of a loaded index returns exactly the live documents whose
    keys are in the interval, in the order asked for, with the timestamps they
    were written at; nothing panics. *)
Theorem memory_indexes_follow_writes c db self r ts i old new iid t fields :
  db_ok db -> write_ok db i old new -> registry_ok r -> catalogued c r -> memory_ok c db self ->
  (forall iid, is_Some (BTreeMap.get iid (in_memory_indexes self)) -> registered_id r iid \/
     exists d, old = Some d /\ new = None /\ tablet_id (id d) = index_table r /\ iid = internal_id (developer_id (id d))) ->
  c iid = Some (t, fields) ->
  exists self' us, (forall E, backend_update (E := E) self r ts old new = Ret (self', us)) /\
    memory_ok c (write db i (option_map (pair ts) new)) self' /\
    forall interval order rows, backend_range self' iid interval order = Ret (Some rows) ->
      exists m, index_exact (write db i (option_map (pair ts) new)) t fields m /\ rows = order_apply order (rows_in interval m).
Proof.
  intros Hdb Hw Hr Hc Hm Hreg Hci.
  destruct (backend_update_ok c db self r ts i old new Hdb Hw Hr Hc Hm Hreg) as (self' & us & Hu & Hm').
  exists self', us. split_and!; [done..|]. intros interval order rows. unfold backend_range.
  destruct (BTreeMap.get iid (in_memory_indexes self')) as [im|] eqn:Hg; [|done]. intros [= <-].
  destruct (proj2 Hm' iid im Hg) as (t' & f' & Hci' & Hex). rewrite Hci in Hci'. injection Hci' as <- <-. by exists (inner im).
Qed.

Module MemoryExample.
(** A table [1] with its [by_id] index and an index over the field "a", with
    one document in memory; a second document is inserted. *)
Definition r : IndexRegistry :=
  insert (insert (insert (MkRegistry [9] [] [] []) (RegistryExample.by_id_index [9] 1)) (RegistryExample.by_id_index [1] 2))
    RegistryExample.enabled.
Definition a_index : list Z := replicate 16 7.
Definition c (iid : list Z) : option (list Z * list FieldPath) :=
  if bool_decide (iid = a_index) then Some ([1], [[[97]]])
  else if bool_decide (iid = replicate 16 1) then Some ([9], [])
  else if bool_decide (iid = replicate 16 2) then Some ([1], []) else None.
Definition d (n k : Z) : PackedDocument := MkDoc (Object [([97], Int64 n)]) (MkResolved [1] (MkId 3 (replicate 16 k))).
Definition db : live Timestamp := write (fun _ => None) (id (d 1 7)) (Some (5, d 1 7)).
Definition memory : BackendInMemoryIndexes :=
  MkBackend [(a_index, index_map_insert (new_at 5) (doc_key (d 1 7) [[[97]]]) 5 (d 1 7))].

Lemma r_ok : registry_ok r.
Proof. by repeat apply insert_ok. Qed.

Lemma no_pending n : get_pending r n = None.
Proof. done. Qed.

Lemma r_catalogued : catalogued c r.
Proof.
  intros t ix fields (Ht & [Hg|Hg] & s & Hcfg); [|by rewrite no_pending in Hg].
  apply BTreeMap.elem_of_get in Hg; [|apply r_ok]. vm_compute in Hg.
  repeat (apply elem_of_cons in Hg as [Hg|Hg]; [injection Hg as Hn ->; vm_compute in Hcfg, Ht; injection Hcfg as <- _; by subst t|]).
  by apply elem_of_nil in Hg.
Qed.

Lemma d_good n k : valid (value (d n k)) = true -> u8 k -> good_doc (d n k).
Proof.
  intros Hv Hk. split; [by eexists|]. split; [by split|]. unfold valid_id. cbn.
  split_and!; [lia|lia|done|]. by apply (Forall_replicate u8 16 k).
Qed.

Lemma db_is_ok : db_ok db.
Proof. intros i ts x. unfold db, write. case_bool_decide as Hi; [|done]. intros [= _ <-]. subst i. split; [done|]. by apply d_good. Qed.

Lemma memory_is_ok : memory_ok c db memory.
Proof.
  split; [split; [by intros ? ?%elem_of_nil|done]|]. intros iid im Hg. cbn [memory in_memory_indexes BTreeMap.get] in Hg.
  destruct (iid ==? a_index)%ord eqn:E; [|done]. apply eqb_eq in E as ->. injection Hg as <-. exists [1], [[[97]]]. split; [done|].
  apply (index_exact_change (fun _ => None) [1] [[[97]]] []) with (i := id (d 1 7)) (ts := 5) (old := None) (new := Some (d 1 7)).
  - done.
  - split; [done|]. intros x [= <-]. split; [done|by apply d_good].
  - split; [done|]. intros k v. split; [done|by intros [? _]].
  - by apply BTreeMap.wf_insert.
  - intros k. unfold change, keyed. cbn [tablet_id id d]. cbn [index_map_insert inner new_at]. rewrite BTreeMap.get_insert_if by done.
    case_bool_decide as Hk; case_decide as Hk'; try done; exfalso; [destruct Hk as [_ <-]; done|by apply Hk; subst].
Qed.
End MemoryExample.

Lemma memory_indexes_follow_writes_witness :
  exists self' us, (forall E, backend_update (E := E) MemoryExample.memory MemoryExample.r 6 None (Some (MemoryExample.d 2 8)) = Ret (self', us)) /\
    memory_ok MemoryExample.c (write MemoryExample.db (id (MemoryExample.d 2 8)) (Some (6, MemoryExample.d 2 8))) self'.
Proof.
  destruct (memory_indexes_follow_writes MemoryExample.c MemoryExample.db MemoryExample.memory MemoryExample.r 6
    (id (MemoryExample.d 2 8)) None (Some (MemoryExample.d 2 8)) MemoryExample.a_index [1] [[[97]]]) as (self' & us & Hu & Hm & _).
  - apply MemoryExample.db_is_ok.
  - split; [reflexivity|]. intros x [= <-]. split; [done|by apply MemoryExample.d_good].
  - apply MemoryExample.r_ok.
  - apply MemoryExample.r_catalogued.
  - apply MemoryExample.memory_is_ok.
  - intros iid [im Hg]. left. cbn [MemoryExample.memory in_memory_indexes BTreeMap.get] in Hg. destruct (iid ==? MemoryExample.a_index)%ord eqn:E; [|done]. apply eqb_eq in E as ->.
    exists [1], RegistryExample.enabled, [[[97]]]. split; [|done]. split_and!; [done|by left|by eexists].
  - done.
  - by exists self', us.
Defined.
