(* ===== verification/IndexSnapshot.v ===== *)
(** * IndexSnapshot: reading the indexes at one timestamp
      (src/crates/indexing/src/backend_in_memory_indexes.rs:
       DatabaseIndexSnapshot, DatabaseIndexSnapshotCache, LazyDocument,
       RangeRequest)

    A range request is served from memory, from the cache of the transaction,
    and from persistence for the parts of the interval the cache does not
    have.  The printable name of an index only appears in messages and is left
    out; the order in which concurrent requests finish is the argument
    [schedule], any permutation. *)

From S2P Require Import Prelude Ord BTreeMap BinaryKey Bounds Interval IntervalSet Timestamp Identifier Value Sorting SortingDecode Base32 IdV6 Document TableMapping IndexRegistry IndexUpdates IndexKeys MemoryIndexes.

Local Open Scope Z_scope.

Inductive LazyDocument :=
| LazyResolved (doc : PackedDocument)
| LazyPacked (doc : PackedDocument)
| LazyMemory (doc : PackedDocument).

Definition unpack (self : LazyDocument) : PackedDocument :=
  match self with LazyResolved doc | LazyPacked doc | LazyMemory doc => doc end.

Record RangeRequest := MkRange {
  req_index_name : list Z * list Z;
  req_interval : Interval;
  req_order : Order;
  req_max_size : nat;
}.

(** ** [DatabaseIndexSnapshotCache] *)

Record DatabaseIndexSnapshotCache := MkCache {
  documents : BTreeMap.t (IndexId * IndexKeyBytes) (Timestamp * PackedDocument);
  intervals : BTreeMap.t IndexId IntervalSet;
  cache_size : Z;
}.

Inductive CacheResult :=
| Document (key : IndexKeyBytes) (ts : Timestamp) (doc : PackedDocument)
| CacheMiss (interval : Interval).

Definition MAX_CACHED_RANGES_PER_INTERVAL : nat := 3.

Definition cache_new : DatabaseIndexSnapshotCache := MkCache [] [] 0.

(** [entry(index_id).or_default().add(interval)]. *)
Definition add_interval {E} (m : BTreeMap.t IndexId IntervalSet) (index_id : IndexId) (interval : Interval)
    : outcome E (BTreeMap.t IndexId IntervalSet) :=
  let? set := IntervalSet.add (default IntervalSet.new (BTreeMap.get index_id m)) interval in
  Ret (BTreeMap.insert index_id set m).

Definition populate_key {E} (ts : Timestamp) (doc : PackedDocument) (self : DatabaseIndexSnapshotCache)
    (e : IndexId * IndexKeyBytes) : outcome E DatabaseIndexSnapshotCache :=
  let interval := prefix e.2 in
  let documents := BTreeMap.insert e (ts, doc) (documents self) in
  let? intervals := add_interval (intervals self) e.1 interval in
  Ret (MkCache documents intervals (cache_size self)).

(** The entries of an index from [start] on, up to an end. *)
Definition cached_range (self : DatabaseIndexSnapshotCache) (index_id : IndexId) (i : Interval)
    : list ((IndexId * IndexKeyBytes) * (Timestamp * PackedDocument)) :=
  take_while (fun e => bool_decide (e.1.1 = index_id) &&
      match end_ i with Excluded e' => (e.1.2 <? e')%ord | Unbounded => true end)
    (BTreeMap.range_from (index_id, start i) (documents self)).

(** The loop of [get] over the components of the interval. *)
Fixpoint get_components (self : DatabaseIndexSnapshotCache) (index_id : IndexId) (interval : Interval)
    (cache_hit_count : nat) (components : list (bool * Interval)) : list CacheResult :=
  match components with
  | [] => []
  | (in_set, component_interval) :: rest =>
      if (MAX_CACHED_RANGES_PER_INTERVAL <=? cache_hit_count)%nat then
        [CacheMiss (MkInterval (start component_interval) (end_ interval))]
      else if in_set then
        map (fun e => Document e.1.2 e.2.1 e.2.2) (cached_range self index_id component_interval)
          ++ get_components self index_id interval (S cache_hit_count) rest
      else CacheMiss component_interval :: get_components self index_id interval cache_hit_count rest
  end.

Definition cache_get {E} (self : DatabaseIndexSnapshotCache) (index_id : IndexId) (interval : Interval) (order : Order)
    : outcome E (list CacheResult) :=
  match BTreeMap.get index_id (intervals self) with
  | None => Ret [CacheMiss interval]
  | Some interval_set =>
      let? components := split_interval_components interval_set interval in
      Ret (order_apply order (get_components self index_id interval 0 components))
  end.

(** ** [DatabaseIndexSnapshot] *)

Record DatabaseIndexSnapshot (M : Type) := MkSnapshot {
  snap_registry : IndexRegistry;
  snap_memory : M;
  snap_mapping : TableMapping;
  snap_persistence : PersistenceSnapshot;
  snap_cache : DatabaseIndexSnapshotCache;
}.
Arguments MkSnapshot {M}.
Arguments snap_registry {M}.
Arguments snap_memory {M}.
Arguments snap_mapping {M}.
Arguments snap_persistence {M}.
Arguments snap_cache {M}.

Definition snapshot_new {M} (r : IndexRegistry) (memory : M) (mapping : TableMapping) (p : PersistenceSnapshot)
    : DatabaseIndexSnapshot M := MkSnapshot r memory mapping p cache_new.

Inductive RangeFetchResult :=
| MemoryCached (docs : list (IndexKeyBytes * (Timestamp * PackedDocument))) (next_cursor : CursorPosition)
| NonCached (index_id : IndexId) (cache_results : list CacheResult).

(** A page: keys, timestamps and documents. *)
Notation Page := (list (list Z * (Z * LazyDocument))) (only parsing).

(** The loop over the stream of one index scan. *)
Fixpoint read_stream (max_size : nat) (results : Page) (cache_miss_results : list (Timestamp * PackedDocument))
    (stream : list (outcome index_error (IndexKeyBytes * (Timestamp * PackedDocument))))
    : outcome index_error (Page * list (Timestamp * PackedDocument)) :=
  match stream with
  | [] => Ret (results, cache_miss_results)
  | next :: stream =>
      let? (key, rev) := next in
      let cache_miss_results := cache_miss_results ++ [rev] in
      let results := results ++ [(key, (rev.1, LazyResolved rev.2))] in
      if (max_size <=? length results)%nat then Ret (results, cache_miss_results)
      else read_stream max_size results cache_miss_results stream
  end.

Fixpoint fetch_cache_misses (persistence : PersistenceSnapshot) (index_id : IndexId) (req : RangeRequest)
    (results : Page) (cache_miss_results : list (Timestamp * PackedDocument)) (cache_results : list CacheResult)
    : outcome index_error (Page * list (Timestamp * PackedDocument) * CursorPosition) :=
  match cache_results with
  | [] => Ret (results, cache_miss_results, CursorEnd)
  | cache_result :: rest =>
      let? (results, cache_miss_results) :=
        match cache_result with
        | Document key ts doc => Ret (results ++ [(key, (ts, LazyPacked doc))], cache_miss_results)
        | CacheMiss interval =>
            read_stream (req_max_size req) results cache_miss_results
              (index_scan persistence index_id (req_index_name req).1 interval (req_order req))
        end in
      if (req_max_size req <=? length results)%nat then
        let? last_result := expect (last results) in
        Ret (results, cache_miss_results, After last_result.1)
      else fetch_cache_misses persistence index_id req results cache_miss_results rest
  end.

(** [tokio] tasks return their error as a value. *)
Definition catch {E E' A} (m : outcome E A) : outcome E' (E + A) :=
  match m with Ret a => Ret (inr a) | Err e => Ret (inl e) | Panic => Panic end.

Section snapshot.
Context {M : Type} `{InMemoryIndexes M}.
(** The knob [TRANSACTION_MAX_READ_SIZE_BYTES], the [MAX_TRANSACTION_CACHE_SIZE]. *)
Context (max_cache_size : Z).
Implicit Types self : DatabaseIndexSnapshot M.

Definition populate {E} (self : DatabaseIndexSnapshotCache) (index_keys : list (IndexId * IndexKeyBytes))
    (ts : Timestamp) (doc : PackedDocument) : outcome E DatabaseIndexSnapshotCache :=
  if cache_size self <=? max_cache_size then
    let? cache := foldM (populate_key ts doc) self index_keys in
    Ret (MkCache (documents cache) (intervals cache) (cache_size cache + size (value doc)))
  else Ret self.

Definition record_interval_populated {E} (self : DatabaseIndexSnapshotCache) (index_id : IndexId) (interval : Interval)
    : outcome E DatabaseIndexSnapshotCache :=
  if cache_size self <=? max_cache_size then
    let? intervals := add_interval (intervals self) index_id interval in
    Ret (MkCache (documents self) intervals (cache_size self))
  else Ret self.

Definition start_range_fetch self (req : RangeRequest) : outcome index_error RangeFetchResult :=
  match require_enabled (snap_registry self) (req_index_name req) with
  | Panic => Panic
  | Err e =>
      if negb (bool_decide ((req_index_name req).1 = index_table (snap_registry self))) then
        Ret (MemoryCached [] CursorEnd)
      else Err (RegistryErr e)
  | Ret index =>
      match config index with
      | Database _ on_disk_state =>
          ensure (bool_decide (on_disk_state = Enabled)) IndexNotEnabled ;?
          let? range := memory_range (snap_memory self) (index_id index) (req_interval req) (req_order req) in
          match range with
          | Some range => Ret (MemoryCached range CursorEnd)
          | None =>
              let? cache_results := cache_get (snap_cache self) (index_id index) (req_interval req) (req_order req) in
              Ret (NonCached (index_id index) cache_results)
          end
      | _ =>
          match tablet_name (snap_mapping self) (req_index_name req).1 with
          | Ret _ => Err NotADatabaseIndex
          | Err e => Err (TableUnknown e)
          | Panic => Panic
          end
      end
  end.

(** What a finished fetch adds to the cache. *)
Record CacheFill := MkFill {
  fill_request : RangeRequest;
  fill_index : IndexId;
  fill_documents : list (Timestamp * PackedDocument);
  fill_cursor : CursorPosition;
}.

(** One request of the batch: its result, and what to add to the cache. *)
Definition range_fetch self (req : RangeRequest) : outcome index_error (Page * CursorPosition * option CacheFill) :=
  let? fetched := start_range_fetch self req in
  match fetched with
  | MemoryCached docs next_cursor =>
      Ret (map (fun e => (e.1, (e.2.1, LazyMemory e.2.2))) docs, next_cursor, None)
  | NonCached index_id cache_results =>
      let? (fetch_result_vec, cache_miss_results, cursor) :=
        fetch_cache_misses (snap_persistence self) index_id req [] [] cache_results in
      Ret (fetch_result_vec, cursor, Some (MkFill req index_id cache_miss_results cursor))
  end.

Definition populate_document {E} (index_registry : IndexRegistry) (cache : DatabaseIndexSnapshotCache)
    (e : Timestamp * PackedDocument) : outcome E DatabaseIndexSnapshotCache :=
  let? keys := index_keys index_registry e.2 in
  populate cache (map (fun x => (index_id x.1, x.2)) keys) e.1 e.2.

Definition fill_cache {E} (index_registry : IndexRegistry) (cache : DatabaseIndexSnapshotCache) (f : CacheFill)
    : outcome E DatabaseIndexSnapshotCache :=
  let? cache := foldM (populate_document index_registry) cache (fill_documents f) in
  let interval_read := (split (req_interval (fill_request f)) (fill_cursor f) (req_order (fill_request f))).1 in
  record_interval_populated cache (fill_index f) interval_read.

Definition range_batch {E} self (schedule : list CacheFill -> list CacheFill) (reqs : list RangeRequest)
    : outcome E (list (index_error + Page * CursorPosition) * DatabaseIndexSnapshot M) :=
  let? fetched := mapM (fun req => catch (range_fetch self req)) reqs in
  let results := map (fun r => match r with inl e => inl e | inr (page, cursor, _) => inr (page, cursor) end) fetched in
  let fills := filter_map (fun r => match r with inr (_, fill) => fill | inl _ => None end) fetched in
  let? cache := foldM (fill_cache (snap_registry self)) (snap_cache self) (schedule fills) in
  Ret (results, MkSnapshot (snap_registry self) (snap_memory self) (snap_mapping self) (snap_persistence self) cache).
End snapshot.

(** ** Rows of an interval *)

Section rows.
Context {V : Type}.
Implicit Types m : BTreeMap.t IndexKeyBytes V.

Lemma elem_of_rows_in i m e : e ∈ rows_in i m <-> e ∈ m /\ inside i e.1.
Proof. apply elem_of_bfilter. Qed.

Lemma rows_in_wf i m : BTreeMap.wf m -> BTreeMap.wf (rows_in i m).
Proof. apply BTreeMap.wf_bfilter. Qed.

Lemma rows_in_split lo mid hi m :
  BTreeMap.wf m -> lo ≼ mid -> Excluded mid ≼ hi ->
  rows_in (MkInterval lo (Excluded mid)) m ++ rows_in (MkInterval mid hi) m = rows_in (MkInterval lo hi) m.
Proof.
  intros Hwf Hlo Hhi. apply BTreeMap.wf_ext.
  - apply BTreeMap.wf_app; [by apply rows_in_wf..|]. intros e1 e2 [_ [_ H1]%inside_alt]%elem_of_rows_in [_ [H2 _]%inside_alt]%elem_of_rows_in.
    cbn [end_ start] in *. apply above_Excluded in H1. order.
  - by apply rows_in_wf.
  - intros e. rewrite elem_of_app, !elem_of_rows_in, !inside_alt. cbn [end_ start]. rewrite above_Excluded. split.
    + intros [(? & ? & H)|(? & ? & ?)]; (split; [done|]); [|split; [order|done]]. split; [done|].
      eapply above_mono; [exact Hhi|]. by apply above_Excluded.
    + intros (? & ? & ?). destruct (decide (mid ≼ e.1)) as [Hm|Hm]; [by right|]. left. apply not_ole in Hm. done.
Qed.

Lemma chain_rows lo hi comps m :
  BTreeMap.wf m -> chain lo hi comps -> concat (map (fun c => rows_in c.2 m) comps) = rows_in (MkInterval lo hi) m.
Proof.
  intros Hwf. induction 1 as [b lo hi|b lo mid hi comps Hlo Hhi Hc IH]; cbn [map concat snd]; [by rewrite app_nil_r|].
  rewrite IH. by apply rows_in_split.
Qed.

Lemma chain_inv lo hi b i comps : chain lo hi ((b, i) :: comps) ->
  start i = lo /\ ((comps = [] /\ end_ i = hi) \/ exists mid, end_ i = Excluded mid /\ lo ≼ mid /\ Excluded mid ≼ hi /\ chain mid hi comps).
Proof. inversion 1; subst; simpl; eauto 10. Qed.

(** Keys of one index: bytes, and no key a proper prefix of another. *)
Definition keys_ok m : Prop :=
  forall e e', e ∈ m -> e' ∈ m -> bytes e.1 /\ (e.1 `prefix_of` e'.1 -> e.1 = e'.1).

Lemma above_after_prefix k p : bytes p -> above (after_prefix k) p <-> p ≺ k \/ k `prefix_of` p.
Proof.
  intros Hp. pose proof (prefix_contains k p Hp) as Hpre. change (inside (prefix k) p <-> k `prefix_of` p) in Hpre.
  rewrite inside_alt in Hpre. cbn [prefix start end_] in Hpre. destruct (decide (k ≼ p)) as [Hk|Hk].
  - rewrite <- Hpre. split; [by right|]. intros [?|[_ ?]]; [order|done].
  - apply not_ole in Hk. split; [by left|]. intros _. unfold after_prefix. destruct (increment k) as [k'|] eqn:E; [|done].
    apply above_Excluded. assert (k ≺ k') by (by eapply increment_above). order.
Qed.

(** Among keys none of which is a prefix of another, a cursor after a key cuts
    an interval after that key. *)
Lemma inside_split_fst i order k p :
  bytes p -> (k `prefix_of` p -> k = p) -> inside i k ->
  inside (split i (After k) order).1 p <-> inside i p /\ match order with Asc => p ≼ k | Desc => k ≼ p end.
Proof.
  intros Hbp Hpre Hin. rewrite inside_alt in Hin. destruct Hin as [Hs He].
  destruct order; cbn [split split_after fst]; rewrite !inside_alt; cbn [start end_].
  - rewrite above_after_prefix by done. split.
    + intros [H1 [H2|H2%Hpre]]; [split; [split; [done|]|by apply olt_ole]; eapply above_down; [exact He|by apply olt_ole]|].
      subst p. split; [done|apply ole_refl].
    + intros [[H1 H2] H3]. split; [done|]. apply ole_alt in H3 as [?| ->]; [by left|by right].
  - split; [intros [H1 H2]; split_and!; [order|done|done]|by intros [[??] ?]].
Qed.

Lemma order_apply_inv {A} order (l k : list A) : order_apply order l = k <-> l = order_apply order k.
Proof. destruct order; cbn [order_apply]; [done|]. split; intros H; subst; by rewrite rev_involutive. Qed.

Lemma inside_split_snd i order k p :
  bytes p -> bytes k -> (k `prefix_of` p -> k = p) -> inside i k ->
  inside (split i (After k) order).2 p <-> inside i p /\ match order with Asc => k ≺ p | Desc => p ≺ k end.
Proof.
  intros Hbp Hbk Hpre Hin. pose proof (inside_split_fst i order k p Hbp Hpre Hin) as Hfst.
  assert (Hsub : inside (split i (After k) order).2 p -> inside i p).
  { rewrite inside_alt in Hin. destruct Hin as [Hs He]. rewrite !inside_alt. destruct order; cbn [split split_after snd start end_].
    - destruct (increment k) as [k'|] eqn:E; cbn [start end_ empty]; [|intros [_ Hm]; apply above_Excluded in Hm; by apply not_olt_nil in Hm].
      intros [H1 H2]. assert (k ≺ k') by (by eapply increment_above). split; [order|done].
    - intros [H1 H2]. split; [done|]. apply above_Excluded in H2. eapply above_down; [exact He|by apply olt_ole]. }
  assert (Hneg : inside i p -> inside (split i (After k) order).2 p <-> ~ inside (split i (After k) order).1 p).
  { intros Hi. pose proof (split_after_partition i k order p Hbp Hbk Hi Hin) as Hpart. unfold inside. cbn [split]. rewrite Hpart.
    by rewrite negb_true_iff, not_true_iff_false. }
  split.
  - intros H2. pose proof (Hsub H2) as Hi. split; [done|]. apply (Hneg Hi) in H2.
    destruct order; apply not_ole; intros Hc; apply H2, Hfst; done.
  - intros [Hi Hlt]. apply (Hneg Hi). rewrite Hfst. intros [_ Hle]. destruct order; order.
Qed.

(** A cursor cuts the rows of an interval in two. *)
Lemma rows_cut i order m k :
  BTreeMap.wf m -> bytes k -> inside i k -> (forall e, e ∈ m -> bytes e.1 /\ (k `prefix_of` e.1 -> k = e.1)) ->
  order_apply order (rows_in i m) =
    order_apply order (rows_in (split i (After k) order).1 m) ++ order_apply order (rows_in (split i (After k) order).2 m).
Proof.
  intros Hwf Hk Hin Hok.
  assert (Hf : forall e, e ∈ m -> inside (split i (After k) order).1 e.1 <-> inside i e.1 /\ match order with Asc => e.1 ≼ k | Desc => k ≼ e.1 end).
  { intros e He. destruct (Hok e He). by apply inside_split_fst. }
  assert (Hs : forall e, e ∈ m -> inside (split i (After k) order).2 e.1 <-> inside i e.1 /\ match order with Asc => k ≺ e.1 | Desc => e.1 ≺ k end).
  { intros e He. destruct (Hok e He). by apply inside_split_snd. }
  assert (Hmem : forall e, e ∈ m -> inside i e.1 -> (inside (split i (After k) order).1 e.1 \/ inside (split i (After k) order).2 e.1)).
  { intros e He Hi. rewrite (Hf e He), (Hs e He). destruct order.
    - destruct (decide (e.1 ≼ k)) as [?|?%not_ole]; [by left|by right].
    - destruct (decide (k ≼ e.1)) as [?|?%not_ole]; [by left|by right]. }
  destruct order; cbn [order_apply].
  - apply BTreeMap.wf_ext; [by apply rows_in_wf|apply BTreeMap.wf_app; [by apply rows_in_wf..|]|].
    + intros e1 e2 [H1 H1']%elem_of_rows_in [H2 H2']%elem_of_rows_in. apply (Hf e1 H1) in H1' as [_ ?]. apply (Hs e2 H2) in H2' as [_ ?]. order.
    + intros e. rewrite elem_of_app, !elem_of_rows_in. split; [intros [He Hi]; destruct (Hmem e He Hi); auto|].
      intros [[He Hi]|[He Hi]]; (split; [done|]); [by apply (Hf e He)|by apply (Hs e He)].
  - rewrite <- rev_app_distr. f_equal. apply BTreeMap.wf_ext; [by apply rows_in_wf|apply BTreeMap.wf_app; [by apply rows_in_wf..|]|].
    + intros e1 e2 [H1 H1']%elem_of_rows_in [H2 H2']%elem_of_rows_in. apply (Hs e1 H1) in H1' as [_ ?]. apply (Hf e2 H2) in H2' as [_ ?]. order.
    + intros e. rewrite elem_of_app, !elem_of_rows_in. split; [intros [He Hi]; destruct (Hmem e He Hi); auto|].
      intros [[He Hi]|[He Hi]]; (split; [done|]); [by apply (Hs e He)|by apply (Hf e He)].
Qed.

Lemma wf_order_app m order pre post :
  BTreeMap.wf m -> order_apply order m = pre ++ post ->
  BTreeMap.wf (order_apply order pre) /\ BTreeMap.wf (order_apply order post) /\
  forall e e', e ∈ pre -> e' ∈ post -> match order with Asc => e.1 ≺ e'.1 | Desc => e'.1 ≺ e.1 end.
Proof.
  intros Hwf Heq. apply order_apply_inv in Heq as ->. destruct order; cbn [order_apply] in *.
  - split_and!; [apply (BTreeMap.wf_app_inv pre post), Hwf..|]. intros e e' He He'. by eapply BTreeMap.wf_app_lt.
  - rewrite rev_app_distr in Hwf. split_and!; [apply (BTreeMap.wf_app_inv (rev post) (rev pre)), Hwf..|].
    intros e e' He He'. eapply BTreeMap.wf_app_lt; [exact Hwf|by apply (elem_of_order_apply Desc)..].
Qed.

Lemma sides_app {A} (P : A -> Prop) (a b pre post : list A) :
  a ++ b = pre ++ post -> (forall x, x ∈ a -> P x) -> (forall x, x ∈ b -> ~ P x) ->
  (forall x, x ∈ pre -> P x) -> (forall x, x ∈ post -> ~ P x) -> a = pre /\ b = post.
Proof.
  revert pre. induction a as [|x a IH]; intros pre Heq Ha Hb Hpre Hpost.
  - destruct pre as [|y pre]; [done|]. exfalso. cbn in Heq. subst b. apply (Hb y); [left|apply Hpre; left].
  - destruct pre as [|y pre]; cbn in Heq.
    + exfalso. subst post. apply (Hpost x); [left|apply Ha; left].
    + injection Heq as <- Heq. destruct (IH pre Heq) as [-> ->]; [intros z Hz; apply Ha; by right|done|intros z Hz; apply Hpre; by right|done|done].
Qed.

(** The rows up to a row of the interval and the rows after it. *)
Lemma rows_page i order m pre post k v :
  BTreeMap.wf m -> keys_ok m -> order_apply order (rows_in i m) = pre ++ post -> last pre = Some (k, v) ->
  order_apply order (rows_in (split i (After k) order).1 m) = pre /\
  order_apply order (rows_in (split i (After k) order).2 m) = post.
Proof.
  intros Hwf Hok Heq Hlast. pose proof (rows_in_wf i m Hwf) as Hwr. apply last_Some in Hlast as [pre' ->].
  assert (Hin : (k, v) ∈ order_apply order (rows_in i m)) by (rewrite Heq; set_solver).
  apply elem_of_order_apply, elem_of_rows_in in Hin as [Hkm Hki]. cbn [fst] in Hki.
  assert (Hk : forall e, e ∈ m -> bytes e.1 /\ (k `prefix_of` e.1 -> k = e.1)).
  { intros e He. split; [apply (Hok e e He He)|apply (Hok (k, v) e Hkm He)]. }
  set (side := fun e : IndexKeyBytes * V => match order with Asc => e.1 ≼ k | Desc => k ≼ e.1 end).
  pose proof (rows_cut i order m k Hwf (proj1 (Hk _ Hkm)) Hki Hk) as Hcut. rewrite Heq in Hcut. symmetry in Hcut.
  apply (sides_app side) in Hcut; [done|..].
  - intros e [He Hi]%elem_of_order_apply%elem_of_rows_in. destruct (Hk e He). by apply inside_split_fst in Hi as [_ ?].
  - intros e [He Hi]%elem_of_order_apply%elem_of_rows_in. destruct (Hk e He).
    apply inside_split_snd in Hi as [_ ?]; [|done|apply (Hk _ Hkm)|done|done]. unfold side. destruct order; by apply not_ole.
  - intros e [He| ->%list_elem_of_singleton]%elem_of_app; [|unfold side; destruct order; apply ole_refl].
    rewrite <- (assoc (++)) in Heq. destruct (wf_order_app _ order pre' ([(k, v)] ++ post) Hwr Heq) as (_ & _ & Hlt).
    specialize (Hlt e (k, v) He ltac:(set_solver)). unfold side. destruct order; by apply olt_ole.
  - intros e He. destruct (wf_order_app _ order (pre' ++ [(k, v)]) post Hwr Heq) as (_ & _ & Hlt).
    specialize (Hlt (k, v) e ltac:(set_solver) He). unfold side. destruct order; by apply not_ole.
Qed.
End rows.

(** ** The cache *)

Section cache.
Context (c : IndexId -> option (TabletId * list FieldPath)) (db : live Timestamp).
Hypothesis Hdb : db_ok db.
Implicit Types cache : DatabaseIndexSnapshotCache.

(** Cached documents are live under their keys, and the intervals of an index
    hold no key whose document is not cached. *)
Definition cache_ok cache : Prop :=
  BTreeMap.wf (documents cache) /\ BTreeMap.wf (intervals cache) /\
  (forall iid k v, BTreeMap.get (iid, k) (documents cache) = Some v -> exists t f, c iid = Some (t, f) /\ entry_of db t f k v) /\
  (forall iid set, BTreeMap.get iid (intervals cache) = Some set -> IntervalSet.wf set /\
     forall t f k v, c iid = Some (t, f) -> entry_of db t f k v -> denotes set k -> BTreeMap.get (iid, k) (documents cache) = Some v).

(** [cache'] has the documents of [cache]. *)
Definition extends cache cache' : Prop :=
  forall e v, BTreeMap.get e (documents cache) = Some v -> BTreeMap.get e (documents cache') = Some v.

Lemma extends_refl cache : extends cache cache.
Proof. by intros e v ?. Qed.
Lemma extends_trans c1 c2 c3 : extends c1 c2 -> extends c2 c3 -> extends c1 c3.
Proof. unfold extends. eauto. Qed.

Lemma cache_new_ok : cache_ok cache_new.
Proof. by split_and!. Qed.

(** Adding an interval whose documents are all cached. *)
Lemma add_interval_ok cache iid i n :
  cache_ok cache ->
  (forall t f k v, c iid = Some (t, f) -> entry_of db t f k v -> inside i k -> BTreeMap.get (iid, k) (documents cache) = Some v) ->
  exists ivs, (forall E, add_interval (E := E) (intervals cache) iid i = Ret ivs) /\ cache_ok (MkCache (documents cache) ivs n).
Proof.
  intros (Hd & Hi & Hval & Hint) Hin. set (set0 := default IntervalSet.new (BTreeMap.get iid (intervals cache))).
  assert (H0 : IntervalSet.wf set0 /\ forall t f k v, c iid = Some (t, f) -> entry_of db t f k v -> denotes set0 k ->
    BTreeMap.get (iid, k) (documents cache) = Some v).
  { unfold set0. destruct (BTreeMap.get iid (intervals cache)) as [s|] eqn:E; [by apply Hint|]. cbn [default].
    split; [apply wf_map_nil|]. intros t f k v _ _ (s & e & Hse & _). by apply elem_of_nil in Hse. }
  destruct H0 as [Hw0 H0]. destruct (add_ret set0 i Hw0) as (set' & Hadd & Hw' & Hden).
  exists (BTreeMap.insert iid set' (intervals cache)). split.
  - intros E. unfold add_interval. fold set0. by rewrite Hadd.
  - split_and!; cbn [documents intervals]; [done|by apply BTreeMap.wf_insert|done|].
    intros iid' s. rewrite BTreeMap.get_insert_if by done. case_decide as E; [|by apply Hint]. subst iid'. intros [= <-].
    split; [done|]. intros t f k v Hc He [Hk|Hk]%Hden; [by eapply H0|by eapply Hin].
Qed.

Lemma populate_key_ok cache iid t f k v :
  cache_ok cache -> c iid = Some (t, f) -> entry_of db t f k v ->
  exists cache', (forall E, populate_key (E := E) v.1 v.2 cache (iid, k) = Ret cache') /\ cache_ok cache' /\
    extends cache cache' /\ cache_size cache' = cache_size cache /\ BTreeMap.get (iid, k) (documents cache') = Some v.
Proof.
  intros (Hd & Hi & Hval & Hint) Hc He. destruct v as [ts d]. cbn [fst snd].
  set (cache1 := MkCache (BTreeMap.insert (iid, k) (ts, d) (documents cache)) (intervals cache) (cache_size cache)).
  assert (Hext : extends cache cache1).
  { intros [iid' k'] v'. cbn [documents cache1]. rewrite BTreeMap.get_insert_if by done. case_decide as E; [|done]. injection E as -> ->.
    intros Hv'. apply Hval in Hv' as (t' & f' & Hc' & He'). rewrite Hc in Hc'. injection Hc' as <- <-.
    by rewrite (entry_key_inj db t f k _ _ Hdb He' He). }
  assert (H1 : cache_ok cache1).
  { split_and!; cbn [documents intervals cache1]; [by apply BTreeMap.wf_insert|done| |].
    - intros iid' k' v'. rewrite BTreeMap.get_insert_if by done. case_decide as E; [|by apply Hval]. injection E as -> ->. intros [= <-]. eauto.
    - intros iid' s Hs. destruct (Hint iid' s Hs) as [Hw Hs']. split; [done|]. intros t' f' k' v' Hc' He' Hk'. by eapply Hext, Hs'. }
  assert (Hg : BTreeMap.get (iid, k) (documents cache1) = Some (ts, d)).
  { cbn [documents cache1]. by apply BTreeMap.get_insert_eq. }
  destruct (add_interval_ok cache1 iid (prefix k) (cache_size cache) H1) as (ivs & Hadd & Hok).
  { intros t' f' k' v' Hc' He' Hk'. rewrite Hc in Hc'. injection Hc' as <- <-.
    destruct (entry_good db _ _ _ _ Hdb He) as [Hgd Hkd], (entry_good db _ _ _ _ Hdb He') as [Hgd' Hkd']. cbn [snd] in *.
    assert (k = k') as <-. { rewrite Hkd, Hkd'. apply doc_key_inside_prefix; [done..|]. by rewrite <- Hkd, <- Hkd'. }
    by rewrite (entry_key_inj db t f k _ _ Hdb He' He). }
  exists (MkCache (documents cache1) ivs (cache_size cache)). split_and!; [|done..].
  intros E. unfold populate_key. cbn [fst snd]. specialize (Hadd E). cbn [intervals cache1] in Hadd. by rewrite Hadd.
Qed.

Lemma populate_keys_ok v keys : forall cache,
  cache_ok cache -> (forall iid k, (iid, k) ∈ keys -> exists t f, c iid = Some (t, f) /\ entry_of db t f k v) ->
  exists cache', (forall E, foldM (populate_key (E := E) v.1 v.2) cache keys = Ret cache') /\ cache_ok cache' /\
    extends cache cache' /\ cache_size cache' = cache_size cache /\
    forall iid k, (iid, k) ∈ keys -> BTreeMap.get (iid, k) (documents cache') = Some v.
Proof.
  induction keys as [|[iid k] keys IH]; intros cache Hok Hk.
  { exists cache. split_and!; [done|done|apply extends_refl|done|by intros iid k ?%elem_of_nil]. }
  destruct (Hk iid k ltac:(left)) as (t & f & Hc & He).
  destruct (populate_key_ok cache iid t f k v Hok Hc He) as (c1 & H1 & Hok1 & Hext1 & Hsz1 & Hg1).
  destruct (IH c1 Hok1 ltac:(intros ? ? ?; apply Hk; by right)) as (c2 & H2 & Hok2 & Hext2 & Hsz2 & Hg2).
  exists c2. split_and!; [|done|by eapply extends_trans|congruence|].
  - intros E. cbn [foldM]. rewrite H1. apply H2.
  - intros iid' k' [[= -> ->]|Hin]%elem_of_cons; [by apply Hext2|by apply Hg2].
Qed.
End cache.

Section fill.
Context (c : IndexId -> option (TabletId * list FieldPath)) (db : live Timestamp) (r : IndexRegistry) (max_cache_size : Z).
Hypothesis Hdb : db_ok db.
Hypothesis Hr : registry_ok r.
Hypothesis Hc : catalogued c r.
Implicit Types cache : DatabaseIndexSnapshotCache.

Definition is_live (v : Timestamp * PackedDocument) : Prop := db (id v.2) = Some v.

(** The document is cached in every registered index of its table. *)
Definition cached_everywhere cache (v : Timestamp * PackedDocument) : Prop :=
  forall iid t f k, registered_id r iid -> c iid = Some (t, f) -> entry_of db t f k v ->
    BTreeMap.get (iid, k) (documents cache) = Some v.

Lemma populate_document_ok cache v :
  cache_ok c db cache -> is_live v ->
  exists cache', (forall E, populate_document max_cache_size (E := E) r cache v = Ret cache') /\ cache_ok c db cache' /\
    extends cache cache' /\ cache_size cache <= cache_size cache' /\
    (cache_size cache <= max_cache_size -> cached_everywhere cache' v).
Proof.
  intros Hok Hv. destruct v as [ts d]. unfold is_live in Hv. cbn [snd] in Hv.
  destruct (Hdb _ _ _ Hv) as [_ Hg]. destruct (document_keys_ret r d Hr Hg) as (keys & Hkeys & Hel).
  set (ks := map (fun x : Index * list Z => (index_id x.1, x.2)) keys).
  assert (Hks : forall iid k, (iid, k) ∈ ks <-> registered_id r iid /\ exists t f, c iid = Some (t, f) /\ entry_of db t f k (ts, d)).
  { intros iid k. unfold ks. rewrite list_elem_of_fmap. split.
    - intros ([ix k'] & [= -> ->] & (f & Hix & ->)%Hel). cbn [fst snd]. split; [by exists (tablet_id (id d)), ix, f|].
      exists (tablet_id (id d)), f. split; [by apply Hc|done].
    - intros ((t & ix & f & Hix & <-) & t' & f' & Hc' & _ & Ht & ->). rewrite (Hc _ _ _ Hix) in Hc'. injection Hc' as <- <-.
      cbn [snd] in Ht. subst t. exists (ix, doc_key d f). split; [done|]. apply Hel. by exists f. }
  unfold populate_document, populate. cbn [fst snd].
  destruct (cache_size cache <=? max_cache_size) eqn:Hsz.
  - destruct (populate_keys_ok c db Hdb (ts, d) ks cache Hok) as (c1 & H1 & Hok1 & Hext & Hs1 & Hg1); [by intros iid k [_ ?]%Hks|].
    exists (MkCache (documents c1) (intervals c1) (cache_size c1 + size (value d))). split_and!; [|done|done| |].
    + intros E. rewrite Hkeys. cbn [obind]. fold ks. specialize (H1 E). cbn [fst snd] in H1. by rewrite H1.
    + cbn [cache_size]. pose proof (size_pos (value d)). lia.
    + intros _ iid t f k Hreg Hci He. apply Hg1, Hks. eauto.
  - exists cache. split_and!; [|done|apply extends_refl|lia|].
    + intros E. by rewrite Hkeys.
    + intros ?. apply Z.leb_gt in Hsz. lia.
Qed.

Lemma cached_everywhere_mono cache cache' v : extends cache cache' -> cached_everywhere cache v -> cached_everywhere cache' v.
Proof. intros Hext Hv iid t f k ???. by eapply Hext, Hv. Qed.

Lemma populate_documents_ok vs : forall cache,
  cache_ok c db cache -> (forall v, v ∈ vs -> is_live v) ->
  exists cache', (forall E, foldM (populate_document max_cache_size (E := E) r) cache vs = Ret cache') /\ cache_ok c db cache' /\
    extends cache cache' /\ cache_size cache <= cache_size cache' /\
    (cache_size cache' <= max_cache_size -> forall v, v ∈ vs -> cached_everywhere cache' v).
Proof.
  induction vs as [|v vs IH]; intros cache Hok Hvs.
  { exists cache. split_and!; [done|done|apply extends_refl|lia|]. by intros _ v ?%elem_of_nil. }
  destruct (populate_document_ok cache v Hok ltac:(apply Hvs; left)) as (c1 & H1 & Hok1 & Hext1 & Hs1 & Hv1).
  destruct (IH c1 Hok1 ltac:(intros ??; apply Hvs; by right)) as (c2 & H2 & Hok2 & Hext2 & Hs2 & Hv2).
  exists c2. split_and!; [|done|by eapply extends_trans|lia|].
  - intros E. cbn [foldM]. rewrite H1. apply H2.
  - intros Hsz w [->|Hw]%elem_of_cons; [|by apply Hv2]. eapply cached_everywhere_mono; [exact Hext2|]. apply Hv1. lia.
Qed.

(** What a finished fetch promises: the documents of the interval it read were
    cached when it started, or are among those it brings. *)
Definition fill_ok cache (f : CacheFill) : Prop :=
  registered_id r (fill_index f) /\ (forall v, v ∈ fill_documents f -> is_live v) /\
  forall t fs k v, c (fill_index f) = Some (t, fs) -> entry_of db t fs k v ->
    inside (split (req_interval (fill_request f)) (fill_cursor f) (req_order (fill_request f))).1 k ->
    BTreeMap.get (fill_index f, k) (documents cache) = Some v \/ v ∈ fill_documents f.

Lemma fill_cache_ok cache f :
  cache_ok c db cache -> fill_ok cache f ->
  exists cache', (forall E, fill_cache max_cache_size (E := E) r cache f = Ret cache') /\ cache_ok c db cache' /\ extends cache cache'.
Proof.
  intros Hok (Hreg & Hlive & Hcov).
  destruct (populate_documents_ok (fill_documents f) cache Hok Hlive) as (c1 & H1 & Hok1 & Hext & _ & Hall).
  unfold fill_cache, record_interval_populated. destruct (cache_size c1 <=? max_cache_size) eqn:Hsz.
  - apply Z.leb_le in Hsz. specialize (Hall Hsz).
    destruct (add_interval_ok c db c1 (fill_index f)
      (split (req_interval (fill_request f)) (fill_cursor f) (req_order (fill_request f))).1 (cache_size c1) Hok1) as (ivs & Hadd & Hok2).
    { intros t fs k v Hci He Hin. destruct (Hcov t fs k v Hci He Hin) as [?|Hv]; [by apply Hext|]. by eapply Hall. }
    exists (MkCache (documents c1) ivs (cache_size c1)). split_and!; [|done|done].
    intros E. rewrite H1. cbn [obind]. rewrite (proj2 (Z.leb_le _ _) Hsz). by rewrite Hadd.
  - exists c1. split_and!; [|done|done]. intros E. rewrite H1. cbn [obind]. by rewrite Hsz.
Qed.

Lemma fill_caches_ok fs : forall cache,
  cache_ok c db cache -> (forall f, f ∈ fs -> fill_ok cache f) ->
  exists cache', (forall E, foldM (fill_cache max_cache_size (E := E) r) cache fs = Ret cache') /\ cache_ok c db cache'.
Proof.
  induction fs as [|f fs IH]; intros cache Hok Hfs; [by exists cache|].
  destruct (fill_cache_ok cache f Hok ltac:(apply Hfs; left)) as (c1 & H1 & Hok1 & Hext).
  destruct (IH c1 Hok1) as (c2 & H2 & Hok2).
  { intros g Hg. destruct (Hfs g ltac:(by right)) as (Hreg & Hlive & Hcov). split_and!; [done..|].
    intros t fs' k v Hci He Hin. destruct (Hcov t fs' k v Hci He Hin); [left; by apply Hext|by right]. }
  exists c2. split; [|done]. intros E. cbn [foldM]. rewrite H1. apply H2.
Qed.
End fill.

(** ** Reading through the cache *)

Section read.
Context (c : IndexId -> option (TabletId * list FieldPath)) (db : live Timestamp).
Hypothesis Hdb : db_ok db.
Context (iid : IndexId) (t : TabletId) (f : list FieldPath) (m : BTreeMap.t IndexKeyBytes (Timestamp * PackedDocument)).
Hypothesis Hci : c iid = Some (t, f).
Hypothesis Hm : index_exact db t f m.
Implicit Types cache : DatabaseIndexSnapshotCache.

Lemma index_keys_are_ok : keys_ok m.
Proof.
  destruct Hm as [Hwf Hget]. intros [k v] [k' v'] H1 H2. apply BTreeMap.elem_of_get in H1, H2; [|done..]. apply Hget in H1, H2.
  destruct (entry_good db _ _ _ _ Hdb H1) as [Hg ->], (entry_good db _ _ _ _ Hdb H2) as [Hg' ->]. cbn [fst].
  split; [by apply doc_key_bytes|]. intros Hp. by apply doc_key_prefix in Hp as [? _].
Qed.

Lemma wf_drop_index (l : list ((IndexId * IndexKeyBytes) * (Timestamp * PackedDocument))) :
  BTreeMap.wf l -> (forall e, e ∈ l -> e.1.1 = iid) -> BTreeMap.wf (map (fun e => (e.1.2, e.2)) l).
Proof.
  induction l as [|[[i k] v] l IH]; intros Hwf Hl; cbn [map]; [done|]. destruct Hwf as [Hlt Hwf]. split.
  - intros e (e' & -> & He')%list_elem_of_fmap. specialize (Hlt e' He'). destruct e' as [[i' k'] v']. cbn [fst snd] in *.
    pose proof (Hl _ ltac:(left) : i = iid) as ->. pose proof (Hl _ ltac:(right; exact He') : i' = iid) as ->.
    apply pair_olt in Hlt as [Hlt|[_ ?]]; [by apply olt_irrefl in Hlt|done].
  - apply IH; [done|]. intros e He. apply Hl. by right.
Qed.

(** The cached rows of an interval all of whose documents are cached. *)
Lemma cached_range_rows cache i :
  cache_ok c db cache ->
  (forall k v, entry_of db t f k v -> inside i k -> BTreeMap.get (iid, k) (documents cache) = Some v) ->
  map (fun e => (e.1.2, e.2)) (cached_range cache iid i) = rows_in i m.
Proof.
  intros (Hd & _ & Hval & _) Hall. destruct Hm as [Hwf Hget]. unfold cached_range.
  set (p := fun e : (IndexId * IndexKeyBytes) * (Timestamp * PackedDocument) => _ && _).
  assert (Hwr : BTreeMap.wf (BTreeMap.range_from (iid, start i) (documents cache))) by (by apply BTreeMap.wf_bfilter).
  assert (Hp : forall iid' k v, p ((iid', k), v) = true <-> iid' = iid /\ above (end_ i) k).
  { intros iid' k v. unfold p. cbn [fst snd]. rewrite andb_true_iff, bool_decide_eq_true. unfold above, greater_than. by destruct (end_ i). }
  rewrite BTreeMap.take_while_downward; [|done|].
  - apply BTreeMap.wf_ext.
    + apply wf_drop_index; [by apply BTreeMap.wf_bfilter|]. intros [[i' k] v] [_ H]%elem_of_bfilter. by apply Hp in H as [-> _].
    + by apply rows_in_wf.
    + intros [k v]. rewrite list_elem_of_fmap, elem_of_rows_in, <- BTreeMap.elem_of_get, Hget, inside_alt by done. cbn [fst]. split.
      * intros ([[i' k'] v'] & [= -> ->] & [Hin H]%elem_of_bfilter). apply Hp in H as [-> Hab].
        apply elem_of_bfilter in Hin as [Hin Hle]. apply leb_le in Hle. cbn [fst snd] in *.
        apply BTreeMap.elem_of_get in Hin; [|done]. apply Hval in Hin as (t' & f' & Hc' & He). rewrite Hci in Hc'. injection Hc' as <- <-.
        split_and!; [apply He..| |done]. apply not_olt in Hle. rewrite pair_olt in Hle. apply not_olt. tauto.
      * intros (He & Hs & Hab). exists ((iid, k), v). split; [done|]. apply elem_of_bfilter. split; [|by apply Hp].
        apply elem_of_bfilter. split; [apply BTreeMap.elem_of_get; [done|]; apply Hall; [done|by apply inside_alt]|].
        apply leb_le, not_olt. cbn [fst]. rewrite pair_olt. intros [H|[_ H]]; [by apply olt_irrefl in H|order].
  - intros [[i1 k1] v1] [[i2 k2] v2] H1 H2 Hlt. rewrite !Hp. intros [-> Hab]. apply elem_of_bfilter in H1 as [_ H1]. apply leb_le in H1.
    cbn [fst] in *. apply not_olt in H1. rewrite pair_olt in H1. apply pair_olt in Hlt as [Hlt|[-> Hlt]]; [tauto|].
    split; [done|]. eapply above_down; [exact Hab|by apply olt_ole].
Qed.

(** The rows a cache result stands for. *)
Definition expand (order : Order) (cr : CacheResult) : list (IndexKeyBytes * (Timestamp * PackedDocument)) :=
  match cr with
  | Document k ts d => [(k, (ts, d))]
  | CacheMiss i => order_apply order (rows_in i m)
  end.

Lemma expand_order order l :
  concat (map (expand order) (order_apply order l)) = order_apply order (concat (map (expand Asc) l)).
Proof.
  destruct order; cbn [order_apply]; [done|]. induction l as [|x l IH]; cbn [rev map concat]; [done|].
  rewrite rev_app_distr, map_app, concat_app, IH. f_equal. cbn [map concat]. rewrite app_nil_r. by destruct x.
Qed.

Lemma get_components_rows cache interval comps : forall lo n,
  BTreeMap.wf m -> chain lo (end_ interval) comps ->
  (forall i, (true, i) ∈ comps -> map (fun e => (e.1.2, e.2)) (cached_range cache iid i) = rows_in i m) ->
  concat (map (expand Asc) (get_components cache iid interval n comps)) = rows_in (MkInterval lo (end_ interval)) m.
Proof.
  induction comps as [|[b i] comps IH]; intros lo n Hwf Hch Hin; [by inversion Hch|].
  pose proof (chain_rows _ _ _ m Hwf Hch) as Hrows. cbn [get_components].
  destruct (chain_inv _ _ _ _ _ Hch) as [Hs Hrest].
  destruct (MAX_CACHED_RANGES_PER_INTERVAL <=? n)%nat; [cbn [map concat expand order_apply]; by rewrite app_nil_r, Hs|].
  assert (Htail : forall n', concat (map (expand Asc) (get_components cache iid interval n' comps)) = concat (map (fun c => rows_in c.2 m) comps)).
  { intros n'. destruct Hrest as [[-> _]|(mid & _ & _ & _ & Hch')]; [done|]. rewrite (chain_rows _ _ _ m Hwf Hch').
    apply IH; [done..|]. intros j Hj. apply Hin. by right. }
  rewrite <- Hrows. cbn [map concat snd]. destruct b.
  - rewrite map_app, concat_app, Htail, <- (Hin i) by left. f_equal. rewrite map_map.
    clear. induction (cached_range cache iid i) as [|[[? k] [ts d]] l IHl]; cbn [map concat app]; [done|]. by rewrite IHl.
  - cbn [map concat expand order_apply]. by rewrite Htail.
Qed.

Lemma get_components_documents cache interval k ts d comps : forall n,
  Document k ts d ∈ get_components cache iid interval n comps -> ((iid, k), (ts, d)) ∈ documents cache.
Proof.
  induction comps as [|[b i] comps IH]; intros n; cbn [get_components]; [by rewrite elem_of_nil|].
  destruct (MAX_CACHED_RANGES_PER_INTERVAL <=? n)%nat; [by intros [=]%list_elem_of_singleton|]. destruct b.
  - intros [Hin|Hin]%elem_of_app; [|by apply IH in Hin]. apply list_elem_of_fmap in Hin as ([[i' k'] [ts' d']] & [= <- <- <-] & Hin).
    apply take_while_elem in Hin as [Hin Hp]. apply andb_true_iff in Hp as [Hp _]. apply bool_decide_eq_true in Hp. cbn [fst] in Hp. subst i'.
    by apply elem_of_bfilter in Hin as [? _].
  - intros [[=]|Hin]%elem_of_cons. by apply IH in Hin.
Qed.

(** [get] cuts the rows of an interval into cached documents and misses. *)
Lemma cache_get_ok {E} cache interval order :
  cache_ok c db cache ->
  exists crs, cache_get (E := E) cache iid interval order = Ret crs /\
    concat (map (expand order) crs) = order_apply order (rows_in interval m) /\
    forall k ts d, Document k ts d ∈ crs -> BTreeMap.get (iid, k) (documents cache) = Some (ts, d).
Proof.
  intros Hok. pose proof Hok as (Hd & Hi & Hval & Hint). unfold cache_get.
  destruct (BTreeMap.get iid (intervals cache)) as [set|] eqn:Hset.
  2:{ exists [CacheMiss interval]. split_and!; [done|cbn [map concat expand]; by rewrite app_nil_r|].
      by intros k ts d [=]%list_elem_of_singleton. }
  destruct (Hint iid set Hset) as [Hws Hden].
  destruct (split_interval_components_spec (E := E) set interval Hws) as (comps & Hsp & Hcov & Hlab & _).
  pose proof (split_interval_components_chain set interval comps Hws Hsp) as Hch.
  exists (order_apply order (get_components cache iid interval 0 comps)). split_and!.
  - by rewrite Hsp.
  - rewrite expand_order. f_equal. destruct Hch as [[He ->]|Hch].
    + symmetry. apply bfilter_none. intros e _. apply contains_false. by apply is_empty_spec.
    + destruct interval as [s e]. apply (get_components_rows cache (MkInterval s e)); [apply Hm|done|].
      intros i Hin. apply cached_range_rows; [done|]. intros k v He Hk. eapply Hden; [done|exact He|]. by apply (Hlab (true, i) k).
  - intros k ts d. rewrite elem_of_order_apply. intros Hin. apply BTreeMap.elem_of_get; [done|]. by eapply get_components_documents.
Qed.
End read.

(** ** Fetching what the cache misses *)

(** What the stream of an index scan yields: the rows in order, possibly cut
    short by an error. *)
Inductive scan_of : list (IndexKeyBytes * (Timestamp * PackedDocument)) ->
    list (outcome index_error (IndexKeyBytes * (Timestamp * PackedDocument))) -> Prop :=
| scan_done : scan_of [] []
| scan_next row rows stream : scan_of rows stream -> scan_of (row :: rows) (Ret row :: stream)
| scan_fail rows e stream : scan_of rows (Err e :: stream).

Definition plain (e : IndexKeyBytes * (Timestamp * LazyDocument)) : IndexKeyBytes * (Timestamp * PackedDocument) :=
  (e.1, (e.2.1, unpack e.2.2)).
Definition resolved_row (e : IndexKeyBytes * (Timestamp * PackedDocument)) : IndexKeyBytes * (Timestamp * LazyDocument) :=
  (e.1, (e.2.1, LazyResolved e.2.2)).

Lemma plain_resolved_rows rows : map plain (map resolved_row rows) = rows.
Proof. induction rows as [|[k [ts d]] rows IH]; cbn [map]; [done|]. by rewrite IH. Qed.

Lemma read_stream_ok max_size rows stream : scan_of rows stream -> forall results misses,
  (length results < max_size)%nat ->
  (stream <> map Ret rows /\ exists e, read_stream max_size results misses stream = Err e) \/
  exists pre, pre `prefix_of` rows /\
    read_stream max_size results misses stream = Ret (results ++ map resolved_row pre, misses ++ map snd pre) /\
    ((length (results ++ map resolved_row pre) < max_size)%nat -> pre = rows) /\
    ((max_size <= length (results ++ map resolved_row pre))%nat -> pre <> []).
Proof.
  induction 1 as [|row rows stream Hs IH|rows e stream]; intros results misses Hlt.
  - right. exists []. cbn. rewrite !app_nil_r. split_and!; [done|done|done|lia].
  - cbn [read_stream obind map]. destruct row as [k [ts d]]. cbn [fst snd].
    destruct (max_size <=? length (results ++ [(k, (ts, LazyResolved d))]))%nat eqn:Hmax.
    + right. exists [(k, (ts, d))]. apply Nat.leb_le in Hmax. cbn [map]. split_and!; [by exists rows|done| |done]. cbn. unfold resolved_row. cbn. lia.
    + apply Nat.leb_gt in Hmax. destruct (IH _ (misses ++ [(ts, d)]) Hmax) as [[Hne [e He]]|(pre & Hpre & -> & Hfull & Hnon)].
      * left. split; [congruence|]. eauto.
      * right. exists ((k, (ts, d)) :: pre). cbn [map]. rewrite <- !(assoc (++)). cbn [app].
        split_and!; [by apply prefix_cons|done| |done]. intros Hl. f_equal. apply Hfull. rewrite <- (assoc (++)). exact Hl.
  - left. cbn [read_stream obind]. split; [|eauto]. by destruct rows.
Qed.

Section fetch.
Context (p : PersistenceSnapshot) (iid : IndexId) (req : RangeRequest)
        (m : BTreeMap.t IndexKeyBytes (Timestamp * PackedDocument)).

Definition scan (i : Interval) := index_scan p iid (req_index_name req).1 i (req_order req).
Definition scanned (i : Interval) := order_apply (req_order req) (rows_in i m).

(** One cache result: its rows are appended, up to the size of the page. *)
Definition fetch_one (results : Page) (misses : list (Timestamp * PackedDocument)) (cr : CacheResult) :=
  match cr with
  | Document key ts doc => Ret (results ++ [(key, (ts, LazyPacked doc))], misses)
  | CacheMiss i => read_stream (req_max_size req) results misses (scan i)
  end.

Lemma fetch_one_ok results misses cr :
  (length results < req_max_size req)%nat -> (forall i, cr = CacheMiss i -> scan_of (scanned i) (scan i)) ->
  ((exists i, cr = CacheMiss i /\ scan i <> map Ret (scanned i)) /\ exists e, fetch_one results misses cr = Err e) \/
  exists page misses', fetch_one results misses cr = Ret (results ++ page, misses ++ misses') /\
    map plain page `prefix_of` expand m (req_order req) cr /\
    ((length (results ++ page) < req_max_size req)%nat -> map plain page = expand m (req_order req) cr) /\
    ((req_max_size req <= length (results ++ page))%nat -> page <> []) /\
    (forall row, row ∈ map plain page -> cr = Document row.1 row.2.1 row.2.2 \/ row.2 ∈ misses') /\
    (forall v, v ∈ misses' -> exists k, (k, v) ∈ expand m (req_order req) cr).
Proof.
  intros Hlt Hscan. destruct cr as [k ts d|i].
  - right. exists [(k, (ts, LazyPacked d))], []. rewrite app_nil_r. cbn. split_and!; [done|done|done|done| |set_solver].
    intros row ->%list_elem_of_singleton. by left.
  - cbn [fetch_one expand]. fold (scanned i).
    destruct (read_stream_ok (req_max_size req) (scanned i) (scan i) (Hscan i eq_refl) results misses Hlt)
      as [[Hne [e He]]|(pre & Hpre & Hrd & Hfull & Hnon)]; [left; eauto|]. right.
    exists (map resolved_row pre), (map snd pre). rewrite plain_resolved_rows. split_and!; [done..| | |].
    + intros Hl Hn. apply map_eq_nil in Hn. by apply Hnon in Hl.
    + intros row Hrow. right. apply list_elem_of_fmap. eauto.
    + intros v (e & -> & He)%list_elem_of_fmap. exists e.1. rewrite <- surjective_pairing.
      destruct Hpre as [post ->]. apply elem_of_app. by left.
Qed.

Lemma last_map_plain (page : Page) e : last page = Some e -> last (map plain page) = Some (plain e).
Proof. intros [l ->]%last_Some. rewrite map_app. apply last_snoc. Qed.

Lemma fetch_cache_misses_ok crs : forall results misses,
  (length results < req_max_size req)%nat -> (forall i, CacheMiss i ∈ crs -> scan_of (scanned i) (scan i)) ->
  let rows := concat (map (expand m (req_order req)) crs) in
  ((exists i, CacheMiss i ∈ crs /\ scan i <> map Ret (scanned i)) /\ exists e, fetch_cache_misses p iid req results misses crs = Err e) \/
  exists page misses' cursor, fetch_cache_misses p iid req results misses crs = Ret (results ++ page, misses ++ misses', cursor) /\
    map plain page `prefix_of` rows /\
    ((cursor = CursorEnd /\ map plain page = rows) \/ exists e, last (map plain page) = Some e /\ cursor = After e.1) /\
    (forall row, row ∈ map plain page -> Document row.1 row.2.1 row.2.2 ∈ crs \/ row.2 ∈ misses') /\
    (forall v, v ∈ misses' -> exists k, (k, v) ∈ rows).
Proof.
  induction crs as [|cr crs IH]; intros results misses Hlt Hscan rows; subst rows.
  { right. exists [], [], CursorEnd. cbn. rewrite !app_nil_r. split_and!; [done|done|by left|set_solver|set_solver]. }
  cbn [fetch_cache_misses map concat]. fold (scan). change (match cr with
    | Document key ts doc => Ret (results ++ [(key, (ts, LazyPacked doc))], misses)
    | CacheMiss i => read_stream (req_max_size req) results misses (index_scan p iid (req_index_name req).1 i (req_order req))
    end) with (fetch_one results misses cr).
  destruct (fetch_one_ok results misses cr Hlt) as [[(i & -> & Hne) [e He]]|(page & ms & Hone & Hpre & Hfull & Hnon & Hrow & Hms)].
  { intros i ->. apply Hscan. left. } { left. split; [exists i; split; [left|done]|]. rewrite He. by eexists. }
  rewrite Hone. cbn [obind]. destruct (req_max_size req <=? length (results ++ page))%nat eqn:Hmax.
  - right. apply Nat.leb_le in Hmax. apply Hnon in Hmax. destruct (last page) as [x|] eqn:Hx; [|by apply last_None in Hx].
    exists page, ms, (After x.1). assert (Hx' : last (results ++ page) = Some x) by (by rewrite last_app, Hx). rewrite Hx'. cbn [expect obind].
    split_and!; [done|by apply prefix_app_r| | |].
    + right. exists (plain x). split; [by apply last_map_plain|done].
    + intros row Hr. destruct (Hrow row Hr) as [<-|?]; [left; left|by right].
    + intros v Hv. destruct (Hms v Hv) as [k Hk]. exists k. apply elem_of_app. by left.
  - apply Nat.leb_gt in Hmax. pose proof (Hfull Hmax) as Hall.
    destruct (IH (results ++ page) (misses ++ ms) Hmax ltac:(intros i Hi; apply Hscan; by right))
      as [[(i & Hi & Hne) He]|(page2 & ms2 & cursor & Hf & Hpre2 & Hcur & Hrow2 & Hms2)].
    { left. split; [exists i; split; [by right|done]|done]. }
    right. exists (page ++ page2), (ms ++ ms2), cursor. rewrite Hf, <- !(assoc (++)), map_app, Hall. split_and!; [done|by apply prefix_app| | |].
    + destruct Hcur as [[-> ->]|(e & He & ->)]; [by left|]. right. exists e. by rewrite last_app, He.
    + rewrite <- Hall. intros row [Hr|Hr]%elem_of_app.
      * destruct (Hrow row Hr) as [<-|?]; [left; left|right; apply elem_of_app; by left].
      * destruct (Hrow2 row Hr); [left; by right|right; apply elem_of_app; by right].
    + intros v [Hv|Hv]%elem_of_app; [destruct (Hms v Hv) as [k Hk]|destruct (Hms2 v Hv) as [k Hk]]; exists k; apply elem_of_app; auto.
Qed.
End fetch.

(** ** The snapshot *)

(** What persistence promises: a scan of a registered index yields its rows at
    the snapshot, possibly cut short by an error. *)
Definition persistence_ok (r : IndexRegistry) (db : live Timestamp) (p : PersistenceSnapshot) : Prop :=
  forall t ix f m interval order, database_index r t ix f -> index_exact db t f m ->
    scan_of (order_apply order (rows_in interval m)) (index_scan p (index_id ix) t interval order).

(** What the in-memory indexes promise: a range they serve is exact. *)
Definition memory_reads_ok {M} `{InMemoryIndexes M} (c : IndexId -> option (TabletId * list FieldPath)) (db : live Timestamp) (memory : M) : Prop :=
  forall iid interval order, memory_range memory iid interval order <> Panic /\
    forall t f m rows, c iid = Some (t, f) -> index_exact db t f m ->
      memory_range memory iid interval order = Ret (Some rows) -> rows = order_apply order (rows_in interval m).

Lemma backend_reads_ok c db self : memory_ok c db self -> memory_reads_ok c db self.
Proof.
  intros [_ Hm] iid interval order. split; [done|]. intros t f m rows Hci Hex Hrd. cbn in Hrd. unfold backend_range in Hrd.
  destruct (BTreeMap.get iid (in_memory_indexes self)) as [im|] eqn:Hg; [|done]. injection Hrd as <-.
  destruct (Hm iid im Hg) as (t' & f' & Hci' & Hex'). rewrite Hci in Hci'. injection Hci' as <- <-.
  by rewrite (index_exact_unique db t f _ _ Hex Hex').
Qed.

Lemma no_memory_reads_ok c db : memory_reads_ok c db MkNoIndexes.
Proof. intros iid interval order. split; [done|]. by intros ? ? ? ? ? ? [=]. Qed.

Lemma tablet_name_safe m t : tablet_name m t <> Panic.
Proof. unfold tablet_name, get_table_metadata. by destruct (BTreeMap.get t (tablet_to_table m)) as [[[? ?] ?]|]. Qed.

Lemma mapM_Forall2 {A B} (f : forall E, A -> outcome E B) (P : A -> B -> Prop) l :
  (forall x, x ∈ l -> exists y, (forall E, f E x = Ret y) /\ P x y) ->
  exists ys, (forall E, mapM (f E) l = Ret ys) /\ Forall2 P l ys.
Proof.
  induction l as [|x l IH]; intros Hf; [by exists []|]. destruct (Hf x ltac:(left)) as (y & Hy & HP).
  destruct IH as (ys & Hys & HF); [intros x' Hx'; apply Hf; by right|]. exists (y :: ys). split; [|by constructor].
  intros E. cbn [mapM]. rewrite Hy. cbn [obind]. by rewrite Hys.
Qed.

Section snapshot_proofs.
Context {M : Type} `{InMemoryIndexes M} (max_cache_size : Z).
Context (c : IndexId -> option (TabletId * list FieldPath)) (db : live Timestamp).
Implicit Types self : DatabaseIndexSnapshot M.

Record snapshot_ok self : Prop := {
  snap_db : db_ok db;
  snap_reg : registry_ok (snap_registry self);
  snap_cat : catalogued c (snap_registry self);
  snap_fin t f : exists m, index_exact db t f m;
  snap_mem : memory_reads_ok c db (snap_memory self);
  snap_scan : persistence_ok (snap_registry self) db (snap_persistence self);
  snap_cached : cache_ok c db (snap_cache self);
}.

(** No source of the snapshot fails. *)
Definition reliable self : Prop :=
  (forall iid interval order e, memory_range (snap_memory self) iid interval order <> Err e) /\
  forall t ix f m interval order, database_index (snap_registry self) t ix f -> index_exact db t f m ->
    index_scan (snap_persistence self) (index_id ix) t interval order = map Ret (order_apply order (rows_in interval m)).

(** The result of a request: the rows up to the cursor, exactly. *)
Definition page_exact self (req : RangeRequest) (page : Page) (cursor : CursorPosition) : Prop :=
  match get_enabled (snap_registry self) (req_index_name req) with
  | None => page = [] /\ cursor = CursorEnd
  | Some ix => exists f s m, config ix = Database f s /\ index_exact db (req_index_name req).1 f m /\
      map plain page = order_apply (req_order req) (rows_in (split (req_interval req) cursor (req_order req)).1 m) /\
      contains_cursor (req_interval req) cursor = true /\
      match cursor with After k => exists e, last (map plain page) = Some e /\ k = e.1 | CursorEnd => True end
  end.

Lemma fetch_exact self req ix f s :
  snapshot_ok self -> (0 < req_max_size req)%nat ->
  get_enabled (snap_registry self) (req_index_name req) = Some ix -> config ix = Database f s ->
  exists crs, cache_get (E := index_error) (snap_cache self) (index_id ix) (req_interval req) (req_order req) = Ret crs /\
    ((~ reliable self /\ exists e, fetch_cache_misses (snap_persistence self) (index_id ix) req [] [] crs = Err e) \/
     exists page misses cursor, fetch_cache_misses (snap_persistence self) (index_id ix) req [] [] crs = Ret (page, misses, cursor) /\
       page_exact self req page cursor /\
       fill_ok c db (snap_registry self) (snap_cache self) (MkFill req (index_id ix) misses cursor)).
Proof.
  intros Hok Hmax Hen Hcfg. destruct Hok as [Hdb Hr Hc Hfin _ Hscan Hcache]. set (t := (req_index_name req).1).
  destruct (reg_enabled _ Hr _ _ Hen) as [Hname _].
  assert (Hix : database_index (snap_registry self) t ix f).
  { split_and!; [by rewrite Hname|left; by rewrite Hname|by exists s]. }
  pose proof (Hc _ _ _ Hix) as Hci. destruct (Hfin t f) as [m Hm].
  destruct (cache_get_ok c db (index_id ix) t f m Hci Hm (E := index_error) (snap_cache self) (req_interval req) (req_order req) Hcache)
    as (crs & Hget & Hrows & Hdocs). exists crs. split; [done|].
  destruct (fetch_cache_misses_ok (snap_persistence self) (index_id ix) req m crs [] [] Hmax)
    as [[(i & Hi & Hne) He]|(page & misses & cursor & Hf & Hpre & Hcur & Hrow & Hms)].
  { intros i _. by apply Hscan with (f := f). }
  { left. split; [|done]. intros [_ Hrel]. apply Hne. by apply Hrel with (f := f). }
  right. exists page, misses, cursor. split; [done|]. rewrite Hrows in *. destruct Hpre as [post Hpost].
  assert (Hpage : map plain page = order_apply (req_order req) (rows_in (split (req_interval req) cursor (req_order req)).1 m) /\
    contains_cursor (req_interval req) cursor = true /\
    match cursor with After k => exists e, last (map plain page) = Some e /\ k = e.1 | CursorEnd => True end).
  { destruct Hcur as [[-> Hall]|([k v] & Hlast & ->)]; [by split_and!|]. split_and!; [|cbn [contains_cursor]|by eexists].
    - symmetry. eapply (rows_page (req_interval req)); [apply Hm|by apply (index_keys_are_ok db Hdb t f)|exact Hpost|exact Hlast].
    - assert (Hin : (k, v) ∈ order_apply (req_order req) (rows_in (req_interval req) m)).
      { rewrite Hpost. apply last_Some in Hlast as [l ->]. set_solver. }
      by apply elem_of_order_apply, elem_of_rows_in in Hin as [_ ?]. }
  destruct Hpage as (Hpage & Hcc & Hlast). split; [unfold page_exact; rewrite Hen; by exists f, s, m|].
  assert (Hentry : forall k v, (k, v) ∈ order_apply (req_order req) (rows_in (req_interval req) m) -> entry_of db t f k v).
  { intros k v [Hin _]%elem_of_order_apply%elem_of_rows_in. apply Hm, BTreeMap.elem_of_get; [apply Hm|done]. }
  split_and!; cbn [fill_index fill_documents fill_request fill_cursor].
  - by exists t, ix, f.
  - intros v [k Hk]%Hms. by apply Hentry in Hk as (? & _).
  - intros t' fs k v Hc' He Hin. rewrite Hci in Hc'. injection Hc' as <- <-.
    assert (Hp : (k, v) ∈ map plain page).
    { rewrite Hpage. apply elem_of_order_apply, elem_of_rows_in. split; [|done]. apply BTreeMap.elem_of_get; [apply Hm|]. by apply Hm. }
    destruct (Hrow _ Hp) as [Hd|?]; [|by right]. left. apply Hdocs in Hd. destruct v. exact Hd.
Qed.

(** The outcome of one request of a batch. *)
Definition fetched_ok self (req : RangeRequest) (res : index_error + Page * CursorPosition * option CacheFill) : Prop :=
  match res with
  | inl _ => reliable self -> forall ix f s, get_enabled (snap_registry self) (req_index_name req) = Some ix -> config ix <> Database f s
  | inr (page, cursor, fill) => page_exact self req page cursor /\
      forall fl, fill = Some fl -> fill_ok c db (snap_registry self) (snap_cache self) fl
  end.

Lemma range_fetch_ok self req :
  snapshot_ok self -> (0 < req_max_size req)%nat ->
  exists res, (forall E, catch (E' := E) (range_fetch self req) = Ret res) /\ fetched_ok self req res.
Proof.
  intros Hok Hmax. unfold range_fetch, start_range_fetch, require_enabled.
  destruct (get_enabled (snap_registry self) (req_index_name req)) as [ix|] eqn:Hen.
  2:{ assert (Hno : forall e, exists res, (forall E, catch (E' := E) (let? fetched :=
        (if negb (bool_decide ((req_index_name req).1 = index_table (snap_registry self))) then Ret (MemoryCached [] CursorEnd) else Err (RegistryErr e)) in
        match fetched with
        | MemoryCached docs next_cursor => Ret (map (fun e => (e.1, (e.2.1, LazyMemory e.2.2))) docs, next_cursor, None)
        | NonCached i crs => let? (page, ms, cursor) := fetch_cache_misses (snap_persistence self) i req [] [] crs in
            Ret (page, cursor, Some (MkFill req i ms cursor)) end) = Ret res) /\ fetched_ok self req res).
      { intros e. destruct (negb _); cbn [obind catch]; eexists; (split; [done|]); cbn [fetched_ok].
        - unfold page_exact. by rewrite Hen. - intros _ ix f s. by rewrite Hen. }
      destruct (get_pending _ _) as [ix|]; [destruct (is_staged (config ix))|]; apply Hno. }
  destruct (reg_enabled _ (snap_reg self Hok) _ _ Hen) as [_ Hst]. unfold is_enabled in Hst.
  destruct (config ix) as [f s| |] eqn:Hcfg.
  2,3: pose proof (tablet_name_safe (snap_mapping self) (req_index_name req).1); destruct (tablet_name _ _); try done;
    eexists; (split; [done|]); intros _ ix' f' s'; rewrite Hen; intros [= <-]; congruence.
  cbn [on_disk_state] in Hst. rewrite Hst. cbn [ensure obind].
  destruct (snap_mem self Hok (index_id ix) (req_interval req) (req_order req)) as [Hnp Hmem].
  destruct (memory_range (snap_memory self) (index_id ix) (req_interval req) (req_order req)) as [[rows|]|e|] eqn:Hmr; [| | |done].
  - eexists. split; [done|]. split; [|done]. unfold page_exact. rewrite Hen.
    destruct (snap_fin self Hok (req_index_name req).1 f) as [m Hm]. exists f, s, m. split_and!; [done|done| |done|done]. cbn [split fst].
    rewrite <- (Hmem (req_index_name req).1 f m rows); [|apply (snap_cat self Hok)|done|done].
    + clear. induction rows as [|[k [ts d]] rows IH]; cbn [map]; [done|]. by rewrite IH.
    + destruct (reg_enabled _ (snap_reg self Hok) _ _ Hen) as [Hname _].
      split_and!; [by rewrite Hname|left; by rewrite Hname|by exists s].
  - destruct (fetch_exact self req ix f s Hok Hmax Hen Hcfg) as (crs & Hget & [[Hrel [e He]]|(page & ms & cursor & Hf & Hpage & Hfill)]);
      rewrite Hget; cbn [obind].
    + rewrite He. eexists. split; [done|]. by intros ?.
    + rewrite Hf. eexists. split; [done|]. split; [done|]. by intros fl [= <-].
  - eexists. split; [done|]. intros [Hrel _]. by apply Hrel in Hmr.
Qed.

Lemma range_batch_ok self (schedule : list CacheFill -> list CacheFill) (reqs : list RangeRequest) :
  snapshot_ok self -> (forall l, schedule l ≡ₚ l) -> Forall (fun req => (0 < req_max_size req)%nat) reqs ->
  exists results self', (forall E, range_batch max_cache_size (E := E) self schedule reqs = Ret (results, self')) /\
    snapshot_ok self' /\ snap_registry self' = snap_registry self /\ (reliable self -> reliable self') /\
    Forall2 (fun req res =>
      match res with
      | inr (page, cursor) => page_exact self req page cursor
      | inl _ => reliable self -> forall ix f s, get_enabled (snap_registry self) (req_index_name req) = Some ix -> config ix <> Database f s
      end) reqs results.
Proof.
  intros Hok Hsched Hmax. rewrite Forall_forall in Hmax.
  destruct (mapM_Forall2 (fun E req => catch (E' := E) (range_fetch self req)) (fetched_ok self) reqs) as (fetched & Hf & HF).
  { intros req Hreq. apply range_fetch_ok; [done|]. by apply Hmax. }
  set (fills := filter_map (fun r : index_error + Page * CursorPosition * option CacheFill =>
    match r with inr (_, fill) => fill | inl _ => None end) fetched).
  destruct (fill_caches_ok c db (snap_registry self) max_cache_size (snap_db _ Hok) (snap_reg _ Hok) (snap_cat _ Hok) (schedule fills) (snap_cache self))
    as (cache' & Hfill & Hcache).
  { apply Hok. } { intros f Hin. rewrite Hsched in Hin. apply elem_of_filter_map in Hin as (res & Hres & Heq).
    apply list_elem_of_lookup in Hres as [n Hn]. destruct (Forall2_lookup_r _ _ _ _ _ HF Hn) as (req & _ & Hfo).
    destruct res as [e|[[page cursor] fill]]; [done|]. by apply Hfo. }
  eexists _, _. split; [intros E; unfold range_batch; rewrite Hf; cbn [obind]; fold fills; by rewrite Hfill|].
  split_and!; [|done|done|].
  - destruct Hok. by constructor.
  - clear -HF. induction HF as [|req res reqs fetched Hres _ IH]; cbn [map]; constructor; [|done].
    destruct res as [e|[[page cursor] fill]]; [done|]. apply Hres.
Qed.

(** C22: reading at a snapshot is exact, whatever the cache holds: every
    request of a batch returns the live rows of its index between the start of
    the interval and the returned cursor, in order and each once, without
    panicking; the cursor is the last row returned or the end; an enabled index
    can only fail when a source fails; and the cache stays coherent whatever
    the order in which the requests of the batch finish. *)
Theorem snapshot_range_exact self (schedule : list CacheFill -> list CacheFill) (reqs : list RangeRequest) :
  snapshot_ok self -> (forall l, schedule l ≡ₚ l) -> Forall (fun req => (0 < req_max_size req)%nat) reqs ->
  exists results self', (forall E, range_batch max_cache_size (E := E) self schedule reqs = Ret (results, self')) /\
    snapshot_ok self' /\ snap_registry self' = snap_registry self /\ (reliable self -> reliable self') /\
    Forall2 (fun req res =>
      match res with
      | inr (page, cursor) => page_exact self req page cursor
      | inl _ => reliable self -> forall ix f s, get_enabled (snap_registry self) (req_index_name req) = Some ix -> config ix <> Database f s
      end) reqs results.
Proof. apply range_batch_ok. Qed.
End snapshot_proofs.

Module SnapshotExample.
(** The table of [MemoryExample] with some documents, read through persistence. *)
Import MemoryExample.
Section docs.
Context (docs : list (Timestamp * PackedDocument)).

Definition db_of : live Timestamp := fold_right (fun v db => write db (id v.2) (Some v)) (fun _ => None) docs.
Definition rows_of (t : TabletId) (f : list FieldPath) : BTreeMap.t (list Z) (Timestamp * PackedDocument) :=
  fold_right (fun v m => replace_rows t f v.1 None (Some v.2) m) [] docs.
Definition persistence : PersistenceSnapshot :=
  MkPersistence (fun iid t interval order =>
    match c iid with Some (t, f) => map Ret (order_apply order (rows_in interval (rows_of t f))) | None => [] end) 6.
Definition snapshot : DatabaseIndexSnapshot NoInMemoryIndexes :=
  snapshot_new r MkNoIndexes mapping_new persistence.
End docs.

Definition docs_ok (docs : list (Timestamp * PackedDocument)) : Prop :=
  NoDup (map (fun v => id v.2) docs) /\ Forall (fun v => good_doc v.2) docs.

Lemma db_of_fresh docs i : i ∉ map (fun v : Timestamp * PackedDocument => id v.2) docs -> db_of docs i = None.
Proof.
  induction docs as [|v docs IH]; cbn [map db_of fold_right]; [done|]. intros [Hne Hn]%not_elem_of_cons.
  unfold write. rewrite bool_decide_eq_false_2 by done. by apply IH.
Qed.

Lemma docs_exact docs : docs_ok docs -> db_ok (db_of docs) /\ forall t f, index_exact (db_of docs) t f (rows_of docs t f).
Proof.
  induction docs as [|[ts x] docs IH]; intros [Hnd Hg].
  { split; [done|]. intros t f. split; [done|]. intros k v. split; [done|by intros [? _]]. }
  cbn [map] in Hnd. apply NoDup_cons in Hnd as [Hni Hnd]. apply Forall_cons in Hg as [Hgx Hg].
  destruct IH as [Hdb Hex]; [done|]. cbn [snd] in *.
  assert (Hw : write_ok (db_of docs) (id x) None (Some x)).
  { split; [by rewrite db_of_fresh|]. by intros y [= <-]. }
  split; [by apply (db_ok_write (db_of docs) (id x) None (Some x) ts)|]. intros t f.
  by apply (index_exact_replace (db_of docs) t f (rows_of docs t f) (id x) ts None (Some x)).
Qed.

Lemma scan_complete rows : scan_of rows (map Ret rows).
Proof. induction rows; cbn [map]; by constructor. Qed.

Lemma snapshot_is_ok docs : docs_ok docs -> snapshot_ok c (db_of docs) (snapshot docs).
Proof.
  intros Hd. destruct (docs_exact docs Hd) as [Hdb Hex]. constructor.
  - done.
  - apply r_ok.
  - apply r_catalogued.
  - eauto.
  - apply no_memory_reads_ok.
  - intros t ix f m interval order Hix Hm. cbn [snap_persistence snapshot snapshot_new persistence index_scan].
    rewrite (r_catalogued _ _ _ Hix), (index_exact_unique _ _ _ _ _ Hm (Hex t f)). apply scan_complete.
  - apply cache_new_ok.
Qed.

Definition two_docs : list (Timestamp * PackedDocument) := [(6, d 2 8); (5, d 1 7)].
Definition request : RangeRequest := MkRange ([1], [98]) all Asc 1.

Lemma two_docs_ok : docs_ok two_docs.
Proof. split; [by apply (bool_decide_unpack _)|]. repeat apply Forall_cons_2; try apply Forall_nil_2; by apply d_good. Qed.
End SnapshotExample.

Lemma snapshot_range_exact_witness :
  exists results self', (forall E, range_batch 1000 (E := E) (SnapshotExample.snapshot SnapshotExample.two_docs) (fun l => l) [SnapshotExample.request] = Ret (results, self')) /\
    snapshot_ok MemoryExample.c (SnapshotExample.db_of SnapshotExample.two_docs) self'.
Proof.
  destruct (snapshot_range_exact 1000 MemoryExample.c (SnapshotExample.db_of SnapshotExample.two_docs)
    (SnapshotExample.snapshot SnapshotExample.two_docs) (fun l => l) [SnapshotExample.request])
    as (results & self' & Hrun & Hok & _).
  - apply SnapshotExample.snapshot_is_ok, SnapshotExample.two_docs_ok.
  - intros l. reflexivity.
  - repeat constructor.
  - by exists results, self'.
Defined.
