(* ===== verification/QueryRange.v ===== *)
(** * QueryRange: the interval of an index that a query asks for
      (src/crates/common/src/query.rs: IndexRange, SplitIndexRange,
       IndexRangeExpression)

    A query restricts the fields of an index by equalities and by bounds on one
    further field; [compile] checks that the restrictions follow the order of
    the index and turns them into an interval of index keys.  Names in error
    messages are left out; an undefined value is [None]. *)

From S2P Require Import Prelude Ord BTreeMap BinaryKey Bounds Interval Identifier Value Sorting SortingDecode Base32 IdV6 Document TableMapping IndexRegistry IndexUpdates IndexKeys MemoryIndexes IndexSnapshot.

Local Open Scope Z_scope.

Notation MaybeValue := (option ConvexValue) (only parsing).

Inductive IndexRangeExpression :=
| RangeEq (field_path : FieldPath) (v : MaybeValue)
| RangeGt (field_path : FieldPath) (v : MaybeValue)
| RangeGte (field_path : FieldPath) (v : MaybeValue)
| RangeLt (field_path : FieldPath) (v : MaybeValue)
| RangeLte (field_path : FieldPath) (v : MaybeValue).

(** [std::ops::Bound]. *)
Inductive ValueBound := NoBound | Including (v : MaybeValue) | Excluding (v : MaybeValue).

Record IndexInequality := MkInequality {
  ineq_field_path : FieldPath;
  ineq_start : ValueBound;
  ineq_end : ValueBound;
}.

Record SplitIndexRange := MkSplitRange {
  equalities : BTreeMap.t FieldPath MaybeValue;
  inequality : option IndexInequality;
}.

Inductive range_error :=
| AlreadyDefinedBound
| BoundsOnMultipleFields
| DuplicateFields
| FieldNotInIndex
| InvalidIndexRange
| NoIncrement.

(** The state of the loop of [split]. *)
Record SplitState := MkSplitState {
  st_equalities : BTreeMap.t FieldPath MaybeValue;
  st_path : option FieldPath;
  st_start : ValueBound;
  st_end : ValueBound;
}.

Definition is_bounded (b : ValueBound) : bool := match b with NoBound => false | _ => true end.

Definition split_bound (st : SplitState) (field_path : FieldPath) (v : MaybeValue) (is_less is_equals : bool)
    : outcome range_error SplitState :=
  ensure (negb (is_bounded (if is_less then st_end st else st_start st))) AlreadyDefinedBound ;?
  ensure (match st_path st with Some first_path => bool_decide (first_path = field_path) | None => true end) BoundsOnMultipleFields ;?
  let bound := if is_equals then Including v else Excluding v in
  Ret (if is_less then MkSplitState (st_equalities st) (Some field_path) (st_start st) bound
       else MkSplitState (st_equalities st) (Some field_path) bound (st_end st)).

(** The body of the loop of [split]. *)
Definition split_expression (st : SplitState) (expr : IndexRangeExpression) : outcome range_error SplitState :=
  match expr with
  | RangeEq field_path v =>
      ensure (match BTreeMap.get field_path (st_equalities st) with None => true | Some _ => false end) AlreadyDefinedBound ;?
      Ret (MkSplitState (BTreeMap.insert field_path v (st_equalities st)) (st_path st) (st_start st) (st_end st))
  | RangeGt field_path v => split_bound st field_path v false false
  | RangeGte field_path v => split_bound st field_path v false true
  | RangeLt field_path v => split_bound st field_path v true false
  | RangeLte field_path v => split_bound st field_path v true true
  end.

Definition split_range (range : list IndexRangeExpression) : outcome range_error SplitIndexRange :=
  let? st := foldM split_expression (MkSplitState [] None NoBound NoBound) range in
  match st_path st with
  | Some p =>
      ensure (match BTreeMap.get p (st_equalities st) with None => true | Some _ => false end) AlreadyDefinedBound ;?
      Ret (MkSplitRange (st_equalities st) (Some (MkInequality p (st_start st) (st_end st))))
  | None => Ret (MkSplitRange (st_equalities st) None)
  end.

(** ["_id"]. *)
Definition ID_FIELD_PATH : FieldPath := [[95; 105; 100]].
Definition iter_with_id (indexed_fields : list FieldPath) : list FieldPath := indexed_fields ++ [ID_FIELD_PATH].

(** [index_rank]: the position of each field of the index. *)
Fixpoint ranks_from (i : nat) (fs : list FieldPath) (m : BTreeMap.t FieldPath nat) : BTreeMap.t FieldPath nat :=
  match fs with
  | [] => m
  | f :: fs => ranks_from (S i) fs (BTreeMap.insert f i m)
  end.
Definition index_rank (indexed_fields : list FieldPath) : BTreeMap.t FieldPath nat := ranks_from 0 (iter_with_id indexed_fields) [].

(** [sort_by_key], a stable sort. *)
Fixpoint insert_by_rank {A} (x : A) (rank : nat) (l : list (A * nat)) : list (A * nat) :=
  match l with
  | [] => [(x, rank)]
  | (y, r) :: l' => if (rank <? r)%nat then (x, rank) :: l else (y, r) :: insert_by_rank x rank l'
  end.
Definition sort_by_rank {A} (l : list (A * nat)) : list (A * nat) := fold_left (fun l e => insert_by_rank e.1 e.2 l) l [].

(** The loop that matches the used paths with the fields of the index. *)
Fixpoint check_used_paths (used_paths index_fields : list FieldPath) : outcome range_error unit :=
  match used_paths with
  | [] => Ret tt
  | field_path :: used_paths =>
      match index_fields with
      | [] => Err InvalidIndexRange
      | matching_field :: index_fields =>
          ensure (bool_decide (field_path = matching_field)) InvalidIndexRange ;?
          check_used_paths used_paths index_fields
      end
  end.

Definition start_key (prefix : list MaybeValue) (start : ValueBound) : outcome range_error (list Z) :=
  match start with
  | NoBound => values_to_bytes prefix
  | Including v => values_to_bytes (prefix ++ [v])
  | Excluding v =>
      let? key := values_to_bytes (prefix ++ [v]) in
      ok_or (increment key) NoIncrement
  end.

(** When every field of the index and the id are given, the end is tighter. *)
Definition end_after (field_count : nat) (bound : list MaybeValue) : outcome range_error Bound :=
  let? key := values_to_bytes bound in
  Ret (if (length bound =? field_count)%nat then included key else after_prefix key).

Definition end_key (field_count : nat) (prefix : list MaybeValue) (end_ : ValueBound) : outcome range_error Bound :=
  match end_ with
  | NoBound => end_after field_count prefix
  | Including v => end_after field_count (prefix ++ [v])
  | Excluding v => let? key := values_to_bytes (prefix ++ [v]) in Ret (Excluded key)
  end.

Definition compile (range : list IndexRangeExpression) (indexed_fields : list FieldPath) : outcome range_error Interval :=
  let? split := split_range range in
  let rank := index_rank indexed_fields in
  ensure (length rank =? length (iter_with_id indexed_fields))%nat DuplicateFields ;?
  let? ranked := mapM (fun e : FieldPath * MaybeValue =>
    match BTreeMap.get e.1 rank with Some r => Ret (e, r) | None => Err FieldNotInIndex end) (equalities split) in
  let sorted := map fst (sort_by_rank ranked) in
  ensure (match inequality split with
          | Some i => match BTreeMap.get (ineq_field_path i) rank with Some _ => true | None => false end
          | None => true
          end) FieldNotInIndex ;?
  let used_paths := map fst sorted ++ match inequality split with Some i => [ineq_field_path i] | None => [] end in
  check_used_paths used_paths (iter_with_id indexed_fields) ;?
  let prefix := map snd sorted in
  let '(start, end_) := match inequality split with Some i => (ineq_start i, ineq_end i) | None => (NoBound, NoBound) end in
  let? start := start_key prefix start in
  let? end_ := end_key (length (iter_with_id indexed_fields)) prefix end_ in
  Ret (MkInterval start end_).

(** ** What a range expression says of a document *)

(** The value of a field of the index; the last one is the id. *)
Definition field_value (d : PackedDocument) (p : FieldPath) : MaybeValue :=
  if bool_decide (p = ID_FIELD_PATH) then Some (id_value (developer_id (id d))) else open_path (value d) p.

Definition satisfies (d : PackedDocument) (expr : IndexRangeExpression) : Prop :=
  match expr with
  | RangeEq p v => opt_cmp (field_value d p) v = Eq
  | RangeGt p v => opt_cmp (field_value d p) v = Gt
  | RangeGte p v => opt_cmp (field_value d p) v <> Lt
  | RangeLt p v => opt_cmp (field_value d p) v = Lt
  | RangeLte p v => opt_cmp (field_value d p) v <> Gt
  end.

Definition expression_value (expr : IndexRangeExpression) : MaybeValue :=
  match expr with RangeEq _ v | RangeGt _ v | RangeGte _ v | RangeLt _ v | RangeLte _ v => v end.

(** Strings and bytes without a zero byte. *)
Definition nul_free (v : MaybeValue) : bool :=
  match v with
  | Some (String s) | Some (Bytes s) => negb (bool_decide (0 ∈ s))
  | _ => true
  end.

Definition lower_ok (x : MaybeValue) (b : ValueBound) : Prop :=
  match b with NoBound => True | Including v => opt_cmp x v <> Lt | Excluding v => opt_cmp x v = Gt end.
Definition upper_ok (x : MaybeValue) (b : ValueBound) : Prop :=
  match b with NoBound => True | Including v => opt_cmp x v <> Gt | Excluding v => opt_cmp x v = Lt end.

(** *** Splitting the expressions *)

Definition inequality_ok (d : PackedDocument) (path : option FieldPath) (start end_ : ValueBound) : Prop :=
  match path with
  | Some p => lower_ok (field_value d p) start /\ upper_ok (field_value d p) end_
  | None => start = NoBound /\ end_ = NoBound
  end.

Definition state_ok (d : PackedDocument) (st : SplitState) : Prop :=
  (forall p v, BTreeMap.get p (st_equalities st) = Some v -> opt_cmp (field_value d p) v = Eq) /\
  inequality_ok d (st_path st) (st_start st) (st_end st).

Definition good_bound (b : ValueBound) : Prop := match b with NoBound => True | Including v | Excluding v => good_opt v end.

Record split_wf (st : SplitState) : Prop := {
  sw_wf : BTreeMap.wf (st_equalities st);
  sw_path : st_path st = None -> st_start st = NoBound /\ st_end st = NoBound;
  sw_good : forall p v, BTreeMap.get p (st_equalities st) = Some v -> good_opt v;
  sw_bounds : good_bound (st_start st) /\ good_bound (st_end st);
}.

Lemma split_bound_ok st p v is_less is_equals st' : split_wf st -> good_opt v ->
  split_bound st p v is_less is_equals = Ret st' ->
  split_wf st' /\ forall d, state_ok d st' <-> state_ok d st /\
    (if is_less then upper_ok (field_value d p) (if is_equals then Including v else Excluding v)
     else lower_ok (field_value d p) (if is_equals then Including v else Excluding v)).
Proof.
  intros [Hwf Hpath Hgood [Hb1 Hb2]] Hv. unfold split_bound.
  destruct (is_bounded _) eqn:Hbd; cbn [negb ensure obind]; [done|].
  assert (Hp : match st_path st with Some q => bool_decide (q = p) | None => true end = true ->
    st_path st = Some p \/ st_path st = None).
  { destruct (st_path st) as [q|]; [|by right]. intros ->%bool_decide_eq_true_1. by left. }
  destruct (match st_path st with Some q => _ | None => true end); cbn [ensure obind]; [|done]. intros [= <-].
  specialize (Hp eq_refl). split.
  - destruct is_less; constructor; cbn; try done; split; try done; by destruct is_equals.
  - intros d. unfold state_ok, inequality_ok.
    destruct is_less; cbn [st_equalities st_path st_start st_end]; destruct Hp as [Hp|Hp]; rewrite Hp.
    + destruct (st_end st); [|done..]. destruct is_equals; cbn [lower_ok upper_ok]; naive_solver.
    + destruct (Hpath Hp) as [-> ->]. destruct is_equals; cbn [lower_ok upper_ok]; naive_solver.
    + destruct (st_start st); [|done..]. destruct is_equals; cbn [lower_ok upper_ok]; naive_solver.
    + destruct (Hpath Hp) as [-> ->]. destruct is_equals; cbn [lower_ok upper_ok]; naive_solver.
Qed.

Lemma split_expression_ok st expr st' : split_wf st -> good_opt (expression_value expr) -> split_expression st expr = Ret st' ->
  split_wf st' /\ forall d, state_ok d st' <-> state_ok d st /\ satisfies d expr.
Proof.
  intros Hst Hv. destruct expr as [p v|p v|p v|p v|p v]; cbn [split_expression expression_value satisfies] in *;
    try (intros He; by apply (split_bound_ok st p v _ _ st' Hst Hv) in He).
  destruct (BTreeMap.get p (st_equalities st)) as [w|] eqn:Hg; cbn [ensure obind]; [done|]. intros [= <-].
  destruct Hst as [Hwf Hpath Hgood Hb]. split.
  - constructor; cbn; [by apply BTreeMap.wf_insert|done| |done]. intros q u. rewrite BTreeMap.get_insert_if by done.
    destruct (decide (q = p)); [by intros [= <-]|apply Hgood].
  - intros d. unfold state_ok. cbn [st_equalities st_path st_start st_end]. split.
    + intros [Heq Hin]. split_and!; [|done|apply Heq; by rewrite BTreeMap.get_insert_eq].
      intros q u Hq. apply Heq. rewrite BTreeMap.get_insert_ne; [done|done|]. by intros ->; rewrite Hg in Hq.
    + intros [[Heq Hin] Hs]. split; [|done]. intros q u. rewrite BTreeMap.get_insert_if by done.
      destruct (decide (q = p)) as [->|]; [by intros [= <-]|apply Heq].
Qed.

Lemma split_expressions_ok exprs : forall st st', split_wf st -> Forall (fun e => good_opt (expression_value e)) exprs ->
  foldM split_expression st exprs = Ret st' ->
  split_wf st' /\ forall d, state_ok d st' <-> state_ok d st /\ Forall (satisfies d) exprs.
Proof.
  induction exprs as [|e exprs IH]; intros st st' Hst Hg; cbn [foldM].
  - intros [= <-]. split; [done|]. intros d. rewrite Forall_nil. naive_solver.
  - apply Forall_cons in Hg as [He Hg]. destruct (split_expression st e) as [st1|err|] eqn:E1; cbn [obind]; [|done|done].
    destruct (split_expression_ok st e st1 Hst He E1) as [Hst1 Hs1]. intros Hl.
    destruct (IH st1 st' Hst1 Hg Hl) as [Hst' Hs']. split; [done|]. intros d. rewrite Hs', Hs1, Forall_cons. naive_solver.
Qed.

(** ** Keys and bounds *)

Notation E_ vs := (concat (map enc_opt vs)) (only parsing).

Lemma lexicographic_snoc {A} (g : A -> A -> comparison) l1 bs x v : length l1 = length bs ->
  lexicographic g (l1 ++ [x]) (bs ++ [v]) = lex_cmp (lexicographic g l1 bs) (g x v).
Proof.
  revert bs. induction l1 as [|y l1 IH]; intros [|b bs] Hl; try discriminate Hl; cbn [app].
  - cbn. by destruct (g x v).
  - injection Hl as Hl. cbn. fold (lexicographic g). rewrite IH by done. by destruct (g y b).
Qed.

Lemma lexicographic_app {A} (g : A -> A -> comparison) l1 l2 bs : length l1 = length bs ->
  lexicographic g (l1 ++ l2) bs = lex_cmp (lexicographic g l1 bs) (match l2 with [] => Eq | _ => Gt end).
Proof.
  revert bs. induction l1 as [|y l1 IH]; intros [|b bs] Hl; try discriminate Hl; cbn [app].
  - by destruct l2.
  - injection Hl as Hl. cbn. fold (lexicographic g). rewrite IH by done. by destruct (g y b).
Qed.

Lemma opt_cmp_eq v w : good_opt v -> good_opt w -> opt_cmp v w = Eq <-> v = w.
Proof.
  destruct v as [v|], w as [w|]; cbn; [|by split..].
  intros [Hv Hnv] [Hw Hnw]. rewrite value_cmp_eq by done. split; [by intros ->|by intros [= ->]].
Qed.

(** A string encoding is cut only where the next byte is an escape. *)
Lemma esc_cut s s' t r : bytes s -> 0 ∉ s' -> tail_ok r -> esc s ++ t = esc s' ++ r -> s = s' /\ t = r.
Proof.
  intros Hs Hz Hr. rewrite (esc_no_zero s') by done. revert s' Hz.
  induction s as [|b s IH]; intros s' Hz Heq; cbn [esc app] in Heq.
  - destruct s' as [|c s']; cbn [app] in Heq; injection Heq; [intros ->; done|].
    intros _ <-. exfalso. apply Hz. left.
  - unfold TERMINATOR_BYTE in *. apply Forall_cons in Hs as [Hb Hs]. destruct (Z.eqb_spec b 0) as [->|Hb0].
    + destruct s' as [|c s']; cbn [app] in Heq; injection Heq.
      * intros <-. unfold tail_ok, ESCAPE_BYTE in Hr. lia.
      * intros _ <-. exfalso. apply Hz. left.
    + destruct s' as [|c s']; cbn [app] in Heq; injection Heq; [by intros|].
      intros Heq' <-. apply not_elem_of_cons in Hz as [_ Hz]. destruct (IH Hs s' Hz) as [-> ->]; done.
Qed.

Lemma enc_opt_cut v w t r : good_opt v -> good_opt w -> nul_free w = true -> tail_ok r ->
  enc_opt v ++ t = enc_opt w ++ r -> v = w /\ t = r.
Proof.
  intros Hv Hw Hz Hr Heq.
  assert (Hfix : forall (a b : ConvexValue), good a -> good b -> is_text a = false -> enc a ++ t = enc b ++ r -> a = b /\ t = r).
  { intros a b [Ha Hna] [Hb Hnb] Htext Hab. pose proof (enc_cmp_any a b t r Ha Hna Hb Hnb ltac:(by rewrite Htext)) as Hc.
    rewrite Hab, cmp_refl in Hc. symmetry in Hc. destruct (value_cmp a b) eqn:Hab'; try done.
    apply value_cmp_eq in Hab'; [|done..]. subst b. split; [done|]. by apply app_inv_head in Hab. }
  destruct v as [v|], w as [w|]; cbn [enc_opt] in Heq.
  - destruct (is_text v) eqn:Htv; [|by destruct (Hfix v w Hv Hw Htv Heq) as [-> ->]].
    assert (Ht : type_tag v = type_tag w).
    { destruct (decide (type_tag v = type_tag w)) as [|Hne]; [done|].
      pose proof (enc_cmp_tags v w t r (proj1 Hv) (proj1 Hw) Hne) as Hc. rewrite Heq, cmp_refl in Hc. symmetry in Hc.
      destruct (value_cmp v w) eqn:Hvw; try done. apply value_cmp_eq in Hvw; [by subst|apply Hv|apply Hv|apply Hw|apply Hw]. }
    destruct v as [| | | |s|s| |], w as [| | | |s'|s'| |]; try discriminate Htv; try discriminate Ht;
      cbn [enc app] in Heq; injection Heq as Heq; cbn [nul_free] in Hz; apply negb_true_iff, bool_decide_eq_false_1 in Hz;
      destruct Hv as [Hv _]; cbn [valid] in Hv; bool_hyps;
      (apply esc_cut in Heq as [-> ->]; [done|by eapply bool_decide_eq_true_1|done|done]).
  - destruct (enc_tag v) as [l El]. rewrite El in Heq. injection Heq as Htag _. destruct Hv as [Hv _]. apply tag_of_bounds in Hv.
    unfold UNDEFINED_TAG in *. lia.
  - destruct (enc_tag w) as [l El]. rewrite El in Heq. injection Heq as Htag _. destruct Hw as [Hw _]. apply tag_of_bounds in Hw.
    unfold UNDEFINED_TAG in *. lia.
  - injection Heq as ->. done.
Qed.

(** The key of some values starts with the key of others exactly when the
    values do. *)
Lemma enc_prefix l1 l2 bs : Forall good_opt l1 -> Forall good_opt l2 -> Forall good_opt bs -> Forall (fun v => nul_free v = true) l1 ->
  length l1 = length bs -> E_ bs `prefix_of` E_ (l1 ++ l2) <-> lexicographic opt_cmp l1 bs = Eq.
Proof.
  intros Hl1 Hl2. revert bs. induction Hl1 as [|x l1 Hx Hl1 IH]; intros [|b bs] Hbs Hz Hl; try discriminate Hl.
  { split; [done|]. intros _. apply prefix_nil. }
  injection Hl as Hl. apply Forall_cons in Hbs as [Hb Hbs]. apply Forall_cons in Hz as [Hzx Hz].
  specialize (IH bs Hbs Hz Hl). cbn [map concat app]. cbn [lexicographic]. fold (lexicographic opt_cmp).
  assert (Htail : tail_ok (E_ (l1 ++ l2))) by (apply enc_opt_tail_ok, Forall_app; by split).
  split.
  - intros [t Ht]. rewrite <- (assoc (++)) in Ht. symmetry in Ht.
    apply enc_opt_cut in Ht as [-> Ht]; [|done..]. rewrite (proj2 (opt_cmp_eq x x Hx Hx) eq_refl). cbn. apply IH. by exists t.
  - destruct (opt_cmp x b) eqn:Hc; try done. apply opt_cmp_eq in Hc as ->; [|done|done]. cbn. intros He%IH.
    by apply prefix_app.
Qed.

Lemma above_included k p : bytes p -> above (included k) p <-> p ≼ k.
Proof.
  intros Hp. unfold included. rewrite above_Excluded. split; intros Hk.
  - apply not_olt. intros Hlt%succ_key; [order|done].
  - assert (k ≺ k ++ [0%Z]); [|order]. rewrite <- (app_nil_r k) at 1. by apply app_olt_same.
Qed.

(** The values of a document's key, cut where a bound ends. *)
Section bounds.
Context (l1 l2 bs : list MaybeValue).
Context (Hl1 : Forall good_opt l1) (Hl2 : Forall good_opt l2) (Hbs : Forall good_opt bs).
Context (Hnul : Forall (fun v => nul_free v = true) l1) (Hlen : length l1 = length bs).

Let key := concat (map enc_opt (l1 ++ l2)).
Let bound := concat (map enc_opt bs).

Lemma key_bytes : bytes key.
Proof.
  apply bytes_concat. assert (Hg : Forall good_opt (l1 ++ l2)) by (apply Forall_app; by split).
  eapply Forall_impl; [exact Hg|].
  intros [v|] Hv; [by apply enc_bytes, Hv|by apply (bool_decide_unpack (bytes [UNDEFINED_TAG]))].
Qed.

Lemma key_cmp : cmp key bound = lex_cmp (lexicographic opt_cmp l1 bs) (match l2 with [] => Eq | _ => Gt end).
Proof. unfold key, bound. rewrite enc_opts_cmp by (try done; apply Forall_app; by split). by apply lexicographic_app. Qed.

Lemma key_below : key ≺ bound <-> lexicographic opt_cmp l1 bs = Lt.
Proof. unfold olt. rewrite key_cmp. destruct (lexicographic opt_cmp l1 bs); [destruct l2|..]; done. Qed.

Lemma key_from : bound ≼ key <-> lexicographic opt_cmp l1 bs <> Lt.
Proof. rewrite <- not_olt. by rewrite key_below. Qed.

Lemma key_above_prefix : above (after_prefix bound) key <-> lexicographic opt_cmp l1 bs <> Gt.
Proof.
  rewrite above_after_prefix by apply key_bytes. unfold bound, key. rewrite enc_prefix by done. fold key bound.
  rewrite key_below. destruct (lexicographic opt_cmp l1 bs); naive_solver.
Qed.

Lemma key_after k' : increment bound = Some k' -> k' ≼ key <-> lexicographic opt_cmp l1 bs = Gt.
Proof.
  intros Hi. pose proof key_above_prefix as Hp. unfold after_prefix in Hp. rewrite Hi, above_Excluded in Hp.
  rewrite <- not_olt, Hp. destruct (lexicographic opt_cmp l1 bs); naive_solver.
Qed.

Lemma key_included : l2 = [] -> above (included bound) key <-> lexicographic opt_cmp l1 bs <> Gt.
Proof.
  intros Hl. rewrite above_included by apply key_bytes. unfold ole. rewrite key_cmp, Hl.
  by destruct (lexicographic opt_cmp l1 bs).
Qed.

Lemma key_end_after count b : (count = length (l1 ++ l2))%nat ->
  end_after count bs = Ret b -> above b key <-> lexicographic opt_cmp l1 bs <> Gt.
Proof.
  intros -> He. unfold end_after in He. rewrite values_to_bytes_enc in He by (by apply Forall_good_valid). cbn [obind] in He.
  injection He as <-. destruct (Nat.eqb_spec (length bs) (length (l1 ++ l2))) as [Hc|Hc]; [|apply key_above_prefix].
  apply key_included. rewrite length_app, <- Hlen in Hc. destruct l2; [done|]. cbn [length] in Hc. lia.
Qed.
End bounds.

Lemma Forall_snoc {A} (P : A -> Prop) l x : Forall P l -> P x -> Forall P (l ++ [x]).
Proof. intros Hl Hx. apply Forall_app. split; [done|by apply Forall_singleton]. Qed.

Ltac key_sides :=
  first [done | by apply Forall_snoc | by apply Forall_good_valid, Forall_snoc | by apply Forall_good_valid | by constructor
        | by rewrite !length_app; f_equal | eapply Forall_app; eassumption ].

(** The two ends of a compiled range against the key of a document whose values
    are those of the equalities [l1], the value [x] of the bounded field and
    others. *)
Section ends.
Context (l1 : list MaybeValue) (x : MaybeValue) (l2 prefix : list MaybeValue).
Context (Hl1 : Forall good_opt l1) (Hx : good_opt x) (Hl2 : Forall good_opt l2) (Hp : Forall good_opt prefix).
Context (Hz1 : Forall (fun v => nul_free v = true) l1) (Hzx : nul_free x = true) (Hlen : length l1 = length prefix).

Let key := E_ (l1 ++ x :: l2).

Lemma key_snoc : key = E_ ((l1 ++ [x]) ++ l2).
Proof. unfold key. by rewrite <- (assoc (++)). Qed.

Lemma start_key_ok start k : good_bound start -> start_key prefix start = Ret k ->
  k ≼ key <-> lexicographic opt_cmp l1 prefix = Gt \/ lexicographic opt_cmp l1 prefix = Eq /\ lower_ok x start.
Proof.
  destruct start as [|v|v]; cbn [start_key good_bound lower_ok]; intros Hv; rewrite values_to_bytes_enc by key_sides; cbn [obind].
  - intros [= <-]. unfold key. rewrite key_from by key_sides. destruct (lexicographic opt_cmp l1 prefix); naive_solver.
  - intros [= <-]. rewrite key_snoc, key_from, lexicographic_snoc by key_sides.
    destruct (lexicographic opt_cmp l1 prefix), (opt_cmp x v); naive_solver.
  - destruct (increment _) as [k'|] eqn:Hi; [|done]. intros [= <-].
    rewrite key_snoc, (key_after _ _ (prefix ++ [v])), lexicographic_snoc by key_sides.
    destruct (lexicographic opt_cmp l1 prefix), (opt_cmp x v); naive_solver.
Qed.

Lemma end_key_ok end_ b : good_bound end_ -> end_key (length (l1 ++ x :: l2)) prefix end_ = Ret b ->
  above b key <-> lexicographic opt_cmp l1 prefix = Lt \/ lexicographic opt_cmp l1 prefix = Eq /\ upper_ok x end_.
Proof.
  destruct end_ as [|v|v]; cbn [end_key good_bound upper_ok]; intros Hv He.
  - unfold key. rewrite (key_end_after l1 (x :: l2) prefix) by (try exact He; key_sides).
    destruct (lexicographic opt_cmp l1 prefix); naive_solver.
  - assert (Hc : length (l1 ++ x :: l2) = length ((l1 ++ [x]) ++ l2)) by (by rewrite <- (assoc (++))). rewrite Hc in He.
    rewrite key_snoc, (fun H1 H2 H3 H4 H5 => key_end_after (l1 ++ [x]) l2 (prefix ++ [v]) H1 H2 H3 H4 H5 _ b eq_refl He) by key_sides. rewrite lexicographic_snoc by done.
    destruct (lexicographic opt_cmp l1 prefix), (opt_cmp x v); naive_solver.
  - rewrite values_to_bytes_enc in He by key_sides. injection He as <-.
    rewrite key_snoc, above_Excluded, key_below, lexicographic_snoc by key_sides.
    destruct (lexicographic opt_cmp l1 prefix), (opt_cmp x v); naive_solver.
Qed.
End ends.

(** ** The fields a range uses *)

Lemma check_used_paths_ok used : forall fields, check_used_paths used fields = Ret tt -> exists rest, fields = used ++ rest.
Proof.
  induction used as [|p used IH]; intros fields; cbn [check_used_paths]; [by exists fields|].
  destruct fields as [|f fields]; [done|]. destruct (bool_decide_reflect (p = f)) as [->|]; cbn [ensure obind]; [|done].
  intros [rest ->]%IH. by exists rest.
Qed.

Lemma insert_by_rank_perm {A} (x : A) r l : insert_by_rank x r l ≡ₚ (x, r) :: l.
Proof.
  induction l as [|[y s] l IH]; cbn [insert_by_rank]; [done|]. destruct (r <? s)%nat; [done|]. rewrite IH. apply perm_swap.
Qed.

Lemma sort_by_rank_perm {A} (l : list (A * nat)) : sort_by_rank l ≡ₚ l.
Proof.
  unfold sort_by_rank. assert (H : forall acc, fold_left (fun l e => insert_by_rank e.1 e.2 l) l acc ≡ₚ l ++ acc); [|by rewrite (H []), app_nil_r].
  induction l as [|[x r] l IH]; intros acc; cbn [fold_left]; [done|]. rewrite IH, insert_by_rank_perm.
  symmetry. apply Permutation_middle.
Qed.

Lemma mapM_ranked {X R} (rank : X -> option R) (l : list X) : forall l',
  mapM (fun e => match rank e with Some r => Ret (e, r) | None => Err FieldNotInIndex end) l = Ret l' -> map fst l' = l.
Proof.
  induction l as [|x l IH]; intros l'; cbn [mapM]; [by intros [= <-]|].
  destruct (rank x) as [r|]; cbn [obind]; [|done]. destruct (mapM _ l) as [ys|e|]; cbn [obind]; [|done|done].
  intros [= <-]. cbn. f_equal. by apply IH.
Qed.

(** A map as long as the list of the keys put into it has no key twice. *)
Lemma insert_length_le {V} (k : FieldPath) (v : V) m : (length (BTreeMap.insert k v m) <= S (length m))%nat.
Proof. induction m as [|[q w] m IH]; cbn; [lia|]. destruct (cmp k q); cbn in *; lia. Qed.

Lemma insert_length_present {V} (k : FieldPath) (v : V) m : BTreeMap.wf m -> is_Some (BTreeMap.get k m) ->
  length (BTreeMap.insert k v m) = length m.
Proof.
  induction m as [|[q w] m IH]; cbn; [by intros _ [? ?]|]. intros [Hlt Hwf]. unfold eqb.
  destruct (cmp k q) eqn:Hc; cbn; [done| |].
  - intros [u Hg]. apply BTreeMap.elem_of_get in Hg; [|done]. apply Hlt in Hg. cbn in Hg.
    unfold olt in Hg. rewrite cmp_opp, Hc in Hg. done.
  - intros Hg. f_equal. by apply IH.
Qed.

Lemma ranks_from_le fs : forall i m, (length (ranks_from i fs m) <= length m + length fs)%nat.
Proof.
  induction fs as [|f fs IH]; intros i m; cbn [ranks_from length]; [lia|].
  specialize (IH (S i) (BTreeMap.insert f i m)). pose proof (insert_length_le f i m). lia.
Qed.

Lemma ranks_from_full fs : forall i m, BTreeMap.wf m -> length (ranks_from i fs m) = (length m + length fs)%nat ->
  NoDup fs /\ forall f, f ∈ fs -> BTreeMap.get f m = None.
Proof.
  induction fs as [|f fs IH]; intros i m Hwf; cbn [ranks_from length]; [by split; [constructor|]; intros f Hf; apply elem_of_nil in Hf|].
  intros Hlen. pose proof (ranks_from_le fs (S i) (BTreeMap.insert f i m)) as Hle.
  assert (Hg : BTreeMap.get f m = None).
  { destruct (BTreeMap.get f m) as [r|] eqn:Hg; [|done].
    rewrite insert_length_present in Hle by (done || by exists r). lia. }
  pose proof (insert_length_le f i m) as Hins.
  destruct (IH (S i) (BTreeMap.insert f i m)) as [Hnd Hnone]; [by apply BTreeMap.wf_insert|lia|]. split.
  - constructor; [|done]. intros Hin%Hnone. by rewrite BTreeMap.get_insert_eq in Hin.
  - intros g [->|Hin]%elem_of_cons; [done|]. specialize (Hnone g Hin). rewrite BTreeMap.get_insert_ne in Hnone; [done|done|].
    intros ->. by rewrite BTreeMap.get_insert_eq in Hnone.
Qed.

Lemma index_values_fields d fields : NoDup (iter_with_id fields) -> index_values d fields = map (field_value d) (iter_with_id fields).
Proof.
  unfold iter_with_id. intros (_ & Hdis & _)%NoDup_app. unfold index_values. rewrite map_app. f_equal.
  apply map_ext_in. intros f Hf%list_elem_of_In. unfold field_value. rewrite bool_decide_eq_false_2; [done|].
  intros ->. eapply Hdis; [exact Hf|left].
Qed.

(** Equalities as one comparison of the values they fix. *)
Lemma equalities_lex d (l : list (FieldPath * MaybeValue)) : lexicographic opt_cmp (map (field_value d) (map fst l)) (map snd l) = Eq <->
  Forall (fun e => opt_cmp (field_value d e.1) e.2 = Eq) l.
Proof.
  induction l as [|[p v] l IH]; cbn [map fst snd]; [by split|]. rewrite Forall_cons. cbn [lexicographic fst snd].
  fold (lexicographic opt_cmp). rewrite <- IH. destruct (opt_cmp (field_value d p) v); cbn; naive_solver.
Qed.

Lemma get_Forall {V} (P : FieldPath -> V -> Prop) (m : BTreeMap.t FieldPath V) : BTreeMap.wf m ->
  (forall p v, BTreeMap.get p m = Some v -> P p v) <-> Forall (fun e => P e.1 e.2) m.
Proof.
  intros Hwf. rewrite Forall_forall. split.
  - intros H [p v] Hin. apply H. by apply BTreeMap.elem_of_get.
  - intros H p v Hg. apply (H (p, v)). by apply BTreeMap.elem_of_get.
Qed.

Lemma sorted_equalities rank (eqs : list (FieldPath * MaybeValue)) ranked :
  mapM (fun e : FieldPath * MaybeValue =>
    match BTreeMap.get e.1 rank with Some r => Ret (e, r) | None => Err FieldNotInIndex end) eqs = Ret ranked ->
  map fst (sort_by_rank ranked) ≡ₚ eqs.
Proof.
  intros Hr. apply (mapM_ranked (fun e => BTreeMap.get e.1 rank)) in Hr. rewrite <- Hr.
  apply (Permutation_map fst), sort_by_rank_perm.
Qed.

(** The inequality that the loop of [split] leaves. *)
Definition state_inequality (st : SplitState) : option IndexInequality :=
  match st_path st with Some p => Some (MkInequality p (st_start st) (st_end st)) | None => None end.

Lemma split_range_inv range split : Forall (fun e => good_opt (expression_value e)) range -> split_range range = Ret split ->
  exists st, split_wf st /\ (forall d, state_ok d st <-> Forall (satisfies d) range) /\
    split = MkSplitRange (st_equalities st) (state_inequality st).
Proof.
  intros Hg. unfold split_range. destruct (foldM _ _ _) as [st|e|] eqn:Hs; cbn [obind]; [|done|done].
  apply split_expressions_ok in Hs as [Hwf Hok]; [|by constructor|done]. intros Hsp. exists st. split_and!; [done| |].
  - intros d. rewrite Hok. unfold state_ok. cbn. naive_solver.
  - unfold state_inequality. destruct (st_path st) as [p|]; [|by injection Hsp as <-].
    destruct (BTreeMap.get p _); cbn [ensure obind] in Hsp; [done|by injection Hsp as <-].
Qed.

(** What is known of a range that compiles. *)
Lemma compile_inv range fields i : Forall (fun e => good_opt (expression_value e)) range -> compile range fields = Ret i ->
  exists st (sorted : list (FieldPath * MaybeValue)) start end_ rest,
    split_wf st /\ (forall d, state_ok d st <-> Forall (satisfies d) range) /\
    NoDup (iter_with_id fields) /\ sorted ≡ₚ st_equalities st /\
    iter_with_id fields = map fst sorted ++ (match st_path st with Some p => [p] | None => [] end) ++ rest /\
    start_key (map snd sorted) (st_start st) = Ret start /\
    end_key (length (iter_with_id fields)) (map snd sorted) (st_end st) = Ret end_ /\ i = MkInterval start end_.
Proof.
  intros Hg. unfold compile. destruct (split_range range) as [split|e|] eqn:Hsp; cbn [obind]; [|done|done].
  apply split_range_inv in Hsp as (st & Hwf & Hok & ->); [|done]. cbn [equalities inequality].
  destruct (Nat.eqb_spec (length (index_rank fields)) (length (iter_with_id fields))) as [Hlen|]; cbn [ensure obind]; [|done].
  destruct (ranks_from_full (iter_with_id fields) 0 [] I Hlen) as [Hnd _].
  destruct (mapM _ _) as [ranked|e|] eqn:Hr; cbn [obind]; [|done|done]. apply sorted_equalities in Hr.
  destruct (match state_inequality st with Some i => _ | None => true end); cbn [ensure obind]; [|done].
  destruct (check_used_paths _ _) as [[]|e|] eqn:Hu; cbn [obind]; [|done|done].
  apply check_used_paths_ok in Hu as [rest Hrest].
  assert (Hiq : match state_inequality st with Some i => [ineq_field_path i] | None => [] end =
    match st_path st with Some p => [p] | None => [] end) by (unfold state_inequality; by destruct (st_path st)).
  assert (Hbounds : match state_inequality st with Some i => (ineq_start i, ineq_end i) | None => (NoBound, NoBound) end =
    (st_start st, st_end st)).
  { unfold state_inequality. destruct Hwf as [_ Hpath _ _]. destruct (st_path st); [done|]. by destruct (Hpath eq_refl) as [-> ->]. }
  rewrite Hbounds. rewrite Hiq in Hrest.
  destruct (start_key _ _) as [start|e|] eqn:Hstart; cbn [obind]; [|done|done].
  destruct (end_key _ _ _) as [end_|e|] eqn:Hend; cbn [obind]; [|done|done]. intros [= <-].
  exists st, (map fst (sort_by_rank ranked)), start, end_, rest. split_and!; try done. by rewrite (assoc (++)).
Qed.

Lemma compile_exact range fields i d :
  Forall (fun e => good_opt (expression_value e)) range -> good_doc d ->
  Forall (fun v => nul_free v = true) (index_values d fields) -> compile range fields = Ret i ->
  inside i (doc_key d fields) <-> Forall (satisfies d) range.
Proof.
  intros Hg Hd Hz (st & sorted & start & end_ & rest & Hwf & Hok & Hnd & Hperm & Hfields & Hs & He & ->)%compile_inv; [|done].
  assert (Hvg : Forall good_opt (index_values d fields)) by (by apply index_values_good).
  assert (Hlen : length (iter_with_id fields) = length (index_values d fields)) by (rewrite index_values_fields, length_map by done; done).
  rewrite <- Hok, inside_alt. cbn [Interval.start Interval.end_]. unfold doc_key. rewrite Hlen in He.
  rewrite index_values_fields, Hfields, !(map_app (field_value d)) in Hvg, Hz, He |- * by done.
  destruct Hwf as [Hwfm Hpath Hgm [Hgs Hge]]. unfold state_ok. rewrite (get_Forall (fun p v => opt_cmp (field_value d p) v = Eq)) by done.
  rewrite <- Hperm, <- equalities_lex. apply (get_Forall (fun _ v => good_opt v)) in Hgm; [|done].
  rewrite <- Hperm in Hgm. assert (Hpg : Forall good_opt (map snd sorted)) by (by apply Forall_map).
  apply Forall_app in Hvg as [Hv1 Hv2], Hz as [Hz1 Hz2].
  assert (Hll : length (map (field_value d) (map fst sorted)) = length (map snd sorted)) by (by rewrite !length_map).
  destruct (st_path st) as [p|] eqn:Hp; cbn [map app] in *.
  - apply Forall_cons in Hv2 as [Hx Hv2], Hz2 as [Hzx Hz2].
    rewrite (start_key_ok _ _ _ (map snd sorted) Hv1 Hx Hv2 Hpg Hz1 Hzx Hll _ _ Hgs Hs).
    rewrite (end_key_ok _ _ _ (map snd sorted) Hv1 Hx Hv2 Hpg Hz1 Hzx Hll _ _ Hge He).
    cbn [inequality_ok]. destruct (lexicographic _ _ _); naive_solver.
  - destruct (Hpath eq_refl) as [Hs0 He0]. rewrite Hs0 in Hs. rewrite He0 in He. cbn [start_key end_key] in Hs, He.
    rewrite values_to_bytes_enc in Hs by (by apply Forall_good_valid). injection Hs as <-.
    rewrite (key_end_after _ _ (map snd sorted)) by (try exact He; done). rewrite key_from by done.
    cbn [inequality_ok]. destruct (lexicographic _ _ _); naive_solver.
Qed.

(** C37: a compiled index range is exact: when [compile] accepts the range
    expressions of a query on an index, the key of a document lies in the
    interval exactly when the document's fields satisfy every expression of the
    range (in [value_cmp], a missing field below every value), for valid values
    in the range and in the document, none of them with an empty field name (the
    order of keys is not that of values for those), and documents whose indexed
    strings and bytes hold no zero byte. *)
Theorem compiled_range_exact range fields i d :
  Forall (fun e => good_opt (expression_value e)) range -> good_doc d ->
  Forall (fun v => nul_free v = true) (index_values d fields) -> compile range fields = Ret i ->
  exists key, index_key (E := unit) d fields = Ret key /\ (inside i key <-> Forall (satisfies d) range).
Proof.
  intros Hg Hd Hz Hc. exists (doc_key d fields). split; [by apply index_key_enc|by apply compile_exact].
Qed.

Lemma compiled_range_exact_witness :
  let d := MkDoc (Object [([97], Int64 1); ([98], String [120])]) (MkResolved [1] (MkId 3 (replicate 16 7))) in
  let range := [RangeGt [[98]] (Some (String [65])); RangeEq [[97]] (Some (Int64 1)); RangeLte [[98]] (Some (String [120]))] in
  exists i key, compile range [[[97]]; [[98]]] = Ret i /\ index_key (E := unit) d [[[97]]; [[98]]] = Ret key /\ inside i key.
Proof.
  intros d range.
  destruct (compile range [[[97]]; [[98]]]) as [i| |] eqn:Hc; [|by vm_compute in Hc..].
  assert (Hd : good_doc d).
  { split_and!; [by eexists|by vm_compute|]. apply good_doc_example. }
  destruct (compiled_range_exact range [[[97]]; [[98]]] i d) as (key & Hk & Hin).
  - repeat constructor.
  - exact Hd.
  - by vm_compute; repeat constructor.
  - exact Hc.
  - exists i, key. split_and!; [done|done|]. apply Hin. by repeat constructor.
Defined.

(** An index equality on a string also returns documents whose string
    continues with a zero byte: [eq("a", "x")] compiles to the interval of the
    keys that start with the encoding of ["x"], and the encoding of ["x\0y"]
    starts with it. *)
Theorem equality_range_includes_longer_strings :
  let d := MkDoc (Object [([97], String [120; 0; 121])]) (MkResolved [1] (MkId 3 (replicate 16 7))) in
  let range := [RangeEq [[97]] (Some (String [120]))] in
  exists i key, compile range [[[97]]] = Ret i /\ index_key (E := unit) d [[[97]]] = Ret key /\
    inside i key /\ ~ Forall (satisfies d) range.
Proof.
  intros d range. exists (MkInterval [16; 120; 0] (Excluded [16; 120; 1])), (doc_key d [[[97]]]).
  split_and!; [by vm_compute| |by vm_compute|].
  - apply index_key_enc. split_and!; [by eexists|by split; vm_compute|]. apply good_doc_example.
  - intros Hs. apply Forall_inv in Hs. revert Hs. vm_compute. discriminate.
Qed.
