(* ===== verification/Validator.v ===== *)
(** * Validator: schema and argument validators
      (src/crates/common/src/schemas/validator.rs,
       src/crates/common/src/virtual_system_mapping.rs)

    A [Validator] is a type of Convex values.  [check_value] decides whether a
    value conforms, [is_subset] whether every value of one validator is a value
    of another (it lets a schema change skip the scan of a table), and
    [can_contain_field], [overlaps_with_array_float64] and [foreign_keys] answer
    the questions the schema asks of it.  The path in an error message is the
    list of its parts, and the names of maps of fields are ascending lists. *)

From S2P Require Import Prelude Ord BTreeMap Identifier Value Sorting Base32 IdV6 TableMapping.

Local Open Scope Z_scope.

(** ** Virtual system tables *)

Record VirtualSystemMapping := MkVirtual {
  virtual_to_system : BTreeMap.t (list Z) (list Z);
  system_to_virtual : BTreeMap.t (list Z) (list Z);
}.

(** The tables of [add_table]. *)
Definition add_table (self : VirtualSystemMapping) (virt system : TableName) : VirtualSystemMapping :=
  MkVirtual (BTreeMap.insert virt system (virtual_to_system self)) (BTreeMap.insert system virt (system_to_virtual self)).

Definition is_virtual_table (self : VirtualSystemMapping) (table_name : TableName) : bool :=
  match BTreeMap.get table_name (virtual_to_system self) with Some _ => true | None => false end.

Definition all_tables_number_to_name (table_mapping : NamespacedTableMapping) (virtual_system_mapping : VirtualSystemMapping)
    (number : TableNumber) : outcome mapping_error TableName :=
  let? physical_name := number_to_name table_mapping number in
  match BTreeMap.get physical_name (system_to_virtual virtual_system_mapping) with
  | Some virtual_name => Ret virtual_name
  | None => Ret physical_name
  end.

Definition all_tables_name_to_number (table_mapping : NamespacedTableMapping) (virtual_system_mapping : VirtualSystemMapping)
    (name : TableName) : outcome mapping_error TableNumber :=
  let name := match BTreeMap.get name (virtual_to_system virtual_system_mapping) with
    | Some physical_table => physical_table
    | None => name
    end in
  name_to_number_user_input table_mapping name.

(** ** Validators *)

Inductive LiteralValidator :=
| LitFloat64 (bits : Z)
| LitInt64 (i : Z)
| LitBoolean (b : bool)
| LitString (s : list Z).

(** [Object] holds the map of an [ObjectValidator], whose [FieldValidator]s are
    pairs of [validator] and [optional]. *)
Inductive Validator : Type :=
| VId (table_name : list Z)
| VNull
| VFloat64
| VInt64
| VBoolean
| VString
| VBytes
| VLiteral (literal : LiteralValidator)
| VArray (element : Validator)
| VRecord (key_type value_type : Validator)
| VObject (fields : list (list Z * (Validator * bool)))
| VUnion (validators : list Validator)
| VAny.

Notation FieldValidator := (Validator * bool)%type (only parsing).
Notation ObjectValidator := (BTreeMap.t (list Z) (Validator * bool)) (only parsing).

Section ind.
Variable P : Validator -> Prop.
Hypothesis HId : forall t, P (VId t).
Hypothesis HNull : P VNull.
Hypothesis HFloat64 : P VFloat64.
Hypothesis HInt64 : P VInt64.
Hypothesis HBoolean : P VBoolean.
Hypothesis HString : P VString.
Hypothesis HBytes : P VBytes.
Hypothesis HLiteral : forall l, P (VLiteral l).
Hypothesis HArray : forall e, P e -> P (VArray e).
Hypothesis HRecord : forall k v, P k -> P v -> P (VRecord k v).
Hypothesis HObject : forall fields, Forall (fun e => P e.2.1) fields -> P (VObject fields).
Hypothesis HUnion : forall vs, Forall P vs -> P (VUnion vs).
Hypothesis HAny : P VAny.

Fixpoint Validator_ind' (v : Validator) : P v :=
  match v with
  | VId t => HId t
  | VNull => HNull
  | VFloat64 => HFloat64
  | VInt64 => HInt64
  | VBoolean => HBoolean
  | VString => HString
  | VBytes => HBytes
  | VLiteral l => HLiteral l
  | VArray e => HArray e (Validator_ind' e)
  | VRecord k v => HRecord k v (Validator_ind' k) (Validator_ind' v)
  | VObject fields =>
      HObject fields
        ((fix go l : Forall (fun e => P e.2.1) l :=
            match l with
            | [] => Forall_nil_2 _
            | e :: l => Forall_cons_2 _ _ _ (Validator_ind' e.2.1) (go l)
            end) fields)
  | VUnion vs =>
      HUnion vs
        ((fix go l : Forall P l :=
            match l with
            | [] => Forall_nil_2 _
            | x :: l => Forall_cons_2 _ _ _ (Validator_ind' x) (go l)
            end) vs)
  | VAny => HAny
  end.
End ind.

#[global] Instance LiteralValidator_EqDecision : EqDecision LiteralValidator.
Proof. solve_decision. Defined.

(** The derived [PartialEq]. *)
Fixpoint validator_eqb (a b : Validator) {struct a} : bool :=
  match a, b with
  | VId s, VId t => bool_decide (s = t)
  | VNull, VNull | VFloat64, VFloat64 | VInt64, VInt64 | VBoolean, VBoolean
  | VString, VString | VBytes, VBytes | VAny, VAny => true
  | VLiteral l, VLiteral k => bool_decide (l = k)
  | VArray x, VArray y => validator_eqb x y
  | VRecord k v, VRecord k' v' => validator_eqb k k' && validator_eqb v v'
  | VObject fs, VObject gs =>
      (fix go fs gs := match fs, gs with
        | [], [] => true
        | (n, (x, o)) :: fs, (m, (y, p)) :: gs => bool_decide (n = m) && validator_eqb x y && Bool.eqb o p && go fs gs
        | _, _ => false
        end) fs gs
  | VUnion xs, VUnion ys =>
      (fix go xs ys := match xs, ys with
        | [], [] => true
        | x :: xs, y :: ys => validator_eqb x y && go xs ys
        | _, _ => false
        end) xs ys
  | _, _ => false
  end.

(** [impl From<LiteralValidator> for ConvexValue]. *)
Definition literal_value (literal : LiteralValidator) : ConvexValue :=
  match literal with
  | LitFloat64 float => Float64 float
  | LitInt64 int => Int64 int
  | LitBoolean bool => Boolean bool
  | LitString string => String string
  end.

(** [impl TryFrom<ConvexValue> for LiteralValidator]. *)
Definition literal_try_from (v : ConvexValue) : option LiteralValidator :=
  match v with
  | Float64 f => Some (LitFloat64 f)
  | Int64 i => Some (LitInt64 i)
  | Boolean b => Some (LitBoolean b)
  | String s => Some (LitString s)
  | _ => None
  end.

(** The parts of a [ValidationContext], outermost first. *)
Inductive context_part := AtIndex (i : nat) | AtKeys | AtValues | AtField (field_name : list Z).
Notation ValidationContext := (list context_part) (only parsing).

Inductive ValidationError :=
| TableNamesDoNotMatch (id : DeveloperDocumentId) (found_table_name validator_table : list Z) (context : ValidationContext)
| SystemTableReference (id : DeveloperDocumentId) (validator_table : list Z) (context : ValidationContext)
| LiteralValuesDoNotMatch (value : ConvexValue) (literal_validator : LiteralValidator) (context : ValidationContext)
| MissingRequiredField (object : list (list Z * ConvexValue)) (field_name : list Z) (object_validator : list (list Z * (Validator * bool))) (context : ValidationContext)
| ExtraField (object : list (list Z * ConvexValue)) (field_name : list Z) (object_validator : list (list Z * (Validator * bool))) (context : ValidationContext)
| NoMatch (value : ConvexValue) (validator : Validator) (context : ValidationContext).

(** [for (i, x) in l.enumerate() { .. }] with [?] inside, and the search of a
    union for the first success. *)
Definition for_each_from {A Err'} (f : nat -> A -> outcome Err' unit) : nat -> list A -> outcome Err' unit :=
  fix go i l := match l with
    | [] => Ret tt
    | x :: l => f i x ;? go (S i) l
    end.
Definition for_each {A Err'} (f : A -> outcome Err' unit) : list A -> outcome Err' unit :=
  fix go l := match l with
    | [] => Ret tt
    | x :: l => f x ;? go l
    end.
Definition first_ok {A Err'} (f : A -> outcome Err' unit) (no_match : Err') : list A -> outcome Err' unit :=
  fix go l := match l with
    | [] => Err no_match
    | x :: l => match f x with
        | Ret _ => Ret tt
        | Err _ => go l
        | Panic => Panic
        end
    end.

Section check.
Variable all_tables_number_to_name : TableNumber -> outcome mapping_error TableName.

Fixpoint check_value_internal (self : Validator) (value : ConvexValue) (context : ValidationContext) {struct self}
    : outcome ValidationError unit :=
  match self, value with
  | VId validator_table, String s =>
      match decode s with
      | Ret id =>
          match all_tables_number_to_name (table id) with
          | Ret table_name =>
              if bool_decide (table_name = validator_table) then Ret tt
              else if TableMapping.is_system table_name then Err (SystemTableReference id validator_table context)
              else Err (TableNamesDoNotMatch id table_name validator_table context)
          | Err _ => Err (NoMatch value self context)
          | Panic => Panic
          end
      | Err _ => Err (NoMatch value self context)
      | Panic => Panic
      end
  | VNull, Null | VFloat64, Float64 _ | VInt64, Int64 _ | VBoolean, Boolean _
  | VString, String _ | VBytes, Bytes _ => Ret tt
  | VLiteral literal, _ =>
      match value_cmp value (literal_value literal) with
      | Eq => Ret tt
      | _ => Err (LiteralValuesDoNotMatch value literal context)
      end
  | VArray t, Array v => for_each_from (fun i elt => check_value_internal t elt (context ++ [AtIndex i])) 0 v
  | VRecord key_type value_type, Object object =>
      for_each (fun e : list Z * ConvexValue =>
        check_value_internal key_type (String e.1) (context ++ [AtKeys]) ;?
        check_value_internal value_type e.2 (context ++ [AtValues])) object
  | VObject fields, Object object =>
      for_each (fun e : list Z * FieldValidator =>
        match BTreeMap.get e.1 object with
        | Some value => check_value_internal e.2.1 value (context ++ [AtField e.1])
        | None => if e.2.2 then Ret tt else Err (MissingRequiredField object e.1 fields context)
        end) fields ;?
      for_each (fun e : list Z * ConvexValue =>
        match BTreeMap.get e.1 fields with
        | Some _ => Ret tt
        | None => Err (ExtraField object e.1 fields context)
        end) object
  | VUnion validators, _ =>
      match validators with
      | [validator] => check_value_internal validator value context
      | _ => first_ok (fun t => check_value_internal t value context) (NoMatch value self context) validators
      end
  | VAny, _ => Ret tt
  | _, _ => Err (NoMatch value self context)
  end.
End check.

Definition check_value (self : Validator) (value : ConvexValue) (table_mapping : NamespacedTableMapping)
    (virtual_system_mapping : VirtualSystemMapping) : outcome ValidationError unit :=
  check_value_internal (all_tables_number_to_name table_mapping virtual_system_mapping) self value [].

(** ** Subsets *)

(** One call of [is_subset], with its recursive calls. *)
Definition is_subset_body (is_subset : Validator -> Validator -> bool) (self superset : Validator) : bool :=
  match self, superset with
  | VArray left_contents, VArray right_contents => is_subset left_contents right_contents
  | VObject left_fields, VObject right_fields =>
      forallb (fun l => match BTreeMap.get l.1 right_fields with Some _ => true | None => false end) left_fields &&
      forallb (fun r => match BTreeMap.get r.1 left_fields with
        | Some left_validator => (negb left_validator.2 || r.2.2) && is_subset left_validator.1 r.2.1
        | None => r.2.2
        end) right_fields
  | _, _ =>
      if validator_eqb self superset then true
      else match self, superset with
      | _, VAny
      | VLiteral (LitString _), VString
      | VLiteral (LitInt64 _), VInt64
      | VLiteral (LitFloat64 _), VFloat64
      | VLiteral (LitBoolean _), VBoolean
      | VId _, VString => true
      | VUnion left_cases, _ => forallb (fun left_case => is_subset left_case superset) left_cases
      | _, VUnion cases =>
          if existsb (fun case => is_subset self case) cases then true
          else match self with
            | VBoolean => is_subset (VLiteral (LitBoolean true)) superset && is_subset (VLiteral (LitBoolean false)) superset
            | _ => false
            end
      | _, _ => false
      end
  end.

(** The height of a validator; [Boolean] is above its two literals. *)
Fixpoint height (v : Validator) : nat :=
  match v with
  | VBoolean => 1
  | VArray e => S (height e)
  | VRecord k v => S (Nat.max (height k) (height v))
  | VObject fields => S (nmax (map (fun e => height e.2.1) fields))
  | VUnion vs => S (nmax (map height vs))
  | _ => 0
  end.

Fixpoint is_subset_fuel (fuel : nat) (self superset : Validator) : bool :=
  match fuel with
  | O => false
  | S fuel => is_subset_body (is_subset_fuel fuel) self superset
  end.

Definition is_subset (self superset : Validator) : bool := is_subset_fuel (S (height self + height superset)) self superset.

(** ** Questions about fields *)

Fixpoint is_string_subtype_with_string_literal (self : Validator) : bool :=
  match self with
  | VLiteral (LitString _) => true
  | VUnion unions => existsb is_string_subtype_with_string_literal unions
  | _ => false
  end.

(** [get] with a function of the value found, [None] being [default]. *)
Definition get_map {V} (f : V -> bool) (default : bool) (k : list Z) : list (list Z * V) -> bool :=
  fix go m := match m with
    | [] => default
    | (k', v) :: m => if k ==? k' then f v else go m
    end.

Fixpoint can_contain_field (self : Validator) (field_path_parts : FieldPath) {struct self} : bool :=
  match field_path_parts with
  | [] => true
  | first_part :: rest =>
      match self with
      | VAny => true
      | VUnion cases => existsb (fun case => can_contain_field case field_path_parts) cases
      | VObject fields => get_map (fun field_validator => can_contain_field field_validator.1 rest) false first_part fields
      | _ => false
      end
  end.

Fixpoint is_valid_vector_validator (validator : Validator) : bool :=
  match validator with
  | VArray (VFloat64 | VAny) => true
  | VAny => true
  | VUnion validators => existsb is_valid_vector_validator validators
  | _ => false
  end.

Fixpoint overlaps_with_array_float64 (self : Validator) (field_path_parts : FieldPath) {struct self} : bool :=
  match field_path_parts with
  | [] => is_valid_vector_validator self
  | first_part :: rest =>
      match self with
      | VAny => true
      | VUnion cases => existsb (fun case => overlaps_with_array_float64 case field_path_parts) cases
      | VObject fields => get_map (fun field_validator => overlaps_with_array_float64 field_validator.1 rest) true first_part fields
      | _ => false
      end
  end.

Fixpoint foreign_keys (self : Validator) : list (list Z) :=
  match self with
  | VId table_name => [table_name]
  | VObject object => flat_map (fun field => foreign_keys field.2.1) object
  | VArray item => foreign_keys item
  | VUnion options => flat_map foreign_keys options
  | VRecord key value => foreign_keys key ++ foreign_keys value
  | _ => []
  end.

(** Schemas that can be exported hold no union of two objects. *)
Fixpoint ensure_supported_for_streaming_export (self : Validator) : outcome unit unit :=
  match self with
  | VArray element_validator => ensure_supported_for_streaming_export element_validator
  | VObject fields => for_each (fun e : list Z * FieldValidator => ensure_supported_for_streaming_export e.2.1) fields
  | VUnion validators =>
      for_each ensure_supported_for_streaming_export validators ;?
      ensure (negb (1 <? length (bfilter (fun v => match v with VObject _ => true | _ => false end) validators))%nat) tt
  | _ => Ret tt
  end.

Definition has_validator_for_system_field (fields : ObjectValidator) : bool := existsb (fun e => Identifier.is_system e.1) fields.

Definition object_filter_system_fields (fields : ObjectValidator) : ObjectValidator :=
  if has_validator_for_system_field fields then bfilter (fun e => negb (Identifier.is_system e.1)) fields else fields.

Fixpoint filter_top_level_system_fields (self : Validator) : Validator :=
  match self with
  | VObject o => VObject (object_filter_system_fields o)
  | VUnion validators => VUnion (map filter_top_level_system_fields validators)
  | _ => self
  end.

(** ** Equality *)

Lemma validator_eqb_eq a : forall b, validator_eqb a b = true <-> a = b.
Proof.
  induction a as [t| | | | | | |l|e IH|k v IHk IHv|fs IH|vs IH|] using Validator_ind'; intros b; destruct b; cbn [validator_eqb]; try done.
  - rewrite bool_decide_eq_true. split; [by intros ->|by intros [= ->]].
  - rewrite bool_decide_eq_true. split; [by intros ->|by intros [= ->]].
  - rewrite IH. split; [by intros ->|by intros [= ->]].
  - rewrite andb_true_iff, IHk, IHv. naive_solver.
  - transitivity (fs = fields); [|split; [by intros ->|by intros [= ->]]]. revert fields.
    induction IH as [|[n [x o]] fs Hx Hfs IH]; intros [|[m [y p]] gs]; try done.
    rewrite !andb_true_iff, bool_decide_eq_true, IH, Bool.eqb_true_iff. cbn in Hx. rewrite Hx. naive_solver.
  - transitivity (vs = validators); [|split; [by intros ->|by intros [= ->]]]. revert validators.
    induction IH as [|x xs Hx Hxs IH]; intros [|y ys]; try done. rewrite andb_true_iff, IH, Hx. naive_solver.
Qed.

Lemma get_elem {V} (k : list Z) (m : list (list Z * V)) v : BTreeMap.get k m = Some v -> (k, v) ∈ m.
Proof.
  induction m as [|[q w] m IH]; cbn; [done|]. destruct (k ==? q) eqn:Hk; [|intros H; right; by apply IH].
  intros [= ->]. apply eqb_eq in Hk as ->. left.
Qed.

(** The strings of a value are strings of bytes. *)
Fixpoint byte_texts (v : ConvexValue) : bool :=
  match v with
  | String s => all_bytes s
  | Array items => forallb byte_texts items
  | Object o => forallb (fun e => all_bytes e.1 && byte_texts e.2) o
  | _ => true
  end.

Lemma valid_byte_texts v : valid v = true -> byte_texts v = true.
Proof.
  induction v as [| | | |s| |items IH|o IH] using ConvexValue_ind'; try done.
  - cbn [valid byte_texts]. intros H. by apply andb_prop in H as [[H _]%andb_prop _].
  - intros [_ Hv]%valid_Array. cbn [byte_texts]. apply forallb_elem. intros x Hx. rewrite Forall_forall in IH. by apply IH, Hv.
  - intros (_ & _ & Hv)%valid_Object. cbn [byte_texts]. apply forallb_elem. intros e He. rewrite Forall_forall in IH.
    destruct (Hv e He) as (Hb & _ & Hve). apply andb_true_intro. split; [by apply bool_decide_eq_true_2|by apply IH].
Qed.

(** ** Conformance *)

Section conforms.
Variable lookup : TableNumber -> outcome mapping_error TableName.

(** What it means for a value to be of the type a validator describes. *)
Inductive conforms : Validator -> ConvexValue -> Prop :=
| conforms_id t s i : decode s = Ret i -> lookup (table i) = Ret t -> conforms (VId t) (String s)
| conforms_null : conforms VNull Null
| conforms_float f : conforms VFloat64 (Float64 f)
| conforms_int i : conforms VInt64 (Int64 i)
| conforms_boolean b : conforms VBoolean (Boolean b)
| conforms_string s : conforms VString (String s)
| conforms_bytes b : conforms VBytes (Bytes b)
| conforms_literal l v : value_cmp v (literal_value l) = Eq -> conforms (VLiteral l) v
| conforms_array t items : (forall v, v ∈ items -> conforms t v) -> conforms (VArray t) (Array items)
| conforms_record k t o : (forall e, e ∈ o -> conforms k (String e.1) /\ conforms t e.2) -> conforms (VRecord k t) (Object o)
| conforms_object fields o :
    (forall f v, f ∈ fields -> BTreeMap.get f.1 o = Some v -> conforms f.2.1 v) ->
    (forall f, f ∈ fields -> BTreeMap.get f.1 o = None -> f.2.2 = true) ->
    (forall e, e ∈ o -> is_Some (BTreeMap.get e.1 fields)) ->
    conforms (VObject fields) (Object o)
| conforms_union ts t v : t ∈ ts -> conforms t v -> conforms (VUnion ts) v
| conforms_any v : conforms VAny v.

Lemma for_each_Ret {A Err'} (f : A -> outcome Err' unit) l : for_each f l = Ret tt <-> forall x, x ∈ l -> f x = Ret tt.
Proof.
  induction l as [|x l IH]; cbn [for_each]; [split; [set_solver|done]|]. fold (for_each f).
  destruct (f x) as [[]|e|] eqn:Hx; cbn [obind].
  - rewrite IH. split; [intros H y [->|Hy]%elem_of_cons; [done|by apply H]|set_solver].
  - split; [done|]. intros H. rewrite (H x) in Hx by left. done.
  - split; [done|]. intros H. rewrite (H x) in Hx by left. done.
Qed.

Lemma for_each_no_panic {A Err'} (f : A -> outcome Err' unit) l : (forall x, x ∈ l -> f x <> Panic) -> for_each f l <> Panic.
Proof.
  induction l as [|x l IH]; cbn [for_each]; [done|]. fold (for_each f). intros H.
  destruct (f x) as [[]|e|] eqn:Hx; cbn [obind]; [|done|by specialize (H x ltac:(left))]. apply IH. set_solver.
Qed.

Lemma for_each_from_Ret {A Err'} (f : nat -> A -> outcome Err' unit) (P : A -> Prop) l : 
  (forall i x, x ∈ l -> f i x = Ret tt <-> P x) -> forall i, for_each_from f i l = Ret tt <-> forall x, x ∈ l -> P x.
Proof.
  induction l as [|x l IH]; intros Hf i; cbn [for_each_from]; [split; [set_solver|done]|]. fold (for_each_from f).
  pose proof (Hf i x ltac:(left)) as Hx. assert (Hl : forall i y, y ∈ l -> f i y = Ret tt <-> P y) by (intros j y Hy; apply Hf; by right).
  destruct (f i x) as [[]|e|]; cbn [obind].
  - rewrite IH by done. split; [intros H y [->|Hy]%elem_of_cons; [by apply Hx|by apply H]|set_solver].
  - split; [done|]. intros H. by apply Hx, H; left.
  - split; [done|]. intros H. by apply Hx, H; left.
Qed.

Lemma for_each_from_no_panic {A Err'} (f : nat -> A -> outcome Err' unit) l : forall i, 
  (forall j x, x ∈ l -> f j x <> Panic) -> for_each_from f i l <> Panic.
Proof.
  induction l as [|x l IH]; intros i; cbn [for_each_from]; [done|]. fold (for_each_from f). intros H.
  destruct (f i x) as [[]|e|] eqn:Hx; cbn [obind]; [|done|by specialize (H i x ltac:(left))]. apply IH. set_solver.
Qed.

Lemma first_ok_Ret {A Err'} (f : A -> outcome Err' unit) e l : (forall x, x ∈ l -> f x <> Panic) ->
  (first_ok f e l = Ret tt <-> exists x, x ∈ l /\ f x = Ret tt) /\ first_ok f e l <> Panic.
Proof.
  induction l as [|x l IH]; cbn [first_ok]; [set_solver|]. fold (first_ok f e). intros H.
  destruct (f x) as [[]|e'|] eqn:Hx.
  - split; [|done]. split; [|done]. intros _. exists x. split; [left|done].
  - destruct IH as [IH Hp]; [set_solver|]. split; [|done]. rewrite IH. split.
    + intros (y & Hy & Hf). exists y. split; [by right|done].
    + intros (y & [->|Hy]%elem_of_cons & Hf); [congruence|]. by exists y.
  - by specialize (H x ltac:(left)).
Qed.

Lemma single_or_first {A Err'} (f : A -> outcome Err' unit) e l : (forall x, x ∈ l -> f x <> Panic) ->
  (match l with [x] => f x | _ => first_ok f e l end = Ret tt <-> exists x, x ∈ l /\ f x = Ret tt) /\
  match l with [x] => f x | _ => first_ok f e l end <> Panic.
Proof.
  intros H. destruct l as [|x [|y l]]; [by apply first_ok_Ret| |by apply first_ok_Ret].
  split; [|apply H; left]. split; [intros Hx; exists x; split; [left|done]|]. by intros (y & ->%list_elem_of_singleton & Hy).
Qed.

Context (lookup_total : forall n, lookup n <> Panic).
Notation check := (check_value_internal lookup).

Lemma check_id t s context : bytes s -> check (VId t) (String s) context <> Panic /\
  (check (VId t) (String s) context = Ret tt <-> conforms (VId t) (String s)).
Proof.
  intros Hs. cbn [check_value_internal]. pose proof (decode_total s Hs) as Hd. destruct (decode s) as [i|e|] eqn:Hi; [| |done].
  - destruct (lookup (table i)) as [name|e|] eqn:Hl; [| |by apply lookup_total in Hl].
    + destruct (bool_decide_reflect (name = t)) as [->|Hne].
      * split; [done|]. split; [intros _; by econstructor|done].
      * split; [by destruct (TableMapping.is_system name)|]. split; [by destruct (TableMapping.is_system name)|].
        inversion 1; congruence.
    + split; [done|]. split; [done|]. inversion 1; congruence.
  - split; [done|]. split; [done|]. inversion 1; congruence.
Qed.

Lemma check_object fields o context :
  (forall f v context, f ∈ fields -> BTreeMap.get f.1 o = Some v ->
    check f.2.1 v context <> Panic /\ (check f.2.1 v context = Ret tt <-> conforms f.2.1 v)) ->
  check (VObject fields) (Object o) context <> Panic /\
  (check (VObject fields) (Object o) context = Ret tt <-> conforms (VObject fields) (Object o)).
Proof.
  intros IH. cbn [check_value_internal].
  match goal with |- context [for_each ?g fields] => set (field := g) end.
  match goal with |- context [for_each ?g o] => set (extra := g) end.
  assert (Hf : forall f, f ∈ fields -> field f <> Panic /\ (field f = Ret tt <->
    (forall v, BTreeMap.get f.1 o = Some v -> conforms f.2.1 v) /\ (BTreeMap.get f.1 o = None -> f.2.2 = true))).
  { intros f Hin. unfold field. destruct (BTreeMap.get f.1 o) as [v|] eqn:Hg.
    - destruct (IH f v (context ++ [AtField f.1]) Hin Hg) as [Hp Hc]. split; [done|]. rewrite Hc. naive_solver.
    - destruct f.2.2; naive_solver. }
  assert (He : forall e, extra e <> Panic /\ (extra e = Ret tt <-> is_Some (BTreeMap.get e.1 fields))).
  { intros e. unfold extra. destruct (BTreeMap.get e.1 fields) as [x|]; (split; [done|]); [split; [by eexists|done]|]. split; [done|]. by intros [? ?]. }
  pose proof (for_each_no_panic field fields ltac:(intros f Hin; by apply Hf)) as Hnp. split.
  - destruct (for_each field fields) as [[]|err|]; cbn [obind]; [|done|done]. apply for_each_no_panic. intros e _. apply He.
  - transitivity (for_each field fields = Ret tt /\ for_each extra o = Ret tt).
    { destruct (for_each field fields) as [[]|err|]; cbn [obind]; naive_solver. }
    rewrite !for_each_Ret. split.
    + intros [H1 H2]. constructor; [intros f v Hin; by apply Hf, H1|intros f Hin; by apply Hf, H1|intros e Hin; by apply He, H2].
    + inversion 1 as [| | | | | | | | | |? ? C1 C2 C3| |]; subst. split; [|intros e Hin; by apply He, C3].
      intros f Hin. apply Hf; [done|]. split; [intros v; by apply C1|by apply C2].
Qed.

Ltac no_match := split; [done|]; split; [done|]; inversion 1.

Lemma check_internal_spec self : forall value context, byte_texts value = true ->
  check self value context <> Panic /\ (check self value context = Ret tt <-> conforms self value).
Proof.
  induction self as [t| | | | | | |l|t IH|k t IHk IHt|fields IH|ts IH|] using Validator_ind'; intros value context Hv.
  1: destruct value; try (by no_match); apply check_id; by apply (bool_decide_eq_true_1 _ Hv).
  1-6: destruct value; try (by no_match); (split; [done|]); (split; [intros _; constructor|done]).
  - cbn [check_value_internal]. destruct (value_cmp value (literal_value l)) eqn:Hc.
    + split; [done|]. split; [by constructor|done].
    + split; [by destruct value|]. split; [by destruct value|]. inversion 1; congruence.
    + split; [by destruct value|]. split; [by destruct value|]. inversion 1; congruence.
  - destruct value as [| | | | | |items|]; try (by no_match). cbn [check_value_internal byte_texts] in *. rewrite forallb_elem in Hv. split.
    + apply for_each_from_no_panic. intros j x Hx. by apply IH, Hv.
    + rewrite (for_each_from_Ret _ (conforms t)) by (intros i x Hx; by apply IH, Hv).
      split; [by constructor|by inversion 1].
  - destruct value as [| | | | | | |o]; try (by no_match). cbn [check_value_internal byte_texts] in *. rewrite forallb_elem in Hv.
    assert (Ho : forall e, e ∈ o -> byte_texts (String e.1) = true /\ byte_texts e.2 = true) by (intros e [? ?]%Hv%andb_prop; done).
    split.
    + apply for_each_no_panic. intros e He. destruct (Ho e He) as [H1 H2]. destruct (IHk (String e.1) (context ++ [AtKeys]) H1) as [Hp _].
      destruct (check k _ _) as [[]|err|]; cbn [obind]; [|done|done]. by apply IHt.
    + rewrite for_each_Ret. split.
      * intros H. constructor. intros e He. specialize (H e He). destruct (Ho e He) as [H1 H2].
        destruct (check k _ _) as [[]|err|] eqn:Hk; cbn [obind] in H; [|done|done]. split; [by eapply IHk|by eapply IHt].
      * inversion 1 as [| | | | | | | | |? ? ? Hc| | |]; subst. intros e He. destruct (Ho e He) as [H1 H2]. destruct (Hc e He) as [C1 C2].
        apply (IHk _ (context ++ [AtKeys]) H1) in C1. rewrite C1. cbn [obind]. by apply IHt.
  - destruct value as [| | | | | | |o]; try (by no_match). cbn [byte_texts] in Hv. rewrite forallb_elem in Hv.
    apply check_object. intros f v context' Hin Hg. rewrite Forall_forall in IH. apply IH; [done|].
    apply get_elem, Hv, andb_prop in Hg. apply Hg.
  - rewrite Forall_forall in IH. cbn [check_value_internal].
    destruct (single_or_first (fun t => check t value context) (NoMatch value (VUnion ts) context) ts) as [H1 H2]; [intros t Ht; by apply IH|].
    split; [by destruct value|]. transitivity (exists t, t ∈ ts /\ check t value context = Ret tt); [by destruct value|]. split.
    + intros (t & Ht & Hc). econstructor; [done|by eapply IH].
    + inversion 1 as [| | | | | | | | | | |? t ? Ht Hc|]; subst. exists t. split; [done|by apply IH].
  - split; [by destruct value|]. split; [by constructor|by destruct value].
Qed.
End conforms.

(** ** Subsets are subsets *)

Lemma nmax_elem {A} (g : A -> nat) x l : x ∈ l -> (g x <= nmax (map g l))%nat.
Proof.
  induction l as [|y l IH]; [by intros H%elem_of_nil|]. intros [->|H]%elem_of_cons; cbn; [lia|]. specialize (IH H). unfold nmax in *. lia.
Qed.

Lemma forallb_ext_elem {A} (f g : A -> bool) l : (forall x, x ∈ l -> f x = g x) -> forallb f l = forallb g l.
Proof. induction l as [|x l IH]; intros H; cbn; [done|]. rewrite (H x), IH by set_solver. done. Qed.

Lemma existsb_ext_elem {A} (f g : A -> bool) l : (forall x, x ∈ l -> f x = g x) -> existsb f l = existsb g l.
Proof. induction l as [|x l IH]; intros H; cbn; [done|]. rewrite (H x), IH by set_solver. done. Qed.

(** The recursive calls are on smaller validators. *)
Lemma is_subset_body_ext f g a b :
  (forall x y, (height x + height y < height a + height b)%nat -> f x y = g x y) -> is_subset_body f a b = is_subset_body g a b.
Proof.
  intros H.
  assert (Hl : forall ls, a = VUnion ls -> forallb (fun l => f l b) ls = forallb (fun l => g l b) ls).
  { intros ls ->. apply forallb_ext_elem. intros l Hl%(nmax_elem height). apply H. cbn [height]. lia. }
  assert (Hr : forall rs, b = VUnion rs -> existsb (fun r => f a r) rs = existsb (fun r => g a r) rs).
  { intros rs ->. apply existsb_ext_elem. intros r Hr%(nmax_elem height). apply H. cbn [height]. lia. }
  assert (Hb : forall x, a = VBoolean -> f (VLiteral (LitBoolean x)) b = g (VLiteral (LitBoolean x)) b).
  { intros x ->. apply H. cbn [height]. lia. }
  destruct a as [| | | | | | |lit|e|k v|fs|ls|], b as [| | | | | | |lit'|e'|k' v'|fs'|rs|]; cbn [is_subset_body]; try done;
    try (by rewrite (Hl _ eq_refl)); try (by rewrite (Hr _ eq_refl), ?Hb by done); try (by destruct lit; rewrite ?(Hr _ eq_refl)).
  - apply H. cbn [height]. lia.
  - f_equal. apply forallb_ext_elem. intros r Hin. destruct (BTreeMap.get r.1 fs) as [lv|] eqn:Hg; [|done]. f_equal. apply H.
    apply get_elem, (nmax_elem (fun e => height e.2.1)) in Hg. apply (nmax_elem (fun e => height e.2.1)) in Hin. cbn [height fst snd] in *. lia.
Qed.

Lemma is_subset_fuel_enough n : forall m a b, (height a + height b < n)%nat -> (height a + height b < m)%nat ->
  is_subset_fuel n a b = is_subset_fuel m a b.
Proof.
  induction n as [|n IH]; intros m a b Hn Hm; [lia|]. destruct m as [|m]; [lia|]. cbn [is_subset_fuel].
  apply is_subset_body_ext. intros x y Hxy. apply IH; lia.
Qed.

Lemma is_subset_equation a b : is_subset a b = is_subset_body is_subset a b.
Proof.
  unfold is_subset at 1. cbn [is_subset_fuel]. apply is_subset_body_ext. intros x y Hxy. apply is_subset_fuel_enough; lia.
Qed.

Lemma value_cmp_literal v l : value_cmp v (literal_value l) = Eq ->
  match l, v with
  | LitFloat64 _, Float64 _ | LitInt64 _, Int64 _ | LitString _, String _ => True
  | LitBoolean b, Boolean b' => b' = b
  | _, _ => False
  end.
Proof.
  destruct l as [f|i|b|s], v; cbn; try done. by destruct b, b0.
Qed.

Section subset.
Variable lookup : TableNumber -> outcome mapping_error TableName.
Notation conforms := (conforms lookup).

Lemma object_subset_sound f fs fs' : (forall x y v, f x y = true -> conforms x v -> conforms y v) ->
  forallb (fun l => match BTreeMap.get l.1 fs' with Some _ => true | None => false end) fs = true ->
  forallb (fun r => match BTreeMap.get r.1 fs with
    | Some left_validator => (negb left_validator.2 || r.2.2) && f left_validator.1 r.2.1
    | None => r.2.2
    end) fs' = true ->
  forall v, conforms (VObject fs) v -> conforms (VObject fs') v.
Proof.
  rewrite !forallb_elem. intros Hf Hl Hr v. inversion 1 as [| | | | | | | | | |? o C1 C2 C3| |]; subst. constructor.
  - intros r w Hin Hw. specialize (Hr r Hin). destruct (BTreeMap.get r.1 fs) as [lv|] eqn:Hg.
    + apply andb_prop in Hr as [_ Hr]. eapply Hf; [done|]. by apply (C1 (r.1, lv)); [apply get_elem|].
    + apply get_elem, C3 in Hw as [x Hx]. cbn [fst] in Hx. congruence.
  - intros r Hin Hw. specialize (Hr r Hin). destruct (BTreeMap.get r.1 fs) as [lv|] eqn:Hg; [|done].
    apply andb_prop in Hr as [Hr _]. pose proof (C2 (r.1, lv) (get_elem _ _ _ Hg) Hw) as Ho. cbn [fst snd] in Ho. by rewrite Ho in Hr.
  - intros e He. destruct (C3 e He) as [x Hx%get_elem]. specialize (Hl _ Hx). cbn [fst] in Hl.
    destruct (BTreeMap.get e.1 fs') as [y|]; [by eexists|done].
Qed.

(** *** A call whose recursive calls are sound is sound. *)
Lemma is_subset_body_sound f a b : (forall x y v, f x y = true -> conforms x v -> conforms y v) ->
  is_subset_body f a b = true -> forall v, conforms a v -> conforms b v.
Proof.
  intros Hf. assert (Heq : validator_eqb a b = true -> forall v, conforms a v -> conforms b v) by (by intros ->%validator_eqb_eq).
  assert (Hleft : forall ls, a = VUnion ls -> forallb (fun l => f l b) ls = true -> forall v, conforms a v -> conforms b v).
  { intros ls -> Hall v. rewrite forallb_elem in Hall. inversion 1 as [| | | | | | | | | | |? t ? Ht Hc|]; subst. eapply Hf; [by apply Hall|done]. }
  assert (Hright : forall rs (c : bool), b = VUnion rs -> (c = true -> forall v, conforms a v -> conforms b v) ->
    (if existsb (fun r => f a r) rs then true else c) = true -> forall v, conforms a v -> conforms b v).
  { intros rs c -> Hc. destruct (existsb _ rs) eqn:He; [intros _|done]. apply existsb_exists in He as (r & Hr & Hfr). intros v Hv.
    apply list_elem_of_In in Hr. econstructor; [done|by eapply Hf]. }
  destruct a as [| | | | | | |lit|e|k v|fs|ls|], b as [| | | | | | |lit'|e'|k' v'|fs'|rs|]; cbn [is_subset_body];
    try (by intros [H1 H2]%andb_prop; eapply object_subset_sound); try (by intros H w; inversion 1; subst; constructor; eauto);
    try (destruct lit as [x|x|x|x]);
    (destruct (validator_eqb _ _); [by intros _; apply Heq|]); try done;
    try (by intros _ w _; constructor); try (by apply Hleft); try (by apply Hright).
  all: try (intros _ w; inversion 1 as [| | | | | | |? ? Hc%value_cmp_literal| | | | |]; subst; (done || by constructor || by destruct w; try done; constructor)).
  apply Hright; [done|]. intros [H1 H2]%andb_prop v. inversion 1 as [| | | |x| | | | | | | |]; subst.
  destruct x; [eapply (Hf _ _ _ H1)|eapply (Hf _ _ _ H2)]; by constructor.
Qed.

Lemma is_subset_ok a b v : is_subset a b = true -> conforms a v -> conforms b v.
Proof.
  unfold is_subset. generalize (S (height a + height b)). intros n. revert a b v. induction n as [|n IH]; intros a b v; [done|].
  cbn [is_subset_fuel]. intros H. by apply (is_subset_body_sound _ _ _ IH).
Qed.
End subset.

(** ** Fields and references *)

(** No record on a path of fields. *)
Fixpoint record_free (v : Validator) : bool :=
  match v with
  | VRecord _ _ => false
  | VObject fields => forallb (fun e => record_free e.2.1) fields
  | VUnion vs => forallb record_free vs
  | _ => true
  end.

Lemma get_map_get {V} (f : V -> bool) d k m : get_map f d k m = match BTreeMap.get k m with Some v => f v | None => d end.
Proof. induction m as [|[q w] m IH]; cbn; [done|]. destruct (k ==? q); [done|]. exact IH. Qed.

Lemma get_bfilter_key {V} (p : list Z -> bool) k (m : list (list Z * V)) :
  BTreeMap.get k (bfilter (fun e => p e.1) m) = if p k then BTreeMap.get k m else None.
Proof.
  induction m as [|[q w] m IH]; cbn; [by destruct (p k)|]. destruct (p q) eqn:Hq; cbn; rewrite IH.
  - destruct (k ==? q) eqn:Hk; [|done]. apply eqb_eq in Hk as ->. by rewrite Hq.
  - destruct (k ==? q) eqn:Hk; [|done]. apply eqb_eq in Hk as ->. by rewrite Hq.
Qed.

Section fields.
Variable lookup : TableNumber -> outcome mapping_error TableName.

Lemma can_contain_ok a : forall v p w, record_free a = true -> conforms lookup a v -> get_path_loop v p = Some w -> can_contain_field a p = true.
Proof.
  induction a as [t| | | | | | |l|e IH|k t IHk IHt|fields IH|ts IH|] using Validator_ind'; intros v p w Hr Hc Hp;
    (destruct p as [|f p]; [by destruct v|]); cbn [can_contain_field record_free] in *; try done;
    try (inversion Hc; subst; done).
  - inversion Hc as [| | | | | | |? ? Hl%value_cmp_literal| | | | |]; subst. by destruct l, v.
  - rewrite forallb_elem in Hr. rewrite Forall_forall in IH. inversion Hc as [| | | | | | | | | |? o C1 C2 C3| |]; subst.
    cbn [get_path_loop] in Hp. destruct (BTreeMap.get f o) as [v|] eqn:Hg; [|done]. rewrite get_map_get.
    destruct (C3 (f, v) (get_elem _ _ _ Hg)) as [fv Hfv]. cbn [fst] in Hfv. rewrite Hfv. apply get_elem in Hfv.
    eapply (IH (f, fv)); [done|by apply (Hr (f, fv))|by apply (C1 (f, fv))|done].
  - rewrite forallb_elem in Hr. rewrite Forall_forall in IH. inversion Hc as [| | | | | | | | | | |? t ? Ht Hct|]; subst.
    apply existsb_exists. exists t. split; [by apply list_elem_of_In|]. by eapply IH; [| apply Hr| |].
Qed.

Lemma filter_system_conforms a : forall o, conforms lookup a (Object o) ->
  conforms lookup (filter_top_level_system_fields a) (Object (bfilter (fun e => negb (Identifier.is_system e.1)) o)).
Proof.
  induction a as [t| | | | | | |l|e IH|k t IHk IHt|fields IH|ts IH|] using Validator_ind'; intros o Hc; cbn [filter_top_level_system_fields];
    try (inversion Hc; subst; done).
  - inversion Hc as [| | | | | | |? ? Hl%value_cmp_literal| | | | |]; subst. by destruct l.
  - inversion Hc as [| | | | | | | | |? ? ? Hall| | |]; subst. constructor. intros e [He _]%elem_of_bfilter. by apply Hall.
  - inversion Hc as [| | | | | | | | | |? ? C1 C2 C3| |]; subst. set (p := fun k : list Z => negb (Identifier.is_system k)).
    assert (Hsys : forall f, f ∈ object_filter_system_fields fields -> f ∈ fields /\ p f.1 = true).
    { intros f. unfold object_filter_system_fields. destruct (has_validator_for_system_field fields) eqn:Hh; [by rewrite elem_of_bfilter|].
      intros Hf. split; [done|]. unfold p. destruct (Identifier.is_system f.1) eqn:Hs; [|done]. exfalso.
      apply not_true_iff_false in Hh. apply Hh, existsb_exists. exists f. split; [by apply list_elem_of_In|done]. }
    change (bfilter _ o) with (bfilter (fun e => p e.1) o). constructor.
    + intros f v [Hf Hp]%Hsys. rewrite (get_bfilter_key p), Hp. by apply C1.
    + intros f [Hf Hp]%Hsys. rewrite (get_bfilter_key p), Hp. by apply C2.
    + intros e [He Hp]%elem_of_bfilter. unfold object_filter_system_fields. destruct (has_validator_for_system_field fields); [|by apply C3].
      change (bfilter _ fields) with (bfilter (fun e => p e.1) fields). rewrite (get_bfilter_key p), Hp. by apply C3.
  - rewrite Forall_forall in IH. inversion Hc as [| | | | | | | | | | |? t ? Ht Hct|]; subst.
    apply (conforms_union _ _ (filter_top_level_system_fields t)); [|by apply IH]. by apply list_elem_of_fmap_2.
  - constructor.
Qed.

(** Conformance depends on the tables the validator names only. *)
Lemma foreign_keys_frame lookup' a : forall v,
  (forall n t, t ∈ foreign_keys a -> lookup n = Ret t -> lookup' n = Ret t) -> conforms lookup a v -> conforms lookup' a v.
Proof.
  induction a as [t| | | | | | |l|e IH|k t IHk IHt|fields IH|ts IH|] using Validator_ind'; intros v Hl Hc; cbn [foreign_keys] in *;
    inversion Hc as [| | | | | | | |? ? Hall|? ? ? Hall|? ? C1 C2 C3|? t' ? Ht Hct|]; subst; try (by constructor).
  - econstructor; [done|]. apply Hl; [left|done].
  - constructor. intros x Hx. apply IH; [done|by apply Hall].
  - constructor. intros x Hx. destruct (Hall x Hx) as [H1 H2].
    split; [apply IHk; [|done]|apply IHt; [|done]]; intros n t' Ht'; apply Hl, elem_of_app; auto.
  - rewrite Forall_forall in IH. constructor; [|done|done]. intros f x Hf Hg. apply IH; [done| |by apply C1].
    intros n t' Ht'. apply Hl, list_elem_of_In, in_flat_map. exists f. split; by apply list_elem_of_In.
  - rewrite Forall_forall in IH. apply (conforms_union _ _ t'); [done|]. apply IH; [done| |done].
    intros n t'' Ht''. apply Hl, list_elem_of_In, in_flat_map. exists t'. split; by apply list_elem_of_In.
Qed.
End fields.

(** ** Theorems *)

Lemma all_tables_total tm vm n : all_tables_number_to_name tm vm n <> Panic.
Proof.
  unfold all_tables_number_to_name, number_to_name. destruct (name_by_number_if_exists tm n) as [name|]; cbn; [|done].
  by destruct (BTreeMap.get name _).
Qed.

Lemma check_value_spec self value tm vm : valid value = true ->
  check_value self value tm vm <> Panic /\
  (check_value self value tm vm = Ret tt <-> conforms (all_tables_number_to_name tm vm) self value).
Proof. intros Hv. apply check_internal_spec; [apply all_tables_total|by apply valid_byte_texts]. Qed.

(** [Validator::check_value] decides conformance: for every value the
    constructors make it returns [Ok] exactly when the value is of the type that
    the validator describes (ids name the table they are of, literals are
    equal, every element, key, value and field conforms, no required field is
    missing and no field is extra, some case of a union matches), and a
    [ValidationError] otherwise; it never panics. *)
Theorem check_value_decides self value tm vm : valid value = true ->
  (check_value self value tm vm = Ret tt /\ conforms (all_tables_number_to_name tm vm) self value) \/
  (exists e, check_value self value tm vm = Err e) /\ ~ conforms (all_tables_number_to_name tm vm) self value.
Proof.
  intros Hv. destruct (check_value_spec self value tm vm Hv) as [Hp Hc].
  destruct (check_value self value tm vm) as [[]|e|]; [left; by split; [|apply Hc]|right|done].
  split; [by eexists|]. by intros H%Hc.
Qed.

Definition example_mapping : NamespacedTableMapping := mapping_namespace (mapping_insert mapping_new [1] Global 3 [116]) Global.
Definition example_virtual : VirtualSystemMapping := MkVirtual [] [].

Lemma check_value_decides_witness :
  let validator := VObject [([97], (VUnion [VNull; VArray VInt64], false)); ([98], (VString, true))] in
  check_value validator (Object [([97], Array [Int64 1; Int64 2])]) example_mapping example_virtual = Ret tt.
Proof.
  intros validator.
  destruct (check_value_decides validator (Object [([97], Array [Int64 1; Int64 2])]) example_mapping example_virtual) as [[H _]|[[e He] _]];
    [by vm_compute|exact H|]. exfalso. by vm_compute in He.
Defined.

(** C38: [Validator::is_subset] is the function the code describes and has no
    false positives. On any two validators it answers what one unfolding of its
    definition answers with itself in the recursive calls, so the fuel of the
    model always suffices and [false] never means that it ran out; and when it
    says that a validator is a subset of another, every valid value the first
    accepts is accepted by the second, so a schema change that only widens the
    types may skip the scan of the table. *)
Theorem is_subset_sound a b :
  is_subset a b = is_subset_body is_subset a b /\
  (is_subset a b = true -> forall value tm vm, valid value = true -> check_value a value tm vm = Ret tt -> check_value b value tm vm = Ret tt).
Proof.
  split; [apply is_subset_equation|]. intros Hs value tm vm Hv Ha.
  apply (check_value_spec b value tm vm Hv). eapply is_subset_ok; [done|]. by apply (check_value_spec a value tm vm Hv).
Qed.

Lemma is_subset_sound_witness :
  let a := VObject [([97], (VBoolean, false))] in
  let b := VObject [([97], (VUnion [VLiteral (LitBoolean true); VLiteral (LitBoolean false)], true)); ([98], (VString, true))] in
  is_subset_body is_subset a b = true /\ check_value b (Object [([97], Boolean true)]) example_mapping example_virtual = Ret tt.
Proof.
  intros a b. destruct (is_subset_sound a b) as [Heq Hsound]. split; [rewrite <- Heq|apply Hsound]; by vm_compute.
Defined.

(** [can_contain_field], which answers [false] when a field can never be
    present, answers [false] for a field of a record that conforming values
    have: an index on a field inside [v.record(..)] is rejected although
    documents can hold it. *)
Theorem can_contain_field_misses_records :
  let validator := VObject [([114], (VRecord VString VInt64, false))] in
  let value := Object [([114], Object [([97], Int64 1)])] in
  check_value validator value example_mapping example_virtual = Ret tt /\
  get_path_loop value [[114]; [97]] = Some (Int64 1) /\ can_contain_field validator [[114]; [97]] = false.
Proof. by vm_compute. Qed.
