(* ===== verification/Shape.v ===== *)
(** * Shape: the inferred types of the values of a table
      (src/crates/shape_inference/src: lib.rs, string.rs, float64.rs,
       contains.rs, subtype.rs, overlaps.rs)

    A [Shape] is a [ShapeEnum] with the number of values it describes.  Shapes
    are inferred from the documents of a table; [contains] gives their meaning,
    [is_subtype] compares them and [may_overlap] keeps the variants of a union
    disjoint.  Nested shapes are pairs of a variant and its count. *)

From S2P Require Import Prelude Ord BTreeMap Identifier Value Sorting Base32 IdV6 Document Validator.

Local Open Scope Z_scope.

(** [trait ShapeConfig]. *)
Class ShapeConfig := {
  is_valid_string_literal : list Z -> bool;
  MAX_UNION_LENGTH : nat;
  MAX_SHAPE_FIELDS : nat;
}.

Definition ProdConfig : ShapeConfig := {|
  is_valid_string_literal := is_valid_identifier;
  MAX_UNION_LENGTH := 16;
  MAX_SHAPE_FIELDS := 64;
|}.

Inductive ShapeEnum : Type :=
| SNever
| SNull
| SInt64
| SNegativeInf
| SPositiveInf
| SNegativeZero
| SNaN
| SNormalFloat64
| SFloat64
| SBoolean
| SStringLiteral (literal : list Z)
| SId (table_number : Z)
| SFieldName
| SString
| SBytes
| SArray (element : ShapeEnum * Z)
| SObject (fields : list (list Z * ((ShapeEnum * Z) * bool)))
| SRecord (field value : ShapeEnum * Z)
| SUnion (variants : list (ShapeEnum * Z))
| SUnknown.

(** [struct Shape { variant, num_values }]. *)
Notation Shape := (ShapeEnum * Z)%type (only parsing).

Section ind.
Variable P : ShapeEnum -> Prop.
Hypothesis Hleaf : forall s, match s with SArray _ | SObject _ | SRecord _ _ | SUnion _ => False | _ => True end -> P s.
Hypothesis HArray : forall e, P e.1 -> P (SArray e).
Hypothesis HObject : forall fields, Forall (fun e => P e.2.1.1) fields -> P (SObject fields).
Hypothesis HRecord : forall f v, P f.1 -> P v.1 -> P (SRecord f v).
Hypothesis HUnion : forall us, Forall (fun u => P u.1) us -> P (SUnion us).

Fixpoint ShapeEnum_ind' (s : ShapeEnum) : P s :=
  match s as s return P s with
  | SArray e => HArray e (ShapeEnum_ind' e.1)
  | SObject fields =>
      HObject fields
        ((fix go l : Forall (fun e => P e.2.1.1) l :=
            match l with
            | [] => Forall_nil_2 _
            | e :: l => Forall_cons_2 _ _ _ (ShapeEnum_ind' e.2.1.1) (go l)
            end) fields)
  | SRecord f v => HRecord f v (ShapeEnum_ind' f.1) (ShapeEnum_ind' v.1)
  | SUnion us =>
      HUnion us
        ((fix go l : Forall (fun u => P u.1) l :=
            match l with
            | [] => Forall_nil_2 _
            | u :: l => Forall_cons_2 _ _ _ (ShapeEnum_ind' u.1) (go l)
            end) us)
  | s => Hleaf s I
  end.
End ind.

(** ** Shapes of strings and floats *)

(** [f64::is_nan], [f64::INFINITY] and [-0.0] on the bits of a float. *)
Definition is_nan (bits : Z) : bool :=
  (Z.land (Z.shiftr bits 52) 2047 =? 2047) && negb (Z.land bits (2 ^ 52 - 1) =? 0).
Definition INFINITY : Z := 2047 * 2 ^ 52.
Definition NEG_INFINITY : Z := 2 ^ 63 + 2047 * 2 ^ 52.
Definition NEG_ZERO : Z := 2 ^ 63.

Definition float64_shape_of (f : Z) : ShapeEnum :=
  if is_nan f then SNaN
  else if f =? INFINITY then SPositiveInf
  else if f =? NEG_INFINITY then SNegativeInf
  else match cmp (total_cmp_key f) (total_cmp_key NEG_ZERO) with
    | Eq => SNegativeZero
    | _ => SNormalFloat64
    end.

Section shapes.
Context `{ShapeConfig}.

Definition string_shape_of (s : list Z) : ShapeEnum :=
  if is_valid_string_literal s then SStringLiteral s
  else match decode s with
    | Ret id => SId (table id)
    | _ => if is_valid_field_name s then SFieldName else SString
    end.

(** The derived [PartialEq]. *)
Fixpoint shape_eqb (a b : ShapeEnum) {struct a} : bool :=
  match a, b with
  | SNever, SNever | SNull, SNull | SInt64, SInt64 | SNegativeInf, SNegativeInf | SPositiveInf, SPositiveInf
  | SNegativeZero, SNegativeZero | SNaN, SNaN | SNormalFloat64, SNormalFloat64 | SFloat64, SFloat64
  | SBoolean, SBoolean | SFieldName, SFieldName | SString, SString | SBytes, SBytes | SUnknown, SUnknown => true
  | SStringLiteral s, SStringLiteral t => bool_decide (s = t)
  | SId s, SId t => s =? t
  | SArray (x, n), SArray (y, m) => shape_eqb x y && (n =? m)
  | SObject fs, SObject gs =>
      (fix go fs gs := match fs, gs with
        | [], [] => true
        | (k, ((x, n), o)) :: fs, (l, ((y, m), p)) :: gs => bool_decide (k = l) && shape_eqb x y && (n =? m) && Bool.eqb o p && go fs gs
        | _, _ => false
        end) fs gs
  | SRecord (f, n) (v, m), SRecord (f', n') (v', m') => shape_eqb f f' && (n =? n') && shape_eqb v v' && (m =? m')
  | SUnion us, SUnion ws =>
      (fix go us ws := match us, ws with
        | [], [] => true
        | (x, n) :: us, (y, m) :: ws => shape_eqb x y && (n =? m) && go us ws
        | _, _ => false
        end) us ws
  | _, _ => false
  end.

(** ** The values of a shape *)

(** [get] and a test of the value found. *)
Definition get_test {V} (f : V -> bool) (k : list Z) : list (list Z * V) -> bool :=
  fix go m := match m with
    | [] => false
    | (k', v) :: m => if k ==? k' then f v else go m
    end.

Fixpoint contains (self : ShapeEnum) (value : ConvexValue) {struct self} : bool :=
  match value, self with
  | _, SNever => false
  | Null, SNull => true
  | Int64 _, SInt64 => true
  | Float64 _, SFloat64 => true
  | Float64 f, (SNegativeInf | SPositiveInf | SNegativeZero | SNaN | SNormalFloat64) => shape_eqb (float64_shape_of f) self
  | Boolean _, SBoolean => true
  | String s, SStringLiteral literal => bool_decide (s = literal)
  | String s, SId table_number => match decode s with Ret id => table id =? table_number | _ => false end
  | String s, SFieldName => is_valid_field_name s
  | String _, SString => true
  | Bytes _, SBytes => true
  | Array array, SArray element => forallb (fun value => contains element.1 value) array
  | Object object, SObject fields =>
      forallb (fun e : list Z * ConvexValue => get_test (fun field : Shape * bool => contains field.1.1 e.2) e.1 fields) object &&
      forallb (fun f : list Z * (Shape * bool) => f.2.2 || match BTreeMap.get f.1 object with Some _ => true | None => false end) fields
  | Object object, SRecord field value =>
      forallb (fun e : list Z * ConvexValue => contains field.1 (String e.1) && contains value.1 e.2) object
  | _, SUnion variants => existsb (fun u => contains u.1 value) variants
  | _, SUnknown => true
  | _, _ => false
  end.

(** ** Subtyping *)

Definition is_subtype_body (is_subtype : ShapeEnum -> ShapeEnum -> bool) (self other : ShapeEnum) : bool :=
  match self, other with
  | SNever, _ => true
  | SNull, SNull | SInt64, SInt64 | SBoolean, SBoolean | SBytes, SBytes => true
  | SStringLiteral s, SStringLiteral other_s => bool_decide (s = other_s)
  | SStringLiteral s, SId table_number => match decode s with Ret id => table id =? table_number | _ => false end
  | SStringLiteral s, SFieldName => is_valid_field_name s
  | SStringLiteral _, SString => true
  | SId table, SId other_table => table =? other_table
  | SId _, SFieldName | SId _, SString | SFieldName, SFieldName | SFieldName, SString | SString, SString => true
  | SNegativeInf, SNegativeInf | SNegativeInf, SFloat64 | SPositiveInf, SPositiveInf | SPositiveInf, SFloat64
  | SNegativeZero, SNegativeZero | SNegativeZero, SFloat64 | SNaN, SNaN | SNaN, SFloat64
  | SNormalFloat64, SNormalFloat64 | SNormalFloat64, SFloat64 | SFloat64, SFloat64 => true
  | SArray element, SArray other_element => is_subtype element.1 other_element.1
  | SObject object, SObject other_object =>
      forallb (fun f => match BTreeMap.get f.1 other_object with
        | Some other_field => negb (f.2.2 && negb other_field.2) && is_subtype f.2.1.1 other_field.1.1
        | None => false
        end) object &&
      forallb (fun f => match BTreeMap.get f.1 object with Some _ => true | None => f.2.2 end) other_object
  | SObject object, SRecord field value =>
      forallb (fun f => is_subtype (string_shape_of f.1) field.1 && is_subtype f.2.1.1 value.1) object
  | SRecord field value, SRecord other_field other_value => is_subtype field.1 other_field.1 && is_subtype value.1 other_value.1
  | SUnion union, _ => forallb (fun v => is_subtype v.1 other) union
  | _, SUnion union => existsb (fun v => is_subtype self v.1) union
  | _, SUnknown => true
  | _, _ => false
  end.

Fixpoint shape_height (s : ShapeEnum) : nat :=
  match s with
  | SArray e => S (shape_height e.1)
  | SObject fields => S (nmax (map (fun e => shape_height e.2.1.1) fields))
  | SRecord f v => S (Nat.max (shape_height f.1) (shape_height v.1))
  | SUnion us => S (nmax (map (fun u => shape_height u.1) us))
  | _ => 0
  end.

Fixpoint is_subtype_fuel (fuel : nat) (self other : ShapeEnum) : bool :=
  match fuel with
  | O => false
  | S fuel => is_subtype_body (is_subtype_fuel fuel) self other
  end.

Definition is_subtype (self other : ShapeEnum) : bool := is_subtype_fuel (S (shape_height self + shape_height other)) self other.

(** ** Overlap *)

Definition may_overlap (self other : ShapeEnum) : bool :=
  if shape_eqb self other then true
  else match self, other with
  | SArray _, SArray _ => true
  | SRecord _ _, SRecord _ _ => true
  | SObject object, SObject other_object =>
      let left_disjoint := existsb (fun f => negb f.2.2 && match BTreeMap.get f.1 other_object with Some _ => false | None => true end) object in
      let right_disjoint := existsb (fun f => negb f.2.2 && match BTreeMap.get f.1 object with Some _ => false | None => true end) other_object in
      negb (left_disjoint || right_disjoint)
  | SObject _, SRecord _ _ | SRecord _ _, SObject _ => true
  | SUnion _, _ | _, SUnion _ => true
  | SUnknown, _ | _, SUnknown => true
  | _, _ => false
  end.
End shapes.

(** ** Equality and lookups *)

Lemma shape_eqb_eq a : forall b, shape_eqb a b = true <-> a = b.
Proof.
  induction a as [a Hleaf|[e n] IH|fs IH|[f n] [v m] IHf IHv|us IH] using ShapeEnum_ind'; intros b.
  - destruct a; try done; destruct b; cbn [shape_eqb]; try done.
    + rewrite bool_decide_eq_true. split; [by intros ->|by intros [= ->]].
    + rewrite Z.eqb_eq. split; [by intros ->|by intros [= ->]].
  - destruct b as [| | | | | | | | | | | | | | |[e' n']| | | |]; cbn [shape_eqb]; try done. rewrite andb_true_iff, IH, Z.eqb_eq. cbn. naive_solver.
  - destruct b as [| | | | | | | | | | | | | | | |gs| | |]; cbn [shape_eqb]; try done.
    transitivity (fs = gs); [|split; [by intros ->|by intros [= ->]]]. revert gs.
    induction IH as [|[k [[x n] o]] fs Hx Hfs IH]; intros [|[l [[y m] p]] gs]; try done.
    rewrite !andb_true_iff, bool_decide_eq_true, IH, Bool.eqb_true_iff, Z.eqb_eq. cbn in Hx. rewrite Hx. naive_solver.
  - destruct b as [| | | | | | | | | | | | | | | | |[f' n'] [v' m']| |]; cbn [shape_eqb]; try done.
    rewrite !andb_true_iff, IHf, IHv, !Z.eqb_eq. cbn. naive_solver.
  - destruct b as [| | | | | | | | | | | | | | | | | |ws|]; cbn [shape_eqb]; try done.
    transitivity (us = ws); [|split; [by intros ->|by intros [= ->]]]. revert ws.
    induction IH as [|[x n] us Hx Hus IH]; intros [|[y m] ws]; try done. rewrite !andb_true_iff, IH, Z.eqb_eq. cbn in Hx. rewrite Hx. naive_solver.
Qed.

Lemma get_test_get {V} (f : V -> bool) k m : get_test f k m = match BTreeMap.get k m with Some v => f v | None => false end.
Proof. induction m as [|[q w] m IH]; cbn; [done|]. destruct (k ==? q); [done|]. exact IH. Qed.

Lemma contains_object fields o : contains (SObject fields) (Object o) = true <->
  (forall e, e ∈ o -> exists f, BTreeMap.get e.1 fields = Some f /\ contains f.1.1 e.2 = true) /\
  (forall f, f ∈ fields -> f.2.2 = false -> is_Some (BTreeMap.get f.1 o)).
Proof.
  cbn [contains]. rewrite andb_true_iff, !forallb_elem. split; intros [H1 H2]; split.
  - intros e He. specialize (H1 e He). rewrite get_test_get in H1. destruct (BTreeMap.get e.1 fields) as [f|]; [by exists f|done].
  - intros f Hf Ho. specialize (H2 f Hf). rewrite Ho in H2. cbn [orb] in H2. destruct (BTreeMap.get f.1 o); [by eexists|done].
  - intros e He. destruct (H1 e He) as (f & Hg & Hc). by rewrite get_test_get, Hg.
  - intros f Hf. destruct f.2.2 eqn:Ho; [done|]. by destruct (H2 f Hf Ho) as [? ->].
Qed.

(** Ids are valid field names. *)
Lemma alph_field_char i : index i -> field_char (alph i) /\ alph i <> dollar.
Proof.
  intros Hi. assert (H : (32 <=? alph i) && (alph i <? 127) && negb (alph i =? dollar) = true).
  { apply (range_forall 32 (fun i => (32 <=? alph i) && (alph i <? 127) && negb (alph i =? dollar))); [by vm_compute|exact Hi]. }
  unfold field_char. bool_hyps. split; [lia|]. done.
Qed.

Lemma id_is_field_name s i : bytes s -> decode s = Ret i -> is_valid_field_name s = true.
Proof.
  intros Hs Hd. pose proof (decode_total s Hs) as Ht. rewrite Hd in Ht. destruct Ht as [Hv He].
  destruct (encode_ok i Hv) as (t & buf & Henc & Hb & _). rewrite Henc in He. injection He as <-.
  assert (Hlen : (length (map alph (indexes_of buf)) <= MAX_BASE32_LEN)%nat).
  { unfold decode in Hd. destruct (_ || _) eqn:Hc; [done|]. apply orb_false_elim in Hc as [_ Hc]. by apply Nat.ltb_ge in Hc. }
  unfold is_valid_field_name. rewrite (proj2 (check_valid_field_name_spec _ tt Hs)); [done|].
  apply indexes_of_index in Hb. split_and!.
  - destruct (indexes_of buf) as [|j js]; [done|]. cbn. intros [= Hj]. apply Forall_inv in Hb. by apply alph_field_char in Hb as [_ ?].
  - apply Forall_map. eapply Forall_impl; [done|]. intros j Hj. by apply alph_field_char.
  - unfold MAX_FIELD_NAME_LENGTH. assert (MAX_BASE32_LEN = 37)%nat by (by vm_compute). lia.
Qed.

Section theory.
Context `{ShapeConfig}.

Lemma string_shape_contains s : contains (string_shape_of s) (String s) = true.
Proof.
  unfold string_shape_of. destruct (is_valid_string_literal s); [by apply bool_decide_eq_true_2|].
  destruct (decode s) as [i|e|] eqn:Hd; [cbn; rewrite Hd; lia|..]; destruct (is_valid_field_name s) eqn:Hf; done.
Qed.

(** *** Subtypes: the recursion ends *)

Lemma string_shape_height s : shape_height (string_shape_of s) = 0%nat.
Proof. unfold string_shape_of. destruct (is_valid_string_literal s), (decode s), (is_valid_field_name s); done. Qed.

Lemma is_subtype_body_ext f g a b :
  (forall x y, (shape_height x + shape_height y < shape_height a + shape_height b)%nat -> f x y = g x y) ->
  is_subtype_body f a b = is_subtype_body g a b.
Proof.
  intros Hfg.
  assert (Hl : forall us, a = SUnion us -> forallb (fun u => f u.1 b) us = forallb (fun u => g u.1 b) us).
  { intros us ->. apply forallb_ext_elem. intros u Hu%(nmax_elem (fun u => shape_height u.1)). apply Hfg. cbn [shape_height]. lia. }
  assert (Hr : forall us, b = SUnion us -> existsb (fun u => f a u.1) us = existsb (fun u => g a u.1) us).
  { intros us ->. apply existsb_ext_elem. intros u Hu%(nmax_elem (fun u => shape_height u.1)). apply Hfg. cbn [shape_height]. lia. }
  destruct a as [| | | | | | | | | | | | | | |e|fs|k v|us|], b as [| | | | | | | | | | | | | | |e'|fs'|k' v'|us'|]; cbn [is_subtype_body]; try done;
    try (by rewrite (Hl _ eq_refl)); try (by rewrite (Hr _ eq_refl)).
  - apply Hfg. cbn [shape_height]. lia.
  - f_equal. apply forallb_ext_elem. intros r Hin. destruct (BTreeMap.get r.1 fs') as [lv|] eqn:Hg; [|done]. f_equal. apply Hfg.
    apply get_elem, (nmax_elem (fun e => shape_height e.2.1.1)) in Hg. apply (nmax_elem (fun e => shape_height e.2.1.1)) in Hin.
    cbn [shape_height fst snd] in *. lia.
  - apply forallb_ext_elem. intros r Hin%(nmax_elem (fun e => shape_height e.2.1.1)).
    rewrite !Hfg; [done|..]; cbn [shape_height]; rewrite ?string_shape_height; lia.
  - rewrite !Hfg; [done|..]; cbn [shape_height]; lia.
Qed.

Lemma is_subtype_fuel_enough n : forall m a b, (shape_height a + shape_height b < n)%nat -> (shape_height a + shape_height b < m)%nat ->
  is_subtype_fuel n a b = is_subtype_fuel m a b.
Proof.
  induction n as [|n IH]; intros m a b Hn Hm; [lia|]. destruct m as [|m]; [lia|]. cbn [is_subtype_fuel].
  apply is_subtype_body_ext. intros x y Hxy. apply IH; lia.
Qed.

Lemma is_subtype_equation a b : is_subtype a b = is_subtype_body is_subtype a b.
Proof.
  unfold is_subtype at 1. cbn [is_subtype_fuel]. apply is_subtype_body_ext. intros x y Hxy. apply is_subtype_fuel_enough; lia.
Qed.

(** *** Subtypes are subsets *)

Lemma contains_union us v : contains (SUnion us) v = true <-> exists u, u ∈ us /\ contains u.1 v = true.
Proof.
  transitivity (existsb (fun u => contains u.1 v) us = true); [by destruct v|]. rewrite existsb_exists.
  split; intros (u & Hu & Hc); exists u; (split; [by apply list_elem_of_In|done]).
Qed.

Lemma byte_texts_elem items v : byte_texts (Array items) = true -> v ∈ items -> byte_texts v = true.
Proof. cbn [byte_texts]. rewrite forallb_elem. auto. Qed.

Lemma byte_texts_field o e : byte_texts (Object o) = true -> e ∈ o -> byte_texts (String e.1) = true /\ byte_texts e.2 = true.
Proof. cbn [byte_texts]. rewrite forallb_elem. intros Ho [? ?]%Ho%andb_prop. done. Qed.

(** The maps of a shape are maps. *)
Inductive shape_wf : ShapeEnum -> Prop :=
| wf_leaf s : match s with SArray _ | SObject _ | SRecord _ _ | SUnion _ => False | _ => True end -> shape_wf s
| wf_array e : shape_wf e.1 -> shape_wf (SArray e)
| wf_object fields : BTreeMap.wf fields -> (forall e, e ∈ fields -> shape_wf e.2.1.1) -> shape_wf (SObject fields)
| wf_record f v : shape_wf f.1 -> shape_wf v.1 -> shape_wf (SRecord f v)
| wf_union us : (forall u, u ∈ us -> shape_wf u.1) -> shape_wf (SUnion us).

Section sound.
Variable f : ShapeEnum -> ShapeEnum -> bool.
Hypothesis f_sound : forall x y v, shape_wf y -> byte_texts v = true -> f x y = true -> contains x v = true -> contains y v = true.

Lemma object_subtype_sound fs gs o : shape_wf (SObject gs) -> byte_texts (Object o) = true ->
  is_subtype_body f (SObject fs) (SObject gs) = true -> contains (SObject fs) (Object o) = true -> contains (SObject gs) (Object o) = true.
Proof.
  inversion 1 as [| |? Hwf Hwfs| |]; subst; [done|]. cbn [is_subtype_body]. rewrite andb_true_iff, !forallb_elem, !contains_object.
  intros Hb [H1 H2] [C1 C2]. split.
  - intros e He. destruct (C1 e He) as (x & Hx & Hc). pose proof (H1 _ (get_elem _ _ _ Hx)) as H3. cbn [fst snd] in H3.
    destruct (BTreeMap.get e.1 gs) as [y|] eqn:Hy; [|done]. exists y. split; [done|]. apply andb_prop in H3 as [_ H3].
    apply get_elem, Hwfs in Hy. eapply f_sound; [done|by apply (byte_texts_field o)|done..].
  - intros g Hg Ho. specialize (H2 g Hg). destruct (BTreeMap.get g.1 fs) as [x|] eqn:Hx; [|congruence].
    apply (C2 (g.1, x)); [by apply get_elem|]. pose proof (H1 _ (get_elem _ _ _ Hx)) as H3. cbn [fst snd] in H3 |- *.
    assert (Hgg : BTreeMap.get g.1 gs = Some g.2) by (apply BTreeMap.elem_of_get; [done|by destruct g]).
    rewrite Hgg, Ho in H3. by destruct x.2.
Qed.

Lemma object_record_sound fs field value o : shape_wf (SRecord field value) -> byte_texts (Object o) = true ->
  is_subtype_body f (SObject fs) (SRecord field value) = true -> contains (SObject fs) (Object o) = true ->
  contains (SRecord field value) (Object o) = true.
Proof.
  inversion 1 as [| | |? ? Hwf1 Hwf2|]; subst; [done|]. cbn [is_subtype_body]. rewrite forallb_elem, contains_object.
  intros Hb Hs [C1 C2]. cbn [contains]. apply forallb_elem. intros e He. destruct (byte_texts_field o e Hb He) as [Hb1 Hb2].
  destruct (C1 e He) as (x & Hx & Hc). apply get_elem, Hs, andb_prop in Hx as [H1 H2]. cbn [fst snd] in *. apply andb_true_intro. split.
  - eapply f_sound; [done|done|exact H1|apply string_shape_contains].
  - by eapply f_sound.
Qed.

Lemma is_subtype_body_sound a b v : shape_wf b -> byte_texts v = true ->
  is_subtype_body f a b = true -> contains a v = true -> contains b v = true.
Proof.
  intros Hwf Hb.
  assert (Hl : forall us, a = SUnion us -> forallb (fun u => f u.1 b) us = true -> contains a v = true -> contains b v = true).
  { intros us -> Hall (u & Hu & Hc)%contains_union. rewrite forallb_elem in Hall. by eapply f_sound; [| |apply Hall|]. }
  assert (Hr : forall us, b = SUnion us -> existsb (fun u => f a u.1) us = true -> contains a v = true -> contains b v = true).
  { intros us -> (u & Hu & Hfu)%existsb_exists Ha. apply list_elem_of_In in Hu. apply contains_union. exists u. split; [done|].
    eapply f_sound; [|done..]. by inversion Hwf; subst; [|eauto]. }
  assert (Hid : forall n s, v = String s -> contains (SId n) v = true -> is_valid_field_name s = true).
  { intros n s ->. cbn [contains]. destruct (decode s) as [i|e|] eqn:Hd; [|done..]. intros _. eapply id_is_field_name; [|done].
    by apply (bool_decide_eq_true_1 _ Hb). }
  destruct a as [| | | | | | | | | |s|n| | | |e|fs|k t|us|]; try (by apply Hl);
    destruct b as [| | | | | | | | | |s'|n'| | | |e'|fs'|k' t'|us'|]; try done; try (by apply Hr); intros Hsub Hc;
    cbn [is_subtype_body] in Hsub; destruct v as [|i|fl|bo|str|by_|items|o]; try done.
  - apply bool_decide_eq_true_1 in Hsub as <-. done.
  - apply bool_decide_eq_true_1 in Hc as ->. done.
  - apply bool_decide_eq_true_1 in Hc as ->. done.
  - apply Z.eqb_eq in Hsub as <-. done.
  - by apply (Hid n str).
  - cbn [contains] in *. rewrite forallb_elem in *. intros x Hx. eapply f_sound; [|by eapply byte_texts_elem|done|by apply Hc].
    by inversion Hwf; subst.
  - by eapply object_subtype_sound.
  - by eapply object_record_sound.
  - apply andb_prop in Hsub as [H1 H2]. cbn [contains] in *. rewrite forallb_elem in *. intros x Hx.
    destruct (byte_texts_field o x Hb Hx) as [B1 B2]. specialize (Hc x Hx). apply andb_prop in Hc as [C1 C2].
    inversion Hwf; subst; [done|]. apply andb_true_intro. by split; eapply f_sound.
Qed.
End sound.

Lemma is_subtype_ok a b v : shape_wf b -> byte_texts v = true -> is_subtype a b = true -> contains a v = true -> contains b v = true.
Proof.
  unfold is_subtype. generalize (S (shape_height a + shape_height b)). intros n. revert a b v.
  induction n as [|n IH]; intros a b v Hwf Hb; [done|]. cbn [is_subtype_fuel]. by apply is_subtype_body_sound.
Qed.

(** *** Shapes with a common value overlap, or one is a subtype *)

Lemma object_overlap fs gs o : contains (SObject fs) (Object o) = true -> contains (SObject gs) (Object o) = true ->
  existsb (fun f => negb f.2.2 && match BTreeMap.get f.1 gs with Some _ => false | None => true end) fs = false.
Proof.
  rewrite !contains_object. intros [_ C1] [C2 _]. apply not_true_iff_false. intros (x & Hx & Hd)%existsb_exists.
  apply list_elem_of_In in Hx. apply andb_prop in Hd as [Ho Hd]. apply negb_true_iff in Ho.
  destruct (C1 x Hx Ho) as [w Hw%get_elem]. destruct (C2 _ Hw) as (g & Hg & _). cbn [fst] in Hg. by rewrite Hg in Hd.
Qed.

Lemma overlap_ok a b v : contains a v = true -> contains b v = true ->
  may_overlap a b = true \/ is_subtype a b = true \/ is_subtype b a = true.
Proof.
  intros Ha Hb. rewrite !is_subtype_equation. unfold may_overlap. destruct (shape_eqb a b) eqn:Heq; [by left|].
  assert (Hne : a <> b) by (intros ->; apply not_true_iff_false in Heq; by apply Heq, shape_eqb_eq).
  destruct a as [| | | | | | | | | |s|n| | | |e|fs|k t|us|]; destruct b as [| | | | | | | | | |s'|n'| | | |e'|fs'|k' t'|us'|]; 
    try (by left); try (by right; left); try (by right; right); destruct v as [|i|fl|bo|str|by_|items|o]; try done.
  all: try (cbn [contains] in Ha, Hb; apply shape_eqb_eq in Ha, Hb; congruence).
  all: cbn [contains is_subtype_body] in *; try (apply bool_decide_eq_true_1 in Ha as ->); try (apply bool_decide_eq_true_1 in Hb as ->); auto.
  - destruct (decode str); [|done..]. apply Z.eqb_eq in Ha as <-. apply Z.eqb_eq in Hb as <-. done.
  - left. by rewrite (object_overlap fs fs' o), (object_overlap fs' fs o).
Qed.
End theory.

(** ** Theorems *)

(** C39: [ShapeEnum::is_subtype] is the function the code describes and is sound,
    for every configuration. On any two shapes it answers what one unfolding of
    its definition answers with itself in the recursive calls, so the fuel of the
    model always suffices and [false] never means that it ran out; and when a
    shape is a subtype of a well-formed one, every valid value of the first is in
    the second, objects in records and ids in field names included. *)
Theorem shape_subtype_sound `{ShapeConfig} a b :
  is_subtype a b = is_subtype_body is_subtype a b /\
  (shape_wf b -> is_subtype a b = true -> forall v, valid v = true -> contains a v = true -> contains b v = true).
Proof.
  split; [apply is_subtype_equation|]. intros Hwf Hs v Hv Hc. eapply is_subtype_ok; [done|by apply valid_byte_texts|done..].
Qed.

Lemma shape_subtype_sound_witness :
  let a := SObject [([97], ((SInt64, 1), false))] in
  let b := SRecord (SFieldName, 2) (SUnion [(SNull, 1); (SInt64, 1)], 2) in
  is_subtype_body (H := ProdConfig) (is_subtype (H := ProdConfig)) a b = true /\ contains b (Object [([97], Int64 1)]) = true.
Proof.
  intros a b. destruct (shape_subtype_sound (H := ProdConfig) a b) as [Heq Hsound].
  split; [rewrite <- Heq; by vm_compute|apply Hsound with (v := Object [([97], Int64 1)]); try (by vm_compute)].
  apply wf_record; [by constructor|]. apply wf_union. intros u [->| ->%list_elem_of_singleton]%elem_of_cons; by constructor.
Defined.

(** The variants of a union can be told apart: two shapes with a common value
    either may overlap or one is a subtype of the other, so of shapes that do
    neither, which is what [UnionBuilder] keeps, at most one contains a value. *)
Theorem shapes_sharing_values_overlap `{ShapeConfig} a b v : contains a v = true -> contains b v = true ->
  may_overlap a b = true \/ is_subtype a b = true \/ is_subtype b a = true.
Proof. apply overlap_ok. Qed.

Lemma shapes_sharing_values_overlap_witness :
  let a := SObject [([97], ((SInt64, 1), false)); ([98], ((SNull, 1), true))] in
  let b := SObject [([97], ((SInt64, 1), false)); ([99], ((SNull, 1), true))] in
  may_overlap a b = true \/ is_subtype (H := ProdConfig) a b = true \/ is_subtype (H := ProdConfig) b a = true.
Proof. intros a b. apply (shapes_sharing_values_overlap (H := ProdConfig) a b (Object [([97], Int64 1)])); by vm_compute. Defined.
