(* ===== verification/ShapeInference.v ===== *)
(** * ShapeInference: inserting values into shapes and removing them
      (src/crates/shape_inference/src: lib.rs, union.rs, supertype.rs,
       subtype.rs, object.rs, array.rs)

    A table keeps the shape of its documents while they come and go.  Shapes
    count the values they describe, so that a variant disappears with its last
    value.  A union is a set of at most [MAX_UNION_LENGTH] disjoint shapes;
    [push] adds a shape to it, merging it into a supertype, or with the shapes
    it overlaps, and contracts unions that get too long.

    [Option] is [Err tt] for [None], assertions panic.  The functions call each
    other: [Ops] has one field for each of those, [ops_of] ties the knot with
    fuel for the depth of calls, and running out of it is [Panic]. *)

From S2P Require Import Prelude Ord BTreeMap Identifier Value Sorting Base32 IdV6 Document Validator Shape.

Local Open Scope Z_scope.

(** ** The order of shapes and sets of them *)

(** The derived [Ord], by variant and then by content. *)
Definition variant_index (s : ShapeEnum) : Z :=
  match s with
  | SNever => 0 | SNull => 1 | SInt64 => 2 | SNegativeInf => 3 | SPositiveInf => 4 | SNegativeZero => 5 | SNaN => 6
  | SNormalFloat64 => 7 | SFloat64 => 8 | SBoolean => 9 | SStringLiteral _ => 10 | SId _ => 11 | SFieldName => 12
  | SString => 13 | SBytes => 14 | SArray _ => 15 | SObject _ => 16 | SRecord _ _ => 17 | SUnion _ => 18 | SUnknown => 19
  end.

Definition then_cmp (c d : comparison) : comparison := match c with Eq => d | _ => c end.
Definition bool_cmp (a b : bool) : comparison := match a, b with false, true => Lt | true, false => Gt | _, _ => Eq end.

Fixpoint shape_cmp (a b : ShapeEnum) {struct a} : comparison :=
  match a, b with
  | SStringLiteral s, SStringLiteral t => cmp s t
  | SId s, SId t => cmp s t
  | SArray (x, n), SArray (y, m) => then_cmp (shape_cmp x y) (cmp n m)
  | SObject fs, SObject gs =>
      (fix go fs gs := match fs, gs with
        | [], [] => Eq
        | [], _ :: _ => Lt
        | _ :: _, [] => Gt
        | (k, ((x, n), o)) :: fs, (l, ((y, m), p)) :: gs =>
            then_cmp (cmp k l) (then_cmp (shape_cmp x y) (then_cmp (cmp n m) (then_cmp (bool_cmp o p) (go fs gs))))
        end) fs gs
  | SRecord (f, n) (v, m), SRecord (f', n') (v', m') =>
      then_cmp (shape_cmp f f') (then_cmp (cmp n n') (then_cmp (shape_cmp v v') (cmp m m')))
  | SUnion us, SUnion ws =>
      (fix go us ws := match us, ws with
        | [], [] => Eq
        | [], _ :: _ => Lt
        | _ :: _, [] => Gt
        | (x, n) :: us, (y, m) :: ws => then_cmp (shape_cmp x y) (then_cmp (cmp n m) (go us ws))
        end) us ws
  | _, _ => cmp (variant_index a) (variant_index b)
  end.

Definition counted_cmp (x y : Shape) : comparison := then_cmp (shape_cmp x.1 y.1) (cmp x.2 y.2).

(** [BTreeSet<Shape>]: [set_insert] is [assert!(set.insert(x))]. *)
Fixpoint set_insert {E} (x : Shape) (set : list Shape) : outcome E (list Shape) :=
  match set with
  | [] => Ret [x]
  | y :: rest =>
      match counted_cmp x y with
      | Lt => Ret (x :: y :: rest)
      | Eq => Panic
      | Gt => let? rest := set_insert x rest in Ret (y :: rest)
      end
  end.

(** [assert!(set.remove(x))]. *)
Fixpoint set_remove {E} (x : Shape) (set : list Shape) : outcome E (list Shape) :=
  match set with
  | [] => Panic
  | y :: rest => match counted_cmp x y with Eq => Ret rest | _ => let? rest := set_remove x rest in Ret (y :: rest) end
  end.

Section inference.
Context `{ShapeConfig}.

(** ** Constructors *)

Definition validate_value_counts (fields : BTreeMap.t (list Z) (Shape * bool)) (num_values : Z) : bool :=
  forallb (fun e : list Z * (Shape * bool) => if e.2.2 then e.2.1.2 <? num_values else e.2.1.2 =? num_values) fields.

Definition shape_new (variant : ShapeEnum) (num_values : Z) : outcome unit Shape :=
  rassert (negb (num_values =? 0) || match variant with SNever | SUnknown => true | _ => false end) ;?
  rassert match variant with SObject fields => validate_value_counts fields num_values | _ => true end ;?
  Ret (variant, num_values).

Definition shape_empty : Shape := (SNever, 0).
Definition shape_is_empty (self : Shape) : bool := self.2 =? 0.

Definition object_new (fields : BTreeMap.t (list Z) (Shape * bool)) : outcome unit ShapeEnum :=
  rassert (length fields <=? MAX_SHAPE_FIELDS)%nat ;?
  rassert (forallb (fun e : list Z * (Shape * bool) => negb (shape_is_empty e.2.1)) fields) ;?
  Ret (SObject fields).

Definition record_new (field value : Shape) : outcome unit ShapeEnum :=
  rassert (is_subtype field.1 SFieldName) ;?
  rassert (field.2 =? value.2) ;?
  Ret (SRecord field value).

(** ** The functions that call each other *)

Record Ops := MkOps {
  op_merge : Shape -> Shape -> outcome unit Shape;
  op_push : list Shape -> Shape -> outcome unit (list Shape);
  op_add : list Shape -> Shape -> outcome unit (list Shape);
  op_contract : list Shape -> nat -> outcome unit (list Shape);
  op_remove : Shape -> ConvexValue -> outcome unit Shape;
}.

(** [UnionBuilder::build]: the variants must be disjoint and plain. *)
Fixpoint check_disjoint (shapes : list Shape) : bool :=
  match shapes with
  | [] => true
  | t :: rest =>
      forallb (fun u : Shape => negb (may_overlap t.1 u.1)) rest &&
      match t.1 with SUnion _ | SNever | SUnknown => false | _ => true end &&
      check_disjoint rest
  end.

Definition total_values (shapes : list Shape) : Z := foldr (fun s n => s.2 + n) 0 shapes.

Definition build (variants : list Shape) : outcome unit Shape :=
  match variants with
  | [] => Ret shape_empty
  | [u] => Ret u
  | _ =>
      rassert (check_disjoint variants) ;?
      rassert (length variants <=? MAX_UNION_LENGTH)%nat ;?
      shape_new (SUnion variants) (total_values variants)
  end.

Section ops.
Context (o : Ops).

(** *** [merge_if_subtype] *)

(** The fields of an object merged with those of another, and the others. *)
Definition merge_fields (object other_object : BTreeMap.t (list Z) (Shape * bool)) : outcome unit (BTreeMap.t (list Z) (Shape * bool)) :=
  let? fields := foldM (fun fields (e : list Z * (Shape * bool)) =>
    let? other_field := ok_or (BTreeMap.get e.1 other_object) tt in
    ensure (negb (e.2.2 && negb other_field.2)) tt ;?
    let? value_shape := op_merge o e.2.1 other_field.1 in
    Ret (BTreeMap.insert e.1 (value_shape, other_field.2) fields)) [] object in
  foldM (fun fields (e : list Z * (Shape * bool)) =>
    match BTreeMap.get e.1 object with
    | Some _ => Ret fields
    | None => ensure e.2.2 tt ;? Ret (BTreeMap.insert e.1 e.2 fields)
    end) fields other_object.

(** The fields and values of an object merged into those of a record. *)
Definition merge_record (object : BTreeMap.t (list Z) (Shape * bool)) (record : Shape * Shape) : outcome unit (Shape * Shape) :=
  foldM (fun (fv : Shape * Shape) (e : list Z * (Shape * bool)) =>
    let? field_type := shape_new (string_shape_of e.1) e.2.1.2 in
    let? field := op_merge o field_type fv.1 in
    let? value := op_merge o e.2.1 fv.2 in
    Ret (field, value)) record object.

(** The first variant that the shape can be merged into. *)
Fixpoint merge_first (self : Shape) (variants : list Shape) : outcome unit (Shape * Shape) :=
  match variants with
  | [] => Err tt
  | union_type :: rest =>
      match op_merge o self union_type with
      | Ret merged_type => Ret (union_type, merged_type)
      | Err _ => merge_first self rest
      | Panic => Panic
      end
  end.

Definition merge_if_subtype (self other : Shape) : outcome unit Shape :=
  let new variant := shape_new variant (self.2 + other.2) in
  match self.1, other.1 with
  | SNever, other_variant => new other_variant
  | SNull, SNull => new SNull
  | SInt64, SInt64 => new SInt64
  | SBoolean, SBoolean => new SBoolean
  | SBytes, SBytes => new SBytes
  | SStringLiteral s, SStringLiteral other_s => ensure (bool_decide (s = other_s)) tt ;? new (SStringLiteral s)
  | SStringLiteral s, SId table_number =>
      match decode s with Ret id => ensure (table id =? table_number) tt ;? new (SId table_number) | _ => Err tt end
  | SStringLiteral s, SFieldName => ensure (is_valid_field_name s) tt ;? new SFieldName
  | SStringLiteral _, SString => new SString
  | SId table, SId other_table => ensure (table =? other_table) tt ;? new (SId table)
  | SId _, SFieldName => new SFieldName
  | SId _, SString => new SString
  | SFieldName, SFieldName => new SFieldName
  | SFieldName, SString => new SString
  | SString, SString => new SString
  | SNegativeInf, SNegativeInf => new SNegativeInf
  | SPositiveInf, SPositiveInf => new SPositiveInf
  | SNegativeZero, SNegativeZero => new SNegativeZero
  | SNaN, SNaN => new SNaN
  | SNormalFloat64, SNormalFloat64 => new SNormalFloat64
  | (SNegativeInf | SPositiveInf | SNegativeZero | SNaN | SNormalFloat64 | SFloat64), SFloat64 => new SFloat64
  | SArray element, SArray other_element => let? element := op_merge o element other_element in new (SArray element)
  | SObject object, SObject other_object =>
      let? fields := merge_fields object other_object in
      let? variant := object_new fields in new variant
  | SObject object, SRecord field value =>
      let? (field, value) := merge_record object (field, value) in
      let? variant := record_new field value in new variant
  | SRecord field value, SRecord other_field other_value =>
      let? field := op_merge o field other_field in
      let? value := op_merge o value other_value in
      let? variant := record_new field value in new variant
  | SUnion union, _ => foldM (fun accumulated union_type => op_merge o union_type accumulated) other union
  | _, SUnion union =>
      let? (union_type, merged_type) := merge_first self union in
      let? builder := set_remove union_type union in
      let? builder := op_push o builder merged_type in
      build builder
  | _, SUnknown => new SUnknown
  | _, _ => Err tt
  end.

(** *** [UnionBuilder::push] *)

(** Step 2: the new shape is merged into the first variant that is a supertype. *)
Definition push_merge (variants : list Shape) (new_shape : Shape) : outcome unit (list Shape * bool) :=
  foldM (fun (st : list Shape * bool) existing_shape =>
    if st.2 then
      rassert (negb (is_subtype new_shape.1 existing_shape.1)) ;?
      let? no_subtypes := set_insert existing_shape st.1 in Ret (no_subtypes, true)
    else
      match op_merge o new_shape existing_shape with
      | Ret merged_shape => let? no_subtypes := set_insert merged_shape st.1 in Ret (no_subtypes, true)
      | Err _ => let? no_subtypes := set_insert existing_shape st.1 in Ret (no_subtypes, false)
      | Panic => Panic
      end) ([], false) variants.

(** [add_new_shape] without its assertion is the loop [op_add]. *)
Definition add_new_shape (shapes : list Shape) (new_shape : Shape) : outcome unit (list Shape) :=
  rassert (negb (existsb (fun t : Shape => is_subtype new_shape.1 t.1) shapes)) ;?
  op_add o shapes new_shape.

Definition push (variants : list Shape) (new_shape : Shape) : outcome unit (list Shape) :=
  if shape_is_empty new_shape then Ret variants
  else match new_shape.1 with
  | SUnion new_shapes => foldM (op_push o) variants new_shapes
  | _ =>
      match variants with
      | [] => Ret [new_shape]
      | _ =>
          let? (no_subtypes, found_subtype) := push_merge variants new_shape in
          if found_subtype : bool then Ret no_subtypes
          else
            let? disjoint := add_new_shape no_subtypes new_shape in
            op_contract o disjoint MAX_UNION_LENGTH
      end
  end.

(** One round of the loop: subtypes of the new shape are merged into it, and the
    shapes that overlap it are contracted with it before the next round. *)
Definition add_round (shapes : list Shape) (new_shape : Shape) : outcome unit (list Shape) :=
  let? (no_subtypes, new_shape) :=
    foldM (fun (st : list Shape * Shape) existing_shape =>
      match op_merge o existing_shape st.2 with
      | Ret merged_shape => Ret (st.1, merged_shape)
      | Err _ => let? no_subtypes := set_insert existing_shape st.1 in Ret (no_subtypes, st.2)
      | Panic => Panic
      end) ([], new_shape) shapes in
  let? (nonoverlapping, overlapping) :=
    foldM (fun (st : list Shape * list Shape) existing_shape =>
      if may_overlap existing_shape.1 new_shape.1
      then let? overlapping := set_insert existing_shape st.2 in Ret (st.1, overlapping)
      else let? nonoverlapping := set_insert existing_shape st.1 in Ret (nonoverlapping, st.2)) ([], []) no_subtypes in
  match overlapping with
  | [] => set_insert new_shape nonoverlapping
  | _ =>
      let? overlapping := set_insert new_shape overlapping in
      let? contracted := op_contract o overlapping 1 in
      let? new_shape := expect (head contracted) in
      op_add o nonoverlapping new_shape
  end.

(** *** Supertypes *)

(** A candidate is a shape and the indexes of the shapes it replaces. *)
Notation candidate := (outcome unit (option (Shape * list nat))) (only parsing).

Definition indexes_where (p : ShapeEnum -> bool) (types : list Shape) : list nat :=
  map fst (bfilter (fun e : nat * Shape => p e.2.1) (imap pair types)).
Definition values_at (types : list Shape) (indexes : list nat) : Z :=
  total_values (flat_map (fun i => match types !! i with Some t => [t] | None => [] end) indexes).

Definition leaf_candidate (variant : ShapeEnum) (p : ShapeEnum -> bool) (types : list Shape) : candidate :=
  let indexes := indexes_where p types in
  if (length indexes <? 2)%nat then Ret None
  else let? new_type := shape_new variant (values_at types indexes) in Ret (Some (new_type, indexes)).

Definition is_float (s : ShapeEnum) : bool :=
  match s with SNegativeInf | SPositiveInf | SNegativeZero | SNaN | SNormalFloat64 | SFloat64 => true | _ => false end.
Definition float64_candidate : list Shape -> candidate := leaf_candidate SFloat64 is_float.

Definition is_field_name_shape (s : ShapeEnum) : bool :=
  match s with SStringLiteral s => is_valid_field_name s | SId _ | SFieldName => true | _ => false end.
Definition field_name_candidate : list Shape -> candidate := leaf_candidate SFieldName is_field_name_shape.

Definition is_string_shape (s : ShapeEnum) : bool :=
  match s with SStringLiteral _ | SId _ | SFieldName | SString => true | _ => false end.
Definition string_candidate : list Shape -> candidate := leaf_candidate SString is_string_shape.

(** The table of an id shape or of a literal that is an id. *)
Definition id_table (s : ShapeEnum) : option Z :=
  match s with
  | SStringLiteral s => match decode s with Ret id => Some (table id) | _ => None end
  | SId table => Some table
  | _ => None
  end.
Definition id_tables (types : list Shape) : list Z :=
  map fst (fold_left (fun m (t : Shape) => match id_table t.1 with Some n => BTreeMap.insert n tt m | None => m end) types ([] : BTreeMap.t Z unit)).
Definition id_candidates (types : list Shape) : list candidate :=
  map (fun n => leaf_candidate (SId n) (fun s => bool_decide (id_table s = Some n)) types) (id_tables types).

Definition is_array_shape (s : ShapeEnum) : bool := match s with SArray _ => true | _ => false end.
Definition is_object_shape (s : ShapeEnum) : bool := match s with SObject _ => true | _ => false end.
Definition is_record_shape (s : ShapeEnum) : bool := match s with SRecord _ _ => true | _ => false end.

Definition array_candidate (types : list Shape) : candidate :=
  let? element := foldM (fun element (t : Shape) => match t.1 with SArray e => op_push o element e | _ => Ret element end) [] types in
  let indexes := indexes_where is_array_shape types in
  if (length indexes <? 2)%nat then Ret None
  else
    let? element := build element in
    let? new_type := shape_new (SArray element) (values_at types indexes) in Ret (Some (new_type, indexes)).

(** The builders of the fields, the optional fields and the number of values of
    the objects so far, with one more object. *)
Definition add_object (st : BTreeMap.t (list Z) (list Shape) * BTreeMap.t (list Z) unit * Z) (t : Shape)
    : outcome unit (BTreeMap.t (list Z) (list Shape) * BTreeMap.t (list Z) unit * Z) :=
  match t.1 with
  | SObject fields =>
      let num_values := st.2 in
      let? (field_builders, optional_fields) :=
        foldM (fun (fo : BTreeMap.t (list Z) (list Shape) * BTreeMap.t (list Z) unit) (e : list Z * (Shape * bool)) =>
          let optional_fields := if e.2.2 then BTreeMap.insert e.1 tt fo.2 else fo.2 in
          let optional_fields :=
            match BTreeMap.get e.1 fo.1 with
            | None => if 0 <? num_values then BTreeMap.insert e.1 tt optional_fields else optional_fields
            | Some _ => optional_fields
            end in
          let? builder := op_push o (default [] (BTreeMap.get e.1 fo.1)) e.2.1 in
          Ret (BTreeMap.insert e.1 builder fo.1, optional_fields)) st.1 fields in
      let optional_fields :=
        fold_left (fun optional_fields (e : list Z * list Shape) =>
          match BTreeMap.get e.1 fields with Some _ => optional_fields | None => BTreeMap.insert e.1 tt optional_fields end)
          field_builders optional_fields in
      Ret (field_builders, optional_fields, num_values + t.2)
  | _ => Ret st
  end.

Definition object_candidate (types : list Shape) : candidate :=
  let indexes := indexes_where is_object_shape types in
  if (length indexes <? 2)%nat then Ret None
  else
    let? (field_builders, optional_fields, num_values) := foldM add_object ([], [], 0) types in
    if (MAX_SHAPE_FIELDS <? length field_builders)%nat then Ret None
    else
      let? fields := foldM (fun fields (e : list Z * list Shape) =>
        let? value_shape := build e.2 in
        let optional := match BTreeMap.get e.1 optional_fields with Some _ => true | None => false end in
        Ret (BTreeMap.insert e.1 (value_shape, optional) fields)) [] field_builders in
      let? variant := object_new fields in
      let? new_type := shape_new variant num_values in Ret (Some (new_type, indexes)).

(** The unions of the fields and of the values, with one more record or object. *)
Definition add_record (fv : list Shape * list Shape) (t : Shape) : outcome unit (list Shape * list Shape) :=
  match t.1 with
  | SRecord field value =>
      let? field_union := op_push o fv.1 field in
      let? value_union := op_push o fv.2 value in
      Ret (field_union, value_union)
  | SObject fields =>
      foldM (fun (fv : list Shape * list Shape) (e : list Z * (Shape * bool)) =>
        let? field_name_type := shape_new (string_shape_of e.1) e.2.1.2 in
        let? field_union := op_push o fv.1 field_name_type in
        let? value_union := op_push o fv.2 e.2.1 in
        Ret (field_union, value_union)) fv fields
  | _ => Ret fv
  end.

Definition record_candidate (types : list Shape) : candidate :=
  let? (field_union, value_union) := foldM add_record ([], []) types in
  let indexes := indexes_where (fun s => is_record_shape s || is_object_shape s) types in
  if (length indexes <? 2)%nat then Ret None
  else
    let? field := build field_union in
    let? value := build value_union in
    let? variant := record_new field value in
    let? new_type := shape_new variant (values_at types indexes) in Ret (Some (new_type, indexes)).

Definition unknown_candidate (types : list Shape) : candidate :=
  let? unknown_type := shape_new SUnknown (total_values types) in Ret (Some (unknown_type, seq 0 (length types))).

Definition supertype_candidates (types : list Shape) : list candidate :=
  let any_record := existsb (fun t : Shape => is_record_shape t.1) types in
  [array_candidate types] ++
  (if any_record then [record_candidate types] else []) ++
  id_candidates types ++
  [field_name_candidate types; string_candidate types; float64_candidate types; object_candidate types] ++
  (if any_record then [] else [record_candidate types]) ++
  [unknown_candidate types].

(** *** [contract] *)

Definition without_indexes (types : list Shape) (indexes : list nat) : list Shape :=
  map snd (bfilter (fun e : nat * Shape => negb (bool_decide (e.1 ∈ indexes))) (imap pair types)).

(** The first candidate that makes the set smaller. *)
Fixpoint first_smaller (shapes : list Shape) (candidates : list candidate) : outcome unit (list Shape) :=
  match candidates with
  | [] => Panic
  | c :: candidates =>
      let? c := c in
      match c with
      | None => first_smaller shapes candidates
      | Some (new_shape, merged_indexes) =>
          let? contracted := add_new_shape (without_indexes shapes merged_indexes) new_shape in
          if (length contracted <? length shapes)%nat then Ret contracted else first_smaller shapes candidates
      end
  end.

Definition contract (shapes : list Shape) (goal : nat) : outcome unit (list Shape) :=
  rassert (1 <=? goal)%nat ;?
  if (length shapes <=? goal)%nat then Ret shapes
  else
    rassert (2 <=? length shapes)%nat ;?
    let? shapes := first_smaller shapes (supertype_candidates shapes) in
    op_contract o shapes goal.

(** *** [_remove] *)

(** A shape with one value less. *)
Definition one_less (self : Shape) (new_variant : ShapeEnum) : outcome unit Shape :=
  shape_new (if self.2 =? 1 then SNever else new_variant) (self.2 - 1).

(** The first variant that the value can be removed from. *)
Fixpoint remove_first (value : ConvexValue) (variants : list Shape) : outcome unit (Shape * Shape) :=
  match variants with
  | [] => Err tt
  | shape :: rest =>
      match op_remove o shape value with
      | Ret removed => Ret (shape, removed)
      | Err _ => remove_first value rest
      | Panic => Panic
      end
  end.

Definition remove_from_union (union : list Shape) (value : ConvexValue) : outcome unit Shape :=
  let? (existing_shape, removed) := remove_first value union in
  let? builder := set_remove existing_shape union in
  let? builder := op_push o builder removed in
  build builder.

(** The fields of the object shape without the fields of the object. *)
Definition remove_fields (object_shape : BTreeMap.t (list Z) (Shape * bool)) (object : BTreeMap.t (list Z) ConvexValue) (new_num_values : Z)
    : outcome unit (BTreeMap.t (list Z) (Shape * bool)) :=
  let? fields := foldM (fun fields (e : list Z * ConvexValue) =>
    ensure (is_valid_identifier e.1) tt ;?
    let? field := ok_or (BTreeMap.get e.1 object_shape) tt in
    let? new_value_shape := op_remove o field.1 e.2 in
    Ret (if shape_is_empty new_value_shape then fields else BTreeMap.insert e.1 (new_value_shape, field.2) fields)) [] object in
  foldM (fun fields (e : list Z * (Shape * bool)) =>
    match BTreeMap.get e.1 object with
    | Some _ => Ret fields
    | None =>
        ensure e.2.2 tt ;?
        Ret (BTreeMap.insert e.1 (e.2.1, if e.2.1.2 =? new_num_values then false else e.2.2) fields)
    end) fields object_shape.

Definition _remove_object (self : Shape) (object : BTreeMap.t (list Z) ConvexValue) : outcome unit Shape :=
  if self.2 =? 0 then Err tt
  else match self.1 with
  | SObject object_shape =>
      let? fields := remove_fields object_shape object (self.2 - 1) in
      let? new_variant := object_new fields in one_less self new_variant
  | SRecord field value =>
      let? (field_shape, value_shape) :=
        foldM (fun (fv : Shape * Shape) (e : list Z * ConvexValue) =>
          let? field_shape := op_remove o fv.1 (String e.1) in
          let? value_shape := op_remove o fv.2 e.2 in
          Ret (field_shape, value_shape)) (field, value) object in
      let? new_variant := record_new field_shape value_shape in one_less self new_variant
  | SUnion union => remove_from_union union (Object object)
  | SUnknown => one_less self SUnknown
  | _ => Err tt
  end.

Definition _remove (self : Shape) (value : ConvexValue) : outcome unit Shape :=
  if self.2 =? 0 then Err tt
  else match value, self.1 with
  | Object object, _ => _remove_object self object
  | Null, SNull => one_less self SNull
  | Int64 _, SInt64 => one_less self SInt64
  | Float64 _, SFloat64 => one_less self SFloat64
  | Float64 f, (SNegativeInf | SPositiveInf | SNegativeZero | SNaN | SNormalFloat64) =>
      ensure (shape_eqb (float64_shape_of f) self.1) tt ;? one_less self self.1
  | Boolean _, SBoolean => one_less self SBoolean
  | String s1, SStringLiteral s2 => ensure (bool_decide (s1 = s2)) tt ;? one_less self (SStringLiteral s2)
  | String s, SId table_number =>
      match decode s with Ret id => ensure (table id =? table_number) tt ;? one_less self (SId table_number) | _ => Err tt end
  | String s, SFieldName => ensure (is_valid_field_name s) tt ;? one_less self SFieldName
  | String _, SString => one_less self SString
  | Bytes _, SBytes => one_less self SBytes
  | Array array, SArray element =>
      let? element_shape := foldM (op_remove o) element array in one_less self (SArray element_shape)
  | value, SUnion union => remove_from_union union value
  | _, SUnknown => one_less self SUnknown
  | _, _ => Err tt
  end.
End ops.

Definition no_ops : Ops :=
  MkOps (fun _ _ => Panic) (fun _ _ => Panic) (fun _ _ => Panic) (fun _ _ => Panic) (fun _ _ => Panic).

Fixpoint ops_of (fuel : nat) : Ops :=
  match fuel with
  | O => no_ops
  | S fuel =>
      let o := ops_of fuel in
      MkOps (merge_if_subtype o) (push o) (add_round o) (contract o) (_remove o)
  end.

(** ** Inserting and removing *)

Section public.
Context (fuel : nat).
Notation o := (ops_of fuel).

Fixpoint shape_of (value : ConvexValue) : outcome unit Shape :=
  let? variant :=
    match value with
    | Null => Ret SNull
    | Int64 _ => Ret SInt64
    | Float64 f => Ret (float64_shape_of f)
    | Boolean _ => Ret SBoolean
    | String s => Ret (string_shape_of s)
    | Bytes _ => Ret SBytes
    | Array array =>
        let? builder := (fix go builder array := match array with
          | [] => Ret builder
          | value :: array => let? shape := shape_of value in let? builder := push o builder shape in go builder array
          end) [] array in
        let? element := build builder in Ret (SArray element)
    | Object object =>
        if (length object <=? MAX_SHAPE_FIELDS)%nat && forallb (fun e => is_valid_identifier e.1) object then
          let? field_shapes := (fix go fields object := match object with
            | [] => Ret fields
            | (field_name, value) :: object =>
                let? value_shape := shape_of value in go (BTreeMap.insert field_name (value_shape, false) fields) object
            end) [] object in
          object_new field_shapes
        else
          let? (fields, values) := (fix go fv object := match object with
            | [] => Ret fv
            | (field, value) :: object =>
                let? field_shape := shape_new (string_shape_of field) 1 in
                let? fields := push o fv.1 field_shape in
                let? value_shape := shape_of value in
                let? values := push o fv.2 value_shape in
                go (fields, values) object
            end) ([], []) object in
          let? field := build fields in
          let? value := build values in
          record_new field value
    end in
  shape_new variant 1.

(** [insert] of an object and [insert_value]. *)
Definition shape_insert (self : Shape) (value : ConvexValue) : outcome unit Shape :=
  let? union_builder := match self.1 with SUnion union => Ret union | _ => push o [] self end in
  let? shape := shape_of value in
  let? union_builder := push o union_builder shape in
  build union_builder.

Definition shape_remove (self : Shape) (object : BTreeMap.t (list Z) ConvexValue) : outcome unit Shape := _remove_object o self object.
End public.
End inference.
