(* ===== verification/ShapeMultiset.v ===== *)
(** * ShapeMultiset: what a shape says about a multiset of values
      (src/crates/shape_inference/src)

    [Holds s vs]: the values [vs] are those that were put into the shape [s],
    with all its counts.  The lemmas here say what the relation implies, and
    which changes of shapes no comparison of shapes can see ([sim]). *)

From S2P Require Import Prelude Ord BTreeMap Identifier Value Sorting Base32 IdV6 Document Validator Shape ShapeInference.

Local Open Scope Z_scope.

(** ** Results for all sufficient fuel *)

Definition evals {E A} (f : nat -> outcome E A) (r : outcome E A) : Prop := exists n0, forall n, (n0 <= n)%nat -> f n = r.

Lemma evals_const {E A} (r : outcome E A) : evals (fun _ => r) r.
Proof. by exists 0%nat. Qed.

Lemma evals_eq {E A} (f : nat -> outcome E A) r : (forall n, f n = r) -> evals f r.
Proof. intros Hf. by exists 0%nat. Qed.

Lemma evals_app {E E' A B} (f : nat -> outcome E A) r (g : nat -> outcome E A -> outcome E' B) r' :
  evals f r -> evals (fun n => g n r) r' -> evals (fun n => g n (f n)) r'.
Proof. intros [n Hn] [m Hm]. exists (n `max` m)%nat. intros k Hk. rewrite Hn by lia. apply Hm. lia. Qed.

Lemma evals_bind {E A B} (f : nat -> outcome E A) a (k : nat -> A -> outcome E B) r :
  evals f (Ret a) -> evals (fun n => k n a) r -> evals (fun n => obind (f n) (k n)) r.
Proof. intros Hf Hk. exact (evals_app f (Ret a) (fun n x => obind x (k n)) r Hf Hk). Qed.

Lemma evals_bind_err {A B} (f : nat -> outcome unit A) (k : nat -> A -> outcome unit B) :
  evals f (Err tt) -> evals (fun n => obind (f n) (k n)) (Err tt).
Proof. intros Hf. exact (evals_app f (Err tt) (fun n x => obind x (k n)) (Err tt) Hf (evals_const _)). Qed.

Lemma evals_match_ret {A B} (f : nat -> outcome unit A) a (k : nat -> A -> outcome unit B) (e : nat -> outcome unit B) r :
  evals f (Ret a) -> evals (fun n => k n a) r -> evals (fun n => match f n with Ret a => k n a | Err _ => e n | Panic => Panic end) r.
Proof. intros Hf Hk. exact (evals_app f (Ret a) (fun n x => match x with Ret a => k n a | Err _ => e n | Panic => Panic end) r Hf Hk). Qed.

Lemma evals_match_err {A B} (f : nat -> outcome unit A) (k : nat -> A -> outcome unit B) (e : nat -> outcome unit B) r :
  evals f (Err tt) -> evals e r -> evals (fun n => match f n with Ret a => k n a | Err _ => e n | Panic => Panic end) r.
Proof. intros Hf Hk. exact (evals_app f (Err tt) (fun n x => match x with Ret a => k n a | Err _ => e n | Panic => Panic end) r Hf Hk). Qed.

Lemma evals_S {E A} (f : nat -> outcome E A) r : evals (fun n => f (S n)) r -> evals f r.
Proof. intros [n Hn]. exists (S n). intros [|m] Hm; [lia|]. apply Hn. lia. Qed.

Lemma evals_fold {E St A} (F : nat -> St -> A -> outcome E St) s x xs s' r :
  evals (fun n => F n s x) (Ret s') -> evals (fun n => foldM (F n) s' xs) r -> evals (fun n => foldM (F n) s (x :: xs)) r.
Proof. intros H1 H2. exact (evals_bind (fun n => F n s x) s' (fun n s' => foldM (F n) s' xs) r H1 H2). Qed.

(** ** Order and sets *)

Lemma then_cmp_eq c d : then_cmp c d = Eq <-> c = Eq /\ d = Eq.
Proof. destruct c; cbn; naive_solver. Qed.

Lemma bool_cmp_eq a b : bool_cmp a b = Eq <-> a = b.
Proof. by destruct a, b. Qed.

Lemma shape_cmp_eq a : forall b, shape_cmp a b = Eq <-> a = b.
Proof.
  assert (Hleaf : forall a b : ShapeEnum, cmp (variant_index a) (variant_index b) = Eq -> variant_index a = variant_index b) by (intros ? ? ?%cmp_eq_iff; done).
  induction a as [a Ha|[e n] IH|fs IH|[f n] [v m] IHf IHv|us IH] using ShapeEnum_ind'; intros b.
  - split; [|intros <-; destruct a; try done; cbn [shape_cmp]; apply cmp_refl].
    destruct a; try done; destruct b; cbn [shape_cmp]; try (intros H; by apply Hleaf in H); by intros ->%cmp_eq_iff.
  - destruct b as [| | | | | | | | | | | | | | |[e' n']| | | |]; cbn [shape_cmp]; try (by split; [intros H; apply Hleaf in H|]).
    rewrite then_cmp_eq, IH, cmp_eq_iff. cbn [fst]. naive_solver.
  - destruct b as [| | | | | | | | | | | | | | | |gs| | |]; cbn [shape_cmp]; try (by split; [intros H; apply Hleaf in H|]).
    transitivity (fs = gs); [|naive_solver]. revert gs.
    induction IH as [|[k [[x n] o]] fs Hx Hfs IH]; intros [|[l [[y m] p]] gs]; try done.
    rewrite !then_cmp_eq, IH, !cmp_eq_iff, bool_cmp_eq. cbn in Hx. rewrite Hx. naive_solver.
  - destruct b as [| | | | | | | | | | | | | | | | |[f' n'] [v' m']| |]; cbn [shape_cmp]; try (by split; [intros H; apply Hleaf in H|]).
    rewrite !then_cmp_eq, IHf, IHv, !cmp_eq_iff. cbn [fst]. naive_solver.
  - destruct b as [| | | | | | | | | | | | | | | | | |ws|]; cbn [shape_cmp]; try (by split; [intros H; apply Hleaf in H|]).
    transitivity (us = ws); [|naive_solver]. revert ws.
    induction IH as [|[x n] us Hx Hus IH]; intros [|[y m] ws]; try done. rewrite !then_cmp_eq, IH, cmp_eq_iff. cbn in Hx. rewrite Hx. naive_solver.
Qed.

Lemma counted_cmp_eq (x y : Shape) : counted_cmp x y = Eq <-> x = y.
Proof. unfold counted_cmp. rewrite then_cmp_eq, shape_cmp_eq, cmp_eq_iff. destruct x, y. cbn. naive_solver. Qed.

Lemma set_insert_ok {E} (x : Shape) l : x ∉ l -> exists l', set_insert (E := E) x l = Ret l' /\ l' ≡ₚ x :: l.
Proof.
  induction l as [|y l IH]; intros Hx; cbn [set_insert]; [by eexists|]. apply not_elem_of_cons in Hx as [Hxy Hx].
  destruct (counted_cmp x y) eqn:Hc; [by apply counted_cmp_eq in Hc|by eexists|].
  destruct (IH Hx) as (l' & -> & Hl'). cbn [obind]. eexists. split; [done|]. rewrite Hl'. apply Permutation_swap.
Qed.

Lemma set_remove_ok {E} (x : Shape) l : x ∈ l -> exists l', set_remove (E := E) x l = Ret l' /\ l ≡ₚ x :: l'.
Proof.
  induction l as [|y l IH]; intros Hx; [by apply elem_of_nil in Hx|]. cbn [set_remove].
  destruct (decide (counted_cmp x y = Eq)) as [Hc|Hc]; [rewrite Hc; apply counted_cmp_eq in Hc as ->; by exists l|].
  assert (Hxy : x <> y) by (intros ->; by apply Hc, counted_cmp_eq). apply elem_of_cons in Hx as [->|Hx]; [done|].
  destruct (IH Hx) as (l' & Hl & Hl'). exists (y :: l'). split; [destruct (counted_cmp x y); [done|by rewrite Hl..]|]. rewrite Hl'. apply Permutation_swap.
Qed.

(** ** The relation *)

Section multiset.
Context `{ShapeConfig}.

(** The values of a field, and the plain shapes that a union is made of. *)
Definition column (k : list Z) (objects : list (list (list Z * ConvexValue))) : list ConvexValue :=
  flat_map (fun o => match BTreeMap.get k o with Some v => [v] | None => [] end) objects.

Definition plain (s : ShapeEnum) : Prop := match s with SUnion _ => False | _ => True end.
Definition apart (a b : ShapeEnum) : Prop := is_subtype a b = false /\ is_subtype b a = false /\ may_overlap a b = false.
Fixpoint all_apart (us : list Shape) : Prop :=
  match us with [] => True | u :: us => Forall (fun w : Shape => apart u.1 w.1) us /\ all_apart us end.

Fixpoint holds (s : ShapeEnum) (vs : list ConvexValue) {struct s} : Prop :=
  match s with
  | SNever => vs = []
  | SUnknown => True
  | SArray e =>
      vs <> [] /\ exists arrays, vs ≡ₚ map Array arrays /\ e.2 = zlen (concat arrays) /\ holds e.1 (concat arrays)
  | SObject fields =>
      vs <> [] /\ BTreeMap.wf fields /\ (length fields <= MAX_SHAPE_FIELDS)%nat /\
      exists objects, vs ≡ₚ map Object objects /\ Forall (fun o => NoDup (map fst o)) objects /\
        Forall (fun o => forall e, e ∈ o -> is_Some (BTreeMap.get e.1 fields)) objects /\
        (fix go (l : list (list Z * (Shape * bool))) : Prop :=
           match l with
           | [] => True
           | e :: l =>
               let col := column e.1 objects in
               (is_valid_identifier e.1 = true /\ col <> [] /\ e.2.2 = negb (length col =? length objects)%nat /\ e.2.1.2 = zlen col /\ holds e.2.1.1 col) /\ go l
           end) fields
  | SRecord f v =>
      vs <> [] /\ is_subtype f.1 SFieldName = true /\
      exists objects, vs ≡ₚ map Object objects /\ f.2 = zlen (concat objects) /\ v.2 = zlen (concat objects) /\
        holds f.1 (map (fun e => String e.1) (concat objects)) /\ holds v.1 (map snd (concat objects))
  | SUnion us =>
      (2 <= length us <= MAX_UNION_LENGTH)%nat /\ all_apart us /\ Forall (fun u : Shape => plain u.1) us /\
      exists parts, vs ≡ₚ concat parts /\
        (fix go (us : list Shape) (parts : list (list ConvexValue)) : Prop :=
           match us, parts with
           | [], [] => True
           | u :: us, p :: parts => (p <> [] /\ u.2 = zlen p /\ holds u.1 p) /\ go us parts
           | _, _ => False
           end) us parts
  | s => vs <> [] /\ Forall (fun v => contains s v = true) vs
  end.

Definition texts (vs : list ConvexValue) : Prop := Forall (fun v => byte_texts v = true) vs.
Definition Holds (s : Shape) (vs : list ConvexValue) : Prop := s.2 = zlen vs /\ holds s.1 vs /\ texts vs.

(** What a builder stands for. *)
Definition Builds (us : list Shape) (vs : list ConvexValue) : Prop :=
  all_apart us /\ Forall (fun u : Shape => plain u.1) us /\
  exists parts, vs ≡ₚ concat parts /\ Forall2 (fun u p => p <> [] /\ Holds u p) us parts.

Definition field_holds (objects : list (list (list Z * ConvexValue))) (e : list Z * (Shape * bool)) : Prop :=
  let col := column e.1 objects in
  is_valid_identifier e.1 = true /\ col <> [] /\ e.2.2 = negb (length col =? length objects)%nat /\ e.2.1.2 = zlen col /\ holds e.2.1.1 col.

Lemma holds_object fields vs : holds (SObject fields) vs <->
  vs <> [] /\ BTreeMap.wf fields /\ (length fields <= MAX_SHAPE_FIELDS)%nat /\
  exists objects, vs ≡ₚ map Object objects /\ Forall (fun o => NoDup (map fst o)) objects /\
    Forall (fun o => forall e, e ∈ o -> is_Some (BTreeMap.get e.1 fields)) objects /\ Forall (field_holds objects) fields.
Proof.
  cbn [holds]. assert (Hgo : forall objects l, (fix go (l : list (list Z * (Shape * bool))) : Prop :=
     match l with [] => True | e :: l => let col := column e.1 objects in
       (is_valid_identifier e.1 = true /\ col <> [] /\ e.2.2 = negb (length col =? length objects)%nat /\ e.2.1.2 = zlen col /\ holds e.2.1.1 col) /\ go l end) l
     <-> Forall (field_holds objects) l).
  { intros objects l. induction l as [|e l IH]; [split; [constructor|done]|]. split.
    - intros [He Hl]. constructor; [exact He|by apply IH].
    - intros Hf. inversion Hf; subst. split; [done|by apply IH]. }
  split; intros (H1 & H2 & H3 & objects & H4 & H5 & H6 & H7); split_and!; try done; exists objects; split_and!; try done; by apply (Hgo objects).
Qed.

Lemma holds_union us vs : holds (SUnion us) vs <->
  (2 <= length us <= MAX_UNION_LENGTH)%nat /\ all_apart us /\ Forall (fun u : Shape => plain u.1) us /\
  exists parts, vs ≡ₚ concat parts /\ Forall2 (fun (u : Shape) p => p <> [] /\ u.2 = zlen p /\ holds u.1 p) us parts.
Proof.
  cbn [holds]. set (go := fix go (us : list Shape) (parts : list (list ConvexValue)) : Prop := _).
  assert (Hgo : forall us parts, go us parts <-> Forall2 (fun (u : Shape) p => p <> [] /\ u.2 = zlen p /\ holds u.1 p) us parts).
  { intros ws. induction ws as [|u ws IH]; intros [|p parts]; cbn [go]; (split; intros Hf); try done; try (by inversion Hf).
    - by destruct Hf as [? ?%IH]; constructor.
    - inversion Hf; subst. split; [done|by apply IH]. }
  split; intros (H1 & H2 & H3 & parts & H4 & H5); split_and!; try lia; try done; exists parts; (split; [done|]); by apply Hgo.
Qed.

Lemma holds_perm s vs ws : vs ≡ₚ ws -> holds s vs -> holds s ws.
Proof.
  intros Hp. assert (Hne : vs <> [] -> ws <> []) by (intros Hv ->; by apply Permutation_nil_r in Hp).
  destruct s; cbn [holds]; try (by intros [H0 H1]; split; [auto|]; rewrite Forall_forall in *; intros x Hx; apply H1; by rewrite Hp); try done.
  - intros ->. by apply Permutation_nil_l in Hp.
  - intros [Hv (arrays & Ha & Hr)]. split; [auto|]. exists arrays. split; [by etrans; [symmetry; exact Hp|]|done].
  - intros (Hv & Hw & Hl & objects & Ha & Hr). split_and!; [auto|done|done|]. exists objects. split; [by etrans; [symmetry; exact Hp|]|done].
  - intros (Hv & Hs & objects & Ha & Hr). split_and!; [auto|done|]. exists objects. split; [by etrans; [symmetry; exact Hp|]|done].
  - intros (Hl & Hap & Hpl & parts & Ha & Hr). split_and!; [apply Hl..|done|done|]. exists parts. split; [by etrans; [symmetry; exact Hp|]|done].
Qed.

(** *** Columns *)

Lemma column_app k a b : column k (a ++ b) = column k a ++ column k b.
Proof. apply flat_map_app. Qed.

Lemma column_cons k o l : column k (o :: l) = match BTreeMap.get k o with Some v => [v] | None => [] end ++ column k l.
Proof. done. Qed.

Lemma elem_of_column k objects v : v ∈ column k objects <-> exists o, o ∈ objects /\ BTreeMap.get k o = Some v.
Proof.
  unfold column. rewrite list_elem_of_In, in_flat_map. split.
  - intros (o & Ho%list_elem_of_In & Hv%list_elem_of_In). exists o. split; [done|]. destruct (BTreeMap.get k o) as [w|]; [by apply list_elem_of_singleton in Hv as ->|by apply elem_of_nil in Hv].
  - intros (o & Ho%list_elem_of_In & Hv). exists o. split; [done|]. rewrite Hv. by left.
Qed.

#[global] Instance column_Permutation k : Proper ((≡ₚ) ==> (≡ₚ)) (column k).
Proof. intros a b Hab. unfold column. by apply Permutation_flat_map. Qed.

Lemma column_length k objects : (length (column k objects) <= length objects)%nat.
Proof. induction objects as [|o l IH]; [done|]. rewrite column_cons, length_app. destruct (BTreeMap.get k o); cbn; lia. Qed.

Lemma column_full k objects : length (column k objects) = length objects -> forall o, o ∈ objects -> is_Some (BTreeMap.get k o).
Proof.
  induction objects as [|o l IH]; intros Hl o' Ho'; [by apply elem_of_nil in Ho'|]. pose proof (column_length k l). rewrite column_cons, length_app in Hl.
  destruct (BTreeMap.get k o) as [v|] eqn:Hg; cbn in Hl; [|lia]. apply elem_of_cons in Ho' as [->|Ho']; [by eexists|apply IH; [lia|done]].
Qed.

Lemma get_of_elem {V} (m : list (list Z * V)) k v : NoDup (map fst m) -> (k, v) ∈ m -> BTreeMap.get k m = Some v.
Proof.
  induction m as [|[q w] m IH]; intros Hnd Hin; [by apply elem_of_nil in Hin|]. cbn [map fst] in Hnd. apply NoDup_cons in Hnd as [Hq Hnd]. cbn [BTreeMap.get].
  apply elem_of_cons in Hin as [Heq|Hin].
  - injection Heq as -> ->. by rewrite eqb_refl.
  - destruct (k ==? q) eqn:E; [|by apply IH]. apply eqb_eq in E as ->. destruct Hq. apply list_elem_of_fmap. by exists (q, v).
Qed.

(** *** Consequences *)

Lemma texts_columns objects k : texts (map Object objects) -> texts (column k objects).
Proof.
  unfold texts. rewrite !Forall_forall. intros Ht v (o & Ho & Hg%get_elem)%elem_of_column.
  apply (byte_texts_field o (k, v)); [|done]. apply Ht, list_elem_of_fmap. by exists o.
Qed.

Lemma texts_concat arrays : texts (map Array arrays) <-> texts (concat arrays).
Proof.
  unfold texts. induction arrays as [|a l IH]; [split; constructor|]. cbn [map concat]. rewrite Forall_cons, Forall_app, IH. cbn [byte_texts].
  rewrite forallb_elem, !Forall_forall. tauto.
Qed.

Lemma texts_entries objects : texts (map Object objects) <-> texts (map (fun e => String e.1) (concat objects)) /\ texts (map snd (concat objects)).
Proof.
  unfold texts. induction objects as [|o l IH]; [split; [split|]; constructor|]. cbn [map concat]. rewrite !map_app, !Forall_app, Forall_cons, IH, !Forall_map, !Forall_forall.
  cbn [byte_texts]. rewrite forallb_elem. setoid_rewrite andb_true_iff. naive_solver.
Qed.

Lemma holds_contains s : forall vs v, holds s vs -> v ∈ vs -> contains s v = true.
Proof.
  induction s as [s Hleaf|e IH|fields IH|f t IHf IHt|us IH] using ShapeEnum_ind'; intros vs v Hs Hv.
  - destruct s; try done; cbn [holds] in Hs; try (destruct Hs as [_ Hs]; rewrite Forall_forall in Hs; by apply Hs).
    + subst. by apply elem_of_nil in Hv.
    + by destruct v.
  - destruct Hs as (_ & arrays & Hp & _ & He). rewrite Hp in Hv. apply list_elem_of_fmap in Hv as (a & -> & Ha). cbn [contains]. apply forallb_elem.
    intros x Hx. apply (IH (concat arrays)); [done|]. apply list_elem_of_In, in_concat. exists a. by rewrite <- !list_elem_of_In.
  - apply holds_object in Hs as (_ & Hwf & _ & objects & Hp & Hnd & Hkeys & Hf). rewrite Hp in Hv. apply list_elem_of_fmap in Hv as (o & -> & Ho).
    rewrite Forall_forall in IH. rewrite Forall_forall in Hnd. rewrite Forall_forall in Hkeys. rewrite Forall_forall in Hf. apply contains_object. split.
    + intros e He. destruct (Hkeys o Ho e He) as [x Hx]. exists x. split; [done|]. pose proof (get_elem _ _ _ Hx) as Hin. destruct (Hf _ Hin) as (_ & _ & _ & _ & Hh).
      apply (IH _ Hin _ _ Hh). apply elem_of_column. exists o. split; [done|]. apply get_of_elem; [by apply Hnd|by destruct e].
    + intros x Hx Hopt. destruct (Hf x Hx) as (_ & _ & Ho' & _). rewrite Hopt in Ho'. symmetry in Ho'. apply negb_false_iff, Nat.eqb_eq in Ho'. by apply (column_full x.1 objects).
  - destruct Hs as (_ & _ & objects & Hp & _ & _ & Hf & Ht). rewrite Hp in Hv. apply list_elem_of_fmap in Hv as (o & -> & Ho). cbn [contains]. apply forallb_elem.
    intros e He. assert (Hin : e ∈ concat objects) by (apply list_elem_of_In, in_concat; exists o; by rewrite <- !list_elem_of_In).
    apply andb_true_intro. split; [apply (IHf _ _ Hf)|apply (IHt _ _ Ht)]; apply list_elem_of_fmap; by exists e.
  - apply holds_union in Hs as (_ & _ & _ & parts & Hp & Hf). rewrite Hp in Hv. apply list_elem_of_In, in_concat in Hv as (p & Hpp%list_elem_of_In & Hvp%list_elem_of_In).
    apply contains_union. rewrite Forall_forall in IH. apply list_elem_of_lookup in Hpp as [i Hi]. destruct (Forall2_lookup_r _ _ _ _ _ Hf Hi) as (u & Hu & _ & _ & Hh).
    exists u. apply list_elem_of_lookup_2 in Hu. split; [done|]. by apply (IH u Hu p).
Qed.

Lemma holds_wf s : forall vs, holds s vs -> shape_wf s.
Proof.
  induction s as [s Hleaf|e IH|fields IH|f t IHf IHt|us IH] using ShapeEnum_ind'; intros vs Hs.
  - by constructor.
  - apply wf_array. destruct Hs as (_ & arrays & _ & _ & He). by eapply IH.
  - apply holds_object in Hs as (_ & Hwf & _ & objects & _ & _ & _ & Hf). rewrite Forall_forall in IH. rewrite Forall_forall in Hf. apply wf_object; [done|].
    intros e He. destruct (Hf e He) as (_ & _ & _ & _ & Hh). by eapply IH.
  - destruct Hs as (_ & _ & objects & _ & _ & _ & Hf & Ht). apply wf_record; [by eapply IHf|by eapply IHt].
  - apply holds_union in Hs as (_ & _ & _ & parts & _ & Hf). rewrite Forall_forall in IH. apply wf_union. intros u Hu. pose proof Hu as Hin.
    apply list_elem_of_lookup in Hu as [i Hi]. destruct (Forall2_lookup_l _ _ _ _ _ Hf Hi) as (p & _ & _ & _ & Hh). by eapply IH.
Qed.

(** A shape that holds values and is a subtype holds them in the supertype. *)
Lemma subtype_contains (x y : Shape) xs ys v : Holds x xs -> Holds y ys -> is_subtype x.1 y.1 = true -> v ∈ xs -> contains y.1 v = true.
Proof.
  intros (_ & Hx & Hb) (_ & Hy & _) Hs Hv. eapply is_subtype_ok; [by eapply holds_wf| |done|by eapply holds_contains].
  unfold texts in Hb. rewrite Forall_forall in Hb. by apply Hb.
Qed.

Lemma apart_disjoint a b v : apart a b -> contains a v = true -> contains b v = true -> False.
Proof. intros (H1 & H2 & H3) Ha Hb. destruct (overlap_ok a b v Ha Hb) as [?|[?|?]]; congruence. Qed.

(** ** Shapes that comparisons cannot tell apart *)

Fixpoint depth (s : ShapeEnum) : nat :=
  match s with
  | SArray e => S (depth e.1)
  | SObject fields => S (nmax (map (fun e => depth e.2.1.1) fields))
  | SRecord f v => S (depth f.1 `max` depth v.1)
  | SUnion us => nmax (map (fun u => depth u.1) us)
  | _ => 0
  end.

Record sim (a b : ShapeEnum) : Prop := {
  sim_left c : is_subtype a c = is_subtype b c;
  sim_right c : is_subtype c a = is_subtype c b;
  sim_overlap c : may_overlap a c = may_overlap b c;
  sim_depth : depth a = depth b;
  sim_plain : plain a <-> plain b;
}.

Lemma sim_refl a : sim a a.
Proof. done. Qed.

Lemma sim_sym a b : sim a b -> sim b a.
Proof. by intros []. Qed.

Lemma sim_trans a b c : sim a b -> sim b c -> sim a c.
Proof. intros [] []. constructor; [intros ?; congruence..|congruence|tauto]. Qed.

Definition composite (s : ShapeEnum) : Prop := match s with SArray _ | SObject _ | SRecord _ _ => True | _ => False end.

Lemma subtype_of_union a us : composite a -> is_subtype a (SUnion us) = existsb (fun u => is_subtype a u.1) us.
Proof. intros Ha. rewrite is_subtype_equation. by destruct a. Qed.

Lemma union_subtype_of a us : is_subtype (SUnion us) a = forallb (fun u => is_subtype u.1 a) us.
Proof. rewrite is_subtype_equation. by destruct a. Qed.

Lemma sim_composite a b : composite a -> composite b ->
  (forall c, plain c -> is_subtype a c = is_subtype b c) -> (forall c, plain c -> is_subtype c a = is_subtype c b) ->
  (forall c, may_overlap a c = may_overlap b c) -> depth a = depth b -> sim a b.
Proof.
  intros Ha Hb Hl Hr Ho Hd. constructor; [| |done|done|by destruct a, b].
  - intros c. induction c as [c Hleaf|e IH|fields IH|f v IHf IHv|us IH] using ShapeEnum_ind'; try (by apply Hl); [apply Hl; by destruct c|].
    rewrite !subtype_of_union by done. apply existsb_ext_elem. rewrite Forall_forall in IH. exact IH.
  - intros c. induction c as [c Hleaf|e IH|fields IH|f v IHf IHv|us IH] using ShapeEnum_ind'; try (by apply Hr); [apply Hr; by destruct c|].
    rewrite !union_subtype_of. apply forallb_ext_elem. rewrite Forall_forall in IH. exact IH.
Qed.

Lemma overlap_array e c : may_overlap (SArray e) c = match c with SArray _ | SUnion _ | SUnknown => true | _ => false end.
Proof. unfold may_overlap. destruct (shape_eqb (SArray e) c) eqn:E; [by apply shape_eqb_eq in E as <-|by destruct c]. Qed.

Lemma overlap_record f v c : may_overlap (SRecord f v) c = match c with SRecord _ _ | SObject _ | SUnion _ | SUnknown => true | _ => false end.
Proof. unfold may_overlap. destruct (shape_eqb (SRecord f v) c) eqn:E; [by apply shape_eqb_eq in E as <-|by destruct c]. Qed.

Lemma get_some_elem {V} (m : list (list Z * V)) e : e ∈ m -> is_Some (BTreeMap.get e.1 m).
Proof.
  induction m as [|[q w] m IH]; intros He; [by apply elem_of_nil in He|]. cbn [BTreeMap.get]. destruct (e.1 ==? q) eqn:E; [by eexists|].
  apply elem_of_cons in He as [->|He]; [by rewrite eqb_refl in E|by apply IH].
Qed.

Definition missing (fields others : list (list Z * (Shape * bool))) : bool :=
  existsb (fun f => negb f.2.2 && match BTreeMap.get f.1 others with Some _ => false | None => true end) fields.

Lemma missing_refl fields : missing fields fields = false.
Proof.
  apply not_true_iff_false. intros (x & Hx%list_elem_of_In & Hm)%existsb_exists. destruct (get_some_elem _ _ Hx) as [y Hy]. rewrite Hy in Hm. by destruct x.2.2.
Qed.

Lemma overlap_object fs c : may_overlap (SObject fs) c =
  match c with SObject gs => negb (missing fs gs || missing gs fs) | SRecord _ _ | SUnion _ | SUnknown => true | _ => false end.
Proof. unfold may_overlap. destruct (shape_eqb (SObject fs) c) eqn:E; [apply shape_eqb_eq in E as <-; by rewrite !missing_refl|by destruct c]. Qed.

Lemma shape_eqb_sym a b : shape_eqb a b = shape_eqb b a.
Proof. apply eq_true_iff_eq. rewrite !shape_eqb_eq. naive_solver. Qed.

Lemma may_overlap_sym a b : may_overlap a b = may_overlap b a.
Proof.
  unfold may_overlap. rewrite (shape_eqb_sym b a). destruct (shape_eqb a b); [done|].
  destruct a, b; try done. f_equal. apply orb_comm.
Qed.

Lemma apart_sym a b : apart a b -> apart b a.
Proof. unfold apart. rewrite (may_overlap_sym b a). tauto. Qed.

Lemma sim_apart a b c : sim a b -> apart b c -> apart a c.
Proof. intros [Hl Hr Ho _ _] (H1 & H2 & H3). split_and!; congruence. Qed.

Lemma sim_array e e' n m : sim e e' -> sim (SArray (e, n)) (SArray (e', m)).
Proof.
  intros [Hl Hr Ho Hd _]. apply sim_composite; [done|done| | | |cbn [depth fst]; congruence].
  - intros c Hc. rewrite !is_subtype_equation. destruct c; try done. apply Hl.
  - intros c Hc. rewrite !is_subtype_equation. destruct c; try done. apply Hr.
  - intros c. by rewrite !overlap_array.
Qed.

Lemma sim_record f f' v v' n m n' m' : sim f f' -> sim v v' -> sim (SRecord (f, n) (v, m)) (SRecord (f', n') (v', m')).
Proof.
  intros [Hl Hr _ Hd _] [Vl Vr _ Vd _]. apply sim_composite; [done|done| | | |cbn [depth fst]; congruence].
  - intros c Hc. rewrite !is_subtype_equation. destruct c; try done. cbn [is_subtype_body fst]. congruence.
  - intros c Hc. rewrite !is_subtype_equation. destruct c; try done; cbn [is_subtype_body fst]; [|congruence].
    apply forallb_ext_elem. intros x Hx. congruence.
  - intros c. by rewrite !overlap_record.
Qed.

(** Objects with the same fields. *)
Definition same_field (e e' : list Z * (Shape * bool)) : Prop := e.1 = e'.1 /\ e.2.2 = e'.2.2 /\ sim e.2.1.1 e'.2.1.1.

Lemma same_field_get fs gs k : Forall2 same_field fs gs ->
  match BTreeMap.get k fs, BTreeMap.get k gs with Some x, Some y => same_field (k, x) (k, y) | None, None => True | _, _ => False end.
Proof.
  induction 1 as [|[q x] [q' y] fs gs (Hk & Ho & Hs) _ IH]; [done|]. cbn [fst snd] in *. subst q'. cbn [BTreeMap.get]. by destruct (k ==? q).
Qed.

Lemma forallb_Forall2 {A B} (R : A -> B -> Prop) (f : A -> bool) (g : B -> bool) l l' :
  (forall x y, R x y -> f x = g y) -> Forall2 R l l' -> forallb f l = forallb g l'.
Proof. intros Hfg. induction 1 as [|x y l l' Hxy _ IH]; [done|]. cbn. by rewrite IH, (Hfg x y). Qed.

Lemma existsb_Forall2 {A B} (R : A -> B -> Prop) (f : A -> bool) (g : B -> bool) l l' :
  (forall x y, R x y -> f x = g y) -> Forall2 R l l' -> existsb f l = existsb g l'.
Proof. intros Hfg. induction 1 as [|x y l l' Hxy _ IH]; [done|]. cbn. by rewrite IH, (Hfg x y). Qed.

Lemma same_missing fs gs hs : Forall2 same_field fs gs -> missing fs hs = missing gs hs /\ missing hs fs = missing hs gs.
Proof.
  intros Hs. split; [eapply existsb_Forall2; [|exact Hs]; intros x y (-> & -> & _); done|].
  apply existsb_ext_elem. intros x _. pose proof (same_field_get fs gs x.1 Hs). by destruct (BTreeMap.get x.1 fs), (BTreeMap.get x.1 gs).
Qed.

Lemma sim_object fs gs : Forall2 same_field fs gs -> sim (SObject fs) (SObject gs).
Proof.
  intros Hs. apply sim_composite; [done|done| | | |].
  - intros c Hc. rewrite !is_subtype_equation. destruct c as [| | | | | | | | | | | | | | | |hs|k v| |]; try done; cbn [is_subtype_body].
    + f_equal.
      * eapply forallb_Forall2; [|exact Hs]. intros x y (-> & -> & [Hl _ _ _ _]). destruct (BTreeMap.get y.1 hs) as [z|]; [|done]. by rewrite Hl.
      * apply forallb_ext_elem. intros x _. pose proof (same_field_get fs gs x.1 Hs). by destruct (BTreeMap.get x.1 fs), (BTreeMap.get x.1 gs).
    + eapply forallb_Forall2; [|exact Hs]. intros x y (-> & _ & [Hl _ _ _ _]). by rewrite Hl.
  - intros c Hc. rewrite !is_subtype_equation. destruct c as [| | | | | | | | | | | | | | | |hs|k v| |]; try done; cbn [is_subtype_body]. f_equal.
    + apply forallb_ext_elem. intros x _. pose proof (same_field_get fs gs x.1 Hs) as Hx. destruct (BTreeMap.get x.1 fs) as [y|], (BTreeMap.get x.1 gs) as [z|]; try done.
      destruct Hx as (_ & Ho & [_ Hr _ _ _]). cbn [fst snd] in *. by rewrite Ho, Hr.
    + eapply forallb_Forall2; [|exact Hs]. intros x y (-> & -> & _). done.
  - intros c. rewrite !overlap_object. destruct c; try done. by destruct (same_missing fs gs fields Hs) as [-> ->].
  - cbn [depth]. do 2 f_equal. induction Hs as [|x y fs gs (_ & _ & Hd) _ IH]; [done|]. cbn [map]. f_equal; [apply Hd|done].
Qed.

Lemma nmax_perm l l' : l ≡ₚ l' -> nmax l = nmax l'.
Proof. unfold nmax. induction 1; cbn in *; lia. Qed.

Lemma sim_union us ws ws' : Forall2 (fun u w : Shape => sim u.1 w.1) us ws -> ws ≡ₚ ws' -> sim (SUnion us) (SUnion ws').
Proof.
  intros Hs Hp.
  assert (Hf : forall c, forallb (fun u : Shape => is_subtype u.1 c) us = forallb (fun u : Shape => is_subtype u.1 c) ws').
  { intros c. transitivity (forallb (fun u : Shape => is_subtype u.1 c) ws); [eapply forallb_Forall2; [|exact Hs]; intros x y Hxy; apply Hxy|].
    apply eq_true_iff_eq. rewrite !forallb_elem. by setoid_rewrite Hp. }
  assert (He : forall c, existsb (fun u : Shape => is_subtype c u.1) us = existsb (fun u : Shape => is_subtype c u.1) ws').
  { intros c. transitivity (existsb (fun u : Shape => is_subtype c u.1) ws); [eapply existsb_Forall2; [|exact Hs]; intros x y Hxy; apply Hxy|].
    apply eq_true_iff_eq. rewrite !existsb_exists. by setoid_rewrite <- list_elem_of_In; setoid_rewrite Hp. }
  constructor; [| | | |done].
  - intros c. by rewrite !union_subtype_of.
  - intros c. induction c as [c Hleaf|e IH|fields IH|f v IHf IHv|zs IH] using ShapeEnum_ind'; try (rewrite !is_subtype_equation; exact (He _)).
    + rewrite !is_subtype_equation. destruct c; try done; exact (He _).
    + rewrite !union_subtype_of. apply forallb_ext_elem. rewrite Forall_forall in IH. exact IH.
  - intros c. unfold may_overlap. destruct (shape_eqb _ _), (shape_eqb _ _); by destruct c.
  - cbn [depth]. transitivity (nmax (map (fun u : Shape => depth u.1) ws)).
    + f_equal. clear -Hs. induction Hs as [|x y us ws Hd _ IH]; [done|]. cbn [map]. f_equal; [apply Hd|done].
    + apply nmax_perm. by apply Permutation_map.
Qed.

(** ** Builders *)

Lemma all_apart_perm us ws : us ≡ₚ ws -> all_apart us -> all_apart ws.
Proof.
  induction 1 as [|u us ws Hp IH|u w us|]; cbn [all_apart]; [done| | |auto].
  - intros [Hu Ha]. split; [|by apply IH]. rewrite Forall_forall in *. intros x Hx. apply Hu. by rewrite Hp.
  - intros [[Hw Hu]%Forall_cons [Hw' Ha]]. split_and!; [constructor; [by apply apart_sym|done]|done|done].
Qed.

Lemma all_apart_elem u us : all_apart (u :: us) -> forall w, w ∈ us -> apart u.1 w.1.
Proof. intros [Hu _]. rewrite Forall_forall in Hu. exact Hu. Qed.

Lemma concat_perm {A} (l l' : list (list A)) : l ≡ₚ l' -> concat l ≡ₚ concat l'.
Proof. induction 1; cbn; [done|by f_equiv| |by etrans]. rewrite !(assoc_L (++)). f_equiv. apply Permutation_app_comm. Qed.

Lemma Forall2_perm_l {A B} (R : A -> B -> Prop) l l' k : l ≡ₚ l' -> Forall2 R l k -> exists k', k ≡ₚ k' /\ Forall2 R l' k'.
Proof.
  intros Hp. revert k. induction Hp as [|x l l' Hp IH|x y l|l1 l2 l3 H1 IH1 H2 IH2]; intros k Hk.
  - inversion Hk; subst. by exists [].
  - inversion Hk as [|? b ? k' Hb Hk']; subst. destruct (IH k' Hk') as (k'' & Hp' & Hk''). exists (b :: k''). split; [by f_equiv|by constructor].
  - inversion Hk as [|? b ? k' Hb Hk']; subst. inversion Hk' as [|? b' ? k'' Hb' Hk'']; subst. exists (b' :: b :: k''). split; [apply Permutation_swap|by repeat constructor].
  - destruct (IH1 k Hk) as (k1 & Hp1 & Hk1). destruct (IH2 k1 Hk1) as (k2 & Hp2 & Hk2). exists k2. split; [by etrans|done].
Qed.

Lemma Holds_perm s vs ws : vs ≡ₚ ws -> Holds s vs -> Holds s ws.
Proof.
  intros Hp (Hn & Hs & Ht). split_and!; [|by eapply holds_perm|].
  - unfold zlen in *. by rewrite <- (Permutation_length Hp).
  - unfold texts in *. rewrite Forall_forall in *. intros v Hv. apply Ht. by rewrite Hp.
Qed.

Lemma Builds_perm us us' vs vs' : us ≡ₚ us' -> vs ≡ₚ vs' -> Builds us vs -> Builds us' vs'.
Proof.
  intros Hu Hv (Ha & Hp & parts & Hc & Hf). destruct (Forall2_perm_l _ _ _ _ Hu Hf) as (parts' & Hpp & Hf'). split_and!; [by eapply all_apart_perm| |].
  - rewrite Forall_forall in *. intros u Hin. apply Hp. by rewrite Hu.
  - exists parts'. split; [|done]. rewrite <- Hv, Hc. by apply concat_perm.
Qed.

Lemma Builds_nil vs : Builds [] vs -> vs = [].
Proof. intros (_ & _ & parts & Hc & Hf). inversion Hf; subst. by apply Permutation_nil_r in Hc. Qed.

Lemma Builds_cons u us vs : Builds (u :: us) vs <->
  plain u.1 /\ (forall w, w ∈ us -> apart u.1 w.1) /\ exists p ws, p <> [] /\ Holds u p /\ Builds us ws /\ vs ≡ₚ p ++ ws.
Proof.
  split.
  - intros (Ha & Hp & parts & Hc & Hf). inversion Hf as [|? p ? ps [Hne Hu] Hps]; subst. apply Forall_cons in Hp as [Hpu Hp]. split_and!; [done|by apply all_apart_elem|].
    exists p, (concat ps). split_and!; [done|done| |done]. split_and!; [apply Ha|done|]. by exists ps.
  - intros (Hpu & Hap & p & ws & Hne & Hu & (Ha & Hp & parts & Hc & Hf) & Hv). split_and!; [split; [by rewrite Forall_forall|done]|by constructor|].
    exists (p :: parts). split; [by rewrite Hv, Hc|by constructor].
Qed.

Lemma Builds_elem us vs u : Builds us vs -> u ∈ us -> exists us' p ws, us ≡ₚ u :: us' /\ plain u.1 /\ (forall w, w ∈ us' -> apart u.1 w.1) /\
  p <> [] /\ Holds u p /\ Builds us' ws /\ vs ≡ₚ p ++ ws.
Proof.
  intros Hb Hu. apply elem_of_Permutation in Hu as [us' Hp]. apply (Builds_perm _ (u :: us') _ vs Hp) in Hb; [|done].
  apply Builds_cons in Hb as (Hpl & Hap & p & ws & Hne & Hh & Hb & Hv). exists us', p, ws. by split_and!.
Qed.

Lemma Builds_union us vs : texts vs -> holds (SUnion us) vs <-> (2 <= length us <= MAX_UNION_LENGTH)%nat /\ Builds us vs.
Proof.
  intros Ht. rewrite holds_union. unfold Builds. split.
  - intros (Hl & Ha & Hp & parts & Hc & Hf). split_and!; [lia|lia|done|done|]. exists parts. split; [done|].
    assert (Htp : Forall texts parts).
    { rewrite Forall_forall. intros p Hpp. unfold texts in *. rewrite Forall_forall in *. intros v Hv. apply Ht. rewrite Hc. apply list_elem_of_In, in_concat. exists p. by rewrite <- !list_elem_of_In. }
    clear -Hf Htp. induction Hf as [|u p us parts (Hne & Hn & Hh) _ IH]; [constructor|]. apply Forall_cons in Htp as [? ?]. constructor; [by split_and!|by apply IH].
  - intros ([Hl1 Hl2] & Ha & Hp & parts & Hc & Hf). split_and!; [lia|lia|done|done|]. exists parts. split; [done|].
    eapply Forall2_impl; [exact Hf|]. intros u p (Hne & Hn & Hh & _). done.
Qed.

Lemma Builds_texts us vs : Builds us vs -> texts vs.
Proof.
  intros (_ & _ & parts & Hc & Hf). unfold texts. rewrite Forall_forall. intros v Hv. rewrite Hc in Hv. apply list_elem_of_In, in_concat in Hv as (p & Hp%list_elem_of_In & Hv%list_elem_of_In).
  apply list_elem_of_lookup in Hp as [i Hi]. destruct (Forall2_lookup_r _ _ _ _ _ Hf Hi) as (u & _ & _ & _ & _ & Ht). unfold texts in Ht. rewrite Forall_forall in Ht. by apply Ht.
Qed.

Lemma Builds_total us vs : Builds us vs -> total_values us = zlen vs.
Proof.
  revert vs. induction us as [|u us IH]; intros vs Hb; [by rewrite (Builds_nil vs Hb)|].
  apply Builds_cons in Hb as (_ & _ & p & ws & _ & (Hn & _) & Hb & Hv). cbn [total_values foldr]. change (foldr _ 0 us) with (total_values us).
  rewrite (IH ws Hb), Hn. unfold zlen. rewrite (Permutation_length Hv), length_app. lia.
Qed.

(** Neither the empty shape nor the universal one is in a larger union. *)
Definition proper (s : ShapeEnum) : Prop := match s with SUnion _ | SNever | SUnknown => False | _ => True end.

Lemma Builds_proper us vs : Builds us vs -> (2 <= length us)%nat -> Forall (fun u : Shape => proper u.1) us.
Proof.
  intros Hb Hl. rewrite Forall_forall. intros u Hu. destruct (Builds_elem us vs u Hb Hu) as (us' & p & ws & Hp & Hpl & Hap & Hne & (_ & Hh & _) & Hb' & _).
  destruct u as [u n]; cbn [fst] in *; destruct u; try done.
  destruct us' as [|w us']; [apply Permutation_length in Hp; cbn in Hp; lia|]. destruct (Hap w) as (_ & Hw & _); [by left|].
  apply Builds_cons in Hb' as (Hplw & _). rewrite is_subtype_equation in Hw. by destruct w as [[] ?].
Qed.

Lemma check_disjoint_ok us : all_apart us -> Forall (fun u : Shape => proper u.1) us -> check_disjoint us = true.
Proof.
  induction us as [|u us IH]; [done|]. intros [Ha Has] [Hp Hps]%Forall_cons. cbn [check_disjoint]. rewrite IH by done.
  rewrite !andb_true_r. apply andb_true_intro. split; [|by destruct u as [[] ?]]. apply forallb_elem. rewrite Forall_forall in Ha.
  intros w Hw. destruct (Ha w Hw) as (_ & _ & ->). done.
Qed.

Lemma shape_new_ok variant n vs : Holds (variant, n) vs -> shape_new variant n = Ret (variant, n).
Proof.
  intros (Hn & Hh & _). cbn [fst snd] in *. unfold shape_new.
  assert (H0 : negb (n =? 0) || match variant with SNever | SUnknown => true | _ => false end = true).
  { destruct (Z.eqb_spec n 0) as [->|]; [|done]. assert (vs = []) as -> by (destruct vs; [done|unfold zlen in Hn; cbn in Hn; lia]).
    destruct variant; try done; try (by destruct Hh). apply holds_union in Hh as (Hl & _ & _ & parts & Hc & Hf). apply Permutation_nil_l in Hc.
    destruct Hf as [|u p us parts (Hne & _) _]; cbn in Hl; [lia|]. destruct p; [done|]. done. }
  rewrite H0. cbn [rassert obind]. destruct variant; try done.
  apply holds_object in Hh as (_ & _ & _ & objects & Hp & _ & _ & Hf). replace (validate_value_counts fields n) with true; [done|]. symmetry.
  unfold validate_value_counts. apply forallb_elem. rewrite Forall_forall in Hf. intros e He. destruct (Hf e He) as (_ & _ & -> & -> & _).
  rewrite Hn. unfold zlen. rewrite (Permutation_length Hp), length_map. pose proof (column_length e.1 objects).
  destruct (Nat.eqb_spec (length (column e.1 objects)) (length objects)); cbn [negb]; lia.
Qed.

Lemma build_union us vs : Builds us vs -> (2 <= length us <= MAX_UNION_LENGTH)%nat ->
  build us = Ret (SUnion us, total_values us) /\ Holds (SUnion us, total_values us) vs.
Proof.
  intros Hb [Hl1 Hl2]. assert (HH : Holds (SUnion us, total_values us) vs).
  { split_and!; [by apply Builds_total| |by eapply Builds_texts]. cbn [fst]. apply Builds_union; [by eapply Builds_texts|]. split; [lia|done]. }
  split; [|done]. unfold build. rewrite (check_disjoint_ok us); [|apply Hb|by eapply Builds_proper]. rewrite (proj2 (Nat.leb_le _ _) Hl2), (shape_new_ok _ _ vs HH).
  destruct us as [|u [|w us]]; cbn in Hl1; [lia|lia|done].
Qed.

Lemma build_ok us vs : Builds us vs -> (length us <= MAX_UNION_LENGTH)%nat ->
  exists s, build us = Ret s /\ Holds s vs /\ (depth s.1 <= nmax (map (fun u => depth u.1) us))%nat /\
    (forall c, (forall u, u ∈ us -> is_subtype u.1 c = true) -> is_subtype s.1 c = true).
Proof.
  intros Hb Hl. destruct us as [|u [|w us]].
  - rewrite (Builds_nil vs Hb). exists shape_empty. split; [done|]. split; [split_and!; [done|done|constructor]|]. split; [cbn; lia|done].
  - exists u. split; [done|]. apply Builds_cons in Hb as (_ & _ & p & ws & _ & Hh & ->%Builds_nil & Hv). rewrite app_nil_r in Hv. split; [by eapply Holds_perm; [symmetry|]|].
    split; [cbn; lia|]. intros c Hc. apply Hc. by left.
  - set (us' := u :: w :: us) in *. destruct (build_union us' vs Hb) as [Hbu HH]; [cbn in *; lia|]. exists (SUnion us', total_values us').
    split; [done|]. split; [done|]. split; [done|]. intros c Hc. cbn [fst]. rewrite union_subtype_of. by apply forallb_elem.
Qed.
End multiset.
