(* ===== verification/ShapeMerge.v ===== *)
(** * ShapeMerge: merging a shape into a supertype
      (src/crates/shape_inference/src/subtype.rs)

    [merge_if_subtype] succeeds exactly when the first shape is a subtype of the
    second, and then the result holds the values of both and compares to every
    other shape as the second did. *)

From S2P Require Import Prelude Ord BTreeMap Identifier Value Sorting Base32 IdV6 Document Validator Shape ShapeInference ShapeMultiset.

Local Open Scope Z_scope.

(** ** Fallible functions that a test decides *)

Definition decides {A} (b : bool) (f : nat -> outcome unit A) (P : A -> Prop) : Prop :=
  (b = false /\ evals f (Err tt)) \/ (b = true /\ exists a, evals f (Ret a) /\ P a).

Lemma decides_bind {A B} b c (f : nat -> outcome unit A) (k : nat -> A -> outcome unit B) P Q :
  decides b f P -> (forall a, P a -> decides c (fun n => k n a) Q) -> decides (b && c) (fun n => obind (f n) (k n)) Q.
Proof.
  intros [[-> Hf]|[-> (a & Hf & Ha)]] Hk; [left; split; [done|by apply evals_bind_err]|].
  destruct (Hk a Ha) as [[-> Hka]|[-> (r & Hka & Hr)]]; [left|right]; (split; [done|]); [by eapply evals_bind|exists r; split; [by eapply evals_bind|done]].
Qed.

Lemma decides_ret {A} b (f : nat -> outcome unit A) a (P : A -> Prop) : b = true -> evals f (Ret a) -> P a -> decides b f P.
Proof. intros -> Hf Ha. right. split; [done|]. by exists a. Qed.

Lemma decides_err {A} b (f : nat -> outcome unit A) (P : A -> Prop) : b = false -> evals f (Err tt) -> decides b f P.
Proof. intros -> Hf. by left. Qed.

Lemma decides_ensure {A} b c (k : nat -> outcome unit A) (P : A -> Prop) :
  (b = true -> decides c k P) -> decides (b && c) (fun n => ensure b tt ;? k n) P.
Proof. destruct b; intros Hk; [exact (Hk eq_refl)|]. by apply decides_err; [|exists 0%nat]. Qed.

Lemma decides_impl {A} b (f : nat -> outcome unit A) (P Q : A -> Prop) : (forall a, P a -> Q a) -> decides b f P -> decides b f Q.
Proof. intros HPQ [?|[? (a & ? & ?)]]; [by left|right; split; [done|]]. exists a. auto. Qed.

Lemma decides_S {A} b (f : nat -> outcome unit A) (P : A -> Prop) : decides b (fun n => f (S n)) P -> decides b f P.
Proof. intros [[? ?]|[? (a & ? & ?)]]; [left|right]; (split; [done|]); [by apply evals_S|exists a; split; [by apply evals_S|done]]. Qed.

Lemma decides_eq {A} b (f g : nat -> outcome unit A) (P : A -> Prop) : (forall n, f n = g n) -> decides b g P -> decides b f P.
Proof.
  intros Hfg [[? [m Hg]]|[? (a & [m Hg] & ?)]]; [left|right]; (split; [done|]); [|exists a; split; [|done]]; exists m; intros n Hn; rewrite Hfg; auto.
Qed.

Lemma decides_true {A} b (f : nat -> outcome unit A) (P : A -> Prop) : decides b f P -> decides b f (fun a => b = true /\ P a).
Proof. intros [?|[? (a & ? & ?)]]; [by left|right; split; [done|]]. by exists a. Qed.

(** A loop that stops at the first element that fails a test. *)
Lemma decides_fold {St A} (F : nat -> St -> A -> outcome unit St) (test : A -> bool) (I : list A -> St -> Prop) l s :
  I [] s ->
  (forall pre x post s, l = pre ++ x :: post -> I pre s -> decides (test x) (fun n => F n s x) (I (pre ++ [x]))) ->
  decides (forallb test l) (fun n => foldM (F n) s l) (I l).
Proof.
  intros H0 Hstep. assert (Hgen : forall post pre s, l = pre ++ post -> I pre s -> decides (forallb test post) (fun n => foldM (F n) s post) (I l)).
  { intros post. induction post as [|x post IH]; intros pre s' Hl Hs.
    - rewrite app_nil_r in Hl. subst pre. eapply decides_ret; [done|by apply evals_eq|done].
    - cbn [forallb foldM]. eapply (decides_bind _ _ (fun n => F n s' x) (fun n s => foldM (F n) s post)); [by apply (Hstep pre x post)|].
      cbn beta. intros s'' Hs''. apply (IH (pre ++ [x])); [by rewrite <- app_assoc|done]. }
  by apply (Hgen l []).
Qed.

Section merge.
Context `{ShapeConfig}.

(** The result of a merge into [y]. *)
Definition merged (vs : list ConvexValue) (y z : Shape) : Prop := Holds z vs /\ sim z.1 y.1.

Definition merges (x y : Shape) : Prop := forall xs ys, Holds x xs -> Holds y ys ->
  decides (is_subtype x.1 y.1) (fun n => op_merge (ops_of n) x y) (merged (xs ++ ys) y).

(** ** Shapes without parts *)

Lemma merge_simple_eq o (x y : Shape) : plain x.1 -> plain y.1 -> ~ (composite x.1 /\ composite y.1) ->
  merge_if_subtype o x y = if is_subtype x.1 y.1 then shape_new y.1 (x.2 + y.2) else Err tt.
Proof.
  destruct x as [x n], y as [y m]. cbn [fst snd]. intros Hx Hy Hc. rewrite is_subtype_equation. unfold merge_if_subtype. cbn [fst snd].
  destruct x; try done; destruct y; try done; try (by destruct Hc); cbn [is_subtype_body].
  - destruct (bool_decide_reflect (literal = literal0)) as [->|]; done.
  - destruct (decode literal) as [i|e|]; [|done..]. by destruct (table i =? table_number).
  - by destruct (is_valid_field_name literal).
  - destruct (Z.eqb_spec table_number table_number0) as [->|]; done.
Qed.

Lemma never_only s vs : plain s -> is_subtype s SNever = true -> holds s vs -> vs = [].
Proof. rewrite is_subtype_equation. by destruct s. Qed.

Lemma merge_simple (x y : Shape) : plain x.1 -> plain y.1 -> ~ (composite x.1 /\ composite y.1) -> merges x y.
Proof.
  intros Hx Hy Hc xs ys Hhx Hhy. apply decides_S. cbn [ops_of op_merge].
  assert (Heq : forall n, merge_if_subtype (ops_of n) x y = if is_subtype x.1 y.1 then shape_new y.1 (x.2 + y.2) else Err tt) by (intros n; by apply merge_simple_eq).
  destruct (is_subtype x.1 y.1) eqn:Hs; [|apply decides_err; [done|by exists 0%nat]].
  assert (HH : Holds (y.1, x.2 + y.2) (xs ++ ys)).
  { pose proof Hhx as (Hn & Hxh & Hxt). pose proof Hhy as (Hm & Hyh & Hyt). split_and!; cbn [fst snd].
    - unfold zlen in *. rewrite length_app. lia.
    - assert (Hall : Forall (fun v => contains y.1 v = true) (xs ++ ys)).
      { apply Forall_app. rewrite !Forall_forall. split; intros v Hv; [by apply (subtype_contains x y xs ys)|by apply (holds_contains y.1 ys)]. }
      destruct x as [x n], y as [y m]. cbn [fst snd] in *. destruct x; try done; [cbn in Hxh; by subst xs|..]; destruct y; try done;
        try (by rewrite is_subtype_equation in Hs); try (by destruct Hc); destruct Hyh as [Hne _]; (split; [|done]); by destruct ys, xs.
    - by apply Forall_app. }
  apply (decides_ret _ _ (y.1, x.2 + y.2)); [done| |by split; [|apply sim_refl]]. exists 0%nat. intros n _. rewrite Heq. by eapply shape_new_ok.
Qed.

(** ** Shapes with parts *)

Lemma texts_perm vs ws : vs ≡ₚ ws -> texts vs -> texts ws.
Proof. unfold texts. rewrite !Forall_forall. intros Hp Ht v Hv. apply Ht. by rewrite Hp. Qed.

Lemma Holds_array (e : Shape) n vs : Holds (SArray e, n) vs <->
  n = zlen vs /\ vs <> [] /\ exists arrays, vs ≡ₚ map Array arrays /\ Holds e (concat arrays).
Proof.
  unfold Holds. cbn [fst snd holds]. split.
  - intros (Hn & (Hne & arrays & Hp & Hc & He) & Ht). split_and!; [done|done|]. exists arrays. split_and!; [done|done|done|]. apply texts_concat. by eapply texts_perm.
  - intros (Hn & Hne & arrays & Hp & Hc & He & Ht). split_and!; [done|done|by exists arrays|]. apply (texts_perm (map Array arrays)); [done|]. by apply texts_concat.
Qed.

Definition names (entries : list (list Z * ConvexValue)) : list ConvexValue := map (fun e => String e.1) entries.

Lemma Holds_record (f v : Shape) n vs : Holds (SRecord f v, n) vs <->
  n = zlen vs /\ vs <> [] /\ is_subtype f.1 SFieldName = true /\
  exists objects, vs ≡ₚ map Object objects /\ Holds f (names (concat objects)) /\ Holds v (map snd (concat objects)).
Proof.
  unfold Holds, names, zlen. cbn [fst snd holds]. split.
  - intros (Hn & (Hne & Hf & objects & Hp & Hc & Hd & Hhf & Hhv) & Ht). split_and!; [done|done|done|]. exists objects. rewrite !length_map.
    apply (texts_perm _ (map Object objects)) in Ht as [? ?]%texts_entries; [|done]. by split_and!.
  - intros (Hn & Hne & Hf & objects & Hp & (Hc & Hhf & Ht) & Hd & Hhv & Ht'). rewrite !length_map in *. split_and!; [done|done|done|by exists objects|].
    apply (texts_perm (map Object objects)); [done|]. by apply texts_entries.
Qed.

(** A field of an object shape and the values of the field. *)
Definition field_ok (objects : list (list (list Z * ConvexValue))) (e : list Z * (Shape * bool)) : Prop :=
  let col := column e.1 objects in
  is_valid_identifier e.1 = true /\ col <> [] /\ e.2.2 = negb (length col =? length objects)%nat /\ Holds e.2.1 col.

Lemma Holds_object fields n vs : Holds (SObject fields, n) vs <->
  n = zlen vs /\ vs <> [] /\ BTreeMap.wf fields /\ (length fields <= MAX_SHAPE_FIELDS)%nat /\
  exists objects, vs ≡ₚ map Object objects /\ texts (map Object objects) /\ Forall (fun o => NoDup (map fst o)) objects /\
    Forall (fun o => forall e, e ∈ o -> is_Some (BTreeMap.get e.1 fields)) objects /\ Forall (field_ok objects) fields.
Proof.
  unfold Holds at 1. cbn [fst snd]. rewrite holds_object. split.
  - intros (Hn & (Hne & Hwf & Hl & objects & Hp & Hnd & Hk & Hf) & Ht). split_and!; [done..|]. apply (texts_perm _ (map Object objects)) in Ht; [|done].
    exists objects. split_and!; [done..|]. eapply Forall_impl; [done|]. intros e (H1 & H2 & H3 & H4 & H5). repeat (split; [done|]). by apply texts_columns.
  - intros (Hn & Hne & Hwf & Hl & objects & Hp & Ht & Hnd & Hk & Hf). split_and!; [done..| |by eapply texts_perm]. exists objects. split_and!; [done..|].
    eapply Forall_impl; [done|]. by intros e (H1 & H2 & H3 & H4 & H5 & H6).
Qed.

Lemma zlen_app {A} (l k : list A) : zlen (l ++ k) = zlen l + zlen k.
Proof. unfold zlen. rewrite length_app. lia. Qed.

Lemma app_ne_l {A} (l k : list A) : l <> [] -> l ++ k <> [].
Proof. by destruct l. Qed.

Lemma merge_array (x y : Shape) n m : merges x y -> merges (SArray x, n) (SArray y, m).
Proof.
  intros Hm xs ys (Hn & Hne & ax & Hpx & Hhx)%Holds_array (Hn' & Hne' & ay & Hpy & Hhy)%Holds_array. apply decides_S. cbn [ops_of op_merge fst].
  rewrite is_subtype_equation. cbn [is_subtype_body]. rewrite <- (andb_true_r (is_subtype x.1 y.1)). unfold merge_if_subtype. cbn [fst snd].
  apply (decides_bind _ _ _ _ _ _ (Hm _ _ Hhx Hhy)). intros z [Hz Hs]. assert (HH : Holds (SArray z, n + m) (xs ++ ys)).
  { apply Holds_array. split_and!; [rewrite zlen_app; lia|by apply app_ne_l|]. exists (ax ++ ay). by rewrite map_app, concat_app, Hpx, Hpy. }
  apply (decides_ret _ _ (SArray z, n + m)); [done|apply evals_eq; intros _; by eapply shape_new_ok|]. split; [done|].
  destruct z, y. by apply sim_array.
Qed.

Lemma record_new_ok (f v : Shape) n vs : Holds (SRecord f v, n) vs -> record_new f v = Ret (SRecord f v).
Proof.
  intros (_ & _ & Hf & objects & _ & (Hc & _) & (Hd & _))%Holds_record. unfold record_new. rewrite Hf. cbn [rassert obind].
  unfold names, zlen in *. rewrite !length_map in *. replace (f.2 =? v.2) with true by lia. done.
Qed.

(** Building the merged record. *)
Lemma merged_record (f v f' v' : Shape) n m xs ys ox oy :
  n = zlen xs -> xs <> [] -> xs ≡ₚ map Object ox ->
  Holds (SRecord f' v', m) ys -> ys ≡ₚ map Object oy ->
  Holds f (names (concat ox) ++ names (concat oy)) -> Holds v (map snd (concat ox) ++ map snd (concat oy)) -> sim f.1 f'.1 -> sim v.1 v'.1 ->
  evals (fun _ => let? variant := record_new f v in shape_new variant (n + m)) (Ret (SRecord f v, n + m)) /\
  merged (xs ++ ys) (SRecord f' v', m) (SRecord f v, n + m).
Proof.
  intros Hn Hne Hpx (Hm & _ & Hf' & _)%Holds_record Hpy Hf Hv Sf Sv. assert (HH : Holds (SRecord f v, n + m) (xs ++ ys)).
  { apply Holds_record. split_and!; [rewrite zlen_app; lia|by apply app_ne_l|destruct Sf as [-> _ _ _ _]; done|].
    exists (ox ++ oy). unfold names in *. by rewrite concat_app, !map_app, Hpx, Hpy. }
  split; [|split; [done|destruct f, v, f', v'; by apply sim_record]]. apply evals_eq. intros _. rewrite (record_new_ok f v _ _ HH). cbn [obind]. by eapply shape_new_ok.
Qed.

Lemma merge_records (f v f' v' : Shape) n m : merges f f' -> merges v v' -> merges (SRecord f v, n) (SRecord f' v', m).
Proof.
  intros Mf Mv xs ys (Hn & Hne & Hf & ox & Hpx & Hhf & Hhv)%Holds_record Hy. pose proof Hy as (Hn' & Hne' & Hf' & oy & Hpy & Hhf' & Hhv')%Holds_record.
  apply decides_S. cbn [ops_of op_merge fst]. rewrite is_subtype_equation. cbn [is_subtype_body]. rewrite <- (andb_true_r (is_subtype v.1 v'.1)).
  unfold merge_if_subtype. cbn [fst snd]. apply (decides_bind _ _ _ _ _ _ (Mf _ _ Hhf Hhf')). intros fz [Hfz Sf].
  apply (decides_bind _ _ _ _ _ _ (Mv _ _ Hhv Hhv')). intros vz [Hvz Sv].
  destruct (merged_record fz vz f' v' n m xs ys ox oy) as [He Hm]; try done. by apply (decides_ret _ _ (SRecord fz vz, n + m)).
Qed.

(** ** Objects *)

Lemma insert_in_order {V W} (R : list Z * V -> list Z * W -> Prop) pre fields k v w :
  (forall e e', R e e' -> e'.1 = e.1) -> BTreeMap.wf (pre ++ [(k, v)]) -> Forall2 R pre fields -> BTreeMap.insert k w fields = fields ++ [(k, w)].
Proof.
  intros HR Hwf Hf. apply BTreeMap.insert_last.
  apply (BTreeMap.get_Forall2 (fun _ _ => True) (pre ++ [(k, v)])); [|done]. apply Forall2_app; [|by repeat constructor].
  eapply Forall2_impl; [done|]. intros e e' He. split; [by apply HR|done].
Qed.

Lemma get_prefix {V} (pre : list (list Z * V)) e post : BTreeMap.wf (pre ++ e :: post) -> BTreeMap.get e.1 pre = None.
Proof.
  intros Hwf. apply BTreeMap.get_None. intros v Hv. pose proof (BTreeMap.wf_app_lt _ _ (e.1, v) e Hwf Hv) as Hlt. apply (olt_irrefl e.1). apply Hlt. by left.
Qed.

(** The fields of an object that are in the other one too. *)
Definition merged_field (ox oy : list (list (list Z * ConvexValue))) (gs : list (list Z * (Shape * bool))) (e r : list Z * (Shape * bool)) : Prop :=
  r.1 = e.1 /\ exists y, BTreeMap.get e.1 gs = Some y /\ r.2.2 = y.2 /\ (e.2.2 = true -> y.2 = true) /\
    merged (column e.1 ox ++ column e.1 oy) y.1 r.2.1.

Lemma merge_common_fields ox oy fs gs : BTreeMap.wf fs -> Forall (field_ok ox) fs -> Forall (field_ok oy) gs ->
  (forall e y, e ∈ fs -> BTreeMap.get e.1 gs = Some y -> merges e.2.1 y.1) ->
  decides (forallb (fun f => match BTreeMap.get f.1 gs with
        | Some other_field => negb (f.2.2 && negb other_field.2) && is_subtype f.2.1.1 other_field.1.1
        | None => false
        end) fs)
    (fun n => foldM (fun fields (e : list Z * (Shape * bool)) =>
      let? other_field := ok_or (BTreeMap.get e.1 gs) tt in
      ensure (negb (e.2.2 && negb other_field.2)) tt ;?
      let? value_shape := op_merge (ops_of n) e.2.1 other_field.1 in
      Ret (BTreeMap.insert e.1 (value_shape, other_field.2) fields)) [] fs)
    (Forall2 (merged_field ox oy gs) fs).
Proof.
  intros Hwf Hx Hy Hm. rewrite Forall_forall in Hx. rewrite Forall_forall in Hy.
  apply (decides_fold _ _ (Forall2 (merged_field ox oy gs))); [constructor|]. intros pre e post fields Hl Hpre.
  assert (He : e ∈ fs) by (subst fs; set_solver). destruct (BTreeMap.get e.1 gs) as [y|] eqn:Hg; [|apply decides_err; [done|by apply evals_eq]].
  cbn [ok_or obind]. apply decides_ensure. intros Hopt. rewrite <- (andb_true_r (is_subtype _ _)).
  destruct (Hx e He) as (_ & _ & _ & Hhx). pose proof (Hy _ (get_elem _ _ _ Hg)) as (_ & _ & _ & Hhy). cbn [fst snd] in Hhy.
  apply (decides_bind _ _ _ _ _ _ (Hm e y He Hg _ _ Hhx Hhy)). intros z Hz.
  eapply decides_ret; [done|by apply evals_eq|]. subst fs. destruct e as [k v].
  rewrite (insert_in_order (merged_field ox oy gs) pre fields k v); [|by intros ? ? [? _]| |done].
  - apply Forall2_app; [done|]. constructor; [|constructor]. split; [done|]. exists y. cbn [fst snd] in *. split_and!; [done|done| |done].
    intros Hv. rewrite Hv in Hopt. by destruct y.2.
  - apply (BTreeMap.wf_app_inv _ post). by rewrite <- app_assoc.
Qed.

(** The fields that only the other object has. *)
Lemma merge_other_fields (fs gs fields : list (list Z * (Shape * bool))) : BTreeMap.wf fields -> BTreeMap.wf gs ->
  (forall k, is_Some (BTreeMap.get k fields) <-> is_Some (BTreeMap.get k fs)) ->
  decides (forallb (fun f => match BTreeMap.get f.1 fs with Some _ => true | None => f.2.2 end) gs)
    (fun _ : nat => foldM (fun fields (e : list Z * (Shape * bool)) =>
      match BTreeMap.get e.1 fs with
      | Some _ => Ret fields
      | None => ensure e.2.2 tt ;? Ret (BTreeMap.insert e.1 e.2 fields)
      end) fields gs)
    (fun r => BTreeMap.wf r /\ forall k, BTreeMap.get k r = match BTreeMap.get k fs with Some _ => BTreeMap.get k fields | None => BTreeMap.get k gs end).
Proof.
  intros Hwf Hwfg Hdom.
  set (I := fun pre (r : list (list Z * (Shape * bool))) => BTreeMap.wf r /\
    forall k, BTreeMap.get k r = match BTreeMap.get k fs with Some _ => BTreeMap.get k fields | None => BTreeMap.get k pre end).
  apply (decides_fold _ _ I).
  - split; [done|]. intros k. destruct (BTreeMap.get k fs) eqn:Hk; [done|]. cbn. destruct (BTreeMap.get k fields) eqn:Hf; [|done].
    destruct (proj1 (Hdom k)) as [? ?]; [by eexists|congruence].
  - intros pre e post r Hl [Hwr Hr]. assert (Hp : BTreeMap.get e.1 pre = None) by (subst gs; by eapply get_prefix).
    destruct (BTreeMap.get e.1 fs) eqn:Hg.
    + eapply decides_ret; [done|by apply evals_eq|]. split; [done|]. intros k. rewrite Hr, BTreeMap.get_app. destruct (BTreeMap.get k fs) eqn:Hk; [done|].
      destruct (BTreeMap.get k pre); [done|]. destruct e as [q v]. cbn in *. destruct (k ==? q) eqn:E; [|done]. apply eqb_eq in E as ->. congruence.
    + destruct (e.2.2) eqn:Ho; [|by apply decides_err; [|apply evals_eq]]. eapply decides_ret; [done|by apply evals_eq|]. split; [by apply BTreeMap.wf_insert|].
      intros k. rewrite BTreeMap.get_insert_if, Hr, BTreeMap.get_app by done. destruct e as [q v]. cbn [fst snd BTreeMap.get] in *.
      destruct (decide (k = q)) as [->|Hne]; [by rewrite Hg, Hp, eqb_refl|]. destruct (k ==? q) eqn:E; [by apply (proj1 (eqb_eq k q)) in E|].
      by destruct (BTreeMap.get k fs), (BTreeMap.get k pre).
Qed.

Lemma get_related {V W} (R : list Z * V -> list Z * W -> Prop) fs gs k : (forall e r, R e r -> r.1 = e.1) -> Forall2 R fs gs ->
  match BTreeMap.get k fs, BTreeMap.get k gs with Some x, Some y => R (k, x) (k, y) | None, None => True | _, _ => False end.
Proof.
  intros HR. induction 1 as [|[q x] [q' y] fs gs Hxy _ IH]; [done|]. pose proof (HR _ _ Hxy) as Hq. cbn [fst] in Hq. subst q'. cbn [BTreeMap.get].
  destruct (k ==? q) eqn:E; [|done]. by apply (proj1 (eqb_eq k q)) in E as ->.
Qed.

Lemma column_absent k objects (fs : list (list Z * (Shape * bool))) :
  Forall (fun o => forall e, e ∈ o -> is_Some (BTreeMap.get e.1 fs)) objects -> BTreeMap.get k fs = None -> column k objects = [].
Proof.
  intros Hk Hg. destruct (column k objects) as [|v l] eqn:Hc; [done|]. assert (Hv : v ∈ column k objects) by (rewrite Hc; by left).
  apply elem_of_column in Hv as (o & Ho & Hv%get_elem). rewrite Forall_forall in Hk. destruct (Hk o Ho _ Hv) as [? ?]. cbn in *. congruence.
Qed.

(** A field of the merged object. *)
Definition field_merged (ox oy : list (list (list Z * ConvexValue))) (k : list Z) (r y : Shape * bool) : Prop :=
  r.2 = y.2 /\ sim r.1.1 y.1.1 /\ field_ok (ox ++ oy) (k, r).

Lemma field_merged_common ox oy gs k x r : Forall (field_ok oy) gs -> field_ok ox (k, x) -> merged_field ox oy gs (k, x) (k, r) ->
  exists y, BTreeMap.get k gs = Some y /\ field_merged ox oy k r y.
Proof.
  intros Hy (Hid & Hne & Hopt & _) (_ & y & Hg & Hr & Himp & Hh & Hs). exists y. split; [done|]. cbn [fst snd] in *. split_and!; [done|done|].
  rewrite Forall_forall in Hy. destruct (Hy _ (get_elem _ _ _ Hg)) as (_ & Hne' & Hopt' & _). cbn [fst snd] in *.
  unfold field_ok. cbn [fst snd]. rewrite column_app. repeat split; [done|by apply app_ne_l| |apply Hh..].
  rewrite Hr, !length_app. pose proof (column_length k ox). pose proof (column_length k oy).
  destruct (Nat.eqb_spec (length (column k ox)) (length ox)), (Nat.eqb_spec (length (column k oy)) (length oy)), x.2, y.2; cbn in *; try done;
    symmetry; rewrite ?negb_true_iff, ?negb_false_iff, ?Nat.eqb_neq, ?Nat.eqb_eq; lia.
Qed.

Lemma field_merged_other ox oy (k : list Z) (y : Shape * bool) : field_ok oy (k, y) -> y.2 = true -> column k ox = [] -> field_merged ox oy k y y.
Proof.
  intros (Hid & Hne & Hopt & Hh) Hy Hc. split_and!; [done|apply sim_refl|]. unfold field_ok in *. cbn [fst snd] in *. rewrite column_app, Hc. cbn [app].
  split_and!; [done|done| |done]. rewrite Hy in *. rewrite length_app. pose proof (column_length k oy). symmetry in Hopt. symmetry.
  rewrite negb_true_iff, Nat.eqb_neq in *. lia.
Qed.

Lemma merge_fields_ok ox oy fs gs : BTreeMap.wf fs -> BTreeMap.wf gs -> Forall (field_ok ox) fs -> Forall (field_ok oy) gs ->
  Forall (fun o => forall e, e ∈ o -> is_Some (BTreeMap.get e.1 fs)) ox ->
  (forall e y, e ∈ fs -> BTreeMap.get e.1 gs = Some y -> merges e.2.1 y.1) ->
  decides (is_subtype (SObject fs) (SObject gs)) (fun n => merge_fields (ops_of n) fs gs)
    (fun r => BTreeMap.wf r /\ (forall k, is_Some (BTreeMap.get k fs) -> is_Some (BTreeMap.get k r)) /\
       Forall2 (fun e e' => e.1 = e'.1 /\ field_merged ox oy e.1 e.2 e'.2) r gs).
Proof.
  intros Hwf Hwf' Hfx Hfy Hkx Hm. rewrite is_subtype_equation. cbn [is_subtype_body]. unfold merge_fields.
  eapply decides_bind; [by apply (merge_common_fields ox oy fs gs)|]. intros fields Hf.
  assert (Hget : forall k, match BTreeMap.get k fs, BTreeMap.get k fields with Some x, Some r => merged_field ox oy gs (k, x) (k, r) | None, None => True | _, _ => False end).
  { intros k. apply get_related; [by intros ? ? [? _]|done]. }
  eapply decides_impl; [|apply decides_true, merge_other_fields; [|done|]].
  - cbn beta. intros r [Hopt [Hwr Hr]]. rewrite forallb_elem in Hopt. assert (Hs : forall k, is_Some (BTreeMap.get k fs) -> is_Some (BTreeMap.get k r)).
    { intros k [x Hk]. rewrite Hr, Hk. specialize (Hget k). rewrite Hk in Hget. by destruct (BTreeMap.get k fields). }
    split_and!; [done|done|]. apply BTreeMap.Forall2_get; [done|done|]. intros k. rewrite Hr. specialize (Hget k). destruct (BTreeMap.get k fs) as [x|] eqn:Hx.
    + destruct (BTreeMap.get k fields) as [z|]; [|done]. rewrite Forall_forall in Hfx. destruct (field_merged_common ox oy gs k x z Hfy (Hfx _ (get_elem _ _ _ Hx)) Hget) as (y & -> & ?). by constructor.
    + destruct (BTreeMap.get k gs) as [y|] eqn:Hy; constructor. rewrite Forall_forall in Hfy. apply get_elem in Hy. apply field_merged_other; [by apply Hfy| |by eapply column_absent].
      specialize (Hopt _ Hy). cbn in Hopt. by rewrite Hx in Hopt.
  - apply (BTreeMap.get_Forall2 (fun _ _ => True) fs); [|done]. eapply Forall2_impl; [done|]. by intros e r [? _].
  - intros k. specialize (Hget k). by destruct (BTreeMap.get k fs), (BTreeMap.get k fields).
Qed.

Lemma object_new_ok fields n vs : Holds (SObject fields, n) vs -> object_new fields = Ret (SObject fields).
Proof.
  intros (_ & _ & _ & Hl & objects & _ & _ & _ & _ & Hf)%Holds_object. unfold object_new. rewrite (proj2 (Nat.leb_le _ _) Hl). cbn [rassert obind].
  replace (forallb _ fields) with true; [done|]. symmetry. apply forallb_elem. rewrite Forall_forall in Hf. intros e He. destruct (Hf e He) as (_ & Hne & _ & Hc & _).
  unfold shape_is_empty. rewrite Hc. destruct (column e.1 objects); [done|]. unfold zlen. cbn [length]. apply negb_true_iff, Z.eqb_neq. lia.
Qed.

Lemma merge_objects fs gs n m : (forall e y, e ∈ fs -> BTreeMap.get e.1 gs = Some y -> merges e.2.1 y.1) -> merges (SObject fs, n) (SObject gs, m).
Proof.
  intros Hm xs ys (Hn & Hne & Hwf & Hl & ox & Hpx & Htx & Hndx & Hkx & Hfx)%Holds_object (Hn' & Hne' & Hwf' & Hl' & oy & Hpy & Hty & Hndy & Hky & Hfy)%Holds_object.
  apply decides_S. cbn [ops_of op_merge fst]. unfold merge_if_subtype. cbn [fst snd]. rewrite <- (andb_true_r (is_subtype _ _)).
  eapply decides_bind; [by apply (merge_fields_ok ox oy fs gs)|]. intros r (Hwr & Hr & Hf). assert (HH : Holds (SObject r, n + m) (xs ++ ys)).
  { apply Holds_object. split_and!; [rewrite zlen_app; lia|by apply app_ne_l|done|by rewrite (Forall2_length _ _ _ Hf)|]. exists (ox ++ oy).
    rewrite map_app. split_and!; [by rewrite Hpx, Hpy|by apply Forall_app|by apply Forall_app| |].
    - apply Forall_app. rewrite !Forall_forall in *. split; [intros o Ho e He; by apply Hr, (Hkx o)|]. intros o Ho e He. destruct (Hky o Ho e He) as [y Hy].
      pose proof (get_related _ gs r e.1 (fun e r (HR : r.1 = e.1 /\ field_merged ox oy r.1 r.2 e.2) => proj1 HR) (proj2 (Forall2_flip _ _ _) Hf)) as Hg.
      rewrite Hy in Hg. by destruct (BTreeMap.get e.1 r).
    - rewrite Forall_forall. intros e [i Hi]%list_elem_of_lookup. destruct (Forall2_lookup_l _ _ _ _ _ Hf Hi) as (y & _ & _ & _ & _ & ?). by destruct e. }
  apply (decides_ret _ _ (SObject r, n + m)); [done| |split; [done|]].
  - apply evals_eq. intros _. rewrite (object_new_ok r _ _ HH). cbn [obind]. by eapply shape_new_ok.
  - cbn [fst]. apply sim_object. eapply Forall2_impl; [done|]. by intros e e' (? & ? & ? & _).
Qed.

(** ** Objects into records *)

(** The entries of objects, field by field. *)
Definition entries_of (objects : list (list (list Z * ConvexValue))) (fs : list (list Z * (Shape * bool))) : list (list Z * ConvexValue) :=
  flat_map (fun e => map (pair e.1) (column e.1 objects)) fs.

Lemma flat_map_split {A B} (f g h : A -> list B) l : (forall x, f x ≡ₚ g x ++ h x) -> flat_map f l ≡ₚ flat_map g l ++ flat_map h l.
Proof.
  intros Hf. induction l as [|x l IH]; [done|]. cbn [flat_map]. rewrite Hf, IH, <- !(assoc_L (++)). f_equiv. rewrite !(assoc_L (++)). f_equiv. apply Permutation_app_comm.
Qed.

Lemma entries_of_one (fs : list (list Z * (Shape * bool))) o : BTreeMap.wf fs -> NoDup (map fst o) -> (forall e, e ∈ o -> is_Some (BTreeMap.get e.1 fs)) ->
  o ≡ₚ entries_of [o] fs.
Proof.
  intros Hwf Hnd Hk. unfold entries_of, column. cbn [flat_map]. assert (Hin : forall l e, e ∈ flat_map (fun e => map (pair e.1) ((match BTreeMap.get e.1 o with Some v => [v] | None => [] end) ++ [])) l <->
    (exists x, x ∈ (l : list (list Z * (Shape * bool))) /\ x.1 = e.1) /\ BTreeMap.get e.1 o = Some e.2).
  { intros l [k v]. cbn [fst snd]. rewrite list_elem_of_In, in_flat_map. split.
    - intros (x & Hx%list_elem_of_In & Hv). destruct (BTreeMap.get x.1 o) as [w|] eqn:Hg; [|done]. destruct Hv as [[= <- <-]|[]]. split; [by exists x|done].
    - intros [(x & Hx & <-) Hg]. exists x. rewrite <- list_elem_of_In, Hg. split; [done|]. by left. }
  apply NoDup_Permutation.
  - by apply (NoDup_fmap_1 fst).
  - clear Hk. pose proof (BTreeMap.wf_NoDup_fst _ Hwf) as Hfs. clear Hwf. induction fs as [|x fs IH]; [constructor|]. cbn in Hfs. apply NoDup_cons in Hfs as [Hx Hfs]. cbn [flat_map]. apply NoDup_app. split_and!; [|intros e He1 He2|by apply IH].
    + destruct (BTreeMap.get x.1 o); cbn; [apply NoDup_singleton|constructor].
    + apply Hin in He2 as [(y & Hy & Hye) _]. apply Hx. apply list_elem_of_fmap. exists y. split; [|done].
      destruct (BTreeMap.get x.1 o); [|by apply elem_of_nil in He1]. cbn in He1. apply list_elem_of_singleton in He1 as ->. done.
  - intros e. rewrite Hin. split.
    + intros He. split; [|apply get_of_elem; [done|by destruct e]]. destruct (Hk e He) as [y Hy%get_elem]. by exists (e.1, y).
    + intros [_ Hg%get_elem]. by destruct e.
Qed.

Lemma entries_by_column (fs : list (list Z * (Shape * bool))) objects : BTreeMap.wf fs -> Forall (fun o => NoDup (map fst o)) objects ->
  Forall (fun o => forall e, e ∈ o -> is_Some (BTreeMap.get e.1 fs)) objects -> concat objects ≡ₚ entries_of objects fs.
Proof.
  intros Hwf. induction objects as [|o l IH]; intros Hnd Hk.
  - cbn. unfold entries_of. clear. induction fs as [|e fs IH]; [done|]. exact IH.
  - apply Forall_cons in Hnd as [Ho Hnd]. apply Forall_cons in Hk as [Hko Hk]. cbn [concat]. rewrite (IH Hnd Hk). rewrite (entries_of_one fs o Hwf Ho Hko) at 1.
    symmetry. apply flat_map_split. intros x. by rewrite <- map_app, <- column_app.
Qed.

Lemma string_shape_holds k col : col <> [] -> bytes k -> Holds (string_shape_of k, zlen col) (names (map (pair k) col)).
Proof.
  intros Hne Hk. unfold names. rewrite map_map. cbn [fst]. split_and!; cbn [fst snd].
  - unfold zlen. by rewrite length_map.
  - assert (Hc : Forall (fun v => contains (string_shape_of k) v = true) (map (fun _ => String k) col)).
    { rewrite Forall_map, Forall_forall. intros v _. apply string_shape_contains. }
    assert (Hn : map (fun _ : ConvexValue => String k) col <> []) by (by destruct col).
    unfold string_shape_of in *. by destruct (is_valid_string_literal k), (decode k), (is_valid_field_name k).
  - unfold texts. rewrite Forall_map, Forall_forall. intros v _. cbn [byte_texts]. by apply bool_decide_eq_true_2.
Qed.

Lemma string_shape_depth k : depth (string_shape_of k) = 0%nat.
Proof. unfold string_shape_of. by destruct (is_valid_string_literal k), (decode k), (is_valid_field_name k). Qed.

(** Everything merges up to a depth. *)
Definition merges_to (d : nat) : Prop := forall x y : Shape, (depth x.1 <= d)%nat -> (depth y.1 <= d)%nat -> merges x y.

Lemma column_bytes k objects : texts (map Object objects) -> column k objects <> [] -> bytes k.
Proof.
  intros Ht Hne. destruct (column k objects) as [|v l] eqn:Hc; [done|]. assert (Hv : v ∈ column k objects) by (rewrite Hc; by left).
  apply elem_of_column in Hv as (o & Ho & Hg%get_elem). unfold texts in Ht. rewrite Forall_forall in Ht.
  assert (Hb : byte_texts (Object o) = true) by (apply Ht, list_elem_of_fmap; by exists o).
  destruct (byte_texts_field o _ Hb Hg) as [Hk _]. by apply bool_decide_eq_true_1 in Hk.
Qed.

Lemma entries_of_snoc objects pre e : entries_of objects (pre ++ [e]) = entries_of objects pre ++ map (pair e.1) (column e.1 objects).
Proof. unfold entries_of. rewrite flat_map_app. cbn [flat_map]. by rewrite app_nil_r. Qed.

Lemma merge_record_ok d fs (f v : Shape) ox fvs vvs : merges_to d -> (forall e, e ∈ fs -> (depth e.2.1.1 <= d)%nat) -> (depth f.1 <= d)%nat -> (depth v.1 <= d)%nat ->
  texts (map Object ox) -> Forall (field_ok ox) fs -> Holds f fvs -> Holds v vvs ->
  decides (is_subtype (SObject fs) (SRecord f v)) (fun n => merge_record (ops_of n) fs (f, v))
    (fun r => merged (names (entries_of ox fs) ++ fvs) f r.1 /\ merged (map snd (entries_of ox fs) ++ vvs) v r.2).
Proof.
  intros Hm Hd Hdf Hdv Ht Hfs Hf Hv. rewrite is_subtype_equation. cbn [is_subtype_body]. unfold merge_record. rewrite Forall_forall in Hfs.
  apply (decides_fold _ _ (fun pre r => merged (names (entries_of ox pre) ++ fvs) f r.1 /\ merged (map snd (entries_of ox pre) ++ vvs) v r.2)).
  - split; (split; [done|apply sim_refl]).
  - intros pre e post [f' v'] Hl [[Hf' Sf] [Hv' Sv]]. cbn [fst snd] in *. assert (He : e ∈ fs) by (subst fs; set_solver).
    destruct (Hfs e He) as (_ & Hne & _ & Hh). pose proof (string_shape_holds e.1 _ Hne (column_bytes _ _ Ht Hne)) as Hk.
    assert (Hc : e.2.1.2 = zlen (column e.1 ox)) by apply Hh. rewrite Hc, (shape_new_ok _ _ _ Hk). cbn [obind]. rewrite <- (andb_true_r (is_subtype e.2.1.1 _)).
    rewrite <- (sim_right _ _ Sf), <- (sim_right _ _ Sv).
    eapply decides_bind; [apply (Hm (string_shape_of e.1, zlen (column e.1 ox)) f'); [cbn [fst]; rewrite string_shape_depth; lia|by rewrite (sim_depth _ _ Sf)|exact Hk|exact Hf']|].
    intros fz [Hfz Sfz]. eapply decides_bind; [apply (Hm e.2.1 v'); [by apply Hd|by rewrite (sim_depth _ _ Sv)|exact Hh|exact Hv']|].
    intros vz [Hvz Svz]. eapply decides_ret; [done|by apply evals_eq|]. cbn [fst snd]. rewrite entries_of_snoc. unfold names in *. rewrite !map_app, !map_map in *. cbn [fst snd] in *. rewrite map_id.
    split; (split; [|by eapply sim_trans]); (eapply Holds_perm; [|done]); rewrite !(assoc_L (++)); f_equiv; apply Permutation_app_comm.
Qed.

Lemma merge_into_record d fs (f v : Shape) n m : merges_to d -> (forall e, e ∈ fs -> (depth e.2.1.1 <= d)%nat) -> (depth f.1 <= d)%nat -> (depth v.1 <= d)%nat ->
  merges (SObject fs, n) (SRecord f v, m).
Proof.
  intros Hm Hd Hdf Hdv xs ys (Hn & Hne & Hwf & Hl & ox & Hpx & Htx & Hndx & Hkx & Hfx)%Holds_object Hy.
  pose proof Hy as (Hn' & Hne' & Hf' & oy & Hpy & Hhf & Hhv)%Holds_record.
  apply decides_S. cbn [ops_of op_merge fst]. unfold merge_if_subtype. cbn [fst snd]. rewrite <- (andb_true_r (is_subtype _ _)).
  eapply decides_bind; [by apply (merge_record_ok d fs f v ox)|]. intros [fz vz] [[Hfz Sf] [Hvz Sv]]. cbn [fst snd] in *.
  pose proof (entries_by_column fs ox Hwf Hndx Hkx) as Hp.
  destruct (merged_record fz vz f v n m xs ys ox oy) as [He Hr]; try done.
  - eapply Holds_perm; [|exact Hfz]. unfold names. by rewrite Hp.
  - eapply Holds_perm; [|exact Hvz]. by rewrite Hp.
  - by apply (decides_ret _ _ (SRecord fz vz, n + m)).
Qed.
End merge.
