(* ===== verification/ShapeUnion.v ===== *)
(** * ShapeUnion: the sets of disjoint shapes of a union builder
      (src/crates/shape_inference/src/union.rs)

    The rounds of [add_new_shape] and the sets they go through: what a new shape
    absorbs, what it overlaps, and that a shape apart from all others is just
    added. *)

From S2P Require Import Prelude Ord BTreeMap Identifier Value Sorting Base32 IdV6 Document Validator Shape ShapeInference ShapeMultiset ShapeMerge.

Local Open Scope Z_scope.

Lemma evals_fold_app {St A} (F : nat -> St -> A -> outcome unit St) s xs ys s' r :
  evals (E := unit) (fun n => foldM (E := unit) (F n) s xs) (Ret s') -> evals (fun n => foldM (F n) s' ys) r -> evals (fun n => foldM (F n) s (xs ++ ys)) r.
Proof.
  intros H1 H2. destruct (evals_bind (fun n => foldM (F n) s xs) s' (fun n s' => foldM (F n) s' ys) r H1 H2) as [n0 Hn].
  exists n0. intros n Hle. rewrite foldM_app. by apply Hn.
Qed.

Lemma first_split {A} (p : A -> bool) l : (forall x, x ∈ l -> p x = false) \/ exists pre x post, l = pre ++ x :: post /\ (forall y, y ∈ pre -> p y = false) /\ p x = true.
Proof.
  induction l as [|x l IH]; [left; set_solver|]. destruct (p x) eqn:Hx; [right; exists [], x, l; split_and!; [done|set_solver|done]|].
  destruct IH as [IH|(pre & y & post & -> & Hpre & Hy)]; [left; set_solver|]. right. exists (x :: pre), y, post. split_and!; [done|set_solver|done].
Qed.

Section union.
Context `{ShapeConfig}.

(** ** Shapes and their values *)

Definition HoldAll (us : list Shape) (vs : list ConvexValue) : Prop :=
  exists parts, vs ≡ₚ concat parts /\ Forall2 (fun u p => p <> [] /\ Holds u p) us parts.

Lemma HoldAll_nil : HoldAll [] [].
Proof. by exists []; split; [|constructor]. Qed.

Lemma HoldAll_nil_inv vs : HoldAll [] vs -> vs = [].
Proof. intros (parts & Hv & Hf). inversion Hf; subst. by apply Permutation_nil_r in Hv. Qed.

Lemma HoldAll_cons u us vs : HoldAll (u :: us) vs <-> exists p ws, p <> [] /\ Holds u p /\ HoldAll us ws /\ vs ≡ₚ p ++ ws.
Proof.
  split.
  - intros (parts & Hv & Hf). inversion Hf as [|? p ? ps [Hne Hu] Hps]; subst. exists p, (concat ps). split_and!; [done|done|by exists ps|done].
  - intros (p & ws & Hne & Hu & (parts & Hw & Hf) & Hv). exists (p :: parts). split; [by rewrite Hv, Hw|by constructor].
Qed.

Lemma HoldAll_perm us us' vs vs' : us ≡ₚ us' -> vs ≡ₚ vs' -> HoldAll us vs -> HoldAll us' vs'.
Proof.
  intros Hu Hv (parts & Hp & Hf). destruct (Forall2_perm_l _ _ _ _ Hu Hf) as (parts' & Hp' & Hf'). exists parts'. split; [|done].
  rewrite <- Hv, Hp. by apply concat_perm.
Qed.

Lemma HoldAll_app us ws vs : HoldAll (us ++ ws) vs <-> exists p q, HoldAll us p /\ HoldAll ws q /\ vs ≡ₚ p ++ q.
Proof.
  split.
  - intros (parts & Hp & Hf). apply Forall2_app_inv_l in Hf as (p & q & Hfp & Hfq & ->). exists (concat p), (concat q). rewrite <- concat_app.
    split_and!; [by exists p|by exists q|done].
  - intros (p & q & (ps & Hp & Hfp) & (qs & Hq & Hfq) & Hv). exists (ps ++ qs). rewrite concat_app, Hv, Hp, Hq. split; [done|by apply Forall2_app].
Qed.

Lemma HoldAll_one u p : p <> [] -> Holds u p -> HoldAll [u] p.
Proof. intros Hne Hu. apply HoldAll_cons. exists p, []. rewrite app_nil_r. split_and!; [done|done|apply HoldAll_nil|done]. Qed.

Lemma HoldAll_elem us vs u : HoldAll us vs -> u ∈ us -> exists p, p <> [] /\ Holds u p /\ forall v, v ∈ p -> v ∈ vs.
Proof.
  intros Hu [us' Hp]%elem_of_Permutation. apply (HoldAll_perm _ (u :: us') _ vs Hp) in Hu; [|done]. apply HoldAll_cons in Hu as (p & ws & Hne & Hh & _ & Hv).
  exists p. split_and!; [done|done|]. intros v Hin. rewrite Hv. set_solver.
Qed.

Lemma Holds_nonempty (x : Shape) xs : Holds x xs -> xs <> [] -> shape_is_empty x = false.
Proof. intros [Hn _] Hne. unfold shape_is_empty. rewrite Hn. apply Z.eqb_neq. destruct xs; [done|]. unfold zlen. cbn. lia. Qed.

Lemma is_subtype_refl s : forall vs, holds s vs -> is_subtype s s = true.
Proof.
  induction s as [s Hleaf|e IH|fields IH|f t IHf IHt|us IH] using ShapeEnum_ind'; intros vs Hs; rewrite is_subtype_equation.
  - destruct s; try done; cbn [is_subtype_body]; [by apply bool_decide_eq_true_2|lia].
  - destruct Hs as (_ & arrays & _ & _ & He). by apply (IH (concat arrays)).
  - apply holds_object in Hs as (_ & Hwf & _ & objects & _ & _ & _ & Hf). rewrite Forall_forall in IH. rewrite Forall_forall in Hf. cbn [is_subtype_body].
    apply andb_true_intro. split; apply forallb_elem; intros e He; (assert (Hg : BTreeMap.get e.1 fields = Some e.2) by (apply BTreeMap.elem_of_get; [done|by destruct e])); rewrite Hg; [|done].
    destruct (Hf e He) as (_ & _ & _ & _ & Hh). rewrite (IH e He _ Hh). by destruct e.2.2.
  - destruct Hs as (_ & _ & objects & _ & _ & _ & Hf & Ht). cbn [is_subtype_body]. by rewrite (IHf _ Hf), (IHt _ Ht).
  - apply holds_union in Hs as (_ & _ & Hpl & parts & _ & Hf). rewrite Forall_forall in IH. rewrite Forall_forall in Hpl. cbn [is_subtype_body]. apply forallb_elem. intros u Hu.
    pose proof Hu as [i Hi]%list_elem_of_lookup. destruct (Forall2_lookup_l _ _ _ _ _ Hf Hi) as (p & _ & _ & _ & Hh). pose proof (IH u Hu _ Hh) as Hr.
    assert (Hex : existsb (fun w => is_subtype u.1 w.1) us = true) by (apply existsb_elem; by exists u). specialize (Hpl u Hu). rewrite is_subtype_equation. by destruct u.1.
Qed.

(** ** Disjoint sets *)

Lemma not_apart_self a : apart a a -> False.
Proof. intros (_ & _ & Ho). unfold may_overlap in Ho. rewrite (proj2 (shape_eqb_eq a a) eq_refl) in Ho. done. Qed.

Lemma apart_not_elem (x : Shape) (us : list Shape) : (forall u, u ∈ us -> apart x.1 u.1) -> x ∉ us.
Proof. intros Ha Hx. by apply (not_apart_self x.1), Ha. Qed.

Lemma all_apart_NoDup us : all_apart us -> NoDup us.
Proof. induction us as [|u us IH]; [constructor|]. intros Ha. apply NoDup_cons. split; [by apply apart_not_elem, all_apart_elem|apply IH, Ha]. Qed.

Lemma all_apart_app us ws : all_apart (us ++ ws) <-> all_apart us /\ all_apart ws /\ forall u w, u ∈ us -> w ∈ ws -> apart u.1 w.1.
Proof.
  induction us as [|u us IH]; cbn [app all_apart]; [set_solver|]. rewrite IH, Forall_app, !Forall_forall. set_solver.
Qed.

Lemma sim_all_apart (x y : Shape) us : sim x.1 y.1 -> all_apart (y :: us) -> all_apart (x :: us).
Proof. intros Hs [Hy Ha]. split; [|done]. eapply Forall_impl; [done|]. intros u Hu. by eapply sim_apart. Qed.

(** Shapes of a depth that are not unions. *)
Definition small (d : nat) (u : Shape) : Prop := plain u.1 /\ (depth u.1 <= d)%nat.
Definition plain_merges (d : nat) : Prop := forall x y, small d x -> small d y -> merges x y.

Lemma sim_small d (x y : Shape) : sim x.1 y.1 -> small d y -> small d x.
Proof. intros [_ _ _ Hd Hp] [? ?]. split; [by apply Hp|by rewrite Hd]. Qed.

(** ** One round *)

Section round.
Context (d : nat) (Hm : plain_merges d).

(** The shapes that are subtypes of a new shape become part of it. *)
Lemma absorb us : forall vs x xs l, Forall (small d) us -> HoldAll us vs -> small d x -> Holds x xs -> NoDup (us ++ l) ->
  exists subs rest sv rv x' l',
    evals (E := unit) (fun n => foldM (E := unit) (fun (st : list Shape * Shape) existing_shape =>
      match op_merge (ops_of n) existing_shape st.2 with
      | Ret merged_shape => Ret (st.1, merged_shape)
      | Err _ => let? no_subtypes := set_insert existing_shape st.1 in Ret (no_subtypes, st.2)
      | Panic => Panic
      end) (l, x) us) (Ret (l', x')) /\
    us ≡ₚ subs ++ rest /\ l' ≡ₚ rest ++ l /\ HoldAll subs sv /\ HoldAll rest rv /\ vs ≡ₚ sv ++ rv /\
    Forall (fun u => is_subtype u.1 x.1 = true) subs /\ Forall (fun u => is_subtype u.1 x.1 = false) rest /\
    Holds x' (sv ++ xs) /\ sim x'.1 x.1 /\ (subs = [] -> x' = x).
Proof.
  induction us as [|u us IH]; intros vs x xs l Hs Hv Hx Hh Hnd.
  - apply HoldAll_nil_inv in Hv as ->. exists [], [], [], [], x, l. split_and!; try done; try apply HoldAll_nil. by apply evals_eq.
  - apply Forall_cons in Hs as [Hu Hs]. apply HoldAll_cons in Hv as (p & ws & Hne & Hhu & Hws & Hv). destruct (Hm u x Hu Hx p xs Hhu Hh) as [[Hsub Hev]|[Hsub (z & Hev & Hz & Sz)]].
    + assert (Hul : u ∉ l) by (cbn in Hnd; apply NoDup_cons in Hnd; set_solver).
      destruct (set_insert_ok (E := unit) u l Hul) as (l1 & Hl1 & Hp1).
      destruct (IH ws x xs l1 Hs Hws Hx Hh) as (subs & rest & sv & rv & x' & l' & Hev' & Hus & Hl' & Hsv & Hrv & Hw & Fs & Fr & Hx' & Sx' & Hnil).
      { rewrite Hp1. by rewrite <- Permutation_middle. }
      exists subs, (u :: rest), sv, (p ++ rv), x', l'. split_and!; try done.
      * eapply evals_fold; [|exact Hev']. cbn [fst snd]. eapply evals_match_err; [done|]. apply evals_eq. intros _. by rewrite Hl1.
      * rewrite Hus. apply Permutation_middle.
      * rewrite Hl', Hp1. by rewrite <- Permutation_middle.
      * apply HoldAll_cons. by exists p, rv.
      * rewrite Hv, Hw, !(assoc_L (++)). f_equiv. apply Permutation_app_comm.
      * by constructor.
    + destruct (IH ws z (p ++ xs) l Hs Hws) as (subs & rest & sv & rv & x' & l' & Hev' & Hus & Hl' & Hsv & Hrv & Hw & Fs & Fr & Hx' & Sx' & Hnil);
        [by eapply sim_small|done|cbn in Hnd; by apply NoDup_cons in Hnd as [_ ?]|].
      exists (u :: subs), rest, (p ++ sv), rv, x', l'. split_and!; try done.
      * eapply evals_fold; [|exact Hev']. cbn [fst snd]. eapply evals_match_ret; [done|]. by apply evals_eq.
      * by rewrite Hus.
      * apply HoldAll_cons. by exists p, sv.
      * by rewrite Hv, Hw, (assoc_L (++)).
      * constructor; [done|]. eapply Forall_impl; [done|]. cbn beta. intros w Hwz. by rewrite <- (sim_right _ _ Sz).
      * eapply Forall_impl; [done|]. cbn beta. intros w Hwz. by rewrite <- (sim_right _ _ Sz).
      * eapply Holds_perm; [|done]. rewrite !(assoc_L (++)). f_equiv. apply Permutation_app_comm.
      * by eapply sim_trans.
Qed.

(** The others overlap it or not. *)
Lemma split_overlap (x : ShapeEnum) us : forall non over, NoDup (us ++ non ++ over) -> exists non' over',
  foldM (E := unit) (fun (st : list Shape * list Shape) existing_shape =>
      if may_overlap existing_shape.1 x
      then let? overlapping := set_insert existing_shape st.2 in Ret (st.1, overlapping)
      else let? nonoverlapping := set_insert existing_shape st.1 in Ret (nonoverlapping, st.2)) (non, over) us = Ret (non', over') /\
  exists n o, non' ≡ₚ n ++ non /\ over' ≡ₚ o ++ over /\ us ≡ₚ n ++ o /\
    Forall (fun u => may_overlap u.1 x = false) n /\ Forall (fun u => may_overlap u.1 x = true) o.
Proof.
  induction us as [|u us IH]; intros non over Hnd; [by exists non, over; split; [|exists [], []]|]. cbn [foldM fst snd]. cbn in Hnd. apply NoDup_cons in Hnd as [Hu Hnd].
  destruct (may_overlap u.1 x) eqn:Ho.
  - destruct (set_insert_ok (E := unit) u over) as (l & -> & Hl); [set_solver|]. cbn [obind]. destruct (IH non l) as (non' & over' & Hf & n & o & H1 & H2 & H3 & H4 & H5).
    { rewrite Hl. rewrite (assoc_L (++)), <- Permutation_middle, <- (assoc_L (++)). by apply NoDup_cons. }
    exists non', over'. split; [done|]. exists n, (u :: o). split_and!; [done| | |done|by constructor].
    + rewrite H2, Hl. by rewrite <- Permutation_middle.
    + rewrite H3. apply Permutation_middle.
  - destruct (set_insert_ok (E := unit) u non) as (l & -> & Hl); [set_solver|]. cbn [obind]. destruct (IH l over) as (non' & over' & Hf & n & o & H1 & H2 & H3 & H4 & H5).
    { rewrite Hl. cbn [app]. rewrite <- Permutation_middle. by apply NoDup_cons. }
    exists non', over'. split; [done|]. exists (u :: n), o. split_and!; [|done|by rewrite H3|by constructor|done].
    rewrite H1, Hl. by rewrite <- Permutation_middle.
Qed.

(** What a round does: [subs] go into the new shape, [over] are contracted with it. *)
Lemma add_round_parts us ws x xs : Builds us ws -> Forall (small d) us -> small d x -> Holds x xs -> (forall u, u ∈ us -> is_subtype x.1 u.1 = false) ->
  exists subs non over sv nv ov x',
    us ≡ₚ subs ++ non ++ over /\ HoldAll subs sv /\ HoldAll non nv /\ HoldAll over ov /\ ws ≡ₚ sv ++ nv ++ ov /\
    Holds x' (sv ++ xs) /\ sim x'.1 x.1 /\ (subs = [] -> x' = x) /\ Forall (fun u => is_subtype u.1 x.1 = true) subs /\
    (forall u, u ∈ non -> apart x'.1 u.1) /\ (forall u, u ∈ over -> is_subtype u.1 x'.1 = false /\ may_overlap u.1 x'.1 = true) /\
    (over = [] -> exists l, evals (fun n => add_round (ops_of n) us x) (Ret l) /\ l ≡ₚ x' :: non) /\
    (over <> [] -> exists l, l ≡ₚ x' :: over /\ forall c rest r, evals (fun n => op_contract (ops_of n) l 1) (Ret (c :: rest)) ->
       evals (fun n => op_add (ops_of n) non c) r -> evals (fun n => add_round (ops_of n) us x) r).
Proof.
  intros (Ha & Hp & Hw) Hs Hx Hh Hnot.
  destruct (absorb us ws x xs [] Hs Hw Hx Hh) as (subs & rest & sv & rv & x' & l' & Hev & Hus & Hl' & Hsv & Hrv & Hws & Fs & Fr & Hx' & Sx' & Hnil); [by rewrite app_nil_r; apply all_apart_NoDup|].
  rewrite app_nil_r in Hl'. assert (Hnd : NoDup (subs ++ rest)) by (rewrite <- Hus; by apply all_apart_NoDup). apply NoDup_app in Hnd as (_ & _ & Hnd).
  destruct (split_overlap x'.1 l' [] []) as (non & over & Hsp & n & o & Hn & Ho & Hno & Fn & Fo); [rewrite !app_nil_r, Hl'; done|]. rewrite !app_nil_r in *.
  assert (Hro : rest ≡ₚ non ++ over) by (by rewrite <- Hl', Hno, Hn, Ho). clear Hno.
  assert (Hnon : forall u, u ∈ non -> may_overlap u.1 x'.1 = false) by (rewrite Forall_forall in Fn; intros u Hu; apply Fn; by rewrite <- Hn).
  assert (Hov : forall u, u ∈ over -> may_overlap u.1 x'.1 = true) by (rewrite Forall_forall in Fo; intros u Hu; apply Fo; by rewrite <- Ho).
  assert (Hsub : forall u, u ∈ rest -> is_subtype u.1 x'.1 = false) by (rewrite Forall_forall in Fr; intros u Hu; rewrite (sim_right _ _ Sx'); by apply Fr).
  assert (Hap : forall u, u ∈ non -> apart x'.1 u.1).
  { intros u Hu. split_and!; [rewrite (sim_left _ _ Sx'); apply Hnot; rewrite Hus, Hro; set_solver|apply Hsub; rewrite Hro; set_solver|rewrite may_overlap_sym; by apply Hnon]. }
  apply (HoldAll_perm _ _ _ rv Hro) in Hrv; [|done]. apply HoldAll_app in Hrv as (nv & ov & Hnv & Hov' & Hrv).
  exists subs, non, over, sv, nv, ov, x'. split_and!; try done; [by rewrite Hus, Hro|by rewrite Hws, Hrv|intros u Hu; split; [apply Hsub; rewrite Hro; set_solver|by apply Hov]|..].
  - intros ->. destruct (set_insert_ok (E := unit) x' non) as (l & Hl & Hlp); [by apply apart_not_elem|]. exists l. split; [|done]. unfold add_round.
    eapply evals_bind; [exact Hev|]. cbn beta iota. rewrite Hsp. by apply evals_eq.
  - intros Hne. destruct (set_insert_ok (E := unit) x' over) as (l & Hl & Hlp).
    { intros Hin. assert (Hr : x' ∈ rest) by (rewrite Hro; set_solver). apply Hsub in Hr. destruct Hx' as (_ & Hx' & _). rewrite (is_subtype_refl _ _ Hx') in Hr. done. }
    exists l. split; [done|]. intros c rr r Hc Hr. unfold add_round.
    eapply evals_bind; [exact Hev|]. cbn beta iota. rewrite Hsp. cbn [obind]. destruct over as [|u over]; [done|]. rewrite Hl. cbn [obind].
    eapply evals_bind; [exact Hc|]. exact Hr.
Qed.

(** ** Pushing a shape *)

Lemma add_apart us ws x xs : Builds us ws -> Forall (small d) us -> small d x -> Holds x xs -> (forall u, u ∈ us -> apart x.1 u.1) ->
  exists l, evals (fun n => op_add (ops_of n) us x) (Ret l) /\ l ≡ₚ x :: us.
Proof.
  intros Hb Hs Hx Hh Ha. destruct (add_round_parts us ws x xs Hb Hs Hx Hh) as (subs & non & over & sv & nv & ov & x' & Hus & _ & _ & _ & _ & _ & Sx & Hx' & Fs & _ & Hov & Hadd & _).
  { intros u Hu. by destruct (Ha u Hu). }
  assert (subs = []) as ->.
  { destruct subs as [|u subs]; [done|]. apply Forall_cons in Fs as [Hu _]. destruct (Ha u) as (_ & Hf & _); [rewrite Hus; by left|congruence]. }
  assert (over = []) as ->.
  { destruct over as [|u over]; [done|]. destruct (Ha u) as (_ & _ & Hf); [rewrite Hus; set_solver|]. destruct (Hov u) as [_ Ho]; [by left|]. rewrite may_overlap_sym, (sim_overlap _ _ Sx) in Ho. congruence. }
  specialize (Hx' eq_refl) as ->. destruct (Hadd eq_refl) as (l & Hl & Hp). exists l. split; [by apply evals_S|]. rewrite Hp, Hus. cbn [app]. by rewrite app_nil_r.
Qed.

(** The loop of step 2 before and after a supertype is found. *)
Notation step x n := (fun (st : list Shape * bool) existing_shape =>
    if st.2 then
      rassert (negb (is_subtype (x : Shape).1 existing_shape.1)) ;?
      let? no_subtypes := set_insert existing_shape st.1 in Ret (no_subtypes, true)
    else
      match op_merge (ops_of n) x existing_shape with
      | Ret merged_shape => let? no_subtypes := set_insert merged_shape st.1 in Ret (no_subtypes, true)
      | Err _ => let? no_subtypes := set_insert existing_shape st.1 in Ret (no_subtypes, false)
      | Panic => Panic
      end).

Lemma push_merge_before x xs us : forall vs l, Forall (small d) us -> HoldAll us vs -> small d x -> Holds x xs -> NoDup (us ++ l) -> (forall u, u ∈ us -> is_subtype x.1 u.1 = false) ->
  exists l', evals (E := unit) (fun n => foldM (E := unit) (step x n) (l, false) us) (Ret (l', false)) /\ l' ≡ₚ us ++ l.
Proof.
  induction us as [|u us IH]; intros vs l Hs Hv Hx Hh Hnd Hn; [exists l; split; [by apply evals_eq|done]|].
  apply Forall_cons in Hs as [Hu Hs]. apply HoldAll_cons in Hv as (p & ws & _ & Hhu & Hws & _). cbn in Hnd. apply NoDup_cons in Hnd as [Hul Hnd].
  destruct (set_insert_ok (E := unit) u l) as (l1 & Hl1 & Hp1); [set_solver|].
  destruct (IH ws l1 Hs Hws Hx Hh) as (l' & Hev & Hp); [by rewrite Hp1, <- Permutation_middle; apply NoDup_cons|set_solver|]. exists l'. split; [|by rewrite Hp, Hp1, <- Permutation_middle].
  eapply evals_fold; [|exact Hev]. cbn [fst snd]. destruct (Hm x u Hx Hu xs p Hh Hhu) as [[_ He]|[Ht _]]; [|rewrite Hn in Ht; [done|by left]].
  eapply evals_match_err; [exact He|]. apply evals_eq. intros _. by rewrite Hl1.
Qed.

Lemma push_merge_after x us : forall l, NoDup (us ++ l) -> (forall u, u ∈ us -> is_subtype x.1 u.1 = false) ->
  exists l', (forall n, foldM (E := unit) (step x n) (l, true) us = Ret (l', true)) /\ l' ≡ₚ us ++ l.
Proof.
  induction us as [|u us IH]; intros l Hnd Hn; [by exists l|]. cbn in Hnd. apply NoDup_cons in Hnd as [Hul Hnd].
  destruct (set_insert_ok (E := unit) u l) as (l1 & Hl1 & Hp1); [set_solver|].
  destruct (IH l1) as (l' & Hev & Hp); [by rewrite Hp1, <- Permutation_middle; apply NoDup_cons|set_solver|]. exists l'. split; [|by rewrite Hp, Hp1, <- Permutation_middle].
  intros n. cbn [foldM fst snd]. rewrite Hn by (by left). cbn [negb rassert obind]. rewrite Hl1. apply Hev.
Qed.

Lemma push_merge_ok us ws x xs : Builds us ws -> Forall (small d) us -> small d x -> Holds x xs -> xs <> [] ->
  ((forall u, u ∈ us -> is_subtype x.1 u.1 = false) /\ exists l, evals (fun n => push_merge (ops_of n) us x) (Ret (l, false)) /\ l ≡ₚ us) \/
  ((exists u, u ∈ us /\ is_subtype x.1 u.1 = true) /\
   exists l, evals (fun n => push_merge (ops_of n) us x) (Ret (l, true)) /\ Builds l (xs ++ ws) /\ Forall (small d) l /\ length l = length us /\
     forall c, (forall u, u ∈ us -> is_subtype u.1 c = true) -> forall u, u ∈ l -> is_subtype u.1 c = true).
Proof.
  intros Hb Hs Hx Hh Hne. pose proof Hb as (Ha & Hpl & Hw). pose proof (all_apart_NoDup us Ha) as Hnd. unfold push_merge.
  destruct (first_split (fun u : Shape => is_subtype x.1 u.1) us) as [Hall|(pre & u & post & -> & Hpre & Hu)].
  - left. split; [done|]. destruct (push_merge_before x xs us ws [] Hs Hw Hx Hh) as (l & Hev & Hl); [by rewrite app_nil_r|done|]. rewrite app_nil_r in Hl. by exists l.
  - right. split; [exists u; split; [set_solver|done]|]. apply Forall_app in Hs as [Hs1 [Hsu Hs2]%Forall_cons]. apply HoldAll_app in Hw as (pv & qv & Hpv & (p & wv & Hnp & Hhu & Hwv & Hq)%HoldAll_cons & Hv).
    apply all_apart_app in Ha as (Ha1 & [Hau Ha2] & Ha12). rewrite Forall_forall in Hau.
    destruct (Hm x u Hx Hsu xs p Hh Hhu) as [[Hf _]|[_ (z & Hev & Hz & Sz)]]; [congruence|].
    destruct (push_merge_before x xs pre pv [] Hs1 Hpv Hx Hh) as (l1 & Hev1 & Hl1); [rewrite app_nil_r; by apply all_apart_NoDup|done|]. rewrite app_nil_r in Hl1.
    assert (Hzall : forall w, w ∈ pre ++ post -> apart z.1 w.1).
    { intros w [Hw|Hw]%elem_of_app; (eapply sim_apart; [exact Sz|]); [apply apart_sym, Ha12; set_solver|by apply Hau]. }
    destruct (set_insert_ok (E := unit) z l1) as (l2 & Hl2 & Hp2); [rewrite Hl1; apply apart_not_elem; set_solver|].
    destruct (push_merge_after x post l2) as (l3 & Hev3 & Hp3).
    { rewrite Hp2, Hl1, <- Permutation_middle. apply NoDup_cons. split; [apply apart_not_elem; set_solver|]. apply all_apart_NoDup, all_apart_app. split_and!; [done|done|].
      intros a b Hin1 Hin2. apply apart_sym, Ha12; set_solver. }
    { intros w Hw. destruct (is_subtype x.1 w.1) eqn:Hxw; [|done]. exfalso. pose proof (HoldAll_elem post wv w Hwv Hw) as (q & _ & Hhw & _).
      destruct xs as [|v xs]; [done|]. apply (apart_disjoint u.1 w.1 v); [by apply Hau| |]; [eapply (subtype_contains x u)|eapply (subtype_contains x w)]; try done; by left. }
    assert (Hperm : l3 ≡ₚ z :: pre ++ post) by (rewrite Hp3, Hp2, Hl1, <- Permutation_middle; f_equiv; apply Permutation_app_comm).
    exists l3. split; [|split; [split; [|split]|split; [|split]]].
    + eapply evals_fold_app; [exact Hev1|]. eapply (evals_fold _ _ _ _ (l2, true)); [|apply evals_eq; exact Hev3]. cbn [fst snd]. eapply evals_match_ret; [exact Hev|]. apply evals_eq. intros _. by rewrite Hl2.
    + apply (all_apart_perm (z :: pre ++ post)); [done|]. split; [by rewrite Forall_forall|]. apply all_apart_app. split_and!; [done|done|]. intros a b ? ?. apply Ha12; set_solver.
    + rewrite Hperm. apply Forall_app in Hpl as [Hpl1 [? ?]%Forall_cons]. constructor; [by apply (sim_plain _ _ Sz)|by apply Forall_app].
    + apply (HoldAll_perm (z :: pre ++ post) _ ((xs ++ p) ++ pv ++ wv)); [done| |].
      * rewrite Hv, Hq. rewrite <- (assoc_L (++)). f_equiv. rewrite !(assoc_L (++)). f_equiv. apply Permutation_app_comm.
      * apply HoldAll_cons. exists (xs ++ p), (pv ++ wv). split_and!; [by destruct xs|done| |done]. apply HoldAll_app. by exists pv, wv.
    + rewrite Hperm. constructor; [by eapply sim_small|by apply Forall_app].
    + rewrite (Permutation_length Hperm). cbn. rewrite !length_app. cbn. lia.
    + intros c Hc w Hw. rewrite Hperm in Hw. apply elem_of_cons in Hw as [->|Hw]; [rewrite (sim_left _ _ Sz)|]; apply Hc; set_solver.
Qed.

Lemma contract_short us goal : (1 <= goal)%nat -> (length us <= goal)%nat -> evals (fun n => op_contract (ops_of n) us goal) (Ret us).
Proof.
  intros Hg Hl. apply evals_S, evals_eq. intros n. cbn [ops_of op_contract]. unfold contract. by rewrite (proj2 (Nat.leb_le _ _) Hg), (proj2 (Nat.leb_le _ _) Hl).
Qed.

Lemma push_plain o us x : plain x.1 -> shape_is_empty x = false ->
  push o us x = match us with
    | [] => Ret [x]
    | _ => let? (no_subtypes, found_subtype) := push_merge o us x in
        if found_subtype : bool then Ret no_subtypes
        else let? disjoint := add_new_shape o no_subtypes x in op_contract o disjoint MAX_UNION_LENGTH
    end.
Proof. intros Hx He. unfold push. rewrite He. by destruct x.1. Qed.

Lemma add_new_shape_ok us x r : (forall u, u ∈ us -> is_subtype x.1 u.1 = false) ->
  evals (fun n => op_add (ops_of n) us x) r -> evals (fun n => add_new_shape (ops_of n) us x) r.
Proof.
  intros Hn Ha. unfold add_new_shape. replace (existsb _ us) with false; [exact Ha|]. symmetry. apply not_true_iff_false. intros (u & Hu & Ht)%existsb_elem. rewrite Hn in Ht; done.
Qed.

Lemma Builds_single x xs : plain x.1 -> Holds x xs -> xs <> [] -> Builds [x] xs.
Proof. intros Hp Hh Hne. split_and!; [by split; [constructor|]|by repeat constructor|by apply HoldAll_one]. Qed.

Lemma push_apart us ws x xs : Builds us ws -> Forall (small d) us -> small d x -> Holds x xs -> xs <> [] -> (forall u, u ∈ us -> apart x.1 u.1) -> (length us < MAX_UNION_LENGTH)%nat ->
  exists l, evals (fun n => op_push (ops_of n) us x) (Ret l) /\ l ≡ₚ x :: us.
Proof.
  intros Hb Hs Hx Hh Hne Ha Hl. destruct (push_merge_ok us ws x xs Hb Hs Hx Hh Hne) as [[_ (l1 & Hev & Hl1)]|Hbad].
  - assert (Ha1 : forall u, u ∈ l1 -> apart x.1 u.1) by (intros u Hu; apply Ha; by rewrite <- Hl1).
    destruct (add_apart l1 ws x xs) as (l & Hadd & Hp); [by eapply Builds_perm; [symmetry| |]|by rewrite Hl1|done|done|done|].
    assert (Hpush : exists l, evals (fun n => match us with
        | [] => Ret [x]
        | _ => let? (no_subtypes, found_subtype) := push_merge (ops_of n) us x in
            if found_subtype : bool then Ret no_subtypes
            else let? disjoint := add_new_shape (ops_of n) no_subtypes x in op_contract (ops_of n) disjoint MAX_UNION_LENGTH
        end) (Ret l) /\ l ≡ₚ x :: us).
    { destruct us as [|u us]; [exists [x]; split; [by apply evals_eq|done]|]. exists l. split; [|by rewrite Hp, Hl1]. eapply evals_bind; [exact Hev|]. cbn beta iota.
      eapply evals_bind; [apply add_new_shape_ok; [intros w Hw; by apply Ha1|exact Hadd]|]. apply contract_short; [lia|]. rewrite (Permutation_length Hp). cbn. rewrite (Permutation_length Hl1). cbn in *. lia. }
    destruct Hpush as (l' & Hev' & Hp'). exists l'. split; [|done]. apply evals_S. destruct Hev' as [n0 Hn]. exists n0. intros n Hle. cbn [ops_of op_push].
    rewrite push_plain; [by apply Hn|apply Hx|by eapply Holds_nonempty].
  - exfalso. destruct Hbad as [(u & Hu & Ht) _]. destruct (Ha u Hu) as [Hf _]. congruence.
Qed.
End round.

(** ** Merging with unions *)

Lemma plain_into_union (s : ShapeEnum) us : plain s -> is_subtype s (SUnion us) = match s with SNever => true | _ => existsb (fun u => is_subtype s u.1) us end.
Proof. intros Hs. rewrite is_subtype_equation. by destruct s. Qed.

Lemma merge_first_ok d x xs us : plain_merges d -> small d x -> Holds x xs -> forall ws, Forall (small d) us -> HoldAll us ws ->
  decides (existsb (fun u => is_subtype x.1 u.1) us) (fun n => merge_first (ops_of n) x us)
    (fun r => r.1 ∈ us /\ exists us' p rv, us ≡ₚ r.1 :: us' /\ p <> [] /\ HoldAll us' rv /\ ws ≡ₚ p ++ rv /\ merged (xs ++ p) r.1 r.2).
Proof.
  intros Hm Hx Hh. induction us as [|u us IH]; intros ws Hs Hw; [apply decides_err; [done|by apply evals_eq]|].
  apply Forall_cons in Hs as [Hu Hs]. apply HoldAll_cons in Hw as (p & rv & Hne & Hhu & Hrv & Hw). cbn [existsb merge_first].
  destruct (Hm x u Hx Hu xs p Hh Hhu) as [[-> He]|[-> (z & He & Hz)]].
  - cbn [orb]. destruct (IH rv Hs Hrv) as [[-> He']|[-> (r & He' & Hr & us' & q & qv & Hp & Hnq & Hq & Hpq & Hmr)]].
    + apply decides_err; [done|]. by eapply evals_match_err.
    + apply (decides_ret _ _ r); [done|by eapply evals_match_err|]. split; [set_solver|]. exists (u :: us'), q, (p ++ qv). split_and!; [|done|..|done].
      * rewrite Hp. apply Permutation_swap.
      * apply HoldAll_cons. by exists p, qv.
      * rewrite Hw, Hpq, !(assoc_L (++)). f_equiv. apply Permutation_app_comm.
  - apply (decides_ret _ _ (u, z)); [done|eapply evals_match_ret; [exact He|by apply evals_eq]|]. cbn [fst snd]. split; [by left|]. by exists us, p, rv.
Qed.

Lemma merge_into_union d x us m : plain_merges d -> small d x -> (depth (SUnion us) <= d)%nat -> merges x (SUnion us, m).
Proof.
  intros Hm Hx Hd xs ys Hhx Hhy. apply decides_S. cbn [ops_of op_merge fst]. pose proof Hhy as (Hcnt & Hu & Ht). cbn [fst snd] in *.
  apply Builds_union in Hu as [Hl Hb]; [|done]. pose proof Hb as (Ha & Hpl & Hw).
  assert (Hs : Forall (small d) us).
  { rewrite Forall_forall in *. intros u Hin. split; [by apply Hpl|]. apply (nmax_elem (fun u => depth u.1)) in Hin. cbn [depth] in Hd. lia. }
  rewrite plain_into_union by apply Hx.
  assert (x.1 = SNever \/ x.1 <> SNever) as [Hnever|Hnever] by (destruct x.1; (by left) || (by right)).
  - destruct x as [x n]. cbn [fst] in Hnever. subst x. destruct Hhx as (Hn & -> & _). cbn in Hn. subst n. cbn [fst]. apply (decides_ret _ _ (SUnion us, m)); [done| |by split; [|apply sim_refl]].
    apply evals_eq. intros n. unfold merge_if_subtype. cbn [fst snd]. by eapply shape_new_ok.
  - assert (Heq : forall n, merge_if_subtype (ops_of n) x (SUnion us, m) = (let? r := merge_first (ops_of n) x us in
        let? builder := set_remove r.1 us in let? builder := op_push (ops_of n) builder r.2 in build builder)).
    { intros n. destruct x as [x c]. unfold merge_if_subtype. destruct Hx as [Hx _]. cbn [fst snd] in *. destruct (merge_first (ops_of n) (x, c) us) as [[? ?]|e|]; by destruct x. }
    replace (match x.1 with SNever => true | _ => existsb (fun u => is_subtype x.1 u.1) us end) with (existsb (fun u => is_subtype x.1 u.1) us && true)
      by (rewrite andb_true_r; by destruct x.1).
    apply (decides_eq _ _ _ _ Heq). eapply decides_bind; [by apply (merge_first_ok d x xs us Hm Hx Hhx ys)|]. intros [u z] (Hin & us' & p & rv & Hp & Hnp & Hrv & Hpr & Hz & Sz). cbn [fst snd] in *.
    destruct (set_remove_ok (E := unit) u us Hin) as (l & Hl0 & Hl0p). assert (Hlp : us' ≡ₚ l) by (apply (Permutation_cons_inv (a := u)); by rewrite <- Hp). rewrite Hl0. cbn [obind].
    apply (all_apart_perm _ _ Hl0p) in Ha. rewrite Hl0p in Hpl. apply Forall_cons in Hpl as [Hpu Hpl]. rewrite Hl0p in Hs. apply Forall_cons in Hs as [Hsu Hsl].
    assert (Hbl : Builds l rv) by (split; [apply Ha|split; [done|by eapply HoldAll_perm]]). assert (Hne : xs ++ p <> []) by (by destruct xs).
    destruct (push_apart d Hm l rv z (xs ++ p)) as (l2 & Hev & Hl2); [done|done|by eapply sim_small|done|done|..].
    { intros w Hwl. eapply sim_apart; [exact Sz|]. by apply (all_apart_elem u l). }
    { apply Permutation_length in Hl0p. cbn in Hl0p. lia. }
    assert (Hb' : Builds l2 (xs ++ ys)).
    { apply (Builds_perm (z :: l) _ (xs ++ ys)); [done|done|]. split; [by eapply sim_all_apart|split; [constructor; [by apply (sim_plain _ _ Sz)|done]|]].
      apply HoldAll_cons. exists (xs ++ p), rv. split_and!; [done|done|apply Hbl|by rewrite Hpr, (assoc_L (++))]. }
    destruct (build_union l2 (xs ++ ys) Hb') as [Hbu HH]; [apply Permutation_length in Hl0p; apply Permutation_length in Hl2; cbn in *; lia|].
    apply (decides_ret _ _ (SUnion l2, total_values l2)); [done| |split; [done|]].
    + eapply evals_bind; [exact Hev|]. by apply evals_eq.
    + cbn [fst]. apply (sim_trans _ (SUnion (z :: l))).
      * apply (sim_union l2 l2); [|done]. clear. induction l2; by constructor.
      * apply (sim_union (z :: l) (u :: l)); [|done]. constructor; [done|]. clear. induction l; by constructor.
Qed.

Lemma merge_variants d us : (forall x y, small d x -> (depth y.1 <= d)%nat -> merges x y) ->
  forall xs y ys, HoldAll us xs -> Forall (small d) us -> Holds y ys -> (depth y.1 <= d)%nat ->
  decides (forallb (fun u => is_subtype u.1 y.1) us) (fun n => foldM (fun accumulated union_type => op_merge (ops_of n) union_type accumulated) y us) (merged (xs ++ ys) y).
Proof.
  intros Hm. induction us as [|u us IH]; intros xs y ys Hx Hs Hy Hd.
  - apply HoldAll_nil_inv in Hx as ->. apply (decides_ret _ _ y); [done|by apply evals_eq|]. by split; [|apply sim_refl].
  - apply HoldAll_cons in Hx as (p & ws & Hne & Hhu & Hws & Hp). apply Forall_cons in Hs as [Hu Hs]. cbn [forallb foldM].
    eapply decides_bind; [by apply (Hm u y)|]. intros z [Hz Sz].
    rewrite (forallb_ext_elem _ (fun u => is_subtype u.1 z.1)) by (intros w _; by rewrite (sim_right _ _ Sz)).
    eapply decides_impl; [|apply (IH ws z (p ++ ys)); [done|done|done|by rewrite (sim_depth _ _ Sz)]].
    intros r [Hr Sr]. split; [|by eapply sim_trans]. eapply Holds_perm; [|done]. rewrite Hp, !(assoc_L (++)). f_equiv. apply Permutation_app_comm.
Qed.

Lemma merge_union d us n y : (forall x y, small d x -> (depth y.1 <= d)%nat -> merges x y) -> (depth (SUnion us) <= d)%nat -> (depth y.1 <= d)%nat -> merges (SUnion us, n) y.
Proof.
  intros Hm Hd Hdy xs ys (_ & Hu & Ht) Hhy. cbn [fst] in *. apply Builds_union in Hu as [_ (_ & Hpl & Hw)]; [|done]. apply decides_S. cbn [ops_of op_merge]. unfold merge_if_subtype. cbn [fst snd].
  rewrite union_subtype_of. destruct y as [y m]. apply (decides_eq _ _ (fun n => foldM (fun accumulated union_type => op_merge (ops_of n) union_type accumulated) (y, m) us)); [intros k; by destruct y|].
  apply (merge_variants d); [done|done| |done|done]. rewrite Forall_forall in *. intros u Hin. split; [by apply Hpl|]. apply (nmax_elem (fun u => depth u.1)) in Hin. cbn [depth] in Hd. lia.
Qed.

(** ** All merges *)

Lemma merge_mismatch x y : composite x.1 -> composite y.1 -> match x.1, y.1 with SArray _, SArray _ | SObject _, SObject _ | SObject _, SRecord _ _ | SRecord _ _, SRecord _ _ => False | _, _ => True end -> merges x y.
Proof.
  intros Hx Hy Hxy xs ys _ _. apply decides_S, decides_err; [rewrite is_subtype_equation|apply evals_eq; intros n; cbn [ops_of op_merge]; unfold merge_if_subtype]; destruct x as [[] ?], y as [[] ?]; done.
Qed.

Lemma plain_merges_of d : (forall d', (d' < d)%nat -> merges_to d') -> plain_merges d.
Proof.
  intros IH x y [Hx Hdx] [Hy Hdy]. assert (Hc : (composite x.1 /\ composite y.1) \/ ~ (composite x.1 /\ composite y.1)) by (destruct x.1, y.1; cbn; tauto).
  destruct Hc as [[Hcx Hcy]|Hc]; [|by apply merge_simple]. destruct d as [|d]; [by destruct x as [[] ?]; cbn in Hdx; try lia|]. specialize (IH d ltac:(lia)).
  destruct x as [x n], y as [y m]. cbn [fst] in *. destruct x as [| | | | | | | | | | | | | | |e|fs|f v|us|]; try done; destruct y as [| | | | | | | | | | | | | | |e'|gs|f' v'|us'|]; try done; try (by apply merge_mismatch); cbn [depth] in *.
  - apply merge_array, IH; lia.
  - apply merge_objects. intros a b Ha Hb%get_elem. apply (nmax_elem (fun e => depth e.2.1.1)) in Ha. apply (nmax_elem (fun e => depth e.2.1.1)) in Hb. cbn [fst snd] in *. apply IH; lia.
  - apply (merge_into_record d); [done| |lia|lia]. intros e He. apply (nmax_elem (fun e => depth e.2.1.1)) in He. lia.
  - apply merge_records; apply IH; lia.
Qed.

Lemma merges_all d : plain_merges d /\ merges_to d.
Proof.
  induction d as [d IH] using lt_wf_ind. assert (Hp : plain_merges d) by (apply plain_merges_of; intros d' Hd'; by apply IH). split; [done|].
  assert (Hhalf : forall x y, small d x -> (depth y.1 <= d)%nat -> merges x y).
  { intros x y Hx Hd. destruct y as [y m]. assert (plain y \/ exists us, y = SUnion us) as [Hy|[us ->]] by (destruct y; try (by left); right; by eexists); [by apply Hp|by apply (merge_into_union d)]. }
  intros [x n] y Hdx Hdy. assert (plain x \/ exists us, x = SUnion us) as [Hx|[us ->]] by (destruct x; try (by left); right; by eexists); [by apply Hhalf|by apply (merge_union d)].
Qed.
End union.
