(* ===== verification/ShapeCandidates.v ===== *)
(** * ShapeCandidates: supertypes of sets of shapes
      (src/crates/shape_inference/src/supertype.rs)

    Every candidate is a shape that holds the values of all the shapes it
    replaces. *)

From S2P Require Import Prelude Ord BTreeMap Identifier Value Sorting Base32 IdV6 Document Validator Shape ShapeInference ShapeMultiset ShapeMerge ShapeUnion.

Local Open Scope Z_scope.

Lemma evals_fold_inv {St A} (F : nat -> St -> A -> outcome unit St) (I : list A -> St -> Prop) l s :
  I [] s ->
  (forall pre x post s, l = pre ++ x :: post -> I pre s -> exists s', evals (fun n => F n s x) (Ret s') /\ I (pre ++ [x]) s') ->
  exists s', evals (E := unit) (fun n => foldM (E := unit) (F n) s l) (Ret s') /\ I l s'.
Proof.
  intros H0 Hstep. destruct (decides_fold F (fun _ => true) I l s H0) as [[Hb _]|[_ Hr]]; [|exfalso|exact Hr].
  - intros pre x post s0 Hl Hs. right. split; [done|by eapply Hstep].
  - apply not_true_iff_false in Hb. apply Hb, forallb_elem. done.
Qed.

(** ** The shapes at the indexes of a candidate *)

Lemma bfilter_ext {A} (p q : A -> bool) l : (forall x, x ∈ l -> p x = q x) -> bfilter p l = bfilter q l.
Proof.
  induction l as [|x l IH]; intros Hpq; [done|]. cbn [bfilter]. rewrite (Hpq x) by (by left). rewrite IH; [done|]. intros y Hy. apply Hpq. by right.
Qed.

Lemma bfilter_map {A B} (p : B -> bool) (f : A -> B) l : map f (bfilter (fun x => p (f x)) l) = bfilter p (map f l).
Proof. induction l as [|x l IH]; [done|]. cbn. destruct (p (f x)); cbn; by rewrite IH. Qed.

Lemma bfilter_split {A} (p : A -> bool) l : l ≡ₚ bfilter p l ++ bfilter (fun x => negb (p x)) l.
Proof. induction l as [|x l IH]; [done|]. cbn [bfilter]. destruct (p x); cbn [negb app]; [by rewrite <- IH|]. rewrite <- Permutation_middle. by rewrite <- IH. Qed.

Lemma elem_of_indexed {A} (l : list A) e : e ∈ imap pair l <-> l !! e.1 = Some e.2.
Proof.
  rewrite list_elem_of_lookup. split.
  - intros [i Hi]. rewrite list_lookup_imap in Hi. destruct (l !! i) as [x|] eqn:Hx; [|done]. cbn in Hi. injection Hi as <-. done.
  - intros Hl. exists e.1. rewrite list_lookup_imap, Hl. by destruct e.
Qed.

Lemma map_snd_indexed {A} (l : list A) : map snd (imap pair l) = l.
Proof.
  assert (Hg : forall k, map snd (imap (fun i (x : A) => ((k + i)%nat, x)) l) = l); [|apply (Hg 0%nat)].
  induction l as [|x l IH]; intros k; [done|]. cbn [imap map snd]. f_equal. rewrite <- (IH (S k)) at 2. f_equal. apply imap_ext. intros i y _. cbn. f_equal. lia.
Qed.

Section candidates.
Context `{ShapeConfig}.

Definition picked (p : ShapeEnum -> bool) (types : list Shape) : list Shape := bfilter (fun t : Shape => p t.1) types.
Definition others (p : ShapeEnum -> bool) (types : list Shape) : list Shape := bfilter (fun t : Shape => negb (p t.1)) types.

Lemma picked_indexed p types : map snd (bfilter (fun e : nat * Shape => p e.2.1) (imap pair types)) = picked p types.
Proof. unfold picked. rewrite <- (map_snd_indexed types) at 2. apply (bfilter_map (fun t : Shape => p t.1) snd). Qed.

Lemma indexes_where_length p types : length (indexes_where p types) = length (picked p types).
Proof. rewrite <- picked_indexed. unfold indexes_where. by rewrite !length_map. Qed.

Lemma elem_of_indexes p types i : i ∈ indexes_where p types <-> exists t, types !! i = Some t /\ p t.1 = true.
Proof.
  unfold indexes_where. rewrite list_elem_of_fmap. split.
  - intros (e & -> & He). apply elem_of_bfilter in He as [He%elem_of_indexed Hp]. by exists e.2.
  - intros (t & Ht & Hp). exists (i, t). split; [done|]. apply elem_of_bfilter. split; [by apply elem_of_indexed|done].
Qed.

Lemma values_at_where p types : values_at types (indexes_where p types) = total_values (picked p types).
Proof.
  unfold values_at. f_equal. rewrite <- picked_indexed. unfold indexes_where.
  assert (Hin : forall e, e ∈ bfilter (fun e : nat * Shape => p e.2.1) (imap pair types) -> types !! e.1 = Some e.2).
  { intros e [He _]%elem_of_bfilter. by apply elem_of_indexed. }
  revert Hin. generalize (bfilter (fun e : nat * Shape => p e.2.1) (imap pair types)). intros l. induction l as [|e l IH]; intros Hin; [done|].
  cbn [map flat_map]. rewrite (Hin e) by (by left). cbn [app]. f_equal. apply IH. intros e' He'. apply Hin. by right.
Qed.

Lemma without_where p types : without_indexes types (indexes_where p types) = others p types.
Proof.
  unfold without_indexes, others. transitivity (bfilter (fun t : Shape => negb (p t.1)) (map snd (imap pair types))); [|by rewrite map_snd_indexed]. rewrite <- (bfilter_map (fun t : Shape => negb (p t.1)) snd). f_equal.
  apply bfilter_ext. intros e He%elem_of_indexed. f_equal. apply eq_true_iff_eq. rewrite bool_decide_eq_true, elem_of_indexes. split; [|intros Hp; by exists e.2].
  intros (t & Ht & Hp). congruence.
Qed.

Lemma picked_HoldAll p types ws : HoldAll types ws -> exists pv rv, HoldAll (picked p types) pv /\ HoldAll (others p types) rv /\ ws ≡ₚ pv ++ rv.
Proof. intros Hw. apply HoldAll_app. apply (HoldAll_perm types _ ws); [|done|done]. apply bfilter_split. Qed.

Lemma HoldAll_total us vs : HoldAll us vs -> total_values us = zlen vs.
Proof.
  revert vs. induction us as [|u us IH]; intros vs Hu; [by rewrite (HoldAll_nil_inv vs Hu)|].
  apply HoldAll_cons in Hu as (p & ws & _ & (Hn & _) & Hw & Hv). cbn [total_values foldr]. change (foldr _ 0 us) with (total_values us).
  rewrite (IH ws Hw), Hn. unfold zlen. rewrite (Permutation_length Hv), length_app. lia.
Qed.

Lemma HoldAll_texts us vs : HoldAll us vs -> texts vs.
Proof.
  revert vs. induction us as [|u us IH]; intros vs Hu; [rewrite (HoldAll_nil_inv vs Hu); constructor|].
  apply HoldAll_cons in Hu as (p & ws & _ & (_ & _ & Hp) & Hw & Hv). apply (texts_perm (p ++ ws)); [done|]. apply Forall_app. split; [done|]. by apply IH.
Qed.

Lemma HoldAll_ne us vs : HoldAll us vs -> (1 <= length us)%nat -> vs <> [].
Proof.
  intros Hu Hl. destruct us as [|u us]; [cbn in Hl; lia|]. apply HoldAll_cons in Hu as (p & ws & Hne & _ & _ & Hv). intros ->. apply Permutation_nil_l in Hv. by destruct p.
Qed.

(** A candidate that replaces the shapes that satisfy [p]: there is none under
    the condition [N], and it satisfies [Q]. *)
Definition cand_ok (d : nat) (p : ShapeEnum -> bool) (types : list Shape) (N : Prop) (Q : Shape -> Prop) (c : nat -> outcome unit (option (Shape * list nat))) : Prop :=
  forall pv, HoldAll (picked p types) pv ->
  (evals c (Ret None) /\ N) \/
  exists y, evals c (Ret (Some (y, indexes_where p types))) /\ Holds y pv /\ small d y /\ Q y /\ (2 <= length (picked p types))%nat.

Definition few (p : ShapeEnum -> bool) (types : list Shape) : Prop := (length (picked p types) < 2)%nat.

(** ** Leaves *)

Lemma leaf_candidate_ok d variant p types :
  match variant with SArray _ | SObject _ | SRecord _ _ | SUnion _ | SNever | SUnknown => False | _ => True end ->
  (forall s, p s = true -> is_subtype s variant = true) -> cand_ok d p types (few p types) (fun y => y.1 = variant) (fun _ => leaf_candidate variant p types).
Proof.
  intros Hleaf Hp pv Hv. unfold leaf_candidate. rewrite indexes_where_length, values_at_where. destruct (Nat.ltb_spec (length (picked p types)) 2); [left; split; [by apply evals_eq|done]|].
  right. exists (variant, total_values (picked p types)). assert (HH : Holds (variant, total_values (picked p types)) pv).
  { split_and!; cbn [fst snd]; [by apply HoldAll_total| |by eapply HoldAll_texts].
    assert (Hall : Forall (fun v => contains variant v = true) pv).
    { rewrite Forall_forall. intros v Hin. destruct Hv as (parts & Hpp & Hf). rewrite Hpp in Hin. apply list_elem_of_In, in_concat in Hin as (q & Hq%list_elem_of_In & Hin%list_elem_of_In).
      apply list_elem_of_lookup in Hq as [i Hi]. destruct (Forall2_lookup_r _ _ _ _ _ Hf Hi) as (u & Hu & _ & _ & Hh & Ht). apply list_elem_of_lookup_2, elem_of_bfilter in Hu as [_ Hu].
      apply (is_subtype_ok u.1); [apply wf_leaf; by destruct variant| |by apply Hp|by eapply holds_contains]. unfold texts in Ht. rewrite Forall_forall in Ht. by apply Ht. }
    pose proof (HoldAll_ne _ _ Hv ltac:(lia)) as Hne. by destruct variant. }
  split; [|split; [done|split; [split|done]]].
  - apply evals_eq. intros _. by rewrite (shape_new_ok _ _ _ HH).
  - by destruct variant.
  - destruct variant; try done; cbn; lia.
Qed.

Lemma float_subtypes s : is_float s = true -> is_subtype s SFloat64 = true.
Proof. rewrite is_subtype_equation. by destruct s. Qed.

Lemma string_subtypes s : is_string_shape s = true -> is_subtype s SString = true.
Proof. rewrite is_subtype_equation. by destruct s. Qed.

Lemma field_name_subtypes s : is_field_name_shape s = true -> is_subtype s SFieldName = true.
Proof. rewrite is_subtype_equation. by destruct s. Qed.

Lemma id_subtypes n s : bool_decide (id_table s = Some n) = true -> is_subtype s (SId n) = true.
Proof.
  rewrite bool_decide_eq_true, is_subtype_equation. destruct s; try done; cbn; [|intros [= ->]; lia]. destruct (decode literal) as [i|e|]; [|done..]. intros [= ->]. lia.
Qed.

Lemma unknown_candidate_ok types ws : HoldAll types ws ->
  (forall o : nat, unknown_candidate types = Ret (Some ((SUnknown, total_values types), indexes_where (fun _ => true) types))) /\ Holds (SUnknown, total_values types) ws.
Proof.
  intros Hw. assert (HH : Holds (SUnknown, total_values types) ws) by (split_and!; [by apply HoldAll_total|done|by eapply HoldAll_texts]).
  split; [|done]. intros _. unfold unknown_candidate. rewrite (shape_new_ok _ _ _ HH). cbn [obind]. do 4 f_equal. unfold indexes_where.
  rewrite bfilter_all by done. clear. assert (Hg : forall k, seq k (length types) = map fst (imap (fun i (x : Shape) => ((k + i)%nat, x)) types)); [|apply (Hg 0%nat)].
  induction types as [|x types IH]; intros k; [done|]. cbn [length seq imap map fst]. f_equal; [lia|]. rewrite (IH (S k)). f_equal. apply imap_ext. intros i y _. cbn. f_equal. lia.
Qed.

(** ** Candidates with parts *)

Definition fieldy (u : Shape) : Prop := is_subtype u.1 SFieldName = true.
Definition smaller (d : nat) (u : Shape) : Prop := plain u.1 /\ (depth u.1 < d)%nat.

(** The builders of smaller unions, and that shapes can be pushed into them. *)
Definition builder (d : nat) (us : list Shape) (ws : list ConvexValue) : Prop :=
  Builds us ws /\ Forall (smaller d) us /\ (length us <= MAX_UNION_LENGTH)%nat.
Definition push_lt (d : nat) : Prop := forall us ws x xs, builder d us ws -> (depth x.1 < d)%nat -> Holds x xs ->
  exists us', evals (fun n => op_push (ops_of n) us x) (Ret us') /\ builder d us' (xs ++ ws) /\ (Forall fieldy us -> fieldy x -> Forall fieldy us').

Lemma builder_nil d : builder d [] [].
Proof. split; [split; [done|split; [constructor|apply HoldAll_nil]]|split; [constructor|cbn; lia]]. Qed.

Lemma builder_perm d us ws ws' : ws ≡ₚ ws' -> builder d us ws -> builder d us ws'.
Proof. intros Hw (Hb & Hs & Hl). split_and!; [by eapply Builds_perm|done|done]. Qed.

Lemma builder_build d us ws : builder d us ws -> (0 < d)%nat ->
  exists s, build us = Ret s /\ Holds s ws /\ (depth s.1 < d)%nat /\ (Forall fieldy us -> fieldy s).
Proof.
  intros (Hb & Hs & Hl) Hd. destruct (build_ok us ws Hb Hl) as (s & Hbu & Hh & Hds & Hf). exists s. split_and!; [done|done| |].
  - assert (Hm : (nmax (map (fun u : Shape => depth u.1) us) < d)%nat); [|lia]. clear -Hs Hd. induction Hs as [|u us [_ Hu] _ IH]; [done|]. unfold nmax in *. cbn in *. lia.
  - rewrite Forall_forall. apply Hf.
Qed.

Lemma foldM_picked {S} p (f : S -> Shape -> outcome unit S) types : (forall s t, p t.1 = false -> f s t = Ret s) -> forall s, foldM f s types = foldM f s (picked p types).
Proof.
  intros Hf. induction types as [|t types IH]; intros s; [done|]. unfold picked. cbn [bfilter]. change (bfilter _ types) with (picked p types).
  destruct (p t.1) eqn:Hp; cbn [foldM]; [destruct (f s t); cbn; auto|]. rewrite Hf by done. apply IH.
Qed.

Lemma picked_small d p types : Forall (small d) types -> Forall (small d) (picked p types).
Proof. rewrite !Forall_forall. intros Hs t [Ht _]%elem_of_bfilter. by apply Hs. Qed.

Lemma picked_all p types t : t ∈ picked p types -> p t.1 = true.
Proof. by intros [_ ?]%elem_of_bfilter. Qed.

Lemma identifier_field_name k : bytes k -> is_valid_identifier k = true -> is_valid_field_name k = true.
Proof.
  intros Hb Hi. unfold is_valid_identifier in Hi. destruct (check_valid_identifier k) as [u|e|] eqn:Hc; [|done..].
  apply check_valid_identifier_spec in Hc as ((c & l & -> & Hc) & Hf & Hl & _). unfold is_valid_field_name.
  rewrite (proj2 (check_valid_field_name_spec _ tt Hb)); [done|]. split_and!.
  - cbn. intros [= ->]. destruct Hc; [ascii_lia|done].
  - eapply Forall_impl; [done|]. unfold field_char. intros x [Hx|Hx]; [ascii_lia|subst; unfold underscore; lia].
  - unfold MAX_FIELD_NAME_LENGTH, MAX_IDENTIFIER_LEN in *. lia.
Qed.

Lemma string_shape_fieldy k n : is_valid_field_name k = true -> fieldy (string_shape_of k, n).
Proof.
  intros Hk. unfold fieldy, string_shape_of. cbn [fst]. rewrite is_subtype_equation, Hk. by destruct (is_valid_string_literal k), (decode k).
Qed.

Lemma picked_deep d p types : Forall (small d) types -> (forall s, p s = true -> composite s) -> (1 <= length (picked p types))%nat -> (0 < d)%nat.
Proof.
  intros Hs Hp Hl. destruct (picked p types) as [|t l] eqn:Hpk; [cbn in Hl; lia|]. assert (Hin : t ∈ picked p types) by (rewrite Hpk; by left).
  pose proof (Hp _ (picked_all _ _ _ Hin)) as Ht. apply elem_of_bfilter in Hin as [Hin _]. rewrite Forall_forall in Hs. destruct (Hs t Hin) as [_ Hd]. destruct t as [[] ?]; try done; cbn in Hd; lia.
Qed.

Section parts.
Context (d : nat) (Hpush : push_lt d).

Lemma array_fold types : forall pv b bv, HoldAll types pv -> Forall (small d) types -> (forall t, t ∈ types -> is_array_shape t.1 = true) -> builder d b bv ->
  exists arrays b', pv ≡ₚ map Array arrays /\
    evals (E := unit) (fun n => foldM (E := unit) (fun element (t : Shape) => match t.1 with SArray e => op_push (ops_of n) element e | _ => Ret element end) b types) (Ret b') /\
    builder d b' (concat arrays ++ bv).
Proof.
  induction types as [|[t m] types IH]; intros pv b bv Hv Hs Ha Hb; [apply HoldAll_nil_inv in Hv as ->; exists [], b; split_and!; [done|by apply evals_eq|apply Hb..]|].
  apply HoldAll_cons in Hv as (p & ws & Hne & Hh & Hws & Hv). apply Forall_cons in Hs as [[_ Hd] Hs]. pose proof (Ha _ (list_elem_of_here _ _)) as Ht. cbn [fst] in *.
  destruct t; try done. apply Holds_array in Hh as (_ & _ & arrays & Hp & Hel). cbn [depth] in Hd.
  destruct (Hpush b bv element (concat arrays) Hb ltac:(lia) Hel) as (b1 & Hev1 & Hb1 & _).
  destruct (IH ws b1 (concat arrays ++ bv) Hws Hs) as (arrays' & b' & Hp' & Hev & Hb'); [intros t' Ht'; apply Ha; by right|done|].
  exists (arrays ++ arrays'), b'. split_and!; [by rewrite Hv, Hp, Hp', map_app|eapply evals_fold; [exact Hev1|exact Hev]|..].
  eapply builder_perm; [|exact Hb']. rewrite concat_app, !(assoc_L (++)). f_equiv. apply Permutation_app_comm.
Qed.

Lemma array_candidate_ok types : Forall (small d) types -> cand_ok d is_array_shape types (few is_array_shape types) (fun _ => True) (fun n => array_candidate (ops_of n) types).
Proof.
  intros Hs pv Hv. destruct (array_fold (picked is_array_shape types) pv [] [] Hv (picked_small _ _ _ Hs)) as (arrays & b & Hp & Hev & Hb); [apply picked_all|apply builder_nil|].
  rewrite app_nil_r in Hb.
  assert (Hfold : evals (E := unit) (fun n => foldM (E := unit) (fun element (t : Shape) => match t.1 with SArray e => op_push (ops_of n) element e | _ => Ret element end) [] types) (Ret b)).
  { destruct Hev as [n0 Hn]. exists n0. intros n Hle. rewrite (foldM_picked is_array_shape); [by apply Hn|]. intros s t Ht. by destruct t.1. }
  unfold array_candidate. destruct (Nat.ltb_spec (length (picked is_array_shape types)) 2) as [Hl|Hl].
  - left. split; [|done]. eapply evals_bind; [exact Hfold|]. apply evals_eq. intros _. rewrite indexes_where_length. by rewrite (proj2 (Nat.ltb_lt _ _) Hl).
  - right. assert (Hd : (0 < d)%nat) by (apply (picked_deep d is_array_shape types Hs); [by intros []|lia]).
    destruct (builder_build d b (concat arrays) Hb Hd) as (e & Hbu & He & Hde & _). set (m := total_values (picked is_array_shape types)).
    assert (HH : Holds (SArray e, m) pv).
    { apply Holds_array. split_and!; [by apply HoldAll_total|apply (HoldAll_ne _ _ Hv); lia|]. by exists arrays. }
    exists (SArray e, m). split; [|split; [exact HH|split; [split; [done|cbn [fst depth]; lia]|done]]]. eapply evals_bind; [exact Hfold|]. apply evals_eq. intros _. rewrite indexes_where_length, values_at_where.
    rewrite (proj2 (Nat.ltb_ge _ _) Hl), Hbu. cbn [obind]. fold m. by rewrite (shape_new_ok _ _ _ HH).
Qed.

(** The unions of the names and of the values of some entries. *)
Definition record_builder (fv : list Shape * list Shape) (es : list (list Z * ConvexValue)) : Prop :=
  builder d fv.1 (names es) /\ builder d fv.2 (map snd es) /\ Forall fieldy fv.1.

Lemma record_builder_perm fv es es' : es ≡ₚ es' -> record_builder fv es -> record_builder fv es'.
Proof. intros He (H1 & H2 & H3). unfold record_builder, names in *. split_and!; [eapply builder_perm; [|exact H1]|eapply builder_perm; [|exact H2]|done]; by rewrite He. Qed.

Lemma push_entries fv es (f v : Shape) more : record_builder fv es -> (depth f.1 < d)%nat -> (depth v.1 < d)%nat -> fieldy f ->
  Holds f (names more) -> Holds v (map snd more) ->
  exists fv', record_builder fv' (more ++ es) /\
    evals (fun n => let? field_union := op_push (ops_of n) fv.1 f in let? value_union := op_push (ops_of n) fv.2 v in Ret (field_union, value_union)) (Ret fv').
Proof.
  intros (Hf & Hv & Hfy) Hdf Hdv Hff Hhf Hhv. destruct (Hpush _ _ f _ Hf Hdf Hhf) as (fu & Hev1 & Hfu & Hffu). destruct (Hpush _ _ v _ Hv Hdv Hhv) as (vu & Hev2 & Hvu & _).
  exists (fu, vu). unfold record_builder, names in *. cbn [fst snd]. rewrite !map_app. split; [split_and!; [done|done|by apply Hffu]|].
  eapply evals_bind; [exact Hev1|]. eapply evals_bind; [exact Hev2|]. by apply evals_eq.
Qed.

Lemma object_entries ox fs : texts (map Object ox) -> Forall (field_ok ox) fs -> (forall e, e ∈ fs -> (depth e.2.1.1 < d)%nat) -> forall fv es, record_builder fv es ->
  exists fv', record_builder fv' (entries_of ox fs ++ es) /\
    evals (E := unit) (fun n => foldM (E := unit) (fun (fv : list Shape * list Shape) (e : list Z * (Shape * bool)) =>
        let? field_name_type := shape_new (string_shape_of e.1) e.2.1.2 in
        let? field_union := op_push (ops_of n) fv.1 field_name_type in
        let? value_union := op_push (ops_of n) fv.2 e.2.1 in
        Ret (field_union, value_union)) fv fs) (Ret fv').
Proof.
  intros Ht. induction fs as [|e fs IH]; intros Hfs Hd fv es Hfv; [exists fv; split; [done|by apply evals_eq]|]. apply Forall_cons in Hfs as [(Hid & Hne & _ & Hh) Hfs].
  pose proof (column_bytes _ _ Ht Hne) as Hbytes. pose proof (string_shape_holds e.1 _ Hne Hbytes) as Hk. assert (Hde : (depth e.2.1.1 < d)%nat) by (apply Hd; by left).
  destruct (push_entries fv es (string_shape_of e.1, e.2.1.2) e.2.1 (map (pair e.1) (column e.1 ox)) Hfv) as (fv1 & Hfv1 & Hev1); [cbn [fst]; rewrite string_shape_depth; lia|done|apply string_shape_fieldy; by apply identifier_field_name| | |].
  { assert (Hc : e.2.1.2 = zlen (column e.1 ox)) by apply Hh. by rewrite Hc. }
  { rewrite map_map. cbn [snd]. by rewrite map_id. }
  destruct (IH Hfs (fun e He => Hd e (list_elem_of_further _ _ _ He)) fv1 _ Hfv1) as (fv' & Hfv' & Hev). exists fv'. split.
  - eapply record_builder_perm; [|exact Hfv']. cbn [entries_of flat_map]. rewrite !(assoc_L (++)). f_equiv. apply Permutation_app_comm.
  - eapply evals_fold; [|exact Hev]. assert (Hc : e.2.1.2 = zlen (column e.1 ox)) by apply Hh. rewrite Hc in *. rewrite (shape_new_ok _ _ _ Hk). exact Hev1.
Qed.

Definition is_objects (s : ShapeEnum) : bool := is_record_shape s || is_object_shape s.

Lemma record_fold types : forall pv fv es, HoldAll types pv -> Forall (small d) types -> (forall t, t ∈ types -> is_objects t.1 = true) -> record_builder fv es ->
  exists objects fv', pv ≡ₚ map Object objects /\ evals (E := unit) (fun n => foldM (E := unit) (add_record (ops_of n)) fv types) (Ret fv') /\ record_builder fv' (concat objects ++ es).
Proof.
  induction types as [|[t m] types IH]; intros pv fv es Hv Hs Ha Hfv; [apply HoldAll_nil_inv in Hv as ->; exists [], fv; split_and!; [done|by apply evals_eq|apply Hfv..]|].
  apply HoldAll_cons in Hv as (p & ws & Hne & Hh & Hws & Hv). apply Forall_cons in Hs as [[_ Hd] Hs]. pose proof (Ha _ (list_elem_of_here _ _)) as Ht. cbn [fst] in *.
  assert (Hone : exists objects fv1, p ≡ₚ map Object objects /\ evals (fun n => add_record (ops_of n) fv (t, m)) (Ret fv1) /\ record_builder fv1 (concat objects ++ es)).
  { destruct t as [| | | | | | | | | | | | | | | |fs|f v| |]; try done; cbn [depth] in Hd; unfold add_record; cbn [fst snd].
    - apply Holds_object in Hh as (_ & _ & Hwf & _ & ox & Hp & Htx & Hnd & Hk & Hf). destruct (object_entries ox fs Htx Hf) with (fv := fv) (es := es) as (fv1 & Hfv1 & Hev); [|done|].
      { intros e He. apply (nmax_elem (fun e => depth e.2.1.1)) in He. lia. }
      exists ox, fv1. split_and!; [done|exact Hev|..]. eapply record_builder_perm; [|exact Hfv1]. by rewrite (entries_by_column fs ox Hwf Hnd Hk).
    - apply Holds_record in Hh as (_ & _ & Hff & ox & Hp & Hhf & Hhv). destruct (push_entries fv es f v (concat ox) Hfv) as (fv1 & Hfv1 & Hev); [lia|lia|done..|]. exists ox, fv1. by split_and!. }
  destruct Hone as (ox & fv1 & Hp & Hev1 & Hfv1). destruct (IH ws fv1 (concat ox ++ es) Hws Hs) as (oy & fv' & Hp' & Hev & Hfv'); [intros t' Ht'; apply Ha; by right|exact Hfv1|].
  exists (ox ++ oy), fv'. split_and!; [by rewrite Hv, Hp, Hp', map_app|by eapply evals_fold|].
  eapply record_builder_perm; [|exact Hfv']. rewrite concat_app, !(assoc_L (++)). f_equiv. apply Permutation_app_comm.
Qed.

Lemma record_candidate_ok types : Forall (small d) types -> cand_ok d is_objects types (few is_objects types) (fun _ => True) (fun n => record_candidate (ops_of n) types).
Proof.
  intros Hs pv Hv. destruct (record_fold (picked is_objects types) pv ([], []) [] Hv (picked_small _ _ _ Hs)) as (objects & fv & Hp & Hev & Hfv); [apply picked_all|by split_and!; [apply builder_nil..|]|].
  rewrite app_nil_r in Hfv.
  assert (Hfold : evals (E := unit) (fun n => foldM (E := unit) (add_record (ops_of n)) ([], []) types) (Ret fv)).
  { destruct Hev as [n0 Hn]. exists n0. intros n Hle. rewrite (foldM_picked is_objects); [by apply Hn|]. intros s t Ht. unfold add_record. by destruct t.1. }
  unfold record_candidate. fold is_objects. destruct (Nat.ltb_spec (length (picked is_objects types)) 2) as [Hl|Hl].
  - left. split; [|done]. eapply evals_bind; [exact Hfold|]. apply evals_eq. intros _. destruct fv as [fu vu]. rewrite indexes_where_length. by rewrite (proj2 (Nat.ltb_lt _ _) Hl).
  - right. assert (Hd : (0 < d)%nat) by (apply (picked_deep d is_objects types Hs); [by intros []|lia]).
    destruct Hfv as (Hfu & Hvu & Hfy). destruct (builder_build d _ _ Hfu Hd) as (f & Hbf & Hhf & Hdf & Hff). destruct (builder_build d _ _ Hvu Hd) as (v & Hbv & Hhv & Hdv & _).
    set (m := total_values (picked is_objects types)). assert (HH : Holds (SRecord f v, m) pv).
    { apply Holds_record. split_and!; [by apply HoldAll_total|apply (HoldAll_ne _ _ Hv); lia|by apply Hff|]. by exists objects. }
    exists (SRecord f v, m). split; [|split; [exact HH|split; [split; [done|cbn [fst depth]; lia]|done]]]. eapply evals_bind; [exact Hfold|]. apply evals_eq. intros _. destruct fv as [fu vu]. cbn [fst snd] in *.
    rewrite indexes_where_length, values_at_where, (proj2 (Nat.ltb_ge _ _) Hl), Hbf. cbn [obind]. rewrite Hbv. cbn [obind]. rewrite (record_new_ok _ _ _ _ HH). cbn [obind]. fold m. by rewrite (shape_new_ok _ _ _ HH).
Qed.

(** *** Objects *)

Notation objects := (list (list (list Z * ConvexValue))) (only parsing).
Notation builders := (BTreeMap.t (list Z) (list Shape)) (only parsing).
Notation optionals := (BTreeMap.t (list Z) unit) (only parsing).

(** The builders of the fields and the optional fields of the objects so far. *)
Definition fields_built (O : objects) (fb : builders) : Prop := BTreeMap.wf fb /\
  forall k, match BTreeMap.get k fb with Some b => column k O <> [] /\ builder d b (column k O) /\ is_valid_identifier k = true | None => column k O = [] end.
Definition optional_known (O : objects) (opt : optionals) : Prop := BTreeMap.wf opt /\
  forall k, is_Some (BTreeMap.get k opt) <-> column k O <> [] /\ (length (column k O) < length O)%nat.

(** The fields of one more object shape. *)
Definition field_added (O' O : objects) (fb : builders) (opt : optionals) (n : Z) (pre : list (list Z * (Shape * bool))) (st : builders * optionals) : Prop :=
  BTreeMap.wf st.1 /\ BTreeMap.wf st.2 /\ forall k,
  match BTreeMap.get k pre with
  | Some x => (exists b, BTreeMap.get k st.1 = Some b /\ builder d b (column k O' ++ column k O)) /\
      (is_Some (BTreeMap.get k st.2) <-> is_Some (BTreeMap.get k opt) \/ x.2 = true \/ (BTreeMap.get k fb = None /\ 0 < n))
  | None => BTreeMap.get k st.1 = BTreeMap.get k fb /\ BTreeMap.get k st.2 = BTreeMap.get k opt
  end.

Lemma get_Some_insert {V} (k q : list Z) (v : V) m : BTreeMap.wf m -> is_Some (BTreeMap.get k (BTreeMap.insert q v m)) <-> k = q \/ is_Some (BTreeMap.get k m).
Proof. intros Hm. rewrite BTreeMap.get_insert_if by done. destruct (decide (k = q)) as [->|Hne]; [split; [by left|by eexists]|]. split; [by right|by intros [?|?]]. Qed.

Lemma add_fields O' O fb opt n fields : BTreeMap.wf fields -> Forall (field_ok O') fields -> (forall e, e ∈ fields -> (depth e.2.1.1 < d)%nat) ->
  fields_built O fb -> BTreeMap.wf opt ->
  exists st, evals (E := unit) (fun m => foldM (E := unit) (fun (fo : builders * optionals) (e : list Z * (Shape * bool)) =>
          let optional_fields := if e.2.2 then BTreeMap.insert e.1 tt fo.2 else fo.2 in
          let optional_fields :=
            match BTreeMap.get e.1 fo.1 with
            | None => if 0 <? n then BTreeMap.insert e.1 tt optional_fields else optional_fields
            | Some _ => optional_fields
            end in
          let? builder := op_push (ops_of m) (default [] (BTreeMap.get e.1 fo.1)) e.2.1 in
          Ret (BTreeMap.insert e.1 builder fo.1, optional_fields)) (fb, opt) fields) (Ret st) /\ field_added O' O fb opt n fields st.
Proof.
  intros Hwf Hf Hd [Hwb Hb] Hwo. rewrite Forall_forall in Hf. apply (evals_fold_inv _ (field_added O' O fb opt n)); [by split_and!|].
  intros pre e post [fb1 opt1] Hl (Hw1 & Hw2 & Hpre). cbn [fst snd] in *. assert (He : e ∈ fields) by (subst fields; set_solver).
  assert (Hp : BTreeMap.get e.1 pre = None) by (subst fields; by eapply get_prefix). pose proof (Hpre e.1) as Hpe. rewrite Hp in Hpe. destruct Hpe as [Hfe Hoe].
  destruct (Hf e He) as (_ & _ & _ & Hh).
  assert (Hold : builder d (default [] (BTreeMap.get e.1 fb1)) (column e.1 O)).
  { rewrite Hfe. specialize (Hb e.1). destruct (BTreeMap.get e.1 fb) as [b|]; [apply Hb|rewrite Hb; apply builder_nil]. }
  destruct (Hpush _ _ e.2.1 _ Hold (Hd e He) Hh) as (b' & Hev & Hb' & _). eexists. split; [eapply evals_bind; [exact Hev|by apply evals_eq]|]. cbn [fst snd].
  set (opt2 := match BTreeMap.get e.1 fb1 with None => if 0 <? n then BTreeMap.insert e.1 tt (if e.2.2 then BTreeMap.insert e.1 tt opt1 else opt1) else if e.2.2 then BTreeMap.insert e.1 tt opt1 else opt1
     | Some _ => if e.2.2 then BTreeMap.insert e.1 tt opt1 else opt1 end).
  assert (Hopt2 : BTreeMap.wf opt2 /\ forall k, is_Some (BTreeMap.get k opt2) <-> is_Some (BTreeMap.get k opt1) \/ (k = e.1 /\ (e.2.2 = true \/ (BTreeMap.get e.1 fb1 = None /\ 0 < n)))).
  { assert (H1 : BTreeMap.wf (if e.2.2 then BTreeMap.insert e.1 tt opt1 else opt1)) by (destruct e.2.2; [by apply BTreeMap.wf_insert|done]).
    assert (H2 : forall k, is_Some (BTreeMap.get k (if e.2.2 then BTreeMap.insert e.1 tt opt1 else opt1)) <-> is_Some (BTreeMap.get k opt1) \/ (k = e.1 /\ e.2.2 = true)).
    { intros k. destruct e.2.2; [rewrite get_Some_insert by done; tauto|]. split; [by left|by intros [?|[_ ?]]]. }
    unfold opt2. destruct (BTreeMap.get e.1 fb1) as [b|]; [split; [done|]; intros k; rewrite H2; naive_solver|].
    destruct (Z.ltb_spec 0 n); [split; [by apply BTreeMap.wf_insert|]; intros k; rewrite get_Some_insert, H2 by done; naive_solver|]. split; [done|]. intros k. rewrite H2. naive_solver lia. }
  destruct Hopt2 as [Hwo2 Ho2]. split_and!; [by apply BTreeMap.wf_insert|done|]. intros k. rewrite BTreeMap.get_app. specialize (Hpre k). cbn [fst snd].
  rewrite BTreeMap.get_insert_if by done. destruct e as [q x]. cbn [fst snd BTreeMap.get] in *. destruct (decide (k = q)) as [->|Hne].
  - rewrite Hp, eqb_refl in *. split; [by exists b'|]. rewrite Ho2, Hoe, Hfe. naive_solver.
  - assert (Hkq : (k ==? q) = false) by (apply not_true_iff_false; by intros ?%(proj1 (eqb_eq k q))). rewrite Hkq. destruct (BTreeMap.get k pre) as [y|].
    + destruct Hpre as [Hx Hy]. split; [done|]. rewrite Ho2, Hy. naive_solver.
    + destruct Hpre as [Hx Hy]. split; [done|]. specialize (Ho2 k). rewrite Hy in Ho2. destruct (BTreeMap.get k opt2) as [[]|], (BTreeMap.get k opt) as [[]|]; try done; exfalso.
      * destruct (proj1 Ho2) as [[? ?]|[? _]]; [by eexists|done..].
      * destruct (proj2 Ho2) as [? ?]; [left; by eexists|done].
Qed.

Lemma missing_optional (fields : list (list Z * (Shape * bool))) (fb : builders) : forall opt : optionals, BTreeMap.wf opt ->
  let opt' := fold_left (fun optional_fields (e : list Z * list Shape) =>
          match BTreeMap.get e.1 fields with Some _ => optional_fields | None => BTreeMap.insert e.1 tt optional_fields end) fb opt in
  BTreeMap.wf opt' /\ forall k, is_Some (BTreeMap.get k opt') <-> is_Some (BTreeMap.get k opt) \/ (is_Some (BTreeMap.get k fb) /\ BTreeMap.get k fields = None).
Proof.
  induction fb as [|[q b] fb IH]; intros opt Hwf; cbn [fold_left].
  - split; [done|]. intros k. split; [by left|by intros [?|[[? ?] _]]].
  - set (opt1 := match BTreeMap.get q fields with Some _ => opt | None => BTreeMap.insert q tt opt end).
    assert (H1 : BTreeMap.wf opt1 /\ forall k, is_Some (BTreeMap.get k opt1) <-> is_Some (BTreeMap.get k opt) \/ (k = q /\ BTreeMap.get q fields = None)).
    { unfold opt1. destruct (BTreeMap.get q fields) eqn:Hq; [split; [done|]; naive_solver|]. split; [by apply BTreeMap.wf_insert|]. intros k. rewrite get_Some_insert by done. naive_solver. }
    destruct H1 as [Hw1 H1]. destruct (IH opt1 Hw1) as [Hw2 H2]. split; [exact Hw2|]. intros k. etransitivity; [apply H2|]. rewrite H1. cbn [BTreeMap.get]. destruct (k ==? q) eqn:E.
    + apply (proj1 (eqb_eq k q)) in E as ->. assert (is_Some (Some b)) by (by eexists). naive_solver.
    + assert (k <> q) by (intros ->; by rewrite eqb_refl in E). naive_solver.
Qed.

Definition objects_added (O : objects) (st : builders * optionals * Z) : Prop :=
  fields_built O st.1.1 /\ optional_known O st.1.2 /\ st.2 = zlen O.

Lemma field_added_built O' O fb opt n fields st : Forall (field_ok O') fields -> (forall k, BTreeMap.get k fields = None -> column k O' = []) -> fields_built O fb ->
  field_added O' O fb opt n fields st -> fields_built (O' ++ O) st.1.
Proof.
  intros Hf Hk [_ Hb] (Hw & _ & Hst). rewrite Forall_forall in Hf. split; [done|]. intros k. specialize (Hst k). specialize (Hb k). rewrite column_app. destruct (BTreeMap.get k fields) as [x|] eqn:Hx.
  - destruct Hst as [(b & -> & Hbb) _]. destruct (Hf _ (get_elem _ _ _ Hx)) as (Hid & Hne & _). cbn [fst] in *. split_and!; [by apply app_ne_l|apply Hbb..|done].
  - destruct Hst as [-> _]. by rewrite (Hk k Hx).
Qed.

Lemma field_added_optional O' O fb opt fields st opt' : O' <> [] -> Forall (field_ok O') fields -> (forall k, BTreeMap.get k fields = None -> column k O' = []) -> fields_built O fb -> optional_known O opt ->
  field_added O' O fb opt (zlen O) fields st -> BTreeMap.wf opt' ->
  (forall k, is_Some (BTreeMap.get k opt') <-> is_Some (BTreeMap.get k st.2) \/ (is_Some (BTreeMap.get k st.1) /\ BTreeMap.get k fields = None)) -> optional_known (O' ++ O) opt'.
Proof.
  intros Hne Hf Hk [_ Hb] [_ Ho] (_ & _ & Hst) Hw Ho'. rewrite Forall_forall in Hf. split; [done|]. intros k. specialize (Hst k). specialize (Hb k). specialize (Ho k). rewrite Ho'. clear Ho'.
  rewrite column_app, !length_app. pose proof (column_length k O) as Hl. pose proof (column_length k O') as Hl'. assert (Hpos : (0 < length O')%nat) by (destruct O'; [done|cbn; lia]).
  unfold zlen in Hst. destruct (BTreeMap.get k fields) as [x|] eqn:Hx.
  - destruct Hst as [_ ->]. destruct (Hf _ (get_elem _ _ _ Hx)) as (_ & Hne' & Hopt & _). cbn [fst snd] in *. rewrite Hopt, negb_true_iff, Nat.eqb_neq, Ho.
    assert (Hcol : column k O <> [] <-> BTreeMap.get k fb <> None) by (destruct (BTreeMap.get k fb); [naive_solver|by rewrite Hb]).
    assert (Happ : column k O' ++ column k O <> []) by (by apply app_ne_l). assert (Hz : BTreeMap.get k fb = None -> length (column k O) = 0%nat) by (intros Hg; rewrite Hg in Hb; by rewrite Hb).
    split; [intros [Hcase|[_ ?]]; [|done]; split; [done|]; destruct Hcase as [[_ ?]|[?|[Hg ?]]]; [lia|lia|]; rewrite (Hz Hg); lia|]. intros [_ Hlt]. left.
    destruct (decide (length (column k O') = length O')) as [Heq|Hneq]; [|by right; left]. destruct (BTreeMap.get k fb) as [b|]; [left; split; [by apply Hcol|lia]|].
    right; right. split; [done|]. rewrite (Hz eq_refl) in Hlt. lia.
  - destruct Hst as [-> ->]. rewrite (Hk k Hx), Ho. cbn [app length]. split; [intros [[? ?]|[Hs _]]; [split; [done|lia]|]|].
    + destruct (BTreeMap.get k fb); [|by destruct Hs]. split; [apply Hb|]. lia.
    + intros [Hc _]. right. split; [|done]. destruct (BTreeMap.get k fb); [by eexists|done].
Qed.

Lemma add_object_ok O st fields m O' vs : (depth (SObject fields) <= d)%nat -> Holds (SObject fields, m) vs -> vs ≡ₚ map Object O' ->
  Forall (field_ok O') fields -> (forall k, BTreeMap.get k fields = None -> column k O' = []) -> objects_added O st ->
  exists st', evals (fun n => add_object (ops_of n) st (SObject fields, m)) (Ret st') /\ objects_added (O' ++ O) st'.
Proof.
  intros Hd Hh Hp Hf Hk (Hfb & Hopt & Hn). destruct st as [[fb opt] n]. cbn [fst snd] in *. apply Holds_object in Hh as (Hm & Hne & Hwf & _).
  destruct (add_fields O' O fb opt n fields) as ([fb' opt'] & Hev & Hadd); [done|done| |done|apply Hopt|].
  { intros e He. apply (nmax_elem (fun e => depth e.2.1.1)) in He. cbn [depth] in Hd. lia. }
  pose proof Hadd as (_ & Hw2 & _). cbn [snd] in Hw2. destruct (missing_optional fields fb' opt' Hw2) as [Hw3 H3].
  eexists. split; [unfold add_object; cbn [fst snd]; eapply evals_bind; [exact Hev|]; by apply evals_eq|]. split_and!; cbn [fst snd].
  - by apply (field_added_built O' O fb opt n fields (fb', opt')).
  - subst n. apply (field_added_optional O' O fb opt fields (fb', opt')); try done. intros ->. by apply Permutation_nil_r in Hp.
  - rewrite zlen_app, Hn, Hm. unfold zlen. rewrite (Permutation_length Hp), length_map. lia.
Qed.

Lemma object_fold types : forall pv O st, HoldAll types pv -> Forall (small d) types -> (forall t, t ∈ types -> is_object_shape t.1 = true) -> objects_added O st ->
  exists O' st', pv ≡ₚ map Object O' /\ evals (E := unit) (fun n => foldM (E := unit) (add_object (ops_of n)) st types) (Ret st') /\ objects_added (O' ++ O) st' /\ Forall (fun o => NoDup (map fst o)) O'.
Proof.
  induction types as [|[t m] types IH]; intros pv O st Hv Hs Ha Hst; [apply HoldAll_nil_inv in Hv as ->; exists [], st; split_and!; [done|by apply evals_eq|apply Hst..|constructor]|].
  apply HoldAll_cons in Hv as (p & ws & Hne & Hh & Hws & Hv). apply Forall_cons in Hs as [[_ Hd] Hs]. pose proof (Ha _ (list_elem_of_here _ _)) as Ht. cbn [fst] in *.
  destruct t as [| | | | | | | | | | | | | | | |fields| | |]; try done. pose proof Hh as (_ & _ & Hwf & _ & O1 & Hp & _ & Hnd & Hk & Hf)%Holds_object.
  destruct (add_object_ok O st fields m O1 p Hd Hh Hp Hf) as (st1 & Hev1 & Hst1); [intros k Hg; by eapply column_absent|done|].
  destruct (IH ws (O1 ++ O) st1 Hws Hs) as (O2 & st' & Hp2 & Hev & Hst' & Hnd2); [intros t' Ht'; apply Ha; by right|done|].
  exists (O2 ++ O1), st'. rewrite <- (assoc_L (++)). split_and!; [by rewrite Hv, Hp, Hp2, map_app, Permutation_app_comm|by eapply evals_fold|apply Hst'..|by apply Forall_app].
Qed.

(** The fields of the candidate. *)
Definition field_built (O : objects) (opt : optionals) (e : list Z * list Shape) (r : list Z * (Shape * bool)) : Prop :=
  r.1 = e.1 /\ Holds r.2.1 (column e.1 O) /\ (depth r.2.1.1 < d)%nat /\ (r.2.2 = true <-> is_Some (BTreeMap.get e.1 opt)).

Lemma build_fields O (fb : builders) (opt : optionals) : (0 < d)%nat -> fields_built O fb ->
  exists fields, foldM (E := unit) (fun fields (e : list Z * list Shape) =>
        let? value_shape := build e.2 in
        Ret (BTreeMap.insert e.1 (value_shape, match BTreeMap.get e.1 opt with Some _ => true | None => false end) fields)) [] fb = Ret fields /\ Forall2 (field_built O opt) fb fields.
Proof.
  intros Hd [Hwf Hb].
  destruct (evals_fold_inv (fun _ : nat => fun fields (e : list Z * list Shape) =>
        let? value_shape := build e.2 in
        Ret (BTreeMap.insert e.1 (value_shape, match BTreeMap.get e.1 opt with Some _ => true | None => false end) fields)) (Forall2 (field_built O opt)) fb []) as (fields & [n0 Hev] & Hf); [constructor| |exists fields; split; [exact (Hev n0 (le_n n0))|done]].
  intros pre [k b] post fields Hl Hpre. cbn [fst snd]. assert (Hin : (k, b) ∈ fb) by (subst fb; set_solver). apply BTreeMap.elem_of_get in Hin; [|done]. specialize (Hb k). rewrite Hin in Hb.
  destruct Hb as (_ & Hbu & _). destruct (builder_build d b _ Hbu Hd) as (s & Hbs & Hs & Hds & _).
  eexists. split; [apply evals_eq; intros _; rewrite Hbs; reflexivity|]. rewrite (insert_in_order (field_built O opt) pre fields k b); [|by intros ? ? [? _]| |done].
  - apply Forall2_app; [done|]. constructor; [|constructor]. split_and!; cbn [fst snd]; [done|apply Hs..|done|]. unfold is_Some. destruct (BTreeMap.get k opt) as [[]|]; naive_solver.
  - apply (BTreeMap.wf_app_inv _ post). rewrite <- app_assoc. rewrite Hl in Hwf. exact Hwf.
Qed.

Lemma built_fields_ok O fb opt fields : fields_built O fb -> optional_known O opt -> Forall2 (field_built O opt) fb fields -> BTreeMap.wf fields /\ Forall (field_ok O) fields.
Proof.
  intros [Hwf Hb] [_ Ho] Hf. split.
  - apply (BTreeMap.get_Forall2 (fun _ _ => True) fb); [|done]. eapply Forall2_impl; [done|]. by intros e r [? _].
  - rewrite Forall_forall. intros r [i Hi]%list_elem_of_lookup. destruct (Forall2_lookup_r _ _ _ _ _ Hf Hi) as (e & He & Hk & Hh & _ & Hopt). apply list_elem_of_lookup_2 in He.
    assert (Hg : BTreeMap.get e.1 fb = Some e.2) by (apply BTreeMap.elem_of_get; [done|by destruct e]). specialize (Hb e.1). rewrite Hg in Hb. destruct Hb as (Hne & _ & Hid).
    unfold field_ok. rewrite Hk. split_and!; [done|done| |done]. apply eq_true_iff_eq. rewrite Hopt, Ho, negb_true_iff, Nat.eqb_neq. pose proof (column_length e.1 O). split; [lia|]. intros ?. split; [done|lia].
Qed.

Lemma object_candidate_ok types : Forall (small d) types -> cand_ok d is_object_shape types True (fun _ => True) (fun n => object_candidate (ops_of n) types).
Proof.
  intros Hs pv Hv. unfold object_candidate. rewrite indexes_where_length. destruct (Nat.ltb_spec (length (picked is_object_shape types)) 2) as [Hl|Hl]; [left; split; [by apply evals_eq|done]|].
  assert (Hd : (0 < d)%nat) by (apply (picked_deep d is_object_shape types Hs); [by intros []|lia]).
  destruct (object_fold (picked is_object_shape types) pv [] ([], [], 0) Hv (picked_small _ _ _ Hs)) as (O & st & Hp & Hev & Hst & Hnd); [apply picked_all| |].
  { split; [by split|split; [split; [done|]|done]]. intros k. cbn. split; [by intros [? ?]|by intros [? _]]. }
  rewrite app_nil_r in Hst. destruct st as [[fb opt] n]. destruct Hst as (Hfb & Hopt & Hn). cbn [fst snd] in *.
  assert (Hfold : evals (E := unit) (fun n => foldM (E := unit) (add_object (ops_of n)) ([], [], 0) types) (Ret (fb, opt, n))).
  { destruct Hev as [n0 Hev]. exists n0. intros m Hle. rewrite (foldM_picked is_object_shape); [by apply Hev|]. intros s t Ht. unfold add_object. by destruct t.1. }
  destruct (Nat.ltb_spec MAX_SHAPE_FIELDS (length fb)) as [Hlen|Hlen].
  { left. split; [|done]. eapply evals_bind; [exact Hfold|]. apply evals_eq. intros _. cbn beta iota. by rewrite (proj2 (Nat.ltb_lt _ _) Hlen). }
  right. destruct (build_fields O fb opt Hd Hfb) as (fields & Hbf & Hf). destruct (built_fields_ok O fb opt fields Hfb Hopt Hf) as [Hwf Hok].
  assert (HH : Holds (SObject fields, n) pv).
  { pose proof (HoldAll_ne _ _ Hv ltac:(lia)). pose proof (HoldAll_texts _ _ Hv) as Ht. apply Holds_object. split_and!; [unfold zlen in *; by rewrite (Permutation_length Hp), length_map|done|done|by rewrite <- (Forall2_length _ _ _ Hf)|].
    exists O. split_and!; [done|by eapply texts_perm|done| |done]. rewrite Forall_forall. intros o Ho e He. destruct (BTreeMap.get e.1 fields) eqn:Hg; [by eexists|]. exfalso.
    pose proof (get_related _ fb fields e.1 (fun e r (HR : field_built O opt e r) => proj1 HR) Hf) as Hr. rewrite Hg in Hr. destruct Hfb as [_ Hb]. specialize (Hb e.1). destruct (BTreeMap.get e.1 fb); [done|].
    rewrite Forall_forall in Hnd. assert (Hin : e.2 ∈ column e.1 O) by (apply elem_of_column; exists o; split; [done|]; apply get_of_elem; [by apply Hnd|by destruct e]). rewrite Hb in Hin. by apply elem_of_nil in Hin. }
  exists (SObject fields, n). split; [|split; [exact HH|split; [split; [done|]|done]]].
  - eapply evals_bind; [exact Hfold|]. apply evals_eq. intros _. cbn beta iota. rewrite (proj2 (Nat.ltb_ge _ _) Hlen), Hbf. cbn [obind]. rewrite (object_new_ok _ _ _ HH). cbn [obind]. by rewrite (shape_new_ok _ _ _ HH).
  - cbn [fst depth]. assert (Hmax : (nmax (map (fun e : list Z * (Shape * bool) => depth e.2.1.1) fields) < d)%nat); [|lia].
    clear -Hf Hd. induction Hf as [|e r fb fields (_ & _ & Hr & _) _ IH]; [done|]. unfold nmax in *. cbn in *. lia.
Qed.
End parts.
End candidates.
