(* ===== verification/ShapePush.v ===== *)
(** * ShapePush: adding shapes to unions
      (src/crates/shape_inference/src/union.rs)

    [UnionBuilder::push] always ends with a set of at most [MAX_UNION_LENGTH]
    disjoint shapes that holds the values of both: no assertion on the way fails
    and the loops of [add_new_shape] and [contract] end. *)

From S2P Require Import Prelude Ord BTreeMap Identifier Value Sorting Base32 IdV6 Document Validator Shape ShapeInference ShapeMultiset ShapeMerge ShapeUnion ShapeCandidates.

Local Open Scope Z_scope.

Section push.
Context `{ShapeConfig}.

Notation candidate := (nat -> outcome unit (option (Shape * list nat))) (only parsing).

(** ** Choosing a candidate *)

(** A shape that replaces those of [types] that satisfy [p]. *)
Definition replaces (d : nat) (types : list Shape) (ws : list ConvexValue) (Q : (ShapeEnum -> bool) -> Shape -> Prop) (p : ShapeEnum -> bool) (y : Shape) : Prop :=
  small d y /\ (2 <= length (picked p types))%nat /\ Q p y /\
  exists pv rv, HoldAll (picked p types) pv /\ HoldAll (others p types) rv /\ ws ≡ₚ pv ++ rv /\ Holds y pv.

Definition proposes d types ws Q (c : candidate) : Prop :=
  exists p y, evals c (Ret (Some (y, indexes_where p types))) /\ replaces d types ws Q p y.
Definition may_propose d types ws Q (c : candidate) : Prop := evals c (Ret None) \/ proposes d types ws Q c.

Lemma cand_may d p types ws N Q (Q' : (ShapeEnum -> bool) -> Shape -> Prop) c : HoldAll types ws -> cand_ok d p types N Q c -> (forall y, Q y -> Q' p y) -> may_propose d types ws Q' c.
Proof.
  intros Hw Hc HQ. destruct (picked_HoldAll p types ws Hw) as (pv & rv & Hpv & Hrv & Hv). destruct (Hc pv Hpv) as [[? _]|(y & Hev & Hy & Hs & Hq & Hl)]; [by left|].
  right. exists p, y. split; [done|]. split_and!; [apply Hs..|done|by apply HQ|]. by exists pv, rv.
Qed.

Lemma cand_must d p types ws Q (Q' : (ShapeEnum -> bool) -> Shape -> Prop) c : HoldAll types ws -> cand_ok d p types (few p types) Q c -> ~ few p types -> (forall y, Q y -> Q' p y) -> proposes d types ws Q' c.
Proof.
  intros Hw Hc Hf HQ. destruct (picked_HoldAll p types ws Hw) as (pv & rv & Hpv & Hrv & Hv). destruct (Hc pv Hpv) as [[_ ?]|(y & Hev & Hy & Hs & Hq & Hl)]; [done|].
  exists p, y. split; [done|]. split_and!; [apply Hs..|done|by apply HQ|]. by exists pv, rv.
Qed.

Lemma cand_none d p types ws N Q Q' c : HoldAll types ws -> cand_ok d p types N Q c -> picked p types = [] -> may_propose d types ws Q' c.
Proof.
  intros Hw Hc Hp. destruct (Hc [] ) as [[? _]|(y & _ & _ & _ & _ & Hl)]; [rewrite Hp; apply HoldAll_nil|by left|]. rewrite Hp in Hl. cbn in Hl. lia.
Qed.

Lemma first_pick d types ws Q cs (rest : nat -> list (outcome unit (option (Shape * list nat)))) : Forall (may_propose d types ws Q) cs -> Exists (proposes d types ws Q) cs ->
  exists p y, replaces d types ws Q p y /\ forall us, evals (fun n => add_new_shape (ops_of n) (others p types) y) (Ret us) -> (length us < length types)%nat ->
    evals (fun n => first_smaller (ops_of n) types (map (fun c => c n) cs ++ rest n)) (Ret us).
Proof.
  intros Hall Hex. induction cs as [|c cs IH]; [by inversion Hex|]. apply Forall_cons in Hall as [Hc Hall].
  assert (Hpick : proposes d types ws Q c -> exists p y, replaces d types ws Q p y /\ forall us, evals (fun n => add_new_shape (ops_of n) (others p types) y) (Ret us) -> (length us < length types)%nat ->
    evals (fun n => first_smaller (ops_of n) types (map (fun c => c n) (c :: cs) ++ rest n)) (Ret us)).
  { intros (p & y & Hev & Hr). exists p, y. split; [done|]. intros us Hadd Hl. cbn [map app first_smaller]. eapply evals_bind; [exact Hev|]. cbn beta iota. rewrite without_where.
    eapply evals_bind; [exact Hadd|]. apply evals_eq. intros n. by rewrite (proj2 (Nat.ltb_lt _ _) Hl). }
  destruct Hc as [Hnone|Hsome]; [|by apply Hpick]. apply Exists_cons in Hex as [Hhead|Htail]; [by apply Hpick|].
  destruct (IH Hall Htail) as (p & y & Hr & Hus). exists p, y. split; [done|]. intros us Hadd Hl. cbn [map app first_smaller]. eapply evals_bind; [exact Hnone|]. by apply Hus.
Qed.

(** The candidates, up to those that are enough in each case. *)
Definition id_cands (types : list Shape) : list candidate :=
  map (fun n _ => leaf_candidate (SId n) (fun s => bool_decide (id_table s = Some n)) types) (id_tables types).
Definition string_cands (types : list Shape) : list candidate :=
  id_cands types ++ [fun _ => field_name_candidate types].
Definition array_cand (types : list Shape) : candidate := fun n => array_candidate (ops_of n) types.
Definition record_cand (types : list Shape) : candidate := fun n => record_candidate (ops_of n) types.
Definition object_cands (types : list Shape) : list candidate :=
  [fun _ => string_candidate types; fun _ => float64_candidate types; fun n => object_candidate (ops_of n) types].
Definition any_record (types : list Shape) : bool := existsb (fun t : Shape => is_record_shape t.1) types.

Lemma candidates_split types n : supertype_candidates (ops_of n) types =
  map (fun c => c n) ([array_cand types] ++ (if any_record types then [record_cand types] else []) ++ string_cands types ++ object_cands types ++
    (if any_record types then [] else [record_cand types]) ++ [fun _ => unknown_candidate types]).
Proof.
  unfold supertype_candidates, string_cands, object_cands, id_cands, id_candidates, array_cand, record_cand. fold (any_record types). rewrite !map_app, map_map. cbn [map].
  destruct (any_record types); cbn [map app]; rewrite <- !(assoc_L (++)); done.
Qed.

Definition after_array (types : list Shape) : list candidate :=
  (if any_record types then [record_cand types] else []) ++ string_cands types ++ object_cands types ++ (if any_record types then [] else [record_cand types]) ++ [fun _ => unknown_candidate types].

Lemma array_prefix types n : supertype_candidates (ops_of n) types = map (fun c => c n) [array_cand types] ++ map (fun c => c n) (after_array types).
Proof. rewrite candidates_split, map_app. done. Qed.

Lemma objects_prefix types n : supertype_candidates (ops_of n) types =
  map (fun c => c n) ([array_cand types] ++ (if any_record types then [record_cand types] else string_cands types ++ object_cands types ++ [record_cand types])) ++
  map (fun c => c n) (if any_record types then string_cands types ++ object_cands types ++ [fun _ => unknown_candidate types] else [fun _ => unknown_candidate types]).
Proof. rewrite candidates_split, <- map_app. f_equal. destruct (any_record types); [done|]. by rewrite <- !(assoc_L (++)). Qed.

Lemma names_prefix types n : any_record types = false -> supertype_candidates (ops_of n) types =
  map (fun c => c n) ([array_cand types] ++ string_cands types) ++ map (fun c => c n) (object_cands types ++ [record_cand types; fun _ => unknown_candidate types]).
Proof. intros Ha. rewrite candidates_split, Ha, <- map_app. done. Qed.

Lemma plain_merges_all d : plain_merges d.
Proof. apply merges_all. Qed.

Section step.
Context (d : nat) (Hpush : push_lt d).

Lemma id_cands_ok types c : c ∈ id_cands types -> exists n, cand_ok d (fun s => bool_decide (id_table s = Some n)) types (few (fun s => bool_decide (id_table s = Some n)) types) (fun y => y.1 = SId n) c.
Proof.
  unfold id_cands. intros (n & -> & _)%list_elem_of_fmap. exists n. apply leaf_candidate_ok; [done|apply id_subtypes].
Qed.

Lemma field_name_cand_ok types : cand_ok d is_field_name_shape types (few is_field_name_shape types) (fun y => y.1 = SFieldName) (fun _ => field_name_candidate types).
Proof. apply leaf_candidate_ok; [done|apply field_name_subtypes]. Qed.

Lemma string_cand_ok types : cand_ok d is_string_shape types (few is_string_shape types) (fun y => y.1 = SString) (fun _ => string_candidate types).
Proof. apply leaf_candidate_ok; [done|apply string_subtypes]. Qed.

Lemma float_cand_ok types : cand_ok d is_float types (few is_float types) (fun y => y.1 = SFloat64) (fun _ => float64_candidate types).
Proof. apply leaf_candidate_ok; [done|apply float_subtypes]. Qed.

Lemma picked_true types : picked (fun _ => true) types = types /\ others (fun _ => true) types = [].
Proof. unfold picked, others. by rewrite bfilter_all, bfilter_none. Qed.

Lemma unknown_proposes types ws Q : HoldAll types ws -> (2 <= length types)%nat -> Q (fun _ => true) (SUnknown, total_values types) -> proposes d types ws Q (fun _ => unknown_candidate types).
Proof.
  intros Hw Hl HQ. destruct (unknown_candidate_ok types ws Hw) as [Hu Hh]. exists (fun _ => true), (SUnknown, total_values types). split; [by apply evals_eq|].
  destruct (picked_true types) as [Hp Ho]. unfold replaces. rewrite Hp, Ho. split; [split; [done|cbn; lia]|]. split; [done|]. split; [done|]. exists ws, []. rewrite app_nil_r. split_and!; [done|apply HoldAll_nil|done|apply Hh..].
Qed.

(** ** Contracting overlapping shapes *)

Definition covers (types : list Shape) (p : ShapeEnum -> bool) (y : Shape) : Prop := others p types = [].

Lemma all_picked p types : (forall t, t ∈ types -> p t.1 = true) -> picked p types = types /\ others p types = [].
Proof.
  intros Hp. unfold picked, others. split; [apply bfilter_all; done|]. apply bfilter_none. intros t Ht. by rewrite Hp.
Qed.

Lemma none_picked p types : (forall t, t ∈ types -> p t.1 = false) -> picked p types = [].
Proof. intros Hp. by apply bfilter_none. Qed.

Lemma none_proposed types ws Q c p N Q0 : HoldAll types ws -> (forall t, t ∈ types -> p t.1 = false) -> cand_ok d p types N Q0 c -> may_propose d types ws Q c.
Proof. intros Hw Hp Hc. eapply cand_none; [done|done|by apply none_picked]. Qed.

Lemma array_group types ws : HoldAll types ws -> Forall (small d) types -> (2 <= length types)%nat -> (forall t, t ∈ types -> is_array_shape t.1 = true) ->
  proposes d types ws (covers types) (array_cand types).
Proof.
  intros Hw Hs Hl Ha. destruct (all_picked is_array_shape types Ha) as [Hp Ho]. eapply cand_must; [done|by apply array_candidate_ok|unfold few; rewrite Hp; lia|done].
Qed.

Lemma record_group types ws : HoldAll types ws -> Forall (small d) types -> (2 <= length types)%nat -> (forall t, t ∈ types -> is_objects t.1 = true) ->
  proposes d types ws (covers types) (record_cand types).
Proof.
  intros Hw Hs Hl Ha. destruct (all_picked is_objects types Ha) as [Hp Ho]. eapply cand_must; [done|by apply record_candidate_ok|unfold few; rewrite Hp; lia|done].
Qed.

Lemma objects_no_leaf (types : list Shape) (p : ShapeEnum -> bool) : (forall t : Shape, t ∈ types -> is_objects t.1 = true) -> (forall s, p s = true -> is_objects s = false) -> forall t : Shape, t ∈ types -> p t.1 = false.
Proof. intros Ho Hp t Ht. destruct (p t.1) eqn:E; [|done]. apply Hp in E. rewrite (Ho t Ht) in E. done. Qed.

Lemma group_pick types ws : HoldAll types ws -> Forall (small d) types -> (2 <= length types)%nat ->
  (forall t, t ∈ types -> is_array_shape t.1 = true) \/ (forall t, t ∈ types -> is_objects t.1 = true) ->
  exists p y, replaces d types ws (covers types) p y /\ forall us, evals (fun n => add_new_shape (ops_of n) (others p types) y) (Ret us) -> (length us < length types)%nat ->
    evals (fun n => first_smaller (ops_of n) types (supertype_candidates (ops_of n) types)) (Ret us).
Proof.
  intros Hw Hs Hl Hkind.
  assert (Hcs : exists cs rest, (forall n, supertype_candidates (ops_of n) types = map (fun c => c n) cs ++ rest n) /\ Forall (may_propose d types ws (covers types)) cs /\ Exists (proposes d types ws (covers types)) cs).
  { destruct Hkind as [Ha|Ho].
    - pose proof (array_group types ws Hw Hs Hl Ha) as Hg. eexists [array_cand types], _. split; [exact (array_prefix types)|]. split; [constructor; [by right|constructor]|by left].
    - pose proof (record_group types ws Hw Hs Hl Ho) as Hg. assert (Hnone : may_propose d types ws (covers types) (array_cand types)).
      { eapply none_proposed; [done| |by apply array_candidate_ok]. apply objects_no_leaf; [done|by intros []]. }
      eexists ([array_cand types] ++ (if any_record types then [record_cand types] else string_cands types ++ object_cands types ++ [record_cand types])), _. split; [exact (objects_prefix types)|]. split.
      + constructor; [done|]. destruct (any_record types) eqn:Har; [constructor; [by right|constructor]|]. apply Forall_app. split; [|apply Forall_app; split].
        * apply Forall_app. split; [|constructor; [|constructor]].
          -- rewrite Forall_forall. intros c (n & Hc)%id_cands_ok. eapply none_proposed; [done| |exact Hc]. apply objects_no_leaf; [done|]. intros s. rewrite bool_decide_eq_true. by destruct s.
          -- eapply none_proposed; [done| |apply field_name_cand_ok]. apply objects_no_leaf; [done|by intros []].
        * constructor; [|constructor; [|constructor; [|constructor]]].
          -- eapply none_proposed; [done| |apply string_cand_ok]. apply objects_no_leaf; [done|by intros []].
          -- eapply none_proposed; [done| |apply float_cand_ok]. apply objects_no_leaf; [done|by intros []].
          -- eapply cand_may; [done|by apply object_candidate_ok|]. intros y _. apply (all_picked is_object_shape). intros t Ht. specialize (Ho t Ht). unfold is_objects in Ho.
             destruct (is_record_shape t.1) eqn:Hrec; [|done]. apply not_true_iff_false in Har. destruct Har. apply existsb_elem. by exists t.
        * constructor; [by right|constructor].
      + right. destruct (any_record types); [by left|]. apply Exists_app. right. apply Exists_app. right. by left. }
  destruct Hcs as (cs & rest & Heq & Hall & Hex). destruct (first_pick d types ws (covers types) cs rest Hall Hex) as (p & y & Hr & Hus). exists p, y. split; [done|].
  intros us Hadd Hlen. destruct (Hus us Hadd Hlen) as [n0 Hn]. exists n0. intros n Hle. rewrite Heq. by apply Hn.
Qed.

Lemma contract_group l gv : HoldAll l gv -> Forall (small d) l -> (2 <= length l)%nat ->
  (forall t, t ∈ l -> is_array_shape t.1 = true) \/ (forall t, t ∈ l -> is_objects t.1 = true) ->
  exists c, evals (fun n => op_contract (ops_of n) l 1) (Ret [c]) /\ Holds c gv /\ small d c.
Proof.
  intros Hw Hs Hl Hkind. destruct (group_pick l gv Hw Hs Hl Hkind) as (p & y & (Hsy & Hlp & Hcov & pv & rv & Hpv & Hrv & Hv & Hy) & Hpick). unfold covers in Hcov. rewrite Hcov in *.
  apply HoldAll_nil_inv in Hrv as ->. rewrite app_nil_r in Hv. exists y. split; [|split; [by eapply Holds_perm; [symmetry|]|done]].
  destruct (add_apart d (plain_merges_all d) [] [] y pv) as (us & Hadd & Hus); [split; [done|split; [constructor|apply HoldAll_nil]]|constructor|done|done|by intros u ?%elem_of_nil|].
  apply Permutation_singleton_r in Hus as ->. apply evals_S. cbn [ops_of op_contract]. unfold contract. change (1 <=? 1)%nat with true. cbn [rassert obind].
  replace (length l <=? 1)%nat with false by (symmetry; apply Nat.leb_gt; lia). rewrite (proj2 (Nat.leb_le 2 (length l)) Hl). cbn [rassert obind].
  eapply evals_bind; [apply (Hpick [y]); [|cbn; lia]|by apply contract_short]. apply add_new_shape_ok; [by intros u ?%elem_of_nil|done].
Qed.

(** Shapes that overlap and are no subtypes of each other. *)
Lemma overlap_kinds a b : plain a -> plain b -> may_overlap a b = true ->
  a = b \/ a = SUnknown \/ b = SUnknown \/ (is_array_shape a = true /\ is_array_shape b = true) \/ (is_objects a = true /\ is_objects b = true).
Proof.
  intros Ha Hb. unfold may_overlap. destruct (shape_eqb a b) eqn:E; [intros _; left; by apply shape_eqb_eq|].
  destruct a; try done; destruct b; try done; intros _; try (by right; left); try (by right; right; left); try (by right; right; right; left); by right; right; right; right.
Qed.

Lemma overlap_group (x u : Shape) xs p : small d x -> small d u -> Holds x xs -> Holds u p -> is_subtype x.1 u.1 = false -> is_subtype u.1 x.1 = false -> may_overlap u.1 x.1 = true ->
  (is_array_shape x.1 = true /\ is_array_shape u.1 = true) \/ (is_objects x.1 = true /\ is_objects u.1 = true).
Proof.
  intros [Hpx _] [Hpu _] (_ & Hx & _) (_ & Hu & _) H1 H2 Ho. apply overlap_kinds in Ho as [E|[E|[E|[[? ?]|[? ?]]]]]; [..|by left|by right|done|done].
  - rewrite E in H2. rewrite (is_subtype_refl _ _ Hx) in H2. done.
  - rewrite E, is_subtype_equation in H1. by destruct x.1.
  - rewrite E, is_subtype_equation in H2. by destruct u.1.
Qed.

Lemma group_kind (x : Shape) xs over ov : small d x -> Forall (small d) over -> Holds x xs -> HoldAll over ov -> over <> [] ->
  (forall u, u ∈ over -> is_subtype x.1 u.1 = false /\ is_subtype u.1 x.1 = false /\ may_overlap u.1 x.1 = true) ->
  (forall t, t ∈ x :: over -> is_array_shape t.1 = true) \/ (forall t, t ∈ x :: over -> is_objects t.1 = true).
Proof.
  intros Hx Hs Hh Hov Hne Hall. rewrite Forall_forall in Hs.
  assert (Hk : forall u, u ∈ over -> (is_array_shape x.1 = true /\ is_array_shape u.1 = true) \/ (is_objects x.1 = true /\ is_objects u.1 = true)).
  { intros u Hu. destruct (HoldAll_elem over ov u Hov Hu) as (p & _ & Hp & _). destruct (Hall u Hu) as (? & ? & ?). eapply overlap_group; [done|by apply Hs|done..]. }
  destruct over as [|u over]; [done|]. destruct (Hk u) as [[Hx' Hu]|[Hx' Hu]]; [by left|left|right]; intros t [->|Ht]%elem_of_cons; try done; destruct (Hk t Ht) as [[? ?]|[? ?]]; try done; by destruct x.1.
Qed.

(** ** Adding a shape *)

(** A shape with a value of another set of shapes is no subtype of a shape apart
    from all of those. *)
Lemma shared_not_subtype (c t u : Shape) cv tv p v : Holds c cv -> Holds t tv -> Holds u p -> apart u.1 t.1 -> v ∈ p -> v ∈ cv -> is_subtype c.1 t.1 = false.
Proof.
  intros Hc Ht Hu Ha Hvp Hvc. destruct (is_subtype c.1 t.1) eqn:E; [|done]. exfalso. apply (apart_disjoint u.1 t.1 v Ha); [destruct Hu as (_ & Hu & _); by eapply holds_contains|].
  by apply (subtype_contains c t cv tv).
Qed.

Lemma Builds_app us ws vs : Builds (us ++ ws) vs -> forall p q, HoldAll us p -> HoldAll ws q -> Builds us p /\ Builds ws q /\ forall u w, u ∈ us -> w ∈ ws -> apart u.1 w.1.
Proof.
  intros (Ha & Hp & _) p q Hup Hwq. apply all_apart_app in Ha as (Ha1 & Ha2 & Ha). apply Forall_app in Hp as [Hp1 Hp2].
  split; [split; [done|by split]|]. split; [split; [done|by split]|done].
Qed.

Lemma fieldy_no_overlap (x u : Shape) xs p : small d x -> small d u -> Holds x xs -> Holds u p -> fieldy x -> fieldy u -> is_subtype x.1 u.1 = false -> is_subtype u.1 x.1 = false -> may_overlap u.1 x.1 = true -> False.
Proof.
  intros Hx Hu Hhx Hhu Fx Fu H1 H2 Ho. unfold fieldy in *. rewrite is_subtype_equation in Fx. destruct (overlap_group x u xs p Hx Hu Hhx Hhu H1 H2 Ho) as [[Hk _]|[Hk _]]; destruct Hx as [Hp _]; by destruct x.1.
Qed.

Lemma Builds_rest us subs non over ws nv : us ≡ₚ subs ++ non ++ over -> Builds us ws -> HoldAll non nv -> Builds non nv /\ forall u w, u ∈ over -> w ∈ non -> apart u.1 w.1.
Proof.
  intros Hus Hb Hnv. apply (Builds_perm _ (subs ++ non ++ over) _ ws) in Hb; [|done|done]. destruct Hb as (Ha & Hp & _).
  apply all_apart_app in Ha as (_ & Ha & _). apply all_apart_app in Ha as (Ha & _ & Hno). apply Forall_app in Hp as [_ [Hp _]%Forall_app]. split; [split; [done|by split]|].
  intros u w Hu Hw. apply apart_sym. by apply Hno.
Qed.

Lemma add_ok k : forall us ws x xs, (length us <= k)%nat -> Builds us ws -> Forall (small d) us -> small d x -> Holds x xs -> xs <> [] -> (forall u, u ∈ us -> is_subtype x.1 u.1 = false) ->
  exists us', evals (fun n => op_add (ops_of n) us x) (Ret us') /\ Builds us' (xs ++ ws) /\ Forall (small d) us' /\ (length us' <= S (length us))%nat /\
    (Forall fieldy us -> fieldy x -> Forall fieldy us').
Proof.
  induction k as [k IH] using lt_wf_ind. intros us ws x xs Hk Hb Hs Hx Hh Hne Hnot.
  destruct (add_round_parts d (plain_merges_all d) us ws x xs Hb Hs Hx Hh Hnot) as
    (subs & non & over & sv & nv & ov & x' & Hus & Hsv & Hnv & Hov & Hws & Hx' & Sx & _ & _ & Hnon & Hover & Hadd & Hcontract).
  destruct (Builds_rest us subs non over ws nv Hus Hb Hnv) as [Hbn Hapart].
  assert (Hsx' : small d x') by (by eapply sim_small). assert (Hsn : Forall (small d) non /\ Forall (small d) over) by (rewrite Hus in Hs; apply Forall_app in Hs as [_ ?%Forall_app]; done).
  destruct Hsn as [Hsn Hso]. pose proof (Permutation_length Hus) as Hlen. rewrite !length_app in Hlen.
  destruct over as [|o over].
  - destruct (Hadd eq_refl) as (l & Hev & Hl). apply HoldAll_nil_inv in Hov as ->. rewrite app_nil_r in Hws. exists l. split; [by apply evals_S|].
    split; [|split; [rewrite Hl; by constructor|split; [apply Permutation_length in Hl; cbn in Hl; lia|]]].
    + apply (Builds_perm (x' :: non) _ ((sv ++ xs) ++ nv)); [done|rewrite Hws, !(assoc_L (++)); f_equiv; apply Permutation_app_comm|].
      apply Builds_cons. split_and!; [apply Hsx'|done|]. exists (sv ++ xs), nv. split_and!; [|done|done|done]. intros E. apply app_eq_nil in E as [_ ->]. done.
    + intros Fus Fx. rewrite Hl. constructor; [unfold fieldy; by rewrite (sim_left _ _ Sx)|]. rewrite Hus in Fus. apply Forall_app in Fus as [_ [? _]%Forall_app]. done.
  - destruct (Hcontract ltac:(done)) as (l & Hl & Hev). set (ov' := o :: over) in *.
    assert (Hall : forall u, u ∈ ov' -> is_subtype x'.1 u.1 = false /\ is_subtype u.1 x'.1 = false /\ may_overlap u.1 x'.1 = true).
    { intros u Hu. destruct (Hover u Hu) as [? ?]. split_and!; [|done|done]. rewrite (sim_left _ _ Sx). apply Hnot. rewrite Hus. set_solver. }
    assert (Hgl : HoldAll l ((sv ++ xs) ++ ov)).
    { apply (HoldAll_perm (x' :: ov') _ ((sv ++ xs) ++ ov)); [done|done|]. apply HoldAll_cons. exists (sv ++ xs), ov. split_and!; [|done|done|done]. intros E. apply app_eq_nil in E as [_ ->]. done. }
    destruct (contract_group l _ Hgl) as (c & Hevc & Hc & Hsc); [rewrite Hl; by constructor|rewrite (Permutation_length Hl); cbn; lia| |].
    { destruct (group_kind x' (sv ++ xs) ov' ov) as [Hg|Hg]; try done; [left|right]; intros t Ht; apply Hg; by rewrite <- Hl. }
    apply HoldAll_cons in Hov as (p & ov2 & Hnp & Hho & _ & Hov). destruct p as [|v p]; [done|]. unfold ov' in Hlen. cbn [length] in Hlen.
    destruct (IH (length non) ltac:(lia) non nv c ((sv ++ xs) ++ ov) (le_n _) Hbn Hsn Hsc Hc) as (us' & Hev' & Hb' & Hs' & Hlen' & _).
    { intros E. apply app_eq_nil in E as [E _]. apply app_eq_nil in E as [_ ->]. done. }
    { intros t Ht. destruct (HoldAll_elem non nv t Hnv Ht) as (tv & _ & Hht & _). apply (shared_not_subtype c t o ((sv ++ xs) ++ ov) tv (v :: p) v); [done|done|done|apply Hapart; [by left|done]|by left|].
      apply elem_of_app. right. rewrite Hov. by left. }
    exists us'. split; [apply evals_S; by eapply Hev|]. split; [|split; [done|split; [lia|]]].
    + eapply Builds_perm; [done| |exact Hb']. rewrite Hws. solve_Permutation.
    + intros Fus Fx. exfalso. rewrite Hus in Fus. apply Forall_app in Fus as [_ [_ Fo]%Forall_app]. apply Forall_cons in Fo as [Fo _]. destruct (Hall o) as (? & ? & ?); [by left|].
      apply (fieldy_no_overlap x' o (sv ++ xs) (v :: p)); try done; [by apply Forall_cons in Hso as [? _]|]. unfold fieldy. by rewrite (sim_left _ _ Sx).
Qed.

(** ** Contracting disjoint shapes *)

Definition keeps_names (types : list Shape) (p : ShapeEnum -> bool) (y : Shape) : Prop := Forall fieldy types -> fieldy y.

Lemma fieldy_name_shape (u : Shape) p : small d u -> Holds u p -> p <> [] -> fieldy u -> is_field_name_shape u.1 = true.
Proof. intros [Hp _] (_ & Hh & _) Hne Hf. unfold fieldy in Hf. rewrite is_subtype_equation in Hf. destruct u as [[] n]; try done. Qed.

Lemma names_pick types ws : HoldAll types ws -> Forall (small d) types -> (2 <= length types)%nat -> Forall fieldy types ->
  Forall (may_propose d types ws (keeps_names types)) ([array_cand types] ++ string_cands types) /\
  Exists (proposes d types ws (keeps_names types)) ([array_cand types] ++ string_cands types) /\ any_record types = false.
Proof.
  intros Hw Hs Hl Hf. assert (Hname : forall t, t ∈ types -> is_field_name_shape t.1 = true).
  { intros t Ht. destruct (HoldAll_elem types ws t Hw Ht) as (p & Hne & Hp & _). rewrite Forall_forall in Hs. rewrite Forall_forall in Hf. eapply fieldy_name_shape; [by apply Hs|done|done|by apply Hf]. }
  assert (Hnot : forall (p : ShapeEnum -> bool), (forall s, is_field_name_shape s = true -> p s = false) -> forall t, t ∈ types -> p t.1 = false) by (intros p Hp t Ht; by apply Hp, Hname).
  split_and!.
  - constructor; [eapply none_proposed; [done| |by apply array_candidate_ok]; apply Hnot; by intros []|]. apply Forall_app. split.
    + rewrite Forall_forall. intros c (n & Hc)%id_cands_ok. eapply cand_may; [done|exact Hc|]. intros y Hy _. unfold fieldy. by rewrite Hy.
    + constructor; [|constructor]. eapply cand_may; [done|apply field_name_cand_ok|]. intros y Hy _. unfold fieldy. by rewrite Hy.
  - right. apply Exists_app. right. left. eapply cand_must; [done|apply field_name_cand_ok| |].
    + unfold few. destruct (all_picked is_field_name_shape types Hname) as [-> _]. lia.
    + intros y Hy _. unfold fieldy. by rewrite Hy.
  - apply not_true_iff_false. intros (t & Ht & Hr)%existsb_elem. specialize (Hname t Ht). by destruct t.1.
Qed.

Lemma all_pick types ws Q : HoldAll types ws -> Forall (small d) types -> (2 <= length types)%nat -> (forall p y, Q p y) ->
  Forall (may_propose d types ws Q) ([array_cand types] ++ after_array types) /\ Exists (proposes d types ws Q) ([array_cand types] ++ after_array types).
Proof.
  intros Hw Hs Hl HQ. assert (Hrec : may_propose d types ws Q (record_cand types)) by (eapply cand_may; [done|by apply record_candidate_ok|auto]).
  pose proof (unknown_proposes types ws Q Hw Hl (HQ _ _)) as Hunk. split.
  - constructor; [eapply cand_may; [done|by apply array_candidate_ok|auto]|]. unfold after_array, string_cands, object_cands. rewrite !Forall_app. split_and!.
    + destruct (any_record types); [constructor; [done|constructor]|constructor].
    + rewrite Forall_forall. intros c (n & Hc)%id_cands_ok. by eapply cand_may; [|exact Hc|].
    + constructor; [|constructor]. by eapply cand_may; [|apply field_name_cand_ok|].
    + constructor; [by eapply cand_may; [|apply string_cand_ok|]|]. constructor; [by eapply cand_may; [|apply float_cand_ok|]|]. constructor; [|constructor]. by eapply cand_may; [|apply object_candidate_ok|].
    + destruct (any_record types); [constructor|constructor; [done|constructor]].
    + constructor; [by right|constructor].
  - right. unfold after_array. rewrite !Exists_app. do 4 right. by left.
Qed.

Lemma pick types ws : HoldAll types ws -> Forall (small d) types -> (2 <= length types)%nat ->
  exists p y, replaces d types ws (keeps_names types) p y /\ forall us, evals (fun n => add_new_shape (ops_of n) (others p types) y) (Ret us) -> (length us < length types)%nat ->
    evals (fun n => first_smaller (ops_of n) types (supertype_candidates (ops_of n) types)) (Ret us).
Proof.
  intros Hw Hs Hl.
  assert (Hcs : exists cs rest, (forall n, supertype_candidates (ops_of n) types = map (fun c => c n) cs ++ rest n) /\ Forall (may_propose d types ws (keeps_names types)) cs /\ Exists (proposes d types ws (keeps_names types)) cs).
  { destruct (forallb (fun u : Shape => is_subtype u.1 SFieldName) types) eqn:Hf.
    - rewrite forallb_elem in Hf. destruct (names_pick types ws Hw Hs Hl) as (Hall & Hex & Har); [by rewrite Forall_forall|]. eexists _, _. split; [intros n; exact (names_prefix types n Har)|done].
    - eexists ([array_cand types] ++ after_array types), (fun _ => []). split; [intros n; rewrite app_nil_r; exact (candidates_split types n)|]. apply all_pick; [done..|].
      intros p y HF. exfalso. apply not_true_iff_false in Hf. apply Hf, forallb_elem. by rewrite Forall_forall in HF. }
  destruct Hcs as (cs & rest & Heq & Hall & Hex). destruct (first_pick d types ws (keeps_names types) cs rest Hall Hex) as (p & y & Hr & Hus). exists p, y. split; [done|].
  intros us Hadd Hlen. destruct (Hus us Hadd Hlen) as [n0 Hn]. exists n0. intros n Hle. rewrite Heq. by apply Hn.
Qed.

Lemma contract_ok goal k : (1 <= goal)%nat -> forall us ws, (length us <= k)%nat -> Builds us ws -> Forall (small d) us ->
  exists us', evals (fun n => op_contract (ops_of n) us goal) (Ret us') /\ Builds us' ws /\ Forall (small d) us' /\ (length us' <= goal)%nat /\ (Forall fieldy us -> Forall fieldy us').
Proof.
  intros Hg. induction k as [|k IH]; intros us ws Hk Hb Hs; (destruct (Nat.leb_spec (length us) goal) as [Hl|Hl]; [exists us; split; [by apply contract_short|done]|]); [lia|].
  pose proof Hb as (Ha & Hp & Hw). destruct (pick us ws Hw Hs ltac:(lia)) as (p & y & (Hsy & Hlp & Hkeep & pv & rv & Hpv & Hrv & Hv & Hy) & Hpick).
  pose proof (bfilter_split (fun t : Shape => p t.1) us) as Hsplit. fold (picked p us) in Hsplit. fold (others p us) in Hsplit.
  destruct (Builds_app (picked p us) (others p us) ws (Builds_perm _ _ _ _ Hsplit (Permutation_refl ws) Hb) pv rv Hpv Hrv) as (_ & Hbo & Hapart).
  assert (Hlen : (length us = length (picked p us) + length (others p us))%nat) by (rewrite <- length_app; by apply Permutation_length).
  assert (Hso : Forall (small d) (others p us)) by (rewrite Hsplit in Hs; by apply Forall_app in Hs as [_ ?]).
  assert (Hne : pv <> []) by (apply (HoldAll_ne _ _ Hpv); lia).
  assert (Hnot : forall t, t ∈ others p us -> is_subtype y.1 t.1 = false).
  { intros t Ht. destruct (HoldAll_elem _ _ t Hrv Ht) as (tv & _ & Hht & _). destruct (picked p us) as [|r l] eqn:Hpk; [cbn in Hlp; lia|]. destruct (HoldAll_elem _ _ r Hpv) as (q & Hnq & Hhr & Hin); [by left|].
    destruct q as [|v q]; [done|]. apply (shared_not_subtype y t r pv tv (v :: q) v); [done|done|done|apply Hapart; [by left|done]|by left|apply Hin; by left]. }
  destruct (add_ok _ (others p us) rv y pv (le_n _) Hbo Hso Hsy Hy Hne Hnot) as (us1 & Hadd & Hb1 & Hs1 & Hl1 & Hf1).
  destruct (IH us1 ws) as (us' & Hev & Hb' & Hs' & Hl' & Hf'); [lia|eapply Builds_perm; [done|symmetry; exact Hv|done]|done|].
  exists us'. split; [|split; [done|split; [done|split; [done|]]]].
  - apply evals_S. cbn [ops_of op_contract]. unfold contract. rewrite (proj2 (Nat.leb_le _ _) Hg), (proj2 (Nat.leb_gt _ _) Hl), (proj2 (Nat.leb_le 2 (length us)) ltac:(lia)). cbn [rassert obind].
    eapply evals_bind; [apply (Hpick us1); [by apply add_new_shape_ok|lia]|exact Hev].
  - intros Fus. apply Hf', Hf1; [|by apply Hkeep]. rewrite Hsplit in Fus. by apply Forall_app in Fus as [_ ?].
Qed.

(** ** Pushing *)

Section pushing.
Context (Hmax : (1 <= MAX_UNION_LENGTH)%nat).

Lemma push_plain_ok us ws x xs : Builds us ws -> Forall (small d) us -> (length us <= MAX_UNION_LENGTH)%nat -> small d x -> Holds x xs -> xs <> [] ->
  exists us', evals (fun n => op_push (ops_of n) us x) (Ret us') /\ Builds us' (xs ++ ws) /\ Forall (small d) us' /\ (length us' <= MAX_UNION_LENGTH)%nat /\ (Forall fieldy us -> fieldy x -> Forall fieldy us').
Proof.
  intros Hb Hs Hl Hx Hh Hne. assert (Hempty : shape_is_empty x = false) by (by eapply Holds_nonempty).
  destruct us as [|u us].
  - rewrite (Builds_nil ws Hb), app_nil_r. exists [x]. split; [apply evals_S, evals_eq; intros n; cbn [ops_of op_push]; rewrite push_plain by (done || apply Hx); done|].
    split; [apply Builds_single; [apply Hx|done|done]|]. split; [constructor; [done|constructor]|]. split; [cbn; lia|]. intros _ ?. constructor; [done|constructor].
  - set (us' := u :: us) in *.
    assert (Hgoal : exists us2, evals (fun n => let? (no_subtypes, found_subtype) := push_merge (ops_of n) us' x in
        if found_subtype : bool then Ret no_subtypes
        else let? disjoint := add_new_shape (ops_of n) no_subtypes x in op_contract (ops_of n) disjoint MAX_UNION_LENGTH) (Ret us2) /\
        Builds us2 (xs ++ ws) /\ Forall (small d) us2 /\ (length us2 <= MAX_UNION_LENGTH)%nat /\ (Forall fieldy us' -> fieldy x -> Forall fieldy us2)).
    { destruct (push_merge_ok d (plain_merges_all d) us' ws x xs Hb Hs Hx Hh Hne) as [[Hnot (l & Hev & Hp)]|[_ (l & Hev & Hbl & Hsl & Hll & Hfl)]].
      - assert (Hbl : Builds l ws) by (by eapply Builds_perm; [symmetry| |]).
        destruct (add_ok _ l ws x xs (le_n _) Hbl) as (l1 & Hadd & Hb1 & Hs1 & _ & Hf1); [by rewrite Hp|done|done|done|intros w Hw; apply Hnot; by rewrite <- Hp|].
        destruct (contract_ok MAX_UNION_LENGTH _ Hmax l1 (xs ++ ws) (le_n _) Hb1 Hs1) as (l2 & Hc & Hb2 & Hs2 & Hl2 & Hf2).
        exists l2. split; [|split; [done|split; [done|split; [done|]]]].
        + eapply evals_bind; [exact Hev|]. cbn beta iota. eapply evals_bind; [apply add_new_shape_ok; [intros w Hw; apply Hnot; by rewrite <- Hp|exact Hadd]|exact Hc].
        + intros Fu Fx. apply Hf2, Hf1; [by rewrite Hp|done].
      - exists l. split; [|split; [done|split; [done|split; [lia|]]]].
        + eapply evals_bind; [exact Hev|]. by apply evals_eq.
        + rewrite !Forall_forall. intros Fu _. by apply Hfl. }
    destruct Hgoal as (us2 & [n0 Hev] & Hrest). exists us2. split; [|done]. apply evals_S. exists n0. intros n Hn. cbn [ops_of op_push]. rewrite push_plain by (done || apply Hx). unfold us'. by apply Hev.
Qed.

Lemma push_variants vs : forall us ws xs, Builds us ws -> Forall (small d) us -> (length us <= MAX_UNION_LENGTH)%nat -> HoldAll vs xs -> Forall (small d) vs ->
  exists us', evals (fun n => foldM (op_push (ops_of n)) us vs) (Ret us') /\ Builds us' (xs ++ ws) /\ Forall (small d) us' /\ (length us' <= MAX_UNION_LENGTH)%nat /\ (Forall fieldy us -> Forall fieldy vs -> Forall fieldy us').
Proof.
  induction vs as [|v vs IH]; intros us ws xs Hb Hs Hl Hv Hsv.
  - apply HoldAll_nil_inv in Hv as ->. exists us. split; [by apply evals_eq|]. done.
  - apply HoldAll_cons in Hv as (p & vv & Hne & Hh & Hvv & Hx). apply Forall_cons in Hsv as [Hsv1 Hsv].
    destruct (push_plain_ok us ws v p Hb Hs Hl Hsv1 Hh Hne) as (us1 & Hev1 & Hb1 & Hs1 & Hl1 & Hf1). destruct (IH us1 (p ++ ws) vv Hb1 Hs1 Hl1 Hvv Hsv) as (us' & Hev & Hb' & Hs' & Hl' & Hf').
    exists us'. split; [by eapply evals_fold|]. split; [eapply Builds_perm; [done| |exact Hb']; rewrite Hx; solve_Permutation|]. split; [done|]. split; [done|].
    intros Fu [Fv Fvs]%Forall_cons. apply Hf'; [by apply Hf1|done].
Qed.

Lemma push_any us ws x xs : builder (S d) us ws -> (depth x.1 < S d)%nat -> Holds x xs ->
  exists us', evals (fun n => op_push (ops_of n) us x) (Ret us') /\ builder (S d) us' (xs ++ ws) /\ (Forall fieldy us -> fieldy x -> Forall fieldy us').
Proof.
  intros (Hb & Hs & Hl) Hd Hh. assert (Hsm : forall us, Forall (smaller (S d)) us <-> Forall (small d) us).
  { intros l. unfold smaller, small. split; intros Hf; (eapply Forall_impl; [exact Hf|]); intros u [? ?]; (split; [done|lia]). }
  assert (Hgoal : exists us', evals (fun n => op_push (ops_of n) us x) (Ret us') /\ Builds us' (xs ++ ws) /\ Forall (small d) us' /\ (length us' <= MAX_UNION_LENGTH)%nat /\ (Forall fieldy us -> fieldy x -> Forall fieldy us')).
  2: { destruct Hgoal as (us' & Hev & Hb' & Hs' & Hl' & Hf'). exists us'. split; [done|]. split; [split; [done|split; [by apply Hsm|done]]|done]. }
  apply Hsm in Hs. destruct xs as [|v xs].
  - exists us. split; [|done]. apply evals_S, evals_eq. intros n. cbn [ops_of op_push]. unfold push, shape_is_empty. destruct Hh as [-> _]. done.
  - assert (Hempty : shape_is_empty x = false) by (by eapply Holds_nonempty). destruct x as [x m].
    assert (plain x \/ exists vs, x = SUnion vs) as [Hx|[vs ->]] by (destruct x; try (by left); right; by eexists).
    + apply push_plain_ok; try done. split; [done|cbn [fst] in *; lia].
    + pose proof Hh as (_ & Hu & Ht). cbn [fst] in *. apply Builds_union in Hu as [_ (_ & Hpl & Hw)]; [|done].
      destruct (push_variants vs us ws (v :: xs) Hb Hs Hl Hw) as (us' & [n0 Hev] & Hb' & Hs' & Hl' & Hf').
      { rewrite Forall_forall in *. intros u Hin. split; [by apply Hpl|]. apply (nmax_elem (fun u => depth u.1)) in Hin. cbn [depth] in Hd. lia. }
      exists us'. split; [|split; [done|split; [done|split; [done|]]]].
      * apply evals_S. exists n0. intros n Hn. cbn [ops_of op_push]. unfold push. rewrite Hempty. cbn [fst]. by apply Hev.
      * intros Fu Fx. apply Hf'; [done|]. unfold fieldy in Fx. cbn [fst] in Fx. rewrite union_subtype_of, forallb_elem in Fx. by rewrite Forall_forall.
Qed.
End pushing.
End step.

Lemma push_lt_all : (1 <= MAX_UNION_LENGTH)%nat -> forall d, push_lt d.
Proof. intros Hmax d. induction d as [|d IH]; [intros us ws x xs _ Hd; lia|]. intros us ws x xs Hb Hd Hh. by apply push_any. Qed.

(** A shape is pushed into any builder. *)
Definition building (us : list Shape) (ws : list ConvexValue) : Prop := Builds us ws /\ (length us <= MAX_UNION_LENGTH)%nat.

Lemma push_ok us ws x xs : (1 <= MAX_UNION_LENGTH)%nat -> building us ws -> Holds x xs ->
  exists us', evals (fun n => op_push (ops_of n) us x) (Ret us') /\ building us' (xs ++ ws) /\ (Forall fieldy us -> fieldy x -> Forall fieldy us').
Proof.
  intros Hmax [Hb Hl] Hh. set (d := S (nmax (map (fun u : Shape => depth u.1) (x :: us)))).
  assert (Hd : forall u, u ∈ x :: us -> (depth u.1 < d)%nat) by (intros u Hu%(nmax_elem (fun u : Shape => depth u.1)); unfold d; lia).
  destruct (push_lt_all Hmax d us ws x xs) as (us' & Hev & (Hb' & _ & Hl') & Hf'); [|apply Hd; by left|done|by exists us'].
  split; [done|split; [|done]]. destruct Hb as (_ & Hp & _). rewrite Forall_forall in *. intros u Hu. split; [by apply Hp|apply Hd; by right].
Qed.
End push.
