(* ===== verification/ShapeTracking.v ===== *)
(** * ShapeTracking: the shape of a changing multiset of values
      (src/crates/shape_inference/src/lib.rs) *)

From S2P Require Import Prelude Ord BTreeMap Identifier Value Sorting Base32 IdV6 Document Validator Shape ShapeInference ShapeMultiset ShapeMerge ShapeUnion ShapeCandidates ShapePush.

Local Open Scope Z_scope.

Lemma evals_shift {E A} (f : nat -> outcome E A) r : evals f r -> evals (fun n => f (S n)) r.
Proof. intros [n0 Hn]. exists n0. intros n Hle. apply Hn. lia. Qed.

Section tracking.
Context `{ShapeConfig} (Hmax : (1 <= MAX_UNION_LENGTH)%nat).

(** ** The shape of a value *)

Lemma shape_of_array n array : shape_of n (Array array) =
  (let? variant :=
    (let? builder := foldM (fun builder value => let? shape := shape_of n value in push (ops_of n) builder shape) [] array in
     let? element := build builder in Ret (SArray element)) in
   shape_new variant 1).
Proof.
  cbn [shape_of]. set (go := fix go builder array := match array with [] => _ | _ :: _ => _ end). assert (Hgo : forall l b, go b l = foldM (fun builder value => let? shape := shape_of n value in push (ops_of n) builder shape) b l).
  { intros l. induction l as [|v l IH]; intros b; [done|]. cbn [foldM go]. destruct (shape_of n v) as [s|e|]; cbn [obind]; [|done..]. destruct (push (ops_of n) b s); cbn [obind]; [apply IH|done..]. }
  by rewrite Hgo.
Qed.

Lemma shape_of_object n object : shape_of n (Object object) =
  (let? variant :=
    if (length object <=? MAX_SHAPE_FIELDS)%nat && forallb (fun e => is_valid_identifier e.1) object then
      let? field_shapes := foldM (fun fields (e : list Z * ConvexValue) => let? value_shape := shape_of n e.2 in Ret (BTreeMap.insert e.1 (value_shape, false) fields)) [] object in
      object_new field_shapes
    else
      let? (fields, values) := foldM (fun (fv : list Shape * list Shape) (e : list Z * ConvexValue) =>
        let? field_shape := shape_new (string_shape_of e.1) 1 in
        let? fields := push (ops_of n) fv.1 field_shape in
        let? value_shape := shape_of n e.2 in
        let? values := push (ops_of n) fv.2 value_shape in
        Ret (fields, values)) ([], []) object in
      let? field := build fields in
      let? value := build values in
      record_new field value in
   shape_new variant 1).
Proof.
  cbn [shape_of]. set (go := fix go fields object := match object with [] => Ret fields | _ :: _ => _ end). set (go' := fix go fv object := match object with [] => Ret fv | _ :: _ => _ end).
  assert (Hgo : forall l b, go b l = foldM (fun fields (e : list Z * ConvexValue) => let? value_shape := shape_of n e.2 in Ret (BTreeMap.insert e.1 (value_shape, false) fields)) b l).
  { intros l. induction l as [|[k v] l IH]; intros b; [done|]. cbn [foldM go fst snd]. destruct (shape_of n v) as [s|e|]; cbn [obind]; [apply IH|done..]. }
  assert (Hgo' : forall l b, go' b l = foldM (fun (fv : list Shape * list Shape) (e : list Z * ConvexValue) =>
        let? field_shape := shape_new (string_shape_of e.1) 1 in
        let? fields := push (ops_of n) fv.1 field_shape in
        let? value_shape := shape_of n e.2 in
        let? values := push (ops_of n) fv.2 value_shape in
        Ret (fields, values)) b l).
  { intros l. induction l as [|[k v] l IH]; intros b; [done|]. cbn [foldM go' fst snd]. destruct (shape_new _ 1) as [s|e|]; cbn [obind]; [|done..].
    destruct (push _ b.1 s) as [fs|e|]; cbn [obind]; [|done..]. destruct (shape_of n v) as [t|e|]; cbn [obind]; [|done..]. destruct (push _ b.2 t); cbn [obind]; [apply IH|done..]. }
  by rewrite Hgo, Hgo'.
Qed.

(** The function that pushes with the fuel of its caller. *)
Lemma push_evals us ws x xs : building us ws -> Holds x xs ->
  exists us', evals (fun n => push (ops_of n) us x) (Ret us') /\ building us' (xs ++ ws) /\ (Forall fieldy us -> fieldy x -> Forall fieldy us').
Proof. intros Hb Hh. destruct (push_ok us ws x xs Hmax Hb Hh) as (us' & Hev & Hr). exists us'. split; [by apply evals_shift in Hev|done]. Qed.

Lemma building_perm us ws ws' : ws ≡ₚ ws' -> building us ws -> building us ws'.
Proof. intros Hw [Hb Hl]. split; [by eapply Builds_perm|done]. Qed.

Lemma building_nil : building [] [].
Proof. split; [split; [done|split; [constructor|apply HoldAll_nil]]|cbn; lia]. Qed.

Lemma building_build us ws : building us ws -> exists s, build us = Ret s /\ Holds s ws /\ (Forall fieldy us -> fieldy s).
Proof. intros [Hb Hl]. destruct (build_ok us ws Hb Hl) as (s & Hbu & Hh & _ & Hf). exists s. split_and!; [done|apply Hh..|]. rewrite Forall_forall. apply Hf. Qed.

Definition has_shape (v : ConvexValue) : Prop := exists s, evals (fun n => shape_of n v) (Ret s) /\ Holds s [v].

Lemma leaf_shape v variant : match variant with SArray _ | SObject _ | SRecord _ _ | SUnion _ | SNever | SUnknown => False | _ => True end ->
  (forall n, shape_of n v = shape_new variant 1) -> contains variant v = true -> byte_texts v = true -> has_shape v.
Proof.
  intros Hleaf Hv Hc Ht. assert (HH : Holds (variant, 1) [v]) by (split_and!; [done|destruct variant; try done; split; try done; by constructor|by constructor]).
  exists (variant, 1). split; [|done]. apply evals_eq. intros n. rewrite Hv. by eapply shape_new_ok.
Qed.

Lemma float_shape f : contains (float64_shape_of f) (Float64 f) = true /\
  match float64_shape_of f with SArray _ | SObject _ | SRecord _ _ | SUnion _ | SNever | SUnknown => False | _ => True end.
Proof.
  assert (Hcases : float64_shape_of f = SNaN \/ float64_shape_of f = SPositiveInf \/ float64_shape_of f = SNegativeInf \/ float64_shape_of f = SNegativeZero \/ float64_shape_of f = SNormalFloat64)
    by (unfold float64_shape_of; repeat case_match; tauto).
  destruct Hcases as [E|[E|[E|[E|E]]]]; rewrite E; cbn [contains]; (split; [|done]); by rewrite E.
Qed.

Lemma array_shape items : (forall v, v ∈ items -> has_shape v) -> has_shape (Array items).
Proof.
  intros Hall. destruct (evals_fold_inv (fun n builder value => let? shape := shape_of n value in push (ops_of n) builder shape) (fun pre b => building b pre) items []) as (b & Hev & Hb); [apply building_nil| |].
  { intros pre v post b Hl Hb. destruct (Hall v) as (s & Hevs & Hs); [subst items; set_solver|]. destruct (push_evals b pre s [v] Hb Hs) as (b' & Hev & Hb' & _).
    exists b'. split; [by eapply evals_bind|]. eapply building_perm; [|exact Hb']. apply Permutation_app_comm. }
  destruct (building_build b items Hb) as (e & Hbu & He & _). assert (HH : Holds (SArray e, 1) [Array items]).
  { apply Holds_array. split_and!; [done|done|]. exists [items]. cbn. by rewrite app_nil_r. }
  exists (SArray e, 1). split; [|done]. destruct Hev as [n0 Hev]. exists n0. intros n Hn. rewrite shape_of_array, Hev by done. cbn [obind]. rewrite Hbu. cbn [obind]. by eapply shape_new_ok.
Qed.

Lemma fields_shape o : BTreeMap.wf o -> byte_texts (Object o) = true -> (length o <= MAX_SHAPE_FIELDS)%nat -> (forall e, e ∈ o -> is_valid_identifier e.1 = true) -> (forall e, e ∈ o -> has_shape e.2) ->
  exists fields, evals (E := unit) (fun n => foldM (E := unit) (fun fields (e : list Z * ConvexValue) => let? value_shape := shape_of n e.2 in Ret (BTreeMap.insert e.1 (value_shape, false) fields)) [] o) (Ret fields) /\
    Holds (SObject fields, 1) [Object o].
Proof.
  intros Hwf Ht Hl Hid Hall. set (R := fun (e : list Z * ConvexValue) (r : list Z * (Shape * bool)) => r.1 = e.1 /\ r.2.2 = false /\ Holds r.2.1 [e.2]).
  destruct (evals_fold_inv (fun n fields (e : list Z * ConvexValue) => let? value_shape := shape_of n e.2 in Ret (BTreeMap.insert e.1 (value_shape, false) fields)) (Forall2 R) o []) as (fields & Hev & Hf); [constructor| |].
  { intros pre e post fields Hlist Hpre. destruct (Hall e) as (s & Hevs & Hs); [subst o; set_solver|]. eexists. split; [eapply evals_bind; [exact Hevs|by apply evals_eq]|].
    destruct e as [k v]. cbn [fst snd] in *. rewrite (insert_in_order R pre fields k v); [|by intros ? ? [? _]| |done].
    - apply Forall2_app; [done|]. constructor; [by split_and!|constructor].
    - apply (BTreeMap.wf_app_inv _ post). rewrite <- app_assoc. rewrite Hlist in Hwf. exact Hwf. }
  exists fields. split; [done|]. apply Holds_object. split_and!; [done|done| |by rewrite <- (Forall2_length _ _ _ Hf)|].
  - apply (BTreeMap.get_Forall2 (fun _ _ => True) o); [|done]. eapply Forall2_impl; [done|]. by intros e r [? _].
  - exists [o]. pose proof (BTreeMap.wf_NoDup_fst _ Hwf) as Hnd. split_and!; [done|by constructor|by constructor| |].
    + constructor; [|constructor]. intros e He. pose proof (get_related R o fields e.1 (fun e r HR => proj1 HR) Hf) as Hr.
      destruct (get_some_elem o e He) as [v Hv]. rewrite Hv in Hr. by destruct (BTreeMap.get e.1 fields).
    + rewrite Forall_forall. intros r [i Hi]%list_elem_of_lookup. destruct (Forall2_lookup_r _ _ _ _ _ Hf Hi) as (e & He & Hk & Hopt & Hs). apply list_elem_of_lookup_2 in He.
      assert (Hg : BTreeMap.get e.1 o = Some e.2) by (apply BTreeMap.elem_of_get; [done|by destruct e]).
      unfold field_ok. rewrite Hk, column_cons, Hg. cbn [column flat_map app length]. split_and!; [by apply Hid|done|by rewrite Hopt|apply Hs..].
Qed.

Lemma record_shape o : byte_texts (Object o) = true -> (forall e, e ∈ o -> is_valid_field_name e.1 = true) -> (forall e, e ∈ o -> has_shape e.2) ->
  exists fv f v, evals (E := unit) (fun n => foldM (E := unit) (fun (fv : list Shape * list Shape) (e : list Z * ConvexValue) =>
        let? field_shape := shape_new (string_shape_of e.1) 1 in
        let? fields := push (ops_of n) fv.1 field_shape in
        let? value_shape := shape_of n e.2 in
        let? values := push (ops_of n) fv.2 value_shape in
        Ret (fields, values)) ([], []) o) (Ret fv) /\ build fv.1 = Ret f /\ build fv.2 = Ret v /\ Holds (SRecord f v, 1) [Object o].
Proof.
  intros Ht Hname Hall. set (I := fun (pre : list (list Z * ConvexValue)) (fv : list Shape * list Shape) => building fv.1 (names pre) /\ building fv.2 (map snd pre) /\ Forall fieldy fv.1).
  destruct (evals_fold_inv (fun n (fv : list Shape * list Shape) (e : list Z * ConvexValue) =>
        let? field_shape := shape_new (string_shape_of e.1) 1 in
        let? fields := push (ops_of n) fv.1 field_shape in
        let? value_shape := shape_of n e.2 in
        let? values := push (ops_of n) fv.2 value_shape in
        Ret (fields, values)) I o ([], [])) as (fv & Hev & Hf & Hv & Hfy); [split; [apply building_nil|split; [apply building_nil|constructor]]| |].
  { intros pre e post fv Hl (Hf & Hv & Hfy). assert (He : e ∈ o) by (subst o; set_solver). destruct (Hall e He) as (s & Hevs & Hs). destruct (byte_texts_field o e Ht He) as [Hb _].
    assert (Hk : Holds (string_shape_of e.1, 1) [String e.1]) by (apply (string_shape_holds e.1 [Null]); [done|by apply bool_decide_eq_true_1 in Hb]).
    destruct (push_evals fv.1 _ _ _ Hf Hk) as (fs & Hev1 & Hfs & Hffs). destruct (push_evals fv.2 _ _ _ Hv Hs) as (vs & Hev2 & Hvs & _). exists (fs, vs). split.
    - rewrite (shape_new_ok _ _ _ Hk). cbn [obind]. eapply evals_bind; [exact Hev1|]. eapply evals_bind; [exact Hevs|]. eapply evals_bind; [exact Hev2|]. by apply evals_eq.
    - unfold I, names in *. cbn [fst snd]. rewrite !map_app. split; [eapply building_perm; [|exact Hfs]; apply Permutation_app_comm|]. split; [eapply building_perm; [|exact Hvs]; apply Permutation_app_comm|].
      apply Hffs; [done|]. apply string_shape_fieldy. by apply Hname. }
  destruct (building_build _ _ Hf) as (f & Hbf & Hhf & Hff). destruct (building_build _ _ Hv) as (v & Hbv & Hhv & _). exists fv, f, v. split; [done|]. split; [done|]. split; [done|].
  apply Holds_record. split_and!; [done|done|by apply Hff|]. exists [o]. cbn [concat]. by rewrite app_nil_r.
Qed.

Lemma shape_of_ok v : valid v = true -> has_shape v.
Proof.
  induction v as [| |f| |s|b|items IH|o IH] using ConvexValue_ind'; intros Hv; pose proof (valid_byte_texts _ Hv) as Ht.
  - by apply (leaf_shape _ SNull).
  - by apply (leaf_shape _ SInt64).
  - destruct (float_shape f) as [Hc Hl]. by apply (leaf_shape _ (float64_shape_of f)).
  - by apply (leaf_shape _ SBoolean).
  - apply (leaf_shape _ (string_shape_of s)); [|done|apply string_shape_contains|done]. unfold string_shape_of. by destruct (is_valid_string_literal s), (decode s), (is_valid_field_name s).
  - by apply (leaf_shape _ SBytes).
  - apply valid_Array in Hv as [_ Hv]. rewrite Forall_forall in IH. apply array_shape. intros v Hin. by apply IH, Hv.
  - apply valid_Object in Hv as (_ & Hwf & Hv). rewrite Forall_forall in IH. assert (Hall : forall e, e ∈ o -> has_shape e.2) by (intros e He; by apply IH, Hv).
    destruct ((length o <=? MAX_SHAPE_FIELDS)%nat && forallb (fun e => is_valid_identifier e.1) o) eqn:Hob.
    + pose proof Hob as [Hl%Nat.leb_le Hid]%andb_prop. rewrite forallb_elem in Hid. destruct (fields_shape o Hwf Ht Hl Hid Hall) as (fields & [n0 Hev] & HH). exists (SObject fields, 1). split; [|done].
      exists n0. intros n Hn. rewrite shape_of_object, Hob, Hev by done. cbn [obind]. rewrite (object_new_ok _ _ _ HH). cbn [obind]. by eapply shape_new_ok.
    + destruct (record_shape o Ht) as (fv & f & v & [n0 Hev] & Hbf & Hbv & HH); [intros e He; by apply Hv|done|]. exists (SRecord f v, 1). split; [|done].
      exists n0. intros n Hn. rewrite shape_of_object, Hob, Hev by done. destruct fv as [fs vs]. cbn [obind fst snd] in *. rewrite Hbf. cbn [obind]. rewrite Hbv. cbn [obind]. rewrite (record_new_ok _ _ _ _ HH). cbn [obind]. by eapply shape_new_ok.
Qed.

(** ** Insertion *)

Lemma shape_insert_ok s vs v : Holds s vs -> valid v = true -> exists s', evals (fun n => shape_insert n s v) (Ret s') /\ Holds s' (v :: vs).
Proof.
  intros Hs Hv. destruct (shape_of_ok v Hv) as (t & Hevt & Ht).
  assert (Hb : exists us, evals (fun n => match s.1 with SUnion union => Ret union | _ => push (ops_of n) [] s end) (Ret us) /\ building us vs).
  { destruct s as [s m]. assert (plain s \/ exists us, s = SUnion us) as [Hp|[us ->]] by (destruct s; try (by left); right; by eexists).
    - destruct (push_evals [] [] (s, m) vs building_nil Hs) as (us & Hev & Hb & _). rewrite app_nil_r in Hb. exists us. split; [|done]. destruct Hev as [n0 Hev]. exists n0. intros n Hn. rewrite <- (Hev n Hn). by destruct s.
    - exists us. split; [by apply evals_eq|]. destruct Hs as (_ & Hu & Htx). by apply Builds_union in Hu as [[_ ?] ?]. }
  destruct Hb as (us & Hev & Hb). destruct (push_evals us vs t [v] Hb Ht) as (us' & Hev' & Hb' & _). destruct (building_build us' _ Hb') as (s' & Hbu & Hs' & _).
  exists s'. split; [|done]. unfold shape_insert. eapply evals_bind; [exact Hev|]. eapply evals_bind; [exact Hevt|]. eapply evals_bind; [exact Hev'|]. by apply evals_eq.
Qed.
End tracking.
