(* ===== verification/ShapeRemoval.v ===== *)
(** * ShapeRemoval: removing values from shapes
      (src/crates/shape_inference/src/lib.rs: [Shape::_remove])

    Removing a value that was put into a shape gives a shape of the others.
    Removing another value may fail or give the shape of some other values, but
    never panics: the variants of a union that do not contain the value are
    tried too. *)

From S2P Require Import Prelude Ord BTreeMap Identifier Value Sorting Base32 IdV6 Document Validator Shape ShapeInference ShapeMultiset ShapeMerge ShapeUnion ShapeCandidates ShapePush ShapeTracking.

Local Open Scope Z_scope.

Section removal.
Context `{ShapeConfig} (Hmax : (1 <= MAX_UNION_LENGTH)%nat).

(** The shape [r] is left of [u] after a removal. *)
Record below (r u : Shape) : Prop := {
  below_contains x : contains r.1 x = true -> contains u.1 x = true;
  below_fieldy : fieldy u -> fieldy r;
  below_plain : plain u.1 -> plain r.1;
  below_overlap : r.2 <> 0 -> forall c, may_overlap u.1 c = false -> may_overlap r.1 c = false;
  below_real : exists vs, Holds r vs;
}.

(** What removing the value does to a shape. *)
Definition removes (u : Shape) (v : ConvexValue) : Prop := forall vs, Holds u vs ->
  (evals (fun n => op_remove (ops_of n) u v) (Err tt) /\ v ∉ vs) \/
  exists r, evals (fun n => op_remove (ops_of n) u v) (Ret r) /\ below r u /\ contains u.1 v = true /\ r.2 = u.2 - 1 /\ forall ws, vs ≡ₚ v :: ws -> Holds r ws.

Lemma Holds_never vs : Holds (SNever, 0) vs <-> vs = [].
Proof. split; [by intros (_ & ? & _)|]. intros ->. split_and!; [done|done|constructor]. Qed.

Lemma Holds_count (u : Shape) vs : Holds u vs -> u.2 = zlen vs.
Proof. by intros [? _]. Qed.

Lemma zlen_nil {A} (l : list A) : zlen l = 0 -> l = [].
Proof. unfold zlen. destruct l; [done|]. cbn. lia. Qed.

(** The result of [one_less]. *)
Definition less (u : Shape) (variant : ShapeEnum) : Shape := (if u.2 =? 1 then SNever else variant, u.2 - 1).

Lemma one_less_ok (u : Shape) variant vs : Holds (less u variant) vs -> one_less u variant = Ret (less u variant).
Proof. intros Hh. unfold one_less. by eapply shape_new_ok. Qed.

Lemma Holds_less (u : Shape) variant vs : u.2 - 1 = zlen vs -> (vs <> [] -> Holds (variant, u.2 - 1) vs) -> Holds (less u variant) vs.
Proof.
  intros Hn Hh. unfold less. destruct (Z.eqb_spec u.2 1) as [E|E]; [rewrite E in *; change (1 - 1) with 0 in *; apply Holds_never, zlen_nil; lia|]. apply Hh. intros ->. change (zlen []) with 0 in Hn. lia.
Qed.

Lemma less_below u variant vs : Holds (less u variant) vs ->
  (forall x, u.2 <> 1 -> contains variant x = true -> contains u.1 x = true) ->
  (fieldy u -> is_subtype variant SFieldName = true) -> (plain u.1 -> plain variant) ->
  (forall c, u.2 <> 1 -> may_overlap u.1 c = false -> may_overlap variant c = false) -> below (less u variant) u.
Proof.
  intros Hh Hc Hf Hp Ho. unfold less in *. constructor; cbn [fst snd]; [..|by exists vs].
  - intros x. destruct (Z.eqb_spec u.2 1); [|by apply Hc]. by destruct x.
  - unfold fieldy at 2. cbn [fst]. destruct (Z.eqb_spec u.2 1); [done|]. by apply Hf.
  - destruct (u.2 =? 1); [done|]. by apply Hp.
  - intros Hne c. destruct (Z.eqb_spec u.2 1); [lia|]. by apply Ho.
Qed.

(** ** Leaves *)

Definition no_parts (s : ShapeEnum) : Prop := match s with SArray _ | SObject _ | SRecord _ _ | SUnion _ => False | _ => True end.

Lemma remove_leaf_eq o (u : Shape) v : no_parts u.1 -> u.2 <> 0 -> u.1 <> SNever -> _remove o u v = if contains u.1 v then one_less u u.1 else Err tt.
Proof.
  intros Hp Hu Hnever. unfold _remove. rewrite (proj2 (Z.eqb_neq _ _) Hu). destruct u as [u m]. cbn [fst snd] in *.
  assert (Hobj : forall object, _remove_object o (u, m) object = if contains u (Object object) then one_less (u, m) u else Err tt).
  { intros object. unfold _remove_object. cbn [fst snd]. rewrite (proj2 (Z.eqb_neq _ _) Hu). by destruct u. }
  destruct v; destruct u; try done; try (apply Hobj); cbn [contains fst].
  all: try (match goal with |- (ensure ?b tt ;? _) = _ => by destruct b end).
  destruct (decode s) as [i|e|]; [|done..]. by destruct (table i =? table_number).
Qed.

Lemma remove_leaf u v : no_parts u.1 -> removes u v.
Proof.
  intros Hp vs Hh. destruct vs as [|x vs].
  - left. split; [|set_solver]. apply evals_S, evals_eq. intros n. cbn [ops_of op_remove]. unfold _remove. by destruct Hh as [-> _].
  - assert (Hu : u.2 <> 0) by (rewrite (Holds_count _ _ Hh); unfold zlen; cbn; lia). assert (Hnever : u.1 <> SNever) by (intros E; destruct Hh as (_ & Hh & _); by rewrite E in Hh).
    assert (Heq : forall n, op_remove (ops_of (S n)) u v = if contains u.1 v then one_less u u.1 else Err tt) by (intros n; cbn [ops_of op_remove]; by apply remove_leaf_eq).
    assert (Hsub : forall ws, u.2 - 1 = zlen ws -> (forall y, y ∈ ws -> y ∈ x :: vs) -> Holds (less u u.1) ws).
    { intros ws Hn Hin. apply Holds_less; [done|]. intros Hne. destruct Hh as (_ & Hh & Ht). split_and!; [done| |].
      - cbn [fst]. destruct u as [u m]. cbn [fst] in *. destruct u; try done; destruct Hh as [_ Hh]; (split; [done|]); rewrite Forall_forall in *; intros y Hy; by apply Hh, Hin.
      - unfold texts in *. rewrite Forall_forall in *. intros y Hy. by apply Ht, Hin. }
    destruct (contains u.1 v) eqn:Hc.
    + right. exists (less u u.1). assert (Hreal : Holds (less u u.1) vs).
      { apply Hsub; [rewrite (Holds_count _ _ Hh); unfold zlen; cbn; lia|]. set_solver. }
      split_and!; [apply evals_S, evals_eq; intros n; rewrite Heq; by eapply one_less_ok|by eapply less_below|done|done|].
      intros ws Hp'. apply Hsub; [rewrite (Holds_count _ _ Hh); unfold zlen; rewrite (Permutation_length Hp'); cbn; lia|]. intros y Hy. rewrite Hp'. by right.
    + left. split; [apply evals_S, evals_eq; intros n; by rewrite Heq|]. intros Hin. destruct Hh as (_ & Hh & _). rewrite (holds_contains _ _ _ Hh Hin) in Hc. done.
Qed.

(** ** Several removals *)

Lemma evals_det {A} (f : nat -> outcome unit A) r r' : evals f r -> evals f r' -> r = r'.
Proof. intros [n Hn] [m Hm']. rewrite <- (Hn (n `max` m)%nat) by lia. apply Hm'. lia. Qed.

(** The result does not depend on the values. *)
Lemma removes_uniform u v : removes u v -> (exists vs, Holds u vs) ->
  (evals (fun n => op_remove (ops_of n) u v) (Err tt) /\ forall vs, Holds u vs -> v ∉ vs) \/
  exists r, evals (fun n => op_remove (ops_of n) u v) (Ret r) /\ below r u /\ contains u.1 v = true /\ r.2 = u.2 - 1 /\ forall vs ws, Holds u vs -> vs ≡ₚ v :: ws -> Holds r ws.
Proof.
  intros Hr [vs0 Hh0]. destruct (Hr vs0 Hh0) as [[He _]|(r & He & Hb & Hc & Hn & _)].
  - left. split; [done|]. intros vs Hh. destruct (Hr vs Hh) as [[_ ?]|(r & He' & _)]; [done|]. pose proof (evals_det _ _ _ He He'). done.
  - right. exists r. split_and!; [done|done|done|done|]. intros vs ws Hh Hp. destruct (Hr vs Hh) as [[He' _]|(r' & He' & _ & _ & _ & Hws)]; pose proof (evals_det _ _ _ He He') as E; [done|].
    injection E as <-. by apply Hws.
Qed.

(** What is left after several removals. *)
Record left_of (r u : Shape) : Prop := {
  left_contains x : contains r.1 x = true -> contains u.1 x = true;
  left_fieldy : fieldy u -> fieldy r;
  left_real : exists vs, Holds r vs;
}.

Lemma below_left r u : below r u -> left_of r u.
Proof. by intros []. Qed.

Lemma left_trans a b c : left_of a b -> left_of b c -> left_of a c.
Proof. intros [] []. constructor; auto. Qed.

Lemma removes_all xs : (forall x u, x ∈ xs -> removes u x) -> forall e, (exists vs, Holds e vs) ->
  (evals (E := unit) (fun n => foldM (E := unit) (op_remove (ops_of n)) e xs) (Err tt) /\ forall vs ws, Holds e vs -> ~ vs ≡ₚ xs ++ ws) \/
  exists r, evals (E := unit) (fun n => foldM (E := unit) (op_remove (ops_of n)) e xs) (Ret r) /\ left_of r e /\ (forall x, x ∈ xs -> contains e.1 x = true) /\ r.2 = e.2 - zlen xs /\
    forall vs ws, Holds e vs -> vs ≡ₚ xs ++ ws -> Holds r ws.
Proof.
  induction xs as [|x xs IH]; intros Hxs e He.
  - right. exists e. split_and!; [by apply evals_eq|by constructor|set_solver|change (zlen []) with 0; lia|]. intros vs ws Hh Hp. by eapply Holds_perm.
  - destruct (removes_uniform e x (Hxs x e (list_elem_of_here _ _)) He) as [[Hev Hnot]|(r & Hev & Hb & Hc & Hn & Hws)].
    + left. split; [by apply (evals_bind_err (fun n => op_remove (ops_of n) e x) (fun n s => foldM (op_remove (ops_of n)) s xs))|]. intros vs ws Hh Hp. apply (Hnot vs Hh). rewrite Hp. by left.
    + destruct (IH (fun y u Hy => Hxs y u (list_elem_of_further _ _ _ Hy)) r (below_real _ _ Hb)) as [[Hev' Hnot]|(r' & Hev' & Hl & Hc' & Hn' & Hws')].
      * left. split; [by eapply evals_fold|]. intros vs ws Hh Hp. apply (Hnot (xs ++ ws) ws); [|done]. by apply (Hws vs).
      * right. exists r'. split; [by eapply evals_fold|]. split; [by eapply left_trans; [|apply below_left]|]. split.
        { intros y [->|Hy]%elem_of_cons; [done|]. by apply (below_contains _ _ Hb), Hc'. }
        split; [rewrite Hn', Hn; unfold zlen; cbn [length]; lia|]. intros vs ws Hh Hp. apply (Hws' (xs ++ ws)); [|done]. by apply (Hws vs).
Qed.

(** ** Arrays *)

Lemma Holds_pos (u : Shape) vs : Holds u vs -> vs <> [] -> u.2 <> 0.
Proof. intros Hh Hne. rewrite (Holds_count _ _ Hh). unfold zlen. destruct vs; [done|]. cbn. lia. Qed.

Lemma concat_padding {A} (l : list A) n : concat (l :: repeat [] n) = l.
Proof. cbn. induction n as [|n IH]; [by rewrite app_nil_r|]. exact IH. Qed.

Lemma zlen_padding {A B} (f : list A -> B) l m : 2 <= m -> m - 1 = zlen (map f (l :: repeat [] (Z.to_nat (m - 2)))).
Proof. intros Hm'. unfold zlen. cbn [map length]. rewrite length_map, repeat_length. lia. Qed.

Lemma remove_array e m v : (forall a x u, v = Array a -> x ∈ a -> removes u x) -> removes (SArray e, m) v.
Proof.
  intros IH vs Hh. pose proof Hh as (Hn & Hne & arrays & Hp & He)%Holds_array. pose proof (Holds_pos _ _ Hh Hne) as Hm0. cbn [snd] in Hm0.
  assert (Hkind : (exists a, v = Array a) \/ forall a, v <> Array a) by (destruct v; try (by right); left; by eexists). destruct Hkind as [[a ->]|Hnot].
  2: { left. split.
    - apply evals_S, evals_eq. intros n. cbn [ops_of op_remove]. unfold _remove. cbn [fst snd]. rewrite (proj2 (Z.eqb_neq _ _) Hm0). destruct v as [| | | | | |a|ob]; try done; [by destruct (Hnot a)|]. unfold _remove_object. cbn [fst snd]. by rewrite (proj2 (Z.eqb_neq _ _) Hm0).
    - rewrite Hp. intros (a & -> & _)%list_elem_of_fmap. by apply (Hnot a). }
  assert (Hev : forall r, evals (E := unit) (fun n => foldM (E := unit) (op_remove (ops_of n)) e a) r -> forall r', match r with Ret x => one_less (SArray e, m) (SArray x) | Err _ => Err tt | Panic => Panic end = r' ->
    evals (fun n => op_remove (ops_of n) (SArray e, m) (Array a)) r').
  { intros r [n0 Hn0] r' <-. apply evals_S. exists n0. intros n Hle. cbn [ops_of op_remove]. unfold _remove. cbn [fst snd]. rewrite (proj2 (Z.eqb_neq _ _) Hm0), (Hn0 n Hle). by destruct r as [|[]|]. }
  destruct (removes_all a (fun x u Hx => IH a x u eq_refl Hx) e (ex_intro _ _ He)) as [[Hf Hnot]|(r & Hf & Hl & Hc & Hrn & Hws)].
  - left. split; [by eapply Hev|]. rewrite Hp. intros (a' & [= <-] & [arrays' Ha]%elem_of_Permutation)%list_elem_of_fmap. apply (Hnot (concat arrays) (concat arrays') He). by rewrite (concat_perm _ _ Ha).
  - right. destruct (left_real _ _ Hl) as [es Hes].
    assert (Hreal : Holds (less (SArray e, m) (SArray r)) (map Array (if m =? 1 then [] else es :: repeat [] (Z.to_nat (m - 2))))).
    { assert (Hm1 : 1 <= m) by (rewrite Hn in *; unfold zlen in *; lia). destruct (Z.eqb_spec m 1) as [E|E].
      - apply Holds_less; [cbn [snd]; rewrite E; done|done].
      - apply Holds_less; [apply zlen_padding; lia|]. intros _. apply Holds_array. cbn [snd]. split_and!; [apply zlen_padding; lia|done|]. eexists. split; [done|]. by rewrite concat_padding. }
    exists (less (SArray e, m) (SArray r)). split_and!.
    + eapply Hev; [exact Hf|]. by eapply one_less_ok.
    + eapply less_below; [exact Hreal|..]; cbn [fst]; try done.
      * intros x _. destruct x; try done. cbn [contains]. rewrite !forallb_elem. intros Hx y Hy. by apply (left_contains _ _ Hl), Hx.
      * intros c _. by rewrite !overlap_array.
    + cbn [fst contains]. by apply forallb_elem.
    + done.
    + intros ws Hpw. assert (Hlen : m - 1 = zlen ws) by (rewrite Hn; unfold zlen; rewrite (Permutation_length Hpw); cbn [length]; lia).
      apply Holds_less; [done|]. intros Hnw. apply Holds_array. split_and!; [done|done|]. rewrite Hp in Hpw. assert (Hin : Array a ∈ map Array arrays) by (rewrite Hpw; by left).
      apply list_elem_of_fmap in Hin as (a' & [= <-] & [arrays' Ha]%elem_of_Permutation). exists arrays'. split.
      * apply (Permutation_cons_inv (a := Array a)). rewrite <- Hpw. by rewrite Ha.
      * apply (Hws (concat arrays)); [done|]. by rewrite (concat_perm _ _ Ha).
Qed.

(** ** Unions *)

Lemma below_apart r u w q : below r u -> r.2 <> 0 -> apart u.1 w.1 -> Holds w q -> q <> [] -> apart r.1 w.1.
Proof.
  intros Hb Hr Ha Hw Hq. destruct (below_real _ _ Hb) as [vs Hvs]. split_and!.
  - destruct (is_subtype r.1 w.1) eqn:E; [|done]. exfalso. destruct vs as [|x vs]; [rewrite (Holds_count _ _ Hvs) in Hr; done|].
    apply (apart_disjoint u.1 w.1 x Ha); [apply (below_contains _ _ Hb); destruct Hvs as (_ & Hvs & _); eapply holds_contains; [done|by left]|]. eapply (subtype_contains r w); [done|done|done|by left].
  - destruct (is_subtype w.1 r.1) eqn:E; [|done]. exfalso. destruct q as [|x q]; [done|]. apply (apart_disjoint u.1 w.1 x Ha).
    + apply (below_contains _ _ Hb). eapply (subtype_contains w r); [done|done|done|by left].
    + destruct Hw as (_ & Hw & _). eapply holds_contains; [done|by left].
  - destruct Ha as (_ & _ & Ho). by apply (below_overlap _ _ Hb).
Qed.

Lemma small_bound (us : list Shape) : Forall (fun u : Shape => plain u.1) us -> Forall (small (nmax (map (fun u : Shape => depth u.1) us))) us.
Proof. rewrite !Forall_forall. intros Hp u Hu. split; [by apply Hp|]. by apply (nmax_elem (fun u : Shape => depth u.1)) in Hu. Qed.

(** The rest of a variant goes back into the union. *)
Lemma put_back us ws u r : Builds us ws -> (length us < MAX_UNION_LENGTH)%nat -> plain u.1 -> below r u -> (forall w, w ∈ us -> apart u.1 w.1) ->
  exists l, evals (fun n => op_push (ops_of n) us r) (Ret l) /\ (forall w, w ∈ l -> w = r \/ w ∈ us) /\
    forall p q, Holds r p -> HoldAll us q -> building l (p ++ q).
Proof.
  intros Hb Hl Hp Hbr Ha. pose proof Hb as (Hau & Hpu & Hw). destruct (below_real _ _ Hbr) as [rv Hrv]. destruct (decide (r.2 = 0)) as [E|E].
  - exists us. split; [|split; [by right|]].
    + apply evals_S, evals_eq. intros n. cbn [ops_of op_push]. unfold push, shape_is_empty. by rewrite E.
    + intros p q Hr Hq. assert (p = []) as -> by (apply zlen_nil; rewrite <- (Holds_count _ _ Hr); lia). split; [split; [done|by split]|lia].
  - assert (Hne : rv <> []) by (intros ->; by rewrite (Holds_count _ _ Hrv) in E). assert (Hap : forall w, w ∈ us -> apart r.1 w.1).
    { intros w Hin. destruct (HoldAll_elem us ws w Hw Hin) as (q & Hq & Hhw & _). by eapply below_apart; [done|done|apply Ha|done|]. }
    assert (Hs : Forall (small (nmax (map (fun u : Shape => depth u.1) (r :: us)))) (r :: us)) by (apply small_bound; constructor; [by apply (below_plain _ _ Hbr)|done]).
    apply Forall_cons in Hs as [Hsr Hs]. destruct (push_apart _ (plain_merges_all _) us ws r rv Hb Hs Hsr Hrv Hne Hap Hl) as (l & Hev & Hp').
    exists l. split; [done|]. split; [intros w Hin; rewrite Hp' in Hin; set_solver|]. intros p q Hr Hq. split; [|rewrite (Permutation_length Hp'); cbn; lia].
    apply (Builds_perm (r :: us) _ (p ++ q)); [done|done|]. split; [split; [by rewrite Forall_forall|done]|]. split; [constructor; [by apply (below_plain _ _ Hbr)|done]|].
    apply HoldAll_cons. exists p, q. split_and!; [|done|done|done]. intros ->. by rewrite (Holds_count _ _ Hr) in E.
Qed.

Lemma remove_first_ok v us : (forall u, plain u.1 -> removes u v) -> Forall (fun u : Shape => plain u.1) us -> (forall u, u ∈ us -> exists vs, Holds u vs) ->
  (evals (fun n => remove_first (ops_of n) v us) (Err tt) /\ forall u vs, u ∈ us -> Holds u vs -> v ∉ vs) \/
  exists u r, u ∈ us /\ evals (fun n => remove_first (ops_of n) v us) (Ret (u, r)) /\ below r u /\ contains u.1 v = true /\ r.2 = u.2 - 1 /\ forall vs ws, Holds u vs -> vs ≡ₚ v :: ws -> Holds r ws.
Proof.
  intros Hr. induction us as [|u us IH]; intros Hp Hh; [left; split; [by apply evals_eq|set_solver]|]. apply Forall_cons in Hp as [Hpu Hp].
  destruct (removes_uniform u v (Hr u Hpu) (Hh u (list_elem_of_here _ _))) as [[He Hnot]|(r & He & Hb & Hc & Hn & Hws)].
  - destruct (IH Hp (fun w Hw => Hh w (list_elem_of_further _ _ _ Hw))) as [[He' Hnot']|(w & r & Hin & He' & Hrest)].
    + left. split; [cbn [remove_first]; by eapply evals_match_err|]. intros w vs [->|Hw]%elem_of_cons; [apply Hnot|by apply Hnot'].
    + right. exists w, r. split; [by right|]. split; [cbn [remove_first]; by eapply evals_match_err|done].
  - right. exists u, r. split; [by left|]. split; [|done]. cbn [remove_first]. eapply evals_match_ret; [exact He|by apply evals_eq].
Qed.

Lemma build_contains us s x : build us = Ret s -> contains s.1 x = true -> exists u, u ∈ us /\ contains u.1 x = true.
Proof.
  unfold build. destruct us as [|u [|w us]].
  - intros [= <-]. by destruct x.
  - intros [= <-] Hc. exists u. split; [by left|done].
  - destruct (check_disjoint _); [|done]. cbn [rassert obind]. destruct (_ <=? _)%nat; [|done]. cbn [rassert obind]. unfold shape_new. destruct (_ || _); [|done]. intros [= <-] Hc. by apply contains_union in Hc.
Qed.

Lemma remove_union v : (forall u, plain u.1 -> removes u v) -> forall u, removes u v.
Proof.
  intros Hr [u m]. assert (plain u \/ exists us, u = SUnion us) as [Hp|[us ->]] by (destruct u; try (by left); right; by eexists); [by apply Hr|].
  intros vs Hh. pose proof Hh as (Hm0 & Hu & Ht). cbn [fst snd] in *. apply Builds_union in Hu as [Hl Hb]; [|done]. pose proof Hb as (Ha & Hp & Hw).
  assert (Hne : vs <> []) by (apply (HoldAll_ne _ _ Hw); lia). pose proof (Holds_pos _ _ Hh Hne) as Hm1. cbn [snd] in Hm1.
  assert (Hev : forall n, op_remove (ops_of (S n)) (SUnion us, m) v = remove_from_union (ops_of n) us v).
  { intros n. cbn [ops_of op_remove]. unfold _remove. cbn [fst snd]. rewrite (proj2 (Z.eqb_neq _ _) Hm1). destruct v; try done. unfold _remove_object. cbn [fst snd]. by rewrite (proj2 (Z.eqb_neq _ _) Hm1). }
  destruct (remove_first_ok v us Hr Hp) as [[He Hnot]|(u & r & Hin & He & Hbr & Hc & Hn & Hws)]; [intros u Hu; destruct (HoldAll_elem us vs u Hw Hu) as (q & _ & Hq & _); by exists q|..].
  - left. split.
    + apply evals_S. destruct He as [n0 He]. exists n0. intros n Hn. rewrite Hev. unfold remove_from_union. by rewrite He.
    + destruct Hw as (parts & Hv & Hf). rewrite Hv. intros (q & Hq%list_elem_of_In & Hvq%list_elem_of_In)%list_elem_of_In%in_concat. apply list_elem_of_lookup in Hq as [i Hi].
      destruct (Forall2_lookup_r _ _ _ _ _ Hf Hi) as (u & Hu & _ & Hhu). apply list_elem_of_lookup_2 in Hu. by apply (Hnot u q).
  - right. destruct (set_remove_ok (E := unit) u us Hin) as (us' & Hrem & Hperm). pose proof (Builds_perm _ _ _ _ Hperm (Permutation_refl vs) Hb) as Hb'.
    apply Builds_cons in Hb' as (Hpu & Hau & p & ws & Hnp & Hhu & Hbw & Hvs). assert (Hlen : (length us' < MAX_UNION_LENGTH)%nat) by (apply Permutation_length in Hperm; cbn in Hperm; lia).
    destruct (put_back us' ws u r Hbw Hlen Hpu Hbr Hau) as (l & Hpush & Hlin & Hbl). destruct (below_real _ _ Hbr) as [rv Hrv].
    pose proof (Hbl rv ws Hrv (proj2 (proj2 Hbw))) as Hbuild. destruct (building_build l _ Hbuild) as (s & Hbs & Hs & Hfs). exists s.
    assert (Hin' : forall w, w ∈ us' -> w ∈ us) by (intros w Hin'; rewrite Hperm; by right). split_and!.
    + apply evals_S. assert (Hfrom : evals (fun n => remove_from_union (ops_of n) us v) (Ret s)).
      { unfold remove_from_union. eapply evals_bind; [exact He|]. cbn beta iota. rewrite Hrem. cbn [obind]. eapply evals_bind; [exact Hpush|]. by apply evals_eq. }
      destruct Hfrom as [n0 Hfrom]. exists n0. intros n Hle. rewrite Hev. by apply Hfrom.
    + constructor; [| |done| |by exists (rv ++ ws)].
      * intros x (w & Hw' & Hcx)%(build_contains l s x Hbs). cbn [fst]. apply contains_union. destruct (Hlin w Hw') as [->|Hw2]; [exists u; split; [done|by apply (below_contains _ _ Hbr)]|exists w; auto].
      * unfold fieldy at 1. cbn [fst]. rewrite union_subtype_of, forallb_elem. intros Hf. apply Hfs. rewrite Forall_forall. intros w Hw'. destruct (Hlin w Hw') as [->|Hw2]; [apply (below_fieldy _ _ Hbr); by apply Hf|by apply Hf, Hin'].
      * intros _ c. unfold may_overlap at 1. cbn [fst]. destruct (shape_eqb _ _); [done|]. by destruct c.
    + cbn [fst]. apply contains_union. by exists u.
    + cbn [snd]. rewrite (Holds_count _ _ Hs), Hm0. pose proof (Holds_count _ _ Hrv). pose proof (Holds_count _ _ Hhu). unfold zlen in *. rewrite (Permutation_length Hvs), !length_app in *. lia.
    + intros vs' Hvs'. assert (Hv : v ∈ p).
      { assert (Hvv : v ∈ p ++ ws) by (rewrite <- Hvs, Hvs'; by left). apply elem_of_app in Hvv as [?|Hvw]; [done|]. exfalso. destruct Hbw as (_ & _ & parts & Hpw & Hf). rewrite Hpw in Hvw.
        apply list_elem_of_In, in_concat in Hvw as (q & Hq%list_elem_of_In & Hvq%list_elem_of_In). apply list_elem_of_lookup in Hq as [i Hi]. destruct (Forall2_lookup_r _ _ _ _ _ Hf Hi) as (w & Hw' & _ & _ & Hhw & _).
        apply list_elem_of_lookup_2 in Hw'. apply (apart_disjoint u.1 w.1 v); [by apply Hau|done|by eapply holds_contains]. }
      apply elem_of_Permutation in Hv as [p' Hp']. pose proof (Hbl p' ws (Hws p p' Hhu Hp') (proj2 (proj2 Hbw))) as Hfin. destruct (building_build l _ Hfin) as (s' & Hbs' & Hs' & _).
      assert (s' = s) as -> by congruence. eapply Holds_perm; [|exact Hs']. apply (Permutation_cons_inv (a := v)). rewrite <- Hvs', Hvs, Hp'. done.
Qed.

(** ** Records *)

Lemma remove_not_object u v : is_objects u.1 = true -> (forall o, v <> Object o) -> removes u v.
Proof.
  intros Hu Hv vs Hh. destruct u as [u m]. cbn [fst] in Hu. left. assert (Hob : exists O, vs ≡ₚ map Object O).
  { destruct u; try done; [apply Holds_object in Hh as (_ & _ & _ & _ & O & HO & _)|apply Holds_record in Hh as (_ & _ & _ & O & HO & _)]; by exists O. }
  destruct Hob as [O HO]. split; [|rewrite HO; intros (o & -> & _)%list_elem_of_fmap; by apply (Hv o)].
  apply evals_S, evals_eq. intros n. cbn [ops_of op_remove]. unfold _remove. cbn [fst snd]. destruct (m =? 0); [done|]. destruct v as [| | | | | | |o]; try (by destruct u). by destruct (Hv o).
Qed.

Notation remove_entry n := (fun (fv : Shape * Shape) (e : list Z * ConvexValue) =>
          let? field_shape := op_remove (ops_of n) fv.1 (String e.1) in
          let? value_shape := op_remove (ops_of n) fv.2 e.2 in
          Ret (field_shape, value_shape)).

Lemma removes_entries o : (forall e u, e ∈ o -> removes u (String e.1)) -> (forall e u, e ∈ o -> removes u e.2) -> forall f t, (exists fs, Holds f fs) -> (exists ts, Holds t ts) ->
  (evals (E := unit) (fun n => foldM (E := unit) (remove_entry n) (f, t) o) (Err tt) /\ forall fs ts fw tw, Holds f fs -> Holds t ts -> fs ≡ₚ names o ++ fw -> ts ≡ₚ map snd o ++ tw -> False) \/
  exists f' t', evals (E := unit) (fun n => foldM (E := unit) (remove_entry n) (f, t) o) (Ret (f', t')) /\ left_of f' f /\ left_of t' t /\
    (forall e, e ∈ o -> contains f.1 (String e.1) = true /\ contains t.1 e.2 = true) /\ f'.2 = f.2 - zlen o /\ t'.2 = t.2 - zlen o /\
    (forall fs fw, Holds f fs -> fs ≡ₚ names o ++ fw -> Holds f' fw) /\ (forall ts tw, Holds t ts -> ts ≡ₚ map snd o ++ tw -> Holds t' tw).
Proof.
  induction o as [|e o IH]; intros Hk Hv f t Hf Ht.
  - right. exists f, t. split_and!; [by apply evals_eq|by constructor|by constructor|set_solver|change (zlen []) with 0; lia|change (zlen []) with 0; lia|intros ? ? Hh Hp; by eapply Holds_perm..].
  - destruct (removes_uniform f (String e.1) (Hk e f (list_elem_of_here _ _)) Hf) as [[Hev Hnot]|(f1 & Hev1 & Hb1 & Hc1 & Hn1 & Hws1)].
    { left. split; [|intros fs ts fw tw Hhf _ Hpf _; apply (Hnot fs Hhf); rewrite Hpf; by left].
      apply (evals_bind_err (fun n => remove_entry n (f, t) e) (fun n s => foldM (remove_entry n) s o)). cbn [fst snd]. by apply (evals_bind_err (fun n => op_remove (ops_of n) f (String e.1))). }
    destruct (removes_uniform t e.2 (Hv e t (list_elem_of_here _ _)) Ht) as [[Hev Hnot]|(t1 & Hev2 & Hb2 & Hc2 & Hn2 & Hws2)].
    { left. split; [|intros fs ts fw tw _ Hht _ Hpt; apply (Hnot ts Hht); rewrite Hpt; by left].
      apply (evals_bind_err (fun n => remove_entry n (f, t) e) (fun n s => foldM (remove_entry n) s o)). cbn [fst snd]. eapply evals_bind; [exact Hev1|]. by apply (evals_bind_err (fun n => op_remove (ops_of n) t e.2)). }
    assert (Hstep : evals (fun n => remove_entry n (f, t) e) (Ret (f1, t1))) by (cbn [fst snd]; eapply evals_bind; [exact Hev1|]; eapply evals_bind; [exact Hev2|]; by apply evals_eq).
    destruct (IH (fun a u Ha => Hk a u (list_elem_of_further _ _ _ Ha)) (fun a u Ha => Hv a u (list_elem_of_further _ _ _ Ha)) f1 t1 (below_real _ _ Hb1) (below_real _ _ Hb2)) as [[Hev Hnot]|(f' & t' & Hev & Lf & Lt & Hc & Nf & Nt & Wf & Wt)].
    + left. split; [by eapply evals_fold|]. intros fs ts fw tw Hhf Hht Hpf Hpt. apply (Hnot (names o ++ fw) (map snd o ++ tw) fw tw); [by apply (Hws1 fs)|by apply (Hws2 ts)|done|done].
    + right. exists f', t'. split; [by eapply evals_fold|]. split; [by eapply left_trans; [|apply below_left]|]. split; [by eapply left_trans; [|apply below_left]|]. split.
      { intros a [->|Ha]%elem_of_cons; [done|]. destruct (Hc a Ha). split; [by apply (below_contains _ _ Hb1)|by apply (below_contains _ _ Hb2)]. }
      split; [rewrite Nf, Hn1; unfold zlen; cbn [length]; lia|]. split; [rewrite Nt, Hn2; unfold zlen; cbn [length]; lia|]. split.
      * intros fs fw Hhf Hpf. apply (Wf (names o ++ fw)); [|done]. by apply (Hws1 fs).
      * intros ts tw Hht Hpt. apply (Wt (map snd o ++ tw)); [|done]. by apply (Hws2 ts).
Qed.

(** Names and values make entries. *)
Lemma entries_of_parts (f : Shape) fs (ts : list ConvexValue) : fieldy f -> Holds f fs -> length fs = length ts -> exists es, names es = fs /\ map snd es = ts.
Proof.
  intros Hf (_ & Hh & Ht). assert (Hs : forall x, x ∈ fs -> exists k, x = String k).
  { intros x Hx. unfold texts in Ht. rewrite Forall_forall in Ht. assert (Hc : contains SFieldName x = true) by (eapply is_subtype_ok; [by apply wf_leaf|by apply Ht|exact Hf|by eapply holds_contains]). destruct x; try done. by eexists. }
  clear -Hs. revert ts. induction fs as [|x fs IH]; intros [|t ts] Hl; try done; [by exists []|]. destruct (Hs x (list_elem_of_here _ _)) as [k ->].
  destruct (IH (fun y Hy => Hs y (list_elem_of_further _ _ _ Hy)) ts) as (es & <- & <-); [by injection Hl|]. by exists ((k, t) :: es).
Qed.

Lemma remove_record f t m o : (forall e u, e ∈ o -> removes u (String e.1)) -> (forall e u, e ∈ o -> removes u e.2) -> removes (SRecord f t, m) (Object o).
Proof.
  intros Hk Hv vs Hh. pose proof Hh as (Hn & Hne & Hff & O & Hp & Hhf & Hht)%Holds_record. pose proof (Holds_pos _ _ Hh Hne) as Hm0. cbn [snd] in Hm0.
  assert (Hev : forall r, evals (E := unit) (fun n => foldM (E := unit) (remove_entry n) (f, t) o) r -> forall r', match r with Ret x => let? variant := record_new x.1 x.2 in one_less (SRecord f t, m) variant | Err _ => Err tt | Panic => Panic end = r' ->
    evals (fun n => op_remove (ops_of n) (SRecord f t, m) (Object o)) r').
  { intros r [n0 Hn0] r' <-. apply evals_S. exists n0. intros n Hle. cbn [ops_of op_remove]. unfold _remove, _remove_object. cbn [fst snd]. rewrite (proj2 (Z.eqb_neq _ _) Hm0), (Hn0 n Hle). by destruct r as [[]|[]|]. }
  assert (Hcat : forall O', O ≡ₚ o :: O' -> names (concat O) ≡ₚ names o ++ names (concat O') /\ map snd (concat O) ≡ₚ map snd o ++ map snd (concat O')).
  { intros O' HO. unfold names. rewrite (concat_perm _ _ HO). cbn [concat]. by rewrite !map_app. }
  destruct (removes_entries o Hk Hv f t (ex_intro _ _ Hhf) (ex_intro _ _ Hht)) as [[Hf Hnot]|(f' & t' & Hf & Lf & Lt & Hc & Nf & Nt & Wf & Wt)].
  - left. split; [by eapply Hev|]. rewrite Hp. intros (o' & [= <-] & [O' HO]%elem_of_Permutation)%list_elem_of_fmap. destruct (Hcat O' HO) as [H1 H2]. by apply (Hnot _ _ _ _ Hhf Hht H1 H2).
  - right. destruct (left_real _ _ Lf) as [fs Hfs]. destruct (left_real _ _ Lt) as [ts Hts]. pose proof (left_fieldy _ _ Lf Hff) as Hff'.
    assert (Hcount : f'.2 = t'.2).
    { rewrite Nf, Nt, (Holds_count _ _ Hhf), (Holds_count _ _ Hht). unfold names, zlen. by rewrite !length_map. }
    destruct (entries_of_parts f' fs ts Hff' Hfs) as (es & <- & <-). { pose proof (Holds_count _ _ Hfs). pose proof (Holds_count _ _ Hts). unfold zlen in *. lia. }
    assert (Hnew : record_new f' t' = Ret (SRecord f' t')) by (unfold record_new, fieldy in *; rewrite Hff', Hcount, Z.eqb_refl; done).
    assert (Hreal : Holds (less (SRecord f t, m) (SRecord f' t')) (map Object (if m =? 1 then [] else es :: repeat [] (Z.to_nat (m - 2))))).
    { assert (Hm1 : 1 <= m) by (rewrite Hn in *; unfold zlen in *; lia). destruct (Z.eqb_spec m 1) as [E|E].
      - apply Holds_less; [cbn [snd]; rewrite E; done|done].
      - apply Holds_less; [apply zlen_padding; lia|]. intros _. apply Holds_record. cbn [snd]. split_and!; [apply zlen_padding; lia|done|done|]. eexists. split; [done|]. by rewrite concat_padding. }
    exists (less (SRecord f t, m) (SRecord f' t')). split_and!.
    + eapply Hev; [exact Hf|]. cbn [fst snd]. rewrite Hnew. cbn [obind]. by eapply one_less_ok.
    + eapply less_below; [exact Hreal|..]; cbn [fst]; try done.
      * intros x _. destruct x; try done. cbn [contains]. rewrite !forallb_elem. intros Hx y Hy. destruct (andb_prop _ _ (Hx y Hy)). apply andb_true_intro. split; [by apply (left_contains _ _ Lf)|by apply (left_contains _ _ Lt)].
      * intros c _. by rewrite !overlap_record.
    + cbn [fst contains]. apply forallb_elem. intros e He. destruct (Hc e He) as [-> ->]. done.
    + done.
    + intros ws Hpw. assert (Hlen : m - 1 = zlen ws) by (rewrite Hn; unfold zlen; rewrite (Permutation_length Hpw); cbn [length]; lia).
      apply Holds_less; [done|]. intros Hnw. apply Holds_record. rewrite Hp in Hpw. assert (Hin : Object o ∈ map Object O) by (rewrite Hpw; by left).
      apply list_elem_of_fmap in Hin as (o' & [= <-] & [O' HO]%elem_of_Permutation). destruct (Hcat O' HO) as [H1 H2]. split_and!; [done|done|done|]. exists O'. split; [|split; [by apply (Wf (names (concat O)))|by apply (Wt (map snd (concat O)))]].
      apply (Permutation_cons_inv (a := Object o)). rewrite <- Hpw. by rewrite HO.
Qed.

(** ** Objects *)

(** Objects with given columns. *)
Definition heads (cols : list (list Z * list ConvexValue)) : list (list Z * ConvexValue) :=
  flat_map (fun c => match c.2 with v :: _ => [(c.1, v)] | [] => [] end) cols.
Definition tails (cols : list (list Z * list ConvexValue)) : list (list Z * list ConvexValue) := map (fun c => (c.1, tl c.2)) cols.
Fixpoint rows (n : nat) (cols : list (list Z * list ConvexValue)) : list (list (list Z * ConvexValue)) :=
  match n with O => [] | S n => heads cols :: rows n (tails cols) end.

Lemma elem_of_heads cols e : e ∈ heads cols -> exists c, c ∈ cols /\ c.1 = e.1 /\ e.2 ∈ c.2.
Proof.
  unfold heads. rewrite list_elem_of_In, in_flat_map. intros (c & Hc%list_elem_of_In & He). exists c. destruct c as [k [|v col]]; [done|]. destruct He as [<-|[]]. split_and!; [done|done|by left].
Qed.

Lemma get_heads cols k : NoDup (map fst cols) -> BTreeMap.get k (heads cols) = match BTreeMap.get k cols with Some (v :: _) => Some v | _ => None end.
Proof.
  induction cols as [|[q col] cols IH]; intros Hnd; [done|]. cbn in Hnd. apply NoDup_cons in Hnd as [Hq Hnd]. specialize (IH Hnd). cbn [BTreeMap.get heads flat_map fst snd]. change (flat_map _ cols) with (heads cols).
  destruct (k ==? q) eqn:E.
  - apply (proj1 (eqb_eq k q)) in E as ->. destruct col as [|v col]; cbn [app BTreeMap.get]; [|by rewrite eqb_refl]. rewrite IH. destruct (BTreeMap.get q cols) as [c|] eqn:Hg; [|done].
    destruct Hq. apply get_elem in Hg. apply list_elem_of_fmap. by exists (q, c).
  - destruct col as [|v col]; cbn [app BTreeMap.get]; [exact IH|]. by rewrite E.
Qed.

Lemma heads_NoDup cols : NoDup (map fst cols) -> NoDup (map fst (heads cols)).
Proof.
  induction cols as [|[q col] cols IH]; intros Hnd; [constructor|]. cbn in Hnd. apply NoDup_cons in Hnd as [Hq Hnd]. destruct col as [|v col]; cbn; [by apply IH|].
  apply NoDup_cons. split; [|by apply IH]. intros (e & -> & (c & Hc & Hk & _)%elem_of_heads)%list_elem_of_fmap. apply Hq, list_elem_of_fmap. by exists c.
Qed.

Lemma get_tails cols k : BTreeMap.get k (tails cols) = option_map (@tl _) (BTreeMap.get k cols).
Proof. induction cols as [|[q col] cols IH]; [done|]. cbn. by destruct (k ==? q). Qed.

Lemma tails_keys cols : map fst (tails cols) = map fst cols.
Proof. unfold tails. rewrite map_map. done. Qed.

Lemma column_rows n : forall cols k, NoDup (map fst cols) -> (forall c, c ∈ cols -> (length c.2 <= n)%nat) -> column k (rows n cols) = default [] (BTreeMap.get k cols).
Proof.
  induction n as [|n IH]; intros cols k Hnd Hl; cbn [rows].
  - destruct (BTreeMap.get k cols) as [c|] eqn:Hg; [|done]. apply get_elem, Hl in Hg. cbn in *. by destruct c; [|cbn in Hg; lia].
  - rewrite column_cons, IH, get_heads, get_tails; [|done|by rewrite tails_keys|].
    + destruct (BTreeMap.get k cols) as [[|v c]|]; done.
    + intros c (c' & -> & Hc')%list_elem_of_fmap. specialize (Hl c' Hc'). cbn. destruct c'.2; cbn in *; lia.
Qed.

Lemma rows_length n cols : length (rows n cols) = n.
Proof. revert cols. induction n as [|n IH]; intros cols; [done|]. cbn. by rewrite IH. Qed.

Lemma rows_NoDup n : forall cols, NoDup (map fst cols) -> Forall (fun o => NoDup (map fst o)) (rows n cols).
Proof. induction n as [|n IH]; intros cols Hnd; constructor; [by apply heads_NoDup|]. apply IH. by rewrite tails_keys. Qed.

Lemma elem_of_rows n : forall cols o e, o ∈ rows n cols -> e ∈ o -> exists c, c ∈ cols /\ c.1 = e.1 /\ e.2 ∈ c.2.
Proof.
  induction n as [|n IH]; intros cols o e Ho He; [by apply elem_of_nil in Ho|]. cbn in Ho. apply elem_of_cons in Ho as [->|Ho]; [by apply elem_of_heads|].
  destruct (IH _ _ _ Ho He) as (c & (c' & -> & Hc')%list_elem_of_fmap & Hk & Hin). exists c'. split_and!; [done|done|]. cbn in Hin. destruct c'.2; [done|by right].
Qed.

Lemma rows_texts n cols : (forall c, c ∈ cols -> bytes c.1 /\ texts c.2) -> texts (map Object (rows n cols)).
Proof.
  intros Hc. unfold texts. rewrite Forall_map, Forall_forall. intros o Ho. cbn [byte_texts]. apply forallb_elem. intros e He. destruct (elem_of_rows n cols o e Ho He) as (c & Hin & <- & Hv).
  destruct (Hc c Hin) as [Hb Ht]. unfold texts in Ht. rewrite Forall_forall in Ht. apply andb_true_intro. split; [by apply bool_decide_eq_true_2|by apply Ht].
Qed.

(** A fold that stops at the first element that fails for some reason. *)
Lemma evals_fold_or {St A} (F : nat -> St -> A -> outcome unit St) (I : list A -> St -> Prop) (R : A -> Prop) l s : I [] s ->
  (forall pre x post s, l = pre ++ x :: post -> I pre s -> (evals (fun n => F n s x) (Err tt) /\ R x) \/ exists s', evals (fun n => F n s x) (Ret s') /\ I (pre ++ [x]) s') ->
  (evals (E := unit) (fun n => foldM (E := unit) (F n) s l) (Err tt) /\ exists x, x ∈ l /\ R x) \/ exists s', evals (fun n => foldM (F n) s l) (Ret s') /\ I l s'.
Proof.
  intros H0 Hstep. assert (Hgen : forall post pre s, l = pre ++ post -> I pre s -> (evals (E := unit) (fun n => foldM (E := unit) (F n) s post) (Err tt) /\ exists x, x ∈ l /\ R x) \/ exists s', evals (fun n => foldM (F n) s post) (Ret s') /\ I l s').
  { intros post. induction post as [|x post IH]; intros pre s' Hl Hs; [rewrite app_nil_r in Hl; subst pre; right; exists s'; split; [by apply evals_eq|done]|].
    destruct (Hstep pre x post s' Hl Hs) as [[He HR]|(s1 & He & Hs1)].
    - left. split; [by apply (evals_bind_err (fun n => F n s' x) (fun n s => foldM (F n) s post))|]. exists x. split; [subst l; set_solver|done].
    - destruct (IH (pre ++ [x]) s1) as [[He' HR]|(s2 & He' & Hs2)]; [by rewrite <- app_assoc|done|left; split; [by eapply evals_fold|done]|right; exists s2; split; [by eapply evals_fold|done]]. }
  by apply (Hgen l []).
Qed.

(** The fields of the object, removed from those of the shape. *)
Definition field_removed (y r : Shape) (x : ConvexValue) : Prop :=
  below r y /\ contains y.1 x = true /\ r.2 = y.2 - 1 /\ forall vs ws, Holds y vs -> vs ≡ₚ x :: ws -> Holds r ws.

(** The fields that are left. *)
Definition fields_left (fs : list (list Z * (Shape * bool))) (o : list (list Z * ConvexValue)) (m : Z) (fields : list (list Z * (Shape * bool))) : Prop :=
  BTreeMap.wf fields /\ forall k,
  match BTreeMap.get k o with
  | Some x => exists y r, BTreeMap.get k fs = Some y /\ field_removed y.1 r x /\ BTreeMap.get k fields = if shape_is_empty r then None else Some (r, y.2)
  | None =>
      match BTreeMap.get k fs with
      | Some y => y.2 = true /\ BTreeMap.get k fields = Some (y.1, negb (y.1.2 =? m))
      | None => BTreeMap.get k fields = None
      end
  end.

Lemma remove_present fs o : BTreeMap.wf o -> (forall k y, BTreeMap.get k fs = Some y -> is_valid_identifier k = true /\ exists vs, Holds y.1 vs) -> (forall e u, e ∈ o -> removes u e.2) ->
  (evals (E := unit) (fun n => foldM (E := unit) (fun fields (e : list Z * ConvexValue) =>
    ensure (is_valid_identifier e.1) tt ;?
    let? field := ok_or (BTreeMap.get e.1 fs) tt in
    let? new_value_shape := op_remove (ops_of n) field.1 e.2 in
    Ret (if shape_is_empty new_value_shape then fields else BTreeMap.insert e.1 (new_value_shape, field.2) fields)) [] o) (Err tt) /\
   exists e, e ∈ o /\ forall y, BTreeMap.get e.1 fs = Some y -> forall vs, Holds y.1 vs -> e.2 ∉ vs) \/
  exists fields : list (list Z * (Shape * bool)), evals (E := unit) (fun n => foldM (E := unit) (fun fields (e : list Z * ConvexValue) =>
    ensure (is_valid_identifier e.1) tt ;?
    let? field := ok_or (BTreeMap.get e.1 fs) tt in
    let? new_value_shape := op_remove (ops_of n) field.1 e.2 in
    Ret (if shape_is_empty new_value_shape then fields else BTreeMap.insert e.1 (new_value_shape, field.2) fields)) [] o) (Ret fields) /\
    BTreeMap.wf fields /\ forall k, match BTreeMap.get k o with
      | Some x => exists y r, BTreeMap.get k fs = Some y /\ field_removed y.1 r x /\ BTreeMap.get k fields = if shape_is_empty r then None else Some (r, y.2)
      | None => BTreeMap.get k fields = None
      end.
Proof.
  intros Hwf Hfs Hr.
  set (I := fun (pre : list (list Z * ConvexValue)) (fields : list (list Z * (Shape * bool))) => BTreeMap.wf fields /\ forall k, match BTreeMap.get k pre with
      | Some x => exists y r, BTreeMap.get k fs = Some y /\ field_removed y.1 r x /\ BTreeMap.get k fields = if shape_is_empty r then None else Some (r, y.2)
      | None => BTreeMap.get k fields = None
      end).
  apply (evals_fold_or _ I); [by split|]. intros pre [k x] post fields Hl [Hw Hpre]. cbn [fst snd]. assert (He : (k, x) ∈ o) by (subst o; set_solver).
  assert (Hp : BTreeMap.get k pre = None) by (subst o; exact (get_prefix pre (k, x) post Hwf)).
  destruct (BTreeMap.get k fs) as [y|] eqn:Hg; [|left; split; [apply evals_eq; intros n; by destruct (is_valid_identifier k)|done]].
  destruct (Hfs k y Hg) as [Hid Hreal]. rewrite Hid. cbn [ensure obind ok_or].
  destruct (removes_uniform y.1 x (Hr (k, x) y.1 He) Hreal) as [[Hev Hnot]|(r & Hev & Hb & Hc & Hn & Hws)].
  - left. split; [by apply (evals_bind_err (fun n => op_remove (ops_of n) y.1 x))|]. intros y' [= <-]. exact Hnot.
  - right. eexists. split; [eapply evals_bind; [exact Hev|by apply evals_eq]|]. split; [destruct (shape_is_empty r); [done|by apply BTreeMap.wf_insert]|].
    intros q. rewrite BTreeMap.get_app. specialize (Hpre q). cbn [BTreeMap.get]. destruct (q ==? k) eqn:E.
    + apply (proj1 (eqb_eq q k)) in E as ->. rewrite Hp in *. exists y, r. split_and!; [done|by split_and!|]. destruct (shape_is_empty r); [done|]. by apply BTreeMap.get_insert_eq.
    + assert (Hne : q <> k) by (intros ->; by rewrite eqb_refl in E). assert (Hsame : BTreeMap.get q (if shape_is_empty r then fields else BTreeMap.insert k (r, y.2) fields) = BTreeMap.get q fields).
      { destruct (shape_is_empty r); [done|]. by apply BTreeMap.get_insert_ne. }
      rewrite Hsame. by destruct (BTreeMap.get q pre).
Qed.

Lemma remove_absent (fs fields : list (list Z * (Shape * bool))) (o : list (list Z * ConvexValue)) m : BTreeMap.wf fs -> BTreeMap.wf fields -> (forall k, BTreeMap.get k o = None -> BTreeMap.get k fields = None) ->
  decides (forallb (fun e : list Z * (Shape * bool) => match BTreeMap.get e.1 o with Some _ => true | None => e.2.2 end) fs)
    (fun _ : nat => foldM (fun fields (e : list Z * (Shape * bool)) =>
      match BTreeMap.get e.1 o with
      | Some _ => Ret fields
      | None => ensure e.2.2 tt ;? Ret (BTreeMap.insert e.1 (e.2.1, if e.2.1.2 =? m then false else e.2.2) fields)
      end) fields fs)
    (fun r => BTreeMap.wf r /\ forall k, BTreeMap.get k r = match BTreeMap.get k o with
      | Some _ => BTreeMap.get k fields
      | None => match BTreeMap.get k fs with Some y => Some (y.1, negb (y.1.2 =? m)) | None => None end
      end).
Proof.
  intros Hwfs Hwf Hdom.
  set (I := fun (pre r : list (list Z * (Shape * bool))) => BTreeMap.wf r /\ forall k, BTreeMap.get k r = match BTreeMap.get k o with
      | Some _ => BTreeMap.get k fields
      | None => match BTreeMap.get k pre with Some y => Some (y.1, negb (y.1.2 =? m)) | None => None end
      end).
  apply (decides_fold _ _ I).
  - split; [done|]. intros k. destruct (BTreeMap.get k o) eqn:Hk; [done|]. by apply Hdom.
  - intros pre [q y] post r Hl [Hwr Hr]. cbn [fst snd]. assert (Hp : BTreeMap.get q pre = None) by (subst fs; exact (get_prefix pre (q, y) post Hwfs)).
    destruct (BTreeMap.get q o) eqn:Hg.
    + eapply decides_ret; [done|by apply evals_eq|]. split; [done|]. intros k. rewrite Hr, BTreeMap.get_app. destruct (BTreeMap.get k o) eqn:Hk; [done|].
      cbn [BTreeMap.get]. destruct (BTreeMap.get k pre); [done|]. destruct (k ==? q) eqn:E; [|done]. apply (proj1 (eqb_eq k q)) in E as ->. congruence.
    + destruct y.2 eqn:Ho; [|by apply decides_err; [|apply evals_eq]]. eapply decides_ret; [done|by apply evals_eq|]. split; [by apply BTreeMap.wf_insert|].
      intros k. rewrite BTreeMap.get_insert_if, Hr, BTreeMap.get_app by done. cbn [fst snd BTreeMap.get].
      destruct (decide (k = q)) as [->|Hne]; [rewrite Hg, Hp, eqb_refl; by destruct (y.1.2 =? m)|]. destruct (k ==? q) eqn:E; [by apply (proj1 (eqb_eq k q)) in E|].
      by destruct (BTreeMap.get k o), (BTreeMap.get k pre).
Qed.

Lemma remove_fields_ok fs o m : BTreeMap.wf fs -> BTreeMap.wf o -> (forall k y, BTreeMap.get k fs = Some y -> is_valid_identifier k = true /\ exists vs, Holds y.1 vs) -> (forall e u, e ∈ o -> removes u e.2) ->
  (evals (fun n => remove_fields (ops_of n) fs o m) (Err tt) /\
    ((exists e, e ∈ o /\ forall y, BTreeMap.get e.1 fs = Some y -> forall vs, Holds y.1 vs -> e.2 ∉ vs) \/ exists e, e ∈ fs /\ e.2.2 = false /\ BTreeMap.get e.1 o = None)) \/
  exists fields, evals (fun n => remove_fields (ops_of n) fs o m) (Ret fields) /\ fields_left fs o m fields.
Proof.
  intros Hwfs Hwfo Hfs Hr. destruct (remove_present fs o Hwfo Hfs Hr) as [[Hev Hnot]|(fields & Hev & Hwf & Hf)].
  - left. split; [|by left]. unfold remove_fields. by eapply evals_bind_err.
  - assert (Hdom : forall k, BTreeMap.get k o = None -> BTreeMap.get k fields = None) by (intros k Hk; specialize (Hf k); by rewrite Hk in Hf).
    destruct (decides_true _ _ _ (remove_absent fs fields o m Hwfs Hwf Hdom)) as [[Hb He]|[_ (r & He & Hall & Hwr & Hget)]].
    + left. split; [unfold remove_fields; eapply evals_bind; [exact Hev|exact He]|]. right. apply not_true_iff_false in Hb. rewrite forallb_elem in Hb.
      destruct (first_split (fun e : list Z * (Shape * bool) => negb (match BTreeMap.get e.1 o with Some _ => true | None => e.2.2 end)) fs) as [Hno|(pre & e & post & Hl & _ & Htest)].
      * destruct Hb. intros e Hin. apply negb_false_iff. by apply Hno.
      * exists e. split; [subst fs; set_solver|]. destruct (BTreeMap.get e.1 o); [done|]. by destruct e.2.2.
    + right. exists r. split; [unfold remove_fields; eapply evals_bind; [exact Hev|exact He]|]. split; [done|]. intros k. specialize (Hf k). specialize (Hget k). rewrite Hget.
      destruct (BTreeMap.get k o) as [x|] eqn:Hk; [done|]. destruct (BTreeMap.get k fs) as [y|] eqn:Hy; [|done]. split; [|done]. rewrite forallb_elem in Hall.
      apply get_elem, Hall in Hy. cbn [fst snd] in Hy. by rewrite Hk in Hy.
Qed.

Lemma field_at fs O m k y : m = zlen O -> Forall (field_ok O) fs -> BTreeMap.get k fs = Some y -> is_valid_identifier k = true /\ Holds y.1 (column k O) /\ 1 <= y.1.2 <= m /\ (y.2 = false <-> y.1.2 = m).
Proof.
  intros Hm Hf Hg%get_elem. rewrite Forall_forall in Hf. destruct (Hf _ Hg) as (Hid & Hne & Hopt & Hh). cbn [fst snd] in *. pose proof (Holds_count _ _ Hh) as Hc. pose proof (column_length k O) as Hle.
  unfold zlen in *. split_and!; [done|apply Hh..| | |]; [destruct (column k O); [done|cbn in *; lia]|lia|]. rewrite Hopt, negb_false_iff, Nat.eqb_eq. lia.
Qed.

Section object.
Context (fs : list (list Z * (Shape * bool))) (O : list (list (list Z * ConvexValue))) (m : Z) (o : list (list Z * ConvexValue)) (fields : list (list Z * (Shape * bool))).
Context (Hwf : BTreeMap.wf fs) (Hl : (length fs <= MAX_SHAPE_FIELDS)%nat) (Hm : m = zlen O) (Hf : Forall (field_ok O) fs) (Hleft : fields_left fs o (m - 1) fields).

#[local] Set Default Proof Using "All".

(** A field that is left: its shape and whether it is optional. *)
Lemma left_field k z : BTreeMap.get k fields = Some z ->
  is_valid_identifier k = true /\ 1 <= z.1.2 /\ z.2 = negb (z.1.2 =? m - 1) /\ z.1.2 <= m - 1 /\ (exists vs, Holds z.1 vs) /\ is_Some (BTreeMap.get k fs).
Proof.
  intros Hz. destruct Hleft as [_ Hk]. specialize (Hk k). destruct (BTreeMap.get k o) as [x|] eqn:Hx.
  - destruct Hk as (y & r & Hy & (Hb & Hc & Hn & _) & Hr). rewrite Hz in Hr. unfold shape_is_empty in Hr. destruct (Z.eqb_spec r.2 0) as [E|E]; [done|]. injection Hr as ->. cbn [fst snd].
    destruct (field_at fs O m k y Hm Hf Hy) as (Hid & _ & Hrange & Hopt). destruct (below_real _ _ Hb) as [vs Hvs]. split_and!; [done|lia| |lia|by exists vs|by eexists].
    apply eq_true_iff_eq. rewrite negb_true_iff, Z.eqb_neq, Hn. destruct y.2; [|destruct Hopt as [Hopt _]; specialize (Hopt eq_refl); split; [done|lia]]. split; [|done]. intros _ E'. assert (y.1.2 = m) by lia. by apply Hopt in H0.
  - destruct (BTreeMap.get k fs) as [y|] eqn:Hy; [|congruence]. destruct Hk as [Ho Hr]. rewrite Hz in Hr. injection Hr as ->. cbn [fst snd].
    destruct (field_at fs O m k y Hm Hf Hy) as (Hid & Hh & Hrange & Hopt). assert (y.1.2 <> m) by (intros E; apply Hopt in E; congruence). split_and!; [done|lia|done|lia|by eexists|by eexists].
Qed.

Lemma left_length : (length fields <= length fs)%nat.
Proof.
  destruct Hleft as [Hw _]. rewrite <- (length_map fst fields), <- (length_map fst fs). apply submseteq_length, NoDup_submseteq; [by apply BTreeMap.wf_NoDup_fst|].
  intros k (e & -> & He)%list_elem_of_fmap. assert (Hg : BTreeMap.get e.1 fields = Some e.2) by (apply BTreeMap.elem_of_get; [done|by destruct e]).
  apply left_field in Hg as (_ & _ & _ & _ & _ & [y Hy]). apply get_elem in Hy. apply list_elem_of_fmap. by exists (e.1, y).
Qed.

Lemma left_holds R : m - 1 = zlen R -> R <> [] -> Forall (fun o => NoDup (map fst o)) R -> texts (map Object R) ->
  (forall k, match BTreeMap.get k fields with Some z => Holds z.1 (column k R) | None => column k R = [] end) -> Holds (SObject fields, m - 1) (map Object R).
Proof.
  intros Hn Hne Hnd Ht Hcol. pose proof left_length. apply Holds_object. split_and!; [unfold zlen in *; by rewrite length_map|by destruct R|apply Hleft|lia|]. exists R. split_and!; [done|done|done| |].
  - rewrite Forall_forall. intros r Hr e He. specialize (Hcol e.1). destruct (BTreeMap.get e.1 fields) as [z|]; [by eexists|]. exfalso. rewrite Forall_forall in Hnd.
    assert (Hin : e.2 ∈ column e.1 R) by (apply elem_of_column; exists r; split; [done|]; apply get_of_elem; [by apply Hnd|by destruct e]). rewrite Hcol in Hin. by apply elem_of_nil in Hin.
  - rewrite Forall_forall. intros [k z] Hz. assert (Hg : BTreeMap.get k fields = Some z) by (apply BTreeMap.elem_of_get; [apply Hleft|done]). specialize (Hcol k). rewrite Hg in Hcol.
    destruct (left_field k z Hg) as (Hid & Hpos & Hopt & _). pose proof (Holds_count _ _ Hcol) as Hc. unfold field_ok. cbn [fst snd]. unfold zlen in *. split_and!; [done|destruct (column k R); [cbn in Hc; lia|done]| |apply Hcol..].
    rewrite Hopt. f_equal. apply eq_true_iff_eq. rewrite Z.eqb_eq, Nat.eqb_eq. lia.
Qed.

(** Some objects have the fields that are left. *)
Lemma left_real_objects : texts (map Object O) -> 2 <= m -> exists R, Holds (SObject fields, m - 1) (map Object R) /\ R <> [].
Proof.
  intros Ht Hm2. destruct Hleft as [Hw _].
  assert (Hcols : exists cols, Forall2 (fun (z : list Z * (Shape * bool)) c => c.1 = z.1 /\ Holds z.2.1 c.2) fields cols).
  { assert (Hall : forall z, z ∈ fields -> exists c : list Z * list ConvexValue, c.1 = z.1 /\ Holds z.2.1 c.2).
    { intros [k z] Hz. apply BTreeMap.elem_of_get in Hz; [|done]. destruct (left_field k z Hz) as (_ & _ & _ & _ & [vs Hvs] & _). by exists (k, vs). }
    clear -Hall. induction fields as [|z l IH]; [by exists []|]. destruct (Hall z (list_elem_of_here _ _)) as [c Hc]. destruct (IH (fun y Hy => Hall y (list_elem_of_further _ _ _ Hy))) as [cols Hcols]. exists (c :: cols). by constructor. }
  destruct Hcols as [cols Hcols]. assert (Hkeys : map fst cols = map fst fields) by (clear -Hcols; induction Hcols as [|z c l cols [Hk _] _ IH]; [done|]; cbn; by rewrite Hk, IH).
  assert (Hnd : NoDup (map fst cols)) by (rewrite Hkeys; by apply BTreeMap.wf_NoDup_fst).
  assert (Hcol : forall c, c ∈ cols -> exists z, BTreeMap.get c.1 fields = Some z /\ Holds z.1 c.2).
  { intros c [i Hi]%list_elem_of_lookup. destruct (Forall2_lookup_r _ _ _ _ _ Hcols Hi) as (z & Hz & Hk & Hh). exists z.2. split; [|done]. apply list_elem_of_lookup_2 in Hz. apply BTreeMap.elem_of_get; [done|]. rewrite Hk. by destruct z. }
  exists (rows (Z.to_nat (m - 1)) cols). pose proof (rows_length (Z.to_nat (m - 1)) cols) as Hlen. assert (Hne : rows (Z.to_nat (m - 1)) cols <> []) by (intros E; rewrite E in Hlen; cbn in Hlen; lia). split; [|done]. apply left_holds; [|done|..].
  - unfold zlen. rewrite Hlen. lia.
  - by apply rows_NoDup.
  - apply rows_texts. intros c Hc. destruct (Hcol c Hc) as (z & Hz & _ & _ & Htx). split; [|done]. destruct (left_field c.1 z Hz) as (_ & _ & _ & _ & _ & [y Hy]).
    apply get_elem in Hy. rewrite Forall_forall in Hf. destruct (Hf _ Hy) as (_ & Hne' & _). by eapply column_bytes.
  - intros k. rewrite column_rows; [|done|].
    + pose proof (get_related (fun z c : list Z * _ => c.1 = z.1 /\ Holds z.2.1 c.2) fields cols k (fun e r HR => proj1 HR) Hcols) as Hr. destruct (BTreeMap.get k fields) as [z|], (BTreeMap.get k cols) as [c|]; try done. apply Hr.
    + intros c Hc. destruct (Hcol c Hc) as (z & Hz & Hh). destruct (left_field c.1 z Hz) as (_ & _ & _ & Hle & _). pose proof (Holds_count _ _ Hh) as Hcount. unfold zlen in Hcount. lia.
Qed.
(** The values of a field that is left are values of the field. *)
Lemma left_field_below x : m <> 1 -> BTreeMap.wf o -> contains (SObject fields) x = true -> contains (SObject fs) x = true.
Proof.
  intros Hm1 Hwo Hc. destruct x as [| | | | | | |x]; try done. rewrite contains_object in *. destruct Hc as [H1 H2], Hleft as [Hw Hk]. split.
  - intros e He. destruct (H1 e He) as (z & Hz & Hcz). specialize (Hk e.1). destruct (BTreeMap.get e.1 o) as [v|].
    + destruct Hk as (y & r & Hy & (Hb & _) & Hr). rewrite Hz in Hr. destruct (shape_is_empty r); [done|]. injection Hr as ->. exists y. split; [done|]. by apply (below_contains _ _ Hb).
    + destruct (BTreeMap.get e.1 fs) as [y|]; [|congruence]. destruct Hk as [_ Hr]. rewrite Hz in Hr. injection Hr as ->. by exists y.
  - intros [k y] Hin Ho. cbn [fst snd] in *. assert (Hy : BTreeMap.get k fs = Some y) by (by apply BTreeMap.elem_of_get). specialize (Hk k). rewrite Hy in Hk. destruct (field_at fs O m k y Hm Hf Hy) as (_ & _ & Hrange & Hopt). apply Hopt in Ho as Hcount.
    destruct (BTreeMap.get k o) as [v|]; [|destruct Hk; congruence]. destruct Hk as (y' & r & [= <-] & (_ & _ & Hn & _) & Hr). unfold shape_is_empty in Hr. replace (r.2 =? 0) with false in Hr by (symmetry; apply Z.eqb_neq; lia).
    apply (H2 (k, (r, y.2))); [by apply BTreeMap.elem_of_get|done].
Qed.

Lemma left_overlap c : m <> 1 -> may_overlap (SObject fs) c = false -> may_overlap (SObject fields) c = false.
Proof.
  intros Hm1. rewrite !overlap_object. destruct c as [| | | | | | | | | | | | | | | |gs| | |]; try done. rewrite !negb_false_iff, !orb_true_iff. destruct Hleft as [Hw Hk]. unfold missing. rewrite !existsb_elem. intros [([k y] & Hin & Ht)|([k g] & Hin & Ht)].
  - left. cbn [fst snd] in Ht. assert (Hy : BTreeMap.get k fs = Some y) by (by apply BTreeMap.elem_of_get). specialize (Hk k). rewrite Hy in Hk. destruct (field_at fs O m k y Hm Hf Hy) as (_ & _ & Hrange & Hopt). apply andb_prop in Ht as [Ho Ht]. apply negb_true_iff in Ho. apply Hopt in Ho as Hcount.
    destruct (BTreeMap.get k o) as [v|]; [|destruct Hk; congruence]. destruct Hk as (y' & r & [= <-] & (_ & _ & Hn & _) & Hr). unfold shape_is_empty in Hr. replace (r.2 =? 0) with false in Hr by (symmetry; apply Z.eqb_neq; lia).
    exists (k, (r, y.2)). split; [by apply BTreeMap.elem_of_get|]. cbn [fst snd]. by rewrite Ho.
  - right. exists (k, g). split; [done|]. cbn [fst snd] in *. apply andb_prop in Ht as [-> Ht]. cbn. destruct (BTreeMap.get k fields) as [z|] eqn:Hz; [|done].
    destruct (left_field k z Hz) as (_ & _ & _ & _ & _ & [y Hy]). by rewrite Hy in Ht.
Qed.

Lemma left_value : BTreeMap.wf o -> contains (SObject fs) (Object o) = true.
Proof.
  intros Hwo. destruct Hleft as [_ Hk]. apply contains_object. split.
  - intros e He. assert (Hg : BTreeMap.get e.1 o = Some e.2) by (apply BTreeMap.elem_of_get; [done|by destruct e]). specialize (Hk e.1). rewrite Hg in Hk. destruct Hk as (y & r & Hy & (_ & Hc & _) & _). by exists y.
  - intros [k y] Hin Ho. cbn [fst snd] in *. assert (Hy : BTreeMap.get k fs = Some y) by (by apply BTreeMap.elem_of_get). specialize (Hk k). rewrite Hy in Hk. destruct (BTreeMap.get k o); [by eexists|]. destruct Hk. congruence.
Qed.

(** The fields that are left are those of the other objects. *)
Lemma left_others O' : O ≡ₚ o :: O' -> (forall k, BTreeMap.get k fs = None -> column k O = []) ->
  forall k, match BTreeMap.get k fields with Some z => Holds z.1 (column k O') | None => column k O' = [] end.
Proof.
  intros HO Habs k. destruct Hleft as [_ Hk]. specialize (Hk k). assert (Hcol : column k O ≡ₚ match BTreeMap.get k o with Some v => [v] | None => [] end ++ column k O') by (rewrite HO; by rewrite column_cons).
  destruct (BTreeMap.get k o) as [x|].
  - destruct Hk as (y & r & Hy & (_ & _ & _ & Hws) & Hr). destruct (field_at fs O m k y Hm Hf Hy) as (_ & Hh & _). pose proof (Hws _ _ Hh Hcol) as Hh'. rewrite Hr. unfold shape_is_empty. destruct (Z.eqb_spec r.2 0) as [E|E]; [|done].
    apply zlen_nil. rewrite <- (Holds_count _ _ Hh'). done.
  - cbn [app] in Hcol. destruct (BTreeMap.get k fs) as [y|] eqn:Hy.
    + destruct Hk as [_ Hr]. rewrite Hr. cbn [fst]. destruct (field_at fs O m k y Hm Hf Hy) as (_ & Hh & _). by eapply Holds_perm.
    + rewrite Hk. rewrite (Habs k Hy) in Hcol. by apply Permutation_nil_l in Hcol.
Qed.
End object.

Lemma remove_object fs m o : BTreeMap.wf o -> (forall e u, e ∈ o -> removes u e.2) -> removes (SObject fs, m) (Object o).
Proof.
  intros Hwo Hr vs Hh. pose proof Hh as (Hn & Hne & Hwf & Hl & O & Hp & Ht & Hnd & Hkeys & Hf)%Holds_object. pose proof (Holds_pos _ _ Hh Hne) as Hm0. cbn [snd] in Hm0.
  assert (HnO : m = zlen O) by (rewrite Hn; unfold zlen; by rewrite (Permutation_length Hp), length_map).
  assert (Hev : forall r, evals (fun n => remove_fields (ops_of n) fs o (m - 1)) r -> forall r', match r with Ret x => let? variant := object_new x in one_less (SObject fs, m) variant | Err _ => Err tt | Panic => Panic end = r' ->
    evals (fun n => op_remove (ops_of n) (SObject fs, m) (Object o)) r').
  { intros r [n0 Hn0] r' <-. apply evals_S. exists n0. intros n Hle. cbn [ops_of op_remove]. unfold _remove, _remove_object. cbn [fst snd]. rewrite (proj2 (Z.eqb_neq _ _) Hm0), (Hn0 n Hle). by destruct r as [|[]|]. }
  destruct (remove_fields_ok fs o (m - 1) Hwf Hwo) as [[He Hnot]|(fields & He & Hleft)]; [|done|..].
  { intros k y Hy. destruct (field_at fs O m k y HnO Hf Hy) as (? & ? & _). split; [done|by eexists]. }
  - left. split; [by eapply Hev|]. rewrite Hp. intros (o' & [= <-] & Ho)%list_elem_of_fmap. rewrite Forall_forall in Hkeys. destruct Hnot as [(e & Hin & Hnot)|([k y] & Hin & Hopt & Habs)]; cbn [fst snd] in *.
    + destruct (Hkeys o Ho e Hin) as [y Hy]. destruct (field_at fs O m e.1 y HnO Hf Hy) as (_ & Hhy & _). apply (Hnot y Hy _ Hhy). apply elem_of_column. exists o. split; [done|]. apply BTreeMap.elem_of_get; [done|by destruct e].
    + rewrite Forall_forall in Hf. destruct (Hf _ Hin) as (_ & _ & Ho' & _). cbn [fst snd] in Ho'. rewrite Hopt in Ho'. symmetry in Ho'. apply negb_false_iff, Nat.eqb_eq in Ho'. destruct (column_full k O Ho' o Ho). congruence.
  - right. assert (Hm1 : 1 <= m) by (rewrite HnO in *; unfold zlen in *; lia).
    assert (Hnew : object_new fields = Ret (SObject fields)).
    { unfold object_new. pose proof (left_length fs O m o fields Hwf Hl HnO Hf Hleft). rewrite (proj2 (Nat.leb_le _ _)) by lia. cbn [rassert obind]. replace (forallb _ fields) with true; [done|]. symmetry. apply forallb_elem. intros [k z] Hz.
      assert (Hg : BTreeMap.get k fields = Some z) by (apply BTreeMap.elem_of_get; [apply Hleft|done]). destruct (left_field fs O m o fields Hwf Hl HnO Hf Hleft k z Hg) as (_ & Hpos & _). unfold shape_is_empty. apply negb_true_iff, Z.eqb_neq. cbn [fst snd]. lia. }
    assert (Hreal : exists R, Holds (less (SObject fs, m) (SObject fields)) R).
    { destruct (Z.eq_dec m 1) as [E|E]; [exists []; apply Holds_less; [cbn [snd]; rewrite E; done|done]|].
      destruct (left_real_objects fs O m o fields Hwf Hl HnO Hf Hleft Ht ltac:(lia)) as (R & HR & _). exists (map Object R). apply Holds_less; [exact (Holds_count _ _ HR)|]. intros _. exact HR. }
    destruct Hreal as [R Hreal]. exists (less (SObject fs, m) (SObject fields)). split_and!.
    + eapply Hev; [exact He|]. cbn [fst snd]. rewrite Hnew. cbn [obind]. by eapply one_less_ok.
    + eapply less_below; [exact Hreal|..]; cbn [fst snd]; try done.
      * intros x Hx. by apply (left_field_below fs O m o fields Hwf Hl HnO Hf Hleft).
      * intros c Hc. by apply (left_overlap fs O m o fields Hwf Hl HnO Hf Hleft).
    + cbn [fst]. by apply (left_value fs O m o fields Hwf Hl HnO Hf Hleft).
    + done.
    + intros ws Hpw. assert (Hlen : m - 1 = zlen ws) by (rewrite Hn; unfold zlen; rewrite (Permutation_length Hpw); cbn [length]; lia).
      apply Holds_less; [done|]. intros Hnw. rewrite Hp in Hpw. assert (Hin : Object o ∈ map Object O) by (rewrite Hpw; by left).
      apply list_elem_of_fmap in Hin as (o' & [= <-] & [O' HO]%elem_of_Permutation). assert (Hws : ws ≡ₚ map Object O').
      { apply (Permutation_cons_inv (a := Object o)). rewrite <- Hpw. by rewrite HO. }
      apply (Holds_perm _ (map Object O')); [done|]. apply (left_holds fs O m o fields Hwf Hl HnO Hf Hleft).
      * rewrite Hlen. unfold zlen. by rewrite (Permutation_length Hws), length_map.
      * intros ->. apply Permutation_nil_r in Hws. done.
      * rewrite HO in Hnd. by apply Forall_cons in Hnd as [_ ?].
      * apply (texts_perm _ (map Object (o :: O'))) in Ht; [|by rewrite HO]. by apply Forall_cons in Ht as [_ ?].
      * apply (left_others fs O m o fields Hwf Hl HnO Hf Hleft O' HO). intros k Hk. by eapply column_absent.
Qed.

(** ** All removals *)

Lemma remove_string k u : removes u (String k).
Proof.
  apply remove_union. clear u. intros u Hp. destruct u as [u m]. cbn [fst] in Hp. destruct u; try done; try (by apply remove_leaf); [by apply remove_array|by apply remove_not_object..].
Qed.

Lemma shape_remove_ok v : valid v = true -> forall u, removes u v.
Proof.
  induction v as [| | | | | |items IH|o IH] using ConvexValue_ind'; intros Hv; apply remove_union; intros u Hp; destruct u as [u m]; cbn [fst] in Hp; destruct u; try done;
    try (by apply remove_leaf); try (by apply remove_not_object); try (by apply remove_array).
  - apply valid_Array in Hv as [_ Hv]. rewrite Forall_forall in IH. apply remove_array. intros a x u [= <-] Hx. by apply IH, Hv.
  - apply valid_Object in Hv as (_ & Hwf & Hv). rewrite Forall_forall in IH. apply remove_object; [done|]. intros e u He. by apply IH, Hv.
  - apply valid_Object in Hv as (_ & Hwf & Hv). rewrite Forall_forall in IH. apply remove_record; [intros e u _; apply remove_string|]. intros e u He. by apply IH, Hv.
Qed.
End removal.
