(* ===== verification/ShapeHistory.v ===== *)
(** * ShapeHistory: a shape follows the values put into it and taken out of it
      (src/crates/shape_inference/src: lib.rs, subtype.rs, union.rs)

    The results on insertion and removal, for any sequence of them. *)

From S2P Require Import Prelude Ord BTreeMap Identifier Value Sorting Base32 IdV6 Document Validator Shape ShapeInference ShapeMultiset ShapeMerge ShapeUnion ShapeCandidates ShapePush ShapeTracking ShapeRemoval.

Local Open Scope Z_scope.

Inductive change := Insert (object : BTreeMap.t (list Z) ConvexValue) | Remove (object : BTreeMap.t (list Z) ConvexValue).

(** The values after the changes; a value that is removed was there. *)
Inductive history : list ConvexValue -> list change -> list ConvexValue -> Prop :=
| history_nil vs : history vs [] vs
| history_insert vs o cs ws : valid (Object o) = true -> history (Object o :: vs) cs ws -> history vs (Insert o :: cs) ws
| history_remove vs rest o cs ws : valid (Object o) = true -> vs ≡ₚ Object o :: rest -> history rest cs ws -> history vs (Remove o :: cs) ws.

Section history.
Context `{ShapeConfig}.

Definition change_shape (fuel : nat) (self : Shape) (c : change) : outcome unit Shape :=
  match c with Insert o => shape_insert fuel self (Object o) | Remove o => shape_remove fuel self o end.

(** No comparison with a third shape tells the shapes apart. *)
Definition indistinguishable (a b : ShapeEnum) : Prop :=
  forall c, is_subtype a c = is_subtype b c /\ is_subtype c a = is_subtype c b /\ may_overlap a c = may_overlap b c.

Lemma remove_evals s vs o : (1 <= MAX_UNION_LENGTH)%nat -> Holds s vs -> valid (Object o) = true ->
  (evals (fun n => shape_remove n s o) (Err tt) /\ Object o ∉ vs) \/
  exists r, evals (fun n => shape_remove n s o) (Ret r) /\ below r s /\ contains s.1 (Object o) = true /\ r.2 = s.2 - 1 /\ forall ws, vs ≡ₚ Object o :: ws -> Holds r ws.
Proof.
  intros Hmax Hs Ho. assert (Hsame : forall n, shape_remove n s o = op_remove (ops_of (S n)) s (Object o)).
  { intros n. unfold shape_remove. cbn [ops_of op_remove]. unfold _remove, _remove_object. by destruct (s.2 =? 0). }
  assert (Hshift : forall r, evals (fun n => op_remove (ops_of n) s (Object o)) r -> evals (fun n => shape_remove n s o) r).
  { intros r Hr. apply evals_shift in Hr as [n0 Hr]. exists n0. intros n Hn. rewrite Hsame. by apply Hr. }
  destruct (shape_remove_ok Hmax (Object o) Ho s vs Hs) as [[He Hn]|(r & He & Hr)]; [left; by split; [apply Hshift|]|right; exists r; by split; [apply Hshift|]].
Qed.

Lemma history_holds vs cs ws : (1 <= MAX_UNION_LENGTH)%nat -> history vs cs ws -> forall s, Holds s vs -> exists s', evals (fun n => foldM (change_shape n) s cs) (Ret s') /\ Holds s' ws.
Proof.
  intros Hmax. induction 1 as [vs|vs o cs ws Ho _ IH|vs rest o cs ws Ho Hp _ IH]; intros s Hs.
  - exists s. split; [by apply evals_eq|done].
  - destruct (shape_insert_ok Hmax s vs (Object o) Hs Ho) as (s1 & He & Hs1). destruct (IH s1 Hs1) as (s' & He' & Hs'). exists s'. split; [by eapply evals_fold|done].
  - destruct (remove_evals s vs o Hmax Hs Ho) as [[_ Hn]|(r & He & _ & _ & _ & Hr)]; [destruct Hn; rewrite Hp; by left|].
    destruct (IH r (Hr rest Hp)) as (s' & He' & Hs'). exists s'. split; [by eapply evals_fold|done].
Qed.
End history.

(** C14: the shape of a table follows its documents.  Starting from the empty
    shape, insert the objects of any history and remove them: with enough fuel
    no assertion fails and no removal is refused; the shape counts exactly the
    values that are left, contains each of them, all the counts inside it are
    exact ([Holds]), and when it is a union, that has at least two and at most
    [MAX_UNION_LENGTH] variants, which do not overlap.  A shape that misses a
    document would let the schema worker skip a table it has to scan. *)
Theorem shape_tracks_history `{ShapeConfig} (cs : list change) (vs : list ConvexValue) :
  (1 <= MAX_UNION_LENGTH)%nat -> history [] cs vs ->
  exists s, evals (fun fuel => foldM (change_shape fuel) shape_empty cs) (Ret s) /\
    s.2 = zlen vs /\ (forall v, v ∈ vs -> contains s.1 v = true) /\ Holds s vs /\
    (forall us, s.1 = SUnion us -> (2 <= length us <= MAX_UNION_LENGTH)%nat /\
       forall i j u w, i <> j -> us !! i = Some u -> us !! j = Some w -> may_overlap u.1 w.1 = false).
Proof.
  intros Hmax Hh. destruct (history_holds [] cs vs Hmax Hh shape_empty (proj2 (Holds_never []) eq_refl)) as (s & He & Hs). exists s. split; [done|].
  pose proof Hs as (Hn & Hc & Ht). split; [done|]. split; [intros v; by apply holds_contains|]. split; [done|]. intros us E. rewrite E in Hc. apply Builds_union in Hc as [Hl (Ha & _)]; [|done]. split; [done|].
  assert (Hlt : forall i j u w, (i < j)%nat -> us !! i = Some u -> us !! j = Some w -> may_overlap u.1 w.1 = false).
  { clear -Ha. induction us as [|a us IH]; intros i j u w Hij Hi Hj; [done|]. destruct j as [|j]; [lia|]. destruct Ha as [Hfst Ha]. destruct i as [|i]; cbn in *.
    - injection Hi as <-. rewrite Forall_forall in Hfst. apply Hfst. by eapply list_elem_of_lookup_2.
    - eapply IH; [done| |done..]. lia. }
  intros i j u w Hij Hi Hj. destruct (decide (i < j)%nat); [by eapply Hlt|]. rewrite may_overlap_sym. eapply Hlt; [|done..]. lia.
Qed.

(** Two documents of different shapes, one of which is deleted again. *)
Definition example_point : BTreeMap.t (list Z) ConvexValue := [([120], Int64 1); ([121], Array [Int64 2; Null])].
Definition example_note : BTreeMap.t (list Z) ConvexValue := [([116], String [104; 105]); ([120], Int64 3)].

Lemma shape_tracks_history_witness : exists s, evals (fun fuel => foldM (change_shape (H := ProdConfig) fuel) shape_empty [Insert example_point; Insert example_note; Insert example_note; Remove example_point]) (Ret s) /\
  s.2 = 2 /\ contains s.1 (Object example_note) = true.
Proof.
  destruct (shape_tracks_history (H := ProdConfig) [Insert example_point; Insert example_note; Insert example_note; Remove example_point] [Object example_note; Object example_note]) as (s & He & Hn & Hc & _).
  - cbn. lia.
  - apply history_insert; [by vm_compute|]. apply history_insert; [by vm_compute|]. apply history_insert; [by vm_compute|].
    apply (history_remove _ [Object example_note; Object example_note]); [by vm_compute| |apply history_nil]. symmetry. exact (Permutation_cons_append [Object example_note; Object example_note] (Object example_point)).
  - exists s. split; [exact He|]. split; [exact Hn|]. apply Hc. by left.
Defined.

(** Removal of an arbitrary object from a shape that holds some values never
    panics.  It is refused only if the object is not among them; if it is not
    refused, the shape contains the object, and the result counts one value
    less and is again the shape of some values, which are the remaining ones if
    the object was among them. *)
Theorem shape_removal_total `{ShapeConfig} (s : ShapeEnum * Z) (vs : list ConvexValue) (o : BTreeMap.t (list Z) ConvexValue) :
  (1 <= MAX_UNION_LENGTH)%nat -> Holds s vs -> valid (Object o) = true ->
  (evals (fun fuel => change_shape fuel s (Remove o)) (Err tt) /\ Object o ∉ vs) \/
  exists r, evals (fun fuel => change_shape fuel s (Remove o)) (Ret r) /\ contains s.1 (Object o) = true /\ r.2 = s.2 - 1 /\
    (exists ws, Holds r ws) /\ forall ws, vs ≡ₚ Object o :: ws -> Holds r ws.
Proof.
  intros Hmax Hs Ho. destruct (remove_evals s vs o Hmax Hs Ho) as [?|(r & He & Hb & Hc & Hn & Hr)]; [by left|]. right. exists r. split_and!; [done|done|done|apply (below_real _ _ Hb)|done].
Qed.

Lemma example_holds : Holds (H := ProdConfig) (SArray (SInt64, 3), 2) [Array [Int64 1; Int64 2]; Array [Int64 3]].
Proof.
  apply Holds_array. split_and!; [done|done|]. exists [[Int64 1; Int64 2]; [Int64 3]]. split; [done|]. split_and!; [done| |by repeat constructor]. split; [done|]. by repeat constructor.
Qed.

Lemma shape_removal_total_witness :
  exists r, evals (fun fuel => change_shape (H := ProdConfig) fuel (SRecord (SFieldName, 1) (SInt64, 1), 2) (Remove [])) (Ret r) /\ r.2 = 1.
Proof.
  destruct (shape_removal_total (H := ProdConfig) (SRecord (SFieldName, 1) (SInt64, 1), 2) [Object []; Object [([120], Int64 1)]] []) as [[_ Hn]|(r & He & _ & Hn & _)].
  - cbn. lia.
  - apply Holds_record. split_and!; [done|done|by vm_compute|]. exists [[]; [([120], Int64 1)]]. split; [done|]. split; (split_and!; [done| |by repeat constructor]); (split; [done|]; by repeat constructor).
  - by vm_compute.
  - destruct Hn. by left.
  - by exists r.
Defined.

(** C40: [merge_if_subtype] decides [is_subtype]: of two shapes that hold values,
    the first can be merged into the second exactly when it is a subtype, and
    then the result holds the values of both and no comparison with another
    shape tells it from the second. *)
Theorem merge_decides_subtype `{ShapeConfig} (x y : ShapeEnum * Z) (xs ys : list ConvexValue) :
  Holds x xs -> Holds y ys ->
  if is_subtype x.1 y.1
  then exists z, evals (fun fuel => merge_if_subtype (ops_of fuel) x y) (Ret z) /\ Holds z (xs ++ ys) /\ indistinguishable z.1 y.1
  else evals (fun fuel => merge_if_subtype (ops_of fuel) x y) (Err tt).
Proof.
  intros Hx Hy. destruct (merges_all (depth x.1 `max` depth y.1)) as [_ Hm]. destruct (Hm x y ltac:(lia) ltac:(lia) xs ys Hx Hy) as [[-> He]|[-> (z & He & Hz & Sz)]].
  - by apply (evals_shift (fun n => op_merge (ops_of n) x y)).
  - exists z. split; [by apply (evals_shift (fun n => op_merge (ops_of n) x y))|]. split; [done|]. intros c. by destruct Sz as [-> -> -> _ _].
Qed.

Lemma merge_decides_subtype_witness :
  exists z, evals (fun fuel => merge_if_subtype (H := ProdConfig) (ops_of (H := ProdConfig) fuel) (SArray (SInt64, 3), 2) (SArray (SUnion [(SNull, 1); (SInt64, 1)], 2), 1)) (Ret z) /\ indistinguishable (H := ProdConfig) z.1 (SArray (SUnion [(SNull, 1); (SInt64, 1)], 2)).
Proof.
  assert (Hu : Holds (H := ProdConfig) (SUnion [(SNull, 1); (SInt64, 1)], 2) [Null; Int64 7]).
  { split_and!; [done| |by repeat constructor]. cbn [fst]. apply holds_union. split_and!; [cbn; lia|cbn; lia| |by repeat constructor|].
    - split; [|split; [constructor|done]]. constructor; [by vm_compute|constructor].
    - exists [[Null]; [Int64 7]]. split; [done|]. constructor; [|constructor; [|constructor]]; split_and!; try done; by repeat constructor. }
  assert (Hy : Holds (H := ProdConfig) (SArray (SUnion [(SNull, 1); (SInt64, 1)], 2), 1) [Array [Null; Int64 7]]) by (apply Holds_array; split_and!; [done|done|]; by exists [[Null; Int64 7]]).
  pose proof (merge_decides_subtype (H := ProdConfig) _ _ _ _ example_holds Hy) as Hm.
  assert (Hs : is_subtype (H := ProdConfig) (SArray (SInt64, 3)) (SArray (SUnion [(SNull, 1); (SInt64, 1)], 2)) = true) by (by vm_compute).
  cbn [fst] in Hm. rewrite Hs in Hm. destruct Hm as (z & He & _ & Hz). by exists z.
Defined.
