(* ===== verification/Schema.v ===== *)
(** * Schema: database schemas and their enforcement
      (src/crates/common/src/schemas/mod.rs, Validator::from_shape and the
       conversions of src/crates/common/src/schemas/validator.rs)

    A schema gives every table a [DocumentSchema]; the documents written are
    checked against it, and a new schema becomes active once the documents of
    every table in [tables_to_validate] have been checked.  A table is left out
    of the scan when the schema in force, or the shape inferred from its
    documents, is a subset of the new one. *)

From S2P Require Import Prelude Ord BTreeMap Identifier Value Sorting SortingDecode Base32 IdV6 Document TableMapping Validator Shape.

Local Open Scope Z_scope.

(** ** Validators of shapes *)

Section from_shape.
Variable lookup : TableNumber -> outcome mapping_error TableName.

Fixpoint from_shape (t : ShapeEnum) : Validator :=
  match t with
  | SNever => VUnion []
  | SNull => VNull
  | SInt64 => VInt64
  | SFloat64 | SNegativeInf | SPositiveInf | SNegativeZero | SNaN | SNormalFloat64 => VFloat64
  | SBoolean => VBoolean
  | SStringLiteral s => VLiteral (LitString s)
  | SId table_number => match lookup table_number with Ret table_name => VId table_name | _ => VString end
  | SFieldName => VString
  | SString => VString
  | SBytes => VBytes
  | SArray element => VArray (from_shape element.1)
  | SObject fields => VObject (map (fun e : list Z * (Shape * bool) => (e.1, (from_shape e.2.1.1, e.2.2))) fields)
  | SRecord field value => VRecord (from_shape field.1) (from_shape value.1)
  | SUnion variants => VUnion (map (fun u : Shape => from_shape u.1) variants)
  | SUnknown => VAny
  end.

Lemma get_map_snd {V W} (g : V -> W) k (m : list (list Z * V)) :
  BTreeMap.get k (map (fun e => (e.1, g e.2)) m) = option_map g (BTreeMap.get k m).
Proof. induction m as [|[q w] m IH]; cbn; [done|]. by destruct (k ==? q). Qed.

(** A value in a shape conforms to the validator of the shape. *)
Lemma from_shape_ok s : shape_wf s -> forall v, contains s v = true -> conforms lookup (from_shape s) v.
Proof.
  induction s as [s Hleaf|e IH|fields IH|f t IHf IHt|us IH] using ShapeEnum_ind'; intros Hwf v Hc.
  - destruct s; try done; destruct v as [|i|fl|bo|str|by_|items|o]; try done; try (by constructor).
    + apply bool_decide_eq_true_1 in Hc as ->. cbn [from_shape]. constructor. cbn. apply cmp_refl.
    + cbn [from_shape contains] in *. destruct (decode str) as [i|e|] eqn:Hd; [|done..]. apply Z.eqb_eq in Hc as <-.
      destruct (lookup (table i)) as [name|e|] eqn:Hl; [by econstructor|by constructor..].
  - destruct v as [| | | | | |items|]; try done. cbn [from_shape contains] in *. rewrite forallb_elem in Hc. constructor.
    intros x Hx. apply IH; [by inversion Hwf|by apply Hc].
  - destruct v as [| | | | | | |o]; try done. apply contains_object in Hc as [C1 C2]. rewrite Forall_forall in IH.
    inversion Hwf as [| |? Hm Hwfs| |]; subst; [done|]. cbn [from_shape]. constructor.
    + intros f v (e & -> & He)%list_elem_of_fmap Hg. cbn [fst snd] in *. destruct (C1 (e.1, v) (get_elem _ _ _ Hg)) as (x & Hx & Hc).
      cbn [fst snd] in *. apply BTreeMap.elem_of_get in Hx; [|done]. assert (He' : (e.1, e.2) ∈ fields) by (by destruct e).
      rewrite (BTreeMap.wf_unique _ _ _ _ Hm He' Hx). apply (IH (e.1, x)); [done|by apply (Hwfs (e.1, x))|done].
    + intros f (e & -> & He)%list_elem_of_fmap Hg. cbn [fst snd] in *. destruct (e.2.2) eqn:Ho; [done|].
      destruct (C2 e He Ho) as [x Hx]. congruence.
    + intros e He. destruct (C1 e He) as (x & Hx & _). rewrite (get_map_snd (fun y : Shape * bool => (from_shape y.1.1, y.2))), Hx. by eexists.
  - destruct v as [| | | | | | |o]; try done. cbn [from_shape contains] in *. rewrite forallb_elem in Hc.
    inversion Hwf; subst; [done|]. constructor. intros e [C1 C2]%Hc%andb_prop. split; [by apply IHf|by apply IHt].
  - apply contains_union in Hc as (u & Hu & Hc). rewrite Forall_forall in IH. cbn [from_shape].
    inversion Hwf; subst; [done|]. apply (conforms_union _ _ (from_shape u.1)); [|apply IH; auto].
    apply list_elem_of_fmap. by exists u.
Qed.
End from_shape.

(** ** Document schemas *)

Inductive DocumentSchema := AnyDocument | UnionOf (validators : list (BTreeMap.t (list Z) (Validator * bool))).

Definition validator_of_schema (document_schema : DocumentSchema) : Validator :=
  match document_schema with
  | AnyDocument => VAny
  | UnionOf validators => VUnion (map VObject validators)
  end.

Definition validator_of_option (option : option DocumentSchema) : Validator :=
  match option with
  | None => VAny
  | Some document_schema => validator_of_schema document_schema
  end.

Section document_schema.
Context (table_mapping : NamespacedTableMapping) (virtual_system_mapping : VirtualSystemMapping).

Definition document_check_value (self : DocumentSchema) (value : BTreeMap.t (list Z) ConvexValue) : outcome ValidationError unit :=
  match self with
  | AnyDocument => Ret tt
  | UnionOf t =>
      let? value := filter_system_fields value in
      let schema_type := map VObject t in
      check_value (VUnion schema_type) value table_mapping virtual_system_mapping
  end.
End document_schema.

Definition document_can_contain_field (self : DocumentSchema) (field_path : FieldPath) : bool :=
  if match field_path with [single_field] => Identifier.is_system single_field | _ => false end then true
  else match self with
  | AnyDocument => true
  | UnionOf validators => existsb (fun root_validator => can_contain_field (VObject root_validator) field_path) validators
  end.

Definition document_has_validator_for_system_field (self : DocumentSchema) : bool :=
  match self with
  | AnyDocument => false
  | UnionOf validators => existsb has_validator_for_system_field validators
  end.

Definition document_is_vector_index_eligible (self : DocumentSchema) (field_path : FieldPath) : bool :=
  match self with
  | AnyDocument => true
  | UnionOf validators => existsb (fun root_validator => overlaps_with_array_float64 (VObject root_validator) field_path) validators
  end.

Definition document_foreign_keys (self : DocumentSchema) : list (list Z) :=
  match self with
  | AnyDocument => []
  | UnionOf options => flat_map (fun option => flat_map (fun field => foreign_keys field.2.1) option) options
  end.

(** ** Tables and schemas *)

Notation IndexDescriptor := (list Z) (only parsing).

Record TextIndexSchema := MkTextSchema { search_field : FieldPath; text_filter_fields : list FieldPath }.
Record VectorIndexSchema := MkVectorSchema { vector_field : FieldPath; vector_filter_fields : list FieldPath }.

Record TableDefinition := MkTableDef {
  td_name : list Z;
  indexes : BTreeMap.t (list Z) (list FieldPath);
  staged_db_indexes : BTreeMap.t (list Z) (list FieldPath);
  text_indexes : BTreeMap.t (list Z) TextIndexSchema;
  staged_text_indexes : BTreeMap.t (list Z) TextIndexSchema;
  vector_indexes : BTreeMap.t (list Z) VectorIndexSchema;
  staged_vector_indexes : BTreeMap.t (list Z) VectorIndexSchema;
  document_type : option DocumentSchema;
}.

Record DatabaseSchema := MkSchema {
  tables : BTreeMap.t (list Z) TableDefinition;
  schema_validation : bool;
}.

Definition vector_fields (self : TableDefinition) : list (IndexDescriptor * FieldPath) :=
  map (fun e : IndexDescriptor * VectorIndexSchema => (e.1, vector_field e.2)) (vector_indexes self ++ staged_vector_indexes self).

Definition fields_referenced_in_indexes (self : TableDefinition) : list (IndexDescriptor * FieldPath) :=
  flat_map (fun e : IndexDescriptor * list FieldPath => map (fun field_path => (e.1, field_path)) e.2)
    (indexes self ++ staged_db_indexes self) ++
  map (fun e : IndexDescriptor * TextIndexSchema => (e.1, search_field e.2)) (text_indexes self ++ staged_text_indexes self) ++
  flat_map (fun e : IndexDescriptor * TextIndexSchema => map (fun field_path => (e.1, field_path)) (text_filter_fields e.2))
    (text_indexes self ++ staged_text_indexes self) ++
  vector_fields self.

Definition schema_for_table (self : DatabaseSchema) (table_name : TableName) : option DocumentSchema :=
  match BTreeMap.get table_name (tables self) with
  | Some table_definition => document_type table_definition
  | None => None
  end.

(** [NamespacedTableMapping::tablet_name]. *)
Definition ns_tablet_name (self : NamespacedTableMapping) (i : TabletId) : outcome mapping_error TableName :=
  ok_or (option_map snd (BTreeMap.get i (ns_tablet_to_table self))) CannotFindTable.

Definition object_of (v : ConvexValue) : BTreeMap.t (list Z) ConvexValue := match v with Object o => o | _ => [] end.

(** [check_value] of a document: [doc.value().0] are the fields of its object. *)
Definition schema_check_value (self : DatabaseSchema) (doc : PackedDocument) (table_mapping : NamespacedTableMapping)
    (virtual_system_mapping : VirtualSystemMapping) : outcome ValidationError unit :=
  if schema_validation self then
    match ns_tablet_name table_mapping (tablet_id (id doc)) with
    | Ret table_name =>
        match schema_for_table self table_name with
        | Some document_schema => document_check_value table_mapping virtual_system_mapping document_schema (object_of (value doc))
        | None => Ret tt
        end
    | _ => Ret tt
    end
  else Ret tt.

Inductive SchemaValidationError :=
| ExistingDocument (validation_error : ValidationError) (table_name : list Z) (id : DeveloperDocumentId)
| NewDocument (validation_error : ValidationError) (table_name : list Z)
| ValidationTableCannotBeDeleted (table_name : list Z)
| ValidationReferencedTableCannotBeDeleted (table_in_schema table_name : list Z).

Inductive SchemaEnforcementError :=
| EnforcementDocument (validation_error : ValidationError) (table_name : list Z)
| TableCannotBeDeleted (table_name : list Z)
| ReferencedTableCannotBeDeleted (table_in_schema table_name : list Z).

Definition enforcement_to_validation (value : SchemaEnforcementError) : SchemaValidationError :=
  match value with
  | EnforcementDocument validation_error table_name => NewDocument validation_error table_name
  | TableCannotBeDeleted table_name => ValidationTableCannotBeDeleted table_name
  | ReferencedTableCannotBeDeleted table_in_schema table_name => ValidationReferencedTableCannotBeDeleted table_in_schema table_name
  end.

Definition check_existing_document (self : DatabaseSchema) (doc : PackedDocument) (table_name : TableName)
    (table_mapping : NamespacedTableMapping) (virtual_system_mapping : VirtualSystemMapping) : outcome SchemaValidationError unit :=
  lift_err (fun validation_error => ExistingDocument validation_error table_name (developer_id (id doc)))
    (schema_check_value self doc table_mapping virtual_system_mapping).

Definition check_new_document (self : DatabaseSchema) (doc : PackedDocument) (table_name : TableName)
    (table_mapping : NamespacedTableMapping) (virtual_system_mapping : VirtualSystemMapping) : outcome SchemaEnforcementError unit :=
  lift_err (fun validation_error => EnforcementDocument validation_error table_name)
    (schema_check_value self doc table_mapping virtual_system_mapping).

(** ** Which tables a new schema must scan *)

Section revalidate.
Context (table_mapping : NamespacedTableMapping) (virtual_system_mapping : VirtualSystemMapping).

Definition must_revalidate_table (table_name : TableName) (table_definition : TableDefinition) (active_schema : option DatabaseSchema)
    (table_shape : option ShapeEnum) : bool :=
  let next_schema_validator := validator_of_option (document_type table_definition) in
  let enforced_schema := match active_schema with
    | Some active_schema => if schema_validation active_schema then schema_for_table active_schema table_name else None
    | None => None
    end in
  let enforced_schema_validator := validator_of_option enforced_schema in
  if is_subset enforced_schema_validator next_schema_validator then false
  else match table_shape with
  | Some table_shape =>
      let validator_from_shape := from_shape (all_tables_number_to_name table_mapping virtual_system_mapping) table_shape in
      if is_subset (filter_top_level_system_fields validator_from_shape) next_schema_validator then false else true
  | None => true
  end.

Definition tables_to_validate (new_schema : DatabaseSchema) (active_schema : option DatabaseSchema)
    (shape_provider : TableName -> option ShapeEnum) : list (list Z) :=
  if negb (schema_validation new_schema) then []
  else map fst (bfilter (fun e : list Z * TableDefinition =>
    must_revalidate_table e.1 e.2 active_schema (shape_provider e.1)) (tables new_schema)).
End revalidate.

(** ** Deleting tables and checking indexes *)

Fixpoint contains_table_as_reference_in (table_schemas : list (list Z * TableDefinition)) (table_name : TableName) : option (list Z) :=
  match table_schemas with
  | [] => None
  | (_, table_schema) :: rest =>
      if match document_type table_schema with
        | Some document_schema => bool_decide (table_name ∈ document_foreign_keys document_schema)
        | None => false
        end
      then Some (td_name table_schema)
      else contains_table_as_reference_in rest table_name
  end.

Definition contains_table_as_reference (self : DatabaseSchema) (table_name : TableName) : option (list Z) :=
  contains_table_as_reference_in (tables self) table_name.

Definition check_delete_table (self : DatabaseSchema) (active_table_to_delete : TableName) : outcome SchemaEnforcementError unit :=
  match schema_for_table self active_table_to_delete with
  | Some _ => Err (TableCannotBeDeleted active_table_to_delete)
  | None =>
      match contains_table_as_reference self active_table_to_delete with
      | Some table_in_schema => Err (ReferencedTableCannotBeDeleted table_in_schema active_table_to_delete)
      | None => Ret tt
      end
  end.

Definition is_vector_index_eligible (document_schema : option DocumentSchema) (vector_field : FieldPath) : bool :=
  match document_schema with
  | None => true
  | Some document_schema => document_is_vector_index_eligible document_schema vector_field
  end.

Inductive SchemaDefinitionError :=
| FieldDoesNotExist (table_name index_descriptor : list Z) (field_path : FieldPath)
| FieldNotVector (table_name index_descriptor : list Z) (field_path : FieldPath).

Definition check_table_indexes (e : list Z * TableDefinition) : outcome SchemaDefinitionError unit :=
  let '(table_name, table_definition) := e in
  match find (fun r : IndexDescriptor * FieldPath => match document_type table_definition with
      | Some document_schema => negb (document_can_contain_field document_schema r.2)
      | None => false
      end) (fields_referenced_in_indexes table_definition) with
  | Some (index_descriptor, field_path) => Err (FieldDoesNotExist table_name index_descriptor field_path)
  | None =>
      match find (fun r : IndexDescriptor * FieldPath => negb (is_vector_index_eligible (document_type table_definition) r.2))
        (vector_fields table_definition) with
      | Some (index_descriptor, field_path) => Err (FieldNotVector table_name index_descriptor field_path)
      | None => Ret tt
      end
  end.

Definition check_index_references (self : DatabaseSchema) : outcome SchemaDefinitionError unit :=
  if schema_validation self then for_each check_table_indexes (tables self) else Ret tt.

(** ** Checked documents *)

Definition user_fields (o : BTreeMap.t (list Z) ConvexValue) : BTreeMap.t (list Z) ConvexValue :=
  bfilter (fun e => negb (Identifier.is_system e.1)) o.

Section enforced.
Context (tm : NamespacedTableMapping) (vm : VirtualSystemMapping).
Notation lookup := (all_tables_number_to_name tm vm).

Lemma document_check_spec s o : valid (Object o) = true ->
  document_check_value tm vm s o <> Panic /\
  (document_check_value tm vm s o = Ret tt <-> conforms lookup (validator_of_schema s) (Object (user_fields o))).
Proof.
  intros Hv. destruct s as [|ts]; cbn [document_check_value validator_of_schema].
  { split; [done|]. split; [constructor|done]. }
  destruct (filter_fields_spec (E := ValidationError) o (fun k => negb (Identifier.is_system k)) Hv) as (o' & Hf & Hv' & _).
  unfold filter_system_fields. rewrite Hf. cbn [obind]. assert (o' = user_fields o) as ->; [|by apply check_value_spec].
  unfold filter_fields in Hf. destruct (ConvexObject_try_from _) as [w|e|] eqn:Ho; [|done|done].
  apply ConvexObject_try_from_Ret in Ho as [-> _]. by injection Hf as <-.
Qed.

(** A document of a table that conforms to what is enforced, or whose shape is
    known, conforms to a schema that the table need not be scanned for. *)
Lemma must_revalidate_ok name def active shape o :
  valid (Object o) = true ->
  (forall a s, active = Some a -> schema_validation a = true -> schema_for_table a name = Some s -> document_check_value tm vm s o = Ret tt) ->
  (forall s, shape = Some s -> shape_wf s /\ contains s (Object o) = true) ->
  must_revalidate_table tm vm name def active shape = false ->
  conforms lookup (validator_of_option (document_type def)) (Object (user_fields o)).
Proof.
  intros Hv Hact Hshape. unfold must_revalidate_table. destruct (is_subset _ _) eqn:Hsub.
  - intros _. eapply is_subset_ok; [done|]. destruct active as [a|]; [|constructor].
    destruct (schema_validation a) eqn:Hva; [|constructor]. destruct (schema_for_table a name) as [s|] eqn:Hs; [|constructor].
    by apply document_check_spec, (Hact a s).
  - destruct shape as [s|]; [|done]. destruct (Hshape s eq_refl) as [Hwf Hc]. destruct (is_subset (filter_top_level_system_fields _) _) eqn:Hsub'; [|done].
    intros _. eapply is_subset_ok; [done|]. by apply filter_system_conforms, from_shape_ok.
Qed.

Lemma skipped_ok new active shapes d o name :
  value d = Object o -> valid (Object o) = true -> ns_tablet_name tm (tablet_id (id d)) = Ret name -> BTreeMap.wf (tables new) ->
  (forall a, active = Some a -> schema_check_value a d tm vm = Ret tt) ->
  (forall s, shapes name = Some s -> shape_wf s /\ contains s (Object o) = true) ->
  name ∉ tables_to_validate tm vm new active shapes ->
  schema_check_value new d tm vm = Ret tt.
Proof.
  intros Hval Hv Hname Hwf Hact Hshape Hskip. unfold schema_check_value, tables_to_validate in *. rewrite Hname, Hval in *. cbn [object_of] in *.
  destruct (schema_validation new); [|done]. cbn [negb] in Hskip. unfold schema_for_table at 1.
  destruct (BTreeMap.get name (tables new)) as [def|] eqn:Hdef; [|done]. destruct (document_type def) as [s|] eqn:Hs; [|done].
  apply document_check_spec; [done|]. change (validator_of_schema s) with (validator_of_option (Some s)). rewrite <- Hs.
  apply (must_revalidate_ok name def active (shapes name)); [done| |done|].
  - intros a s' -> Ha Hs'. specialize (Hact a eq_refl). by rewrite Ha, Hs' in Hact.
  - apply not_true_iff_false. intros Hm. apply Hskip, list_elem_of_fmap. exists (name, def). split; [done|].
    apply elem_of_bfilter. split; [by apply get_elem|done].
Qed.
End enforced.

(** ** Deleting a table *)

(** Removing an unreferenced table changes the verdict on no document. *)
Lemma contains_reference_None l t : contains_table_as_reference_in l t = None ->
  forall name def s, (name, def) ∈ l -> document_type def = Some s -> t ∉ document_foreign_keys s.
Proof.
  induction l as [|[n d] l IH]; [by intros _ ? ? ? ?%elem_of_nil|]. cbn [contains_table_as_reference_in].
  intros Hn name def s [[= -> ->]|Hin]%elem_of_cons Hs.
  - rewrite Hs in Hn. by case_bool_decide.
  - destruct (match document_type d with Some _ => _ | None => _ end); [done|]. by eapply IH.
Qed.

Lemma document_foreign_keys_validator s : document_foreign_keys s = foreign_keys (validator_of_schema s).
Proof.
  destruct s as [|ts]; [done|]. cbn [document_foreign_keys validator_of_schema foreign_keys]. induction ts as [|t ts IH]; [done|].
  cbn [flat_map map foreign_keys]. by rewrite IH.
Qed.

Lemma delete_ok schema t tm tm' vm d o :
  value d = Object o -> valid (Object o) = true -> check_delete_table schema t = Ret tt ->
  (forall n t', t' <> t -> all_tables_number_to_name tm vm n = Ret t' -> all_tables_number_to_name tm' vm n = Ret t') ->
  (forall name, ns_tablet_name tm' (tablet_id (id d)) = Ret name -> ns_tablet_name tm (tablet_id (id d)) = Ret name) ->
  schema_check_value schema d tm vm = Ret tt -> schema_check_value schema d tm' vm = Ret tt.
Proof.
  intros Hval Hv Hdel Hlook Hname. unfold schema_check_value. rewrite Hval. cbn [object_of]. destruct (schema_validation schema); [|done].
  destruct (ns_tablet_name tm' _) as [name|e|] eqn:Hn; [|done|done]. rewrite (Hname _ eq_refl).
  destruct (schema_for_table schema name) as [s|] eqn:Hs; [|done]. intros Hc%document_check_spec; [|done]. apply document_check_spec; [done|].
  eapply foreign_keys_frame; [|exact Hc]. intros n t' Ht'. apply Hlook. intros ->.
  unfold schema_for_table in Hs. destruct (BTreeMap.get name (tables schema)) as [def|] eqn:Hg; [|done].
  unfold check_delete_table in Hdel. destruct (schema_for_table schema t); [done|].
  destruct (contains_table_as_reference schema t) eqn:Hr; [done|]. rewrite <- document_foreign_keys_validator in Ht'.
  by eapply (contains_reference_None (tables schema)); [|apply get_elem| |].
Qed.

Lemma removed_lookup {E} m tablet ns' number t m' ns vm :
  mapping_wf m -> tablet_lookup m tablet = Some (ns', number, t) -> mapping_remove (E := E) m tablet = Ret m' ->
  BTreeMap.get t (system_to_virtual vm) = None -> forall n t', t' <> t ->
  all_tables_number_to_name (mapping_namespace m ns) vm n = Ret t' -> all_tables_number_to_name (mapping_namespace m' ns) vm n = Ret t'.
Proof.
  intros Hwf Hl Hr Hvt n t' Hne.
  destruct (mapping_remove_ok (E := E) m tablet ns' number t Hwf Hl) as (m1 & Hr1 & _ & Htab & _ & Hnum).
  rewrite Hr in Hr1. injection Hr1 as <-.
  unfold all_tables_number_to_name, number_to_name, name_by_number_if_exists. cbn [mapping_namespace ns_table_number_to_canonical_tablet ns_tablet_to_table].
  rewrite !nested_get_default. change (nested_get ns n (table_number_to_canonical_tablet ?x)) with (number_lookup x ns n). rewrite Hnum.
  destruct (number_lookup m ns n) as [i|] eqn:Hi; [|done]. change (BTreeMap.get i (tablet_to_table ?x)) with (tablet_lookup x i).
  destruct (decide (i = tablet)) as [->|Hit].
  - rewrite Hl. cbn. rewrite Hvt. by intros [= <-].
  - rewrite decide_False by (intros (_ & _ & [= ?]); done). change (BTreeMap.get i (tablet_to_table m')) with (tablet_lookup m' i).
    by rewrite Htab, decide_False.
Qed.

Lemma for_each_Err {A Err'} (f : A -> outcome Err' unit) l e : for_each f l = Err e -> exists x, x ∈ l /\ f x = Err e.
Proof.
  induction l as [|x l IH]; cbn [for_each]; [done|]. fold (for_each f). destruct (f x) as [[]|e'|] eqn:Hx; cbn [obind]; [|..|done].
  - intros (y & Hy & Hf)%IH. exists y. split; [by right|done].
  - intros [= ->]. exists x. split; [left|done].
Qed.

Lemma rejected_field schema table idx path : check_index_references schema = Err (FieldDoesNotExist table idx path) ->
  exists def s, (table, def) ∈ tables schema /\ document_type def = Some s /\ document_can_contain_field s path = false.
Proof.
  unfold check_index_references. destruct (schema_validation schema); [|done]. intros ([name def] & Hin & He)%for_each_Err.
  unfold check_table_indexes in He. destruct (find _ (fields_referenced_in_indexes def)) as [[i p]|] eqn:Hf.
  - injection He as -> -> ->. apply find_some in Hf as [_ Hf]. cbn [snd] in Hf. destruct (document_type def) as [s|] eqn:Hs; [|done].
    exists def, s. apply negb_true_iff in Hf. done.
  - destruct (find _ (vector_fields def)) as [[i p]|]; done.
Qed.

Lemma absent_field s o path tm vm : valid (Object o) = true ->
  document_can_contain_field s path = false -> record_free (validator_of_schema s) = true ->
  match path with f :: _ => Identifier.is_system f = false | [] => True end ->
  document_check_value tm vm s o = Ret tt -> get_path o path = None.
Proof.
  intros Hv Hcan Hrf Hsys Hc%document_check_spec; [|done]. destruct path as [|f rest]; [done|].
  destruct (get_path o (f :: rest)) as [w|] eqn:Hg; [|done]. exfalso.
  assert (Hp : get_path_loop (Object (user_fields o)) (f :: rest) = Some w).
  { cbn [get_path_loop]. unfold user_fields. rewrite (get_bfilter_key (fun k => negb (Identifier.is_system k))), Hsys. exact Hg. }
  pose proof (can_contain_ok _ _ _ _ _ Hrf Hc Hp) as Hcc. unfold document_can_contain_field in Hcan.
  destruct (match rest with [] => _ | _ => _ end); [done|]. destruct s as [|ts]; [done|]. cbn [validator_of_schema can_contain_field] in Hcc.
  apply not_true_iff_false in Hcan. apply Hcan. rewrite existsb_exists in *. destruct Hcc as (x & (t & <- & Ht)%in_map_iff & Hx). by exists t.
Qed.

(** ** Theorems *)

(** A new schema may skip the tables left out of [tables_to_validate]: if
    every document of a table has passed the schema in force (when one is) and
    lies in the table's shape (when one is given), and the table is not among
    those to validate, then the new schema accepts every document of the table. *)
Theorem skipped_tables_conform new active shapes tm vm d o name :
  value d = Object o -> valid (Object o) = true -> ns_tablet_name tm (tablet_id (id d)) = Ret name -> BTreeMap.wf (tables new) ->
  (forall a, active = Some a -> schema_check_value a d tm vm = Ret tt) ->
  (forall s, shapes name = Some s -> shape_wf s /\ contains s (Object o) = true) ->
  name ∉ tables_to_validate tm vm new active shapes ->
  check_existing_document new d name tm vm = Ret tt.
Proof. intros. unfold check_existing_document. by rewrite (skipped_ok tm vm new active shapes d o name). Qed.

Module SchemaExample.
Definition o : BTreeMap.t (list Z) ConvexValue := [([95; 99], Float64 0); ([97], Int64 1)].
Definition d : PackedDocument := MkDoc (Object o) (MkResolved [1] (MkId 3 (replicate 16 7))).
Definition shape : ShapeEnum := SObject [([95; 99], ((SNormalFloat64, 1), false)); ([97], ((SInt64, 1), false))].
Definition new : DatabaseSchema := MkSchema
  [([116], MkTableDef [116] [([105], [[[97]; [98]]])] [] [] [] [] [] (Some (UnionOf [[([97], (VUnion [VInt64; VNull], false)); ([98], (VId [117], true))]])))] true.
Definition shapes (name : list Z) : option ShapeEnum := if bool_decide (name = [116]) then Some shape else None.

Lemma shape_ok : shape_wf shape /\ contains shape (Object o) = true.
Proof.
  split; [|by vm_compute]. apply wf_object.
  - split; [|by split; [intros ? H; apply elem_of_nil in H|]]. intros e ->%list_elem_of_singleton. by vm_compute.
  - intros e [->| ->%list_elem_of_singleton]%elem_of_cons; by constructor.
Defined.

Definition mapping : TableMapping := mapping_insert (mapping_insert mapping_new [1] Global 3 [116]) [2] Global 4 [118].

Lemma mapping_ok : mapping_wf mapping.
Proof. apply mapping_insert_ok, mapping_insert_ok, mapping_new_wf. Qed.
End SchemaExample.
Import SchemaExample.

Lemma skipped_tables_conform_witness : check_existing_document new d [116] example_mapping example_virtual = Ret tt.
Proof.
  apply (skipped_tables_conform new None shapes example_mapping example_virtual d o [116]).
  - reflexivity.
  - by vm_compute.
  - by vm_compute.
  - by split; [intros ? H; apply elem_of_nil in H|].
  - done.
  - intros s [= <-]. apply shape_ok.
  - assert (tables_to_validate example_mapping example_virtual new None shapes = []) as -> by (by vm_compute). by apply not_elem_of_nil.
Defined.

(** Deleting a table that [check_delete_table] lets go keeps every document
    of the other tables valid: no [v.id(..)] that resolved before stops
    resolving, so the schema accepts after the removal what it accepted before. *)
Theorem deletion_keeps_documents_valid schema t m tablet ns' number m' ns vm d o :
  mapping_wf m -> tablet_lookup m tablet = Some (ns', number, t) -> mapping_remove (E := unit) m tablet = Ret m' ->
  BTreeMap.get t (system_to_virtual vm) = None -> check_delete_table schema t = Ret tt ->
  value d = Object o -> valid (Object o) = true ->
  schema_check_value schema d (mapping_namespace m ns) vm = Ret tt -> schema_check_value schema d (mapping_namespace m' ns) vm = Ret tt.
Proof.
  intros Hwf Hl Hr Hvt Hdel Hval Hv. eapply delete_ok; [done|done|done|by eapply removed_lookup|].
  destruct (mapping_remove_ok (E := unit) m tablet ns' number t Hwf Hl) as (m1 & Hr1 & _ & Htab & _).
  rewrite Hr in Hr1. injection Hr1 as <-. intros name. unfold ns_tablet_name. cbn [mapping_namespace ns_tablet_to_table].
  specialize (Htab (tablet_id (id d))). unfold tablet_lookup in Htab. rewrite Htab. by destruct (decide _).
Qed.

Lemma deletion_keeps_documents_valid_witness :
  exists m', mapping_remove (E := unit) mapping [2] = Ret m' /\ schema_check_value new d (mapping_namespace m' Global) example_virtual = Ret tt.
Proof.
  exists (mapping_insert mapping_new [1] Global 3 [116]). split; [by vm_compute|].
  apply (deletion_keeps_documents_valid new [118] mapping [2] Global 4 _ Global example_virtual d o); [apply mapping_ok|by vm_compute..].
Defined.

(** An index that [check_index_references] rejects is on a field that no
    accepted document has: for a schema without records on its paths, a document
    the schema accepts has no value at the path named in the error, unless the
    path starts with a system field. *)
Theorem rejected_index_field_absent schema table idx path tm vm d o :
  check_index_references schema = Err (FieldDoesNotExist table idx path) -> BTreeMap.wf (tables schema) ->
  (forall name def s, (name, def) ∈ tables schema -> document_type def = Some s -> record_free (validator_of_schema s) = true) ->
  match path with f :: _ => Identifier.is_system f = false | [] => True end ->
  value d = Object o -> valid (Object o) = true -> ns_tablet_name tm (tablet_id (id d)) = Ret table ->
  schema_check_value schema d tm vm = Ret tt -> get_path o path = None.
Proof.
  intros Hrej Hwf Hrf Hsys Hval Hv Hname Hc. pose proof Hrej as Hrej'. apply rejected_field in Hrej' as (def & s & Hin & Hs & Hcan).
  unfold check_index_references in Hrej. unfold schema_check_value in Hc. destruct (schema_validation schema); [|done].
  rewrite Hname, Hval in Hc. unfold schema_for_table in Hc. rewrite (proj2 (BTreeMap.elem_of_get _ _ _ Hwf) Hin), Hs in Hc.
  by eapply absent_field; [|done|by eapply Hrf| |].
Qed.

Lemma rejected_index_field_absent_witness :
  check_index_references new = Err (FieldDoesNotExist [116] [105] [[97]; [98]]) /\ get_path o [[97]; [98]] = None.
Proof.
  split; [by vm_compute|].
  apply (rejected_index_field_absent new [116] [105] [[97]; [98]] example_mapping example_virtual d o).
  - by vm_compute.
  - by split; [intros ? H; apply elem_of_nil in H|].
  - intros name def s [= -> ->]%list_elem_of_singleton [= <-]. by vm_compute.
  - reflexivity.
  - reflexivity.
  - by vm_compute.
  - by vm_compute.
  - by vm_compute.
Defined.
