(* ===== verification/TableRegistry.v ===== *)
(** * TableRegistry: the registry of tables
      (src/crates/database/src/table_registry.rs,
       src/crates/common/src/bootstrap_model/tables.rs,
       [table_mapping_and_states] of src/crates/database/src/database.rs)

    The registry follows the [_tables] table: each of its documents says the
    name, number, namespace and state of a tablet.  [update] changes the
    registry with one document; [table_mapping_and_states] builds it from all
    documents when the database starts, and is the reference that the updates
    are compared with.  Parsing a [_tables] document is a parameter. *)

From S2P Require Import Prelude Ord BTreeMap Identifier Value Sorting SortingDecode Base32 IdV6 Document IndexRegistry TableMapping.
From S2P Require Import IndexUpdates.

Local Open Scope Z_scope.

(** ** Data *)

Inductive TableState := Active | Hidden | Deleting.

#[global] Instance TableState_EqDecision : EqDecision TableState.
Proof. solve_decision. Defined.

Record TableMetadata := MkMetadata {
  md_name : list Z;
  md_number : Z;
  md_state : TableState;
  md_namespace : TableNamespace;
}.

Definition is_active (m : TableMetadata) : bool := bool_decide (md_state m = Active).

Record TableRegistry := MkTables {
  tablet_states : BTreeMap.t (list Z) TableState;
  table_mapping : TableMapping;
}.

Inductive TableUpdateMode := Create (s : TableState) | Activate | Drop | HardDelete.

Record TableUpdate := MkTableUpdate {
  tu_namespace : TableNamespace;
  tu_tablet : list Z;
  tu_number : Z;
  tu_name : list Z;
  tu_mode : TableUpdateMode;
}.

(** [TableUpdate::activates]. *)
Definition activates (u : TableUpdate) : bool :=
  match tu_mode u with Activate | Create Active => true | _ => false end.

Inductive table_error :=
| BadTableMetadata
| DuplicateTable
| NumberTaken
| TableRename
| NumberChanged
| BootstrapTableDeleted
| StillHasIndexes
| DeleteTombstone.

(** ["_tables"], and the names of [bootstrap_system_tables]. *)
Definition TABLES_TABLE : list Z := [95; 116; 97; 98; 108; 101; 115].
Definition bootstrap_system_tables : list (list Z) :=
  [TABLES_TABLE; INDEX_TABLE;
   [95; 115; 99; 104; 101; 109; 97; 115];
   [95; 105; 110; 100; 101; 120; 95; 98; 97; 99; 107; 102; 105; 108; 108; 115];
   [95; 105; 110; 100; 101; 120; 95; 119; 111; 114; 107; 101; 114; 95; 109; 101; 116; 97; 100; 97; 116; 97];
   [95; 99; 111; 109; 112; 111; 110; 101; 110; 116; 95; 100; 101; 102; 105; 110; 105; 116; 105; 111; 110; 115];
   [95; 99; 111; 109; 112; 111; 110; 101; 110; 116; 115];
   [95; 115; 99; 104; 101; 109; 97; 95; 118; 97; 108; 105; 100; 97; 116; 105; 111; 110; 95; 112; 114; 111; 103; 114; 101; 115; 115]].

(** ** Operations *)

Definition table_exists (self : TableRegistry) (ns : TableNamespace) (table : list Z) : bool :=
  name_exists (mapping_namespace (table_mapping self) ns) table.

Definition table_state (self : TableRegistry) (t : list Z) : option TableState := BTreeMap.get t (tablet_states self).

Definition user_table_names (self : TableRegistry) : list (TableNamespace * list Z) :=
  map (fun '(_, ns, _, name) => (ns, name)) (mapping_iter_active_user_tables (table_mapping self)).

Definition iter_active_system_tables (self : TableRegistry) : list (list Z * TableNamespace * Z * list Z) :=
  bfilter (fun '(t, _, _, name) => is_system name && bool_decide (table_state self t = Some Active)) (mapping_iter (table_mapping self)).

Definition validate_table_number (self : TableRegistry) (ns : TableNamespace) (number : Z) (name : list Z)
    : outcome table_error unit :=
  match name_by_number_if_exists (mapping_namespace (table_mapping self) ns) number with
  | Some existing_table => ensure (bool_decide (existing_table = name)) NumberTaken
  | None => Ret tt
  end.

Section registry.
(** [TableMetadata::try_from] (generated serialization code). *)
Context (try_from : ConvexValue -> option TableMetadata).

(** The three kinds of changes to a [_tables] document. *)
Definition begin_create (self : TableRegistry) (t : list Z) (new_value : ConvexValue) : outcome table_error (option TableUpdate) :=
  let? metadata := ok_or (try_from new_value) BadTableMetadata in
  let? _ :=
    if is_active metadata then
      let? _ := ensure (negb (table_exists self (md_namespace metadata) (md_name metadata))) DuplicateTable in
      validate_table_number self (md_namespace metadata) (md_number metadata) (md_name metadata)
    else Ret tt in
  Ret (Some (MkTableUpdate (md_namespace metadata) t (md_number metadata) (md_name metadata) (Create (md_state metadata)))).

Definition begin_delete (t : list Z) (old_value : ConvexValue) : outcome table_error (option TableUpdate) :=
  let? metadata := ok_or (try_from old_value) BadTableMetadata in
  Ret (Some (MkTableUpdate (md_namespace metadata) t (md_number metadata) (md_name metadata) HardDelete)).

Definition begin_edit (index_registry : IndexRegistry) (t : list Z) (old_value new_value : ConvexValue)
    : outcome table_error (option TableUpdate) :=
  let? new_metadata := ok_or (try_from new_value) BadTableMetadata in
  let? old_metadata := ok_or (try_from old_value) BadTableMetadata in
  let? _ := ensure (bool_decide (md_name old_metadata = md_name new_metadata)) TableRename in
  let? _ := ensure (bool_decide (md_number old_metadata = md_number new_metadata)) NumberChanged in
  let edit := MkTableUpdate (md_namespace old_metadata) t (md_number old_metadata) (md_name old_metadata) in
  if is_active old_metadata && bool_decide (md_state new_metadata = Deleting) then
    let? _ := ensure (match md_namespace new_metadata with
                      | ByComponent _ => true
                      | Global => forallb (fun n => negb (bool_decide (n = md_name new_metadata))) bootstrap_system_tables
                      end) BootstrapTableDeleted in
    let? empty := has_no_indexes index_registry t in
    let? _ := ensure empty StillHasIndexes in
    Ret (Some (edit Drop))
  else if bool_decide (md_state old_metadata = Hidden) && is_active new_metadata then Ret (Some (edit Activate))
  else Ret None.

Definition begin_update (self : TableRegistry) (index_registry : IndexRegistry) (i : ResolvedDocumentId)
    (old_value new_value : option ConvexValue) : outcome table_error (option TableUpdate) :=
  if tablet_matches_name (mapping_namespace (table_mapping self) Global) (tablet_id i) TABLES_TABLE then
    let t := internal_id (developer_id i) in
    match old_value, new_value with
    | None, Some new_value => begin_create self t new_value
    | Some old_value, None => begin_delete t old_value
    | Some old_value, Some new_value => begin_edit index_registry t old_value new_value
    | None, None => Err DeleteTombstone
    end
  else Ret None.

(** [Update::apply]. *)
Definition apply_update {E} (self : TableRegistry) (table_update : option TableUpdate) : outcome E TableRegistry :=
  match table_update with
  | None => Ret self
  | Some u =>
      let mapping :=
        if activates u then mapping_insert (table_mapping self) (tu_tablet u) (tu_namespace u) (tu_number u) (tu_name u)
        else table_mapping self in
      match tu_mode u with
      | Activate => Ret (MkTables (BTreeMap.insert (tu_tablet u) Active (tablet_states self)) mapping)
      | Create state =>
          Ret (MkTables (BTreeMap.insert (tu_tablet u) state (tablet_states self))
                 (insert_tablet mapping (tu_tablet u) (tu_namespace u) (tu_number u) (tu_name u)))
      | Drop =>
          let? mapping := mapping_remove mapping (tu_tablet u) in
          Ret (MkTables (BTreeMap.insert (tu_tablet u) Deleting (tablet_states self)) mapping)
      | HardDelete =>
          let? _ := rassert (bool_decide (table_state self (tu_tablet u) = Some Deleting)) in
          Ret (MkTables (BTreeMap.remove (tu_tablet u) (tablet_states self)) mapping)
      end
  end.

Definition registry_update (self : TableRegistry) (index_registry : IndexRegistry) (i : ResolvedDocumentId)
    (old_value new_value : option ConvexValue) : outcome table_error (TableRegistry * option TableUpdate) :=
  let? u := begin_update self index_registry i old_value new_value in
  let? self := apply_update self u in
  Ret (self, u).
End registry.

(** [Database::table_mapping_and_states]: the documents of [_tables], by tablet. *)
Definition load_table (st : TableMapping * BTreeMap.t (list Z) TableState) (e : list Z * TableMetadata)
    : TableMapping * BTreeMap.t (list Z) TableState :=
  let '(t, md) := e in
  (match md_state md with
   | Active => mapping_insert st.1 t (md_namespace md) (md_number md) (md_name md)
   | Hidden => insert_tablet st.1 t (md_namespace md) (md_number md) (md_name md)
   | Deleting => st.1
   end, BTreeMap.insert t (md_state md) st.2).

Definition table_mapping_and_states (table_documents : list (list Z * TableMetadata))
    : TableMapping * BTreeMap.t (list Z) TableState :=
  fold_left load_table table_documents (mapping_new, []).

(** ** Following the [_tables] table *)

Definition docs_t : Type := BTreeMap.t (list Z) TableMetadata.

(** [t] is the active tablet described by [md]. *)
Definition active_doc (docs : docs_t) (t : list Z) (md : TableMetadata) : Prop :=
  BTreeMap.get t docs = Some md /\ md_state md = Active.

(** No two active tables of a namespace share a name or a number. *)
Definition active_unique (docs : docs_t) : Prop :=
  forall t t' md md', active_doc docs t md -> active_doc docs t' md' -> md_namespace md = md_namespace md' ->
    md_name md = md_name md' \/ md_number md = md_number md' -> t = t'.

Record follows (states : BTreeMap.t (list Z) TableState) (m : TableMapping) (docs : docs_t) : Prop := {
  fo_states_wf : BTreeMap.wf states;
  fo_mapping_wf : mapping_wf m;
  fo_states t : BTreeMap.get t states = option_map md_state (BTreeMap.get t docs);
  fo_tablets t : tablet_lookup m t =
    match BTreeMap.get t docs with
    | Some md => if decide (md_state md = Deleting) then None else Some (md_namespace md, md_number md, md_name md)
    | None => None
    end;
  fo_names ns n t : name_lookup m ns n = Some t <-> exists md, active_doc docs t md /\ md_namespace md = ns /\ md_name md = n;
  fo_numbers ns n t : number_lookup m ns n = Some t <-> exists md, active_doc docs t md /\ md_namespace md = ns /\ md_number md = n;
}.

(** The documents determine the registry. *)
Lemma follows_unique states states' m m' docs :
  follows states m docs -> follows states' m' docs -> states = states' /\ mapping_eq m m'.
Proof.
  intros [Hw Hm Hs Ht Hn Hu] [Hw' Hm' Hs' Ht' Hn' Hu']. split.
  - apply BTreeMap.wf_ext; [done|done|]. intros [t s]. rewrite <- !BTreeMap.elem_of_get by done. by rewrite Hs, Hs'.
  - split; intros; [by rewrite Ht, Ht'| |].
    + apply option_eq. intros t. by rewrite Hn, Hn'.
    + apply option_eq. intros t. by rewrite Hu, Hu'.
Qed.

(** One document changes, and the registry changes with it. *)
Lemma follows_set states m docs states' m' docs' t o :
  follows states m docs -> BTreeMap.wf states' -> mapping_wf m' ->
  (forall t', BTreeMap.get t' docs' = if decide (t' = t) then o else BTreeMap.get t' docs) ->
  (forall t', BTreeMap.get t' states' = if decide (t' = t) then option_map md_state o else BTreeMap.get t' states) ->
  (forall t', tablet_lookup m' t' = if decide (t' = t) then
     match o with
     | Some md => if decide (md_state md = Deleting) then None else Some (md_namespace md, md_number md, md_name md)
     | None => None
     end else tablet_lookup m t') ->
  (forall ns n t0, name_lookup m' ns n = Some t0 <->
     (t0 = t /\ exists md, o = Some md /\ md_state md = Active /\ md_namespace md = ns /\ md_name md = n) \/
     (t0 <> t /\ name_lookup m ns n = Some t0)) ->
  (forall ns n t0, number_lookup m' ns n = Some t0 <->
     (t0 = t /\ exists md, o = Some md /\ md_state md = Active /\ md_namespace md = ns /\ md_number md = n) \/
     (t0 <> t /\ number_lookup m ns n = Some t0)) ->
  follows states' m' docs'.
Proof.
  intros [Hw Hm Hs Ht Hn Hu] Hw' Hm' Hd' Hs' Ht' Hn' Hu'.
  assert (Had : forall t0 md, active_doc docs' t0 md <-> (t0 = t /\ o = Some md /\ md_state md = Active) \/ (t0 <> t /\ active_doc docs t0 md)).
  { intros t0 md. unfold active_doc. rewrite Hd'. destruct (decide (t0 = t)); naive_solver. }
  constructor; [done|done| | | |].
  - intros t'. rewrite Hs', Hd'. destruct (decide (t' = t)); [done|apply Hs].
  - intros t'. rewrite Ht', Hd'. destruct (decide (t' = t)); [done|apply Ht].
  - intros ns n t0. rewrite Hn', Hn. setoid_rewrite Had. naive_solver.
  - intros ns n t0. rewrite Hu', Hu. setoid_rewrite Had. naive_solver.
Qed.

Lemma active_get docs docs' t o :
  (forall t', BTreeMap.get t' docs' = if decide (t' = t) then o else BTreeMap.get t' docs) ->
  forall t0 md, t0 <> t -> active_doc docs t0 md -> active_doc docs' t0 md.
Proof. intros Hd t0 md Hne [Hg Ha]. split; [|done]. by rewrite Hd, decide_False. Qed.

(** A tablet becomes active: created so, or activated when it was hidden. *)
Lemma follows_activate states m docs docs' t md :
  follows states m docs -> (forall t', BTreeMap.get t' docs' = if decide (t' = t) then Some md else BTreeMap.get t' docs) ->
  md_state md = Active -> active_unique docs' ->
  (forall old, BTreeMap.get t docs = Some old -> md_state old <> Active) ->
  follows (BTreeMap.insert t Active states) (mapping_insert m t (md_namespace md) (md_number md) (md_name md)) docs'.
Proof.
  intros Hf Hd Ha Huniq Hold. pose proof Hf as [Hw Hm Hs Ht Hn Hu].
  destruct (mapping_insert_ok m t (md_namespace md) (md_number md) (md_name md) Hm) as (Hm' & Ht' & Hn' & Hu').
  assert (Hmd : active_doc docs' t md) by (split; [by rewrite Hd, decide_True|done]).
  apply (follows_set states m docs _ _ docs' t (Some md) Hf); [by apply BTreeMap.wf_insert|done|done| | | |].
  - intros t'. rewrite BTreeMap.get_insert_if by done. cbn [option_map]. by rewrite Ha.
  - intros t'. rewrite Ht'. rewrite (decide_False (P := md_state md = Deleting)) by congruence. done.
  - intros ns n t0. rewrite Hn'. destruct (decide (ns = md_namespace md /\ n = md_name md)) as [[-> ->]|Hne].
    + split; [intros [= <-]; left; naive_solver|]. intros [[-> _]|[Hne (md0 & Had & Hns & Hnm)%Hn]]; [done|]. exfalso.
      apply Hne, (Huniq t0 t md0 md); [by eapply active_get|done|done|by left].
    + split; [|naive_solver]. intros Hl. destruct (decide (t0 = t)) as [->|]; [|by right].
      apply Hn in Hl as (md0 & [Hg Ha0] & _). by apply Hold in Hg.
  - intros ns n t0. rewrite Hu'. destruct (decide (ns = md_namespace md /\ n = md_number md)) as [[-> ->]|Hne].
    + split; [intros [= <-]; left; naive_solver|]. intros [[-> _]|[Hne (md0 & Had & Hns & Hnm)%Hu]]; [done|]. exfalso.
      apply Hne, (Huniq t0 t md0 md); [by eapply active_get|done|done|by right].
    + split; [|naive_solver]. intros Hl. destruct (decide (t0 = t)) as [->|]; [|by right].
      apply Hu in Hl as (md0 & [Hg Ha0] & _). by apply Hold in Hg.
Qed.

(** Names resolve the same when neither version of the tablet is active. *)
Lemma follows_inactive states m docs states' m' docs' t o :
  follows states m docs -> BTreeMap.wf states' -> mapping_wf m' ->
  (forall t', BTreeMap.get t' docs' = if decide (t' = t) then o else BTreeMap.get t' docs) ->
  (forall old, BTreeMap.get t docs = Some old -> md_state old <> Active) ->
  (forall md, o = Some md -> md_state md <> Active) ->
  (forall t', BTreeMap.get t' states' = if decide (t' = t) then option_map md_state o else BTreeMap.get t' states) ->
  (forall t', tablet_lookup m' t' = if decide (t' = t) then
     match o with
     | Some md => if decide (md_state md = Deleting) then None else Some (md_namespace md, md_number md, md_name md)
     | None => None
     end else tablet_lookup m t') ->
  (forall ns n, name_lookup m' ns n = name_lookup m ns n) -> (forall ns n, number_lookup m' ns n = number_lookup m ns n) ->
  follows states' m' docs'.
Proof.
  intros Hf Hw' Hm' Hd Hold Hnew Hs' Ht' Hn' Hu'. apply (follows_set states m docs _ _ docs' t o Hf); try done.
  - intros ns n t0. rewrite Hn'. split; [|naive_solver]. intros Hl. right. split; [|done]. intros ->.
    apply (fo_names _ _ _ Hf) in Hl as (md0 & [Hg Ha0] & _). by apply Hold in Hg.
  - intros ns n t0. rewrite Hu'. split; [|naive_solver]. intros Hl. right. split; [|done]. intros ->.
    apply (fo_numbers _ _ _ Hf) in Hl as (md0 & [Hg Ha0] & _). by apply Hold in Hg.
Qed.

Lemma follows_hide states m docs docs' t md :
  follows states m docs -> (forall t', BTreeMap.get t' docs' = if decide (t' = t) then Some md else BTreeMap.get t' docs) ->
  md_state md = Hidden -> BTreeMap.get t docs = None ->
  follows (BTreeMap.insert t Hidden states) (insert_tablet m t (md_namespace md) (md_number md) (md_name md)) docs'.
Proof.
  intros Hf Hd Ha Hold. pose proof Hf as [Hw Hm Hs Ht Hn Hu].
  destruct (insert_tablet_ok m t (md_namespace md) (md_number md) (md_name md) Hm) as (Hm' & Ht' & Hn' & Hu').
  apply (follows_inactive states m docs _ _ docs' t (Some md) Hf); try done.
  - by apply BTreeMap.wf_insert.
  - intros old Hg. congruence.
  - intros ? [= <-]. congruence.
  - intros t'. rewrite BTreeMap.get_insert_if by done. cbn [option_map]. by rewrite Ha.
  - intros t'. rewrite Ht'. by rewrite (decide_False (P := md_state md = Deleting)) by congruence.
Qed.

Lemma follows_new_deleting states m docs docs' t md :
  follows states m docs -> (forall t', BTreeMap.get t' docs' = if decide (t' = t) then Some md else BTreeMap.get t' docs) ->
  md_state md = Deleting -> BTreeMap.get t docs = None -> follows (BTreeMap.insert t Deleting states) m docs'.
Proof.
  intros Hf Hd Ha Hold. pose proof Hf as [Hw Hm Hs Ht Hn Hu].
  apply (follows_inactive states m docs _ _ docs' t (Some md) Hf); try done.
  - by apply BTreeMap.wf_insert.
  - intros old Hg. congruence.
  - intros ? [= <-]. congruence.
  - intros t'. rewrite BTreeMap.get_insert_if by done. cbn [option_map]. by rewrite Ha.
  - intros t'. destruct (decide (t' = t)) as [->|]; [|done]. rewrite Ht, Hold. by rewrite decide_True.
Qed.

(** A deleted tablet's document goes away. *)
Lemma follows_hard_delete states m docs docs' t md :
  follows states m docs -> (forall t', BTreeMap.get t' docs' = if decide (t' = t) then None else BTreeMap.get t' docs) ->
  BTreeMap.get t docs = Some md -> md_state md = Deleting -> follows (BTreeMap.remove t states) m docs'.
Proof.
  intros Hf Hd Hg Ha. pose proof Hf as [Hw Hm Hs Ht Hn Hu].
  apply (follows_inactive states m docs _ _ docs' t None Hf); try done.
  - by apply BTreeMap.wf_remove.
  - intros old Hg'. congruence.
  - intros t'. cbn [option_map]. destruct (decide (t' = t)) as [->|]; [by apply BTreeMap.get_remove_eq|by apply BTreeMap.get_remove_ne].
  - intros t'. destruct (decide (t' = t)) as [->|]; [|done]. rewrite Ht, Hg. by rewrite decide_True.
Qed.

(** An active tablet is dropped. *)
Lemma follows_drop {E} states m docs docs' t md md' :
  follows states m docs -> (forall t', BTreeMap.get t' docs' = if decide (t' = t) then Some md' else BTreeMap.get t' docs) ->
  active_doc docs t md -> md_state md' = Deleting ->
  exists m', mapping_remove (E := E) m t = Ret m' /\ follows (BTreeMap.insert t Deleting states) m' docs'.
Proof.
  intros Hf Hd [Hg Ha] Hdel. pose proof Hf as [Hw Hm Hs Ht Hn Hu].
  assert (Hl : tablet_lookup m t = Some (md_namespace md, md_number md, md_name md)).
  { rewrite Ht, Hg. rewrite decide_False; [done|congruence]. }
  destruct (mapping_remove_ok (E := E) m t _ _ _ Hm Hl) as (m' & He & Hm' & Ht' & Hn' & Hu'). exists m'. split; [done|].
  apply (follows_set states m docs _ _ docs' t (Some md') Hf); [by apply BTreeMap.wf_insert|done|done| | | |].
  - intros t'. rewrite BTreeMap.get_insert_if by done. cbn [option_map]. by rewrite Hdel.
  - intros t'. rewrite Ht'. by rewrite (decide_True (P := md_state md' = Deleting)).
  - intros ns n t0. rewrite Hn'. destruct (decide (ns = md_namespace md /\ n = md_name md /\ name_lookup m ns n = Some t)) as [(-> & -> & Heq)|Hne].
    + split; [done|]. rewrite Heq. intros [[_ (? & [= <-] & ? & _)]|[? [= ?]]]; congruence.
    + split; [|intros [[_ (? & [= <-] & ? & _)]|[? ?]]; congruence]. intros Hlk. right. split; [|done]. intros ->. apply Hne.
      pose proof Hlk as (md0 & [Hg0 _] & <- & <-)%Hn. split_and!; [congruence|congruence|done].
  - intros ns n t0. rewrite Hu'. destruct (decide (ns = md_namespace md /\ n = md_number md /\ number_lookup m ns n = Some t)) as [(-> & -> & Heq)|Hne].
    + split; [done|]. rewrite Heq. intros [[_ (? & [= <-] & ? & _)]|[? [= ?]]]; congruence.
    + split; [|intros [[_ (? & [= <-] & ? & _)]|[? ?]]; congruence]. intros Hlk. right. split; [|done]. intros ->. apply Hne.
      pose proof Hlk as (md0 & [Hg0 _] & <- & <-)%Hu. split_and!; [congruence|congruence|done].
Qed.

(** *** The reference *)

Lemma active_unique_sub docs docs' :
  (forall t md, active_doc docs t md -> active_doc docs' t md) -> active_unique docs' -> active_unique docs.
Proof. intros Hsub Hu t t' md md' Ht Ht'. apply Hu; by apply Hsub. Qed.

(** Loading all documents builds the registry that follows them. *)
Lemma table_mapping_and_states_follows docs :
  BTreeMap.wf docs -> active_unique docs ->
  follows (table_mapping_and_states docs).2 (table_mapping_and_states docs).1 docs.
Proof.
  induction docs as [|[t md] docs IH] using rev_ind; intros Hwf Hu.
  { constructor; try done; try apply mapping_new_wf; intros ns n t; (split; [done|by intros (? & [? _] & _)]). }
  destruct (BTreeMap.wf_app_inv _ _ Hwf) as [Hwf0 _].
  assert (Hd : forall t', BTreeMap.get t' (docs ++ [(t, md)]) = if decide (t' = t) then Some md else BTreeMap.get t' docs).
  { intros t'. rewrite <- (BTreeMap.insert_last docs t md Hwf). by apply BTreeMap.get_insert_if. }
  assert (Hnone : BTreeMap.get t docs = None).
  { apply BTreeMap.get_None. intros v Hin. pose proof (BTreeMap.wf_app_lt _ _ (t, v) (t, md) Hwf Hin ltac:(left)) as Hlt.
    by apply olt_irrefl in Hlt. }
  assert (Hf : follows (table_mapping_and_states docs).2 (table_mapping_and_states docs).1 docs).
  { apply IH; [done|]. revert Hu. apply active_unique_sub. intros t0 md0 [Hg Ha]. split; [|done]. rewrite Hd.
    by rewrite decide_False by congruence. }
  unfold table_mapping_and_states in *. rewrite fold_left_app. cbn [fold_left]. set (st := fold_left _ docs _) in *. clearbody st.
  unfold load_table. destruct (md_state md) eqn:Hst; cbn [fst snd].
  - apply (follows_activate st.2 st.1 docs _ t md); try done. intros old Hg. congruence.
  - by apply (follows_hide st.2 st.1 docs _ t md).
  - by apply (follows_new_deleting st.2 st.1 docs _ t md).
Qed.

(** *** Transitions *)

Definition with_state (md : TableMetadata) (s : TableState) : TableMetadata :=
  MkMetadata (md_name md) (md_number md) s (md_namespace md).

(** The changes of a [_tables] document that the registry follows: a creation, a
    drop, an activation, a rewrite with the same metadata, and the removal of a
    deleting table. The code accepts other edits and does nothing for them (a
    hidden table that becomes deleting, a change of the namespace): the registry
    then no longer describes the documents. *)
Inductive tracked : option TableMetadata -> option TableMetadata -> Prop :=
| tracked_create md : md_state md <> Deleting -> tracked None (Some md)
| tracked_drop md : md_state md = Active -> tracked (Some md) (Some (with_state md Deleting))
| tracked_activate md : md_state md = Hidden -> tracked (Some md) (Some (with_state md Active))
| tracked_same md : tracked (Some md) (Some md)
| tracked_delete md : md_state md = Deleting -> tracked (Some md) None.

(** No active table of the namespace has the name or the number of [md]. *)
Definition free (docs : docs_t) (md : TableMetadata) : Prop :=
  forall t md', active_doc docs t md' -> md_namespace md' = md_namespace md -> md_name md' <> md_name md /\ md_number md' <> md_number md.

(** A table is activated under a free name and number, which the code does not check. *)
Definition activated_free (docs : docs_t) (old new : option TableMetadata) : Prop :=
  match old, new with
  | Some md, Some md' => md_state md = Hidden -> md_state md' = Active -> free docs md
  | _, _ => True
  end.

Definition set_doc (docs : docs_t) (t : list Z) (o : option TableMetadata) : docs_t :=
  match o with Some md => BTreeMap.insert t md docs | None => BTreeMap.remove t docs end.

Lemma get_set_doc docs t o t' :
  BTreeMap.wf docs -> BTreeMap.get t' (set_doc docs t o) = if decide (t' = t) then o else BTreeMap.get t' docs.
Proof.
  intros Hwf. destruct o as [md|]; cbn [set_doc]; [by apply BTreeMap.get_insert_if|].
  destruct (decide (t' = t)) as [->|]; [by apply BTreeMap.get_remove_eq|by apply BTreeMap.get_remove_ne].
Qed.

Lemma set_doc_wf docs t o : BTreeMap.wf docs -> BTreeMap.wf (set_doc docs t o).
Proof. destruct o; [apply BTreeMap.wf_insert|apply BTreeMap.wf_remove]. Qed.

(** An active table can be created exactly when its name and number are free. *)
Lemma create_checks r docs t md :
  follows (tablet_states r) (table_mapping r) docs -> BTreeMap.wf docs -> active_unique docs ->
  BTreeMap.get t docs = None -> md_state md = Active ->
  let checks :=
    let? _ := ensure (negb (table_exists r (md_namespace md) (md_name md))) DuplicateTable in
    validate_table_number r (md_namespace md) (md_number md) (md_name md) in
  (checks = Ret tt /\ active_unique (set_doc docs t (Some md))) \/
  ((exists e, checks = Err e) /\ ~ active_unique (set_doc docs t (Some md))).
Proof.
  intros Hf Hwf Hu Hnone Ha checks. set (ns := md_namespace md) in *.
  assert (Hnames : table_exists r ns (md_name md) = true <-> exists t', name_lookup (table_mapping r) ns (md_name md) = Some t').
  { unfold table_exists, name_exists, id_if_exists, mapping_namespace. cbn [ns_table_name_to_canonical_tablet].
    rewrite nested_get_default. fold (name_lookup (table_mapping r) ns (md_name md)).
    destruct (name_lookup _ _ _); naive_solver. }
  assert (Hold : forall t' md', active_doc docs t' md' -> t' <> t /\ active_doc (set_doc docs t (Some md)) t' md').
  { intros t' md' [Hg Ha']. assert (t' <> t) by congruence. split; [done|]. split; [|done]. by rewrite get_set_doc, decide_False. }
  assert (Hnew : active_doc (set_doc docs t (Some md)) t md) by (split; [by rewrite get_set_doc, decide_True|done]).
  assert (Hnums : name_by_number_if_exists (mapping_namespace (table_mapping r) ns) (md_number md) =
    match number_lookup (table_mapping r) ns (md_number md) with
    | Some t' => option_map (fun '(_, _, name) => name) (tablet_lookup (table_mapping r) t') | None => None end).
  { unfold name_by_number_if_exists, mapping_namespace. cbn [ns_table_number_to_canonical_tablet ns_tablet_to_table].
    by rewrite nested_get_default. }
  subst checks. destruct (table_exists r ns (md_name md)) eqn:Hex; cbn [negb ensure obind].
  { right. split; [eauto|]. intros Huniq. destruct (proj1 Hnames eq_refl) as (t' & (md' & Had & Hns & Hnm)%(fo_names _ _ _ Hf)).
    destruct (Hold t' md' Had) as [Hne Had']. apply Hne, (Huniq t' t md' md); [done|done|done|by left]. }
  unfold validate_table_number. rewrite Hnums.
  destruct (number_lookup (table_mapping r) ns (md_number md)) as [t'|] eqn:Hlk.
  - right. pose proof Hlk as (md' & Had & Hns & Hnum)%(fo_numbers _ _ _ Hf). pose proof Had as [Hg Ha'].
    rewrite (fo_tablets _ _ _ Hf), Hg. rewrite decide_False by congruence. cbn [option_map].
    destruct (Hold t' md' Had) as [Hne Had']. split.
    + case_bool_decide as Hnm; [|eexists; reflexivity]. exfalso.
      assert (Hbad : false = true) by (apply Hnames; exists t'; apply (fo_names _ _ _ Hf); by exists md'). discriminate Hbad.
    + intros Huniq. apply Hne, (Huniq t' t md' md); [done|done|done|by right].
  - left. split; [done|]. intros t1 t2 md1 md2 H1 H2 Hns Hor. unfold active_doc in H1, H2. rewrite !get_set_doc in H1, H2 by done.
    assert (Hfree : forall t' md', active_doc docs t' md' -> md_namespace md' = ns -> md_name md' = md_name md \/ md_number md' = md_number md -> False).
    { intros t' md' Had' Hns' [Hnm|Hnum].
      - assert (Hbad : false = true) by (apply Hnames; exists t'; apply (fo_names _ _ _ Hf); by exists md'). discriminate Hbad.
      - assert (number_lookup (table_mapping r) ns (md_number md) = Some t') by (apply (fo_numbers _ _ _ Hf); by exists md'). congruence. }
    destruct (decide (t1 = t)) as [->|], (decide (t2 = t)) as [->|]; [done| | |by apply (Hu t1 t2 md1 md2)].
    + destruct H1 as [[= <-] _]. exfalso. apply (Hfree t2 md2 H2); [done|]. destruct Hor; [left|right]; done.
    + destruct H2 as [[= <-] _]. exfalso. by apply (Hfree t1 md1 H1).
Qed.

Lemma apply_update_no_err {E} r u e : apply_update (E := E) r u <> Err e.
Proof.
  unfold apply_update, mapping_remove. destruct u as [u|]; [|done]. destruct (tu_mode u); try done.
  - destruct (expect _) as [[[ns number] name]| |] eqn:He; cbn [obind]; try done. by unfold expect in He; case_match.
  - by destruct (bool_decide _).
Qed.

Section follow.
Context (try_from : ConvexValue -> option TableMetadata).

Definition parses (v : option ConvexValue) (o : option TableMetadata) : Prop :=
  match v, o with Some v, Some md => try_from v = Some md | None, None => True | _, _ => False end.

(** The document [i] is one of [_tables]. *)
Definition in_tables (r : TableRegistry) (i : ResolvedDocumentId) : Prop :=
  tablet_matches_name (mapping_namespace (table_mapping r) Global) (tablet_id i) TABLES_TABLE = true.

(** What a change of the document of [t] does to a registry that follows [docs]. *)
Definition followed (docs' : docs_t) (m : outcome table_error (TableRegistry * option TableUpdate)) : Prop :=
  match m with
  | Ret (r', _) => follows (tablet_states r') (table_mapping r') docs' /\ active_unique docs'
  | Err _ => True
  | Panic => False
  end.

Lemma follows_ext states m m' docs : mapping_wf m' -> mapping_eq m' m -> follows states m docs -> follows states m' docs.
Proof.
  intros Hm' [Ht' Hn' Hu'] [Hw Hm Hs Ht Hn Hu]. constructor; [done|done|done| | |]; intros.
  - rewrite Ht'. apply Ht.
  - rewrite Hn'. apply Hn.
  - rewrite Hu'. apply Hu.
Qed.

(** Creating a table: accepted exactly when it does not clash with another. *)
Lemma create_follows r docs t md v :
  follows (tablet_states r) (table_mapping r) docs -> BTreeMap.wf docs -> active_unique docs ->
  BTreeMap.get t docs = None -> md_state md <> Deleting -> try_from v = Some md ->
  followed (set_doc docs t (Some md)) (let? u := begin_create try_from r t v in let? r := apply_update r u in Ret (r, u)) /\
  ((exists x, begin_create try_from r t v = Ret x) <-> active_unique (set_doc docs t (Some md))).
Proof.
  intros Hf Hwf Hu Hnone Hst Hv. unfold begin_create. rewrite Hv. cbn [ok_or obind].
  assert (Hget : forall t', BTreeMap.get t' (set_doc docs t (Some md)) = if decide (t' = t) then Some md else BTreeMap.get t' docs).
  { intros t'. by apply get_set_doc. }
  unfold is_active. destruct (md_state md) eqn:Hs; [| |done].
  - rewrite bool_decide_true by done. destruct (create_checks r docs t md Hf Hwf Hu Hnone Hs) as [[-> Hu']|[[e ->] Hn]]; cbn [obind].
    + split; [|split; [done|eauto]]. split; [|done]. cbn [tablet_states table_mapping tu_tablet tu_namespace tu_number tu_name activates tu_mode].
      pose proof (follows_activate _ _ docs _ t md Hf Hget Hs Hu' ltac:(congruence)) as Hfa. revert Hfa.
      destruct (mapping_insert_ok _ t (md_namespace md) (md_number md) (md_name md) (fo_mapping_wf _ _ _ Hf)) as (Hm1 & Ht1 & _).
      destruct (insert_tablet_ok _ t (md_namespace md) (md_number md) (md_name md) Hm1) as (Hm2 & Ht2 & Hn2 & Hu2).
      apply follows_ext; [done|]. constructor; [|done|done]. intros t'. rewrite Ht2, Ht1. by destruct (decide (t' = t)).
    + split; [done|]. split; [by intros [x ?]|done].
  - rewrite bool_decide_false by done. cbn [obind]. assert (Hu' : active_unique (set_doc docs t (Some md))).
    { revert Hu. apply active_unique_sub. intros t0 md0 [Hg Ha]. rewrite Hget in Hg. destruct (decide (t0 = t)); [congruence|by split]. }
    split; [|split; [done|eauto]]. split; [|done]. by apply (follows_hide (tablet_states r) (table_mapping r) docs).
Qed.

Lemma drop_unique docs t md md' :
  BTreeMap.wf docs -> md_state md' <> Active -> BTreeMap.get t docs = Some md -> active_unique docs -> active_unique (set_doc docs t (Some md')).
Proof.
  intros Hwf Hst Hg. apply active_unique_sub. intros t0 md0 [Hg0 Ha]. rewrite get_set_doc in Hg0 by done.
  destruct (decide (t0 = t)); [congruence|by split].
Qed.

Lemma activate_unique docs t md :
  BTreeMap.wf docs -> free docs md -> active_unique docs -> active_unique (set_doc docs t (Some (with_state md Active))).
Proof.
  intros Hwf Hfree Hu t1 t2 md1 md2 [H1 A1] [H2 A2] Hns Hor. rewrite get_set_doc in H1, H2 by done.
  destruct (decide (t1 = t)) as [->|], (decide (t2 = t)) as [->|]; [done|..]; simplify_eq; cbn [with_state md_namespace md_name md_number] in *.
  - destruct (Hfree t2 md2 (conj H2 A2)); [done|]. by destruct Hor.
  - destruct (Hfree t1 md1 (conj H1 A1)); [done|]. by destruct Hor.
  - by apply (Hu t1 t2 md1 md2).
Qed.

Lemma same_follows states m docs t md :
  BTreeMap.wf docs -> BTreeMap.get t docs = Some md -> follows states m docs -> active_unique docs ->
  follows states m (set_doc docs t (Some md)) /\ active_unique (set_doc docs t (Some md)).
Proof.
  intros Hwf Hg [F1 F2 F3 F4 F5 F6] Hu.
  assert (Hext : forall t', BTreeMap.get t' (set_doc docs t (Some md)) = BTreeMap.get t' docs).
  { intros t'. rewrite get_set_doc by done. by destruct (decide (t' = t)) as [->|]. }
  split.
  - constructor; [done|done| | | |]; intros; rewrite ?Hext; [done|done| |].
    + rewrite F5. unfold active_doc. by setoid_rewrite Hext.
    + rewrite F6. unfold active_doc. by setoid_rewrite Hext.
  - revert Hu. apply active_unique_sub. intros t0 md0 [Hg0 Ha]. rewrite Hext in Hg0. by split.
Qed.

(** Editing the document of a table. *)
Lemma edit_follows r ixr docs t md md' v v' :
  follows (tablet_states r) (table_mapping r) docs -> BTreeMap.wf docs -> active_unique docs -> registry_ok ixr ->
  BTreeMap.get t docs = Some md -> tracked (Some md) (Some md') -> activated_free docs (Some md) (Some md') -> try_from v = Some md -> try_from v' = Some md' ->
  followed (set_doc docs t (Some md')) (let? u := begin_edit try_from ixr t v v' in let? r := apply_update r u in Ret (r, u)).
Proof.
  intros Hf Hwf Hu Hr Hg Htr Hact Hv Hv'. unfold begin_edit. rewrite Hv, Hv'. cbn [ok_or obind].
  assert (Hget : forall t', BTreeMap.get t' (set_doc docs t (Some md')) = if decide (t' = t) then Some md' else BTreeMap.get t' docs).
  { intros t'. by apply get_set_doc. }
  assert (Hsame : md_name md = md_name md' /\ md_number md = md_number md' /\ md_namespace md = md_namespace md') by (by inversion Htr; subst).
  destruct Hsame as (Hn & Hnu & Hns). unfold ensure at 1 2. rewrite !bool_decide_true by done. cbn [obind]. unfold is_active.
  inversion Htr as [|md0 Hs|md0 Hs|md0|]; subst; clear Htr.
  - rewrite !bool_decide_true by done. cbn [andb].
    destruct (ensure _ BootstrapTableDeleted) eqn:He; [|done|by unfold ensure in He; case_match]. cbn [obind].
    unfold has_no_indexes. destruct (indexes_by_table_ret ixr t Hr) as (l & -> & _). cbn [obind].
    destruct l; cbn [ensure obind]; [|done].
    destruct (follows_drop (E := table_error) _ _ docs _ t md _ Hf Hget (conj Hg Hs) eq_refl) as (m' & Hm' & Hf').
    cbn [apply_update activates tu_mode tu_tablet]. rewrite Hm'. cbn [obind]. split; [exact Hf'|]. by apply (drop_unique docs t md).
  - rewrite (bool_decide_false (md_state md = Active)) by congruence. cbn [andb].
    rewrite (bool_decide_true (md_state md = Hidden)), (bool_decide_true (md_state (with_state md Active) = Active)) by done.
    cbn [andb obind apply_update activates tu_mode tu_tablet tu_namespace tu_number tu_name].
    pose proof (activate_unique docs t md Hwf (Hact Hs eq_refl) Hu) as Hu'.
    split; [|done]. apply (follows_activate _ _ docs _ t (with_state md Active) Hf Hget eq_refl Hu'). congruence.
  - destruct (same_follows _ _ docs t md' Hwf Hg Hf Hu) as [Hf' Hu'].
    destruct (md_state md') eqn:Hs; rewrite ?(bool_decide_true (Active = Active)), ?(bool_decide_false (Hidden = Active)),
      ?(bool_decide_false (Deleting = Active)), ?(bool_decide_false (Active = Deleting)), ?(bool_decide_false (Active = Hidden)),
      ?(bool_decide_false (Deleting = Hidden)), ?(bool_decide_true (Hidden = Hidden)) by done; by split.
Qed.

(** Removing the document of a deleted table. *)
Lemma delete_follows r docs t md v :
  follows (tablet_states r) (table_mapping r) docs -> BTreeMap.wf docs -> active_unique docs ->
  BTreeMap.get t docs = Some md -> md_state md = Deleting -> try_from v = Some md ->
  followed (set_doc docs t None) (let? u := begin_delete try_from t v in let? r := apply_update r u in Ret (r, u)).
Proof.
  intros Hf Hwf Hu Hg Hs Hv. unfold begin_delete. rewrite Hv. cbn [ok_or obind apply_update activates tu_mode tu_tablet].
  unfold table_state. rewrite (fo_states _ _ _ Hf), Hg. cbn [option_map]. rewrite bool_decide_true by congruence. cbn [rassert obind].
  assert (Hget : forall t', BTreeMap.get t' (set_doc docs t None) = if decide (t' = t) then None else BTreeMap.get t' docs).
  { intros t'. by apply get_set_doc. }
  split; [by apply (follows_hard_delete _ _ docs _ t md)|]. revert Hu. apply active_unique_sub. intros t0 md0 [Hg0 Ha].
  rewrite Hget in Hg0. destruct (decide (t0 = t)); [done|by split].
Qed.
End follow.

(** ** Theorems *)

(** C32: The table registry follows the [_tables] table.  When it agrees with the
    documents of [_tables] and one of them is created, dropped, activated under
    a name and a number that no active table of its namespace has (the code does
    not check this), rewritten with the same metadata or (once deleting)
    removed, the update does not panic; if it is accepted the registry agrees
    with the new documents, which is what loading all of them from scratch
    gives, and no two active tables of a namespace share a name or a number; a
    creation is accepted exactly when that holds. Other edits that the code
    accepts and ignores are not covered: after one of a hidden table to
    deleting the registry is wrong. *)
Theorem registry_follows_tables (try_from : ConvexValue -> option TableMetadata) (r : TableRegistry) (ixr : IndexRegistry)
    (docs : docs_t) (i : ResolvedDocumentId) (old new : option TableMetadata) (old_value new_value : option ConvexValue) :
  let t := internal_id (developer_id i) in
  follows (tablet_states r) (table_mapping r) docs -> BTreeMap.wf docs -> active_unique docs -> registry_ok ixr ->
  in_tables r i -> BTreeMap.get t docs = old -> tracked old new -> activated_free docs old new ->
  parses try_from old_value old -> parses try_from new_value new ->
  match registry_update try_from r ixr i old_value new_value with
  | Ret (r', _) => follows (tablet_states r') (table_mapping r') (set_doc docs t new) /\ active_unique (set_doc docs t new) /\
      tablet_states r' = (table_mapping_and_states (set_doc docs t new)).2 /\
      mapping_eq (table_mapping r') (table_mapping_and_states (set_doc docs t new)).1
  | Err _ => old = None -> ~ active_unique (set_doc docs t new)
  | Panic => False
  end.
Proof.
  intros t Hf Hwf Hu Hr Hin Hg Htr Hact Hpo Hpn. unfold registry_update, begin_update. rewrite Hin. fold t.
  assert (Hend : forall docs' m, BTreeMap.wf docs' -> followed docs' m -> match m with
    | Ret (r', _) => follows (tablet_states r') (table_mapping r') docs' /\ active_unique docs' /\
        tablet_states r' = (table_mapping_and_states docs').2 /\ mapping_eq (table_mapping r') (table_mapping_and_states docs').1
    | Err _ => True | Panic => False end).
  { intros docs' [[r' u]|e|] Hwf'; [|done|done]. intros [Hf' Hu']. split_and!; [done|done|..];
      by eapply follows_unique, table_mapping_and_states_follows. }
  destruct Htr as [md Hs|md Hs|md Hs|md|md Hs]; cbn [parses] in *;
    destruct old_value as [v|], new_value as [v'|]; try done.
  - destruct (create_follows try_from r docs t md v' Hf Hwf Hu Hg Hs Hpn) as [Hfo Hiff].
    destruct (begin_create try_from r t v') as [u|e|]; cbn [obind] in *.
    + specialize (Hend (set_doc docs t (Some md)) _ (set_doc_wf _ _ _ Hwf) Hfo).
      destruct (let? r := apply_update r u in Ret (r, u)) as [[r' u']|e|] eqn:He; [done| |done].
      destruct (apply_update r u) eqn:Ha; try done. by apply apply_update_no_err in Ha.
    + intros _ Hu'. apply Hiff in Hu' as [x ?]. done.
    + done.
  - pose proof (Hend _ _ (set_doc_wf docs t _ Hwf) (edit_follows try_from r ixr docs t md _ v v' Hf Hwf Hu Hr Hg (tracked_drop md Hs) Hact Hpo Hpn)) as H.
    by destruct (let? u := begin_edit try_from ixr t v v' in let? r := apply_update r u in Ret (r, u)) as [[? ?]| |].
  - pose proof (Hend _ _ (set_doc_wf docs t _ Hwf) (edit_follows try_from r ixr docs t md _ v v' Hf Hwf Hu Hr Hg (tracked_activate md Hs) Hact Hpo Hpn)) as H.
    by destruct (let? u := begin_edit try_from ixr t v v' in let? r := apply_update r u in Ret (r, u)) as [[? ?]| |].
  - pose proof (Hend _ _ (set_doc_wf docs t _ Hwf) (edit_follows try_from r ixr docs t md _ v v' Hf Hwf Hu Hr Hg (tracked_same md) Hact Hpo Hpn)) as H.
    by destruct (let? u := begin_edit try_from ixr t v v' in let? r := apply_update r u in Ret (r, u)) as [[? ?]| |].
  - pose proof (Hend _ _ (set_doc_wf docs t _ Hwf) (delete_follows try_from r docs t md v Hf Hwf Hu Hg Hs Hpo)) as H.
    by destruct (let? u := begin_delete try_from t v in let? r := apply_update r u in Ret (r, u)) as [[? ?]| |].
Qed.

Module TablesExample.
(** [_tables] itself and a hidden table that an import left behind. *)
Definition tables_doc : TableMetadata := MkMetadata TABLES_TABLE 1 Active Global.
Definition imported : TableMetadata := MkMetadata [102] 10 Hidden Global.
Definition t_tables : list Z := replicate 16 1.
Definition t_imported : list Z := replicate 16 2.
Definition docs : docs_t := [(t_tables, tables_doc); (t_imported, imported)].
Definition registry : TableRegistry :=
  let st := table_mapping_and_states docs in MkTables st.2 st.1.
Definition doc_id : ResolvedDocumentId := MkResolved t_tables (MkId 1 t_imported).

(** The values [0], [1] and [2] stand for the three states of the document. *)
Definition parse (v : ConvexValue) : option TableMetadata :=
  match v with
  | Int64 0 => Some imported
  | Int64 1 => Some (with_state imported Active)
  | Int64 2 => Some (with_state imported Deleting)
  | _ => None
  end.

Lemma docs_unique (md : TableMetadata) :
  md_number md = 10 -> md_name md = [102] -> active_unique [(t_tables, tables_doc); (t_imported, md)].
Proof.
  intros Hnum Hnm t t' md1 md2 [H1 _] [H2 _] _ Hor.
  assert (Hwf : BTreeMap.wf [(t_tables, tables_doc); (t_imported, md)]).
  { split; [|split; [by intros ? ?%elem_of_nil|done]]. intros ? ->%list_elem_of_singleton. vm_compute. done. }
  apply BTreeMap.elem_of_get in H1, H2; [|done..].
  apply elem_of_cons in H1 as [[= -> ->]|[= -> ->]%list_elem_of_singleton];
    apply elem_of_cons in H2 as [[= -> ->]|[= -> ->]%list_elem_of_singleton]; try done; exfalso;
    rewrite Hnum, Hnm in Hor; by destruct Hor.
Qed.

Lemma imported_free : free docs imported.
Proof.
  intros t md [Hg Ha] _. apply BTreeMap.elem_of_get in Hg; [|split; [|split; [by intros ? ?%elem_of_nil|done]]; intros ? ->%list_elem_of_singleton; by vm_compute].
  apply elem_of_cons in Hg as [[= -> ->]|[= -> ->]%list_elem_of_singleton]; done.
Qed.
End TablesExample.

Lemma registry_follows_tables_witness :
  match registry_update TablesExample.parse TablesExample.registry (MkRegistry [] [] [] []) TablesExample.doc_id (Some (Int64 0)) (Some (Int64 1)) with
  | Ret (r', _) => mapping_eq (table_mapping r')
      (table_mapping_and_states [(TablesExample.t_tables, TablesExample.tables_doc); (TablesExample.t_imported, with_state TablesExample.imported Active)]).1
  | _ => False
  end.
Proof.
  assert (Hwf : BTreeMap.wf TablesExample.docs).
  { split; [|split; [by intros ? ?%elem_of_nil|done]]. intros ? ->%list_elem_of_singleton. vm_compute. done. }
  assert (Hu : active_unique TablesExample.docs) by (by apply TablesExample.docs_unique).
  pose proof (registry_follows_tables TablesExample.parse TablesExample.registry (MkRegistry [] [] [] []) TablesExample.docs
    TablesExample.doc_id (Some TablesExample.imported) (Some (with_state TablesExample.imported Active)) (Some (Int64 0)) (Some (Int64 1))
    (table_mapping_and_states_follows _ Hwf Hu) Hwf Hu ltac:(by constructor) eq_refl eq_refl (tracked_activate TablesExample.imported eq_refl) (fun _ _ => TablesExample.imported_free) eq_refl eq_refl) as H.
  destruct (registry_update _ _ _ _ _ _) as [[r' u]|e|] eqn:He; [apply H|vm_compute in He; discriminate He|done].
Defined.

(** The registry does not follow the deletion of a hidden table: its state
    stays [Hidden] and the tablet stays in the mapping, unlike in a registry
    loaded from the documents, and the removal of the document afterwards (the
    last step of a table's life) fails an assertion. *)
Theorem hidden_table_deletion_panics :
  match registry_update TablesExample.parse TablesExample.registry (MkRegistry [] [] [] []) TablesExample.doc_id
          (Some (Int64 0)) (Some (Int64 2)) with
  | Ret (r', _) =>
      table_state r' TablesExample.t_imported = Some Hidden /\
      tablet_id_exists (table_mapping r') TablesExample.t_imported = true /\
      registry_update TablesExample.parse r' (MkRegistry [] [] [] []) TablesExample.doc_id (Some (Int64 2)) None = Panic
  | _ => False
  end.
Proof. vm_compute. done. Qed.
