(* ===== verification/QueryReads.v ===== *)
(** * QueryReads: read sets of full-text searches
      (src/crates/search/src/query.rs)

    [SearchTermTries] indexes the terms of text queries by field path, fuzzy
    parameters and token.  The innermost index is an adaptive radix tree
    ([memory_index/art.rs]); this file only uses it as a map from strings, the
    interface [StringMap], so its theorems hold for every implementation with
    the laws [StringMapLaws].  The tokenizer and SHA-256 are parameters. *)

From S2P Require Import Prelude Ord BTreeMap Identifier Value Sorting SortingDecode Base32 IdV6 Document IndexRegistry.

Local Open Scope Z_scope.
#[local] Existing Instance ord_eq_dec | 1000.

(** ** The string map interface ([ART<String, V>]) *)

Class StringMap (M : Type -> Type) := {
  sm_empty {V} : M V;
  sm_get {V} : list Z -> M V -> option V;
  sm_insert {V} : list Z -> V -> M V -> M V;
  sm_remove {V} : list Z -> M V -> M V;
}.

Class StringMapLaws (M : Type -> Type) `{!StringMap M} : Prop := {
  sm_get_empty {V} k : sm_get k (sm_empty (V := V)) = None;
  sm_get_insert {V} k k' (v : V) m : sm_get k' (sm_insert k v m) = if decide (k' = k) then Some v else sm_get k' m;
  sm_get_remove {V} k k' (m : M V) : sm_get k' (sm_remove k m) = if decide (k' = k) then None else sm_get k' m;
}.

(** Association lists implement the interface. *)
#[global] Instance alist_StringMap : StringMap (fun V => list (list Z * V)) := {|
  sm_empty _ := [];
  sm_get _ k m := match bfilter (fun e => bool_decide (e.1 = k)) m with e :: _ => Some e.2 | [] => None end;
  sm_insert _ k v m := (k, v) :: bfilter (fun e => negb (bool_decide (e.1 = k))) m;
  sm_remove _ k m := bfilter (fun e => negb (bool_decide (e.1 = k))) m;
|}.

Lemma bfilter_other {V} (k k' : list Z) (m : list (list Z * V)) :
  bfilter (fun e => bool_decide (e.1 = k')) (bfilter (fun e => negb (bool_decide (e.1 = k))) m)
  = if decide (k' = k) then [] else bfilter (fun e => bool_decide (e.1 = k')) m.
Proof.
  induction m as [|[x v] m IH]; simpl; [by destruct (decide _)|].
  destruct (decide (x = k)) as [->|Hne].
  - rewrite (bool_decide_true (k = k)) by done. simpl. rewrite IH. destruct (decide (k' = k)); [done|].
    by rewrite bool_decide_false.
  - rewrite (bool_decide_false (x = k)) by done. simpl. rewrite IH. destruct (decide (k' = k)) as [->|]; [|done].
    by rewrite bool_decide_false.
Qed.

#[global] Instance alist_StringMapLaws : StringMapLaws (fun V => list (list Z * V)).
Proof.
  constructor; intros; cbn; [done| |].
  - destruct (decide (k' = k)) as [->|Hne]; [by rewrite bool_decide_true|].
    rewrite bool_decide_false by done. rewrite bfilter_other. by destruct (decide (k' = k)).
  - rewrite bfilter_other. by destruct (decide (k' = k)).
Qed.

(** ** Query terms *)

Inductive TextQueryTerm :=
| Exact (token : list Z)
| Fuzzy (token : list Z) (max_distance : Z) (prefix : bool).

Record TextQueryTermRead := MkTermRead { field_path : list (list Z); term : TextQueryTerm }.

Inductive FilterConditionRead := Must (path : list (list Z)) (v : list Z).

(** [TextQueryTerm::fuzzy_params]. *)
Definition fuzzy_params (t : TextQueryTerm) : list Z * Z * bool :=
  match t with
  | Fuzzy token max_distance prefix => (token, max_distance, prefix)
  | Exact token => (token, 0, false)
  end.

Section tries.
Context {M : Type -> Type} `{StringMapLaws M} {T : Type} `{OrdLaws T}.

(** [Tries { tries: BTreeMap<(bool, u8), ART<String, BTreeMap<T, usize>>> }]. *)
Definition Tries : Type := BTreeMap.t (bool * Z) (M (BTreeMap.t T Z)).
(** [SearchTermTries { terms: BTreeMap<FieldPath, Tries<T>> }]. *)
Definition SearchTermTries : Type := BTreeMap.t (list (list Z)) Tries.

Definition tries_new : SearchTermTries := [].

(** [Tries::matching_values]: the values [result] is called with. *)
Definition matching_values (self : Tries) (tokens : list (list Z)) : list T :=
  concat (map (fun e : (bool * Z) * M (BTreeMap.t T Z) =>
    concat (map (fun token =>
      match sm_get token e.2 with
      | Some value => map fst value
      | None => []
      end) (for_each_token tokens e.1.1))) self).

(** One round of the loop of [extend]. *)
Definition extend_one (value : T) (self : SearchTermTries) (text_query : TextQueryTermRead) : SearchTermTries :=
  let path := field_path text_query in
  let '(token, max_distance, prefix) := fuzzy_params (term text_query) in
  let tries := match BTreeMap.get path self with Some t => t | None => [] end in
  let art := match BTreeMap.get (prefix, max_distance) tries with Some a => a | None => sm_empty end in
  let art :=
    match sm_get token art with
    | Some value_to_count =>
        let count := match BTreeMap.get value value_to_count with Some c => c | None => 0 end in
        sm_insert token (BTreeMap.insert value (count + 1) value_to_count) art
    | None => sm_insert token (BTreeMap.insert value 1 []) art
    end in
  BTreeMap.insert path (BTreeMap.insert (prefix, max_distance) art tries) self.

Definition extend (self : SearchTermTries) (value : T) (queries : list TextQueryTermRead) : SearchTermTries :=
  fold_left (extend_one value) queries self.

(** One round of the loop of [remove]. *)
Definition remove_one {E} (value : T) (self : SearchTermTries) (text_query : TextQueryTermRead)
    : outcome E SearchTermTries :=
  let path := field_path text_query in
  let '(token, max_distance, prefix) := fuzzy_params (term text_query) in
  let? tries := expect (BTreeMap.get path self) in
  let? trie := expect (BTreeMap.get (prefix, max_distance) tries) in
  let? value_to_count := expect (sm_get token trie) in
  let? count := expect (BTreeMap.get value value_to_count) in
  let? _ := rassert (1 <=? count) in
  let count := count - 1 in
  let value_to_count := BTreeMap.insert value count value_to_count in
  let value_to_count := if count =? 0 then BTreeMap.remove value value_to_count else value_to_count in
  let trie := match value_to_count with
              | [] => sm_remove token trie
              | _ => sm_insert token value_to_count trie
              end in
  Ret (BTreeMap.insert path (BTreeMap.insert (prefix, max_distance) trie tries) self).

Definition remove_terms {E} (self : SearchTermTries) (value : T) (queries : list TextQueryTermRead)
    : outcome E SearchTermTries :=
  foldM (remove_one value) self queries.

(** [SearchTermTries::overlaps_index_key_value]. *)
Definition terms_overlap_index_key (self : SearchTermTries) (v : SearchIndexKeyValue) : bool :=
  match search_field_value v with
  | None => false
  | Some tokens =>
      match BTreeMap.get (search_field v) self with
      | None => false
      | Some tries => match matching_values tries tokens with [] => false | _ => true end
      end
  end.

(** [SearchTermTries::overlaps_document]. *)
Definition terms_overlap_document (tokenize : list Z -> list (list Z)) (self : SearchTermTries)
    (document : PackedDocument) : bool :=
  existsb (fun e : list (list Z) * Tries =>
    match open_path (value document) e.1 with
    | Some (String document_text) =>
        match matching_values e.2 (tokenize document_text) with [] => false | _ => true end
    | _ => false
    end) self.

(** *** What the tries contain *)

(** The radix tree for (path, key), empty when there is none. *)
Definition trie_at (self : SearchTermTries) (path : list (list Z)) (key : bool * Z) : M (BTreeMap.t T Z) :=
  match BTreeMap.get path self with
  | Some tries => match BTreeMap.get key tries with Some a => a | None => sm_empty end
  | None => sm_empty
  end.

(** The values of a token with their counts. *)
Definition values_at (self : SearchTermTries) path key (token : list Z) : BTreeMap.t T Z :=
  match sm_get token (trie_at self path key) with Some m => m | None => [] end.

(** How often [value] was recorded for a term. *)
Definition count (self : SearchTermTries) path key token (value : T) : Z :=
  match BTreeMap.get value (values_at self path key token) with Some c => c | None => 0 end.

Definition values_ok (m : BTreeMap.t T Z) : Prop := BTreeMap.wf m /\ m <> [] /\ forall e, e ∈ m -> 1 <= e.2.

(** Representation invariant: sorted maps, no empty value map in a tree and
    only positive counts. *)
Definition tries_ok (self : SearchTermTries) : Prop :=
  BTreeMap.wf self /\
  (forall path tries, BTreeMap.get path self = Some tries -> BTreeMap.wf tries) /\
  (forall path key token m, sm_get token (trie_at self path key) = Some m -> values_ok m).

(** Writing one tree. *)
Definition put (path : list (list Z)) (key : bool * Z) (art : M (BTreeMap.t T Z)) (self : SearchTermTries) : SearchTermTries :=
  BTreeMap.insert path
    (BTreeMap.insert key art (match BTreeMap.get path self with Some t => t | None => [] end)) self.

Lemma tries_or_new_wf self path :
  tries_ok self -> BTreeMap.wf (match BTreeMap.get path self with Some t => t | None => [] end).
Proof. intros (_ & Hw & _). destruct (BTreeMap.get path self) eqn:Hg; [by eapply Hw|done]. Qed.

Lemma trie_at_put self path key art path' key' :
  tries_ok self ->
  trie_at (put path key art self) path' key' = if decide (path' = path /\ key' = key) then art else trie_at self path' key'.
Proof.
  intros Hok. unfold trie_at, put. rewrite BTreeMap.get_insert_if by apply Hok.
  destruct (decide (path' = path)) as [->|Hp]; [|by rewrite decide_False by tauto].
  rewrite BTreeMap.get_insert_if by by apply tries_or_new_wf. destruct (decide (key' = key)) as [->|Hk]; [by rewrite decide_True by done|].
  rewrite decide_False by tauto. by destruct (BTreeMap.get path self).
Qed.

Lemma tries_ok_put self path key art :
  tries_ok self -> (forall token m, sm_get token art = Some m -> values_ok m) -> tries_ok (put path key art self).
Proof.
  intros Hok Ha. split; [apply BTreeMap.wf_insert, Hok|]. split.
  - intros path' tries. unfold put. rewrite BTreeMap.get_insert_if by apply Hok. case_decide; [|by apply Hok].
    intros [= <-]. apply BTreeMap.wf_insert. by apply tries_or_new_wf.
  - intros path' key' token m. rewrite trie_at_put by done. case_decide; [by apply Ha|by apply Hok].
Qed.

Lemma values_ok_insert m v c : BTreeMap.wf m -> (forall e, e ∈ m -> 1 <= e.2) -> 1 <= c -> values_ok (BTreeMap.insert v c m).
Proof.
  intros Hm Hpos Hc. split; [by apply BTreeMap.wf_insert|]. split.
  - intros Hnil. assert (Hin : (v, c) ∈ BTreeMap.insert v c m) by (apply BTreeMap.elem_of_insert; [done|by left]).
    rewrite Hnil in Hin. by apply elem_of_nil in Hin.
  - intros [v' c'] [[-> ->]|[_ ?]]%BTreeMap.elem_of_insert; [done|by apply (Hpos (v', c'))|done].
Qed.

Lemma values_at_ok self path key token :
  tries_ok self -> BTreeMap.wf (values_at self path key token) /\ (forall e, e ∈ values_at self path key token -> 1 <= e.2).
Proof.
  intros (_ & _ & Hv). unfold values_at. destruct (sm_get token (trie_at self path key)) as [m|] eqn:Hg.
  - destruct (Hv _ _ _ _ Hg) as (? & _ & ?). done.
  - split; [done|by intros ? ?%elem_of_nil].
Qed.

Lemma count_nonneg self path key token v : tries_ok self -> 0 <= count self path key token v.
Proof.
  intros Hok. destruct (values_at_ok self path key token Hok) as [Hw Hpos]. unfold count.
  destruct (BTreeMap.get v _) eqn:Hg; [|lia]. apply BTreeMap.elem_of_get in Hg; [|done]. specialize (Hpos _ Hg). simpl in *. lia.
Qed.

Lemma elem_of_values_at self path key token v :
  tries_ok self -> v ∈ map fst (values_at self path key token) <-> 1 <= count self path key token v.
Proof.
  intros Hok. destruct (values_at_ok self path key token Hok) as [Hw Hpos]. rewrite list_elem_of_fmap. unfold count. split.
  - intros ([v' c] & -> & He). specialize (Hpos _ He). cbn [fst]. apply BTreeMap.elem_of_get in He as ->; [|done]. done.
  - destruct (BTreeMap.get v _) as [c|] eqn:Hg; [|lia]. intros _. exists (v, c). split; [done|]. by apply BTreeMap.elem_of_get.
Qed.

(** The term of a query, as a position in the index. *)
Definition key_of (q : TextQueryTermRead) : bool * Z := let '(_, d, p) := fuzzy_params (term q) in (p, d).
Definition token_of (q : TextQueryTermRead) : list Z := (fuzzy_params (term q)).1.1.

Lemma extend_one_put value self q :
  extend_one value self q =
  put (field_path q) (key_of q)
    (sm_insert (token_of q)
      (BTreeMap.insert value (count self (field_path q) (key_of q) (token_of q) value + 1)
        (values_at self (field_path q) (key_of q) (token_of q)))
      (trie_at self (field_path q) (key_of q))) self.
Proof.
  unfold extend_one, put, count, values_at, trie_at, key_of, token_of. destruct (fuzzy_params (term q)) as [[t d] p]. simpl fst.
  destruct (BTreeMap.get (field_path q) self) as [tries|]; [|simpl; by rewrite !sm_get_empty].
  destruct (BTreeMap.get (p, d) tries) as [a|]; [|by rewrite !sm_get_empty]. by destruct (sm_get t a).
Qed.

Lemma extend_one_ok value self q : tries_ok self -> tries_ok (extend_one value self q).
Proof.
  intros Hok. rewrite extend_one_put. apply tries_ok_put; [done|]. intros t m. rewrite sm_get_insert.
  case_decide; [|by apply Hok]. intros [= <-].
  destruct (values_at_ok self (field_path q) (key_of q) (token_of q) Hok). apply values_ok_insert; [done..|].
  pose proof (count_nonneg self (field_path q) (key_of q) (token_of q) value Hok). lia.
Qed.

(** Whether the query asks for this term. *)
Definition asks (q : TextQueryTermRead) path key token : Prop :=
  field_path q = path /\ key_of q = key /\ token_of q = token.

#[global] Instance asks_dec q path key token : Decision (asks q path key token).
Proof. unfold asks. solve_decision. Defined.

Definition occurrences (qs : list TextQueryTermRead) path key token : Z :=
  Z.of_nat (length (bfilter (fun q => bool_decide (asks q path key token)) qs)).

Lemma occurrences_cons q qs path key token :
  occurrences (q :: qs) path key token = (if decide (asks q path key token) then 1 else 0) + occurrences qs path key token.
Proof. unfold occurrences. simpl. case_bool_decide; case_decide; try done; simpl length; lia. Qed.

Lemma occurrences_pos qs path key token :
  1 <= occurrences qs path key token <-> exists q, q ∈ qs /\ asks q path key token.
Proof.
  induction qs as [|q qs IH]; [split; [done|by intros (? & ?%elem_of_nil & _)]|]. rewrite occurrences_cons.
  assert (0 <= occurrences qs path key token) by (unfold occurrences; lia). case_decide.
  - split; [|lia]. intros _. exists q. split; [left|done].
  - replace (0 + occurrences qs path key token) with (occurrences qs path key token) by lia. rewrite IH. split; intros (q' & Hq & Hasks); exists q'; (split; [|done]); [by right|].
    by apply elem_of_cons in Hq as [->|].
Qed.

Lemma values_at_put self path key token m path' key' token' :
  tries_ok self ->
  values_at (put path key (sm_insert token m (trie_at self path key)) self) path' key' token'
  = if decide (path' = path /\ key' = key /\ token' = token) then m else values_at self path' key' token'.
Proof.
  intros Hok. unfold values_at. rewrite trie_at_put by done. destruct (decide (path' = path /\ key' = key)) as [[-> ->]|Hne].
  - rewrite sm_get_insert. destruct (decide (token' = token)) as [->|]; [by rewrite decide_True by done|].
    by rewrite decide_False by tauto.
  - by rewrite decide_False by tauto.
Qed.

Lemma extend_one_count value self q path key token v :
  tries_ok self ->
  count (extend_one value self q) path key token v =
  count self path key token v + (if decide (asks q path key token /\ v = value) then 1 else 0).
Proof.
  intros Hok. rewrite extend_one_put. unfold count at 1. rewrite values_at_put by done.
  destruct (decide (path = field_path q /\ key = key_of q /\ token = token_of q)) as [(-> & -> & ->)|Hne].
  - rewrite BTreeMap.get_insert_if by by apply values_at_ok. destruct (decide (v = value)) as [->|Hv].
    + by rewrite decide_True by done.
    + rewrite decide_False by tauto. unfold count. lia.
  - rewrite decide_False by (intros [(? & ? & ?) _]; apply Hne; done). unfold count. lia.
Qed.

(** [extend] keeps the invariant and adds the occurrences of each term. *)
Lemma extend_spec value qs : forall self, tries_ok self ->
  tries_ok (extend self value qs) /\
  forall path key token v,
    count (extend self value qs) path key token v =
    count self path key token v + (if decide (v = value) then occurrences qs path key token else 0).
Proof.
  induction qs as [|q qs IH]; intros self Hok.
  - split; [done|]. intros path key token v. change (occurrences [] path key token) with 0. change (extend self value []) with self. case_decide; lia.
  - change (extend self value (q :: qs)) with (extend (extend_one value self q) value qs).
    destruct (IH _ (extend_one_ok value self q Hok)) as [Hok' Hc]. split; [done|]. intros path key token v.
    rewrite Hc, extend_one_count, occurrences_cons by done.
    repeat case_decide; try tauto; lia.
Qed.

Lemma put_present self path key token m :
  tries_ok self -> sm_get token (trie_at self path key) = Some m ->
  exists tries, BTreeMap.get path self = Some tries /\ BTreeMap.get key tries = Some (trie_at self path key).
Proof.
  intros _. unfold trie_at. destruct (BTreeMap.get path self) as [tries|] eqn:Hp; [|by rewrite sm_get_empty].
  destruct (BTreeMap.get key tries) eqn:Hk; [|by rewrite sm_get_empty]. eauto.
Qed.

Lemma values_at_put_remove self path key token path' key' token' :
  tries_ok self ->
  values_at (put path key (sm_remove token (trie_at self path key)) self) path' key' token'
  = if decide (path' = path /\ key' = key /\ token' = token) then [] else values_at self path' key' token'.
Proof.
  intros Hok. unfold values_at. rewrite trie_at_put by done. destruct (decide (path' = path /\ key' = key)) as [[-> ->]|Hne].
  - rewrite sm_get_remove. destruct (decide (token' = token)) as [->|]; [by rewrite decide_True by done|].
    by rewrite decide_False by tauto.
  - by rewrite decide_False by tauto.
Qed.

(** The values of a term after one removal. *)
Definition decremented (value : T) (c : Z) (m : BTreeMap.t T Z) : BTreeMap.t T Z :=
  let m := BTreeMap.insert value (c - 1) m in if c - 1 =? 0 then BTreeMap.remove value m else m.

Lemma decremented_spec value c m :
  BTreeMap.wf m -> (forall e, e ∈ m -> 1 <= e.2) -> 1 <= c ->
  BTreeMap.wf (decremented value c m) /\ (forall e, e ∈ decremented value c m -> 1 <= e.2) /\
  forall v, BTreeMap.get v (decremented value c m) =
    if decide (v = value) then (if decide (c = 1) then None else Some (c - 1)) else BTreeMap.get v m.
Proof.
  intros Hw Hpos Hc. unfold decremented. cbv zeta. assert (Hwi := BTreeMap.wf_insert m value (c - 1) Hw).
  destruct (Z.eqb_spec (c - 1) 0) as [Hz|Hz].
  - split; [by apply BTreeMap.wf_remove|]. split.
    + intros [v' c'] [Hne Hin]%BTreeMap.elem_of_remove; [|done].
      apply BTreeMap.elem_of_insert in Hin as [[-> ->]|[_ ?]]; [done|by apply (Hpos (v', c'))|done].
    + intros v. destruct (decide (v = value)) as [->|Hv].
      * rewrite BTreeMap.get_remove_eq, decide_True by (done || lia). done.
      * by rewrite BTreeMap.get_remove_ne, BTreeMap.get_insert_ne.
  - split; [done|]. split.
    + apply values_ok_insert; [done..|lia].
    + intros v. rewrite BTreeMap.get_insert_if by done. case_decide; [|done]. by rewrite decide_False by lia.
Qed.

(** Removing a recorded value: no panic, and the count drops by one. *)
Lemma remove_one_spec value self q :
  tries_ok self -> 1 <= count self (field_path q) (key_of q) (token_of q) value ->
  exists self', (forall E, remove_one (E := E) value self q = Ret self') /\ tries_ok self' /\
    forall path key token v,
      count self' path key token v =
      count self path key token v - (if decide (asks q path key token /\ v = value) then 1 else 0).
Proof.
  intros Hok Hc. destruct (values_at_ok self (field_path q) (key_of q) (token_of q) Hok) as [Hw Hpos].
  set (c := count self (field_path q) (key_of q) (token_of q) value) in *.
  set (m := values_at self (field_path q) (key_of q) (token_of q)) in *.
  assert (Hget : BTreeMap.get value m = Some c).
  { unfold c, count. fold m. unfold c, count in Hc. fold m in Hc. by destruct (BTreeMap.get value m); [|lia]. }
  destruct (decremented_spec value c m Hw Hpos Hc) as (Hdw & Hdp & Hdg).
  set (d := decremented value c m) in *.
  assert (Hsm : sm_get (token_of q) (trie_at self (field_path q) (key_of q)) = Some m).
  { unfold m, values_at in *. by destruct (sm_get (token_of q) _). }
  destruct (put_present self _ _ _ _ Hok Hsm) as (tries & Hp & Hk).
  set (art := match d with [] => sm_remove (token_of q) (trie_at self (field_path q) (key_of q))
              | _ => sm_insert (token_of q) d (trie_at self (field_path q) (key_of q)) end).
  exists (put (field_path q) (key_of q) art self). split; [|split].
  - intros E. unfold remove_one, put. rewrite Hp. unfold key_of, token_of in *.
    destruct (fuzzy_params (term q)) as [[t dist] p]. simpl in Hsm, Hk, art |- *. rewrite Hk. cbn [obind expect].
    rewrite Hsm. cbn [obind expect]. rewrite Hget. cbn [obind expect].
    rewrite (proj2 (Z.leb_le 1 c) Hc). done.
  - clear Hdg. apply tries_ok_put; [done|]. intros t m'. unfold art.
    assert (Hd : d <> [] -> values_ok d) by done.
    destruct d as [|e d'] eqn:Ed; [rewrite sm_get_remove|rewrite sm_get_insert]; (case_decide; [|by apply Hok]); [done|].
    intros [= <-]. by apply Hd.
  - intros path key token v. unfold count at 1.
    assert (Hv : values_at (put (field_path q) (key_of q) art self) path key token =
      if decide (path = field_path q /\ key = key_of q /\ token = token_of q) then d else values_at self path key token).
    { unfold art. destruct d; [by apply values_at_put_remove|by apply values_at_put]. }
    rewrite Hv. destruct (decide (path = field_path q /\ key = key_of q /\ token = token_of q)) as [(-> & -> & ->)|Hne].
    + rewrite Hdg. destruct (decide (v = value)) as [->|Hne].
      * rewrite (decide_True (P := asks q _ _ _ /\ _)) by done. fold c. case_decide; lia.
      * rewrite (decide_False (P := asks q _ _ _ /\ _)) by tauto. unfold count. fold m. lia.
    + rewrite decide_False by (intros [(? & ? & ?) _]; apply Hne; done). unfold count. lia.
Qed.

(** Removing a batch that was recorded: no panic, and every count drops by
    the number of occurrences. *)
Lemma remove_terms_spec value qs : forall self,
  tries_ok self ->
  (forall path key token, occurrences qs path key token <= count self path key token value) ->
  exists self', (forall E, remove_terms (E := E) self value qs = Ret self') /\ tries_ok self' /\
    forall path key token v,
      count self' path key token v =
      count self path key token v - (if decide (v = value) then occurrences qs path key token else 0).
Proof.
  induction qs as [|q qs IH]; intros self Hok Hle.
  - exists self. split; [done|]. split; [done|]. intros path key token v. change (occurrences [] path key token) with 0. change (extend self value []) with self. case_decide; lia.
  - destruct (remove_one_spec value self q Hok) as (s1 & Hr1 & Hok1 & Hc1).
    { specialize (Hle (field_path q) (key_of q) (token_of q)). rewrite occurrences_cons, decide_True in Hle by done.
      assert (0 <= occurrences qs (field_path q) (key_of q) (token_of q)) by (unfold occurrences; lia). lia. }
    destruct (IH s1 Hok1) as (s2 & Hr2 & Hok2 & Hc2).
    { intros path key token. specialize (Hle path key token). rewrite occurrences_cons in Hle. rewrite Hc1.
      repeat case_decide; try tauto; lia. }
    exists s2. split; [|split; [done|]].
    + intros E. unfold remove_terms. simpl. rewrite Hr1. apply Hr2.
    + intros path key token v. rewrite Hc2, Hc1, occurrences_cons. repeat case_decide; try tauto; lia.
Qed.

(** What a search of the tries finds. *)
Lemma elem_of_matching_values self tries path tokens v :
  tries_ok self -> BTreeMap.get path self = Some tries ->
  v ∈ matching_values tries tokens <->
  exists key token, token ∈ for_each_token tokens key.1 /\ 1 <= count self path key token v.
Proof.
  intros Hok Hg. assert (Hwt : BTreeMap.wf tries) by (by eapply Hok).
  unfold matching_values. rewrite list_elem_of_In, in_concat. setoid_rewrite in_map_iff. split.
  - intros (l & ([key art] & <- & Hin) & Hv). apply in_concat in Hv as (l' & Hl' & Hv).
    apply in_map_iff in Hl' as (token & <- & Ht). exists key, token. split; [by apply list_elem_of_In|].
    apply list_elem_of_In, BTreeMap.elem_of_get in Hin; [|done].
    apply elem_of_values_at; [done|]. unfold values_at, trie_at. rewrite Hg, Hin. cbn [snd] in Hv.
    unfold BTreeMap.t in *. apply list_elem_of_In. by destruct (sm_get token art).
  - intros (key & token & Ht & Hc). apply elem_of_values_at in Hc; [|done]. unfold values_at, trie_at in Hc.
    rewrite Hg in Hc. destruct (BTreeMap.get key tries) as [art|] eqn:Hk; [|rewrite sm_get_empty in Hc; by apply elem_of_nil in Hc].
    eexists. split; [exists (key, art); split; [done|]; by apply list_elem_of_In, BTreeMap.elem_of_get|].
    apply in_concat. eexists. split; [apply in_map_iff; exists token; split; [done|by apply list_elem_of_In]|].
    cbn [snd]. unfold BTreeMap.t in *. apply list_elem_of_In. by destruct (sm_get token art).
Qed.
End tries.

Arguments Tries M T : clear implicits.
Arguments SearchTermTries M T : clear implicits.

#[global] Instance unit_Ord : Ord unit := fun _ _ => Eq.
#[global] Instance unit_OrdLaws : OrdLaws unit.
Proof. constructor; intros; repeat match goal with u : unit |- _ => destruct u end; done. Qed.

(** A token of the text satisfies the term. *)
Definition term_matches (q : TextQueryTermRead) (tokens : SearchValueTokens) : Prop :=
  token_of q ∈ for_each_token tokens (key_of q).1.

(** ** The reads of one index ([QueryReads]) *)

Section query_reads.
Context {M : Type -> Type} `{StringMapLaws M}.
Context (sha256 : list Z -> list Z) (tokenize : list Z -> list (list Z)).

Record QueryReads := MkQueryReads {
  text_queries : list TextQueryTermRead;
  filter_conditions : list FilterConditionRead;
  fuzzy_terms : SearchTermTries M unit;
}.

Definition query_reads_new (text : list TextQueryTermRead) (filters : list FilterConditionRead) : QueryReads :=
  {| text_queries := text; filter_conditions := filters; fuzzy_terms := extend tries_new tt text |}.

Definition query_reads_empty : QueryReads :=
  {| text_queries := []; filter_conditions := []; fuzzy_terms := tries_new |}.

Definition query_reads_merge (self other : QueryReads) : QueryReads :=
  {| text_queries := text_queries self ++ text_queries other;
     filter_conditions := filter_conditions self ++ filter_conditions other;
     fuzzy_terms := extend (fuzzy_terms self) tt (text_queries other) |}.

(** The loop over the filters of [overlaps_document]. *)
Fixpoint document_passes {E} (filters : list FilterConditionRead) (document : PackedDocument) : outcome E bool :=
  match filters with
  | [] => Ret true
  | Must path filter_value :: filters =>
      let? document_value := from_search_value sha256 (open_path (value document) path) in
      if bool_decide (document_value = filter_value) then document_passes filters document else Ret false
  end.

Definition query_overlaps_document {E} (self : QueryReads) (document : PackedDocument) : outcome E bool :=
  let? pass := document_passes (filter_conditions self) document in
  Ret (if pass then
         match text_queries self with
         | [] => true
         | _ => terms_overlap_document tokenize (fuzzy_terms self) document
         end
       else false).

Definition query_overlaps_index_key (self : QueryReads) (v : SearchIndexKeyValue) : bool :=
  if forallb (fun '(Must path filter_value) =>
       match BTreeMap.get path (filter_values v) with
       | None => false
       | Some document_value => bool_decide (document_value = filter_value)
       end) (filter_conditions self)
  then match text_queries self with
       | [] => true
       | _ => terms_overlap_index_key (fuzzy_terms self) v
       end
  else false.

(** [fuzzy_terms] is derived from [text_queries]. *)
Definition derived (self : QueryReads) : Prop :=
  tries_ok (fuzzy_terms self) /\
  forall path key token, count (fuzzy_terms self) path key token tt = occurrences (text_queries self) path key token.

Lemma tries_new_ok {T} `{OrdLaws T} : tries_ok (M := M) (T := T) tries_new.
Proof. split; [done|]. split; [done|]. intros path key token m. cbn. by rewrite sm_get_empty. Qed.

Lemma count_new {T} `{OrdLaws T} path key token v : count (M := M) (T := T) tries_new path key token v = 0.
Proof. unfold count, values_at. cbn [trie_at tries_new BTreeMap.get]. unfold trie_at. simpl. by rewrite sm_get_empty. Qed.

Lemma occurrences_app l k path key token :
  occurrences (l ++ k) path key token = occurrences l path key token + occurrences k path key token.
Proof. unfold occurrences. rewrite bfilter_app, length_app. lia. Qed.

Lemma derived_new text filters : derived (query_reads_new text filters).
Proof.
  destruct (extend_spec tt text tries_new tries_new_ok) as [Hok Hc]. split; [done|]. intros path key token. simpl.
  rewrite Hc, count_new, decide_True by done. lia.
Qed.

Lemma derived_empty : derived query_reads_empty.
Proof. apply (derived_new [] []). Qed.

Lemma derived_merge self other : derived self -> derived (query_reads_merge self other).
Proof.
  intros [Hok Hc]. destruct (extend_spec tt (text_queries other) (fuzzy_terms self) Hok) as [Hok' Hc']. split; [done|].
  intros path key token. simpl. rewrite Hc', Hc, decide_True, occurrences_app by done. lia.
Qed.

(** What the tries of a derived read set find on one field. *)
Lemma derived_matching self path tries tokens :
  derived self -> BTreeMap.get path (fuzzy_terms self) = Some tries ->
  (match matching_values tries tokens with [] => false | _ => true end) = true <->
  exists q, q ∈ text_queries self /\ field_path q = path /\ term_matches q tokens.
Proof.
  intros [Hok Hc] Hg. transitivity (tt ∈ matching_values tries tokens).
  - destruct (matching_values tries tokens) as [|[] l]; split; try done; [by intros ?%elem_of_nil|left].
  - rewrite (elem_of_matching_values _ _ _ _ _ Hok Hg). setoid_rewrite Hc. setoid_rewrite occurrences_pos. split.
    + intros (key & token & Ht & q & Hq & Hp & <- & <-). eauto.
    + intros (q & Hq & Hp & Ht). exists (key_of q), (token_of q). split; [done|]. exists q. done.
Qed.

Lemma derived_present self q :
  derived self -> q ∈ text_queries self -> exists tries, BTreeMap.get (field_path q) (fuzzy_terms self) = Some tries.
Proof.
  intros [Hok Hc] Hq. assert (Hpos : 1 <= count (fuzzy_terms self) (field_path q) (key_of q) (token_of q) tt).
  { rewrite Hc. apply occurrences_pos. exists q. done. }
  unfold count, values_at, trie_at in Hpos. destruct (BTreeMap.get (field_path q) (fuzzy_terms self)); [eauto|].
  rewrite sm_get_empty in Hpos. simpl in Hpos. lia.
Qed.

Lemma terms_overlap_index_key_spec self v :
  derived self ->
  terms_overlap_index_key (fuzzy_terms self) v = true <->
  exists tokens q, search_field_value v = Some tokens /\ q ∈ text_queries self /\
    field_path q = search_field v /\ term_matches q tokens.
Proof.
  intros Hd. unfold terms_overlap_index_key. destruct (search_field_value v) as [tokens|]; [|naive_solver].
  destruct (BTreeMap.get (search_field v) (fuzzy_terms self)) as [tries|] eqn:Hg.
  - rewrite (derived_matching _ _ _ _ Hd Hg). naive_solver.
  - split; [done|]. intros (_ & q & _ & Hq & Hp & _). destruct (derived_present self q Hd Hq) as [? Hg']. congruence.
Qed.

Lemma terms_overlap_document_spec self d :
  derived self ->
  terms_overlap_document tokenize (fuzzy_terms self) d = true <->
  exists text q, q ∈ text_queries self /\ open_path (value d) (field_path q) = Some (String text) /\
    term_matches q (tokenize text).
Proof.
  intros Hd. assert (Hw : BTreeMap.wf (fuzzy_terms self)) by apply Hd. unfold terms_overlap_document.
  rewrite existsb_elem. split.
  - intros ([path tries] & Hin & Hm). cbn [fst snd] in Hm. apply BTreeMap.elem_of_get in Hin; [|done].
    destruct (open_path (value d) path) as [[]|] eqn:Ho; try done.
    apply (derived_matching _ _ _ _ Hd Hin) in Hm as (q & Hq & <- & Hm). eauto.
  - intros (text & q & Hq & Ho & Hm). destruct (derived_present self q Hd Hq) as [tries Hg].
    exists (field_path q, tries). split; [by apply BTreeMap.elem_of_get|]. cbn [fst snd]. rewrite Ho.
    apply (derived_matching _ _ _ _ Hd Hg). eauto.
Qed.

Lemma query_overlaps_index_key_spec self v :
  derived self ->
  query_overlaps_index_key self v = true <->
  (forall path fv, Must path fv ∈ filter_conditions self -> BTreeMap.get path (filter_values v) = Some fv) /\
  (text_queries self = [] \/
   exists tokens q, search_field_value v = Some tokens /\ q ∈ text_queries self /\
     field_path q = search_field v /\ term_matches q tokens).
Proof.
  intros Hd. unfold query_overlaps_index_key. rewrite <- (terms_overlap_index_key_spec self v Hd).
  set (filters := forallb _ _).
  assert (Hf : filters = true <->
    forall path fv, Must path fv ∈ filter_conditions self -> BTreeMap.get path (filter_values v) = Some fv).
  { unfold filters. rewrite forallb_elem. split.
    - intros Hall path fv Hin. specialize (Hall _ Hin). simpl in Hall.
      destruct (BTreeMap.get path (filter_values v)); [|done]. apply bool_decide_eq_true in Hall. congruence.
    - intros Hall [path fv] Hin. rewrite (Hall _ _ Hin). by apply bool_decide_eq_true. }
  rewrite <- Hf. destruct filters, (text_queries self); naive_solver.
Qed.

(** The loop over the filters, for storable documents. *)
Lemma document_passes_spec filters d :
  good_doc d ->
  exists b, (forall E, document_passes (E := E) filters d = Ret b) /\
    (b = true <-> forall path fv, Must path fv ∈ filters -> from_search_value sha256 (E := False) (open_path (value d) path) = Ret fv).
Proof.
  intros Hd. induction filters as [|[path fv] filters (b & Hb & Hspec)].
  { exists true. split; [done|]. split; [|done]. by intros _ path fv ?%elem_of_nil. }
  destruct (from_search_value_ret sha256 (open_path (value d) path)) as (v & Hv); [apply open_path_good, Hd|].
  destruct (decide (v = fv)) as [->|Hne].
  - exists b. split; [intros E; simpl; rewrite Hv; cbn [obind]; by rewrite bool_decide_true|].
    rewrite Hspec. setoid_rewrite elem_of_cons. split; [|eauto]. intros Hall p w [[= -> ->]|Hin]; [apply Hv|by apply Hall].
  - exists false. split; [intros E; simpl; rewrite Hv; cbn [obind]; by rewrite bool_decide_false|].
    split; [done|]. intros Hall. specialize (Hall path fv ltac:(left)). rewrite Hv in Hall. congruence.
Qed.

(** On the search key that the registry derives from a document,
    [overlaps_search_index_key_value] answers as [overlaps_document] does on
    the document, for reads that ask for the index's own fields. *)
Lemma query_overlaps_agree_aux self d sf ff s :
  derived self -> good_doc d ->
  (forall path fv, Must path fv ∈ filter_conditions self -> path ∈ ff) ->
  (forall q, q ∈ text_queries self -> field_path q = sf) ->
  exists v, (forall E, index_key_value sha256 tokenize (E := E) d (Text sf ff s) = Ret (Some (Search v))) /\
    forall E, query_overlaps_document (E := E) self d = Ret (query_overlaps_index_key self v).
Proof.
  intros Hder Hd Hff Hsf. destruct (filter_values_ok sha256 d ff Hd) as (m & Hm & Hget).
  eexists. split; [intros E; cbn [index_key_value]; rewrite Hm; reflexivity|]. cbn [obind].
  set (v := {| filter_values := m; search_field := sf; search_field_value := _ |}).
  destruct (document_passes_spec (filter_conditions self) d Hd) as (b & Hb & Hspec).
  intros E. unfold query_overlaps_document. rewrite Hb. cbn [obind]. f_equal. apply eq_true_iff_eq.
  rewrite (query_overlaps_index_key_spec self v Hder).
  assert (Hfilters : b = true <->
    forall path fv, Must path fv ∈ filter_conditions self -> BTreeMap.get path (filter_values v) = Some fv).
  { rewrite Hspec. split; intros Hall path fv Hin; specialize (Hall path fv Hin);
      by apply (Hget path fv (Hff _ _ Hin)). }
  assert (Hterms : terms_overlap_document tokenize (fuzzy_terms self) d = true <->
    exists tokens q, search_field_value v = Some tokens /\ q ∈ text_queries self /\
      field_path q = search_field v /\ term_matches q tokens).
  { rewrite (terms_overlap_document_spec self d Hder). split.
    - intros (text & q & Hq & Ho & Hm'). rewrite (Hsf q Hq) in Ho. exists (tokenize text), q.
      unfold v. cbn [search_field_value search_field]. rewrite Ho. split_and!; [done..|by apply Hsf|done].
    - intros (tokens & q & Hv & Hq & Hp & Hm'). unfold v in Hv, Hp. cbn [search_field_value search_field] in Hv, Hp.
      destruct (open_path (value d) sf) as [[]|] eqn:Ho; try done. injection Hv as <-.
      exists s0, q. split_and!; [done|by rewrite Hp|done]. }
  rewrite <- Hfilters, <- Hterms. destruct b, (text_queries self); naive_solver.
Qed.
End query_reads.

Arguments QueryReads M : clear implicits.

(** ** Text search subscriptions ([TextSearchSubscriptions]) *)

Section subscriptions.
Context {M : Type -> Type} `{StringMapLaws M}.

Notation SubscriberId := Z (only parsing).

Record TextSearchSubscriptions := MkTextSubs {
  fuzzy_searches : BTreeMap.t (list Z * list Z) (SearchTermTries M SubscriberId);
  subs_filter_conditions : BTreeMap.t (list Z * list Z) (BTreeMap.t SubscriberId (list FilterConditionRead));
}.

Definition text_subs_new : TextSearchSubscriptions := {| fuzzy_searches := []; subs_filter_conditions := [] |}.

(** [filter_len] and [fuzzy_len]. *)
Definition filter_len (self : TextSearchSubscriptions) : nat :=
  fold_right (fun m n => length m.2 + n)%nat 0%nat (subs_filter_conditions self).
Definition fuzzy_len (self : TextSearchSubscriptions) : nat := length (fuzzy_searches self).

Definition text_subs_insert (self : TextSearchSubscriptions) (id : SubscriberId) (index : TabletIndexName)
    (reads : QueryReads M) : TextSearchSubscriptions :=
  let conditions := default [] (BTreeMap.get index (subs_filter_conditions self)) in
  let of_id := default [] (BTreeMap.get id conditions) in
  let terms := default tries_new (BTreeMap.get index (fuzzy_searches self)) in
  {| subs_filter_conditions :=
       BTreeMap.insert index (BTreeMap.insert id (of_id ++ filter_conditions reads) conditions)
         (subs_filter_conditions self);
     fuzzy_searches := BTreeMap.insert index (extend terms id (text_queries reads)) (fuzzy_searches self) |}.

Definition text_subs_remove {E} (self : TextSearchSubscriptions) (id : SubscriberId) (index : TabletIndexName)
    (reads : QueryReads M) : outcome E TextSearchSubscriptions :=
  let? conditions := expect (BTreeMap.get index (subs_filter_conditions self)) in
  let? _ := expect (BTreeMap.get id conditions) in
  let conditions := BTreeMap.remove id conditions in
  let filters := match conditions with
                 | [] => BTreeMap.remove index (subs_filter_conditions self)
                 | _ => BTreeMap.insert index conditions (subs_filter_conditions self)
                 end in
  let? terms := expect (BTreeMap.get index (fuzzy_searches self)) in
  let? terms := remove_terms terms id (text_queries reads) in
  Ret {| subs_filter_conditions := filters; fuzzy_searches := BTreeMap.insert index terms (fuzzy_searches self) |}.

(** The subscribers [notify] is called with, in order. *)
Definition filter_conditions_matches (self : TextSearchSubscriptions) (document_id : ResolvedDocumentId)
    (keys : DocumentIndexKeys) : list SubscriberId :=
  concat (map (fun e : (list Z * list Z) * BTreeMap.t Z (list FilterConditionRead) =>
    if bool_decide (e.1.1 = tablet_id document_id) then
      match BTreeMap.get e.1 keys with
      | Some (Search v) =>
          concat (map (fun '(subscriber_id, conditions) =>
            filter_map (fun '(Must path filter_value) =>
              match BTreeMap.get path (filter_values v) with
              | Some document_value =>
                  if bool_decide (document_value = filter_value) then Some subscriber_id else None
              | None => None
              end) conditions) e.2)
      | _ => []
      end
    else []) (subs_filter_conditions self)).

Definition fuzzy_matches (self : TextSearchSubscriptions) (document_id : ResolvedDocumentId)
    (keys : DocumentIndexKeys) : list SubscriberId :=
  concat (map (fun e : (list Z * list Z) * SearchTermTries M Z =>
    match BTreeMap.get e.1 keys with
    | Some (Search v) =>
        match search_field_value v with
        | Some tokens =>
            match BTreeMap.get (search_field v) e.2 with
            | Some tries => matching_values tries tokens
            | None => []
            end
        | None => []
        end
    | _ => []
    end)
    (bfilter (fun e => bool_decide (e.1.1 = tablet_id document_id)) (fuzzy_searches self))).

Definition add_matches (self : TextSearchSubscriptions) (document_id : ResolvedDocumentId)
    (keys : DocumentIndexKeys) : list SubscriberId :=
  filter_conditions_matches self document_id keys ++ fuzzy_matches self document_id keys.

(** *** Abstract state: the reads each subscriber has on each index. *)

Definition Subs := (list Z * list Z) -> Z -> option (QueryReads M).

Definition subs_put (A : Subs) (index : list Z * list Z) (id : Z) (r : option (QueryReads M)) : Subs :=
  fun index' id' => if decide (index' = index /\ id' = id) then r else A index' id'.

Definition conditions_of (S : TextSearchSubscriptions) index id : option (list FilterConditionRead) :=
  match BTreeMap.get index (subs_filter_conditions S) with Some m => BTreeMap.get id m | None => None end.

Definition terms_of (S : TextSearchSubscriptions) index : SearchTermTries M Z :=
  default tries_new (BTreeMap.get index (fuzzy_searches S)).

Record subs_ok (S : TextSearchSubscriptions) (A : Subs) : Prop := {
  subs_wf_filters : BTreeMap.wf (subs_filter_conditions S);
  subs_wf_fuzzy : BTreeMap.wf (fuzzy_searches S);
  subs_wf_inner : forall index m, BTreeMap.get index (subs_filter_conditions S) = Some m -> BTreeMap.wf m;
  subs_tries : forall index, tries_ok (terms_of S index);
  subs_filters : forall index id, conditions_of S index id = option_map filter_conditions (A index id);
  subs_present : forall index id, A index id <> None -> BTreeMap.get index (fuzzy_searches S) <> None;
  subs_counts : forall index id path key token,
    count (terms_of S index) path key token id =
    match A index id with Some r => occurrences (text_queries r) path key token | None => 0 end;
}.

Lemma subs_ok_new : subs_ok text_subs_new (fun _ _ => None).
Proof.
  constructor; try done.
  - intros index. apply tries_new_ok.
  - intros. apply count_new.
Qed.

Lemma conditions_wf S A index : subs_ok S A -> BTreeMap.wf (default [] (BTreeMap.get index (subs_filter_conditions S))).
Proof. intros HS. destruct (BTreeMap.get index _) eqn:Hg; [by eapply subs_wf_inner|done]. Qed.

Lemma terms_of_insert S f index index' t :
  BTreeMap.wf (fuzzy_searches S) ->
  terms_of {| fuzzy_searches := BTreeMap.insert index t (fuzzy_searches S); subs_filter_conditions := f |} index'
  = if decide (index' = index) then t else terms_of S index'.
Proof. intros Hw. unfold terms_of. simpl. rewrite BTreeMap.get_insert_if by done. by case_decide. Qed.

Lemma subs_insert_ok S A id index reads :
  subs_ok S A -> A index id = None -> subs_ok (text_subs_insert S id index reads) (subs_put A index id (Some reads)).
Proof.
  intros HS Hnone. pose proof (conditions_wf S A index HS) as Hcw. destruct (HS) as [Hwf Hwz Hin Htr Hfi Hpr Hco].
  unfold text_subs_insert. fold (terms_of S index).
  destruct (extend_spec id (text_queries reads) (terms_of S index) (Htr index)) as [Hok Hcount].
  constructor; simpl.
  - by apply BTreeMap.wf_insert.
  - by apply BTreeMap.wf_insert.
  - intros i m. rewrite BTreeMap.get_insert_if by done. case_decide; [|by eapply Hin]. intros [= <-]. by apply BTreeMap.wf_insert.
  - intros i. rewrite terms_of_insert by done. by case_decide.
  - intros i id'. unfold conditions_of, subs_put. simpl. rewrite BTreeMap.get_insert_if by done.
    specialize (Hfi i id'). unfold conditions_of in Hfi. destruct (decide (i = index)) as [->|Hi].
    2:{ by rewrite (decide_False (P := i = index /\ _)) by tauto. }
    rewrite BTreeMap.get_insert_if by done. destruct (decide (id' = id)) as [->|Hid].
    + rewrite (decide_True (P := index = index /\ _)) by done. rewrite Hnone in Hfi.
      destruct (BTreeMap.get index (subs_filter_conditions S)); simpl in *; [by rewrite Hfi|done].
    + rewrite (decide_False (P := index = index /\ _)) by tauto. rewrite <- Hfi.
      by destruct (BTreeMap.get index (subs_filter_conditions S)).
  - intros i id'. unfold subs_put. rewrite BTreeMap.get_insert_if by done. intros Ha.
    destruct (decide (i = index)) as [->|Hi]; [done|]. rewrite decide_False in Ha by tauto. by apply (Hpr i id').
  - intros i id' path key token. rewrite terms_of_insert by done. unfold subs_put.
    destruct (decide (i = index)) as [->|Hi]; [|by rewrite decide_False by tauto].
    rewrite Hcount, Hco. destruct (decide (id' = id)) as [->|Hid].
    + rewrite decide_True, Hnone by done. lia.
    + rewrite decide_False by tauto. lia.
Qed.

(** The filter map after dropping a subscriber. *)
Lemma conditions_of_dropped (fc : BTreeMap.t (list Z * list Z) (BTreeMap.t Z (list FilterConditionRead))) m index id index' id' :
  BTreeMap.wf fc -> BTreeMap.wf m -> BTreeMap.get index fc = Some m ->
  let fc' := match BTreeMap.remove id m with
             | [] => BTreeMap.remove index fc
             | _ => BTreeMap.insert index (BTreeMap.remove id m) fc
             end in
  BTreeMap.wf fc' /\
  match BTreeMap.get index' fc' with Some m => BTreeMap.get id' m | None => None end =
  if decide (index' = index /\ id' = id) then None
  else match BTreeMap.get index' fc with Some m => BTreeMap.get id' m | None => None end.
Proof.
  intros Hf Hm Hg fc'. split; [unfold fc'; destruct (BTreeMap.remove id m); [by apply BTreeMap.wf_remove|by apply BTreeMap.wf_insert]|].
  destruct (decide (index' = index)) as [->|Hi].
  - rewrite Hg. assert (Hfc : match BTreeMap.get index fc' with Some m => BTreeMap.get id' m | None => None end
      = BTreeMap.get id' (BTreeMap.remove id m)).
    { unfold fc'. destruct (BTreeMap.remove id m); [by rewrite BTreeMap.get_remove_eq|by rewrite BTreeMap.get_insert_eq]. }
    rewrite Hfc. destruct (decide (id' = id)) as [->|Hid].
    + rewrite decide_True by done. by apply BTreeMap.get_remove_eq.
    + rewrite decide_False by tauto. by apply BTreeMap.get_remove_ne.
  - rewrite decide_False by tauto. unfold fc'.
    destruct (BTreeMap.remove id m); [by rewrite BTreeMap.get_remove_ne|by rewrite BTreeMap.get_insert_ne].
Qed.

Lemma get_dropped_wf (fc : BTreeMap.t (list Z * list Z) (BTreeMap.t Z (list FilterConditionRead))) m index id index' m' :
  BTreeMap.wf fc -> BTreeMap.get index fc = Some m ->
  (forall i m, BTreeMap.get i fc = Some m -> BTreeMap.wf m) ->
  BTreeMap.get index' (match BTreeMap.remove id m with
             | [] => BTreeMap.remove index fc
             | _ => BTreeMap.insert index (BTreeMap.remove id m) fc
             end) = Some m' -> BTreeMap.wf m'.
Proof.
  intros Hf Hg Hall. assert (Hm : BTreeMap.wf (BTreeMap.remove id m)) by (apply BTreeMap.wf_remove; by eapply Hall).
  destruct (BTreeMap.remove id m) as [|e l] eqn:Er.
  - intros Hget. eapply Hall. by eapply BTreeMap.get_remove_Some.
  - rewrite BTreeMap.get_insert_if by done. case_decide; [|by apply Hall]. by intros [= <-].
Qed.

Lemma subs_remove_ok S A id index reads :
  subs_ok S A -> A index id = Some reads ->
  exists S', (forall E, text_subs_remove (E := E) S id index reads = Ret S') /\ subs_ok S' (subs_put A index id None).
Proof.
  intros HS Hsome. destruct (HS) as [Hwf Hwz Hin Htr Hfi Hpr Hco].
  assert (Hfs := Hfi index id). rewrite Hsome in Hfs. unfold conditions_of in Hfs. simpl in Hfs.
  destruct (BTreeMap.get index (subs_filter_conditions S)) as [m|] eqn:Hm; [|done].
  assert (Hz : exists terms, BTreeMap.get index (fuzzy_searches S) = Some terms).
  { destruct (BTreeMap.get index (fuzzy_searches S)) eqn:Hg; [eauto|]. exfalso. apply (Hpr index id); [by rewrite Hsome|done]. }
  destruct Hz as [terms Hterms].
  assert (Ht : terms_of S index = terms) by (unfold terms_of; by rewrite Hterms).
  destruct (remove_terms_spec id (text_queries reads) (terms_of S index) (Htr index)) as (terms' & Hrem & Hok & Hcount).
  { intros path key token. rewrite Hco, Hsome. lia. }
  eexists. split.
  { intros E. unfold text_subs_remove. rewrite Hm. cbn [expect obind]. rewrite Hfs. cbn [expect obind].
    rewrite Hterms. cbn [expect obind]. rewrite <- Ht, Hrem. cbn [obind]. reflexivity. }
  constructor; simpl.
  - by eapply (conditions_of_dropped _ m index id index id); [done|by eapply Hin|].
  - by apply BTreeMap.wf_insert.
  - intros i m'. by apply (get_dropped_wf _ m).
  - intros i. rewrite terms_of_insert by done. by case_decide.
  - intros i id'. unfold conditions_of, subs_put. simpl.
    destruct (conditions_of_dropped _ m index id i id' Hwf (Hin _ _ Hm) Hm) as [_ ->].
    destruct (decide (i = index /\ id' = id)); [done|]. apply Hfi.
  - intros i id'. unfold subs_put. rewrite BTreeMap.get_insert_if by done.
    destruct (decide (i = index)) as [->|Hi]; [done|]. rewrite decide_False by tauto. apply Hpr.
  - intros i id' path key token. rewrite terms_of_insert by done. unfold subs_put.
    destruct (decide (i = index)) as [->|Hi]; [|by rewrite decide_False by tauto].
    rewrite Hcount, Hco. destruct (decide (id' = id)) as [->|Hid].
    + rewrite (decide_True (P := index = index /\ _)), Hsome by done. lia.
    + rewrite (decide_False (P := index = index /\ _)) by tauto. lia.
Qed.

Lemma elem_of_fuzzy_matches S A document_id keys id :
  subs_ok S A ->
  id ∈ fuzzy_matches S document_id keys <->
  exists index v tokens q reads, index.1 = tablet_id document_id /\ BTreeMap.get index keys = Some (Search v) /\
    search_field_value v = Some tokens /\ A index id = Some reads /\ q ∈ text_queries reads /\
    field_path q = search_field v /\ term_matches q tokens.
Proof.
  intros [Hwf Hwz Hin Htr Hfi Hpr Hco]. unfold fuzzy_matches. rewrite list_elem_of_In, in_concat.
  setoid_rewrite in_map_iff. setoid_rewrite <- list_elem_of_In. setoid_rewrite elem_of_bfilter. split.
  - intros (l & ([index terms] & <- & He & Ht%bool_decide_eq_true) & Hid). simpl in Ht, Hid.
    apply BTreeMap.elem_of_get in He; [|done].
    destruct (BTreeMap.get index keys) as [[|v]|] eqn:Hk; try by apply elem_of_nil in Hid.
    destruct (search_field_value v) as [tokens|] eqn:Hsv; [|by apply elem_of_nil in Hid].
    destruct (BTreeMap.get (search_field v) terms) as [tries|] eqn:Htr'; [|by apply elem_of_nil in Hid].
    assert (Heq : terms_of S index = terms) by (unfold terms_of; by rewrite He).
    rewrite <- Heq in Htr'. apply (elem_of_matching_values _ _ _ _ _ (Htr index) Htr') in Hid as (key & token & Htok & Hc).
    rewrite Hco in Hc. destruct (A index id) as [reads|] eqn:HA; [|lia].
    apply occurrences_pos in Hc as (q & Hq & Hp & <- & <-). exists index, v, tokens, q, reads. done.
  - intros (index & v & tokens & q & reads & Ht & Hk & Hsv & HA & Hq & Hp & Hm).
    destruct (BTreeMap.get index (fuzzy_searches S)) as [terms|] eqn:Hg; [|by destruct (Hpr index id); [rewrite HA|]].
    assert (Heq : terms_of S index = terms) by (unfold terms_of; by rewrite Hg).
    assert (Hc : 1 <= count (terms_of S index) (search_field v) (key_of q) (token_of q) id).
    { rewrite Hco, HA. apply occurrences_pos. exists q. done. }
    eexists. split; [exists (index, terms); split; [done|]; split; [by apply BTreeMap.elem_of_get|by apply bool_decide_eq_true]|].
    simpl. rewrite Hk, Hsv, <- Heq.
    destruct (BTreeMap.get (search_field v) (terms_of S index)) as [tries|] eqn:Htr'.
    + apply (elem_of_matching_values _ _ _ _ _ (Htr index) Htr'). eauto.
    + unfold count, values_at, trie_at in Hc. rewrite Htr', sm_get_empty in Hc. simpl in Hc. lia.
Qed.

Lemma elem_of_filter_matches S A document_id keys id :
  subs_ok S A ->
  id ∈ filter_conditions_matches S document_id keys <->
  exists index v path fv reads, index.1 = tablet_id document_id /\ BTreeMap.get index keys = Some (Search v) /\
    A index id = Some reads /\ Must path fv ∈ filter_conditions reads /\ BTreeMap.get path (filter_values v) = Some fv.
Proof.
  intros [Hwf Hwz Hin Htr Hfi Hpr Hco]. unfold filter_conditions_matches. rewrite list_elem_of_In, in_concat.
  setoid_rewrite in_map_iff. setoid_rewrite <- list_elem_of_In. split.
  - intros (l & ([index m] & <- & He) & Hid). simpl in Hid. apply BTreeMap.elem_of_get in He; [|done].
    case_bool_decide as Ht; [|by apply elem_of_nil in Hid].
    destruct (BTreeMap.get index keys) as [[|v]|] eqn:Hk; try by apply elem_of_nil in Hid.
    apply list_elem_of_In, in_concat in Hid as (l & Hl & Hid). apply in_map_iff in Hl as ([id' conds] & <- & Hic).
    apply list_elem_of_In, elem_of_filter_map in Hid as ([path fv] & Hcond & Hm).
    destruct (BTreeMap.get path (filter_values v)) as [dv|] eqn:Hdv; [|done]. case_bool_decide; [|done]. simplify_eq.
    apply list_elem_of_In, BTreeMap.elem_of_get in Hic; [|by eapply Hin].
    specialize (Hfi index id). unfold conditions_of in Hfi. rewrite He, Hic in Hfi.
    destruct (A index id) as [reads|] eqn:HA; [|done]. simpl in Hfi. simplify_eq.
    exists index, v, path, fv, reads. done.
  - intros (index & v & path & fv & reads & Ht & Hk & HA & Hcond & Hv).
    specialize (Hfi index id). unfold conditions_of in Hfi. rewrite HA in Hfi. simpl in Hfi.
    destruct (BTreeMap.get index (subs_filter_conditions S)) as [m|] eqn:Hm; [|done].
    eexists. split; [exists (index, m); split; [done|]; by apply BTreeMap.elem_of_get|]. simpl.
    rewrite bool_decide_true, Hk by done. apply list_elem_of_In, in_concat. eexists. split.
    + apply in_map_iff. exists (id, filter_conditions reads). split; [done|].
      apply list_elem_of_In, BTreeMap.elem_of_get; [by eapply Hin|done].
    + apply list_elem_of_In, elem_of_filter_map. exists (Must path fv). split; [done|]. by rewrite Hv, bool_decide_true.
Qed.
Lemma subs_notify S A document_id keys id :
  subs_ok S A ->
  (forall index reads v,
     A index id = Some reads -> derived reads -> index.1 = tablet_id document_id ->
     BTreeMap.get index keys = Some (Search v) -> query_overlaps_index_key reads v = true ->
     filter_conditions reads <> [] \/ text_queries reads <> [] ->
     id ∈ add_matches S document_id keys) /\
  (id ∈ add_matches S document_id keys ->
     exists index reads, A index id = Some reads /\ index.1 = tablet_id document_id /\ BTreeMap.get index keys <> None).
Proof.
  intros HS. unfold add_matches.
  setoid_rewrite elem_of_app. setoid_rewrite (elem_of_fuzzy_matches S A _ _ _ HS).
  setoid_rewrite (elem_of_filter_matches S A _ _ _ HS). split.
  - intros index reads v HA Hd Ht Hk Ho Hne. apply (query_overlaps_index_key_spec _ _ Hd) in Ho as [Hf Htext].
    destruct (filter_conditions reads) as [|[path fv] l] eqn:Hfc.
    + right. destruct Hne as [|Hne]; [done|]. destruct Htext as [|(tokens & q & ? & ? & ? & ?)]; [done|].
      exists index, v, tokens, q, reads. done.
    + left. exists index, v, path, fv, reads. rewrite Hfc. split_and!; try done; [left|apply Hf; left].
  - intros [(index & v & path & fv & reads & ? & Hk & ? & _)|(index & v & tokens & q & reads & ? & Hk & _ & ? & _)];
      exists index, reads; by rewrite Hk.
Qed.

(** [subs_ok] depends on the abstract state pointwise. *)
Lemma subs_ok_ext S A A' : (forall index id, A index id = A' index id) -> subs_ok S A -> subs_ok S A'.
Proof.
  intros Heq [Hwf Hwz Hin Htr Hfi Hpr Hco]. constructor; try done.
  - intros index id. by rewrite <- Heq.
  - intros index id. rewrite <- Heq. apply Hpr.
  - intros index id path key token. rewrite <- Heq. apply Hco.
Qed.
End subscriptions.

(** ** Theorems *)

(** The derived tries of a read set do not change its meaning: reads made
    with [QueryReads::new] overlap a search index key exactly when every filter
    condition holds of the key and, if there are text queries, one of them asks
    for the indexed field and a token (or, for prefix terms, a prefix of a
    token) of its text. *)
Theorem query_reads_overlap_exact {M} `{StringMapLaws M} (text : list TextQueryTermRead)
    (filters : list FilterConditionRead) (v : SearchIndexKeyValue) :
  query_overlaps_index_key (M := M) (query_reads_new text filters) v = true <->
  (forall path fv, Must path fv ∈ filters -> BTreeMap.get path (filter_values v) = Some fv) /\
  (text = [] \/
   exists tokens q t, search_field_value v = Some tokens /\ q ∈ text /\ field_path q = search_field v /\
     t ∈ tokens /\
     match term q with
     | Exact token => token = t
     | Fuzzy token _ prefix => token = t \/ prefix = true /\ char_prefix t token
     end).
Proof.
  rewrite (query_overlaps_index_key_spec _ v (derived_new text filters)). cbn [filter_conditions text_queries query_reads_new].
  apply and_iff_compat_l, or_iff_compat_l.
  assert (Hm : forall q tokens, term_matches q tokens <-> exists t, t ∈ tokens /\
     match term q with
     | Exact token => token = t
     | Fuzzy token _ prefix => token = t \/ prefix = true /\ char_prefix t token
     end).
  { intros q tokens. unfold term_matches, key_of, token_of. destruct (term q) as [token|token d []]; simpl.
    - naive_solver.
    - rewrite calculate_prefixes_spec. naive_solver.
    - naive_solver. }
  setoid_rewrite Hm. naive_solver.
Qed.

Lemma query_reads_overlap_exact_witness :
  query_overlaps_index_key (M := fun V => list (list Z * V))
    (query_reads_new [MkTermRead [[97]] (Fuzzy [104] 0 true)] [Must [[98]] [1]])
    {| filter_values := [([[98]], [1])]; search_field := [[97]]; search_field_value := Some [[104; 105]] |} = true.
Proof.
  apply query_reads_overlap_exact. split.
  - intros path fv Hin. apply list_elem_of_singleton in Hin. by injection Hin as -> ->.
  - right. exists [[104; 105]], (MkTermRead [[97]] (Fuzzy [104] 0 true)), [104; 105].
    split; [done|]. split; [left|]. split; [done|]. split; [left|]. right. split; [done|]. exists 1%nat.
    split; [left|done].
Defined.

(** Checking a read set against the search key that the index registry
    derives from a document gives the same answer as checking it against the
    document itself, when the reads use the index's own fields. *)
Theorem query_reads_agree {M} `{StringMapLaws M} (sha256 : list Z -> list Z) (tokenize : list Z -> list (list Z))
    (text : list TextQueryTermRead) (filters : list FilterConditionRead) (d : PackedDocument)
    (sf : FieldPath) (ff : list FieldPath) (s : OnDiskState) :
  good_doc d ->
  (forall path fv, Must path fv ∈ filters -> path ∈ ff) ->
  (forall q, q ∈ text -> field_path q = sf) ->
  exists v, (forall E, index_key_value sha256 tokenize (E := E) d (Text sf ff s) = Ret (Some (Search v))) /\
    forall E, query_overlaps_document (M := M) sha256 tokenize (E := E) (query_reads_new text filters) d
              = Ret (query_overlaps_index_key (M := M) (query_reads_new text filters) v).
Proof. intros. apply query_overlaps_agree_aux; [apply derived_new|done..]. Qed.

Lemma query_reads_agree_witness :
  exists v, (forall E, index_key_value (fun b => b) (fun t => [t]) (E := E)
       (MkDoc (Object [([97], Int64 1)]) (MkResolved [1] (MkId 3 (replicate 16 7)))) (Text [[98]] [[[97]]] Enabled)
       = Ret (Some (Search v))) /\
    forall E, query_overlaps_document (M := fun V => list (list Z * V)) (fun b => b) (fun t => [t]) (E := E)
      (query_reads_new [MkTermRead [[98]] (Exact [104])] [Must [[97]] [1]])
      (MkDoc (Object [([97], Int64 1)]) (MkResolved [1] (MkId 3 (replicate 16 7))))
      = Ret (query_overlaps_index_key (M := fun V => list (list Z * V))
          (query_reads_new [MkTermRead [[98]] (Exact [104])] [Must [[97]] [1]]) v).
Proof.
  apply (query_reads_agree (M := fun V => list (list Z * V))); [apply good_doc_example| |].
  - intros path fv Hin. apply list_elem_of_singleton in Hin. injection Hin as -> ->. left.
  - intros q Hin. apply list_elem_of_singleton in Hin. by rewrite Hin.
Defined.

(** [QueryReads::merge] can lose a conflict: the reads of one search overlap
    a key, but merged with the reads of a second search of the same index
    (with another filter) they no longer do, although a write of that key
    changes the first search's result. *)
Theorem query_reads_merge_loses_overlap :
  exists (a b : QueryReads (fun V => list (list Z * V))) (v : SearchIndexKeyValue),
    derived a /\ derived b /\
    query_overlaps_index_key a v = true /\
    query_overlaps_index_key (query_reads_merge (query_reads_merge query_reads_empty a) b) v = false.
Proof.
  exists (query_reads_new [MkTermRead [[97]] (Exact [104])] [Must [[98]] [1]]),
    (query_reads_new [MkTermRead [[97]] (Exact [104])] [Must [[98]] [2]]),
    {| filter_values := [([[98]], [1])]; search_field := [[97]]; search_field_value := Some [[104]] |}.
  split; [apply derived_new|]. split; [apply derived_new|]. split; reflexivity.
Qed.

(** [TextSearchSubscriptions] refines the map from (index, subscriber) to
    reads: starting from any consistent state, inserting the reads of a new
    subscriber and removing the reads of a present one never panics and gives a
    consistent state for the updated map. *)
Theorem text_subscriptions_refine {M} `{StringMapLaws M} (S : TextSearchSubscriptions) (A : Subs (M := M))
    (id : Z) (index : TabletIndexName) (reads : QueryReads M) :
  subs_ok S A ->
  (A index id = None -> subs_ok (text_subs_insert S id index reads) (subs_put A index id (Some reads))) /\
  (A index id = Some reads ->
   exists S', (forall E, text_subs_remove (E := E) S id index reads = Ret S') /\ subs_ok S' (subs_put A index id None)).
Proof. intros HS. split; [by apply subs_insert_ok|by apply subs_remove_ok]. Qed.

Lemma text_subscriptions_refine_witness :
  subs_ok (text_subs_insert (M := fun V => list (list Z * V)) text_subs_new 7 ([1], [98])
             (query_reads_new [MkTermRead [[97]] (Exact [104])] []))
    (subs_put (fun _ _ => None) ([1], [98]) 7 (Some (query_reads_new [MkTermRead [[97]] (Exact [104])] []))).
Proof. apply text_subscriptions_refine; [apply subs_ok_new|done]. Defined.

(** No subscription is missed: when a document's search key overlaps the
    reads of a subscriber (and these have a filter or a term), the subscriber
    is among those [add_matches] notifies; and only subscribers with reads on
    an index of the document's table are notified. *)
Theorem text_subscriptions_notify {M} `{StringMapLaws M} (S : TextSearchSubscriptions) (A : Subs (M := M))
    (document_id : ResolvedDocumentId) (keys : DocumentIndexKeys) (id : Z) :
  subs_ok S A ->
  (forall index reads v,
     A index id = Some reads -> derived reads -> index.1 = tablet_id document_id ->
     BTreeMap.get index keys = Some (Search v) -> query_overlaps_index_key reads v = true ->
     filter_conditions reads <> [] \/ text_queries reads <> [] ->
     id ∈ add_matches S document_id keys) /\
  (id ∈ add_matches S document_id keys ->
     exists index reads, A index id = Some reads /\ index.1 = tablet_id document_id /\ BTreeMap.get index keys <> None).
Proof. apply subs_notify. Qed.

Lemma text_subscriptions_notify_witness :
  7 ∈ add_matches (M := fun V => list (list Z * V))
    (text_subs_insert text_subs_new 7 ([1], [98]) (query_reads_new [MkTermRead [[97]] (Exact [104])] []))
    (MkResolved [1] (MkId 3 (replicate 16 7)))
    [(([1], [98]), Search {| filter_values := []; search_field := [[97]]; search_field_value := Some [[104]] |})].
Proof.
  eapply (text_subscriptions_notify _ (subs_put (fun _ _ => None) ([1], [98]) 7 (Some (query_reads_new [MkTermRead [[97]] (Exact [104])] []))))
    with (index := ([1], [98])) (reads := query_reads_new [MkTermRead [[97]] (Exact [104])] []).
  - apply subs_insert_ok; [apply subs_ok_new|done].
  - reflexivity.
  - apply derived_new.
  - reflexivity.
  - reflexivity.
  - reflexivity.
  - by right.
Defined.
