(* ===== verification/Reads.v ===== *)
(** * Reads: the read set of a transaction (src/crates/database/src/reads.rs)

    A [ReadSet] has, per index, the set of key intervals read and the text
    searches run.  [overlaps_document] decides from a document, and
    [overlaps_index_keys] from its precomputed index keys, whether a write
    touches something read; [TransactionReadSet] records reads and enforces the
    limits.  Captured stack traces have an abstract type; the capture switch,
    the limits, SHA-256 and the tokenizer are parameters. *)

From S2P Require Import Prelude Ord BTreeMap Bounds Interval IntervalSet Identifier Value Sorting SortingDecode Base32 IdV6.
From S2P Require Import Document IndexRegistry QueryReads.

Local Open Scope Z_scope.

Notation WriteSource := (option (list Z)) (only parsing).

(** [PackedDocumentUpdate] and [DocumentIndexKeysUpdate] (write_log.rs). *)
Record PackedDocumentUpdate := MkUpdate {
  update_id : ResolvedDocumentId;
  old_document : option PackedDocument;
  new_document : option PackedDocument;
}.

Record DocumentIndexKeysUpdate := MkKeysUpdate {
  keys_id : ResolvedDocumentId;
  old_document_keys : option (BTreeMap.t (list Z * list Z) DocumentIndexKeyValue);
  new_document_keys : option (BTreeMap.t (list Z * list Z) DocumentIndexKeyValue);
}.

(** [iter_indexes_for_table]. *)
Definition iter_indexes_for_table {V} (map : BTreeMap.t (list Z * list Z) V) (tablet_id : TabletId)
    : list ((list Z * list Z) * V) :=
  take_while (fun e => bool_decide (e.1.1 = tablet_id)) (BTreeMap.range_from (min_for_table tablet_id) map).

(** [iter.find_map(f)]: the first answer. *)
Fixpoint first_some {A B} (f : A -> option B) (l : list A) : option B :=
  match l with
  | [] => None
  | x :: l => match f x with Some b => Some b | None => first_some f l end
  end.

Fixpoint first_someM {E A B} (f : A -> outcome E (option B)) (l : list A) : outcome E (option B) :=
  match l with
  | [] => Ret None
  | x :: l => let? o := f x in match o with Some b => Ret (Some b) | None => first_someM f l end
  end.

Lemma first_some_None {A B} (f : A -> option B) l : first_some f l = None <-> forall x, x ∈ l -> f x = None.
Proof.
  induction l as [|x l IH]; simpl; [split; [by intros _ ? ?%elem_of_nil|done]|]. setoid_rewrite elem_of_cons.
  destruct (f x) eqn:Hf; [|rewrite IH; naive_solver]. split; [done|]. intros Hall. rewrite <- Hf. apply Hall. by left.
Qed.

Lemma first_some_Some {A B} (f : A -> option B) l b : first_some f l = Some b -> exists x, x ∈ l /\ f x = Some b.
Proof.
  induction l as [|x l IH]; simpl; [done|]. destruct (f x) eqn:Hf; [|intros (y & ? & ?)%IH; exists y; split; [by right|done]].
  intros [= ->]. exists x. split; [left|done].
Qed.

(** A loop whose body does not fail is the pure search. *)
Lemma first_someM_pure {E A B} (f : A -> outcome E (option B)) (g : A -> option B) l :
  (forall x, x ∈ l -> f x = Ret (g x)) -> first_someM f l = Ret (first_some g l).
Proof.
  induction l as [|x l IH]; intros Hf; [done|]. simpl. rewrite Hf by left. cbn [obind].
  destruct (g x); [done|]. apply IH. intros y Hy. apply Hf. by right.
Qed.

Section reads.
Context {M : Type -> Type} `{StringMapLaws M} {Trace : Type}.
Context (sha256 : list Z -> list Z) (tokenize : list Z -> list (list Z)).

Record IndexReads := MkIndexReads {
  fields : list FieldPath;
  intervals : IntervalSet;
  stack_traces : option (list (Interval * Trace));
}.

Record ReadSet := MkReadSet {
  indexed : BTreeMap.t (list Z * list Z) IndexReads;
  search : BTreeMap.t (list Z * list Z) (QueryReads M);
}.

Record ConflictingRead := MkConflict {
  conflict_index : list Z * list Z;
  conflict_id : ResolvedDocumentId;
  conflict_traces : option (list Trace);
}.

Record ConflictingReadWithWriteSource := MkConflictSource {
  read : ConflictingRead;
  write_source : WriteSource;
  write_ts : Z;
}.

Definition read_set_empty : ReadSet := {| indexed := []; search := [] |}.

(** The traces of the reads whose interval contains the key. *)
Definition traces_containing (st : option (list (Interval * Trace))) (k : list Z) : option (list Trace) :=
  option_map (filter_map (fun e => if Interval.contains e.1 k then Some e.2 else None)) st.

(** The body of the loop over [self.indexed] in [overlaps_document]. *)
Definition indexed_conflict {E} (document : PackedDocument) (e : (list Z * list Z) * IndexReads)
    : outcome E (option ConflictingRead) :=
  let? k := index_key document (fields e.2) in
  Ret (if IntervalSet.contains (intervals e.2) k then
         Some {| conflict_index := e.1; conflict_id := id document;
                 conflict_traces := traces_containing (stack_traces e.2) k |}
       else None).

Definition search_conflict {E} (document : PackedDocument) (e : (list Z * list Z) * QueryReads M)
    : outcome E (option ConflictingRead) :=
  let? overlaps := query_overlaps_document sha256 tokenize e.2 document in
  Ret (if overlaps : bool then
         Some {| conflict_index := e.1; conflict_id := id document; conflict_traces := None |}
       else None).

Definition overlaps_document {E} (self : ReadSet) (document : PackedDocument) : outcome E (option ConflictingRead) :=
  let? c := first_someM (indexed_conflict document) (iter_indexes_for_table (indexed self) (tablet_id (id document))) in
  match c with
  | Some c => Ret (Some c)
  | None => first_someM (search_conflict document) (iter_indexes_for_table (search self) (tablet_id (id document)))
  end.

(** The bodies of the loops of [overlaps_index_keys]. *)
Definition indexed_conflict_keys (i : ResolvedDocumentId) (index_keys : DocumentIndexKeys)
    (e : (list Z * list Z) * IndexReads) : option ConflictingRead :=
  match BTreeMap.get e.1 index_keys with
  | Some (Standard k) =>
      if IntervalSet.contains (intervals e.2) k then
        Some {| conflict_index := e.1; conflict_id := i;
                conflict_traces := traces_containing (stack_traces e.2) k |}
      else None
  | _ => None
  end.

Definition search_conflict_keys (i : ResolvedDocumentId) (index_keys : DocumentIndexKeys)
    (e : (list Z * list Z) * QueryReads M) : option ConflictingRead :=
  match BTreeMap.get e.1 index_keys with
  | Some (Search v) =>
      if query_overlaps_index_key e.2 v then
        Some {| conflict_index := e.1; conflict_id := i; conflict_traces := None |}
      else None
  | _ => None
  end.

Definition overlaps_index_keys (self : ReadSet) (i : ResolvedDocumentId) (index_keys : DocumentIndexKeys)
    : option ConflictingRead :=
  match first_some (indexed_conflict_keys i index_keys) (iter_indexes_for_table (indexed self) (tablet_id i)) with
  | Some c => Some c
  | None => first_some (search_conflict_keys i index_keys) (iter_indexes_for_table (search self) (tablet_id i))
  end.

(** [if let Some(doc) = opt && let Some(c) = self.overlaps(doc)]. *)
Definition overlap_doc {E} (self : ReadSet) (d : option PackedDocument) : outcome E (option ConflictingRead) :=
  match d with Some d => overlaps_document self d | None => Ret None end.

Definition writes_overlap_docs {E} (self : ReadSet)
    (updates : list (Z * list (ResolvedDocumentId * PackedDocumentUpdate) * WriteSource))
    : outcome E (option ConflictingReadWithWriteSource) :=
  first_someM (fun '(update_ts, updates, source) =>
    first_someM (fun '(_, update) =>
      let? c := overlap_doc self (new_document update) in
      match c with
      | Some c => Ret (Some {| read := c; write_source := source; write_ts := update_ts |})
      | None =>
          let? c := overlap_doc self (old_document update) in
          Ret (option_map (fun c => {| read := c; write_source := source; write_ts := update_ts |}) c)
      end) updates) updates.

Definition overlap_keys (self : ReadSet) (i : ResolvedDocumentId) (keys : option DocumentIndexKeys) : option ConflictingRead :=
  match keys with Some keys => overlaps_index_keys self i keys | None => None end.

(** The [Option<RefreshableTabletUpdate>] of an entry is not looked at. *)
Definition writes_overlap_index_keys {R} (self : ReadSet)
    (updates : list (Z * list (ResolvedDocumentId * DocumentIndexKeysUpdate * R) * WriteSource))
    : option ConflictingReadWithWriteSource :=
  first_some (fun '(update_ts, updates, source) =>
    first_some (fun '(i, update, _) =>
      match overlap_keys self i (new_document_keys update) with
      | Some c => Some {| read := c; write_source := source; write_ts := update_ts |}
      | None =>
          option_map (fun c => {| read := c; write_source := source; write_ts := update_ts |})
            (overlap_keys self i (old_document_keys update))
      end) updates) updates.

(** ** Recording reads ([TransactionReadSet]) *)

Record TransactionReadSize := MkReadSize { total_document_size : Z; total_document_count : Z }.

Record TransactionReadSet := MkTxReads {
  read_set : ReadSet;
  num_intervals : Z;
  user_tx_size : TransactionReadSize;
  system_tx_size : TransactionReadSize;
}.

Definition size_zero : TransactionReadSize := {| total_document_size := 0; total_document_count := 0 |}.
Definition size_add (a b : TransactionReadSize) : TransactionReadSize :=
  {| total_document_size := total_document_size a + total_document_size b;
     total_document_count := total_document_count a + total_document_count b |}.

Definition tx_reads_new : TransactionReadSet :=
  {| read_set := read_set_empty; num_intervals := 0; user_tx_size := size_zero; system_tx_size := size_zero |}.

(** [READ_SET_CAPTURE_BACKTRACES]. *)
Context (capture : bool).

Definition with_read_set (self : TransactionReadSet) (r : ReadSet) : TransactionReadSet :=
  {| read_set := r; num_intervals := num_intervals self;
     user_tx_size := user_tx_size self; system_tx_size := system_tx_size self |}.

(** [_record_indexed]; [trace] is the stack trace captured in the call. *)
Definition record_indexed {E} (self : TransactionReadSet) (trace : Trace) (index_name : list Z * list Z)
    (fs : list FieldPath) (added : list Interval) : outcome E (TransactionReadSet * (nat * nat)) :=
  let reads :=
    match BTreeMap.get index_name (indexed (read_set self)) with
    | Some reads => reads
    | None => {| fields := fs; intervals := IntervalSet.new; stack_traces := if capture then Some [] else None |}
    end in
  let? _ := rassert (bool_decide (fields reads = fs)) in
  let before := IntervalSet.len (intervals reads) in
  let? range_set := foldM IntervalSet.add (intervals reads) added in
  let traces := option_map (fun st => st ++ map (fun i => (i, trace)) added) (stack_traces reads) in
  let reads := {| fields := fields reads; intervals := range_set; stack_traces := traces |} in
  Ret (with_read_set self
         {| indexed := BTreeMap.insert index_name reads (indexed (read_set self)); search := search (read_set self) |},
       (before, IntervalSet.len range_set)).

Definition record_indexed_derived {E} (self : TransactionReadSet) (trace : Trace) (index_name : list Z * list Z)
    (fs : list FieldPath) (i : Interval) : outcome E TransactionReadSet :=
  let? (self, _) := record_indexed self trace index_name fs [i] in Ret self.

Definition record_search (self : TransactionReadSet) (index_name : list Z * list Z) (search_reads : QueryReads M)
    : TransactionReadSet :=
  let existing := default query_reads_empty (BTreeMap.get index_name (search (read_set self))) in
  with_read_set self
    {| indexed := indexed (read_set self);
       search := BTreeMap.insert index_name (query_reads_merge existing search_reads) (search (read_set self)) |}.

Definition merge {E} (self : TransactionReadSet) (trace : Trace) (reads : ReadSet) (n : Z)
    (user system : TransactionReadSize) : outcome E TransactionReadSet :=
  let? self :=
    foldM (fun self e =>
             let? (self, _) := record_indexed self trace e.1 (fields e.2) (IntervalSet.iter (intervals e.2)) in
             Ret self) self (indexed reads) in
  let self := fold_left (fun self e => record_search self e.1 e.2) (search reads) self in
  Ret {| read_set := read_set self; num_intervals := num_intervals self + n;
         user_tx_size := size_add (user_tx_size self) user;
         system_tx_size := size_add (system_tx_size self) system |}.

Inductive reads_error := TooManyDocumentsRead | TooManyBytesRead | TooManyReads (top_three : list (nat * (list Z * list Z))).

(** The calls to [FunctionUsageTracker]. *)
Inductive UsageEvent :=
| DatabaseEgress (component_path table_name : list Z) (size : Z) (is_system : bool)
| DatabaseEgressRows (component_path table_name : list Z) (rows : Z) (is_system : bool).

(** [TableName::is_system]. *)
Definition table_is_system (table_name : list Z) : bool :=
  match table_name with c :: _ => c =? 95 | [] => false end.

(** The knobs [TRANSACTION_MAX_READ_SIZE_ROWS], [TRANSACTION_MAX_READ_SIZE_BYTES]
    and [TRANSACTION_MAX_READ_SET_INTERVALS]. *)
Context (max_rows max_bytes max_intervals : Z).

Definition count_document (size : TransactionReadSize) (document_size : Z) : TransactionReadSize :=
  {| total_document_size := total_document_size size + document_size;
     total_document_count := total_document_count size + 1 |}.

Definition record_read_system_document (self : TransactionReadSet) (document_size : Z) : TransactionReadSet :=
  {| read_set := read_set self; num_intervals := num_intervals self; user_tx_size := user_tx_size self;
     system_tx_size := count_document (system_tx_size self) document_size |}.

Definition record_user_document (self : TransactionReadSet) (document_size : Z) : TransactionReadSet :=
  {| read_set := read_set self; num_intervals := num_intervals self;
     user_tx_size := count_document (user_tx_size self) document_size;
     system_tx_size := system_tx_size self |}.

(** The counters advance even when the call fails. *)
Definition record_read_document (self : TransactionReadSet) (component_path table_name : list Z) (document_size : Z)
    (usage : list UsageEvent) (is_virtual_table : bool)
    : TransactionReadSet * list UsageEvent * outcome reads_error unit :=
  let is_system_table := table_is_system table_name && negb is_virtual_table in
  let usage := usage ++ [DatabaseEgress component_path table_name document_size is_system_table;
                         DatabaseEgressRows component_path table_name 1 is_system_table] in
  if is_system_table then (record_read_system_document self document_size, usage, Ret tt)
  else
    let self := record_user_document self document_size in
    (self, usage,
     let? _ := ensure (total_document_count (user_tx_size self) <=? max_rows) TooManyDocumentsRead in
     ensure (total_document_size (user_tx_size self) <=? max_bytes) TooManyBytesRead).

(** [sort_by_key] is stable; the last three in reverse order. *)
Fixpoint insert_by_len (e : nat * (list Z * list Z)) (l : list (nat * (list Z * list Z))) : list (nat * (list Z * list Z)) :=
  match l with
  | [] => [e]
  | e' :: l' => if (e'.1 <=? e.1)%nat then e' :: insert_by_len e l' else e :: l
  end.

Definition top_three_intervals (self : TransactionReadSet) : list (nat * (list Z * list Z)) :=
  let lens := map (fun e => (IntervalSet.len (intervals e.2), e.1)) (indexed (read_set self)) in
  take 3 (rev (fold_left (fun l e => insert_by_len e l) lens [])).

Definition record_indexed_directly (self : TransactionReadSet) (trace : Trace) (index_name : list Z * list Z)
    (fs : list FieldPath) (i : Interval) : TransactionReadSet * outcome reads_error unit :=
  match record_indexed self trace index_name fs [i] with
  | Ret (self, (num_intervals_before, num_intervals_after)) =>
      let n := Z.max 0 (num_intervals self - Z.of_nat num_intervals_before) + Z.of_nat num_intervals_after in
      let self := {| read_set := read_set self; num_intervals := n;
                     user_tx_size := user_tx_size self; system_tx_size := system_tx_size self |} in
      (self, if max_intervals <? n then Err (TooManyReads (top_three_intervals self)) else Ret tt)
  | Err e => (self, Err e)
  | Panic => (self, Panic)
  end.

(** ** What a read set means *)

Record read_set_ok (r : ReadSet) : Prop := {
  rs_wf_indexed : BTreeMap.wf (indexed r);
  rs_wf_search : BTreeMap.wf (search r);
  rs_intervals : forall n reads, BTreeMap.get n (indexed r) = Some reads ->
    is_valid_identifier n.2 = true /\ IntervalSet.wf (intervals reads);
  rs_search : forall n q, BTreeMap.get n (search r) = Some q -> is_valid_identifier n.2 = true /\ derived q;
}.

Lemma read_set_empty_ok : read_set_ok read_set_empty.
Proof. by constructor. Qed.

(** The key [k] of index [n] was read. *)
Definition key_read (r : ReadSet) (n : list Z * list Z) (k : list Z) : Prop :=
  exists reads, BTreeMap.get n (indexed r) = Some reads /\ denotes (intervals reads) k.

Lemma elem_of_iter_table {V} (m : BTreeMap.t (list Z * list Z) V) t n v :
  BTreeMap.wf m -> (forall n v, BTreeMap.get n m = Some v -> is_valid_identifier n.2 = true) ->
  (n, v) ∈ iter_indexes_for_table m t <-> BTreeMap.get n m = Some v /\ n.1 = t.
Proof.
  intros Hw Hv. unfold iter_indexes_for_table. rewrite elem_of_table_range, BTreeMap.elem_of_get; [done|done|done|].
  intros [n' v'] He%BTreeMap.elem_of_get; [|done]. by apply (Hv n' v').
Qed.

(** [overlaps_index_keys] finds a conflict exactly when a read interval
    contains the document's key or a search overlaps its search key. *)
Lemma overlaps_index_keys_spec r i keys :
  read_set_ok r ->
  overlaps_index_keys r i keys <> None <->
  (exists n k, n.1 = tablet_id i /\ BTreeMap.get n keys = Some (Standard k) /\ key_read r n k) \/
  (exists n q v, n.1 = tablet_id i /\ BTreeMap.get n keys = Some (Search v) /\
     BTreeMap.get n (search r) = Some q /\ query_overlaps_index_key q v = true).
Proof.
  intros [Hwi Hws Hin Hse]. unfold overlaps_index_keys.
  assert (Hi : forall n reads, (n, reads) ∈ iter_indexes_for_table (indexed r) (tablet_id i) <->
    BTreeMap.get n (indexed r) = Some reads /\ n.1 = tablet_id i).
  { intros. apply elem_of_iter_table; [done|]. intros n' v' Hg. by apply (Hin n' v'). }
  assert (Hs : forall n q, (n, q) ∈ iter_indexes_for_table (search r) (tablet_id i) <->
    BTreeMap.get n (search r) = Some q /\ n.1 = tablet_id i).
  { intros. apply elem_of_iter_table; [done|]. intros n' v' Hg. by apply (Hse n' v'). }
  destruct (first_some (indexed_conflict_keys i keys) _) as [c|] eqn:Hf.
  - split; [|done]. intros _. left. apply first_some_Some in Hf as ([n reads] & [Hg Ht]%Hi & Hc).
    unfold indexed_conflict_keys in Hc. simpl in Hc. destruct (BTreeMap.get n keys) as [[k|]|] eqn:Hk; try done.
    destruct (IntervalSet.contains (intervals reads) k) eqn:Hcont; [|done].
    exists n, k. split_and!; [done..|]. exists reads. split; [done|]. apply contains_spec; [by eapply Hin|done].
  - rewrite first_some_None in Hf.
    assert (Hnone : ~ exists n k, n.1 = tablet_id i /\ BTreeMap.get n keys = Some (Standard k) /\ key_read r n k).
    { intros (n & k & Ht & Hk & reads & Hg & Hden). specialize (Hf (n, reads) (proj2 (Hi n reads) (conj Hg Ht))).
      unfold indexed_conflict_keys in Hf. simpl in Hf. rewrite Hk in Hf.
      apply contains_spec in Hden; [|by eapply Hin]. by rewrite Hden in Hf. }
    split.
    + intros Hne. right. destruct (first_some (search_conflict_keys i keys) _) as [c|] eqn:Hf'; [|done].
      apply first_some_Some in Hf' as ([n q] & [Hg Ht]%Hs & Hc). unfold search_conflict_keys in Hc. simpl in Hc.
      destruct (BTreeMap.get n keys) as [[|v]|] eqn:Hk; try done.
      destruct (query_overlaps_index_key q v) eqn:Ho; [|done]. exists n, q, v. done.
    + intros [?|(n & q & v & Ht & Hk & Hg & Ho)]; [done|]. rewrite first_some_None. intros Hall.
      specialize (Hall (n, q) (proj2 (Hs n q) (conj Hg Ht))). unfold search_conflict_keys in Hall. simpl in Hall.
      by rewrite Hk, Ho in Hall.
Qed.

(** The index keys of [d] that matter for [r] are the ones [r] would compute. *)
Definition keys_agree (r : ReadSet) (d : PackedDocument) (keys : DocumentIndexKeys) : Prop :=
  (forall n reads, BTreeMap.get n (indexed r) = Some reads -> n.1 = tablet_id (id d) ->
     exists k, (forall E, index_key (E := E) d (fields reads) = Ret k) /\ BTreeMap.get n keys = Some (Standard k)) /\
  (forall n q, BTreeMap.get n (search r) = Some q -> n.1 = tablet_id (id d) ->
     exists v, (forall E, query_overlaps_document sha256 tokenize (E := E) q d = Ret (query_overlaps_index_key q v)) /\
       BTreeMap.get n keys = Some (Search v)).

Lemma overlaps_agree {E} r d keys :
  read_set_ok r -> keys_agree r d keys -> overlaps_document (E := E) r d = Ret (overlaps_index_keys r (id d) keys).
Proof.
  intros [Hwi Hws Hin Hse] [Hi Hs]. unfold overlaps_document, overlaps_index_keys.
  rewrite (first_someM_pure _ (indexed_conflict_keys (id d) keys)).
  2:{ intros [n reads] [Hg Ht]%elem_of_iter_table; [|done|intros n' v' Hg; by apply (Hin n' v')].
      unfold indexed_conflict, indexed_conflict_keys. cbn [fst snd].
      destruct (Hi n reads Hg Ht) as (k & Hk & ->). by rewrite Hk. }
  cbn [obind]. destruct (first_some (indexed_conflict_keys (id d) keys) _); [done|].
  apply first_someM_pure. intros [n q] [Hg Ht]%elem_of_iter_table; [|done|intros n' v' Hg; by apply (Hse n' v')].
  unfold search_conflict, search_conflict_keys. cbn [fst snd].
  destruct (Hs n q Hg Ht) as (v & Hv & ->). by rewrite Hv.
Qed.

(** The registry and the read set talk about the same indexes: every index
    read is registered, alone with its name, with the recorded fields. *)
Definition reads_registered (r : ReadSet) (reg : IndexRegistry) : Prop :=
  (forall n reads, BTreeMap.get n (indexed r) = Some reads ->
     exists i s, name i = n /\ sole reg i /\ config i = Database (fields reads) s) /\
  (forall n q, BTreeMap.get n (search r) = Some q ->
     exists i sf ff s, name i = n /\ sole reg i /\ config i = Text sf ff s /\
       (forall path fv, Must path fv ∈ filter_conditions q -> path ∈ ff) /\
       (forall t, t ∈ text_queries q -> field_path t = sf)).

Lemma registry_keys_agree r reg d :
  read_set_ok r -> registry_ok reg -> good_doc d -> reads_registered r reg ->
  exists keys, (forall E, document_index_keys sha256 tokenize (E := E) reg d = Ret keys) /\ keys_agree r d keys.
Proof.
  intros Hr Hreg Hd [Hi Hs]. destruct (document_index_keys_entry sha256 tokenize reg d Hreg Hd) as (keys & Hk & _ & Hget).
  exists keys. split; [done|]. split.
  - intros n reads Hg Ht. destruct (Hi n reads Hg) as (i & s & <- & Hsole & Hc).
    exists (concat (map enc_opt (index_values d (fields reads)))). split; [intros E; by apply index_key_enc|].
    apply Hget; [done..|]. intros E. rewrite Hc. cbn [index_key_value]. by rewrite index_key_enc.
  - intros n q Hg Ht. destruct (Hs n q Hg) as (i & sf & ff & s & <- & Hsole & Hc & Hff & Hsf).
    destruct (query_overlaps_agree_aux sha256 tokenize q d sf ff s) as (v & Hv & Hq); [by eapply Hr|done..|].
    exists v. split; [done|]. apply Hget; [done..|]. intros E. by rewrite Hc.
Qed.

(** *** Recording *)

Lemma add_all_spec added : forall set, IntervalSet.wf set ->
  exists set', (forall E, foldM (E := E) IntervalSet.add set added = Ret set') /\ IntervalSet.wf set' /\
    forall p, denotes set' p <-> denotes set p \/ exists i, i ∈ added /\ inside i p.
Proof.
  clear sha256 tokenize. induction added as [|i added IH]; intros set Hwf.
  { exists set. split; [done|]. split; [done|]. intros p. setoid_rewrite elem_of_nil. naive_solver. }
  destruct (add_ret set i Hwf) as (s1 & H1 & Hw1 & Hd1). destruct (IH s1 Hw1) as (s2 & H2 & Hw2 & Hd2).
  exists s2. split; [intros E; cbn [foldM]; rewrite H1; apply H2|]. split; [done|].
  intros p. rewrite Hd2, Hd1. setoid_rewrite elem_of_cons. naive_solver.
Qed.

(** Recording intervals of an index does not panic when the index was read
    with the same fields before, and adds exactly these keys. *)
Lemma record_indexed_spec self trace n fs added :
  read_set_ok (read_set self) -> is_valid_identifier n.2 = true ->
  (forall reads, BTreeMap.get n (indexed (read_set self)) = Some reads -> fields reads = fs) ->
  exists self' lens, (forall E, record_indexed (E := E) self trace n fs added = Ret (self', lens)) /\
    read_set_ok (read_set self') /\ search (read_set self') = search (read_set self) /\
    (exists reads, BTreeMap.get n (indexed (read_set self')) = Some reads /\ fields reads = fs) /\
    (forall n', n' <> n -> BTreeMap.get n' (indexed (read_set self')) = BTreeMap.get n' (indexed (read_set self))) /\
    (forall k, key_read (read_set self') n k <-> key_read (read_set self) n k \/ exists i, i ∈ added /\ inside i k) /\
    num_intervals self' = num_intervals self /\ user_tx_size self' = user_tx_size self /\
    system_tx_size self' = system_tx_size self.
Proof.
  clear sha256 tokenize. intros [Hwi Hws Hin Hse] Hn Hfs. unfold record_indexed.
  set (reads := match BTreeMap.get n (indexed (read_set self)) with Some r => r | None => _ end).
  assert (Hf : fields reads = fs).
  { unfold reads. destruct (BTreeMap.get n (indexed (read_set self))) eqn:Hg; [by apply Hfs|done]. }
  assert (Hw : IntervalSet.wf (intervals reads)).
  { unfold reads. destruct (BTreeMap.get n (indexed (read_set self))) eqn:Hg; [by apply (Hin n)|]. apply wf_map_nil. }
  assert (Hr : forall k, denotes (intervals reads) k <-> key_read (read_set self) n k).
  { intros k. unfold reads, key_read. destruct (BTreeMap.get n (indexed (read_set self))) eqn:Hg; [naive_solver|].
    split; [|naive_solver]. intros (s & e & He & _). by apply elem_of_nil in He. }
  destruct (add_all_spec added (intervals reads) Hw) as (set' & Hadd & Hw' & Hden).
  do 2 eexists. split.
  { intros E. rewrite bool_decide_true by done. cbn [rassert obind]. rewrite Hadd. cbn [obind]. reflexivity. }
  cbn [read_set with_read_set indexed search num_intervals user_tx_size system_tx_size].
  split; [|split; [done|split; [|split; [|split; [|done]]]]].
  - constructor; cbn [indexed search]; [by apply BTreeMap.wf_insert|done| |done].
    intros n' r'. rewrite BTreeMap.get_insert_if by done. destruct (decide (n' = n)) as [->|]; [|apply Hin].
    intros [= <-]. done.
  - eexists. split; [by apply BTreeMap.get_insert_eq|done].
  - intros n' Hne. by apply BTreeMap.get_insert_ne.
  - intros k. rewrite <- Hr, <- Hden. unfold key_read. cbn [indexed]. rewrite BTreeMap.get_insert_eq by done. split.
    + by intros (? & [= <-] & ?).
    + intros Hd. eexists. split; [done|done].
Qed.

Lemma record_search_ok self n q :
  read_set_ok (read_set self) -> is_valid_identifier n.2 = true ->
  read_set_ok (read_set (record_search self n q)).
Proof.
  intros [Hwi Hws Hin Hse] Hn. constructor; cbn [record_search with_read_set read_set indexed search]; [done| |done|].
  - by apply BTreeMap.wf_insert.
  - intros n' q'. rewrite BTreeMap.get_insert_if by done. destruct (decide (n' = n)) as [->|]; [|apply Hse].
    intros [= <-]. split; [done|]. apply derived_merge.
    destruct (BTreeMap.get n (search (read_set self))) eqn:Hg; [by apply (Hse n)|]. apply derived_empty.
Qed.

(** *** Merging read sets *)

Definition record_entry {E} (trace : Trace) (self : TransactionReadSet) (e : (list Z * list Z) * IndexReads)
    : outcome E TransactionReadSet :=
  let? (self, _) := record_indexed self trace e.1 (fields e.2) (IntervalSet.iter (intervals e.2)) in Ret self.

Lemma record_entries_spec trace (l : BTreeMap.t (list Z * list Z) IndexReads) : forall self,
  read_set_ok (read_set self) -> BTreeMap.wf l ->
  (forall n reads, (n, reads) ∈ l -> is_valid_identifier n.2 = true) ->
  (forall n reads reads', BTreeMap.get n (indexed (read_set self)) = Some reads -> (n, reads') ∈ l -> fields reads = fields reads') ->
  exists self', (forall E, foldM (record_entry (E := E) trace) self l = Ret self') /\
    read_set_ok (read_set self') /\ search (read_set self') = search (read_set self) /\
    (forall n k, key_read (read_set self') n k <->
       key_read (read_set self) n k \/ exists reads, (n, reads) ∈ l /\ denotes (intervals reads) k) /\
    num_intervals self' = num_intervals self /\ user_tx_size self' = user_tx_size self /\
    system_tx_size self' = system_tx_size self.
Proof.
  clear sha256 tokenize. induction l as [|[n reads] l IH]; intros self Hok Hwf Hnames Hfs.
  { exists self. split_and!; try done. intros n k. setoid_rewrite elem_of_nil. naive_solver. }
  destruct (record_indexed_spec self trace n (fields reads) (IntervalSet.iter (intervals reads)) Hok) as
    (s1 & lens & He & Hok1 & Hs1 & (r1 & Hr1 & Hf1) & Ho1 & Hk1 & Hn1 & Hu1 & Hy1).
  { apply (Hnames n reads). left. }
  { intros r Hr. apply (Hfs n r reads Hr). left. }
  destruct Hwf as [Hlt Hwf].
  destruct (IH s1 Hok1 Hwf) as (s2 & He2 & Hok2 & Hs2 & Hk2 & Hn2 & Hu2 & Hy2).
  { intros n' r' Hin. apply (Hnames n' r'). by right. }
  { intros n' r r' Hr Hin. assert (n' <> n) as Hne.
    { intros ->. specialize (Hlt _ Hin). simpl in Hlt. by apply olt_irrefl in Hlt. }
    rewrite (Ho1 n' Hne) in Hr. apply (Hfs n' r r' Hr). by right. }
  exists s2. split; [intros E; cbn [foldM]; unfold record_entry at 1; rewrite He; cbn [obind]; apply He2|].
  split; [done|]. split; [congruence|]. split; [|split_and!; congruence].
  intros n' k. rewrite Hk2. setoid_rewrite elem_of_cons. destruct (decide (n' = n)) as [->|Hne].
  - rewrite Hk1. rewrite <- denotes_iter. naive_solver.
  - unfold key_read. rewrite (Ho1 n' Hne). naive_solver.
Qed.

Lemma record_searches_ok (l : BTreeMap.t (list Z * list Z) (QueryReads M)) : forall self,
  read_set_ok (read_set self) -> (forall n q, (n, q) ∈ l -> is_valid_identifier n.2 = true) ->
  let self' := fold_left (fun self e => record_search self e.1 e.2) l self in
  read_set_ok (read_set self') /\ indexed (read_set self') = indexed (read_set self) /\
  num_intervals self' = num_intervals self /\ user_tx_size self' = user_tx_size self /\
  system_tx_size self' = system_tx_size self.
Proof.
  induction l as [|[n q] l IH]; intros self Hok Hn; [done|]. cbn [fold_left fst snd].
  destruct (IH (record_search self n q)) as (? & ? & ? & ? & ?).
  - apply record_search_ok; [done|]. apply (Hn n q). left.
  - intros n' q' Hin. apply (Hn n' q'). by right.
  - split_and!; done.
Qed.

Lemma merge_spec self trace reads n user system :
  read_set_ok (read_set self) -> read_set_ok reads ->
  (forall m r r', BTreeMap.get m (indexed (read_set self)) = Some r -> BTreeMap.get m (indexed reads) = Some r' ->
     fields r = fields r') ->
  exists self', (forall E, merge (E := E) self trace reads n user system = Ret self') /\
    read_set_ok (read_set self') /\
    (forall m k, key_read (read_set self') m k <-> key_read (read_set self) m k \/ key_read reads m k) /\
    num_intervals self' = num_intervals self + n /\ user_tx_size self' = size_add (user_tx_size self) user /\
    system_tx_size self' = size_add (system_tx_size self) system.
Proof.
  clear sha256 tokenize. intros Hok [Hwi Hws Hin Hse] Hfs.
  destruct (record_entries_spec trace (indexed reads) self Hok Hwi) as (s1 & He & Hok1 & Hs1 & Hk1 & Hn1 & Hu1 & Hy1).
  { intros m r Hm%BTreeMap.elem_of_get; [|done]. by apply (Hin m r). }
  { intros m r r' Hr Hm%BTreeMap.elem_of_get; [|done]. by apply (Hfs m). }
  destruct (record_searches_ok (search reads) s1 Hok1) as (Hok2 & Hi2 & Hn2 & Hu2 & Hy2).
  { intros m q Hm%BTreeMap.elem_of_get; [|done]. by apply (Hse m q). }
  eexists. split.
  { intros E. unfold merge. unfold record_entry in He. rewrite He. cbn [obind]. reflexivity. }
  cbn [read_set num_intervals user_tx_size system_tx_size]. split; [done|].
  split; [|split_and!; congruence]. intros m k. transitivity (key_read (read_set s1) m k); [unfold key_read; by rewrite Hi2|].
  rewrite Hk1. unfold key_read at 3. by setoid_rewrite <- (BTreeMap.elem_of_get (indexed reads) _ _ Hwi).
Qed.
End reads.

(** ** Theorems *)

(** C26: The check of a commit against index keys is exact: it reports a
    conflict if and only if some index of the document's table was read on an
    interval containing the document's key in that index, or a text search of
    the table overlaps the document's search key. *)
Theorem overlaps_index_keys_exact {M} `{StringMapLaws M} {Trace} (r : ReadSet (M := M) (Trace := Trace))
    (i : ResolvedDocumentId) (keys : DocumentIndexKeys) :
  read_set_ok r ->
  overlaps_index_keys r i keys <> None <->
  (exists n k, n.1 = tablet_id i /\ BTreeMap.get n keys = Some (Standard k) /\ key_read r n k) \/
  (exists n q v, n.1 = tablet_id i /\ BTreeMap.get n keys = Some (Search v) /\
     BTreeMap.get n (search r) = Some q /\ query_overlaps_index_key q v = true).
Proof. apply overlaps_index_keys_spec. Qed.

Definition example_reads : ReadSet (M := fun V => list (list Z * V)) (Trace := Z) :=
  {| indexed := [(([1], [98]), {| fields := [[[97]]]; intervals := IntervalSet.Intervals [([1], Excluded [2])]; stack_traces := None |})];
     search := [] |}.

Lemma example_reads_ok : read_set_ok example_reads.
Proof.
  constructor; [by apply bool_decide_eq_true, I || (split; [by intros ? ?%elem_of_nil|done])|done| |done].
  intros n reads. simpl. destruct (n ==? ([1], [98]))%ord eqn:E; [|done]. apply eqb_eq in E as ->. intros [= <-].
  split; [done|]. by apply wf_map_singleton.
Qed.

Lemma overlaps_index_keys_exact_witness :
  overlaps_index_keys example_reads (MkResolved [1] (MkId 3 [])) [(([1], [98]), Standard [1; 5])] <> None.
Proof.
  apply (overlaps_index_keys_exact example_reads); [apply example_reads_ok|].
  left. exists ([1], [98]), [1; 5]. split; [done|]. split; [done|]. eexists. split; [reflexivity|].
  exists [1], (Excluded [2]). split; [left|]. split; [done|reflexivity].
Defined.

(** On the index keys that the registry computes for a document,
    [overlaps_index_keys] returns exactly what [overlaps_document] returns on
    the document itself, conflict description included, for reads of indexes
    that are registered under their name alone. *)
Theorem overlaps_document_equiv_keys {M} `{StringMapLaws M} {Trace} (sha256 : list Z -> list Z)
    (tokenize : list Z -> list (list Z)) (r : ReadSet (M := M) (Trace := Trace)) (reg : IndexRegistry) (d : PackedDocument) :
  read_set_ok r -> registry_ok reg -> good_doc d -> reads_registered r reg ->
  exists keys, (forall E, document_index_keys sha256 tokenize (E := E) reg d = Ret keys) /\
    forall E, overlaps_document sha256 tokenize (E := E) r d = Ret (overlaps_index_keys r (id d) keys).
Proof.
  intros Hr Hreg Hd Hsame. destruct (registry_keys_agree sha256 tokenize r reg d Hr Hreg Hd Hsame) as (keys & Hk & Ha).
  exists keys. split; [done|]. intros E. by apply overlaps_agree.
Qed.

Definition example_index : Index := MkIndex [7] ([1], [98]) (Database [[[97]]] Enabled).
Definition example_registry : IndexRegistry := insert (MkRegistry [9] [] [] []) example_index.
Definition example_doc : PackedDocument := MkDoc (Object [([97], Int64 1)]) (MkResolved [1] (MkId 3 (replicate 16 7))).

Lemma registry_empty_ok t : registry_ok (MkRegistry t [] [] []).
Proof. by constructor. Qed.

Lemma example_registered : reads_registered example_reads example_registry.
Proof.
  split; [|done]. intros n reads. simpl. destruct (n ==? ([1], [98]))%ord eqn:E; [|done]. apply eqb_eq in E as ->.
  intros [= <-]. exists example_index, Enabled. split; [done|]. split; [|done]. split; [by left|]. split; [|done].
  by intros j [[= <-]|?].
Qed.

Lemma overlaps_document_equiv_keys_witness :
  exists keys, (forall E, document_index_keys (fun b => b) (fun t => [t]) (E := E) example_registry example_doc = Ret keys) /\
    forall E, overlaps_document (fun b => b) (fun t => [t]) (E := E) example_reads example_doc
              = Ret (overlaps_index_keys example_reads (id example_doc) keys).
Proof.
  apply (overlaps_document_equiv_keys (fun b => b) (fun t => [t]) example_reads example_registry example_doc).
  - apply example_reads_ok.
  - apply insert_ok; [apply registry_empty_ok|done].
  - apply good_doc_example.
  - apply example_registered.
Defined.

(** C34: When an index of the same name is being backfilled beside the enabled
    one, a commit can miss a conflict. For any registry with an enabled database
    index and a pending one of the same name (other than the virtual name of the
    index table), any storable document of the table and any read set that read (only) the enabled index, the entry that the write log
    has for the name is the document's key in the pending index:
    [overlaps_document] reports a conflict exactly when the document's key in
    the enabled index was read, [overlaps_index_keys], on the keys of the log,
    exactly when its key in the pending index was. A document whose first key
    was read and whose second was not is a conflict that the commit misses. *)
Theorem pending_index_hides_conflict {M} `{StringMapLaws M} {Trace} (sha256 : list Z -> list Z) (tokenize : list Z -> list (list Z))
    (reg : IndexRegistry) (r : ReadSet (M := M) (Trace := Trace)) (d : PackedDocument) n i j fi fj s reads :
  registry_ok reg -> read_set_ok r -> good_doc d ->
  get_enabled reg n = Some i -> config i = Database fi Enabled ->
  get_pending reg n = Some j -> config j = Database fj s ->
  n.1 = tablet_id (id d) -> n.2 <> INDEX_BY_TABLE_ID_VIRTUAL_INDEX_DESCRIPTOR ->
  indexed r = [(n, reads)] -> fields reads = fi -> search r = [] ->
  exists keys ki kj c,
    (forall E, index_key (E := E) d fi = Ret ki) /\ (forall E, index_key (E := E) d fj = Ret kj) /\
    (forall E, document_index_keys sha256 tokenize (E := E) reg d = Ret keys) /\ BTreeMap.get n keys = Some (Standard kj) /\
    (forall E, overlaps_document sha256 tokenize (E := E) r d = Ret c) /\ (c <> None <-> key_read r n ki) /\
    (overlaps_index_keys r (id d) keys <> None <-> key_read r n kj).
Proof.
  intros Hreg Hr Hd Hi _ Hj Hcj Ht Hv Hind Hf Hs. set (key fs := concat (map enc_opt (index_values d fs))).
  assert (Hkey : forall fs E, index_key (E := E) d fs = Ret (key fs)) by (intros; by apply index_key_enc).
  destruct (document_index_keys_pending sha256 tokenize reg d n i j (Standard (key fj)) Hreg Hd Hi Hj Ht Hv) as (keys & Hk & Hget).
  { intros E. rewrite Hcj. cbn [index_key_value]. by rewrite Hkey. }
  assert (Hagree : keys_agree sha256 tokenize r d [(n, Standard (key fi))]).
  { split; [|by rewrite Hs]. intros n' reads'. rewrite Hind. cbn [BTreeMap.get]. destruct (n' ==? n)%ord eqn:E; [|done].
    apply eqb_eq in E as ->. intros [= <-] _. exists (key fi). split; [intros E; by rewrite Hf|done]. }
  assert (Hspec : forall keys k, BTreeMap.get n keys = Some (Standard k) -> overlaps_index_keys r (id d) keys <> None <-> key_read r n k).
  { intros keys0 k Hg. rewrite overlaps_index_keys_spec by done. rewrite Hs. split; [|intros Hkr; left; by exists n, k].
    intros [(n' & k' & _ & Hg' & Hkr)|(n' & q & v & _ & _ & Hq & _)]; [|done]. assert (n' = n) as ->; [|rewrite Hg in Hg'; by injection Hg' as ->].
    destruct Hkr as (reads' & Hg'' & _). rewrite Hind in Hg''. cbn [BTreeMap.get] in Hg''.
    destruct (n' ==? n)%ord eqn:E; [|done]. by apply (eqb_eq n' n) in E. }
  exists keys, (key fi), (key fj), (overlaps_index_keys r (id d) [(n, Standard (key fi))]).
  split_and!; [apply Hkey|apply Hkey|done|done| | |by apply Hspec].
  - intros E. by apply overlaps_agree.
  - apply Hspec. cbn [BTreeMap.get]. by rewrite (proj2 (eqb_eq n n) eq_refl).
Qed.

(** The index on [a] is enabled, and one of the same name on [c] is backfilling. *)
Definition pending_registry : IndexRegistry := insert example_registry (MkIndex [8] ([1], [98]) (Database [[[99]]] (Backfilling false))).

(** The read of the document whose [a] is one. *)
Definition enabled_reads : IndexReads (Trace := Z) :=
  {| fields := [[[97]]];
     intervals := let key := match index_key (E := False) example_doc [[[97]]] with Ret k => k | _ => [] end in
                  IntervalSet.Intervals [(key, Excluded (key ++ [0]))];
     stack_traces := None |}.
Definition enabled_read_set : ReadSet (M := fun V => list (list Z * V)) (Trace := Z) := {| indexed := [(([1], [98]), enabled_reads)]; search := [] |}.

Lemma enabled_read_set_ok : read_set_ok enabled_read_set.
Proof.
  constructor; [split; [by intros ? ?%elem_of_nil|done]|done| |done].
  intros n reads. unfold enabled_read_set. cbn [indexed BTreeMap.get]. destruct (n ==? ([1], [98]))%ord eqn:E; [|done]. apply eqb_eq in E as ->. intros [= <-].
  split; [done|]. apply wf_map_singleton. vm_compute. reflexivity.
Qed.

Lemma pending_index_hides_conflict_witness :
  exists keys c, document_index_keys (E := False) (fun b => b) (fun t => [t]) pending_registry example_doc = Ret keys /\
    overlaps_document (E := False) (fun b => b) (fun t => [t]) enabled_read_set example_doc = Ret (Some c) /\
    overlaps_index_keys enabled_read_set (id example_doc) keys = None.
Proof.
  destruct (pending_index_hides_conflict (fun b => b) (fun t => [t]) pending_registry enabled_read_set example_doc ([1], [98])
    example_index (MkIndex [8] ([1], [98]) (Database [[[99]]] (Backfilling false))) [[[97]]] [[[99]]] (Backfilling false) enabled_reads)
    as (keys & ki & kj & c & Hki & Hkj & Hk & _ & Hc & _ & _); try reflexivity; try discriminate.
  - apply insert_ok; [apply insert_ok; [apply registry_empty_ok|done]|done].
  - apply enabled_read_set_ok.
  - apply good_doc_example.
  - specialize (Hk False). specialize (Hc False). exists keys. destruct c as [c|]; [|vm_compute in Hc; discriminate Hc].
    exists c. split_and!; [exact Hk|exact Hc|]. vm_compute in Hk. injection Hk as <-. vm_compute. reflexivity.
Defined.

(** Recording intervals of an index keeps the read set well formed and adds
    exactly the keys of these intervals to the keys read of that index; reads
    of other indexes, searches and counters do not change.  It panics only when
    the index was read before with other fields. *)
Theorem record_indexed_adds {M} `{StringMapLaws M} {Trace} (capture : bool)
    (self : TransactionReadSet (M := M) (Trace := Trace)) (trace : Trace) (n : TabletIndexName)
    (fs : list FieldPath) (added : list Interval) :
  read_set_ok (read_set self) -> is_valid_identifier n.2 = true ->
  match record_indexed (E := False) capture self trace n fs added with
  | Ret (self', _) =>
      read_set_ok (read_set self') /\ search (read_set self') = search (read_set self) /\
      (forall n' k, key_read (read_set self') n' k <->
         key_read (read_set self) n' k \/ n' = n /\ exists i, i ∈ added /\ inside i k) /\
      num_intervals self' = num_intervals self /\ user_tx_size self' = user_tx_size self /\
      system_tx_size self' = system_tx_size self
  | Err _ => False
  | Panic => exists reads, BTreeMap.get n (indexed (read_set self)) = Some reads /\ fields reads <> fs
  end.
Proof.
  intros Hr Hn.
  destruct (BTreeMap.get n (indexed (read_set self))) as [reads|] eqn:Hg.
  - destruct (decide (fields reads = fs)) as [Heq|Hne].
    2:{ unfold record_indexed. rewrite Hg, bool_decide_false by done. cbn. eauto. }
    destruct (record_indexed_spec capture self trace n fs added Hr Hn) as (self' & lens & He & Hok & Hs & _ & Ho & Hk & Hrest).
    { intros reads'. rewrite Hg. by intros [= <-]. }
    rewrite He. split_and!; [done|done| |apply Hrest..]. intros n' k. destruct (decide (n' = n)) as [->|Hne]; [rewrite Hk; naive_solver|].
    unfold key_read. rewrite (Ho n' Hne). naive_solver.
  - destruct (record_indexed_spec capture self trace n fs added Hr Hn) as (self' & lens & He & Hok & Hs & _ & Ho & Hk & Hrest).
    { intros reads'. by rewrite Hg. }
    rewrite He. split_and!; [done|done| |apply Hrest..]. intros n' k. destruct (decide (n' = n)) as [->|Hne]; [rewrite Hk; naive_solver|].
    unfold key_read. rewrite (Ho n' Hne). naive_solver.
Qed.

Lemma record_indexed_adds_witness :
  match record_indexed (E := False) false (with_read_set tx_reads_new example_reads) 0 ([1], [98]) [[[97]]] [MkInterval [2] (Excluded [3])] with
  | Ret (self', _) => key_read (read_set self') ([1], [98]) [2; 5]
  | _ => False
  end.
Proof.
  assert (H := record_indexed_adds false (with_read_set tx_reads_new example_reads) 0 ([1], [98]) [[[97]]]
    [MkInterval [2] (Excluded [3])] example_reads_ok ltac:(reflexivity)).
  destruct (record_indexed (E := False) false (with_read_set tx_reads_new example_reads) 0 ([1], [98]) [[[97]]]
    [MkInterval [2] (Excluded [3])]) as [[self' lens]| |] eqn:He.
  - destruct H as (_ & _ & Hk & _). apply Hk. right. split; [done|]. eexists. split; [left|reflexivity].
  - destruct H.
  - vm_compute in He. discriminate He.
Defined.

(** Merging the reads of a sub-transaction keeps the keys read of both, adds
    the counters, and does not panic when both read the same index with the
    same fields. *)
Theorem merge_reads_union {M} `{StringMapLaws M} {Trace} (capture : bool)
    (self : TransactionReadSet (M := M) (Trace := Trace)) (trace : Trace) (reads : ReadSet (M := M) (Trace := Trace))
    (n : Z) (user system : TransactionReadSize) :
  read_set_ok (read_set self) -> read_set_ok reads ->
  (forall m r r', BTreeMap.get m (indexed (read_set self)) = Some r -> BTreeMap.get m (indexed reads) = Some r' ->
     fields r = fields r') ->
  exists self', (forall E, merge (E := E) capture self trace reads n user system = Ret self') /\
    read_set_ok (read_set self') /\
    (forall m k, key_read (read_set self') m k <-> key_read (read_set self) m k \/ key_read reads m k) /\
    num_intervals self' = num_intervals self + n /\ user_tx_size self' = size_add (user_tx_size self) user /\
    system_tx_size self' = size_add (system_tx_size self) system.
Proof. apply merge_spec. Qed.

Lemma merge_reads_union_witness :
  exists self', (forall E, merge (E := E) true (with_read_set tx_reads_new example_reads) 0 example_reads 1 size_zero size_zero = Ret self') /\
    num_intervals self' = 1.
Proof.
  destruct (merge_reads_union true (with_read_set tx_reads_new example_reads) 0 example_reads 1 size_zero size_zero) as
    (self' & He & _ & _ & Hn & _).
  - apply example_reads_ok.
  - apply example_reads_ok.
  - intros m r r'. cbn [read_set with_read_set]. intros Hr Hr'. rewrite Hr in Hr'. by injection Hr' as ->.
  - exists self'. split; [exact He|exact Hn].
Defined.

(** The read limits are exact: a user document read is counted whether or
    not it fails, it fails exactly when a limit is exceeded, rows first, and a
    system document never fails. *)
Theorem read_limits_exact {M} `{StringMap M} {Trace} (max_rows max_bytes : Z)
    (self : TransactionReadSet (M := M) (Trace := Trace)) (component table : list Z) (size : Z)
    (usage : list UsageEvent) (virtual : bool) :
  let '(self', usage', result) := record_read_document max_rows max_bytes self component table size usage virtual in
  read_set self' = read_set self /\ length usage' = S (S (length usage)) /\
  (if table_is_system table && negb virtual
   then user_tx_size self' = user_tx_size self /\ system_tx_size self' = size_add (system_tx_size self) (MkReadSize size 1) /\ result = Ret tt
   else system_tx_size self' = system_tx_size self /\ user_tx_size self' = size_add (user_tx_size self) (MkReadSize size 1) /\
     (result = Ret tt <-> total_document_count (user_tx_size self') <= max_rows /\ total_document_size (user_tx_size self') <= max_bytes) /\
     (result = Err TooManyDocumentsRead <-> max_rows < total_document_count (user_tx_size self')) /\
     (result = Err TooManyBytesRead <->
        total_document_count (user_tx_size self') <= max_rows /\ max_bytes < total_document_size (user_tx_size self'))).
Proof.
  unfold record_read_document. destruct (table_is_system table && negb virtual); cbn -[Z.add Z.leb].
  - split; [done|]. rewrite length_app. split; [simpl; lia|]. done.
  - split; [done|]. rewrite length_app. split; [simpl; lia|]. unfold ensure. split; [done|]. split; [done|].
    destruct (Z.leb_spec (total_document_count (user_tx_size self) + 1) max_rows);
      destruct (Z.leb_spec (total_document_size (user_tx_size self) + size) max_bytes); cbn;
      split_and!; split; intros; try done; lia.
Qed.

(** [num_intervals] is not the sum of the sizes of the interval sets that
    its comment says: a derived read adds an interval without counting it. *)
Theorem num_intervals_not_sum :
  exists self' : TransactionReadSet (M := fun V => list (list Z * V)) (Trace := Z),
    record_indexed_derived (E := False) false tx_reads_new 0 ([1], [98]) [[[97]]] (MkInterval [1] (Excluded [2])) = Ret self' /\
    num_intervals self' = 0 /\
    fold_right (fun e n => Z.of_nat (IntervalSet.len (intervals e.2)) + n) 0 (indexed (read_set self')) = 1.
Proof. eexists. split; [reflexivity|]. split; reflexivity. Qed.
