(* ===== verification/SchemaRegistry.v ===== *)
(** * SchemaRegistry: the index over the [_schemas] tables
      (src/crates/database/src/schema_registry.rs,
       src/crates/common/src/bootstrap_model/schema_state.rs and schema_metadata.rs)

    The registry caches, for every namespace, the schema document of each state
    that at most one schema can have.  [update] follows one change of a
    document; a commit applies the changes of a transaction in the order of
    their ids.  Parsing a [_schemas] document and the JSON of a schema are
    parameters. *)

From S2P Require Import Prelude Ord BTreeMap BinaryKey Bounds Interval IntervalSet Identifier Value Sorting SortingDecode Base32 IdV6 Document TableMapping IndexRegistry IndexUpdates IndexKeys QueryRange Validator Shape Schema QueryReads Reads.

Local Open Scope Z_scope.

(** ** Data *)

Inductive SchemaState :=
| SchemaPending
| SchemaValidated
| SchemaActive
| SchemaFailed (error : list Z) (table_name : option (list Z))
| SchemaOverwritten.

#[global] Instance SchemaState_EqDecision : EqDecision SchemaState.
Proof. solve_decision. Defined.

(** The derived order: the variants in order, then the fields. *)
Definition state_rank (s : SchemaState) : Z * (list Z * option (list Z)) :=
  match s with
  | SchemaPending => (0, ([], None))
  | SchemaValidated => (1, ([], None))
  | SchemaActive => (2, ([], None))
  | SchemaFailed error table_name => (3, (error, table_name))
  | SchemaOverwritten => (4, ([], None))
  end.

#[global] Instance SchemaState_Ord : Ord SchemaState := fun a b => cmp (state_rank a) (state_rank b).
#[global] Instance SchemaState_OrdLaws : OrdLaws SchemaState.
Proof. apply (OrdLaws_key state_rank). by intros [] [] [=]; subst. Qed.

(** Documents are ordered by tablet, table number and id. *)
Definition resolved_rank (i : ResolvedDocumentId) : list Z * (Z * list Z) :=
  (tablet_id i, (table (developer_id i), internal_id (developer_id i))).

#[global] Instance ResolvedDocumentId_Ord : Ord ResolvedDocumentId := fun a b => cmp (resolved_rank a) (resolved_rank b).
#[global] Instance ResolvedDocumentId_OrdLaws : OrdLaws ResolvedDocumentId.
Proof. apply (OrdLaws_key resolved_rank). by intros [t [n x]] [t' [n' x']] [=]; simplify_eq/=. Qed.

Definition is_unique (self : SchemaState) : bool :=
  match self with SchemaPending | SchemaValidated | SchemaActive => true | _ => false end.

Record SchemaMetadata := MkSchemaMetadata { sm_state : SchemaState; raw_schema : list Z }.

#[global] Instance SchemaMetadata_EqDecision : EqDecision SchemaMetadata.
Proof. solve_decision. Defined.

(** [ParsedDocument<SchemaMetadata>]. *)
Record SchemaDocument := MkSchemaDocument { sd_id : ResolvedDocumentId; sd_value : SchemaMetadata }.

(** [SchemaRegistryEntry] is the metadata with the parsed schema computed once. *)
Record NamespacedSchemaRegistry := MkNsSchemas {
  schemas_by_state : BTreeMap.t SchemaState ResolvedDocumentId;
  database_schemas : BTreeMap.t ResolvedDocumentId SchemaMetadata;
}.

Notation SchemaRegistry := (BTreeMap.t TableNamespace NamespacedSchemaRegistry) (only parsing).

Record SchemaUpdate := MkSchemaUpdate {
  su_namespace : TableNamespace;
  su_old : option SchemaDocument;
  su_new : option SchemaDocument;
}.

Inductive schemas_error :=
| MissingDatabaseSchema
| BadDatabaseSchema
| BadSchemaDocument
| SchemaTablet (e : mapping_error)
| SchemaRange (e : range_error)
| SchemaIndexName (e : name_error).

(** ["_schemas"], ["by_state"] and ["state"]. *)
Definition SCHEMAS_TABLE : list Z := [95; 115; 99; 104; 101; 109; 97; 115].
Definition SCHEMAS_STATE_INDEX : list Z := [98; 121; 95; 115; 116; 97; 116; 101].
Definition SCHEMA_STATE_FIELD : FieldPath := [[115; 116; 97; 116; 101]].

(** [NamespacedSchemaRegistry::default]. *)
Definition namespaced_default : NamespacedSchemaRegistry := MkNsSchemas [] [].

Definition get_metadata (self : NamespacedSchemaRegistry) (state : SchemaState) : option SchemaMetadata :=
  match BTreeMap.get state (schemas_by_state self) with
  | Some i => BTreeMap.get i (database_schemas self)
  | None => None
  end.

Definition namespaced_remove (self : NamespacedSchemaRegistry) (state : SchemaState) : NamespacedSchemaRegistry :=
  MkNsSchemas (BTreeMap.remove state (schemas_by_state self))
    (match BTreeMap.get state (schemas_by_state self) with
     | Some i => BTreeMap.remove i (database_schemas self)
     | None => database_schemas self
     end).

Definition namespaced_insert (self : NamespacedSchemaRegistry) (state : SchemaState) (doc : SchemaDocument) : NamespacedSchemaRegistry :=
  MkNsSchemas (BTreeMap.insert state (sd_id doc) (schemas_by_state self))
    (BTreeMap.insert (sd_id doc) (sd_value doc) (database_schemas self)).

(** The second half of [update]. *)
Definition insert_new_schema (self : NamespacedSchemaRegistry) (new_schema : option SchemaDocument) : NamespacedSchemaRegistry :=
  match new_schema with
  | Some new_schema =>
      if is_unique (sm_state (sd_value new_schema)) then namespaced_insert self (sm_state (sd_value new_schema)) new_schema else self
  | None => self
  end.

Definition namespaced_update (self : NamespacedSchemaRegistry) (old_schema new_schema : option SchemaDocument) : NamespacedSchemaRegistry :=
  match old_schema with
  | Some old_schema =>
      let old_schema_state := sm_state (sd_value old_schema) in
      if negb (is_unique old_schema_state) then self
      else
        let self :=
          if bool_decide (get_metadata self old_schema_state = Some (sd_value old_schema))
          then namespaced_remove self old_schema_state else self in
        insert_new_schema self new_schema
  | None => insert_new_schema self new_schema
  end.

(** [bootstrap]: the schemas of one namespace. *)
Definition namespaced_bootstrap (docs : list SchemaDocument) : NamespacedSchemaRegistry :=
  let relevant_schemas := bfilter (fun s => is_unique (sm_state (sd_value s))) docs in
  MkNsSchemas
    (fold_left (fun m s => BTreeMap.insert (sm_state (sd_value s)) (sd_id s) m) relevant_schemas [])
    (fold_left (fun m s => BTreeMap.insert (sd_id s) (sd_value s) m) relevant_schemas []).

Definition schemas_bootstrap (schema_docs : BTreeMap.t TableNamespace (list SchemaDocument)) : SchemaRegistry :=
  map (fun e : TableNamespace * list SchemaDocument => (e.1, namespaced_bootstrap e.2)) schema_docs.

(** The value of the [state] field ([codegen_convex_serialization]). *)
Definition state_string (self : SchemaState) : list Z :=
  match self with
  | SchemaPending => [112; 101; 110; 100; 105; 110; 103]
  | SchemaValidated => [118; 97; 108; 105; 100; 97; 116; 101; 100]
  | SchemaActive => [97; 99; 116; 105; 118; 101]
  | SchemaFailed _ _ => [102; 97; 105; 108; 101; 100]
  | SchemaOverwritten => [111; 118; 101; 114; 119; 114; 105; 116; 116; 101; 110]
  end.
Definition state_value (self : SchemaState) : ConvexValue :=
  match self with
  | SchemaFailed error table_name =>
      Object [([101; 114; 114; 111; 114], String error); ([115; 116; 97; 116; 101], String (state_string self));
              ([116; 97; 98; 108; 101; 95; 110; 97; 109; 101], match table_name with Some t => String t | None => Null end)]
  | _ => Object [([115; 116; 97; 116; 101], String (state_string self))]
  end.

Section registry.
(** [SchemaMetadata] of a document (generated serialization code), and
    [DatabaseSchema::json_deserialize]. *)
Context (parse : PackedDocument -> option SchemaMetadata) (json_deserialize : list Z -> option DatabaseSchema).

Definition namespaced_get (self : NamespacedSchemaRegistry) (state : SchemaState)
    : outcome schemas_error (option (ResolvedDocumentId * DatabaseSchema)) :=
  match BTreeMap.get state (schemas_by_state self) with
  | None => Ret None
  | Some doc_id =>
      let? entry := ok_or (BTreeMap.get doc_id (database_schemas self)) MissingDatabaseSchema in
      let? database_schema := ok_or (json_deserialize (raw_schema entry)) BadDatabaseSchema in
      Ret (Some (doc_id, database_schema))
  end.

Definition parse_schema (doc : option PackedDocument) : outcome schemas_error (option SchemaDocument) :=
  match doc with
  | None => Ret None
  | Some doc => let? metadata := ok_or (parse doc) BadSchemaDocument in Ret (Some (MkSchemaDocument (id doc) metadata))
  end.

Definition schemas_begin_update (table_mapping : TableMapping) (i : ResolvedDocumentId) (old_doc new_doc : option PackedDocument)
    : outcome schemas_error (option SchemaUpdate) :=
  let? namespace := lift_err SchemaTablet (tablet_namespace table_mapping (tablet_id i)) in
  if tablet_matches_name (mapping_namespace table_mapping namespace) (tablet_id i) SCHEMAS_TABLE then
    let? old_schema := parse_schema old_doc in
    let? new_schema := parse_schema new_doc in
    Ret (Some (MkSchemaUpdate namespace old_schema new_schema))
  else Ret None.

(** [Update::apply]. *)
Definition schemas_apply (self : SchemaRegistry) (update : option SchemaUpdate) : SchemaRegistry :=
  match update with
  | Some u =>
      let namespaced_registry := default namespaced_default (BTreeMap.get (su_namespace u) self) in
      BTreeMap.insert (su_namespace u) (namespaced_update namespaced_registry (su_old u) (su_new u)) self
  | None => self
  end.

Definition schemas_update (self : SchemaRegistry) (table_mapping : TableMapping) (i : ResolvedDocumentId)
    (old_doc new_doc : option PackedDocument) : outcome schemas_error SchemaRegistry :=
  let? update := schemas_begin_update table_mapping i old_doc new_doc in
  Ret (schemas_apply self update).

Section reads.
Context {M : Type -> Type} `{StringMapLaws M} {Trace : Type} (capture : bool) (trace : Trace).

Definition get_by_state (self : SchemaRegistry) (namespace : TableNamespace) (state : SchemaState) (schema_tablet : TabletId)
    (reads : TransactionReadSet (M := M) (Trace := Trace))
    : outcome schemas_error (TransactionReadSet (M := M) (Trace := Trace) * option (ResolvedDocumentId * DatabaseSchema)) :=
  let? interval := lift_err SchemaRange (compile [RangeEq SCHEMA_STATE_FIELD (Some (state_value state))] [SCHEMA_STATE_FIELD]) in
  let? index_name := lift_err SchemaIndexName (index_name_new schema_tablet SCHEMAS_STATE_INDEX) in
  let? reads := record_indexed_derived capture reads trace index_name [SCHEMA_STATE_FIELD] interval in
  let? schema :=
    match BTreeMap.get namespace self with
    | Some namespaced_registry => namespaced_get namespaced_registry state
    | None => Ret None
    end in
  Ret (reads, schema).
End reads.
End registry.

(** ** Following the [_schemas] documents *)

(** The documents of one [_schemas] table. *)
Notation schema_docs := (BTreeMap.t ResolvedDocumentId SchemaMetadata) (only parsing).

(** One change of a document. *)
Definition set_schema (docs : schema_docs) (i : ResolvedDocumentId) (o : option SchemaMetadata) : schema_docs :=
  match o with Some md => BTreeMap.insert i md docs | None => BTreeMap.remove i docs end.

(** At most one document has a state that is unique. *)
Definition unique_states (docs : schema_docs) : Prop :=
  forall i j md md', BTreeMap.get i docs = Some md -> BTreeMap.get j docs = Some md' ->
    is_unique (sm_state md) = true -> sm_state md' = sm_state md -> i = j.

(** The registry maps each unique state to the document that has it. *)
Record registry_follows (reg : NamespacedSchemaRegistry) (docs : schema_docs) : Prop := {
  rf_states_wf : BTreeMap.wf (schemas_by_state reg);
  rf_schemas_wf : BTreeMap.wf (database_schemas reg);
  rf_docs_wf : BTreeMap.wf docs;
  rf_sound s i : BTreeMap.get s (schemas_by_state reg) = Some i ->
    is_unique s = true /\ exists md, BTreeMap.get i docs = Some md /\ sm_state md = s /\ BTreeMap.get i (database_schemas reg) = Some md;
  rf_complete i md : BTreeMap.get i docs = Some md -> is_unique (sm_state md) = true ->
    BTreeMap.get (sm_state md) (schemas_by_state reg) = Some i;
}.

(** A commit applies changes of distinct documents one after the other. *)
Notation changes := (list (ResolvedDocumentId * option SchemaMetadata)) (only parsing).

Definition schema_doc (i : ResolvedDocumentId) (o : option SchemaMetadata) : option SchemaDocument :=
  option_map (MkSchemaDocument i) o.

Definition apply_change (docs : schema_docs) (reg : NamespacedSchemaRegistry) (c : ResolvedDocumentId * option SchemaMetadata)
    : NamespacedSchemaRegistry :=
  namespaced_update reg (schema_doc c.1 (BTreeMap.get c.1 docs)) (schema_doc c.1 c.2).

Definition set_schemas (docs : schema_docs) (cs : changes) : schema_docs := fold_left (fun d c => set_schema d c.1 c.2) cs docs.

(** No schema leaves a state that is not unique for one that is, and no schema
    enters a state with the metadata that another schema leaves behind. *)
Definition no_revival (docs : schema_docs) (cs : changes) : Prop :=
  forall i md md', (i, Some md') ∈ cs -> BTreeMap.get i docs = Some md -> is_unique (sm_state md') = true -> is_unique (sm_state md) = true.
Definition no_twins (docs : schema_docs) (cs : changes) : Prop :=
  forall i j o md, (i, o) ∈ cs -> (j, Some md) ∈ cs -> i <> j -> is_unique (sm_state md) = true -> BTreeMap.get i docs <> Some md.

Lemma get_set_schema docs i o j : BTreeMap.wf docs ->
  BTreeMap.wf (set_schema docs i o) /\ BTreeMap.get j (set_schema docs i o) = if decide (j = i) then o else BTreeMap.get j docs.
Proof.
  intros Hwf. destruct o as [md|]; cbn [set_schema].
  - split; [by apply BTreeMap.wf_insert|]. by rewrite BTreeMap.get_insert_if.
  - split; [by apply BTreeMap.wf_remove|]. destruct (decide (j = i)) as [->|Hne]; [by apply BTreeMap.get_remove_eq|by apply BTreeMap.get_remove_ne].
Qed.

(** The registry while a commit is applied: [cur] are the documents with the
    changes of [done] applied; a document may be displaced by one of [done]. *)
Record follows_partly (done : list ResolvedDocumentId) (reg : NamespacedSchemaRegistry) (cur : schema_docs) : Prop := {
  fp_states_wf : BTreeMap.wf (schemas_by_state reg);
  fp_schemas_wf : BTreeMap.wf (database_schemas reg);
  fp_docs_wf : BTreeMap.wf cur;
  fp_sound s i : BTreeMap.get s (schemas_by_state reg) = Some i ->
    is_unique s = true /\ exists md, BTreeMap.get i cur = Some md /\ sm_state md = s /\ BTreeMap.get i (database_schemas reg) = Some md;
  fp_complete i md : BTreeMap.get i cur = Some md -> is_unique (sm_state md) = true ->
    exists j, BTreeMap.get (sm_state md) (schemas_by_state reg) = Some j /\ (j = i \/ j ∈ done);
}.

(** Removing the entry of a document that leaves its state. *)
Lemma schema_leaves done reg cur k o : follows_partly done reg cur -> BTreeMap.get k cur = Some o -> k ∉ done ->
  (forall i, i <> k -> BTreeMap.get i cur = Some o -> BTreeMap.get (sm_state o) (schemas_by_state reg) <> Some i) ->
  follows_partly done (if bool_decide (get_metadata reg (sm_state o) = Some o) then namespaced_remove reg (sm_state o) else reg)
    (set_schema cur k None).
Proof.
  intros [Hw1 Hw2 Hw3 Hs Hc] Hk Hdone Htwin. destruct (get_set_schema cur k None k Hw3) as [Hw3' _].
  assert (Hcur : forall j, BTreeMap.get j (set_schema cur k None) = if decide (j = k) then None else BTreeMap.get j cur) by (intros j; by apply get_set_schema).
  unfold get_metadata. case_bool_decide as Heq.
  - destruct (BTreeMap.get (sm_state o) (schemas_by_state reg)) as [i|] eqn:Hi; [|done]. destruct (Hs _ _ Hi) as (_ & md & Hmd & Hst & Hdb).
    assert (i = k) as ->.
    { destruct (decide (i = k)); [done|]. exfalso. rewrite Hdb in Heq. injection Heq as ->. by apply (Htwin i). }
    unfold namespaced_remove. rewrite Hi. constructor; cbn [schemas_by_state database_schemas]; [by apply BTreeMap.wf_remove|by apply BTreeMap.wf_remove|done| |].
    + intros s j Hj. assert (s <> sm_state o) by (intros ->; by rewrite BTreeMap.get_remove_eq in Hj).
      rewrite BTreeMap.get_remove_ne in Hj by done. destruct (Hs _ _ Hj) as (Hus & md' & Hmd' & Hst' & Hdb'). split; [done|]. exists md'.
      assert (j <> k) by (intros ->; congruence). rewrite Hcur, decide_False by done. by rewrite BTreeMap.get_remove_ne.
    + intros j md'. rewrite Hcur. destruct (decide (j = k)) as [|Hjk]; [done|]. intros Hj Hu'. destruct (Hc j md' Hj Hu') as (j' & Hj' & Hor).
      exists j'. rewrite BTreeMap.get_remove_ne; [done..|]. intros He. rewrite He, Hi in Hj'. injection Hj' as <-. by destruct Hor.
  - assert (Hno : forall s, BTreeMap.get s (schemas_by_state reg) <> Some k).
    { intros s Hsk. destruct (Hs _ _ Hsk) as (_ & md & Hmd & <- & Hdb). rewrite Hk in Hmd. injection Hmd as <-. apply Heq. by rewrite Hsk. }
    constructor; [done..| |].
    + intros s j Hj. destruct (Hs _ _ Hj) as (Hus & md & Hmd & Hrest). split; [done|]. exists md. by rewrite Hcur, decide_False by (intros ->; by apply Hno in Hj).
    + intros j md. rewrite Hcur. destruct (decide (j = k)); [done|]. apply Hc.
Qed.

(** Entering a state. *)
Lemma schema_enters done reg cur k new : follows_partly done reg cur -> BTreeMap.get k cur = None ->
  follows_partly (k :: done) (insert_new_schema reg (schema_doc k new)) (set_schema cur k new).
Proof.
  intros [Hw1 Hw2 Hw3 Hs Hc] Hk. destruct (get_set_schema cur k new k Hw3) as [Hw3' _].
  assert (Hcur : forall j, BTreeMap.get j (set_schema cur k new) = if decide (j = k) then new else BTreeMap.get j cur) by (intros j; by apply get_set_schema).
  assert (Hne : forall s j, BTreeMap.get s (schemas_by_state reg) = Some j -> j <> k) by (intros s j Hj ->; destruct (Hs _ _ Hj); naive_solver).
  assert (Hsame : (forall md, new = Some md -> is_unique (sm_state md) = false) -> follows_partly (k :: done) reg (set_schema cur k new)).
  { intros Hnew. constructor; [done..| |].
    - intros s j Hj. rewrite Hcur, decide_False by (by eapply Hne). by apply Hs.
    - intros j md'. rewrite Hcur. destruct (decide (j = k)) as [->|Hjk]; [by intros ->%Hnew|]. intros Hj Hu'.
      destruct (Hc j md' Hj Hu') as (j' & Hj' & Hor). exists j'. split; [done|]. destruct Hor; [by left|right; by right]. }
  destruct new as [md|]; cbn [schema_doc option_map insert_new_schema sd_value sd_id]; [|by apply Hsame].
  destruct (is_unique (sm_state md)) eqn:Hu; [|by apply Hsame; intros ? [= <-]].
  constructor; cbn [schemas_by_state database_schemas namespaced_insert]; [by apply BTreeMap.wf_insert|by apply BTreeMap.wf_insert|done| |].
  - intros s j. rewrite !BTreeMap.get_insert_if, Hcur by done. destruct (decide (s = sm_state md)) as [->|Hst].
    + intros [= <-]. rewrite !decide_True by done. split; [done|]. by exists md.
    + intros Hj. rewrite !(decide_False (P := j = k)) by (by eapply Hne). by apply Hs.
  - intros j md'. rewrite Hcur. destruct (decide (j = k)) as [->|Hjk].
    + intros [= <-] _. exists k. rewrite BTreeMap.get_insert_eq by done. by split; [|left].
    + intros Hj Hu'. destruct (Hc j md' Hj Hu') as (j' & Hj' & Hor). rewrite BTreeMap.get_insert_if by done. case_decide.
      * exists k. split; [done|]. right. left.
      * exists j'. split; [done|]. destruct Hor; [by left|right; by right].
Qed.

Lemma set_schema_twice docs i o : BTreeMap.wf docs -> set_schema (set_schema docs i None) i o = set_schema docs i o.
Proof.
  intros Hwf. destruct (get_set_schema docs i None i Hwf) as [Hwf' _]. destruct (get_set_schema (set_schema docs i None) i o i Hwf') as [Hwf1 _].
  destruct (get_set_schema docs i o i Hwf) as [Hwf2 _]. apply BTreeMap.wf_ext; [done..|]. intros [j md].
  rewrite <- !BTreeMap.elem_of_get by done.
  rewrite (proj2 (get_set_schema (set_schema docs i None) i o j Hwf')), (proj2 (get_set_schema docs i None j Hwf)), (proj2 (get_set_schema docs i o j Hwf)).
  by destruct (decide (j = i)).
Qed.

Lemma change_step docs done reg cur k new :
  follows_partly done reg cur -> k ∉ done -> BTreeMap.get k cur = BTreeMap.get k docs ->
  (forall md md', new = Some md' -> BTreeMap.get k docs = Some md -> is_unique (sm_state md') = true -> is_unique (sm_state md) = true) ->
  (forall i o, BTreeMap.get k docs = Some o -> i <> k -> is_unique (sm_state o) = true -> BTreeMap.get i cur <> Some o) ->
  follows_partly (k :: done) (apply_change docs reg (k, new)) (set_schema cur k new).
Proof.
  intros Hf Hdone Hk Hrev Htwin. unfold apply_change, namespaced_update. cbn [fst snd]. pose proof (fp_docs_wf _ _ _ Hf) as Hwf.
  destruct (BTreeMap.get k docs) as [o|]; cbn [schema_doc option_map sd_value]; [|by apply schema_enters].
  destruct (is_unique (sm_state o)) eqn:Hu; cbn [negb].
  - rewrite <- set_schema_twice by done. apply schema_enters.
    + apply schema_leaves; [done..|]. intros i Hi Hg. by apply (Htwin i o) in Hg.
    + destruct (get_set_schema cur k None k Hwf) as [_ ->]. by rewrite decide_True.
  - pose proof Hf as [Hw1 Hw2 Hw3 Hs Hc].
    assert (Hno : forall s j, BTreeMap.get s (schemas_by_state reg) = Some j -> j <> k).
    { intros s j Hj ->. destruct (Hs _ _ Hj) as (Hus & md & Hmd & <- & _). congruence. }
    constructor; [done|done|by apply get_set_schema| |].
    + intros s j Hj. destruct (get_set_schema cur k new j Hw3) as [_ ->]. rewrite decide_False by (by eapply Hno). by apply Hs.
    + intros j md. destruct (get_set_schema cur k new j Hw3) as [_ ->]. destruct (decide (j = k)) as [->|Hjk].
      * intros ->  Hmd. specialize (Hrev o md eq_refl eq_refl Hmd). congruence.
      * intros Hj Hu'. destruct (Hc j md Hj Hu') as (j' & Hj' & Hor). exists j'. split; [done|]. destruct Hor; [by left|right; by right].
Qed.

(** The documents after the changes. *)
Lemma get_set_schemas docs cs : BTreeMap.wf docs -> NoDup (map fst cs) ->
  BTreeMap.wf (set_schemas docs cs) /\ (forall i o, (i, o) ∈ cs -> BTreeMap.get i (set_schemas docs cs) = o) /\
  (forall i, i ∉ map fst cs -> BTreeMap.get i (set_schemas docs cs) = BTreeMap.get i docs).
Proof.
  induction cs as [|[k new] cs IH] using rev_ind; intros Hwf Hnd; [by split_and!; [|intros ? ? ?%elem_of_nil|]|].
  unfold set_schemas in *. rewrite fold_left_app. cbn [fold_left fst snd]. rewrite map_app in Hnd |- *. cbn [map fst] in *.
  apply NoDup_app in Hnd as (Hnd & Hk & _). destruct (IH Hwf Hnd) as (Hwf' & Hin & Hout).
  destruct (get_set_schema (fold_left (fun d c => set_schema d c.1 c.2) cs docs) k new k Hwf') as [Hwf'' _]. split_and!; [done|..].
  - intros i o Hio. destruct (get_set_schema (fold_left (fun d c => set_schema d c.1 c.2) cs docs) k new i Hwf') as [_ ->].
    apply elem_of_app in Hio as [Hio|[= -> ->]%list_elem_of_singleton]; [|by rewrite decide_True].
    rewrite decide_False; [by apply Hin|]. intros ->. apply (Hk k); [|by left]. apply list_elem_of_fmap. by exists (k, o).
  - intros i Hi. destruct (get_set_schema (fold_left (fun d c => set_schema d c.1 c.2) cs docs) k new i Hwf') as [_ ->].
    rewrite decide_False by set_solver. apply Hout. set_solver.
Qed.

Lemma changes_follow docs reg cs :
  registry_follows reg docs -> unique_states docs -> NoDup (map fst cs) -> no_revival docs cs -> no_twins docs cs ->
  follows_partly (rev (map fst cs)) (fold_left (apply_change docs) cs reg) (set_schemas docs cs).
Proof.
  intros Hf Hu. pose proof Hf as [Hw1 Hw2 Hw3 Hs Hc]. induction cs as [|[k new] cs IH] using rev_ind; intros Hnd Hrev Htwin.
  { constructor; cbn; [done..|]. intros i md Hi Hmd. exists i. split; [by apply Hc|by left]. }
  assert (Hnd' : NoDup (map fst cs)) by (rewrite map_app in Hnd; by apply NoDup_app in Hnd as [? _]).
  assert (Hk : k ∉ map fst cs) by (rewrite map_app in Hnd; apply NoDup_app in Hnd as (_ & Hk & _); intros Hin; apply (Hk k Hin); by left).
  unfold set_schemas. rewrite !fold_left_app, map_app, rev_app_distr. cbn [fold_left map fst snd rev app].
  destruct (get_set_schemas docs cs Hw3 Hnd') as (_ & Hin & Hout).
  apply change_step.
  - apply IH; [done|intros i md md' H1; apply (Hrev i md md'); set_solver|intros i j o md H1 H2; apply (Htwin i j o md); set_solver].
  - by rewrite list_elem_of_In, <- in_rev, <- list_elem_of_In.
  - by apply Hout.
  - intros md md' -> Hg. apply (Hrev k md md'); [set_solver|done].
  - intros i o Ho Hik Huo Hi. fold (set_schemas docs cs) in Hi. destruct (decide (i ∈ map fst cs)) as [Hi'|Hi'].
    + apply list_elem_of_fmap in Hi' as ([i' oi] & -> & Hio). cbn [fst] in *. rewrite (Hin i' oi Hio) in Hi. subst oi.
      apply (Htwin k i' new o); [set_solver|set_solver|done|done|done].
    + rewrite (Hout i Hi') in Hi. apply Hik. by apply (Hu i k o o).
Qed.

Lemma commit_follows docs reg cs :
  registry_follows reg docs -> unique_states docs -> NoDup (map fst cs) -> no_revival docs cs -> no_twins docs cs ->
  unique_states (set_schemas docs cs) -> registry_follows (fold_left (apply_change docs) cs reg) (set_schemas docs cs).
Proof.
  intros Hf Hu Hnd Hrev Htwin Hu'. destruct (changes_follow docs reg cs Hf Hu Hnd Hrev Htwin) as [Hw1 Hw2 Hw3 Hs Hc].
  constructor; [done..|]. intros i md Hi Hmd. destruct (Hc i md Hi Hmd) as (j & Hj & _). rewrite Hj. f_equal. symmetry.
  destruct (Hs _ _ Hj) as (_ & md' & Hmd' & Hst & _). by apply (Hu' i j md md').
Qed.

(** One change. *)
Lemma change_follows docs reg i new :
  registry_follows reg docs -> unique_states docs -> unique_states (set_schema docs i new) ->
  (forall md md', BTreeMap.get i docs = Some md -> new = Some md' -> is_unique (sm_state md') = true -> is_unique (sm_state md) = true) ->
  registry_follows (apply_change docs reg (i, new)) (set_schema docs i new).
Proof.
  intros Hf Hu Hu' Hrev. apply (commit_follows docs reg [(i, new)]); [done|done|by apply NoDup_singleton| | |done].
  - intros j md md' [= -> Hn]%list_elem_of_singleton Hg. by apply (Hrev md md').
  - intros j k o md [= -> _]%list_elem_of_singleton [= -> _]%list_elem_of_singleton. done.
Qed.

(** The registry built when the database starts. *)
Lemma fold_insert_spec {K V A} `{OrdLaws K} (key : A -> K) (val : A -> V) (l : list A) : forall m, BTreeMap.wf m ->
  let m' := fold_left (fun m a => BTreeMap.insert (key a) (val a) m) l m in
  BTreeMap.wf m' /\ (forall k v, BTreeMap.get k m' = Some v -> (exists a, a ∈ l /\ key a = k /\ val a = v) \/ BTreeMap.get k m = Some v) /\
  (forall a, a ∈ l -> is_Some (BTreeMap.get (key a) m')) /\ (forall k, is_Some (BTreeMap.get k m) -> is_Some (BTreeMap.get k m')).
Proof.
  pose proof (ord_eq_dec (A := K)) as Hdec. induction l as [|a l IH]; intros m Hm; cbn [fold_left].
  { split_and!; [done|by right|by intros ? ?%elem_of_nil|done]. }
  destruct (IH (BTreeMap.insert (key a) (val a) m)) as (Hwf & Hget & Hin & Hkeep); [by apply BTreeMap.wf_insert|].
  assert (Hk : forall k, is_Some (BTreeMap.get k m) \/ k = key a -> is_Some (BTreeMap.get k (BTreeMap.insert (key a) (val a) m))).
  { intros k Hk. rewrite BTreeMap.get_insert_if by done. case_decide; [by eexists|]. by destruct Hk. }
  split_and!; [done| | |].
  - intros k v Hv. apply Hget in Hv as [(b & Hb & ? & ?)|Hv]; [left; exists b; split; [by right|done]|].
    rewrite BTreeMap.get_insert_if in Hv by done. case_decide; [|by right]. injection Hv as <-. left. exists a. split; [left|done].
  - intros b [->|Hb]%elem_of_cons; [apply Hkeep, Hk; by right|by apply Hin].
  - intros k Hs. apply Hkeep, Hk. by left.
Qed.

Lemma bootstrap_follows docs : BTreeMap.wf docs -> unique_states docs ->
  registry_follows (namespaced_bootstrap (map (fun e : ResolvedDocumentId * SchemaMetadata => MkSchemaDocument e.1 e.2) docs)) docs.
Proof.
  intros Hwf Hu. unfold namespaced_bootstrap. set (l := bfilter _ _).
  assert (Hl : forall s, s ∈ l <-> BTreeMap.get (sd_id s) docs = Some (sd_value s) /\ is_unique (sm_state (sd_value s)) = true).
  { intros [i md]. unfold l. rewrite elem_of_bfilter, list_elem_of_fmap, BTreeMap.elem_of_get by done. cbn [sd_id sd_value]. split.
    - intros [([i' md'] & [= -> ->] & Hin) Hus]. done.
    - intros [Hin Hus]. split; [by exists (i, md)|done]. }
  destruct (fold_insert_spec (fun s => sm_state (sd_value s)) sd_id l [] I) as (Hw1 & Hg1 & Hi1 & _).
  destruct (fold_insert_spec sd_id sd_value l [] I) as (Hw2 & Hg2 & Hi2 & _).
  constructor; cbn [schemas_by_state database_schemas]; [done..| |].
  - intros s i Hi. apply Hg1 in Hi as [(a & [Ha Hua]%Hl & <- & <-)|?]; [|done]. split; [done|]. exists (sd_value a). split_and!; [done|done|].
    destruct (Hi2 a) as [md Hmd]; [by apply Hl|]. rewrite Hmd. apply Hg2 in Hmd as [(b & [Hb _]%Hl & Hid & <-)|?]; [|done]. congruence.
  - intros i md Hi Hus. destruct (Hi1 (MkSchemaDocument i md)) as [j Hj]; [by apply Hl|]. cbn [sd_value] in Hj. rewrite Hj.
    apply Hg1 in Hj as [(b & [Hb _]%Hl & Hst & <-)|?]; [|done]. f_equal. symmetry. by eapply Hu.
Qed.

(** What the registry answers. *)
Lemma follows_get json reg docs s : registry_follows reg docs -> unique_states docs ->
  match namespaced_get json reg s with
  | Ret (Some (i, schema)) =>
      is_unique s = true /\ exists raw, BTreeMap.get i docs = Some (MkSchemaMetadata s raw) /\ json raw = Some schema
  | Ret None => is_unique s = true -> forall i md, BTreeMap.get i docs = Some md -> sm_state md <> s
  | Err e => e = BadDatabaseSchema /\ exists i raw, BTreeMap.get i docs = Some (MkSchemaMetadata s raw) /\ json raw = None
  | Panic => False
  end.
Proof.
  intros [_ _ _ Hs Hc] Hu. unfold namespaced_get. destruct (BTreeMap.get s (schemas_by_state reg)) as [i|] eqn:Hi.
  - destruct (Hs _ _ Hi) as (Hus & [st raw] & Hmd & <- & Hdb). cbn [sm_state] in *. rewrite Hdb. cbn [ok_or obind raw_schema].
    destruct (json raw) as [schema|] eqn:Hj; cbn [ok_or obind]; [split; [done|]; by exists raw|split; [done|]; by exists i, raw].
  - intros Hus i md Hmd <-. by rewrite (Hc i md Hmd Hus) in Hi.
Qed.

Lemma follows_get_Some json reg docs i s raw schema : registry_follows reg docs -> BTreeMap.get i docs = Some (MkSchemaMetadata s raw) ->
  is_unique s = true -> json raw = Some schema -> namespaced_get json reg s = Ret (Some (i, schema)).
Proof.
  intros [_ _ _ Hs Hc] Hi Hu Hj. unfold namespaced_get. specialize (Hc _ _ Hi Hu). cbn [sm_state] in Hc. rewrite Hc.
  destruct (Hs _ _ Hc) as (_ & md & Hmd & _ & Hdb). rewrite Hi in Hmd. injection Hmd as <-. rewrite Hdb. cbn [ok_or obind raw_schema]. by rewrite Hj.
Qed.

Lemma id_nul_free i : valid_id i -> nul_free (Some (id_value i)) = true.
Proof.
  intros Hv. destruct (IdV6.encode_ok i Hv) as (t & buf & Henc & Hb & _). unfold id_value. rewrite Henc. cbn [nul_free].
  apply negb_true_iff, bool_decide_eq_false_2. intros (j & Hj & Hin)%list_elem_of_fmap.
  pose proof (indexes_of_index buf Hb) as Hidx. rewrite Forall_forall in Hidx. specialize (Hidx j Hin). 
  assert (Hall : Forall (fun c => c <> 0) ALPHABET) by (by apply (bool_decide_unpack _)).
  unfold alph in Hj. destruct (ALPHABET !! Z.to_nat j) as [c|] eqn:Hc; cbn in Hj.
  - rewrite Forall_forall in Hall. apply (Hall c); [by eapply list_elem_of_lookup_2|done].
  - apply lookup_ge_None in Hc. unfold index in Hidx. assert (length ALPHABET = 32%nat) by done. lia.
Qed.

Section dependencies.
Context {M : Type -> Type} `{StringMapLaws M} {Trace : Type} (capture : bool) (trace : Trace) (json : list Z -> option DatabaseSchema).
Notation TxReads := (TransactionReadSet (M := M) (Trace := Trace)).

(** Reading a schema from the cache records the part of the index where every
    document of that state lies. *)
Lemma get_by_state_reads reg ns s t (reads reads' : TxReads) r d :
  get_by_state json capture trace reg ns s t reads = Ret (reads', r) -> is_unique s = true -> read_set_ok (read_set reads) ->
  (forall r, BTreeMap.get (t, SCHEMAS_STATE_INDEX) (indexed (read_set reads)) = Some r -> fields r = [SCHEMA_STATE_FIELD]) ->
  good_doc d -> open_path (value d) SCHEMA_STATE_FIELD = Some (state_value s) ->
  key_read (read_set reads') (t, SCHEMAS_STATE_INDEX) (doc_key d [SCHEMA_STATE_FIELD]).
Proof.
  intros Hget Hu Hok Hf Hd Hp. unfold get_by_state in Hget.
  destruct (compile [RangeEq SCHEMA_STATE_FIELD (Some (state_value s))] [SCHEMA_STATE_FIELD]) as [i|e|] eqn:Hc; cbn [lift_err obind] in Hget; [|done|done].
  change (index_name_new t SCHEMAS_STATE_INDEX) with (Ret (E := name_error) (t, SCHEMAS_STATE_INDEX)) in Hget. cbn [lift_err obind] in Hget.
  unfold record_indexed_derived in Hget.
  destruct (record_indexed_spec capture reads trace (t, SCHEMAS_STATE_INDEX) [SCHEMA_STATE_FIELD] [i] Hok eq_refl Hf) as (reads1 & lens & He & _ & _ & _ & _ & Hk & _).
  rewrite He in Hget. cbn [obind] in Hget.
  assert (reads1 = reads') as <- by (destruct (match BTreeMap.get ns reg with Some _ => _ | None => _ end); cbn [obind] in Hget; by simplify_eq).
  apply Hk. right. exists i. split; [by left|]. eapply compile_exact; [|done| |exact Hc|].
  - constructor; [by destruct s|constructor].
  - unfold index_values. cbn [map app]. rewrite Hp. constructor; [by destruct s|]. constructor; [apply id_nul_free, Hd|constructor].
  - constructor; [|constructor]. cbn [satisfies]. unfold field_value. rewrite bool_decide_false by done. rewrite Hp. by destruct s.
Qed.
End dependencies.

(** ** Theorems *)

(** The schema registry follows the [_schemas] documents through a commit:
    when a commit changes distinct documents, in whatever order its changes are
    applied, each unique state maps to the one document that has it afterwards
    and to that document's metadata, provided states are unique before and
    after, no schema leaves a failed or overwritten state for a unique one, and
    none enters a state with the very metadata another schema leaves behind. *)
Theorem registry_follows_commit docs reg cs :
  registry_follows reg docs -> unique_states docs -> NoDup (map fst cs) -> no_revival docs cs -> no_twins docs cs ->
  unique_states (set_schemas docs cs) -> registry_follows (fold_left (apply_change docs) cs reg) (set_schemas docs cs).
Proof. apply commit_follows. Qed.

(** A cached schema read is a read of the index: if the answer of
    [get_by_state] for a state differs between two versions of a [_schemas]
    table, then a document that has the state in one version differs in the
    other, and the key of every document in that state lies in the interval of
    the [by_state] index that the read recorded. *)
Theorem schema_read_dependency {M} `{StringMapLaws M} {Trace : Type} (capture : bool) (trace : Trace) (json : list Z -> option DatabaseSchema)
    (docs docs' : BTreeMap.t ResolvedDocumentId SchemaMetadata) reg reg' registry ns s t (reads reads' : TransactionReadSet (M := M) (Trace := Trace)) r :
  registry_follows reg docs -> unique_states docs -> registry_follows reg' docs' -> unique_states docs' -> is_unique s = true ->
  BTreeMap.get ns registry = Some reg -> get_by_state json capture trace registry ns s t reads = Ret (reads', r) ->
  read_set_ok (read_set reads) ->
  (forall r, BTreeMap.get (t, SCHEMAS_STATE_INDEX) (indexed (read_set reads)) = Some r -> fields r = [SCHEMA_STATE_FIELD]) ->
  namespaced_get json reg' s <> Ret r ->
  (exists i md, (BTreeMap.get i docs = Some md \/ BTreeMap.get i docs' = Some md) /\ sm_state md = s /\
    BTreeMap.get i docs <> BTreeMap.get i docs') /\
  forall d, good_doc d -> open_path (value d) SCHEMA_STATE_FIELD = Some (state_value s) ->
    key_read (read_set reads') (t, SCHEMAS_STATE_INDEX) (doc_key d [SCHEMA_STATE_FIELD]).
Proof.
  intros Hf Hu Hf' Hu' Hus Hns Hget Hok Hfields Hne. split; [|intros d Hd Hp; by eapply get_by_state_reads].
  assert (Hr : namespaced_get json reg s = Ret r).
  { unfold get_by_state in Hget. rewrite Hns in Hget. destruct (lift_err _ (compile _ _)); cbn [obind] in Hget; [|done|done].
    destruct (lift_err _ (index_name_new _ _)); cbn [obind] in Hget; [|done|done].
    destruct (record_indexed_derived _ _ _ _ _ _); cbn [obind] in Hget; [|done|done]. destruct (namespaced_get json reg s); cbn [obind] in Hget; by simplify_eq. }
  pose proof (follows_get json reg docs s Hf Hu) as H1. pose proof (follows_get json reg' docs' s Hf' Hu') as H2. rewrite Hr in H1.
  destruct r as [[i schema]|].
  - destruct H1 as (_ & raw & Hi & Hj). exists i, (MkSchemaMetadata s raw). split_and!; [by left|done|]. rewrite Hi. intros Hi'. apply Hne.
    by eapply follows_get_Some.
  - assert (exists i md, BTreeMap.get i docs' = Some md /\ sm_state md = s) as (i & md & Hi & Hmd).
    { destruct (namespaced_get json reg' s) as [[[i schema]|]|e|]; [|done|..|done].
      - destruct H2 as (_ & raw & Hi & _). by eexists _, _.
      - destruct H2 as (_ & i & raw & Hi & _). by eexists _, _. }
    exists i, md. split_and!; [by right|done|]. rewrite Hi. intros Hi'. by apply (H1 Hus i md).
Qed.

Module SchemaRegistryExample.
(** An active schema is replaced by a validated one. *)
Definition table : list Z := [7].
Definition doc_id (n : Z) : ResolvedDocumentId := MkResolved table (MkId 3 (replicate 16 n)).
Definition docs : BTreeMap.t ResolvedDocumentId SchemaMetadata :=
  [(doc_id 1, MkSchemaMetadata SchemaActive [1]); (doc_id 2, MkSchemaMetadata SchemaValidated [2])].
Definition reg : NamespacedSchemaRegistry :=
  namespaced_bootstrap (map (fun e : ResolvedDocumentId * SchemaMetadata => MkSchemaDocument e.1 e.2) docs).
Definition cs : list (ResolvedDocumentId * option SchemaMetadata) :=
  [(doc_id 2, Some (MkSchemaMetadata SchemaActive [2])); (doc_id 1, Some (MkSchemaMetadata SchemaOverwritten [1]))].
Definition json (raw : list Z) : option DatabaseSchema := Some (MkSchema [] (bool_decide (raw = [1]))).
Definition reads0 : TransactionReadSet (M := fun V => list (list Z * V)) (Trace := Z) := tx_reads_new.

Lemma schema_docs_wf : BTreeMap.wf docs.
Proof. split; [|by split; [intros ? H; apply elem_of_nil in H|]]. intros e ->%list_elem_of_singleton. by vm_compute. Qed.

(** The documents, by cases. *)
Lemma docs_cases (ds : BTreeMap.t ResolvedDocumentId SchemaMetadata) i md : BTreeMap.wf ds -> BTreeMap.get i ds = Some md -> (i, md) ∈ ds.
Proof. intros Hwf. by rewrite BTreeMap.elem_of_get. Qed.

Ltac doc_cases H := apply docs_cases in H; [|done]; repeat (apply elem_of_cons in H as [[= -> ->]|H]); [..|by apply elem_of_nil in H].

Lemma schema_docs_unique : unique_states docs.
Proof. intros i j md md' Hi Hj. pose proof schema_docs_wf. doc_cases Hi; doc_cases Hj; done. Qed.

Definition docs' : BTreeMap.t ResolvedDocumentId SchemaMetadata := set_schemas docs cs.

Lemma docs'_wf : BTreeMap.wf docs'.
Proof. apply get_set_schemas; [apply schema_docs_wf|by apply (bool_decide_unpack _)]. Qed.

Lemma docs'_unique : unique_states docs'.
Proof.
  intros i j md md' Hi Hj. pose proof docs'_wf as Hwf. change docs' with [(doc_id 1, MkSchemaMetadata SchemaOverwritten [1]); (doc_id 2, MkSchemaMetadata SchemaActive [2])] in *.
  doc_cases Hi; doc_cases Hj; done.
Qed.

Lemma cs_cases c : c ∈ cs -> c = (doc_id 2, Some (MkSchemaMetadata SchemaActive [2])) \/ c = (doc_id 1, Some (MkSchemaMetadata SchemaOverwritten [1])).
Proof. intros [->|[->|H]%elem_of_cons]%elem_of_cons; [by left|by right|by apply elem_of_nil in H]. Qed.

Lemma cs_no_revival : no_revival docs cs.
Proof. intros i md md' [[= -> ->]|[= -> ->]]%cs_cases Hg Hu; [|done]. vm_compute in Hg. by injection Hg as <-. Qed.

Lemma cs_no_twins : no_twins docs cs.
Proof. intros i j o md [[= -> ->]|[= -> ->]]%cs_cases [[= ->]|[= -> ->]]%cs_cases Hne Hu; try done. subst md. by vm_compute. Qed.
End SchemaRegistryExample.

Lemma registry_follows_commit_witness :
  registry_follows (fold_left (apply_change SchemaRegistryExample.docs) SchemaRegistryExample.cs SchemaRegistryExample.reg)
    (set_schemas SchemaRegistryExample.docs SchemaRegistryExample.cs).
Proof.
  apply (registry_follows_commit SchemaRegistryExample.docs SchemaRegistryExample.reg SchemaRegistryExample.cs).
  - apply bootstrap_follows; [apply SchemaRegistryExample.schema_docs_wf|apply SchemaRegistryExample.schema_docs_unique].
  - apply SchemaRegistryExample.schema_docs_unique.
  - by apply (bool_decide_unpack _).
  - apply SchemaRegistryExample.cs_no_revival.
  - apply SchemaRegistryExample.cs_no_twins.
  - apply SchemaRegistryExample.docs'_unique.
Defined.

Lemma schema_read_dependency_witness :
  exists i md, (BTreeMap.get i SchemaRegistryExample.docs = Some md \/ BTreeMap.get i SchemaRegistryExample.docs' = Some md) /\
    sm_state md = SchemaActive /\ BTreeMap.get i SchemaRegistryExample.docs <> BTreeMap.get i SchemaRegistryExample.docs'.
Proof.
  set (run := get_by_state SchemaRegistryExample.json false 0 [(Global, SchemaRegistryExample.reg)] Global SchemaActive SchemaRegistryExample.table SchemaRegistryExample.reads0).
  destruct run as [[reads' r]| |] eqn:Hrun; [|by vm_compute in Hrun..].
  destruct (schema_read_dependency false 0 SchemaRegistryExample.json SchemaRegistryExample.docs SchemaRegistryExample.docs' SchemaRegistryExample.reg
    (namespaced_bootstrap (map (fun e : ResolvedDocumentId * SchemaMetadata => MkSchemaDocument e.1 e.2) SchemaRegistryExample.docs'))
    [(Global, SchemaRegistryExample.reg)] Global SchemaActive SchemaRegistryExample.table SchemaRegistryExample.reads0 reads' r) as [H _].
  - apply bootstrap_follows; [apply SchemaRegistryExample.schema_docs_wf|apply SchemaRegistryExample.schema_docs_unique].
  - apply SchemaRegistryExample.schema_docs_unique.
  - apply bootstrap_follows; [apply SchemaRegistryExample.docs'_wf|apply SchemaRegistryExample.docs'_unique].
  - apply SchemaRegistryExample.docs'_unique.
  - reflexivity.
  - reflexivity.
  - exact Hrun.
  - apply read_set_empty_ok.
  - done.
  - unfold run in Hrun. vm_compute in Hrun. injection Hrun as _ <-. vm_compute. discriminate.
  - exact H.
Defined.

(** A schema that is overwritten and submitted again in one transaction can be
    lost: the new document enters the state with the metadata that the old one
    leaves, and when its change is applied first, the second change removes it.
    (Hence the hypothesis of [registry_follows_commit] on metadata.) *)
Theorem resubmitted_schema_lost :
  let old := MkSchemaMetadata SchemaPending [1] in
  let docs := [(SchemaRegistryExample.doc_id 2, old)] in
  let reg := namespaced_bootstrap [MkSchemaDocument (SchemaRegistryExample.doc_id 2) old] in
  let cs := [(SchemaRegistryExample.doc_id 1, Some old); (SchemaRegistryExample.doc_id 2, Some (MkSchemaMetadata SchemaOverwritten [1]))] in
  BTreeMap.get (SchemaRegistryExample.doc_id 1) (set_schemas docs cs) = Some old /\
  namespaced_get SchemaRegistryExample.json (fold_left (apply_change docs) cs reg) SchemaPending = Ret None /\
  is_Some (match namespaced_get SchemaRegistryExample.json (fold_left (apply_change docs) (rev cs) reg) SchemaPending with Ret r => r | _ => None end).
Proof. cbv zeta. split_and!; [by vm_compute|by vm_compute|]. vm_compute. by eexists. Qed.
