(* ===== verification/TableSummaries.v ===== *)
(** * TableSummaries: the number, size and shape of the documents of each table
      (src/crates/database/src/table_summary.rs,
       [TableSummaries] of src/crates/database/src/snapshot_manager.rs)

    A summary of a table counts its documents and their bytes and keeps their
    inferred shape; a snapshot keeps the summaries of its tables and three
    totals over the tables of the user.  [summaries_update] follows one document
    write, after the table registry has; [summaries_new] computes the totals
    from the summaries of the tables, and is what a restarted server uses.  The
    counters are [u64], whose overflow panics.  The server keeps the snapshot it
    had when an update fails, so an error carries no state. *)

From S2P Require Import Prelude Ord BTreeMap Timestamp Identifier Value Sorting SortingDecode Base32 IdV6 Document TableMapping IndexRegistry IndexUpdates Validator Shape ShapeInference ShapeMultiset ShapeMerge ShapeUnion ShapeCandidates ShapePush ShapeTracking ShapeRemoval ShapeHistory TableRegistry SchemaRegistry.

Local Open Scope Z_scope.

#[local] Existing Instance ProdConfig.

Notation ConvexObject := (BTreeMap.t (list Z) ConvexValue).

Definition u64_add {E} (a b : Z) : outcome E Z := if a + b <=? u64_max then Ret (a + b) else Panic.
Definition u64_sub {E} (a b : Z) : outcome E Z := if b <=? a then Ret (a - b) else Panic.

(** ** The summary of a table *)

Record TableSummary := MkSummary { inferred_type : ShapeEnum * Z; total_size : Z }.

Definition summary_empty : TableSummary := MkSummary shape_empty 0.
Definition num_values (self : TableSummary) : Z := (inferred_type self).2.
Definition summary_is_empty (self : TableSummary) : bool := shape_is_empty (inferred_type self) && (total_size self =? 0).

Definition summary_insert (fuel : nat) (self : TableSummary) (object : ConvexObject) : outcome unit TableSummary :=
  let? total_size := u64_add (total_size self) (size (Object object)) in
  let? inferred_type := shape_insert fuel (inferred_type self) (Object object) in
  Ret (MkSummary inferred_type total_size).

Definition summary_remove (fuel : nat) (self : TableSummary) (object : ConvexObject) : outcome unit TableSummary :=
  let? inferred_type := shape_remove fuel (inferred_type self) object in
  let? total_size := u64_sub (total_size self) (size (Object object)) in
  Ret (MkSummary inferred_type total_size).

Definition reset_shape (self : TableSummary) : outcome unit TableSummary :=
  let? inferred_type := shape_new SUnknown (num_values self) in
  Ret (MkSummary inferred_type (total_size self)).

(** ** The summaries of a snapshot *)

Record TableSummaries := MkSummaries {
  ts_tables : BTreeMap.t (list Z) TableSummary;
  num_user_documents : Z;
  user_tables_size : Z;
  user_docs_size : Z;
}.

Inductive summary_error := UpdatingNonExistentTable | RemovingFromTable | UnknownTablet (e : mapping_error) | MalformedTable | TimestampOverflow.

Definition shape_part {A} (m : outcome unit A) : outcome summary_error A :=
  match m with Ret a => Ret a | Err _ => Err RemovingFromTable | Panic => Panic end.
Definition naming {A} (m : outcome mapping_error A) : outcome summary_error A :=
  match m with Ret a => Ret a | Err e => Err (UnknownTablet e) | Panic => Panic end.

Definition has_virtual_table (self : VirtualSystemMapping) (table_name : list Z) : bool :=
  match BTreeMap.get table_name (virtual_to_system self) with Some _ => true | None => false end ||
  match BTreeMap.get table_name (system_to_virtual self) with Some _ => true | None => false end.

(** [TableSummaries::new], from the tables of a [TableSummarySnapshot]. *)
Definition summaries_new (tables : BTreeMap.t (list Z) TableSummary) (table_mapping : TableMapping)
    (virtual_table_mapping : VirtualSystemMapping) : outcome summary_error TableSummaries :=
  let tables := bfilter (fun e => tablet_id_exists table_mapping e.1) tables in
  let? (num_user_documents, user_tables_size) :=
    foldM (fun (acc : Z * Z) (e : list Z * TableSummary) =>
      let? docs := u64_add acc.1 (num_values e.2) in
      let? size := u64_add acc.2 (total_size e.2) in
      Ret (docs, size)) (0, 0) (bfilter (fun e => negb (is_system_tablet table_mapping e.1)) tables) in
  let? user_docs_size :=
    foldM (fun acc_size (e : list Z * TableSummary) =>
      let is_system_table := is_system_tablet table_mapping e.1 in
      let? name := naming (tablet_name table_mapping e.1) in
      if has_virtual_table virtual_table_mapping name || negb is_system_table
      then u64_add acc_size (total_size e.2) else Ret acc_size) 0 tables in
  Ret (MkSummaries tables num_user_documents user_tables_size user_docs_size).

Definition tablet_summary (self : TableSummaries) (table : list Z) : TableSummary :=
  default summary_empty (BTreeMap.get table (ts_tables self)).

(** [TableCountSnapshot::count]. *)
Definition table_count (self : option TableSummaries) (table : list Z) : option Z :=
  option_map (fun summaries => match BTreeMap.get table (ts_tables summaries) with Some summary => num_values summary | None => 0 end) self.

(** What a change of a [_tables] document does to the tables. *)
Definition update_tables {E} (tables : BTreeMap.t (list Z) TableSummary) (table_update : option TableUpdate)
    : outcome E (BTreeMap.t (list Z) TableSummary) :=
  match table_update with
  | None => Ret tables
  | Some u =>
      let present := match BTreeMap.get (tu_tablet u) tables with Some _ => true | None => false end in
      match tu_mode u with
      | Create _ => rassert (negb present) ;? Ret (BTreeMap.insert (tu_tablet u) summary_empty tables)
      | Activate => Ret tables
      | Drop => Ret (BTreeMap.remove (tu_tablet u) tables)
      | HardDelete => rassert (negb present) ;? Ret (BTreeMap.remove (tu_tablet u) tables)
      end
  end.

(** The table of the document is replaced, and the totals corrected by the
    difference between its old and its new summary. *)
Definition replace_summary (self : TableSummaries) (tables : BTreeMap.t (list Z) TableSummary) (tablet : list Z) (table_summary : TableSummary)
    (table_mapping : TableMapping) (virtual_system_mapping : VirtualSystemMapping) : outcome summary_error TableSummaries :=
  let new_info_num_values := num_values table_summary in
  let new_info_total_size := total_size table_summary in
  match BTreeMap.get tablet tables with
  | Some old_summary =>
      let is_system_table := is_system_tablet table_mapping tablet in
      let? (num_user_documents, user_tables_size) :=
        if negb is_system_table then
          let? n := u64_add (num_user_documents self) new_info_num_values in
          let? n := u64_sub n (num_values old_summary) in
          let? s := u64_add (user_tables_size self) new_info_total_size in
          let? s := u64_sub s (total_size old_summary) in
          Ret (n, s)
        else Ret (num_user_documents self, user_tables_size self) in
      let? name := naming (tablet_name table_mapping tablet) in
      let? user_docs_size :=
        if has_virtual_table virtual_system_mapping name || negb is_system_table then
          let? s := u64_add (user_docs_size self) new_info_total_size in
          u64_sub s (total_size old_summary)
        else Ret (user_docs_size self) in
      Ret (MkSummaries (BTreeMap.insert tablet table_summary tables) num_user_documents user_tables_size user_docs_size)
  | None => Panic
  end.

(** The old version of a document leaves its table and the new one joins it. *)
Definition change_summary (fuel : nat) (table_summary : TableSummary) (old new : option ConvexObject) : outcome summary_error TableSummary :=
  let? table_summary := match old with Some o => shape_part (summary_remove fuel table_summary o) | None => Ret table_summary end in
  match new with Some o => shape_part (summary_insert fuel table_summary o) | None => Ret table_summary end.

(** [TableSummaries::update]. *)
Definition summaries_update (fuel : nat) (self : TableSummaries) (document_id : ResolvedDocumentId) (old new : option ConvexObject)
    (table_update : option TableUpdate) (table_mapping : TableMapping) (virtual_system_mapping : VirtualSystemMapping)
    : outcome summary_error TableSummaries :=
  let? table_summary := ok_or (BTreeMap.get (tablet_id document_id) (ts_tables self)) UpdatingNonExistentTable in
  let? table_summary := change_summary fuel table_summary old new in
  let? tables := update_tables (ts_tables self) table_update in
  replace_summary self tables (tablet_id document_id) table_summary table_mapping virtual_system_mapping.

(** ** Sums and documents *)

Lemma zsum_perm l k : l ≡ₚ k -> zsum l = zsum k.
Proof. induction 1; cbn [zsum fold_right] in *; unfold zsum in *; lia. Qed.

Lemma zsum_app l k : zsum (l ++ k) = zsum l + zsum k.
Proof. induction l as [|x l IH]; cbn [app]; unfold zsum in *; cbn; lia. Qed.

Section sums.
Context {K V : Type} `{OrdLaws K, !EqDecision K}.
Implicit Types m : BTreeMap.t K V.

Lemma remove_missing m k : BTreeMap.wf m -> BTreeMap.get k m = None -> BTreeMap.remove k m = m.
Proof.
  intros Hwf Hg. apply BTreeMap.wf_ext; [by apply BTreeMap.wf_remove|done|]. intros [k' v]. rewrite <- !BTreeMap.elem_of_get by (done || by apply BTreeMap.wf_remove).
  destruct (decide (k' = k)) as [->|]; [rewrite BTreeMap.get_remove_eq by done; by rewrite Hg|by rewrite BTreeMap.get_remove_ne].
Qed.

Lemma insert_split m k v : BTreeMap.wf m -> BTreeMap.insert k v m ≡ₚ (k, v) :: BTreeMap.remove k m.
Proof.
  intros Hwf. pose proof (BTreeMap.wf_insert m k v Hwf) as Hi. pose proof (BTreeMap.wf_remove m k Hwf) as Hr.
  apply NoDup_Permutation.
  - exact (NoDup_fmap_1 fst _ (BTreeMap.wf_NoDup_fst _ Hi)).
  - apply NoDup_cons. split; [|exact (NoDup_fmap_1 fst _ (BTreeMap.wf_NoDup_fst _ Hr))]. rewrite <- BTreeMap.elem_of_get by done. by rewrite BTreeMap.get_remove_eq.
  - intros [k' v']. rewrite elem_of_cons, <- !BTreeMap.elem_of_get by done. rewrite BTreeMap.get_insert_if by done. destruct (decide (k' = k)) as [->|Hn].
    + rewrite BTreeMap.get_remove_eq by done. naive_solver.
    + rewrite BTreeMap.get_remove_ne by done. naive_solver.
Qed.

Lemma get_split m k v : BTreeMap.wf m -> BTreeMap.get k m = Some v -> m ≡ₚ (k, v) :: BTreeMap.remove k m.
Proof.
  intros Hwf Hg. rewrite <- insert_split by done. replace (BTreeMap.insert k v m) with m; [done|]. apply BTreeMap.wf_ext; [done|by apply BTreeMap.wf_insert|].
  intros [k' v']. rewrite <- !BTreeMap.elem_of_get by (done || by apply BTreeMap.wf_insert). rewrite BTreeMap.get_insert_if by done. destruct (decide (k' = k)) as [->|]; [by rewrite Hg|done].
Qed.

(** The sum of [f] over the entries whose key satisfies [p]. *)
Definition sum_over (p : K -> bool) (f : V -> Z) m : Z := zsum (map (fun e => if p e.1 then f e.2 else 0) m).

Lemma sum_over_get p f m k v : BTreeMap.wf m -> BTreeMap.get k m = Some v -> sum_over p f m = (if p k then f v else 0) + sum_over p f (BTreeMap.remove k m).
Proof. intros Hwf Hg. unfold sum_over. rewrite (zsum_perm _ _ (Permutation_map _ (get_split m k v Hwf Hg))). done. Qed.

Lemma sum_over_insert p f m k v : BTreeMap.wf m -> sum_over p f (BTreeMap.insert k v m) = (if p k then f v else 0) + sum_over p f (BTreeMap.remove k m).
Proof. intros Hwf. unfold sum_over. by rewrite (zsum_perm _ _ (Permutation_map _ (insert_split m k v Hwf))). Qed.

Lemma sum_over_ext p q f m : (forall e, e ∈ m -> p e.1 = q e.1) -> sum_over p f m = sum_over q f m.
Proof. intros He. unfold sum_over. f_equal. apply map_ext_in. intros e Hin. rewrite He; [done|]. by apply list_elem_of_In. Qed.

Lemma sum_over_nonneg p f m : (forall e, e ∈ m -> 0 <= f e.2) -> 0 <= sum_over p f m.
Proof. intros He. apply zsum_nonneg, Forall_map, Forall_forall. intros e Hin. cbn. specialize (He e Hin). by case_match; [|lia]. Qed.
End sums.

(** ** What a summary says *)

Definition bytes (vs : list ConvexValue) : Z := zsum (map size vs).
Definition summarises (s : TableSummary) (vs : list ConvexValue) : Prop := Holds (inferred_type s) vs /\ total_size s = bytes vs.

Definition documents : Type := BTreeMap.t ResolvedDocumentId ConvexObject.
Definition objects_of (docs : documents) (t : list Z) : list ConvexValue :=
  map (fun e : ResolvedDocumentId * ConvexObject => Object e.2) (bfilter (fun e => bool_decide (tablet_id e.1 = t)) docs).
Definition set_object (docs : documents) (i : ResolvedDocumentId) (new : option ConvexObject) : documents :=
  match new with Some o => BTreeMap.insert i o docs | None => BTreeMap.remove i docs end.
Definition new_bytes (new : option ConvexObject) : Z := match new with Some o => size (Object o) | None => 0 end.

Lemma bytes_perm vs ws : vs ≡ₚ ws -> bytes vs = bytes ws.
Proof. intros Hp. by apply zsum_perm, Permutation_map. Qed.

Lemma bytes_of_cons v vs : bytes (v :: vs) = size v + bytes vs.
Proof. done. Qed.

Lemma bytes_nonneg vs : 0 <= bytes vs.
Proof. apply zsum_nonneg, Forall_map, Forall_forall. intros v _. pose proof (size_pos v). cbn. lia. Qed.

Lemma summarises_perm s vs ws : vs ≡ₚ ws -> summarises s vs -> summarises s ws.
Proof. intros Hp [Hs Ht]. split; [by eapply Holds_perm|by rewrite <- (bytes_perm vs)]. Qed.

Lemma summarises_empty : summarises summary_empty [].
Proof. split; [by apply Holds_never|done]. Qed.

Lemma prod_union : (1 <= MAX_UNION_LENGTH)%nat.
Proof. cbn. lia. Qed.

Lemma summary_insert_ok s vs o : summarises s vs -> valid (Object o) = true -> bytes vs + size (Object o) <= u64_max ->
  exists s', evals (fun n => summary_insert n s o) (Ret s') /\ summarises s' (Object o :: vs).
Proof.
  intros [Hs Ht] Ho Hb. destruct (shape_insert_ok prod_union _ _ _ Hs Ho) as (t & He & Hh). exists (MkSummary t (total_size s + size (Object o))). split.
  - unfold summary_insert, u64_add. rewrite (proj2 (Z.leb_le _ _)) by lia. cbn [obind]. eapply evals_bind; [exact He|apply evals_const].
  - split; [done|]. cbn [total_size]. rewrite bytes_of_cons. lia.
Qed.

Lemma summary_remove_ok s vs ws o : summarises s vs -> valid (Object o) = true -> vs ≡ₚ Object o :: ws ->
  exists s', evals (fun n => summary_remove n s o) (Ret s') /\ summarises s' ws.
Proof.
  intros [Hs Ht] Ho Hp. destruct (remove_evals _ _ _ prod_union Hs Ho) as [[_ Hn]|(t & He & _ & _ & _ & Hh)]; [destruct Hn; rewrite Hp; by left|].
  assert (Hb : total_size s = size (Object o) + bytes ws) by (by rewrite Ht, (bytes_perm _ _ Hp)). pose proof (bytes_nonneg ws).
  exists (MkSummary t (total_size s - size (Object o))). split.
  - unfold summary_remove. eapply evals_bind; [exact He|]. unfold u64_sub. rewrite (proj2 (Z.leb_le _ _)) by lia. apply evals_const.
  - split; [by apply Hh|]. cbn [total_size]. lia.
Qed.

Lemma reset_shape_ok s vs : summarises s vs -> exists s', reset_shape s = Ret s' /\ summarises s' vs.
Proof.
  intros [(Hn & Hh & Ht) Hb]. exists (MkSummary (SUnknown, num_values s) (total_size s)). split; [|by split].
  unfold reset_shape, shape_new. rewrite orb_true_r. done.
Qed.

Lemma evals_shape_part {A} (f : nat -> outcome unit A) a : evals f (Ret a) -> evals (fun n => shape_part (f n)) (Ret a).
Proof. intros Hf. by apply (evals_app f (Ret a) (fun _ => shape_part)); [|apply evals_const]. Qed.

(** ** Documents of a table *)

Lemma objects_insert docs i o t : BTreeMap.wf docs ->
  objects_of (BTreeMap.insert i o docs) t ≡ₚ (if decide (tablet_id i = t) then [Object o] else []) ++ objects_of (BTreeMap.remove i docs) t.
Proof.
  intros Hwf. unfold objects_of. rewrite (bfilter_Permutation _ _ _ (insert_split docs i o Hwf)). cbn [bfilter fst]. by destruct (decide (tablet_id i = t)); [rewrite bool_decide_true|rewrite bool_decide_false].
Qed.

Lemma objects_get docs i o t : BTreeMap.wf docs -> BTreeMap.get i docs = Some o ->
  objects_of docs t ≡ₚ (if decide (tablet_id i = t) then [Object o] else []) ++ objects_of (BTreeMap.remove i docs) t.
Proof.
  intros Hwf Hg. unfold objects_of. rewrite (bfilter_Permutation _ _ _ (get_split docs i o Hwf Hg)) at 1. cbn [bfilter fst]. by destruct (decide (tablet_id i = t)); [rewrite bool_decide_true|rewrite bool_decide_false].
Qed.

Lemma objects_other docs i new t : BTreeMap.wf docs -> tablet_id i <> t -> objects_of (set_object docs i new) t ≡ₚ objects_of docs t.
Proof.
  intros Hwf Hne. assert (Hr : objects_of (BTreeMap.remove i docs) t ≡ₚ objects_of docs t).
  { destruct (BTreeMap.get i docs) as [o|] eqn:Hg; [by rewrite (objects_get docs i o t Hwf Hg), decide_False|by rewrite remove_missing]. }
  destruct new as [o|]; cbn [set_object]; [|done]. by rewrite objects_insert, decide_False.
Qed.

Lemma change_summary_ok docs s i old new : BTreeMap.wf docs -> BTreeMap.get i docs = old ->
  (forall o, old = Some o \/ new = Some o -> valid (Object o) = true) ->
  let vs := objects_of docs (tablet_id i) in summarises s vs -> bytes vs + new_bytes new <= u64_max ->
  exists s', evals (fun n => change_summary n s old new) (Ret s') /\ summarises s' (objects_of (set_object docs i new) (tablet_id i)).
Proof.
  intros Hwf Hg Hval vs Hs Hb. set (rest := objects_of (BTreeMap.remove i docs) (tablet_id i)).
  assert (exists s1, evals (fun n => match old with Some o => shape_part (summary_remove n s o) | None => Ret s end) (Ret s1) /\ summarises s1 rest /\ bytes rest <= bytes vs) as (s1 & He1 & Hs1 & Hle).
  { destruct old as [o|].
    - pose proof (objects_get docs i o (tablet_id i) Hwf Hg) as Hp. rewrite decide_True in Hp by done. cbn [app] in Hp.
      destruct (summary_remove_ok s vs rest o Hs ltac:(auto) Hp) as (s1 & He & Hs1). exists s1. split; [by apply evals_shape_part|]. split; [done|].
      unfold vs. rewrite (bytes_perm _ _ Hp), bytes_of_cons. change (bytes rest <= size (Object o) + bytes rest). pose proof (size_pos (Object o)). lia.
    - exists s. split; [apply evals_const|]. unfold rest. by rewrite remove_missing. }
  assert (exists s2, evals (fun n => match new with Some o => shape_part (summary_insert n s1 o) | None => Ret s1 end) (Ret s2) /\ summarises s2 (objects_of (set_object docs i new) (tablet_id i))) as (s2 & He2 & Hs2).
  { destruct new as [o|]; cbn [set_object new_bytes] in *; [|exists s1; split; [apply evals_const|done]].
    destruct (summary_insert_ok s1 rest o Hs1 ltac:(auto) ltac:(lia)) as (s2 & He & Hs2). exists s2. split; [by apply evals_shape_part|].
    eapply summarises_perm; [|done]. by rewrite objects_insert, decide_True. }
  exists s2. split; [|done]. unfold change_summary. eapply evals_bind; [exact He1|exact He2].
Qed.

(** ** What the summaries of a snapshot say *)

Definition is_user (table : option (TableNamespace * Z * list Z)) : bool :=
  match table with Some (_, _, name) => negb (is_system name) | None => true end.
Definition holds_user_docs (vm : VirtualSystemMapping) (table : option (TableNamespace * Z * list Z)) : bool :=
  match table with Some (_, _, name) => has_virtual_table vm name | None => false end || is_user table.

Definition sum_tables (P : option (TableNamespace * Z * list Z) -> bool) (f : TableSummary -> Z) (m : TableMapping)
    (tables : BTreeMap.t (list Z) TableSummary) : Z :=
  sum_over (fun t => P (tablet_lookup m t)) f tables.

(** By how much the totals exceed the sums over the tables. *)
Record Drift := MkDrift { extra_documents : Z; extra_tables_size : Z; extra_docs_size : Z }.

Record counts (m : TableMapping) (vm : VirtualSystemMapping) (d : Drift) (self : TableSummaries) (tables : BTreeMap.t (list Z) TableSummary) : Prop := {
  co_documents : num_user_documents self = extra_documents d + sum_tables is_user num_values m tables;
  co_tables_size : user_tables_size self = extra_tables_size d + sum_tables is_user total_size m tables;
  co_docs_size : user_docs_size self = extra_docs_size d + sum_tables (holds_user_docs vm) total_size m tables;
}.

Definition bounded (self : TableSummaries) : Prop :=
  num_user_documents self <= u64_max /\ user_tables_size self <= u64_max /\ user_docs_size self <= u64_max.

(** Every table of the mapping has a summary of its documents, no other tablet
    has one, and the totals exceed the sums over the tables by [d]. *)
Record tracks (m : TableMapping) (vm : VirtualSystemMapping) (docs : documents) (d : Drift) (self : TableSummaries) : Prop := {
  tr_wf : BTreeMap.wf (ts_tables self);
  tr_tables t : match BTreeMap.get t (ts_tables self) with
    | Some s => is_Some (tablet_lookup m t) /\ summarises s (objects_of docs t)
    | None => tablet_lookup m t = None
    end;
  tr_counts : counts m vm d self (ts_tables self);
  tr_bounded : bounded self;
}.

Definition no_drift : Drift := MkDrift 0 0 0.
Definition drift_ok (d : Drift) : Prop := 0 <= extra_documents d /\ 0 <= extra_tables_size d /\ 0 <= extra_docs_size d.

(** Dropping a table leaves what it counted in the totals. *)
Definition drift_after (m : TableMapping) (vm : VirtualSystemMapping) (docs : documents) (table_update : option TableUpdate) (d : Drift) : Drift :=
  match table_update with
  | Some u =>
      match tu_mode u with
      | Drop =>
          let vs := objects_of docs (tu_tablet u) in
          let table := tablet_lookup m (tu_tablet u) in
          MkDrift (extra_documents d + if is_user table then zlen vs else 0)
            (extra_tables_size d + if is_user table then bytes vs else 0)
            (extra_docs_size d + if holds_user_docs vm table then bytes vs else 0)
      | _ => d
      end
  | None => d
  end.

(** How the mapping changes with a [_tables] document. *)
Definition mapping_moves (m : TableMapping) (table_update : option TableUpdate) (m' : TableMapping) : Prop :=
  match table_update with
  | None => forall t, tablet_lookup m' t = tablet_lookup m t
  | Some u =>
      (forall t, t <> tu_tablet u -> tablet_lookup m' t = tablet_lookup m t) /\
      match tu_mode u with
      | Create _ => tablet_lookup m (tu_tablet u) = None /\ is_Some (tablet_lookup m' (tu_tablet u))
      | Activate => tablet_lookup m' (tu_tablet u) = tablet_lookup m (tu_tablet u)
      | Drop => is_Some (tablet_lookup m (tu_tablet u)) /\ tablet_lookup m' (tu_tablet u) = None
      | HardDelete => tablet_lookup m (tu_tablet u) = None /\ tablet_lookup m' (tu_tablet u) = None
      end
  end.

Section update.
Context (vm : VirtualSystemMapping).

Lemma get_present tables t : BTreeMap.get t tables = None -> forall e : list Z * TableSummary, e ∈ tables -> e.1 <> t.
Proof. intros Hg [k s] Hin Hk. cbn [fst] in Hk. subst k. by apply (proj1 (BTreeMap.get_None tables t) Hg s). Qed.

(** The tables after the change of a [_tables] document, and their sums. *)
Lemma update_tables_ok {E} m tables tu m' : BTreeMap.wf tables ->
  (forall t, is_Some (BTreeMap.get t tables) <-> is_Some (tablet_lookup m t)) -> mapping_moves m tu m' ->
  exists tables', update_tables (E := E) tables tu = Ret tables' /\ BTreeMap.wf tables' /\
    (forall t, BTreeMap.get t tables' = match tu with
       | Some u => if decide (t = tu_tablet u) then match tu_mode u with Create _ => Some summary_empty | Drop => None | _ => BTreeMap.get t tables end else BTreeMap.get t tables
       | None => BTreeMap.get t tables end) /\
    forall P f, f summary_empty = 0 -> sum_tables P f m tables = sum_tables P f m' tables' +
      match tu with
      | Some u => match tu_mode u, BTreeMap.get (tu_tablet u) tables with Drop, Some s => if P (tablet_lookup m (tu_tablet u)) then f s else 0 | _, _ => 0 end
      | None => 0 end.
Proof.
  intros Hwf Hdom Hm. unfold update_tables. destruct tu as [u|]; cbn [mapping_moves] in Hm.
  2: { exists tables. split_and!; [done..|]. intros P f _. rewrite Z.add_0_r. apply sum_over_ext. intros e _. by rewrite Hm. }
  destruct Hm as [Hother Hm]. set (t := tu_tablet u) in *.
  assert (Hext : forall P f k, (forall e : list Z * TableSummary, e ∈ k -> e.1 <> t) -> sum_tables P f m k = sum_tables P f m' k).
  { intros P f k Hk. apply sum_over_ext. intros e He. by rewrite Hother by by apply Hk. }
  assert (Hnone : tablet_lookup m t = None -> BTreeMap.get t tables = None).
  { intros Hl. destruct (BTreeMap.get t tables) eqn:Hg; [|done]. destruct (proj1 (Hdom t)); [by eexists|congruence]. }
  destruct (tu_mode u).
  - destruct Hm as [Hl _]. specialize (Hnone Hl). rewrite Hnone. cbn [negb rassert obind]. eexists. split; [done|]. split; [by apply BTreeMap.wf_insert|]. split.
    + intros t'. by rewrite BTreeMap.get_insert_if.
    + intros P f Hf. unfold sum_tables at 2. rewrite sum_over_insert, remove_missing, Hf by done. fold (sum_tables P f m' tables). rewrite (Hext P f tables (get_present _ _ Hnone)). case_match; lia.
  - exists tables. split_and!; [done..| |].
    + intros t'. by destruct (decide (t' = t)) as [->|].
    + intros P f _. rewrite Z.add_0_r. apply sum_over_ext. intros e _. destruct (decide (e.1 = t)) as [->|]; [by rewrite Hm|by rewrite Hother].
  - destruct Hm as [Hl Hl']. destruct (proj2 (Hdom t) Hl) as [s Hg]. eexists. split; [done|]. split; [by apply BTreeMap.wf_remove|]. split.
    + intros t'. destruct (decide (t' = t)) as [->|]; [by apply BTreeMap.get_remove_eq|by apply BTreeMap.get_remove_ne].
    + intros P f _. rewrite Hg. unfold sum_tables at 1. rewrite (sum_over_get _ f tables t s) by done. fold (sum_tables P f m (BTreeMap.remove t tables)).
      rewrite (Hext P f (BTreeMap.remove t tables)); [lia|]. apply get_present. by apply BTreeMap.get_remove_eq.
  - destruct Hm as [Hl _]. specialize (Hnone Hl). rewrite Hnone. cbn [negb rassert obind]. rewrite remove_missing by done. exists tables. split_and!; [done..| |].
    + intros t'. by destruct (decide (t' = t)).
    + intros P f _. rewrite (Hext P f tables (get_present _ _ Hnone)). lia.
Qed.

Definition nonneg (s : TableSummary) : Prop := 0 <= num_values s /\ 0 <= total_size s.

Lemma summarises_nonneg s vs : summarises s vs -> nonneg s /\ num_values s = zlen vs.
Proof. intros [(Hn & _) Ht]. unfold nonneg, num_values. rewrite Hn, Ht. pose proof (zlen_nonneg vs). pose proof (bytes_nonneg vs). lia. Qed.

(** Replacing a summary moves a sum by the difference, within the bounds. *)
Lemma sum_replace P f m tables t s s' d c : BTreeMap.wf tables -> BTreeMap.get t tables = Some s -> (forall e, e ∈ tables -> 0 <= f e.2) -> 0 <= d ->
  c = d + sum_tables P f m tables -> P (tablet_lookup m t) = true -> f s <= c /\ c + f s' - f s = d + sum_tables P f m (BTreeMap.insert t s' tables).
Proof.
  intros Hwf Hg Hf Hd -> HP. unfold sum_tables. rewrite (sum_over_get _ f tables t s), sum_over_insert, HP by done.
  assert (0 <= sum_over (fun t => P (tablet_lookup m t)) f (BTreeMap.remove t tables)); [|lia]. apply sum_over_nonneg. intros [k v] He. apply Hf. by apply BTreeMap.elem_of_remove in He as [_ He].
Qed.

Lemma sum_keep P f m tables t s s' : BTreeMap.wf tables -> BTreeMap.get t tables = Some s -> P (tablet_lookup m t) = false ->
  sum_tables P f m (BTreeMap.insert t s' tables) = sum_tables P f m tables.
Proof. intros Hwf Hg HP. unfold sum_tables. rewrite (sum_over_get _ f tables t s), sum_over_insert by done. by rewrite HP. Qed.

Lemma u64_add_ok {E} a b : a + b <= u64_max -> u64_add (E := E) a b = Ret (a + b).
Proof. intros Hle. unfold u64_add. by rewrite (proj2 (Z.leb_le _ _)). Qed.

Lemma u64_sub_ok {E} a b : b <= a -> u64_sub (E := E) a b = Ret (a - b).
Proof. intros Hle. unfold u64_sub. by rewrite (proj2 (Z.leb_le _ _)). Qed.

Lemma replace_summary_ok m d self tables t s s' : drift_ok d -> BTreeMap.wf tables -> BTreeMap.get t tables = Some s -> is_Some (tablet_lookup m t) ->
  (forall e, e ∈ tables -> nonneg e.2) -> nonneg s' -> counts m vm d self tables ->
  num_user_documents self + num_values s' <= u64_max -> user_tables_size self + total_size s' <= u64_max -> user_docs_size self + total_size s' <= u64_max ->
  exists self', replace_summary self tables t s' m vm = Ret self' /\ ts_tables self' = BTreeMap.insert t s' tables /\ counts m vm d self' (BTreeMap.insert t s' tables) /\ bounded self'.
Proof.
  intros (Hd1 & Hd2 & Hd3) Hwf Hg [[[ns number] name] Hl] Hn [Hn1 Hn2] [C1 C2 C3] B1 B2 B3. unfold replace_summary. rewrite Hg.
  assert (Hns : nonneg s) by (apply (Hn (t, s)); by apply BTreeMap.elem_of_get). destruct Hns as [? ?].
  assert (Hsys : is_system_tablet m t = is_system name) by (unfold is_system_tablet; unfold tablet_lookup in Hl; by rewrite Hl).
  assert (Hname : tablet_name m t = Ret name) by (unfold tablet_name, get_table_metadata; unfold tablet_lookup in Hl; by rewrite Hl).
  rewrite Hsys, Hname. cbn [naming obind].
  assert (Hfirst : exists n z, (if negb (is_system name) then
          let? n := u64_add (num_user_documents self) (num_values s') in
          let? n := u64_sub n (num_values s) in
          let? z := u64_add (user_tables_size self) (total_size s') in
          let? z := u64_sub z (total_size s) in Ret (n, z)
        else Ret (num_user_documents self, user_tables_size self)) = Ret (E := summary_error) (n, z) /\
      (n <= u64_max /\ z <= u64_max) /\ n = extra_documents d + sum_tables is_user num_values m (BTreeMap.insert t s' tables) /\
      z = extra_tables_size d + sum_tables is_user total_size m (BTreeMap.insert t s' tables)).
  { destruct (negb (is_system name)) eqn:Hu.
    - assert (HP : is_user (tablet_lookup m t) = true) by (by rewrite Hl).
      destruct (sum_replace is_user num_values m tables t s s' _ _ Hwf Hg (fun e He => proj1 (Hn e He)) Hd1 C1 HP) as [L1 E1].
      destruct (sum_replace is_user total_size m tables t s s' _ _ Hwf Hg (fun e He => proj2 (Hn e He)) Hd2 C2 HP) as [L2 E2].
      eexists _, _. split; [|split; [|split; [exact E1|exact E2]]]; [|lia]. rewrite (u64_add_ok _ _ B1). cbn [obind]. rewrite u64_sub_ok by lia. cbn [obind].
      rewrite (u64_add_ok _ _ B2). cbn [obind]. rewrite u64_sub_ok by lia. done.
    - assert (HP : is_user (tablet_lookup m t) = false) by (by rewrite Hl). eexists _, _. split; [done|]. split; [lia|]. by rewrite !(sum_keep _ _ _ _ _ s) by done. }
  destruct Hfirst as (n & z & -> & [M1 M2] & E1 & E2). cbn [obind].
  assert (Hsecond : exists y, (if has_virtual_table vm name || negb (is_system name) then
          let? s0 := u64_add (user_docs_size self) (total_size s') in u64_sub s0 (total_size s) else Ret (user_docs_size self)) = Ret (E := summary_error) y /\
      y <= u64_max /\ y = extra_docs_size d + sum_tables (holds_user_docs vm) total_size m (BTreeMap.insert t s' tables)).
  { destruct (has_virtual_table vm name || negb (is_system name)) eqn:Hu.
    - destruct (sum_replace (holds_user_docs vm) total_size m tables t s s' _ _ Hwf Hg (fun e He => proj2 (Hn e He)) Hd3 C3) as [L3 E3]; [by rewrite Hl|].
      eexists. split; [|split; [|exact E3]]; [|lia]. rewrite (u64_add_ok _ _ B3). cbn [obind]. by rewrite u64_sub_ok by lia.
    - eexists. split; [done|]. split; [lia|]. rewrite (sum_keep _ _ _ _ _ s) by (done || by rewrite Hl). done. }
  destruct Hsecond as (y & -> & M3 & E3). cbn [obind]. eexists. split; [done|]. split; [done|]. by split.
Qed.

(** The documents of a table grow by at most the new one. *)
Lemma objects_grow docs i new t : BTreeMap.wf docs ->
  zlen (objects_of (set_object docs i new) t) <= zlen docs + 1 /\ bytes (objects_of (set_object docs i new) t) <= bytes (objects_of docs t) + new_bytes new.
Proof.
  intros Hwf.
  assert (Hr : zlen (objects_of (BTreeMap.remove i docs) t) <= zlen docs /\ bytes (objects_of (BTreeMap.remove i docs) t) <= bytes (objects_of docs t)).
  { assert (Hle : forall k : documents, zlen (objects_of k t) <= zlen k) by (intros k; unfold objects_of, zlen; rewrite length_map; induction k as [|e k IH]; cbn [bfilter length]; [lia|case_match; cbn [length]; lia]).
    destruct (BTreeMap.get i docs) as [o|] eqn:Hg; [|rewrite remove_missing by done; split; [apply Hle|lia]].
    pose proof (objects_get docs i o t Hwf Hg) as Hp. rewrite (bytes_perm _ _ Hp). specialize (Hle docs). assert (zlen (objects_of docs t) = zlen ((if decide (tablet_id i = t) then [Object o] else []) ++ objects_of (BTreeMap.remove i docs) t)) as Hz by (unfold zlen; by rewrite Hp).
    rewrite Hz in Hle. pose proof (size_pos (Object o)). destruct (decide (tablet_id i = t)); cbn [app] in *; rewrite ?bytes_of_cons; unfold zlen in *; cbn [length] in *; lia. }
  destruct new as [o|]; cbn [set_object new_bytes]; [|lia].
  pose proof (objects_insert docs i o t Hwf) as Hp. rewrite (bytes_perm _ _ Hp). assert (zlen (objects_of (BTreeMap.insert i o docs) t) = zlen ((if decide (tablet_id i = t) then [Object o] else []) ++ objects_of (BTreeMap.remove i docs) t)) as -> by (unfold zlen; by rewrite Hp).
  pose proof (size_pos (Object o)). destruct (decide (tablet_id i = t)); cbn [app]; rewrite ?bytes_of_cons; unfold zlen in *; cbn [length]; lia.
Qed.

Definition docs_bytes (docs : documents) : Z := bytes (map (fun e : ResolvedDocumentId * ConvexObject => Object e.2) docs).

Lemma objects_bytes docs t : bytes (objects_of docs t) <= docs_bytes docs.
Proof.
  unfold docs_bytes, objects_of, bytes. rewrite !map_map. apply zsum_bfilter. intros e. pose proof (size_pos (Object e.2)). lia.
Qed.

(** The counters have room for the new document. *)
Definition room (self : TableSummaries) (docs : documents) (new : option ConvexObject) : Prop :=
  num_user_documents self + zlen docs + 1 <= u64_max /\
  user_tables_size self + docs_bytes docs + new_bytes new <= u64_max /\ user_docs_size self + docs_bytes docs + new_bytes new <= u64_max.

Lemma tracks_domain m docs d self : tracks m vm docs d self -> forall t, is_Some (BTreeMap.get t (ts_tables self)) <-> is_Some (tablet_lookup m t).
Proof.
  intros [_ Tt _ _] t. specialize (Tt t). destruct (BTreeMap.get t (ts_tables self)); [split; [by intros _; apply Tt|by eexists]|rewrite Tt; split; intros []; congruence].
Qed.

Lemma tracks_nonneg m docs d self : tracks m vm docs d self -> forall e, e ∈ ts_tables self -> nonneg e.2.
Proof.
  intros [Twf Tt _ _] [t s] He. apply BTreeMap.elem_of_get in He; [|done]. specialize (Tt t). rewrite He in Tt. by eapply summarises_nonneg, Tt.
Qed.

Lemma drift_after_ok m docs tu d : drift_ok d -> drift_ok (drift_after m vm docs tu d).
Proof.
  intros Hd. unfold drift_after. destruct tu as [u|]; [|done]. destruct (tu_mode u); try done. destruct Hd as (? & ? & ?).
  pose proof (zlen_nonneg (objects_of docs (tu_tablet u))). pose proof (bytes_nonneg (objects_of docs (tu_tablet u))).
  unfold drift_ok. cbn [extra_documents extra_tables_size extra_docs_size]. repeat case_match; lia.
Qed.

(** The totals against the sums over the changed tables. *)
Lemma counts_after m m' docs d self tables tu : mapping_moves m tu m' ->
  (forall t, is_Some (BTreeMap.get t (ts_tables self)) <-> is_Some (tablet_lookup m t)) ->
  (forall t, match BTreeMap.get t (ts_tables self) with Some s => is_Some (tablet_lookup m t) /\ summarises s (objects_of docs t) | None => tablet_lookup m t = None end) ->
  counts m vm d self (ts_tables self) ->
  (forall P f, f summary_empty = 0 -> sum_tables P f m (ts_tables self) = sum_tables P f m' tables +
      match tu with
      | Some u => match tu_mode u, BTreeMap.get (tu_tablet u) (ts_tables self) with Drop, Some s => if P (tablet_lookup m (tu_tablet u)) then f s else 0 | _, _ => 0 end
      | None => 0 end) ->
  counts m' vm (drift_after m vm docs tu d) self tables.
Proof.
  intros Hm Hdom Tt [C1 C2 C3] Hsums. rewrite (Hsums is_user num_values eq_refl) in C1. rewrite (Hsums is_user total_size eq_refl) in C2. rewrite (Hsums (holds_user_docs vm) total_size eq_refl) in C3.
  unfold drift_after. destruct tu as [u|]; [|by constructor; lia]. destruct (tu_mode u) eqn:Hmode; try by constructor; lia.
  cbn [mapping_moves] in Hm. rewrite Hmode in Hm. destruct (proj2 (Hdom (tu_tablet u)) (proj1 (proj2 Hm))) as [x Hx]. rewrite Hx in C1, C2, C3. specialize (Tt (tu_tablet u)). rewrite Hx in Tt.
  destruct Tt as [_ Htx]. rewrite (proj2 (summarises_nonneg _ _ Htx)) in C1. rewrite (proj2 Htx) in C2, C3. constructor; cbn [extra_documents extra_tables_size extra_docs_size]; lia.
Qed.

Lemma summaries_update_ok m m' docs d self i old new tu :
  BTreeMap.wf docs -> BTreeMap.get i docs = old -> (forall o, old = Some o \/ new = Some o -> valid (Object o) = true) ->
  tracks m vm docs d self -> drift_ok d -> mapping_moves m tu m' -> is_Some (tablet_lookup m (tablet_id i)) ->
  (forall u, tu = Some u -> (exists st, tu_mode u = Create st) -> objects_of docs (tu_tablet u) = []) ->
  (forall u, tu = Some u -> tu_mode u = Drop -> tu_tablet u <> tablet_id i) -> room self docs new ->
  exists self', evals (fun fuel => summaries_update fuel self i old new tu m' vm) (Ret self') /\ tracks m' vm (set_object docs i new) (drift_after m vm docs tu d) self'.
Proof.
  intros Hwf Hold Hval Htr Hd Hm Hi Hnew Hdrop (R1 & R2 & R3).
  pose proof (tracks_domain _ _ _ _ Htr) as Hdom. pose proof (tracks_nonneg _ _ _ _ Htr) as Hnn. destruct Htr as [Twf Tt Tc _].
  destruct (proj2 (Hdom _) Hi) as [s Hs]. pose proof (Tt (tablet_id i)) as Hti. rewrite Hs in Hti. destruct Hti as [_ Hsum].
  pose proof (objects_grow docs i new (tablet_id i) Hwf) as [Hg1 Hg2]. pose proof (objects_bytes docs (tablet_id i)) as Hob.
  assert (Hpos : 0 <= user_tables_size self).
  { rewrite (co_tables_size _ _ _ _ _ Tc). destruct Hd as (_ & ? & _). assert (0 <= sum_tables is_user total_size m (ts_tables self)); [|lia]. apply sum_over_nonneg. intros e He. by apply Hnn. }
  destruct (change_summary_ok docs s i old new Hwf Hold Hval Hsum ltac:(lia)) as (s' & He & Hs').
  destruct (summarises_nonneg _ _ Hs') as [Hn' Hv'].
  destruct (update_tables_ok (E := summary_error) m (ts_tables self) tu m' Twf Hdom Hm) as (tables & Hu & Hwf' & Hget & Hsums).
  assert (Hi' : is_Some (tablet_lookup m' (tablet_id i)) /\ BTreeMap.get (tablet_id i) tables = Some s).
  { rewrite Hget. destruct tu as [u|]; cbn [mapping_moves] in Hm; [|by rewrite Hm]. destruct Hm as [Ho Hm]. destruct (decide (tablet_id i = tu_tablet u)) as [E|]; [|by rewrite Ho].
    rewrite <- E in Hm. destruct (tu_mode u) eqn:Hmode; [by destruct Hm as [Hx _], Hi; congruence|by rewrite Hm|by destruct (Hdrop u eq_refl Hmode)|by destruct Hm as [Hx _], Hi; congruence]. }
  destruct Hi' as [Hi' Hs1].
  assert (Hnn' : forall e, e ∈ tables -> nonneg e.2).
  { intros [t x] Hin. apply BTreeMap.elem_of_get in Hin; [|done]. rewrite Hget in Hin. assert (Hold' : BTreeMap.get t (ts_tables self) = Some x -> nonneg x) by (intros Hx; apply (Hnn (t, x)); by apply BTreeMap.elem_of_get).
    destruct tu as [u|]; [|auto]. destruct (decide _); [|auto]. destruct (tu_mode u); [injection Hin as <-; by split|auto|done|auto]. }
  assert (Hc' : counts m' vm (drift_after m vm docs tu d) self tables) by (eapply counts_after; eauto).
  pose proof (drift_after_ok m docs tu d Hd) as Hd'.
  assert (Ht' : total_size s' <= docs_bytes docs + new_bytes new) by (rewrite (proj2 Hs'); lia).
  destruct (replace_summary_ok m' (drift_after m vm docs tu d) self tables (tablet_id i) s s' Hd' Hwf' Hs1 Hi' Hnn' Hn' Hc' ltac:(lia) ltac:(lia) ltac:(lia)) as (self' & Hr & Hts & Hcs & Hb').
  exists self'. split.
  - unfold summaries_update. rewrite Hs. cbn [ok_or obind]. eapply evals_bind; [exact He|]. rewrite Hu. cbn [obind]. rewrite Hr. apply evals_const.
  - constructor; [rewrite Hts; by apply BTreeMap.wf_insert| |by rewrite Hts|done]. intros t. rewrite Hts, BTreeMap.get_insert_if by done.
    destruct (decide (t = tablet_id i)) as [->|Hne]; [by split|]. pose proof (objects_other docs i new t Hwf ltac:(congruence)) as Hp. rewrite Hget. specialize (Tt t).
    assert (Hkeep : tablet_lookup m' t = tablet_lookup m t -> match BTreeMap.get t (ts_tables self) with Some s0 => is_Some (tablet_lookup m' t) /\ summarises s0 (objects_of (set_object docs i new) t) | None => tablet_lookup m' t = None end).
    { intros ->. destruct (BTreeMap.get t (ts_tables self)); [|done]. destruct Tt as [? ?]. split; [done|]. by eapply summarises_perm. }
    destruct tu as [u|]; cbn [mapping_moves] in Hm; [|by apply Hkeep]. destruct Hm as [Ho Hm]. destruct (decide (t = tu_tablet u)) as [->|]; [|by apply Hkeep, Ho].
    destruct (tu_mode u) eqn:Hmode; [|by apply Hkeep|by destruct Hm|apply Hkeep; by destruct Hm as [-> ->]].
    split; [by destruct Hm|]. eapply summarises_perm; [by symmetry|]. rewrite (Hnew u eq_refl) by (by eexists). apply summarises_empty.
Qed.
End update.

(** ** With the table registry *)

Section registry.
Context (try_from : ConvexValue -> option TableMetadata).

(** A write to [_tables] changes the state of a table in a way the registry
    follows, [tdocs] being its documents; other writes do not concern it. *)
Inductive table_write (r : TableRegistry) (tdocs : docs_t) (i : ResolvedDocumentId) (old new : option ConvexObject) : Prop :=
| write_elsewhere : ~ in_tables r i -> table_write r tdocs i old new
| write_tables number md md' : tablet_lookup (table_mapping r) (tablet_id i) = Some (Global, number, TABLES_TABLE) -> BTreeMap.get (internal_id (developer_id i)) tdocs = md -> tracked md md' ->
    parses try_from (option_map Object old) md -> parses try_from (option_map Object new) md' -> table_write r tdocs i old new.

(** [_tables] itself is not dropped. *)
Lemma tables_not_dropped r tdocs i number md : follows (tablet_states r) (table_mapping r) tdocs -> tablet_lookup (table_mapping r) (tablet_id i) = Some (Global, number, TABLES_TABLE) ->
  BTreeMap.get (internal_id (developer_id i)) tdocs = Some md -> md_state md = Active -> internal_id (developer_id i) = tablet_id i ->
  ensure match md_namespace md with ByComponent _ => true | Global => forallb (fun n => negb (bool_decide (n = md_name md))) bootstrap_system_tables end BootstrapTableDeleted <> Ret tt.
Proof.
  intros Hf Hin Hg Hs Ht. rewrite <- Ht, (fo_tablets _ _ _ Hf), Hg, decide_False in Hin by congruence. injection Hin as -> _ ->. by vm_compute.
Qed.

Lemma registry_moves r r' ixr tdocs i old new tu : follows (tablet_states r) (table_mapping r) tdocs -> table_write r tdocs i old new ->
  registry_update try_from r ixr i (option_map Object old) (option_map Object new) = Ret (r', tu) ->
  mapping_moves (table_mapping r) tu (table_mapping r') /\
  (forall u, tu = Some u -> (exists st, tu_mode u = Create st) -> tablet_lookup (table_mapping r) (tu_tablet u) = None) /\
  (forall u, tu = Some u -> tu_mode u = Drop -> tu_tablet u <> tablet_id i).
Proof.
  intros Hf Hw. pose proof (fo_mapping_wf _ _ _ Hf) as Hmw. unfold registry_update, begin_update.
  destruct Hw as [Hn|number md md' Hin Hg Htr Hpo Hpn].
  { unfold in_tables in Hn. destruct (tablet_matches_name _ _ _); [done|]. cbn [obind apply_update]. by intros [= <- <-]. }
  assert (Hmatch : in_tables r i) by (unfold in_tables, tablet_matches_name; unfold tablet_lookup in Hin; cbn [mapping_namespace ns_tablet_to_table]; by rewrite Hin).
  rewrite Hmatch. set (t := internal_id (developer_id i)) in *. pose proof (fo_tablets _ _ _ Hf t) as Hl. rewrite Hg in Hl.
  destruct Htr as [md Hs|md Hs|md Hs|md|md Hs]; destruct old as [o|], new as [o'|]; cbn [option_map parses] in *; try done.
  - unfold begin_create. rewrite Hpn. cbn [ok_or obind]. destruct (if is_active md then _ else _) as [[]| |]; cbn [obind]; [|done..].
    cbn [apply_update tu_mode obind tu_tablet]. intros [= <- <-]. cbn [mapping_moves tu_mode tu_tablet table_mapping tu_namespace tu_number tu_name]. set (u := MkTableUpdate _ _ _ _ _).
    assert (Hm1 : mapping_wf (if activates u then mapping_insert (table_mapping r) t (md_namespace md) (md_number md) (md_name md) else table_mapping r) /\
      forall t', t' <> t -> tablet_lookup (if activates u then mapping_insert (table_mapping r) t (md_namespace md) (md_number md) (md_name md) else table_mapping r) t' = tablet_lookup (table_mapping r) t').
    { destruct (activates u); [|done]. destruct (mapping_insert_ok _ t (md_namespace md) (md_number md) (md_name md) Hmw) as (Hw1 & Hl1 & _). split; [done|]. intros t' Ht. by rewrite Hl1, decide_False. }
    destruct Hm1 as [Hw1 Hl1]. destruct (insert_tablet_ok _ t (md_namespace md) (md_number md) (md_name md) Hw1) as (_ & Hl2 & _). split_and!; [|done| |by intros u' [= <-]|by intros u' [= <-]].
    + intros t' Ht. rewrite Hl2, decide_False by done. by apply Hl1.
    + rewrite Hl2, decide_True by done. by eexists.
  - unfold begin_edit. rewrite Hpo, Hpn. cbn [ok_or obind]. unfold ensure at 1 2. rewrite !bool_decide_true by done. cbn [obind]. unfold is_active at 1. rewrite !bool_decide_true by done. cbn [andb].
    destruct (ensure _ BootstrapTableDeleted) as [[]| |] eqn:Hb; cbn [obind]; [|done..]. destruct (has_no_indexes ixr t) as [b| |]; cbn [obind]; [|done..]. destruct (ensure b StillHasIndexes) as [[]| |]; cbn [obind]; [|done..].
    rewrite decide_False in Hl by congruence. destruct (mapping_remove_ok (E := table_error) (table_mapping r) t _ _ _ Hmw Hl) as (m' & Hm' & _ & Hl' & _).
    cbn [apply_update activates tu_mode tu_tablet]. rewrite Hm'. cbn [obind]. intros [= <- <-]. cbn [mapping_moves tu_mode tu_tablet table_mapping]. split_and!.
    + intros t' Ht. by rewrite Hl', decide_False.
    + rewrite Hl. by eexists.
    + by rewrite Hl', decide_True.
    + by intros u [= <-] [st ?].
    + intros u [= <-] _. cbn [tu_tablet]. intros E. by apply (tables_not_dropped r tdocs i number md).
  - unfold begin_edit. rewrite Hpo, Hpn. cbn [ok_or obind]. unfold ensure at 1 2. rewrite !bool_decide_true by done. cbn [obind]. unfold is_active. rewrite (bool_decide_false (md_state md = Active)) by congruence.
    cbn [andb with_state md_state]. rewrite Hs, !bool_decide_true by done. cbn [andb obind apply_update activates tu_mode tu_tablet tu_namespace tu_number tu_name]. intros [= <- <-]. cbn [mapping_moves tu_mode tu_tablet table_mapping].
    destruct (mapping_insert_ok _ t (md_namespace md) (md_number md) (md_name md) Hmw) as (_ & Hl1 & _). rewrite decide_False in Hl by congruence. split_and!.
    + intros t' Ht. by rewrite Hl1, decide_False.
    + by rewrite Hl1, decide_True.
    + by intros u [= <-] [st ?].
    + by intros u [= <-].
  - unfold begin_edit. rewrite Hpo, Hpn. cbn [ok_or obind]. unfold ensure at 1 2. rewrite !bool_decide_true by done. cbn [obind]. unfold is_active.
    assert (bool_decide (md_state md = Active) && bool_decide (md_state md = Deleting) = false) as -> by (by destruct (md_state md)).
    assert (bool_decide (md_state md = Hidden) && bool_decide (md_state md = Active) = false) as -> by (by destruct (md_state md)). cbn [obind apply_update]. by intros [= <- <-].
  - unfold begin_delete. rewrite Hpo. cbn [ok_or obind apply_update activates tu_mode tu_tablet]. destruct (rassert _) as [[]| |]; cbn [obind]; [|done..]. intros [= <- <-]. cbn [mapping_moves tu_mode tu_tablet table_mapping].
    rewrite decide_True in Hl by done. by split_and!; [| | |intros u [= <-] [st ?]|intros u [= <-]].
Qed.
End registry.

(** ** Computing the totals *)

Lemma sum_over_bfilter {K V} (p : K -> bool) (f : V -> Z) (m : BTreeMap.t K V) : sum_over p f m = zsum (map (fun e => f e.2) (bfilter (fun e => p e.1) m)).
Proof. unfold sum_over. induction m as [|e m IH]; [done|]. cbn [map bfilter]. destruct (p e.1); cbn [map]; unfold zsum in *; cbn [fold_right]; lia. Qed.

Lemma fold_user_ok {E} (l : list (list Z * TableSummary)) : forall a b, (forall e, e ∈ l -> nonneg e.2) ->
  a + zsum (map (fun e => num_values e.2) l) <= u64_max -> b + zsum (map (fun e => total_size e.2) l) <= u64_max ->
  foldM (E := E) (fun (acc : Z * Z) (e : list Z * TableSummary) =>
      let? docs := u64_add acc.1 (num_values e.2) in
      let? size := u64_add acc.2 (total_size e.2) in
      Ret (docs, size)) (a, b) l = Ret (a + zsum (map (fun e => num_values e.2) l), b + zsum (map (fun e => total_size e.2) l)).
Proof.
  induction l as [|e l IH]; intros a b Hn Ha Hb; [cbn; by rewrite !Z.add_0_r|]. cbn [foldM map zsum fold_right fst snd] in *. fold (zsum (map (fun e => num_values e.2) l)) in *. fold (zsum (map (fun e => total_size e.2) l)) in *.
  assert (Hl : forall e, e ∈ l -> nonneg e.2) by (intros x Hx; apply Hn; by right). destruct (Hn e ltac:(by left)) as [? ?].
  assert (0 <= zsum (map (fun e => num_values e.2) l) /\ 0 <= zsum (map (fun e => total_size e.2) l)) as [? ?] by (split; apply zsum_nonneg, Forall_map, Forall_forall; intros x Hx; by apply Hl).
  rewrite !u64_add_ok by lia. cbn [obind]. rewrite IH by (done || lia). do 2 f_equal; lia.
Qed.

Lemma fold_docs_ok m vm (l : list (list Z * TableSummary)) : forall a, (forall e, e ∈ l -> nonneg e.2 /\ is_Some (tablet_lookup m e.1)) ->
  a + sum_tables (holds_user_docs vm) total_size m l <= u64_max ->
  foldM (fun acc_size (e : list Z * TableSummary) =>
      let is_system_table := is_system_tablet m e.1 in
      let? name := naming (tablet_name m e.1) in
      if has_virtual_table vm name || negb is_system_table
      then u64_add acc_size (total_size e.2) else Ret acc_size) a l = Ret (a + sum_tables (holds_user_docs vm) total_size m l).
Proof.
  induction l as [|e l IH]; intros a Hn Ha; [cbn; by rewrite Z.add_0_r|]. unfold sum_tables, sum_over in *. cbn [foldM map zsum fold_right] in *.
  set (rest := map _ l) in *. fold (zsum rest) in *. destruct (Hn e ltac:(by left)) as [[_ Hs] [[[ns number] name] Hl]].
  assert (0 <= zsum rest) by (apply zsum_nonneg, Forall_map, Forall_forall; intros x Hx; destruct (Hn x ltac:(by right)) as [[_ ?] _]; cbv beta; destruct (holds_user_docs vm (tablet_lookup m x.1)); lia).
  assert (is_system_tablet m e.1 = is_system name) as -> by (unfold is_system_tablet; unfold tablet_lookup in Hl; by rewrite Hl).
  assert (tablet_name m e.1 = Ret name) as -> by (unfold tablet_name, get_table_metadata; unfold tablet_lookup in Hl; by rewrite Hl). cbn [naming obind].
  rewrite Hl in *. change (holds_user_docs vm (Some (ns, number, name))) with (has_virtual_table vm name || negb (is_system name)) in *.
  destruct (has_virtual_table vm name || negb (is_system name)); [rewrite u64_add_ok by lia|]; cbn [obind].
  - rewrite IH; [f_equal; lia|intros x Hx; apply Hn; by right|lia].
  - rewrite IH; [f_equal; lia|intros x Hx; apply Hn; by right|lia].
Qed.

Lemma summaries_new_ok tables m vm : let known := bfilter (fun e => tablet_id_exists m e.1) tables in
  (forall e, e ∈ known -> nonneg e.2) -> sum_tables is_user num_values m known <= u64_max ->
  sum_tables is_user total_size m known <= u64_max -> sum_tables (holds_user_docs vm) total_size m known <= u64_max ->
  exists self, summaries_new tables m vm = Ret self /\ ts_tables self = known /\ counts m vm no_drift self known.
Proof.
  intros known Hn B1 B2 B3. unfold summaries_new. fold known.
  assert (Hlook : forall e, e ∈ known -> is_Some (tablet_lookup m e.1)).
  { intros e [_ He]%elem_of_bfilter. unfold tablet_id_exists in He. unfold tablet_lookup. by destruct (BTreeMap.get e.1 (tablet_to_table m)). }
  assert (Huser : forall f, sum_tables is_user f m known = zsum (map (fun e => f e.2) (bfilter (fun e => negb (is_system_tablet m e.1)) known))).
  { intros f. unfold sum_tables. rewrite sum_over_bfilter. do 2 f_equal. apply bfilter_ext. intros e _. unfold is_system_tablet, tablet_lookup. by destruct (BTreeMap.get e.1 (tablet_to_table m)) as [[[? ?] ?]|]. }
  rewrite fold_user_ok; [|intros e [He _]%elem_of_bfilter; by apply Hn|rewrite <- Huser; lia..]. cbn [obind]. rewrite fold_docs_ok; [|intros e He; split; [by apply Hn|by apply Hlook]|lia]. cbn [obind].
  eexists. split; [done|]. split; [done|]. constructor; cbn [num_user_documents user_tables_size user_docs_size extra_documents extra_tables_size extra_docs_size no_drift]; by rewrite ?Huser.
Qed.

(** Computing the totals again forgets the drift. *)
Lemma reload_ok m vm docs d self : tracks m vm docs d self -> drift_ok d -> exists reloaded, summaries_new (ts_tables self) m vm = Ret reloaded /\ tracks m vm docs no_drift reloaded /\
  num_user_documents self = extra_documents d + num_user_documents reloaded /\ user_tables_size self = extra_tables_size d + user_tables_size reloaded /\ user_docs_size self = extra_docs_size d + user_docs_size reloaded.
Proof.
  intros Htr (D1 & D2 & D3). pose proof (tracks_nonneg _ _ _ _ _ Htr) as Hn. pose proof (tracks_domain _ _ _ _ _ Htr) as Hdom. destruct Htr as [Twf Tt [C1 C2 C3] (B1 & B2 & B3)].
  assert (Hall : bfilter (fun e : list Z * TableSummary => tablet_id_exists m e.1) (ts_tables self) = ts_tables self).
  { apply bfilter_all. intros [t s] He. apply BTreeMap.elem_of_get in He; [|done]. destruct (proj1 (Hdom t)) as [x Hx]; [by eexists|]. unfold tablet_id_exists. unfold tablet_lookup in Hx. cbn [fst]. by rewrite Hx. }
  destruct (summaries_new_ok (ts_tables self) m vm) as (reloaded & He & Hts & Hc); rewrite ?Hall in *; [done|lia..|]. exists reloaded. split; [done|]. destruct Hc as [E1 E2 E3]. cbn [no_drift extra_documents extra_tables_size extra_docs_size] in *.
  split; [|lia]. constructor; rewrite ?Hts; [done|done|by constructor|]. unfold bounded. lia.
Qed.

(** ** Theorems *)

(** C15: the summaries follow the writes.  Let every table of the mapping have a
    summary of its documents (exact shape and counts, total size in bytes) and
    the totals exceed the sums over the tables by [d].  When a document is
    written, the table registry accepts the change and the counters have room,
    the update of the summaries succeeds with enough fuel: no assertion fails,
    nothing overflows, the removal of the old version is not refused; and the
    same holds of the new mapping and the new documents, where [d] has grown by
    what a dropped table counted and is otherwise unchanged. *)
Theorem summaries_follow_writes (try_from : ConvexValue -> option TableMetadata) (vm : VirtualSystemMapping) (r r' : TableRegistry) (ixr : IndexRegistry)
    (tdocs : docs_t) (docs : documents) (d : Drift) (self : TableSummaries) (i : ResolvedDocumentId) (old new : option ConvexObject) (tu : option TableUpdate) :
  follows (tablet_states r) (table_mapping r) tdocs -> table_write try_from r tdocs i old new ->
  registry_update try_from r ixr i (option_map Object old) (option_map Object new) = Ret (r', tu) ->
  BTreeMap.wf docs -> BTreeMap.get i docs = old -> (forall o, old = Some o \/ new = Some o -> valid (Object o) = true) ->
  is_Some (tablet_lookup (table_mapping r) (tablet_id i)) ->
  (forall u st, tu = Some u -> tu_mode u = Create st -> objects_of docs (tu_tablet u) = []) ->
  tracks (table_mapping r) vm docs d self -> drift_ok d -> room self docs new ->
  exists self', evals (fun fuel => summaries_update fuel self i old new tu (table_mapping r') vm) (Ret self') /\
    tracks (table_mapping r') vm (set_object docs i new) (drift_after (table_mapping r) vm docs tu d) self'.
Proof.
  intros Hf Hw Hr Hwf Hold Hval Hi Hfresh Htr Hd Hroom. destruct (registry_moves try_from r r' ixr tdocs i old new tu Hf Hw Hr) as (Hm & _ & Hdrop).
  eapply summaries_update_ok; eauto. intros u Hu [st Hst]. by eapply Hfresh.
Qed.

(** The totals of a snapshot still count the documents of a table that was
    dropped, although its summary is gone: after the drop of a user table they
    exceed, by the number of its documents and their bytes, the totals that
    [TableSummaries::new] computes from the same tables, which a restarted
    server reports. *)
Theorem dropped_table_stays_counted (try_from : ConvexValue -> option TableMetadata) (vm : VirtualSystemMapping) (r r' : TableRegistry) (ixr : IndexRegistry)
    (tdocs : docs_t) (docs : documents) (self : TableSummaries) (i : ResolvedDocumentId) (old new : option ConvexObject) (u : TableUpdate) :
  follows (tablet_states r) (table_mapping r) tdocs -> table_write try_from r tdocs i old new ->
  registry_update try_from r ixr i (option_map Object old) (option_map Object new) = Ret (r', Some u) ->
  BTreeMap.wf docs -> BTreeMap.get i docs = old -> (forall o, old = Some o \/ new = Some o -> valid (Object o) = true) ->
  is_Some (tablet_lookup (table_mapping r) (tablet_id i)) -> tu_mode u = Drop -> is_system_tablet (table_mapping r) (tu_tablet u) = false ->
  tracks (table_mapping r) vm docs no_drift self -> room self docs new ->
  exists self' reloaded, evals (fun fuel => summaries_update fuel self i old new (Some u) (table_mapping r') vm) (Ret self') /\
    BTreeMap.get (tu_tablet u) (ts_tables self') = None /\ summaries_new (ts_tables self') (table_mapping r') vm = Ret reloaded /\
    num_user_documents self' = zlen (objects_of docs (tu_tablet u)) + num_user_documents reloaded /\
    user_tables_size self' = bytes (objects_of docs (tu_tablet u)) + user_tables_size reloaded /\
    user_docs_size self' = bytes (objects_of docs (tu_tablet u)) + user_docs_size reloaded.
Proof.
  intros Hf Hw Hr Hwf Hold Hval Hi Hmode Huser Htr Hroom. destruct (registry_moves try_from r r' ixr tdocs i old new (Some u) Hf Hw Hr) as (Hm & _ & Hdrop).
  destruct (summaries_update_ok vm _ (table_mapping r') docs no_drift self i old new (Some u) Hwf Hold Hval Htr ltac:(done) Hm Hi) as (self' & He & Ht'); [intros u' [= <-] [st ?]; congruence|done|done|].
  assert (Hd : drift_ok (drift_after (table_mapping r) vm docs (Some u) no_drift)) by (by apply drift_after_ok).
  destruct (reload_ok _ _ _ _ _ Ht' Hd) as (reloaded & Hl & _ & H1 & H2 & H3). exists self', reloaded. split; [done|]. split.
  - pose proof (tr_tables _ _ _ _ _ Ht' (tu_tablet u)) as Hg. cbn [mapping_moves] in Hm. rewrite Hmode in Hm. destruct Hm as (_ & _ & Hn). destruct (BTreeMap.get (tu_tablet u) (ts_tables self')); [|done]. rewrite Hn in Hg. by destruct Hg as [[] _].
  - split; [done|]. assert (Hu : is_user (tablet_lookup (table_mapping r) (tu_tablet u)) = true).
    { unfold is_user, tablet_lookup. unfold is_system_tablet in Huser. destruct (BTreeMap.get (tu_tablet u) (tablet_to_table (table_mapping r))) as [[[? ?] ?]|]; [by rewrite Huser|done]. }
    unfold drift_after in H1, H2, H3. rewrite Hmode in H1, H2, H3. unfold holds_user_docs in H3. rewrite Hu, orb_true_r in *. cbn [extra_documents extra_tables_size extra_docs_size no_drift] in *. lia.
Qed.

Module SummariesExample.
(** [_tables] and a table of the user, with one document. *)
Definition user_table : TableMetadata := MkMetadata [102] 10 Active Global.
Definition t_user : list Z := replicate 16 2.
Definition tdocs : docs_t := [(TablesExample.t_tables, TablesExample.tables_doc); (t_user, user_table)].
Definition registry : TableRegistry := let st := table_mapping_and_states tdocs in MkTables st.2 st.1.
Definition row (k : Z) : ConvexObject := [([115], Int64 k)].
Definition table_id : ResolvedDocumentId := MkResolved TablesExample.t_tables (MkId 1 t_user).
Definition user_id (k : Z) : ResolvedDocumentId := MkResolved t_user (MkId 10 (replicate 16 k)).
Definition docs : documents := [(table_id, row 0); (user_id 5, row 7)].
Definition virtual : VirtualSystemMapping := MkVirtual [] [].
Definition self : TableSummaries := MkSummaries [(TablesExample.t_tables, MkSummary (SUnknown, 1) 13); (t_user, MkSummary (SUnknown, 1) 13)] 1 13 13.
Definition parse (v : ConvexValue) : option TableMetadata :=
  match v with Object [(_, Int64 0)] => Some user_table | Object [(_, Int64 1)] => Some (with_state user_table Deleting) | _ => None end.

(** The user drops the table. *)
Definition drop : TableUpdate := MkTableUpdate Global t_user 10 [102] Drop.
Definition registry' : TableRegistry := match apply_update (E := table_error) registry (Some drop) with Ret r => r | _ => registry end.

Lemma tdocs_wf : BTreeMap.wf tdocs.
Proof. split; [|split; [by intros ? ?%elem_of_nil|done]]. intros ? ->%list_elem_of_singleton. vm_compute. done. Qed.

Lemma registry_follows : follows (tablet_states registry) (table_mapping registry) tdocs.
Proof. apply table_mapping_and_states_follows; [apply tdocs_wf|]. by apply TablesExample.docs_unique. Qed.

Lemma docs_wf : BTreeMap.wf docs.
Proof. split; [|split; [by intros ? ?%elem_of_nil|done]]. intros ? ->%list_elem_of_singleton. vm_compute. done. Qed.

Lemma self_tracks : tracks (table_mapping registry) virtual docs no_drift self.
Proof.
  constructor.
  - split; [|split; [by intros ? ?%elem_of_nil|done]]. intros ? ->%list_elem_of_singleton. vm_compute. done.
  - intros t. cbn [self ts_tables BTreeMap.get]. destruct (t ==? TablesExample.t_tables) eqn:E1; [apply eqb_eq in E1 as ->|destruct (t ==? t_user) eqn:E2; [apply eqb_eq in E2 as ->|]].
    + split; [by eexists|]. split; [|done]. split; [done|]. split; [done|]. by repeat constructor.
    + split; [by eexists|]. split; [|done]. split; [done|]. split; [done|]. by repeat constructor.
    + unfold tablet_lookup. change (tablet_to_table (table_mapping registry)) with [(TablesExample.t_tables, (Global, 1, TABLES_TABLE)); (t_user, (Global, 10, [102]))]. cbn [BTreeMap.get]. by rewrite E1, E2.
  - by constructor.
  - unfold bounded. cbn. unfold u64_max. lia.
Qed.
End SummariesExample.

Lemma summaries_follow_writes_witness :
  exists self' s, evals (fun fuel => summaries_update fuel SummariesExample.self (SummariesExample.user_id 6) None (Some (SummariesExample.row 3)) None (table_mapping SummariesExample.registry) SummariesExample.virtual) (Ret self') /\
    BTreeMap.get SummariesExample.t_user (ts_tables self') = Some s /\ num_values s = 2 /\ total_size s = 26.
Proof.
  destruct (summaries_follow_writes SummariesExample.parse SummariesExample.virtual SummariesExample.registry SummariesExample.registry (MkRegistry [] [] [] []) SummariesExample.tdocs SummariesExample.docs no_drift
    SummariesExample.self (SummariesExample.user_id 6) None (Some (SummariesExample.row 3)) None) as (self' & He & Ht).
  - exact SummariesExample.registry_follows.
  - apply write_elsewhere. vm_compute. discriminate.
  - vm_compute. reflexivity.
  - exact SummariesExample.docs_wf.
  - vm_compute. reflexivity.
  - intros o [Ho|Ho]; [discriminate Ho|injection Ho as <-; vm_compute; reflexivity].
  - eexists. vm_compute. reflexivity.
  - intros u st Hu. discriminate Hu.
  - exact SummariesExample.self_tracks.
  - vm_compute. split; [discriminate|split; discriminate].
  - split; [vm_compute; discriminate|split; vm_compute; discriminate].
  - pose proof (tr_tables _ _ _ _ _ Ht SummariesExample.t_user) as Hu. destruct (BTreeMap.get SummariesExample.t_user (ts_tables self')) as [s|] eqn:Eu; [|discriminate Hu].
    destruct Hu as [_ Hu]. exists self', s. split; [exact He|]. split; [done|]. split; [exact (proj2 (summarises_nonneg _ _ Hu))|exact (proj2 Hu)].
Defined.

Lemma dropped_table_stays_counted_witness :
  exists self' reloaded, evals (fun fuel => summaries_update fuel SummariesExample.self SummariesExample.table_id (Some (SummariesExample.row 0)) (Some (SummariesExample.row 1)) (Some SummariesExample.drop)
      (table_mapping SummariesExample.registry') SummariesExample.virtual) (Ret self') /\
    num_user_documents self' = 1 + num_user_documents reloaded /\ summaries_new (ts_tables self') (table_mapping SummariesExample.registry') SummariesExample.virtual = Ret reloaded.
Proof.
  destruct (dropped_table_stays_counted SummariesExample.parse SummariesExample.virtual SummariesExample.registry SummariesExample.registry' (MkRegistry [] [] [] []) SummariesExample.tdocs SummariesExample.docs
    SummariesExample.self SummariesExample.table_id (Some (SummariesExample.row 0)) (Some (SummariesExample.row 1)) SummariesExample.drop) as (self' & reloaded & He & _ & Hl & Hn & _).
  - exact SummariesExample.registry_follows.
  - apply (write_tables _ _ _ _ _ _ 1 (Some SummariesExample.user_table) (Some (with_state SummariesExample.user_table Deleting))); [vm_compute; reflexivity..|by constructor|reflexivity|reflexivity].
  - vm_compute. reflexivity.
  - exact SummariesExample.docs_wf.
  - vm_compute. reflexivity.
  - intros o [Ho|Ho]; injection Ho as <-; vm_compute; reflexivity.
  - eexists. vm_compute. reflexivity.
  - reflexivity.
  - vm_compute. reflexivity.
  - exact SummariesExample.self_tracks.
  - split; [vm_compute; discriminate|split; vm_compute; discriminate].
  - exists self', reloaded. split; [exact He|]. split; [exact Hn|exact Hl].
Defined.
