(* ===== verification/TransactionIndex.v ===== *)
(** * TransactionIndex: the indexes as a transaction sees them
      (src/crates/database/src/transaction_index.rs)

    A transaction reads a snapshot and merges its own pending writes into every
    range.  The printable names of indexes and the text search engine are left
    to parameters; the documents of a page are unpacked. *)

From S2P Require Import Prelude Ord BTreeMap BinaryKey Bounds Interval IntervalSet Timestamp Identifier Value Sorting SortingDecode Base32 IdV6 Document TableMapping IndexRegistry IndexUpdates IndexKeys MemoryIndexes IndexSnapshot QueryReads Reads.

Local Open Scope Z_scope.

Inductive WriteTimestamp := Committed (ts : Timestamp) | Pending.

(** [DocumentUpdate]. *)
Record DocumentUpdate := MkDocUpdate {
  du_id : ResolvedDocumentId;
  du_old : option PackedDocument;
  du_new : option PackedDocument;
}.

(** ** [TransactionIndexMap] *)

Notation TransactionIndexMap := (BTreeMap.t (list Z) (option PackedDocument)) (only parsing).

(** [BTreeMap::range], which panics when the bounds cross. *)
Definition pending_map_range {E} (self : TransactionIndexMap) (interval : Interval) : outcome E TransactionIndexMap :=
  match end_ interval with
  | Excluded t => if (t <? start interval)%ord then Panic else Ret (rows_in interval self)
  | Unbounded => Ret (rows_in interval self)
  end.

Definition pending_map_insert (self : TransactionIndexMap) (k : IndexKeyBytes) (v : option PackedDocument) : TransactionIndexMap :=
  BTreeMap.insert k v self.

(** ** [TransactionIndex] *)

Record TransactionIndex (M : Type) := MkTxIndex {
  tx_registry : IndexRegistry;
  index_registry_updated : bool;
  tx_snapshot : DatabaseIndexSnapshot M;
  database_index_updates : BTreeMap.t IndexId TransactionIndexMap;
  text_index_updates : BTreeMap.t IndexId (list DocumentUpdate);
}.
Arguments MkTxIndex {M}.
Arguments tx_registry {M}.
Arguments index_registry_updated {M}.
Arguments tx_snapshot {M}.
Arguments database_index_updates {M}.
Arguments text_index_updates {M}.

Definition tx_index_new {M} (index_registry : IndexRegistry) (snapshot : DatabaseIndexSnapshot M) : TransactionIndex M :=
  MkTxIndex index_registry false snapshot [] [].

(** A row of a transaction's page. *)
Notation TxRow := (list Z * (LazyDocument * WriteTimestamp))%type (only parsing).

Definition committed_row (e : IndexKeyBytes * (Timestamp * LazyDocument)) : TxRow := (e.1, (e.2.2, Committed e.2.1)).
Definition pending_row (e : IndexKeyBytes * option PackedDocument) : list TxRow :=
  match e.2 with Some doc => [(e.1, (LazyResolved doc, Pending))] | None => [] end.

(** How keys compare in the order of the request. *)
Definition order_cmp (order : Order) (a b : IndexKeyBytes) : comparison :=
  match order with Asc => cmp a b | Desc => cmp b a end.

(** The merge loop of [range_no_deps]. *)
Fixpoint merge_pending (order : Order) (snapshot : Page) : list (IndexKeyBytes * option PackedDocument) -> list TxRow :=
  fix go pending :=
    match snapshot, pending with
    | [], [] => []
    | s :: snapshot', [] => committed_row s :: merge_pending order snapshot' []
    | [], p :: pending' => pending_row p ++ go pending'
    | s :: snapshot', p :: pending' =>
        match order_cmp order s.1 p.1 with
        | Lt => committed_row s :: merge_pending order snapshot' pending
        | Eq => pending_row p ++ merge_pending order snapshot' pending'
        | Gt => pending_row p ++ go pending'
        end
    end.

(** The knob [TRANSACTION_MAX_READ_SIZE_BYTES] cuts a page: the document that
    exceeds it is still returned. *)
Fixpoint take_bytes (max_bytes total_bytes : Z) (rows : list (IndexKeyBytes * (PackedDocument * WriteTimestamp)))
    : list (IndexKeyBytes * (PackedDocument * WriteTimestamp)) * bool :=
  match rows with
  | [] => ([], true)
  | row :: rows =>
      if total_bytes <? max_bytes then
        let (out, within_bytes_limit) := take_bytes max_bytes (total_bytes + size (value row.2.1)) rows in
        (row :: out, within_bytes_limit)
      else ([], false)
  end.

Record IndexRangeResponse := MkResponse {
  rsp_page : list (IndexKeyBytes * (PackedDocument * WriteTimestamp));
  rsp_cursor : CursorPosition;
}.

Section index.
Context {M : Type} `{InMemoryIndexes M} (max_read_size_bytes : Z).
Implicit Types self : TransactionIndex M.

(** The pending rows of the interval. *)
Definition pending_range self (req : RangeRequest) : outcome index_error (list (IndexKeyBytes * option PackedDocument)) :=
  let? pending :=
    match require_enabled (tx_registry self) (req_index_name req) with
    | Ret index => Ret (BTreeMap.get (index_id index) (database_index_updates self))
    | Err e => if is_by_id_or_creation_time (req_index_name req) then Ret None else Err (RegistryErr e)
    | Panic => Panic
    end in
  let? pending_it := match pending with Some pending => pending_map_range pending (req_interval req) | None => Ret [] end in
  Ret (order_apply (req_order req) pending_it).

(** The body of the loop of [range_no_deps]. *)
Definition merge_request self (req : RangeRequest) (snapshot_result : index_error + Page * CursorPosition)
    : outcome index_error (list TxRow * CursorPosition) :=
  let? (snapshot_rows, cursor) := match snapshot_result with inl e => Err e | inr r => Ret r end in
  let? pending_it := pending_range self req in
  let range_results := merge_pending (req_order req) snapshot_rows pending_it in
  ensure (contains_cursor (req_interval req) cursor) NotMakingProgress ;?
  Ret (range_results, cursor).

Definition range_no_deps {E} self (schedule : list CacheFill -> list CacheFill) (ranges : list RangeRequest)
    : outcome E (list (index_error + list TxRow * CursorPosition) * TransactionIndex M) :=
  let? (snapshot_results, snapshot) := range_batch max_read_size_bytes (tx_snapshot self) schedule ranges in
  let self := MkTxIndex (tx_registry self) (index_registry_updated self) snapshot (database_index_updates self) (text_index_updates self) in
  let? results := mapM (fun e => catch (merge_request self e.1 e.2)) (zip ranges snapshot_results) in
  let? _ := rassert (bool_decide (length results = length ranges)) in
  Ret (results, self).

(** The body of the loop of [range_batch]. *)
Definition trim_response (req : RangeRequest) (fetch_result : index_error + list TxRow * CursorPosition)
    : outcome index_error IndexRangeResponse :=
  let? (documents, fetch_cursor) := match fetch_result with inl e => Err e | inr r => Ret r end in
  let rows := take (req_max_size req) (map (fun e => (e.1, (unpack e.2.1, e.2.2))) documents) in
  let (out, within_bytes_limit) := take_bytes max_read_size_bytes 0 rows in
  let cursor :=
    match last out with
    | Some last_row =>
        if (req_max_size req <=? length out)%nat || negb within_bytes_limit then After last_row.1 else fetch_cursor
    | None => fetch_cursor
    end in
  ensure (contains_cursor (req_interval req) cursor) NotMakingProgress ;?
  Ret (MkResponse out cursor).

Definition tx_range_batch {E} self (schedule : list CacheFill -> list CacheFill) (ranges : list RangeRequest)
    : outcome E (list (index_error + IndexRangeResponse) * TransactionIndex M) :=
  let? (fetch_results, self) := range_no_deps self schedule ranges in
  let? results := mapM (fun e => catch (trim_response e.1 e.2)) (zip ranges fetch_results) in
  let? _ := rassert (bool_decide (length results = length ranges)) in
  Ret (results, self).

(** *** Updates *)

(** [TabletIndexMetadata::from_document]. *)
Context (from_document : PackedDocument -> option Index).

Definition begin_update self (old_document new_document : option PackedDocument) : outcome registry_error IndexRegistry :=
  update from_document (tx_registry self) old_document new_document.

(** The new value of the row that an update writes. *)
Definition pending_value {E} (new_document : option PackedDocument) (v : DatabaseIndexValue) : outcome E (option PackedDocument) :=
  match v with
  | Deleted => Ret None
  | NonClustered doc_id =>
      match new_document with
      | Some doc => let? _ := rassert (bool_decide (id doc = doc_id)) in Ret (Some doc)
      | None => Panic
      end
  end.

Definition add_pending {E} (new_document : option PackedDocument) (updates : BTreeMap.t IndexId TransactionIndexMap)
    (update : DatabaseIndexUpdate) : outcome E (BTreeMap.t IndexId TransactionIndexMap) :=
  let? new_value := pending_value new_document (upd_value update) in
  let index_map := default [] (BTreeMap.get (upd_index_id update) updates) in
  Ret (BTreeMap.insert (upd_index_id update) (pending_map_insert index_map (upd_key update) new_value) updates).

Definition add_text_update (u : DocumentUpdate) (updates : BTreeMap.t IndexId (list DocumentUpdate)) (index : Index)
    : BTreeMap.t IndexId (list DocumentUpdate) :=
  BTreeMap.insert (index_id index) (default [] (BTreeMap.get (index_id index) updates) ++ [u]) updates.

Definition finish_update self (old_document new_document : option PackedDocument)
    : outcome registry_error (TransactionIndex M * list DatabaseIndexUpdate) :=
  let? (registry, registry_updated) := apply_verified_update from_document (tx_registry self) old_document new_document in
  let? updates := index_updates registry old_document new_document in
  let? pending := foldM (add_pending new_document) (database_index_updates self) updates in
  let document_id :=
    match new_document with Some d => Some (id d) | None => option_map id old_document end in
  let? text :=
    match document_id with
    | Some i =>
        let? indexes := text_indexes_by_table registry (tablet_id i) in
        Ret (fold_left (add_text_update (MkDocUpdate i old_document new_document)) indexes (text_index_updates self))
    | None => Ret (text_index_updates self)
    end in
  Ret (MkTxIndex registry (index_registry_updated self || registry_updated) (tx_snapshot self) pending text, updates).
End index.

(** ** The merge *)

(** Keys in the order of a request. *)
Definition order_Ord (order : Order) : Ord (list Z) := order_cmp order.

#[local] Instance order_OrdLaws order : @OrdLaws (list Z) (order_Ord order).
Proof.
  destruct order; constructor; intros a b.
  - exact (cmp_eq_iff (Ord0 := list_Ord) a b).
  - exact (cmp_opp (Ord0 := list_Ord) a b).
  - intros c. exact (cmp_lt_trans (Ord0 := list_Ord) a b c).
  - change (cmp b a = Eq <-> a = b). rewrite cmp_eq_iff. done.
  - exact (cmp_opp (Ord0 := list_Ord) b a).
  - intros c H1 H2. exact (cmp_lt_trans (Ord0 := list_Ord) c b a H2 H1).
Qed.

Lemma order_lt_trans order a b c : order_cmp order a b = Lt -> order_cmp order b c = Lt -> order_cmp order a c = Lt.
Proof. exact (cmp_lt_trans (Ord0 := order_Ord order) a b c). Qed.

Lemma order_lt_irrefl order a : order_cmp order a a <> Lt.
Proof. destruct order; cbn [order_cmp]; by rewrite cmp_refl. Qed.

Notation sorted order l := (@BTreeMap.wf (list Z) _ (order_Ord order) l).

Lemma sorted_order {V} order (m : BTreeMap.t (list Z) V) : BTreeMap.wf m -> sorted order (order_apply order m).
Proof.
  destruct order; cbn [order_apply]; [done|]. induction m as [|[k v] m IH]; cbn [rev]; [done|]. intros [Hlt Hwf].
  apply @BTreeMap.wf_app; [by apply IH|split; [by intros ? ?%elem_of_nil|done]|].
  intros e1 e2 He1 ->%list_elem_of_singleton. apply (proj1 (elem_of_order_apply Desc m e1)) in He1. by apply Hlt in He1.
Qed.

Lemma sorted_order_inv {V} order (l : list (list Z * V)) : sorted order l -> BTreeMap.wf (order_apply order l).
Proof.
  destruct order; cbn [order_apply]; [done|]. induction l as [|[k v] l IH]; cbn [rev]; [done|]. intros [Hlt Hwf].
  apply BTreeMap.wf_app; [by apply IH|split; [by intros ? ?%elem_of_nil|done]|].
  intros e1 e2 He1 ->%list_elem_of_singleton. apply (proj1 (elem_of_order_apply Desc l e1)) in He1. by apply Hlt in He1.
Qed.

Section merge.
Context (order : Order).
Implicit Types (snap : Page) (pend : list (IndexKeyBytes * option PackedDocument)) (k : IndexKeyBytes).

(** The rows of a merge: those of the snapshot that no pending write touches,
    and the pending documents. *)
Definition merged snap pend k (x : LazyDocument * WriteTimestamp) : Prop :=
  (exists ts d, (k, (ts, d)) ∈ snap /\ x = (d, Committed ts) /\ forall o, (k, o) ∉ pend) \/
  (exists d, (k, Some d) ∈ pend /\ x = (LazyResolved d, Pending)).

Lemma elem_of_pending_row (p : IndexKeyBytes * option PackedDocument) k x :
  (k, x) ∈ pending_row p <-> exists d, p = (k, Some d) /\ x = (LazyResolved d, Pending).
Proof.
  destruct p as [pk [d|]]; cbn [pending_row snd fst].
  - rewrite list_elem_of_singleton. naive_solver.
  - rewrite elem_of_nil. naive_solver.
Qed.

(** Prepending the rows of one step keeps a merge sorted. *)
Lemma sorted_step k snap pend res hd :
  sorted order res -> (forall k x, (k, x) ∈ res <-> merged snap pend k x) ->
  (hd = [] \/ exists x, hd = [(k, x)]) ->
  (forall e, e ∈ snap -> order_cmp order k e.1 = Lt) -> (forall e, e ∈ pend -> order_cmp order k e.1 = Lt) ->
  sorted order (hd ++ res).
Proof.
  intros Hwf Hel [->|[x ->]] Hs Hp; [done|]. split; [|done]. intros [k' x'] Hin. apply Hel in Hin.
  destruct Hin as [(ts & d & Hin & _)|(d & Hin & _)]; [by apply Hs in Hin|by apply Hp in Hin].
Qed.

Lemma pending_row_shape (p : IndexKeyBytes * option PackedDocument) : pending_row p = [] \/ exists x, pending_row p = [(p.1, x)].
Proof. destruct p as [k [d|]]; cbn; eauto. Qed.

Lemma merge_pending_ok snap : forall pend, sorted order snap -> sorted order pend ->
  sorted order (merge_pending order snap pend) /\
  forall k x, (k, x) ∈ merge_pending order snap pend <-> merged snap pend k x.
Proof.
  induction snap as [|[sk [ts sd]] snap IHs].
  - induction pend as [|[pk o] pend IHp]; intros Hs Hp; cbn [merge_pending].
    { split; [done|]. intros k x. unfold merged. setoid_rewrite elem_of_nil. naive_solver. }
    destruct Hp as [Hlt Hp]. destruct (IHp Hs Hp) as [Hwf Hel]. cbn [merge_pending] in Hwf, Hel. split.
    + eapply (sorted_step pk []); [done|exact Hel|apply (pending_row_shape (pk, o))|by intros ? ?%elem_of_nil|exact Hlt].
    + intros k x. rewrite elem_of_app, Hel, elem_of_pending_row. unfold merged. setoid_rewrite elem_of_cons. setoid_rewrite elem_of_nil. naive_solver.
  - induction pend as [|[pk o] pend IHp]; intros Hs Hp; cbn [merge_pending fst]; pose proof Hs as [Hlts Hs'].
    { destruct (IHs [] Hs' I) as [Hwf Hel]. split.
      - eapply (sorted_step sk snap [] _ [_]); [done|exact Hel|by right; eexists|exact Hlts|by intros ? ?%elem_of_nil].
      - intros k x. rewrite elem_of_cons, Hel. unfold merged, committed_row. cbn [fst snd]. setoid_rewrite elem_of_cons. setoid_rewrite elem_of_nil. naive_solver. }
    pose proof Hp as [Hltp Hp'].
    assert (Hsn : forall e, e ∈ snap -> sk <> e.1) by (intros e He ->; apply Hlts in He; by apply order_lt_irrefl in He).
    assert (Hpn : forall e, e ∈ pend -> pk <> e.1) by (intros e He ->; apply Hltp in He; by apply order_lt_irrefl in He).
    destruct (order_cmp order sk pk) eqn:Hc.
    + assert (sk = pk) as -> by (by apply (cmp_eq_iff (Ord0 := order_Ord order)) in Hc).
      destruct (IHs pend Hs' Hp') as [Hwf Hel]. split.
      * eapply (sorted_step pk); [done|exact Hel|apply (pending_row_shape (pk, o))|exact Hlts|exact Hltp].
      * intros k x. rewrite elem_of_app, Hel, elem_of_pending_row. unfold merged. setoid_rewrite elem_of_cons. split.
        -- intros [(d & [= -> ->] & ->)|[(ts' & d & Hin & -> & Hno)|(d & Hin & ->)]]; [right; eauto| |right; eauto].
           left. exists ts', d. split_and!; [by right|done|]. intros o' [[= <- <-]|Ho]; [by apply Hsn in Hin|by apply Hno in Ho].
        -- intros [(ts' & d & [[= -> -> ->]|Hin] & -> & Hno)|(d & [[= -> <-]|Hin] & ->)]; [| |left; eauto|right; right; eauto].
           ++ exfalso. apply (Hno o). by left.
           ++ right. left. exists ts', d. split_and!; [done|done|]. intros o' Ho. apply (Hno o'). by right.
    + destruct (IHs ((pk, o) :: pend) Hs' Hp) as [Hwf Hel].
      assert (Hskp : forall e, e ∈ (pk, o) :: pend -> order_cmp order sk e.1 = Lt).
      { intros e [->|He]%elem_of_cons; [done|]. apply Hltp in He. by apply (order_lt_trans order sk pk). }
      split.
      * eapply (sorted_step sk snap ((pk, o) :: pend) _ [_]); [done|exact Hel|by right; eexists|exact Hlts|exact Hskp].
      * intros k x. rewrite elem_of_cons, Hel. unfold merged, committed_row. cbn [fst snd]. setoid_rewrite (elem_of_cons snap). split.
        -- intros [[= -> ->]|[(ts' & d & Hin & -> & Hno)|Hr]]; [|left; eauto 10|by right].
           left. exists ts, sd. split_and!; [by left|done|]. intros o' Ho. apply Hskp in Ho. by apply order_lt_irrefl in Ho.
        -- intros [(ts' & d & [[= -> -> ->]|Hin] & -> & Hno)|Hr]; [by left|right; left; eauto 10|by right; right].
    + assert (Hgt : order_cmp order pk sk = Lt) by (destruct order; cbn [order_cmp] in *; by rewrite cmp_opp, Hc).
      destruct (IHp Hs Hp') as [Hwf Hel]. cbn [merge_pending] in Hwf, Hel.
      assert (Hpks : forall e, e ∈ (sk, (ts, sd)) :: snap -> order_cmp order pk e.1 = Lt).
      { intros e [->|He]%elem_of_cons; [done|]. apply Hlts in He. by apply (order_lt_trans order pk sk). }
      split.
      * eapply (sorted_step pk); [done|exact Hel|apply (pending_row_shape (pk, o))|exact Hpks|exact Hltp].
      * intros k x. rewrite elem_of_app, Hel, elem_of_pending_row. unfold merged. setoid_rewrite (elem_of_cons pend). split.
        -- intros [(d & [= -> ->] & ->)|[(ts' & d & Hin & -> & Hno)|(d & Hin & ->)]]; [right; eauto| |right; eauto].
           left. exists ts', d. split_and!; [done..|]. intros o' [[= -> ->]|Ho]; [|by apply Hno in Ho].
           apply Hpks in Hin. by apply order_lt_irrefl in Hin.
        -- intros [(ts' & d & Hin & -> & Hno)|(d & [[= -> <-]|Hin] & ->)]; [|left; eauto|right; right; eauto].
           right. left. exists ts', d. split_and!; [done..|]. intros o' Ho. apply (Hno o'). by right.
Qed.
End merge.

(** ** Pending writes over a snapshot *)

(** The row of a key, as the transaction sees it. *)
Definition overlay_get (m0 : BTreeMap.t IndexKeyBytes (Timestamp * PackedDocument)) (p : TransactionIndexMap) (k : IndexKeyBytes)
    : option (WriteTimestamp * PackedDocument) :=
  match BTreeMap.get k p with
  | Some o => option_map (pair Pending) o
  | None => option_map (fun v => (Committed v.1, v.2)) (BTreeMap.get k m0)
  end.

Definition tx_row (e : TxRow) : IndexKeyBytes * (WriteTimestamp * PackedDocument) := (e.1, (e.2.2, unpack e.2.1)).

(** The keys of an index over [f]. *)
Definition doc_keyed (f : list FieldPath) (k : IndexKeyBytes) : Prop := exists d, good_doc d /\ k = doc_key d f.

Lemma doc_keyed_bytes f k : doc_keyed f k -> bytes k.
Proof. intros (d & Hd & ->). by apply doc_key_bytes. Qed.

Lemma doc_keyed_prefix f k k' : doc_keyed f k -> doc_keyed f k' -> k `prefix_of` k' -> k = k'.
Proof. intros (d & Hd & ->) (d' & Hd' & ->) Hp. by apply doc_key_prefix in Hp as [? _]. Qed.

Lemma sorted_map {A B} order (g : list Z * A -> list Z * B) l : (forall e, (g e).1 = e.1) ->
  sorted order (map g l) <-> sorted order l.
Proof.
  intros Hg. induction l as [|[k v] l IH]; cbn [map]; [done|]. pose proof (Hg (k, v)) as Hk. destruct (g (k, v)) as [k' v'] eqn:E.
  cbn [fst] in Hk. subst k'. cbn [BTreeMap.wf]. rewrite IH. split; intros [Hlt Hwf]; (split; [|done]).
  - intros e He. rewrite <- (Hg e). apply Hlt, list_elem_of_fmap. eauto.
  - intros e (e' & -> & He')%list_elem_of_fmap. rewrite Hg. by apply Hlt.
Qed.

(** What a page may know of its cursor. *)
Definition cursor_ok (f : list FieldPath) (i : Interval) (cursor : CursorPosition) : Prop :=
  match cursor with After k => doc_keyed f k /\ inside i k | CursorEnd => True end.

Lemma inside_page f i order cursor k : cursor_ok f i cursor -> doc_keyed f k ->
  inside (split i cursor order).1 k -> inside i k.
Proof.
  destruct cursor as [ck|]; [|done]. intros [Hck Hi] Hk Hin.
  by apply inside_split_fst in Hin as [? _]; [|by eapply doc_keyed_bytes|by apply (doc_keyed_prefix f)|].
Qed.

Section overlay.
Context (f : list FieldPath) (m0 : BTreeMap.t IndexKeyBytes (Timestamp * PackedDocument)) (p : TransactionIndexMap)
        (m : BTreeMap.t IndexKeyBytes (WriteTimestamp * PackedDocument)).
Hypothesis Hm0 : BTreeMap.wf m0.
Hypothesis Hp : BTreeMap.wf p.
Hypothesis Hm : BTreeMap.wf m.
Hypothesis Hget : forall k, BTreeMap.get k m = overlay_get m0 p k.
Hypothesis Hk0 : forall k, is_Some (BTreeMap.get k m0) -> doc_keyed f k.
Hypothesis Hkp : forall k, is_Some (BTreeMap.get k p) -> doc_keyed f k.

(** Merging the pending rows of an interval into a page of the snapshot gives
    the rows of the transaction up to the cursor of the page, unless a pending
    row lies beyond the cursor. *)
Lemma merge_page_exact i order cursor (page : Page) :
  cursor_ok f i cursor ->
  map plain page = order_apply order (rows_in (split i cursor order).1 m0) ->
  (forall k o, (k, o) ∈ p -> inside i k -> inside (split i cursor order).1 k) ->
  map tx_row (merge_pending order page (order_apply order (rows_in i p))) = order_apply order (rows_in (split i cursor order).1 m).
Proof.
  intros Hc Hpage Hbeyond. set (j := (split i cursor order).1) in *.
  assert (Hs : sorted order page).
  { apply (sorted_map order plain); [done|]. rewrite Hpage. by apply sorted_order, rows_in_wf. }
  destruct (merge_pending_ok order page (order_apply order (rows_in i p)) Hs) as [Hwf Hel]; [by apply sorted_order, rows_in_wf|].
  symmetry. apply order_apply_inv, BTreeMap.wf_ext; [by apply rows_in_wf|by apply sorted_order_inv, (sorted_map order tx_row)|].
  intros [k [wt d]]. rewrite elem_of_order_apply, elem_of_rows_in, list_elem_of_fmap, <- BTreeMap.elem_of_get, Hget by done. cbn [fst].
  assert (Hpend : forall o, (k, o) ∈ order_apply order (rows_in i p) <-> BTreeMap.get k p = Some o /\ inside i k).
  { intros o. by rewrite elem_of_order_apply, elem_of_rows_in, <- BTreeMap.elem_of_get. }
  assert (Hsnap : forall ts d, (exists l, (k, (ts, l)) ∈ page /\ unpack l = d) <-> BTreeMap.get k m0 = Some (ts, d) /\ inside j k).
  { intros ts d'. rewrite BTreeMap.elem_of_get by done. change k with ((k, (ts, d')).1) at 3. rewrite <- elem_of_rows_in.
    rewrite <- (elem_of_order_apply order), <- Hpage, list_elem_of_fmap. split.
    - intros (l & Hl & <-). by exists (k, (ts, l)).
    - intros ([k' [ts' l]] & [= -> -> ->] & Hl). eauto. }
  unfold overlay_get. split.
  - intros [Hg Hj]. destruct (BTreeMap.get k p) as [[d'|]|] eqn:Hgp; cbn [option_map] in Hg; [|done|].
    + injection Hg as <- <-. exists (k, (LazyResolved d', Pending)). split; [done|]. apply Hel. right. exists d'. split; [|done].
      apply Hpend. split; [done|]. eapply (inside_page f); [done|apply Hkp; eauto|exact Hj].
    + destruct (BTreeMap.get k m0) as [[ts d']|] eqn:Hg0; [|done]. injection Hg as <- <-.
      destruct (proj2 (Hsnap ts d')) as (l & Hl & <-); [done|]. exists (k, (l, Committed ts)). split; [done|]. apply Hel. left.
      exists ts, l. split_and!; [done..|]. intros o [Ho _]%Hpend. congruence.
  - intros ([k' [l wt']] & [= -> -> ->] & Hin). apply Hel in Hin as [(ts & l' & Hl & [= -> ->] & Hno)|(d' & Hd & [= -> ->])].
    + destruct (proj1 (Hsnap ts (unpack l'))) as [Hg0 Hj]; [eauto|]. split; [|done].
      destruct (BTreeMap.get k' p) as [o|] eqn:Hgp; [|by rewrite Hg0]. exfalso. apply (Hno o), Hpend. split; [done|].
      eapply (inside_page f); [done|apply Hkp; eauto|exact Hj].
    + apply Hpend in Hd as [Hgp Hi]. rewrite Hgp. split; [done|]. eapply Hbeyond; [by apply BTreeMap.elem_of_get|done].
Qed.
End overlay.

(** ** Trimming a page *)

Definition rsp_row (e : IndexKeyBytes * (PackedDocument * WriteTimestamp)) : IndexKeyBytes * (WriteTimestamp * PackedDocument) :=
  (e.1, (e.2.2, e.2.1)).

Lemma take_bytes_ok max_bytes rows : forall total out within, take_bytes max_bytes total rows = (out, within) ->
  out `prefix_of` rows /\ (within = true -> out = rows) /\ (total < max_bytes -> out = [] -> rows = []).
Proof.
  induction rows as [|row rows IH]; intros total out within; cbn [take_bytes]; [by intros [= <- <-]|].
  destruct (total <? max_bytes) eqn:Hlt.
  - destruct (take_bytes max_bytes (total + size (value row.2.1)) rows) as [out' w] eqn:E. intros [= <- <-].
    destruct (IH _ _ _ E) as (Hpre & Hall & _). split_and!; [by apply prefix_cons|intros Hw; by rewrite (Hall Hw)|done].
  - intros [= <- <-]. apply Z.ltb_ge in Hlt. split_and!; [by apply prefix_nil|done|lia].
Qed.

Section trim.
Context (max_read_size_bytes : Z) (f : list FieldPath) (m : BTreeMap.t IndexKeyBytes (WriteTimestamp * PackedDocument)).
Hypothesis Hmax : 0 < max_read_size_bytes.
Hypothesis Hm : BTreeMap.wf m.
Hypothesis Hkeys : forall e, e ∈ m -> doc_keyed f e.1.

Lemma doc_keys_ok : keys_ok m.
Proof. intros e e' He He'. split; [by eapply doc_keyed_bytes, Hkeys|apply (doc_keyed_prefix f); by apply Hkeys]. Qed.

(** The rows up to a cursor are the first rows of the interval. *)
Lemma rows_up_to i order cursor : cursor_ok f i cursor ->
  order_apply order (rows_in (split i cursor order).1 m) `prefix_of` order_apply order (rows_in i m).
Proof.
  destruct cursor as [k|]; [|done]. intros [Hk Hi]. eexists. apply rows_cut; [done|by eapply doc_keyed_bytes|done|].
  intros e He. split; [by eapply doc_keyed_bytes, Hkeys|]. apply (doc_keyed_prefix f); [done|by apply Hkeys].
Qed.

Lemma trim_exact req documents fetch_cursor :
  (0 < req_max_size req)%nat -> cursor_ok f (req_interval req) fetch_cursor ->
  map tx_row documents = order_apply (req_order req) (rows_in (split (req_interval req) fetch_cursor (req_order req)).1 m) ->
  exists out cursor, trim_response max_read_size_bytes req (inr (documents, fetch_cursor)) = Ret (MkResponse out cursor) /\
    cursor_ok f (req_interval req) cursor /\ (forall k, cursor = After k -> fetch_cursor = After k \/ is_Some (BTreeMap.get k m)) /\
    (length out <= req_max_size req)%nat /\
    map rsp_row out = order_apply (req_order req) (rows_in (split (req_interval req) cursor (req_order req)).1 m).
Proof.
  intros Hn Hfc Hdocs. set (i := req_interval req) in *. set (order := req_order req) in *.
  unfold trim_response. cbn [obind]. fold i. fold order.
  set (all := map (fun e : TxRow => (e.1, (unpack e.2.1, e.2.2))) documents).
  assert (Hall : map rsp_row all = map tx_row documents) by (unfold all; by rewrite map_map).
  destruct (take_bytes max_read_size_bytes 0 (take (req_max_size req) all)) as [out within] eqn:Htb.
  destruct (take_bytes_ok _ _ _ _ _ Htb) as (Hpre & Hw & Hnil).
  assert (Hlen : (length out <= req_max_size req)%nat).
  { apply prefix_length in Hpre. rewrite length_take in Hpre. lia. }
  assert (Hpre' : map rsp_row out `prefix_of` order_apply order (rows_in i m)).
  { etrans; [|by apply rows_up_to]. rewrite <- Hdocs, <- Hall. destruct Hpre as [rest Hrest].
    exists (map rsp_row (rest ++ drop (req_max_size req) all)). by rewrite <- map_app, (assoc (++)), <- Hrest, take_drop. }
  assert (Hend : out = all -> exists out0 cursor, (ensure (contains_cursor i fetch_cursor) NotMakingProgress ;? Ret (MkResponse out fetch_cursor)) = Ret (MkResponse out0 cursor) /\
    cursor_ok f i cursor /\ (forall k, cursor = After k -> fetch_cursor = After k \/ is_Some (BTreeMap.get k m)) /\
    (length out0 <= req_max_size req)%nat /\ map rsp_row out0 = order_apply order (rows_in (split i cursor order).1 m)).
  { intros Heq. exists out, fetch_cursor. split_and!; [|done|by left|done|by rewrite Heq, Hall].
    assert (Hcc : contains_cursor i fetch_cursor = true) by (destruct fetch_cursor; [apply Hfc|done]). by rewrite Hcc. }
  destruct (last out) as [row|] eqn:Hlast.
  - destruct ((req_max_size req <=? length out)%nat || negb within) eqn:Hearly.
    + assert (Hl : last (map rsp_row out) = Some (row.1, (row.2.2, row.2.1))).
      { apply last_Some in Hlast as [l ->]. rewrite map_app. apply last_snoc. }
      destruct Hpre' as [post Hpost].
      assert (Hin : (row.1, (row.2.2, row.2.1)) ∈ order_apply order (rows_in i m)).
      { rewrite Hpost. apply last_Some in Hl as [l ->]. set_solver. }
      apply elem_of_order_apply, elem_of_rows_in in Hin as [Hrm Hri]. cbn [fst] in Hri.
      exists out, (After row.1). cbn [contains_cursor]. unfold inside in Hri. rewrite Hri. cbn [ensure obind].
      split_and!; [done|split; [by apply (Hkeys _ Hrm)|done]| |done|].
      { intros k [= <-]. right. eexists. by apply BTreeMap.elem_of_get. }
      symmetry. eapply rows_page; [done|apply doc_keys_ok|exact Hpost|exact Hl].
    + apply orb_false_iff in Hearly as [Hlt Hwi]. apply Nat.leb_gt in Hlt. apply negb_false_iff in Hwi. apply Hend.
      rewrite (Hw Hwi) in Hlt |- *. rewrite length_take in Hlt. apply take_ge. lia.
  - apply last_None in Hlast. apply Hend. rewrite Hlast. symmetry. specialize (Hnil Hmax Hlast).
    destruct all; [done|]. by destruct (req_max_size req); [lia|].
Qed.
End trim.

(** ** A transaction reads its own writes *)

(** The documents of the snapshot, as committed. *)
Definition committed (db : live Timestamp) : live WriteTimestamp := fun i => option_map (fun v => (Committed v.1, v.2)) (db i).

Section transaction.
Context {M : Type} `{InMemoryIndexes M} (from_document : PackedDocument -> option Index).
Context (c : IndexId -> option (TabletId * list FieldPath)) (db0 : live Timestamp) (tracked : IndexId -> Prop).
Implicit Types (tx : TransactionIndex M) (db : live WriteTimestamp).

Definition pending_of tx (iid : IndexId) : TransactionIndexMap := default [] (BTreeMap.get iid (database_index_updates tx)).

(** The pending rows have keys of their index. *)
Definition pending_ok (updates : BTreeMap.t IndexId TransactionIndexMap) : Prop :=
  BTreeMap.wf updates /\ forall iid p, BTreeMap.get iid updates = Some p -> BTreeMap.wf p.

(** What a transaction maintains for the [tracked] indexes: the snapshot with
    the pending rows over it is the index of the documents [db] the transaction
    would commit. *)
Record tx_ok db tx : Prop := {
  txo_reg : registry_ok (tx_registry tx);
  txo_cat : catalogued c (tx_registry tx);
  txo_snap : snapshot_ok c db0 (tx_snapshot tx);
  txo_db : db_ok db;
  txo_pending : pending_ok (database_index_updates tx);
  txo_keys iid k : is_Some (BTreeMap.get k (pending_of tx iid)) -> exists t f, c iid = Some (t, f) /\ doc_keyed f k;
  txo_rows iid t f m0 : tracked iid -> c iid = Some (t, f) -> index_exact db0 t f m0 ->
    exists m, index_exact db t f m /\ forall k, BTreeMap.get k m = overlay_get m0 (pending_of tx iid) k;
}.

Lemma index_exact_committed t f m : index_exact db0 t f m ->
  index_exact (committed db0) t f (map (fun e => (e.1, (Committed e.2.1, e.2.2))) m).
Proof.
  intros [Hwf Hget]. set (g := fun v : Timestamp * PackedDocument => (Committed v.1, v.2)).
  assert (Hmap : forall k, BTreeMap.get k (map (fun e : list Z * (Timestamp * PackedDocument) => (e.1, g e.2)) m) = option_map g (BTreeMap.get k m)).
  { intros k. clear. induction m as [|[k' v] m IH]; cbn [map BTreeMap.get fst snd]; [done|]. by destruct (k ==? k')%ord. }
  split.
  - exact (proj2 (sorted_map Asc (fun e : list Z * (Timestamp * PackedDocument) => (e.1, g e.2)) m (fun e => eq_refl)) Hwf).
  - intros k [wt d]. rewrite Hmap. unfold entry_of, committed. cbn [snd]. split.
    + destruct (BTreeMap.get k m) as [[ts d']|] eqn:Hg; [|done]. intros [= <- <-]. apply Hget in Hg as (Hv & ? & ?). cbn [snd] in *. by rewrite Hv.
    + intros (Hv & Ht & ->). destruct (db0 (id d)) as [[ts d']|] eqn:Hd; [|done]. injection Hv as <- <-.
      by rewrite (proj2 (Hget (doc_key d' f) (ts, d'))) by done.
Qed.

Lemma tx_new_ok r (snapshot : DatabaseIndexSnapshot M) :
  snapshot_ok c db0 snapshot -> registry_ok r -> catalogued c r -> tx_ok (committed db0) (tx_index_new r snapshot).
Proof.
  intros Hs Hr Hc. constructor; [done|done|done| | | |].
  - intros i wt d. unfold committed. destruct (db0 i) as [[ts d']|] eqn:Hi; [|done]. intros [= _ <-]. by apply (snap_db _ _ _ Hs _ _ _ Hi).
  - by split.
  - by intros iid k [? ?].
  - intros iid t f m0 _ _ Hm0. eexists. split; [by apply index_exact_committed|]. intros k. unfold overlay_get. cbn [pending_of tx_index_new database_index_updates BTreeMap.get default].
    clear. induction m0 as [|[k' v] m IH]; cbn [map BTreeMap.get fst snd]; [done|]. by destruct (k ==? k')%ord.
Qed.

(** The pure form of [add_pending]. *)
Definition pending_row_value (new : option PackedDocument) (v : DatabaseIndexValue) : option PackedDocument :=
  match v with Deleted => None | NonClustered _ => new end.
Definition pending_step (new : option PackedDocument) (updates : BTreeMap.t IndexId TransactionIndexMap) (u : DatabaseIndexUpdate) :=
  BTreeMap.insert (upd_index_id u) (BTreeMap.insert (upd_key u) (pending_row_value new (upd_value u)) (default [] (BTreeMap.get (upd_index_id u) updates))) updates.

Lemma add_pending_step {E} new updates u :
  (forall i, upd_value u = NonClustered i -> exists d, new = Some d /\ i = id d) ->
  add_pending (E := E) new updates u = Ret (pending_step new updates u).
Proof.
  intros Hu. unfold add_pending, pending_step, pending_value, pending_row_value, pending_map_insert.
  destruct (upd_value u) as [|i]; cbn [obind]; [done|]. destruct (Hu i eq_refl) as (d & -> & ->). by rewrite bool_decide_eq_true_2.
Qed.

Lemma pending_default_wf updates iid : pending_ok updates -> BTreeMap.wf (default [] (BTreeMap.get iid updates)).
Proof. intros [_ Hin]. destruct (BTreeMap.get iid updates) as [p|] eqn:E; [by apply Hin in E|done]. Qed.

Lemma pending_step_ok new iid updates u :
  pending_ok updates -> pending_ok (pending_step new updates u) /\
  forall k, BTreeMap.get k (default [] (BTreeMap.get iid (pending_step new updates u))) =
    if bool_decide (upd_index_id u = iid /\ upd_key u = k) then Some (pending_row_value new (upd_value u))
    else BTreeMap.get k (default [] (BTreeMap.get iid updates)).
Proof.
  intros Hok. pose proof Hok as [Hwf Hin]. pose proof (pending_default_wf updates (upd_index_id u) Hok) as Hp. unfold pending_step. split.
  - split; [by apply BTreeMap.wf_insert|]. intros iid' p. rewrite BTreeMap.get_insert_if by done. case_decide; [|apply Hin].
    intros [= <-]. by apply BTreeMap.wf_insert.
  - intros k. rewrite BTreeMap.get_insert_if by done. case_decide as Hi.
    + subst iid. cbn [from_option Datatypes.id]. rewrite BTreeMap.get_insert_if by done. case_decide; case_bool_decide; naive_solver.
    + rewrite bool_decide_eq_false_2; [done|]. intros [? _]. congruence.
Qed.

Lemma write_good db i old new d : db_ok db -> write_ok db i old new -> old = Some d \/ new = Some d -> good_doc d.
Proof.
  intros Hdb [Hold Hnew] [Ho|Hn]; [|by apply Hnew]. rewrite Ho in Hold.
  destruct (db i) as [[ts d']|] eqn:Hi; [|done]. injection Hold as ->. by apply (Hdb _ _ _ Hi).
Qed.

Lemma begin_update_ok tx old new r' :
  registry_ok (tx_registry tx) -> (forall d, old = Some d -> stored from_document (tx_registry tx) d) ->
  (forall d, new = Some d -> well_named from_document d) -> begin_update from_document tx old new = Ret r' ->
  registry_ok r' /\ exists b, apply_verified_update (E := registry_error) from_document (tx_registry tx) old new = Ret (r', b).
Proof.
  intros Hr Hold Hnew Hb. pose proof (update_ok from_document (tx_registry tx) old new Hr Hold Hnew) as Hu.
  unfold begin_update in Hb. pose proof Hb as Hb'. unfold update in Hb'.
  destruct (verify_update from_document (tx_registry tx) old new); [|done..]. destruct Hu as (r1 & Hu & Hr1 & _).
  rewrite Hb in Hu. injection Hu as <-. split; [done|]. cbn [obind] in Hb'.
  destruct (apply_verified_update from_document (tx_registry tx) old new) as [[r2 b]| |]; [|done..]. injection Hb' as ->. eauto.
Qed.

(** The pending rows after an update. *)
Lemma pending_after r' old new um pending :
  BTreeMap.wf um -> (forall e, e ∈ um -> e.1 = (upd_index_id e.2, upd_key e.2)) -> pending_ok pending ->
  (forall iid k, update_at r' old new iid k (option_map upd_value (BTreeMap.get (iid, k) um))) ->
  let pending' := fold_left (pending_step new) (map snd um) pending in
  (forall E, foldM (add_pending (E := E) new) pending (map snd um) = Ret pending') /\ pending_ok pending' /\
  forall iid k, BTreeMap.get k (default [] (BTreeMap.get iid pending')) =
    match BTreeMap.get (iid, k) um with
    | Some u => Some (pending_row_value new (upd_value u))
    | None => BTreeMap.get k (default [] (BTreeMap.get iid pending))
    end.
Proof.
  intros Hwum Hkeys Hok Hat pending'.
  assert (Hf : forall iid, pending_ok pending' /\ forall k, BTreeMap.get k (default [] (BTreeMap.get iid pending')) =
    match BTreeMap.get (iid, k) um with
    | Some u => Some (pending_row_value new (upd_value u)) | None => BTreeMap.get k (default [] (BTreeMap.get iid pending)) end).
  { intros iid. apply (fold_updates_read (fun m k => BTreeMap.get k (default [] (BTreeMap.get iid m))) (pending_step new) pending_ok iid
      (fun u => Some (pending_row_value new (upd_value u)))); try done. intros m u Hm. by apply pending_step_ok. }
  split_and!; [|apply (Hf [])|intros iid; apply Hf].
  intros E. rewrite (foldM_pure _ (pending_step new)); [done|]. intros s u Hu. apply add_pending_step. by eapply updates_insertion.
Qed.

Lemma finish_update_ok db tx i old new r' :
  tx_ok db tx -> write_ok db i old new ->
  (forall d, old = Some d -> stored from_document (tx_registry tx) d) -> (forall d, new = Some d -> well_named from_document d) ->
  begin_update from_document tx old new = Ret r' -> catalogued c r' -> (forall iid, tracked iid -> registered_id r' iid) ->
  exists tx' us, finish_update from_document tx old new = Ret (tx', us) /\ tx_registry tx' = r' /\
    tx_ok (write db i (option_map (pair Pending) new)) tx'.
Proof.
  intros Hok Hw Hold Hnew Hb Hc Htr. destruct (begin_update_ok tx old new r' (txo_reg _ _ Hok) Hold Hnew Hb) as [Hr' [b Hav]].
  pose proof (write_good db i old new) as Hgood. specialize (fun d => Hgood d (txo_db _ _ Hok) Hw).
  destruct (index_updates_ret r' old new Hr' Hgood) as (um & Hum & Hwum & Hkeys & Hat).
  destruct (pending_after r' old new um (database_index_updates tx) Hwum Hkeys (txo_pending _ _ Hok) Hat) as (Hfold & Hpok & Hget).
  set (pending' := fold_left (pending_step new) (map snd um) (database_index_updates tx)) in *.
  assert (Hfin : exists text, finish_update from_document tx old new =
    Ret (MkTxIndex r' (index_registry_updated tx || b) (tx_snapshot tx) pending' text, map snd um)).
  { unfold finish_update. rewrite Hav. cbn [obind]. rewrite Hum. cbn [obind]. rewrite Hfold. cbn [obind].
    destruct (match new with Some d => Some (id d) | None => option_map id old end) as [i'|]; [|by eexists].
    destruct (indexes_by_table_ret r' (tablet_id i') Hr') as (l & Hl & _). unfold text_indexes_by_table. rewrite Hl. by eexists. }
  destruct Hfin as [text Hfin]. eexists _, _. split; [exact Hfin|]. split; [done|].
  constructor; cbn [tx_registry tx_snapshot database_index_updates]; [done|done|apply Hok|by eapply db_ok_write, Hw; apply Hok|done| |].
  - intros iid k. unfold pending_of. cbn [database_index_updates]. rewrite Hget. specialize (Hat iid k).
    destruct (BTreeMap.get (iid, k) um) as [u|]; [|apply (txo_keys _ _ Hok)]. intros _. cbn [option_map] in Hat.
    destruct (upd_value u); cbn [update_at] in Hat.
    + destruct Hat as [(d & ix & f & Hd & Hix & <- & ->) _]. eexists _, f. split; [by apply Hc|]. exists d. eauto.
    + destruct Hat as (d & ix & f & Hd & _ & Hix & <- & ->). eexists _, f. split; [by apply Hc|]. exists d. eauto.
  - intros iid t f m0 Ht Hci Hm0. destruct (txo_rows _ _ Hok iid t f m0 Ht Hci Hm0) as (m & Hm & Hmk).
    exists (replace_rows t f Pending old new m). split; [by apply index_exact_replace; [apply Hok|..]|]. intros k.
    destruct (get_replace_rows t f Pending old new m (proj1 Hm)) as [_ ->]. unfold overlay_get, pending_of. cbn [database_index_updates].
    rewrite <- (updates_change c r' old new Pending um iid t f k Hc (Htr iid Ht) Hci Hat), Hget.
    destruct (BTreeMap.get (iid, k) um) as [u|]; [by destruct (upd_value u)|]. apply Hmk.
Qed.
End transaction.

(** ** Reading pages *)

Section pages.
Context {M : Type} `{InMemoryIndexes M} (max_read_size_bytes : Z).
Context (c : IndexId -> option (TabletId * list FieldPath)) (db0 : live Timestamp) (tracked : IndexId -> Prop).
Hypothesis Hmax : 0 < max_read_size_bytes.
Implicit Types (tx : TransactionIndex M) (db : live WriteTimestamp).

Lemma pending_range_ok tx req ix :
  get_enabled (tx_registry tx) (req_index_name req) = Some ix -> Interval.is_empty (req_interval req) = false ->
  pending_range tx req = Ret (order_apply (req_order req) (rows_in (req_interval req) (pending_of tx (index_id ix)))).
Proof.
  intros Hen Hne. unfold pending_range, require_enabled, pending_of. rewrite Hen. cbn [obind].
  destruct (BTreeMap.get (index_id ix) (database_index_updates tx)) as [p|]; cbn [from_option Datatypes.id]; [|done].
  unfold pending_map_range. unfold Interval.is_empty in Hne. destruct (end_ (req_interval req)) as [t|]; [|done].
  apply leb_gt in Hne. assert (Hlt : (t <? start (req_interval req))%ord = false) by (apply ltb_ge; by apply olt_ole). by rewrite Hlt.
Qed.

Lemma pending_range_safe tx req : Interval.is_empty (req_interval req) = false -> pending_range tx req <> Panic.
Proof.
  intros Hne. destruct (get_enabled (tx_registry tx) (req_index_name req)) as [ix|] eqn:Hen; [by rewrite (pending_range_ok tx req ix)|].
  unfold pending_range, require_enabled. rewrite Hen. destruct (get_pending _ _) as [ix|]; [destruct (is_staged (config ix))|];
    destruct (is_by_id_or_creation_time (req_index_name req)); done.
Qed.

(** A request on an index that the transaction and its snapshot share. *)
Definition shared_index tx req ix f : Prop :=
  get_enabled (tx_registry tx) (req_index_name req) = Some ix /\ (exists s, config ix = Database f s) /\ tracked (index_id ix) /\
  exists ix0 s0, get_enabled (snap_registry (tx_snapshot tx)) (req_index_name req) = Some ix0 /\ index_id ix0 = index_id ix /\
    config ix0 = Database f s0.

(** No pending row of the index lies in the interval beyond the page that the
    snapshot returned. *)
Definition pending_within tx req ix (fetch_cursor : CursorPosition) : Prop :=
  forall k o, (k, o) ∈ pending_of tx (index_id ix) -> inside (req_interval req) k ->
    inside (split (req_interval req) fetch_cursor (req_order req)).1 k.

(** The page holds exactly the documents the transaction sees up to the cursor,
    which is the end or the key of a row of the transaction or of its snapshot. *)
Definition response_exact db req f (rsp : IndexRangeResponse) : Prop :=
  exists m, index_exact db (req_index_name req).1 f m /\
    map rsp_row (rsp_page rsp) = order_apply (req_order req) (rows_in (split (req_interval req) (rsp_cursor rsp) (req_order req)).1 m) /\
    cursor_ok f (req_interval req) (rsp_cursor rsp) /\
    (forall k, rsp_cursor rsp = After k -> is_Some (BTreeMap.get k m) \/ exists v, entry_of db0 (req_index_name req).1 f k v) /\
    (length (rsp_page rsp) <= req_max_size req)%nat.

Lemma page_cursor_ok snap req (page : Page) cursor f m0 t :
  db_ok db0 -> index_exact db0 t f m0 -> page_exact db0 snap req page cursor ->
  map plain page = order_apply (req_order req) (rows_in (split (req_interval req) cursor (req_order req)).1 m0) ->
  is_Some (get_enabled (snap_registry (M := M) snap) (req_index_name req)) ->
  cursor_ok f (req_interval req) cursor /\ forall k, cursor = After k -> exists v, entry_of db0 t f k v.
Proof.
  intros Hdb [Hwf Hm] Hp Hpage [ix Hen]. unfold page_exact in Hp. rewrite Hen in Hp. destruct Hp as (f' & s & m' & _ & _ & _ & Hcc & Hl).
  destruct cursor as [k|]; [|done]. destruct Hl as ([k' v] & Hl & ->). cbn [fst] in *.
  assert (Hin : (k', v) ∈ map plain page) by (apply last_Some in Hl as [l ->]; set_solver).
  rewrite Hpage in Hin. apply elem_of_order_apply, elem_of_rows_in in Hin as [Hin _]. apply BTreeMap.elem_of_get, Hm in Hin; [|done].
  split; [split; [|exact Hcc]|intros k [= <-]; by exists v]. destruct (entry_good db0 _ _ _ _ Hdb Hin) as [Hg ->]. by exists v.2.
Qed.

Lemma request_exact db tx req ix f (page : Page) fetch_cursor :
  tx_ok c db0 tracked db tx -> shared_index tx req ix f -> (0 < req_max_size req)%nat -> Interval.is_empty (req_interval req) = false ->
  page_exact db0 (tx_snapshot tx) req page fetch_cursor -> pending_within tx req ix fetch_cursor ->
  exists rows rsp, merge_request tx req (inr (page, fetch_cursor)) = Ret (rows, fetch_cursor) /\
    trim_response max_read_size_bytes req (inr (rows, fetch_cursor)) = Ret rsp /\ response_exact db req f rsp.
Proof.
  intros Hok (Hen & [s Hcfg] & Htr & ix0 & s0 & Hen0 & Hid & Hcfg0) Hn Hne Hpage Hwithin. set (t := (req_index_name req).1).
  destruct (reg_enabled _ (txo_reg _ _ _ _ _ Hok) _ _ Hen) as [Hname _].
  assert (Hci : c (index_id ix) = Some (t, f)).
  { apply (txo_cat _ _ _ _ _ Hok). split_and!; [by rewrite Hname|left; by rewrite Hname|by exists s]. }
  pose proof Hpage as Hpage'. unfold page_exact in Hpage'. rewrite Hen0 in Hpage'.
  destruct Hpage' as (f0 & s0' & m0 & Hcfg0' & Hm0 & Hrows0 & Hcc & _). fold t in Hm0.
  pose proof (txo_snap _ _ _ _ _ Hok) as Hsnap. assert (Hf : f0 = f) by congruence.
  subst f0. destruct (txo_rows _ _ _ _ _ Hok (index_id ix) t f m0 Htr Hci Hm0) as (m & Hm & Hget).
  pose proof (snap_db _ _ _ Hsnap) as Hdb0. pose proof (txo_db _ _ _ _ _ Hok) as Hdb.
  assert (Hcur : cursor_ok f (req_interval req) fetch_cursor /\ forall k, fetch_cursor = After k -> exists v, entry_of db0 t f k v).
  { eapply (page_cursor_ok (tx_snapshot tx)); [done|exact Hm0|exact Hpage|exact Hrows0|by eexists]. }
  destruct Hcur as [Hcur Hck0].
  assert (Hmerge : map tx_row (merge_pending (req_order req) page (order_apply (req_order req) (rows_in (req_interval req) (pending_of tx (index_id ix)))))
    = order_apply (req_order req) (rows_in (split (req_interval req) fetch_cursor (req_order req)).1 m)).
  { apply (merge_page_exact f m0 (pending_of tx (index_id ix)) m); [apply Hm0|by apply pending_default_wf, Hok|apply Hm|done| |done|done|done].
    intros k Hk. destruct (txo_keys _ _ _ _ _ Hok (index_id ix) k Hk) as (t' & f' & Hc' & ?). rewrite Hci in Hc'. by injection Hc' as <- <-. }
  destruct (trim_exact max_read_size_bytes f m Hmax (proj1 Hm)) with (req := req) (fetch_cursor := fetch_cursor)
    (documents := merge_pending (req_order req) page (order_apply (req_order req) (rows_in (req_interval req) (pending_of tx (index_id ix)))))
    as (out & cursor & Htrim & Hcok & Hck & Hlen & Hout); [|done|done|done|].
  { intros [k v] Hin. apply BTreeMap.elem_of_get, Hm in Hin; [|apply Hm]. destruct (entry_good db _ _ _ _ Hdb Hin) as [Hg ->]. by exists v.2. }
  eexists _, _. split; [unfold merge_request; cbn [obind]; rewrite (pending_range_ok tx req ix Hen Hne); cbn [obind]; rewrite Hcc; reflexivity|].
  split; [exact Htrim|]. exists m. split_and!; [done|done|done| |done]. intros k Hk. destruct (Hck k Hk) as [Hfc|Hg]; [right; by apply Hck0|by left].
Qed.

Lemma catch_ret {E A} (m : outcome E A) : m <> Panic ->
  exists y, (forall E', catch (E' := E') m = Ret y) /\ m = match y with inl e => Err e | inr a => Ret a end.
Proof. destruct m; [exists (inr a)|exists (inl e)|]; done. Qed.

Lemma merge_request_safe tx req sr : Interval.is_empty (req_interval req) = false -> merge_request tx req sr <> Panic.
Proof.
  intros Hne. unfold merge_request. destruct sr as [e|[page cursor]]; cbn [obind]; [done|].
  pose proof (pending_range_safe tx req Hne) as Hs. destruct (pending_range tx req); cbn [obind]; [|done|done].
  by destruct (contains_cursor (req_interval req) cursor).
Qed.

Lemma trim_response_safe req res : trim_response max_read_size_bytes req res <> Panic.
Proof.
  unfold trim_response. destruct res as [e|[rows cursor]]; cbn [obind]; [done|].
  destruct (take_bytes _ _ _) as [out within]. by destruct (contains_cursor (req_interval req) _).
Qed.

(** What a batch of reads returns for one request, given what the snapshot
    returned for it. *)
Definition read_result db tx req (sr : index_error + Page * CursorPosition) (res : index_error + IndexRangeResponse) : Prop :=
  forall ix f, shared_index tx req ix f ->
    match sr with
    | inl e => res = inl e /\ ~ reliable db0 (tx_snapshot tx)
    | inr (_, fetch_cursor) => pending_within tx req ix fetch_cursor -> exists rsp, res = inr rsp /\ response_exact db req f rsp
    end.

(** What a read leaves of a transaction's index. *)
Record same_index tx tx' : Prop := {
  si_registry : tx_registry tx' = tx_registry tx;
  si_pending : database_index_updates tx' = database_index_updates tx;
  si_snapshot : snap_registry (tx_snapshot tx') = snap_registry (tx_snapshot tx);
  si_reliable : reliable db0 (tx_snapshot tx) -> reliable db0 (tx_snapshot tx');
}.

Lemma tx_range_batch_ok db tx schedule reqs :
  tx_ok c db0 tracked db tx -> (forall l, schedule l ≡ₚ l) ->
  Forall (fun req => (0 < req_max_size req)%nat /\ Interval.is_empty (req_interval req) = false) reqs ->
  exists srs snap' results tx',
    (forall E, range_batch max_read_size_bytes (E := E) (tx_snapshot tx) schedule reqs = Ret (srs, snap')) /\
    (forall E, tx_range_batch max_read_size_bytes (E := E) tx schedule reqs = Ret (results, tx')) /\
    tx_ok c db0 tracked db tx' /\ same_index tx tx' /\ length srs = length reqs /\ length results = length reqs /\
    forall n req sr res, reqs !! n = Some req -> srs !! n = Some sr -> results !! n = Some res -> read_result db tx req sr res.
Proof.
  intros Hok Hsched Hreqs.
  destruct (range_batch_ok max_read_size_bytes c db0 (tx_snapshot tx) schedule reqs) as (srs & snap' & Hrb & Hs' & Hreg & Hrel & HF);
    [apply Hok|done|eapply Forall_impl; [exact Hreqs|by intros ? [? _]]|].
  set (tx1 := MkTxIndex (tx_registry tx) (index_registry_updated tx) snap' (database_index_updates tx) (text_index_updates tx)).
  assert (Hok1 : tx_ok c db0 tracked db tx1) by (destruct Hok; by constructor).
  pose proof (Forall2_length _ _ _ HF) as Hl1. rewrite Forall_forall in Hreqs.
  destruct (mapM_Forall2 (fun E (e : RangeRequest * (index_error + Page * CursorPosition)) => catch (E' := E) (merge_request tx1 e.1 e.2))
    (fun e y => merge_request tx1 e.1 e.2 = match y with inl x => Err x | inr a => Ret a end) (zip reqs srs)) as (ms & Hms & HF1).
  { intros [req sr] Hin. apply catch_ret, merge_request_safe. cbn [fst]. apply Hreqs.
    apply list_elem_of_lookup in Hin as [n Hn]. apply lookup_zip_Some in Hn as [Hn _]. by eapply list_elem_of_lookup_2. }
  pose proof (Forall2_length _ _ _ HF1) as Hl2. rewrite length_zip, <- Hl1, Nat.min_id in Hl2.
  destruct (mapM_Forall2 (fun E (e : RangeRequest * (index_error + list TxRow * CursorPosition)) => catch (E' := E) (trim_response max_read_size_bytes e.1 e.2))
    (fun e y => trim_response max_read_size_bytes e.1 e.2 = match y with inl x => Err x | inr a => Ret a end) (zip reqs ms)) as (rs & Hrs & HF2).
  { intros e _. apply catch_ret, trim_response_safe. }
  pose proof (Forall2_length _ _ _ HF2) as Hl3. rewrite length_zip, <- Hl2, Nat.min_id in Hl3.
  exists srs, snap', rs, tx1. split_and!; [done| |done|by constructor|done|done|].
  { intros E. unfold tx_range_batch, range_no_deps. rewrite Hrb. cbn [obind]. fold tx1. rewrite Hms. cbn [obind].
    rewrite bool_decide_eq_true_2 by done. cbn [rassert obind]. rewrite Hrs. cbn [obind]. by rewrite bool_decide_eq_true_2. }
  intros n req sr res Hn Hsr Hres ix f Hsh.
  assert (Hlt : (n < length ms)%nat) by (rewrite <- Hl2; by eapply lookup_lt_Some).
  apply lookup_lt_is_Some in Hlt as [y Hy].
  assert (Hm : merge_request tx1 req sr = match y with inl x => Err x | inr a => Ret a end).
  { refine (Forall2_lookup_lr _ _ _ n (req, sr) y HF1 _ Hy). by apply lookup_zip_Some. }
  assert (Ht : trim_response max_read_size_bytes req y = match res with inl x => Err x | inr a => Ret a end).
  { refine (Forall2_lookup_lr _ _ _ n (req, y) res HF2 _ Hres). by apply lookup_zip_Some. }
  pose proof (Forall2_lookup_lr _ _ _ _ _ _ HF Hn Hsr) as Hq. destruct sr as [e|[page fc]].
  - cbn [merge_request obind] in Hm. destruct y; [|done]. injection Hm as <-. cbn in Ht. destruct res; [|done]. injection Ht as <-.
    split; [done|]. intros Hr. destruct Hsh as (_ & _ & _ & ix0 & s0 & Hen0 & _ & Hcfg0). by apply (Hq Hr ix0 f s0).
  - intros Hwithin. destruct (Hreqs req) as [Hpos Hne]; [by eapply list_elem_of_lookup_2|].
    destruct (request_exact db tx1 req ix f page fc) as (rows & rsp & Hmr & Htr & Hex); [done| |done|done| |exact Hwithin|].
    { destruct Hsh as (? & ? & ? & ix0 & s0 & Hen0 & ? & ?). split_and!; [done..|]. exists ix0, s0. cbn [tx_snapshot tx1]. rewrite Hreg. done. }
    { unfold page_exact in *. cbn [tx_snapshot tx1]. by rewrite Hreg. }
    rewrite Hm in Hmr. destruct y as [|y]; [done|]. injection Hmr as ->. rewrite Ht in Htr. destruct res as [|rsp']; [done|]. injection Htr as ->. eauto.
Qed.
End pages.

(** ** Theorems *)

Section runs.
Context {M : Type} `{InMemoryIndexes M} (max_read_size_bytes : Z) (from_document : PackedDocument -> option Index).
Context (c : IndexId -> option (TabletId * list FieldPath)) (tracked : IndexId -> Prop).

(** What a transaction does with its index: it replaces documents, in any
    order and number, and reads; the [tracked] indexes stay registered.  The
    first component is what its documents should be. *)
Inductive tx_steps : live WriteTimestamp * TransactionIndex M -> live WriteTimestamp * TransactionIndex M -> Prop :=
| steps_none s : tx_steps s s
| steps_update s db tx i old new r' tx' updates :
    tx_steps s (db, tx) -> write_ok db i old new ->
    (forall d, old = Some d -> stored from_document (tx_registry tx) d) -> (forall d, new = Some d -> well_named from_document d) ->
    begin_update from_document tx old new = Ret r' -> catalogued c r' -> (forall iid, tracked iid -> registered_id r' iid) ->
    finish_update from_document tx old new = Ret (tx', updates) ->
    tx_steps s (write db i (option_map (pair Pending) new), tx')
| steps_read s db tx schedule reqs results tx' :
    tx_steps s (db, tx) -> (forall l, schedule l ≡ₚ l) ->
    Forall (fun req => (0 < req_max_size req)%nat /\ Interval.is_empty (req_interval req) = false) reqs ->
    tx_range_batch max_read_size_bytes (E := index_error) tx schedule reqs = Ret (results, tx') ->
    tx_steps s (db, tx').

Lemma tx_steps_ok db0 s s' : 0 < max_read_size_bytes -> tx_steps s s' ->
  tx_ok c db0 tracked s.1 s.2 -> tx_ok c db0 tracked s'.1 s'.2.
Proof.
  intros Hmax. induction 1 as [|s db tx i old new r' tx' us _ IH Hw Hold Hnew Hb Hc Htr Hfin|s db tx sched reqs results tx' _ IH Hs Hreqs Hrd]; intros H0; [done|..].
  - destruct (finish_update_ok from_document c db0 tracked db tx i old new r' (IH H0) Hw Hold Hnew Hb Hc Htr) as (tx1 & us1 & Hf & _ & Hok).
    rewrite Hfin in Hf. by injection Hf as -> ->.
  - destruct (tx_range_batch_ok max_read_size_bytes c db0 tracked Hmax db tx sched reqs (IH H0) Hs Hreqs)
      as (srs & snap' & rs & tx1 & _ & Hrun & Hok & _). specialize (Hrun index_error). rewrite Hrd in Hrun. by injection Hrun as -> ->.
Qed.
End runs.

(** C19: a transaction reads its own writes: after any sequence of updates and
    reads, a read of an index that stayed registered never panics, and its
    page holds exactly the documents the transaction would commit, up to the
    returned cursor, in order and each once -- provided no pending row of the
    index lies in the interval beyond the page that the snapshot returned (in
    particular when that page reached the end of the interval); it fails only
    when a source of the snapshot fails. *)
Theorem transaction_reads_own_writes {M} `{InMemoryIndexes M} (max_read_size_bytes : Z) (from_document : PackedDocument -> option Index)
    (c : IndexId -> option (TabletId * list FieldPath)) (tracked : IndexId -> Prop) (db0 : live Timestamp)
    (r : IndexRegistry) (snapshot : DatabaseIndexSnapshot M) (db : live WriteTimestamp) (tx : TransactionIndex M) schedule reqs :
  0 < max_read_size_bytes -> snapshot_ok c db0 snapshot -> registry_ok r -> catalogued c r ->
  tx_steps max_read_size_bytes from_document c tracked (committed db0, tx_index_new r snapshot) (db, tx) ->
  (forall l, schedule l ≡ₚ l) ->
  Forall (fun req => (0 < req_max_size req)%nat /\ Interval.is_empty (req_interval req) = false) reqs ->
  exists srs snap' results tx',
    (forall E, range_batch max_read_size_bytes (E := E) (tx_snapshot tx) schedule reqs = Ret (srs, snap')) /\
    (forall E, tx_range_batch max_read_size_bytes (E := E) tx schedule reqs = Ret (results, tx')) /\
    length srs = length reqs /\ length results = length reqs /\
    forall n req sr res, reqs !! n = Some req -> srs !! n = Some sr -> results !! n = Some res ->
      read_result db0 tracked db tx req sr res.
Proof.
  intros Hmax Hs Hr Hc Hsteps Hsched Hreqs.
  pose proof (tx_steps_ok max_read_size_bytes from_document c tracked db0 _ _ Hmax Hsteps (tx_new_ok c db0 tracked r snapshot Hs Hr Hc)) as Hok.
  destruct (tx_range_batch_ok max_read_size_bytes c db0 tracked Hmax db tx schedule reqs Hok Hsched Hreqs)
    as (srs & snap' & rs & tx' & H1 & H2 & _ & _ & H3). by exists srs, snap', rs, tx'.
Qed.

Module TxExample.
(** Four documents with the values 1 to 4 of "a"; the transaction deletes the
    second and inserts one with the value 5. *)
Import MemoryExample SnapshotExample.
Definition four_docs : list (Timestamp * PackedDocument) := [(5, d 1 1); (5, d 2 2); (5, d 3 3); (5, d 4 4)].
Definition parse (x : PackedDocument) : option Index := None.
Definition tracked (iid : list Z) : Prop := iid = a_index.
Definition tx0 : TransactionIndex NoInMemoryIndexes := tx_index_new r (snapshot four_docs).
Definition run_update (m : outcome registry_error (TransactionIndex NoInMemoryIndexes)) (old new : option PackedDocument) :=
  let? tx := m in let? (tx, _) := finish_update parse tx old new in Ret tx.
Definition tx_of (m : outcome registry_error (TransactionIndex NoInMemoryIndexes)) := match m with Ret tx => tx | _ => tx0 end.
Definition tx1 := run_update (Ret tx0) (Some (d 2 2)) None.
Definition tx2 := run_update (Ret (tx_of tx1)) None (Some (d 5 5)).
Definition db1 : live WriteTimestamp := write (committed (db_of four_docs)) (id (d 2 2)) None.
Definition db2 : live WriteTimestamp := write db1 (id (d 5 5)) (Some (Pending, d 5 5)).
Definition request (order : Order) (n : nat) : RangeRequest := MkRange ([1], [98]) all order n.

Lemma four_docs_ok : docs_ok four_docs.
Proof. split; [by apply (bool_decide_unpack _)|]. repeat apply Forall_cons_2; try apply Forall_nil_2; by apply d_good. Qed.

Lemma a_index_registered iid : tracked iid -> registered_id r iid.
Proof. intros ->. exists [1], RegistryExample.enabled, [[[97]]]. split; [|done]. split_and!; [done|by left|by eexists]. Qed.

Definition updates_of tx old new := match finish_update (M := NoInMemoryIndexes) parse tx old new with Ret (_, us) => us | _ => [] end.

Lemma finish_ret tx old new :
  match finish_update parse tx old new with Ret _ => true | _ => false end = true ->
  finish_update parse tx old new = Ret (tx_of (run_update (Ret tx) old new), updates_of tx old new).
Proof. unfold run_update, updates_of. cbn [obind]. by destruct (finish_update parse tx old new) as [[tx' us]| |]. Qed.

Lemma steps_delete : tx_steps 1000 parse c tracked (committed (db_of four_docs), tx0) (db1, tx_of tx1).
Proof.
  apply (steps_update 1000 parse c tracked _ (committed (db_of four_docs)) tx0 (id (d 2 2)) (Some (d 2 2)) None r _
    (updates_of tx0 (Some (d 2 2)) None)).
  - apply steps_none.
  - split; [vm_compute; reflexivity|done].
  - by intros x _ _ i.
  - done.
  - vm_compute. reflexivity.
  - apply r_catalogued.
  - apply a_index_registered.
  - apply finish_ret. vm_compute. reflexivity.
Qed.

Lemma steps_insert : tx_steps 1000 parse c tracked (committed (db_of four_docs), tx0) (db2, tx_of tx2).
Proof.
  apply (steps_update 1000 parse c tracked _ db1 (tx_of tx1) (id (d 5 5)) None (Some (d 5 5)) r _
    (updates_of (tx_of tx1) None (Some (d 5 5)))).
  - apply steps_delete.
  - split; [vm_compute; reflexivity|]. intros x [= <-]. split; [done|by apply d_good].
  - done.
  - by intros x _ i.
  - vm_compute. reflexivity.
  - apply r_catalogued.
  - apply a_index_registered.
  - apply (finish_ret (tx_of tx1)). vm_compute. reflexivity.
Qed.
End TxExample.

Lemma transaction_reads_own_writes_witness :
  exists srs snap' results tx',
    (forall E, range_batch 1000 (E := E) (tx_snapshot (TxExample.tx_of TxExample.tx2)) (fun l => l) [TxExample.request Asc 10] = Ret (srs, snap')) /\
    (forall E, tx_range_batch 1000 (E := E) (TxExample.tx_of TxExample.tx2) (fun l => l) [TxExample.request Asc 10] = Ret (results, tx')) /\
    length srs = 1%nat /\ length results = 1%nat.
Proof.
  destruct (transaction_reads_own_writes 1000 TxExample.parse MemoryExample.c TxExample.tracked (SnapshotExample.db_of TxExample.four_docs)
    MemoryExample.r (SnapshotExample.snapshot TxExample.four_docs) TxExample.db2 (TxExample.tx_of TxExample.tx2) (fun l => l) [TxExample.request Asc 10])
    as (srs & snap' & results & tx' & H1 & H2 & H3 & H4 & _).
  - lia.
  - apply SnapshotExample.snapshot_is_ok, TxExample.four_docs_ok.
  - apply MemoryExample.r_ok.
  - apply MemoryExample.r_catalogued.
  - apply TxExample.steps_insert.
  - intros l. reflexivity.
  - repeat constructor.
  - by exists srs, snap', results, tx'.
Defined.

(** C35: a pending row beyond the page of the snapshot makes a read skip
    documents: with pages of two rows, after deleting the second of four
    documents and inserting a fifth, the transaction's first page is the first
    and the fifth document with a cursor after the fifth, so the third document,
    which is live and in the interval, is neither in the page nor in what is
    left of the interval. *)
Theorem pending_row_beyond_page_skips_documents :
  tx_steps 1000 TxExample.parse MemoryExample.c TxExample.tracked
    (committed (SnapshotExample.db_of TxExample.four_docs), TxExample.tx0) (TxExample.db2, TxExample.tx_of TxExample.tx2) /\
  exists rsp tx' k,
    tx_range_batch 1000 (E := index_error) (TxExample.tx_of TxExample.tx2) (fun l => l) [TxExample.request Asc 2] = Ret ([inr rsp], tx') /\
    map (fun e => e.2.1) (rsp_page rsp) = [MemoryExample.d 1 1; MemoryExample.d 5 5] /\
    entry_of TxExample.db2 [1] [[[97]]] k (Committed 5, MemoryExample.d 3 3) /\
    inside all k /\ k ∉ map fst (rsp_page rsp) /\ ~ inside (split all (rsp_cursor rsp) Asc).2 k.
Proof.
  split; [apply TxExample.steps_insert|].
  set (run := tx_range_batch 1000 (E := index_error) (TxExample.tx_of TxExample.tx2) (fun l => l) [TxExample.request Asc 2]).
  set (row := fun n => (doc_key (MemoryExample.d n n) [[[97]]], (MemoryExample.d n n, if n =? 5 then Pending else Committed 5))).
  assert (Hrun : match run with Ret (results, _) => Some results | _ => None end =
    Some [inr (MkResponse [row 1; row 5] (After (doc_key (MemoryExample.d 5 5) [[[97]]])))]) by (vm_compute; reflexivity).
  destruct run as [[results tx']| |] eqn:Erun; [|done..]. injection Hrun as ->.
  eexists _, tx', (doc_key (MemoryExample.d 3 3) [[[97]]]). split; [reflexivity|]. split_and!.
  - reflexivity.
  - split_and!; [vm_compute; reflexivity|done|done].
  - vm_compute. reflexivity.
  - apply (bool_decide_unpack _). vm_compute. exact I.
  - vm_compute. discriminate.
Qed.
