(* ===== verification/QueryStream.v ===== *)
(** * QueryStream: walking an index range
      (src/crates/database/src/query/index_range.rs, limit.rs, filter.rs, the
       loop of query/mod.rs, and index_range_batch of
       bootstrap_model/user_facing.rs)

    A stream is asked for its next document and answers with one, with the end,
    or with a range it waits for; [IndexRange] records in the transaction's
    read set what was consumed.  [QueryStream] is the trait; the expression of
    a filter, the component path and the table's names are parameters, and the
    documents of a page are the ones the index returned (no virtual tables).
    The theorems are about queries that read the transaction's index of
    TransactionIndex.v. *)

From S2P Require Import Prelude Ord BTreeMap BinaryKey Bounds Interval IntervalSet Timestamp Identifier Value Sorting SortingDecode Base32 IdV6 Document TableMapping IndexRegistry IndexUpdates IndexKeys MemoryIndexes IndexSnapshot QueryReads Reads TransactionIndex.

Local Open Scope Z_scope.

Record IndexRangeRequest := MkRequest {
  irr_interval : Interval;
  irr_order : Order;
  irr_max_rows : nat;
}.

Notation Row := (PackedDocument * WriteTimestamp)%type (only parsing).

Inductive QueryStreamNext :=
| Ready (row : option Row)
| WaitingOn (request : IndexRangeRequest).

Inductive query_error :=
| ScannedTooMuchData (bytes : Z)
| ScannedTooManyDocuments (rows : nat)
| ReadsErr (e : reads_error)
| NoComponent
| FetchErr (e : index_error)
| SameInterval
| BadExpression.

Definition MAX_QUERY_FETCH : nat := 1024.
Definition FILTER_QUERY_PREFETCH : nat := 100.

(** ** [IndexRange] *)

Record CursorInterval := MkCursors {
  curr_exclusive : option CursorPosition;
  end_inclusive : option CursorPosition;
}.

Definition cursors_contain (self : CursorInterval) (index_key : IndexKeyBytes) : bool :=
  match curr_exclusive self with
  | Some (After start_key) => negb (index_key <=? start_key)%ord
  | Some CursorEnd => false
  | None => true
  end &&
  match end_inclusive self with
  | Some (After end_key) => negb (end_key <? index_key)%ord
  | _ => true
  end.

Record IndexRange := MkIndexRange {
  ir_index : option (list Z * list Z);
  ir_order : Order;
  ir_fields : list FieldPath;
  cursor_interval : CursorInterval;
  intermediate_cursors : option (list CursorPosition);
  page : list (IndexKeyBytes * Row);
  unfetched_interval : Interval;
  initial_unfetched_interval : Interval;
  page_count : nat;
  returned_results : nat;
  rows_read : nat;
  returned_bytes : Z;
  maximum_rows_read : option nat;
  maximum_bytes_read : option Z;
  soft_maximum_rows_read : Z;
  soft_maximum_bytes_read : Z;
}.

Definition soft_data_limit (hard_limit : Z) : Z := hard_limit * 3 / 4.

(** The part of [interval] between the two cursors. *)
Definition cursor_part (interval : Interval) (cursors : CursorInterval) (order : Order) : Interval :=
  let unfetched := match curr_exclusive cursors with Some cursor => (split interval cursor order).2 | None => interval end in
  match end_inclusive cursors with Some cursor => (split unfetched cursor order).1 | None => unfetched end.

(** The knobs [TRANSACTION_MAX_READ_SIZE_ROWS] and [TRANSACTION_MAX_READ_SIZE_BYTES] bound the soft limits. *)
Definition index_range_new (max_rows max_bytes : Z) (index : option (list Z * list Z)) (interval : Interval) (order : Order)
    (fields : list FieldPath) (cursors : CursorInterval) (maximum_rows : option nat) (maximum_bytes : option Z)
    (should_compute_split_cursor : bool) : IndexRange :=
  {| ir_index := index; ir_order := order; ir_fields := fields; cursor_interval := cursors;
     intermediate_cursors := if should_compute_split_cursor then Some [] else None;
     page := []; unfetched_interval := cursor_part interval cursors order;
     initial_unfetched_interval := cursor_part interval cursors order;
     page_count := 0; returned_results := 0; rows_read := 0; returned_bytes := 0;
     maximum_rows_read := maximum_rows; maximum_bytes_read := maximum_bytes;
     soft_maximum_rows_read := soft_data_limit (Z.min (default max_rows (option_map Z.of_nat maximum_rows)) max_rows);
     soft_maximum_bytes_read := soft_data_limit (Z.min (default max_bytes maximum_bytes) max_bytes) |}.

(** The fields that [start_next] and [process_fetch] assign. *)
Definition progress (self : IndexRange) (curr : option CursorPosition) (intermediate : option (list CursorPosition))
    (pg : list (IndexKeyBytes * Row)) (unfetched : Interval) (pages results rows : nat) (bytes : Z) : IndexRange :=
  {| ir_index := ir_index self; ir_order := ir_order self; ir_fields := ir_fields self;
     cursor_interval := MkCursors curr (end_inclusive (cursor_interval self));
     intermediate_cursors := intermediate; page := pg; unfetched_interval := unfetched;
     initial_unfetched_interval := initial_unfetched_interval self;
     page_count := pages; returned_results := results; rows_read := rows; returned_bytes := bytes;
     maximum_rows_read := maximum_rows_read self; maximum_bytes_read := maximum_bytes_read self;
     soft_maximum_rows_read := soft_maximum_rows_read self; soft_maximum_bytes_read := soft_maximum_bytes_read self |}.

Definition set_cursor (self : IndexRange) (cursor : CursorPosition) : IndexRange :=
  progress self (Some cursor) (intermediate_cursors self) (page self) (unfetched_interval self) (page_count self)
    (returned_results self) (rows_read self) (returned_bytes self).

(** The row at [index_position] leaves the page. *)
Definition pop_page (self : IndexRange) (index_position : IndexKeyBytes) (rest : list (IndexKeyBytes * Row)) : IndexRange :=
  progress self (Some (After index_position)) (option_map (fun l => l ++ [After index_position]) (intermediate_cursors self))
    rest (unfetched_interval self) (page_count self) (1 + returned_results self) (rows_read self) (returned_bytes self).

Definition add_returned_bytes (self : IndexRange) (n : Z) : IndexRange :=
  progress self (curr_exclusive (cursor_interval self)) (intermediate_cursors self) (page self) (unfetched_interval self) (page_count self)
    (returned_results self) (rows_read self) (returned_bytes self + n).

Definition process_fetch (self : IndexRange) (fetched : list (IndexKeyBytes * Row)) (fetch_cursor : CursorPosition)
    : outcome query_error IndexRange :=
  let new_unfetched_interval := (split (unfetched_interval self) fetch_cursor (ir_order self)).2 in
  ensure (negb (bool_decide (unfetched_interval self = new_unfetched_interval))) SameInterval ;?
  Ret (progress self (curr_exclusive (cursor_interval self)) (intermediate_cursors self) (page self ++ fetched) new_unfetched_interval
    (1 + page_count self) (returned_results self) (rows_read self + length fetched) (returned_bytes self)).

Definition index_range_is_approaching_data_limit (self : IndexRange) : bool :=
  (soft_maximum_rows_read self <? Z.of_nat (rows_read self)) || (soft_maximum_bytes_read self <? returned_bytes self).

Definition index_range_split_cursor (self : IndexRange) : option CursorPosition :=
  match intermediate_cursors self with
  | Some cursors => if (length cursors <=? 2)%nat then None else cursors !! (length cursors / 2)%nat
  | None => None
  end.

Section index_range.
Context {M : Type -> Type} `{StringMapLaws M} {Trace : Type} (capture : bool) (max_rows max_bytes max_intervals : Z).
(** The knob [DEFAULT_QUERY_PREFETCH]; the call's stack trace, and the names
    the usage is accounted under ([must_component_path] may fail). *)
Context (default_prefetch : nat) (trace : Trace) (component_path : option (list Z)) (table_name : list Z) (is_virtual_table is_system_owned : bool).

(** The part of the transaction that a stream changes. *)
Record QueryTx := MkQueryTx { q_reads : TransactionReadSet (M := M) (Trace := Trace); q_usage : list UsageEvent }.

Definition lift_reads {A} (m : outcome reads_error A) : outcome query_error A :=
  match m with Ret a => Ret a | Err e => Err (ReadsErr e) | Panic => Panic end.

Definition record_range (tx : QueryTx) (index_name : list Z * list Z) (fs : list FieldPath) (i : Interval)
    : QueryTx * outcome query_error unit :=
  let '(reads, r) := record_indexed_directly capture max_intervals (q_reads tx) trace index_name fs i in
  (MkQueryTx reads (q_usage tx), lift_reads r).

(** [UserFacingModel::record_read_document]. *)
Definition record_document (tx : QueryTx) (document : PackedDocument) : QueryTx * outcome query_error unit :=
  match component_path with
  | None => (tx, Err NoComponent)
  | Some path =>
      let '(reads, usage, r) := record_read_document max_rows max_bytes (q_reads tx) path table_name (size (value document)) (q_usage tx) is_virtual_table in
      (MkQueryTx reads usage, lift_reads r)
  end.

Definition track_index_bytes (tx : QueryTx) (index_bytes : Z) : QueryTx * outcome query_error unit :=
  match component_path with
  | None => (tx, Err NoComponent)
  | Some path => (MkQueryTx (q_reads tx) (q_usage tx ++ [DatabaseEgress path table_name index_bytes is_system_owned]), Ret tt)
  end.

(** Handing out the first row of the page. *)
Definition return_row (self : IndexRange) (tx : QueryTx) (index_name : list Z * list Z) (e : IndexKeyBytes * Row)
    (rest : list (IndexKeyBytes * Row)) : IndexRange * QueryTx * outcome query_error QueryStreamNext :=
  let '(index_position, (v, timestamp)) := e in
  let self := pop_page self index_position rest in
  let used_interval := (split (initial_unfetched_interval self) (After index_position) (ir_order self)).1 in
  let '(tx, r) := record_range tx index_name (ir_fields self) used_interval in
  match r with
  | Err e => (self, tx, Err e)
  | Panic => (self, tx, Panic)
  | Ret _ =>
      let '(tx, r) := record_document tx v in
      match r with
      | Err e => (self, tx, Err e)
      | Panic => (self, tx, Panic)
      | Ret _ =>
          let '(tx, r) := track_index_bytes tx (Z.of_nat (length index_position)) in
          match r with
          | Err e => (self, tx, Err e)
          | Panic => (self, tx, Panic)
          | Ret _ => (add_returned_bytes self (size (value v)), tx, Ret (Ready (Some (v, timestamp))))
          end
      end
  end.

(** The rest of the range is empty: all of it was read. *)
Definition return_end (self : IndexRange) (tx : QueryTx) (index_name : list Z * list Z) (cursor : CursorPosition)
    : IndexRange * QueryTx * outcome query_error QueryStreamNext :=
  let '(tx, r) := record_range tx index_name (ir_fields self) (initial_unfetched_interval self) in
  match r with
  | Ret _ => (set_cursor self cursor, tx, Ret (Ready None))
  | Err e => (self, tx, Err e)
  | Panic => (self, tx, Panic)
  end.

Definition at_end (self : IndexRange) : bool :=
  match curr_exclusive (cursor_interval self) with Some CursorEnd => true | _ => false end.

Definition end_cursor (self : IndexRange) : CursorPosition := default CursorEnd (end_inclusive (cursor_interval self)).

(** How many rows to ask for. *)
Definition fetch_size (self : IndexRange) (enforce_limits : bool) (prefetch_hint : option nat) : outcome query_error nat :=
  let n := Nat.min (Nat.max (default default_prefetch prefetch_hint) 1) MAX_QUERY_FETCH in
  match enforce_limits, maximum_rows_read self with
  | true, Some maximum_rows_read =>
      ensure (negb (maximum_rows_read <=? rows_read self)%nat) (ScannedTooManyDocuments (rows_read self)) ;?
      Ret (Nat.min n (maximum_rows_read - rows_read self))
  | _, _ => Ret n
  end.

Definition start_next (self : IndexRange) (tx : QueryTx) (prefetch_hint : option nat)
    : IndexRange * QueryTx * outcome query_error QueryStreamNext :=
  let enforce_limits := match end_inclusive (cursor_interval self) with None => true | Some _ => false end in
  let over := match enforce_limits, maximum_bytes_read self with true, Some n => n <=? returned_bytes self | _, _ => false end in
  if over then (self, tx, Err (ScannedTooMuchData (returned_bytes self)))
  else
    match ir_index self with
    | None => (set_cursor self (end_cursor self), tx, Ret (Ready None))
    | Some index_name =>
        match page self with
        | e :: rest => return_row self tx index_name e rest
        | [] =>
            if at_end self then return_end self tx index_name CursorEnd
            else if Interval.is_empty (unfetched_interval self) then return_end self tx index_name (end_cursor self)
            else
              (self, tx, let? n := fetch_size self enforce_limits prefetch_hint in
                         Ret (WaitingOn (MkRequest (unfetched_interval self) (ir_order self) n)))
        end
    end.

(** ** [QueryStream], [Limit] and [Filter] *)

Class QueryStream (St : Type) := {
  cursor_position : St -> option CursorPosition;
  split_cursor_position : St -> option CursorPosition;
  is_approaching_data_limit : St -> bool;
  next : St -> QueryTx -> option nat -> St * QueryTx * outcome query_error QueryStreamNext;
  feed : St -> IndexRangeResponse -> outcome query_error St;
  (** how many rows are fetched and not handed out *)
  buffered : St -> nat;
}.

#[global] Instance IndexRange_QueryStream : QueryStream IndexRange := {|
  cursor_position := fun self => curr_exclusive (cursor_interval self);
  split_cursor_position := index_range_split_cursor;
  is_approaching_data_limit := index_range_is_approaching_data_limit;
  next := start_next;
  feed := fun self rsp => process_fetch self (rsp_page rsp) (rsp_cursor rsp);
  buffered := fun self => length (page self);
|}.

Section operators.
Context {St : Type} `{QueryStream St}.

Record Limit := MkLimit { limit_inner : St; limit : nat; rows_emitted : nat }.

Definition limit_new (inner : St) (n : nat) : Limit := MkLimit inner n 0.

Definition limit_next (self : Limit) (tx : QueryTx) (prefetch_hint : option nat)
    : Limit * QueryTx * outcome query_error QueryStreamNext :=
  if (limit self <=? rows_emitted self)%nat then (self, tx, Ret (Ready None))
  else
    let inner_hint := Nat.min (default default_prefetch prefetch_hint) (limit self - rows_emitted self) in
    let '(inner, tx, result) := next (limit_inner self) tx (Some inner_hint) in
    let rows_emitted := match result with Ret (Ready (Some _)) => (1 + rows_emitted self)%nat | _ => rows_emitted self end in
    (MkLimit inner (limit self) rows_emitted, tx, result).

#[global] Instance Limit_QueryStream : QueryStream Limit := {|
  cursor_position := fun self => cursor_position (limit_inner self);
  split_cursor_position := fun self => split_cursor_position (limit_inner self);
  is_approaching_data_limit := fun self => is_approaching_data_limit (limit_inner self);
  next := limit_next;
  feed := fun self rsp => let? inner := feed (limit_inner self) rsp in Ret (MkLimit inner (limit self) (rows_emitted self));
  buffered := fun self => buffered (limit_inner self);
|}.

(** The expression evaluated on a document, as a boolean. *)
Record Filter := MkFilter { filter_inner : St; expr : PackedDocument -> outcome query_error bool }.

(** The loop of [Filter::next]: each round but the last takes a buffered row. *)
Fixpoint filter_loop (fuel : nat) (expr : PackedDocument -> outcome query_error bool) (inner : St) (tx : QueryTx)
    : St * QueryTx * outcome query_error QueryStreamNext :=
  match fuel with
  | O => (inner, tx, Panic)
  | S fuel =>
      let '(inner, tx, result) := next inner tx (Some FILTER_QUERY_PREFETCH) in
      match result with
      | Ret (Ready (Some (document, write_timestamp))) =>
          match expr document with
          | Ret true => (inner, tx, Ret (Ready (Some (document, write_timestamp))))
          | Ret false => filter_loop fuel expr inner tx
          | Err e => (inner, tx, Err e)
          | Panic => (inner, tx, Panic)
          end
      | _ => (inner, tx, result)
      end
  end.

Definition filter_next (self : Filter) (tx : QueryTx) (prefetch_hint : option nat)
    : Filter * QueryTx * outcome query_error QueryStreamNext :=
  let '(inner, tx, result) := filter_loop (1 + buffered (filter_inner self)) (expr self) (filter_inner self) tx in
  (MkFilter inner (expr self), tx, result).

#[global] Instance Filter_QueryStream : QueryStream Filter := {|
  cursor_position := fun self => cursor_position (filter_inner self);
  split_cursor_position := fun self => split_cursor_position (filter_inner self);
  is_approaching_data_limit := fun self => is_approaching_data_limit (filter_inner self);
  next := filter_next;
  feed := fun self rsp => let? inner := feed (filter_inner self) rsp in Ret (MkFilter inner (expr self));
  buffered := fun self => buffered (filter_inner self);
|}.

(** ** Running a query: [query_batch_next] for one query.

    [index] is the transaction's index and [fetch] reads one range of it. *)
Context {F : Type} (fetch : F -> IndexRangeRequest -> F * outcome index_error IndexRangeResponse).

Fixpoint query_next (fuel : nat) (query : St) (tx : QueryTx) (index : F) (prefetch_hint : option nat)
    : St * QueryTx * F * outcome query_error (option Row) :=
  match fuel with
  | O => (query, tx, index, Panic)
  | S fuel =>
      let '(query, tx, result) := next query tx prefetch_hint in
      match result with
      | Err e => (query, tx, index, Err e)
      | Panic => (query, tx, index, Panic)
      | Ret (Ready row) => (query, tx, index, Ret row)
      | Ret (WaitingOn request) =>
          let '(index, response) := fetch index request in
          match response with
          | Err e => (query, tx, index, Err (FetchErr e))
          | Panic => (query, tx, index, Panic)
          | Ret rsp =>
              match feed query rsp with
              | Err e => (query, tx, index, Err e)
              | Panic => (query, tx, index, Panic)
              | Ret query => query_next fuel query tx index prefetch_hint
              end
          end
      end
  end.

(** Up to [n] documents of a query, one [next] after another; [true] when the
    end was reached. *)
Fixpoint query_take (fuel n : nat) (query : St) (tx : QueryTx) (index : F) (prefetch_hint : option nat)
    : St * QueryTx * F * outcome query_error (list Row * bool) :=
  match n with
  | O => (query, tx, index, Ret ([], false))
  | S n =>
      let '(query, tx, index, result) := query_next fuel query tx index prefetch_hint in
      match result with
      | Err e => (query, tx, index, Err e)
      | Panic => (query, tx, index, Panic)
      | Ret None => (query, tx, index, Ret ([], true))
      | Ret (Some row) =>
          let '(query, tx, index, result) := query_take fuel n query tx index prefetch_hint in
          (query, tx, index, let? more := result in Ret (row :: more.1, more.2))
      end
  end.
End operators.

(** ** What a stream promises

    [m] is what the transaction's index holds, over the fields [f]; the
    cursors of the answers are among the keys [ks]. *)
Section laws.
Context (f : list FieldPath) (m : BTreeMap.t IndexKeyBytes (WriteTimestamp * PackedDocument)) (ks : list IndexKeyBytes).
(** The index, the interval and the order of the range at the bottom. *)
Context (n0 : option (list Z * list Z)) (i0 : Interval) (o0 : Order).
Hypothesis Hm : BTreeMap.wf m.
Hypothesis Hkeys : forall e, e ∈ m -> doc_keyed f e.1.
Hypothesis Hks : forall k, k ∈ ks -> doc_keyed f k.

(** An error of a stream itself: a limit, a missing component, an expression. *)
Definition stream_error (e : query_error) : Prop :=
  match e with SameInterval | FetchErr _ => False | _ => True end.

(** A request is within the range at the bottom. *)
Definition request_within (req : IndexRangeRequest) : Prop :=
  forall k, doc_keyed f k -> inside (irr_interval req) k -> inside i0 k.

Definition to_row (e : IndexKeyBytes * (WriteTimestamp * PackedDocument)) : Row := (e.2.2, e.2.1).

(** The rows of an interval, in order. *)
Definition rows_at (i : Interval) (order : Order) : list (IndexKeyBytes * (WriteTimestamp * PackedDocument)) :=
  order_apply order (rows_in i m).

Definition answer_ok (req : IndexRangeRequest) (rsp : IndexRangeResponse) : Prop :=
  map rsp_row (rsp_page rsp) = rows_at (split (irr_interval req) (rsp_cursor rsp) (irr_order req)).1 (irr_order req) /\
  cursor_ok f (irr_interval req) (rsp_cursor rsp) /\ (forall k, rsp_cursor rsp = After k -> k ∈ ks).

(** [rows_of] is what a stream has still to return, [gas] bounds how often it
    waits, [stream_ok] is its invariant with the transaction. *)
Class StreamLaws (St : Type) `{QueryStream St} := {
  rows_of : St -> list Row;
  stream_ok : St -> QueryTx -> Prop;
  gas : St -> nat;
  next_law s tx hint s' tx' r : stream_ok s tx -> next s tx hint = (s', tx', r) ->
    stream_ok s' tx' /\ gas s' = gas s /\
    match r with
    | Ret (Ready None) => rows_of s = []
    | Ret (Ready (Some row)) => rows_of s = row :: rows_of s' /\ (buffered s' < buffered s)%nat
    | Ret (WaitingOn req) =>
        rows_of s' = rows_of s /\ Interval.is_empty (irr_interval req) = false /\ (0 < irr_max_rows req)%nat /\ request_within req /\
        forall rsp, answer_ok req rsp -> exists s'', feed s' rsp = Ret s'' /\
          rows_of s'' = rows_of s' /\ (gas s'' < gas s')%nat /\ stream_ok s'' tx'
    | Err e => stream_error e
    | Panic => False
    end;
}.

(** *** [IndexRange] *)

Definition pages_left (s : IndexRange) : list (IndexKeyBytes * (WriteTimestamp * PackedDocument)) :=
  map rsp_row (page s) ++ rows_at (unfetched_interval s) (ir_order s).

Definition range_rows (s : IndexRange) : list Row :=
  match ir_index s with
  | None => []
  | Some _ => if at_end s then [] else map to_row (pages_left s)
  end.

Definition range_gas (s : IndexRange) : nat :=
  if Interval.is_empty (unfetched_interval s) then 0
  else S (length (bfilter (Interval.contains (unfetched_interval s)) ks)).

(** The keys up to the cursor are read. *)
Definition covered (n : list Z * list Z) (s : IndexRange) (tx : QueryTx) : Prop :=
  forall cursor k, curr_exclusive (cursor_interval s) = Some cursor ->
    inside (split (initial_unfetched_interval s) cursor (ir_order s)).1 k -> key_read (read_set (q_reads tx)) n k.

Record range_ok (n : list Z * list Z) (s : IndexRange) (tx : QueryTx) : Prop := {
  ro_end : at_end s = true -> page s = [];
  ro_suffix : at_end s = false -> pages_left s `suffix_of` rows_at (initial_unfetched_interval s) (ir_order s);
  ro_reads : read_set_ok (read_set (q_reads tx));
  ro_name : is_valid_identifier n.2 = true;
  ro_fields : forall reads, BTreeMap.get n (indexed (read_set (q_reads tx))) = Some reads -> fields reads = ir_fields s;
  ro_covered : covered n s tx;
  ro_last : forall c, end_inclusive (cursor_interval s) = Some c ->
    (split (initial_unfetched_interval s) c (ir_order s)).1 = initial_unfetched_interval s;
  ro_base : initial_unfetched_interval s = i0 /\ ir_order s = o0;
  ro_within : forall k, doc_keyed f k -> inside (unfetched_interval s) k -> inside i0 k;
}.

Definition range_stream_ok (s : IndexRange) (tx : QueryTx) : Prop :=
  ir_index s = n0 /\ match ir_index s with Some n => range_ok n s tx | None => True end.

(** The reads of [tx'] are those of [tx] and the keys of [i]. *)
Definition reads_more n (fs : list FieldPath) (tx tx' : QueryTx) (i : Interval) : Prop :=
  read_set_ok (read_set (q_reads tx')) /\
  (forall reads, BTreeMap.get n (indexed (read_set (q_reads tx'))) = Some reads -> fields reads = fs) /\
  (forall k, key_read (read_set (q_reads tx')) n k <-> key_read (read_set (q_reads tx)) n k \/ inside i k).

Lemma record_range_ok n s tx i tx' r :
  read_set_ok (read_set (q_reads tx)) -> is_valid_identifier n.2 = true ->
  (forall reads, BTreeMap.get n (indexed (read_set (q_reads tx))) = Some reads -> fields reads = ir_fields s) ->
  record_range tx n (ir_fields s) i = (tx', r) ->
  reads_more n (ir_fields s) tx tx' i /\ r <> Panic /\ (forall e, r = Err e -> stream_error e).
Proof.
  intros Hr Hn Hf. unfold record_range, record_indexed_directly.
  destruct (record_indexed_spec capture (q_reads tx) trace n (ir_fields s) [i] Hr Hn Hf) as
    (self' & lens & He & Hok & _ & (reads & Hg & Hfs) & _ & Hk & _). rewrite He. destruct lens as [b a].
  intros [= <- <-]. split; [|split; [by destruct (_ <? _)|by destruct (_ <? _); intros e [= <-]]]. cbn [q_reads read_set]. split_and!; [done|naive_solver|].
  intros k. rewrite Hk. setoid_rewrite list_elem_of_singleton. naive_solver.
Qed.

Lemma record_document_ok tx d tx' r : record_document tx d = (tx', r) ->
  read_set (q_reads tx') = read_set (q_reads tx) /\ r <> Panic /\ (forall e, r = Err e -> stream_error e).
Proof.
  unfold record_document. destruct component_path as [path|]; [|intros [= <- <-]; split_and!; [done|done|by intros e [= <-]]].
  unfold record_read_document. destruct (_ && _); [by intros [= <- <-]|]. intros [= <- <-]. split; [done|].
  split; [|intros e]; repeat (destruct (_ <=? _); cbn [ensure obind lift_reads]); try done; by intros [= <-].
Qed.

Lemma track_index_bytes_ok tx b tx' r : track_index_bytes tx b = (tx', r) ->
  q_reads tx' = q_reads tx /\ r <> Panic /\ (forall e, r = Err e -> stream_error e).
Proof. unfold track_index_bytes. destruct component_path as [path|]; intros [= <- <-]; split_and!; try done. by intros e [= <-]. Qed.

Lemma range_ok_same n s s' tx tx' : range_ok n s tx ->
  (initial_unfetched_interval s', ir_order s', ir_fields s', cursor_interval s', page s', unfetched_interval s') =
  (initial_unfetched_interval s, ir_order s, ir_fields s, cursor_interval s, page s, unfetched_interval s) ->
  read_set (q_reads tx') = read_set (q_reads tx) -> range_ok n s' tx'.
Proof.
  intros [H1 H2 H3 H4 H5 H6 H7 H8 H9] [= Hi Ho Hf Hc Hp Hu] Hr.
  constructor; unfold at_end, pages_left, covered in *; rewrite ?Hi, ?Ho, ?Hf, ?Hc, ?Hp, ?Hu, ?Hr; done.
Qed.

Lemma pop_page_ok n s tx tx' e rest : range_ok n s tx -> page s = e :: rest ->
  reads_more n (ir_fields s) tx tx' (split (initial_unfetched_interval s) (After e.1) (ir_order s)).1 ->
  range_ok n (pop_page s e.1 rest) tx'.
Proof.
  intros [H1 H2 H3 H4 H5 H6 H7 H8 H9] Hp (Hr & Hf & Hk). constructor; [done| |done..| |done|done|done].
  - intros _. assert (Hend : at_end s = false) by (destruct (at_end s); [by rewrite H1 in Hp|done]).
    destruct (H2 Hend) as [pre Hpre]. unfold pages_left in Hpre. rewrite Hp in Hpre. cbn [map] in Hpre.
    exists (pre ++ [rsp_row e]). rewrite <- (assoc (++)). exact Hpre.
  - intros cursor k [= <-] Hin. apply Hk. by right.
Qed.

(** What [return_row] leaves: the row handed out is consumed, also on an error. *)
Lemma return_row_ok n s tx e rest s' tx' r : range_ok n s tx -> page s = e :: rest ->
  return_row s tx n e rest = (s', tx', r) ->
  range_ok n s' tx' /\ (exists b, s' = add_returned_bytes (pop_page s e.1 rest) b) /\
  (r = Ret (Ready (Some e.2)) \/ exists err, r = Err err /\ stream_error err).
Proof.
  intros Hok Hp. destruct e as [k [v ts]]. unfold return_row.
  set (s1 := pop_page s k rest). assert (Hs1 : s1 = add_returned_bytes s1 0).
  { unfold s1, add_returned_bytes, pop_page, progress. cbn. f_equal. lia. }
  destruct (record_range tx n _ _) as [tx1 r1] eqn:E1.
  destruct (record_range_ok n s1 tx _ tx1 r1 (ro_reads n s tx Hok) (ro_name n s tx Hok) (ro_fields n s tx Hok) E1) as (Hmore & Hnp & Hne).
  pose proof (pop_page_ok n s tx tx1 (k, (v, ts)) rest Hok Hp Hmore) as Hok1. cbn [fst] in Hok1. fold s1 in Hok1.
  destruct r1 as [[]|e1|]; [|intros [= <- <- <-]; split_and!; [done|by exists 0|right; naive_solver]|done].
  destruct (record_document tx1 v) as [tx2 r2] eqn:E2. apply record_document_ok in E2 as (Hrs2 & Hnp2 & Hne2).
  assert (Hok2 : range_ok n s1 tx2) by (by eapply range_ok_same).
  destruct r2 as [[]|e2|]; [|intros [= <- <- <-]; split_and!; [done|by exists 0|right; naive_solver]|done].
  destruct (track_index_bytes tx2 _) as [tx3 r3] eqn:E3. apply track_index_bytes_ok in E3 as (Hrs3 & Hnp3 & Hne3).
  assert (Hok3 : range_ok n s1 tx3) by (eapply range_ok_same; [exact Hok2|done|by rewrite Hrs3]).
  destruct r3 as [[]|e3|]; intros [= <- <- <-]; [..|done].
  - split_and!; [by eapply range_ok_same|by eexists|by left].
  - split_and!; [done|by exists 0|right; naive_solver].
Qed.

Lemma return_end_ok n s tx cursor s' tx' r : range_ok n s tx -> page s = [] ->
  cursor = CursorEnd \/ at_end s = false -> cursor = CursorEnd \/ cursor = end_cursor s ->
  return_end s tx n cursor = (s', tx', r) ->
  range_ok n s' tx' /\ (s' = s \/ s' = set_cursor s cursor) /\
  (r = Ret (Ready None) \/ exists err, r = Err err /\ stream_error err).
Proof.
  intros Hok Hp Hcur Hsub. unfold return_end.
  assert (Hlast : (split (initial_unfetched_interval s) cursor (ir_order s)).1 = initial_unfetched_interval s).
  { destruct Hsub as [->|Hsub]; [done|]. unfold end_cursor in Hsub.
    destruct (end_inclusive (cursor_interval s)) as [c|] eqn:E; cbn [from_option Datatypes.id] in Hsub; subst; [by apply (ro_last n s tx)|done]. }
  destruct (record_range tx n _ _) as [tx1 r1] eqn:E1.
  destruct (record_range_ok n s tx _ tx1 r1 (ro_reads n s tx Hok) (ro_name n s tx Hok) (ro_fields n s tx Hok) E1) as ((Hr1 & Hf1 & Hk1) & Hnp & Hne).
  pose proof Hok as [H1 H2 H3 H4 H5 H6 H7 H8 H9].
  assert (Hold : range_ok n s tx1).
  { constructor; [done..| |done|done|done]. intros c k Hc Hin. apply Hk1. left. by apply (H6 c). }
  destruct r1 as [[]|e1|]; [|intros [= <- <- <-]; split_and!; [done|by left|right; naive_solver]|done].
  intros [= <- <- <-]. split_and!; [|by right|by left]. constructor; [done| |done..| |done|done|done].
  - intros Hend. apply H2. unfold at_end, set_cursor in Hend. cbn in Hend. by destruct Hcur as [->|].
  - intros c k [= <-] Hin. apply Hk1. right. by rewrite <- Hlast.
Qed.

(** *** Feeding a page *)

Lemma split_snd_ne i cursor order : cursor_ok f i cursor -> Interval.is_empty i = false -> i <> (split i cursor order).2.
Proof.
  destruct cursor as [k|]; intros Hc Hne Heq; [|by rewrite Heq in Hne].
  destruct Hc as [Hk Hi]. pose proof (doc_keyed_bytes f k Hk) as Hb.
  rewrite Heq in Hi. apply inside_split_snd in Hi as [_ Hlt]; [|done|done|done|by rewrite Heq].
  by destruct order; apply olt_irrefl in Hlt.
Qed.

Lemma inside_rest i cursor order k : cursor_ok f i cursor -> doc_keyed f k -> inside (split i cursor order).2 k -> inside i k.
Proof.
  destruct cursor as [ck|]; intros Hc Hk Hin; [|by apply is_empty_spec in Hin].
  destruct Hc as [Hck Hi]. by apply inside_split_snd in Hin as [? _]; [|by eapply doc_keyed_bytes..|by apply (doc_keyed_prefix f)|].
Qed.

Lemma rows_split i cursor order : cursor_ok f i cursor ->
  rows_at i order = rows_at (split i cursor order).1 order ++ rows_at (split i cursor order).2 order.
Proof.
  destruct cursor as [k|].
  - intros [Hk Hi]. apply rows_cut; [done|by eapply doc_keyed_bytes|done|].
    intros e He. split; [by eapply doc_keyed_bytes, Hkeys|]. apply (doc_keyed_prefix f); [done|by apply Hkeys].
  - intros _. cbn [split fst snd]. unfold rows_at at 3.
    assert (Hnil : rows_in empty m = []).
    { apply bfilter_none. intros e _. apply contains_false. by apply is_empty_spec. }
    rewrite Hnil. destruct order; by rewrite app_nil_r.
Qed.

Lemma count_drops {A} (p q : A -> bool) (l : list A) x :
  (forall y, y ∈ l -> q y = true -> p y = true) -> x ∈ l -> p x = true -> q x = false ->
  (length (bfilter q l) < length (bfilter p l))%nat.
Proof.
  intros Hqp Hx Hp Hq. induction l as [|y l IH]; [by apply elem_of_nil in Hx|].
  assert (Hle : forall l', (forall y, y ∈ l' -> q y = true -> p y = true) -> (length (bfilter q l') <= length (bfilter p l'))%nat).
  { clear. induction l' as [|z l' IH']; intros Hz; [done|]. pose proof (Hz z ltac:(left)) as Hz1.
    specialize (IH' ltac:(intros y' Hy' ?; apply Hz; [by right|done])). cbn [bfilter]. destruct (q z), (p z); cbn [length]; lia. }
  pose proof (Hqp y ltac:(left)) as Hy. apply elem_of_cons in Hx as [<-|Hx]; cbn [bfilter].
  - rewrite Hp, Hq. cbn [length]. specialize (Hle l ltac:(intros y' Hy' ?; apply Hqp; [by right|done])). lia.
  - specialize (IH ltac:(intros y' Hy' ?; apply Hqp; [by right|done]) Hx).
    destruct (q y), (p y); cbn [length]; lia.
Qed.

Lemma gas_drops i cursor order : cursor_ok f i cursor -> (forall k, cursor = After k -> k ∈ ks) -> Interval.is_empty i = false ->
  let i' := (split i cursor order).2 in
  ((if Interval.is_empty i' then 0 else S (length (bfilter (Interval.contains i') ks))) < S (length (bfilter (Interval.contains i) ks)))%nat.
Proof.
  intros Hc Hin Hne i'. destruct (Interval.is_empty i') eqn:He; [lia|]. destruct cursor as [k|]; [|done].
  specialize (Hin k eq_refl). destruct Hc as [Hk Hi]. apply -> Nat.succ_lt_mono.
  assert (Hsnd : forall p, p ∈ ks -> inside i' p <-> inside i p /\ match order with Asc => k ≺ p | Desc => p ≺ k end).
  { intros p Hp%Hks. apply inside_split_snd; [by eapply doc_keyed_bytes..|by apply (doc_keyed_prefix f)|done]. }
  apply (count_drops _ _ _ k); [|done|done|].
  - intros y Hy Hiy. by apply (Hsnd y Hy) in Hiy as [??].
  - apply contains_false. intros [_ Hlt]%(Hsnd k Hin). by destruct order; apply olt_irrefl in Hlt.
Qed.

Lemma process_fetch_ok n s tx rsp hint :
  range_ok n s tx -> at_end s = false -> Interval.is_empty (unfetched_interval s) = false ->
  answer_ok (MkRequest (unfetched_interval s) (ir_order s) hint) rsp ->
  exists s', process_fetch s (rsp_page rsp) (rsp_cursor rsp) = Ret s' /\ ir_index s' = ir_index s /\ at_end s' = false /\
    pages_left s' = pages_left s /\ (range_gas s' < range_gas s)%nat /\ range_ok n s' tx.
Proof.
  intros Hok Hend Hne (Hrows & Hc & Hin). cbn [irr_interval irr_order] in *. unfold process_fetch.
  rewrite bool_decide_false by (by apply split_snd_ne). cbn [negb ensure obind]. eexists. split; [done|].
  set (s' := progress s _ _ _ _ _ _ _ _).
  assert (Hleft : pages_left s' = pages_left s).
  { unfold pages_left. cbn [s' page unfetched_interval ir_order progress]. rewrite (rows_split _ _ (ir_order s) Hc), <- Hrows, map_app.
    by rewrite <- (assoc (++)). }
  split_and!; [done|done|done| |].
  - unfold range_gas. rewrite Hne. by apply gas_drops.
  - destruct Hok as [H1 H2 H3 H4 H5 H6 H7 H8 H9]. constructor; [|by rewrite Hleft|done|done|done|done|done|done|].
    2:{ intros k Hk Hik. apply H9; [done|]. exact (inside_rest _ _ _ k Hc Hk Hik). }
    intros He. unfold at_end in He, Hend. cbn in He. by rewrite He in Hend.
Qed.

Lemma fetch_size_ok s enforce hint : match fetch_size s enforce hint with
  | Ret n => (0 < n)%nat | Err e => stream_error e | Panic => False end.
Proof.
  unfold fetch_size, MAX_QUERY_FETCH. destruct enforce; [|lia]. destruct (maximum_rows_read s) as [k|]; [|lia].
  destruct (Nat.leb_spec k (rows_read s)); cbn [negb ensure obind]; [done|lia].
Qed.

Lemma rows_at_empty i order : Interval.is_empty i = true -> rows_at i order = [].
Proof.
  intros He. unfold rows_at, rows_in. rewrite bfilter_none; [by destruct order|].
  intros e _. apply contains_false. by apply is_empty_spec.
Qed.

Lemma return_end_result (P : Prop) (g g' : nat) (rows : list Row) r (Q : Row -> Prop) (R : IndexRangeRequest -> Prop) :
  P -> g' = g -> rows = [] -> (r = Ret (Ready None) \/ exists err, r = Err err /\ stream_error err) ->
  P /\ g' = g /\ match r with
  | Ret (Ready None) => rows = []
  | Ret (Ready (Some row)) => Q row
  | Ret (WaitingOn req) => R req
  | Err e => stream_error e
  | Panic => False
  end.
Proof. intros ??? [->|(? & -> & ?)]; done. Qed.

(** The law of [QueryStream] for [IndexRange]. *)
Lemma start_next_law s tx hint s' tx' r : range_stream_ok s tx -> start_next s tx hint = (s', tx', r) ->
  range_stream_ok s' tx' /\ range_gas s' = range_gas s /\
  match r with
  | Ret (Ready None) => range_rows s = []
  | Ret (Ready (Some row)) => range_rows s = row :: range_rows s' /\ (length (page s') < length (page s))%nat
  | Ret (WaitingOn req) =>
      range_rows s' = range_rows s /\ Interval.is_empty (irr_interval req) = false /\ (0 < irr_max_rows req)%nat /\ request_within req /\
      forall rsp, answer_ok req rsp -> exists s'', process_fetch s' (rsp_page rsp) (rsp_cursor rsp) = Ret s'' /\
        range_rows s'' = range_rows s' /\ (range_gas s'' < range_gas s')%nat /\ range_stream_ok s'' tx'
  | Err e => stream_error e
  | Panic => False
  end.
Proof.
  unfold start_next, range_stream_ok, range_rows. intros [Hn0 Hok].
  destruct (match _, maximum_bytes_read s with true, Some n => _ | _, _ => false end); [by intros [= <- <- <-]|].
  destruct (ir_index s) as [n|] eqn:Hix; [|by intros [= <- <- <-]; cbn; rewrite Hix].
  destruct (page s) as [|e rest] eqn:Hp.
  - destruct (at_end s) eqn:Hend; [|destruct (Interval.is_empty (unfetched_interval s)) eqn:Hemp].
    + intros He. destruct (return_end_ok n s tx _ s' tx' r Hok Hp (or_introl eq_refl) (or_introl eq_refl) He) as (Hok' & Hs' & Hr).
      apply return_end_result; [by destruct Hs' as [->| ->]; cbn [ir_index set_cursor progress]; rewrite Hix|by destruct Hs' as [->| ->]|done|done].
    + intros He. destruct (return_end_ok n s tx _ s' tx' r Hok Hp (or_intror Hend) (or_intror eq_refl) He) as (Hok' & Hs' & Hr).
      apply return_end_result; [by destruct Hs' as [->| ->]; cbn [ir_index set_cursor progress]; rewrite Hix|by destruct Hs' as [->| ->]| |done].
      unfold pages_left. by rewrite Hp, rows_at_empty.
    + pose proof (fetch_size_ok s (match end_inclusive (cursor_interval s) with None => true | Some _ => false end) hint) as Hfs.
      intros [= <- <- <-]. rewrite Hix, Hend. split; [done|]. split; [done|].
      destruct (fetch_size s _ hint) as [k|err|]; cbn [obind]; [|done|done]. split_and!; [done|done|done|exact (ro_within n s tx Hok)|].
      intros rsp Hrsp. destruct (process_fetch_ok n s tx rsp k Hok Hend Hemp Hrsp) as (s'' & -> & Hix' & Hend' & Hleft & Hgas & Hok').
      exists s''. rewrite Hix', Hix, Hend', Hleft. done.
  - intros He. destruct (return_row_ok n s tx e rest s' tx' r Hok Hp He) as (Hok' & [b ->] & Hr).
    assert (Hend : at_end s = false) by (destruct (at_end s) eqn:E; [by rewrite (ro_end n s tx Hok E) in Hp|done]).
    change (ir_index (add_returned_bytes (pop_page s e.1 rest) b)) with (ir_index s). rewrite Hix. split; [done|]. split; [done|].
    destruct Hr as [->|(err & -> & Hne)]; [|done]. rewrite Hend. unfold pages_left. rewrite Hp. split; [|cbn; lia].
    destruct e as [k [d ts]]. reflexivity.
Qed.

#[export] Instance IndexRange_laws : StreamLaws IndexRange := {|
  rows_of := range_rows; stream_ok := range_stream_ok; gas := range_gas; next_law := start_next_law;
|}.

(** *** [Limit] and [Filter] *)
Section operator_laws.
Context {St : Type} `{StreamLaws St}.

Definition limit_rows (s : Limit) : list Row := take (limit s - rows_emitted s) (rows_of (limit_inner s)).

Lemma limit_next_law (s : Limit) tx hint s' tx' r : stream_ok (limit_inner s) tx -> next s tx hint = (s', tx', r) ->
  stream_ok (limit_inner s') tx' /\ gas (limit_inner s') = gas (limit_inner s) /\
  match r with
  | Ret (Ready None) => limit_rows s = []
  | Ret (Ready (Some row)) => limit_rows s = row :: limit_rows s' /\ (buffered s' < buffered s)%nat
  | Ret (WaitingOn req) =>
      limit_rows s' = limit_rows s /\ Interval.is_empty (irr_interval req) = false /\ (0 < irr_max_rows req)%nat /\ request_within req /\
      forall rsp, answer_ok req rsp -> exists s'', feed s' rsp = Ret s'' /\ limit_rows s'' = limit_rows s' /\
        (gas (limit_inner s'') < gas (limit_inner s'))%nat /\ stream_ok (limit_inner s'') tx'
  | Err e => stream_error e
  | Panic => False
  end.
Proof.
  intros Hok. cbn [next Limit_QueryStream]. unfold limit_next, limit_rows. destruct (Nat.leb_spec (limit s) (rows_emitted s)) as [Hle|Hlt].
  { intros [= <- <- <-]. by replace (limit s - rows_emitted s)%nat with 0%nat by lia. }
  destruct (next (limit_inner s) tx _) as [[inner tx1] result] eqn:E. intros [= <- <- <-].
  destruct (next_law _ _ _ _ _ _ Hok E) as (Hok1 & Hg & Hr). cbn [limit_inner limit rows_emitted]. split; [done|]. split; [done|].
  destruct result as [[[row|]|req]|e|]; [| | |done|done].
  - destruct Hr as [-> Hb]. split; [|done]. by replace (limit s - rows_emitted s)%nat with (S (limit s - (1 + rows_emitted s)))%nat by lia.
  - by rewrite Hr, take_nil.
  - destruct Hr as (Hrows & Hne & Hn & Hin & Hfeed). split_and!; [by rewrite Hrows|done|done|done|]. intros rsp Hrsp.
    destruct (Hfeed rsp Hrsp) as (s2 & Hf & Hr2 & Hg2 & Hok2). exists (MkLimit s2 (limit s) (rows_emitted s)).
    cbn [feed Limit_QueryStream limit_inner limit rows_emitted]. rewrite Hf, Hr2. done.
Qed.

#[export] Instance Limit_laws : StreamLaws (Limit (St := St)) := {|
  rows_of := limit_rows; stream_ok := fun s => stream_ok (limit_inner s); gas := fun s => gas (limit_inner s);
  next_law := limit_next_law;
|}.

Definition keeps (expr : PackedDocument -> outcome query_error bool) (row : Row) : bool :=
  match expr row.1 with Ret true => true | _ => false end.

Definition filter_rows (s : Filter) : list Row := bfilter (keeps (expr s)) (rows_of (filter_inner s)).

Definition filter_ok (s : Filter) (tx : QueryTx) : Prop :=
  stream_ok (filter_inner s) tx /\ forall d, expr s d <> Panic /\ forall e, expr s d = Err e -> stream_error e.

Lemma filter_loop_law e fuel : forall inner tx s' tx' r, (forall d, e d <> Panic /\ forall err, e d = Err err -> stream_error err) ->
  (buffered inner < fuel)%nat -> stream_ok inner tx -> filter_loop fuel e inner tx = (s', tx', r) ->
  stream_ok s' tx' /\ gas s' = gas inner /\
  match r with
  | Ret (Ready None) => bfilter (keeps e) (rows_of inner) = []
  | Ret (Ready (Some row)) => bfilter (keeps e) (rows_of inner) = row :: bfilter (keeps e) (rows_of s') /\ (buffered s' < buffered inner)%nat
  | Ret (WaitingOn req) =>
      bfilter (keeps e) (rows_of s') = bfilter (keeps e) (rows_of inner) /\
      Interval.is_empty (irr_interval req) = false /\ (0 < irr_max_rows req)%nat /\ request_within req /\
      forall rsp, answer_ok req rsp -> exists s'', feed s' rsp = Ret s'' /\ rows_of s'' = rows_of s' /\
        (gas s'' < gas s')%nat /\ stream_ok s'' tx'
  | Err e => stream_error e
  | Panic => False
  end.
Proof.
  induction fuel as [|fuel IH]; intros inner tx s' tx' r He Hfuel Hok; [lia|]. cbn [filter_loop].
  destruct (next inner tx _) as [[inner1 tx1] result] eqn:E. destruct (next_law _ _ _ _ _ _ Hok E) as (Hok1 & Hg & Hr).
  destruct result as [[[[d ts]|]|req]|err|].
  - destruct Hr as [Hrows Hb]. destruct (He d) as [Hnp Hns].
    assert (Hk : keeps e (d, ts) = match e d with Ret true => true | _ => false end) by done.
    rewrite Hrows. cbn [bfilter]. rewrite Hk. destruct (e d) as [[]|err|]; [| | |done].
    + intros [= <- <- <-]. done.
    + intros Hl. apply IH in Hl as (Hok2 & Hg2 & Hr2); [|done|lia|done]. split; [done|]. split; [congruence|].
      destruct r as [[[row|]|req]|err|]; [|done..]. split; [apply Hr2|]. destruct Hr2 as [_ ?]. lia.
    + intros [= <- <- <-]. split_and!; [done..|by apply Hns].
  - intros [= <- <- <-]. by rewrite Hr.
  - intros [= <- <- <-]. destruct Hr as (Hrows & Hne & Hn & Hin & Hfeed). split_and!; [done|done|by rewrite Hrows|done|done|done|exact Hfeed].
  - by intros [= <- <- <-].
  - done.
Qed.

Lemma filter_next_law (s : Filter) tx hint s' tx' r : filter_ok s tx -> next s tx hint = (s', tx', r) ->
  filter_ok s' tx' /\ gas (filter_inner s') = gas (filter_inner s) /\
  match r with
  | Ret (Ready None) => filter_rows s = []
  | Ret (Ready (Some row)) => filter_rows s = row :: filter_rows s' /\ (buffered s' < buffered s)%nat
  | Ret (WaitingOn req) =>
      filter_rows s' = filter_rows s /\ Interval.is_empty (irr_interval req) = false /\ (0 < irr_max_rows req)%nat /\ request_within req /\
      forall rsp, answer_ok req rsp -> exists s'', feed s' rsp = Ret s'' /\ filter_rows s'' = filter_rows s' /\
        (gas (filter_inner s'') < gas (filter_inner s'))%nat /\ filter_ok s'' tx'
  | Err e => stream_error e
  | Panic => False
  end.
Proof.
  intros [Hok He]. cbn [next Filter_QueryStream]. unfold filter_next.
  destruct (filter_loop _ _ _ tx) as [[inner tx1] result] eqn:E. intros [= <- <- <-].
  apply filter_loop_law in E as (Hok1 & Hg & Hr); [|done|lia|done]. split; [by split|]. split; [done|].
  destruct result as [[[row|]|req]|err|]; [done..| |done|done]. destruct Hr as (Hrows & Hne & Hn & Hin & Hfeed).
  split_and!; [done|done|done|done|]. intros rsp Hrsp. destruct (Hfeed rsp Hrsp) as (s2 & Hf & Hr2 & Hg2 & Hok2).
  exists (MkFilter s2 (expr s)). cbn [feed Filter_QueryStream filter_inner expr]. rewrite Hf.
  split_and!; [done| |done|by split]. unfold filter_rows. cbn [filter_inner expr]. by rewrite Hr2.
Qed.

#[export] Instance Filter_laws : StreamLaws (Filter (St := St)) := {|
  rows_of := filter_rows; stream_ok := filter_ok; gas := fun s => gas (filter_inner s); next_law := filter_next_law;
|}.
End operator_laws.

(** ** Running a query to the end *)
Section run_laws.
Context {St : Type} `{StreamLaws St} {F : Type} (fetch : F -> IndexRangeRequest -> F * outcome index_error IndexRangeResponse).
(** The index answers what it holds, or [fails]. *)
Context (index_ok : F -> Prop) (fails : Prop).
Hypothesis Hfetch : forall index req index' r, index_ok index ->
  Interval.is_empty (irr_interval req) = false -> (0 < irr_max_rows req)%nat -> request_within req -> fetch index req = (index', r) ->
  index_ok index' /\ match r with Ret rsp => answer_ok req rsp | Err _ => fails | Panic => False end.

(** The errors of a query: those of the stream, and failures of the index. *)
Definition query_error_ok (e : query_error) : Prop := match e with FetchErr _ => fails | e => stream_error e end.

Lemma stream_error_ok e : stream_error e -> query_error_ok e.
Proof. by destruct e. Qed.

Lemma query_next_ok fuel : forall s tx index hint s' tx' index' r,
  stream_ok s tx -> index_ok index -> (gas s < fuel)%nat -> query_next fetch fuel s tx index hint = (s', tx', index', r) ->
  stream_ok s' tx' /\ index_ok index' /\ (gas s' <= gas s)%nat /\
  match r with
  | Ret None => rows_of s = []
  | Ret (Some row) => rows_of s = row :: rows_of s' /\
      exists s1 tx1, stream_ok s1 tx1 /\ next s1 tx1 hint = (s', tx', Ret (Ready (Some row)))
  | Err e => query_error_ok e
  | Panic => False
  end.
Proof.
  induction fuel as [|fuel IH]; intros s tx index hint s' tx' index' r Hok Hix Hg; [lia|]. cbn [query_next].
  destruct (next s tx hint) as [[s1 tx1] result] eqn:E. destruct (next_law _ _ _ _ _ _ Hok E) as (Hok1 & Hg1 & Hr).
  destruct result as [[row|req]|err|]; [| |intros [= <- <- <- <-]; rewrite Hg1; split_and!; [done..|by apply stream_error_ok]|done].
  - intros [= <- <- <- <-]. rewrite Hg1. split_and!; [done..|]. destruct row as [row|]; [|done]. split; [apply Hr|eauto].
  - destruct Hr as (Hrows & Hne & Hn & Hin & Hfeed). destruct (fetch index req) as [index1 rsp] eqn:Ef.
    destruct (Hfetch _ _ _ _ Hix Hne Hn Hin Ef) as [Hix1 Hrsp].
    destruct rsp as [rsp|err|]; [|by intros [= <- <- <- <-]; rewrite Hg1|done].
    destruct (Hfeed rsp Hrsp) as (s2 & -> & Hr2 & Hg2 & Hok2). intros Hq.
    apply IH in Hq as (Hok3 & Hix3 & Hg3 & Hr3); [|done|done|lia]. split_and!; [done|done|lia|].
    rewrite <- Hrows, <- Hr2. exact Hr3.
Qed.

Lemma query_take_ok fuel n : forall s tx index hint s' tx' index' r,
  stream_ok s tx -> index_ok index -> (gas s < fuel)%nat -> query_take fetch fuel n s tx index hint = (s', tx', index', r) ->
  stream_ok s' tx' /\ index_ok index' /\
  match r with
  | Ret (rows, finished) => rows = take n (rows_of s) /\ finished = (length (rows_of s) <? n)%nat /\
      (finished = false -> rows_of s' = drop n (rows_of s))
  | Err e => query_error_ok e
  | Panic => False
  end.
Proof.
  induction n as [|n IH]; intros s tx index hint s' tx' index' r Hok Hix Hg; cbn [query_take].
  { intros [= <- <- <- <-]. by rewrite drop_0. }
  destruct (query_next fetch fuel s tx index hint) as [[[s1 tx1] index1] r1] eqn:E.
  apply query_next_ok in E as (Hok1 & Hix1 & Hg1 & Hr1); [|done..].
  destruct r1 as [[row|]|err|]; [|intros [= <- <- <- <-]; by rewrite Hr1|by intros [= <- <- <- <-]|done].
  destruct (query_take fetch fuel n s1 tx1 index1 hint) as [[[s2 tx2] index2] r2] eqn:E2.
  apply IH in E2 as (Hok2 & Hix2 & Hr2); [|done|done|lia]. intros [= <- <- <- <-]. split_and!; [done|done|].
  destruct r2 as [[rows fin]|err|]; cbn [obind fst snd]; [|done|done]. destruct Hr2 as (-> & -> & Hrest).
  destruct Hr1 as [-> _]. split_and!; [done|done|]. apply Hrest.
Qed.
(** A query that is not at its end stopped right after a row. *)
Lemma query_take_last fuel n : forall s tx index hint s' tx' index' rows,
  stream_ok s tx -> index_ok index -> (gas s < fuel)%nat ->
  query_take fetch fuel (S n) s tx index hint = (s', tx', index', Ret (rows, false)) ->
  exists s1 tx1 row, stream_ok s1 tx1 /\ next s1 tx1 hint = (s', tx', Ret (Ready (Some row))).
Proof.
  assert (Hunfold : forall n s tx index hint, query_take fetch fuel (S n) s tx index hint =
    let '(query, tx, index, result) := query_next fetch fuel s tx index hint in
    match result with
    | Err e => (query, tx, index, Err e)
    | Panic => (query, tx, index, Panic)
    | Ret None => (query, tx, index, Ret ([], true))
    | Ret (Some row) =>
        let '(query, tx, index, result) := query_take fetch fuel n query tx index hint in
        (query, tx, index, let? more := result in Ret (row :: more.1, more.2))
    end) by done.
  induction n as [|n IH]; intros s tx index hint s' tx' index' rows Hok Hix Hg Hq; rewrite Hunfold in Hq;
    destruct (query_next fetch fuel s tx index hint) as [[[s1 tx1] index1] r1] eqn:E;
    apply query_next_ok in E as (Hok1 & Hix1 & Hg1 & Hr1); [|done|done|done| |done..]; destruct r1 as [[row|]|err|]; try done.
  - injection Hq as <- <- <- _. destruct Hr1 as (_ & s2 & tx2 & ? & ?). by exists s2, tx2, row.
  - destruct (query_take fetch fuel (S n) s1 tx1 index1 hint) as [[[s2 tx2] index2] r2] eqn:E2.
    injection Hq as -> -> -> Hr2. destruct r2 as [[rows2 fin]|err|]; [|done|done]. injection Hr2 as _ ->.
    eapply IH; [exact Hok1|exact Hix1|lia|exact E2].
Qed.
End run_laws.

(** ** A new range *)

Definition start_ok (cursors : CursorInterval) : Prop :=
  match curr_exclusive cursors with
  | Some (After k) => is_Some (increment k)
  | Some CursorEnd => False
  | None => True
  end.

(** Nothing before the start cursor is in the range, and its end is the end cursor. *)
Lemma cursor_part_fst interval cursors order cursor k : start_ok cursors -> curr_exclusive cursors = Some cursor ->
  ~ inside (split (cursor_part interval cursors order) cursor order).1 k.
Proof.
  unfold start_ok, cursor_part. intros Hs Hc. rewrite Hc in *. destruct cursor as [c|]; [|done]. destruct Hs as [c' Hc'].
  rewrite inside_alt. destruct order; destruct (end_inclusive cursors) as [[e|]|]; cbn [split split_after fst snd start end_];
    unfold after_prefix; rewrite ?Hc'; cbn [start end_ fst]; rewrite ?above_Excluded; intros [??]; order.
Qed.

Lemma cursor_part_last interval cursors order c : end_inclusive cursors = Some c ->
  (split (cursor_part interval cursors order) c order).1 = cursor_part interval cursors order.
Proof. intros Hc. unfold cursor_part. rewrite Hc. by destruct c, order. Qed.

Lemma index_range_new_ok n interval order cursors mr mb sp tx :
  start_ok cursors -> read_set_ok (read_set (q_reads tx)) -> is_valid_identifier n.2 = true ->
  (forall reads, BTreeMap.get n (indexed (read_set (q_reads tx))) = Some reads -> fields reads = f) ->
  n0 = Some n -> i0 = cursor_part interval cursors order -> o0 = order ->
  range_stream_ok (index_range_new max_rows max_bytes (Some n) interval order f cursors mr mb sp) tx.
Proof.
  intros Hs Hr Hn Hf Hn0 Hi0 Ho0. split; [done|]. constructor; [done|done|done|done|done| |apply cursor_part_last|done|by subst].
  intros c k Hc Hin. by apply cursor_part_fst in Hin.
Qed.

Lemma index_range_new_rows n interval order cursors mr mb sp : start_ok cursors ->
  range_rows (index_range_new max_rows max_bytes (Some n) interval order f cursors mr mb sp) =
  map to_row (rows_at (cursor_part interval cursors order) order).
Proof.
  unfold start_ok, range_rows, at_end. cbn [index_range_new ir_index cursor_interval]. by destruct (curr_exclusive cursors) as [[|]|].
Qed.

Lemma range_gas_bound s : (range_gas s <= S (length ks))%nat.
Proof. unfold range_gas. destruct (Interval.is_empty _); [lia|]. apply le_n_S, length_bfilter. Qed.

(** After a row was handed out, a range from its key on has the rows that are left. *)
Lemma start_next_position s tx hint s' tx' row : range_stream_ok s tx -> start_next s tx hint = (s', tx', Ret (Ready (Some row))) ->
  exists k, curr_exclusive (cursor_interval s') = Some (After k) /\
    range_rows s' = map to_row (rows_at (split (initial_unfetched_interval s) (After k) (ir_order s)).2 (ir_order s)) /\
    (exists e, e ∈ m /\ e.1 = k /\ inside (initial_unfetched_interval s) k).
Proof.
  unfold start_next, range_stream_ok. intros [Hn0 Hok].
  destruct (match _, maximum_bytes_read s with true, Some n => _ | _, _ => false end); [done|].
  destruct (ir_index s) as [n|] eqn:Hix; [|done]. destruct (page s) as [|e rest] eqn:Hp.
  - unfold return_end. destruct (at_end s); [|destruct (Interval.is_empty (unfetched_interval s))].
    + by destruct (record_range tx n _ _) as [tx1 [[]|err|]].
    + by destruct (record_range tx n _ _) as [tx1 [[]|err|]].
    + by destruct (fetch_size s _ hint).
  - intros He. destruct (return_row_ok n s tx e rest s' tx' _ Hok Hp He) as (_ & [b ->] & _).
    assert (Hend : at_end s = false) by (destruct (at_end s) eqn:E; [by rewrite (ro_end n s tx Hok E) in Hp|done]).
    destruct (ro_suffix n s tx Hok Hend) as [pre Hpre]. unfold pages_left in Hpre. rewrite Hp in Hpre. cbn [map] in Hpre.
    exists e.1. split; [done|]. unfold rows_at at 1 in Hpre.
    assert (Hin : rsp_row e ∈ order_apply (ir_order s) (rows_in (initial_unfetched_interval s) m)) by (rewrite Hpre; set_solver).
    apply elem_of_order_apply, elem_of_rows_in in Hin as [Hem Hei]. split; [|by exists (rsp_row e)].
    rewrite <- app_comm_cons, cons_middle, (assoc (++)) in Hpre.
    destruct (rows_page _ (ir_order s) m _ _ e.1 (e.2.2, e.2.1) Hm (doc_keys_ok f m Hkeys) Hpre) as [_ Hpost]; [apply last_snoc|].
    unfold range_rows, rows_at. cbn [ir_index add_returned_bytes pop_page progress]. rewrite Hix, Hpost. done.
Qed.
End laws.

(** What [fetch] promises to a query in the range [i0]: pages of [m], cut at
    keys of [ks], or an error when it [fails]. *)
Definition index_answers (f : list FieldPath) (m : BTreeMap.t IndexKeyBytes (WriteTimestamp * PackedDocument)) (ks : list IndexKeyBytes)
    (i0 : Interval) {F : Type} (fetch : F -> IndexRangeRequest -> F * outcome index_error IndexRangeResponse)
    (index_ok : F -> Prop) (fails : Prop) : Prop :=
  forall index req index' r, index_ok index ->
    Interval.is_empty (irr_interval req) = false -> (0 < irr_max_rows req)%nat -> request_within f i0 req -> fetch index req = (index', r) ->
    index_ok index' /\ match r with Ret rsp => answer_ok f m ks req rsp | Err _ => fails | Panic => False end.

Lemma query_rows_of_answers (f : list FieldPath) m ks {F} fetch (index_ok : F -> Prop) fails n interval order cursors mr mb sp e lim
    (tx : QueryTx) index hint fuel k s' tx' index' r :
  let part := cursor_part interval cursors order in
  BTreeMap.wf m -> (forall x, x ∈ m -> doc_keyed f x.1) -> (forall k, k ∈ ks -> doc_keyed f k) ->
  index_answers f m ks part fetch index_ok fails -> index_ok index ->
  start_ok cursors -> read_set_ok (read_set (q_reads tx)) -> is_valid_identifier n.2 = true ->
  (forall reads, BTreeMap.get n (indexed (read_set (q_reads tx))) = Some reads -> fields reads = f) ->
  (forall d, e d <> Panic /\ forall err, e d = Err err -> stream_error err) -> (S (length ks) < fuel)%nat ->
  query_take fetch fuel k (limit_new (MkFilter (index_range_new max_rows max_bytes (Some n) interval order f cursors mr mb sp) e) lim)
    tx index hint = (s', tx', index', r) ->
  let answer := take lim (bfilter (keeps e) (map to_row (rows_at m part order))) in
  match r with
  | Ret (rows, finished) => rows = take k answer /\ finished = (length answer <? k)%nat
  | Err err => query_error_ok fails err
  | Panic => False
  end /\
  forall cursor key, cursor_position s' = Some cursor -> inside (split part cursor order).1 key ->
    key_read (read_set (q_reads tx')) n key.
Proof.
  intros part Hm Hkeys Hks Hfetch Hix Hstart Hr Hn Hf He Hfuel Hq answer.
  set (laws := Limit_laws f m ks part (H1 := Filter_laws f m ks part (H1 := IndexRange_laws f m ks (Some n) part order Hm Hkeys Hks))).
  set (s0 := limit_new _ lim) in Hq.
  assert (Hok : stream_ok (StreamLaws := laws) f m ks part s0 tx).
  { split; [|exact He]. by apply index_range_new_ok. }
  assert (Hrows : rows_of (StreamLaws := laws) f m ks part s0 = answer).
  { change (take (lim - 0) (bfilter (keeps e) (range_rows m (index_range_new max_rows max_bytes (Some n) interval order f cursors mr mb sp))) = answer).
    by rewrite index_range_new_rows, Nat.sub_0_r. }
  assert (Hgas : (gas (StreamLaws := laws) f m ks part s0 < fuel)%nat).
  { exact (Nat.le_lt_trans _ _ _ (range_gas_bound ks (filter_inner (limit_inner s0))) Hfuel). }
  destruct (query_take_ok f m ks part (H1 := laws) fetch index_ok fails Hfetch fuel k s0 tx index hint s' tx' index' r Hok Hix Hgas Hq) as (Hok' & _ & Hres).
  rewrite Hrows in Hres. split.
  - destruct r as [[rows fin]|err|]; [|done|done]. naive_solver.
  - destruct Hok' as [[Hix' Hro] _]. cbn in Hix', Hro. rewrite Hix' in Hro. intros cursor key Hc Hin.
    destruct (ro_base _ _ _ _ _ _ _ Hro) as [Hi Ho]. apply (ro_covered _ _ _ _ _ _ _ Hro cursor key Hc). by rewrite Hi, Ho.
Qed.

Lemma doc_keyed_increment f k : doc_keyed f k -> is_Some (increment k).
Proof.
  intros (d & Hd & ->). pose proof (increment_shape (doc_key d f)) as Hs. destruct (increment (doc_key d f)); [by eexists|].
  unfold doc_key, index_values in Hs. rewrite map_app, concat_app, Forall_app in Hs. destruct Hs as [_ Hs].
  destruct Hd as (_ & _ & Hid). destruct (id_encode_value _ Hid) as (s & _ & Hv & _). rewrite Hv in Hs.
  apply Forall_cons in Hs as [Htag _]. unfold STRING_TAG in Htag. lia.
Qed.

(** What is left after a key of the range is what a range from that key has. *)
Lemma cursor_part_resume interval cursors order k : start_ok cursors -> is_Some (increment k) ->
  (split (cursor_part interval cursors order) (After k) order).2 =
  cursor_part interval (MkCursors (Some (After k)) (end_inclusive cursors)) order.
Proof.
  intros Hs [k' Hk]. unfold start_ok, cursor_part in *. cbn [curr_exclusive end_inclusive].
  destruct (curr_exclusive cursors) as [[c|]|]; [destruct Hs as [c' Hc]|done|];
    destruct (end_inclusive cursors) as [[e|]|], order; cbn [split split_after fst snd]; rewrite ?Hk, ?Hc; done.
Qed.

Lemma pagination_of_answers (f : list FieldPath) m ks {F} fetch (index_ok : F -> Prop) fails n interval order cursors mr mb sp
    (tx : QueryTx) index hint fuel k s' tx' index' rows :
  BTreeMap.wf m -> (forall x, x ∈ m -> doc_keyed f x.1) -> (forall k, k ∈ ks -> doc_keyed f k) ->
  index_answers f m ks (cursor_part interval cursors order) fetch index_ok fails -> index_ok index ->
  start_ok cursors -> read_set_ok (read_set (q_reads tx)) -> is_valid_identifier n.2 = true ->
  (forall reads, BTreeMap.get n (indexed (read_set (q_reads tx))) = Some reads -> fields reads = f) -> (S (length ks) < fuel)%nat ->
  query_take fetch fuel (S k) (index_range_new max_rows max_bytes (Some n) interval order f cursors mr mb sp) tx index hint
    = (s', tx', index', Ret (rows, false)) ->
  exists key, cursor_position s' = Some (After key) /\
    let resumed := MkCursors (Some (After key)) (end_inclusive cursors) in
    start_ok resumed /\ length rows = S k /\
    rows ++ map to_row (rows_at m (cursor_part interval resumed order) order) = map to_row (rows_at m (cursor_part interval cursors order) order).
Proof.
  intros Hm Hkeys Hks Hfetch Hix Hstart Hr Hn Hf Hfuel Hq.
  set (part := cursor_part interval cursors order).
  set (laws := IndexRange_laws f m ks (Some n) part order Hm Hkeys Hks).
  set (s0 := index_range_new _ _ _ _ _ _ _ _ _ _) in Hq.
  assert (Hok : stream_ok (StreamLaws := laws) f m ks part s0 tx) by (by apply index_range_new_ok).
  assert (Hgas : (gas (StreamLaws := laws) f m ks part s0 < fuel)%nat) by exact (Nat.le_lt_trans _ _ _ (range_gas_bound ks s0) Hfuel).
  destruct (query_take_ok f m ks part (H1 := laws) fetch index_ok fails Hfetch fuel _ s0 tx index hint s' tx' index' _ Hok Hix Hgas Hq)
    as (_ & _ & Hrows & Hfin & Hrest).
  destruct (query_take_last f m ks part (H1 := laws) fetch index_ok fails Hfetch fuel k s0 tx index hint s' tx' index' rows Hok Hix Hgas Hq)
    as (s1 & tx1 & row & Hok1 & Hnext).
  destruct (start_next_position f m ks (Some n) part order Hm Hkeys Hks s1 tx1 hint s' tx' row Hok1 Hnext) as (key & Hcur & Hleft & e & He & <- & _).
  assert (Hbase : initial_unfetched_interval s1 = part /\ ir_order s1 = order).
  { destruct Hok1 as [Hn1 Hok1]. rewrite Hn1 in Hok1. apply (ro_base _ _ _ _ _ _ _ Hok1). }
  destruct Hbase as [Hi1 Ho1]. rewrite Hi1, Ho1 in Hleft.
  pose proof (doc_keyed_increment f e.1 (Hkeys e He)) as Hinc.
  assert (Hall : rows_of (StreamLaws := laws) f m ks part s0 = map to_row (rows_at m part order)) by (by apply index_range_new_rows).
  rewrite Hall in Hrows, Hfin, Hrest. symmetry in Hfin. apply Nat.ltb_ge in Hfin.
  exists e.1. split; [done|]. intros resumed. split; [exact Hinc|]. split; [rewrite Hrows, length_take; lia|].
  unfold part in Hleft. rewrite cursor_part_resume in Hleft by done. unfold resumed. rewrite <- Hleft, Hrows.
  change (range_rows m s') with (rows_of (StreamLaws := laws) f m ks part s'). by rewrite (Hrest eq_refl), take_drop.
Qed.
(** ** Reading from the transaction's index

    [start_index_range] and [index_range_batch] of
    bootstrap_model/user_facing.rs for one request on a physical index [n]; the
    name that is only printed is left out. *)
Section fetch.
Context {Mem : Type} `{InMemoryIndexes Mem} (max_read_size_bytes : Z) (schedule : list CacheFill -> list CacheFill) (n : list Z * list Z).

Definition MAX_PAGE_SIZE : nat := 1024.

Definition start_index_range (request : IndexRangeRequest) : IndexRangeResponse + RangeRequest :=
  if Interval.is_empty (irr_interval request) then inl (MkResponse [] CursorEnd)
  else inr (MkRange n (irr_interval request) (irr_order request) (Nat.min (irr_max_rows request) MAX_PAGE_SIZE)).

Definition index_range_batch (index : TransactionIndex Mem) (request : IndexRangeRequest)
    : TransactionIndex Mem * outcome index_error IndexRangeResponse :=
  let started := start_index_range request in
  let fetch_requests := match started with inr req => [req] | inl _ => [] end in
  match tx_range_batch max_read_size_bytes (E := index_error) index schedule fetch_requests with
  | Err e => (index, Err e)
  | Panic => (index, Panic)
  | Ret (fetch_results, index) =>
      (index, match started, fetch_results with
              | inl result, [] => Ret result
              | inr _, [inr response] => Ret response
              | inr _, [inl e] => Err e
              | _, _ => Panic
              end)
  end.

Context (c : IndexId -> option (TabletId * list FieldPath)) (db0 : live Timestamp) (tracked : IndexId -> Prop).
Context (db : live WriteTimestamp) (ix : Index) (f : list FieldPath).
Hypothesis Hmax : 0 < max_read_size_bytes.
Hypothesis Hschedule : forall l, schedule l ≡ₚ l.

(** The index [ix], over [f], is the one of this name for the transaction and
    for its snapshot. *)
Definition reads_index (index : TransactionIndex Mem) : Prop := shared_index tracked index (MkRange n Interval.all Asc 1) ix f.

(** The transaction has no pending row in the interval. *)
Definition none_pending (index : TransactionIndex Mem) (i : Interval) : Prop :=
  forall k o, (k, o) ∈ pending_of index (index_id ix) -> ~ inside i k.

Record fetch_ok (start : TransactionIndex Mem) (i : Interval) (index : TransactionIndex Mem) : Prop := {
  fk_tx : tx_ok c db0 tracked db index;
  fk_index : reads_index index;
  fk_pending : none_pending index i;
  fk_reliable : reliable db0 (tx_snapshot start) -> reliable db0 (tx_snapshot index);
}.

Lemma reads_index_ok index : tx_ok c db0 tracked db index -> reads_index index ->
  c (index_id ix) = Some (n.1, f) /\ tracked (index_id ix) /\ is_valid_identifier n.2 = true.
Proof.
  intros Hok (Hen & [s Hcfg] & Htr & _). cbn [req_index_name] in Hen. pose proof (txo_reg _ _ _ _ _ Hok) as Hreg.
  destruct (reg_enabled _ Hreg _ _ Hen) as [Hname _]. split_and!; [|done|].
  - apply (txo_cat _ _ _ _ _ Hok). split_and!; [by rewrite Hname|left; by rewrite Hname|by exists s].
  - apply (reg_names _ Hreg). rewrite (reg_by_table _ Hreg). apply orb_true_iff. left. apply contains_key_get. by exists ix.
Qed.

(** With no pending row in the interval, the rows there are those of the snapshot. *)
Lemma snapshot_row index i m k v : tx_ok c db0 tracked db index -> reads_index index -> none_pending index i ->
  index_exact db n.1 f m -> inside i k -> entry_of db0 n.1 f k v -> is_Some (BTreeMap.get k m).
Proof.
  intros Hok Hix Hno Hm Hin Hv. destruct (reads_index_ok index Hok Hix) as (Hc & Htr & _).
  destruct (snap_fin _ _ _ (txo_snap _ _ _ _ _ Hok) n.1 f) as [m0 Hm0].
  destruct (txo_rows _ _ _ _ _ Hok (index_id ix) n.1 f m0 Htr Hc Hm0) as (m' & Hm' & Hget).
  rewrite (index_exact_unique _ _ _ _ _ Hm Hm'), Hget. unfold overlay_get.
  destruct (BTreeMap.get k (pending_of index (index_id ix))) as [o|] eqn:Ho.
  - apply BTreeMap.elem_of_get in Ho; [|by apply pending_default_wf, Hok]. by destruct (Hno _ _ Ho).
  - apply (proj2 Hm0) in Hv as ->. by eexists.
Qed.

(** The transaction's index keeps what [index_answers] asks of it. *)
Lemma index_range_batch_answers start i m : index_exact db n.1 f m ->
  index_answers f m (map fst m) i index_range_batch (fetch_ok start i) (~ reliable db0 (tx_snapshot start)).
Proof.
  intros Hm index req index' r [Hok Hix Hno Hrel] Hne Hpos Hin Hrun. unfold index_range_batch, start_index_range in Hrun. rewrite Hne in Hrun.
  set (rq := MkRange n (irr_interval req) (irr_order req) (Nat.min (irr_max_rows req) MAX_PAGE_SIZE)) in Hrun.
  destruct (tx_range_batch_ok max_read_size_bytes c db0 tracked Hmax db index schedule [rq] Hok Hschedule)
    as (srs & snap' & results & index1 & _ & Hrb & Hok1 & [Sr Sp Ss Srel] & Hl1 & Hl2 & Hres).
  { repeat constructor; [|done]. cbn [req_max_size rq]. unfold MAX_PAGE_SIZE. lia. }
  rewrite Hrb in Hrun. destruct srs as [|sr [|]], results as [|res [|]]; try done. specialize (Hres 0%nat rq sr res eq_refl eq_refl eq_refl ix f Hix).
  assert (Hok' : fetch_ok start i index1).
  { constructor; [done| |by unfold none_pending, pending_of; rewrite Sp|auto].
    destruct Hix as (A & B & C & ix0 & s0 & D & ?). split_and!; [by rewrite Sr|done|done|]. exists ix0, s0. by rewrite Ss. }
  destruct sr as [err|[page fetch_cursor]].
  { destruct Hres as [-> Hbad]. injection Hrun as <- <-. split; [done|]. auto. }
  destruct (reads_index_ok index Hok Hix) as (Hc & Htr & _).
  destruct Hres as (rsp & -> & m' & Hm' & Hpage & Hcur & Hck & _).
  { intros k o Ho Hi. destruct (Hno k o Ho). apply Hin; [|done].
    destruct (txo_keys _ _ _ _ _ Hok (index_id ix) k) as (t' & f' & Hc' & Hk); [eexists; apply BTreeMap.elem_of_get; [by apply pending_default_wf, Hok|exact Ho]|].
    rewrite Hc in Hc'. by injection Hc' as <- <-. }
  cbn [req_index_name req_interval req_order rq] in *. rewrite <- (index_exact_unique _ _ _ _ _ Hm Hm') in *.
  injection Hrun as <- <-. split; [done|]. split_and!; [done|done|]. intros k Hk. rewrite Hk in Hcur. destruct Hcur as [Hdk Hki].
  assert (Hg : is_Some (BTreeMap.get k m)).
  { destruct (Hck k Hk) as [?|[v Hv]]; [done|]. by apply (snapshot_row index i m k v); [..|apply Hin|]. }
  destruct Hg as [v Hv%BTreeMap.elem_of_get]; [|apply Hm]. apply list_elem_of_fmap. by exists (k, v).
Qed.
End fetch.

(** ** Queries of a transaction *)
Section queries.
Context {Mem : Type} `{InMemoryIndexes Mem} (max_read_size_bytes : Z) (from_document : PackedDocument -> option Index).
Context (c : IndexId -> option (TabletId * list FieldPath)) (tracked : IndexId -> Prop) (db0 : live Timestamp).

(** The transaction began at the snapshot, wrote and read, and now sees [db];
    it reads the index [ix] named [n] over the fields [f], whose rows are [m],
    and none of its own writes is in the interval [i] of that index. *)
Record query_setting (r : IndexRegistry) (snapshot : DatabaseIndexSnapshot Mem) (db : live WriteTimestamp) (index : TransactionIndex Mem)
    (n : list Z * list Z) (ix : Index) (f : list FieldPath) (m : BTreeMap.t IndexKeyBytes (WriteTimestamp * PackedDocument)) (i : Interval) : Prop := {
  qs_max : 0 < max_read_size_bytes;
  qs_snapshot : snapshot_ok c db0 snapshot;
  qs_registry : registry_ok r;
  qs_catalogued : catalogued c r;
  qs_steps : tx_steps max_read_size_bytes from_document c tracked (committed db0, tx_index_new r snapshot) (db, index);
  qs_index : reads_index n tracked ix f index;
  qs_rows : index_exact db n.1 f m;
  qs_pending : none_pending ix index i;
}.

Lemma query_setting_ok r snapshot db index n ix f m i schedule : query_setting r snapshot db index n ix f m i -> (forall l, schedule l ≡ₚ l) ->
  BTreeMap.wf m /\ (forall x, x ∈ m -> doc_keyed f x.1) /\ (forall k, k ∈ map fst m -> doc_keyed f k) /\ is_valid_identifier n.2 = true /\
  index_answers f m (map fst m) i (index_range_batch max_read_size_bytes schedule n) (fetch_ok n c db0 tracked db ix f index i) (~ reliable db0 (tx_snapshot index)) /\
  fetch_ok n c db0 tracked db ix f index i index.
Proof.
  intros [Hmax Hs Hr Hc Hsteps Hix Hm Hno] Hsched.
  pose proof (tx_steps_ok max_read_size_bytes from_document c tracked db0 _ _ Hmax Hsteps (tx_new_ok c db0 tracked r snapshot Hs Hr Hc)) as Hok. cbn [fst snd] in Hok.
  assert (Hkeyed : forall x, x ∈ m -> doc_keyed f x.1).
  { intros [k v] Hin. apply BTreeMap.elem_of_get, Hm in Hin; [|apply Hm]. destruct (entry_good db _ _ _ _ (txo_db _ _ _ _ _ Hok) Hin) as [Hg ->]. by exists v.2. }
  destruct (reads_index_ok n c db0 tracked db ix f index Hok Hix) as (_ & _ & Hn). split_and!; [apply Hm|done| |done|by apply index_range_batch_answers|by constructor].
  intros k (x & -> & Hx)%list_elem_of_fmap. by apply Hkeyed.
Qed.
End queries.

(** C20: a query with a filter and a limit over an index range, run on the
    transaction's own index, returns exactly the rows it should: asked for [k]
    documents after any sequence of writes and reads of the transaction, it
    never panics, never hits the internal check that a page made progress,
    terminates (the fuel is more than the number of rows of the index), and
    unless a limit, an expression or a source of the snapshot fails, it returns
    the first [k] of the first [lim] documents that pass the filter among the
    documents the transaction sees between the cursors, in index order, and
    reports the end exactly when there are fewer than [k]; in every case all
    keys up to its cursor are in the read set. The filter does not panic, the
    range does not start at the end, the index is enabled in the snapshot and in
    the transaction, and none of the transaction's own pending rows of it is
    between the cursors (with one there, a page can skip documents:
    [pending_row_beyond_page_skips_documents]). *)
Theorem query_returns_its_rows {Mem} `{InMemoryIndexes Mem} max_read_size_bytes from_document c tracked db0 r snapshot db
    (index : TransactionIndex Mem) schedule n ix f m interval order cursors mr mb sp e lim (tx : QueryTx) hint fuel k s' tx' index' result :
  let part := cursor_part interval cursors order in
  query_setting max_read_size_bytes from_document c tracked db0 r snapshot db index n ix f m part -> (forall l, schedule l ≡ₚ l) ->
  start_ok cursors -> read_set_ok (read_set (q_reads tx)) ->
  (forall reads, BTreeMap.get n (indexed (read_set (q_reads tx))) = Some reads -> fields reads = f) ->
  (forall d, e d <> Panic /\ forall err, e d = Err err -> stream_error err) -> (S (length m) < fuel)%nat ->
  query_take (index_range_batch max_read_size_bytes schedule n) fuel k
    (limit_new (MkFilter (index_range_new max_rows max_bytes (Some n) interval order f cursors mr mb sp) e) lim) tx index hint
    = (s', tx', index', result) ->
  let answer := take lim (bfilter (keeps e) (map to_row (rows_at m part order))) in
  match result with
  | Ret (rows, finished) => rows = take k answer /\ finished = (length answer <? k)%nat
  | Err (FetchErr _) => ~ reliable db0 (tx_snapshot index)
  | Err err => err <> SameInterval
  | Panic => False
  end /\
  forall cursor key, cursor_position s' = Some cursor -> inside (split part cursor order).1 key ->
    key_read (read_set (q_reads tx')) n key.
Proof.
  intros part Hset Hsched Hstart Hr Hf He Hfuel Hq answer.
  destruct (query_setting_ok _ _ _ _ _ _ _ _ _ _ _ _ _ _ schedule Hset Hsched) as (Hm & Hkeys & Hks & Hn & Hfetch & Hok).
  rewrite <- (length_map fst m) in Hfuel.
  destruct (query_rows_of_answers f m (map fst m) _ _ _ n interval order cursors mr mb sp e lim tx index hint fuel k s' tx' index' result
    Hm Hkeys Hks Hfetch Hok Hstart Hr Hn Hf He Hfuel Hq) as [Hres Hread]. split; [|done].
  destruct result as [[rows fin]|err|]; [done| |done]. by destruct err.
Qed.

(** C21: pages can be resumed: when a query over an index range of the
    transaction's own index, after any sequence of its writes and reads, has
    returned [k + 1] documents and has not reported its end, its cursor is after
    a key, and the rows it returned followed by the rows of the query that
    starts at this cursor (with the same end cursor) are the documents that the
    transaction sees in the whole range, in index order: none is skipped or
    returned twice. The index is enabled in the snapshot and in the transaction,
    and none of the transaction's own pending rows of it is in the range (with
    one there, a page can skip documents:
    [pending_row_beyond_page_skips_documents]). *)
Theorem pagination_resumes {Mem} `{InMemoryIndexes Mem} max_read_size_bytes from_document c tracked db0 r snapshot db
    (index : TransactionIndex Mem) schedule n ix f m interval order cursors mr mb sp (tx : QueryTx) hint fuel k s' tx' index' rows :
  query_setting max_read_size_bytes from_document c tracked db0 r snapshot db index n ix f m (cursor_part interval cursors order) ->
  (forall l, schedule l ≡ₚ l) -> start_ok cursors -> read_set_ok (read_set (q_reads tx)) ->
  (forall reads, BTreeMap.get n (indexed (read_set (q_reads tx))) = Some reads -> fields reads = f) -> (S (length m) < fuel)%nat ->
  query_take (index_range_batch max_read_size_bytes schedule n) fuel (S k)
    (index_range_new max_rows max_bytes (Some n) interval order f cursors mr mb sp) tx index hint = (s', tx', index', Ret (rows, false)) ->
  exists key, cursor_position s' = Some (After key) /\
    let resumed := MkCursors (Some (After key)) (end_inclusive cursors) in
    start_ok resumed /\ length rows = S k /\
    rows ++ map to_row (rows_at m (cursor_part interval resumed order) order) = map to_row (rows_at m (cursor_part interval cursors order) order).
Proof.
  intros Hset Hsched Hstart Hr Hf Hfuel Hq.
  destruct (query_setting_ok _ _ _ _ _ _ _ _ _ _ _ _ _ _ schedule Hset Hsched) as (Hm & Hkeys & Hks & Hn & Hfetch & Hok).
  rewrite <- (length_map fst m) in Hfuel.
  exact (pagination_of_answers f m (map fst m) _ _ _ n interval order cursors mr mb sp tx index hint fuel k s' tx' index' rows
    Hm Hkeys Hks Hfetch Hok Hstart Hr Hn Hf Hfuel Hq).
Qed.
End index_range.

(** ** Queries after two writes *)
Module QueryExample.
Import MemoryExample SnapshotExample TxExample.

(** The transaction of [TxExample]: four documents with the values 1 to 4 of
    "a", of which it deleted the second, and a fifth that it inserted. *)
Definition fields_a : list FieldPath := [[[97]]].
Definition key (n : Z) : IndexKeyBytes := doc_key (d n n) fields_a.
Definition index : TransactionIndex NoInMemoryIndexes := tx_of tx2.
Definition rows : BTreeMap.t IndexKeyBytes (WriteTimestamp * PackedDocument) :=
  replace_rows [1] fields_a Pending None (Some (d 5 5))
    (replace_rows [1] fields_a Pending (Some (d 2 2)) None
      (map (fun e => (e.1, (Committed e.2.1, e.2.2))) (SnapshotExample.rows_of four_docs [1] fields_a))).
Definition name : list Z * list Z := ([1], [98]).
Definition tx : QueryTx (M := fun V => list (list Z * V)) (Trace := unit) :=
  MkQueryTx (MkTxReads read_set_empty 0 size_zero size_zero) [].
(** Documents whose value of "a" is not 3. *)
Definition not_three (x : PackedDocument) : outcome query_error bool := Ret (negb (bool_decide (doc_key x fields_a = key 3))).

Lemma rows_exact : index_exact db2 [1] fields_a rows.
Proof.
  destruct (docs_exact four_docs four_docs_ok) as [Hdb Hex].
  pose proof (index_exact_committed (db_of four_docs) [1] fields_a _ (Hex [1] fields_a)) as H0.
  assert (Hdb0 : db_ok (committed (db_of four_docs))).
  { intros i wt x. unfold committed. destruct (db_of four_docs i) as [[ts x']|] eqn:E; [|done]. intros [= _ <-]. by apply (Hdb i ts). }
  assert (Hw1 : write_ok (committed (db_of four_docs)) (id (d 2 2)) (Some (d 2 2)) None) by (split; [vm_compute; reflexivity|done]).
  pose proof (index_exact_replace _ [1] fields_a _ _ Pending _ _ Hdb0 Hw1 H0) as H1.
  pose proof (db_ok_write _ _ _ _ Pending Hdb0 Hw1) as Hdb1.
  assert (Hw2 : write_ok db1 (id (d 5 5)) None (Some (d 5 5))) by (split; [vm_compute; reflexivity|intros x [= <-]; split; [done|by apply d_good]]).
  exact (index_exact_replace _ [1] fields_a _ _ Pending _ _ Hdb1 Hw2 H1).
Qed.

Lemma reads_a_index : reads_index name tracked RegistryExample.enabled fields_a index.
Proof.
  split_and!; [vm_compute; reflexivity|by eexists|done|].
  exists RegistryExample.enabled, Enabled. split_and!; [vm_compute; reflexivity|done|done].
Qed.

(** Between the cursors are the third and the fourth document, and no write. *)
Lemma setting part : Interval.contains part (key 2) = false -> Interval.contains part (key 5) = false ->
  query_setting 1000 parse c tracked (db_of four_docs) r (snapshot four_docs) db2 index name RegistryExample.enabled fields_a rows part.
Proof.
  intros H2 H5. constructor; [lia|apply snapshot_is_ok, four_docs_ok|apply r_ok|apply r_catalogued|apply steps_insert|apply reads_a_index|apply rows_exact|].
  assert (Hp : pending_of index (index_id RegistryExample.enabled) = [(key 2, None); (key 5, Some (d 5 5))]) by (vm_compute; reflexivity).
  intros k o. rewrite Hp. unfold inside. intros [[= -> ->]|[= -> ->]%list_elem_of_singleton]%elem_of_cons; [by rewrite H2|by rewrite H5].
Qed.

Definition range (order : Order) (from to : Z) : IndexRange :=
  index_range_new 100 1000 (Some name) Interval.all order fields_a (MkCursors (Some (After (key from))) (Some (After (key to)))) (Some 8%nat) (Some 1000) true.
(** A transaction that may read ten intervals, and no more than 100 documents and 1000 bytes. *)
Definition range_stream : QueryStream (M := fun V => list (list Z * V)) (Trace := unit) IndexRange := IndexRange_QueryStream false 100 1000 10 2 tt (Some [7]) [116] false false.
Definition limit_stream : QueryStream (M := fun V => list (list Z * V)) (Trace := unit) (Limit (St := Filter (St := IndexRange))) :=
  Limit_QueryStream 2 (H0 := Filter_QueryStream (H0 := range_stream)).
Definition in_order (l : list CacheFill) : list CacheFill := l.
(** From the fifth document down to the third, without the third. *)
Definition run := query_take (H0 := limit_stream) (index_range_batch 1000 in_order name) 20 10
  (limit_new (MkFilter (range Desc 5 3) not_three) 2) tx index None.
(** One document after the second and up to the fourth. *)
Definition first_page := query_take (H0 := range_stream) (index_range_batch 1000 in_order name) 20 1 (range Asc 2 4) tx index None.

Lemma parts {A B C D} (x : A * B * C * D) : x = (x.1.1.1, x.1.1.2, x.1.2, x.2).
Proof. by destruct x as [[[??]?]?]. Qed.

Lemma parts_result {A B C D} (x : A * B * C * D) r : x.2 = r -> x = (x.1.1.1, x.1.1.2, x.1.2, r).
Proof. intros <-. apply parts. Qed.
End QueryExample.

Lemma query_returns_its_rows_witness :
  QueryExample.run.2 = Ret ([(MemoryExample.d 4 4, Committed 5)], true) /\
  forall cursor key, curr_exclusive (cursor_interval (filter_inner (limit_inner QueryExample.run.1.1.1))) = Some cursor ->
    inside (split (cursor_part Interval.all (MkCursors (Some (After (QueryExample.key 5))) (Some (After (QueryExample.key 3)))) Desc) cursor Desc).1 key ->
    key_read (read_set (q_reads QueryExample.run.1.1.2)) QueryExample.name key.
Proof.
  split; [vm_compute; reflexivity|].
  apply (query_returns_its_rows false 100 1000 10 2 tt (Some [7]) [116] false false 1000 TxExample.parse MemoryExample.c TxExample.tracked
    (SnapshotExample.db_of TxExample.four_docs) MemoryExample.r (SnapshotExample.snapshot TxExample.four_docs) TxExample.db2 QueryExample.index
    QueryExample.in_order QueryExample.name RegistryExample.enabled QueryExample.fields_a QueryExample.rows Interval.all Desc
    (MkCursors (Some (After (QueryExample.key 5))) (Some (After (QueryExample.key 3)))) (Some 8%nat) (Some 1000) true
    QueryExample.not_three 2 QueryExample.tx None 20 10 QueryExample.run.1.1.1 QueryExample.run.1.1.2 QueryExample.run.1.2 QueryExample.run.2).
  - apply QueryExample.setting; vm_compute; reflexivity.
  - intros l. reflexivity.
  - vm_compute. eexists. reflexivity.
  - apply read_set_empty_ok.
  - done.
  - intros x. split; [done|]. intros err Herr. discriminate Herr.
  - apply (bool_decide_unpack _). vm_compute. exact I.
  - apply QueryExample.parts.
Defined.

Lemma pagination_resumes_witness :
  exists key, QueryExample.first_page.2 = Ret ([(MemoryExample.d 3 3, Committed 5)], false) /\
    curr_exclusive (cursor_interval QueryExample.first_page.1.1.1) = Some (After key) /\
    [(MemoryExample.d 3 3, Committed 5)] ++
      map to_row (rows_at QueryExample.rows (cursor_part Interval.all (MkCursors (Some (After key)) (Some (After (QueryExample.key 4)))) Asc) Asc) =
      [(MemoryExample.d 3 3, Committed 5); (MemoryExample.d 4 4, Committed 5)].
Proof.
  assert (Hr : QueryExample.first_page.2 = Ret ([(MemoryExample.d 3 3, Committed 5)], false)) by (vm_compute; reflexivity).
  destruct (pagination_resumes false 100 1000 10 2 tt (Some [7]) [116] false false 1000 TxExample.parse MemoryExample.c TxExample.tracked
    (SnapshotExample.db_of TxExample.four_docs) MemoryExample.r (SnapshotExample.snapshot TxExample.four_docs) TxExample.db2 QueryExample.index
    QueryExample.in_order QueryExample.name RegistryExample.enabled QueryExample.fields_a QueryExample.rows Interval.all Asc
    (MkCursors (Some (After (QueryExample.key 2))) (Some (After (QueryExample.key 4)))) (Some 8%nat) (Some 1000) true
    QueryExample.tx None 20 0 QueryExample.first_page.1.1.1 QueryExample.first_page.1.1.2 QueryExample.first_page.1.2
    [(MemoryExample.d 3 3, Committed 5)]) as (key & Hc & Hs & _ & Hrows).
  - apply QueryExample.setting; vm_compute; reflexivity.
  - intros l. reflexivity.
  - vm_compute. eexists. reflexivity.
  - apply read_set_empty_ok.
  - done.
  - apply (bool_decide_unpack _). vm_compute. exact I.
  - apply (QueryExample.parts_result _ _ Hr).
  - exists key. split; [exact Hr|]. split; [exact Hc|]. cbn [end_inclusive] in Hrows. rewrite Hrows. vm_compute. reflexivity.
Defined.
