(* ===== verification/WriteLog.v ===== *)
(** * WriteLog: recent commits (src/crates/database/src/write_log.rs, token.rs)

    The write log holds the index keys of recent commits in timestamp order;
    commits and subscriptions are validated against it.  The waiters of
    [wait_for_higher_ts] are oneshot channels, here numbers; whether a receiver
    was dropped ([is_closed]), the heap size of the log and the retention knobs
    are parameters.  [PendingWrites] holds the commits that are validated but
    not yet published. *)

From S2P Require Import Prelude Ord BTreeMap Identifier Timestamp Value Sorting SortingDecode Base32 IdV6.
From S2P Require Import Document IndexRegistry QueryReads Reads.

Local Open Scope Z_scope.

(** [RefreshableTabletUpdate(Option<PackedDocument>)]. *)
Notation RefreshableTabletUpdate := (option PackedDocument) (only parsing).
Notation OrderedDocumentWrites := (list (ResolvedDocumentId * PackedDocumentUpdate)) (only parsing).
Notation OrderedIndexKeyWrites :=
  (list (ResolvedDocumentId * DocumentIndexKeysUpdate * option (option PackedDocument))) (only parsing).
Notation LogEntry :=
  (Z * list (ResolvedDocumentId * DocumentIndexKeysUpdate * option (option PackedDocument)) * option (list Z))%type (only parsing).

Inductive log_error := OutOfRetention | TimestampError (e : ts_error) | NewerThanMaxTs.

Definition lift_ts {A} (m : outcome ts_error A) : outcome log_error A :=
  match m with Ret a => Ret a | Err e => Err (TimestampError e) | Panic => Panic end.

(** ** From documents to index keys *)

Section index_keys.
Context (sha256 : list Z -> list Z) (tokenize : list Z -> list (list Z)).
(** [ParsedDocument<TableMetadata>]: the name in a document of [_tables]. *)
Context (parse_table_name : PackedDocument -> option (list Z)).

Definition keys_of_option {E} (registry : IndexRegistry) (d : option PackedDocument)
    : outcome E (option DocumentIndexKeys) :=
  match d with
  | Some d => let? keys := document_index_keys sha256 tokenize registry d in Ret (Some keys)
  | None => Ret None
  end.

Definition from_document_update {E} (full : PackedDocumentUpdate) (registry : IndexRegistry)
    : outcome E DocumentIndexKeysUpdate :=
  let? old := keys_of_option registry (old_document full) in
  let? new := keys_of_option registry (new_document full) in
  Ret {| keys_id := update_id full; old_document_keys := old; new_document_keys := new |}.

(** One round of the loop of [index_keys_from_full_documents]. *)
Definition add_index_keys {E} (registry : IndexRegistry) (tables_tablet_id : TabletId)
    (refreshable_tables : list (list Z))
    (st : OrderedIndexKeyWrites * list TabletId) (w : ResolvedDocumentId * PackedDocumentUpdate)
    : outcome E (OrderedIndexKeyWrites * list TabletId) :=
  let '(writes, refreshable_tablets) := st in
  let '(i, update) := w in
  let refreshable_tablets :=
    match new_document update with
    | Some new_doc =>
        if bool_decide (tablet_id i = tables_tablet_id) then
          match parse_table_name new_doc with
          | Some name =>
              if bool_decide (name ∈ refreshable_tables) then internal_id (developer_id i) :: refreshable_tablets
              else refreshable_tablets
          | None => refreshable_tablets
          end
        else refreshable_tablets
    | None => refreshable_tablets
    end in
  let? keys := from_document_update update registry in
  let refresh := if bool_decide (tablet_id i ∈ refreshable_tablets) then Some (new_document update) else None in
  Ret (writes ++ [(i, keys, refresh)], refreshable_tablets).

Definition index_keys_from_full_documents {E} (ordered_writes : OrderedDocumentWrites) (registry : IndexRegistry)
    (tables_tablet_id : TabletId) (refreshable_tables : list (list Z)) (refreshable_tablets : list TabletId)
    : outcome E (OrderedIndexKeyWrites * list TabletId) :=
  foldM (add_index_keys registry tables_tablet_id refreshable_tables) ([], refreshable_tablets) ordered_writes.
End index_keys.

(** ** The log *)

Record WriteLog := MkLog { by_ts : list LogEntry; purged_ts : Z }.

Definition entry_ts (e : LogEntry) : Z := e.1.1.

Definition log_new (initial_timestamp : Z) : WriteLog := {| by_ts := []; purged_ts := initial_timestamp |}.

Definition max_ts (self : WriteLog) : Z :=
  match last (by_ts self) with Some e => entry_ts e | None => purged_ts self end.

(** [binary_search_by_key] on a sequence sorted by strictly increasing keys:
    [Ok] of the position, or [Err] of the insertion point. *)
Definition binary_search_by_key {A} (key : A -> Z) (target : Z) (l : list A) : nat + nat :=
  let i := length (take_while (fun x => key x <? target) l) in
  match l !! i with
  | Some x => if key x =? target then inl i else inr i
  | None => inr i
  end.

Definition iter (self : WriteLog) (from to : Z) : outcome log_error (list LogEntry) :=
  let? _ := ensure (purged_ts self <? from) OutOfRetention in
  let start := match binary_search_by_key entry_ts from (by_ts self) with inl i => i | inr i => i end in
  Ret (take_while (fun e => entry_ts e <=? to) (drop start (by_ts self))).

(** *** The manager: waiters, appending and retention *)

Record WriteLogManager := MkManager { log : WriteLog; waiters : list (Z * Z) }.

Definition manager_new (initial_timestamp : Z) : WriteLogManager :=
  {| log := log_new initial_timestamp; waiters := [] |}.

(** [VecDeque::swap_remove_back(i)]. *)
Definition swap_remove_back {A} (i : nat) (l : list A) : option (A * list A) :=
  match l !! i, last l with
  | Some x, Some b => Some (x, removelast (<[i := b]> l))
  | _, _ => None
  end.

Section manager.
(** Whether the receiver of a waiter was dropped. *)
Context (is_closed : Z -> bool).

(** The loop of [notify_waiters] from index [i]; returns the waiters left and
    the senders notified.  Every round removes a waiter or advances, so
    [length waiters - i] rounds are enough. *)
Fixpoint notify_loop {E} (fuel : nat) (ts : Z) (i : nat) (waiters : list (Z * Z)) (notified : list Z)
    : outcome E (list (Z * Z) * list Z) :=
  match fuel with
  | O => Ret (waiters, notified)
  | S fuel =>
      match waiters !! i with
      | None => Ret (waiters, notified)
      | Some w =>
          if (w.1 <? ts) || is_closed w.2 then
            let? (w, waiters) := expect (swap_remove_back i waiters) in
            notify_loop fuel ts i waiters (notified ++ [w.2])
          else notify_loop fuel ts (S i) waiters notified
      end
  end.

Definition notify_waiters {E} (self : WriteLogManager) : outcome E (WriteLogManager * list Z) :=
  let? (ws, notified) := notify_loop (length (waiters self)) (max_ts (log self)) 0 (waiters self) [] in
  Ret ({| log := log self; waiters := ws |}, notified).

Definition append {E} (self : WriteLogManager) (ts : Z) (writes : OrderedIndexKeyWrites) (write_source : WriteSource)
    : outcome E (WriteLogManager * list Z) :=
  let? _ := rassert (max_ts (log self) <? ts) in
  notify_waiters {| log := {| by_ts := by_ts (log self) ++ [(ts, writes, write_source)]; purged_ts := purged_ts (log self) |};
                    waiters := waiters self |}.

(** The waiter is registered ([true]) or the log is already past the target. *)
Definition wait_for_higher_ts {E} (self : WriteLogManager) (target_ts sender : Z)
    : outcome E (WriteLogManager * list Z * bool) :=
  let? (self, notified) := notify_waiters self in
  Ret (if max_ts (log self) <=? target_ts
       then ({| log := log self; waiters := waiters self ++ [(target_ts, sender)] |}, notified, true)
       else (self, notified, false)).
End manager.

Section retention.
Context (heap_size : list LogEntry -> Z) (min_retention max_retention soft_max_size : Z).

Fixpoint trim (max_ts target_ts : Z) (by_ts : list LogEntry) (purged : Z) : WriteLog :=
  match by_ts with
  | [] => {| by_ts := []; purged_ts := purged |}
  | e :: rest =>
      let ts := entry_ts e in
      if max_ts <=? ts then {| by_ts := e :: rest; purged_ts := purged |}
      else if (target_ts <=? ts) && (heap_size (e :: rest) <? soft_max_size)
      then {| by_ts := e :: rest; purged_ts := purged |}
      else trim max_ts target_ts rest ts
  end.

Definition sub_or_min (ts d : Z) : Z := match Timestamp.sub ts d with Ret t => t | _ => Timestamp.MIN end.

Definition enforce_retention_policy (self : WriteLogManager) (current_ts : Z) : WriteLogManager :=
  {| log := trim (sub_or_min current_ts min_retention) (sub_or_min current_ts max_retention)
              (by_ts (log self)) (purged_ts (log self));
     waiters := waiters self |}.
End retention.

(** *** Staleness and tokens *)

Section staleness.
Context {M : Type -> Type} `{StringMapLaws M} {Trace : Type}.

Definition is_stale (self : WriteLog) (reads : ReadSet (M := M) (Trace := Trace)) (reads_ts ts : Z)
    : outcome log_error (option (ConflictingReadWithWriteSource (Trace := Trace))) :=
  let? from := lift_ts (Timestamp.succ reads_ts) in
  let? log_range := iter self from ts in
  Ret (writes_overlap_index_keys reads log_range).

(** [Token] (token.rs). *)
Record Token := MkToken { token_reads : ReadSet (M := M) (Trace := Trace); token_ts : Z }.

Definition advance_ts {E} (self : Token) (ts : Z) : outcome E Token :=
  let? _ := rassert (token_ts self <? ts) in Ret {| token_reads := token_reads self; token_ts := ts |}.

(** [inl] for [Ok(token)], [inr] for [Err(write_ts)]. *)
Definition refresh_token (self : WriteLog) (token : Token) (ts : Z) : outcome log_error (Token + option Z) :=
  match is_stale self (token_reads token) (token_ts token) ts with
  | Ret (Some conflict) => Ret (inr (Some (write_ts conflict)))
  | Err OutOfRetention => Ret (inr None)
  | Err e => Err e
  | Ret None =>
      if token_ts token <? ts then let? token := advance_ts token ts in Ret (inl token) else Ret (inl token)
  | Panic => Panic
  end.

(** [LogReader]. *)
Definition reader_refresh_token (self : WriteLog) (token : Token) (ts : Z) : outcome log_error (Token + option Z) :=
  if token_ts token =? ts then Ret (inl token)
  else
    let? _ := ensure (ts <=? max_ts self) NewerThanMaxTs in
    refresh_token self token ts.

Definition refresh_reads_until_max_ts (self : WriteLog) (token : Token) : outcome log_error (Token + option Z) :=
  refresh_token self token (max_ts self).

(** [for_each]: the calls of the closure. *)
Definition for_each (self : WriteLog) (from to : Z) : outcome log_error (list (Z * OrderedIndexKeyWrites)) :=
  let? entries := iter self from to in Ret (map (fun e => e.1) entries).
End staleness.

(** ** Pending writes *)

Section pending.
Context {M : Type -> Type} `{StringMapLaws M} {Trace Snapshot : Type}.
Context (sha256 : list Z -> list Z) (tokenize : list Z -> list (list Z)).
(** [Snapshot::update]. *)
Context (snapshot_update : Snapshot -> PackedDocumentUpdate -> Z -> option Snapshot).

Definition PendingWrites : Type := BTreeMap.t Z (OrderedDocumentWrites * WriteSource * Snapshot).

Definition pending_new : PendingWrites := [].

Definition push_back {E} (self : PendingWrites) (ts : Z) (writes : OrderedDocumentWrites) (write_source : WriteSource)
    (snapshot : Snapshot) : outcome E PendingWrites :=
  let? _ := match last self with Some (last_ts, _) => rassert (last_ts <? ts) | None => Ret tt end in
  Ret (BTreeMap.insert ts (writes, write_source, snapshot) self).

Definition pending_latest_snapshot (self : PendingWrites) : option Snapshot :=
  option_map (fun e => e.2.2) (last self).

Fixpoint recompute_pending_snapshots {E} (self : PendingWrites) (base : Snapshot) : outcome E PendingWrites :=
  match self with
  | [] => Ret []
  | (ts, (writes, source, _)) :: rest =>
      let? base := foldM (fun s w => expect (snapshot_update s w.2 ts)) base writes in
      let? rest := recompute_pending_snapshots rest base in
      Ret ((ts, (writes, source, base)) :: rest)
  end.

(** [BTreeMap::range(from..=to)] panics when [from > to]. *)
Definition pending_iter {E} (self : PendingWrites) (from to : Z)
    : outcome E (list (Z * OrderedDocumentWrites * WriteSource)) :=
  let? _ := rassert (from <=? to) in
  Ret (map (fun e => (e.1, e.2.1.1, e.2.1.2)) (BTreeMap.range_incl from to self)).

Definition pending_is_stale (self : PendingWrites) (reads : ReadSet (M := M) (Trace := Trace)) (reads_ts ts : Z)
    : outcome log_error (option (ConflictingReadWithWriteSource (Trace := Trace))) :=
  let? from := lift_ts (Timestamp.succ reads_ts) in
  let? updates := pending_iter self from ts in
  writes_overlap_docs sha256 tokenize reads updates.

Definition pop_first (self : PendingWrites)
    : option (Z * OrderedDocumentWrites * WriteSource * Snapshot) * PendingWrites :=
  match self with
  | [] => (None, [])
  | (ts, (writes, source, snapshot)) :: rest => (Some (ts, writes, source, snapshot), rest)
  end.

Definition min_ts (self : PendingWrites) : option Z := match self with [] => None | e :: _ => Some e.1 end.
End pending.

(** ** Properties of the log *)

(** Entries in strictly increasing timestamp order, all above [purged_ts]. *)
Fixpoint ascending (lo : Z) (l : list LogEntry) : Prop :=
  match l with
  | [] => True
  | e :: l => lo < entry_ts e /\ ascending (entry_ts e) l
  end.

Definition log_ok (self : WriteLog) : Prop := ascending (purged_ts self) (by_ts self).

Lemma ascending_elem lo l e : ascending lo l -> e ∈ l -> lo < entry_ts e.
Proof.
  revert lo. induction l as [|x l IH]; intros lo; [by intros _ ?%elem_of_nil|]. intros [Hx Hl] [->|He]%elem_of_cons; [done|].
  specialize (IH _ Hl He). lia.
Qed.

Lemma ascending_app lo l k :
  ascending lo (l ++ k) <-> ascending lo l /\ ascending (match last l with Some e => entry_ts e | None => lo end) k.
Proof.
  revert lo. induction l as [|x l IH]; intros lo; [by simpl; tauto|]. rewrite last_cons. cbn [app ascending]. rewrite IH.
  destruct (last l); tauto.
Qed.

Lemma max_ts_ge self e : log_ok self -> e ∈ by_ts self -> entry_ts e <= max_ts self.
Proof.
  intros Hok He. apply list_elem_of_split in He as (l & k & Hl). unfold log_ok, max_ts in *. rewrite Hl in *.
  apply ascending_app in Hok as [_ Hk]. cbn [ascending] in Hk. destruct Hk as [_ Hk]. rewrite last_app_cons, last_cons.
  destruct (last k) as [e'|] eqn:Hlast; [|lia]. apply last_Some in Hlast as [k' ->].
  assert (entry_ts e < entry_ts e'); [|lia]. apply (ascending_elem _ _ _ Hk), elem_of_app. right. left.
Qed.

Lemma purged_le_max self : log_ok self -> purged_ts self <= max_ts self.
Proof.
  intros Hok. unfold max_ts. destruct (last (by_ts self)) as [e|] eqn:Hl; [|lia]. apply last_Some in Hl as [l Hl].
  assert (purged_ts self < entry_ts e); [|lia]. apply (ascending_elem _ _ _ Hok). rewrite Hl. apply elem_of_app. right. left.
Qed.

(** On a sorted log the two halves of [iter] select by timestamp. *)
Lemma drop_take_while_lt lo l from :
  ascending lo l -> drop (length (take_while (fun x => entry_ts x <? from) l)) l = bfilter (fun x => from <=? entry_ts x) l.
Proof.
  revert lo. induction l as [|x l IH]; intros lo; [done|]. intros [_ Hl]. cbn [take_while bfilter].
  destruct (Z.ltb_spec (entry_ts x) from), (Z.leb_spec from (entry_ts x)); try lia; cbn [length drop].
  - by eapply IH.
  - rewrite bfilter_all; [done|]. intros y Hy. apply (ascending_elem _ _ _ Hl) in Hy. apply Z.leb_le. lia.
Qed.

Lemma take_while_le lo l to :
  ascending lo l -> take_while (fun x => entry_ts x <=? to) l = bfilter (fun x => entry_ts x <=? to) l.
Proof.
  revert lo. induction l as [|x l IH]; intros lo; [done|]. intros [_ Hl]. cbn [take_while bfilter].
  destruct (Z.leb_spec (entry_ts x) to); [f_equal; by eapply IH|]. rewrite bfilter_none; [done|].
  intros y Hy. apply (ascending_elem _ _ _ Hl) in Hy. apply Z.leb_gt. lia.
Qed.

Lemma ascending_bfilter lo l p : ascending lo l -> ascending lo (bfilter p l).
Proof.
  revert lo. induction l as [|x l IH]; intros lo; [done|]. intros [Hx Hl]. cbn [bfilter]. destruct (p x).
  - split; [done|]. by apply IH.
  - apply IH. destruct l as [|y l]; [done|]. destruct Hl as [? ?]. split; [lia|done].
Qed.

Lemma binary_search_start l target :
  match binary_search_by_key entry_ts target l with inl i => i | inr i => i end
  = length (take_while (fun x => entry_ts x <? target) l).
Proof. unfold binary_search_by_key. destruct (l !! _) as [x|]; [|done]. by destruct (entry_ts x =? target). Qed.

Lemma iter_spec self from to :
  log_ok self ->
  iter self from to =
  if purged_ts self <? from
  then Ret (bfilter (fun e => entry_ts e <=? to) (bfilter (fun e => from <=? entry_ts e) (by_ts self)))
  else Err OutOfRetention.
Proof.
  intros Hok. unfold iter, ensure. destruct (purged_ts self <? from); [|done]. cbn [obind]. f_equal.
  rewrite binary_search_start, (drop_take_while_lt _ _ _ Hok). eapply take_while_le. by apply ascending_bfilter.
Qed.

(** *** Waiters *)

Lemma swap_remove_back_spec {A} i (l : list A) x :
  l !! i = Some x ->
  exists l', swap_remove_back i l = Some (x, l') /\ l ≡ₚ x :: l' /\ take i l' = take i l /\ length l = S (length l').
Proof.
  intros Hi. unfold swap_remove_back. rewrite Hi. destruct (last l) as [b|] eqn:Hb.
  2:{ apply last_None in Hb as ->. by rewrite lookup_nil in Hi. }
  apply last_Some in Hb as [k ->]. eexists. split; [done|].
  destruct (decide (i = length k)) as [->|Hne].
  - rewrite lookup_app_r, Nat.sub_diag in Hi by lia. injection Hi as ->.
    rewrite insert_app_r_alt, Nat.sub_diag by lia. change (<[0%nat:=x]> [x]) with [x]. rewrite removelast_last.
    split; [by rewrite Permutation_app_comm|]. split; [by rewrite take_app_length, firstn_all|]. rewrite length_app. simpl. lia.
  - apply lookup_lt_Some in Hi as Hlt. rewrite length_app in Hlt. simpl in Hlt. assert (Hik : (i < length k)%nat) by lia.
    rewrite lookup_app_l in Hi by done. rewrite insert_app_l by done. rewrite removelast_last.
    split; [|split].
    + rewrite insert_take_drop by done.
      rewrite <- (take_drop_middle k i x Hi) at 1. rewrite <- !Permutation_middle, app_nil_r. apply perm_swap.
    + rewrite take_insert_ge by lia. by rewrite take_app_le by lia.
    + rewrite length_app, length_insert. simpl. lia.
Qed.

Section waiters_spec.
Context (is_closed : Z -> bool).

Definition due (ts : Z) (w : Z * Z) : bool := (w.1 <? ts) || is_closed w.2.

(** [notify_waiters] notifies exactly the waiters that are due or closed and
    keeps the others. *)
Lemma notify_loop_spec {E} ts : forall fuel i ws notified,
  (length ws - i <= fuel)%nat -> (forall w, w ∈ take i ws -> due ts w = false) ->
  exists ws' n', notify_loop is_closed (E := E) fuel ts i ws notified = Ret (ws', notified ++ n') /\
    ws' ≡ₚ bfilter (fun w => negb (due ts w)) ws /\ n' ≡ₚ map snd (bfilter (due ts) ws).
Proof.
  induction fuel as [|fuel IH]; intros i ws notified Hfuel Hpre.
  - assert (Hall : forall w, w ∈ ws -> due ts w = false) by (intros w; rewrite <- (firstn_all2 ws (n := i)) by lia; apply Hpre).
    exists ws, []. rewrite app_nil_r. split; [done|].
    rewrite bfilter_all, bfilter_none; [done| |]; intros w Hw; by rewrite (Hall w Hw).
  - cbn [notify_loop]. destruct (ws !! i) as [w|] eqn:Hw.
    2:{ apply lookup_ge_None in Hw.
        assert (Hall : forall w, w ∈ ws -> due ts w = false) by (intros w; rewrite <- (firstn_all2 ws (n := i)) by lia; apply Hpre).
        exists ws, []. rewrite app_nil_r. split; [done|].
        rewrite bfilter_all, bfilter_none; [done| |]; intros w Hw'; by rewrite (Hall w Hw'). }
    apply lookup_lt_Some in Hw as Hlt. change ((w.1 <? ts) || is_closed w.2) with (due ts w). destruct (due ts w) eqn:Hd.
    + destruct (swap_remove_back_spec i ws w Hw) as (ws1 & -> & Hperm & Htake & Hlen). cbn [expect obind].
      destruct (IH i ws1 (notified ++ [w.2])) as (ws' & n' & -> & Hws & Hn); [lia|by rewrite Htake|].
      exists ws', (w.2 :: n'). rewrite <- app_assoc. split; [done|]. split.
      * rewrite Hws, (bfilter_Permutation _ _ _ Hperm). cbn [bfilter]. by rewrite Hd.
      * rewrite Hn. rewrite (Permutation_map snd (bfilter_Permutation (due ts) _ _ Hperm)). cbn [bfilter]. by rewrite Hd.
    + destruct (IH (S i) ws notified) as (ws' & n' & -> & Hws & Hn); [lia| |eauto].
      intros w'. rewrite (take_S_r _ _ _ Hw), elem_of_app, list_elem_of_singleton. intros [?| ->]; [by apply Hpre|done].
Qed.

Lemma notify_waiters_spec {E} self :
  exists ws n, notify_waiters is_closed (E := E) self = Ret ({| log := log self; waiters := ws |}, n) /\
    ws ≡ₚ bfilter (fun w => negb (due (max_ts (log self)) w)) (waiters self) /\
    n ≡ₚ map snd (bfilter (due (max_ts (log self))) (waiters self)).
Proof.
  unfold notify_waiters. destruct (notify_loop_spec (E := E) (max_ts (log self)) (length (waiters self)) 0 (waiters self) [])
    as (ws & n & -> & Hws & Hn); [lia|by intros w ?%elem_of_nil|]. cbn [obind app]. eauto.
Qed.

Lemma append_spec {E} self ts writes source :
  log_ok (log self) ->
  (max_ts (log self) < ts ->
   exists self' n, append is_closed (E := E) self ts writes source = Ret (self', n) /\
     log self' = {| by_ts := by_ts (log self) ++ [(ts, writes, source)]; purged_ts := purged_ts (log self) |} /\
     log_ok (log self') /\ max_ts (log self') = ts /\
     waiters self' ≡ₚ bfilter (fun w => negb (due ts w)) (waiters self) /\
     n ≡ₚ map snd (bfilter (due ts) (waiters self))) /\
  (ts <= max_ts (log self) -> append is_closed (E := E) self ts writes source = Panic).
Proof.
  intros Hok. unfold append, rassert. destruct (Z.ltb_spec (max_ts (log self)) ts); split; try lia; [|done]. intros _.
  cbn [obind]. set (l := {| by_ts := _; purged_ts := _ |}).
  destruct (notify_waiters_spec (E := E) {| log := l; waiters := waiters self |}) as (ws & n & -> & Hws & Hn).
  assert (Hmax : max_ts l = ts) by (unfold max_ts, l; cbn [by_ts]; by rewrite last_snoc).
  cbn [log waiters] in *. rewrite Hmax in Hws, Hn. do 2 eexists. split; [done|]. cbn [log waiters]. split_and!; try done.
  unfold log_ok, l. cbn [purged_ts by_ts]. apply ascending_app. split; [done|]. split; [|done]. unfold max_ts in *.
  destruct (last (by_ts (log self))); done.
Qed.
End waiters_spec.

Section retention_spec.
Context (heap_size : list LogEntry -> Z) (min_retention max_retention soft_max_size : Z).

Lemma trim_spec cutoff target : forall l purged,
  ascending purged l ->
  exists dropped, l = dropped ++ by_ts (trim heap_size soft_max_size cutoff target l purged) /\
    log_ok (trim heap_size soft_max_size cutoff target l purged) /\
    purged_ts (trim heap_size soft_max_size cutoff target l purged) = match last dropped with Some e => entry_ts e | None => purged end /\
    (forall e, e ∈ dropped -> entry_ts e < cutoff) /\
    (forall e rest, by_ts (trim heap_size soft_max_size cutoff target l purged) = e :: rest ->
       cutoff <= entry_ts e \/ target <= entry_ts e /\ heap_size (e :: rest) < soft_max_size).
Proof.
  induction l as [|e l IH]; intros purged Hasc.
  { exists []. split_and!; try done. by intros ? ?%elem_of_nil. }
  cbn [trim]. destruct (Z.leb_spec cutoff (entry_ts e)).
  { exists []. split_and!; try done; [by intros ? ?%elem_of_nil|]. intros ? ? [= <- <-]. by left. }
  destruct ((target <=? entry_ts e) && (heap_size (e :: l) <? soft_max_size)) eqn:Hstop.
  { apply andb_true_iff in Hstop as [?%Z.leb_le ?%Z.ltb_lt].
    exists []. split_and!; try done; [by intros ? ?%elem_of_nil|]. intros ? ? [= <- <-]. by right. }
  destruct Hasc as [Hlt Hasc]. destruct (IH (entry_ts e) Hasc) as (dropped & Hl & Hok & Hp & Hd & Hstop').
  exists (e :: dropped). split; [cbn [app]; by rewrite <- Hl|]. split; [done|]. split.
  { rewrite Hp, last_cons. by destruct (last dropped). }
  split; [|done]. intros e' [->|?]%elem_of_cons; [done|by apply Hd].
Qed.
End retention_spec.

(** ** Overlaps of a log range *)

Section overlaps_spec.
Context {M : Type -> Type} `{StringMapLaws M} {Trace : Type}.
Implicit Types (reads : ReadSet (M := M) (Trace := Trace)).

(** A logged write touches something read. *)
Definition write_conflicts {R} reads (w : ResolvedDocumentId * DocumentIndexKeysUpdate * R) : Prop :=
  overlap_keys reads w.1.1 (new_document_keys w.1.2) <> None \/ overlap_keys reads w.1.1 (old_document_keys w.1.2) <> None.

Definition entry_conflicts reads (e : LogEntry) : Prop := exists w, w ∈ e.1.2 /\ write_conflicts reads w.

Lemma writes_overlap_keys_Some reads (updates : list LogEntry) c :
  writes_overlap_index_keys reads updates = Some c ->
  exists e, e ∈ updates /\ entry_ts e = write_ts c /\ e.2 = write_source c /\ entry_conflicts reads e.
Proof.
  intros ([[ts ws] src] & He & Hw)%first_some_Some. apply first_some_Some in Hw as ([[i u] r] & Hin & Hc).
  exists (ts, ws, src). split; [done|]. unfold entry_ts. cbn [fst snd].
  destruct (overlap_keys reads i (new_document_keys u)) as [c'|] eqn:Hn.
  - injection Hc as <-. split_and!; try done. exists (i, u, r). split; [done|]. left. cbn. by rewrite Hn.
  - destruct (overlap_keys reads i (old_document_keys u)) as [c'|] eqn:Ho; [|done]. injection Hc as <-.
    split_and!; try done. exists (i, u, r). split; [done|]. right. cbn. by rewrite Ho.
Qed.

Lemma writes_overlap_keys_None reads (updates : list LogEntry) :
  writes_overlap_index_keys reads updates = None <-> forall e, e ∈ updates -> ~ entry_conflicts reads e.
Proof.
  unfold writes_overlap_index_keys. rewrite first_some_None. split.
  - intros Hall [[ts ws] src] He ([[i u] r] & Hin & Hc). specialize (Hall _ He). cbn beta iota in Hall.
    rewrite first_some_None in Hall. specialize (Hall _ Hin). cbn beta iota in Hall. unfold write_conflicts in Hc. cbn in Hc.
    destruct (overlap_keys reads i (new_document_keys u)); [done|].
    destruct (overlap_keys reads i (old_document_keys u)); [done|]. tauto.
  - intros Hall [[ts ws] src] He. apply first_some_None. intros [[i u] r] Hin.
    assert (Hc : ~ write_conflicts reads (i, u, r)).
    { intros Hc. apply (Hall _ He). exists (i, u, r). done. }
    unfold write_conflicts in Hc. cbn in Hc.
    destruct (overlap_keys reads i (new_document_keys u)); [exfalso; apply Hc; by left|].
    destruct (overlap_keys reads i (old_document_keys u)); [exfalso; apply Hc; by right|done].
Qed.

Lemma elem_of_log_range self from to e l :
  log_ok self -> iter self from to = Ret l ->
  e ∈ l <-> e ∈ by_ts self /\ from <= entry_ts e <= to.
Proof.
  intros Hok. rewrite iter_spec by done. destruct (purged_ts self <? from); [|done]. intros [= <-].
  rewrite !elem_of_bfilter, Z.leb_le, Z.leb_le. tauto.
Qed.

(** [is_stale] on every branch. *)
Lemma is_stale_spec self reads reads_ts ts :
  log_ok self -> Timestamp.valid reads_ts ->
  match is_stale self reads reads_ts ts with
  | Ret (Some c) => exists e, e ∈ by_ts self /\ entry_ts e = write_ts c /\ reads_ts < entry_ts e <= ts /\ entry_conflicts reads e
  | Ret None => purged_ts self <= reads_ts /\
      forall e, e ∈ by_ts self -> reads_ts < entry_ts e <= ts -> ~ entry_conflicts reads e
  | Err OutOfRetention => reads_ts < purged_ts self
  | Err (TimestampError e) => reads_ts = Timestamp.MAX
  | _ => False
  end.
Proof.
  intros Hok Hv. unfold is_stale. pose proof (succ_spec reads_ts Hv) as Hs.
  destruct (Timestamp.succ reads_ts) as [from|e|]; [|by destruct Hs|done]. destruct Hs as [-> _]. cbn [lift_ts obind].
  destruct (iter self (reads_ts + 1) ts) as [l|e|] eqn:Hi.
  - cbn [obind]. assert (purged_ts self <= reads_ts).
    { rewrite iter_spec in Hi by done. destruct (Z.ltb_spec (purged_ts self) (reads_ts + 1)); [lia|done]. }
    destruct (writes_overlap_index_keys reads l) as [c|] eqn:Hc.
    + apply writes_overlap_keys_Some in Hc as (e & He & Hts & _ & Hcf).
      apply (elem_of_log_range _ _ _ _ _ Hok Hi) in He as [? ?]. exists e. split_and!; try done; lia.
    + split; [done|]. rewrite writes_overlap_keys_None in Hc. intros e He Hr. apply Hc.
      apply (elem_of_log_range _ _ _ _ _ Hok Hi). split; [done|lia].
  - rewrite iter_spec in Hi by done. destruct (Z.ltb_spec (purged_ts self) (reads_ts + 1)); [done|].
    injection Hi as <-. cbn [obind]. lia.
  - rewrite iter_spec in Hi by done. by destruct (purged_ts self <? reads_ts + 1).
Qed.

(** [refresh_token], and the reader's version, on every branch. *)
Lemma refresh_token_spec self (token : Token (M := M) (Trace := Trace)) ts :
  log_ok self -> Timestamp.valid (token_ts token) ->
  match refresh_token self token ts with
  | Ret (inl token') =>
      token_reads token' = token_reads token /\ token_ts token' = Z.max (token_ts token) ts /\
      purged_ts self <= token_ts token /\
      forall e, e ∈ by_ts self -> token_ts token < entry_ts e <= ts -> ~ entry_conflicts (token_reads token) e
  | Ret (inr (Some w)) =>
      exists e, e ∈ by_ts self /\ entry_ts e = w /\ token_ts token < w <= ts /\ entry_conflicts (token_reads token) e
  | Ret (inr None) => token_ts token < purged_ts self
  | Err (TimestampError _) => token_ts token = Timestamp.MAX
  | _ => False
  end.
Proof.
  intros Hok Hv. pose proof (is_stale_spec self (token_reads token) (token_ts token) ts Hok Hv) as Hs. unfold refresh_token.
  destruct (is_stale self (token_reads token) (token_ts token) ts) as [[c|]|[]|]; try done.
  - destruct Hs as (e & He & Hts & Hr & Hc). exists e. split_and!; try done; lia.
  - unfold advance_ts, rassert. destruct Hs, (Z.ltb_spec (token_ts token) ts); cbn [obind token_reads token_ts]; split_and!; try done; lia.
Qed.

Lemma reader_refresh_spec self (token : Token (M := M) (Trace := Trace)) ts :
  log_ok self -> Timestamp.valid (token_ts token) ->
  match reader_refresh_token self token ts with
  | Ret (inl token') =>
      token_reads token' = token_reads token /\ token_ts token' = Z.max (token_ts token) ts /\
      (token_ts token = ts \/
       purged_ts self <= token_ts token /\
       forall e, e ∈ by_ts self -> token_ts token < entry_ts e <= ts -> ~ entry_conflicts (token_reads token) e)
  | Ret (inr (Some w)) =>
      exists e, e ∈ by_ts self /\ entry_ts e = w /\ token_ts token < w <= ts /\ entry_conflicts (token_reads token) e
  | Ret (inr None) => token_ts token < purged_ts self
  | Err NewerThanMaxTs => max_ts self < ts
  | Err (TimestampError _) => token_ts token = Timestamp.MAX
  | _ => False
  end.
Proof.
  intros Hok Hv. unfold reader_refresh_token. destruct (Z.eqb_spec (token_ts token) ts) as [Heq|Hne].
  { split_and!; [done|lia|by left]. }
  unfold ensure. destruct (Z.leb_spec ts (max_ts self)); cbn [obind]; [|done].
  pose proof (refresh_token_spec self token ts Hok Hv) as Hs.
  destruct (refresh_token self token ts) as [[t|[w|]]|[]|]; try done. destruct Hs as (? & ? & ? & ?). auto.
Qed.

(** *** Documents and index keys agree *)

Definition update_good (w : ResolvedDocumentId * PackedDocumentUpdate) : Prop :=
  update_id w.2 = w.1 /\ forall d, old_document w.2 = Some d \/ new_document w.2 = Some d -> id d = w.1 /\ good_doc d.

Context (sha256 : list Z -> list Z) (tokenize : list Z -> list (list Z)) (parse_table_name : PackedDocument -> option (list Z)).

(** The index keys logged for a write conflict exactly when its documents do. *)
Definition same_overlap reads (w : ResolvedDocumentId * PackedDocumentUpdate)
    (k : ResolvedDocumentId * DocumentIndexKeysUpdate) : Prop :=
  k.1 = w.1 /\
  (forall E, overlap_doc sha256 tokenize (E := E) reads (new_document w.2) = Ret (overlap_keys reads k.1 (new_document_keys k.2))) /\
  (forall E, overlap_doc sha256 tokenize (E := E) reads (old_document w.2) = Ret (overlap_keys reads k.1 (old_document_keys k.2))).

(** The keys the registry gives agree with the documents, for every read set
    whose indexes are registered there. *)
Lemma keys_of_option_ret reg i d :
  registry_ok reg -> (forall d', d = Some d' -> id d' = i /\ good_doc d') ->
  exists k, (forall E, keys_of_option sha256 tokenize (E := E) reg d = Ret k) /\
    forall reads, read_set_ok reads -> reads_registered reads reg ->
      forall E, overlap_doc sha256 tokenize (E := E) reads d = Ret (overlap_keys reads i k).
Proof.
  intros Hreg Hd. destruct d as [d|]; [|by exists None]. destruct (Hd d eq_refl) as [<- Hg].
  destruct (document_index_keys_entry sha256 tokenize reg d Hreg Hg) as (keys & Hk & _).
  exists (Some keys). split; [intros E; cbn [keys_of_option]; by rewrite Hk|]. intros reads Hok Hrr E.
  destruct (registry_keys_agree sha256 tokenize reads reg d Hok Hreg Hg Hrr) as (keys' & Hk' & Ha).
  pose proof (Hk False) as Hk0. rewrite Hk' in Hk0. injection Hk0 as ->. cbn [overlap_doc overlap_keys]. by apply overlaps_agree.
Qed.

Lemma from_document_update_ret reg w :
  registry_ok reg -> update_good w ->
  exists k, (forall E, from_document_update sha256 tokenize (E := E) w.2 reg = Ret k) /\
    forall reads, read_set_ok reads -> reads_registered reads reg -> same_overlap reads w (w.1, k).
Proof.
  intros Hreg [Hid Hd].
  destruct (keys_of_option_ret reg w.1 (old_document w.2) Hreg) as (ko & Hko & Ho); [intros; apply Hd; by left|].
  destruct (keys_of_option_ret reg w.1 (new_document w.2) Hreg) as (kn & Hkn & Hn); [intros; apply Hd; by right|].
  eexists. split.
  { intros E. unfold from_document_update. rewrite Hko. cbn [obind]. rewrite Hkn. cbn [obind]. reflexivity. }
  intros reads Hok Hrr. split; [done|]. cbn [fst snd new_document_keys old_document_keys]. split; [by apply Hn|by apply Ho].
Qed.

Lemma index_keys_ret reg tables refreshable ws : forall acc tablets,
  registry_ok reg -> Forall update_good ws ->
  exists ks tablets', (forall E, foldM (add_index_keys sha256 tokenize parse_table_name (E := E) reg tables refreshable) (acc, tablets) ws
                                 = Ret (acc ++ ks, tablets')) /\
    forall reads, read_set_ok reads -> reads_registered reads reg -> Forall2 (fun w k => same_overlap reads w k.1) ws ks.
Proof.
  induction ws as [|[i u] ws IH]; intros acc tablets Hreg Hgood.
  { exists [], tablets. split; [intros E; by rewrite app_nil_r|constructor]. }
  apply Forall_cons in Hgood as [Hg Hgood]. destruct (from_document_update_ret reg (i, u) Hreg Hg) as (k & Hk & Hs).
  cbn [fst snd] in Hk, Hs. eassert (Hstep : exists r t', forall E, add_index_keys sha256 tokenize parse_table_name (E := E) reg tables refreshable
    (acc, tablets) (i, u) = Ret (acc ++ [(i, k, r)], t')).
  { do 2 eexists. intros E. unfold add_index_keys. rewrite Hk. cbn [obind]. reflexivity. }
  destruct Hstep as (r & t' & Hstep). destruct (IH (acc ++ [(i, k, r)]) t' Hreg Hgood) as (ks & t'' & Hks & Hrest).
  exists ((i, k, r) :: ks), t''. split; [intros E; cbn [foldM]; rewrite Hstep; cbn [obind]; by rewrite Hks, <- app_assoc|].
  intros reads Hok Hrr. constructor; [by apply Hs|by apply Hrest].
Qed.
End overlaps_spec.

(** ** Theorems *)

(** C18: Refreshing a token is exact.  A token that is already at the target is
    returned as it is, even when it is older than the retained log; any other
    survives only if it was within the retained log and no commit in the skipped
    range conflicts with its reads, and then it advances to the target (unless
    it is past it); a conflict is reported with the timestamp of a conflicting
    commit in the range; the unknown case arises only for a token older than the
    retained log; and the only errors are a target past the log and a token at
    the last timestamp. *)
Theorem refresh_token_exact {M} `{StringMapLaws M} {Trace} (self : WriteLog) (token : Token (M := M) (Trace := Trace)) (ts : Z) :
  log_ok self -> Timestamp.valid (token_ts token) ->
  (token_ts token = ts -> reader_refresh_token self token ts = Ret (inl token)) /\
  match reader_refresh_token self token ts with
  | Ret (inl token') =>
      token_reads token' = token_reads token /\ token_ts token' = Z.max (token_ts token) ts /\
      (token_ts token = ts \/
       purged_ts self <= token_ts token /\
       forall e, e ∈ by_ts self -> token_ts token < entry_ts e <= ts -> ~ entry_conflicts (token_reads token) e)
  | Ret (inr (Some w)) =>
      exists e, e ∈ by_ts self /\ entry_ts e = w /\ token_ts token < w <= ts /\ entry_conflicts (token_reads token) e
  | Ret (inr None) => token_ts token < purged_ts self
  | Err NewerThanMaxTs => max_ts self < ts
  | Err (TimestampError _) => token_ts token = Timestamp.MAX
  | _ => False
  end.
Proof.
  intros Hok Hv. split; [|by apply reader_refresh_spec]. intros <-. unfold reader_refresh_token. by rewrite Z.eqb_refl.
Qed.

Lemma refresh_token_exact_witness :
  match reader_refresh_token (MkLog [(5, [], None)] 2) (MkToken example_reads 3) 5 with
  | Ret (inl token') => token_ts token' = 5
  | _ => False
  end.
Proof.
  assert (H := refresh_token_exact (MkLog [(5, [], None)] 2) (MkToken example_reads 3) 5
    ltac:(repeat split) ltac:(unfold Timestamp.valid, Timestamp.MIN, Timestamp.MAX; simpl; lia)).
  destruct (reader_refresh_token (MkLog [(5, [], None)] 2) (MkToken example_reads 3) 5) as [[t|[w|]]|e|] eqn:He.
  - destruct H as (_ & _ & Hts & _). exact Hts.
  - vm_compute in He. discriminate He.
  - vm_compute in He. discriminate He.
  - vm_compute in He. discriminate He.
  - destruct H as [_ []].
Defined.

(** The retention policy drops a prefix of the log: never an entry within
    the minimum retention window; [purged_ts] is the timestamp of the last
    dropped entry, so the log stays well formed and no commit is lost
    silently; it stops only at an entry that is within the minimum window, or
    within the maximum window with the log below its size limit. *)
Theorem retention_policy_safe (heap_size : list LogEntry -> Z) (min_retention max_retention soft_max_size : Z)
    (self : WriteLogManager) (current_ts : Z) :
  log_ok (log self) ->
  let self' := enforce_retention_policy heap_size min_retention max_retention soft_max_size self current_ts in
  let cutoff := sub_or_min current_ts min_retention in
  let target := sub_or_min current_ts max_retention in
  log_ok (log self') /\ waiters self' = waiters self /\
  exists dropped,
    by_ts (log self) = dropped ++ by_ts (log self') /\
    purged_ts (log self') = match last dropped with Some e => entry_ts e | None => purged_ts (log self) end /\
    (forall e, e ∈ dropped -> entry_ts e < cutoff /\ entry_ts e <= purged_ts (log self')) /\
    (forall e rest, by_ts (log self') = e :: rest ->
       cutoff <= entry_ts e \/ target <= entry_ts e /\ heap_size (e :: rest) < soft_max_size).
Proof.
  intros Hok self' cutoff target.
  destruct (trim_spec heap_size soft_max_size cutoff target (by_ts (log self)) (purged_ts (log self)) Hok)
    as (dropped & Hl & Hok' & Hp & Hd & Hstop).
  split; [done|]. split; [done|]. exists dropped. split; [done|]. split; [done|]. split; [|done].
  intros e He. split; [by apply Hd|]. unfold self', enforce_retention_policy. cbn [log]. fold cutoff target. rewrite Hp.
  unfold log_ok in Hok. rewrite Hl in Hok. apply ascending_app in Hok as [Hasc _].
  pose proof (max_ts_ge (MkLog dropped (purged_ts (log self))) e Hasc He) as Hge. unfold max_ts in Hge. cbn [by_ts purged_ts] in Hge.
  exact Hge.
Qed.

Lemma retention_policy_safe_witness :
  log_ok (log (enforce_retention_policy (fun l => Z.of_nat (length l)) 3 10 1 (MkManager (MkLog [(5, [], None); (9, [], None)] 2) []) 10)) /\
  purged_ts (log (enforce_retention_policy (fun l => Z.of_nat (length l)) 3 10 1 (MkManager (MkLog [(5, [], None); (9, [], None)] 2) []) 10)) = 5.
Proof.
  destruct (retention_policy_safe (fun l => Z.of_nat (length l)) 3 10 1 (MkManager (MkLog [(5, [], None); (9, [], None)] 2) []) 10
    ltac:(repeat split)) as (Hok & _).
  split; [exact Hok|reflexivity].
Defined.

(** Appending a commit to a well-formed log panics exactly when its
    timestamp is not above the log's; otherwise it keeps the log well formed,
    wakes exactly the waiters whose target is now passed (or who are gone) and
    keeps all the others, so no waiter is lost by the in-place removal loop. *)
Theorem append_wakes_waiters (is_closed : Z -> bool) (self : WriteLogManager) (ts : Z) (writes : OrderedIndexKeyWrites)
    (source : WriteSource) :
  log_ok (log self) ->
  (ts <= max_ts (log self) -> append is_closed (E := False) self ts writes source = Panic) /\
  (max_ts (log self) < ts ->
   exists self' notified, append is_closed (E := False) self ts writes source = Ret (self', notified) /\
     log_ok (log self') /\ max_ts (log self') = ts /\ by_ts (log self') = by_ts (log self) ++ [(ts, writes, source)] /\
     waiters self' ≡ₚ bfilter (fun w => negb (due is_closed ts w)) (waiters self) /\
     notified ≡ₚ map snd (bfilter (due is_closed ts) (waiters self))).
Proof.
  intros Hok. destruct (append_spec is_closed (E := False) self ts writes source Hok) as [H1 H2]. split; [done|].
  intros Hlt. destruct (H1 Hlt) as (self' & n & He & Hl & Hok' & Hm & Hw & Hn). exists self', n. rewrite Hl. cbn [by_ts].
  split_and!; try done; rewrite <- Hl; done.
Qed.

Lemma append_wakes_waiters_witness :
  exists self' notified,
    append (fun _ => false) (E := False) (MkManager (MkLog [(5, [], None)] 2) [(5, 100); (8, 101); (6, 102)]) 7 [] None = Ret (self', notified) /\
    max_ts (log self') = 7.
Proof.
  destruct (append_wakes_waiters (fun _ => false) (MkManager (MkLog [(5, [], None)] 2) [(5, 100); (8, 101); (6, 102)]) 7 [] None
    ltac:(repeat split)) as [_ H].
  destruct (H ltac:(reflexivity)) as (self' & n & He & _ & Hm & _). exists self', n. split; [exact He|exact Hm].
Defined.

(** What the committer logs is equivalent to the documents it had: for the
    index keys computed from a commit's documents with the registry of its
    snapshot, each logged write overlaps a read set exactly as its documents
    do, for reads of indexes that are registered under their name alone. *)
Theorem logged_keys_equivalent {M} `{StringMapLaws M} {Trace} (sha256 : list Z -> list Z) (tokenize : list Z -> list (list Z))
    (parse_table_name : PackedDocument -> option (list Z)) (reg : IndexRegistry) (tables : TabletId)
    (refreshable : list (list Z)) (tablets : list TabletId) (writes : OrderedDocumentWrites) :
  registry_ok reg -> Forall update_good writes ->
  exists ks tablets',
    (forall E, index_keys_from_full_documents sha256 tokenize parse_table_name (E := E) writes reg tables refreshable tablets
               = Ret (ks, tablets')) /\
    forall reads : ReadSet (M := M) (Trace := Trace), read_set_ok reads -> reads_registered reads reg ->
      Forall2 (fun w k => same_overlap sha256 tokenize reads w k.1) writes ks.
Proof.
  intros Hreg Hgood. destruct (index_keys_ret (M := M) (Trace := Trace) sha256 tokenize parse_table_name reg tables refreshable writes [] tablets Hreg Hgood)
    as (ks & t' & Hks & Hs). exists ks, t'. done.
Qed.

Lemma logged_keys_equivalent_witness :
  exists ks tablets',
    (forall E, index_keys_from_full_documents (fun b => b) (fun t => [t]) (fun _ => None) (E := E)
                 [(id example_doc, MkUpdate (id example_doc) None (Some example_doc))] example_registry [9] [] []
               = Ret (ks, tablets')) /\
    Forall2 (fun w k => same_overlap (fun b => b) (fun t => [t]) example_reads w k.1)
      [(id example_doc, MkUpdate (id example_doc) None (Some example_doc))] ks.
Proof.
  destruct (logged_keys_equivalent (M := fun V => list (list Z * V)) (Trace := Z) (fun b => b) (fun t => [t]) (fun _ => None) example_registry [9] [] []
    [(id example_doc, MkUpdate (id example_doc) None (Some example_doc))]) as (ks & t' & Hks & Hs).
  - apply insert_ok; [apply registry_empty_ok|reflexivity].
  - constructor; [|constructor]. split; [reflexivity|]. cbn [old_document new_document fst snd].
    intros d [[=]|[= <-]]. split; [reflexivity|apply good_doc_example].
  - exists ks, t'. split; [exact Hks|]. apply Hs; [apply example_reads_ok|apply example_registered].
Defined.
