(* ===== verification/SnapshotManager.v ===== *)
(** * SnapshotManager: versioned snapshots of the metadata and indexes
      (src/crates/database/src/snapshot_manager.rs)

    [Snapshot::update] threads one document update through the parts of a
    snapshot.  The index registry is the one of [IndexRegistry.v]; the other
    parts (table, schema and component registries, table summaries, in-memory,
    text and vector indexes) are an interface, [SnapshotParts], with the types
    and update functions the code calls.  [SnapshotManager] keeps the versions
    of a bounded time window. *)

From S2P Require Import Prelude Ord BTreeMap Timestamp Value IdV6 Document IndexRegistry Reads WriteLog.

Local Open Scope Z_scope.

(** ** Snapshots *)

Class SnapshotParts := {
  TableRegistry : Type;
  SchemaRegistry : Type;
  ComponentRegistry : Type;
  TableSummaries : Type;
  InMemoryIndexes : Type;
  TextIndexes : Type;
  VectorIndexes : Type;
  TableUpdate : Type;
  DatabaseIndexUpdate : Type;
  TableSummarySnapshot : Type;
  PartError : Type;
  table_registry_update : TableRegistry -> IndexRegistry -> ResolvedDocumentId -> option PackedDocument ->
    option PackedDocument -> outcome PartError (TableRegistry * option TableUpdate);
  schema_registry_update : SchemaRegistry -> TableRegistry -> ResolvedDocumentId -> option PackedDocument ->
    option PackedDocument -> outcome PartError SchemaRegistry;
  component_registry_update : ComponentRegistry -> TableRegistry -> ResolvedDocumentId -> option PackedDocument ->
    option PackedDocument -> outcome PartError ComponentRegistry;
  table_summaries_update : TableSummaries -> ResolvedDocumentId -> option PackedDocument -> option PackedDocument ->
    option TableUpdate -> TableRegistry -> outcome PartError TableSummaries;
  table_summaries_new : TableSummarySnapshot -> TableRegistry -> outcome PartError TableSummaries;
  in_memory_update : InMemoryIndexes -> IndexRegistry -> Z -> option PackedDocument -> option PackedDocument ->
    InMemoryIndexes * list DatabaseIndexUpdate;
  text_update : TextIndexes -> IndexRegistry -> option PackedDocument -> option PackedDocument -> Z ->
    outcome PartError (TextIndexes * Z);
  vector_update : VectorIndexes -> IndexRegistry -> option PackedDocument -> option PackedDocument -> Z ->
    outcome PartError (VectorIndexes * Z);
}.

Inductive snapshot_error `{SnapshotParts} :=
| PartFailed (e : PartError)
| IndexUpdateFailed (e : registry_error).

Section snapshot.
Context `{P : SnapshotParts} (from_document : PackedDocument -> option Index).

Record Snapshot := MkSnapshot {
  table_registry : TableRegistry;
  schema_registry : SchemaRegistry;
  component_registry : ComponentRegistry;
  table_summaries : option TableSummaries;
  index_registry : IndexRegistry;
  in_memory_indexes : InMemoryIndexes;
  text_indexes : TextIndexes;
  vector_indexes : VectorIndexes;
}.

Definition part {A} (m : outcome PartError A) : outcome snapshot_error A :=
  match m with Ret a => Ret a | Err e => Err (PartFailed e) | Panic => Panic end.

Definition index_part {A} (m : outcome registry_error A) : outcome snapshot_error A :=
  match m with Ret a => Ret a | Err e => Err (IndexUpdateFailed e) | Panic => Panic end.

(** [Snapshot::update]: the snapshot, the index updates and the sizes of the
    vector and text index writes. *)
Definition snapshot_update (self : Snapshot) (document_update : PackedDocumentUpdate) (commit_ts : Z)
    : outcome snapshot_error (Snapshot * list DatabaseIndexUpdate * Z * Z) :=
  let removal := old_document document_update in
  let insertion := new_document document_update in
  let document_id := update_id document_update in
  let? (tables, table_update) :=
    part (table_registry_update (table_registry self) (index_registry self) document_id removal insertion) in
  let? schemas := part (schema_registry_update (schema_registry self) tables document_id removal insertion) in
  let? components := part (component_registry_update (component_registry self) tables document_id removal insertion) in
  let? summaries :=
    match table_summaries self with
    | Some summaries =>
        let? s := part (table_summaries_update summaries document_id removal insertion table_update tables) in Ret (Some s)
    | None => Ret None
    end in
  let? registry := index_part (IndexRegistry.update from_document (index_registry self) removal insertion) in
  let '(in_memory, index_updates) := in_memory_update (in_memory_indexes self) registry commit_ts removal insertion in
  let? (text, text_size) := part (text_update (text_indexes self) registry removal insertion commit_ts) in
  let? (vector, vector_size) := part (vector_update (vector_indexes self) registry removal insertion commit_ts) in
  Ret ({| table_registry := tables; schema_registry := schemas; component_registry := components;
          table_summaries := summaries; index_registry := registry; in_memory_indexes := in_memory;
          text_indexes := text; vector_indexes := vector |}, index_updates, vector_size, text_size).

(** What [recompute_pending_snapshots] uses of it. *)
Definition snapshot_update_opt (self : Snapshot) (u : PackedDocumentUpdate) (ts : Z) : option Snapshot :=
  match snapshot_update self u ts with Ret (s, _, _, _) => Some s | _ => None end.
End snapshot.

(** ** The manager *)

Inductive manager_error := SnapshotOutOfRetention | MoreRecentThanLatest | RepeatableTsWentBackward.

Section manager.
Context {S : Type}.

Record SnapshotManager := MkSnapshots { persisted_max_repeatable_ts : Z; versions : list (Z * S) }.

Definition snapshots_new (initial_ts : Z) (initial_snapshot : S) : SnapshotManager :=
  {| persisted_max_repeatable_ts := initial_ts; versions := [(initial_ts, initial_snapshot)] |}.

Definition latest {E} (self : SnapshotManager) : outcome E (Z * S) := expect (last (versions self)).

Definition latest_snapshot {E} (self : SnapshotManager) : outcome E S := omap snd (latest self).

Definition latest_ts {E} (self : SnapshotManager) : outcome E Z := omap fst (latest self).

Definition earliest_ts {E} (self : SnapshotManager) : outcome E Z := omap fst (expect (head (versions self))).

(** [persisted_max_repeatable_ts()]: [prior_ts] fails above [latest_ts]. *)
Definition read_persisted_max_repeatable_ts {E} (self : SnapshotManager) : outcome E Z :=
  let? latest := latest_ts self in
  let? _ := rassert (persisted_max_repeatable_ts self <=? latest) in
  Ret (persisted_max_repeatable_ts self).

Definition snapshot (self : SnapshotManager) (ts : Z) : outcome manager_error S :=
  let? earliest := earliest_ts self in
  if ts <? earliest then Err SnapshotOutOfRetention
  else
    let? latest := latest_ts self in
    let? _ := ensure (ts <=? latest) MoreRecentThanLatest in
    let? i := match binary_search_by_key fst ts (versions self) with
              | inl i => Ret i
              | inr i => expect (if (1 <=? i)%nat then Some (i - 1)%nat else None)
              end in
    let? (_, snapshot) := expect (versions self !! i) in
    Ret snapshot.

(** The loop of [push] ([MAX_TRANSACTION_WINDOW]); [ts - successor_ts]
    panics on underflow. *)
Fixpoint drop_old {E} (max_window ts : Z) (vs : list (Z * S)) : outcome E (list (Z * S)) :=
  match vs with
  | v :: ((successor_ts, _) :: _) as vs' =>
      let? _ := rassert (successor_ts <=? ts) in
      if max_window <? ts - successor_ts then drop_old max_window ts vs' else Ret vs
  | _ => Ret vs
  end.

Definition push {E} (max_window : Z) (self : SnapshotManager) (ts : Z) (s : S) : outcome E SnapshotManager :=
  let? latest := latest_ts self in
  let? _ := rassert (latest <? ts) in
  let? vs := drop_old max_window ts (versions self) in
  Ret {| persisted_max_repeatable_ts := persisted_max_repeatable_ts self; versions := vs ++ [(ts, s)] |}.

Definition bump_persisted_max_repeatable_ts (max_window : Z) (self : SnapshotManager) (ts : Z)
    : outcome manager_error (SnapshotManager * bool) :=
  let? _ := ensure (persisted_max_repeatable_ts self <=? ts) RepeatableTsWentBackward in
  let self := {| persisted_max_repeatable_ts := ts; versions := versions self |} in
  let? (latest_ts, snapshot) := latest self in
  if latest_ts <? ts then
    let? self := push max_window self ts snapshot in Ret (self, true)
  else Ret (self, false).

(** [versions.back_mut()]. *)
Definition set_last {E} (self : SnapshotManager) (s : S) : outcome E SnapshotManager :=
  let? (ts, _) := latest self in
  Ret {| persisted_max_repeatable_ts := persisted_max_repeatable_ts self;
         versions := removelast (versions self) ++ [(ts, s)] |}.
End manager.
Arguments SnapshotManager S : clear implicits.

(** ** Overwriting the last snapshot *)

Section overwrite.
Context `{P : SnapshotParts} (from_document : PackedDocument -> option Index).

(** The common tail: replace the last snapshot and rebase the pending writes. *)
Definition overwrite_last {E} (self : SnapshotManager Snapshot) (pending_writes : PendingWrites (Snapshot := Snapshot)) (s : Snapshot)
    : outcome E (SnapshotManager Snapshot * PendingWrites (Snapshot := Snapshot)) :=
  let? self := set_last self s in
  let? pending_writes := recompute_pending_snapshots (snapshot_update_opt from_document) pending_writes s in
  Ret (self, pending_writes).

Definition overwrite_last_snapshot_text_and_vector_indexes {E} (self : SnapshotManager Snapshot)
    (text : TextIndexes) (vector : VectorIndexes) (pending_writes : PendingWrites (Snapshot := Snapshot))
    : outcome E (SnapshotManager Snapshot * PendingWrites (Snapshot := Snapshot)) :=
  let? (_, s) := latest self in
  overwrite_last self pending_writes
    {| table_registry := table_registry s; schema_registry := schema_registry s;
       component_registry := component_registry s; table_summaries := table_summaries s;
       index_registry := index_registry s; in_memory_indexes := in_memory_indexes s;
       text_indexes := text; vector_indexes := vector |}.

Definition overwrite_last_snapshot_table_summary (self : SnapshotManager Snapshot)
    (table_summary : TableSummarySnapshot) (pending_writes : PendingWrites (Snapshot := Snapshot))
    : outcome snapshot_error (SnapshotManager Snapshot * PendingWrites (Snapshot := Snapshot)) :=
  let? (_, s) := latest self in
  let? summaries := part (table_summaries_new table_summary (table_registry s)) in
  overwrite_last self pending_writes
    {| table_registry := table_registry s; schema_registry := schema_registry s;
       component_registry := component_registry s; table_summaries := Some summaries;
       index_registry := index_registry s; in_memory_indexes := in_memory_indexes s;
       text_indexes := text_indexes s; vector_indexes := vector_indexes s |}.

Definition overwrite_last_snapshot_in_memory_indexes {E} (self : SnapshotManager Snapshot)
    (in_memory : InMemoryIndexes) (pending_writes : PendingWrites (Snapshot := Snapshot))
    : outcome E (SnapshotManager Snapshot * PendingWrites (Snapshot := Snapshot)) :=
  let? (_, s) := latest self in
  overwrite_last self pending_writes
    {| table_registry := table_registry s; schema_registry := schema_registry s;
       component_registry := component_registry s; table_summaries := table_summaries s;
       index_registry := index_registry s; in_memory_indexes := in_memory;
       text_indexes := text_indexes s; vector_indexes := vector_indexes s |}.
End overwrite.

(** ** Versions in order *)

Section versions.
Context {S : Type}.
Implicit Types (self : SnapshotManager S) (vs : list (Z * S)).

Fixpoint increasing vs : Prop :=
  match vs with
  | [] => True
  | v :: vs => (forall w, w ∈ vs -> v.1 < w.1) /\ increasing vs
  end.

Definition versions_ok self : Prop := increasing (versions self) /\ versions self <> [].

Lemma increasing_app vs ws :
  increasing (vs ++ ws) <-> increasing vs /\ increasing ws /\ forall v w, v ∈ vs -> w ∈ ws -> v.1 < w.1.
Proof.
  induction vs as [|v vs IH]; cbn [app increasing].
  - split; [|tauto]. intros Hw. split_and!; try done. by intros v w ?%elem_of_nil.
  - rewrite IH. setoid_rewrite elem_of_app. setoid_rewrite elem_of_cons. split.
    + intros (Hv & Hvs & Hws & Hvw). split_and!; [intros; apply Hv; by left|done..|].
      intros x w [->|Hx] Hw; [apply Hv; by right|by apply Hvw].
    + intros ((Hv & Hvs) & Hws & Hvw). split_and!; [|done|done|].
      * intros w [Hw|Hw]; [by apply Hv|]. apply Hvw; [by left|done].
      * intros x w Hx Hw. apply Hvw; [by right|done].
Qed.

Lemma latest_Ret self : versions_ok self ->
  exists ts s, (forall E, latest (E := E) self = Ret (ts, s)) /\ last (versions self) = Some (ts, s) /\
    forall v, v ∈ versions self -> v.1 <= ts.
Proof.
  intros [Hi Hne]. unfold latest. destruct (last (versions self)) as [[ts s]|] eqn:Hl.
  2:{ by apply last_None in Hl. }
  exists ts, s. split; [done|]. split; [done|]. apply last_Some in Hl as [l Hl]. rewrite Hl in *. intros v.
  rewrite elem_of_app, list_elem_of_singleton. intros [Hv|Hv]; [|by rewrite Hv].
  apply increasing_app in Hi as (_ & _ & Hlt). apply Z.lt_le_incl. change ts with (ts, s).1. apply Hlt; [done|left].
Qed.

(** The version in force at [ts]: the last one not after it. *)
Definition version_at vs (ts : Z) (v : Z * S) : Prop :=
  v ∈ vs /\ v.1 <= ts /\ forall w, w ∈ vs -> w.1 <= ts -> w.1 <= v.1.

Lemma increasing_unique vs v w : increasing vs -> v ∈ vs -> w ∈ vs -> v.1 = w.1 -> v = w.
Proof.
  induction vs as [|x vs IH]; [by intros _ ?%elem_of_nil|]. intros [Hx Hi] [->|Hv]%elem_of_cons [->|Hw]%elem_of_cons Heq; [done| | |by apply IH].
  - specialize (Hx _ Hw). lia.
  - specialize (Hx _ Hv). lia.
Qed.

(** The split of a sorted sequence that the binary search computes. *)
Lemma take_while_split vs ts : increasing vs ->
  exists k, vs = take_while (fun v => v.1 <? ts) vs ++ k /\ (forall v, v ∈ k -> ts <= v.1) /\
    (forall v, v ∈ take_while (fun v => v.1 <? ts) vs -> v.1 < ts).
Proof.
  induction vs as [|v vs IH]; [intros _; exists []; split_and!; [done|by intros ? ?%elem_of_nil..]|].
  intros [Hv Hi]. cbn [take_while]. destruct (Z.ltb_spec v.1 ts).
  - destruct (IH Hi) as (k & Hk & Hge & Hlt). exists k. split_and!; [cbn [app]; by rewrite <- Hk|done|].
    intros w [->|Hw]%elem_of_cons; [done|by apply Hlt].
  - exists (v :: vs). split_and!; [done| |by intros ? ?%elem_of_nil].
    intros w [->|Hw]%elem_of_cons; [done|]. specialize (Hv _ Hw). lia.
Qed.

Lemma snapshot_spec self ts :
  versions_ok self ->
  match snapshot self ts with
  | Ret s => exists t, version_at (versions self) ts (t, s)
  | Err SnapshotOutOfRetention => forall v, v ∈ versions self -> ts < v.1
  | Err MoreRecentThanLatest => forall v, v ∈ versions self -> v.1 < ts
  | _ => False
  end.
Proof.
  intros Hok. destruct (latest_Ret self Hok) as (tl & sl & Hlat & Hlast & Hmax). destruct Hok as [Hi Hne].
  unfold snapshot, earliest_ts, latest_ts, omap. destruct (head (versions self)) as [[t0 s0]|] eqn:Hh.
  2:{ by destruct (versions self). }
  assert (Hin0 : (t0, s0) ∈ versions self) by (destruct (versions self); [done|injection Hh as ->; left]).
  cbn [expect obind fst]. destruct (Z.ltb_spec ts t0).
  { destruct (versions self) as [|v vs]; [done|]. injection Hh as ->. destruct Hi as [Hv _].
    intros w [->|Hw]%elem_of_cons; [done|]. specialize (Hv _ Hw). simpl in Hv. lia. }
  rewrite Hlat. cbn [obind fst]. unfold ensure. destruct (Z.leb_spec ts tl); cbn [obind].
  2:{ intros v Hv. specialize (Hmax _ Hv). lia. }
  destruct (take_while_split (versions self) ts Hi) as (k & Hk & Hge & Hlt).
  unfold binary_search_by_key. set (pre := take_while _ _) in *.
  assert (Hlook : versions self !! length pre = head k).
  { rewrite Hk, lookup_app_r, Nat.sub_diag by lia. by destruct k. }
  rewrite Hlook. destruct k as [|[t s] k]; cbn [head].
  - (* every version is before [ts]: the latest *)
    exfalso. rewrite app_nil_r in Hk. assert (Hin : (tl, sl) ∈ pre) by (rewrite <- Hk; apply last_Some in Hlast as [l ->]; set_solver).
    specialize (Hlt _ Hin). simpl in Hlt. lia.
  - destruct (Z.eqb_spec (t, s).1 ts) as [Heq|Hneq]; cbn [obind].
    + rewrite Hlook. cbn [head expect obind]. exists t. simpl in Heq. subst t. split; [rewrite Hk; set_solver|]. split; [simpl; lia|].
      intros w _ Hw. done.
    + simpl in Hneq. assert (Hts : ts < t) by (specialize (Hge (t, s) ltac:(left)); simpl in Hge; lia).
      destruct (last pre) as [[t' s']|] eqn:Hlp.
      2:{ apply last_None in Hlp. rewrite Hlp in Hk. rewrite Hk in Hh. injection Hh as <- <-. lia. }
      apply last_Some in Hlp as [pre' Hpre]. rewrite Hpre, length_app. cbn [length].
      replace (1 <=? length pre' + 1)%nat with true by (symmetry; apply Nat.leb_le; lia). cbn [expect obind].
      replace (length pre' + 1 - 1)%nat with (length pre') by lia.
      rewrite Hk, Hpre, <- app_assoc, lookup_app_r, Nat.sub_diag by lia. cbn [app lookup list_lookup expect obind].
      exists t'. split; [set_solver|]. split.
      { assert (t' < ts); [|simpl; lia]. apply (Hlt (t', s')). rewrite Hpre. set_solver. }
      intros w Hw Hle. rewrite Hk, Hpre, <- app_assoc in Hi. apply increasing_app in Hi as (_ & [_ [Htk _]] & Hi).
      apply elem_of_app in Hw as [Hw|[->|[->|Hw]%elem_of_cons]%elem_of_cons].
      * specialize (Hi w (t', s') Hw ltac:(left)). simpl in *. lia.
      * done.
      * simpl in Hle. lia.
      * specialize (Htk w Hw). simpl in Htk. lia.
Qed.

Lemma drop_old_spec window ts vs :
  increasing vs -> (forall v, v ∈ vs -> v.1 <= ts) ->
  exists dropped vs', (forall E, drop_old (E := E) window ts vs = Ret vs') /\ vs = dropped ++ vs' /\
    (vs <> [] -> vs' <> []) /\
    (dropped <> [] -> exists v, v ∈ vs' /\ window < ts - v.1).
Proof.
  induction vs as [|v vs IH]; intros Hi Hle; [by exists [], []|]. destruct vs as [|[t s] vs]; [by exists [], [v]|].
  cbn [drop_old]. unfold rassert. rewrite (proj2 (Z.leb_le t ts)) by (apply (Hle (t, s)); right; left). cbn [obind].
  destruct (Z.ltb_spec window (ts - t)) as [Hw|Hw].
  - destruct Hi as [_ Hi]. destruct IH as (dropped & vs' & Hd & Hvs & Hne & Hdr); [done|intros w Hw'; apply Hle; by right|].
    exists (v :: dropped), vs'. split; [intros E; apply Hd|]. split; [cbn [app]; by rewrite <- Hvs|]. split; [by intros _; apply Hne|].
    intros _. destruct dropped as [|d dropped]; [|by apply Hdr]. cbn [app] in Hvs. subst vs'. exists (t, s). split; [left|done].
  - exists [], (v :: (t, s) :: vs). done.
Qed.

Lemma version_at_suffix dropped vs v t0 w :
  increasing (dropped ++ vs) -> v ∈ vs -> v.1 <= t0 -> version_at (dropped ++ vs) t0 w <-> version_at vs t0 w.
Proof.
  intros Hi Hv Hle. apply increasing_app in Hi as (_ & _ & Hlt). unfold version_at. setoid_rewrite elem_of_app. split.
  - intros ([Hw|Hw] & Hwt & Hmax).
    + specialize (Hlt _ _ Hw Hv). specialize (Hmax v (or_intror Hv) Hle). lia.
    + split_and!; [done..|]. intros x Hx. apply Hmax. by right.
  - intros (Hw & Hwt & Hmax). split_and!; [by right|done|]. intros x [Hx|Hx] Hxt; [|by apply Hmax].
    specialize (Hlt _ _ Hx Hw). lia.
Qed.

Lemma push_spec window self ts s0 s :
  versions_ok self -> 0 <= window -> latest (E := False) self = Ret (s0, s) ->
  forall snap, s0 < ts ->
  exists self', (forall E, push (E := E) window self ts snap = Ret self') /\ versions_ok self' /\
    (forall E, latest (E := E) self' = Ret (ts, snap)) /\
    persisted_max_repeatable_ts self' = persisted_max_repeatable_ts self /\
    (forall t0 v, ts - window <= t0 < ts -> version_at (versions self) t0 v <-> version_at (versions self') t0 v).
Proof.
  intros Hok Hwin Hl snap Hlt. destruct (latest_Ret self Hok) as (tl & sl & Hlat & Hlast & Hmax).
  rewrite Hlat in Hl. injection Hl as -> ->. destruct Hok as [Hi Hne].
  destruct (drop_old_spec window ts (versions self) Hi) as (dropped & vs' & Hd & Hvs & Hne' & Hdr).
  { intros v Hv. specialize (Hmax _ Hv). lia. }
  assert (Hi' : increasing vs') by (rewrite Hvs in Hi; by apply increasing_app in Hi as (_ & ? & _)).
  assert (Hmax' : forall v, v ∈ vs' -> v.1 <= s0) by (intros v Hv; apply Hmax; rewrite Hvs; apply elem_of_app; by right).
  eexists. split.
  { intros E. unfold push, latest_ts, omap. rewrite Hlat. cbn [obind fst]. unfold rassert.
    rewrite (proj2 (Z.ltb_lt s0 ts)) by done. cbn [obind]. rewrite Hd. cbn [obind]. reflexivity. }
  split; [|split; [|split; [done|]]].
  - split; cbn [versions]; [|by destruct vs']. apply increasing_app. split_and!; [done|split; [by intros ? ?%elem_of_nil|done]|].
    intros v w Hv ->%list_elem_of_singleton. specialize (Hmax' _ Hv). simpl. lia.
  - intros E. unfold latest. cbn [versions]. by rewrite last_snoc.
  - cbn [versions]. intros t0 v Ht0.
    assert (Hnew : version_at (vs' ++ [(ts, snap)]) t0 v <-> version_at vs' t0 v).
    { unfold version_at. setoid_rewrite elem_of_app. setoid_rewrite list_elem_of_singleton. split.
      - intros ([Hv| ->] & Hvt & Hm); [|simpl in Hvt; lia]. split_and!; [done..|]. intros w Hw. apply Hm. by left.
      - intros (Hv & Hvt & Hm). split_and!; [by left|done|]. intros w [Hw| ->] Hwt; [by apply Hm|simpl in Hwt; lia]. }
    rewrite Hnew, Hvs. destruct dropped as [|d dropped]; [done|]. destruct Hdr as (x & Hx & Hxw); [done|].
    apply (version_at_suffix _ _ x); [by rewrite <- Hvs|done|lia].
Qed.
End versions.

(** ** Theorems *)

(** Reading at a timestamp returns the version in force then, the last one
    not after it; it fails as out of retention exactly when every version is
    later, and as too recent exactly when every version is earlier. *)
Theorem snapshot_finds_version {S} (self : SnapshotManager S) (ts : Z) :
  versions_ok self ->
  match snapshot self ts with
  | Ret s => exists t, version_at (versions self) ts (t, s)
  | Err SnapshotOutOfRetention => forall v, v ∈ versions self -> ts < v.1
  | Err MoreRecentThanLatest => forall v, v ∈ versions self -> v.1 < ts
  | _ => False
  end.
Proof. apply snapshot_spec. Qed.

Lemma snapshot_finds_version_witness :
  exists t, version_at [(1, 10); (5, 50)] 3 (t, 10).
Proof.
  assert (H := snapshot_finds_version (MkSnapshots 1 [(1, 10); (5, 50)]) 3).
  change (snapshot (MkSnapshots 1 [(1, 10); (5, 50)]) 3) with (Ret (E := manager_error) 10) in H. apply H.
  split; [|done]. cbn [versions increasing]. split; [|split; [by intros ? ?%elem_of_nil|done]].
  intros w ->%list_elem_of_singleton. reflexivity.
Defined.

(** Publishing a version never changes what a transaction reads: within the
    transaction window, every earlier timestamp still resolves to the same
    version; the new version becomes the latest, and the assertion on the order
    of versions holds whenever the new timestamp is above the latest. *)
Theorem push_keeps_window {S} (window : Z) (self : SnapshotManager S) (t ts : Z) (s snap : S) :
  versions_ok self -> 0 <= window -> latest (E := False) self = Ret (t, s) -> t < ts ->
  exists self', (forall E, push (E := E) window self ts snap = Ret self') /\ versions_ok self' /\
    (forall E, latest (E := E) self' = Ret (ts, snap)) /\
    persisted_max_repeatable_ts self' = persisted_max_repeatable_ts self /\
    (forall t0 v, ts - window <= t0 < ts -> version_at (versions self) t0 v <-> version_at (versions self') t0 v).
Proof. intros Hok Hw Hl Hlt. by apply (push_spec window self ts t s). Qed.

Lemma push_keeps_window_witness :
  exists self', (forall E, push (E := E) 3 (MkSnapshots 1 [(1, 10); (5, 50)]) 9 90 = Ret self') /\
    (forall E, latest (E := E) self' = Ret (9, 90)).
Proof.
  destruct (push_keeps_window 3 (MkSnapshots 1 [(1, 10); (5, 50)]) 5 9 50 90) as (self' & Hp & _ & Hl & _).
  - split; [|done]. cbn [versions increasing]. split; [|split; [by intros ? ?%elem_of_nil|done]].
    intros w ->%list_elem_of_singleton. reflexivity.
  - discriminate.
  - reflexivity.
  - reflexivity.
  - exists self'. split; [exact Hp|exact Hl].
Defined.
