(* ===== verification/Committer.v ===== *)
(** * Committer: validation and publication of commits
      (src/crates/database/src/committer.rs)

    The committer is a single-threaded loop.  Its state has the pending writes,
    the write log, the snapshots, the last assigned timestamp and the queue of
    persistence writes in flight; [handle] is one round of the loop for one
    event: a message, the completion of the oldest write in flight, or the
    timer of the repeatable timestamp.  The clock is an input of the events.
    Tracing, metrics, usage tracking and the retries of the persistence writes
    are left out: a write in flight ends with success or with a fatal error.

    The theorems show that the loop keeps its invariant (so that none of its
    assertions fails) and that the commits it accepts are serializable. *)

From Stdlib Require Import Sorted.
From S2P Require Import Prelude Ord BTreeMap Identifier Timestamp Value Sorting SortingDecode Base32 IdV6.
From S2P Require Import Interval IntervalSet Document IndexRegistry QueryReads Reads WriteLog SnapshotManager.

Local Open Scope Z_scope.

(** [DocumentUpdateWithPrevTs]. *)
Record DocumentUpdateWithPrevTs := MkUpdateTs {
  up_id : ResolvedDocumentId;
  up_old : option (PackedDocument * Z);
  up_new : option PackedDocument;
}.

(** [PackedDocumentUpdate::pack]. *)
Definition pack (u : DocumentUpdateWithPrevTs) : PackedDocumentUpdate :=
  {| update_id := up_id u; old_document := option_map fst (up_old u); new_document := up_new u |}.

Inductive TableState := Active | Hidden | Deleting.

(** ["_tables"]. *)
Definition TABLES_TABLE : list Z := [95; 116; 97; 98; 108; 101; 115].

(** [BootstrapTableIds]: the tablets of [_tables] and [_index]. *)
Record BootstrapTableIds := MkBootstrap { tables_id : TabletId; index_id : TabletId }.

(** ["publish_max_repeatable_ts"], the source of an empty log entry. *)
Definition BUMP_SOURCE : list Z :=
  [112; 117; 98; 108; 105; 115; 104; 95; 109; 97; 120; 95; 114; 101; 112; 101; 97; 116; 97; 98; 108; 101; 95; 116; 115].

Section sort.
(** [ParsedDocument<TableMetadata>]: name and state. *)
Context (parse_table : PackedDocument -> option (list Z * TableState)).

(** [table_dependency_sort_key]; the id as an [InternalDocumentId]. *)
Definition table_dependency_sort_key {E} (bootstrap_tables : BootstrapTableIds) (i : ResolvedDocumentId)
    (update : option PackedDocument) : outcome E (Z * (list Z * list Z)) :=
  let table := tablet_id i in
  let? sort_key :=
    if bool_decide (table = tables_id bootstrap_tables) then
      match update with
      | Some insertion =>
          let? (name, state) := expect (parse_table insertion) in
          Ret match state with
              | Active => if bool_decide (name = TABLES_TABLE) then 2 else 3
              | Hidden => 3
              | Deleting => 1
              end
      | None => Ret 1
      end
    else if bool_decide (table = index_id bootstrap_tables) then
      Ret match update with None => 0 | Some _ => 4 end
    else Ret 5 in
  Ret (sort_key, (table, internal_id (developer_id i))).

Fixpoint insert_sorted {A} (key : Z * (list Z * list Z)) (x : A) (l : list ((Z * (list Z * list Z)) * A))
    : list ((Z * (list Z * list Z)) * A) :=
  match l with
  | [] => [(key, x)]
  | (k, y) :: l' => if (key <? k)%ord then (key, x) :: l else (k, y) :: insert_sorted key x l'
  end.

(** [sort_by_key], which is stable and does not call the key function on a
    sequence of fewer than two elements. *)
Definition sort_updates {E} (bootstrap_tables : BootstrapTableIds) (updates : list DocumentUpdateWithPrevTs)
    : outcome E (list DocumentUpdateWithPrevTs) :=
  match updates with
  | [] | [_] => Ret updates
  | _ =>
      let? keyed := mapM (fun u =>
        let? k := table_dependency_sort_key bootstrap_tables (up_id u) (up_new u) in Ret (k, u)) updates in
      Ret (map snd (fold_left (fun l e => insert_sorted e.1 e.2 l) keyed []))
  end.
End sort.

Section committer.
Context {M : Type -> Type} `{StringMapLaws M} {Trace : Type} `{P : SnapshotParts}.
Context (sha256 : list Z -> list Z) (tokenize : list Z -> list (list Z)).
Context (parse_table : PackedDocument -> option (list Z * TableState)) (from_document : PackedDocument -> option Index).
Context (is_closed : Z -> bool) (max_window : Z) (refreshable_tables : list (list Z)) (tables_table_id : TabletId).

Notation Reads := (ReadSet (M := M) (Trace := Trace)).
Notation Pending := (PendingWrites (Snapshot := Snapshot)).

(** [FinalTransaction]: what the committer uses of it. *)
Record FinalTransaction := MkTransaction {
  begin_timestamp : Z;
  tx_reads : Reads;
  tx_writes : list DocumentUpdateWithPrevTs;
  tx_bootstrap : BootstrapTableIds;
}.

Record ValidatedDocumentWrite := MkDocWrite {
  dw_commit_ts : Z;
  dw_id : ResolvedDocumentId;
  dw_write : option PackedDocument;
  dw_vector_index_write_size : Z;
  dw_text_index_write_size : Z;
  dw_prev_ts : option Z;
}.

Record ValidatedCommit := MkValidated {
  index_writes : list (Z * DatabaseIndexUpdate);
  document_writes : list ValidatedDocumentWrite;
  pending_write : Z;
}.

(** A persistence write in flight; [PendingWriteHandle] is its timestamp. *)
Inductive PersistenceWrite :=
| Commit (v : ValidatedCommit)
| MaxRepeatableTimestamp (new_max_repeatable : Z).

Record Committer := MkCommitter {
  pending_writes : Pending;
  write_log : WriteLogManager;
  snapshot_manager : SnapshotManager Snapshot;
  last_assigned_ts : Z;
  persistence_writes : list PersistenceWrite;
  refreshable_tablets : list TabletId;
  (** [next_bump_wait.is_some()]. *)
  bump_scheduled : bool;
}.

Inductive commit_error :=
| CommitTs (e : ts_error)
| LogError (e : log_error)
| Conflict (c : ConflictingReadWithWriteSource (Trace := Trace))
| SnapshotError (e : snapshot_error)
| ManagerError (e : manager_error)
| PendingAfterLastAssigned
| WriteFailed.

Definition lift {E A} (f : E -> commit_error) (m : outcome E A) : outcome commit_error A :=
  match m with Ret a => Ret a | Err e => Err (f e) | Panic => Panic end.

Definition with_last_assigned (self : Committer) (ts : Z) : Committer :=
  {| pending_writes := pending_writes self; write_log := write_log self; snapshot_manager := snapshot_manager self;
     last_assigned_ts := ts; persistence_writes := persistence_writes self;
     refreshable_tablets := refreshable_tablets self; bump_scheduled := bump_scheduled self |}.

Definition with_pending (self : Committer) (p : Pending) : Committer :=
  {| pending_writes := p; write_log := write_log self; snapshot_manager := snapshot_manager self;
     last_assigned_ts := last_assigned_ts self; persistence_writes := persistence_writes self;
     refreshable_tablets := refreshable_tablets self; bump_scheduled := bump_scheduled self |}.

Definition with_queue (self : Committer) (q : list PersistenceWrite) (scheduled : bool) : Committer :=
  {| pending_writes := pending_writes self; write_log := write_log self; snapshot_manager := snapshot_manager self;
     last_assigned_ts := last_assigned_ts self; persistence_writes := q;
     refreshable_tablets := refreshable_tablets self; bump_scheduled := scheduled |}.

Definition with_snapshots (self : Committer) (m : SnapshotManager Snapshot) (p : Pending) : Committer :=
  {| pending_writes := p; write_log := write_log self; snapshot_manager := m;
     last_assigned_ts := last_assigned_ts self; persistence_writes := persistence_writes self;
     refreshable_tablets := refreshable_tablets self; bump_scheduled := bump_scheduled self |}.

(** [now] is [runtime.generate_timestamp()]. *)
Definition next_commit_ts (self : Committer) (now : outcome ts_error Z) : outcome commit_error (Committer * Z) :=
  let? latest := latest_ts (snapshot_manager self) in
  let? after_latest := lift CommitTs (Timestamp.succ latest) in
  let? now := lift CommitTs now in
  let? after_last := lift CommitTs (Timestamp.succ (last_assigned_ts self)) in
  let max := Z.max after_latest (Z.max now after_last) in
  Ret (with_last_assigned self max, max).

Definition next_max_repeatable_ts (self : Committer) (now : outcome ts_error Z) : outcome commit_error (Committer * Z) :=
  match min_ts (pending_writes self) with
  | Some min_pending =>
      let? _ := ensure (min_pending <=? last_assigned_ts self) PendingAfterLastAssigned in
      let? ts := lift CommitTs (Timestamp.pred min_pending) in
      Ret (self, ts)
  | None => next_commit_ts self now
  end.

Definition commit_has_conflict (self : Committer) (reads : Reads) (reads_ts commit_ts : Z)
    : outcome commit_error (option (ConflictingReadWithWriteSource (Trace := Trace))) :=
  let? c := lift LogError (is_stale (log (write_log self)) reads reads_ts commit_ts) in
  match c with
  | Some c => Ret (Some c)
  | None => lift LogError (pending_is_stale sha256 tokenize (pending_writes self) reads reads_ts commit_ts)
  end.

(** One round of the loop of [compute_writes]. *)
Definition compute_write (commit_ts : Z) (st : Snapshot * list DatabaseIndexUpdate * list ValidatedDocumentWrite)
    (u : DocumentUpdateWithPrevTs)
    : outcome commit_error (Snapshot * list DatabaseIndexUpdate * list ValidatedDocumentWrite) :=
  let '(snapshot, index_writes, document_writes) := st in
  let? (snapshot, updates, vector_size, text_size) :=
    lift SnapshotError (snapshot_update from_document snapshot (pack u) commit_ts) in
  Ret (snapshot, index_writes ++ updates,
       document_writes ++ [{| dw_commit_ts := commit_ts; dw_id := up_id u; dw_write := up_new u;
                              dw_vector_index_write_size := vector_size; dw_text_index_write_size := text_size;
                              dw_prev_ts := option_map snd (up_old u) |}]).

(** The index writes are a [BTreeSet], here in the order they are produced. *)
Definition compute_writes (self : Committer) (commit_ts : Z) (ordered_updates : list DocumentUpdateWithPrevTs)
    : outcome commit_error (list ValidatedDocumentWrite * list (Z * DatabaseIndexUpdate) * Snapshot) :=
  let? base := match pending_latest_snapshot (pending_writes self) with
               | Some s => Ret s
               | None => latest_snapshot (snapshot_manager self)
               end in
  let? (snapshot, index_writes, document_writes) := foldM (compute_write commit_ts) (base, [], []) ordered_updates in
  Ret (document_writes, map (fun u => (commit_ts, u)) index_writes, snapshot).

(** The part of [validate_commit] after the timestamp is assigned. *)
Definition validate_at (self : Committer) (commit_ts : Z) (transaction : FinalTransaction) (write_source : WriteSource)
    : outcome commit_error (Committer * ValidatedCommit) :=
  let? conflict := commit_has_conflict self (tx_reads transaction) (begin_timestamp transaction) commit_ts in
  match conflict with
  | Some c => Err (Conflict c)
  | None =>
      let? ordered_updates := sort_updates parse_table (tx_bootstrap transaction) (tx_writes transaction) in
      let? (document_writes, index_writes, snapshot) := compute_writes self commit_ts ordered_updates in
      let? pending := push_back (pending_writes self) commit_ts
                        (map (fun u => (up_id u, pack u)) ordered_updates) write_source snapshot in
      Ret (with_pending self pending,
           {| index_writes := index_writes; document_writes := document_writes; pending_write := commit_ts |})
  end.

(** [validate_commit]; the assigned timestamp is used up even on failure. *)
Definition validate_commit (self : Committer) (transaction : FinalTransaction) (write_source : WriteSource)
    (now : outcome ts_error Z) : Committer * outcome commit_error ValidatedCommit :=
  match next_commit_ts self now with
  | Ret (self, commit_ts) =>
      match validate_at self commit_ts transaction write_source with
      | Ret (self, v) => (self, Ret v)
      | Err e => (self, Err e)
      | Panic => (self, Panic)
      end
  | Err e => (self, Err e)
  | Panic => (self, Panic)
  end.

(** What the client of a commit receives. *)
Inductive Response := Committed (ts : Z) | Rejected (e : commit_error) | Bumped (ts : Z) | Loaded.

(** [start_commit] and the push to the queue in [go]. *)
Definition start_commit (self : Committer) (transaction : FinalTransaction) (write_source : WriteSource)
    (now : outcome ts_error Z) : outcome commit_error (Committer * list Response) :=
  match tx_writes transaction with
  | [] => Ret (self, [Committed (begin_timestamp transaction)])
  | _ =>
      match validate_commit self transaction write_source now with
      | (self, Ret v) => Ret (with_queue self (persistence_writes self ++ [Commit v]) (bump_scheduled self), [])
      | (self, Err e) => Ret (self, [Rejected e])
      | (self, Panic) => Panic
      end
  end.

Definition bump_max_repeatable_ts (self : Committer) (now : outcome ts_error Z) : outcome commit_error Committer :=
  match next_max_repeatable_ts self now with
  | Ret (self, new_max_repeatable) =>
      Ret (with_queue self (persistence_writes self ++ [MaxRepeatableTimestamp new_max_repeatable]) false)
  | _ => Panic
  end.

(** [publish_max_repeatable_ts]. *)
Definition publish_max_repeatable_ts (self : Committer) (new_max_repeatable : Z) : outcome commit_error Committer :=
  let? (snapshots, bumped) :=
    lift ManagerError (bump_persisted_max_repeatable_ts max_window (snapshot_manager self) new_max_repeatable) in
  let? log :=
    if bumped : bool then
      let? (log, _) := append is_closed (write_log self) new_max_repeatable [] (Some BUMP_SOURCE) in Ret log
    else Ret (write_log self) in
  Ret {| pending_writes := pending_writes self; write_log := log; snapshot_manager := snapshots;
         last_assigned_ts := last_assigned_ts self; persistence_writes := persistence_writes self;
         refreshable_tablets := refreshable_tablets self; bump_scheduled := bump_scheduled self |}.

Definition parse_table_name (d : PackedDocument) : option (list Z) := option_map fst (parse_table d).

Definition publish_commit (self : Committer) (commit_ts : Z) : outcome commit_error Committer :=
  match pop_first (pending_writes self) with
  | (None, _) => Panic
  | (Some (ts, ordered_updates, write_source, new_snapshot), rest) =>
      let? _ := rassert (ts =? commit_ts) in
      let? (writes, tablets) :=
        index_keys_from_full_documents sha256 tokenize parse_table_name ordered_updates (index_registry new_snapshot)
          tables_table_id refreshable_tables (refreshable_tablets self) in
      let? (log, _) := append is_closed (write_log self) commit_ts writes write_source in
      let? snapshots := push max_window (snapshot_manager self) commit_ts new_snapshot in
      Ret {| pending_writes := rest; write_log := log; snapshot_manager := snapshots;
             last_assigned_ts := last_assigned_ts self; persistence_writes := persistence_writes self;
             refreshable_tablets := tablets; bump_scheduled := bump_scheduled self |}
  end.

(** ** The loop *)

(** What one round of [go] reacts to.  The bootstrap messages carry the
    result of the work they do against persistence before they touch the
    state. *)
Inductive Event :=
| BumpTimer (now : outcome ts_error Z)
| WriteCompleted
| WriteCrashed
| CommitMessage (transaction : FinalTransaction) (write_source : WriteSource) (now : outcome ts_error Z)
| FinishTextAndVectorBootstrap (res : outcome commit_error (TextIndexes * VectorIndexes))
| FinishTableSummaryBootstrap (res : outcome commit_error TableSummarySnapshot)
| LoadIndexesIntoMemory (res : outcome commit_error InMemoryIndexes).

(** The result of a bootstrap message: errors go to the client. *)
Definition respond {A} (self : Committer) (res : outcome commit_error A)
    (k : A -> outcome commit_error (SnapshotManager Snapshot * Pending)) : outcome commit_error (Committer * list Response) :=
  match obind res k with
  | Ret (snapshots, pending) => Ret (with_snapshots self snapshots pending, [Loaded])
  | Err e => Ret (self, [Rejected e])
  | Panic => Panic
  end.

Definition handle (self : Committer) (e : Event) : outcome commit_error (Committer * list Response) :=
  match e with
  | BumpTimer now =>
      if bump_scheduled self then let? self := bump_max_repeatable_ts self now in Ret (self, [])
      else Ret (self, [])
  | WriteCrashed => match persistence_writes self with [] => Ret (self, []) | _ => Err WriteFailed end
  | WriteCompleted =>
      match persistence_writes self with
      | [] => Ret (self, [])
      | Commit v :: rest =>
          let? self := publish_commit (with_queue self rest (bump_scheduled self)) (pending_write v) in
          Ret (self, [Committed (pending_write v)])
      | MaxRepeatableTimestamp ts :: rest =>
          let? self := publish_max_repeatable_ts (with_queue self rest (bump_scheduled self)) ts in
          Ret (with_queue self (persistence_writes self) true, [Bumped ts])
      end
  | CommitMessage transaction write_source now => start_commit self transaction write_source now
  | FinishTextAndVectorBootstrap res =>
      respond self res (fun '(text, vector) =>
        overwrite_last_snapshot_text_and_vector_indexes from_document (snapshot_manager self) text vector (pending_writes self))
  | FinishTableSummaryBootstrap res =>
      respond self res (fun summary =>
        lift SnapshotError (overwrite_last_snapshot_table_summary from_document (snapshot_manager self) summary (pending_writes self)))
  | LoadIndexesIntoMemory res =>
      respond self res (fun in_memory =>
        overwrite_last_snapshot_in_memory_indexes from_document (snapshot_manager self) in_memory (pending_writes self))
  end.

(** [Committer::start]; the log and the snapshots start at the same timestamp. *)
Definition start (ts : Z) (s : Snapshot) (tablets : list TabletId) : Committer :=
  {| pending_writes := pending_new; write_log := manager_new ts; snapshot_manager := snapshots_new ts s;
     last_assigned_ts := Timestamp.MIN; persistence_writes := []; refreshable_tablets := tablets; bump_scheduled := true |}.

(** ** The invariant *)

(** The commits in flight, in the order of the queue. *)
Definition commits_in (q : list PersistenceWrite) : list Z :=
  filter_map (fun w => match w with Commit v => Some (pending_write v) | _ => None end) q.
Definition bumps_in (q : list PersistenceWrite) : list Z :=
  filter_map (fun w => match w with MaxRepeatableTimestamp ts => Some ts | _ => None end) q.

Fixpoint nondecreasing (lo : Z) (l : list Z) : Prop :=
  match l with [] => True | x :: l => lo <= x /\ nondecreasing x l end.

Record committer_ok (self : Committer) : Prop := {
  ok_log : log_ok (log (write_log self));
  ok_versions : versions_ok (snapshot_manager self);
  ok_latest : forall E, latest_ts (E := E) (snapshot_manager self) = Ret (max_ts (log (write_log self)));
  ok_persisted : persisted_max_repeatable_ts (snapshot_manager self) <= max_ts (log (write_log self));
  ok_pending_wf : BTreeMap.wf (pending_writes self);
  ok_pending : forall e, e ∈ pending_writes self -> max_ts (log (write_log self)) < e.1 <= last_assigned_ts self;
  ok_queue : commits_in (persistence_writes self) = map fst (pending_writes self);
  ok_bumps : nondecreasing (persisted_max_repeatable_ts (snapshot_manager self)) (bumps_in (persistence_writes self));
  ok_bumps_bound : forall b, b ∈ bumps_in (persistence_writes self) ->
    b <= last_assigned_ts self /\ forall e, e ∈ pending_writes self -> b < e.1;
  ok_valid : Timestamp.valid (max_ts (log (write_log self))) /\ Timestamp.valid (last_assigned_ts self);
}.

Lemma start_ok ts s tablets : Timestamp.valid ts -> committer_ok (start ts s tablets).
Proof.
  intros Hv. constructor; cbn [start pending_writes write_log snapshot_manager persistence_writes last_assigned_ts
    manager_new log log_new max_ts by_ts purged_ts last snapshots_new persisted_max_repeatable_ts versions]; try done.
  - split; [|done]. split; [by intros ? ?%elem_of_nil|done].
  - by intros e ?%elem_of_nil.
  - by intros b ?%elem_of_nil.
Qed.

Definition clock_ok (now : outcome ts_error Z) : Prop :=
  match now with Ret n => Timestamp.valid n | Err _ => True | Panic => False end.

Lemma next_commit_ts_spec self now :
  committer_ok self -> clock_ok now ->
  match next_commit_ts self now with
  | Ret (self', ts) =>
      self' = with_last_assigned self ts /\ max_ts (log (write_log self)) < ts /\ last_assigned_ts self < ts /\ Timestamp.valid ts
  | Err (CommitTs _) => True
  | _ => False
  end.
Proof.
  intros Hok Hnow. destruct (ok_valid self Hok) as [Hvl Hva]. unfold next_commit_ts. rewrite (ok_latest self Hok). cbn [obind].
  pose proof (succ_spec _ Hvl) as Hs. destruct (Timestamp.succ (max_ts (log (write_log self)))) as [a| |]; cbn [lift obind]; try done.
  destruct Hs as [-> Hv1]. destruct now as [n| |]; cbn [lift obind]; try done.
  pose proof (succ_spec _ Hva) as Hs. destruct (Timestamp.succ (last_assigned_ts self)) as [a| |]; cbn [lift obind]; try done.
  destruct Hs as [-> Hv2]. split; [done|]. cbn [clock_ok] in Hnow. unfold Timestamp.valid in *. lia.
Qed.

Lemma with_last_assigned_ok self ts :
  committer_ok self -> last_assigned_ts self <= ts -> Timestamp.valid ts -> committer_ok (with_last_assigned self ts).
Proof.
  intros [Hlog Hver Hlat Hper Hwf Hpen Hq Hb Hbb Hv] Hle Hvts. constructor; cbn [with_last_assigned pending_writes write_log
    snapshot_manager last_assigned_ts persistence_writes]; try done; [| |by destruct Hv].
  - intros e He. specialize (Hpen e He). lia.
  - intros b Hin. destruct (Hbb b Hin). split; [lia|done].
Qed.

(** The last pending timestamp is at most the last assigned one. *)
Lemma pending_insert_last {V} (p : BTreeMap.t Z V) ts (v : V) :
  BTreeMap.wf p -> (forall e, e ∈ p -> e.1 < ts) -> BTreeMap.insert ts v p = p ++ [(ts, v)].
Proof.
  intros Hwf Hlt. apply BTreeMap.insert_last. apply BTreeMap.wf_app; [done|split; [by intros ? ?%elem_of_nil|done]|].
  intros e1 e2 He1 He2. apply list_elem_of_singleton in He2 as ->. apply Z_olt. by apply Hlt.
Qed.

Lemma push_back_Ret {E} (p : Pending) ts writes source s p' :
  BTreeMap.wf p -> push_back (E := E) p ts writes source s = Ret p' ->
  p' = p ++ [(ts, (writes, source, s))] /\ forall e, e ∈ p -> e.1 < ts.
Proof.
  intros Hwf. unfold push_back. destruct (last p) as [[tl vl]|] eqn:Hl.
  - unfold rassert. destruct (Z.ltb_spec tl ts); cbn [obind]; [|done]. intros [= <-].
    assert (Hlt : forall e, e ∈ p -> e.1 < ts).
    { intros e He. apply last_Some in Hl as [l ->]. apply elem_of_app in He as [He|He].
      - pose proof (BTreeMap.wf_app_lt l [(tl, vl)] e (tl, vl) Hwf He ltac:(left)) as Ho. apply (proj1 (Z_olt _ _)) in Ho. cbn [fst] in Ho. lia.
      - apply list_elem_of_singleton in He as ->. done. }
    split; [by apply pending_insert_last|done].
  - cbn [obind]. intros [= <-]. apply last_None in Hl as ->. split; [done|]. by intros e ?%elem_of_nil.
Qed.

Lemma validate_at_Ret self ts tx source self' v :
  committer_ok self -> validate_at self ts tx source = Ret (self', v) ->
  exists ordered s, sort_updates (E := commit_error) parse_table (tx_bootstrap tx) (tx_writes tx) = Ret ordered /\
    commit_has_conflict self (tx_reads tx) (begin_timestamp tx) ts = Ret None /\
    self' = with_pending self (pending_writes self ++ [(ts, (map (fun u => (up_id u, pack u)) ordered, source, s))]) /\
    pending_write v = ts /\ forall e, e ∈ pending_writes self -> e.1 < ts.
Proof.
  intros Hok. unfold validate_at. destruct (commit_has_conflict self (tx_reads tx) (begin_timestamp tx) ts) as [[c|]| |]; try done.
  cbn [obind]. destruct (sort_updates parse_table (tx_bootstrap tx) (tx_writes tx)) as [ordered| |] eqn:Hso; try done. cbn [obind].
  destruct (compute_writes self ts ordered) as [[[dw iw] s]| |]; try done. cbn [obind].
  destruct (push_back (pending_writes self) ts _ source s) as [p| |] eqn:Hp; try done. cbn [obind]. intros [= <- <-].
  apply push_back_Ret in Hp as [-> Hlt]; [|apply Hok]. exists ordered, s. done.
Qed.

Lemma nondecreasing_app lo l x :
  nondecreasing lo l -> lo <= x -> (forall y, y ∈ l -> y <= x) -> nondecreasing lo (l ++ [x]).
Proof.
  revert lo. induction l as [|y l IH]; intros lo; [done|]. intros [Hy Hl] Hx Hall. split; [done|]. apply IH; [done| |].
  - apply Hall. left.
  - intros z Hz. apply Hall. by right.
Qed.

Lemma nondecreasing_elem lo l x : nondecreasing lo l -> x ∈ l -> lo <= x.
Proof.
  revert lo. induction l as [|y l IH]; intros lo; [by intros _ ?%elem_of_nil|]. intros [Hy Hl] [->|Hx]%elem_of_cons; [done|].
  specialize (IH _ Hl Hx). lia.
Qed.

Lemma start_commit_ok self tx source now self' r :
  committer_ok self -> clock_ok now -> start_commit self tx source now = Ret (self', r) -> committer_ok self'.
Proof.
  intros Hok Hnow. unfold start_commit, validate_commit. destruct (tx_writes tx) as [|u us]; [by intros [= <- <-]|].
  pose proof (next_commit_ts_spec self now Hok Hnow) as Hn.
  destruct (next_commit_ts self now) as [[s1 ts]| |]; [|by intros [= <- <-]|done]. destruct Hn as (-> & Hmax & Hlast & Hv).
  assert (Hok1 : committer_ok (with_last_assigned self ts)) by (apply with_last_assigned_ok; [done|lia|done]).
  destruct (validate_at (with_last_assigned self ts) ts tx source) as [[s2 v]| |] eqn:Hva; [|by intros [= <- <-]|done].
  intros [= <- <-]. apply validate_at_Ret in Hva as (ordered & s & _ & _ & -> & Hpw & Hlt); [|done].
  cbn [with_last_assigned pending_writes] in *. destruct Hok1 as [Hlog Hver Hlat Hper Hwf Hpen Hq Hb Hbb Hvv].
  cbn [with_last_assigned pending_writes write_log snapshot_manager last_assigned_ts persistence_writes] in *.
  constructor; cbn [with_queue with_pending with_last_assigned pending_writes write_log snapshot_manager last_assigned_ts persistence_writes]; try done.
  - apply BTreeMap.wf_app; [done|split; [by intros ? ?%elem_of_nil|done]|].
    intros e1 e2 He1 ->%list_elem_of_singleton. apply Z_olt. by apply Hlt.
  - intros e [He| ->%list_elem_of_singleton]%elem_of_app; [by apply Hpen|]. cbn [fst]. lia.
  - unfold commits_in in *. rewrite filter_map_app, map_app, Hq. cbn [filter_map map fst]. by rewrite Hpw.
  - unfold bumps_in in *. rewrite filter_map_app. cbn [filter_map]. by rewrite app_nil_r.
  - intros b. unfold bumps_in in *. rewrite filter_map_app. cbn [filter_map]. rewrite app_nil_r. intros Hin.
    destruct (Hbb b Hin) as [Hb1 Hb2]. split; [done|]. intros e [He| ->%list_elem_of_singleton]%elem_of_app; [by apply Hb2|]. cbn [fst].
    assert (b <= last_assigned_ts self); [|lia]. by apply (ok_bumps_bound self Hok).
Qed.

Lemma bump_max_repeatable_ts_ok self now self' :
  committer_ok self -> clock_ok now -> bump_max_repeatable_ts self now = Ret self' -> committer_ok self'.
Proof.
  intros Hok Hnow. unfold bump_max_repeatable_ts, next_max_repeatable_ts.
  assert (Hadd : forall s b, committer_ok s -> persistence_writes s = persistence_writes self ->
    b <= last_assigned_ts s -> persisted_max_repeatable_ts (snapshot_manager s) <= b ->
    (forall e, e ∈ pending_writes s -> b < e.1) -> (forall y, y ∈ bumps_in (persistence_writes s) -> y <= b) ->
    committer_ok (with_queue s (persistence_writes s ++ [MaxRepeatableTimestamp b]) false)).
  { intros s b [Hlog Hver Hlat Hper Hwf Hpen Hq Hb Hbb Hvv] _ Hle Hge Hlt Hall.
    constructor; cbn [with_queue pending_writes write_log snapshot_manager last_assigned_ts persistence_writes]; try done.
    - unfold commits_in in *. rewrite filter_map_app. cbn [filter_map]. by rewrite app_nil_r.
    - unfold bumps_in in *. rewrite filter_map_app. cbn [filter_map]. by apply nondecreasing_app.
    - intros x. unfold bumps_in in *. rewrite filter_map_app. cbn [filter_map].
      intros [Hx| ->%list_elem_of_singleton]%elem_of_app; [by apply Hbb|done]. }
  destruct (pending_writes self) as [|[t w] rest] eqn:Hp; cbn [min_ts].
  - pose proof (next_commit_ts_spec self now Hok Hnow) as Hn.
    destruct (next_commit_ts self now) as [[s1 ts]| |]; try done. destruct Hn as (-> & Hmax & Hlast & Hv). intros [= <-].
    apply (Hadd (with_last_assigned self ts) ts); [apply with_last_assigned_ok; [done|lia|done]|done|cbn; lia| | |].
    + pose proof (ok_persisted self Hok). cbn [with_last_assigned snapshot_manager]. lia.
    + cbn [with_last_assigned pending_writes]. rewrite Hp. by intros e ?%elem_of_nil.
    + intros y Hy. destruct (ok_bumps_bound self Hok y Hy). lia.
  - cbn [fst]. unfold ensure. destruct (Z.leb_spec t (last_assigned_ts self)); [|done]. cbn [obind].
    destruct (ok_pending self Hok (t, w)) as [Ht1 Ht2]; [rewrite Hp; left|]. cbn [fst] in Ht1, Ht2.
    destruct (Timestamp.pred t) as [b| |] eqn:Hpred; [|done..]. cbn [lift obind]. intros [= <-].
    assert (Hb : b = t - 1).
    { revert Hpred. unfold Timestamp.pred, Timestamp.pred_opt, ok_or. destruct (t <=? Timestamp.MIN); [done|]. by intros [= <-]. }
    pose proof (ok_pending_wf self Hok) as Hwf. rewrite Hp in Hwf. destruct Hwf as [Hwf _].
    apply Hadd; [done|done|lia| | |].
    + pose proof (ok_persisted self Hok). lia.
    + rewrite Hp. intros e [->|He]%elem_of_cons; [cbn [fst]; lia|]. specialize (Hwf e He). apply (proj1 (Z_olt _ _)) in Hwf. lia.
    + intros y Hy. destruct (ok_bumps_bound self Hok y Hy) as [_ Hlt]. specialize (Hlt (t, w)). cbn [fst] in Hlt.
      assert (y < t); [|lia]. apply Hlt. rewrite Hp. left.
Qed.

Notation keys_of self writes snap :=
  (index_keys_from_full_documents sha256 tokenize parse_table_name (E := commit_error) writes (index_registry snap)
     tables_table_id refreshable_tables (refreshable_tablets self)).

Lemma latest_of_ts (m : SnapshotManager Snapshot) ts :
  versions_ok m -> latest_ts (E := False) m = Ret ts -> exists s, forall E, latest (E := E) m = Ret (ts, s).
Proof.
  intros Hok Hl. destruct (latest_Ret m Hok) as (t & s & Hlat & _). unfold latest_ts, omap in Hl. rewrite Hlat in Hl.
  injection Hl as ->. by exists s.
Qed.

(** Publishing the oldest commit in flight: the only thing that can go wrong
    is the computation of its index keys. *)
Lemma publish_commit_spec self v rest scheduled :
  committer_ok self -> 0 <= max_window -> persistence_writes self = Commit v :: rest ->
  exists writes source snap prest,
    pending_writes self = (pending_write v, (writes, source, snap)) :: prest /\
    match keys_of self writes snap with
    | Ret (ks, tablets) =>
        exists self', publish_commit (with_queue self rest scheduled) (pending_write v) = Ret self' /\ committer_ok self' /\
          pending_writes self' = prest /\
          log (write_log self') = {| by_ts := by_ts (log (write_log self)) ++ [(pending_write v, ks, source)];
                                     purged_ts := purged_ts (log (write_log self)) |} /\
          persistence_writes self' = rest /\ last_assigned_ts self' = last_assigned_ts self /\
          (forall E, latest (E := E) (snapshot_manager self') = Ret (pending_write v, snap))
    | Err e => publish_commit (with_queue self rest scheduled) (pending_write v) = Err e
    | Panic => publish_commit (with_queue self rest scheduled) (pending_write v) = Panic
    end.
Proof.
  intros Hok Hwin Hq0. destruct (Hok) as [Hlog Hver Hlat Hper Hwf Hpen Hq Hb Hbb [Hv1 Hv2]].
  rewrite Hq0 in Hq. cbn [commits_in filter_map] in Hq.
  destruct (pending_writes self) as [|[ts [[writes source] snap]] prest] eqn:Hp; [done|].
  injection Hq as Hts Hq. subst ts. exists writes, source, snap, prest. split; [done|].
  unfold publish_commit. cbn [with_queue pending_writes pop_first]. rewrite Hp. cbn [pop_first]. unfold rassert. rewrite Z.eqb_refl. cbn [obind].
  cbn [with_queue refreshable_tablets write_log snapshot_manager].
  destruct (keys_of self writes snap) as [[ks tablets]|e|]; cbn [obind]; [|done..].
  destruct (Hpen (pending_write v, (writes, source, snap))) as [Hlt Hle]; [left|]. cbn [fst] in Hlt, Hle.
  destruct (proj1 (append_spec is_closed (E := commit_error) (write_log self) (pending_write v) ks source Hlog) Hlt)
    as (log' & n & -> & Hl' & Hlok' & Hmax' & _). cbn [obind].
  destruct (latest_of_ts _ _ Hver (Hlat False)) as (sl & Hsl).
  destruct (push_spec max_window (snapshot_manager self) (pending_write v) _ sl Hver Hwin (Hsl False) snap Hlt)
    as (m' & Hm' & Hver' & Hlat' & Hper' & _). rewrite Hm'. cbn [obind].
  eexists. split; [done|]. cbn [pending_writes write_log persistence_writes snapshot_manager].
  split; [|split_and!; done]. destruct Hwf as [Hwf1 Hwf2].
  constructor; cbn [pending_writes write_log persistence_writes snapshot_manager last_assigned_ts]; try done.
  - intros E. unfold latest_ts, omap. rewrite Hlat'. cbn [obind fst]. by rewrite Hmax'.
  - rewrite Hper', Hmax'. lia.
  - intros e He. rewrite Hmax'. specialize (Hwf1 e He). apply (proj1 (Z_olt _ _)) in Hwf1. cbn [fst] in Hwf1. split; [lia|].
    apply Hpen. by right.
  - rewrite Hper'. rewrite Hq0 in Hb. exact Hb.
  - intros b Hin. rewrite Hq0 in Hbb. destruct (Hbb b Hin) as [? Hlt']. split; [done|]. intros e He. apply Hlt'. by right.
  - rewrite Hmax'. split; [|done]. unfold Timestamp.valid in *. lia.
Qed.

Lemma publish_max_spec self ts rest scheduled :
  committer_ok self -> 0 <= max_window -> persistence_writes self = MaxRepeatableTimestamp ts :: rest ->
  exists self', publish_max_repeatable_ts (with_queue self rest scheduled) ts = Ret self' /\ committer_ok self' /\
    pending_writes self' = pending_writes self /\ persistence_writes self' = rest /\
    last_assigned_ts self' = last_assigned_ts self /\
    persisted_max_repeatable_ts (snapshot_manager self') = ts /\
    (log (write_log self') = log (write_log self) \/
     log (write_log self') = {| by_ts := by_ts (log (write_log self)) ++ [(ts, [], Some BUMP_SOURCE)];
                                purged_ts := purged_ts (log (write_log self)) |}).
Proof.
  intros Hok Hwin Hq0. destruct (Hok) as [Hlog Hver Hlat Hper Hwf Hpen Hq Hb Hbb [Hv1 Hv2]].
  rewrite Hq0 in Hq, Hb, Hbb. cbn [commits_in filter_map] in Hq. cbn [bumps_in filter_map nondecreasing] in Hb. destruct Hb as [Hb1 Hb2].
  destruct (Hbb ts) as [Hts Hlt]; [left|].
  unfold publish_max_repeatable_ts, bump_persisted_max_repeatable_ts. cbn [with_queue snapshot_manager write_log].
  unfold ensure. rewrite (proj2 (Z.leb_le _ _) Hb1). cbn [obind].
  destruct (latest_of_ts _ _ Hver (Hlat False)) as (sl & Hsl).
  set (m := {| persisted_max_repeatable_ts := ts; versions := versions (snapshot_manager self) |}).
  assert (Hm : forall E, latest (E := E) m = Ret (max_ts (log (write_log self)), sl)) by exact Hsl.
  rewrite Hm. cbn [obind].
  destruct (Z.ltb_spec (max_ts (log (write_log self))) ts) as [Hlt0|Hge].
  - destruct (push_spec max_window m ts _ sl Hver Hwin (Hm False) sl Hlt0) as (m' & Hm' & Hver' & Hlat' & Hper' & _).
    rewrite Hm'. cbn [obind lift].
    destruct (proj1 (append_spec is_closed (E := commit_error) (write_log self) ts [] (Some BUMP_SOURCE) Hlog) Hlt0)
      as (log' & n & -> & Hl' & Hlok' & Hmax' & _). cbn [obind].
    eexists. split; [done|]. cbn [pending_writes write_log persistence_writes snapshot_manager].
    split; [|split_and!; [done|done|done|by rewrite Hper'|by right]].
    constructor; cbn [pending_writes write_log persistence_writes snapshot_manager last_assigned_ts with_queue]; try done.
    + intros E. unfold latest_ts, omap. rewrite Hlat'. cbn [obind fst]. by rewrite Hmax'.
    + rewrite Hper', Hmax'. cbn. lia.
    + intros e He. rewrite Hmax'. split; [by apply Hlt|by apply Hpen].
    + rewrite Hper'. exact Hb2.
    + intros b Hin. apply Hbb. by right.
    + rewrite Hmax'. split; [|done]. unfold Timestamp.valid in *. lia.
  - cbn [obind lift]. eexists. split; [done|]. cbn [pending_writes write_log persistence_writes snapshot_manager with_queue].
    split; [|split_and!; [done|done|done|done|by left]].
    constructor; cbn [pending_writes write_log persistence_writes snapshot_manager last_assigned_ts with_queue]; try done.
    intros b Hin. apply Hbb. by right.
Qed.

(** Rebasing the pending writes changes only their snapshots. *)
Definition forget (e : Z * (OrderedDocumentWrites * WriteSource * Snapshot)) : Z * (OrderedDocumentWrites * WriteSource) :=
  (e.1, e.2.1).

Lemma recompute_forget {E} f (p : Pending) : forall base p',
  recompute_pending_snapshots (E := E) f p base = Ret p' -> map forget p' = map forget p.
Proof.
  induction p as [|[ts [[w src] s]] p IH]; intros base p'; cbn [recompute_pending_snapshots]; [by intros [= <-]|].
  destruct (foldM _ base w) as [b| |]; try done. cbn [obind].
  destruct (recompute_pending_snapshots f p b) as [q| |] eqn:Hq; try done. cbn [obind]. intros [= <-].
  cbn [map]. by rewrite (IH b q Hq).
Qed.

Lemma wf_keys {V W} (p : BTreeMap.t Z V) (q : BTreeMap.t Z W) : map fst p = map fst q -> BTreeMap.wf p -> BTreeMap.wf q.
Proof.
  revert q. induction p as [|[k v] p IH]; intros [|[k' w] q]; try done. cbn [map fst]. intros [= -> Heq] [Hlt Hwf].
  split; [|by apply IH]. intros e He. assert (Hin : e.1 ∈ map fst p) by (rewrite Heq; by apply list_elem_of_fmap_2).
  apply list_elem_of_fmap in Hin as (x & Hx & Hin). rewrite Hx. by apply Hlt.
Qed.

Lemma forget_fst (p q : Pending) : map forget p = map forget q -> map fst p = map fst q.
Proof.
  intros Heq. assert (forall l : Pending, map fst l = map fst (map forget l)) as Hf by (intros l; by rewrite map_map).
  by rewrite !Hf, Heq.
Qed.

Lemma overwrite_ok {E} self s m p :
  committer_ok self -> overwrite_last (E := E) from_document (snapshot_manager self) (pending_writes self) s = Ret (m, p) ->
  committer_ok (with_snapshots self m p) /\ map forget p = map forget (pending_writes self).
Proof.
  intros Hok. unfold overwrite_last, set_last. destruct (Hok) as [Hlog Hver Hlat Hper Hwf Hpen Hq Hb Hbb Hv].
  destruct (latest_of_ts _ _ Hver (Hlat False)) as (sl & Hsl). rewrite Hsl. cbn [obind].
  destruct (recompute_pending_snapshots (snapshot_update_opt from_document) (pending_writes self) s) as [q| |] eqn:Hr; try done.
  cbn [obind]. intros [= <- <-]. apply recompute_forget in Hr. split; [|done].
  pose proof (forget_fst _ _ Hr) as Hfst.
  assert (Hin : forall e, e ∈ q -> exists e', e' ∈ pending_writes self /\ e'.1 = e.1).
  { intros e He. assert (Hk : e.1 ∈ map fst (pending_writes self)) by (rewrite <- Hfst; by apply list_elem_of_fmap_2).
    apply list_elem_of_fmap in Hk as (x & Hx & Hin). by exists x. }
  constructor; cbn [with_snapshots pending_writes write_log persistence_writes snapshot_manager last_assigned_ts versions persisted_max_repeatable_ts]; try done.
  - split; cbn [versions]; [|by destruct (removelast (versions (snapshot_manager self)))].
    destruct (latest_Ret _ Hver) as (tl & s' & Hl' & Hlast & _). specialize (Hl' False). rewrite Hsl in Hl'.
    injection Hl' as <- <-. apply last_Some in Hlast as [l Hl]. destruct Hver as [Hi _]. rewrite Hl in *.
    rewrite removelast_last. apply increasing_app in Hi as (Hi1 & _ & Hi3). apply increasing_app. split_and!; [done| |].
    + split; [by intros ? ?%elem_of_nil|done].
    + intros v w Hv' ->%list_elem_of_singleton. cbn [fst]. apply (Hi3 v (max_ts (log (write_log self)), sl) Hv'). left.
  - intros E'. unfold latest_ts, latest, omap. cbn [versions]. by rewrite last_snoc.
  - by eapply wf_keys.
  - intros e He. destruct (Hin e He) as (e' & He' & <-). by apply Hpen.
  - by rewrite Hfst.
  - intros b Hbin. destruct (Hbb b Hbin) as [? Hlt]. split; [done|]. intros e He. destruct (Hin e He) as (e' & He' & <-). by apply Hlt.
Qed.

(** ** Runs and their commits *)

Definition event_ok (e : Event) : Prop :=
  match e with
  | BumpTimer now => clock_ok now
  | CommitMessage tx _ now => clock_ok now /\ Timestamp.valid (begin_timestamp tx)
  | _ => True
  end.

Lemma handle_ok self e self' r :
  0 <= max_window -> committer_ok self -> event_ok e -> handle self e = Ret (self', r) -> committer_ok self'.
Proof.
  intros Hwin Hok He. destruct e as [now| | |tx source now|res|res|res]; cbn [handle event_ok] in *.
  - destruct (bump_scheduled self); [|by intros [= <- <-]].
    destruct (bump_max_repeatable_ts self now) as [s1| |] eqn:Hb; try done. cbn [obind]. intros [= <- <-].
    by eapply bump_max_repeatable_ts_ok.
  - destruct (persistence_writes self) as [|[v|ts] rest] eqn:Hq; [by intros [= <- <-]| |].
    + destruct (publish_commit_spec self v rest (bump_scheduled self) Hok Hwin Hq) as (w & src & snap & pr & _ & Hp).
      destruct (keys_of self w snap) as [[ks t]| |].
      * destruct Hp as (s1 & -> & Hok1 & _). cbn [obind]. by intros [= <- <-].
      * by rewrite Hp.
      * by rewrite Hp.
    + destruct (publish_max_spec self ts rest (bump_scheduled self) Hok Hwin Hq) as (s1 & -> & Hok1 & _). cbn [obind].
      intros [= <- <-]. destruct Hok1. by constructor.
  - destruct (persistence_writes self); [by intros [= <- <-]|done].
  - destruct He as [He _]. by apply start_commit_ok.
  - unfold respond. destruct (obind res _) as [[m p]|e|] eqn:Hr; [|by intros [= <- <-]|done]. intros [= <- <-].
    destruct res as [[t v]| |]; try done. cbn [obind] in Hr. unfold overwrite_last_snapshot_text_and_vector_indexes in Hr.
    destruct (latest (snapshot_manager self)) as [[? ?]| |]; try done. cbn [obind] in Hr. by apply overwrite_ok in Hr as [? _].
  - unfold respond. destruct (obind res _) as [[m p]|e|] eqn:Hr; [|by intros [= <- <-]|done]. intros [= <- <-].
    destruct res as [t| |]; try done. cbn [obind] in Hr. unfold overwrite_last_snapshot_table_summary in Hr.
    destruct (latest (snapshot_manager self)) as [[? ?]| |]; try done. cbn [obind] in Hr.
    destruct (table_summaries_new t _); try done. cbn [part obind] in Hr.
    destruct (overwrite_last _ _ _ _) as [[m' p']| |] eqn:Ho; try done. cbn [lift] in Hr. injection Hr as <- <-.
    by apply overwrite_ok in Ho as [? _].
  - unfold respond. destruct (obind res _) as [[m p]|e|] eqn:Hr; [|by intros [= <- <-]|done]. intros [= <- <-].
    destruct res as [t| |]; try done. cbn [obind] in Hr. unfold overwrite_last_snapshot_in_memory_indexes in Hr.
    destruct (latest (snapshot_manager self)) as [[? ?]| |]; try done. cbn [obind] in Hr. by apply overwrite_ok in Hr as [? _].
Qed.

(** A commit the committer validated.  [c_registry] is the registry its index
    keys were computed with, once it is published. *)
Record CommitRecord := MkCommit {
  c_ts : Z;
  c_begin : Z;
  c_reads : Reads;
  c_writes : OrderedDocumentWrites;
  c_registry : option IndexRegistry;
}.

Definition validated (self : Committer) (tx : FinalTransaction) (source : WriteSource) (now : outcome ts_error Z)
    : list CommitRecord :=
  match tx_writes tx with
  | [] => []
  | _ =>
      match validate_commit self tx source now with
      | (self', Ret v) =>
          match last (pending_writes self') with
          | Some (_, (writes, _, _)) =>
              [{| c_ts := pending_write v; c_begin := begin_timestamp tx; c_reads := tx_reads tx;
                  c_writes := writes; c_registry := None |}]
          | None => []
          end
      | _ => []
      end
  end.

Definition mark (ts : Z) (reg : IndexRegistry) (c : CommitRecord) : CommitRecord :=
  if c_ts c =? ts
  then {| c_ts := c_ts c; c_begin := c_begin c; c_reads := c_reads c; c_writes := c_writes c; c_registry := Some reg |}
  else c.

Definition next_history (self : Committer) (e : Event) (h : list CommitRecord) : list CommitRecord :=
  match e with
  | CommitMessage tx source now => h ++ validated self tx source now
  | WriteCompleted =>
      match persistence_writes self, pending_writes self with
      | Commit _ :: _, (ts, (_, _, snap)) :: _ => map (mark ts (index_registry snap)) h
      | _, _ => h
      end
  | _ => h
  end.

Definition with_log (self : Committer) (l : WriteLogManager) : Committer :=
  {| pending_writes := pending_writes self; write_log := l; snapshot_manager := snapshot_manager self;
     last_assigned_ts := last_assigned_ts self; persistence_writes := persistence_writes self;
     refreshable_tablets := refreshable_tablets self; bump_scheduled := bump_scheduled self |}.

(** Runs of the committer, with the log owner trimming the shared log and
    readers waiting on it at any time. *)
Inductive run : Committer -> list CommitRecord -> Prop :=
| run_start ts s tablets : Timestamp.valid ts -> run (start ts s tablets) []
| run_event self h e self' r :
    run self h -> event_ok e -> handle self e = Ret (self', r) -> run self' (next_history self e h)
| run_log self h heap soft cutoff target ws :
    run self h ->
    run (with_log self {| log := trim heap soft cutoff target (by_ts (log (write_log self))) (purged_ts (log (write_log self)));
                          waiters := ws |}) h.

Lemma trim_max heap soft cutoff target l :
  log_ok l -> max_ts (trim heap soft cutoff target (by_ts l) (purged_ts l)) = max_ts l.
Proof.
  intros Hok. destruct (trim_spec heap soft cutoff target (by_ts l) (purged_ts l) Hok) as (dropped & Hl & _ & Hp & _).
  unfold max_ts. set (t := trim _ _ _ _ _ _) in *. rewrite Hl, last_app. destruct (last (by_ts t)) as [e|] eqn:He; [done|].
  rewrite Hp. by destruct (last dropped).
Qed.

Lemma with_log_ok self heap soft cutoff target ws :
  committer_ok self ->
  committer_ok (with_log self {| log := trim heap soft cutoff target (by_ts (log (write_log self))) (purged_ts (log (write_log self)));
                                 waiters := ws |}).
Proof.
  intros [Hlog Hver Hlat Hper Hwf Hpen Hq Hb Hbb Hv].
  destruct (trim_spec heap soft cutoff target _ _ Hlog) as (dropped & _ & Hok' & _).
  constructor; cbn [with_log write_log log pending_writes snapshot_manager last_assigned_ts persistence_writes];
    rewrite ?trim_max by done; done.
Qed.

Lemma run_ok self h : 0 <= max_window -> run self h -> committer_ok self.
Proof.
  intros Hwin. induction 1 as [ts s t Hv|self h e self' r _ IH He Hh|self h heap soft cutoff target ws _ IH].
  - by apply start_ok.
  - by eapply handle_ok.
  - by apply with_log_ok.
Qed.

(** *** Serializability of the validated commits *)

Definition no_overlap (reads : Reads) (w : ResolvedDocumentId * PackedDocumentUpdate) : Prop :=
  overlap_doc sha256 tokenize (E := log_error) reads (new_document w.2) = Ret None /\
  overlap_doc sha256 tokenize (E := log_error) reads (old_document w.2) = Ret None.

(** No write of [d] touches a read of [c], provided the documents are
    storable and the indexes [c] read are the ones [d]'s keys are for. *)
Definition serial_pair (c d : CommitRecord) : Prop :=
  read_set_ok (c_reads c) -> Forall update_good (c_writes d) ->
  (forall reg, c_registry d = Some reg -> registry_ok reg /\ reads_registered (c_reads c) reg) ->
  forall w, w ∈ c_writes d -> no_overlap (c_reads c) w.

(** Where a validated commit is: pending, or published and, unless trimmed,
    in the log with its index keys. *)
Definition located (self : Committer) (c : CommitRecord) : Prop :=
  match c_registry c with
  | None => exists source snap, (c_ts c, (c_writes c, source, snap)) ∈ pending_writes self
  | Some reg =>
      c_ts c <= max_ts (log (write_log self)) /\
      (purged_ts (log (write_log self)) < c_ts c ->
       exists ks source tablets tablets', (c_ts c, ks, source) ∈ by_ts (log (write_log self)) /\
         index_keys_from_full_documents sha256 tokenize parse_table_name (E := commit_error) (c_writes c) reg
           tables_table_id refreshable_tables tablets = Ret (ks, tablets'))
  end.

Record history_ok (self : Committer) (h : list CommitRecord) : Prop := {
  h_sorted : StronglySorted (fun c d => c_ts c < c_ts d) h;
  h_bound : forall c, c ∈ h -> c_begin c < c_ts c <= last_assigned_ts self;
  h_located : forall c, c ∈ h -> located self c;
  h_serial : forall c d, c ∈ h -> d ∈ h -> c_begin c < c_ts d < c_ts c -> serial_pair c d;
}.

Lemma writes_overlap_docs_None reads updates :
  writes_overlap_docs sha256 tokenize (E := log_error) reads updates = Ret None ->
  forall e w, e ∈ updates -> w ∈ e.1.2 -> no_overlap reads w.
Proof.
  unfold writes_overlap_docs. intros Hn e w He Hw. induction updates as [|[[ts ws] src] updates IH]; [by apply elem_of_nil in He|].
  cbn [first_someM] in Hn. destruct (first_someM _ ws) as [[c|]| |] eqn:Hf; try done. cbn [obind] in Hn.
  apply elem_of_cons in He as [->|He]; [|by apply IH]. clear IH Hn. cbn [fst snd] in Hw.
  induction ws as [|[i u] ws IH]; [by apply elem_of_nil in Hw|]. cbn [first_someM] in Hf.
  destruct (overlap_doc sha256 tokenize reads (new_document u)) as [[c|]| |] eqn:Hnew; try done. cbn [obind] in Hf.
  destruct (overlap_doc sha256 tokenize reads (old_document u)) as [[c|]| |] eqn:Hold; try done. cbn [obind option_map] in Hf.
  apply elem_of_cons in Hw as [->|Hw]; [done|by apply IH].
Qed.

Lemma pending_is_stale_None p reads reads_ts ts :
  pending_is_stale sha256 tokenize (Snapshot := Snapshot) p reads reads_ts ts = Ret None -> Timestamp.valid reads_ts ->
  reads_ts < ts /\
  forall t writes source snap, (t, (writes, source, snap)) ∈ p -> reads_ts < t <= ts -> forall w, w ∈ writes -> no_overlap reads w.
Proof.
  unfold pending_is_stale. intros Hst Hv. pose proof (succ_spec reads_ts Hv) as Hs.
  destruct (Timestamp.succ reads_ts) as [from| |]; try done. destruct Hs as [-> _]. cbn [lift_ts obind] in Hst.
  unfold pending_iter, rassert in Hst. destruct (Z.leb_spec (reads_ts + 1) ts); [|done]. cbn [obind] in Hst.
  split; [lia|]. intros t writes source snap Hin Ht w Hw.
  apply (writes_overlap_docs_None _ _ Hst (t, writes, source) w); [|done].
  apply list_elem_of_fmap. exists (t, (writes, source, snap)). split; [done|]. unfold BTreeMap.range_incl.
  apply elem_of_bfilter. split; [done|]. cbn [fst]. apply andb_true_iff. rewrite !leb_le, !Z_ole. lia.
Qed.

(** A published commit that the log does not report conflicting has no
    overlapping write. *)
Lemma logged_no_overlap reads reg (c : CommitRecord) ks source tablets tablets' :
  read_set_ok reads -> registry_ok reg -> reads_registered reads reg -> Forall update_good (c_writes c) ->
  index_keys_from_full_documents sha256 tokenize parse_table_name (E := commit_error) (c_writes c) reg
    tables_table_id refreshable_tables tablets = Ret (ks, tablets') ->
  ~ entry_conflicts reads (c_ts c, ks, source) ->
  forall w, w ∈ c_writes c -> no_overlap reads w.
Proof.
  intros Hr Hreg Hrr Hgood Hks Hnc w Hw.
  destruct (index_keys_ret (M := M) (Trace := Trace) sha256 tokenize parse_table_name reg tables_table_id refreshable_tables
    (c_writes c) [] tablets Hreg Hgood) as (ks' & t' & Hks' & Hsame).
  unfold index_keys_from_full_documents in Hks. rewrite Hks' in Hks. injection Hks as <- <-.
  specialize (Hsame reads Hr Hrr). apply list_elem_of_lookup in Hw as [j Hj].
  destruct (Forall2_lookup_l _ _ _ _ _ Hsame Hj) as (k & Hk & Hid & Hn & Ho).
  assert (Hnone : ~ write_conflicts reads k).
  { intros Hc. apply Hnc. exists k. split; [|done]. cbn [fst snd]. by eapply list_elem_of_lookup_2. }
  unfold write_conflicts in Hnone. unfold no_overlap. rewrite Hn, Ho.
  destruct (overlap_keys reads k.1.1 (new_document_keys k.1.2)); [exfalso; apply Hnone; by left|].
  destruct (overlap_keys reads k.1.1 (old_document_keys k.1.2)); [exfalso; apply Hnone; by right|done].
Qed.

(** What a successful validation establishes. *)
Lemma validated_serial self h ts reads begin :
  history_ok self h -> committer_ok self -> Timestamp.valid begin ->
  commit_has_conflict self reads begin ts = Ret None ->
  begin < ts /\
  forall writes reg d, d ∈ h -> c_ts d <= ts -> begin < c_ts d -> serial_pair (MkCommit ts begin reads writes reg) d.
Proof.
  intros Hh Hok Hv Hc. unfold commit_has_conflict in Hc.
  pose proof (is_stale_spec (log (write_log self)) reads begin ts (ok_log self Hok) Hv) as Hs.
  destruct (is_stale (log (write_log self)) reads begin ts) as [[c|]| |]; try done. cbn [lift obind] in Hc.
  destruct Hs as [Hpurged Hnc].
  destruct (pending_is_stale sha256 tokenize (pending_writes self) reads begin ts) as [[c|]| |] eqn:Hp; try done.
  apply pending_is_stale_None in Hp as [Hlt Hpend]; [|done]. split; [done|].
  intros writes reg d Hd Hle Hgt Hr Hgood Hcompat w Hw. cbn [c_reads] in *.
  pose proof (h_located self h Hh d Hd) as Hloc. unfold located in Hloc. destruct (c_registry d) as [reg'|].
  - destruct Hloc as [_ Hloc]. destruct Hloc as (ks & source & t & t' & Hin & Hks); [lia|].
    destruct (Hcompat reg' eq_refl) as [Hreg Hrr].
    apply (logged_no_overlap reads reg' d ks source t t'); try done. apply Hnc; [done|]. unfold entry_ts. cbn [fst]. lia.
  - destruct Hloc as (source & snap & Hin). by apply (Hpend (c_ts d) (c_writes d) source snap).
Qed.

Lemma history_mono self self' h :
  history_ok self h -> last_assigned_ts self <= last_assigned_ts self' ->
  (forall t w src snap, (t, (w, src, snap)) ∈ pending_writes self -> exists src' snap', (t, (w, src', snap')) ∈ pending_writes self') ->
  max_ts (log (write_log self)) <= max_ts (log (write_log self')) ->
  purged_ts (log (write_log self)) <= purged_ts (log (write_log self')) ->
  (forall e, e ∈ by_ts (log (write_log self)) -> purged_ts (log (write_log self')) < entry_ts e -> e ∈ by_ts (log (write_log self'))) ->
  history_ok self' h.
Proof.
  intros [Hs Hb Hl Hser] Hlast Hp Hmax Hpur Hlog. constructor; [done| | |done].
  - intros c Hc. specialize (Hb c Hc). lia.
  - intros c Hc. specialize (Hl c Hc). unfold located in *. destruct (c_registry c) as [reg|].
    + destruct Hl as [Hle Hin]. split; [lia|]. intros Hgt. destruct Hin as (ks & src & t & t' & He & Hk); [lia|].
      exists ks, src, t, t'. split; [|done]. by apply Hlog.
    + destruct Hl as (src & snap & Hin). by eapply Hp.
Qed.

Lemma start_commit_shape self tx source now self' r :
  committer_ok self -> clock_ok now -> start_commit self tx source now = Ret (self', r) ->
  write_log self' = write_log self /\ last_assigned_ts self <= last_assigned_ts self' /\
  ((pending_writes self' = pending_writes self /\ validated self tx source now = []) \/
   exists ts writes snap,
     pending_writes self' = pending_writes self ++ [(ts, (writes, source, snap))] /\ (last_assigned_ts self < ts /\ ts = last_assigned_ts self') /\
     commit_has_conflict self (tx_reads tx) (begin_timestamp tx) ts = Ret None /\
     validated self tx source now = [MkCommit ts (begin_timestamp tx) (tx_reads tx) writes None]).
Proof.
  intros Hok Hnow. unfold start_commit, validated, validate_commit.
  destruct (tx_writes tx) as [|u us]; [intros [= <- <-]; split; [done|]; split; [lia|by left]|].
  pose proof (next_commit_ts_spec self now Hok Hnow) as Hn.
  destruct (next_commit_ts self now) as [[s1 ts]| |]; [|intros [= <- <-]; split; [done|]; split; [lia|by left]|done].
  destruct Hn as (-> & Hmax & Hlast & Hv).
  assert (Hok1 : committer_ok (with_last_assigned self ts)) by (apply with_last_assigned_ok; [done|lia|done]).
  destruct (validate_at (with_last_assigned self ts) ts tx source) as [[s2 v]| |] eqn:Hva;
    [|intros [= <- <-]; split; [done|]; split; [cbn; lia|by left]|done].
  intros [= <- <-]. apply validate_at_Ret in Hva as (ordered & s & _ & Hc & -> & Hpw & Hlt); [|done].
  split; [done|]. split; [cbn; lia|]. right. exists ts, (map (fun u => (up_id u, pack u)) ordered), s.
  split; [done|]. split; [cbn; lia|]. split; [exact Hc|]. cbn [with_pending pending_writes]. rewrite last_snoc. by rewrite Hpw.
Qed.

Lemma StronglySorted_snoc {A} (R : A -> A -> Prop) l x :
  StronglySorted R l -> (forall y, y ∈ l -> R y x) -> StronglySorted R (l ++ [x]).
Proof.
  induction 1 as [|y l Hl IH Hy]; intros Hx; [repeat constructor|]. cbn [app]. constructor.
  - apply IH. intros z Hz. apply Hx. by right.
  - apply Forall_app. split; [done|]. constructor; [|done]. apply Hx. left.
Qed.

Lemma commit_history self tx source now self' r h :
  committer_ok self -> history_ok self h -> clock_ok now -> Timestamp.valid (begin_timestamp tx) ->
  start_commit self tx source now = Ret (self', r) -> history_ok self' (h ++ validated self tx source now).
Proof.
  intros Hok Hh Hnow Hbeg Hst.
  destruct (start_commit_shape self tx source now self' r Hok Hnow Hst) as (Hlog & Hlast & [[Hp ->]|(ts & ws & snap & Hp & [Hlt Heq] & Hc & ->)]).
  { rewrite app_nil_r. apply (history_mono self); [done|lia|rewrite Hp; eauto|by rewrite Hlog..]. }
  destruct (validated_serial self h ts (tx_reads tx) (begin_timestamp tx) Hh Hok Hbeg Hc) as [Hbt Hser].
  assert (Hmono : history_ok self' h).
  { apply (history_mono self); [done|lia| |by rewrite Hlog..]. rewrite Hp. intros t w src sn Hin. exists src, sn.
    apply elem_of_app. by left. }
  assert (Hlts : forall c, c ∈ h -> c_ts c < ts) by (intros c Hc'; destruct (h_bound self h Hh c Hc'); lia).
  destruct Hmono as [Hs Hb Hl Hs']. constructor.
  - apply StronglySorted_snoc; [done|]. intros y Hy. by apply Hlts.
  - intros c [Hc'| ->%list_elem_of_singleton]%elem_of_app; [by apply Hb|]. cbn [c_begin c_ts]. lia.
  - intros c [Hc'| ->%list_elem_of_singleton]%elem_of_app; [by apply Hl|]. unfold located. cbn [c_registry c_ts c_writes].
    rewrite Hp. exists source, snap. apply elem_of_app. right. left.
  - intros c d [Hc'| ->%list_elem_of_singleton]%elem_of_app [Hd| ->%list_elem_of_singleton]%elem_of_app Hr.
    + by apply Hs'.
    + cbn [c_ts] in Hr. specialize (Hlts c Hc'). lia.
    + cbn [c_ts c_begin] in Hr. apply Hser; [done|lia|lia].
    + cbn [c_ts] in Hr. lia.
Qed.

Lemma max_ts_append l e : max_ts {| by_ts := by_ts l ++ [e]; purged_ts := purged_ts l |} = entry_ts e.
Proof. unfold max_ts. cbn [by_ts]. by rewrite last_snoc. Qed.

Lemma mark_fields ts reg c :
  c_ts (mark ts reg c) = c_ts c /\ c_begin (mark ts reg c) = c_begin c /\ c_reads (mark ts reg c) = c_reads c /\
  c_writes (mark ts reg c) = c_writes c.
Proof. unfold mark. by destruct (c_ts c =? ts). Qed.

Lemma publish_history self v rest scheduled h self' ts writes source snap prest :
  committer_ok self -> 0 <= max_window -> history_ok self h -> persistence_writes self = Commit v :: rest ->
  pending_writes self = (ts, (writes, source, snap)) :: prest ->
  publish_commit (with_queue self rest scheduled) (pending_write v) = Ret self' ->
  history_ok self' (map (mark ts (index_registry snap)) h).
Proof.
  intros Hok Hwin Hh Hq Hp Hpub.
  destruct (publish_commit_spec self v rest scheduled Hok Hwin Hq) as (w' & src' & sn' & pr' & Hp' & Hspec).
  rewrite Hp in Hp'. injection Hp' as -> <- <- <- <-.
  destruct (keys_of self writes snap) as [[ks tablets]| |] eqn:Hks; [|congruence..].
  destruct Hspec as (s1 & Hpub' & Hok1 & Hp1 & Hl1 & _ & Hla1 & _). rewrite Hpub in Hpub'. injection Hpub' as <-.
  assert (Hmax : max_ts (log (write_log self')) = pending_write v) by (rewrite Hl1; apply max_ts_append).
  assert (Hlt : max_ts (log (write_log self)) < pending_write v).
  { apply (ok_pending self Hok (pending_write v, (writes, source, snap))). rewrite Hp. left. }
  destruct Hh as [Hs Hb Hl Hser].
  assert (Hmarked : forall c, c ∈ map (mark (pending_write v) (index_registry snap)) h ->
    exists c0, c0 ∈ h /\ c = mark (pending_write v) (index_registry snap) c0).
  { intros c Hc. apply list_elem_of_fmap in Hc as (c0 & -> & Hc0). eauto. }
  constructor.
  - clear -Hs. induction Hs as [|c h _ IH Hc]; [constructor|]. cbn [map]. constructor; [done|].
    apply Forall_map. eapply Forall_impl; [exact Hc|]. intros d Hd. cbn.
    destruct (mark_fields (pending_write v) (index_registry snap) c) as (-> & _).
    by destruct (mark_fields (pending_write v) (index_registry snap) d) as (-> & _).
  - intros c Hc. destruct (Hmarked c Hc) as (c0 & Hc0 & ->).
    destruct (mark_fields (pending_write v) (index_registry snap) c0) as (-> & -> & _). rewrite Hla1. by apply Hb.
  - intros c Hc. destruct (Hmarked c Hc) as (c0 & Hc0 & ->). specialize (Hl c0 Hc0). unfold located, mark in *.
    destruct (Z.eqb_spec (c_ts c0) (pending_write v)) as [Heq|Hne].
    + cbn [c_registry c_ts c_writes]. rewrite Hmax. split; [lia|]. intros _.
      assert (Hw : c_writes c0 = writes).
      { destruct (c_registry c0) as [reg|]; [destruct Hl; lia|]. destruct Hl as (src & sn & Hin). rewrite Heq in Hin.
        pose proof (ok_pending_wf self Hok) as Hwf.
        assert (Hin' : (pending_write v, (writes, source, snap)) ∈ pending_writes self) by (rewrite Hp; left).
        pose proof (BTreeMap.wf_unique _ _ _ _ Hwf Hin Hin') as Hu. by injection Hu as -> _ _. }
      rewrite Hw, Heq. exists ks, source, (refreshable_tablets self), tablets. split; [|exact Hks]. rewrite Hl1. cbn [by_ts].
      apply elem_of_app. right. left.
    + destruct (c_registry c0) as [reg|].
      * destruct Hl as [Hle Hin]. split; [lia|]. rewrite Hl1. cbn [purged_ts by_ts]. intros Hgt.
        destruct (Hin Hgt) as (k & src & t & t' & He & Hk). exists k, src, t, t'. split; [|done]. apply elem_of_app. by left.
      * destruct Hl as (src & sn & Hin). exists src, sn. rewrite Hp1. rewrite Hp in Hin. apply elem_of_cons in Hin as [[=]|?]; done.
  - intros c d Hc Hd. destruct (Hmarked c Hc) as (c0 & Hc0 & ->), (Hmarked d Hd) as (d0 & Hd0 & ->).
    destruct (mark_fields (pending_write v) (index_registry snap) c0) as (-> & -> & Hrc & _).
    destruct (mark_fields (pending_write v) (index_registry snap) d0) as (-> & _ & _ & Hwd).
    intros Hr. specialize (Hser c0 d0 Hc0 Hd0 Hr). unfold serial_pair in *. rewrite Hrc, Hwd. intros H1 H2 H3.
    apply Hser; [done..|]. intros reg Hreg. apply H3. specialize (Hl d0 Hd0). unfold located in Hl. rewrite Hreg in Hl.
    unfold mark. destruct (Z.eqb_spec (c_ts d0) (pending_write v)); [|done]. destruct Hl. lia.
Qed.

Lemma bump_shape self now self' :
  committer_ok self -> clock_ok now -> bump_max_repeatable_ts self now = Ret self' ->
  pending_writes self' = pending_writes self /\ write_log self' = write_log self /\ last_assigned_ts self <= last_assigned_ts self'.
Proof.
  intros Hok Hnow. unfold bump_max_repeatable_ts, next_max_repeatable_ts. destruct (min_ts (pending_writes self)) as [m|].
  - destruct (ensure _ _); try done. cbn [obind]. destruct (lift CommitTs (Timestamp.pred m)); try done. cbn [obind].
    intros [= <-]. cbn. split_and!; [done|done|lia].
  - pose proof (next_commit_ts_spec self now Hok Hnow) as Hn. destruct (next_commit_ts self now) as [[s1 ts]| |]; try done.
    destruct Hn as (-> & _ & Hlt & _). intros [= <-]. cbn. split_and!; [done|done|lia].
Qed.

Lemma overwrite_history {E} self s m p h :
  committer_ok self -> history_ok self h ->
  overwrite_last (E := E) from_document (snapshot_manager self) (pending_writes self) s = Ret (m, p) ->
  history_ok (with_snapshots self m p) h.
Proof.
  intros Hok Hh Ho. destruct (overwrite_ok self s m p Hok Ho) as [_ Hf].
  apply (history_mono self); [done|cbn; lia| |cbn; lia..|done]. cbn [with_snapshots pending_writes]. intros t w src snap Hin.
  assert (Hin' : (t, (w, src)) ∈ map forget p) by (rewrite Hf; by apply (list_elem_of_fmap_2 forget _ (t, (w, src, snap)))).
  apply list_elem_of_fmap in Hin' as ([t' [[w' src'] snap']] & [= -> -> ->] & Hin'). eauto.
Qed.

Lemma handle_history self e self' r h :
  0 <= max_window -> committer_ok self -> history_ok self h -> event_ok e -> handle self e = Ret (self', r) ->
  history_ok self' (next_history self e h).
Proof.
  intros Hwin Hok Hh He. destruct e as [now| | |tx source now|res|res|res]; cbn [handle event_ok next_history] in *.
  - destruct (bump_scheduled self); [|by intros [= <- <-]].
    destruct (bump_max_repeatable_ts self now) as [s1| |] eqn:Hb; try done. cbn [obind]. intros [= <- <-].
    destruct (bump_shape self now s1 Hok He Hb) as (Hp & Hl & Hla).
    apply (history_mono self); [done|done|rewrite Hp; eauto|by rewrite Hl..].
  - destruct (persistence_writes self) as [|[v|ts] rest] eqn:Hq; [by intros [= <- <-]| |].
    + destruct (pending_writes self) as [|[ts [[w src] snap]] pr] eqn:Hp.
      { pose proof (ok_queue self Hok) as Hq'. by rewrite Hq, Hp in Hq'. }
      destruct (publish_commit _ _) as [s1| |] eqn:Hpub; try done. cbn [obind]. intros [= <- <-].
      by eapply publish_history.
    + destruct (publish_max_spec self ts rest (bump_scheduled self) Hok Hwin Hq) as (s1 & -> & Hok1 & Hp1 & _ & Hla & _ & Hl).
      cbn [obind]. intros [= <- <-]. apply (history_mono self); cbn [with_queue pending_writes write_log last_assigned_ts];
        [done|lia|rewrite Hp1; eauto| | |].
      * destruct Hl as [->|Hl]; [lia|]. pose proof (ok_latest _ Hok1 False) as Hlat. rewrite Hl, max_ts_append. unfold entry_ts. cbn [fst].
        pose proof (ok_log s1 Hok1) as Hlok. rewrite Hl in Hlok. unfold log_ok in Hlok. cbn [purged_ts by_ts] in Hlok.
        apply ascending_app in Hlok as [_ [Hlt _]]. unfold max_ts. destruct (last (by_ts (log (write_log self)))); unfold entry_ts in *; cbn [fst] in *; lia.
      * destruct Hl as [->|Hl]; [lia|]. rewrite Hl. cbn. lia.
      * destruct Hl as [->|Hl]; [done|]. rewrite Hl. cbn [by_ts purged_ts]. intros e He' _. apply elem_of_app. by left.
  - destruct (persistence_writes self); [by intros [= <- <-]|done].
  - destruct He as [He Hbeg]. by apply commit_history.
  - unfold respond. destruct (obind res _) as [[m p]|e|] eqn:Hr; [|by intros [= <- <-]|done]. intros [= <- <-].
    destruct res as [[t v]| |]; try done. cbn [obind] in Hr. unfold overwrite_last_snapshot_text_and_vector_indexes in Hr.
    destruct (latest (snapshot_manager self)) as [[? ?]| |]; try done. cbn [obind] in Hr. by eapply overwrite_history.
  - unfold respond. destruct (obind res _) as [[m p]|e|] eqn:Hr; [|by intros [= <- <-]|done]. intros [= <- <-].
    destruct res as [t| |]; try done. cbn [obind] in Hr. unfold overwrite_last_snapshot_table_summary in Hr.
    destruct (latest (snapshot_manager self)) as [[? ?]| |]; try done. cbn [obind] in Hr.
    destruct (table_summaries_new t _); try done. cbn [part obind] in Hr.
    destruct (overwrite_last _ _ _ _) as [[m' p']| |] eqn:Ho; try done. cbn [lift] in Hr. injection Hr as <- <-.
    by eapply overwrite_history.
  - unfold respond. destruct (obind res _) as [[m p]|e|] eqn:Hr; [|by intros [= <- <-]|done]. intros [= <- <-].
    destruct res as [t| |]; try done. cbn [obind] in Hr. unfold overwrite_last_snapshot_in_memory_indexes in Hr.
    destruct (latest (snapshot_manager self)) as [[? ?]| |]; try done. cbn [obind] in Hr. by eapply overwrite_history.
Qed.

Lemma run_history self h : 0 <= max_window -> run self h -> committer_ok self /\ history_ok self h.
Proof.
  intros Hwin. induction 1 as [ts s t Hv|self h e self' r Hrun [IH1 IH2] He Hh|self h heap soft cutoff target ws Hrun [IH1 IH2]].
  - split; [by apply start_ok|]. constructor; [apply SSorted_nil|by intros c ?%elem_of_nil|by intros c ?%elem_of_nil|].
    by intros c d ?%elem_of_nil.
  - split; [by eapply handle_ok|by eapply handle_history].
  - split; [by apply with_log_ok|].
    destruct (trim_spec heap soft cutoff target _ _ (ok_log _ IH1)) as (dropped & Hl & Hok' & Hpur & _).
    apply (history_mono self); cbn [with_log write_log log pending_writes last_assigned_ts]; [done|lia|eauto| | |].
    + rewrite trim_max by apply IH1. lia.
    + rewrite Hpur. destruct (last dropped) as [e|] eqn:Hd; [|lia]. apply last_Some in Hd as [d ->].
      assert (purged_ts (log (write_log self)) < entry_ts e); [|lia]. apply (ascending_elem _ _ e (ok_log _ IH1)).
      rewrite Hl. apply elem_of_app. left. apply elem_of_app. right. left.
    + intros e He Hgt. rewrite Hl in He. apply elem_of_app in He as [He|He]; [|done]. exfalso. rewrite Hpur in Hgt.
      pose proof (ok_log _ IH1) as Hasc. unfold log_ok in Hasc. rewrite Hl in Hasc. apply ascending_app in Hasc as [Hasc _].
      pose proof (max_ts_ge (MkLog dropped (purged_ts (log (write_log self)))) e Hasc He) as Hge. unfold max_ts in Hge. cbn [by_ts purged_ts] in Hge.
      lia.
Qed.
End committer.
