(* ===== verification/SummaryBootstrap.v ===== *)
(** * SummaryBootstrap: computing the summaries of all tables
      (src/crates/database/src/table_summary.rs,
       src/crates/database/src/persistence_helpers.rs)

    [bootstrap] computes the summaries at a timestamp: from a stored checkpoint,
    or from the documents of every table at a recent timestamp, it walks the log
    of revisions forwards or backwards.  The documents of a table and the log
    are what the persistence layer returns, arguments here. *)

From S2P Require Import Prelude Ord BTreeMap Timestamp Identifier Value Sorting SortingDecode Base32 IdV6 Interval Document TableMapping IndexRegistry IndexUpdates Validator Shape ShapeInference ShapeMultiset ShapeHistory SchemaRegistry TableSummaries Committer.

Local Open Scope Z_scope.

#[local] Existing Instance ProdConfig.

(** ** Revisions *)

Record DocumentRevision := MkRev { rev_ts : Z; rev_document : option ConvexObject }.

(** [RevisionPair]; the id as an [InternalDocumentId]. *)
Record RevisionPair := MkPair { rp_id : ResolvedDocumentId; rp_rev : DocumentRevision; rp_prev_rev : option DocumentRevision }.

Definition rp_ts (self : RevisionPair) : Z := rev_ts (rp_rev self).
Definition rp_document (self : RevisionPair) : option ConvexObject := rev_document (rp_rev self).
Definition rp_prev_document (self : RevisionPair) : option ConvexObject :=
  match rp_prev_rev self with Some r => rev_document r | None => None end.

Definition time_reverse_revision_pair (revision_pair : RevisionPair) : RevisionPair :=
  MkPair (rp_id revision_pair) (MkRev (rev_ts (rp_rev revision_pair)) (rp_prev_document revision_pair))
    (option_map (fun doc => MkRev MAX (Some doc)) (rev_document (rp_rev revision_pair))).

Notation Tables := (BTreeMap.t (list Z) TableSummary).

Section bootstrap.
(** [ParsedDocument<TableMetadata>]: name and state. *)
Context (parse_table : PackedDocument -> option (list Z * TableState)).

Definition as_document (i : ResolvedDocumentId) (o : ConvexObject) : PackedDocument := MkDoc (Object o) i.

(** ** The documents of a table *)

Definition collect_table_revisions (fuel : nat) (revisions : list ConvexObject) : outcome summary_error TableSummary :=
  foldM (fun summary rev => shape_part (summary_insert fuel summary rev)) summary_empty revisions.

(** [table_documents t]: the documents of a table at the timestamp of the
    mapping, [None] without an index by id. *)
Definition collect_snapshot (fuel : nat) (table_documents : list Z -> option (list ConvexObject)) (table_mapping : TableMapping) : outcome summary_error Tables :=
  foldM (fun snapshot (e : TabletId * TableNamespace * TableNumber * TableName) =>
    let tablet_id := e.1.1.1 in
    let? revision_stream := expect (table_documents tablet_id) in
    let? summary := collect_table_revisions fuel revision_stream in
    Ret (BTreeMap.insert tablet_id summary snapshot)) [] (mapping_iter table_mapping).

(** ** One revision *)

Definition reset_if_deleting (tables : Tables) (tablet_id : list Z) (i : ResolvedDocumentId) (new_doc : ConvexObject) : outcome summary_error Tables :=
  let? (_, state) := ok_or (parse_table (as_document i new_doc)) MalformedTable in
  match state with
  | Deleting =>
      match BTreeMap.get tablet_id tables with
      | Some summary => let? summary := shape_part (reset_shape summary) in Ret (BTreeMap.insert tablet_id summary tables)
      | None => Ret tables
      end
  | _ => Ret tables
  end.

Definition add_revision (fuel : nat) (table_mapping : BootstrapTableIds) (tables : Tables) (revision_pair : RevisionPair) : outcome summary_error Tables :=
  let i := rp_id revision_pair in
  let t := internal_id (developer_id i) in
  let? tables :=
    if bool_decide (tables_id table_mapping = tablet_id i) then
      let tables :=
        match rp_prev_document revision_pair, rp_document revision_pair with
        | None, Some _ => match BTreeMap.get t tables with Some _ => tables | None => BTreeMap.insert t summary_empty tables end
        | Some _, None => BTreeMap.remove t tables
        | _, _ => tables
        end in
      match rp_document revision_pair with
      | Some new_doc => reset_if_deleting tables t i new_doc
      | None => Ret tables
      end
    else Ret tables in
  let summary := default summary_empty (BTreeMap.get (tablet_id i) tables) in
  let? summary := change_summary fuel summary (rp_prev_document revision_pair) (rp_document revision_pair) in
  Ret (BTreeMap.insert (tablet_id i) summary tables).

(** ** Walking the log *)

(** The sort of [TransactionRevisions::new]: stable, and the key function is not
    called for fewer than two revisions. *)
Definition sort_pairs {E} (bootstrap_tables : BootstrapTableIds) (revision_pairs : list RevisionPair) : outcome E (list RevisionPair) :=
  match revision_pairs with
  | [] | [_] => Ret revision_pairs
  | _ =>
      let? keyed := mapM (fun p =>
        let? k := table_dependency_sort_key parse_table bootstrap_tables (rp_id p) (option_map (as_document (rp_id p)) (rp_document p)) in Ret (k, p)) revision_pairs in
      Ret (map snd (fold_left (fun l e => insert_sorted e.1 e.2 l) keyed []))
  end.

Definition transaction_revisions {E} (bootstrap_tables : BootstrapTableIds) (ts : Z) (revision_pairs : list RevisionPair) : outcome E (list RevisionPair) :=
  rassert (forallb (fun p => rp_ts p =? ts) revision_pairs) ;?
  sort_pairs bootstrap_tables revision_pairs.

Section walk.
Context (fuel : nat) (bootstrap_tables : BootstrapTableIds) (order : Order).

Definition directed (revision_pair : RevisionPair) : RevisionPair :=
  match order with Asc => revision_pair | Desc => time_reverse_revision_pair revision_pair end.

Definition add_revisions (st : Tables * Z) (revision_pairs : list RevisionPair) : outcome summary_error (Tables * Z) :=
  foldM (fun (st : Tables * Z) p => let? tables := add_revision fuel bootstrap_tables st.1 (directed p) in Ret (tables, st.2 + 1)) st revision_pairs.

(** The transactions of [stream_transactions], each added when it is complete. *)
Fixpoint walk_transactions (st : Tables * Z) (curr_ts : Z) (curr_pairs revision_stream : list RevisionPair) : outcome summary_error (Tables * Z) :=
  match revision_stream with
  | [] => let? revision_pairs := transaction_revisions bootstrap_tables curr_ts curr_pairs in add_revisions st revision_pairs
  | revision_pair :: revision_stream =>
      if negb (rp_ts revision_pair =? curr_ts) then
        let? revision_pairs := transaction_revisions bootstrap_tables curr_ts curr_pairs in
        let? st := add_revisions st revision_pairs in
        walk_transactions st (rp_ts revision_pair) [revision_pair] revision_stream
      else walk_transactions st curr_ts (curr_pairs ++ [revision_pair]) revision_stream
  end.

Definition walk (tables : Tables) (revision_stream : list RevisionPair) : outcome summary_error (Tables * Z) :=
  match revision_stream with
  | [] => Ret (tables, 0)
  | first_pair :: revision_stream => walk_transactions (tables, 0) (rp_ts first_pair) [first_pair] revision_stream
  end.
End walk.

(** [BootstrapTableIds::new]. *)
Definition bootstrap_table_ids {E} (table_mapping : TableMapping) : outcome E BootstrapTableIds :=
  let? tables := expect (id_and_number_if_exists (mapping_namespace table_mapping Global) TABLES_TABLE) in
  let? index := expect (id_and_number_if_exists (mapping_namespace table_mapping Global) INDEX_TABLE) in
  Ret (MkBootstrap (it_tablet tables) (it_tablet index)).

Definition next_ts (ts : Z) : outcome summary_error Z :=
  match succ ts with Ret ts => Ret ts | Err _ => Err TimestampOverflow | Panic => Panic end.

(** [bootstrap], with the stored snapshot (if one is used), the recent timestamp
    with its metadata and documents, and the log: the revisions of a range of
    timestamps in an order.  The result is the tables, their timestamp and the
    number of revisions walked. *)
Definition bootstrap (fuel : nat) (stored_snapshot : option (Tables * Z)) (recent_ts : Z) (table_mapping : TableMapping)
    (table_documents : list Z -> option (list ConvexObject)) (load_revision_pairs : Z -> Z -> Order -> list RevisionPair) (target_ts : Z)
    : outcome summary_error (Tables * Z * Z) :=
  let? (base_snapshot, base_snapshot_ts) :=
    match stored_snapshot with
    | Some base => Ret base
    | None => let? base_snapshot := collect_snapshot fuel table_documents table_mapping in Ret (base_snapshot, recent_ts)
    end in
  let? bootstrap_tables := bootstrap_table_ids table_mapping in
  match Z.compare base_snapshot_ts target_ts with
  | Eq => Ret (base_snapshot, base_snapshot_ts, 0)
  | Lt =>
      let? first := next_ts base_snapshot_ts in
      let? (tables, num_added) := walk fuel bootstrap_tables Asc base_snapshot (load_revision_pairs first target_ts Asc) in
      Ret (tables, target_ts, num_added)
  | Gt =>
      let? first := next_ts target_ts in
      let? (tables, num_added) := walk fuel bootstrap_tables Desc base_snapshot (load_revision_pairs first base_snapshot_ts Desc) in
      Ret (tables, target_ts, num_added)
  end.
End bootstrap.

(** ** What the tables cover *)

(** Every table with documents has a summary of them, every summary is one. *)
Definition covers (tables : Tables) (docs : documents) : Prop :=
  BTreeMap.wf tables /\ forall t, match BTreeMap.get t tables with Some s => summarises s (objects_of docs t) | None => objects_of docs t = [] end.

Lemma covers_insert tables docs t s : covers tables docs -> summarises s (objects_of docs t) -> covers (BTreeMap.insert t s tables) docs.
Proof.
  intros [Hwf Hc] Hs. split; [by apply BTreeMap.wf_insert|]. intros t'. rewrite BTreeMap.get_insert_if by done. destruct (decide (t' = t)) as [->|]; [done|apply Hc].
Qed.

Lemma covers_remove tables docs t : covers tables docs -> objects_of docs t = [] -> covers (BTreeMap.remove t tables) docs.
Proof.
  intros [Hwf Hc] Hn. split; [by apply BTreeMap.wf_remove|]. intros t'. destruct (decide (t' = t)) as [->|]; [by rewrite BTreeMap.get_remove_eq|]. rewrite BTreeMap.get_remove_ne by done. apply Hc.
Qed.

Lemma covers_get tables docs t : covers tables docs -> summarises (default summary_empty (BTreeMap.get t tables)) (objects_of docs t).
Proof. intros [_ Hc]. specialize (Hc t). destruct (BTreeMap.get t tables); [done|]. rewrite Hc. apply summarises_empty. Qed.

Lemma set_object_wf docs i new : BTreeMap.wf docs -> BTreeMap.wf (set_object docs i new).
Proof. destruct new; [apply BTreeMap.wf_insert|apply BTreeMap.wf_remove]. Qed.

Section replay.
Context (parse_table : PackedDocument -> option (list Z * TableState)) (bt : BootstrapTableIds).

(** The revision replaces the version of the document in [docs]; a document of
    [_tables] can be parsed, and goes only when its table has no documents. The
    last is not checked by the code: it holds of a log read forwards, where a
    table is emptied before its document goes, but not of one read backwards
    past a transaction that creates a table and inserts into it. *)
Record replayable (docs : documents) (p : RevisionPair) : Prop := {
  rl_prev : BTreeMap.get (rp_id p) docs = rp_prev_document p;
  rl_valid o : rp_prev_document p = Some o \/ rp_document p = Some o -> valid (Object o) = true;
  rl_room : docs_bytes docs + new_bytes (rp_document p) <= u64_max;
  rl_parse o : tables_id bt = tablet_id (rp_id p) -> rp_document p = Some o -> is_Some (parse_table (as_document (rp_id p) o));
  rl_empty : tables_id bt = tablet_id (rp_id p) -> rp_document p = None -> objects_of docs (internal_id (developer_id (rp_id p))) = [];
}.

Inductive replays : documents -> list RevisionPair -> documents -> Prop :=
| replays_nil docs : replays docs [] docs
| replays_cons docs p ps docs' : replayable docs p -> replays (set_object docs (rp_id p) (rp_document p)) ps docs' -> replays docs (p :: ps) docs'.

Lemma reset_if_deleting_ok tables docs t i o : covers tables docs -> is_Some (parse_table (as_document i o)) ->
  exists tables', reset_if_deleting parse_table tables t i o = Ret tables' /\ covers tables' docs.
Proof.
  intros Hc [[name state] Hp]. unfold reset_if_deleting. rewrite Hp. cbn [ok_or obind]. destruct state; [by eexists..|]. destruct (BTreeMap.get t tables) as [s|] eqn:Hg; [|by eexists].
  pose proof (proj2 Hc t) as Hs. rewrite Hg in Hs. destruct (reset_shape_ok s _ Hs) as (s' & -> & Hs'). cbn [shape_part obind]. eexists. split; [done|]. by apply covers_insert.
Qed.

Lemma add_revision_ok docs tables p : BTreeMap.wf docs -> covers tables docs -> replayable docs p ->
  exists tables', evals (fun n => add_revision parse_table n bt tables p) (Ret tables') /\ covers tables' (set_object docs (rp_id p) (rp_document p)).
Proof.
  intros Hwf Hc [Hprev Hval Hroom Hparse Hempty]. set (i := rp_id p) in *. unfold add_revision. fold i. set (t := internal_id (developer_id i)) in *.
  assert (Hstep : exists tables1, (if bool_decide (tables_id bt = tablet_id i) then
      match rp_document p with
      | Some new_doc => reset_if_deleting parse_table
          match rp_prev_document p, rp_document p with
          | None, Some _ => match BTreeMap.get t tables with Some _ => tables | None => BTreeMap.insert t summary_empty tables end
          | Some _, None => BTreeMap.remove t tables
          | _, _ => tables end t i new_doc
      | None => Ret match rp_prev_document p, rp_document p with
          | None, Some _ => match BTreeMap.get t tables with Some _ => tables | None => BTreeMap.insert t summary_empty tables end
          | Some _, None => BTreeMap.remove t tables
          | _, _ => tables end
      end else Ret tables) = Ret tables1 /\ covers tables1 docs).
  { case_bool_decide as Ht; [|by eexists]. destruct (rp_document p) as [o|] eqn:Ho.
    - apply reset_if_deleting_ok; [|by apply Hparse]. destruct (rp_prev_document p); [done|]. destruct (BTreeMap.get t tables) eqn:Hg; [done|]. apply covers_insert; [done|].
      pose proof (proj2 Hc t) as Hs. rewrite Hg in Hs. rewrite Hs. apply summarises_empty.
    - destruct (rp_prev_document p); eexists; (split; [done|]); [|done]. apply covers_remove; [done|]. by apply Hempty. }
  destruct Hstep as (tables1 & -> & Hc1). cbn [obind].
  destruct (change_summary_ok docs (default summary_empty (BTreeMap.get (tablet_id i) tables1)) i (rp_prev_document p) (rp_document p) Hwf Hprev Hval) as (s' & He & Hs'); [by apply covers_get|pose proof (objects_bytes docs (tablet_id i)); lia|].
  eexists. split; [eapply evals_bind; [exact He|apply evals_const]|].
  destruct Hc1 as [Hw1 Hc1]. split; [by apply BTreeMap.wf_insert|]. intros t'. rewrite BTreeMap.get_insert_if by done. destruct (decide (t' = tablet_id i)) as [->|Hne]; [done|].
  pose proof (objects_other docs i (rp_document p) t' Hwf ltac:(congruence)) as Hp. specialize (Hc1 t'). destruct (BTreeMap.get t' tables1); [by eapply summarises_perm|]. rewrite Hc1 in Hp. by apply Permutation_nil_r.
Qed.

Lemma add_revisions_ok order docs ps docs' : forall tables n, BTreeMap.wf docs -> covers tables docs -> replays docs (map (directed order) ps) docs' ->
  exists tables', evals (fun fuel => add_revisions parse_table fuel bt order (tables, n) ps) (Ret (tables', n + zlen ps)) /\ covers tables' docs'.
Proof.
  revert docs. induction ps as [|p ps IH]; intros docs tables n Hwf Hc Hr; inversion Hr as [|? ? ? ? Hp Hps]; subst.
  - exists tables. split; [|done]. apply evals_eq. intros fuel. cbn. by rewrite Z.add_0_r.
  - destruct (add_revision_ok docs tables _ Hwf Hc Hp) as (tables1 & He1 & Hc1). destruct (IH _ tables1 (n + 1) (set_object_wf _ _ _ Hwf) Hc1 Hps) as (tables' & He & Hc').
    exists tables'. split; [|done]. replace (n + zlen (p :: ps)) with (n + 1 + zlen ps) by (unfold zlen; cbn [length]; lia). unfold add_revisions. eapply evals_fold; [|exact He].
    cbn [fst snd]. eapply evals_bind; [exact He1|apply evals_const].
Qed.

(** The revisions in the order in which they are added. *)
Fixpoint order_transactions (curr_ts : Z) (curr_pairs pairs : list RevisionPair) : outcome summary_error (list RevisionPair) :=
  match pairs with
  | [] => transaction_revisions parse_table bt curr_ts curr_pairs
  | p :: pairs =>
      if negb (rp_ts p =? curr_ts) then
        let? a := transaction_revisions parse_table bt curr_ts curr_pairs in
        let? b := order_transactions (rp_ts p) [p] pairs in
        Ret (a ++ b)
      else order_transactions curr_ts (curr_pairs ++ [p]) pairs
  end.
Definition commit_order (pairs : list RevisionPair) : outcome summary_error (list RevisionPair) :=
  match pairs with [] => Ret [] | p :: pairs => order_transactions (rp_ts p) [p] pairs end.

Lemma walk_in_order fuel order pairs : forall st curr_ts curr ps, order_transactions curr_ts curr pairs = Ret ps ->
  walk_transactions parse_table fuel bt order st curr_ts curr pairs = add_revisions parse_table fuel bt order st ps.
Proof.
  induction pairs as [|p pairs IH]; intros st curr_ts curr ps; cbn [order_transactions walk_transactions]; [by intros ->|]. destruct (negb (rp_ts p =? curr_ts)); [|apply IH].
  destruct (transaction_revisions parse_table bt curr_ts curr) as [a| |]; cbn [obind]; [|done..]. destruct (order_transactions (rp_ts p) [p] pairs) as [b| |] eqn:Hb; cbn [obind]; [|done..]. intros [= <-].
  unfold add_revisions at 2. rewrite foldM_app. destruct (add_revisions parse_table fuel bt order st a) as [st'| |] eqn:Ha; unfold add_revisions in Ha; rewrite Ha; cbn [obind]; [|done..]. by apply IH.
Qed.

Lemma walk_ok order docs docs' pairs ps tables : BTreeMap.wf docs -> covers tables docs -> commit_order pairs = Ret ps -> replays docs (map (directed order) ps) docs' ->
  exists tables', evals (fun fuel => walk parse_table fuel bt order tables pairs) (Ret (tables', zlen ps)) /\ covers tables' docs'.
Proof.
  intros Hwf Hc Ho Hr. destruct (add_revisions_ok order docs ps docs' tables 0 Hwf Hc Hr) as (tables' & He & Hc'). exists tables'. split; [|done].
  destruct pairs as [|p pairs]; cbn [commit_order walk] in *; [injection Ho as <-; by inversion Hr; subst; apply He|].
  destruct He as [n0 He]. exists n0. intros n Hn. rewrite (walk_in_order n order pairs _ _ _ ps Ho). by apply He.
Qed.
End replay.

(** ** Collecting the documents *)

Lemma collect_table_ok l : forall s vs, summarises s vs -> Forall (fun o => valid (Object o) = true) l -> bytes vs + bytes (map Object l) <= u64_max ->
  exists s', evals (fun fuel => foldM (fun summary rev => shape_part (summary_insert fuel summary rev)) s l) (Ret s') /\ summarises s' (map Object (rev l) ++ vs).
Proof.
  induction l as [|o l IH]; intros s vs Hs Hv Hb; [exists s; split; [by apply evals_eq|done]|]. apply Forall_cons in Hv as [Ho Hv]. cbn [map] in Hb. rewrite bytes_of_cons in Hb. pose proof (bytes_nonneg (map Object l)).
  destruct (summary_insert_ok s vs o Hs Ho ltac:(lia)) as (s1 & He1 & Hs1). destruct (IH s1 _ Hs1 Hv) as (s' & He & Hs'); [rewrite bytes_of_cons; lia|]. exists s'. split.
  - eapply evals_fold; [by apply evals_shape_part|exact He].
  - cbn [rev]. by rewrite map_app, <- (assoc_L (++)).
Qed.

(** The persistence layer returns the documents of every table of the mapping. *)
Record collected (m : TableMapping) (table_documents : list Z -> option (list ConvexObject)) (docs : documents) : Prop := {
  cl_documents t : is_Some (tablet_lookup m t) -> exists l, table_documents t = Some l /\ map Object l ≡ₚ objects_of docs t;
  cl_others t : tablet_lookup m t = None -> objects_of docs t = [];
  cl_valid i o : BTreeMap.get i docs = Some o -> valid (Object o) = true;
  cl_room : docs_bytes docs <= u64_max;
}.

Lemma collect_snapshot_ok m table_documents docs : mapping_wf m -> BTreeMap.wf docs -> collected m table_documents docs ->
  exists tables, evals (fun fuel => collect_snapshot fuel table_documents m) (Ret tables) /\ covers tables docs.
Proof.
  intros Hm Hwf [Hd Ho Hv Hr]. unfold collect_snapshot, mapping_iter.
  assert (Hone : forall t, is_Some (tablet_lookup m t) -> exists l s, table_documents t = Some l /\ evals (fun fuel => collect_table_revisions fuel l) (Ret s) /\ summarises s (objects_of docs t)).
  { intros t Ht. destruct (Hd t Ht) as (l & Hl & Hp). assert (Hval : Forall (fun o => valid (Object o) = true) l).
    { apply Forall_forall. intros o Hin. assert (Hin' : Object o ∈ objects_of docs t) by (rewrite <- Hp; by apply list_elem_of_fmap_2). unfold objects_of in Hin'. apply list_elem_of_fmap in Hin' as ([i o'] & [= ->] & [Hi _]%elem_of_bfilter). by apply (Hv i), BTreeMap.elem_of_get. }
    pose proof (objects_bytes docs t) as Hb. rewrite <- (bytes_perm _ _ Hp) in Hb. destruct (collect_table_ok l summary_empty [] summarises_empty Hval ltac:(cbn; lia)) as (s & He & Hs). exists l, s. split; [done|]. split; [done|].
    eapply summarises_perm; [|exact Hs]. rewrite app_nil_r, <- Hp. apply Permutation_map. symmetry. apply Permutation_rev. }
  (* the tables inserted so far, in the order of the tablets *)
  enough (Hgo : forall l done, tablet_to_table m = done ++ l -> forall tables, BTreeMap.wf tables ->
      (forall t, match BTreeMap.get t tables with Some s => summarises s (objects_of docs t) | None => forall e, (t, e) ∉ done end) ->
      exists tables', evals (fun fuel => foldM (fun snapshot (e : TabletId * TableNamespace * TableNumber * TableName) =>
        let? revision_stream := expect (table_documents e.1.1.1) in let? summary := collect_table_revisions fuel revision_stream in Ret (BTreeMap.insert e.1.1.1 summary snapshot)) tables
        (map (fun e : TabletId * (TableNamespace * TableNumber * TableName) => (e.1, e.2.1.1, e.2.1.2, e.2.2)) l)) (Ret tables') /\ covers tables' docs).
  { apply (Hgo (tablet_to_table m) [] eq_refl []); [done|]. intros t e. cbn. by intros ?%elem_of_nil. }
  induction l as [|[t e] l IH]; intros done Hd' tables Hw Ht.
  - exists tables. split; [by apply evals_eq|]. split; [done|]. intros t. specialize (Ht t). destruct (BTreeMap.get t tables); [done|]. apply Ho. unfold tablet_lookup. apply BTreeMap.get_None. rewrite app_nil_r in Hd'. by rewrite Hd'.
  - destruct (Hone t) as (docs_t & s & Hl & He & Hs).
    { exists e. unfold tablet_lookup. apply BTreeMap.elem_of_get; [apply Hm|]. rewrite Hd'. apply elem_of_app. right. by left. }
    destruct (IH (done ++ [(t, e)]) ltac:(by rewrite Hd', <- (assoc_L (++))) (BTreeMap.insert t s tables)) as (tables' & He' & Hc'); [by apply BTreeMap.wf_insert| |].
    { intros t'. rewrite BTreeMap.get_insert_if by done. destruct (decide (t' = t)) as [->|Hne]; [done|]. specialize (Ht t'). destruct (BTreeMap.get t' tables); [done|]. intros e' [Hin|[= ? ?]%list_elem_of_singleton]%elem_of_app; [by apply (Ht e')|done]. }
    exists tables'. split; [|done]. cbn [map]. eapply evals_fold; [|exact He']. cbn [fst]. rewrite Hl. cbn [expect obind]. eapply evals_bind; [exact He|apply evals_const].
Qed.

(** ** Theorems *)

(** The base that a bootstrap starts from covers [docs] at [base_ts]. *)
Definition starts_from (stored : option (Tables * Z)) (recent_ts : Z) (m : TableMapping) (table_documents : list Z -> option (list ConvexObject)) (docs : documents) (base_ts : Z) : Prop :=
  match stored with
  | Some (base, ts) => ts = base_ts /\ covers base docs
  | None => recent_ts = base_ts /\ collected m table_documents docs
  end.

(** C16: the bootstrap of the table summaries, from a stored checkpoint or from the
    documents of every table, gives the summaries at the target timestamp.  Let
    the base cover the documents at its timestamp, and let the revisions of the
    log between the two timestamps, in the order in which their transactions
    are sorted, lead (reversed in time when the target is earlier) from those
    documents to the documents [docs'], where each replaces the version it says,
    the documents are valid and their sizes fit a u64, the documents of [_tables] parse, and one of them goes
    only when its table has no documents.  Then with enough fuel the walk
    succeeds, counts the revisions, and every table with documents in [docs']
    has an exact summary of them.  The last condition excludes a rewind past a
    transaction that creates a table and inserts into it, where the walk fails
    ([rewind_refuses_new_table]). *)
Theorem bootstrap_follows_log (parse_table : PackedDocument -> option (list Z * TableState)) (stored : option (Tables * Z)) (recent_ts base_ts target_ts : Z) (m : TableMapping) (bt : BootstrapTableIds)
    (table_documents : list Z -> option (list ConvexObject)) (load_revision_pairs : Z -> Z -> Order -> list RevisionPair) (docs docs' : documents) (ps : list RevisionPair) :
  mapping_wf m -> BTreeMap.wf docs -> starts_from stored recent_ts m table_documents docs base_ts -> bootstrap_table_ids (E := summary_error) m = Ret bt ->
  base_ts <= MAX -> target_ts <= MAX ->
  let order := if base_ts <? target_ts then Asc else Desc in
  commit_order parse_table bt (if base_ts =? target_ts then [] else load_revision_pairs (Z.min base_ts target_ts + 1) (Z.max base_ts target_ts) order) = Ret ps ->
  replays parse_table bt docs (map (directed order) ps) docs' ->
  exists tables, evals (fun fuel => bootstrap parse_table fuel stored recent_ts m table_documents load_revision_pairs target_ts) (Ret (tables, target_ts, zlen ps)) /\ covers tables docs'.
Proof.
  intros Hm Hwf Hst Hbt Hb1 Hb2 order Ho Hr.
  assert (Hbase : exists base, evals (fun fuel => match stored with Some base => Ret base | None => let? base_snapshot := collect_snapshot fuel table_documents m in Ret (base_snapshot, recent_ts) end) (Ret (base, base_ts)) /\ covers base docs).
  { destruct stored as [[base ts]|]; [destruct Hst as [-> Hc]; exists base; split; [apply evals_const|done]|]. destruct Hst as [-> Hcl].
    destruct (collect_snapshot_ok m table_documents docs Hm Hwf Hcl) as (base & He & Hc). exists base. split; [|done]. eapply evals_bind; [exact He|apply evals_const]. }
  destruct Hbase as (base & He & Hc). unfold bootstrap.
  assert (Hsucc : forall ts, ts < MAX -> next_ts ts = Ret (ts + 1)) by (intros ts Hlt; unfold next_ts, succ, succ_opt; by rewrite (proj2 (Z.leb_gt _ _))).
  destruct (Z.compare_spec base_ts target_ts) as [Heq|Hlt|Hgt].
  - subst. rewrite Z.eqb_refl in Ho. injection Ho as <-. inversion Hr; subst. exists base. split; [|done]. eapply evals_bind; [exact He|]. rewrite Hbt. cbn [obind]. rewrite Z.compare_refl. apply evals_const.
  - rewrite (proj2 (Z.eqb_neq _ _)) in Ho by lia. unfold order in *. rewrite (proj2 (Z.ltb_lt _ _)) in * by lia. rewrite Z.min_l, Z.max_r in Ho by lia.
    destruct (walk_ok parse_table bt Asc docs docs' _ ps base Hwf Hc Ho Hr) as (tables & Hw & Hc'). exists tables. split; [|done]. eapply evals_bind; [exact He|]. rewrite Hbt. cbn [obind].
    rewrite (proj2 (Z.compare_lt_iff _ _)), Hsucc by lia. cbn [obind]. eapply evals_bind; [exact Hw|apply evals_const].
  - rewrite (proj2 (Z.eqb_neq _ _)) in Ho by lia. unfold order in *. rewrite (proj2 (Z.ltb_ge _ _)) in * by lia. rewrite Z.min_r, Z.max_l in Ho by lia.
    destruct (walk_ok parse_table bt Desc docs docs' _ ps base Hwf Hc Ho Hr) as (tables & Hw & Hc'). exists tables. split; [|done]. eapply evals_bind; [exact He|]. rewrite Hbt. cbn [obind].
    rewrite (proj2 (Z.compare_gt_iff _ _)), Hsucc by lia. cbn [obind]. eapply evals_bind; [exact Hw|apply evals_const].
Qed.

(** A transaction that creates a table and inserts a document into it. *)
Definition created (i j : ResolvedDocumentId) (o o' : ConvexObject) (ts : Z) : list RevisionPair :=
  [MkPair i (MkRev ts (Some o)) None; MkPair j (MkRev ts (Some o')) None].

Lemma rewind_creation parse_table bt base docs i j o o' ts : BTreeMap.wf docs -> covers base docs -> BTreeMap.get i docs = Some o -> valid (Object o) = true ->
  tables_id bt = tablet_id i -> tablet_id j = internal_id (developer_id i) -> tablet_id j <> tablet_id i ->
  evals (fun fuel => add_revisions parse_table fuel bt Desc (base, 0) (created i j o o' ts)) (Err RemovingFromTable).
Proof.
  intros Hwf Hc Hi Ho Hbt Hj Hne. pose proof (objects_get docs i o (tablet_id i) Hwf Hi) as Hp. rewrite decide_True in Hp by done. cbn [app] in Hp.
  assert (Hs : summarises (default summary_empty (BTreeMap.get (tablet_id i) (BTreeMap.remove (tablet_id j) base))) (objects_of docs (tablet_id i))).
  { rewrite BTreeMap.get_remove_ne by (apply Hc || congruence). by apply covers_get. }
  destruct (summary_remove_ok _ _ _ o Hs Ho Hp) as (s' & He & _). destruct (evals_shape_part _ _ He) as [n0 Hn0]. exists n0. intros n Hn. specialize (Hn0 n Hn).
  unfold add_revisions, created, directed. cbn [foldM]. unfold add_revision at 1. cbn [time_reverse_revision_pair rp_id rp_document rp_rev rev_document rp_prev_document rp_prev_rev option_map fst snd].
  rewrite bool_decide_true by done. cbn [obind]. rewrite <- Hj. unfold change_summary at 1. rewrite Hn0. cbn [obind fst snd].
  unfold add_revision. cbn [time_reverse_revision_pair rp_id rp_document rp_rev rev_document rp_prev_document rp_prev_rev option_map]. rewrite bool_decide_false by congruence. cbn [obind].
  rewrite BTreeMap.get_insert_ne, BTreeMap.get_remove_eq by (done || apply Hc || (apply BTreeMap.wf_remove; apply Hc)). done.
Qed.

(** Rewinding past the creation of a table fails.  The revisions of a
    transaction are undone in the order in which they were made: for a
    transaction that created a table and inserted a document into it, the
    summary of the table is removed first, and the removal of the document is
    then refused, although the base covers the documents and the transaction
    leads to them from the documents before it.  The bootstrap at an earlier
    timestamp returns an error. *)
Theorem rewind_refuses_new_table (parse_table : PackedDocument -> option (list Z * TableState)) (recent_ts base_ts target_ts : Z) (m : TableMapping) (bt : BootstrapTableIds)
    (table_documents : list Z -> option (list ConvexObject)) (load_revision_pairs : Z -> Z -> Order -> list RevisionPair) (base : Tables) (docs : documents) (i j : ResolvedDocumentId) (o o' : ConvexObject) :
  BTreeMap.wf docs -> covers base docs -> bootstrap_table_ids (E := summary_error) m = Ret bt -> target_ts < base_ts -> base_ts <= MAX ->
  tables_id bt = tablet_id i -> tablet_id j = internal_id (developer_id i) -> tablet_id j <> tablet_id i ->
  replays parse_table bt docs (created i j o o' base_ts) (set_object (set_object docs i (Some o)) j (Some o')) ->
  commit_order parse_table bt (load_revision_pairs (target_ts + 1) base_ts Desc) = Ret (created i j o o' base_ts) ->
  exists base', evals (fun fuel => add_revisions parse_table fuel bt Asc (base, 0) (created i j o o' base_ts)) (Ret (base', 2)) /\
    evals (fun fuel => bootstrap parse_table fuel (Some (base', base_ts)) recent_ts m table_documents load_revision_pairs target_ts) (Err RemovingFromTable).
Proof.
  intros Hwf Hc Hbt Hlt Hmax Hti Hj Hne Hr Ho.
  destruct (add_revisions_ok parse_table bt Asc docs (created i j o o' base_ts) _ base 0 Hwf Hc Hr) as (base' & Hf & Hc'). exists base'. split; [exact Hf|].
  assert (Hval : valid (Object o) = true) by (inversion Hr as [|? ? ? ? Hp]; subst; apply (rl_valid _ _ _ _ Hp); by right).
  assert (Hij : i <> j) by congruence. set (docs' := set_object (set_object docs i (Some o)) j (Some o')) in *.
  assert (Hi' : BTreeMap.get i docs' = Some o) by (unfold docs'; cbn [set_object]; rewrite BTreeMap.get_insert_ne, BTreeMap.get_insert_eq by (done || by apply BTreeMap.wf_insert); done).
  assert (Hwf' : BTreeMap.wf docs') by (by apply set_object_wf, set_object_wf).
  destruct (rewind_creation parse_table bt base' docs' i j o o' base_ts Hwf' Hc' Hi' Hval Hti Hj Hne) as [n0 Hn0]. exists n0. intros n Hn. unfold bootstrap. cbn [obind]. rewrite Hbt. cbn [obind].
  rewrite (proj2 (Z.compare_gt_iff _ _)) by lia. unfold next_ts, succ, succ_opt. rewrite (proj2 (Z.leb_gt _ _)) by lia. cbn [ok_or obind].
  destruct (load_revision_pairs (target_ts + 1) base_ts Desc) as [|p ps]; [done|]. cbn [commit_order walk] in *. rewrite (walk_in_order parse_table bt n Desc ps _ _ _ _ Ho), Hn0 by done. done.
Qed.

Module BootstrapExample.
(** An empty database, and a transaction at timestamp 1 that creates a table
    with one document. *)
Definition t_tables : list Z := [1].
Definition t_index : list Z := [2].
Definition t_user : list Z := [3].
Definition mapping : TableMapping := mapping_insert (mapping_insert mapping_new t_tables Global 1 TABLES_TABLE) t_index Global 2 INDEX_TABLE.
Definition ids : BootstrapTableIds := MkBootstrap t_tables t_index.
Definition i : ResolvedDocumentId := MkResolved t_tables (MkId 1 t_user).
Definition j : ResolvedDocumentId := MkResolved t_user (MkId 10 [7]).
Definition o : ConvexObject := [([115], Int64 1)].
Definition o' : ConvexObject := [([116], Null)].
Definition parse (d : PackedDocument) : option (list Z * TableState) := Some ([102], Active).
Definition log (first last : Z) (order : Order) : list RevisionPair := if (first <=? 1) && (1 <=? last) then created i j o o' 1 else [].

Lemma replays_log : replays parse ids [] (created i j o o' 1) (set_object (set_object [] i (Some o)) j (Some o')).
Proof.
  apply replays_cons; [|apply replays_cons; [|apply replays_nil]].
  - constructor; [done|intros x [[=]|[= <-]]; by vm_compute|vm_compute; discriminate|by eexists|done].
  - constructor; [by vm_compute|intros x [[=]|[= <-]]; by vm_compute|vm_compute; discriminate|by eexists|done].
Qed.

Lemma covers_nothing : covers [] [].
Proof. split; [done|]. intros t. done. Qed.

Lemma example_mapping_wf : mapping_wf mapping.
Proof. apply mapping_insert_ok, mapping_insert_ok, mapping_new_wf. Qed.
End BootstrapExample.

Lemma bootstrap_follows_log_witness : exists tables s,
  evals (fun fuel => bootstrap BootstrapExample.parse fuel (Some ([], 0)) 0 BootstrapExample.mapping (fun _ => None) BootstrapExample.log 1) (Ret (tables, 1, 2)) /\
  BTreeMap.get BootstrapExample.t_user tables = Some s /\ num_values s = 1.
Proof.
  destruct (bootstrap_follows_log BootstrapExample.parse (Some ([], 0)) 0 0 1 BootstrapExample.mapping BootstrapExample.ids (fun _ => None) BootstrapExample.log []
    (set_object (set_object [] BootstrapExample.i (Some BootstrapExample.o)) BootstrapExample.j (Some BootstrapExample.o'))
    (created BootstrapExample.i BootstrapExample.j BootstrapExample.o BootstrapExample.o' 1)) as (tables & He & Hc).
  - exact BootstrapExample.example_mapping_wf.
  - exact I.
  - split; [reflexivity|exact BootstrapExample.covers_nothing].
  - vm_compute. reflexivity.
  - vm_compute. discriminate.
  - vm_compute. discriminate.
  - vm_compute. reflexivity.
  - exact BootstrapExample.replays_log.
  - pose proof (proj2 Hc BootstrapExample.t_user) as Hs. destruct (BTreeMap.get BootstrapExample.t_user tables) as [s|] eqn:Hg; [|discriminate Hs].
    exists tables, s. split; [exact He|]. split; [exact Hg|]. exact (proj2 (summarises_nonneg _ _ Hs)).
Defined.

Lemma rewind_refuses_new_table_witness : exists base,
  evals (fun fuel => bootstrap BootstrapExample.parse fuel (Some (base, 1)) 1 BootstrapExample.mapping (fun _ => None) BootstrapExample.log 0) (Err RemovingFromTable).
Proof.
  destruct (rewind_refuses_new_table BootstrapExample.parse 1 1 0 BootstrapExample.mapping BootstrapExample.ids (fun _ => None) BootstrapExample.log [] []
    BootstrapExample.i BootstrapExample.j BootstrapExample.o BootstrapExample.o') as (base & _ & He).
  - exact I.
  - exact BootstrapExample.covers_nothing.
  - vm_compute. reflexivity.
  - reflexivity.
  - vm_compute. discriminate.
  - reflexivity.
  - reflexivity.
  - vm_compute. discriminate.
  - exact BootstrapExample.replays_log.
  - vm_compute. reflexivity.
  - exists base. exact He.
Defined.
