(* ===== verification/Writes.v ===== *)
(** * Writes: the write set of a transaction (src/crates/database/src/writes.rs)

    [NestedWrites] is the stack of write sets of nested function calls, which
    commit into their parent or roll back; [Writes] coalesces the updates of a
    document, counts them against the limits and adds to the read set what a
    write depends on.  The four limits are knobs; base64 is the function
    [encode_urlsafe] of a third-party crate. *)

From S2P Require Import Prelude Ord BTreeMap BinaryKey Bounds Interval IntervalSet Timestamp Identifier Value Sorting SortingDecode Base32 IdV6 Document TableMapping IndexRegistry IndexUpdates IndexKeys MemoryIndexes IndexSnapshot QueryReads Reads TransactionIndex WriteLog SnapshotManager Committer.

Local Open Scope Z_scope.

(** ** [NestedWrites] *)

Inductive nested_error := MismatchedToken | NoNested | NestedInProgress.

Inductive NestedWrites (W : Type) := MkNested (parent : option (NestedWrites W)) (pending : W) (nested_token : Z).
Arguments MkNested {W}.

Section nested.
Context {W : Type}.
Implicit Types self : NestedWrites W.

Definition parent self : option (NestedWrites W) := match self with MkNested p _ _ => p end.
Definition pending self : W := match self with MkNested _ w _ => w end.
Definition nested_token self : Z := match self with MkNested _ _ t => t end.

Definition nested_new (writes : W) : NestedWrites W := MkNested None writes 0.

(** The addition is checked: the token is a [u32]. *)
Definition begin_nested {E} self : outcome E (NestedWrites W * Z) :=
  let? _ := rassert (nested_token self + 1 <? 2 ^ 32) in
  let token := nested_token self + 1 in
  Ret (MkNested (Some self) (pending self) token, token).

Definition commit_nested self (token : Z) : outcome nested_error (NestedWrites W) :=
  ensure (nested_token self =? token) MismatchedToken ;?
  let? p := ok_or (parent self) NoNested in
  Ret (MkNested (parent p) (pending self) (nested_token p)).

Definition rollback_nested self (token : Z) : outcome nested_error (NestedWrites W) :=
  ensure (nested_token self =? token) MismatchedToken ;?
  ok_or (parent self) NoNested.

Definition require_not_nested self : outcome nested_error unit :=
  ensure (match parent self with None => true | Some _ => false end) NestedInProgress.

Definition into_flat self : outcome nested_error W :=
  require_not_nested self ;? Ret (pending self).

Definition set_pending self (w : W) : NestedWrites W := MkNested (parent self) w (nested_token self).
End nested.

(** ** [Writes] *)

Record TransactionWriteSize := MkWriteSize { num_writes : Z; write_size : Z }.

(** Updates are ordered by their id. *)
Definition id_key (i : ResolvedDocumentId) : list Z * (Z * list Z) :=
  (tablet_id i, (table (developer_id i), internal_id (developer_id i))).

Record Writes := MkWrites {
  updates : BTreeMap.t (list Z * (Z * list Z)) DocumentUpdateWithPrevTs;
  user_write_size : TransactionWriteSize;
  system_write_size : TransactionWriteSize;
}.

Inductive writes_error :=
| DuplicateInsert
| TooManySystemWrites
| TooManySystemBytes
| TooManyWrites
| TooManyBytesWritten
| InconsistentOldDocument
| InconsistentOldTimestamp
| PendingWithoutWrite
| BadTabletId.

Definition write_size_zero : TransactionWriteSize := MkWriteSize 0 0.
Definition writes_new : Writes := MkWrites [] write_size_zero write_size_zero.
Definition writes_is_empty (self : Writes) : bool := match updates self with [] => true | _ => false end.

(** [ResolvedDocumentId::size]: the tablet id, and the developer id, which is a
    table number and an internal id. The source counts 17 bytes for a tablet id
    and for a table number ([InternalId::MAX_SIZE]) and 16 for an internal id. *)
Definition document_id_size : Z := 17 + (17 + 16).

(** [IndexedFields::by_id]. *)
Definition by_id_fields : list FieldPath := [].

Section writes.
Context {M : Type -> Type} `{StringMapLaws M} {Trace : Type} (capture : bool) (trace : Trace) (encode_urlsafe : list Z -> list Z).
Context (max_user_writes max_user_bytes max_system_writes max_system_bytes : Z).
(** The tablets of [_tables] and [_index], and the number of [_tables]. *)
Context (bootstrap_tables : BootstrapTableIds) (tables_number : Z).

Notation TxReads := (TransactionReadSet (M := M) (Trace := Trace)).

(** The bytes of an [IndexKey] of an id alone. *)
Definition id_bytes {E} (i : DeveloperDocumentId) : outcome E (list Z) :=
  let? key := new_allow_missing [] i in to_bytes key.

Definition register_new_id {E} (reads : TxReads) (document_id : ResolvedDocumentId) : outcome E TxReads :=
  let? bytes := id_bytes (developer_id document_id) in
  record_indexed_derived capture reads trace (by_id (tablet_id document_id)) by_id_fields (prefix bytes).

(** [index_metadata_serialize_tablet_id]. *)
Definition serialize_tablet_id (t : TabletId) : outcome writes_error ConvexValue :=
  match ConvexString_try_from (encode_urlsafe t) with Ret v => Ret v | Err _ => Err BadTabletId | Panic => Panic end.

(** The read set may have grown when an error is returned. *)
Definition record_reads_for_write (reads : TxReads) (tablet : TabletId) : TxReads * outcome writes_error unit :=
  if bool_decide (tablet = Committer.index_id bootstrap_tables) || bool_decide (tablet = tables_id bootstrap_tables) then
    match (let? reads := record_indexed_derived capture reads trace (by_id (tables_id bootstrap_tables)) by_id_fields all in
           record_indexed_derived capture reads trace (by_id (Committer.index_id bootstrap_tables)) by_id_fields all) with
    | Ret reads => (reads, Ret tt)
    | Err e => (reads, Err e)
    | Panic => (reads, Panic)
    end
  else
    match (let? table_id_bytes := id_bytes (MkId tables_number tablet) in
           record_indexed_derived capture reads trace (by_id (tables_id bootstrap_tables)) by_id_fields (prefix table_id_bytes)) with
    | Ret reads =>
        match (let? v := serialize_tablet_id tablet in
               let? tablet_id_bytes := values_to_bytes [Some v] in
               record_indexed_derived capture reads trace
                 (Committer.index_id bootstrap_tables, INDEX_BY_TABLE_ID_VIRTUAL_INDEX_DESCRIPTOR) [TABLE_ID_FIELD_PATH]
                 (prefix tablet_id_bytes)) with
        | Ret reads => (reads, Ret tt)
        | Err e => (reads, Err e)
        | Panic => (reads, Panic)
        end
    | Err e => (reads, Err e)
    | Panic => (reads, Panic)
    end.

Definition grow (s : TransactionWriteSize) (n : Z) : TransactionWriteSize := MkWriteSize (num_writes s + 1) (write_size s + n).

(** The size grows before the limits are checked. *)
Definition add_write_size (self : Writes) (is_system_document : bool) (new_document : option PackedDocument) : Writes :=
  let n := document_id_size + match new_document with Some d => size (value d) | None => 0 end in
  if is_system_document then MkWrites (updates self) (user_write_size self) (grow (system_write_size self) n)
  else MkWrites (updates self) (grow (user_write_size self) n) (system_write_size self).

Definition check_write_limits (self : Writes) (is_system_document : bool) : outcome writes_error unit :=
  if is_system_document then
    ensure (num_writes (system_write_size self) <=? max_system_writes) TooManySystemWrites ;?
    ensure (write_size (system_write_size self) <=? max_system_bytes) TooManySystemBytes
  else
    ensure (num_writes (user_write_size self) <=? max_user_writes) TooManyWrites ;?
    ensure (write_size (user_write_size self) <=? max_user_bytes) TooManyBytesWritten.

(** [PartialEq] of documents, through the comparison of values. *)
Definition document_eqb (a b : PackedDocument) : bool :=
  bool_decide (id a = id b) && match value_cmp (value a) (value b) with Eq => true | _ => false end.

Definition documents_eqb (a b : option PackedDocument) : bool :=
  match a, b with Some a, Some b => document_eqb a b | None, None => true | _, _ => false end.

(** The new entry of a document in the coalesced updates. *)
Definition coalesce (old_update : option DocumentUpdateWithPrevTs) (document_id : ResolvedDocumentId)
    (old_document : option (PackedDocument * WriteTimestamp)) (new_document : option PackedDocument)
    : outcome writes_error DocumentUpdateWithPrevTs :=
  match old_update with
  | Some old_update =>
      ensure (documents_eqb (up_new old_update) (option_map fst old_document)) InconsistentOldDocument ;?
      ensure (match option_map snd old_document with None | Some TransactionIndex.Pending => true | Some (TransactionIndex.Committed _) => false end)
        InconsistentOldTimestamp ;?
      Ret (MkUpdateTs document_id (up_old old_update) new_document)
  | None =>
      let? old :=
        match old_document with
        | Some (d, TransactionIndex.Committed ts) => Ret (Some (d, ts))
        | Some (_, TransactionIndex.Pending) => Err PendingWithoutWrite
        | None => Ret None
        end in
      Ret (MkUpdateTs document_id old new_document)
  end.

Definition put_update (self : Writes) (u : DocumentUpdateWithPrevTs) : Writes :=
  MkWrites (BTreeMap.insert (id_key (up_id u)) u (updates self)) (user_write_size self) (system_write_size self).

Definition writes_update (self : Writes) (is_system_document : bool) (reads : TxReads) (document_id : ResolvedDocumentId)
    (old_document : option (PackedDocument * WriteTimestamp)) (new_document : option PackedDocument)
    : Writes * TxReads * outcome writes_error unit :=
  let registered :=
    match old_document with
    | None =>
        ensure (match BTreeMap.get (id_key document_id) (updates self) with None => true | Some _ => false end) DuplicateInsert ;?
        register_new_id reads document_id
    | Some _ => Ret reads
    end in
  match registered with
  | Err e => (self, reads, Err e)
  | Panic => (self, reads, Panic)
  | Ret reads =>
      let '(reads, recorded) := record_reads_for_write reads (tablet_id document_id) in
      match recorded with
      | Err e => (self, reads, Err e)
      | Panic => (self, reads, Panic)
      | Ret _ =>
          let self := add_write_size self is_system_document new_document in
          match (check_write_limits self is_system_document ;?
                 coalesce (BTreeMap.get (id_key document_id) (updates self)) document_id old_document new_document) with
          | Err e => (self, reads, Err e)
          | Panic => (self, reads, Panic)
          | Ret u => (put_update self u, reads, Ret tt)
          end
      end
  end.

(** [coalesced_writes]. *)
Definition coalesced_writes (self : Writes) : list DocumentUpdateWithPrevTs := map snd (updates self).

Definition generated_ids (self : Writes) : list ResolvedDocumentId :=
  map up_id (bfilter (fun u => match up_old u with None => true | Some _ => false end) (coalesced_writes self)).
End writes.

(** ** Nested function calls

    A script writes, and runs nested scripts that commit or roll back, each
    with the token it was given. *)
Inductive script (W : Type) :=
| Write (f : W -> W)
| Then (s t : script W)
| Nested (commit : bool) (s : script W).
Arguments Write {W}.
Arguments Then {W}.
Arguments Nested {W}.

Section scripts.
Context {W : Type}.

Fixpoint run_script (s : script W) (w : NestedWrites W) : outcome nested_error (NestedWrites W) :=
  match s with
  | Write f => Ret (set_pending w (f (pending w)))
  | Then s t => let? w := run_script s w in run_script t w
  | Nested commit s =>
      let? (w, token) := begin_nested w in
      let? w := run_script s w in
      if commit : bool then commit_nested w token else rollback_nested w token
  end.

(** What a script writes: nothing where it rolls back. *)
Fixpoint script_effect (s : script W) (w : W) : W :=
  match s with
  | Write f => f w
  | Then s t => script_effect t (script_effect s w)
  | Nested commit s => if commit : bool then script_effect s w else w
  end.

Fixpoint script_depth (s : script W) : Z :=
  match s with
  | Write _ => 0
  | Then s t => Z.max (script_depth s) (script_depth t)
  | Nested _ s => 1 + script_depth s
  end.

Lemma script_depth_nonneg s : 0 <= script_depth s.
Proof. induction s; cbn [script_depth]; lia. Qed.

Lemma run_script_ok s : forall w, nested_token w + script_depth s < 2 ^ 32 ->
  run_script s w = Ret (set_pending w (script_effect s (pending w))).
Proof.
  induction s as [f|s IHs t IHt|commit s IH]; intros w Hw; cbn [run_script script_effect script_depth] in *; [done|..].
  - rewrite IHs by lia. cbn [obind]. rewrite IHt; [by destruct w|]. destruct w; cbn in *. lia.
  - pose proof (script_depth_nonneg s). unfold begin_nested.
    replace (nested_token w + 1 <? 2 ^ 32) with true by (symmetry; apply Z.ltb_lt; lia). cbn [rassert obind].
    rewrite IH by (cbn [nested_token]; lia). cbn [obind]. unfold commit_nested, rollback_nested. cbn [nested_token set_pending].
    rewrite Z.eqb_refl. cbn [ensure obind]. destruct commit; destruct w; done.
Qed.
End scripts.

(** ** What the write set holds

    A transaction reads [base] and sees its own writes: [view] is what it sees. *)
Notation view := (ResolvedDocumentId -> option (PackedDocument * WriteTimestamp)) (only parsing).

Definition base_view (base : ResolvedDocumentId -> option (PackedDocument * Timestamp)) : view :=
  fun i => option_map (fun v => (v.1, TransactionIndex.Committed v.2)) (base i).

Definition view_write (db : view) (i : ResolvedDocumentId) (new : option PackedDocument) : view :=
  fun j => if decide (j = i) then option_map (fun d => (d, TransactionIndex.Pending)) new else db j.

Lemma id_key_inj i j : id_key i = id_key j -> i = j.
Proof. destruct i as [t [n x]], j as [t' [n' x']]. unfold id_key. cbn. congruence. Qed.

Lemma lexicographic_refl {A} (f : A -> A -> comparison) l : Forall (fun x => f x x = Eq) l -> lexicographic f l l = Eq.
Proof. induction 1 as [|x l Hx _ IH]; [done|]. cbn. rewrite Hx. exact IH. Qed.

Lemma value_cmp_refl v : value_cmp v v = Eq.
Proof.
  induction v using ConvexValue_ind'; cbn [value_cmp type_tag]; rewrite ?Nat.compare_refl; try apply cmp_refl; try done.
  - by apply lexicographic_refl.
  - apply lexicographic_refl. eapply Forall_impl; [done|]. intros [k v] Hv. cbn in *. by rewrite cmp_refl, Hv.
Qed.

Lemma documents_eqb_refl a : documents_eqb a a = true.
Proof. destruct a as [d|]; [|done]. cbn. unfold document_eqb. by rewrite bool_decide_true, value_cmp_refl. Qed.

(** One entry per written document: from what [base] had to what the
    transaction sees. *)
Definition entry_exact (base : ResolvedDocumentId -> option (PackedDocument * Timestamp)) (db : view) (i : ResolvedDocumentId)
    (entry : option DocumentUpdateWithPrevTs) : Prop :=
  match entry with
  | Some u => up_id u = i /\ up_old u = base i /\ db i = option_map (fun d => (d, TransactionIndex.Pending)) (up_new u)
  | None => db i = base_view base i
  end.

Definition updates_exact base (db : view) (w : Writes) : Prop :=
  BTreeMap.wf (updates w) /\ forall i, entry_exact base db i (BTreeMap.get (id_key i) (updates w)).

Lemma coalesce_ok base db i entry new : entry_exact base db i entry ->
  exists u, coalesce entry i (db i) new = Ret u /\ up_id u = i /\ up_old u = base i /\ up_new u = new.
Proof.
  destruct entry as [u|]; cbn [entry_exact coalesce].
  - intros (Hid & Hold & ->). assert (Hnew : option_map fst (option_map (fun d => (d, TransactionIndex.Pending)) (up_new u)) = up_new u) by (by destruct (up_new u)).
    rewrite Hnew, documents_eqb_refl. cbn [ensure obind]. eexists. split; [by destruct (up_new u)|]. done.
  - intros ->. unfold base_view. destruct (base i) as [[d ts]|] eqn:E; cbn [option_map fst snd obind]; eexists; (split; [done|]); done.
Qed.

Lemma put_update_exact base db w u i : updates_exact base db w -> up_id u = i -> up_old u = base i ->
  updates_exact base (view_write db i (up_new u)) (put_update w u).
Proof.
  intros [Hwf Hex] Hid Hold. split; [by apply BTreeMap.wf_insert|]. intros j. cbn [updates put_update]. rewrite Hid.
  rewrite BTreeMap.get_insert_if by done. unfold view_write. destruct (decide (id_key j = id_key i)) as [He%id_key_inj|Hne].
  - subst j. cbn [entry_exact]. by rewrite decide_True.
  - specialize (Hex j). unfold entry_exact in *. rewrite decide_False by (by intros ->). done.
Qed.

(** ** What a write depends on *)
Section dependencies.
Context {M : Type -> Type} `{StringMapLaws M} {Trace : Type} (capture : bool) (trace : Trace) (encode_urlsafe : list Z -> list Z).
Context (max_user_writes max_user_bytes max_system_writes max_system_bytes : Z).
Context (bootstrap_tables : BootstrapTableIds) (tables_number : Z).
(** Base64 of the sixteen bytes of a tablet is a short text. *)
Hypothesis Hbase64 : forall t, length t = 16%nat -> valid (String (encode_urlsafe t)) = true.

Notation TxReads := (TransactionReadSet (M := M) (Trace := Trace)).
Notation update_ := (writes_update capture trace encode_urlsafe max_user_writes max_user_bytes max_system_writes max_system_bytes
  bootstrap_tables tables_number).
Notation by_table_id := (Committer.index_id bootstrap_tables, INDEX_BY_TABLE_ID_VIRTUAL_INDEX_DESCRIPTOR).

(** The fields under which the indexes a write depends on are recorded. *)
Definition expected_fields (n : list Z * list Z) : option (list FieldPath) :=
  if bool_decide (n.2 = INDEX_BY_ID_DESCRIPTOR) then Some by_id_fields
  else if bool_decide (n = by_table_id) then Some [TABLE_ID_FIELD_PATH] else None.

Record reads_ok (reads : TxReads) : Prop := {
  ok_set : read_set_ok (read_set reads);
  ok_fields : forall n r fs, BTreeMap.get n (indexed (read_set reads)) = Some r -> expected_fields n = Some fs -> fields r = fs;
}.

Definition reads_grow (reads reads' : TxReads) : Prop :=
  reads_ok reads' /\ forall n k, key_read (read_set reads) n k -> key_read (read_set reads') n k.

Lemma reads_grow_trans a b c : reads_grow a b -> reads_grow b c -> reads_grow a c.
Proof. intros [_ Hab] [Hc Hbc]. split; [done|]. eauto. Qed.

Lemma record_derived_ok reads n fs i : reads_ok reads -> is_valid_identifier n.2 = true -> expected_fields n = Some fs ->
  exists reads', (forall E, record_indexed_derived (E := E) capture reads trace n fs i = Ret reads') /\
    reads_grow reads reads' /\ (forall k, inside i k -> key_read (read_set reads') n k).
Proof.
  intros [Hs Hf] Hn Hfs. unfold record_indexed_derived.
  destruct (record_indexed_spec capture reads trace n fs [i] Hs Hn) as (reads' & lens & He & Hs' & _ & (r & Hr & Hfr) & Ho & Hk & _).
  { intros r Hr. by apply (Hf n). }
  exists reads'. split_and!; [intros E; by rewrite He| |].
  - split.
    + constructor; [done|]. intros n' r' fs' Hg Hfs'. destruct (decide (n' = n)) as [->|Hne]; [congruence|].
      rewrite Ho in Hg by done. by apply (Hf n').
    + intros n' k. destruct (decide (n' = n)) as [->|Hne]; [rewrite Hk; by left|].
      unfold key_read. by rewrite Ho.
  - intros k Hin. apply Hk. right. exists i. split; [left|done].
Qed.

(** The bytes of an id in an index key. *)
Definition id_enc (i : DeveloperDocumentId) : list Z := enc (id_value i).

Lemma id_bytes_ok {E} i : valid_id i -> id_bytes (E := E) i = Ret (id_enc i).
Proof.
  intros Hv. destruct (id_encode_value i Hv) as (s & _ & Hval & Hg & _ & Hto). unfold id_bytes, new_allow_missing, id_enc.
  rewrite Hto. cbn [obind app]. unfold to_bytes. cbn [values_with_id]. rewrite Hval, values_to_bytes_enc.
  - cbn [map concat enc_opt]. by rewrite app_nil_r.
  - intros v Hin. apply list_elem_of_singleton in Hin as ->. apply Hg.
Qed.

Lemma by_id_expected t : expected_fields (by_id t) = Some by_id_fields.
Proof. unfold expected_fields, by_id. cbn [snd]. by rewrite bool_decide_true. Qed.

Lemma by_table_id_expected : expected_fields by_table_id = Some [TABLE_ID_FIELD_PATH].
Proof. unfold expected_fields. cbn [snd]. rewrite bool_decide_false by done. by rewrite bool_decide_true. Qed.

Lemma register_new_id_ok {E} reads i : reads_ok reads -> valid_id (developer_id i) ->
  exists reads', register_new_id capture trace (E := E) reads i = Ret reads' /\ reads_grow reads reads' /\
    (forall k, inside (prefix (id_enc (developer_id i))) k -> key_read (read_set reads') (by_id (tablet_id i)) k).
Proof.
  intros Hr Hv. unfold register_new_id. rewrite id_bytes_ok by done. cbn [obind].
  destruct (record_derived_ok reads (by_id (tablet_id i)) by_id_fields (prefix (id_enc (developer_id i))) Hr eq_refl (by_id_expected _))
    as (reads' & He & Hg & Hk). exists reads'. split; [apply He|done].
Qed.

(** The reads that a write to a table depends on: all of the system tables for a
    write to one of them, else the table's own rows. *)
Definition table_dependency (reads : TxReads) (t : TabletId) : Prop :=
  if bool_decide (t = Committer.index_id bootstrap_tables) || bool_decide (t = tables_id bootstrap_tables) then
    forall k, bytes k -> key_read (read_set reads) (by_id (tables_id bootstrap_tables)) k /\
      key_read (read_set reads) (by_id (Committer.index_id bootstrap_tables)) k
  else
    (forall k, inside (prefix (id_enc (MkId tables_number t))) k -> key_read (read_set reads) (by_id (tables_id bootstrap_tables)) k) /\
    (forall k, inside (prefix (enc (String (encode_urlsafe t)))) k -> key_read (read_set reads) by_table_id k).

Lemma table_dependency_grow reads reads' t : table_dependency reads t -> reads_grow reads reads' -> table_dependency reads' t.
Proof. unfold table_dependency. intros Hd [_ Hg]. destruct (_ || _); [|destruct Hd]; naive_solver. Qed.

Lemma inside_all k : inside all k.
Proof. unfold all, inside. apply inside_alt. split; [by apply nil_ole|done]. Qed.

Definition tablet_ok (t : TabletId) : Prop := length t = 16%nat /\ bytes t.

Lemma record_reads_for_write_ok reads t : reads_ok reads -> tablet_ok t -> 0 < tables_number < 2 ^ 32 ->
  exists reads', record_reads_for_write capture trace encode_urlsafe bootstrap_tables tables_number reads t = (reads', Ret tt) /\
    reads_grow reads reads' /\ table_dependency reads' t.
Proof.
  intros Hr [Hl Hb] Hn. unfold record_reads_for_write, table_dependency.
  destruct (_ || _).
  - destruct (record_derived_ok reads (by_id (tables_id bootstrap_tables)) by_id_fields all Hr eq_refl (by_id_expected _)) as (r1 & He1 & Hg1 & Hk1).
    destruct (record_derived_ok r1 (by_id (Committer.index_id bootstrap_tables)) by_id_fields all (proj1 Hg1) eq_refl (by_id_expected _)) as (r2 & He2 & Hg2 & Hk2).
    exists r2. rewrite He1. cbn [obind]. rewrite He2. split_and!; [done|by eapply reads_grow_trans|].
    intros k _. split; [apply (proj2 Hg2), Hk1|apply Hk2]; apply inside_all.
  - rewrite id_bytes_ok by (split_and!; cbn; [lia|lia|done|done]). cbn [obind].
    destruct (record_derived_ok reads (by_id (tables_id bootstrap_tables)) by_id_fields (prefix (id_enc (MkId tables_number t))) Hr eq_refl (by_id_expected _))
      as (r1 & He1 & Hg1 & Hk1). rewrite He1. pose proof (Hbase64 t Hl) as Hv.
    assert (Hs : serialize_tablet_id encode_urlsafe t = Ret (String (encode_urlsafe t))).
    { unfold serialize_tablet_id, ConvexString_try_from, check_system_size. cbn [valid] in Hv. bool_hyps. cbn [size] in *.
      by rewrite (proj2 (Z.ltb_ge _ _)). }
    rewrite Hs. cbn [obind].
    rewrite values_to_bytes_enc by (intros v Hin; apply list_elem_of_singleton in Hin as ->; exact Hv).
    cbn [obind map concat enc_opt]. rewrite app_nil_r.
    destruct (record_derived_ok r1 by_table_id [TABLE_ID_FIELD_PATH] (prefix (enc (String (encode_urlsafe t)))) (proj1 Hg1) eq_refl by_table_id_expected)
      as (r2 & He2 & Hg2 & Hk2). rewrite He2. exists r2. split_and!; [done|by eapply reads_grow_trans| |done].
    intros k Hin. by apply (proj2 Hg2), Hk1.
Qed.

Definition within_limits (w : Writes) : Prop :=
  num_writes (user_write_size w) <= max_user_writes /\ write_size (user_write_size w) <= max_user_bytes /\
  num_writes (system_write_size w) <= max_system_writes /\ write_size (system_write_size w) <= max_system_bytes.

(** An error of a consistent update: the id is already written, or the new size exceeds a limit. *)
Definition update_refused (w w' : Writes) (i : ResolvedDocumentId) (old : option (PackedDocument * WriteTimestamp)) (e : writes_error) : Prop :=
  updates w' = updates w /\
  match e with
  | DuplicateInsert => w' = w /\ old = None /\ is_Some (BTreeMap.get (id_key i) (updates w))
  | TooManySystemWrites => max_system_writes < num_writes (system_write_size w')
  | TooManySystemBytes => max_system_bytes < write_size (system_write_size w')
  | TooManyWrites => max_user_writes < num_writes (user_write_size w')
  | TooManyBytesWritten => max_user_bytes < write_size (user_write_size w')
  | _ => False
  end.

Lemma check_write_limits_ok w sys : match check_write_limits max_user_writes max_user_bytes max_system_writes max_system_bytes w sys with
  | Ret _ => if sys : bool then num_writes (system_write_size w) <= max_system_writes /\ write_size (system_write_size w) <= max_system_bytes
             else num_writes (user_write_size w) <= max_user_writes /\ write_size (user_write_size w) <= max_user_bytes
  | Err e => forall w0 i old, updates w = updates w0 -> update_refused w0 w i old e
  | Panic => False
  end.
Proof.
  unfold check_write_limits. destruct sys.
  - destruct (Z.leb_spec (num_writes (system_write_size w)) max_system_writes); cbn [ensure obind]; [|by split].
    destruct (Z.leb_spec (write_size (system_write_size w)) max_system_bytes); cbn [ensure obind]; [done|by split].
  - destruct (Z.leb_spec (num_writes (user_write_size w)) max_user_writes); cbn [ensure obind]; [|by split].
    destruct (Z.leb_spec (write_size (user_write_size w)) max_user_bytes); cbn [ensure obind]; [done|by split].
Qed.

Lemma add_write_size_updates w sys new : updates (add_write_size w sys new) = updates w.
Proof. by destruct sys. Qed.

(** What a document write leaves. *)
Definition write_done base (db : view) (w w' : Writes) (reads' : TxReads) (i : ResolvedDocumentId) (new : option PackedDocument) : Prop :=
  updates_exact base (view_write db i new) w' /\ table_dependency reads' (tablet_id i) /\
  (db i = None -> forall k, inside (prefix (id_enc (developer_id i))) k -> key_read (read_set reads') (by_id (tablet_id i)) k) /\
  (within_limits w -> within_limits w') /\ is_Some (BTreeMap.get (id_key i) (updates w')) /\
  (forall j, j <> i -> BTreeMap.get (id_key j) (updates w') = BTreeMap.get (id_key j) (updates w)).

Lemma writes_update_ok base db w reads sys i new :
  updates_exact base db w -> reads_ok reads -> valid_id (developer_id i) -> tablet_ok (tablet_id i) -> 0 < tables_number < 2 ^ 32 ->
  exists w' reads' r, update_ w sys reads i (db i) new = (w', reads', r) /\ reads_grow reads reads' /\
    match r with
    | Ret _ => write_done base db w w' reads' i new
    | Err e => update_refused w w' i (db i) e
    | Panic => False
    end.
Proof.
  intros Hex Hr Hv Ht Hn. unfold writes_update.
  assert (Hreg : (exists r1, (match db i with
      | None => ensure (match BTreeMap.get (id_key i) (updates w) with None => true | Some _ => false end) DuplicateInsert ;?
                register_new_id capture trace reads i
      | Some _ => Ret reads end) = Ret r1 /\ reads_grow reads r1 /\
      (db i = None -> forall k, inside (prefix (id_enc (developer_id i))) k -> key_read (read_set r1) (by_id (tablet_id i)) k)) \/
    ((match db i with
      | None => ensure (match BTreeMap.get (id_key i) (updates w) with None => true | Some _ => false end) DuplicateInsert ;?
                register_new_id capture trace reads i
      | Some _ => Ret reads end) = Err DuplicateInsert /\ update_refused w w i (db i) DuplicateInsert)).
  { destruct (db i) as [v|].
    - left. exists reads. split_and!; [done|by split|done].
    - destruct (BTreeMap.get (id_key i) (updates w)) as [u|] eqn:Hg; cbn [ensure obind].
      + right. split; [done|]. split; [done|]. rewrite Hg. by eauto.
      + left. destruct (register_new_id_ok (E := writes_error) reads i Hr Hv) as (r1 & He & Hg1 & Hk). by exists r1. }
  destruct Hreg as [(r1 & -> & Hg1 & Hk1)|[-> Href]]; [|exists w, reads, (Err DuplicateInsert); by split_and!].
  destruct (record_reads_for_write_ok r1 (tablet_id i) (proj1 Hg1) Ht Hn) as (r2 & -> & Hg2 & Hd2).
  set (w1 := add_write_size w sys new).
  assert (Hu1 : updates w1 = updates w) by apply add_write_size_updates.
  pose proof (check_write_limits_ok w1 sys) as Hlim. pose proof (reads_grow_trans _ _ _ Hg1 Hg2) as Hg.
  destruct (check_write_limits _ _ _ _ w1 sys) as [[]|e|]; cbn [obind]; [|do 3 eexists; split_and!; [done|done|by apply Hlim]|done].
  assert (Hex1 : updates_exact base db w1) by (unfold updates_exact; by rewrite Hu1).
  destruct (coalesce_ok base db i _ new (proj2 Hex1 i)) as (u & -> & Hid & Hold & <-).
  do 3 eexists. split_and!; [done|done|]. split_and!; [by apply put_update_exact|done| | | |].
  - intros Hnone k Hin. apply (proj2 Hg2). by apply Hk1.
  - unfold within_limits, w1, add_write_size in *. destruct sys; cbn in *; naive_solver.
  - cbn [updates put_update]. rewrite Hid, BTreeMap.get_insert_eq; [by eexists|apply Hex1].
  - intros j Hj. cbn [updates put_update]. rewrite Hid, BTreeMap.get_insert_ne, Hu1; [done|apply Hex1|]. by intros He%id_key_inj.
Qed.

(** *** Sequences of writes *)

Record write_request := MkWriteRequest { wr_system : bool; wr_id : ResolvedDocumentId; wr_new : option PackedDocument }.

Definition request_ok (q : write_request) : Prop := valid_id (developer_id (wr_id q)) /\ tablet_ok (tablet_id (wr_id q)).

(** A transaction passes what it sees of the document. *)
Definition exec (st : view * Writes * TxReads) (q : write_request) : (view * Writes * TxReads) * outcome writes_error unit :=
  let '(db, w, reads) := st in
  let '(w, reads, r) := update_ w (wr_system q) reads (wr_id q) (db (wr_id q)) (wr_new q) in
  (match r with Ret _ => view_write db (wr_id q) (wr_new q) | _ => db end, w, reads, r).

Fixpoint exec_all (st : view * Writes * TxReads) (qs : list write_request) : (view * Writes * TxReads) * list (outcome writes_error unit) :=
  match qs with
  | [] => (st, [])
  | q :: qs => let '(st, r) := exec st q in let '(st, rs) := exec_all st qs in (st, r :: rs)
  end.

(** The documents of the requests that succeeded. *)
Fixpoint written (qs : list write_request) (results : list (outcome writes_error unit)) : list ResolvedDocumentId :=
  match qs, results with
  | q :: qs, Ret _ :: results => wr_id q :: written qs results
  | _ :: qs, _ :: results => written qs results
  | _, _ => []
  end.

(** The write set has an entry for a document. *)
Definition has_entry (w : Writes) (i : ResolvedDocumentId) : Prop := is_Some (BTreeMap.get (id_key i) (updates w)).

(** The invariant of a transaction's writes. *)
Definition dependencies_recorded (w : Writes) (reads : TxReads) : Prop :=
  forall k u, BTreeMap.get k (updates w) = Some u ->
    table_dependency reads (tablet_id (up_id u)) /\
    (up_old u = None -> forall k, inside (prefix (id_enc (developer_id (up_id u)))) k ->
       key_read (read_set reads) (by_id (tablet_id (up_id u))) k).

Record writes_ok base (st : view * Writes * TxReads) : Prop := {
  wo_exact : updates_exact base st.1.1 st.1.2;
  wo_reads : reads_ok st.2;
  wo_deps : dependencies_recorded st.1.2 st.2;
}.

Lemma dependencies_grow w reads reads' : dependencies_recorded w reads -> reads_grow reads reads' -> dependencies_recorded w reads'.
Proof.
  intros Hd Hg k u Hu. destruct (Hd k u Hu) as [H1 H2]. split; [by eapply table_dependency_grow|].
  intros Hn k' Hk'. by apply (proj2 Hg), H2.
Qed.

Lemma exec_ok base st q : writes_ok base st -> request_ok q -> 0 < tables_number < 2 ^ 32 ->
  writes_ok base (exec st q).1 /\ (exec st q).2 <> Panic /\
  ((exec st q).2 = Ret tt -> within_limits st.1.2 -> within_limits (exec st q).1.1.2) /\
  (forall i, has_entry (exec st q).1.1.2 i <-> has_entry st.1.2 i \/ i ∈ written [q] [(exec st q).2]).
Proof.
  destruct st as [[db w] reads]. intros [Hex Hr Hd] [Hv Ht] Hn. cbn [fst snd] in *. unfold exec.
  destruct (writes_update_ok base db w reads (wr_system q) (wr_id q) (wr_new q) Hex Hr Hv Ht Hn) as (w' & reads' & r & -> & Hg & Hres).
  pose proof (dependencies_grow _ _ _ Hd Hg) as Hd'.
  destruct r as [[]|e|]; [| |done]; cbn [fst snd].
  - destruct Hres as (Hex' & Htd & Hnew & Hlim & Hent & Hsame). split_and!; [|done|done|].
    2:{ intros i. cbn [written]. rewrite list_elem_of_singleton. unfold has_entry.
        destruct (decide (i = wr_id q)) as [->|Hi]; [by split; [right|]|]. rewrite Hsame by done. naive_solver. }
    constructor; [done|apply Hg|]. cbn [fst snd].
    intros [t [n x]] u Hu. set (j := MkResolved t (MkId n x)). change (t, (n, x)) with (id_key j) in Hu.
    destruct (decide (j = wr_id q)) as [Hj|Hj]; [|rewrite Hsame in Hu by done; by apply (Hd' (id_key j))].
    pose proof (proj2 Hex' j) as He. rewrite Hu in He. destruct He as (Hid & Hold & _). rewrite Hid, Hj. split; [done|].
    intros Hnone. pose proof (proj2 Hex (wr_id q)) as He0. destruct (BTreeMap.get (id_key (wr_id q)) (updates w)) as [u0|] eqn:Hu0.
    + destruct He0 as (Hid0 & Hold0 & _). rewrite <- Hid0. apply (Hd' _ _ Hu0). by rewrite Hold0, <- Hj, <- Hold.
    + apply Hnew. cbn [entry_exact] in He0. rewrite He0. unfold base_view. by rewrite <- Hj, <- Hold, Hnone.
  - destruct Hres as [Hu Hres]. split_and!; [|done|done|].
    2:{ intros i. unfold has_entry. rewrite Hu. cbn [written]. rewrite elem_of_nil. naive_solver. }
    constructor; cbn [fst snd].
    + unfold updates_exact. by rewrite Hu.
    + apply Hg.
    + unfold dependencies_recorded. by rewrite Hu.
Qed.

Lemma exec_all_ok base qs : forall st, writes_ok base st -> Forall request_ok qs -> 0 < tables_number < 2 ^ 32 ->
  writes_ok base (exec_all st qs).1 /\ Forall (fun r => r <> Panic) (exec_all st qs).2 /\
  (Forall (fun r => r = Ret tt) (exec_all st qs).2 -> within_limits st.1.2 -> within_limits (exec_all st qs).1.1.2) /\
  (forall i, has_entry (exec_all st qs).1.1.2 i <-> has_entry st.1.2 i \/ i ∈ written qs (exec_all st qs).2).
Proof.
  induction qs as [|q qs IH]; intros st Hst Hqs Hn; cbn [exec_all].
  { split_and!; [done|constructor|done|]. intros i. cbn [snd written]. rewrite elem_of_nil. naive_solver. }
  apply Forall_cons in Hqs as [Hq Hqs].
  destruct (exec_ok base st q Hst Hq Hn) as (Hst1 & Hp & Hl & He). destruct (exec st q) as [st1 r]. cbn [fst snd] in *.
  destruct (IH st1 Hst1 Hqs Hn) as (Hst2 & Hps & Hls & Hes). destruct (exec_all st1 qs) as [st2 rs]. cbn [fst snd] in *.
  split_and!; [done|by constructor|intros [Hr Hrs]%Forall_cons Hlim; by apply Hls, Hl|].
  intros i. rewrite Hes, He. cbn [written]. destruct r as [[]|e|]; rewrite ?elem_of_cons, ?elem_of_nil; naive_solver.
Qed.
End dependencies.

(** *** Sizes *)

Definition update_size (u : DocumentUpdateWithPrevTs) : Z :=
  document_id_size + match up_new u with Some d => size (value d) | None => 0 end.

Definition total_size (us : list DocumentUpdateWithPrevTs) : Z := fold_right (fun u n => update_size u + n) 0 us.

Lemma update_size_pos u : 0 < update_size u.
Proof. unfold update_size, document_id_size. destruct (up_new u) as [d|]; [pose proof (size_pos (value d))|]; lia. Qed.

Lemma insert_total k u (m : BTreeMap.t (list Z * (Z * list Z)) DocumentUpdateWithPrevTs) :
  Z.of_nat (length (BTreeMap.insert k u m)) <= 1 + Z.of_nat (length m) /\
  total_size (map snd (BTreeMap.insert k u m)) <= update_size u + total_size (map snd m).
Proof.
  induction m as [|[k' u'] m IH]; cbn [BTreeMap.insert map snd]; [cbn; lia|]. pose proof (update_size_pos u').
  destruct (cmp k k'); cbn [map snd length total_size fold_right] in *; unfold total_size in *; lia.
Qed.

(** The counters cover what is written. *)
Definition sizes_cover (w : Writes) : Prop :=
  Z.of_nat (length (updates w)) <= num_writes (user_write_size w) + num_writes (system_write_size w) /\
  total_size (coalesced_writes w) <= write_size (user_write_size w) + write_size (system_write_size w).

Section sizes.
Context {M : Type -> Type} `{StringMapLaws M} {Trace : Type} (capture : bool) (trace : Trace) (encode_urlsafe : list Z -> list Z).
Context (max_user_writes max_user_bytes max_system_writes max_system_bytes : Z).
Context (bootstrap_tables : BootstrapTableIds) (tables_number : Z).

Lemma coalesce_new entry i old new u : coalesce entry i old new = Ret u -> up_new u = new.
Proof.
  unfold coalesce. destruct entry as [u0|].
  - destruct (ensure _ InconsistentOldDocument); cbn [obind]; [|done..].
    destruct (ensure _ InconsistentOldTimestamp); cbn [obind]; [|done..]. by intros [= <-].
  - destruct old as [[d [ts|]]|]; try done; by intros [= <-].
Qed.

Lemma writes_update_sizes w sys reads i old new : sizes_cover w ->
  sizes_cover (writes_update (M := M) (Trace := Trace) capture trace encode_urlsafe max_user_writes max_user_bytes max_system_writes max_system_bytes
    bootstrap_tables tables_number w sys reads i old new).1.1.
Proof.
  intros Hw. unfold writes_update. destruct (match old with None => _ | Some _ => _ end) as [reads1|e|]; [|done|done].
  destruct (record_reads_for_write _ _ _ _ _ _ _) as [reads2 [[]|e|]]; [|done|done].
  assert (Hgrow : 0 <= document_id_size + match new with Some d => size (value d) | None => 0 end).
  { destruct new as [d|]; [pose proof (size_pos (value d))|]; unfold document_id_size; lia. }
  assert (Hadd : sizes_cover (add_write_size w sys new)).
  { destruct Hw. unfold sizes_cover, coalesced_writes, add_write_size, grow in *. destruct sys; cbn [updates user_write_size system_write_size num_writes write_size up_id] in *; lia. }
  destruct (check_write_limits _ _ _ _ _ sys) as [[]|e|]; cbn [obind]; [|done|done].
  destruct (coalesce _ i old new) as [u|e|] eqn:Hc; cbn [fst]; [|done|done].
  apply coalesce_new in Hc. pose proof (insert_total (id_key (up_id u)) u (updates w)) as [H1 H2].
  destruct Hw as [Hw1 Hw2]. unfold sizes_cover, coalesced_writes, put_update, add_write_size, grow, update_size in *. rewrite Hc in H2.
  destruct sys; cbn [updates user_write_size system_write_size num_writes write_size up_id] in *; lia.
Qed.

Lemma exec_all_sizes qs : forall st, sizes_cover st.1.2 ->
  sizes_cover (exec_all (M := M) (Trace := Trace) capture trace encode_urlsafe max_user_writes max_user_bytes max_system_writes max_system_bytes
    bootstrap_tables tables_number st qs).1.1.2.
Proof.
  induction qs as [|q qs IH]; intros [[db w] reads] Hst; cbn [exec_all]; [done|]. cbn [fst snd] in Hst.
  pose proof (writes_update_sizes w (wr_system q) reads (wr_id q) (db (wr_id q)) (wr_new q) Hst) as H1.
  destruct (exec _ _ _ _ _ _ _ _ _ (db, w, reads) q) as [st1 r] eqn:E. unfold exec in E.
  destruct (writes_update _ _ _ _ _ _ _ _ _ _ _ _ _ _ _) as [[w1 reads1] r1]. injection E as <- <-. cbn [fst] in H1.
  specialize (IH (match r1 with Ret _ => view_write db (wr_id q) (wr_new q) | _ => db end, w1, reads1) H1).
  by destruct (exec_all _ _ _ _ _ _ _ _ _ _ qs).
Qed.
End sizes.

(** ** Properties *)

(** Nested calls are transactions within the transaction: whatever a
    script of writes and of nested calls (which commit or roll back with the
    token they were given) does, it succeeds, the parents and the token are as
    before, and the pending writes are those of the script with every
    rolled-back call left out; the bound is that of the token, a u32. *)
Theorem nested_writes_exact {W} (s : script W) (w : NestedWrites W) :
  nested_token w + script_depth s < 2 ^ 32 ->
  run_script s w = Ret (set_pending w (script_effect s (pending w))).
Proof. apply run_script_ok. Qed.

Lemma nested_writes_exact_witness :
  run_script (Then (Nested true (Then (Write (cons 1)) (Nested false (Write (cons 2))))) (Write (cons 3))) (nested_new []) = Ret (nested_new [3; 1]).
Proof. apply nested_writes_exact. cbn. lia. Defined.

(** The state at the start of a transaction. *)
Definition start_writes {M Trace} (base : ResolvedDocumentId -> option (PackedDocument * Timestamp))
    (reads : TransactionReadSet (M := M) (Trace := Trace)) : view * Writes * TransactionReadSet (M := M) (Trace := Trace) :=
  (base_view base, writes_new, reads).

Lemma start_writes_ok {M} `{StringMapLaws M} {Trace} bootstrap_tables encode_urlsafe tables_number base (reads : TransactionReadSet (M := M) (Trace := Trace)) :
  reads_ok bootstrap_tables reads -> writes_ok encode_urlsafe bootstrap_tables tables_number base (start_writes base reads).
Proof. intros Hr. by constructor. Qed.

(** C24: the write set coalesces: after any sequence of writes in which a
    transaction passes what it sees of each document, no write panicked, the
    write set has exactly one entry for each document that a successful write
    was for, from the version the transaction started with (with its timestamp)
    to the version it sees now, no entry for any other document, and a document
    without an entry is as it started. *)
Theorem writes_coalesce_exactly {M} `{StringMapLaws M} {Trace} (capture : bool) (trace : Trace) encode_urlsafe
    (max_user_writes max_user_bytes max_system_writes max_system_bytes : Z) bootstrap_tables tables_number
    base (reads : TransactionReadSet (M := M) (Trace := Trace)) qs db w reads' results :
  (forall t, length t = 16%nat -> valid (String (encode_urlsafe t)) = true) -> 0 < tables_number < 2 ^ 32 ->
  reads_ok bootstrap_tables reads -> Forall request_ok qs ->
  exec_all capture trace encode_urlsafe max_user_writes max_user_bytes max_system_writes max_system_bytes bootstrap_tables tables_number
    (start_writes base reads) qs = ((db, w, reads'), results) ->
  Forall (fun r => r <> Panic) results /\ BTreeMap.wf (updates w) /\
  (forall i, match BTreeMap.get (id_key i) (updates w) with
             | Some u => i ∈ written qs results /\
                 up_id u = i /\ up_old u = base i /\ db i = option_map (fun d => (d, TransactionIndex.Pending)) (up_new u)
             | None => i ∉ written qs results /\ db i = base_view base i
             end).
Proof.
  intros H64 Hn Hr Hqs He.
  destruct (exec_all_ok capture trace encode_urlsafe max_user_writes max_user_bytes max_system_writes max_system_bytes bootstrap_tables tables_number
    H64 base qs _ (start_writes_ok bootstrap_tables encode_urlsafe tables_number base reads Hr) Hqs Hn) as ([[Hwf Hex] _ _] & Hp & _ & Hent).
  rewrite He in *. cbn [fst snd] in *. split_and!; [done|done|]. intros i. specialize (Hex i). specialize (Hent i). unfold has_entry in Hent.
  cbn in Hent. destruct (BTreeMap.get (id_key i) (updates w)) as [u|]; (split; [|exact Hex]).
  - by destruct (proj1 Hent) as [[]|]; [eexists|..].
  - intros Hin. by destruct (proj2 Hent (or_intror Hin)).
Qed.

(** C25: writes that race are detected: in the state after any sequence of
    writes, a document that the transaction created conflicts with every other
    commit that writes the same id, and every written document conflicts with
    a commit that writes the row of its table in the tables table or an index
    of its table; one written to either system table conflicts with a commit
    that writes any row of either of them: the read set overlaps the keys that
    such a commit logs. *)
Theorem racing_writes_conflict {M} `{StringMapLaws M} {Trace} (capture : bool) (trace : Trace) encode_urlsafe
    (max_user_writes max_user_bytes max_system_writes max_system_bytes : Z) bootstrap_tables tables_number
    base (reads : TransactionReadSet (M := M) (Trace := Trace)) qs db w reads' results k u other keys key :
  (forall t, length t = 16%nat -> valid (String (encode_urlsafe t)) = true) -> 0 < tables_number < 2 ^ 32 ->
  reads_ok bootstrap_tables reads -> Forall request_ok qs ->
  exec_all capture trace encode_urlsafe max_user_writes max_user_bytes max_system_writes max_system_bytes bootstrap_tables tables_number
    (start_writes base reads) qs = ((db, w, reads'), results) ->
  BTreeMap.get k (updates w) = Some u -> bytes key ->
  let t := tablet_id (up_id u) in
  let system := bool_decide (t = Committer.index_id bootstrap_tables) || bool_decide (t = tables_id bootstrap_tables) in
  (up_old u = None /\ tablet_id other = t /\
     BTreeMap.get (by_id t) keys = Some (Standard key) /\ id_enc (developer_id (up_id u)) `prefix_of` key) \/
  (tablet_id other = tables_id bootstrap_tables /\ BTreeMap.get (by_id (tables_id bootstrap_tables)) keys = Some (Standard key) /\
     (system = true \/ id_enc (MkId tables_number t) `prefix_of` key)) \/
  (tablet_id other = Committer.index_id bootstrap_tables /\
     if system then BTreeMap.get (by_id (Committer.index_id bootstrap_tables)) keys = Some (Standard key)
     else BTreeMap.get (Committer.index_id bootstrap_tables, INDEX_BY_TABLE_ID_VIRTUAL_INDEX_DESCRIPTOR) keys = Some (Standard key) /\
       enc (String (encode_urlsafe t)) `prefix_of` key) ->
  overlaps_index_keys (read_set reads') other keys <> None.
Proof.
  intros H64 Hn Hr Hqs He Hu Hb t system Hcase.
  destruct (exec_all_ok capture trace encode_urlsafe max_user_writes max_user_bytes max_system_writes max_system_bytes bootstrap_tables tables_number
    H64 base qs _ (start_writes_ok bootstrap_tables encode_urlsafe tables_number base reads Hr) Hqs Hn) as ([_ [Hset _] Hdeps] & _).
  rewrite He in *. cbn [fst snd] in *. destruct (Hdeps k u Hu) as [Htab Hid]. apply overlaps_index_keys_spec; [done|]. left.
  assert (Hpre : forall p, p `prefix_of` key -> inside (prefix p) key) by (intros p Hp; by apply prefix_contains).
  unfold table_dependency in Htab. fold t in Htab. fold system in Htab.
  destruct Hcase as [(Hold & Ht & Hg & Hp)|[(Ht & Hg & Hp)|(Ht & Hg)]].
  - exists (by_id t), key. split_and!; [done|done|]. apply Hid; [done|by apply Hpre].
  - exists (by_id (tables_id bootstrap_tables)), key. split_and!; [done|done|]. destruct system.
    + by apply Htab.
    + destruct Hp as [|Hp]; [done|]. by apply Htab, Hpre.
  - destruct system; [|destruct Hg as [Hg Hp]]; (eexists _, key; split_and!; [|exact Hg|]; [done|]); [by apply Htab|by apply Htab, Hpre].
Qed.

(** C36: the limits bound what is committed: the counters cover the number of
    entries and the bytes of the coalesced writes (the bytes of an entry are
    those of its id and of its new version) after any sequence of writes, and
    while every write succeeds they stay within the four limits. *)
Theorem write_limits_enforced {M} `{StringMapLaws M} {Trace} (capture : bool) (trace : Trace) encode_urlsafe
    (max_user_writes max_user_bytes max_system_writes max_system_bytes : Z) bootstrap_tables tables_number
    base (reads : TransactionReadSet (M := M) (Trace := Trace)) qs db w reads' results :
  (forall t, length t = 16%nat -> valid (String (encode_urlsafe t)) = true) -> 0 < tables_number < 2 ^ 32 ->
  0 <= max_user_writes -> 0 <= max_user_bytes -> 0 <= max_system_writes -> 0 <= max_system_bytes ->
  reads_ok bootstrap_tables reads -> Forall request_ok qs ->
  exec_all capture trace encode_urlsafe max_user_writes max_user_bytes max_system_writes max_system_bytes bootstrap_tables tables_number
    (start_writes base reads) qs = ((db, w, reads'), results) ->
  sizes_cover w /\
  (Forall (fun r => r = Ret tt) results -> within_limits max_user_writes max_user_bytes max_system_writes max_system_bytes w /\
     Z.of_nat (length (updates w)) <= max_user_writes + max_system_writes /\
     total_size (coalesced_writes w) <= max_user_bytes + max_system_bytes).
Proof.
  intros H64 Hn ???? Hr Hqs He.
  pose proof (exec_all_sizes capture trace encode_urlsafe max_user_writes max_user_bytes max_system_writes max_system_bytes bootstrap_tables tables_number
    qs (start_writes base reads)) as Hs.
  destruct (exec_all_ok capture trace encode_urlsafe max_user_writes max_user_bytes max_system_writes max_system_bytes bootstrap_tables tables_number
    H64 base qs _ (start_writes_ok bootstrap_tables encode_urlsafe tables_number base reads Hr) Hqs Hn) as (_ & _ & Hl & _).
  rewrite He in *. cbn [fst snd] in *. assert (Hcov : sizes_cover w) by (apply Hs; unfold sizes_cover; cbn; lia).
  split; [done|]. intros Hall. destruct (Hl Hall) as (Hl1 & Hl2 & Hl3 & Hl4); [unfold within_limits; cbn; lia|].
  split; [by split_and!|]. destruct Hcov. lia.
Qed.

Module WritesExample.
Import MemoryExample.
Definition tables : BootstrapTableIds := MkBootstrap (replicate 16 1) (replicate 16 2).
Definition user_table : list Z := replicate 16 3.
Definition doc (n : Z) : PackedDocument := MkDoc (Object [([97], Int64 n)]) (MkResolved user_table (MkId 10 (replicate 16 7))).
Definition base (i : ResolvedDocumentId) : option (PackedDocument * Timestamp) := None.
(** The document is inserted, replaced and deleted. *)
Definition requests : list write_request :=
  [MkWriteRequest false (id (doc 1)) (Some (doc 1)); MkWriteRequest false (id (doc 1)) (Some (doc 2)); MkWriteRequest false (id (doc 1)) None].
Definition encode (t : list Z) : list Z := replicate 22 65.
Definition start : view * Writes * TransactionReadSet (M := fun V => list (list Z * V)) (Trace := unit) :=
  start_writes base (MkTxReads read_set_empty 0 size_zero size_zero).
Definition result := exec_all false tt encode 3 1000 3 1000 tables 1 start requests.

Lemma requests_ok : Forall request_ok requests.
Proof. repeat constructor; cbn; try lia; by apply (bool_decide_unpack _). Qed.

Lemma encode_valid t : length t = 16%nat -> valid (String (encode t)) = true.
Proof. done. Qed.

Lemma reads_start : reads_ok tables (MkTxReads (M := fun V => list (list Z * V)) (Trace := unit) read_set_empty 0 size_zero size_zero).
Proof. constructor; [apply read_set_empty_ok|done]. Qed.

Lemma result_parts : result = ((result.1.1.1, result.1.1.2, result.1.2), result.2).
Proof. by destruct result as [[[??]?]?]. Qed.
End WritesExample.

Lemma writes_coalesce_exactly_witness :
  match BTreeMap.get (id_key (id (WritesExample.doc 1))) (updates WritesExample.result.1.1.2) with
  | Some u => up_old u = None /\ written WritesExample.requests WritesExample.result.2 = replicate 3 (id (WritesExample.doc 1))
  | None => False
  end.
Proof.
  destruct (writes_coalesce_exactly false tt WritesExample.encode 3 1000 3 1000 WritesExample.tables 1 WritesExample.base _ WritesExample.requests
    WritesExample.result.1.1.1 WritesExample.result.1.1.2 WritesExample.result.1.2 WritesExample.result.2
    WritesExample.encode_valid ltac:(lia) WritesExample.reads_start WritesExample.requests_ok WritesExample.result_parts) as (_ & _ & Hall).
  specialize (Hall (id (WritesExample.doc 1))).
  assert (Hw : written WritesExample.requests WritesExample.result.2 = replicate 3 (id (WritesExample.doc 1))) by (vm_compute; reflexivity).
  destruct (BTreeMap.get _ _); [split; [apply Hall|exact Hw]|]. destruct Hall as [Hno _]. apply Hno. rewrite Hw. left.
Defined.

Lemma racing_writes_conflict_witness :
  overlaps_index_keys (read_set WritesExample.result.1.2) (id (WritesExample.doc 1))
    [(by_id WritesExample.user_table, Standard (id_enc (developer_id (id (WritesExample.doc 1)))))] <> None.
Proof.
  destruct (BTreeMap.get (id_key (id (WritesExample.doc 1))) (updates WritesExample.result.1.1.2)) as [u|] eqn:Hu;
    [|vm_compute in Hu; discriminate Hu].
  assert (Hid : up_id u = id (WritesExample.doc 1) /\ up_old u = None) by (vm_compute in Hu; injection Hu as <-; done).
  destruct Hid as [Hid Hold].
  apply (racing_writes_conflict false tt WritesExample.encode 3 1000 3 1000 WritesExample.tables 1 WritesExample.base _ WritesExample.requests
    WritesExample.result.1.1.1 WritesExample.result.1.1.2 WritesExample.result.1.2 WritesExample.result.2 _ u _ _ (id_enc (developer_id (id (WritesExample.doc 1))))
    WritesExample.encode_valid ltac:(lia) WritesExample.reads_start WritesExample.requests_ok WritesExample.result_parts Hu).
  - apply (bool_decide_unpack _). vm_compute. exact I.
  - left. rewrite Hid. split_and!; [done|done|vm_compute; reflexivity|done].
Defined.

Lemma write_limits_enforced_witness : sizes_cover WritesExample.result.1.1.2 /\ WritesExample.result.2 = [Ret tt; Ret tt; Ret tt].
Proof.
  split; [|vm_compute; reflexivity].
  destruct (write_limits_enforced false tt WritesExample.encode 3 1000 3 1000 WritesExample.tables 1 WritesExample.base _ WritesExample.requests
    WritesExample.result.1.1.1 WritesExample.result.1.1.2 WritesExample.result.1.2 WritesExample.result.2
    WritesExample.encode_valid ltac:(lia) ltac:(lia) ltac:(lia) ltac:(lia) ltac:(lia) WritesExample.reads_start WritesExample.requests_ok WritesExample.result_parts) as [Hc _]. exact Hc.
Defined.
