(* ===== verification/Serializability.v ===== *)
(** * Serializability: the commits of a run form a serial history

    The specification of optimistic concurrency control that the committer
    (Committer.v), the read sets (Reads.v), the write log (WriteLog.v) and the
    index registry implement together.  The database state at a timestamp is
    the fold of the commits up to it; every committed transaction would read
    the same documents from every index interval it read at its begin
    timestamp just before its commit timestamp, so that running the
    transactions one after the other in commit order gives the same reads. *)

From Stdlib Require Import Sorted.
From S2P Require Import Prelude Ord BTreeMap Identifier Timestamp Value Sorting SortingDecode Base32 IdV6.
From S2P Require Import Bounds Interval IntervalSet Document IndexRegistry QueryReads Reads WriteLog SnapshotManager Committer.

Local Open Scope Z_scope.

(** The key of a document in an index with the given fields. *)
Definition key_in (d : PackedDocument) (fs : list FieldPath) : list Z := concat (map enc_opt (index_values d fs)).

(** The key of a document in [by_id], which depends on its id only. *)
Definition id_key (i : ResolvedDocumentId) : list Z := enc_opt (Some (id_value (developer_id i))).

Lemma key_in_by_id d : key_in d [] = id_key (id d).
Proof. unfold key_in, id_key, index_values. cbn. by rewrite app_nil_r. Qed.

Section serializability.
Context {M : Type -> Type} `{StringMapLaws M} {Trace : Type}.
Context (sha256 : list Z -> list Z) (tokenize : list Z -> list (list Z)).

Notation Reads := (ReadSet (M := M) (Trace := Trace)).
Notation Rec := (CommitRecord (M := M) (Trace := Trace)).

(** *** The database state *)

Definition Db : Type := ResolvedDocumentId -> option PackedDocument.

Definition apply_write (db : Db) (w : ResolvedDocumentId * PackedDocumentUpdate) : Db :=
  fun i => if decide (i = w.1) then new_document w.2 else db i.

Definition apply_commit (db : Db) (c : Rec) : Db := fold_left apply_write (c_writes c) db.

Definition db_at (base : Db) (h : list Rec) (t : Z) : Db :=
  fold_left apply_commit (bfilter (fun c => c_ts c <=? t) h) base.

Lemma apply_writes_other ws : forall db i, (forall w, w ∈ ws -> w.1 <> i) -> fold_left apply_write ws db i = db i.
Proof.
  induction ws as [|w ws IH]; intros db i Hne; [done|]. cbn [fold_left]. rewrite IH by (intros; apply Hne; by right).
  unfold apply_write. rewrite decide_False; [done|]. intros ->. by apply (Hne w); [left|].
Qed.

Lemma apply_writes_at ws : forall db w, NoDup (map fst ws) -> w ∈ ws -> fold_left apply_write ws db w.1 = new_document w.2.
Proof.
  induction ws as [|x ws IH]; intros db w Hnd Hw; [by apply elem_of_nil in Hw|]. cbn [map] in Hnd. apply NoDup_cons in Hnd as [Hx Hnd].
  cbn [fold_left]. apply elem_of_cons in Hw as [->|Hw]; [|by apply IH].
  rewrite apply_writes_other; [unfold apply_write; by rewrite decide_True|].
  intros y Hy Heq. apply Hx. rewrite <- Heq. by apply list_elem_of_fmap_2.
Qed.

(** One timestamp further, the state changes by the commit there, if any. *)
Lemma bfilter_step (h : list Rec) t :
  StronglySorted (fun c d => c_ts c < c_ts d) h ->
  bfilter (fun c => c_ts c <=? t) h = bfilter (fun c => c_ts c <=? t - 1) h ++ bfilter (fun c => c_ts c =? t) h /\
  (bfilter (fun c => c_ts c =? t) h = [] /\ (forall c, c ∈ h -> c_ts c <> t) \/
   exists c, bfilter (fun c => c_ts c =? t) h = [c] /\ c ∈ h /\ c_ts c = t).
Proof.
  induction 1 as [|c h Hs [IH1 IH2] Hc]; [split; [done|left; split; [done|by intros ? ?%elem_of_nil]]|].
  rewrite Forall_forall in Hc. cbn [bfilter]. destruct (Z.eqb_spec (c_ts c) t) as [Heq|Hne].
  - assert (Hle : forall d, d ∈ h -> t < c_ts d) by (intros d Hd; specialize (Hc d Hd); lia).
    rewrite (proj2 (Z.leb_le (c_ts c) t)), (proj2 (Z.leb_gt (c_ts c) (t - 1))) by lia.
    rewrite (bfilter_none (fun d => c_ts d <=? t)), (bfilter_none (fun d => c_ts d <=? t - 1)), (bfilter_none (fun d => c_ts d =? t)).
    + split; [done|]. right. exists c. split; [done|]. split; [left|done].
    + intros d Hd. specialize (Hle d Hd). apply Z.eqb_neq. lia.
    + intros d Hd. specialize (Hle d Hd). apply Z.leb_gt. lia.
    + intros d Hd. specialize (Hle d Hd). apply Z.leb_gt. lia.
  - split.
    + destruct (Z.leb_spec (c_ts c) t), (Z.leb_spec (c_ts c) (t - 1)); try lia; [cbn [app]; by rewrite IH1|done].
    + destruct IH2 as [[Hn Hall]|(d & Hd & Hin & Hdt)].
      * left. split; [done|]. intros d [->|Hd]%elem_of_cons; [done|by apply Hall].
      * right. exists d. split; [done|]. split; [by right|done].
Qed.

Lemma db_step base h t :
  StronglySorted (fun c d => c_ts c < c_ts d) h ->
  (exists c, c ∈ h /\ c_ts c = t /\ db_at base h t = apply_commit (db_at base h (t - 1)) c) \/
  ((forall c, c ∈ h -> c_ts c <> t) /\ db_at base h t = db_at base h (t - 1)).
Proof.
  intros Hs. destruct (bfilter_step h t Hs) as [Heq [[Hn Hall]|(c & Hc & Hin & Ht)]]; unfold db_at; rewrite Heq.
  - right. split; [done|]. by rewrite Hn, app_nil_r.
  - left. exists c. split; [done|]. split; [done|]. by rewrite Hc, fold_left_app.
Qed.

(** The documents of a class [Q] under one id do not change over a time range
    in which every write of that id replaces a document outside [Q] by one
    outside [Q]. *)
Lemma unchanged base h i (Q : PackedDocument -> Prop) t0 n :
  StronglySorted (fun c d => c_ts c < c_ts d) h ->
  (forall c, c ∈ h -> NoDup (map fst (c_writes c))) ->
  (forall c w, c ∈ h -> t0 < c_ts c <= t0 + Z.of_nat n -> w ∈ c_writes c -> w.1 = i ->
     old_document w.2 = db_at base h (c_ts c - 1) i /\
     forall d, old_document w.2 = Some d \/ new_document w.2 = Some d -> ~ Q d) ->
  forall d, (db_at base h (t0 + Z.of_nat n) i = Some d /\ Q d) <-> (db_at base h t0 i = Some d /\ Q d).
Proof.
  intros Hs Hnd. induction n as [|n IH]; intros Hw d; [by replace (t0 + Z.of_nat 0) with t0 by lia|].
  rewrite <- IH by (intros c w Hc Hr; apply Hw; [done|lia]).
  destruct (db_step base h (t0 + Z.of_nat (S n)) Hs) as [(c & Hc & Ht & ->)|[_ ->]];
    replace (t0 + Z.of_nat (S n) - 1) with (t0 + Z.of_nat n) by lia; [|done].
  unfold apply_commit. destruct (decide (i ∈ map fst (c_writes c))) as [(w & -> & Hwin)%list_elem_of_fmap|Hno].
  - rewrite apply_writes_at by (try done; by apply Hnd). destruct (Hw c w Hc) as [Hold HQ]; [lia|done|done|].
    rewrite Ht in Hold. replace (t0 + Z.of_nat (S n) - 1) with (t0 + Z.of_nat n) in Hold by lia. rewrite <- Hold.
    split; intros [Hd Hq]; exfalso; apply (HQ d); auto.
  - rewrite apply_writes_other; [done|]. intros w Hwin <-. apply Hno. by apply list_elem_of_fmap_2.
Qed.

(** *** What transactions guarantee *)

(** A transaction updates each document at most once, from the state it saw
    at its begin timestamp, and depends on the ids it writes. *)
Record tx_ok (base : Db) (h : list Rec) (c : Rec) : Prop := {
  tx_reads_ok : read_set_ok (c_reads c);
  tx_good : Forall update_good (c_writes c);
  tx_once : NoDup (map fst (c_writes c));
  tx_old : forall w, w ∈ c_writes c -> old_document w.2 = db_at base h (c_begin c) w.1;
  tx_reads_ids : forall w, w ∈ c_writes c ->
    exists r, BTreeMap.get (by_id (tablet_id w.1)) (indexed (c_reads c)) = Some r /\ fields r = [] /\
      denotes (intervals r) (id_key w.1);
}.

(** The indexes a transaction read are the ones published commits logged keys for. *)
Definition indexes_stable (h : list Rec) : Prop :=
  forall c d reg, c ∈ h -> d ∈ h -> c_registry d = Some reg -> registry_ok reg /\ reads_registered (c_reads c) reg.

(** A document that does not overlap a read set is outside its intervals. *)
Lemma no_overlap_outside (reads : Reads) d n r :
  read_set_ok reads -> good_doc d -> overlaps_document sha256 tokenize (E := log_error) reads d = Ret None ->
  BTreeMap.get n (indexed reads) = Some r -> n.1 = tablet_id (id d) -> ~ denotes (intervals r) (key_in d (fields r)).
Proof.
  intros [Hwi Hws Hin Hse] Hd Ho Hg Ht Hden. unfold overlaps_document in Ho.
  set (g := fun e : (list Z * list Z) * IndexReads (Trace := Trace) =>
    let k := key_in d (fields e.2) in
    if IntervalSet.contains (intervals e.2) k then
      Some {| conflict_index := e.1; conflict_id := id d; conflict_traces := traces_containing (stack_traces e.2) k |}
    else None).
  rewrite (first_someM_pure _ g) in Ho.
  2:{ intros e _. unfold indexed_conflict, g. by rewrite index_key_enc. }
  cbn [obind] in Ho. destruct (first_some g _) as [c|] eqn:Hf; [done|]. rewrite first_some_None in Hf.
  specialize (Hf (n, r)). unfold g in Hf. cbn [snd] in Hf.
  apply contains_spec in Hden; [|by eapply Hin]. rewrite Hden in Hf.
  assert (Hmem : (n, r) ∈ iter_indexes_for_table (indexed reads) (tablet_id (id d))); [|by specialize (Hf Hmem)].
  apply elem_of_iter_table; [done| |done]. intros n' v' Hg'. by apply (Hin n' v').
Qed.

Section history.
Context (base : Db) (h : list Rec).
Context (Hsorted : StronglySorted (fun c d => c_ts c < c_ts d) h).
Context (Hbegin : forall c, c ∈ h -> c_begin c < c_ts c).
Context (Hserial : forall c d, c ∈ h -> d ∈ h -> c_begin c < c_ts d < c_ts c -> serial_pair sha256 tokenize c d).
Context (Htx : forall c, c ∈ h -> tx_ok base h c).
Context (Hstable : indexes_stable h).

Lemma pair_outside c d w n r doc :
  c ∈ h -> d ∈ h -> c_begin c < c_ts d < c_ts c -> w ∈ c_writes d ->
  BTreeMap.get n (indexed (c_reads c)) = Some r -> n.1 = tablet_id w.1 ->
  old_document w.2 = Some doc \/ new_document w.2 = Some doc -> ~ denotes (intervals r) (key_in doc (fields r)).
Proof.
  intros Hc Hd Ht Hw Hg Hn Hdoc. destruct (Htx c Hc) as [Hr _ _ _ _], (Htx d Hd) as [_ Hgood _ _ _].
  destruct (Hserial c d Hc Hd Ht Hr Hgood) with (w := w) as [Hnew Hold]; [|done|].
  { intros reg Hreg. by apply (Hstable c d). }
  rewrite Forall_forall in Hgood. destruct (Hgood w Hw) as [_ Hgd]. destruct (Hgd doc Hdoc) as [Hid Hg'].
  apply (no_overlap_outside (c_reads c) doc n r); [done|done| |done|by rewrite Hid].
  destruct Hdoc as [Hdoc|Hdoc]; rewrite Hdoc in *; done.
Qed.

(** Every write replaces the document that is there when it is applied. *)
Definition consistent (c : Rec) : Prop := forall w, w ∈ c_writes c -> old_document w.2 = db_at base h (c_ts c - 1) w.1.

Lemma lower_bound (l : list Rec) : exists z, forall c, c ∈ l -> z <= c_ts c.
Proof.
  induction l as [|c l [z Hz]]; [exists 0; by intros ? ?%elem_of_nil|]. exists (Z.min z (c_ts c)).
  intros d [->|Hd]%elem_of_cons; [lia|]. specialize (Hz d Hd). lia.
Qed.

Lemma option_ext {A} (x y : option A) : (forall a, x = Some a <-> y = Some a) -> x = y.
Proof. intros Hxy. destruct x as [a|]; [by symmetry; apply Hxy|]. destruct y as [b|]; [by apply Hxy|done]. Qed.

Lemma all_consistent c : c ∈ h -> consistent c.
Proof.
  destruct (lower_bound h) as [z Hz]. remember (c_ts c) as t eqn:Ht. revert c Ht.
  induction t as [t IH] using (well_founded_induction (Z.lt_wf z)). intros c -> Hc w Hw.
  destruct (Htx c Hc) as [Hr Hgood Hnd Hold Hids]. rewrite (Hold w Hw). pose proof (Hbegin c Hc) as Hb.
  destruct (Hids w Hw) as (r & Hg & Hf & Hden). symmetry.
  replace (c_ts c - 1) with (c_begin c + Z.of_nat (Z.to_nat (c_ts c - 1 - c_begin c))) by lia.
  apply option_ext. intros d.
  pose proof (unchanged base h w.1 (fun _ => True) (c_begin c) (Z.to_nat (c_ts c - 1 - c_begin c)) Hsorted) as Hun.
  specialize (Hun ltac:(by intros e He; apply (Htx e He))). enough (Hall : _) by (pose proof (Hun Hall d) as Hiff; tauto).
  intros e w' He Hr' Hw' Hid. split.
  - rewrite <- Hid. apply (IH (c_ts e)); [|done|done|done]. split; [by apply Hz|lia].
  - intros doc Hdoc _. apply (pair_outside c e w' _ r doc Hc He ltac:(lia) Hw' Hg); [by rewrite Hid|done|].
    rewrite Hf, key_in_by_id. destruct (Htx e He) as [_ Hge _ _ _]. rewrite Forall_forall in Hge.
    destruct (Hge w' Hw') as [_ Hgd]. destruct (Hgd doc Hdoc) as [-> _]. by rewrite Hid.
Qed.

(** Every interval read at the begin timestamp gives the same documents up
    to the commit. *)
Lemma reads_repeat c n r i d :
  c ∈ h -> BTreeMap.get n (indexed (c_reads c)) = Some r -> n.1 = tablet_id i ->
  (db_at base h (c_ts c - 1) i = Some d /\ denotes (intervals r) (key_in d (fields r))) <->
  (db_at base h (c_begin c) i = Some d /\ denotes (intervals r) (key_in d (fields r))).
Proof.
  intros Hc Hg Hn. pose proof (Hbegin c Hc) as Hb.
  replace (c_ts c - 1) with (c_begin c + Z.of_nat (Z.to_nat (c_ts c - 1 - c_begin c))) by lia.
  apply (unchanged base h i (fun d => denotes (intervals r) (key_in d (fields r)))); [done|by intros e He; apply (Htx e He)|].
  intros e w He Hr Hw Hid. split; [rewrite <- Hid; by apply all_consistent|].
  intros doc Hdoc. by apply (pair_outside c e w n r doc Hc He ltac:(lia) Hw Hg); [rewrite Hid|].
Qed.
End history.
End serializability.

(** ** A run with two concurrent transactions *)

Module Example.

#[local] Instance parts : SnapshotParts := {|
TableRegistry := unit; SchemaRegistry := unit; ComponentRegistry := unit; TableSummaries := unit; InMemoryIndexes := unit;
TextIndexes := unit; VectorIndexes := unit; TableUpdate := unit; DatabaseIndexUpdate := unit; TableSummarySnapshot := unit;
PartError := False;
table_registry_update _ _ _ _ _ := Ret (tt, None);
schema_registry_update _ _ _ _ _ := Ret tt;
component_registry_update _ _ _ _ _ := Ret tt;
table_summaries_update _ _ _ _ _ _ := Ret tt;
table_summaries_new _ _ := Ret tt;
in_memory_update _ _ _ _ _ := (tt, [tt]);
text_update _ _ _ _ _ := Ret (tt, 0);
vector_update _ _ _ _ _ := Ret (tt, 0);
|}.

Notation alist := (fun V => list (list Z * V)).
Notation sha := (fun b : list Z => b).
Notation tok := (fun t : list Z => [t]).
Notation parse := (fun _ : PackedDocument => None (A := list Z * TableState)).
Notation from_doc := (fun _ : PackedDocument => None (A := Index)).
Notation closed := (fun _ : Z => false).

Definition index : Index := MkIndex [7] (by_id [1]) (Database [] Enabled).
Definition registry : IndexRegistry := insert (MkRegistry [8] [] [] []) index.
Definition snap : Snapshot := MkSnapshot (P := parts) tt tt tt None registry tt tt tt.

Definition doc_a : PackedDocument := MkDoc (Object [([97], Int64 1)]) (MkResolved [1] (MkId 3 (replicate 16 7))).
Definition doc_b : PackedDocument := MkDoc (Object [([97], Int64 2)]) (MkResolved [1] (MkId 3 (replicate 16 8))).
Definition key_a : list Z := Eval vm_compute in id_key (id doc_a).
Definition key_b : list Z := Eval vm_compute in id_key (id doc_b).

Definition reads_of (k : list Z) : ReadSet (M := alist) (Trace := Z) :=
{| indexed := [(by_id [1], {| fields := []; intervals := Intervals [(k, Excluded (k ++ [0]))]; stack_traces := None |})]; search := [] |}.

Definition insertion (d : PackedDocument) (k : list Z) : FinalTransaction (M := alist) (Trace := Z) :=
{| begin_timestamp := 1; tx_reads := reads_of k; tx_writes := [MkUpdateTs (id d) None (Some d)]; tx_bootstrap := MkBootstrap [9] [8] |}.

Notation step := (handle (M := alist) (Trace := Z) sha tok parse from_doc closed 100 [] [9]).

(** Both begin at 1; the first is published before the second is validated. *)
Definition events : list (Event (M := alist) (Trace := Z)) :=
[CommitMessage (insertion doc_a key_a) None (Ret 5); WriteCompleted; CommitMessage (insertion doc_b key_b) None (Ret 7)].

Definition after (s : Committer) (e : Event (M := alist) (Trace := Z)) : Committer :=
match step s e with Ret (s', _) => s' | _ => s end.

Definition s0 : Committer := start 1 snap [].
Definition s1 : Committer := after s0 (CommitMessage (insertion doc_a key_a) None (Ret 5)).
Definition s2 : Committer := after s1 WriteCompleted.
Definition s3 : Committer := after s2 (CommitMessage (insertion doc_b key_b) None (Ret 7)).

Definition commit_a : CommitRecord (M := alist) (Trace := Z) :=
MkCommit 5 1 (reads_of key_a) [(id doc_a, MkUpdate (id doc_a) None (Some doc_a))] (Some registry).
Definition commit_b : CommitRecord (M := alist) (Trace := Z) :=
MkCommit 7 1 (reads_of key_b) [(id doc_b, MkUpdate (id doc_b) None (Some doc_b))] None.

Lemma valid_1 : Timestamp.valid 1.
Proof. unfold Timestamp.valid, Timestamp.MIN, Timestamp.MAX. lia. Qed.

Lemma step1 : step s0 (CommitMessage (insertion doc_a key_a) None (Ret 5)) = Ret (s1, []).
Proof. vm_compute. reflexivity. Qed.
Lemma step2 : step s1 WriteCompleted = Ret (s2, [Committed 5]).
Proof. vm_compute. reflexivity. Qed.
Lemma step3 : step s2 (CommitMessage (insertion doc_b key_b) None (Ret 7)) = Ret (s3, []).
Proof. vm_compute. reflexivity. Qed.

Lemma history1 : next_history sha tok parse from_doc s0 (CommitMessage (insertion doc_a key_a) None (Ret 5)) []
= [MkCommit 5 1 (reads_of key_a) [(id doc_a, MkUpdate (id doc_a) None (Some doc_a))] None].
Proof. vm_compute. reflexivity. Qed.
Lemma history2 : next_history sha tok parse from_doc s1 WriteCompleted
[MkCommit 5 1 (reads_of key_a) [(id doc_a, MkUpdate (id doc_a) None (Some doc_a))] None] = [commit_a].
Proof. vm_compute. reflexivity. Qed.
Lemma history3 : next_history sha tok parse from_doc s2 (CommitMessage (insertion doc_b key_b) None (Ret 7)) [commit_a] = [commit_a; commit_b].
Proof. vm_compute. reflexivity. Qed.

Lemma run1 : run sha tok parse from_doc closed 100 [] [9] s1 [MkCommit 5 1 (reads_of key_a) [(id doc_a, MkUpdate (id doc_a) None (Some doc_a))] None].
Proof.
rewrite <- history1. eapply run_event; [apply run_start, valid_1| |apply step1].
split; [|apply valid_1]. cbn [clock_ok]. unfold Timestamp.valid, Timestamp.MIN, Timestamp.MAX. lia.
Qed.

Lemma run3 : run sha tok parse from_doc closed 100 [] [9] s3 [commit_a; commit_b].
Proof.
rewrite <- history3. eapply run_event; [| |apply step3].
- rewrite <- history2. eapply run_event; [apply run1|done|apply step2].
- split; [|apply valid_1]. cbn [clock_ok]. unfold Timestamp.valid, Timestamp.MIN, Timestamp.MAX. lia.
Qed.

Lemma reads_of_ok k : read_set_ok (reads_of k).
Proof.
constructor; [split; [by intros ? ?%elem_of_nil|done]|done| |done]. intros n r. cbn [reads_of indexed BTreeMap.get].
destruct (n ==? by_id [1])%ord eqn:E; [|done]. apply eqb_eq in E as ->. intros [= <-]. split; [reflexivity|].
apply wf_map_singleton, above_Excluded. rewrite <- (app_nil_r k) at 1. apply app_olt_same. reflexivity.
Qed.

Lemma registry_good : registry_ok registry.
Proof. apply insert_ok; [apply registry_empty_ok|reflexivity]. Qed.

Lemma reads_of_registered k : reads_registered (reads_of k) registry.
Proof.
split; [|done]. intros n r. cbn [reads_of indexed BTreeMap.get]. destruct (n ==? by_id [1])%ord eqn:E; [|done].
apply eqb_eq in E as ->. intros [= <-]. exists index, Enabled. split; [done|]. split; [|done]. split; [by left|]. split; [|done].
by intros j [[= <-]|?].
Qed.

Lemma insertion_good d : good_doc d -> Forall update_good [(id d, MkUpdate (id d) None (Some d))].
Proof.
intros Hd. constructor; [|done]. split; [done|]. cbn [fst snd old_document new_document]. by intros d' [[=]|[= <-]].
Qed.

Lemma stable : indexes_stable [commit_a; commit_b].
Proof.
intros c d reg Hc Hd Hreg. assert (reg = registry) as ->.
{ apply elem_of_cons in Hd as [->|Hd]; [by injection Hreg as <-|]. apply list_elem_of_singleton in Hd as ->. discriminate Hreg. }
split; [apply registry_good|]. apply elem_of_cons in Hc as [->|Hc]; [apply reads_of_registered|].
apply list_elem_of_singleton in Hc as ->. apply reads_of_registered.
Qed.

Lemma reads_key k i : k = id_key i -> tablet_id i = [1] ->
exists r, BTreeMap.get (by_id (tablet_id i)) (indexed (reads_of k)) = Some r /\ fields r = [] /\ denotes (intervals r) (id_key i).
Proof.
intros -> ->. eexists. split; [reflexivity|]. split; [reflexivity|]. exists (id_key i), (Excluded (id_key i ++ [0])).
split; [left|]. split; [apply ole_refl|]. apply above_Excluded. rewrite <- (app_nil_r (id_key i)) at 1. apply app_olt_same. reflexivity.
Qed.

Lemma transactions_ok c : c ∈ [commit_a; commit_b] -> tx_ok (fun _ => None) [commit_a; commit_b] c.
Proof.
intros [->|Hc]%elem_of_cons; [|apply list_elem_of_singleton in Hc as ->]; constructor.
- apply reads_of_ok.
- apply insertion_good, good_doc_example.
- apply NoDup_singleton.
- intros w ->%list_elem_of_singleton. reflexivity.
- intros w ->%list_elem_of_singleton. apply reads_key; [vm_compute; reflexivity|reflexivity].
- apply reads_of_ok.
- apply insertion_good, good_doc_example2.
- apply NoDup_singleton.
- intros w ->%list_elem_of_singleton. reflexivity.
- intros w ->%list_elem_of_singleton. apply reads_key; [vm_compute; reflexivity|reflexivity].
Qed.
End Example.

(** ** Theorems *)

(** C1: Committed transactions are serializable.  In every run of the committer
    (with commits, publications, repeatable-timestamp bumps, bootstraps and log
    trimming interleaved in any way), every committed transaction would read
    exactly the same documents, from every index interval it read at its begin
    timestamp, in the state just before its commit timestamp.  The hypotheses
    are what transactions guarantee ([tx_ok]) and that the indexes read are the
    ones the logged keys were computed for ([indexes_stable]). *)
Theorem committed_transactions_serializable {M} `{StringMapLaws M} {Trace} `{P : SnapshotParts}
    (sha256 : list Z -> list Z) (tokenize : list Z -> list (list Z))
    (parse_table : PackedDocument -> option (list Z * TableState)) (from_document : PackedDocument -> option Index)
    (is_closed : Z -> bool) (max_window : Z) (refreshable_tables : list (list Z)) (tables_table_id : TabletId)
    (self : Committer) (h : list (CommitRecord (M := M) (Trace := Trace))) (base : Db) :
  0 <= max_window ->
  run sha256 tokenize parse_table from_document is_closed max_window refreshable_tables tables_table_id self h ->
  (forall c, c ∈ h -> tx_ok base h c) -> indexes_stable h ->
  forall c n r i d, c ∈ h -> BTreeMap.get n (indexed (c_reads c)) = Some r -> n.1 = tablet_id i ->
    (db_at base h (c_ts c - 1) i = Some d /\ denotes (intervals r) (key_in d (fields r))) <->
    (db_at base h (c_begin c) i = Some d /\ denotes (intervals r) (key_in d (fields r))).
Proof.
  intros Hwin Hrun Htx Hst. apply run_history in Hrun as [_ [Hs Hb _ Hser]]; [|done].
  apply (reads_repeat sha256 tokenize base h); try done. intros c Hc. by apply Hb.
Qed.

Lemma committed_transactions_serializable_witness :
  (db_at (fun _ => None) [Example.commit_a; Example.commit_b] 6 (id Example.doc_b) = Some Example.doc_b /\
   denotes (Intervals [(Example.key_b, Excluded (Example.key_b ++ [0]))]) (key_in Example.doc_b [])) <->
  (db_at (fun _ => None) [Example.commit_a; Example.commit_b] 1 (id Example.doc_b) = Some Example.doc_b /\
   denotes (Intervals [(Example.key_b, Excluded (Example.key_b ++ [0]))]) (key_in Example.doc_b [])).
Proof.
  refine (committed_transactions_serializable (fun b => b) (fun t => [t]) (fun _ => None) (fun _ => None) (fun _ => false) 100 [] [9]
    Example.s3 [Example.commit_a; Example.commit_b] (fun _ => None) _ Example.run3 Example.transactions_ok Example.stable
    Example.commit_b (by_id [1]) _ (id Example.doc_b) Example.doc_b _ eq_refl eq_refl).
  - discriminate.
  - right. left.
Defined.

(** A write leaves the result of reads alone: neither version of the document
    overlaps them. *)
Definition leaves_reads {M} `{StringMapLaws M} {Trace} (sha256 : list Z -> list Z) (tokenize : list Z -> list (list Z))
    (reads : ReadSet (M := M) (Trace := Trace)) (w : ResolvedDocumentId * PackedDocumentUpdate) : Prop :=
  overlap_doc sha256 tokenize (E := log_error) reads (new_document w.2) = Ret None /\
  overlap_doc sha256 tokenize (E := log_error) reads (old_document w.2) = Ret None.

(** Two committed transactions never conflict: no write of a commit whose
    timestamp is between the begin and the commit timestamp of another one
    overlaps what the other one read. *)
Theorem commits_do_not_conflict {M} `{StringMapLaws M} {Trace} `{P : SnapshotParts}
    (sha256 : list Z -> list Z) (tokenize : list Z -> list (list Z))
    (parse_table : PackedDocument -> option (list Z * TableState)) (from_document : PackedDocument -> option Index)
    (is_closed : Z -> bool) (max_window : Z) (refreshable_tables : list (list Z)) (tables_table_id : TabletId)
    (self : Committer) (h : list (CommitRecord (M := M) (Trace := Trace))) (c d : CommitRecord) :
  0 <= max_window ->
  run sha256 tokenize parse_table from_document is_closed max_window refreshable_tables tables_table_id self h ->
  c ∈ h -> d ∈ h -> c_begin c < c_ts d < c_ts c ->
  read_set_ok (c_reads c) -> Forall update_good (c_writes d) ->
  (forall reg, c_registry d = Some reg -> registry_ok reg /\ reads_registered (c_reads c) reg) ->
  forall w, w ∈ c_writes d -> leaves_reads sha256 tokenize (c_reads c) w.
Proof.
  intros Hwin Hrun Hc Hd Ht Hr Hg Hreg w Hw. apply run_history in Hrun as [_ Hh]; [|done].
  exact (h_serial _ _ _ _ _ _ _ Hh c d Hc Hd Ht Hr Hg Hreg w Hw).
Qed.

Lemma commits_do_not_conflict_witness :
  overlap_doc (fun b => b) (fun t => [t]) (E := log_error) (Example.reads_of Example.key_b) (Some Example.doc_a) = Ret None.
Proof.
  refine (proj1 (commits_do_not_conflict (fun b => b) (fun t => [t]) (fun _ => None) (fun _ => None) (fun _ => false) 100 [] [9]
    Example.s3 [Example.commit_a; Example.commit_b] Example.commit_b Example.commit_a _ Example.run3 _ _ _ (Example.reads_of_ok _)
    (Example.insertion_good _ good_doc_example) _ (id Example.doc_a, MkUpdate (id Example.doc_a) None (Some Example.doc_a)) _)).
  - discriminate.
  - right. left.
  - left.
  - split; reflexivity.
  - intros reg Hreg. injection Hreg as <-. split; [apply Example.registry_good|apply Example.reads_of_registered].
  - left.
Defined.

(** The documents waiting to be published are storable and the registries of
    their snapshots consistent. *)
Definition publishable `{P : SnapshotParts} (self : Committer) : Prop :=
  forall e, e ∈ pending_writes self -> Forall update_good e.2.1.1 /\ registry_ok (index_registry e.2.2).

(** C2: The committer's assertions hold in every run: when the oldest
    persistence write completes, publishing it does not panic and does not
    fail (commits are published in the order of their timestamps, the log and
    the snapshots advance together, and the repeatable timestamp never goes
    backward), provided the documents of a commit being published are storable
    and its index registry is consistent. *)
Theorem publishing_never_fails {M} `{StringMapLaws M} {Trace} `{P : SnapshotParts}
    (sha256 : list Z -> list Z) (tokenize : list Z -> list (list Z))
    (parse_table : PackedDocument -> option (list Z * TableState)) (from_document : PackedDocument -> option Index)
    (is_closed : Z -> bool) (max_window : Z) (refreshable_tables : list (list Z)) (tables_table_id : TabletId)
    (self : Committer) (h : list (CommitRecord (M := M) (Trace := Trace))) :
  0 <= max_window ->
  run sha256 tokenize parse_table from_document is_closed max_window refreshable_tables tables_table_id self h ->
  publishable self ->
  exists self' r,
    handle sha256 tokenize parse_table from_document is_closed max_window refreshable_tables tables_table_id self
      (WriteCompleted (M := M) (Trace := Trace)) = Ret (self', r) /\
    length (persistence_writes self') = (length (persistence_writes self) - 1)%nat /\
    (forall v rest, persistence_writes self = Commit v :: rest ->
       r = [Committed (pending_write v)] /\
       forall E, latest_ts (E := E) (snapshot_manager self') = Ret (pending_write v)) /\
    (forall ts rest, persistence_writes self = MaxRepeatableTimestamp ts :: rest ->
       r = [Bumped ts] /\ persisted_max_repeatable_ts (snapshot_manager self') = ts).
Proof.
  intros Hwin Hrun Hgood. apply run_ok in Hrun as Hok; [|done]. cbn [handle].
  destruct (persistence_writes self) as [|[v|ts] rest] eqn:Hq.
  - exists self, []. rewrite Hq. done.
  - destruct (publish_commit_spec (Trace := Trace) sha256 tokenize parse_table is_closed max_window refreshable_tables tables_table_id
      self v rest (bump_scheduled self) Hok Hwin Hq) as (w & src & sn & pr & Hp & Hpub).
    destruct (Hgood (pending_write v, (w, src, sn))) as [Hw Hreg]; [rewrite Hp; left|]. cbn [fst snd] in Hw, Hreg.
    destruct (index_keys_ret (M := M) (Trace := Trace) sha256 tokenize (parse_table_name parse_table) (index_registry sn) tables_table_id
      refreshable_tables w [] (refreshable_tablets self) Hreg Hw) as (ks & t' & Hks & _).
    unfold index_keys_from_full_documents in Hpub. rewrite Hks in Hpub. destruct Hpub as (s1 & -> & _ & _ & _ & Hrest & _ & Hlat).
    cbn [obind]. do 2 eexists. split; [done|]. split; [rewrite Hrest; cbn [length]; lia|]. split; [|done].
    intros v' rest' [= <- <-]. split; [done|]. intros E. unfold latest_ts, omap. by rewrite Hlat.
  - destruct (publish_max_spec (Trace := Trace) is_closed max_window self ts rest (bump_scheduled self) Hok Hwin Hq) as (s1 & -> & _ & _ & Hrest & _ & Hper & _).
    cbn [obind]. do 2 eexists. split; [done|]. cbn [with_queue persistence_writes snapshot_manager].
    split; [rewrite Hrest; cbn [length]; lia|]. split; [done|]. intros ts' rest' [= <- <-]. done.
Qed.

Lemma publishing_never_fails_witness :
  exists self' r,
    handle (M := fun V => list (list Z * V)) (Trace := Z) (fun b => b) (fun t => [t]) (fun _ => None) (fun _ => None) (fun _ => false) 100 [] [9]
      Example.s1 WriteCompleted = Ret (self', r) /\ length (persistence_writes self') = 0%nat.
Proof.
  destruct (publishing_never_fails (fun b => b) (fun t => [t]) (fun _ => None) (fun _ => None) (fun _ => false) 100 [] [9]
    Example.s1 _ ltac:(discriminate) Example.run1) as (self' & r & He & Hlen & _).
  - intros e He. change (pending_writes Example.s1) with
      [(5, ([(id Example.doc_a, MkUpdate (id Example.doc_a) None (Some Example.doc_a))], None (A := list Z), Example.snap))] in He.
    apply list_elem_of_singleton in He as ->. split; [apply Example.insertion_good, good_doc_example|apply Example.registry_good].
  - exists self', r. split; [exact He|exact Hlen].
Defined.
