(* ===== verification/Slab.v ===== *)
(** * Slab: the [slab] crate, as an interface

    The subscription manager and the interval map keep their entries in a
    [slab::Slab]: a vector with stable keys, where [insert] uses [vacant_key].
    The crate is a dependency, so it is a type class here: the operations the
    code calls and the laws its documentation gives.  Which key is vacant is
    left open, except that it is not in use. *)

From S2P Require Import Prelude.

Local Open Scope Z_scope.

Class Slab (S : Type -> Type) := {
  slab_new {A} : S A;
  slab_get {A} : Z -> S A -> option A;
  vacant_key {A} : S A -> Z;
  slab_insert {A} : A -> S A -> S A;
  (** Assignment through [get_mut] or [IndexMut]. *)
  slab_set {A} : Z -> A -> S A -> S A;
  slab_remove {A} : Z -> S A -> S A;
  (** Iteration, and the number of entries. *)
  slab_entries {A} : S A -> list (Z * A);
  slab_len {A} : S A -> nat;
}.

Class SlabLaws (S : Type -> Type) `{!Slab S} : Prop := {
  slab_get_new {A} k : slab_get k (slab_new (A := A)) = None;
  slab_get_vacant {A} (s : S A) : slab_get (vacant_key s) s = None;
  slab_get_insert {A} k (a : A) s : slab_get k (slab_insert a s) = if decide (k = vacant_key s) then Some a else slab_get k s;
  slab_get_set {A} k k' (a : A) s :
    slab_get k' (slab_set k a s) = if decide (k' = k) then option_map (fun _ => a) (slab_get k s) else slab_get k' s;
  slab_get_remove {A} k k' (s : S A) : slab_get k' (slab_remove k s) = if decide (k' = k) then None else slab_get k' s;
  (** Writing to an entry does not change which key is vacant. *)
  vacant_key_set {A} k (a : A) s : vacant_key (slab_set k a s) = vacant_key s;
  slab_entries_get {A} k a (s : S A) : (k, a) ∈ slab_entries s <-> slab_get k s = Some a;
  slab_entries_NoDup {A} (s : S A) : NoDup (slab_entries s).*1;
  slab_len_entries {A} (s : S A) : slab_len s = length (slab_entries s);
}.

(** ** An implementation: a vector of optional entries

    The vacant key is the first hole, or the length of the vector. *)

Fixpoint first_hole {A} (s : list (option A)) : nat :=
  match s with
  | Some _ :: s => S (first_hole s)
  | _ => 0
  end.

Fixpoint entries_from {A} (n : Z) (s : list (option A)) : list (Z * A) :=
  match s with
  | [] => []
  | Some a :: s => (n, a) :: entries_from (n + 1) s
  | None :: s => entries_from (n + 1) s
  end.

Definition vec_get {A} (k : Z) (s : list (option A)) : option A :=
  if k <? 0 then None else match s !! Z.to_nat k with Some o => o | None => None end.

Definition vec_set {A} (k : Z) (o : option A) (s : list (option A)) : list (option A) :=
  if k <? 0 then s else <[Z.to_nat k := o]> s.

#[global] Instance vec_Slab : Slab (fun A => list (option A)) := {|
  slab_new _ := [];
  slab_get _ := vec_get;
  vacant_key _ s := Z.of_nat (first_hole s);
  slab_insert _ a s :=
    if (first_hole s <? length s)%nat then <[first_hole s := Some a]> s else s ++ [Some a];
  slab_set _ k a s := match vec_get k s with Some _ => vec_set k (Some a) s | None => s end;
  slab_remove _ k s := vec_set k None s;
  slab_entries _ s := entries_from 0 s;
  slab_len _ s := length (entries_from 0 s);
|}.

Lemma first_hole_le {A} (s : list (option A)) : (first_hole s <= length s)%nat.
Proof. induction s as [|[a|] s IH]; simpl; lia. Qed.

Lemma first_hole_None {A} (s : list (option A)) o : s !! first_hole s = Some o -> o = None.
Proof. induction s as [|[a|] s IH]; simpl; [done|exact IH|congruence]. Qed.

Lemma vec_get_set {A} k k' (o : option A) s :
  vec_get k' (vec_set k o s) =
  if decide (k' = k) then (if (0 <=? k) && (k <? Z.of_nat (length s)) then o else None) else vec_get k' s.
Proof.
  unfold vec_get, vec_set. destruct (decide (k' = k)) as [->|Hne].
  - destruct (Z.ltb_spec k 0), (Z.leb_spec 0 k); try lia; [done|]. cbn [andb].
    destruct (Z.ltb_spec k (Z.of_nat (length s))).
    + by rewrite list_lookup_insert_eq by lia.
    + by rewrite lookup_ge_None_2 by (rewrite length_insert; lia).
  - destruct (Z.ltb_spec k' 0), (Z.ltb_spec k 0); try done. rewrite list_lookup_insert_ne; [done|]. lia.
Qed.

Lemma vec_get_Some_range {A} k (s : list (option A)) a : vec_get k s = Some a -> (0 <=? k) && (k <? Z.of_nat (length s)) = true.
Proof.
  unfold vec_get. destruct (Z.ltb_spec k 0); [done|]. destruct (s !! Z.to_nat k) as [o|] eqn:Hs; [|done].
  intros _. apply lookup_lt_Some in Hs. apply andb_true_iff. rewrite Z.leb_le, Z.ltb_lt. lia.
Qed.

Lemma vec_get_cons {A} k (o : option A) s :
  vec_get k (o :: s) = if k =? 0 then o else vec_get (k - 1) s.
Proof.
  unfold vec_get. destruct (Z.eqb_spec k 0) as [->|]; [done|].
  destruct (Z.ltb_spec k 0), (Z.ltb_spec (k - 1) 0); try lia; [done|].
  replace (Z.to_nat k) with (S (Z.to_nat (k - 1))) by lia. done.
Qed.

Lemma elem_of_entries_from {A} (s : list (option A)) : forall n k a,
  (k, a) ∈ entries_from n s <-> vec_get (k - n) s = Some a.
Proof.
  induction s as [|o s IH]; intros n k a.
  - unfold vec_get. cbn. rewrite elem_of_nil. by destruct (k - n <? 0).
  - rewrite vec_get_cons. replace (k - n - 1) with (k - (n + 1)) by lia.
    assert (Hlow : (k, a) ∈ entries_from (n + 1) s -> k - n <> 0).
    { rewrite IH. intros Hg%vec_get_Some_range. apply andb_true_iff in Hg as [?%Z.leb_le _]. lia. }
    destruct o as [b|]; cbn [entries_from]; rewrite ?elem_of_cons; destruct (Z.eqb_spec (k - n) 0).
    + split; [intros [[= _ ->]|Hin]; [done|by apply Hlow in Hin]|]. intros [= ->]. left. f_equal. lia.
    + rewrite <- IH. split; [intros [[= ? _]|?]; [lia|done]|by right].
    + split; [intros ?%Hlow; lia|done].
    + apply IH.
Qed.

Lemma entries_from_NoDup {A} (s : list (option A)) : forall n, NoDup (entries_from n s).*1.
Proof.
  induction s as [|o s IH]; intros n; [constructor|]. destruct o as [a|]; cbn [entries_from]; [|apply IH].
  rewrite fmap_cons. constructor; [|apply IH]. intros Hin. apply list_elem_of_fmap in Hin as ([k b] & Heq & Hin).
  cbn in Heq. subst k. apply elem_of_entries_from, vec_get_Some_range in Hin.
  apply andb_true_iff in Hin as [?%Z.leb_le _]. lia.
Qed.

Lemma first_hole_set {A} (s : list (option A)) n a b : s !! n = Some (Some b) -> first_hole (<[n := Some a]> s) = first_hole s.
Proof.
  revert n. induction s as [|o s IH]; intros n; [done|]. destruct n as [|n]; cbn; [by intros [= ->]|]. intros Hn.
  destruct o; cbn; [by rewrite IH|done].
Qed.

#[global] Instance vec_SlabLaws : SlabLaws (fun A => list (option A)).
Proof.
  constructor; intros A; cbn [slab_get slab_new vacant_key slab_insert slab_set slab_remove slab_entries slab_len vec_Slab].
  - intros k. unfold vec_get. by destruct (k <? 0).
  - intros s. unfold vec_get. destruct (Z.ltb_spec (Z.of_nat (first_hole s)) 0); [done|]. rewrite Nat2Z.id.
    destruct (s !! first_hole s) as [o|] eqn:Hs; [|done]. by apply first_hole_None in Hs.
  - intros k a s. pose proof (first_hole_le s) as Hle. destruct (Nat.ltb_spec (first_hole s) (length s)).
    + replace (<[first_hole s := Some a]> s) with (vec_set (Z.of_nat (first_hole s)) (Some a) s).
      * rewrite vec_get_set. destruct (decide _); [|done].
        replace (_ && _) with true; [done|]. symmetry. apply andb_true_iff. rewrite Z.leb_le, Z.ltb_lt. lia.
      * unfold vec_set. destruct (Z.ltb_spec (Z.of_nat (first_hole s)) 0); [lia|]. by rewrite Nat2Z.id.
    + assert (Heq : first_hole s = length s) by lia. rewrite Heq. unfold vec_get.
      destruct (decide (k = Z.of_nat (length s))) as [->|Hne].
      * destruct (Z.ltb_spec (Z.of_nat (length s)) 0); [lia|]. rewrite Nat2Z.id, lookup_app_r, Nat.sub_diag by lia. done.
      * destruct (Z.ltb_spec k 0); [done|]. destruct (decide (Z.to_nat k < length s)%nat).
        -- by rewrite lookup_app_l by lia.
        -- rewrite !lookup_ge_None_2; [done|lia|rewrite length_app; simpl; lia].
  - intros k k' a s. destruct (vec_get k s) as [b|] eqn:Hk.
    + rewrite vec_get_set. destruct (decide (k' = k)) as [->|]; [|done]. by rewrite (vec_get_Some_range _ _ _ Hk).
    + destruct (decide (k' = k)) as [->|]; done.
  - intros k k' s. rewrite vec_get_set. destruct (decide (k' = k)); [|done]. by destruct (_ && _).
  - intros k a s. unfold vec_set. destruct (vec_get k s) as [b|] eqn:Hk; [|done]. unfold vec_get in Hk. destruct (k <? 0); [done|].
    destruct (s !! Z.to_nat k) as [o|] eqn:Hs; [|done]. subst o. by rewrite (first_hole_set _ _ _ b).
  - intros k a s. rewrite elem_of_entries_from. by rewrite Z.sub_0_r.
  - intros s. apply entries_from_NoDup.
  - done.
Qed.

(** ** Entries after an update *)

Section entries.
Context {S : Type -> Type} `{SlabLaws S} {A : Type}.
Implicit Types s : S A.

Lemma slab_entries_nodup s : NoDup (slab_entries s).
Proof. eapply NoDup_fmap_1, slab_entries_NoDup. Qed.

Lemma slab_entries_insert s a : slab_entries (slab_insert a s) ≡ₚ (vacant_key s, a) :: slab_entries s.
Proof.
  apply NoDup_Permutation; [apply slab_entries_nodup| |].
  - constructor; [|apply slab_entries_nodup]. by rewrite slab_entries_get, slab_get_vacant.
  - intros [k b]. rewrite elem_of_cons, !slab_entries_get, slab_get_insert. destruct (decide (k = vacant_key s)) as [->|Hne].
    + rewrite slab_get_vacant. naive_solver.
    + naive_solver.
Qed.

Lemma slab_entries_remove s s' k a :
  slab_get k s = Some a -> (forall k', slab_get k' s' = if decide (k' = k) then None else slab_get k' s) ->
  slab_entries s ≡ₚ (k, a) :: slab_entries s'.
Proof.
  intros Hk Hs. apply NoDup_Permutation; [apply slab_entries_nodup| |].
  - constructor; [|apply slab_entries_nodup]. by rewrite slab_entries_get, Hs, decide_True.
  - intros [k' b]. rewrite elem_of_cons, !slab_entries_get, Hs. destruct (decide (k' = k)) as [->|Hne]; naive_solver.
Qed.

Lemma slab_entries_new : slab_entries (slab_new (S := S) (A := A)) = [].
Proof. apply elem_of_nil_inv. intros [k a]. by rewrite slab_entries_get, slab_get_new. Qed.
End entries.
