(* ===== verification/IntervalMap.v ===== *)
(** * IntervalMap: stabbing queries over the intervals of subscribers
      (src/crates/interval_map/src/lib.rs)

    [IntervalMapOps] and [IntervalMapLaws] are the interface the subscription
    manager uses: a map from subscribers to lists of intervals that finds the
    subscribers of a point.  IntervalTreap.v has the implementation and proves
    the laws of it. *)

From S2P Require Import Prelude Ord BinaryKey Bounds Interval Slab.

Local Open Scope Z_scope.

(** ** The interface *)

(** What a map stores: the intervals of each registered subscriber. *)
Definition Registered := Z -> option (list Interval).

Definition reg_put (A : Registered) (id : Z) (o : option (list Interval)) : Registered :=
  fun id' => if decide (id' = id) then o else A id'.

Class IntervalMapOps (IM : Type) := {
  im_new : IM;
  im_is_empty : IM -> bool;
  (** [Ok(())] is [true] and [Err(TooFull)] is [false]. *)
  im_insert {E} : IM -> Z -> list Interval -> outcome E (IM * bool);
  im_remove {E} : IM -> Z -> outcome E IM;
  (** The arguments of the calls of the closure. *)
  im_query {E} : IM -> list Z -> outcome E (list Z);
}.

Class IntervalMapLaws (IM : Type) `{!IntervalMapOps IM} := {
  im_rep : IM -> Registered -> Prop;
  im_rep_proper :: Proper ((=) ==> pointwise_relation Z (=) ==> iff) im_rep;
  im_new_rep : im_rep im_new (fun _ => None);
  im_is_empty_rep m A : im_rep m A -> if im_is_empty m then forall id, A id = None else exists id, A id <> None;
  im_insert_rep m A id ivs :
    im_rep m A -> A id = None ->
    exists m' ok, (forall E, im_insert (E := E) m id ivs = Ret (m', ok)) /\
      im_rep m' (if ok : bool then reg_put A id (Some ivs) else A);
  im_remove_rep m A id :
    im_rep m A -> A id <> None ->
    exists m', (forall E, im_remove (E := E) m id = Ret m') /\ im_rep m' (reg_put A id None);
  im_query_rep m A p :
    im_rep m A ->
    exists ids, (forall E, im_query (E := E) m p = Ret ids) /\
      forall id, id ∈ ids <-> exists ivs i, A id = Some ivs /\ i ∈ ivs /\ inside i p;
}.
