(* ===== verification/IntervalTreap.v ===== *)
(** * IntervalTreap: the treap behind the interval map
      (src/crates/interval_map/src/lib.rs)

    The nodes live in a slab and point at each other by key: the tree is their
    child and parent pointers, an annotation at each node points at the node
    with the greatest upper bound below it, and the nodes of a subscriber form
    a linked list.  The operations are the loops and recursions of the source
    on the slab; a purely functional treap is the reference they are proved
    against.  The random weights come from a generator that is a parameter:
    the map is correct for any weights.  A panic is [Panic]; [debug_assert]s
    are not part of the release build. *)

From Stdlib Require Import Sorted.
From stdpp Require Import gmap.
From S2P Require Import Prelude Ord BinaryKey Bounds Interval Slab IntervalMap.

Local Open Scope Z_scope.

(** ** The operations *)

(** A [NodeKey] is a [NonZeroU32], one more than the slab key. *)
Definition node_key_new (index : Z) : option Z :=
  if (1 <=? index + 1) && (index + 1 <=? 2 ^ 32 - 1) then Some (index + 1) else None.
Definition slab_key (k : Z) : Z := k - 1.

#[global] Instance slab_key_inj : Inj (=) (=) slab_key.
Proof. intros a b. unfold slab_key. lia. Qed.

(** [child] is the array of two; [false] is index 0. *)
Record Node := MkNode {
  weight : Z;
  node_start : list Z;
  upper_bound : Bound;
  node_subscriber : Z;
  parent : option Z;
  child : option Z * option Z;
  max_upper_bound : Z;
  next : option Z;
}.

Definition get_child (n : Node) (i : bool) : option Z := if i then (child n).2 else (child n).1.

Definition set_parent (o : option Z) (n : Node) : Node :=
  {| weight := weight n; node_start := node_start n; upper_bound := upper_bound n; node_subscriber := node_subscriber n;
     parent := o; child := child n; max_upper_bound := max_upper_bound n; next := next n |}.
Definition set_children (c : option Z * option Z) (n : Node) : Node :=
  {| weight := weight n; node_start := node_start n; upper_bound := upper_bound n; node_subscriber := node_subscriber n;
     parent := parent n; child := c; max_upper_bound := max_upper_bound n; next := next n |}.
Definition set_child (i : bool) (o : option Z) (n : Node) : Node :=
  set_children (if i then ((child n).1, o) else (o, (child n).2)) n.
Definition set_max (k : Z) (n : Node) : Node :=
  {| weight := weight n; node_start := node_start n; upper_bound := upper_bound n; node_subscriber := node_subscriber n;
     parent := parent n; child := child n; max_upper_bound := k; next := next n |}.
Definition set_next (o : option Z) (n : Node) : Node :=
  {| weight := weight n; node_start := node_start n; upper_bound := upper_bound n; node_subscriber := node_subscriber n;
     parent := parent n; child := child n; max_upper_bound := max_upper_bound n; next := o |}.

Section operations.
Context {Sl : Type -> Type} `{SlabLaws Sl} {Rng : Type} (rng_new : Rng) (rng_u32 : Rng -> Z * Rng).
Notation Nodes := (Sl Node).
Notation run A := (outcome False A).

Definition node_at (nodes : Nodes) (k : Z) : run Node := expect (slab_get (slab_key k) nodes).
Definition modify (nodes : Nodes) (k : Z) (f : Node -> Node) : run Nodes :=
  let? n := node_at nodes k in Ret (slab_set (slab_key k) (f n) nodes).

(** [Node::replace_child]. *)
Definition replace_child (nodes : Nodes) (k from : Z) (to : option Z) : run Nodes :=
  let? n := node_at nodes k in
  if bool_decide (get_child n false = Some from) then modify nodes k (set_child false to)
  else
    let? _ := rassert (bool_decide (get_child n true = Some from)) in
    modify nodes k (set_child true to).

Definition recalculate_annotation (nodes : Nodes) (node : Z) : run Nodes :=
  let? n := node_at nodes node in
  let? ix := foldM (fun ix c =>
    match c with
    | Some c =>
        let? cn := node_at nodes c in
        let m := max_upper_bound cn in
        let? mn := node_at nodes m in
        let? xn := node_at nodes ix in
        Ret (if upper_bound xn <? upper_bound mn then m else ix)%ord
    | None => Ret ix
    end) node [get_child n false; get_child n true] in
  modify nodes node (set_max ix).

(** Recursions and loops take fuel: the number of nodes is enough, since each
    round goes one step down or up the tree. *)
Definition fuel_of (nodes : Nodes) : nat := S (slab_len nodes).

Fixpoint merge (fuel : nat) (nodes : Nodes) (n m : option Z) : run (Nodes * option Z) :=
  match n, m, fuel with
  | None, _, _ => Ret (nodes, m)
  | Some n, None, _ => Ret (nodes, Some n)
  | _, _, O => Panic
  | Some n, Some m, S fuel =>
      let? nn := node_at nodes n in
      let? mn := node_at nodes m in
      if weight nn <=? weight mn then
        let? (nodes, right_part) := merge fuel nodes (get_child nn true) (Some m) in
        let? nodes := modify nodes n (set_child true right_part) in
        let? nodes := match right_part with Some r => modify nodes r (set_parent (Some n)) | None => Ret nodes end in
        let? nodes := recalculate_annotation nodes n in
        Ret (nodes, Some n)
      else
        let? (nodes, left_part) := merge fuel nodes (Some n) (get_child mn false) in
        let? nodes := modify nodes m (set_child false left_part) in
        let? nodes := match left_part with Some l => modify nodes l (set_parent (Some m)) | None => Ret nodes end in
        let? nodes := recalculate_annotation nodes m in
        Ret (nodes, Some m)
  end.

(** The loop of [split]: [l] and [r] are the ends of the two spines. *)
Fixpoint split_loop (fuel : nat) (nodes : Nodes) (node dest l r : Z) : run (Nodes * Z * Z) :=
  match fuel with
  | O => Panic
  | S fuel =>
      let? nn := node_at nodes node in
      let? dn := node_at nodes dest in
      if (node_start nn <=? node_start dn)%ord then
        let? nodes := modify nodes node (set_parent (Some l)) in
        let? nodes := modify nodes l (set_child true (Some node)) in
        let? nn := node_at nodes node in
        let? nodes := modify nodes node (set_child true None) in
        match get_child nn true with
        | Some c => split_loop fuel nodes c dest node r
        | None => Ret (nodes, node, r)
        end
      else
        let? nodes := modify nodes node (set_parent (Some r)) in
        let? nodes := modify nodes r (set_child false (Some node)) in
        let? nn := node_at nodes node in
        let? nodes := modify nodes node (set_child false None) in
        match get_child nn false with
        | Some c => split_loop fuel nodes c dest l node
        | None => Ret (nodes, l, node)
        end
  end.

(** [while p != dest]. *)
Fixpoint recalculate_up (fuel : nat) (nodes : Nodes) (p dest : Z) : run Nodes :=
  if p =? dest then Ret nodes
  else
    match fuel with
    | O => Panic
    | S fuel =>
        let? nodes := recalculate_annotation nodes p in
        let? n := node_at nodes p in
        let? p := expect (parent n) in
        recalculate_up fuel nodes p dest
    end.

Definition split (nodes : Nodes) (node dest : Z) : run Nodes :=
  let? (nodes, l, r) := split_loop (fuel_of nodes) nodes node dest dest dest in
  let? nodes := modify nodes dest (fun n => set_children ((child n).2, (child n).1) n) in
  let? nodes := foldM (fun nodes p => recalculate_up (fuel_of nodes) nodes p dest) nodes [l; r] in
  recalculate_annotation nodes dest.

(** [assert_eq!(self.nodes.insert(node), node_key.key())]. *)
Definition insert_at (nodes : Nodes) (node_key : Z) (node : Node) : run Nodes :=
  let? _ := rassert (vacant_key nodes =? slab_key node_key) in
  Ret (slab_insert node nodes).

Fixpoint insert_node (fuel : nat) (nodes : Nodes) (root : option Z) (par node_key : Z) (node : Node)
    : run (Nodes * option Z) :=
  match fuel with
  | O => Panic
  | S fuel =>
      let? pn := node_at nodes par in
      if weight node <? weight pn then
        let? (nodes, root, node) :=
          match parent pn with
          | Some grandparent =>
              let? nodes := replace_child nodes grandparent par (Some node_key) in
              Ret (nodes, root, set_parent (Some grandparent) node)
          | None => Ret (nodes, Some node_key, node)
          end in
        let? nodes := insert_at nodes node_key node in
        let? nodes := split nodes par node_key in
        Ret (nodes, root)
      else
        let? mn := node_at nodes (max_upper_bound pn) in
        let? nodes := if (upper_bound mn <? upper_bound node)%ord then modify nodes par (set_max node_key) else Ret nodes in
        let i := negb (node_start node <? node_start pn)%ord in
        match get_child pn i with
        | Some c => insert_node fuel nodes root c node_key node
        | None =>
            let? nodes := modify nodes par (set_child i (Some node_key)) in
            let? nodes := insert_at nodes node_key (set_parent (Some par) node) in
            Ret (nodes, root)
        end
  end.

Record TreapMap := MkTreap {
  im_nodes : Nodes;
  im_root : option Z;
  im_subscribers : gmap Z (option Z);
  im_rng : Rng;
}.

Definition treap_new : TreapMap := {| im_nodes := slab_new; im_root := None; im_subscribers := ∅; im_rng := rng_new |}.
Definition subscriber_len (self : TreapMap) : nat := size (im_subscribers self).
Definition treap_is_empty (self : TreapMap) : bool := bool_decide (im_subscribers self = ∅).

(** [insert_interval]; [false] is [Err(TooFull)]. *)
Definition insert_interval (self : TreapMap) (subscriber : Z) (interval : Interval) (w : Z) : run (TreapMap * bool) :=
  match node_key_new (vacant_key (im_nodes self)) with
  | None => Ret (self, false)
  | Some key =>
      let? sub := expect (im_subscribers self !! subscriber) in
      let node := {| weight := w; node_start := start interval; upper_bound := end_ interval; node_subscriber := subscriber;
                     parent := None; child := (None, None); max_upper_bound := key; next := sub |} in
      let subs := <[subscriber := Some key]> (im_subscribers self) in
      match im_root self with
      | None =>
          Ret ({| im_nodes := slab_insert node (im_nodes self); im_root := Some key; im_subscribers := subs;
                  im_rng := im_rng self |}, true)
      | Some root =>
          let? (nodes, root) := insert_node (fuel_of (im_nodes self)) (im_nodes self) (Some root) root key node in
          Ret ({| im_nodes := nodes; im_root := root; im_subscribers := subs; im_rng := im_rng self |}, true)
      end
  end.

(** The loop of [remove_in_place] from the parent of the removed node up. *)
Fixpoint fix_annotations (fuel : nat) (nodes : Nodes) (p n : Z) : run Nodes :=
  match fuel with
  | O => Panic
  | S fuel =>
      let? pn := node_at nodes p in
      let? nodes := if max_upper_bound pn =? n then recalculate_annotation nodes p else Ret nodes in
      let? pn := node_at nodes p in
      match parent pn with Some gp => fix_annotations fuel nodes gp n | None => Ret nodes end
  end.

Definition remove_in_place (nodes : Nodes) (root : option Z) (n : Z) : run (Nodes * option Z) :=
  let? nn := node_at nodes n in
  let? (nodes, new_child) := merge (fuel_of nodes) nodes (get_child nn false) (get_child nn true) in
  let? nn := node_at nodes n in
  let? nodes := match new_child with Some c => modify nodes c (set_parent (parent nn)) | None => Ret nodes end in
  let? (nodes, root) :=
    match parent nn with
    | Some p =>
        let? nodes := replace_child nodes p n new_child in
        let? nodes := fix_annotations (fuel_of nodes) nodes p n in
        Ret (nodes, root)
    | None => Ret (nodes, new_child)
    end in
  Ret (slab_remove (slab_key n) nodes, root).

(** The loop of [remove] over the linked list. *)
Fixpoint remove_list (fuel : nat) (nodes : Nodes) (root node : option Z) : run (Nodes * option Z) :=
  match node, fuel with
  | None, _ => Ret (nodes, root)
  | Some _, O => Panic
  | Some n, S fuel =>
      let? nn := node_at nodes n in
      let? nodes := modify nodes n (set_next None) in
      let? (nodes, root) := remove_in_place nodes root n in
      remove_list fuel nodes root (next nn)
  end.

Definition treap_remove (self : TreapMap) (subscriber : Z) : run TreapMap :=
  let? node := expect (im_subscribers self !! subscriber) in
  let? (nodes, root) := remove_list (fuel_of (im_nodes self)) (im_nodes self) (im_root self) node in
  Ret {| im_nodes := nodes; im_root := root; im_subscribers := delete subscriber (im_subscribers self); im_rng := im_rng self |}.

Fixpoint insert_all (self : TreapMap) (subscriber : Z) (intervals : list Interval) : run (TreapMap * bool) :=
  match intervals with
  | [] => Ret (self, true)
  | interval :: rest =>
      let '(w, rng) := rng_u32 (im_rng self) in
      let self := {| im_nodes := im_nodes self; im_root := im_root self; im_subscribers := im_subscribers self; im_rng := rng |} in
      let? (self, ok) := insert_interval self subscriber interval w in
      if ok : bool then insert_all self subscriber rest
      else let? self := treap_remove self subscriber in Ret (self, false)
  end.

Definition treap_insert (self : TreapMap) (subscriber : Z) (intervals : list Interval) : run (TreapMap * bool) :=
  let? _ := rassert (bool_decide (im_subscribers self !! subscriber = None)) in
  insert_all {| im_nodes := im_nodes self; im_root := im_root self; im_subscribers := <[subscriber := None]> (im_subscribers self);
                im_rng := im_rng self |} subscriber intervals.

Fixpoint query_subtree (fuel : nat) (nodes : Nodes) (point : list Z) (node : option Z) : run (list Z) :=
  match node, fuel with
  | None, _ => Ret []
  | Some _, O => Panic
  | Some node, S fuel =>
      let? n := node_at nodes node in
      let? mn := node_at nodes (max_upper_bound n) in
      if greater_than (upper_bound mn) point then
        if (node_start n <=? point)%ord then
          let? left_part := query_subtree fuel nodes point (get_child n false) in
          let? right_part := query_subtree fuel nodes point (get_child n true) in
          Ret (left_part ++ (if greater_than (upper_bound n) point then [node_subscriber n] else []) ++ right_part)
        else query_subtree fuel nodes point (get_child n false)
      else Ret []
  end.

Definition treap_query (self : TreapMap) (point : list Z) : run (list Z) :=
  query_subtree (fuel_of (im_nodes self)) (im_nodes self) point (im_root self).
End operations.

(** ** The reference: a functional treap *)

Record Item := MkItem { i_key : Z; i_weight : Z; i_start : list Z; i_end : Bound; i_sub : Z }.

Inductive tree := Leaf | Nd (it : Item) (l r : tree).

Fixpoint items (t : tree) : list Item :=
  match t with Leaf => [] | Nd it l r => items l ++ it :: items r end.

Notation keys t := (map i_key (items t)).

Definition root_of (t : tree) : option Z := match t with Leaf => None | Nd it _ _ => Some (i_key it) end.

(** Order preserving: the roots compete by weight. *)
Fixpoint tmerge (t1 : tree) : tree -> tree :=
  match t1 with
  | Leaf => fun t2 => t2
  | Nd a l1 r1 =>
      fix go t2 :=
        match t2 with
        | Leaf => t1
        | Nd b l2 r2 => if i_weight a <=? i_weight b then Nd a l1 (tmerge r1 t2) else Nd b (go l2) r2
        end
  end.

Fixpoint tsplit (s : list Z) (t : tree) : tree * tree :=
  match t with
  | Leaf => (Leaf, Leaf)
  | Nd it l r =>
      if (i_start it <=? s)%ord then let '(a, b) := tsplit s r in (Nd it l a, b)
      else let '(a, b) := tsplit s l in (a, Nd it b r)
  end.

Fixpoint tinsert (x : Item) (t : tree) : tree :=
  match t with
  | Leaf => Nd x Leaf Leaf
  | Nd it l r =>
      if i_weight x <? i_weight it then let '(a, b) := tsplit (i_start x) t in Nd x a b
      else if (i_start x <? i_start it)%ord then Nd it (tinsert x l) r else Nd it l (tinsert x r)
  end.

Lemma items_merge t1 t2 : items (tmerge t1 t2) = items t1 ++ items t2.
Proof.
  revert t2. induction t1 as [|a l1 _ r1 IH1]; intros t2; [done|]. induction t2 as [|b l2 IH2 r2 _]; [by rewrite app_nil_r|].
  cbn [tmerge]. destruct (i_weight a <=? i_weight b); cbn [items].
  - rewrite IH1. cbn [items]. by rewrite <- app_assoc.
  - change (items ((fix go (t2 : tree) : tree := _) l2)) with (items (tmerge (Nd a l1 r1) l2)). rewrite IH2. cbn [items].
    by rewrite <- !app_assoc.
Qed.

Lemma items_split s t : items (tsplit s t).1 ++ items (tsplit s t).2 = items t.
Proof.
  induction t as [|it l IHl r IHr]; [done|]. cbn [tsplit]. destruct (i_start it <=? s)%ord.
  - destruct (tsplit s r) as [a b]. cbn [fst snd items] in *. by rewrite <- IHr, <- app_assoc.
  - destruct (tsplit s l) as [a b]. cbn [fst snd items] in *. by rewrite <- IHl, <- app_assoc.
Qed.

(** Search order: in-order keys ascend. *)
Notation sorted l := (StronglySorted (fun a b => i_start a ≼ i_start b) l).

Lemma sorted_app (l k : list Item) :
  sorted (l ++ k) <-> sorted l /\ sorted k /\ forall a b, a ∈ l -> b ∈ k -> i_start a ≼ i_start b.
Proof.
  induction l as [|x l IH]; cbn [app]; [split; [|by intros (_ & ? & _)]; intros; split_and!; [constructor|done|by intros ? ? ?%elem_of_nil]|].
  split.
  - intros Hs. inversion Hs as [|? ? Hs' Hx]; subst. apply IH in Hs' as (? & ? & ?). rewrite Forall_forall in Hx.
    split_and!; [constructor; [done|]; apply Forall_forall; intros; apply Hx, elem_of_app; by left|done|].
    intros a b [->|?]%elem_of_cons ?; [apply Hx, elem_of_app; by right|auto].
  - intros (Hs & Hk & Hlk). inversion Hs as [|? ? Hs' Hx]; subst. rewrite Forall_forall in Hx. constructor.
    + apply IH. split_and!; [done|done|]. intros a b ? ?. apply Hlk; [by right|done].
    + apply Forall_forall. intros y [?|?]%elem_of_app; [by apply Hx|]. apply Hlk; [left|done].
Qed.

Lemma sorted_node it (l r : list Item) :
  sorted (l ++ it :: r) <->
  sorted l /\ sorted r /\ (forall a, a ∈ l -> i_start a ≼ i_start it) /\ (forall b, b ∈ r -> i_start it ≼ i_start b).
Proof.
  rewrite sorted_app. split.
  - intros (Hl & Hr & Hlr). inversion Hr as [|? ? Hr' Hx]; subst. rewrite Forall_forall in Hx. split_and!; try done.
    intros a Ha. apply Hlr; [done|left].
  - intros (Hl & Hr & Hlt & Hgt). split_and!; [done|constructor; [done|by apply Forall_forall]|].
    intros a b Ha [->|Hb]%elem_of_cons; [by apply Hlt|]. eapply ole_trans; [by apply Hlt|by apply Hgt].
Qed.

Lemma split_sides s t :
  sorted (items t) ->
  (forall a, a ∈ items (tsplit s t).1 -> i_start a ≼ s) /\ (forall b, b ∈ items (tsplit s t).2 -> s ≺ i_start b).
Proof.
  induction t as [|it l IHl r IHr]; [by split; intros ? ?%elem_of_nil|]. cbn [tsplit items]. intros (Hl & Hr & Hlt & Hgt)%sorted_node.
  destruct (i_start it <=? s)%ord eqn:Hc.
  - apply leb_le in Hc. destruct (IHr Hr) as [Ha Hb]. destruct (tsplit s r) as [a b]. cbn [fst snd items] in *. split; [|done].
    intros x [Hx|[->|Hx]%elem_of_cons]%elem_of_app; [|done|by apply Ha]. eapply ole_trans; [by apply Hlt|done].
  - apply leb_gt in Hc. destruct (IHl Hl) as [Ha Hb]. destruct (tsplit s l) as [a b]. cbn [fst snd items] in *. split; [done|].
    intros x [Hx|[->|Hx]%elem_of_cons]%elem_of_app; [by apply Hb|done|]. eapply olt_ole_trans; [done|by apply Hgt].
Qed.

(** Inserting puts the item after its equals. *)
Lemma items_insert x t :
  sorted (items t) ->
  exists l r, items t = l ++ r /\ items (tinsert x t) = l ++ x :: r /\
    (forall a, a ∈ l -> i_start a ≼ i_start x) /\ (forall b, b ∈ r -> i_start x ≺ i_start b).
Proof.
  induction t as [|it l IHl r IHr]; intros Hs; cbn [tinsert].
  { exists [], []. split_and!; try done; by intros ? ?%elem_of_nil. }
  destruct (i_weight x <? i_weight it).
  - pose proof (items_split (i_start x) (Nd it l r)) as Hi. destruct (split_sides (i_start x) (Nd it l r) Hs) as [Ha Hb].
    destruct (tsplit (i_start x) (Nd it l r)) as [a b]. cbn [fst snd] in *. exists (items a), (items b). done.
  - cbn [items] in Hs. apply sorted_node in Hs as (Hl & Hr & Hlt & Hgt). destruct (i_start x <? i_start it)%ord eqn:Hc.
    + apply ltb_lt in Hc. destruct (IHl Hl) as (l1 & l2 & E1 & E2 & Ha & Hb). exists l1, (l2 ++ it :: items r). cbn [items].
      rewrite E1, E2, <- !app_assoc. split_and!; try done.
      intros b [?|[->|?]%elem_of_cons]%elem_of_app; [by apply Hb|done|]. eapply olt_ole_trans; [done|by apply Hgt].
    + apply ltb_ge in Hc. destruct (IHr Hr) as (r1 & r2 & E1 & E2 & Ha & Hb). exists (items l ++ it :: r1), r2. cbn [items].
      rewrite E1, E2, <- !app_assoc. split_and!; try done.
      intros a [?|[->|?]%elem_of_cons]%elem_of_app; [|done|by apply Ha]. eapply ole_trans; [by apply Hlt|done].
Qed.

Lemma sorted_insert x t : sorted (items t) -> sorted (items (tinsert x t)).
Proof.
  intros Hs. destruct (items_insert x t Hs) as (l & r & E1 & E2 & Ha & Hb). rewrite E1 in Hs. apply sorted_app in Hs as (Hl & Hr & _).
  rewrite E2. apply sorted_node. split_and!; try done. intros b ?. by apply olt_ole, Hb.
Qed.

Lemma items_insert_perm x t : items (tinsert x t) ≡ₚ x :: items t.
Proof.
  induction t as [|it l IHl r IHr]; [done|]. cbn [tinsert]. destruct (i_weight x <? i_weight it).
  - pose proof (items_split (i_start x) (Nd it l r)) as Hi. destruct (tsplit (i_start x) (Nd it l r)) as [a b]. cbn [fst snd] in Hi.
    rewrite <- Hi. cbn [items]. symmetry. apply Permutation_middle.
  - destruct (i_start x <? i_start it)%ord; cbn [items]; [by rewrite IHl|]. rewrite IHr, <- !Permutation_middle. apply perm_swap.
Qed.

(** Heap order: the weight of a node is minimal in its subtree. *)
Fixpoint heap (t : tree) : Prop :=
  match t with
  | Leaf => True
  | Nd it l r => (forall x, x ∈ items l ++ items r -> i_weight it <= i_weight x) /\ heap l /\ heap r
  end.

Lemma heap_merge t1 t2 : heap t1 -> heap t2 -> heap (tmerge t1 t2).
Proof.
  revert t2. induction t1 as [|a l1 _ r1 IH1]; intros t2; [done|]. induction t2 as [|b l2 IH2 r2 _]; [done|].
  intros H1 H2. pose proof H1 as (Ha & Hl1 & Hr1). pose proof H2 as (Hb & Hl2 & Hr2). cbn [tmerge].
  change ((fix go (t2 : tree) : tree := _) l2) with (tmerge (Nd a l1 r1) l2).
  destruct (Z.leb_spec (i_weight a) (i_weight b)); cbn [heap].
  - split_and!; [|done|by apply IH1]. intros x. rewrite items_merge. cbn [items]. rewrite !elem_of_app, elem_of_cons.
    intros [?|[?|[?|[->|?]]]]; [apply Ha, elem_of_app; by left|apply Ha, elem_of_app; by right| |done|];
      (etrans; [done|]); apply Hb, elem_of_app; auto.
  - split_and!; [|by apply IH2|done]. intros x. rewrite items_merge. cbn [items]. rewrite !elem_of_app, elem_of_cons.
    intros [[[?|[->|?]]|?]|?]; [|lia| |apply Hb, elem_of_app; by left|apply Hb, elem_of_app; by right];
      (transitivity (i_weight a); [lia|]); apply Ha, elem_of_app; auto.
Qed.

Lemma heap_split s t : heap t -> heap (tsplit s t).1 /\ heap (tsplit s t).2.
Proof.
  induction t as [|it l IHl r IHr]; [done|]. intros (Hit & Hl & Hr). cbn [tsplit].
  destruct (i_start it <=? s)%ord.
  - pose proof (items_split s r) as Hi. destruct (IHr Hr) as [Ha Hb]. destruct (tsplit s r) as [a b]. cbn [fst snd heap] in *.
    split_and!; try done. intros x. rewrite elem_of_app. intros [?|?]; apply Hit, elem_of_app; [by left|right]. rewrite <- Hi. apply elem_of_app. by left.
  - pose proof (items_split s l) as Hi. destruct (IHl Hl) as [Ha Hb]. destruct (tsplit s l) as [a b]. cbn [fst snd heap] in *.
    split_and!; try done. intros x. rewrite elem_of_app. intros [?|?]; apply Hit, elem_of_app; [left|by right]. rewrite <- Hi. apply elem_of_app. by right.
Qed.

Lemma heap_insert x t : heap t -> heap (tinsert x t).
Proof.
  induction t as [|it l IHl r IHr]; intros Ht; cbn [tinsert]; [cbn; split_and!; try done; by intros ? ?%elem_of_nil|].
  pose proof Ht as (Hit & Hl & Hr). destruct (Z.ltb_spec (i_weight x) (i_weight it)).
  - pose proof (items_split (i_start x) (Nd it l r)) as Hi. destruct (heap_split (i_start x) _ Ht) as [Ha Hb].
    destruct (tsplit (i_start x) (Nd it l r)) as [a b]. cbn [fst snd heap] in *. split_and!; try done. intros y Hy. rewrite Hi in Hy.
    cbn [items] in Hy. apply elem_of_app in Hy as [?|[->|?]%elem_of_cons]; [|lia|];
      (transitivity (i_weight it); [lia|]); apply Hit, elem_of_app; auto.
  - destruct (i_start x <? i_start it)%ord; cbn [heap]; split_and!; auto; intros y; rewrite elem_of_app, items_insert_perm, elem_of_cons;
      [intros [[->|?]|?]|intros [?|[->|?]]]; try done; apply Hit, elem_of_app; auto.
Qed.

(** *** Contexts *)

(** The path from a hole up: at each node, whether the hole is on the right,
    and the other subtree. *)
Record Frame := MkFrame { f_item : Item; f_right : bool; f_sib : tree }.

Definition f_key (f : Frame) : Z := i_key (f_item f).

Definition plug1 (f : Frame) (t : tree) : tree :=
  if f_right f then Nd (f_item f) (f_sib f) t else Nd (f_item f) t (f_sib f).
Definition plug (c : list Frame) (t : tree) : tree := fold_left (fun t f => plug1 f t) c t.

Definition c_items (c : list Frame) : list Item := concat (map (fun f => f_item f :: items (f_sib f)) c).
Notation c_keys c := (map i_key (c_items c)).

Lemma items_plug1 f t : items (plug1 f t) ≡ₚ f_item f :: items (f_sib f) ++ items t.
Proof.
  unfold plug1. destruct (f_right f); cbn [items]; [by rewrite <- Permutation_middle|].
  rewrite <- Permutation_middle. constructor. apply Permutation_app_comm.
Qed.

Lemma items_plug c : forall t, items (plug c t) ≡ₚ items t ++ c_items c.
Proof.
  induction c as [|f c IH]; intros t; cbn [plug fold_left]; [by rewrite app_nil_r|]. change (fold_left _ c (plug1 f t)) with (plug c (plug1 f t)).
  rewrite IH, items_plug1. unfold c_items. cbn [map concat app]. rewrite <- Permutation_middle. constructor.
  by rewrite (Permutation_app_comm (items (f_sib f))), <- app_assoc.
Qed.

Lemma keys_plug c t : keys (plug c t) ≡ₚ keys t ++ c_keys c.
Proof. rewrite <- map_app. apply Permutation_map, items_plug. Qed.

Lemma plug_cons f c t : plug (f :: c) t = plug c (plug1 f t).
Proof. done. Qed.

Lemma root_plug1 f t : root_of (plug1 f t) = Some (f_key f).
Proof. unfold plug1. by destruct (f_right f). Qed.

(** What the place above the context points at, when the hole holds [o]. *)
Definition top (c : list Frame) (o : option Z) : option Z := match last c with Some f => Some (f_key f) | None => o end.

Lemma root_plug c : forall t, root_of (plug c t) = top c (root_of t).
Proof.
  induction c as [|f c IH]; intros t; [done|]. rewrite plug_cons, IH, root_plug1. unfold top. rewrite last_cons. by destruct (last c).
Qed.

(** Every node of a tree is at the hole of some context. *)
Lemma find_context x t : x ∈ items t -> exists c l r, t = plug c (Nd x l r).
Proof.
  induction t as [|it l IHl r IHr]; [by intros ?%elem_of_nil|]. cbn [items]. intros [Hx|[->|Hx]%elem_of_cons]%elem_of_app.
  - destruct (IHl Hx) as (c & a & b & ->). exists (c ++ [MkFrame it false r]), a, b. unfold plug. by rewrite fold_left_app.
  - by exists [], l, r.
  - destruct (IHr Hx) as (c & a & b & ->). exists (c ++ [MkFrame it true l]), a, b. unfold plug. by rewrite fold_left_app.
Qed.

(** Replacing the tree at the hole. *)
Lemma items_plug_inorder c : exists pre post, forall t, items (plug c t) = pre ++ items t ++ post.
Proof.
  induction c as [|f c (pre & post & IH)]; [exists [], []; intros t; by rewrite app_nil_r|].
  destruct (f_right f) eqn:Hf.
  - exists (pre ++ items (f_sib f) ++ [f_item f]), post. intros t. rewrite plug_cons, IH. unfold plug1. rewrite Hf. cbn [items].
    by rewrite <- !app_assoc.
  - exists pre, (f_item f :: items (f_sib f) ++ post). intros t. rewrite plug_cons, IH. unfold plug1. rewrite Hf. cbn [items].
    by rewrite <- !app_assoc.
Qed.

Lemma heap_hole c : forall t, heap (plug c t) -> heap t.
Proof.
  induction c as [|f c IH]; intros t Ht; [done|]. rewrite plug_cons in Ht. apply IH in Ht. unfold plug1 in Ht.
  destruct (f_right f); by destruct Ht as (_ & ? & ?).
Qed.

Lemma c_items_length c : (length c <= length (c_items c))%nat.
Proof. unfold c_items. induction c as [|f c IH]; cbn [map concat length app]; [lia|]. rewrite length_app. lia. Qed.

Lemma heap_plug c : forall t u, heap (plug c t) -> heap u -> (forall x, x ∈ items u -> x ∈ items t) -> heap (plug c u).
Proof.
  induction c as [|f c IH]; intros t u Ht Hu Hin; [done|]. rewrite plug_cons in *.
  assert (Hp : heap (plug1 f t)) by (by eapply heap_hole).
  apply (IH (plug1 f t)); [done| |].
  - unfold plug1 in *. destruct (f_right f); destruct Hp as (Hw & ? & ?); split_and!; try done; intros x; rewrite elem_of_app;
      intros Hx; apply Hw, elem_of_app; naive_solver.
  - intros x. rewrite !items_plug1, !elem_of_cons, !elem_of_app. naive_solver.
Qed.

(** ** The tree in the slab *)

Definition item_of (k : Z) (n : Node) : Item :=
  {| i_key := k; i_weight := weight n; i_start := node_start n; i_end := upper_bound n; i_sub := node_subscriber n |}.

Section representation.
Context {Sl : Type -> Type} `{SlabLaws Sl}.
Notation Nodes := (Sl Node).
Implicit Types (ns : Nodes) (t : tree).

Definition lk ns (k : Z) : option Node := slab_get (slab_key k) ns.

(** The item and the pointers at a key; its annotation; its list pointer. *)
Definition links ns (k : Z) : option (Item * option Z * (option Z * option Z)) :=
  (fun n => (item_of k n, parent n, child n)) <$> lk ns k.
Definition max_of ns (k : Z) : option Z := max_upper_bound <$> lk ns k.
Definition next_of ns (k : Z) : option (option Z) := next <$> lk ns k.

Fixpoint is_tree ns (p : option Z) t : Prop :=
  match t with
  | Leaf => True
  | Nd it l r =>
      links ns (i_key it) = Some (it, p, (root_of l, root_of r)) /\
      is_tree ns (Some (i_key it)) l /\ is_tree ns (Some (i_key it)) r
  end.

(** The annotation at [k] points at an item with the greatest upper bound among [its]. *)
Definition max_ok ns (k : Z) (its : list Item) : Prop :=
  exists x, x ∈ its /\ max_of ns k = Some (i_key x) /\ forall y, y ∈ its -> i_end y ≼ i_end x.

Fixpoint annotated ns t : Prop :=
  match t with
  | Leaf => True
  | Nd it l r => max_ok ns (i_key it) (items t) /\ annotated ns l /\ annotated ns r
  end.

Lemma max_ok_ext ns ns' k its its' :
  max_of ns' k = max_of ns k -> (forall x, x ∈ its' <-> x ∈ its) -> max_ok ns k its -> max_ok ns' k its'.
Proof. intros Hm Hi (x & Hx & Hk & Hall). exists x. rewrite Hm. setoid_rewrite Hi. done. Qed.

Lemma elem_keys t x : x ∈ items t -> i_key x ∈ keys t.
Proof. apply list_elem_of_fmap_2. Qed.

Lemma is_tree_frame ns ns' p t : (forall k, k ∈ keys t -> links ns' k = links ns k) -> is_tree ns p t -> is_tree ns' p t.
Proof.
  revert p. induction t as [|it l IHl r IHr]; intros p Hf; [done|]. cbn [is_tree items] in *. rewrite map_app in Hf. cbn [map] in Hf.
  setoid_rewrite elem_of_app in Hf. setoid_rewrite elem_of_cons in Hf. intros (Hit & Hl & Hr). rewrite Hf by auto. auto 10.
Qed.

Lemma annotated_frame ns ns' t : (forall k, k ∈ keys t -> max_of ns' k = max_of ns k) -> annotated ns t -> annotated ns' t.
Proof.
  induction t as [|it l IHl r IHr]; intros Hf; [done|]. cbn [annotated items] in *. rewrite map_app in Hf. cbn [map] in Hf.
  setoid_rewrite elem_of_app in Hf. setoid_rewrite elem_of_cons in Hf. intros (Hit & Hl & Hr). split_and!; [|auto 10..].
  revert Hit. apply max_ok_ext; [|done]. auto.
Qed.

(** The nodes of the items are in the slab. *)
Lemma tree_item ns p t x : is_tree ns p t -> x ∈ items t -> exists n, lk ns (i_key x) = Some n /\ item_of (i_key x) n = x.
Proof.
  revert p. induction t as [|it l IHl r IHr]; intros p; [by intros _ ?%elem_of_nil|]. cbn [is_tree items]. intros (Hit & Hl & Hr).
  intros [?|[->|?]%elem_of_cons]%elem_of_app; [by eapply IHl| |by eapply IHr].
  unfold links in Hit. destruct (lk ns (i_key it)) as [n|]; [|done]. injection Hit as Hi _ _. by exists n.
Qed.

Lemma tree_node ns p it l r :
  is_tree ns p (Nd it l r) ->
  exists n, lk ns (i_key it) = Some n /\ item_of (i_key it) n = it /\ parent n = p /\ get_child n false = root_of l /\ get_child n true = root_of r.
Proof.
  intros (Hit & _). unfold links in Hit. destruct (lk ns (i_key it)) as [n|]; [|done]. injection Hit as Hi Hp Hc. exists n.
  unfold get_child. by rewrite Hc.
Qed.

(** What [modify] does. *)
Lemma node_at_ok ns k n : lk ns k = Some n -> node_at ns k = Ret n.
Proof. unfold lk, node_at. by intros ->. Qed.

Lemma modify_ok ns k n f :
  lk ns k = Some n -> exists ns', modify ns k f = Ret ns' /\ forall k', lk ns' k' = if decide (k' = k) then Some (f n) else lk ns k'.
Proof.
  intros Hk. unfold modify. rewrite (node_at_ok _ _ _ Hk). cbn [obind]. eexists. split; [done|]. intros k'. unfold lk in *.
  rewrite slab_get_set. destruct (decide (k' = k)) as [->|Hne]; [by rewrite decide_True, Hk|].
  rewrite decide_False; [done|]. unfold slab_key. lia.
Qed.

(** A tree is no larger than the slab. *)
Lemma keys_len ns (ks : list Z) : NoDup ks -> (forall k, k ∈ ks -> is_Some (lk ns k)) -> (length ks <= slab_len ns)%nat.
Proof.
  intros Hnd Hks. rewrite slab_len_entries. rewrite <- (length_map slab_key ks), <- (length_fmap fst (slab_entries ns)).
  apply submseteq_length, NoDup_submseteq.
  - by apply (NoDup_fmap_2 slab_key).
  - intros k (k' & -> & Hk')%list_elem_of_fmap. destruct (Hks k' Hk') as [n Hn]. apply (list_elem_of_fmap_2 fst _ (slab_key k', n)).
    by apply slab_entries_get.
Qed.

Lemma tree_len ns p t : is_tree ns p t -> NoDup (keys t) -> (length (items t) <= slab_len ns)%nat.
Proof.
  intros Ht Hnd. rewrite <- (length_map i_key (items t)). apply keys_len; [done|]. intros k (x & -> & Hx)%list_elem_of_fmap.
  destruct (tree_item _ _ _ _ Ht Hx) as (n & Hn & _). by eexists.
Qed.

(** *** Recalculating an annotation *)

(** From [ns] to [ns'] only annotations changed, and those outside [ks] did not. *)
Record only_max (ns ns' : Nodes) (ks : list Z) : Prop := {
  om_links : forall k, links ns' k = links ns k;
  om_next : forall k, next_of ns' k = next_of ns k;
  om_max : forall k, k ∉ ks -> max_of ns' k = max_of ns k;
}.

Lemma only_max_refl ns ks : only_max ns ns ks.
Proof. done. Qed.

Lemma set_max_only ns ns' k n m :
  lk ns k = Some n -> (forall k', lk ns' k' = if decide (k' = k) then Some (set_max m n) else lk ns k') ->
  only_max ns ns' [k] /\ max_of ns' k = Some m.
Proof.
  intros Hk Hl. split; [constructor|]; unfold links, next_of, max_of; try intros k'; rewrite Hl.
  - destruct (decide (k' = k)) as [->|]; [by rewrite Hk|done].
  - destruct (decide (k' = k)) as [->|]; [by rewrite Hk|done].
  - intros Hne. rewrite decide_False; [done|]. by intros ->; apply Hne; left.
  - by rewrite decide_True.
Qed.

(** One child in the loop: the better of the two candidates. *)
Definition better ns (x : Item) (t : tree) (y : Item) : Prop :=
  (y = x \/ y ∈ items t) /\ i_end x ≼ i_end y /\ forall z, z ∈ items t -> i_end z ≼ i_end y.

Lemma recalculate_child ns p t (x : Item) xn :
  is_tree ns p t -> annotated ns t -> lk ns (i_key x) = Some xn -> item_of (i_key x) xn = x ->
  exists y yn, match root_of t with
    | Some c =>
        let? cn := node_at ns c in
        let? mn := node_at ns (max_upper_bound cn) in
        let? xn := node_at ns (i_key x) in
        Ret (if upper_bound xn <? upper_bound mn then max_upper_bound cn else i_key x)%ord
    | None => Ret (i_key x)
    end = Ret (i_key y) /\ better ns x t y /\ lk ns (i_key y) = Some yn /\ item_of (i_key y) yn = y.
Proof.
  intros Ht Ha Hx Hxi. destruct t as [|it l r]; cbn [root_of].
  { exists x, xn. split_and!; try done. split_and!; [by left|apply ole_refl|by intros ? ?%elem_of_nil]. }
  destruct (tree_node _ _ _ _ _ Ht) as (n & Hn & _). rewrite (node_at_ok _ _ _ Hn). cbn [obind].
  destruct Ha as [(m & Hm & Hmx & Hall) _]. unfold max_of in Hmx. rewrite Hn in Hmx. injection Hmx as Hmx. rewrite Hmx.
  destruct (tree_item _ _ _ _ Ht Hm) as (mn & Hmn & Hmi). rewrite (node_at_ok _ _ _ Hmn), (node_at_ok _ _ _ Hx). cbn [obind].
  assert (Hmu : upper_bound mn = i_end m) by (by rewrite <- Hmi). assert (Hxu : upper_bound xn = i_end x) by (by rewrite <- Hxi).
  rewrite Hmu, Hxu. destruct (i_end x <? i_end m)%ord eqn:Hc.
  - apply ltb_lt in Hc. exists m, mn. split_and!; try done. split_and!; [by right|by apply olt_ole|done].
  - apply ltb_ge in Hc. exists x, xn. split_and!; try done. split_and!; [by left|apply ole_refl|]. intros z Hz.
    eapply ole_trans; [by apply Hall|done].
Qed.

Lemma recalculate_ok ns p it l r :
  is_tree ns p (Nd it l r) -> annotated ns l -> annotated ns r -> NoDup (keys (Nd it l r)) ->
  exists ns', recalculate_annotation ns (i_key it) = Ret ns' /\ only_max ns ns' [i_key it] /\ annotated ns' (Nd it l r).
Proof.
  intros Ht Hal Har Hnd. pose proof Ht as (_ & Htl & Htr). destruct (tree_node _ _ _ _ _ Ht) as (n & Hn & Hi & _ & Hc0 & Hc1).
  unfold recalculate_annotation. rewrite (node_at_ok _ _ _ Hn). cbn [obind foldM]. rewrite Hc0, Hc1.
  destruct (recalculate_child ns _ l it n Htl Hal Hn Hi) as (y & yn & -> & (Hy1 & Hy2 & Hy3) & Hyn & Hyi). cbn [obind].
  destruct (recalculate_child ns _ r y yn Htr Har Hyn Hyi) as (z & zn & -> & (Hz1 & Hz2 & Hz3) & Hzn & Hzi). cbn [obind].
  destruct (modify_ok ns (i_key it) n (set_max (i_key z)) Hn) as (ns' & -> & Hl). exists ns'. split; [done|].
  destruct (set_max_only ns ns' _ n (i_key z) Hn Hl) as [Ho Hm]. split; [done|]. cbn [items] in Hnd. rewrite map_app in Hnd. cbn [map] in Hnd.
  apply NoDup_app in Hnd as (_ & Hd & [Hnr _]%NoDup_cons). split_and!.
  - exists z. cbn [items]. split; [|split; [done|]].
    + rewrite elem_of_app, elem_of_cons. destruct Hz1 as [->|?]; [|auto]. destruct Hy1 as [->|?]; auto.
    + intros x. rewrite elem_of_app, elem_of_cons. intros [?|[->|?]]; [| |by apply Hz3]; (eapply ole_trans; [|exact Hz2]); auto.
  - eapply annotated_frame; [|exact Hal]. intros k Hk. apply (om_max _ _ _ Ho). intros ->%list_elem_of_singleton. apply (Hd _ Hk). left.
  - eapply annotated_frame; [|exact Har]. intros k Hk. apply (om_max _ _ _ Ho). by intros ->%list_elem_of_singleton.
Qed.
(** *** Changing pointers *)

(** Nodes outside [ks] are as before; list pointers are as before everywhere. *)
Record keeps (ns ns' : Nodes) (ks : list Z) : Prop := {
  kp_links : forall k, k ∉ ks -> links ns' k = links ns k;
  kp_max : forall k, k ∉ ks -> max_of ns' k = max_of ns k;
  kp_next : forall k, next_of ns' k = next_of ns k;
}.

Lemma keeps_refl ns ks : keeps ns ns ks.
Proof. done. Qed.

Lemma keeps_trans ns1 ns2 ns3 ks1 ks2 ks :
  keeps ns1 ns2 ks1 -> keeps ns2 ns3 ks2 -> (forall k, k ∈ ks1 \/ k ∈ ks2 -> k ∈ ks) -> keeps ns1 ns3 ks.
Proof.
  intros [L1 M1 N1] [L2 M2 N2] Hks. constructor; intros k; [intros Hk..|by rewrite N2].
  - rewrite L2, L1; [done|..]; intros ?; apply Hk, Hks; auto.
  - rewrite M2, M1; [done|..]; intros ?; apply Hk, Hks; auto.
Qed.

Lemma only_max_keeps ns ns' ks : only_max ns ns' ks -> keeps ns ns' ks.
Proof. intros [L Nx Mx]. constructor; auto. Qed.

Lemma keeps_tree ns ns' ks p t : keeps ns ns' ks -> (forall k, k ∈ keys t -> k ∉ ks) -> is_tree ns p t -> is_tree ns' p t.
Proof. intros [L _ _] Hd. apply is_tree_frame. auto. Qed.

Lemma keeps_annotated ns ns' ks t : keeps ns ns' ks -> (forall k, k ∈ keys t -> k ∉ ks) -> annotated ns t -> annotated ns' t.
Proof. intros [_ Mx _] Hd. apply annotated_frame. auto. Qed.

(** The pointers at [k] became [v]. *)
Record relinked (ns ns' : Nodes) (k : Z) (v : Item * option Z * (option Z * option Z)) : Prop := {
  rl_at : links ns' k = Some v;
  rl_keeps : keeps ns ns' [k];
  rl_max : forall k, max_of ns' k = max_of ns k;
}.

Lemma modify_relinked ns k n f :
  lk ns k = Some n -> item_of k (f n) = item_of k n -> max_upper_bound (f n) = max_upper_bound n -> next (f n) = next n ->
  exists ns', modify ns k f = Ret ns' /\ relinked ns ns' k (item_of k n, parent (f n), child (f n)).
Proof.
  intros Hk Hi Hm Hn. destruct (modify_ok ns k n f Hk) as (ns' & -> & Hl). exists ns'. split; [done|].
  assert (Hne : forall k', k' ∉ [k] -> lk ns' k' = lk ns k').
  { intros k' Hne. rewrite Hl, decide_False; [done|]. intros ->. apply Hne. left. }
  constructor; [|constructor|].
  - unfold links. rewrite Hl, decide_True by done. cbn. by rewrite Hi.
  - intros k' Hk'. unfold links. by rewrite Hne.
  - intros k' Hk'. unfold max_of. by rewrite Hne.
  - intros k'. unfold next_of. rewrite Hl. destruct (decide (k' = k)) as [->|]; [by rewrite Hk; cbn; rewrite Hn|done].
  - intros k'. unfold max_of. rewrite Hl. destruct (decide (k' = k)) as [->|]; [by rewrite Hk; cbn; rewrite Hm|done].
Qed.

Lemma links_lk ns k it p c : links ns k = Some (it, p, c) -> exists n, lk ns k = Some n /\ item_of k n = it /\ parent n = p /\ child n = c.
Proof. unfold links. destruct (lk ns k) as [n|]; [|done]. intros [= <- <- <-]. by exists n. Qed.

Lemma set_child_ok ns k it p c0 c1 i o :
  links ns k = Some (it, p, (c0, c1)) ->
  exists ns', modify ns k (set_child i o) = Ret ns' /\ relinked ns ns' k (it, p, if i then (c0, o) else (o, c1)).
Proof.
  intros (n & Hn & <- & <- & Hc)%links_lk. destruct (modify_relinked ns k n (set_child i o) Hn) as (ns' & -> & Hr); [by destruct i..|].
  exists ns'. split; [done|]. cbn in Hr. rewrite Hc in Hr. by destruct i.
Qed.

Lemma set_parent_ok ns k it p c q :
  links ns k = Some (it, p, c) -> exists ns', modify ns k (set_parent q) = Ret ns' /\ relinked ns ns' k (it, q, c).
Proof.
  intros (n & Hn & <- & <- & Hc)%links_lk. destruct (modify_relinked ns k n (set_parent q) Hn) as (ns' & -> & Hr); [done..|].
  exists ns'. split; [done|]. cbn in Hr. by rewrite Hc in Hr.
Qed.

(** Distinct keys of a node and its subtrees. *)
Lemma nodup_node it l r :
  NoDup (keys (Nd it l r)) ->
  NoDup (keys l) /\ NoDup (keys r) /\ i_key it ∉ keys l /\ i_key it ∉ keys r /\ forall k, k ∈ keys l -> k ∉ keys r.
Proof.
  cbn [items]. rewrite map_app. cbn [map]. intros (Hl & Hd & [Hn Hr]%NoDup_cons)%NoDup_app. split_and!; try done.
  - intros Hin. apply (Hd _ Hin). left.
  - intros k Hk Hkr. apply (Hd _ Hk). by right.
Qed.

Lemma elem_keys_node k it l r : k ∈ keys (Nd it l r) <-> k ∈ keys l \/ k = i_key it \/ k ∈ keys r.
Proof. cbn [items]. rewrite map_app. cbn [map]. by rewrite elem_of_app, elem_of_cons. Qed.

(** Giving a tree a new parent. *)
Lemma reparent_ok ns p q t :
  is_tree ns p t -> NoDup (keys t) ->
  exists ns', match root_of t with Some r => modify ns r (set_parent q) | None => Ret ns end = Ret ns' /\
    is_tree ns' q t /\ keeps ns ns' (keys t) /\ (forall k, max_of ns' k = max_of ns k).
Proof.
  intros Ht Hnd. destruct t as [|it l r]; cbn [root_of]; [by exists ns|]. destruct Ht as (Hit & Hl & Hr).
  destruct (set_parent_ok ns _ _ _ _ q Hit) as (ns' & -> & [Ha Hk Hm]). exists ns'. split; [done|].
  apply nodup_node in Hnd as (_ & _ & Hnl & Hnr & _). split; [|split; [|done]].
  - split; [done|]. split; (eapply keeps_tree; [exact Hk| |done]); intros k Hin ->%list_elem_of_singleton; done.
  - eapply keeps_trans; [exact Hk|apply (keeps_refl _ [])|]. intros k [->%list_elem_of_singleton|?%elem_of_nil]; [|done].
    apply elem_keys_node. auto.
Qed.

(** *** Merging *)

Record merged (ns ns' : Nodes) (ks : list Z) t : Prop := {
  mr_tree : exists p, is_tree ns' p t;
  mr_annotated : annotated ns' t;
  mr_keeps : keeps ns ns' ks;
}.

(** A node whose child [i] was replaced by the tree [t], which hangs under it. *)
Definition with_sub (it : Item) (l r : tree) (i : bool) t : tree := if i then Nd it l t else Nd it t r.

Lemma attach_ok ns it p l r i t q :
  links ns (i_key it) = Some (it, p, (root_of l, root_of r)) ->
  is_tree ns q t -> annotated ns t -> NoDup (keys (with_sub it l r i t)) ->
  (if i then is_tree ns (Some (i_key it)) l /\ annotated ns l else is_tree ns (Some (i_key it)) r /\ annotated ns r) ->
  exists ns1 ns2 ns3,
    modify ns (i_key it) (set_child i (root_of t)) = Ret ns1 /\
    match root_of t with Some c => modify ns1 c (set_parent (Some (i_key it))) | None => Ret ns1 end = Ret ns2 /\
    recalculate_annotation ns2 (i_key it) = Ret ns3 /\
    is_tree ns3 p (with_sub it l r i t) /\ annotated ns3 (with_sub it l r i t) /\ keeps ns ns3 (i_key it :: keys t).
Proof.
  intros Hit Ht Ha Hnd Hother. destruct (set_child_ok ns _ _ _ _ _ i (root_of t) Hit) as (ns1 & H1 & [L1 K1 M1]).
  assert (Hnt : i_key it ∉ keys t /\ NoDup (keys t)).
  { unfold with_sub in Hnd. destruct i; apply nodup_node in Hnd; tauto. }
  destruct Hnt as [Hnt Hndt]. assert (Ht1 : is_tree ns1 q t).
  { eapply keeps_tree; [exact K1| |done]. by intros k Hk ->%list_elem_of_singleton. }
  destruct (reparent_ok ns1 q (Some (i_key it)) t Ht1 Hndt) as (ns2 & H2 & Ht2 & K2 & M2).
  assert (Hit2 : links ns2 (i_key it) = links ns1 (i_key it)) by (by apply (kp_links _ _ _ K2)).
  assert (Hw : is_tree ns2 p (with_sub it l r i t) /\ annotated ns2 (if i then l else t) /\ annotated ns2 (if i then t else r)).
  { assert (Hat : annotated ns2 t) by (eapply annotated_frame; [|exact Ha]; intros k _; by rewrite M2, M1).
    unfold with_sub in *. destruct i; cbn [is_tree]; rewrite Hit2, L1; destruct Hother as [Ho Hao];
      apply nodup_node in Hnd as (_ & _ & Hn1 & Hn2 & Hd); split_and!; try done.
    - eapply keeps_tree; [exact K2| |]; [intros k Hk; by apply Hd|].
      eapply keeps_tree; [exact K1| |done]. by intros k Hk ->%list_elem_of_singleton.
    - eapply annotated_frame; [|exact Hao]. intros k _. by rewrite M2, M1.
    - eapply keeps_tree; [exact K2| |]; [intros k Hk Hk2; by apply (Hd k)|].
      eapply keeps_tree; [exact K1| |done]. by intros k Hk ->%list_elem_of_singleton.
    - eapply annotated_frame; [|exact Hao]. intros k _. by rewrite M2, M1. }
  destruct Hw as (Hw & Hwl & Hwr).
  assert (H3 : exists ns3, recalculate_annotation ns2 (i_key it) = Ret ns3 /\ only_max ns2 ns3 [i_key it] /\ annotated ns3 (with_sub it l r i t))
    by (unfold with_sub in *; destruct i; by eapply recalculate_ok).
  destruct H3 as (ns3 & H3 & Ho & Ha3). exists ns1, ns2, ns3. split_and!; try done.
  - eapply is_tree_frame; [|exact Hw]. intros k _. apply (om_links _ _ _ Ho).
  - eapply keeps_trans; [eapply (keeps_trans _ _ _ _ _ (i_key it :: keys t)); [exact K1|exact K2|]|exact (only_max_keeps _ _ _ Ho)|]; set_solver.
Qed.
Lemma keys_merge t1 t2 : keys (tmerge t1 t2) = keys t1 ++ keys t2.
Proof. by rewrite items_merge, map_app. Qed.

Lemma merge_ok fuel : forall ns t1 t2 p1 p2,
  is_tree ns p1 t1 -> is_tree ns p2 t2 -> annotated ns t1 -> annotated ns t2 -> NoDup (keys t1 ++ keys t2) ->
  (length (items t1) + length (items t2) <= fuel)%nat ->
  exists ns', merge fuel ns (root_of t1) (root_of t2) = Ret (ns', root_of (tmerge t1 t2)) /\
    merged ns ns' (keys t1 ++ keys t2) (tmerge t1 t2).
Proof.
  induction fuel as [|fuel IH]; intros ns t1 t2 p1 p2 Ht1 Ht2 Ha1 Ha2 Hnd Hfuel.
  all: destruct t1 as [|a l1 r1]; [exists ns; split; [done|by constructor; eauto]|].
  all: destruct t2 as [|b l2 r2]; [exists ns; split; [done|by constructor; eauto]|].
  { cbn [items] in Hfuel. rewrite !length_app in Hfuel. cbn [length] in Hfuel. lia. }
  pose proof Ht1 as (Hla & Hl1 & Hr1). pose proof Ht2 as (Hlb & Hl2 & Hr2). pose proof Ha1 as (_ & Hal1 & Har1). pose proof Ha2 as (_ & Hal2 & Har2).
  destruct (tree_node _ _ _ _ _ Ht1) as (na & Hna & Hia & _ & Hca0 & Hca1). destruct (tree_node _ _ _ _ _ Ht2) as (nb & Hnb & Hib & _ & Hcb0 & Hcb1).
  cbn [root_of merge]. rewrite (node_at_ok _ _ _ Hna), (node_at_ok _ _ _ Hnb). cbn [obind].
  assert (Hwa : weight na = i_weight a) by (by rewrite <- Hia). assert (Hwb : weight nb = i_weight b) by (by rewrite <- Hib).
  rewrite Hwa, Hwb. cbn [tmerge]. change ((fix go (t2 : tree) : tree := _) l2) with (tmerge (Nd a l1 r1) l2).
  pose proof Hnd as (Hnd1 & Hd & Hnd2)%NoDup_app. pose proof (nodup_node _ _ _ Hnd1) as (N1 & N2 & N3 & N4 & N5).
  pose proof (nodup_node _ _ _ Hnd2) as (N1' & N2' & N3' & N4' & N5'). setoid_rewrite elem_keys_node in Hd.
  cbn [items] in Hfuel. rewrite !length_app in Hfuel. cbn [length] in Hfuel.
  destruct (i_weight a <=? i_weight b).
  - rewrite Hca1. change (Some (i_key b)) with (root_of (Nd b l2 r2)).
    destruct (IH ns r1 (Nd b l2 r2) (Some (i_key a)) p2) as (ns1 & -> & [[q Hq] Hqa Hqk]); try done.
    { apply NoDup_app. split_and!; [done| |done]. intros k Hk. rewrite elem_keys_node. apply Hd. auto. }
    { cbn [items]. rewrite length_app. cbn [length]. lia. }
    cbn [obind]. destruct (attach_ok ns1 a p1 l1 r1 true (tmerge r1 (Nd b l2 r2)) q) as (ns2 & ns3 & ns4 & -> & H2 & H3 & Ht4 & Ha4 & K4); try done.
    + rewrite (kp_links _ _ _ Hqk); [done|]. rewrite elem_of_app, elem_keys_node. intros [?|?]; [done|]. apply (Hd (i_key a)); auto.
    + unfold with_sub. cbn [items]. rewrite map_app. cbn [map]. rewrite keys_merge. revert Hnd. cbn [items]. rewrite !map_app. cbn [map].
      by rewrite <- !app_assoc.
    + assert (Hout : forall k, k ∈ keys l1 -> k ∉ keys r1 ++ keys (Nd b l2 r2)).
      { intros k Hk. rewrite elem_of_app, elem_keys_node. intros [?|?]; [by apply (N5 k)|]. apply (Hd k); auto. }
      split; [by eapply keeps_tree|by eapply keeps_annotated].
    + cbn [obind]. rewrite H2. cbn [obind]. rewrite H3. cbn [obind]. exists ns4. split; [done|]. constructor; [eauto|done|].
      eapply keeps_trans; [exact Hqk|exact K4|]. intros k. rewrite elem_of_cons, keys_merge, !elem_of_app, !elem_keys_node. tauto.
  - rewrite Hcb0. change (Some (i_key a)) with (root_of (Nd a l1 r1)).
    destruct (IH ns (Nd a l1 r1) l2 p1 (Some (i_key b))) as (ns1 & -> & [[q Hq] Hqa Hqk]); try done.
    { apply NoDup_app. split_and!; [done| |done]. intros k Hk Hk2. rewrite elem_keys_node in Hk. apply (Hd k Hk). auto. }
    { cbn [items]. rewrite length_app. cbn [length]. lia. }
    cbn [obind]. destruct (attach_ok ns1 b p2 l2 r2 false (tmerge (Nd a l1 r1) l2) q) as (ns2 & ns3 & ns4 & -> & H2 & H3 & Ht4 & Ha4 & K4); try done.
    + rewrite (kp_links _ _ _ Hqk); [done|]. rewrite elem_of_app, elem_keys_node. intros [Hk|?]; [|done]. apply (Hd _ Hk); auto.
    + unfold with_sub. cbn [items]. rewrite map_app. cbn [map]. rewrite keys_merge. revert Hnd. cbn [items]. rewrite !map_app. cbn [map].
      by rewrite <- !app_assoc.
    + assert (Hout : forall k, k ∈ keys r2 -> k ∉ keys (Nd a l1 r1) ++ keys l2).
      { intros k Hk. rewrite elem_of_app, elem_keys_node. intros [Hk'|?]; [apply (Hd k Hk'); auto|]. by apply (N5' k). }
      split; [by eapply keeps_tree|by eapply keeps_annotated].
    + cbn [obind]. rewrite H2. cbn [obind]. rewrite H3. cbn [obind]. exists ns4. split; [done|]. constructor; [eauto|done|].
      eapply keeps_trans; [exact Hqk|exact K4|]. intros k. rewrite elem_of_cons, keys_merge, !elem_of_app, !elem_keys_node. tauto.
Qed.
(** *** Contexts in the slab *)

Definition parent_of (above : option Z) (c : list Frame) : option Z := match c with [] => above | f :: _ => Some (f_key f) end.

(** The hole of [c] holds [o]; [above] is the parent of the whole. *)
Fixpoint is_ctx ns (above : option Z) (c : list Frame) (o : option Z) : Prop :=
  match c with
  | [] => True
  | f :: c =>
      links ns (f_key f) = Some (f_item f, parent_of above c,
        if f_right f then (root_of (f_sib f), o) else (o, root_of (f_sib f))) /\
      is_tree ns (Some (f_key f)) (f_sib f) /\ is_ctx ns above c (Some (f_key f))
  end.

Lemma is_tree_plug ns above c : forall t,
  is_tree ns above (plug c t) <-> is_ctx ns above c (root_of t) /\ is_tree ns (parent_of above c) t.
Proof.
  induction c as [|f c IH]; intros t; [cbn; tauto|]. rewrite plug_cons, IH, root_plug1. cbn [is_ctx parent_of]. unfold plug1.
  unfold f_key. destruct (f_right f); cbn [is_tree]; tauto.
Qed.

Lemma is_ctx_frame ns ns' above c : forall o,
  (forall k, k ∈ c_keys c -> links ns' k = links ns k) -> is_ctx ns above c o -> is_ctx ns' above c o.
Proof.
  induction c as [|f c IH]; intros o Hf; [done|]. unfold c_items in Hf. cbn [map concat app] in Hf. rewrite map_app in Hf.
  setoid_rewrite elem_of_cons in Hf. setoid_rewrite elem_of_app in Hf. cbn [is_ctx]. intros (Hl & Ht & Hc). split_and!.
  - rewrite Hf; [done|by left].
  - eapply is_tree_frame; [|exact Ht]. auto.
  - apply IH; [|done]. auto.
Qed.

(** The annotations along a context, when the hole holds the items [its]. *)
Fixpoint ctx_annotated ns (c : list Frame) (its : list Item) : Prop :=
  match c with
  | [] => True
  | f :: c =>
      max_ok ns (f_key f) (f_item f :: items (f_sib f) ++ its) /\ annotated ns (f_sib f) /\
      ctx_annotated ns c (f_item f :: items (f_sib f) ++ its)
  end.

Lemma ctx_annotated_ext ns ns' c : forall its its',
  (forall k, k ∈ c_keys c -> max_of ns' k = max_of ns k) -> (forall x, x ∈ its' <-> x ∈ its) ->
  ctx_annotated ns c its -> ctx_annotated ns' c its'.
Proof.
  induction c as [|f c IH]; intros its its' Hm Hi; [done|]. unfold c_items in Hm. cbn [map concat app] in Hm. rewrite map_app in Hm.
  setoid_rewrite elem_of_cons in Hm. setoid_rewrite elem_of_app in Hm. cbn [ctx_annotated]. intros (Hf & Hs & Hc).
  assert (Hin : forall x, x ∈ f_item f :: items (f_sib f) ++ its' <-> x ∈ f_item f :: items (f_sib f) ++ its).
  { intros x. by rewrite !elem_of_cons, !elem_of_app, Hi. }
  split_and!.
  - revert Hf. apply max_ok_ext; [|done]. apply Hm. by left.
  - eapply annotated_frame; [|exact Hs]. auto.
  - eapply IH; [auto|done|done].
Qed.

Lemma annotated_plug1 ns f t :
  annotated ns (plug1 f t) <-> max_ok ns (f_key f) (f_item f :: items (f_sib f) ++ items t) /\ annotated ns (f_sib f) /\ annotated ns t.
Proof.
  assert (Hi : forall x, x ∈ items (plug1 f t) <-> x ∈ f_item f :: items (f_sib f) ++ items t) by (intros x; by rewrite items_plug1).
  assert (Hm : max_ok ns (f_key f) (items (plug1 f t)) <-> max_ok ns (f_key f) (f_item f :: items (f_sib f) ++ items t)).
  { split; by apply max_ok_ext. }
  rewrite <- Hm. unfold plug1, f_key. destruct (f_right f); cbn [annotated]; tauto.
Qed.

Lemma annotated_plug ns c : forall t, annotated ns (plug c t) <-> annotated ns t /\ ctx_annotated ns c (items t).
Proof.
  induction c as [|f c IH]; intros t; [cbn; tauto|]. rewrite plug_cons, IH, annotated_plug1. cbn [ctx_annotated].
  assert (Hc : ctx_annotated ns c (items (plug1 f t)) <-> ctx_annotated ns c (f_item f :: items (f_sib f) ++ items t)).
  { split; apply ctx_annotated_ext; try done; intros x; by rewrite items_plug1. }
  rewrite Hc. tauto.
Qed.

(** Recalculating at the node of a frame. *)
Lemma recalculate_frame ns above f c t :
  is_tree ns above (plug (f :: c) t) -> annotated ns t -> annotated ns (f_sib f) -> NoDup (keys (plug (f :: c) t)) ->
  exists ns', recalculate_annotation ns (f_key f) = Ret ns' /\ only_max ns ns' [f_key f] /\ annotated ns' (plug1 f t).
Proof.
  intros Ht Ha Hs Hnd. rewrite plug_cons in *. apply is_tree_plug in Ht as [_ Ht].
  rewrite keys_plug in Hnd. apply NoDup_app in Hnd as [Hnd _]. unfold f_key, plug1 in *.
  destruct (f_right f); by eapply recalculate_ok.
Qed.

(** The keys of a frame are not further up. *)
Lemma frame_not_above f c t k : NoDup (keys (plug (f :: c) t)) -> k ∈ c_keys c -> k <> f_key f.
Proof.
  rewrite plug_cons, keys_plug. intros (_ & Hd & _)%NoDup_app Hk ->. apply (Hd (f_key f)); [|done].
  rewrite (Permutation_map i_key (items_plug1 f t)). left.
Qed.

(** *** Fixing annotations upwards after a removal *)

Lemma fix_annotation_step n ns t f c :
  is_tree ns None (plug (f :: c) t) -> annotated ns t -> NoDup (keys (plug (f :: c) t)) -> ctx_annotated ns (f :: c) (n :: items t) ->
  exists pn ns1, lk ns (f_key f) = Some pn /\
    (if max_upper_bound pn =? i_key n then recalculate_annotation ns (f_key f) else Ret ns) = Ret ns1 /\
    only_max ns ns1 [f_key f] /\ annotated ns1 (plug1 f t) /\ ctx_annotated ns1 c (n :: items (plug1 f t)) /\
    exists pn1, lk ns1 (f_key f) = Some pn1 /\ parent pn1 = parent_of None c.
Proof.
  intros Ht Ha Hnd (Hf & Hs & Hc). pose proof Ht as Htp. rewrite plug_cons in Htp. apply is_tree_plug in Htp as [Hctx Htp].
  assert (Hpn : exists pn, lk ns (f_key f) = Some pn /\ parent pn = parent_of None c).
  { unfold plug1 in Htp. destruct (f_right f); destruct (tree_node _ _ _ _ _ Htp) as (pn & ? & _ & ? & _); eauto. }
  destruct Hpn as (pn & Hpn & Hpp). exists pn.
  assert (Hins : forall x, x ∈ n :: items (plug1 f t) <-> x ∈ f_item f :: items (f_sib f) ++ n :: items t).
  { intros x. rewrite elem_of_cons, items_plug1, !elem_of_cons, !elem_of_app, elem_of_cons. tauto. }
  destruct (Z.eqb_spec (max_upper_bound pn) (i_key n)) as [He|Hne].
  - destruct (recalculate_frame ns None f c t Ht Ha Hs Hnd) as (ns1 & Hr & Ho & Ha1). exists ns1. split_and!; try done.
    + eapply ctx_annotated_ext; [|exact Hins|exact Hc]. intros k Hk. apply (om_max _ _ _ Ho).
      intros ->%list_elem_of_singleton. by eapply frame_not_above.
    + pose proof (om_links _ _ _ Ho (f_key f)) as Hl. unfold links in Hl. rewrite Hpn in Hl. destruct (lk ns1 (f_key f)) as [pn1|]; [|done].
      exists pn1. split; [done|]. cbn in Hl. congruence.
  - exists ns. split_and!; try done.
    + apply annotated_plug1. split_and!; try done. destruct Hf as (x & Hx & Hm & Hall). exists x. unfold max_of in Hm. rewrite Hpn in Hm.
      injection Hm as Hm. split; [|split; [unfold max_of; by rewrite Hpn; cbn; rewrite Hm|]].
      * rewrite elem_of_cons, elem_of_app, elem_of_cons in Hx. rewrite elem_of_cons, elem_of_app. destruct Hx as [?|[?|[->|?]]]; auto. congruence.
      * intros y Hy. apply Hall. rewrite elem_of_cons, elem_of_app in Hy. rewrite elem_of_cons, elem_of_app, elem_of_cons. tauto.
    + eapply ctx_annotated_ext; [|exact Hins|exact Hc]. done.
    + eauto.
Qed.

Lemma c_keys_cons f c k : k ∈ c_keys (f :: c) <-> k = f_key f \/ k ∈ keys (f_sib f) \/ k ∈ c_keys c.
Proof. unfold c_items. cbn [map concat app]. rewrite map_app, elem_of_cons, elem_of_app. done. Qed.

Lemma only_max_trans ns1 ns2 ns3 ks1 ks2 ks :
  only_max ns1 ns2 ks1 -> only_max ns2 ns3 ks2 -> (forall k, k ∈ ks1 \/ k ∈ ks2 -> k ∈ ks) -> only_max ns1 ns3 ks.
Proof.
  intros [L1 N1 M1] [L2 N2 M2] Hks. constructor; intros k; [by rewrite L2|by rewrite N2|]. intros Hk.
  rewrite M2, M1; [done|..]; intros ?; apply Hk, Hks; auto.
Qed.

Lemma fix_annotations_ok n c : forall fuel ns t f,
  is_tree ns None (plug (f :: c) t) -> annotated ns t -> NoDup (keys (plug (f :: c) t)) ->
  ctx_annotated ns (f :: c) (n :: items t) -> (length c < fuel)%nat ->
  exists ns', fix_annotations fuel ns (f_key f) (i_key n) = Ret ns' /\ only_max ns ns' (c_keys (f :: c)) /\
    annotated ns' (plug (f :: c) t).
Proof.
  induction c as [|g c IH]; intros fuel ns t f Ht Ha Hnd Hctx Hfuel; (destruct fuel as [|fuel]; [lia|]); cbn [fix_annotations];
    destruct (fix_annotation_step n ns t f _ Ht Ha Hnd Hctx) as (pn & ns1 & Hpn & H1 & Ho & Ha1 & Hc1 & pn1 & Hpn1 & Hpp);
    rewrite (node_at_ok _ _ _ Hpn); cbn [obind]; rewrite H1; cbn [obind]; rewrite (node_at_ok _ _ _ Hpn1); cbn [obind]; rewrite Hpp.
  - exists ns1. split_and!; try done. eapply only_max_trans; [exact Ho|apply (only_max_refl _ [])|]. intros k. rewrite c_keys_cons.
    intros [->%list_elem_of_singleton|?%elem_of_nil]; [by left|done].
  - cbn [parent_of]. destruct (IH fuel ns1 (plug1 f t) g) as (ns2 & H2 & Ho2 & Ha2); try done.
    + eapply is_tree_frame; [|exact Ht]. intros k _. apply (om_links _ _ _ Ho).
    + cbn [length] in Hfuel. lia.
    + exists ns2. split_and!; try done. eapply only_max_trans; [exact Ho|exact Ho2|]. intros k. rewrite (c_keys_cons f).
      intros [->%list_elem_of_singleton|?]; auto.
Qed.
(** *** Removing a node *)

Lemma nodup_frame f c t :
  NoDup (keys (plug (f :: c) t)) ->
  f_key f ∉ keys (f_sib f) /\ f_key f ∉ c_keys c /\ f_key f ∉ keys t /\ forall k, k ∈ keys t -> k ∉ keys (f_sib f).
Proof.
  intros Hnd. pose proof (fun k => frame_not_above f c t k Hnd) as Hna. rewrite plug_cons, keys_plug in Hnd. apply NoDup_app in Hnd as [Hnd _].
  rewrite (Permutation_map i_key (items_plug1 f t)) in Hnd. cbn [map] in Hnd. rewrite map_app in Hnd.
  apply NoDup_cons in Hnd as [Hn (_ & Hd & _)%NoDup_app]. fold (f_key f) in Hn. rewrite elem_of_app in Hn. split_and!; [tauto| |tauto|].
  - intros Hin. by apply (Hna _ Hin).
  - intros k Hk Hs. by apply (Hd k Hs).
Qed.

(** The frame's pointer to the hole is redirected. *)
Lemma set_hole_ok ns above f c o o' :
  is_ctx ns above (f :: c) o -> f_key f ∉ keys (f_sib f) -> f_key f ∉ c_keys c ->
  exists ns', modify ns (f_key f) (set_child (f_right f) o') = Ret ns' /\ is_ctx ns' above (f :: c) o' /\
    keeps ns ns' [f_key f] /\ forall k, max_of ns' k = max_of ns k.
Proof.
  intros (Hl & Ht & Hc) Hns Hnc. assert (Hset : exists ns', modify ns (f_key f) (set_child (f_right f) o') = Ret ns' /\
    relinked ns ns' (f_key f) (f_item f, parent_of above c, if f_right f then (root_of (f_sib f), o') else (o', root_of (f_sib f))))
    by (destruct (f_right f);
      [exact (set_child_ok _ _ _ _ _ _ true o' Hl)|exact (set_child_ok _ _ _ _ _ _ false o' Hl)]).
  destruct Hset as (ns' & -> & [L K Mx]). exists ns'. split; [done|]. split; [|done]. split; [done|]. split.
  - eapply keeps_tree; [exact K| |done]. by intros k Hk ->%list_elem_of_singleton.
  - eapply is_ctx_frame; [|exact Hc]. intros k Hk. apply (kp_links _ _ _ K). by intros ->%list_elem_of_singleton.
Qed.

Lemma replace_child_ok ns above f c k o :
  is_ctx ns above (f :: c) (Some k) -> k ∉ keys (f_sib f) -> f_key f ∉ keys (f_sib f) -> f_key f ∉ c_keys c ->
  exists ns', replace_child ns (f_key f) k o = Ret ns' /\ is_ctx ns' above (f :: c) o /\ keeps ns ns' [f_key f] /\
    forall k, max_of ns' k = max_of ns k.
Proof.
  intros Hctx Hk Hns Hnc. destruct (set_hole_ok ns above f c (Some k) o Hctx Hns Hnc) as (ns' & Hm & Hrest). exists ns'. split; [|done].
  destruct Hctx as (Hl & _). apply links_lk in Hl as (n & Hn & _ & _ & Hch). unfold replace_child. rewrite (node_at_ok _ _ _ Hn). cbn [obind].
  unfold get_child. rewrite Hch. destruct (f_right f) eqn:Hf; cbn [fst snd] in *.
  - rewrite bool_decide_false; [unfold rassert; by rewrite bool_decide_true|]. intros Hr. apply Hk.
    destruct (f_sib f) as [|it l r]; [done|]. injection Hr as <-. apply elem_keys_node. auto.
  - by rewrite bool_decide_true.
Qed.

(** The removed node is freed. *)
Lemma slab_remove_lk ns n k : lk (slab_remove (slab_key n) ns) k = if decide (k = n) then None else lk ns k.
Proof.
  unfold lk. rewrite slab_get_remove. destruct (decide (k = n)) as [->|Hne]; [by rewrite decide_True|]. rewrite decide_False; [done|].
  intros Heq. by apply Hne, (inj slab_key).
Qed.

Record removed_from (ns ns' : Nodes) t (x : Item) t' : Prop := {
  rf_tree : is_tree ns' None t';
  rf_annotated : annotated ns' t';
  rf_items : exists a b, items t = a ++ x :: b /\ items t' = a ++ b;
  rf_heap : heap t -> heap t';
  rf_next : forall k, k <> i_key x -> next_of ns' k = next_of ns k;
}.

(** The last step: freeing a node that is no longer in the tree. *)
Lemma free_node ns t n : is_tree ns None t -> annotated ns t -> n ∉ keys t ->
  is_tree (slab_remove (slab_key n) ns) None t /\ annotated (slab_remove (slab_key n) ns) t.
Proof.
  intros Ht Ha Hn. assert (Hl : forall k, k ∈ keys t -> lk (slab_remove (slab_key n) ns) k = lk ns k).
  { intros k Hk. rewrite slab_remove_lk, decide_False; [done|]. by intros ->. }
  split; [eapply is_tree_frame; [|exact Ht]|eapply annotated_frame; [|exact Ha]]; intros k Hk; unfold links, max_of; by rewrite Hl.
Qed.

Lemma remove_in_place_ok ns t x :
  is_tree ns None t -> annotated ns t -> NoDup (keys t) -> x ∈ items t ->
  exists ns' t', remove_in_place ns (root_of t) (i_key x) = Ret (ns', root_of t') /\ removed_from ns ns' t x t'.
Proof.
  intros Ht Ha Hnd Hx. pose proof (tree_len _ _ _ Ht Hnd) as Hlen. destruct (find_context x t Hx) as (c & l & r & ->). set (u := tmerge l r).
  pose proof (items_plug c (Nd x l r)) as Hperm. apply Permutation_length in Hperm. rewrite length_app in Hperm. cbn [items] in Hperm.
  rewrite length_app in Hperm. cbn [length] in Hperm.
  pose proof Ht as [Hctx Hsub]%is_tree_plug. pose proof Ha as [Hasub Hactx]%annotated_plug.
  pose proof Hnd as Hnd'. rewrite keys_plug in Hnd'. apply NoDup_app in Hnd' as (Hndx & Hdc & Hndc).
  pose proof (nodup_node _ _ _ Hndx) as (Nl & Nr & Nxl & Nxr & Nlr). pose proof Hsub as (_ & Hl & Hr). pose proof Hasub as (_ & Hal & Har).
  destruct (tree_node _ _ _ _ _ Hsub) as (nn & Hnn & _ & Hpar & Hc0 & Hc1). unfold remove_in_place. rewrite (node_at_ok _ _ _ Hnn). cbn [obind].
  rewrite Hc0, Hc1. destruct (merge_ok (fuel_of ns) ns l r _ _ Hl Hr Hal Har) as (ns1 & -> & [[q Hu1] Hau1 K1]).
  { by apply NoDup_app. }
  { unfold fuel_of. lia. }
  fold u in Hu1, Hau1 |- *. assert (Hku : keys u = keys l ++ keys r) by apply keys_merge. rewrite <- Hku in K1.
  assert (Hxu : i_key x ∉ keys u) by (rewrite Hku, elem_of_app; tauto).
  assert (Hx1 : links ns1 (i_key x) = links ns (i_key x)) by (by apply (kp_links _ _ _ K1)).
  cbn [obind]. destruct Hsub as (Hlx & _). rewrite Hlx in Hx1. apply links_lk in Hx1 as (nn1 & Hnn1 & _ & Hp1 & _).
  rewrite (node_at_ok _ _ _ Hnn1). cbn [obind]. rewrite Hp1.
  assert (Hndu : NoDup (keys u)) by (rewrite Hku; by apply NoDup_app).
  destruct (reparent_ok ns1 q (parent_of None c) u Hu1 Hndu) as (ns2 & -> & Hu2 & K2 & M2). cbn [obind].
  assert (K : keeps ns ns2 (keys u)) by (by eapply keeps_trans; [exact K1|exact K2|tauto]).
  assert (Hau2 : annotated ns2 u) by (eapply annotated_frame; [|exact Hau1]; done).
  assert (Hcu : forall k, k ∈ c_keys c -> k ∉ i_key x :: keys u).
  { intros k Hk Hin. apply (Hdc k); [|done]. apply elem_keys_node. rewrite elem_of_cons, Hku, elem_of_app in Hin. tauto. }
  assert (Hc2 : is_ctx ns2 None c (Some (i_key x))).
  { eapply is_ctx_frame; [|exact Hctx]. intros k Hk. apply (kp_links _ _ _ K). apply Hcu in Hk. set_solver. }
  assert (Hac2 : ctx_annotated ns2 c (x :: items u)).
  { eapply ctx_annotated_ext; [| |exact Hactx].
    - intros k Hk. apply (kp_max _ _ _ K). apply Hcu in Hk. set_solver.
    - intros y. unfold u. cbn [items]. rewrite items_merge, elem_of_cons, !elem_of_app, elem_of_cons. tauto. }
  assert (Hitems : exists a b, items (plug c (Nd x l r)) = a ++ x :: b /\ items (plug c u) = a ++ b).
  { destruct (items_plug_inorder c) as (pre & post & Hp). exists (pre ++ items l), (items r ++ post). rewrite !Hp. unfold u. rewrite items_merge.
    cbn [items]. by rewrite <- !app_assoc. }
  assert (Hheap : heap (plug c (Nd x l r)) -> heap (plug c u)).
  { intros Hh. assert (Hlr : heap (Nd x l r)) by (by eapply heap_hole). eapply heap_plug; [exact Hh|apply heap_merge; apply Hlr|].
    intros y. unfold u. cbn [items]. rewrite items_merge, !elem_of_app, elem_of_cons. tauto. }
  assert (Hxt : i_key x ∉ keys (plug c u)).
  { rewrite keys_plug, elem_of_app. intros [?|Hin]; [done|]. apply (Hcu _ Hin). left. }
  destruct c as [|f c]; cbn [parent_of].
  - exists (slab_remove (slab_key (i_key x)) ns2), u. split; [done|]. destruct (free_node ns2 u (i_key x) Hu2 Hau2 Hxu). constructor; try done.
    intros k Hne. unfold next_of. rewrite slab_remove_lk, decide_False by done. apply (kp_next _ _ _ K).
  - destruct (nodup_frame _ _ _ Hnd) as (F1 & F2 & F3 & F4).
    destruct (replace_child_ok ns2 None f c (i_key x) (root_of u) Hc2 (F4 _ ltac:(apply elem_keys_node; auto)) F1 F2) as (ns3 & -> & Hc3 & K3 & M3).
    cbn [obind]. assert (Hfu : f_key f ∉ keys u).
    { intros Hin. apply F3. apply elem_keys_node. rewrite Hku, elem_of_app in Hin. tauto. }
    assert (Ht3 : is_tree ns3 None (plug (f :: c) u)).
    { apply is_tree_plug. split; [done|]. eapply keeps_tree; [exact K3| |exact Hu2]. by intros k Hk ->%list_elem_of_singleton. }
    assert (Hndu' : NoDup (keys (plug (f :: c) u))).
    { destruct Hitems as (a & b & E1 & E2). rewrite E2. rewrite E1 in Hnd. rewrite map_app in *. cbn [map] in Hnd.
      rewrite <- Permutation_middle in Hnd. by apply NoDup_cons in Hnd as [_ ?]. }
    assert (Hfuel : (length c < fuel_of ns3)%nat).
    { pose proof (tree_len _ _ _ Ht3 Hndu') as Hl3. unfold fuel_of. pose proof (Permutation_length (items_plug (f :: c) u)) as Hp3.
      rewrite length_app in Hp3. pose proof (c_items_length (f :: c)). cbn [length] in *. lia. }
    destruct (fix_annotations_ok x c (fuel_of ns3) ns3 u f Ht3) as (ns4 & -> & Ho4 & Ha4); try done.
    { eapply annotated_frame; [|exact Hau2]. done. }
    { eapply ctx_annotated_ext; [| |exact Hac2]; done. }
    cbn [obind]. exists (slab_remove (slab_key (i_key x)) ns4), (plug (f :: c) u). split.
    { f_equal. f_equal. rewrite !root_plug. unfold top. rewrite last_cons. by destruct (last c). }
    assert (Ht4 : is_tree ns4 None (plug (f :: c) u)) by (eapply is_tree_frame; [|exact Ht3]; intros k _; apply (om_links _ _ _ Ho4)).
    destruct (free_node ns4 _ (i_key x) Ht4 Ha4 Hxt). constructor; try done.
    intros k Hne. unfold next_of. rewrite slab_remove_lk, decide_False by done. change (next <$> lk ns4 k) with (next_of ns4 k).
    by rewrite (om_next _ _ _ Ho4), (kp_next _ _ _ K3), (kp_next _ _ _ K).
Qed.
(** *** Splitting *)

Definition head_key (dest : Z) (c : list Frame) : Z := match c with [] => dest | f :: _ => f_key f end.

Lemma recalculate_up_ok dest c : forall fuel ns t,
  is_tree ns (Some dest) (plug c t) -> annotated ns t -> (forall f, f ∈ c -> annotated ns (f_sib f)) ->
  NoDup (keys (plug c t)) -> dest ∉ keys (plug c t) -> (length c <= fuel)%nat ->
  exists ns', recalculate_up fuel ns (head_key dest c) dest = Ret ns' /\ only_max ns ns' (c_keys c) /\ annotated ns' (plug c t).
Proof.
  induction c as [|f c IH]; intros fuel ns t Ht Ha Hs Hnd Hd Hfuel; cbn [head_key].
  { exists ns. split; [destruct fuel; cbn [recalculate_up]; by rewrite Z.eqb_refl|]. split; [apply only_max_refl|done]. }
  assert (Hfd : f_key f <> dest).
  { intros <-. apply Hd. rewrite keys_plug, elem_of_app, c_keys_cons. auto. }
  cbn [length] in Hfuel. destruct fuel as [|fuel]; [lia|]. cbn [recalculate_up]. rewrite (proj2 (Z.eqb_neq _ _) Hfd).
  destruct (recalculate_frame ns (Some dest) f c t Ht Ha) as (ns1 & -> & Ho & Ha1); [apply Hs; left|done|]. cbn [obind].
  assert (Ht1 : is_tree ns1 (Some dest) (plug c (plug1 f t))) by (eapply is_tree_frame; [|exact Ht]; intros k _; apply (om_links _ _ _ Ho)).
  assert (Hp : exists n, lk ns1 (f_key f) = Some n /\ parent n = Some (head_key dest c)).
  { apply is_tree_plug in Ht1 as [_ Ht1]. replace (Some (head_key dest c)) with (parent_of (Some dest) c) by (by destruct c).
    unfold plug1 in Ht1. destruct (f_right f); destruct (tree_node _ _ _ _ _ Ht1) as (n & ? & _ & ? & _); eauto. }
  destruct Hp as (n & Hn & Hp). rewrite (node_at_ok _ _ _ Hn). cbn [obind]. rewrite Hp. cbn [expect obind].
  destruct (IH fuel ns1 (plug1 f t)) as (ns2 & -> & Ho2 & Ha2); try done; [|lia|].
  - intros g Hg. eapply annotated_frame; [|apply Hs; by right]. intros k Hk. apply (om_max _ _ _ Ho). intros ->%list_elem_of_singleton.
    apply (frame_not_above f c t (f_key f)); [done| |done]. apply list_elem_of_fmap in Hk as (y & -> & Hy).
    apply list_elem_of_fmap_2. apply elem_of_concat_map. exists g. split; [done|by right].
  - exists ns2. split_and!; try done. eapply only_max_trans; [exact Ho|exact Ho2|]. intros k. rewrite c_keys_cons.
    intros [->%list_elem_of_singleton|?]; auto.
Qed.

(** The state of the loop: the two spines hang under [x], the left one
    ([true], whose hole is on the right) as its right child and conversely. *)
Record splitting ns (x : Item) (p : option Z) (c : bool -> list Frame) (o : bool -> option Z) : Prop := {
  sp_dest : links ns (i_key x) = Some (x, p, (top (c false) (o false), top (c true) (o true)));
  sp_ctx : forall s, is_ctx ns (Some (i_key x)) (c s) (o s);
  sp_side : forall s f, f ∈ c s -> f_right f = s;
}.

Definition put {A} (s : bool) (v : A) (g : bool -> A) : bool -> A := fun b => if Bool.eqb b s then v else g b.

Notation spine_keys x c := (i_key x :: c_keys (c true) ++ c_keys (c false)).

Lemma spine_disjoint (x : Item) (c : bool -> list Frame) s k :
  NoDup (spine_keys x c) -> k ∈ c_keys (c s) -> k <> i_key x /\ k ∉ c_keys (c (negb s)).
Proof.
  intros [Hx (_ & Hd & _)%NoDup_app]%NoDup_cons Hk. rewrite elem_of_app in Hx. split; [intros ->; destruct s; tauto|].
  destruct s; cbn [negb]; [by apply Hd|]. intros Hk'. by apply (Hd k).
Qed.

Lemma spine_nodup (x : Item) (c : bool -> list Frame) s : NoDup (spine_keys x c) -> NoDup (c_keys (c s)).
Proof. intros [_ (? & _ & ?)%NoDup_app]%NoDup_cons. by destruct s. Qed.

Lemma ctx_head_fresh f c : NoDup (c_keys (f :: c)) -> f_key f ∉ keys (f_sib f) /\ f_key f ∉ c_keys c.
Proof.
  unfold c_items. cbn [map concat app]. rewrite map_app. intros [Hn _]%NoDup_cons. rewrite elem_of_app in Hn. tauto.
Qed.

(** Hanging something at the end of spine [s]. *)
Lemma set_end_ok ns x p c o s o' :
  splitting ns x p c o -> NoDup (spine_keys x c) ->
  exists ns', modify ns (head_key (i_key x) (c s)) (set_child s o') = Ret ns' /\ splitting ns' x p c (put s o' o) /\
    keeps ns ns' [head_key (i_key x) (c s)] /\ forall k, max_of ns' k = max_of ns k.
Proof.
  intros [Sd Sc Ss] Hnd. destruct (c s) as [|f cs] eqn:Hcs; cbn [head_key].
  - destruct (set_child_ok ns _ _ _ _ _ s o' Sd) as (ns' & -> & [L K Mx]). exists ns'. split; [done|]. split; [|done]. constructor; [| |done].
    + rewrite L. destruct s; cbn [put Bool.eqb]; rewrite Hcs; done.
    + intros b. destruct (decide (b = s)) as [->|Hb]; [by rewrite Hcs|].
      unfold put. rewrite (proj2 (Bool.eqb_false_iff b s) Hb). eapply is_ctx_frame; [|apply Sc]. intros k Hk. apply (kp_links _ _ _ K).
      intros ->%list_elem_of_singleton. by eapply spine_disjoint in Hk as [? _].
  - pose proof (spine_nodup x c s Hnd) as Hns. rewrite Hcs in Hns. destruct (ctx_head_fresh _ _ Hns) as [F1 F2].
    pose proof (Sc s) as Hctx. rewrite Hcs in Hctx. destruct (set_hole_ok ns _ f cs (o s) o' Hctx F1 F2) as (ns' & Hm & Hc' & K & Mx).
    rewrite (Ss s f) in Hm by (rewrite Hcs; left). exists ns'. split; [done|]. split; [|done].
    assert (Hfk : f_key f ∈ c_keys (c s)) by (rewrite Hcs, c_keys_cons; by left). destruct (spine_disjoint x c s _ Hnd Hfk) as [Hfx Hfo].
    constructor; [| |done].
    + rewrite (kp_links _ _ _ K) by (by intros ?%list_elem_of_singleton). rewrite Sd. destruct s; cbn [put Bool.eqb]; rewrite Hcs;
        unfold top; rewrite last_cons; by destruct (last cs).
    + intros b. destruct (decide (b = s)) as [->|Hb]; [unfold put; rewrite Bool.eqb_reflx, Hcs; done|].
      unfold put. rewrite (proj2 (Bool.eqb_false_iff b s) Hb). eapply is_ctx_frame; [|apply Sc]. intros k Hk. apply (kp_links _ _ _ K).
      intros ->%list_elem_of_singleton. apply Hfo. replace (negb s) with b; [done|]. by destruct b, s.
Qed.
Lemma elem_spine k x c : k ∈ spine_keys x c <-> k = i_key x \/ exists s, k ∈ c_keys (c s).
Proof.
  rewrite elem_of_cons, elem_of_app. split; [intros [?|[?|?]]; eauto|]. intros [?|[[] ?]]; auto.
Qed.

Lemma splitting_frame ns ns' x p c o :
  (forall k, k ∈ spine_keys x c -> links ns' k = links ns k) -> splitting ns x p c o -> splitting ns' x p c o.
Proof.
  intros Hf [Sd Sc Ss]. constructor; [|intros s|done].
  - rewrite Hf; [done|]. apply elem_spine. by left.
  - eapply is_ctx_frame; [|apply Sc]. intros k Hk. apply Hf, elem_spine. eauto.
Qed.

Lemma head_key_spine x c s : head_key (i_key x) (c s) ∈ spine_keys x c.
Proof. apply elem_spine. destruct (c s) as [|f cs] eqn:Hc; [by left|]. right. exists s. rewrite Hc, c_keys_cons. by left. Qed.

(** The subtree that stays with the node, and the one that is split further. *)
Definition stays (s : bool) (l r : tree) : tree := if s then l else r.
Definition goes (s : bool) (l r : tree) : tree := if s then r else l.

(** One round: the node moves to the end of spine [s]. *)
Lemma split_step ns x p c s q it l r :
  splitting ns x p c (fun _ => None) -> is_tree ns q (Nd it l r) -> NoDup (spine_keys x c ++ keys (Nd it l r)) ->
  exists ns1 ns2 n2 ns3,
    modify ns (i_key it) (set_parent (Some (head_key (i_key x) (c s)))) = Ret ns1 /\
    modify ns1 (head_key (i_key x) (c s)) (set_child s (Some (i_key it))) = Ret ns2 /\
    node_at ns2 (i_key it) = Ret n2 /\ get_child n2 s = root_of (goes s l r) /\
    modify ns2 (i_key it) (set_child s None) = Ret ns3 /\
    splitting ns3 x p (put s (MkFrame it s (stays s l r) :: c s) c) (fun _ => None) /\
    is_tree ns3 (Some (i_key it)) (goes s l r) /\
    keeps ns ns3 (spine_keys x c ++ keys (Nd it l r)) /\ forall k, max_of ns3 k = max_of ns k.
Proof.
  intros Hsp Ht Hnd. set (h := head_key (i_key x) (c s)). pose proof (head_key_spine x c s) as Hh. fold h in Hh.
  apply NoDup_app in Hnd as (Hnds & Hdis & Hndt). destruct Ht as (Hit & Hl & Hr).
  assert (Hitx : forall k, k ∈ spine_keys x c -> k <> i_key it).
  { intros k Hk ->. apply (Hdis _ Hk), elem_keys_node. auto. }
  destruct (nodup_node _ _ _ Hndt) as (_ & _ & Nl & Nr & _).
  destruct (set_parent_ok ns _ _ _ _ (Some h) Hit) as (ns1 & H1 & [L1 K1 M1]).
  assert (Hsp1 : splitting ns1 x p c (fun _ => None)).
  { eapply splitting_frame; [|exact Hsp]. intros k Hk. apply (kp_links _ _ _ K1). intros ->%list_elem_of_singleton. by apply (Hitx _ Hk). }
  destruct (set_end_ok ns1 x p c _ s (Some (i_key it)) Hsp1 Hnds) as (ns2 & H2 & Hsp2 & K2 & M2). fold h in H2, K2.
  assert (L2 : links ns2 (i_key it) = Some (it, Some h, (root_of l, root_of r))).
  { rewrite (kp_links _ _ _ K2); [done|]. intros Heq%list_elem_of_singleton. by apply (Hitx h Hh). }
  pose proof L2 as (n2 & Hn2 & _ & _ & Hc2)%links_lk.
  destruct (set_child_ok ns2 _ _ _ _ _ s None L2) as (ns3 & H3 & [L3 K3 M3]).
  assert (Hsub : forall u, is_tree ns (Some (i_key it)) u -> (forall k, k ∈ keys u -> k ∈ keys (Nd it l r)) -> i_key it ∉ keys u ->
    is_tree ns3 (Some (i_key it)) u).
  { intros u Hu Hin Hni. assert (Hk : forall k, k ∈ keys u -> k ∉ [i_key it]) by (by intros k Hk ->%list_elem_of_singleton).
    eapply keeps_tree; [exact K3|done|]. eapply keeps_tree; [exact K2| |by eapply keeps_tree].
    intros k Hku ->%list_elem_of_singleton. by apply (Hdis h), Hin. }
  assert (Hls : forall u, u = l \/ u = r -> is_tree ns3 (Some (i_key it)) u).
  { intros u [->| ->]; apply Hsub; try done; intros k Hk; apply elem_keys_node; auto. }
  exists ns1, ns2, n2, ns3. split_and!; try done.
  - by apply node_at_ok.
  - unfold get_child. rewrite Hc2. by destruct s.
  - assert (Hsp3 : splitting ns3 x p c (put s (Some (i_key it)) (fun _ => None))).
    { eapply splitting_frame; [|exact Hsp2]. intros k Hk. apply (kp_links _ _ _ K3). intros ->%list_elem_of_singleton. by apply (Hitx _ Hk). }
    destruct Hsp3 as [Sd Sc Ss]. constructor.
    + rewrite Sd. unfold put, top. destruct s; cbn [Bool.eqb]; rewrite last_cons; [by destruct (last (c true))|by destruct (last (c false))].
    + intros b. unfold put. destruct (Bool.eqb b s) eqn:Hb.
      * apply Bool.eqb_prop in Hb as ->. cbn [is_ctx]. unfold f_key. cbn [f_item f_right f_sib]. rewrite L3. split; [|split].
        -- replace (parent_of (Some (i_key x)) (c s)) with (Some h) by (unfold h; by destruct (c s)). by destruct s.
        -- apply Hls. destruct s; auto.
        -- specialize (Sc s). unfold put in Sc. by rewrite Bool.eqb_reflx in Sc.
      * specialize (Sc b). unfold put in Sc. by rewrite Hb in Sc.
    + intros b f. unfold put. destruct (Bool.eqb b s) eqn:Hb; [|by apply Ss]. apply Bool.eqb_prop in Hb as ->.
      intros [->|?]%elem_of_cons; [done|by apply Ss].
  - apply Hls. destruct s; auto.
  - assert (Hin : forall k, k ∈ [i_key it] \/ k ∈ [h] -> k ∈ spine_keys x c ++ keys (Nd it l r)).
    { intros k [->%list_elem_of_singleton| ->%list_elem_of_singleton]; apply elem_of_app; [right; apply elem_keys_node; auto|by left]. }
    eapply keeps_trans; [eapply (keeps_trans _ _ _ _ _ _ K1 K2 Hin)|exact K3|]. intros k [?|?]; auto.
  - intros k. by rewrite M3, M2, M1.
Qed.
Lemma spine_push x (c : bool -> list Frame) s it l r :
  spine_keys x (put s (MkFrame it s (stays s l r) :: c s) c) ++ keys (goes s l r) ≡ₚ spine_keys x c ++ keys (Nd it l r).
Proof.
  unfold c_items. destruct s; cbn [put Bool.eqb map concat f_item f_sib stays goes app items]; rewrite !map_app; cbn [map app]; solve_Permutation.
Qed.

Record split_done ns ns' (x : Item) (p : option Z) (c c' : bool -> list Frame) (u : tree) : Prop := {
  sl_state : splitting ns' x p c' (fun _ => None);
  sl_max : forall k, max_of ns' k = max_of ns k;
  sl_keeps : keeps ns ns' (spine_keys x c ++ keys u);
  sl_left : plug (c' true) Leaf = plug (c true) (tsplit (i_start x) u).1;
  sl_right : plug (c' false) Leaf = plug (c false) (tsplit (i_start x) u).2;
  sl_sibs : forall s f, f ∈ c' s -> f ∈ c s \/ forall ns, annotated ns u -> annotated ns (f_sib f);
}.

(** What one more round does to what the loop ends with. *)
Lemma split_done_step ns ns3 ns' x p c c' s it l r :
  s = (i_start it <=? i_start x)%ord ->
  keeps ns ns3 (spine_keys x c ++ keys (Nd it l r)) -> (forall k, max_of ns3 k = max_of ns k) ->
  split_done ns3 ns' x p (put s (MkFrame it s (stays s l r) :: c s) c) c' (goes s l r) ->
  split_done ns ns' x p c c' (Nd it l r).
Proof.
  intros Hs K3 M3 [S1 S2 S3 S4 S5 S6]. constructor; try done.
  - intros k. by rewrite S2, M3.
  - eapply keeps_trans; [exact K3|exact S3|]. intros k [?|Hk]; [done|]. by rewrite spine_push in Hk.
  - rewrite S4. cbn [tsplit]. rewrite <- Hs. destruct s; cbn [put Bool.eqb goes stays].
    + rewrite plug_cons. by destruct (tsplit (i_start x) r).
    + by destruct (tsplit (i_start x) l).
  - rewrite S5. cbn [tsplit]. rewrite <- Hs. destruct s; cbn [put Bool.eqb goes stays].
    + by destruct (tsplit (i_start x) r).
    + rewrite plug_cons. by destruct (tsplit (i_start x) l).
  - intros b f Hf. destruct (S6 b f Hf) as [Hin|Ha].
    + unfold put in Hin. destruct (Bool.eqb b s) eqn:Hb; [|by left]. apply Bool.eqb_prop in Hb as ->.
      apply elem_of_cons in Hin as [->|?]; [|by left]. right. cbn [f_sib]. intros ns0 (_ & ? & ?). by destruct s.
    + right. intros ns0 (_ & ? & ?). apply Ha. by destruct s.
Qed.

Lemma split_loop_ok fuel : forall ns x p c q it l r,
  splitting ns x p c (fun _ => None) -> is_tree ns q (Nd it l r) -> NoDup (spine_keys x c ++ keys (Nd it l r)) ->
  (length (items (Nd it l r)) <= fuel)%nat ->
  exists ns' c', split_loop fuel ns (i_key it) (i_key x) (head_key (i_key x) (c true)) (head_key (i_key x) (c false))
                 = Ret (ns', head_key (i_key x) (c' true), head_key (i_key x) (c' false)) /\
    split_done ns ns' x p c c' (Nd it l r).
Proof.
  induction fuel as [|fuel IH]; intros ns x p c q it l r Hsp Ht Hnd Hfuel; cbn [items] in Hfuel; rewrite length_app in Hfuel; cbn [length] in Hfuel; [lia|].
  cbn [split_loop]. destruct (tree_node _ _ _ _ _ Ht) as (n & Hn & Hi & _). rewrite (node_at_ok _ _ _ Hn). cbn [obind].
  pose proof (sp_dest _ _ _ _ _ Hsp) as (dn & Hdn & Hdi & _)%links_lk. rewrite (node_at_ok _ _ _ Hdn). cbn [obind].
  assert (Hns : node_start n = i_start it) by (by rewrite <- Hi). assert (Hds : node_start dn = i_start x) by (by rewrite <- Hdi).
  rewrite Hns, Hds. set (s := (i_start it <=? i_start x)%ord).
  destruct (split_step ns x p c s q it l r Hsp Ht Hnd) as (ns1 & ns2 & n2 & ns3 & H1 & H2 & H3 & H4 & H5 & Hsp3 & Ht3 & K3 & M3).
  assert (Hnd3 : NoDup (spine_keys x (put s (MkFrame it s (stays s l r) :: c s) c) ++ keys (goes s l r))) by (by rewrite spine_push).
  assert (Hrest : exists ns' c', split_done ns3 ns' x p (put s (MkFrame it s (stays s l r) :: c s) c) c' (goes s l r) /\
    match root_of (goes s l r) with
    | Some ch => split_loop fuel ns3 ch (i_key x) (head_key (i_key x) (put s (MkFrame it s (stays s l r) :: c s) c true))
                   (head_key (i_key x) (put s (MkFrame it s (stays s l r) :: c s) c false))
    | None => Ret (ns3, head_key (i_key x) (put s (MkFrame it s (stays s l r) :: c s) c true),
                        head_key (i_key x) (put s (MkFrame it s (stays s l r) :: c s) c false))
    end = Ret (ns', head_key (i_key x) (c' true), head_key (i_key x) (c' false))).
  { destruct (goes s l r) as [|it2 l2 r2] eqn:Hg; cbn [root_of].
    - eexists ns3, _. split; [|done]. constructor; try done; auto.
    - destruct (IH ns3 x p _ _ it2 l2 r2 Hsp3 Ht3 Hnd3) as (ns' & c' & He & Hd); [|by exists ns', c'].
      rewrite <- Hg. destruct s; cbn [goes]; lia. }
  destruct Hrest as (ns' & c' & Hd & He). exists ns', c'. split; [|by eapply split_done_step].
  unfold s in *. destruct (i_start it <=? i_start x)%ord; rewrite H1; cbn [obind]; rewrite H2; cbn [obind]; rewrite H3; cbn [obind];
    rewrite H5; cbn [obind]; rewrite H4; exact He.
Qed.
Lemma plug_len ns above c t : is_tree ns above (plug c t) -> NoDup (keys (plug c t)) -> (length c <= fuel_of ns)%nat.
Proof.
  intros Ht Hnd. pose proof (tree_len _ _ _ Ht Hnd). pose proof (Permutation_length (items_plug c t)) as Hp. rewrite length_app in Hp.
  pose proof (c_items_length c). unfold fuel_of. lia.
Qed.

Lemma sib_keys c f k : f ∈ c -> k ∈ keys (f_sib f) -> k ∈ c_keys c.
Proof.
  intros Hf (y & -> & Hy)%list_elem_of_fmap. apply list_elem_of_fmap_2, elem_of_concat_map. exists f. split; [done|by right].
Qed.

(** Recalculating along both spines, then at the node itself. *)
Lemma recalculate_spines_ok ns x p (c : bool -> list Frame) :
  is_tree ns p (Nd x (plug (c true) Leaf) (plug (c false) Leaf)) -> NoDup (keys (Nd x (plug (c true) Leaf) (plug (c false) Leaf))) ->
  (forall s f, f ∈ c s -> annotated ns (f_sib f)) ->
  exists ns1 ns2,
    foldM (fun nodes k => recalculate_up (fuel_of nodes) nodes k (i_key x)) ns [head_key (i_key x) (c true); head_key (i_key x) (c false)] = Ret ns1 /\
    recalculate_annotation ns1 (i_key x) = Ret ns2 /\
    is_tree ns2 p (Nd x (plug (c true) Leaf) (plug (c false) Leaf)) /\ annotated ns2 (Nd x (plug (c true) Leaf) (plug (c false) Leaf)) /\
    only_max ns ns2 (keys (Nd x (plug (c true) Leaf) (plug (c false) Leaf))).
Proof.
  intros Ht Hnd Hs. pose proof Ht as (_ & Ha & Hb). pose proof (nodup_node _ _ _ Hnd) as (Na & Nb & Nxa & Nxb & Nab).
  set (a := plug (c true) Leaf) in *. set (b := plug (c false) Leaf) in *.
  assert (Hka : forall k, k ∈ c_keys (c true) -> k ∈ keys a) by (intros k Hk; unfold a; by rewrite keys_plug).
  assert (Hkb : forall k, k ∈ c_keys (c false) -> k ∈ keys b) by (intros k Hk; unfold b; by rewrite keys_plug).
  destruct (recalculate_up_ok (i_key x) (c true) (fuel_of ns) ns Leaf Ha) as (ns1 & H1 & O1 & A1); try done.
  { apply Hs. }
  { by eapply plug_len. }
  assert (Hb1 : is_tree ns1 (Some (i_key x)) b) by (eapply is_tree_frame; [|exact Hb]; intros k _; apply (om_links _ _ _ O1)).
  destruct (recalculate_up_ok (i_key x) (c false) (fuel_of ns1) ns1 Leaf Hb1) as (ns2 & H2 & O2 & A2); try done.
  { intros f Hf. eapply annotated_frame; [|by apply (Hs false)]. intros k Hk. apply (om_max _ _ _ O1). intros Hk1.
    apply (Nab k); [by apply Hka|]. by apply Hkb, (sib_keys _ f). }
  { by eapply plug_len. }
  assert (Ht2 : is_tree ns2 p (Nd x a b)).
  { eapply is_tree_frame; [|exact Ht]. intros k _. by rewrite (om_links _ _ _ O2), (om_links _ _ _ O1). }
  assert (A1' : annotated ns2 a).
  { eapply annotated_frame; [|exact A1]. intros k Hk. apply (om_max _ _ _ O2). intros Hk2. by apply (Nab k Hk), Hkb. }
  destruct (recalculate_ok ns2 p x a b Ht2 A1' A2 Hnd) as (ns3 & H3 & O3 & A3). exists ns2, ns3.
  split; [cbn [foldM]; rewrite H1; cbn [obind]; by rewrite H2|]. split; [done|]. split; [|split; [done|]].
  - eapply is_tree_frame; [|exact Ht2]. intros k _. apply (om_links _ _ _ O3).
  - eapply (only_max_trans _ _ _ (keys (Nd x a b))); [eapply only_max_trans; [exact O1|exact O2|]|exact O3|]; intros k; rewrite elem_keys_node.
    + intros [?%Hka|?%Hkb]; auto.
    + intros [?| ->%list_elem_of_singleton]; auto.
Qed.

Lemma split_ok ns x p q it l r :
  links ns (i_key x) = Some (x, p, (None, None)) -> is_tree ns q (Nd it l r) -> annotated ns (Nd it l r) ->
  NoDup (i_key x :: keys (Nd it l r)) ->
  exists ns', split ns (i_key it) (i_key x) = Ret ns' /\
    is_tree ns' p (Nd x (tsplit (i_start x) (Nd it l r)).1 (tsplit (i_start x) (Nd it l r)).2) /\
    annotated ns' (Nd x (tsplit (i_start x) (Nd it l r)).1 (tsplit (i_start x) (Nd it l r)).2) /\
    keeps ns ns' (i_key x :: keys (Nd it l r)).
Proof.
  intros Hx Ht Ha Hnd. pose proof Hnd as [Hnx Hndt]%NoDup_cons. unfold split.
  assert (Hsp : splitting ns x p (fun _ => []) (fun _ => None)) by (constructor; [done|done|by intros ? ? ?%elem_of_nil]).
  destruct (split_loop_ok (fuel_of ns) ns x p (fun _ => []) q it l r Hsp Ht) as (ns1 & c & H1 & [S1 S2 S3 S4 S5 S6]).
  { done. }
  { pose proof (tree_len _ _ _ Ht Hndt). unfold fuel_of. lia. }
  cbn [head_key] in H1. rewrite H1. cbn [obind]. cbn [plug fold_left] in S4, S5. set (t := Nd it l r) in *.
  destruct S1 as [Sd Sc _]. pose proof Sd as (n & Hn & Hni & Hnp & Hnc)%links_lk.
  destruct (modify_relinked ns1 (i_key x) n (fun n => set_children ((child n).2, (child n).1) n) Hn) as (ns2 & -> & [L2 K2 M2]); [done..|].
  cbn [obind]. cbn in L2. rewrite Hni, Hnp, Hnc in L2. cbn [fst snd] in L2.
  change None with (root_of Leaf) in L2. rewrite <- !root_plug in L2.
  assert (Hkeys : keys (plug (c true) Leaf) ++ keys (plug (c false) Leaf) = keys t) by (rewrite S4, S5, <- map_app; by rewrite items_split).
  assert (Hnd2 : NoDup (keys (Nd x (plug (c true) Leaf) (plug (c false) Leaf)))).
  { cbn [items]. rewrite map_app. cbn [map]. rewrite <- Permutation_middle, Hkeys. done. }
  assert (Hspine : forall s k, k ∈ c_keys (c s) -> k ∉ [i_key x]).
  { intros s k Hk ->%list_elem_of_singleton. apply Hnx. rewrite <- Hkeys, elem_of_app, !keys_plug, !elem_of_app. destruct s; auto. }
  assert (Ht2 : is_tree ns2 p (Nd x (plug (c true) Leaf) (plug (c false) Leaf))).
  { split; [done|]. split; apply is_tree_plug; (split; [|done]); (eapply is_ctx_frame; [|apply Sc]); intros k Hk;
      by eapply (kp_links _ _ _ K2), Hspine. }
  destruct (recalculate_spines_ok ns2 x p c Ht2 Hnd2) as (ns3 & ns4 & H3 & H4 & Ht4 & Ha4 & O4).
  { intros s f Hf. destruct (S6 s f Hf) as [?%elem_of_nil|Hsib]; [done|]. apply Hsib. eapply annotated_frame; [|exact Ha].
    intros k _. by rewrite M2, S2. }
  rewrite H3. cbn [obind]. exists ns4. rewrite S4, S5 in Ht4, Ha4. split_and!; [done..|].
  eapply (keeps_trans _ _ _ (i_key x :: keys t)); [eapply (keeps_trans _ _ _ _ _ (i_key x :: keys t) S3 K2)|exact (only_max_keeps _ _ _ O4)|].
  - intros k. cbn [app map c_items concat]. set_solver.
  - intros k [?|Hk]; [done|]. rewrite elem_keys_node in Hk. rewrite <- Hkeys, elem_of_cons, elem_of_app. tauto.
Qed.
(** *** Inserting *)

Lemma modify_vacant ns k f ns' : modify ns k f = Ret ns' -> vacant_key ns' = vacant_key ns.
Proof. unfold modify. destruct (node_at ns k); cbn [obind]; [|done|done]. intros [= <-]. apply vacant_key_set. Qed.

Lemma replace_child_vacant ns k from to ns' : replace_child ns k from to = Ret ns' -> vacant_key ns' = vacant_key ns.
Proof.
  unfold replace_child. destruct (node_at ns k) as [n| |]; cbn [obind]; [|done|done]. case_bool_decide; [apply modify_vacant|].
  unfold rassert. case_bool_decide; cbn [obind]; [apply modify_vacant|done].
Qed.

Lemma insert_at_ok ns k node :
  vacant_key ns = slab_key k ->
  exists ns', insert_at ns k node = Ret ns' /\ forall k', lk ns' k' = if decide (k' = k) then Some node else lk ns k'.
Proof.
  intros Hv. unfold insert_at, rassert. rewrite Hv, Z.eqb_refl. cbn [obind]. eexists. split; [done|]. intros k'. unfold lk.
  rewrite slab_get_insert, Hv. destruct (decide (k' = k)) as [->|Hne]; [by rewrite decide_True|]. rewrite decide_False; [done|].
  intros Heq. by apply Hne, (inj slab_key).
Qed.

Definition fresh_node (x : Item) (p nx : option Z) : Node :=
  {| weight := i_weight x; node_start := i_start x; upper_bound := i_end x; node_subscriber := i_sub x; parent := p;
     child := (None, None); max_upper_bound := i_key x; next := nx |}.

(** A fresh node in the slab, and nothing else changed. *)
Record added ns ns' (x : Item) (p nx : option Z) : Prop := {
  ad_links : links ns' (i_key x) = Some (x, p, (None, None));
  ad_max : max_of ns' (i_key x) = Some (i_key x);
  ad_next : next_of ns' (i_key x) = Some nx;
  ad_other : forall k, k <> i_key x -> links ns' k = links ns k /\ max_of ns' k = max_of ns k /\ next_of ns' k = next_of ns k;
}.

Lemma added_ok ns x p nx :
  vacant_key ns = slab_key (i_key x) -> exists ns', insert_at ns (i_key x) (fresh_node x p nx) = Ret ns' /\ added ns ns' x p nx.
Proof.
  intros Hv. destruct (insert_at_ok ns (i_key x) (fresh_node x p nx) Hv) as (ns' & -> & Hl). exists ns'. split; [done|].
  constructor; unfold links, max_of, next_of; try (intros k Hne); rewrite Hl; [rewrite decide_True by done..|by rewrite decide_False].
  - cbn. unfold item_of, fresh_node. cbn. by destruct x.
  - done.
  - done.
Qed.

Lemma added_tree ns ns' x p nx q t : added ns ns' x p nx -> i_key x ∉ keys t -> is_tree ns q t -> is_tree ns' q t.
Proof. intros Ha Hx. apply is_tree_frame. intros k Hk. apply (ad_other _ _ _ _ _ Ha). by intros ->. Qed.

Lemma added_annotated ns ns' x p nx t : added ns ns' x p nx -> i_key x ∉ keys t -> annotated ns t -> annotated ns' t.
Proof. intros Ha Hx. apply annotated_frame. intros k Hk. apply (ad_other _ _ _ _ _ Ha). by intros ->. Qed.

(** The result of inserting [x] at the hole of [c], where [t] was. *)
Record inserted ns ns' (x : Item) (nx : option Z) (t : tree) : Prop := {
  in_tree : is_tree ns' None t;
  in_annotated : annotated ns' t;
  in_next : next_of ns' (i_key x) = Some nx;
  in_others : forall k, k <> i_key x -> next_of ns' k = next_of ns k;
}.

Lemma only_max_inserted ns ns1 ks ns' x nx t : only_max ns ns1 ks -> inserted ns1 ns' x nx t -> inserted ns ns' x nx t.
Proof. intros Ho [I1 I2 I3 I4]. constructor; try done. intros k Hk. rewrite I4 by done. apply (om_next _ _ _ Ho). Qed.

(** The new node takes the place of [t], which is split under it. *)
Lemma insert_above_ok ns c it l r x nx :
  let t := Nd it l r in
  is_tree ns None (plug c t) -> annotated ns t -> ctx_annotated ns c (x :: items t) -> NoDup (keys (plug c t)) ->
  i_key x ∉ keys (plug c t) -> vacant_key ns = slab_key (i_key x) ->
  exists ns1 ns2 ns3 root,
    match parent_of None c with
    | Some grandparent =>
        let? nodes := replace_child ns grandparent (i_key it) (Some (i_key x)) in
        Ret (nodes, root_of (plug c t), set_parent (Some grandparent) (fresh_node x None nx))
    | None => Ret (ns, Some (i_key x), fresh_node x None nx)
    end = Ret (ns1, root, fresh_node x (parent_of None c) nx) /\
    insert_at ns1 (i_key x) (fresh_node x (parent_of None c) nx) = Ret ns2 /\
    split ns2 (i_key it) (i_key x) = Ret ns3 /\
    root = root_of (plug c (Nd x (tsplit (i_start x) t).1 (tsplit (i_start x) t).2)) /\
    inserted ns ns3 x nx (plug c (Nd x (tsplit (i_start x) t).1 (tsplit (i_start x) t).2)).
Proof.
  intros t Ht Ha Hc Hnd Hx Hv. pose proof Ht as [Hctx Hsub]%is_tree_plug. rewrite keys_plug, elem_of_app in Hx.
  assert (Hstep : exists ns1 root,
    match parent_of None c with
    | Some grandparent =>
        let? nodes := replace_child ns grandparent (i_key it) (Some (i_key x)) in
        Ret (nodes, root_of (plug c t), set_parent (Some grandparent) (fresh_node x None nx))
    | None => Ret (ns, Some (i_key x), fresh_node x None nx)
    end = Ret (E := False) (ns1, root, fresh_node x (parent_of None c) nx) /\ root = top c (Some (i_key x)) /\
    is_ctx ns1 None c (Some (i_key x)) /\ keeps ns ns1 (c_keys c) /\ (forall k, max_of ns1 k = max_of ns k) /\ vacant_key ns1 = vacant_key ns).
  { destruct c as [|f c]; cbn [parent_of]; [by exists ns, (Some (i_key x))|]. destruct (nodup_frame _ _ _ Hnd) as (F1 & F2 & F3 & F4).
    destruct (replace_child_ok ns None f c (i_key it) (Some (i_key x)) Hctx (F4 _ ltac:(apply elem_keys_node; auto)) F1 F2) as (ns1 & H1 & Hc1 & K1 & M1).
    rewrite H1. cbn [obind]. exists ns1, (root_of (plug (f :: c) t)). split; [done|]. split; [|split; [done|]].
    - rewrite root_plug. unfold top. rewrite last_cons. by destruct (last c).
    - split_and!; [|done|by eapply replace_child_vacant]. eapply keeps_trans; [exact K1|apply (keeps_refl _ [])|].
      intros k [->%list_elem_of_singleton|?%elem_of_nil]; [|done]. rewrite c_keys_cons. by left. }
  destruct Hstep as (ns1 & root & H1 & Hroot & Hctx1 & K1 & M1 & Hv1).
  rewrite keys_plug in Hnd. apply NoDup_app in Hnd as (Hndt & Hdc & Hndc).
  assert (Htc : forall k, k ∈ keys t -> k ∉ c_keys c) by apply Hdc.
  destruct (added_ok ns1 x (parent_of None c) nx ltac:(congruence)) as (ns2 & H2 & Had).
  assert (Ht2 : is_tree ns2 (parent_of None c) t) by (eapply added_tree; [exact Had|tauto|by eapply keeps_tree]).
  assert (Ha2 : annotated ns2 t) by (eapply added_annotated; [exact Had|tauto|by eapply keeps_annotated]).
  destruct (split_ok ns2 x (parent_of None c) _ it l r (ad_links _ _ _ _ _ Had) Ht2 Ha2) as (ns3 & H3 & Ht3 & Ha3 & K3).
  { constructor; [tauto|done]. }
  exists ns1, ns2, ns3, root. split_and!; try done.
  { by rewrite root_plug. }
  assert (Hck : forall k, k ∈ c_keys c -> k <> i_key x /\ k ∉ i_key x :: keys t).
  { intros k Hk. assert (k <> i_key x) by (intros ->; tauto). split; [done|]. rewrite elem_of_cons. intros [?|Hk2]; [done|]. by apply (Htc k). }
  constructor.
  - apply is_tree_plug. split; [|done]. eapply is_ctx_frame; [|exact Hctx1]. intros k Hk. destruct (Hck k Hk).
    rewrite (kp_links _ _ _ K3) by done. by apply (ad_other _ _ _ _ _ Had).
  - apply annotated_plug. split; [done|]. eapply ctx_annotated_ext; [| |exact Hc].
    + intros k Hk. destruct (Hck k Hk). rewrite (kp_max _ _ _ K3) by done. rewrite <- M1. by apply (ad_other _ _ _ _ _ Had).
    + intros y. cbn [items]. rewrite elem_of_app, !elem_of_cons, <- (items_split (i_start x) t), elem_of_app. tauto.
  - rewrite (kp_next _ _ _ K3). apply (ad_next _ _ _ _ _ Had).
  - intros k Hk. rewrite (kp_next _ _ _ K3). destruct (ad_other _ _ _ _ _ Had k Hk) as (_ & _ & ->). apply (kp_next _ _ _ K1).
Qed.
(** Passing a node on the way down: its annotation takes the new node into account. *)
Lemma pass_node_ok ns c it l r x pn mn i :
  let t := Nd it l r in
  is_tree ns None (plug c t) -> annotated ns t -> ctx_annotated ns c (x :: items t) -> NoDup (keys (plug c t)) ->
  lk ns (i_key it) = Some pn -> lk ns (max_upper_bound pn) = Some mn ->
  exists ns1,
    (if (upper_bound mn <? i_end x)%ord then modify ns (i_key it) (set_max (i_key x)) else Ret ns) = Ret ns1 /\
    only_max ns ns1 [i_key it] /\ vacant_key ns1 = vacant_key ns /\
    annotated ns1 (goes i l r) /\ ctx_annotated ns1 (MkFrame it i (stays i l r) :: c) (x :: items (goes i l r)).
Proof.
  intros t Ht Ha Hc Hnd Hpn Hmn. pose proof Ht as [_ Hsub]%is_tree_plug. pose proof Ha as ((m & Hm & Hmk & Hmax) & Hal & Har).
  unfold max_of in Hmk. rewrite Hpn in Hmk. injection Hmk as Hmk. destruct (tree_item _ _ _ _ Hsub Hm) as (mn' & Hmn' & Hmi).
  rewrite Hmk, Hmn' in Hmn. injection Hmn as <-. assert (Hub : upper_bound mn' = i_end m) by (by rewrite <- Hmi). rewrite Hub.
  pose proof Hnd as Hnd'. rewrite keys_plug in Hnd'. apply NoDup_app in Hnd' as (Hndt & Hdc & _).
  destruct (nodup_node _ _ _ Hndt) as (_ & _ & Nl & Nr & _). set (f := MkFrame it i (stays i l r)).
  assert (Hset : exists ns1,
    (if (i_end m <? i_end x)%ord then modify ns (i_key it) (set_max (i_key x)) else Ret ns) = Ret ns1 /\
    only_max ns ns1 [i_key it] /\ vacant_key ns1 = vacant_key ns /\ max_ok ns1 (i_key it) (x :: items t)).
  { destruct (i_end m <? i_end x)%ord eqn:Hlt.
    - apply ltb_lt in Hlt. destruct (modify_ok ns (i_key it) pn (set_max (i_key x)) Hpn) as (ns1 & H1 & Hl).
      destruct (set_max_only ns ns1 _ pn (i_key x) Hpn Hl) as [Ho Hmx]. exists ns1. split_and!; try done; [by eapply modify_vacant|].
      exists x. split; [left|]. split; [done|]. intros y [->|Hy]%elem_of_cons; [apply ole_refl|]. eapply ole_trans; [by apply Hmax|by apply olt_ole].
    - apply ltb_ge in Hlt. exists ns. split_and!; try done. exists m. split; [by right|]. split; [unfold max_of; rewrite Hpn; cbn; by rewrite Hmk|].
      intros y [->|Hy]%elem_of_cons; [done|by apply Hmax]. }
  destruct Hset as (ns1 & H1 & Ho & Hv & Hmo). exists ns1. split_and!; try done.
  - eapply annotated_frame; [|destruct i; [exact Har|exact Hal]]. intros k Hk. apply (om_max _ _ _ Ho). intros ->%list_elem_of_singleton. by destruct i.
  - assert (Hin : forall y, y ∈ it :: items (stays i l r) ++ x :: items (goes i l r) <-> y ∈ x :: items t).
    { intros y. unfold t. cbn [items]. rewrite !elem_of_cons, !elem_of_app, !elem_of_cons. destruct i; cbn [stays goes]; tauto. }
    cbn [ctx_annotated f_item f_sib]. split_and!.
    + revert Hmo. apply max_ok_ext; [done|exact Hin].
    + eapply annotated_frame; [|destruct i; [exact Hal|exact Har]]. intros k Hk. apply (om_max _ _ _ Ho). intros ->%list_elem_of_singleton. by destruct i.
    + eapply ctx_annotated_ext; [|exact Hin|exact Hc]. intros k Hk. apply (om_max _ _ _ Ho). intros ->%list_elem_of_singleton.
      apply (Hdc (i_key it)); [apply elem_keys_node; auto|done].
Qed.

Lemma plug_frame it i l r c : plug c (Nd it l r) = plug (MkFrame it i (stays i l r) :: c) (goes i l r).
Proof. rewrite plug_cons. by destruct i. Qed.

(** The new node becomes a leaf. *)
Lemma insert_leaf_ok ns c f x nx :
  is_tree ns None (plug (f :: c) Leaf) -> ctx_annotated ns (f :: c) [x] -> NoDup (keys (plug (f :: c) Leaf)) ->
  i_key x ∉ keys (plug (f :: c) Leaf) -> vacant_key ns = slab_key (i_key x) ->
  exists ns1 ns2, modify ns (f_key f) (set_child (f_right f) (Some (i_key x))) = Ret ns1 /\
    insert_at ns1 (i_key x) (fresh_node x (Some (f_key f)) nx) = Ret ns2 /\ inserted ns ns2 x nx (plug (f :: c) (Nd x Leaf Leaf)).
Proof.
  intros Ht Hc Hnd Hx Hv. pose proof Ht as [Hctx _]%is_tree_plug. destruct (nodup_frame _ _ _ Hnd) as (F1 & F2 & _).
  destruct (set_hole_ok ns None f c _ (Some (i_key x)) Hctx F1 F2) as (ns1 & H1 & Hc1 & K1 & M1).
  destruct (added_ok ns1 x (Some (f_key f)) nx) as (ns2 & H2 & Had); [by rewrite (modify_vacant _ _ _ _ H1)|].
  assert (Hck : forall k, k ∈ c_keys (f :: c) -> k <> i_key x) by (intros k Hk ->; apply Hx; rewrite keys_plug; by apply elem_of_app; right).
  exists ns1, ns2. split_and!; try done. constructor.
  - apply is_tree_plug. split; [|by split; [apply (ad_links _ _ _ _ _ Had)|]]. eapply is_ctx_frame; [|exact Hc1].
    intros k Hk. by apply (ad_other _ _ _ _ _ Had), Hck.
  - apply annotated_plug. split.
    + split; [|done]. exists x. split; [left|]. split; [apply (ad_max _ _ _ _ _ Had)|]. intros y ->%list_elem_of_singleton. apply ole_refl.
    + eapply ctx_annotated_ext; [|done|exact Hc]. intros k Hk. rewrite <- M1. by apply (ad_other _ _ _ _ _ Had), Hck.
  - apply (ad_next _ _ _ _ _ Had).
  - intros k Hk. destruct (ad_other _ _ _ _ _ Had k Hk) as (_ & _ & ->). apply (kp_next _ _ _ K1).
Qed.

Lemma insert_node_ok fuel : forall ns c it l r x nx,
  let t := Nd it l r in
  is_tree ns None (plug c t) -> annotated ns t -> ctx_annotated ns c (x :: items t) -> NoDup (keys (plug c t)) ->
  i_key x ∉ keys (plug c t) -> vacant_key ns = slab_key (i_key x) -> (length (items t) <= fuel)%nat ->
  exists ns', insert_node fuel ns (root_of (plug c t)) (i_key it) (i_key x) (fresh_node x None nx)
              = Ret (ns', root_of (plug c (tinsert x t))) /\ inserted ns ns' x nx (plug c (tinsert x t)).
Proof.
  induction fuel as [|fuel IH]; intros ns c it l r x nx t Ht Ha Hc Hnd Hx Hv Hfuel; subst t; cbn [items] in Hfuel;
    rewrite length_app in Hfuel; cbn [length] in Hfuel; [lia|]. pose proof Ht as [Hctx Hsub]%is_tree_plug.
  destruct (tree_node _ _ _ _ _ Hsub) as (pn & Hpn & Hpi & Hpp & Hc0 & Hc1). cbn [insert_node]. rewrite (node_at_ok _ _ _ Hpn). cbn [obind].
  assert (Hpw : weight pn = i_weight it) by (by rewrite <- Hpi). assert (Hps : node_start pn = i_start it) by (by rewrite <- Hpi).
  rewrite Hpw, Hpp. cbn [tinsert]. change (weight (fresh_node x None nx)) with (i_weight x).
  change (node_start (fresh_node x None nx)) with (i_start x). change (upper_bound (fresh_node x None nx)) with (i_end x). destruct (i_weight x <? i_weight it).
  - destruct (insert_above_ok ns c it l r x nx Ht Ha Hc Hnd Hx Hv) as (ns1 & ns2 & ns3 & root & H1 & H2 & H3 & Hroot & Hin).
    rewrite H1. cbn [obind]. rewrite H2. cbn [obind]. rewrite H3. cbn [obind]. exists ns3. rewrite Hroot.
    by destruct (tsplit (i_start x) (Nd it l r)).
  - destruct Ha as ((m & Hm & Hmk & Hmax) & Hal & Har) eqn:HA. clear HA. pose proof Hmk as Hmk'. unfold max_of in Hmk'. rewrite Hpn in Hmk'. injection Hmk' as Hmk'.
    destruct (tree_item _ _ _ _ Hsub Hm) as (mn & Hmn & Hmi). rewrite Hmk', (node_at_ok _ _ _ Hmn). cbn [obind].
    set (i := negb (i_start x <? i_start it)%ord).
    destruct (pass_node_ok ns c it l r x pn mn i Ht Ha Hc Hnd Hpn ltac:(by rewrite Hmk')) as (ns1 & H1 & Ho & Hv1 & Ha1 & Hc1').
    rewrite H1. cbn [obind]. rewrite Hps. fold i. set (f := MkFrame it i (stays i l r)) in *.
    assert (Hti : (if (i_start x <? i_start it)%ord then Nd it (tinsert x l) r else Nd it l (tinsert x r)) = plug1 f (tinsert x (goes i l r))).
    { unfold f, i. by destruct (i_start x <? i_start it)%ord. }
    rewrite Hti. rewrite (plug_frame it i l r c) in *. fold f in Ht, Hnd, Hx |- *.
    assert (Ht1 : is_tree ns1 None (plug (f :: c) (goes i l r))) by (eapply is_tree_frame; [|exact Ht]; intros k _; apply (om_links _ _ _ Ho)).
    replace (get_child pn i) with (root_of (goes i l r)) by (by destruct i).
    destruct (goes i l r) as [|it2 l2 r2] eqn:Hg; cbn [root_of].
    + destruct (insert_leaf_ok ns1 c f x nx Ht1 Hc1' Hnd Hx ltac:(congruence)) as (ns2 & ns3 & H2 & H3 & Hin).
      unfold f in H2. cbn [f_right] in H2. change (f_key (MkFrame it i (stays i l r))) with (i_key it) in H2. rewrite H2. cbn [obind].
      change (set_parent (Some (i_key it)) (fresh_node x None nx)) with (fresh_node x (Some (f_key f)) nx). rewrite H3. cbn [obind].
      exists ns3. split; [|by apply (only_max_inserted ns ns1 _ ns3 _ _ _ Ho)]. f_equal. f_equal. rewrite !root_plug, root_plug1. unfold top. rewrite last_cons. by destruct (last c).
    + destruct (IH ns1 (f :: c) it2 l2 r2 x nx Ht1 Ha1 Hc1' Hnd Hx ltac:(congruence)) as (ns2 & H2 & Hin).
      { rewrite <- Hg. destruct i; cbn [goes]; lia. }
      rewrite H2. exists ns2. split; [done|]. by apply (only_max_inserted ns ns1 _ ns2 _ _ _ Ho).
Qed.
(** *** Queries *)

Definition interval_of (it : Item) : Interval := MkInterval (i_start it) (i_end it).

Lemma contains_interval_of it point :
  contains (interval_of it) point = (i_start it <=? point)%ord && greater_than (i_end it) point.
Proof. unfold contains, interval_of, greater_than. cbn [start end_]. by destruct (i_end it). Qed.

(** The nodes whose interval holds the point, in order. *)
Definition hits (point : list Z) (its : list Item) : list Z := map i_sub (bfilter (fun it => contains (interval_of it) point) its).

Lemma hits_app point l k : hits point (l ++ k) = hits point l ++ hits point k.
Proof. unfold hits. by rewrite bfilter_app, map_app. Qed.

Lemma hits_none point its : (forall x, x ∈ its -> contains (interval_of x) point = false) -> hits point its = [].
Proof. intros Hx. unfold hits. by rewrite bfilter_none. Qed.

Lemma query_subtree_ok fuel : forall ns p t point,
  is_tree ns p t -> annotated ns t -> sorted (items t) -> (length (items t) <= fuel)%nat ->
  query_subtree fuel ns point (root_of t) = Ret (hits point (items t)).
Proof.
  induction fuel as [|fuel IH]; intros ns p t point Ht Ha Hs Hfuel; (destruct t as [|it l r]; [done|]);
    cbn [items] in Hfuel; rewrite length_app in Hfuel; cbn [length] in Hfuel; [lia|].
  destruct (tree_node _ _ _ _ _ Ht) as (n & Hn & Hi & _ & Hc0 & Hc1). pose proof Ht as (_ & Hl & Hr). pose proof Ha as ((m & Hm & Hmk & Hmax) & Hal & Har).
  unfold max_of in Hmk. rewrite Hn in Hmk. injection Hmk as Hmk. destruct (tree_item _ _ _ _ Ht Hm) as (mn & Hmn & Hmi).
  cbn [root_of query_subtree]. rewrite (node_at_ok _ _ _ Hn). cbn [obind]. rewrite Hmk, (node_at_ok _ _ _ Hmn). cbn [obind].
  assert (Hmu : upper_bound mn = i_end m) by (by rewrite <- Hmi). assert (Hns : node_start n = i_start it) by (by rewrite <- Hi).
  assert (Hnu : upper_bound n = i_end it) by (by rewrite <- Hi). assert (Hnb : node_subscriber n = i_sub it) by (by rewrite <- Hi).
  rewrite Hmu, Hns, Hnu, Hnb, Hc0, Hc1. cbn [items] in Hs. pose proof Hs as (Hsl & Hsr & _ & Hgt)%sorted_node.
  destruct (greater_than (i_end m) point) eqn:Hg.
  - rewrite (IH ns _ l point Hl Hal Hsl) by lia. cbn [items]. rewrite hits_app.
    assert (Hcons : hits point (it :: items r) = (if contains (interval_of it) point then [i_sub it] else []) ++ hits point (items r)).
    { unfold hits. cbn [bfilter]. by destruct (contains (interval_of it) point). }
    rewrite Hcons, contains_interval_of. destruct (i_start it <=? point)%ord eqn:Hle; cbn [andb obind].
    + by rewrite (IH ns _ r point Hr Har Hsr) by lia.
    + rewrite (hits_none point (items r)), !app_nil_r; [done|]. intros x Hx. rewrite contains_interval_of. apply Hgt in Hx.
      apply leb_gt in Hle. rewrite (proj2 (leb_gt (i_start x) point)); [done|]. by eapply olt_ole_trans.
  - rewrite hits_none; [done|]. intros x Hx. rewrite contains_interval_of. apply andb_false_iff. right.
    destruct (greater_than (i_end x) point) eqn:Hgx; [|done]. pose proof (above_mono _ _ point (Hmax x Hx) Hgx) as Hab.
    unfold above in Hab. congruence.
Qed.

(** *** The linked lists *)

Fixpoint chain ns (head : option Z) (ks : list Z) : Prop :=
  match ks with
  | [] => head = None
  | k :: ks => head = Some k /\ exists nx, next_of ns k = Some nx /\ chain ns nx ks
  end.

Lemma chain_frame ns ns' ks : forall head, (forall k, k ∈ ks -> next_of ns' k = next_of ns k) -> chain ns head ks -> chain ns' head ks.
Proof.
  induction ks as [|k ks IH]; intros head Hf; [done|]. cbn [chain]. intros (-> & nx & Hn & Hc). split; [done|]. exists nx.
  split; [rewrite Hf; [done|left]|]. apply IH; [|done]. intros k' Hk'. apply Hf. by right.
Qed.

(** A tree in good order. *)
Record treap_ok ns t : Prop := {
  tp_tree : is_tree ns None t;
  tp_annotated : annotated ns t;
  tp_nodup : NoDup (keys t);
  tp_sorted : sorted (items t);
  tp_heap : heap t;
}.

Lemma set_next_ok ns t k n o :
  treap_ok ns t -> lk ns k = Some n ->
  exists ns', modify ns k (set_next o) = Ret ns' /\ treap_ok ns' t /\ forall k', k' <> k -> next_of ns' k' = next_of ns k'.
Proof.
  intros [T1 T2 T3 T4 T5] Hn. destruct (modify_ok ns k n (set_next o) Hn) as (ns' & -> & Hl). exists ns'. split; [done|].
  assert (Hlk : forall k', links ns' k' = links ns k' /\ max_of ns' k' = max_of ns k').
  { intros k'. unfold links, max_of. rewrite Hl. destruct (decide (k' = k)) as [->|]; [by rewrite Hn|done]. }
  split; [constructor; try done|].
  - eapply is_tree_frame; [|exact T1]. intros k' _. apply Hlk.
  - eapply annotated_frame; [|exact T2]. intros k' _. apply Hlk.
  - intros k' Hne. unfold next_of. by rewrite Hl, decide_False.
Qed.

Lemma removed_ok ns ns' t x t' : treap_ok ns t -> removed_from ns ns' t x t' -> treap_ok ns' t' /\ items t ≡ₚ x :: items t'.
Proof.
  intros [T1 T2 T3 T4 T5] [R1 R2 (a & b & E1 & E2) R4 _]. rewrite E1 in T3, T4. rewrite map_app in T3. cbn [map] in T3.
  rewrite <- Permutation_middle in T3. apply NoDup_cons in T3 as [_ T3]. rewrite sorted_node in T4. destruct T4 as (Sa & Sb & Ha & Hb).
  split; [constructor; try done; [by rewrite E2, map_app| |by apply R4]|].
  - rewrite E2. apply sorted_app. split_and!; try done. intros y z Hy Hz. eapply ole_trans; [by apply Ha|by apply Hb].
  - rewrite E1, E2. symmetry. apply Permutation_middle.
Qed.

Lemma remove_list_ok its : forall fuel ns t head,
  treap_ok ns t -> chain ns head (map i_key its) -> (forall x, x ∈ its -> x ∈ items t) -> NoDup (map i_key its) -> (length its <= fuel)%nat ->
  exists ns' t', remove_list fuel ns (root_of t) head = Ret (ns', root_of t') /\ treap_ok ns' t' /\ items t ≡ₚ its ++ items t' /\
    forall k, k ∉ map i_key its -> next_of ns' k = next_of ns k.
Proof.
  induction its as [|x its IH]; intros fuel ns t head Ht Hc Hin Hnd Hfuel; cbn [map chain] in Hc.
  { subst head. exists ns, t. split; [by destruct fuel|]. done. }
  destruct Hc as (-> & nx & Hnx & Hc). cbn [length] in Hfuel. destruct fuel as [|fuel]; [lia|]. cbn [remove_list].
  cbn [map] in Hnd. apply NoDup_cons in Hnd as [Hxn Hnd]. specialize (Hin x ltac:(left)) as Hx.
  destruct (tree_item _ _ _ _ (tp_tree _ _ Ht) Hx) as (n & Hn & _). rewrite (node_at_ok _ _ _ Hn). cbn [obind].
  destruct (set_next_ok ns t (i_key x) n None Ht Hn) as (ns1 & -> & Ht1 & Hn1). cbn [obind]. destruct Ht1 as [T1 T2 T3 T4 T5] eqn:HT. clear HT.
  destruct (remove_in_place_ok ns1 t x T1 T2 T3 Hx) as (ns2 & t2 & -> & Hr). cbn [obind].
  destruct (removed_ok ns1 ns2 t x t2 Ht1 Hr) as [Ht2 Hp2]. unfold next_of in Hnx. rewrite Hn in Hnx. injection Hnx as ->.
  assert (Hnext : forall k, k <> i_key x -> next_of ns2 k = next_of ns k) by (intros k Hk; rewrite (rf_next _ _ _ _ _ Hr) by done; by apply Hn1).
  destruct (IH fuel ns2 t2 nx Ht2) as (ns3 & t3 & H3 & Ht3 & Hp3 & Hn3); try done.
  - eapply chain_frame; [|exact Hc]. intros k Hk. apply Hnext. by intros ->.
  - intros y Hy. assert (Hyt : y ∈ items t) by (apply Hin; by right). rewrite Hp2 in Hyt. apply elem_of_cons in Hyt as [->|?]; [|done].
    exfalso. apply Hxn. by apply list_elem_of_fmap_2.
  - lia.
  - exists ns3, t3. split_and!; try done; [by rewrite Hp2, Hp3|]. intros k. cbn [map]. rewrite not_elem_of_cons. intros [? ?].
    rewrite Hn3 by done. by apply Hnext.
Qed.
End representation.

(** ** The map *)

Section map.
Context {Sl : Type -> Type} `{SlabLaws Sl} {Rng : Type} (rng_new : Rng) (rng_u32 : Rng -> Z * Rng).
Notation TMap := (TreapMap (Sl := Sl) (Rng := Rng)).

(** The list of a subscriber holds its nodes, and they hold its intervals. *)
Definition sub_rep (ns : Sl Node) (t : tree) (o : option (list Interval)) (h : option (option Z)) (id : Z) : Prop :=
  match o, h with
  | None, None => forall x, x ∈ items t -> i_sub x <> id
  | Some ivs, Some head =>
      exists its, chain ns head (map i_key its) /\ bfilter (fun x => i_sub x =? id) (items t) ≡ₚ its /\ map interval_of its ≡ₚ ivs
  | _, _ => False
  end.

Definition treap_rep (m : TMap) (A : Registered) : Prop :=
  exists t, im_root m = root_of t /\ treap_ok (im_nodes m) t /\ forall id, sub_rep (im_nodes m) t (A id) (im_subscribers m !! id) id.

#[global] Instance treap_rep_proper : Proper ((=) ==> pointwise_relation Z (=) ==> iff) treap_rep.
Proof.
  intros m ? <- A B HAB. unfold treap_rep. split; intros (t & ? & ? & Hs); exists t; split_and!; try done; intros id;
    [rewrite <- (HAB id)|rewrite (HAB id)]; apply Hs.
Qed.

Lemma sub_rep_perm ns t ivs ivs' h id : ivs ≡ₚ ivs' -> sub_rep ns t (Some ivs) h id -> sub_rep ns t (Some ivs') h id.
Proof. intros Hp. unfold sub_rep. destruct h as [head|]; [|done]. intros (its & ? & ? & ?). exists its. split_and!; try done. by etrans. Qed.

Lemma treap_new_rep : treap_rep (treap_new rng_new) (fun _ => None).
Proof.
  exists Leaf. split; [done|]. split; [by constructor; try done; constructor|]. intros id. cbn [treap_new im_subscribers im_nodes].
  rewrite lookup_empty. cbn. by intros x ?%elem_of_nil.
Qed.

Lemma treap_is_empty_rep m A : treap_rep m A -> if treap_is_empty m then forall id, A id = None else exists id, A id <> None.
Proof.
  intros (t & _ & _ & Hs). unfold treap_is_empty. case_bool_decide as He.
  - intros id. specialize (Hs id). rewrite He, lookup_empty in Hs. destruct (A id); [destruct Hs|done].
  - apply map_choose in He as (id & head & Hh). exists id. specialize (Hs id). rewrite Hh in Hs. by destruct (A id).
Qed.

Lemma hits_elem point its id : id ∈ hits point its <-> exists x, x ∈ its /\ i_sub x = id /\ inside (interval_of x) point.
Proof.
  unfold hits. split.
  - intros (x & -> & Hx)%list_elem_of_fmap. apply elem_of_bfilter in Hx as [? ?]. by exists x.
  - intros (x & Hx & <- & Hi). apply list_elem_of_fmap_2, elem_of_bfilter. done.
Qed.

Lemma treap_query_rep m A p :
  treap_rep m A -> exists ids, treap_query m p = Ret ids /\ forall id, id ∈ ids <-> exists ivs i, A id = Some ivs /\ i ∈ ivs /\ inside i p.
Proof.
  intros (t & Hroot & [T1 T2 T3 T4 _] & Hs). exists (hits p (items t)). split.
  - unfold treap_query. rewrite Hroot. eapply query_subtree_ok; [done..|]. pose proof (tree_len _ _ _ T1 T3). unfold fuel_of. lia.
  - intros id. rewrite hits_elem. specialize (Hs id). unfold sub_rep in Hs. destruct (A id) as [ivs|], (im_subscribers m !! id) as [head|]; try done.
    + destruct Hs as (its & _ & Hp & Hi). split.
      * intros (x & Hx & Hsub & Hin). exists ivs, (interval_of x). split_and!; try done. rewrite <- Hi. apply list_elem_of_fmap_2.
        rewrite <- Hp. apply elem_of_bfilter. by rewrite Z.eqb_eq.
      * intros (ivs' & i & [= <-] & Hin & Hins). rewrite <- Hi in Hin. apply list_elem_of_fmap in Hin as (x & -> & Hx). exists x.
        rewrite <- Hp in Hx. apply elem_of_bfilter in Hx as [? ?%Z.eqb_eq]. done.
    + split; [|naive_solver]. intros (x & Hx & Hsub & _). by apply Hs in Hsub.
Qed.

(** *** Inserting one interval *)

Lemma inserted_ok ns ns' t x nx : treap_ok ns t -> i_key x ∉ keys t -> inserted ns ns' x nx (tinsert x t) -> treap_ok ns' (tinsert x t).
Proof.
  intros [T1 T2 T3 T4 T5] Hx [I1 I2 _ _]. constructor; try done; [|by apply sorted_insert|by apply heap_insert].
  rewrite (Permutation_map i_key (items_insert_perm x t)). by constructor.
Qed.

Lemma inserted_subs ns ns' t x (subs : gmap Z (option Z)) (A : Registered) ivs head id :
  (forall id, sub_rep ns t (A id) (subs !! id) id) -> inserted ns ns' x head (tinsert x t) -> i_key x ∉ keys t -> i_sub x = id ->
  A id = Some ivs -> subs !! id = Some head ->
  forall id', sub_rep ns' (tinsert x t) (reg_put A id (Some (interval_of x :: ivs)) id') (<[id := Some (i_key x)]> subs !! id') id'.
Proof.
  intros Hs [_ _ I3 I4] Hx Hsub HA Hh id'. unfold reg_put. pose proof (Hs id') as Hid. assert (Hfr : forall its, bfilter (fun y => i_sub y =? id') (items t) ≡ₚ its ->
    forall k, k ∈ map i_key its -> next_of ns' k = next_of ns k).
  { intros its Hp k (y & -> & Hy)%list_elem_of_fmap. apply I4. intros Heq. apply Hx. rewrite <- Heq. apply list_elem_of_fmap_2.
    rewrite <- Hp in Hy. by apply elem_of_bfilter in Hy as [? _]. }
  destruct (decide (id' = id)) as [->|Hne].
  - rewrite lookup_insert_eq. rewrite HA, Hh in Hid. destruct Hid as (its & Hc & Hp & Hi). exists (x :: its). split; [|split].
    + cbn [map chain]. split; [done|]. exists head. split; [done|]. eapply chain_frame; [|exact Hc]. by apply Hfr.
    + rewrite (bfilter_Permutation _ _ _ (items_insert_perm x t)). cbn [bfilter]. rewrite Hsub, Z.eqb_refl. by constructor.
    + cbn [map]. by constructor.
  - rewrite lookup_insert_ne by done. unfold sub_rep in *. destruct (A id') as [ivs'|], (subs !! id') as [head'|]; try done.
    + destruct Hid as (its & Hc & Hp & Hi). exists its. split_and!; [|etrans; [|exact Hp]|done].
      * eapply chain_frame; [|exact Hc]. by apply Hfr.
      * rewrite (bfilter_Permutation _ _ _ (items_insert_perm x t)). cbn [bfilter]. rewrite (proj2 (Z.eqb_neq (i_sub x) id')); [done|congruence].
    + intros y. rewrite items_insert_perm. intros [->|?]%elem_of_cons; [congruence|by apply Hid].
Qed.

Lemma insert_interval_rep m A id ivs iv w :
  treap_rep m A -> A id = Some ivs ->
  exists m' ok, insert_interval m id iv w = Ret (m', ok) /\ im_rng m' = im_rng m /\
    if ok : bool then treap_rep m' (reg_put A id (Some (iv :: ivs))) else m' = m.
Proof.
  intros (t & Hroot & Ht & Hs) HA. unfold insert_interval. destruct (node_key_new (vacant_key (im_nodes m))) as [key|] eqn:Hk; [|by exists m, false].
  unfold node_key_new in Hk. destruct (_ && _); [|done]. injection Hk as Hk. pose proof (Hs id) as Hid. rewrite HA in Hid. unfold sub_rep in Hid.
  destruct (im_subscribers m !! id) as [head|] eqn:Hh; [|done]. clear Hid. cbn [expect obind].
  set (x := MkItem key w (start iv) (end_ iv) id). assert (Hv : vacant_key (im_nodes m) = slab_key (i_key x)) by (unfold slab_key; cbn; lia).
  assert (Hx : i_key x ∉ keys t).
  { intros (y & Hy & Hin)%list_elem_of_fmap. destruct (tree_item _ _ _ _ (tp_tree _ _ Ht) Hin) as (n & Hn & _). unfold lk in Hn.
    by rewrite <- Hy, <- Hv, slab_get_vacant in Hn. }
  change {| weight := w; node_start := start iv; upper_bound := end_ iv; node_subscriber := id; parent := None; child := (None, None);
            max_upper_bound := key; next := head |} with (fresh_node x None head).
  assert (Hins : exists ns', inserted (im_nodes m) ns' x head (tinsert x t) /\
    match root_of t with
    | None => Ret (E := False) (slab_insert (fresh_node x None head) (im_nodes m), Some key)
    | Some root => insert_node (fuel_of (im_nodes m)) (im_nodes m) (Some root) root key (fresh_node x None head)
    end = Ret (ns', root_of (tinsert x t))).
  { destruct Ht as [T1 T2 T3 T4 T5]. destruct t as [|it l r]; cbn [root_of].
    - destruct (added_ok (im_nodes m) x None head Hv) as (ns' & He & Had). unfold insert_at, rassert in He. rewrite Hv, Z.eqb_refl in He.
      injection He as <-. eexists. split; [|done]. constructor; cbn [tinsert is_tree annotated items app].
      + split; [apply (ad_links _ _ _ _ _ Had)|done].
      + split; [|done]. exists x. split; [left|]. split; [apply (ad_max _ _ _ _ _ Had)|]. intros y ->%list_elem_of_singleton. apply ole_refl.
      + apply (ad_next _ _ _ _ _ Had).
      + intros k Hk'. by apply (ad_other _ _ _ _ _ Had).
    - destruct (insert_node_ok (fuel_of (im_nodes m)) (im_nodes m) [] it l r x head T1 T2 I T3 Hx Hv) as (ns' & He & Hi).
      { pose proof (tree_len _ _ _ T1 T3). unfold fuel_of. lia. }
      exists ns'. done. }
  destruct Hins as (ns' & Hi & He). rewrite Hroot. exists {| im_nodes := ns'; im_root := root_of (tinsert x t);
    im_subscribers := <[id := Some key]> (im_subscribers m); im_rng := im_rng m |}, true. split; [|split; [done|]].
  - destruct (root_of t); [by rewrite He|]. injection He as -> ->. done.
  - exists (tinsert x t). split; [done|]. split; [by eapply inserted_ok|].
    replace iv with (interval_of x) by (by destruct iv). by eapply inserted_subs.
Qed.
(** *** Removing a subscriber *)

Lemma filter_unique (ts : list Item) id : NoDup (map i_key ts) -> NoDup (map i_key (bfilter (fun x => i_sub x =? id) ts)).
Proof.
  induction ts as [|x ts IH]; [done|]. cbn [map bfilter]. intros [Hx Hnd]%NoDup_cons. destruct (i_sub x =? id); [|auto].
  cbn [map]. constructor; [|auto]. intros (y & Hy & Hin)%list_elem_of_fmap. apply Hx. rewrite Hy. apply list_elem_of_fmap_2.
  by apply elem_of_bfilter in Hin as [? _].
Qed.

Lemma treap_remove_rep m A id :
  treap_rep m A -> A id <> None -> exists m', treap_remove m id = Ret m' /\ im_rng m' = im_rng m /\ treap_rep m' (reg_put A id None).
Proof.
  intros (t & Hroot & Ht & Hs) HA. pose proof (Hs id) as Hid. unfold sub_rep in Hid. destruct (A id) as [ivs|]; [|done]. unfold treap_remove.
  destruct (im_subscribers m !! id) as [head|]; [|done]. destruct Hid as (its & Hc & Hp & Hi). cbn [expect obind]. rewrite Hroot.
  assert (Hsub : forall x, x ∈ its <-> x ∈ items t /\ i_sub x = id) by (intros x; by rewrite <- Hp, elem_of_bfilter, Z.eqb_eq).
  assert (Hnd : NoDup (map i_key its)) by (rewrite <- (Permutation_map i_key Hp); apply filter_unique, Ht).
  destruct (remove_list_ok its (fuel_of (im_nodes m)) (im_nodes m) t head Ht Hc) as (ns' & t' & -> & Ht' & Hit & Hnx); [apply Hsub|done| |].
  { pose proof (keys_len (im_nodes m) (map i_key its) Hnd) as Hl. rewrite length_map in Hl. unfold fuel_of. transitivity (slab_len (im_nodes m)); [|lia].
    apply Hl. intros k (x & -> & Hx)%list_elem_of_fmap. apply Hsub in Hx as [Hx _].
    destruct (tree_item _ _ _ _ (tp_tree _ _ Ht) Hx) as (n & ? & _). by eexists. }
  eexists. split; [done|]. split; [done|]. exists t'. split; [done|]. split; [done|]. cbn [im_nodes im_subscribers]. intros id'. unfold reg_put.
  assert (Hndall : NoDup (map i_key its ++ keys t')) by (rewrite <- map_app, <- (Permutation_map i_key Hit); apply Ht).
  destruct (decide (id' = id)) as [->|Hne].
  - rewrite lookup_delete_eq. intros x Hx Heq. assert (Hxs : x ∈ its) by (apply Hsub; split; [rewrite Hit; by apply elem_of_app; right|done]).
    apply NoDup_app in Hndall as (_ & Hd & _). apply (Hd (i_key x)); by apply list_elem_of_fmap_2.
  - rewrite lookup_delete_ne by done. specialize (Hs id'). unfold sub_rep in *.
    assert (Hf : bfilter (fun x => i_sub x =? id') (items t) ≡ₚ bfilter (fun x => i_sub x =? id') (items t')).
    { rewrite (bfilter_Permutation _ _ _ Hit), bfilter_app, bfilter_none; [done|]. intros x [_ <-]%Hsub. by apply Z.eqb_neq. }
    destruct (A id') as [ivs'|], (im_subscribers m !! id') as [head'|]; try done.
    + destruct Hs as (its' & Hc' & Hp' & Hi'). exists its'. split_and!; [|by rewrite <- Hf|done]. eapply chain_frame; [|exact Hc'].
      intros k (x & -> & Hx)%list_elem_of_fmap. apply Hnx. intros Hin. rewrite <- Hp', Hf, elem_of_bfilter in Hx. destruct Hx as [Hx _].
      apply NoDup_app in Hndall as (_ & Hd & _). apply (Hd (i_key x) Hin). by apply list_elem_of_fmap_2.
    + intros x Hx. apply Hs. rewrite Hit. apply elem_of_app. by right.
Qed.

(** *** Inserting a subscriber *)

Definition with_rng (m : TMap) (r : Rng) : TMap :=
  {| im_nodes := im_nodes m; im_root := im_root m; im_subscribers := im_subscribers m; im_rng := r |}.

Lemma with_rng_rep m A r : treap_rep m A -> treap_rep (with_rng m r) A.
Proof. done. Qed.

Lemma reg_put_twice A id o o' id' : reg_put (reg_put A id o) id o' id' = reg_put A id o' id'.
Proof. unfold reg_put. by destruct (decide _). Qed.

Lemma insert_all_rep intervals : forall m A id ivs,
  A id = None -> treap_rep m (reg_put A id (Some ivs)) ->
  exists m' ok, insert_all rng_u32 m id intervals = Ret (m', ok) /\
    treap_rep m' (if ok : bool then reg_put A id (Some (ivs ++ intervals)) else A).
Proof.
  induction intervals as [|iv intervals IH]; intros m A id ivs HA Hm; cbn [insert_all].
  { exists m, true. rewrite app_nil_r. done. }
  destruct (rng_u32 (im_rng m)) as [w r] eqn:Hr. fold (with_rng m r).
  assert (Hget : reg_put A id (Some ivs) id = Some ivs) by (unfold reg_put; by rewrite decide_True).
  destruct (insert_interval_rep (with_rng m r) _ id ivs iv w (with_rng_rep _ _ r Hm) Hget) as (m1 & ok & -> & _ & H1). cbn [obind].
  destruct ok.
  - rewrite (reg_put_twice A id _ _ : pointwise_relation Z eq _ _) in H1. destruct (IH m1 A id (iv :: ivs) HA H1) as (m' & ok & -> & Hm').
    exists m', ok. split; [done|]. destruct ok; [|done]. destruct Hm' as (t & R1 & R2 & R3). exists t. split_and!; try done. intros id'.
    specialize (R3 id'). unfold reg_put in *. destruct (decide (id' = id)); [|done]. eapply sub_rep_perm; [|exact R3].
    cbn [app]. apply Permutation_middle.
  - subst m1. destruct (treap_remove_rep (with_rng m r) _ id (with_rng_rep _ _ r Hm)) as (m' & -> & _ & Hm'); [by rewrite Hget|].
    cbn [obind]. exists m', false. split; [done|]. rewrite (reg_put_twice A id _ _ : pointwise_relation Z eq _ _) in Hm'.
    revert Hm'. apply treap_rep_proper; [done|]. intros id'. unfold reg_put. destruct (decide (id' = id)) as [->|]; done.
Qed.

Lemma treap_insert_rep m A id ivs :
  treap_rep m A -> A id = None ->
  exists m' ok, treap_insert rng_u32 m id ivs = Ret (m', ok) /\ treap_rep m' (if ok : bool then reg_put A id (Some ivs) else A).
Proof.
  intros (t & Hroot & Ht & Hs) HA. unfold treap_insert, rassert. pose proof (Hs id) as Hid. rewrite HA in Hid. unfold sub_rep in Hid.
  destruct (im_subscribers m !! id) as [?|] eqn:Hh; [done|]. rewrite bool_decide_true by done. cbn [obind].
  apply (insert_all_rep ivs _ A id []); [done|]. exists t. split; [done|]. split; [done|]. cbn [im_nodes im_subscribers]. intros id'. unfold reg_put.
  destruct (decide (id' = id)) as [->|Hne]; [|rewrite lookup_insert_ne by done; apply Hs]. rewrite lookup_insert_eq. exists []. split_and!; try done.
  rewrite bfilter_none; [done|]. intros x Hx. by apply Z.eqb_neq, Hid.
Qed.

(** *** The instance *)

Definition no_err {E A} (m : outcome False A) : outcome E A :=
  match m with Ret a => Ret a | Err e => match e with end | Panic => Panic end.

#[local] Instance treap_ops : IntervalMapOps TMap := {|
  im_new := treap_new rng_new;
  im_is_empty := treap_is_empty;
  im_insert _ m id ivs := no_err (treap_insert rng_u32 m id ivs);
  im_remove _ m id := no_err (treap_remove m id);
  im_query _ m p := no_err (treap_query m p);
|}.

#[local, refine] Instance treap_laws : IntervalMapLaws TMap := {| im_rep := treap_rep |}.
Proof.
  - exact treap_new_rep.
  - exact treap_is_empty_rep.
  - intros m A id ivs Hm HA. destruct (treap_insert_rep m A id ivs Hm HA) as (m' & ok & He & Hr). exists m', ok.
    split; [|done]. intros E. unfold im_insert, im_remove, im_query, treap_ops. by rewrite He.
  - intros m A id Hm HA. destruct (treap_remove_rep m A id Hm HA) as (m' & He & _ & Hr). exists m'. split; [|done]. intros E. unfold im_insert, im_remove, im_query, treap_ops. by rewrite He.
  - intros m A p Hm. destruct (treap_query_rep m A p Hm) as (ids & He & Hr). exists ids. split; [|done]. intros E. unfold im_insert, im_remove, im_query, treap_ops. by rewrite He.
Defined.

(** *** Use *)

(** The maps a caller can build: no subscriber is inserted twice, and only
    registered ones are removed.  [A] is what the caller registered. *)
Inductive reaches : TMap -> Registered -> Prop :=
| reach_new : reaches (treap_new rng_new) (fun _ => None)
| reach_insert m A id ivs m' ok :
    reaches m A -> A id = None -> treap_insert rng_u32 m id ivs = Ret (m', ok) ->
    reaches m' (if ok : bool then reg_put A id (Some ivs) else A)
| reach_remove m A id m' :
    reaches m A -> A id <> None -> treap_remove m id = Ret m' -> reaches m' (reg_put A id None).

Lemma reaches_rep m A : reaches m A -> treap_rep m A.
Proof.
  induction 1 as [|m A id ivs m' ok _ IH HA He|m A id m' _ IH HA He]; [apply treap_new_rep| |].
  - destruct (treap_insert_rep m A id ivs IH HA) as (m2 & ok2 & He2 & Hr). rewrite He in He2. by injection He2 as <- <-.
  - destruct (treap_remove_rep m A id IH HA) as (m2 & He2 & _ & Hr). rewrite He in He2. by injection He2 as <-.
Qed.

Lemma insert_one_ok m id iv :
  im_subscribers m !! id = None -> node_key_new (vacant_key (im_nodes m)) <> None -> forall m' ok,
  treap_insert rng_u32 m id [iv] = Ret (m', ok) -> ok = true.
Proof.
  intros Hn Hk m' ok. unfold treap_insert, rassert. rewrite bool_decide_true by done. cbn [obind insert_all im_rng].
  destruct (rng_u32 (im_rng m)) as [w r]. unfold insert_interval. cbn [im_nodes im_subscribers im_root].
  destruct (node_key_new (vacant_key (im_nodes m))) as [key|]; [|done]. rewrite lookup_insert_eq. cbn [expect obind].
  destruct (im_root m) as [root|]; [|by intros [= _ <-]]. destruct (insert_node _ _ _ _ _ _) as [[ns' root']| |]; cbn [obind]; [by intros [= _ <-]|done|done].
Qed.
End map.

(** ** A map with three subscribers *)

Module TreapExample.
Notation vec := (fun A : Type => list (option A)).

(** A linear congruential generator. *)
Definition lcg (x : Z) : Z * Z := (x, (x * 1103515245 + 12345) mod 2 ^ 31).

Definition iv (a b : Z) : Interval := MkInterval [a] (Excluded [b]).

Definition inserted_in (m : TreapMap (Sl := vec) (Rng := Z)) (id : Z) (ivs : list Interval) : TreapMap (Sl := vec) (Rng := Z) :=
  match treap_insert lcg m id ivs with Ret (m, _) => m | _ => m end.

Definition m1 : TreapMap (Sl := vec) (Rng := Z) := inserted_in (treap_new 42) 1 [iv 1 5; iv 7 9; iv 20 30].
Definition m2 : TreapMap (Sl := vec) (Rng := Z) := inserted_in m1 2 [iv 0 8; iv 3 4; iv 10 25].
Definition m3 : TreapMap (Sl := vec) (Rng := Z) := match treap_remove m2 1 with Ret m => m | _ => m2 end.

Definition registered3 : Registered :=
  reg_put (reg_put (reg_put (fun _ => None) 1 (Some [iv 1 5; iv 7 9; iv 20 30])) 2 (Some [iv 0 8; iv 3 4; iv 10 25])) 1 None.

Lemma reaches3 : reaches 42 lcg m3 registered3.
Proof.
  apply (reach_remove 42 lcg m2 _ 1 m3); [|discriminate|vm_compute; reflexivity].
  apply (reach_insert 42 lcg m1 _ 2 [iv 0 8; iv 3 4; iv 10 25] m2 true); [|reflexivity|vm_compute; reflexivity].
  apply (reach_insert 42 lcg (treap_new 42) _ 1 [iv 1 5; iv 7 9; iv 20 30] m1 true); [constructor|reflexivity|vm_compute; reflexivity].
Qed.
End TreapExample.

(** ** Theorems *)

(** C27: In every map a caller can build, a query finds exactly the subscribers
    that registered an interval containing the point: the annotations prune
    nothing that matters after any mix of insertions and removals, whatever
    the random weights were. *)
Theorem interval_query_exact {Sl} `{SlabLaws Sl} {Rng} (rng_new : Rng) (rng_u32 : Rng -> Z * Rng)
    (m : TreapMap (Sl := Sl) (Rng := Rng)) (A : Registered) (point : list Z) :
  reaches rng_new rng_u32 m A ->
  exists ids, treap_query m point = Ret ids /\
    forall id, id ∈ ids <-> exists ivs i, A id = Some ivs /\ i ∈ ivs /\ inside i point.
Proof. intros Hr%reaches_rep. by apply treap_query_rep. Qed.

Lemma interval_query_exact_witness :
  exists ids, treap_query TreapExample.m3 [7] = Ret ids /\ (2 ∈ ids <-> True) /\ (1 ∈ ids <-> False).
Proof.
  destruct (interval_query_exact 42 TreapExample.lcg TreapExample.m3 TreapExample.registered3 [7] TreapExample.reaches3) as (ids & He & Hids).
  exists ids. split; [exact He|]. split.
  - split; [intros _; exact I|]. intros _. apply Hids. exists [TreapExample.iv 0 8; TreapExample.iv 3 4; TreapExample.iv 10 25], (TreapExample.iv 0 8).
    split; [reflexivity|]. split; [left|reflexivity].
  - split; [|intros []]. intros Hin. apply Hids in Hin as (ivs & i & HA & _). discriminate HA.
Defined.

(** C28: The operations of the map terminate and never panic when they are used
    as intended: no index into the slab dangles, every loop over parent and
    child pointers and over a subscriber's list ends within the number of
    nodes, inserting a new subscriber returns (and succeeds for one interval
    unless node keys are exhausted), and removing a registered one returns. *)
Theorem interval_map_total {Sl} `{SlabLaws Sl} {Rng} (rng_new : Rng) (rng_u32 : Rng -> Z * Rng)
    (m : TreapMap (Sl := Sl) (Rng := Rng)) (A : Registered) (id : Z) :
  reaches rng_new rng_u32 m A ->
  (A id = None -> forall ivs, exists m' ok, treap_insert rng_u32 m id ivs = Ret (m', ok) /\
     (forall i, ivs = [i] -> node_key_new (vacant_key (im_nodes m)) <> None -> ok = true)) /\
  (A id <> None -> exists m', treap_remove m id = Ret m').
Proof.
  intros Hr%reaches_rep. split.
  - intros HA ivs. destruct (treap_insert_rep rng_u32 m A id ivs Hr HA) as (m' & ok & He & _). exists m', ok. split; [done|].
    intros i -> Hk. eapply insert_one_ok; [|done|done]. destruct Hr as (t & _ & _ & Hs). specialize (Hs id). rewrite HA in Hs.
    unfold sub_rep in Hs. by destruct (im_subscribers m !! id).
  - intros HA. destruct (treap_remove_rep m A id Hr HA) as (m' & He & _). by exists m'.
Qed.

Lemma interval_map_total_witness :
  (exists m' ok, treap_insert TreapExample.lcg TreapExample.m3 5 [TreapExample.iv 2 3] = Ret (m', ok) /\ ok = true) /\
  exists m', treap_remove TreapExample.m3 2 = Ret m'.
Proof.
  split.
  - destruct (proj1 (interval_map_total 42 TreapExample.lcg TreapExample.m3 _ 5 TreapExample.reaches3) eq_refl [TreapExample.iv 2 3])
      as (m' & ok & He & Hok). exists m', ok. split; [exact He|]. apply (Hok (TreapExample.iv 2 3) eq_refl). vm_compute. discriminate.
  - apply (proj2 (interval_map_total 42 TreapExample.lcg TreapExample.m3 _ 2 TreapExample.reaches3)). discriminate.
Defined.

(** In every map a caller can build the slab holds a treap: the nodes
    reachable from the root form a binary tree whose parent and child pointers
    agree, in ascending order of the interval starts, with the weight of each
    node minimal in its subtree, and each annotation pointing at a node of the
    subtree with the greatest upper bound. *)
Theorem treap_invariant {Sl} `{SlabLaws Sl} {Rng} (rng_new : Rng) (rng_u32 : Rng -> Z * Rng)
    (m : TreapMap (Sl := Sl) (Rng := Rng)) (A : Registered) :
  reaches rng_new rng_u32 m A -> exists t, im_root m = root_of t /\ treap_ok (im_nodes m) t.
Proof. intros (t & Hroot & Ht & _)%reaches_rep. by exists t. Qed.

Lemma treap_invariant_witness : exists t, im_root TreapExample.m3 = root_of t /\ heap t /\ root_of t <> None.
Proof.
  destruct (treap_invariant 42 TreapExample.lcg TreapExample.m3 TreapExample.registered3 TreapExample.reaches3) as (t & Hroot & Ht).
  exists t. split; [exact Hroot|]. split; [apply Ht|]. rewrite <- Hroot. vm_compute. discriminate.
Defined.
