(* ===== verification/Subscription.v ===== *)
(** * Subscription: the subscription manager
      (src/crates/database/src/subscription.rs)

    A subscription pairs a read set with a validity that the manager advances
    as it processes the write log, or clears when a commit overlaps the reads.
    The validity is shared between the client's [Subscription] and the
    manager's [SubscriptionSender] through an [Arc], and the sender's state
    reaches the client through a watch channel: both live in a [World] indexed
    by handles.  The interval map, the string map of the text subscriptions
    and the slab are interfaces. *)

From Stdlib Require Import Sorted.
From stdpp Require Import gmap.
From S2P Require Import Prelude Ord BTreeMap BinaryKey Bounds Interval IntervalSet Timestamp Identifier Value.
From S2P Require Import Sorting SortingDecode Base32 IdV6 Document IndexRegistry QueryReads Reads WriteLog Slab.
From S2P Require Import IntervalMap.

Local Open Scope Z_scope.

(** ** Validity *)

Record Validity := MkValidity { valid_ts : Z; invalid_ts : Z }.

(** [Validity::valid] and [Validity::invalid]. *)
Definition validity_valid (ts : Z) : Validity := {| valid_ts := Timestamp.to_i64 ts; invalid_ts := -1 |}.
Definition validity_invalid (ts : option Z) : Validity :=
  {| valid_ts := -1; invalid_ts := match ts with Some ts => Timestamp.to_i64 ts | None => -1 end |}.

(** [Validity::valid_ts] and [Validity::invalid_ts]: [-1] is none. *)
Definition load_ts {E} (v : Z) : outcome E (option Z) :=
  if v =? -1 then Ret None
  else match Timestamp.try_from_i64 v with Ret ts => Ret (Some ts) | _ => Panic end.
Definition load_valid_ts {E} (v : Validity) : outcome E (option Z) := load_ts (valid_ts v).
Definition load_invalid_ts {E} (v : Validity) : outcome E (option Z) := load_ts (invalid_ts v).

Inductive SubscriptionState := Valid | Invalid.

(** The cells that clients and managers share, by handle; [splayed] are the
    senders moved into a task that drops them after a delay. *)
Record World := MkWorld {
  validities : gmap Z Validity;
  states : gmap Z SubscriptionState;
  splayed : list Z;
}.

Definition set_valid_ts (w : World) (h : Z) (ts : Z) : World :=
  {| validities := alter (fun v => {| valid_ts := ts; invalid_ts := invalid_ts v |}) h (validities w);
     states := states w; splayed := splayed w |}.

Definition set_invalid_ts (w : World) (h : Z) (ts : Z) : World :=
  {| validities := alter (fun v => {| valid_ts := valid_ts v; invalid_ts := ts |}) h (validities w);
     states := states w; splayed := splayed w |}.

(** [Drop for SubscriptionSender]. *)
Definition sender_drop (w : World) (h : Z) : World :=
  let w := set_valid_ts w h (-1) in
  {| validities := validities w; states := <[h := Invalid]> (states w); splayed := splayed w |}.

(** [SubscriptionSender::drop_with_delay]: with a delay the sender moves into a task. *)
Definition drop_with_delay (w : World) (h : Z) (delay : bool) (invalid_ts : option Z) : World :=
  let w := match invalid_ts with Some ts => set_invalid_ts w h (Timestamp.to_i64 ts) | None => w end in
  let w := set_valid_ts w h (-1) in
  if delay then {| validities := validities w; states := states w; splayed := h :: splayed w |}
  else sender_drop w h.

(** The delayed task ends: its sender is dropped. *)
Definition splay_elapsed (w : World) (h : Z) : World :=
  let w := sender_drop w h in
  {| validities := validities w; states := states w; splayed := bfilter (fun x => negb (x =? h)) (splayed w) |}.

(** [Subscription::new] and [Subscription::invalid] allocate the shared cells. *)
Definition subscription_new (w : World) (h : Z) (ts : Z) : World :=
  {| validities := <[h := validity_valid ts]> (validities w); states := <[h := Valid]> (states w); splayed := splayed w |}.
Definition subscription_invalid (w : World) (h : Z) (ts : option Z) : World :=
  {| validities := <[h := validity_invalid ts]> (validities w); states := <[h := Invalid]> (states w); splayed := splayed w |}.

(** [Subscription::current_ts] and [Subscription::invalid_ts]. *)
Definition current_ts {E} (w : World) (h : Z) : outcome E (option Z) :=
  match validities w !! h with Some v => load_valid_ts v | None => Panic end.
Definition subscription_invalid_ts {E} (w : World) (h : Z) : outcome E (option Z) :=
  match validities w !! h with Some v => load_invalid_ts v | None => Panic end.

(** ** Retention across managers *)

Section retention_coordinator.
Context (heap_size : list LogEntry -> Z) (min_retention max_retention soft_max_size : Z).

Record RetentionCoordinator := MkCoordinator { processed_timestamps : list Z; owned_log : WriteLogManager }.

Definition coordinator_new (num_managers : nat) (initial_ts : Z) (log : WriteLogManager) : RetentionCoordinator :=
  {| processed_timestamps := replicate num_managers initial_ts; owned_log := log |}.

Definition list_min (l : list Z) : option Z :=
  match l with [] => None | x :: l => Some (fold_left Z.min l x) end.

Inductive subscription_error := SubLogError (e : log_error) | NoManager.

Definition lift_log {A} (m : outcome log_error A) : outcome subscription_error A :=
  match m with Ret a => Ret a | Err e => Err (SubLogError e) | Panic => Panic end.

Definition update_and_enforce_retention (self : RetentionCoordinator) (manager_id : nat) (processed_ts : Z)
    : outcome subscription_error RetentionCoordinator :=
  let? _ := expect (processed_timestamps self !! manager_id) in
  let timestamps := <[manager_id := processed_ts]> (processed_timestamps self) in
  let? min_ts := ok_or (list_min timestamps) NoManager in
  Ret {| processed_timestamps := timestamps;
         owned_log :=
           if min_ts =? processed_ts then
             enforce_retention_policy heap_size min_retention max_retention soft_max_size (owned_log self) min_ts
           else owned_log self |}.

Lemma list_min_spec l : l <> [] -> exists m, list_min l = Some m /\ m ∈ l /\ forall x, x ∈ l -> m <= x.
Proof.
  destruct l as [|x l]; [done|]. intros _. cbn [list_min]. revert x. induction l as [|y l IH]; intros x; cbn [fold_left].
  - exists x. split_and!; [done|left|]. intros z ->%list_elem_of_singleton. lia.
  - destruct (IH (Z.min x y)) as (m & Hm & Hin & Hle). exists m. split_and!; [done| |].
    + apply elem_of_cons in Hin as [Hin|Hin]; [|by do 2 right]. destruct (Z.min_spec x y) as [[_ He]|[_ He]]; rewrite Hin, He; [left|right; left].
    + specialize (Hle (Z.min x y) ltac:(left)) as Hmin. intros z [->|[->|Hz]%elem_of_cons]%elem_of_cons; [lia|lia|].
      apply Hle. by right.
Qed.

(** The log is trimmed below the minimum of the timestamps all managers processed. *)
Lemma update_and_enforce_retention_ok self i ts :
  (i < length (processed_timestamps self))%nat -> log_ok (log (owned_log self)) ->
  (forall t, t ∈ <[i := ts]> (processed_timestamps self) -> 0 <= t /\ purged_ts (log (owned_log self)) <= t) ->
  exists self' dropped, update_and_enforce_retention self i ts = Ret self' /\
    processed_timestamps self' = <[i := ts]> (processed_timestamps self) /\
    log_ok (log (owned_log self')) /\ waiters (owned_log self') = waiters (owned_log self) /\
    by_ts (log (owned_log self)) = dropped ++ by_ts (log (owned_log self')) /\
    (forall e, e ∈ dropped -> entry_ts e <= purged_ts (log (owned_log self'))) /\
    purged_ts (log (owned_log self)) <= purged_ts (log (owned_log self')) /\
    max_ts (log (owned_log self')) = max_ts (log (owned_log self)) /\
    (forall t, t ∈ processed_timestamps self' -> purged_ts (log (owned_log self')) <= t).
Proof.
  intros Hi Hlog Hp. unfold update_and_enforce_retention. destruct (lookup_lt_is_Some_2 _ _ Hi) as [t0 ->]. cbn [expect obind].
  destruct (list_min_spec (<[i := ts]> (processed_timestamps self))) as (m & -> & Hm & Hmin).
  { intros Hnil. apply (f_equal length) in Hnil. rewrite length_insert in Hnil. cbn in Hnil. lia. }
  cbn [ok_or obind]. destruct (Z.eqb_spec m ts) as [->|].
  2:{ eexists _, []. split; [done|]. cbn [processed_timestamps owned_log]. split_and!; try done; [by intros ? ?%elem_of_nil|].
      intros t Ht. by apply Hp. }
  destruct (trim_spec heap_size soft_max_size (sub_or_min ts min_retention) (sub_or_min ts max_retention)
    (by_ts (log (owned_log self))) (purged_ts (log (owned_log self))) Hlog) as (dropped & Hl & Hok & Hpu & Hd & _).
  eexists _, dropped. split; [done|]. cbn [processed_timestamps owned_log log enforce_retention_policy waiters].
  split_and!; try done.
  - intros e He. rewrite Hpu. pose proof Hlog as Ha. unfold log_ok in Ha. rewrite Hl in Ha. apply ascending_app in Ha as [Ha _].
    exact (max_ts_ge (MkLog dropped (purged_ts (log (owned_log self)))) e Ha He).
  - rewrite Hpu. pose proof Hlog as Ha. unfold log_ok in Ha. rewrite Hl in Ha. apply ascending_app in Ha as [Ha _].
    exact (purged_le_max (MkLog dropped (purged_ts (log (owned_log self)))) Ha).
  - unfold max_ts. set (tr := trim _ _ _ _ _ _) in *. rewrite Hpu. clearbody tr. rewrite Hl, last_app. by destruct (last (by_ts tr)).
  - intros t Ht. rewrite Hpu. specialize (Hmin t Ht). destruct (last dropped) as [e|] eqn:Hlast; [|by apply Hp].
    apply last_Some in Hlast as [k ->]. specialize (Hd e ltac:(apply elem_of_app; right; left)). specialize (Hp ts Hm).
    unfold sub_or_min, Timestamp.sub, Timestamp.MIN, as_nanos_u64 in Hd.
    pose proof (Z.mod_pos_bound min_retention (2 ^ 64) ltac:(lia)). destruct (ts <=? min_retention mod 2 ^ 64); lia.
Qed.
End retention_coordinator.

(** ** The manager *)

Section manager.
Context {M : Type -> Type} `{StringMapLaws M} {Trace : Type}.
Context {IM : Type} `{IntervalMapLaws IM} {Sl : Type -> Type} `{SlabLaws Sl}.
Context (heap_size : list LogEntry -> Z) (min_retention max_retention soft_max_size : Z).
(** [SUBSCRIPTION_INVALIDATION_DELAY_THRESHOLD]. *)
Context (delay_threshold : Z).
Notation Reads := (ReadSet (M := M) (Trace := Trace)).
Notation SubToken := (Token (M := M) (Trace := Trace)).

Record SubscriptionMap := MkSubMap {
  sub_indexed : BTreeMap.t (list Z * list Z) (list FieldPath * IM);
  sub_search : TextSearchSubscriptions (M := M);
}.

Definition sub_map_new : SubscriptionMap := {| sub_indexed := []; sub_search := text_subs_new |}.

(** One round of the first loop of [SubscriptionMap::insert]. *)
Definition sub_insert_index {E} (id : Z) (m : BTreeMap.t (list Z * list Z) (list FieldPath * IM))
    (e : (list Z * list Z) * IndexReads (Trace := Trace)) : outcome E (BTreeMap.t (list Z * list Z) (list FieldPath * IM)) :=
  let '(fs, interval_map) := default (fields e.2, im_new) (BTreeMap.get e.1 m) in
  let? (interval_map, ok) := im_insert interval_map id (IntervalSet.iter (intervals e.2)) in
  let? _ := rassert ok in
  Ret (BTreeMap.insert e.1 (fs, interval_map) m).

Definition sub_map_insert {E} (self : SubscriptionMap) (id : Z) (reads : Reads) : outcome E SubscriptionMap :=
  let? m := foldM (sub_insert_index id) (sub_indexed self) (indexed reads) in
  Ret {| sub_indexed := m;
         sub_search := fold_left (fun s e => text_subs_insert s id e.1 e.2) (search reads) (sub_search self) |}.

Definition sub_remove_index {E} (id : Z) (m : BTreeMap.t (list Z * list Z) (list FieldPath * IM))
    (e : (list Z * list Z) * IndexReads (Trace := Trace)) : outcome E (BTreeMap.t (list Z * list Z) (list FieldPath * IM)) :=
  let? (fs, range_map) := expect (BTreeMap.get e.1 m) in
  let? range_map := im_remove range_map id in
  Ret (if im_is_empty range_map then BTreeMap.remove e.1 m else BTreeMap.insert e.1 (fs, range_map) m).

Definition sub_map_remove {E} (self : SubscriptionMap) (id : Z) (reads : Reads) : outcome E SubscriptionMap :=
  let? m := foldM (sub_remove_index id) (sub_indexed self) (indexed reads) in
  let? s := foldM (fun s e => text_subs_remove s id e.1 e.2) (sub_search self) (search reads) in
  Ret {| sub_indexed := m; sub_search := s |}.

Record Subscriber := MkSubscriber { sub_reads : Reads; sub_sender : Z; sub_seq : Z }.
Record SubscriptionKey := MkSubKey { key_id : Z; key_seq : Z }.

#[global] Instance SubscriptionKey_eq_dec : EqDecision SubscriptionKey.
Proof. solve_decision. Defined.

Record SubscriptionManager := MkSubManager {
  manager_id : nat;
  subscribers : Sl Subscriber;
  subscriptions : SubscriptionMap;
  next_seq : Z;
  closed_subscriptions : list SubscriptionKey;
  processed_ts : Z;
}.

Definition sub_manager_new (id : nat) (initial_ts : Z) : SubscriptionManager :=
  {| manager_id := id; subscribers := slab_new; subscriptions := sub_map_new; next_seq := 0;
     closed_subscriptions := []; processed_ts := initial_ts |}.

(** [usize::MAX], returned when the token cannot be refreshed. *)
Definition usize_max : Z := 2 ^ 64 - 1.

(** The end of [SubscriptionManager::subscribe], once the token is refreshed. *)
Definition register_token {E} (self : SubscriptionManager) (token : SubToken) (sender : Z) : outcome E (SubscriptionManager * Z) :=
  let? _ := rassert (processed_ts self <=? token_ts token) in
  let subscriber_id := vacant_key (subscribers self) in
  let? subs := sub_map_insert (subscriptions self) subscriber_id (token_reads token) in
  let seq := next_seq self in
  Ret ({| manager_id := manager_id self;
          subscribers := slab_insert {| sub_reads := token_reads token; sub_sender := sender; sub_seq := seq |} (subscribers self);
          subscriptions := subs; next_seq := seq + 1;
          closed_subscriptions := {| key_id := subscriber_id; key_seq := seq |} :: closed_subscriptions self;
          processed_ts := processed_ts self |}, subscriber_id).

(** [SubscriptionManager::subscribe].  The sender is moved in: when it does not
    end in the slab it is dropped, also when the call returns an error. *)
Definition subscribe (self : SubscriptionManager) (log : WriteLog) (w : World) (token : SubToken) (sender : Z)
    : outcome False (SubscriptionManager * World * (log_error + Z)) :=
  let refreshed :=
    if token_ts token <? processed_ts self then reader_refresh_token log token (processed_ts self)
    else Ret (inl token) in
  match refreshed with
  | Panic => Panic
  | Err e => Ret (self, sender_drop w sender, inl e)
  | Ret (inr invalid_ts) =>
      let w := match invalid_ts with Some ts => set_invalid_ts w sender (Timestamp.to_i64 ts) | None => w end in
      Ret (self, sender_drop w sender, inr usize_max)
  | Ret (inl token) => let? (self, id) := register_token self token sender in Ret (self, w, inr id)
  end.

(** [overlapping]: the subscribers [notify] is called with, in order. *)
Definition overlapping {E} (self : SubscriptionManager) (document_id : ResolvedDocumentId) (keys : DocumentIndexKeys)
    : outcome E (list Z) :=
  let? found := foldM (fun acc (e : (list Z * list Z) * (list FieldPath * IM)) =>
    if bool_decide (e.1.1 = tablet_id document_id) then
      match BTreeMap.get e.1 keys with
      | Some (Standard index_key) => let? ids := im_query e.2.2 index_key in Ret (acc ++ ids)
      | _ => Ret acc
      end
    else Ret acc) [] (sub_indexed (subscriptions self)) in
  Ret (found ++ add_matches (sub_search (subscriptions self)) document_id keys).

(** [to_notify.entry(subscriber_id).or_insert(write_ts)] for each of [ids]. *)
Definition notify_all (write_ts : Z) (to_notify : BTreeMap.t Z Z) (ids : list Z) : BTreeMap.t Z Z :=
  fold_left (fun m id => match BTreeMap.get id m with Some _ => m | None => BTreeMap.insert id write_ts m end) ids to_notify.

Definition overlapping_opt {E} (self : SubscriptionManager) (document_id : ResolvedDocumentId)
    (keys : option DocumentIndexKeys) : outcome E (list Z) :=
  match keys with Some keys => overlapping self document_id keys | None => Ret [] end.

(** The closure that [advance_log] passes to [for_each]. *)
Definition process_commit {E} (self : SubscriptionManager) (to_notify : BTreeMap.t Z Z) (e : Z * OrderedIndexKeyWrites)
    : outcome E (BTreeMap.t Z Z) :=
  foldM (fun to_notify (w : ResolvedDocumentId * DocumentIndexKeysUpdate * option (option PackedDocument)) =>
    let? old := overlapping_opt self w.1.1 (old_document_keys w.1.2) in
    let to_notify := notify_all e.1 to_notify old in
    let? new := overlapping_opt self w.1.1 (new_document_keys w.1.2) in
    Ret (notify_all e.1 to_notify new)) to_notify e.2.

(** [_remove]. *)
Definition remove_subscriber {E} (self : SubscriptionManager) (w : World) (id : Z) (delay : bool) (invalid_ts : option Z)
    : outcome E (SubscriptionManager * World) :=
  let? entry := expect (slab_get id (subscribers self)) in
  let? subs := sub_map_remove (subscriptions self) id (sub_reads entry) in
  Ret ({| manager_id := manager_id self; subscribers := slab_remove id (subscribers self); subscriptions := subs;
          next_seq := next_seq self; closed_subscriptions := closed_subscriptions self;
          processed_ts := processed_ts self |},
       drop_with_delay w (sub_sender entry) delay invalid_ts).

Definition get_subscriber {E} (self : SubscriptionManager) (key : SubscriptionKey) : outcome E (option Subscriber) :=
  match slab_get (key_id key) (subscribers self) with
  | None => Ret None
  | Some entry =>
      if key_seq key <? sub_seq entry then Ret None
      else let? _ := rassert (sub_seq entry =? key_seq key) in Ret (Some entry)
  end.

(** [remove]. *)
Definition remove_key {E} (self : SubscriptionManager) (w : World) (key : SubscriptionKey)
    : outcome E (SubscriptionManager * World) :=
  let? entry := get_subscriber self key in
  match entry with
  | None => Ret (self, w)
  | Some _ => remove_subscriber self w (key_id key) false None
  end.

(** [closed_subscriptions.select_next_some()] takes the key out. *)
Definition take_closed (self : SubscriptionManager) (key : SubscriptionKey) : SubscriptionManager :=
  {| manager_id := manager_id self; subscribers := subscribers self; subscriptions := subscriptions self;
     next_seq := next_seq self;
     closed_subscriptions := bfilter (fun k => negb (bool_decide (k = key))) (closed_subscriptions self);
     processed_ts := processed_ts self |}.

Definition with_processed (self : SubscriptionManager) (ts : Z) : SubscriptionManager :=
  {| manager_id := manager_id self; subscribers := subscribers self; subscriptions := subscriptions self;
     next_seq := next_seq self; closed_subscriptions := closed_subscriptions self; processed_ts := ts |}.

(** The pass that advances the subscriptions not to be notified. *)
Definition advance_valid (self : SubscriptionManager) (to_notify : BTreeMap.t Z Z) (next_ts : Z) (w : World) : World :=
  fold_left (fun w (e : Z * Subscriber) =>
    match BTreeMap.get e.1 to_notify with
    | Some _ => w
    | None => set_valid_ts w (sub_sender e.2) (Timestamp.to_i64 next_ts)
    end) (slab_entries (subscribers self)) w.

(** [advance_log]. *)
Definition advance_log (self : SubscriptionManager) (coordinator : RetentionCoordinator) (w : World) (next_ts : Z)
    : outcome subscription_error (SubscriptionManager * RetentionCoordinator * World) :=
  let? from_ts := lift_log (lift_ts (Timestamp.succ (processed_ts self))) in
  let? commits := lift_log (for_each (log (owned_log coordinator)) from_ts next_ts) in
  let? to_notify := foldM (process_commit self) [] commits in
  let w := advance_valid self to_notify next_ts w in
  let should_splay := delay_threshold <? Z.of_nat (length to_notify) in
  let? (self, w) := foldM (fun '(self, w) (e : Z * Z) => remove_subscriber self w e.1 should_splay (Some e.2))
                      (self, w) to_notify in
  let? _ := rassert (processed_ts self <=? next_ts) in
  let self := with_processed self next_ts in
  let? coordinator :=
    update_and_enforce_retention heap_size min_retention max_retention soft_max_size coordinator (manager_id self) next_ts in
  Ret (self, coordinator, w).
(** ** What the maps stand for *)

(** The reads that a manager watches: all the intervals, and the searches that
    have a filter or a term. [TextSearchSubscriptions] keeps a subscriber under
    the filters and terms of its searches, so a search with neither is never
    found by a write. *)
Definition is_watched (q : QueryReads M) : bool :=
  match filter_conditions q, text_queries q with [], [] => false | _, _ => true end.
Definition watched (r : Reads) : Reads := {| indexed := indexed r; search := bfilter (fun e => is_watched e.2) (search r) |}.

Lemma get_watched r n q : BTreeMap.wf (search r) ->
  BTreeMap.get n (search (watched r)) = Some q <-> BTreeMap.get n (search r) = Some q /\ (filter_conditions q <> [] \/ text_queries q <> []).
Proof.
  intros Hwf. cbn [watched search]. rewrite !BTreeMap.elem_of_get by (done || by apply BTreeMap.wf_bfilter).
  rewrite elem_of_bfilter. cbn [snd]. unfold is_watched. destruct (filter_conditions q), (text_queries q); naive_solver.
Qed.

Lemma watched_ok r : read_set_ok r -> read_set_ok (watched r).
Proof.
  intros [Hi Hs Hiv Hse]. constructor; [done|by apply BTreeMap.wf_bfilter|done|]. intros n q [Hg _]%get_watched; [|done]. by apply Hse.
Qed.

Lemma overlap_keys_watched r i keys : read_set_ok r -> overlap_keys (watched r) i keys <> None -> overlap_keys r i keys <> None.
Proof.
  intros Hr. destruct keys as [keys|]; [|done]. cbn [overlap_keys].
  rewrite !overlaps_index_keys_spec by (done || by apply watched_ok).
  intros [Hk|(n & q & v & Ht & Hk & Hg & Ho)]; [by left|right]. apply get_watched in Hg as [Hg _]; [|apply Hr]. by exists n, q, v.
Qed.

Lemma watched_conflicts r e : read_set_ok r -> entry_conflicts (watched r) e -> entry_conflicts r e.
Proof.
  intros Hr (w & Hw & Hc). exists w. split; [done|]. destruct Hc as [Hc|Hc]; [left|right]; by apply overlap_keys_watched.
Qed.

Definition index_reads (R : Z -> option Reads) (n : list Z * list Z) : Registered :=
  fun id => match R id with
            | Some r => option_map (fun reads => IntervalSet.iter (intervals reads)) (BTreeMap.get n (indexed r))
            | None => None
            end.

Definition search_reads (R : Z -> option Reads) : Subs (M := M) :=
  fun n id => match R id with Some r => BTreeMap.get n (search r) | None => None end.

(** The interval maps hold exactly the intervals [F]; no map is empty. *)
Record index_maps_ok (m : BTreeMap.t (list Z * list Z) (list FieldPath * IM)) (F : (list Z * list Z) -> Registered) : Prop := {
  ix_wf : BTreeMap.wf m;
  ix_rep : forall n fs im, BTreeMap.get n m = Some (fs, im) -> im_rep im (F n) /\ exists id, F n id <> None;
  ix_none : forall n, BTreeMap.get n m = None -> forall id, F n id = None;
}.

Lemma index_maps_ext m F F' : (forall n id, F n id = F' n id) -> index_maps_ok m F -> index_maps_ok m F'.
Proof.
  intros Heq [Hwf Hrep Hnone]. constructor; [done| |].
  - intros n fs im Hg. destruct (Hrep n fs im Hg) as [Hr (id & Hid)]. split; [|exists id; by rewrite <- Heq].
    by setoid_rewrite <- (Heq n : pointwise_relation Z eq _ _).
  - intros n Hg id. rewrite <- Heq. by apply Hnone.
Qed.

Definition maps_put (F : (list Z * list Z) -> Registered) (n : list Z * list Z) (id : Z) (o : option (list Interval))
    : (list Z * list Z) -> Registered :=
  fun n' => if decide (n' = n) then reg_put (F n') id o else F n'.

Lemma sub_insert_index_ok id m F n (reads : IndexReads (Trace := Trace)) :
  index_maps_ok m F -> F n id = None ->
  (exists m', (forall E, sub_insert_index (E := E) id m (n, reads) = Ret m') /\
     index_maps_ok m' (maps_put F n id (Some (IntervalSet.iter (intervals reads))))) \/
  (forall E, sub_insert_index (E := E) id m (n, reads) = Panic).
Proof.
  intros [Hwf Hrep Hnone] Hid. unfold sub_insert_index. cbn [fst snd].
  assert (Him : exists fs im, default (fields reads, im_new) (BTreeMap.get n m) = (fs, im) /\ im_rep im (F n)).
  { destruct (BTreeMap.get n m) as [[fs im]|] eqn:Hg.
    - exists fs, im. split; [done|]. by apply (Hrep n fs im).
    - exists (fields reads), im_new. split; [done|].
      rewrite (Hnone n Hg : pointwise_relation Z eq (F n) (fun _ => None)). apply im_new_rep. }
  destruct Him as (fs & im & -> & Hrep'). destruct (im_insert_rep im (F n) id (IntervalSet.iter (intervals reads)) Hrep' Hid)
    as (im' & [] & Hins & Hr'); [left|right; intros E; by rewrite Hins].
  eexists. split; [intros E; rewrite Hins; reflexivity|]. constructor; [by apply BTreeMap.wf_insert| |].
  - intros n' fs' im2. rewrite BTreeMap.get_insert_if by done. unfold maps_put.
    destruct (decide (n' = n)) as [->|]; [|apply Hrep]. intros [= <- <-]. split; [done|]. exists id. unfold reg_put.
    by rewrite decide_True.
  - intros n'. rewrite BTreeMap.get_insert_if by done. unfold maps_put. destruct (decide (n' = n)); [done|apply Hnone].
Qed.

Lemma sub_remove_index_ok id m F n (reads : IndexReads (Trace := Trace)) :
  index_maps_ok m F -> F n id <> None ->
  exists m', (forall E, sub_remove_index (E := E) id m (n, reads) = Ret m') /\ index_maps_ok m' (maps_put F n id None).
Proof.
  intros [Hwf Hrep Hnone] Hid. unfold sub_remove_index. cbn [fst snd].
  destruct (BTreeMap.get n m) as [[fs im]|] eqn:Hg; [|exfalso; apply Hid; by apply Hnone].
  destruct (Hrep n fs im Hg) as [Hr _]. destruct (im_remove_rep im (F n) id Hr Hid) as (im' & Hrem & Hr').
  eexists. split; [intros E; cbn [expect obind]; rewrite Hrem; reflexivity|].
  pose proof (im_is_empty_rep im' _ Hr') as Hall. destruct (im_is_empty im').
  - constructor; [by apply BTreeMap.wf_remove| |].
    + intros n' fs' im2 Hg'. unfold maps_put. destruct (decide (n' = n)) as [->|Hne].
      * by rewrite BTreeMap.get_remove_eq in Hg'.
      * rewrite BTreeMap.get_remove_ne in Hg' by done. by apply (Hrep n' fs').
    + intros n' Hg'. unfold maps_put. destruct (decide (n' = n)) as [->|Hne]; [apply Hall|].
      rewrite BTreeMap.get_remove_ne in Hg' by done. by apply Hnone.
  - constructor; [by apply BTreeMap.wf_insert| |].
    + intros n' fs' im2. rewrite BTreeMap.get_insert_if by done. unfold maps_put.
      destruct (decide (n' = n)) as [->|]; [|apply Hrep]. intros [= <- <-]. split; [done|].
      done.
    + intros n'. rewrite BTreeMap.get_insert_if by done. unfold maps_put. destruct (decide (n' = n)); [done|apply Hnone].
Qed.

(** The effect of a loop over the indexed reads of [id]. *)
Definition update_reads (g : IndexReads (Trace := Trace) -> option (list Interval)) (F : (list Z * list Z) -> Registered)
    (id : Z) (l : BTreeMap.t (list Z * list Z) (IndexReads (Trace := Trace))) : (list Z * list Z) -> Registered :=
  fun n id' => if decide (id' = id) then match BTreeMap.get n l with Some r => g r | None => F n id' end else F n id'.

Lemma update_reads_cons g F id n r l n' id' :
  BTreeMap.wf ((n, r) :: l) ->
  update_reads g (maps_put F n id (g r)) id l n' id' = update_reads g F id ((n, r) :: l) n' id'.
Proof.
  intros [Hlt Hwf]. unfold update_reads, maps_put, reg_put. cbn [BTreeMap.get].
  destruct (decide (id' = id)) as [->|Hid]; [|destruct (decide (n' = n)); [by rewrite decide_False|done]].
  destruct (n' ==? n)%ord eqn:He.
  - apply eqb_eq in He as ->. rewrite !decide_True by done. destruct (BTreeMap.get n l) as [r'|] eqn:Hg; [|done].
    apply BTreeMap.elem_of_get in Hg; [|done]. apply Hlt in Hg. by apply olt_irrefl in Hg.
  - apply eqb_neq in He. by rewrite (decide_False (P := n' = n)).
Qed.

Lemma update_reads_later g F id n r l (e : (list Z * list Z) * IndexReads (Trace := Trace)) :
  BTreeMap.wf ((n, r) :: l) -> e ∈ l -> maps_put F n id (g r) e.1 id = F e.1 id.
Proof.
  intros [Hlt _] He. unfold maps_put. rewrite decide_False; [done|]. intros Heq. apply Hlt in He.
  rewrite Heq in He. by apply olt_irrefl in He.
Qed.

Lemma sub_insert_indexes_ok id l : forall m F,
  BTreeMap.wf l -> (forall e, e ∈ l -> F e.1 id = None) -> index_maps_ok m F ->
  (exists m', (forall E, foldM (sub_insert_index (E := E) id) m l = Ret m') /\
     index_maps_ok m' (update_reads (fun r => Some (IntervalSet.iter (intervals r))) F id l)) \/
  (forall E, foldM (sub_insert_index (E := E) id) m l = Panic).
Proof.
  induction l as [|[n r] l IH]; intros m F Hwf Hnone Hm.
  { left. exists m. split; [done|]. revert Hm. apply index_maps_ext. intros n id'. unfold update_reads. by destruct (decide _). }
  destruct (sub_insert_index_ok id m F n r Hm (Hnone _ ltac:(left))) as [(m' & Hs & Hm')|Hp];
    [|right; intros E; cbn [foldM]; by rewrite Hp].
  set (g := fun r : IndexReads (Trace := Trace) => Some (IntervalSet.iter (intervals r))) in *.
  assert (Hlater : forall e, e ∈ l -> maps_put F n id (g r) e.1 id = None).
  { intros e He. rewrite (update_reads_later g F id n r l e Hwf He). apply Hnone. by right. }
  destruct (IH m' _ (proj2 Hwf) Hlater Hm') as [(m2 & Hs2 & Hm2)|Hp].
  - left. exists m2. split; [intros E; cbn [foldM]; rewrite Hs; apply Hs2|]. revert Hm2. apply index_maps_ext.
    intros n' id'. by apply (update_reads_cons g).
  - right. intros E. cbn [foldM]. rewrite Hs. apply Hp.
Qed.

Lemma sub_remove_indexes_ok id l : forall m F,
  BTreeMap.wf l -> (forall e, e ∈ l -> F e.1 id <> None) -> index_maps_ok m F ->
  exists m', (forall E, foldM (sub_remove_index (E := E) id) m l = Ret m') /\
    index_maps_ok m' (update_reads (fun _ => None) F id l).
Proof.
  induction l as [|[n r] l IH]; intros m F Hwf Hsome Hm.
  { exists m. split; [done|]. revert Hm. apply index_maps_ext. intros n id'. unfold update_reads. by destruct (decide _). }
  destruct (sub_remove_index_ok id m F n r Hm (Hsome _ ltac:(left))) as (m' & Hs & Hm').
  assert (Hlater : forall e, e ∈ l -> maps_put F n id None e.1 id <> None).
  { intros e He. rewrite (update_reads_later (fun _ => None) F id n r l e Hwf He). apply Hsome. by right. }
  destruct (IH m' _ (proj2 Hwf) Hlater Hm') as (m2 & Hs2 & Hm2).
  exists m2. split; [intros E; cbn [foldM]; rewrite Hs; apply Hs2|]. revert Hm2. apply index_maps_ext.
  intros n' id'. by apply (update_reads_cons (fun _ => None)).
Qed.

(** The same for the text searches. *)
Definition update_searches (g : QueryReads M -> option (QueryReads M)) (A : Subs (M := M)) (id : Z)
    (l : BTreeMap.t (list Z * list Z) (QueryReads M)) : Subs (M := M) :=
  fun n id' => if decide (id' = id) then match BTreeMap.get n l with Some q => g q | None => A n id' end else A n id'.

Lemma update_searches_cons g A id n q l n' id' :
  BTreeMap.wf ((n, q) :: l) ->
  update_searches g (subs_put (M := M) A n id (g q)) id l n' id' = update_searches g A id ((n, q) :: l) n' id'.
Proof.
  intros [Hlt Hwf]. unfold update_searches, subs_put. cbn [BTreeMap.get].
  destruct (decide (id' = id)) as [->|]; [|rewrite (decide_False (P := n' = n /\ id' = id)) by naive_solver; done].
  destruct (n' ==? n)%ord eqn:He.
  - apply eqb_eq in He as ->. rewrite (decide_True (P := n = n /\ id = id)) by done.
    destruct (BTreeMap.get n l) as [q'|] eqn:Hg; [|done].
    apply BTreeMap.elem_of_get in Hg; [|done]. apply Hlt in Hg. by apply olt_irrefl in Hg.
  - apply eqb_neq in He. by rewrite (decide_False (P := n' = n /\ id = id)) by naive_solver.
Qed.

Lemma update_searches_later g A id n q l (e : (list Z * list Z) * QueryReads M) :
  BTreeMap.wf ((n, q) :: l) -> e ∈ l -> subs_put (M := M) A n id (g q) e.1 id = A e.1 id.
Proof.
  intros [Hlt _] He. unfold subs_put. rewrite decide_False; [done|]. intros [Heq _]. apply Hlt in He.
  rewrite Heq in He. by apply olt_irrefl in He.
Qed.

Lemma insert_searches_ok id l : forall S A,
  BTreeMap.wf l -> (forall e, e ∈ l -> A e.1 id = None) -> subs_ok S A ->
  subs_ok (fold_left (fun s e => text_subs_insert s id e.1 e.2) l S) (update_searches Some A id l).
Proof.
  induction l as [|[n q] l IH]; intros S A Hwf Hnone HS; cbn [fold_left].
  { revert HS. apply subs_ok_ext. intros. unfold update_searches. by destruct (decide _). }
  eapply subs_ok_ext; [intros; by apply (update_searches_cons Some)|]. apply IH; [apply Hwf| |].
  - intros e He. rewrite (update_searches_later Some A id n q l e Hwf He). apply Hnone. by right.
  - apply subs_insert_ok; [done|]. apply (Hnone (n, q)). left.
Qed.

Lemma remove_searches_ok id l : forall S A,
  BTreeMap.wf l -> (forall e, e ∈ l -> A e.1 id = Some e.2) -> subs_ok S A ->
  exists S', (forall E, foldM (E := E) (fun s e => text_subs_remove s id e.1 e.2) S l = Ret S') /\
    subs_ok S' (update_searches (fun _ => None) A id l).
Proof.
  induction l as [|[n q] l IH]; intros S A Hwf Hsome HS.
  { exists S. split; [done|]. revert HS. apply subs_ok_ext. intros. unfold update_searches. by destruct (decide _). }
  destruct (subs_remove_ok S A id n q HS (Hsome (n, q) ltac:(left))) as (S1 & Hs1 & HS1).
  assert (Hlater : forall e, e ∈ l -> subs_put (M := M) A n id None e.1 id = Some e.2).
  { intros e He. rewrite (update_searches_later (fun _ => None) A id n q l e Hwf He). apply Hsome. by right. }
  destruct (IH S1 _ (proj2 Hwf) Hlater HS1) as (S2 & Hs2 & HS2).
  exists S2. split; [intros E; cbn [foldM fst snd]; rewrite Hs1; apply Hs2|].
  eapply subs_ok_ext; [intros; by apply (update_searches_cons (fun _ => None))|done].
Qed.

(** ** The manager's invariant *)

Definition reads_of (self : SubscriptionManager) : Z -> option Reads :=
  fun id => option_map sub_reads (slab_get id (subscribers self)).

(** The two maps hold the reads of exactly the subscribers in the slab; a key
    waiting for its client to go away never names a later subscriber. *)
Record manager_ok (self : SubscriptionManager) : Prop := {
  mg_index : index_maps_ok (sub_indexed (subscriptions self)) (index_reads (reads_of self));
  mg_search : subs_ok (sub_search (subscriptions self)) (search_reads (reads_of self));
  mg_reads : forall id s, slab_get id (subscribers self) = Some s -> read_set_ok (sub_reads s);
  mg_closed : forall k s, k ∈ closed_subscriptions self -> slab_get (key_id k) (subscribers self) = Some s -> key_seq k <= sub_seq s;
  mg_keys : forall k, k ∈ closed_subscriptions self -> key_seq k < next_seq self;
}.

Lemma manager_new_ok id ts : manager_ok (sub_manager_new id ts).
Proof.
  assert (Hnone : forall id', reads_of (sub_manager_new id ts) id' = None).
  { intros id'. unfold reads_of. cbn [subscribers sub_manager_new]. by rewrite slab_get_new. }
  constructor.
  - constructor; [done|done|]. intros n _ id'. unfold index_reads. by rewrite Hnone.
  - eapply subs_ok_ext; [|apply subs_ok_new]. intros n id'. unfold search_reads. by rewrite Hnone.
  - intros id' s. cbn [subscribers sub_manager_new]. by rewrite slab_get_new.
  - by intros k s ?%elem_of_nil.
  - by intros k ?%elem_of_nil.
Qed.

Lemma remove_subscriber_ok self w id s delay its :
  manager_ok self -> slab_get id (subscribers self) = Some s ->
  exists self', (forall E, remove_subscriber (E := E) self w id delay its = Ret (self', drop_with_delay w (sub_sender s) delay its)) /\
    manager_ok self' /\ manager_id self' = manager_id self /\ processed_ts self' = processed_ts self /\
    next_seq self' = next_seq self /\ closed_subscriptions self' = closed_subscriptions self /\
    forall id', slab_get id' (subscribers self') = if decide (id' = id) then None else slab_get id' (subscribers self).
Proof.
  intros [Hix Hse Hre Hcl Hk] Hs. destruct (Hre id s Hs) as [Hwi Hws _ _].
  assert (Hrd : reads_of self id = Some (sub_reads s)) by (unfold reads_of; by rewrite Hs).
  assert (Hpi : forall e, e ∈ indexed (sub_reads s) -> index_reads (reads_of self) e.1 id <> None).
  { intros [n r] He. unfold index_reads. rewrite Hrd. apply BTreeMap.elem_of_get in He; [|done]. cbn [fst]. by rewrite He. }
  assert (Hps : forall e, e ∈ search (sub_reads s) -> search_reads (reads_of self) e.1 id = Some e.2).
  { intros [n q] He. unfold search_reads. rewrite Hrd. apply BTreeMap.elem_of_get in He; [|done]. done. }
  destruct (sub_remove_indexes_ok id _ _ _ Hwi Hpi Hix) as (m' & Hm & Hm').
  destruct (remove_searches_ok id _ _ _ Hws Hps Hse) as (S' & HS & HS').
  eexists. split; [intros E; unfold remove_subscriber, sub_map_remove; rewrite Hs; cbn [expect obind]; rewrite Hm; cbn [obind]; rewrite HS; reflexivity|].
  assert (Hget : forall id', slab_get id' (slab_remove id (subscribers self)) = if decide (id' = id) then None else slab_get id' (subscribers self))
    by (intros; apply slab_get_remove).
  split; [|split_and!; try done].
  constructor; cbn [subscribers subscriptions sub_indexed sub_search closed_subscriptions next_seq].
  - revert Hm'. apply index_maps_ext. intros n id'. unfold update_reads, index_reads, reads_of. cbn [subscribers]. rewrite Hget.
    destruct (decide (id' = id)) as [->|]; [|done]. rewrite Hs. cbn [option_map]. by destruct (BTreeMap.get n _).
  - revert HS'. apply subs_ok_ext. intros n id'. unfold update_searches, search_reads, reads_of. cbn [subscribers]. rewrite Hget.
    destruct (decide (id' = id)) as [->|]; [|done]. rewrite Hs. cbn [option_map]. by destruct (BTreeMap.get n _).
  - intros id' s'. rewrite Hget. destruct (decide (id' = id)); [done|apply Hre].
  - intros k s'. rewrite Hget. destruct (decide (key_id k = id)); [done|apply Hcl].
  - done.
Qed.

(** The manager after a new subscriber was registered. *)
Definition registered_manager (self : SubscriptionManager) (subs : SubscriptionMap) (reads : Reads) (sender : Z)
    : SubscriptionManager :=
  {| manager_id := manager_id self;
     subscribers := slab_insert {| sub_reads := reads; sub_sender := sender; sub_seq := next_seq self |} (subscribers self);
     subscriptions := subs; next_seq := next_seq self + 1;
     closed_subscriptions := {| key_id := vacant_key (subscribers self); key_seq := next_seq self |} :: closed_subscriptions self;
     processed_ts := processed_ts self |}.

Lemma register_ok self reads sender :
  manager_ok self -> read_set_ok reads ->
  (exists subs, (forall E, sub_map_insert (E := E) (subscriptions self) (vacant_key (subscribers self)) reads = Ret subs) /\
     manager_ok (registered_manager self subs reads sender)) \/
  (forall E, sub_map_insert (E := E) (subscriptions self) (vacant_key (subscribers self)) reads = Panic).
Proof.
  intros [Hix Hse Hre Hcl Hk] Hsub. destruct (Hsub) as [Hwi Hws _ _]. set (id := vacant_key (subscribers self)).
  assert (Hrd : reads_of self id = None) by (unfold reads_of, id; by rewrite slab_get_vacant).
  assert (Hpi : forall e, e ∈ indexed reads -> index_reads (reads_of self) e.1 id = None)
    by (intros e _; unfold index_reads; by rewrite Hrd).
  assert (Hps : forall e, e ∈ search reads -> search_reads (reads_of self) e.1 id = None)
    by (intros e _; unfold search_reads; by rewrite Hrd).
  destruct (sub_insert_indexes_ok id _ _ _ Hwi Hpi Hix) as [(m' & Hm & Hm')|Hp];
    [left|right; intros E; unfold sub_map_insert; by rewrite Hp].
  pose proof (insert_searches_ok id _ _ _ Hws Hps Hse) as HS'.
  eexists. split; [intros E; unfold sub_map_insert; rewrite Hm; reflexivity|].
  constructor; cbn [registered_manager subscribers subscriptions sub_indexed sub_search closed_subscriptions next_seq].
  - revert Hm'. apply index_maps_ext. intros n id'. unfold update_reads, index_reads, reads_of.
    cbn [registered_manager subscribers]. rewrite slab_get_insert. fold id.
    destruct (decide (id' = id)) as [->|]; [|done]. unfold reads_of in Hrd.
    destruct (slab_get id (subscribers self)); [done|]. cbn [option_map sub_reads]. by destruct (BTreeMap.get n (indexed reads)).
  - revert HS'. apply subs_ok_ext. intros n id'. unfold update_searches, search_reads, reads_of.
    cbn [registered_manager subscribers]. rewrite slab_get_insert. fold id.
    destruct (decide (id' = id)) as [->|]; [|done]. unfold reads_of in Hrd.
    destruct (slab_get id (subscribers self)); [done|]. cbn [option_map sub_reads]. by destruct (BTreeMap.get n (search reads)).
  - intros id' s. rewrite slab_get_insert. destruct (decide _); [by intros [= <-]|apply Hre].
  - intros k s Hin. rewrite slab_get_insert. fold id. apply elem_of_cons in Hin as [->|Hin].
    + cbn [key_id key_seq]. rewrite decide_True by done. intros [= <-]. cbn [sub_seq]. lia.
    + destruct (decide _); [|by apply Hcl]. intros [= <-]. cbn [sub_seq]. apply Hk in Hin. lia.
  - intros k [->|Hin]%elem_of_cons; cbn [key_seq]; [lia|]. apply Hk in Hin. lia.
Qed.

(** ** Overlaps *)

(** The query of one index. *)
Definition query_index {E} (document_id : ResolvedDocumentId) (keys : DocumentIndexKeys) (acc : list Z)
    (e : (list Z * list Z) * (list FieldPath * IM)) : outcome E (list Z) :=
  if bool_decide (e.1.1 = tablet_id document_id) then
    match BTreeMap.get e.1 keys with
    | Some (Standard index_key) => let? ids := im_query e.2.2 index_key in Ret (acc ++ ids)
    | _ => Ret acc
    end
  else Ret acc.

Lemma query_index_ok document_id keys n fs im A :
  im_rep im A ->
  exists ids, (forall E acc, query_index (E := E) document_id keys acc (n, (fs, im)) = Ret (acc ++ ids)) /\
    forall id, id ∈ ids <-> exists k ivs i, n.1 = tablet_id document_id /\ BTreeMap.get n keys = Some (Standard k) /\
      A id = Some ivs /\ i ∈ ivs /\ inside i k.
Proof.
  intros Hr. unfold query_index. cbn [fst snd]. destruct (decide (n.1 = tablet_id document_id)) as [Ht|Ht].
  2:{ exists []. split; [intros; by rewrite bool_decide_false, app_nil_r|]. intros id. split; [by intros ?%elem_of_nil|].
      by intros (? & ? & ? & ? & _). }
  destruct (BTreeMap.get n keys) as [[k|]|] eqn:Hk.
  2,3: exists []; split; [intros; by rewrite bool_decide_true, app_nil_r|]; intros id; split; [by intros ?%elem_of_nil|naive_solver].
  destruct (im_query_rep im _ k Hr) as (ids & Hq & Hids). exists ids.
  split; [intros E acc; rewrite bool_decide_true by done; by rewrite Hq|]. intros id. rewrite Hids. naive_solver.
Qed.

Lemma query_indexes_ok document_id keys (F : (list Z * list Z) -> Registered) l : forall acc,
  (forall e, e ∈ l -> im_rep e.2.2 (F e.1)) ->
  exists ids, (forall E, foldM (query_index (E := E) document_id keys) acc l = Ret (acc ++ ids)) /\
    forall id, id ∈ ids <-> exists e k ivs i, e ∈ l /\ e.1.1 = tablet_id document_id /\
      BTreeMap.get e.1 keys = Some (Standard k) /\ F e.1 id = Some ivs /\ i ∈ ivs /\ inside i k.
Proof.
  induction l as [|[n [fs im]] l IH]; intros acc Hl.
  { exists []. split; [intros E; by rewrite app_nil_r|]. intros id. split; [by intros ?%elem_of_nil|].
    by intros (e & _ & _ & _ & ?%elem_of_nil & _). }
  destruct (query_index_ok document_id keys n fs im _ (Hl (n, (fs, im)) ltac:(left))) as (ids1 & Hs1 & Hi1).
  destruct (IH (acc ++ ids1)) as (ids2 & Hs2 & Hi2); [intros; apply Hl; by right|].
  exists (ids1 ++ ids2). split; [intros E; cbn [foldM]; rewrite Hs1; cbn [obind]; by rewrite Hs2, app_assoc|].
  intros id. rewrite elem_of_app, Hi1, Hi2. split.
  - intros [(k & ivs & i & ? & ? & ?)|(e & k & ivs & i & He & ?)].
    + exists (n, (fs, im)), k, ivs, i. split; [left|done].
    + exists e, k, ivs, i. split; [by right|done].
  - intros (e & k & ivs & i & [->|He]%elem_of_cons & ?); [left; naive_solver|right; naive_solver].
Qed.

(** [overlapping] misses no subscriber whose watched reads overlap the keys, and
    only names subscribers that are registered. *)
Lemma overlapping_ok self document_id keys :
  manager_ok self ->
  exists ids, (forall E, overlapping (E := E) self document_id keys = Ret ids) /\
    (forall id r, reads_of self id = Some r -> overlaps_index_keys (watched r) document_id keys <> None -> id ∈ ids) /\
    (forall id, id ∈ ids -> reads_of self id <> None).
Proof.
  intros [[Hwf Hrep Hnone] Hse Hre _ _].
  destruct (query_indexes_ok document_id keys (index_reads (reads_of self)) (sub_indexed (subscriptions self)) []) as (ids & Hids & Hin).
  { intros [n [fs im]] He. apply BTreeMap.elem_of_get in He; [|done]. by apply (Hrep n fs im). }
  exists (ids ++ add_matches (sub_search (subscriptions self)) document_id keys).
  split; [intros E; unfold overlapping; fold (query_index (E := E) document_id keys); rewrite Hids; reflexivity|]. split.
  - intros id r Hr Hov. assert (Hok : read_set_ok r).
    { unfold reads_of in Hr. destruct (slab_get id (subscribers self)) as [s|] eqn:Hg; [|done]. injection Hr as <-. by eapply Hre. }
    apply (overlaps_index_keys_spec _ _ _ (watched_ok r Hok)) in Hov as
      [(n & k & Ht & Hk & reads & Hg & Hd)|(n & q & v & Ht & Hk & Hg & Ho)]; apply elem_of_app; [left|right].
    + apply Hin. cbn [watched indexed] in Hg. apply denotes_iter in Hd as (i & Hi & Hins). destruct (BTreeMap.get n (sub_indexed (subscriptions self))) as [[fs im]|] eqn:Hm.
      * exists (n, (fs, im)), k, (IntervalSet.iter (intervals reads)), i. cbn [fst]. split_and!; try done.
        -- by apply BTreeMap.elem_of_get.
        -- unfold index_reads. rewrite Hr, Hg. done.
      * specialize (Hnone n Hm id). unfold index_reads in Hnone. by rewrite Hr, Hg in Hnone.
    + apply get_watched in Hg as [Hg Hne]; [|apply Hok].
      apply (proj1 (subs_notify _ _ document_id keys id Hse) n q v); try done; [unfold search_reads; by rewrite Hr|].
      by apply (rs_search r Hok n).
  - intros id [Hid|Hid]%elem_of_app.
    + apply Hin in Hid as (e & k & ivs & i & _ & _ & _ & Hr & _). unfold index_reads in Hr. by destruct (reads_of self id).
    + apply (proj2 (subs_notify _ _ document_id keys id Hse)) in Hid as (n & q & Hr & _). unfold search_reads in Hr.
      by destruct (reads_of self id).
Qed.

(** ** Processing commits *)

(** From [m] to [m'] some registered subscribers were added, with [ts]. *)
Record notified (self : SubscriptionManager) (ts : Z) (m m' : BTreeMap.t Z Z) : Prop := {
  nt_wf : BTreeMap.wf m';
  nt_keep : forall id t, BTreeMap.get id m = Some t -> BTreeMap.get id m' = Some t;
  nt_new : forall id t, BTreeMap.get id m' = Some t -> BTreeMap.get id m = Some t \/ t = ts /\ reads_of self id <> None;
}.

Lemma notified_refl self ts m : BTreeMap.wf m -> notified self ts m m.
Proof. constructor; auto. Qed.

Lemma notified_trans self ts m1 m2 m3 : notified self ts m1 m2 -> notified self ts m2 m3 -> notified self ts m1 m3.
Proof.
  intros [_ Hk1 Hn1] [Hw2 Hk2 Hn2]. constructor; [done|auto|]. intros id t [Hg|?]%Hn2; auto.
Qed.

Lemma notify_all_ok self ts ids : forall m,
  BTreeMap.wf m -> (forall id, id ∈ ids -> reads_of self id <> None) ->
  notified self ts m (notify_all ts m ids) /\ forall id, id ∈ ids -> BTreeMap.get id (notify_all ts m ids) <> None.
Proof.
  induction ids as [|id ids IH]; intros m Hm Hids; cbn [notify_all fold_left].
  { split; [by apply notified_refl|by intros ? ?%elem_of_nil]. }
  set (m1 := match BTreeMap.get id m with Some _ => m | None => BTreeMap.insert id ts m end).
  assert (Hq1 : notified self ts m m1 /\ BTreeMap.get id m1 <> None).
  { unfold m1. destruct (BTreeMap.get id m) as [t|] eqn:Hg; [split; [by apply notified_refl|congruence]|].
    split; [|by rewrite BTreeMap.get_insert_eq]. constructor; [by apply BTreeMap.wf_insert| |].
    - intros id' t. rewrite BTreeMap.get_insert_if by done. destruct (decide (id' = id)) as [->|]; congruence.
    - intros id' t. rewrite BTreeMap.get_insert_if by done. destruct (decide (id' = id)) as [->|]; [|by left].
      intros [= <-]. right. split; [done|]. apply Hids. left. }
  destruct Hq1 as [Hq1 Hid]. destruct (IH m1) as [Hq2 Hin]; [apply Hq1|intros; apply Hids; by right|].
  split; [by eapply notified_trans|]. intros id' [->|?]%elem_of_cons; [|by apply Hin].
  destruct (BTreeMap.get id m1) as [t|] eqn:Hg; [|done]. apply (nt_keep _ _ _ _ Hq2) in Hg.
  unfold notify_all in Hg. by rewrite Hg.
Qed.

Lemma notify_keys_ok self ts m i keys :
  manager_ok self -> BTreeMap.wf m ->
  exists ids, (forall E, overlapping_opt (E := E) self i keys = Ret ids) /\ notified self ts m (notify_all ts m ids) /\
    forall id r, reads_of self id = Some r -> overlap_keys (watched r) i keys <> None -> BTreeMap.get id (notify_all ts m ids) <> None.
Proof.
  intros Hok Hm. destruct keys as [keys|]; [|by exists []; split_and!; [| apply notified_refl|]].
  destruct (overlapping_ok self i keys Hok) as (ids & Hids & Hin & Hreg). exists ids. split; [done|].
  destruct (notify_all_ok self ts ids m Hm Hreg) as [Hn Hall]. split; [done|]. intros id r Hr Ho. by apply Hall, (Hin id r).
Qed.

Lemma process_commit_ok self ts ws : forall m,
  manager_ok self -> BTreeMap.wf m ->
  exists m', (forall E, process_commit (E := E) self m (ts, ws) = Ret m') /\ notified self ts m m' /\
    forall id r w, reads_of self id = Some r -> w ∈ ws -> write_conflicts (watched r) w -> BTreeMap.get id m' <> None.
Proof.
  induction ws as [|w ws IH]; intros m Hok Hm.
  { exists m. split_and!; [done|by apply notified_refl|by intros ? ? ? _ ?%elem_of_nil]. }
  destruct (notify_keys_ok self ts m w.1.1 (old_document_keys w.1.2) Hok Hm) as (old & Hold & Hq1 & Ho).
  destruct (notify_keys_ok self ts _ w.1.1 (new_document_keys w.1.2) Hok (nt_wf _ _ _ _ Hq1)) as (new & Hnew & Hq2 & Hn).
  destruct (IH _ Hok (nt_wf _ _ _ _ Hq2)) as (m' & Hm' & Hq3 & Hrest). exists m'. split; [|split].
  - intros E. unfold process_commit. cbn [snd foldM fst]. rewrite Hold. cbn [obind]. rewrite Hnew. apply Hm'.
  - by eapply notified_trans; [|eapply notified_trans].
  - intros id r w' Hr [->|?]%elem_of_cons Hc; [|by eapply Hrest].
    destruct Hc as [Hc|Hc].
    + specialize (Hn id r Hr Hc). destruct (BTreeMap.get id _) as [t|] eqn:Hg in Hn; [|done]. by rewrite (nt_keep _ _ _ _ Hq3 id t Hg).
    + specialize (Ho id r Hr Hc). destruct (BTreeMap.get id _) as [t|] eqn:Hg in Ho; [|done].
      apply (nt_keep _ _ _ _ Hq2) in Hg. by rewrite (nt_keep _ _ _ _ Hq3 id t Hg).
Qed.

(** The commits of a range, in order: every conflicting subscriber is notified,
    with a timestamp no later than its first conflict. *)
Record to_notify_ok (self : SubscriptionManager) (commits : list (Z * OrderedIndexKeyWrites)) (m : BTreeMap.t Z Z) : Prop := {
  tn_wf : BTreeMap.wf m;
  tn_from : forall id t, BTreeMap.get id m = Some t -> t ∈ commits.*1 /\ reads_of self id <> None;
  tn_conflict : forall id r e w, reads_of self id = Some r -> e ∈ commits -> w ∈ e.2 -> write_conflicts (watched r) w ->
    exists t, BTreeMap.get id m = Some t /\ t <= e.1;
}.

Lemma process_commits_ok self l : forall done m,
  manager_ok self -> to_notify_ok self done m -> (forall t e, t ∈ done.*1 -> e ∈ l -> t <= e.1) ->
  StronglySorted (fun e f : Z * OrderedIndexKeyWrites => e.1 < f.1) l ->
  exists m', (forall E, foldM (process_commit (E := E) self) m l = Ret m') /\ to_notify_ok self (done ++ l) m'.
Proof.
  induction l as [|[ts ws] l IH]; intros old m Hok Hm Hle Hs.
  { exists m. rewrite app_nil_r. done. }
  inversion Hs as [|? ? Hs' Hlt]; subst. rewrite Forall_forall in Hlt.
  destruct Hm as [Hwf Hfrom Hcf]. destruct (process_commit_ok self ts ws m Hok Hwf) as (m1 & Hm1 & Hn & Hws).
  destruct (IH (old ++ [(ts, ws)]) m1) as (m' & Hm' & Hok'); try done.
  - constructor; [apply Hn| |].
    + intros id t Hg. rewrite fmap_app, elem_of_app. apply (nt_new _ _ _ _ Hn) in Hg as [Hg|[-> Hr]].
      * apply Hfrom in Hg as [? ?]. auto.
      * split; [right; left|done].
    + intros id r e w Hr [He|He]%elem_of_app Hw Hc.
      * destruct (Hcf id r e w Hr He Hw Hc) as (t & Hg & Ht). exists t. split; [by apply (nt_keep _ _ _ _ Hn)|done].
      * apply list_elem_of_singleton in He as ->. cbn [fst snd] in *. specialize (Hws id r w Hr Hw Hc).
        destruct (BTreeMap.get id m1) as [t|] eqn:Hg; [|done]. exists t. split; [done|].
        apply (nt_new _ _ _ _ Hn) in Hg as [Hg|[-> _]]; [|lia]. apply Hfrom in Hg as [Ht _]. apply (Hle t (ts, ws)); [done|left].
  - intros t e. rewrite fmap_app, elem_of_app. intros [Ht|Ht] He; [apply Hle; [done|by right]|].
    apply list_elem_of_singleton in Ht as ->. specialize (Hlt e He). cbn in *. lia.
  - exists m'. split; [intros E; cbn [foldM]; rewrite Hm1; apply Hm'|]. by rewrite <- app_assoc in Hok'.
Qed.

(** ** The effect on the shared cells *)

Definition at_ts (ts : Z) (v : Validity) : Validity := {| valid_ts := ts; invalid_ts := invalid_ts v |}.

Lemma set_valid_lookup w h ts h' :
  validities (set_valid_ts w h ts) !! h' = if decide (h' = h) then at_ts ts <$> validities w !! h' else validities w !! h'.
Proof.
  cbn [validities set_valid_ts]. destruct (decide (h' = h)) as [->|]; [by rewrite lookup_alter_eq|by rewrite lookup_alter_ne].
Qed.

(** The pass that advances subscriptions reaches the handle. *)
Definition advanced (m : BTreeMap.t Z Z) (l : list (Z * Subscriber)) (h : Z) : Prop :=
  Exists (fun e => sub_sender e.2 = h /\ BTreeMap.get e.1 m = None) l.

#[local] Instance advanced_dec m l h : Decision (advanced m l h).
Proof. apply _. Defined.

Lemma at_ts_idemp ts (o : option Validity) : at_ts ts <$> (at_ts ts <$> o) = at_ts ts <$> o.
Proof. by destruct o. Qed.

Lemma advance_valid_spec self m next_ts w :
  let w' := advance_valid self m next_ts w in
  states w' = states w /\ splayed w' = splayed w /\
  forall h, validities w' !! h =
    if decide (advanced m (slab_entries (subscribers self)) h) then at_ts (Timestamp.to_i64 next_ts) <$> validities w !! h
    else validities w !! h.
Proof.
  unfold advance_valid. generalize (slab_entries (subscribers self)) as l. intros l. revert w.
  induction l as [|e l IH]; intros w; cbn [fold_left].
  { done. }
  destruct (BTreeMap.get e.1 m) as [t|] eqn:Hg.
  - destruct (IH w) as (Hs & Hp & Ha). split_and!; try done. intros h. rewrite Ha. apply decide_ext.
    unfold advanced. rewrite Exists_cons. naive_solver.
  - destruct (IH (set_valid_ts w (sub_sender e.2) (Timestamp.to_i64 next_ts))) as (Hs & Hp & Ha). split_and!; try done.
    intros h. rewrite Ha, set_valid_lookup. unfold advanced. destruct (decide (h = sub_sender e.2)) as [->|Hne].
    + rewrite (decide_True (P := Exists _ (e :: l))) by (left; done). destruct (decide _); [apply at_ts_idemp|done].
    + apply decide_ext. rewrite Exists_cons. naive_solver.
Qed.

(** What [drop_with_delay] leaves of a subscription. *)
Definition invalidated (t : Z) (v : Validity) : Validity := {| valid_ts := -1; invalid_ts := Timestamp.to_i64 t |}.

Definition gone (w : World) (h : Z) : Prop := states w !! h = Some Invalid \/ h ∈ splayed w.

Lemma drop_with_delay_spec w h delay t :
  let w' := drop_with_delay w h delay (Some t) in
  (forall h', validities w' !! h' = if decide (h' = h) then invalidated t <$> validities w !! h' else validities w !! h') /\
  (forall h', gone w' h' <-> gone w h' \/ h' = h).
Proof.
  unfold drop_with_delay, gone. destruct delay; cbn [sender_drop set_valid_ts set_invalid_ts validities states splayed]; split_and!.
  - intros h'. destruct (decide (h' = h)) as [->|]; [|by rewrite !lookup_alter_ne]. rewrite !lookup_alter_eq.
    by destruct (validities w !! h).
  - intros h'. rewrite elem_of_cons. tauto.
  - intros h'. destruct (decide (h' = h)) as [->|]; [|by rewrite !lookup_alter_ne]. rewrite !lookup_alter_eq.
    by destruct (validities w !! h).
  - intros h'. destruct (decide (h' = h)) as [->|]; [rewrite lookup_insert_eq|rewrite lookup_insert_ne by done]; naive_solver.
Qed.

(** Each sender is in one entry. *)
Definition senders (self : SubscriptionManager) : list Z := map (fun e => sub_sender e.2) (slab_entries (subscribers self)).

Lemma senders_inj self id id' s s' :
  NoDup (senders self) -> slab_get id (subscribers self) = Some s -> slab_get id' (subscribers self) = Some s' ->
  sub_sender s = sub_sender s' -> id = id'.
Proof.
  unfold senders. rewrite <- !slab_entries_get. generalize (slab_entries (subscribers self)) as l. intros l. induction l as [|e l IH].
  { by intros _ ?%elem_of_nil. }
  cbn [map]. intros [Hx Hnd]%NoDup_cons [Heq|Hs]%elem_of_cons [Heq'|Hs']%elem_of_cons Hh; try by (subst; simplify_eq).
  - subst e. exfalso. apply Hx. cbn [snd]. rewrite Hh. by apply (list_elem_of_fmap_2 (fun e => sub_sender e.2) l (id', s')).
  - subst e. exfalso. apply Hx. cbn [snd]. rewrite <- Hh. by apply (list_elem_of_fmap_2 (fun e => sub_sender e.2) l (id, s)).
  - auto.
Qed.

Lemma removed_senders self self' id s :
  slab_get id (subscribers self) = Some s ->
  (forall id', slab_get id' (subscribers self') = if decide (id' = id) then None else slab_get id' (subscribers self)) ->
  senders self ≡ₚ sub_sender s :: senders self'.
Proof.
  intros Hs Hget. unfold senders.
  apply (Permutation_map (fun e : Z * Subscriber => sub_sender e.2) (slab_entries_remove _ _ _ _ Hs Hget)).
Qed.

Lemma elem_of_senders self h : h ∈ senders self <-> exists id s, slab_get id (subscribers self) = Some s /\ sub_sender s = h.
Proof.
  unfold senders. split.
  - intros ([id s] & -> & Hin)%list_elem_of_fmap. apply slab_entries_get in Hin. by exists id, s.
  - intros (id & s & Hs & <-). apply slab_entries_get in Hs. by apply (list_elem_of_fmap_2 (fun e => sub_sender e.2) _ (id, s)).
Qed.

Record removed (self : SubscriptionManager) (w : World) (l : list (Z * Z)) (self' : SubscriptionManager) (w' : World) : Prop := {
  rm_ok : manager_ok self';
  rm_fields : manager_id self' = manager_id self /\ processed_ts self' = processed_ts self /\ next_seq self' = next_seq self /\
    closed_subscriptions self' = closed_subscriptions self;
  rm_get : forall id, slab_get id (subscribers self') = if decide (id ∈ l.*1) then None else slab_get id (subscribers self);
  rm_senders : exists hs, senders self ≡ₚ hs ++ senders self' /\
    forall h, h ∈ hs <-> exists e s, e ∈ l /\ slab_get e.1 (subscribers self) = Some s /\ sub_sender s = h;
  rm_world : forall h, h ∉ senders self -> validities w' !! h = validities w !! h;
  rm_kept : forall id s, slab_get id (subscribers self') = Some s -> validities w' !! sub_sender s = validities w !! sub_sender s;
  rm_gone : forall e s, e ∈ l -> slab_get e.1 (subscribers self) = Some s ->
    validities w' !! sub_sender s = invalidated e.2 <$> validities w !! sub_sender s;
  rm_watch : forall h, gone w' h <-> gone w h \/ exists e s, e ∈ l /\ slab_get e.1 (subscribers self) = Some s /\ sub_sender s = h;
}.

Lemma remove_all_ok delay l : forall self w,
  manager_ok self -> NoDup (senders self) -> NoDup l.*1 -> (forall e, e ∈ l -> reads_of self e.1 <> None) ->
  exists self' w', (forall E, foldM (fun '(self, w) (e : Z * Z) => remove_subscriber (E := E) self w e.1 delay (Some e.2)) (self, w) l
                              = Ret (self', w')) /\
    removed self w l self' w'.
Proof.
  induction l as [|[id t] l IH]; intros self w Hok Hnd Hl Hreg.
  { exists self, w. split; [done|]. constructor; try done; [|by intros ? ? ?%elem_of_nil|].
    - exists []. split; [done|]. intros h. split; [by intros ?%elem_of_nil|by intros (? & ? & ?%elem_of_nil & _)].
    - intros h. split; [by left|by intros [?|(? & ? & ?%elem_of_nil & _)]]. }
  cbn [fmap list_fmap] in Hl. apply NoDup_cons in Hl as [Hid Hl]. assert (Hs : exists s, slab_get id (subscribers self) = Some s).
  { specialize (Hreg (id, t) ltac:(left)). unfold reads_of in Hreg. cbn [fst] in Hreg. destruct (slab_get id _); [by eexists|done]. }
  destruct Hs as [s Hs]. destruct (remove_subscriber_ok self w id s delay (Some t) Hok Hs) as (s1 & Hs1 & Hok1 & Hi & Hp & Hq & Hc & Hget).
  destruct (drop_with_delay_spec w (sub_sender s) delay t) as (Hv & Hgone). set (w1 := drop_with_delay _ _ _ _) in *.
  assert (Hperm : senders self ≡ₚ sub_sender s :: senders s1) by (exact (removed_senders self s1 id s Hs Hget)).
  assert (Hnd1 : NoDup (senders s1)) by (rewrite Hperm in Hnd; by apply NoDup_cons in Hnd as [_ ?]).
  destruct (IH s1 w1 Hok1 Hnd1 Hl) as (s2 & w2 & Hs2 & Hr).
  { intros e He. unfold reads_of. rewrite Hget. rewrite decide_False; [apply Hreg; by right|].
    intros Heq. apply Hid. rewrite <- Heq. exact (list_elem_of_fmap_2 fst l e He). }
  exists s2, w2. split; [intros E; cbn [foldM fst snd]; rewrite Hs1; cbn [obind]; apply Hs2|].
  assert (Hne : forall e, e ∈ l -> slab_get e.1 (subscribers s1) = slab_get e.1 (subscribers self)).
  { intros e He. rewrite Hget, decide_False; [done|]. intros <-. apply Hid. exact (list_elem_of_fmap_2 fst l e He). }
  assert (Hother : forall id' s', slab_get id' (subscribers s1) = Some s' -> sub_sender s' <> sub_sender s).
  { intros id' s' Hg' Heq. rewrite Hget in Hg'. destruct (decide (id' = id)) as [|Hx]; [done|].
    exact (Hx (senders_inj self id' id s' s Hnd Hg' Hs Heq)). }
  assert (Hcons : forall h,
    (exists e s', e ∈ (id, t) :: l /\ slab_get e.1 (subscribers self) = Some s' /\ sub_sender s' = h) <->
    h = sub_sender s \/ exists e s', e ∈ l /\ slab_get e.1 (subscribers s1) = Some s' /\ sub_sender s' = h).
  { intros h. setoid_rewrite elem_of_cons. split.
    - intros (e & s' & [->|He] & Hg' & Hh); [left; cbn [fst] in Hg'; congruence|]. right. exists e, s'. by rewrite (Hne e He).
    - intros [->|(e & s' & He & Hg' & Hh)]; [exists (id, t), s; auto|]. exists e, s'. rewrite <- (Hne e He). auto. }
  assert (Hns : sub_sender s ∉ senders s1) by (rewrite elem_of_senders; naive_solver).
  destruct Hr as [R1 (F1 & F2 & F3 & F4) R3 (hs & R4 & R4') R5 R6 R7 R8]. constructor; [done|by split_and!; congruence| | | | | |].
  - intros id'. rewrite R3, Hget. cbn [fmap list_fmap fst]. repeat destruct (decide _); set_solver.
  - exists (sub_sender s :: hs). split; [rewrite Hperm, R4; done|]. intros h. by rewrite elem_of_cons, R4', Hcons.
  - intros h Hh. rewrite Hperm in Hh. apply not_elem_of_cons in Hh as [Hh1 Hh2]. rewrite (R5 h Hh2), Hv. by rewrite decide_False.
  - intros id' s' Hg'. rewrite (R6 id' s' Hg'), Hv, decide_False; [done|]. rewrite R3 in Hg'. destruct (decide _); [done|]. by eapply Hother.
  - intros e s' [->|He]%elem_of_cons Hg'; cbn [fst snd] in *.
    + replace s' with s in * by congruence. by rewrite (R5 _ Hns), Hv, decide_True.
    + rewrite <- (Hne e He) in Hg'. by rewrite (R7 e s' He Hg'), Hv, decide_False by (by eapply Hother).
  - intros h. rewrite R8, Hgone, Hcons. tauto.
Qed.

(** ** Advancing the log *)

(** Commits of a log after [from] and up to [to]. *)
Definition in_range (l : WriteLog) (from to : Z) (e : LogEntry) : Prop := e ∈ by_ts l /\ from < entry_ts e <= to.

(** The fate of one subscriber when a manager advances: it is kept, valid at
    the new timestamp, only if no commit in between conflicts with its watched reads;
    otherwise it is removed, its validity is cleared, and its invalid timestamp
    is that of a commit, none after its first conflict. *)
Definition kept_or_dropped (self self' : SubscriptionManager) (w w' : World) (l : WriteLog) (next_ts id : Z) (s : Subscriber) : Prop :=
  (slab_get id (subscribers self') = Some s /\
   validities w' !! sub_sender s = at_ts next_ts <$> validities w !! sub_sender s /\
   forall e, in_range l (processed_ts self) next_ts e -> ~ entry_conflicts (watched (sub_reads s)) e) \/
  (slab_get id (subscribers self') = None /\
   exists t, validities w' !! sub_sender s = invalidated t <$> validities w !! sub_sender s /\
     (exists e, in_range l (processed_ts self) next_ts e /\ entry_ts e = t) /\
     forall e, in_range l (processed_ts self) next_ts e -> entry_conflicts (watched (sub_reads s)) e -> t <= entry_ts e).

Record advanced_to (self self' : SubscriptionManager) (w w' : World) (l : WriteLog) (next_ts : Z) : Prop := {
  av_ok : manager_ok self';
  av_id : manager_id self' = manager_id self;
  av_processed : processed_ts self' = next_ts;
  av_fate : forall id s, slab_get id (subscribers self) = Some s -> kept_or_dropped self self' w w' l next_ts id s;
  av_sub : forall id s, slab_get id (subscribers self') = Some s -> slab_get id (subscribers self) = Some s;
  av_senders : exists hs, senders self ≡ₚ hs ++ senders self';
  av_closed : closed_subscriptions self' = closed_subscriptions self;
  av_others : forall h, h ∉ senders self -> validities w' !! h = validities w !! h;
  av_watch : forall h, gone w' h <-> gone w h \/
    exists id s, slab_get id (subscribers self) = Some s /\ slab_get id (subscribers self') = None /\ sub_sender s = h;
}.

Lemma for_each_ok l from to :
  log_ok l -> purged_ts l < from ->
  exists es, for_each l from to = Ret (map (fun e => e.1) es) /\
    StronglySorted (fun e f : Z * OrderedIndexKeyWrites => e.1 < f.1) (map (fun e => e.1) es) /\
    forall e, e ∈ es <-> e ∈ by_ts l /\ from <= entry_ts e <= to.
Proof.
  intros Hok Hlt. unfold for_each. destruct (iter l from to) as [es| |] eqn:Hi;
    [|rewrite iter_spec in Hi by done; apply Z.ltb_lt in Hlt; by rewrite Hlt in Hi..].
  exists es. split; [done|]. split; [|intros e; by apply elem_of_log_range].
  assert (Hasc : ascending (purged_ts l) es).
  { rewrite iter_spec in Hi by done. destruct (purged_ts l <? from); [|done]. injection Hi as <-. by do 2 apply ascending_bfilter. }
  clear Hi. revert Hasc. generalize (purged_ts l) as lo. induction es as [|e es IH]; intros lo; [constructor|].
  intros [He Hes]. cbn [map]. constructor; [by eapply IH|]. apply Forall_forall.
  intros f (f' & -> & Hf)%list_elem_of_fmap. by apply (ascending_elem _ _ _ Hes) in Hf.
Qed.

Lemma advance_log_ok self coordinator w next_ts :
  manager_ok self -> NoDup (senders self) -> log_ok (log (owned_log coordinator)) ->
  Timestamp.valid (processed_ts self) -> Timestamp.valid next_ts ->
  purged_ts (log (owned_log coordinator)) <= processed_ts self < next_ts ->
  forall coordinator',
  update_and_enforce_retention heap_size min_retention max_retention soft_max_size coordinator (manager_id self) next_ts
    = Ret coordinator' ->
  exists self' w',
    advance_log self coordinator w next_ts = Ret (self', coordinator', w') /\
    advanced_to self self' w w' (log (owned_log coordinator)) next_ts.
Proof.
  intros Hok Hnd Hlog Hv Hvn Hlt coordinator' Hco. unfold advance_log. pose proof (succ_spec (processed_ts self) Hv) as Hs.
  destruct (Timestamp.succ (processed_ts self)) as [from|e|]; [|unfold Timestamp.valid in *; lia|done]. destruct Hs as [-> _].
  cbn [lift_ts lift_log obind].
  destruct (for_each_ok _ (processed_ts self + 1) next_ts Hlog ltac:(lia)) as (es & -> & Hsort & Hes). cbn [lift_log obind].
  destruct (process_commits_ok self (map (fun e => e.1) es) [] [] Hok) as (m & Hm & Htn).
  { constructor; [done|done|]. by intros id r e w0 _ ?%elem_of_nil. }
  { by intros t e ?%elem_of_nil. }
  { done. }
  rewrite Hm. cbn [obind app] in *. destruct Htn as [Hwf Hfrom Hcf].
  destruct (advance_valid_spec self m next_ts w) as (Hst & Hsp & Hadv). set (w1 := advance_valid self m next_ts w) in *.
  destruct (remove_all_ok (delay_threshold <? Z.of_nat (length m)) m self w1 Hok Hnd) as (s2 & w2 & Hrem & Hr).
  { by apply BTreeMap.wf_NoDup_fst. }
  { intros [id t] He. apply BTreeMap.elem_of_get in He; [|done]. by eapply Hfrom. }
  rewrite Hrem. cbn [obind]. destruct Hr as [R1 (F1 & F2 & F3 & F4) R3 (hs & R4 & R4') R5 R6 R7 R8].
  unfold rassert. rewrite F2, (proj2 (Z.leb_le _ _)) by lia. cbn [obind manager_id with_processed]. rewrite F1, Hco. cbn [obind].
  do 2 eexists. split; [done|]. constructor; try done.
  - destruct R1. by constructor.
  - cbn [subscribers with_processed]. intros id s Hs. unfold kept_or_dropped. cbn [subscribers with_processed]. rewrite R3.
    assert (Hrd : reads_of self id = Some (sub_reads s)) by (unfold reads_of; by rewrite Hs).
    assert (Hrange : forall e, in_range (log (owned_log coordinator)) (processed_ts self) next_ts e <-> e ∈ es).
    { intros e. rewrite Hes. unfold in_range. split; intros [? ?]; (split; [done|lia]). }
    destruct (BTreeMap.get id m) as [t|] eqn:Hg.
    + right. assert (Hin : (id, t) ∈ m) by (by apply BTreeMap.elem_of_get).
      rewrite decide_True by exact (list_elem_of_fmap_2 fst m (id, t) Hin). split; [done|]. exists t.
      rewrite (R7 (id, t) s Hin Hs), Hadv. split.
      * destruct (decide _); [|done]. by destruct (validities w !! sub_sender s).
      * setoid_rewrite Hrange. destruct (Hfrom id t Hg) as [Ht _]. split.
        -- apply list_elem_of_fmap in Ht as (x & -> & Hx). apply list_elem_of_fmap in Hx as (e & -> & He). by exists e.
        -- intros e He (w0 & Hw0 & Hc). destruct (Hcf id (sub_reads s) e.1 w0 Hrd) as (t' & Ht' & Hle); [by apply list_elem_of_fmap_2|done|done|].
           rewrite Hg in Ht'. injection Ht' as <-. exact Hle.
    + left. assert (Hnin : id ∉ m.*1).
      { intros ([id' t] & -> & Hin)%list_elem_of_fmap. apply BTreeMap.elem_of_get in Hin; [|done]. cbn [fst] in Hg. congruence. }
      rewrite decide_False by done. split; [done|]. rewrite (R6 id s) by (by rewrite R3, decide_False). rewrite Hadv, decide_True.
      * split; [by rewrite to_i64_valid|]. intros e He (w0 & Hw0 & Hc). apply Hrange in He.
        destruct (Hcf id (sub_reads s) e.1 w0 Hrd) as (t' & Ht' & _); [by apply list_elem_of_fmap_2|done|done|]. congruence.
      * apply Exists_exists. exists (id, s). split; [by apply slab_entries_get|done].
  - cbn [subscribers with_processed]. intros id s. rewrite R3. by destruct (decide _).
  - by exists hs.
  - intros h Hh. rewrite R5 by done. rewrite Hadv, decide_False; [done|]. intros ([id s] & Hin & <- & _)%Exists_exists.
    apply Hh, elem_of_senders. exists id, s. by rewrite <- slab_entries_get.
  - intros h. cbn [subscribers with_processed]. rewrite R8. unfold gone. rewrite Hst, Hsp. apply or_iff_compat_l. split.
    + intros (e & s & He & Hs & Hh). exists e.1, s. rewrite R3, decide_True; [done|]. exact (list_elem_of_fmap_2 fst m e He).
    + intros (id & s & Hs & Hn & Hh). rewrite R3 in Hn. destruct (decide (id ∈ m.*1)) as [Hin|]; [|congruence].
      apply list_elem_of_fmap in Hin as (e & -> & He). by exists e, s.
Qed.

(** ** Subscribing, and clients that go away *)

Lemma drop_quietly_spec w h :
  (forall h', validities (sender_drop w h) !! h' = if decide (h' = h) then at_ts (-1) <$> validities w !! h' else validities w !! h') /\
  (forall h', gone (sender_drop w h) h' <-> gone w h' \/ h' = h).
Proof.
  unfold gone. cbn [sender_drop validities states splayed]. split; intros h'; [apply set_valid_lookup|].
  cbn [set_valid_ts states splayed]. destruct (decide (h' = h)) as [->|]; [rewrite lookup_insert_eq|rewrite lookup_insert_ne by done]; naive_solver.
Qed.

(** The sender was dropped, whatever its invalid timestamp became. *)
Record sender_dropped (w : World) (h : Z) (w' : World) : Prop := {
  sd_self : forall v, validities w' !! h = Some v -> valid_ts v = -1;
  sd_dom : is_Some (validities w' !! h) <-> is_Some (validities w !! h);
  sd_other : forall h', h' <> h -> validities w' !! h' = validities w !! h';
  sd_watch : forall h', gone w' h' <-> gone w h' \/ h' = h;
}.

Lemma sender_dropped_intro w w1 h :
  (forall h', h' <> h -> validities w1 !! h' = validities w !! h') -> (is_Some (validities w1 !! h) <-> is_Some (validities w !! h)) ->
  (forall h', gone w1 h' <-> gone w h') -> sender_dropped w h (sender_drop w1 h).
Proof.
  intros Ho Hd Hg. destruct (drop_quietly_spec w1 h) as [Hv Hw]. constructor.
  - intros v. rewrite Hv, decide_True by done. destruct (validities w1 !! h); [by intros [= <-]|done].
  - by rewrite Hv, decide_True, fmap_is_Some by done.
  - intros h' Hne. rewrite Hv, decide_False by done. by apply Ho.
  - intros h'. by rewrite Hw, Hg.
Qed.

Lemma sender_drop_dropped w h : sender_dropped w h (sender_drop w h).
Proof. by apply sender_dropped_intro. Qed.

Lemma set_invalid_dropped w h o :
  sender_dropped w h (sender_drop (match o with Some ts => set_invalid_ts w h (Timestamp.to_i64 ts) | None => w end) h).
Proof.
  destruct o as [ts|]; [|apply sender_drop_dropped]. apply sender_dropped_intro; [|by cbn [set_invalid_ts validities]; rewrite lookup_alter_eq, fmap_is_Some|done].
  intros h' Hne. cbn [set_invalid_ts validities]. by rewrite lookup_alter_ne.
Qed.

Lemma drop_without_delay w h : sender_dropped w h (drop_with_delay w h false None).
Proof.
  apply sender_dropped_intro; [|by rewrite set_valid_lookup, decide_True, fmap_is_Some by done|done].
  intros h' Hne. by rewrite set_valid_lookup, decide_False.
Qed.

(** A registered subscriber. *)
Record registers (self self' : SubscriptionManager) (reads : Reads) (sender : Z) : Prop := {
  rg_ok : manager_ok self';
  rg_id : manager_id self' = manager_id self;
  rg_processed : processed_ts self' = processed_ts self;
  rg_senders : senders self' ≡ₚ sender :: senders self;
  rg_get : forall id s, slab_get id (subscribers self') = Some s ->
    slab_get id (subscribers self) = Some s \/ sub_reads s = reads /\ sub_sender s = sender;
}.

Lemma register_token_ok self (token : SubToken) sender :
  manager_ok self -> read_set_ok (token_reads token) -> processed_ts self <= token_ts token ->
  (exists self' id, (forall E, register_token (E := E) self token sender = Ret (self', id)) /\ registers self self' (token_reads token) sender) \/
  (forall E, register_token (E := E) self token sender = Panic).
Proof.
  intros Hok Hsub Hts. unfold register_token, rassert. rewrite (proj2 (Z.leb_le _ _)) by done.
  destruct (register_ok self (token_reads token) sender Hok Hsub) as [(subs & Hs & Hm)|Hp]; [left|right; intros E; by rewrite Hp].
  eexists _, _. split; [intros E; cbn [obind]; rewrite Hs; reflexivity|]. constructor; try done.
  - unfold senders. cbn [subscribers]. etrans; [apply Permutation_map, slab_entries_insert|done].
  - intros id s. cbn [subscribers]. rewrite slab_get_insert. destruct (decide _); [|by left]. intros [= <-]. by right.
Qed.

(** [subscribe] either registers the reads, refreshed to the processed
    timestamp, or drops the sender; the only panic is that of registering. *)
Lemma subscribe_ok self l w (token : SubToken) sender :
  manager_ok self -> log_ok l -> Timestamp.valid (token_ts token) -> read_set_ok (token_reads token) ->
  (exists self' id, subscribe self l w token sender = Ret (self', w, inr id) /\ registers self self' (token_reads token) sender /\
     (token_ts token < processed_ts self -> purged_ts l <= token_ts token /\
        forall e, e ∈ by_ts l -> token_ts token < entry_ts e <= processed_ts self -> ~ entry_conflicts (token_reads token) e)) \/
  (exists w' r, subscribe self l w token sender = Ret (self, w', r) /\ sender_dropped w sender w') \/
  subscribe self l w token sender = Panic.
Proof.
  intros Hok Hlog Hv Hsub. unfold subscribe. destruct (Z.ltb_spec (token_ts token) (processed_ts self)) as [Hlt|Hge].
  2:{ destruct (register_token_ok self token sender Hok Hsub Hge) as [(self' & id & Hr & Hreg)|Hp]; rewrite ?Hr, ?Hp; [left|by do 2 right].
      exists self', id. split; [done|]. split; [done|lia]. }
  pose proof (reader_refresh_spec l token (processed_ts self) Hlog Hv) as Hs.
  destruct (reader_refresh_token l token (processed_ts self)) as [[token'|o]|e|].
  - destruct Hs as (Hr & Hts & [?|Hq]); [lia|]. rewrite <- Hr in Hsub.
    destruct (register_token_ok self token' sender Hok Hsub ltac:(lia)) as [(self' & id & Hrt & Hreg)|Hp]; rewrite ?Hrt, ?Hp; [left|by do 2 right].
    exists self', id. split; [done|]. rewrite <- Hr. rewrite <- Hr in Hq. done.
  - right. left. do 2 eexists. split; [done|]. apply set_invalid_dropped.
  - right. left. do 2 eexists. split; [done|]. apply sender_drop_dropped.
  - done.
Qed.

(** A key whose client is gone: its subscriber is removed, if it is still there. *)
Lemma client_gone_ok self w key :
  manager_ok self -> key ∈ closed_subscriptions self ->
  exists self' w', (forall E, remove_key (E := E) (take_closed self key) w key = Ret (self', w')) /\
    manager_ok self' /\ manager_id self' = manager_id self /\ processed_ts self' = processed_ts self /\
    (w' = w /\ subscribers self' = subscribers self \/
     exists s, slab_get (key_id key) (subscribers self) = Some s /\ sender_dropped w (sub_sender s) w' /\
       forall id, slab_get id (subscribers self') = if decide (id = key_id key) then None else slab_get id (subscribers self)).
Proof.
  intros Hok Hkey. unfold remove_key, get_subscriber.
  assert (Hok' : manager_ok (take_closed self key)).
  { destruct Hok as [Hix Hse Hre Hcl Hk]. constructor; try done; cbn [take_closed closed_subscriptions subscribers].
    - intros k s Hin. apply elem_of_bfilter in Hin as [? _]. by apply Hcl.
    - intros k Hin. apply elem_of_bfilter in Hin as [? _]. by apply Hk. }
  cbn [take_closed subscribers]. destruct (slab_get (key_id key) (subscribers self)) as [s|] eqn:Hs.
  2:{ eexists _, _. split; [done|]. split_and!; try done. by left. }
  pose proof (mg_closed _ Hok key s Hkey Hs) as Hle. destruct (Z.ltb_spec (key_seq key) (sub_seq s)).
  { eexists _, _. split; [done|]. split_and!; try done. by left. }
  unfold rassert. rewrite (proj2 (Z.eqb_eq _ _)) by lia.
  destruct (remove_subscriber_ok (take_closed self key) w (key_id key) s false None Hok' Hs) as (s1 & Hs1 & Hok1 & Hi & Hp & _ & _ & Hget).
  exists s1, (drop_with_delay w (sub_sender s) false None). split; [intros E; cbn [obind]; apply Hs1|]. split_and!; try done.
  right. exists s. split; [done|]. split; [apply drop_without_delay|done].
Qed.

End manager.
