(* ===== verification/SubscriptionWorker.v ===== *)
(** * SubscriptionWorker: clients, queues and managers together
      (src/crates/database/src/subscription.rs: SubscriptionsClient,
      SubscriptionsWorker, run_worker)

    Clients send refreshed tokens to the managers through bounded queues, the
    committer appends to the shared write log, and each manager takes requests,
    advances over the log and reacts to clients that go away, in any order.
    Every handler is one event; a run is a sequence of events.  Two ghost
    components record what the log and the channels forget: all commits, and
    the reads and the timestamp each subscription was made with. *)

From stdpp Require Import gmap.
From S2P Require Import Prelude Ord BTreeMap BinaryKey Bounds Interval IntervalSet Timestamp Identifier Value.
From S2P Require Import Sorting SortingDecode Base32 IdV6 Document IndexRegistry QueryReads Reads WriteLog Slab.
From S2P Require Import IntervalMap IntervalTreap Subscription.

Local Open Scope Z_scope.

Section worker.
Context {M : Type -> Type} `{StringMapLaws M} {Trace : Type}.
Context {IM : Type} `{IntervalMapLaws IM} {Sl : Type -> Type} `{SlabLaws Sl}.
Context (heap_size : list LogEntry -> Z) (min_retention max_retention soft_max_size : Z).
Context (delay_threshold : Z).
(** [SUBSCRIPTIONS_WORKER_QUEUE_SIZE], and the waiters whose receiver is gone. *)
Context (queue_size : nat) (is_closed : Z -> bool).
Notation Reads := (ReadSet (M := M) (Trace := Trace)).
Notation SubToken := (Token (M := M) (Trace := Trace)).
Notation Manager := (SubscriptionManager (M := M) (Trace := Trace) (IM := IM) (Sl := Sl)).

Record System := MkSystem {
  coordinator : RetentionCoordinator;
  world : World;
  managers : list Manager;
  queues : list (list (SubToken * Z));
  next_manager : Z;
  next_handle : Z;
}.

Definition system_log (s : System) : WriteLog := log (owned_log (coordinator s)).

(** [SubscriptionsWorker::start]. *)
Definition start (num_managers : nat) (initial : WriteLogManager) : System :=
  let initial_ts := max_ts (log initial) in
  {| coordinator := coordinator_new num_managers initial_ts initial;
     world := MkWorld ∅ ∅ [];
     managers := map (fun i => sub_manager_new i initial_ts) (seq 0 num_managers);
     queues := replicate num_managers [];
     next_manager := 0; next_handle := 0 |}.

Inductive client_error := RefreshError (e : log_error) | WorkerFull.

(** [SubscriptionsClient::subscribe]: the handle is the subscription returned.
    When the queue is full both halves are dropped. *)
Definition client_subscribe (s : System) (token : SubToken) : outcome False (System * (client_error + Z)) :=
  let h := next_handle s in
  match refresh_reads_until_max_ts (system_log s) token with
  | Panic => Panic
  | Err e => Ret (s, inl (RefreshError e))
  | Ret (inr invalid_ts) =>
      Ret ({| coordinator := coordinator s; world := subscription_invalid (world s) h invalid_ts; managers := managers s;
              queues := queues s; next_manager := next_manager s; next_handle := h + 1 |}, inr h)
  | Ret (inl token) =>
      let w := subscription_new (world s) h (token_ts token) in
      let? _ := rassert (0 <? length (queues s))%nat in
      let manager_idx := Z.to_nat (next_manager s mod Z.of_nat (length (queues s))) in
      let bump w queues := {| coordinator := coordinator s; world := w; managers := managers s; queues := queues;
                              next_manager := (next_manager s + 1) mod 2 ^ 64; next_handle := h + 1 |} in
      let? queue := expect (queues s !! manager_idx) in
      if (length queue <? queue_size)%nat
      then Ret (bump w (<[manager_idx := queue ++ [(token, h)]]> (queues s)), inr h)
      else Ret (bump (sender_drop w h) (queues s), inl WorkerFull)
  end.

Inductive Event :=
| CommitAppended (ts : Z) (writes : OrderedIndexKeyWrites) (source : WriteSource)
| ClientSubscribes (token : SubToken)
| RequestReceived (i : nat)
| LogAdvanced (i : nat)
| ClientGone (i : nat) (key : SubscriptionKey)
| DelayElapsed (h : Z).

Definition with_manager (s : System) (i : nat) (m : Manager) (w : World) : System :=
  {| coordinator := coordinator s; world := w; managers := <[i := m]> (managers s); queues := queues s;
     next_manager := next_manager s; next_handle := next_handle s |}.

Definition with_world (s : System) (w : World) : System :=
  {| coordinator := coordinator s; world := w; managers := managers s; queues := queues s;
     next_manager := next_manager s; next_handle := next_handle s |}.

(** The arms of [run_worker] and the other tasks.  An arm whose future is not
    ready leaves the state alone. *)
Definition handle (s : System) (ev : Event) : outcome subscription_error System :=
  match ev with
  | CommitAppended ts writes source =>
      let? (l, _) := append is_closed (owned_log (coordinator s)) ts writes source in
      Ret {| coordinator := {| processed_timestamps := processed_timestamps (coordinator s); owned_log := l |};
             world := world s; managers := managers s; queues := queues s;
             next_manager := next_manager s; next_handle := next_handle s |}
  | ClientSubscribes token =>
      match client_subscribe s token with Ret (s, _) => Ret s | _ => Panic end
  | RequestReceived i =>
      match managers s !! i, queues s !! i with
      | Some m, Some ((token, sender) :: rest) =>
          match subscribe m (system_log s) (world s) token sender with
          | Ret (m, w, _) =>
              Ret {| coordinator := coordinator s; world := w; managers := <[i := m]> (managers s);
                     queues := <[i := rest]> (queues s); next_manager := next_manager s; next_handle := next_handle s |}
          | _ => Panic
          end
      | _, _ => Ret s
      end
  | LogAdvanced i =>
      match managers s !! i with
      | Some m =>
          let next_ts := max_ts (system_log s) in
          if next_ts <=? processed_ts m then Ret s
          else
            let? (r, w) := advance_log heap_size min_retention max_retention soft_max_size delay_threshold m
                             (coordinator s) (world s) next_ts in
            let '(m, c) := r in
            Ret {| coordinator := c; world := w; managers := <[i := m]> (managers s); queues := queues s;
                   next_manager := next_manager s; next_handle := next_handle s |}
      | None => Ret s
      end
  | ClientGone i key =>
      match managers s !! i with
      | Some m =>
          if bool_decide (key ∈ closed_subscriptions m) then
            let? (m, w) := remove_key (take_closed m key) (world s) key in
            Ret (with_manager s i m w)
          else Ret s
      | None => Ret s
      end
  | DelayElapsed h =>
      if bool_decide (h ∈ splayed (world s)) then Ret (with_world s (splay_elapsed (world s) h)) else Ret s
  end.

(** *** Runs *)

(** All commits, and what each subscription was made with. *)
Record Ghost := MkGhost { history : list LogEntry; origins : gmap Z (Reads * Z) }.

Definition ghost_step (s : System) (ev : Event) (g : Ghost) : Ghost :=
  match ev with
  | CommitAppended ts writes source => {| history := history g ++ [(ts, writes, source)]; origins := origins g |}
  | ClientSubscribes token =>
      {| history := history g; origins := <[next_handle s := (token_reads token, token_ts token)]> (origins g) |}
  | _ => g
  end.

(** What the other components guarantee: commit timestamps are timestamps, and
    a token comes from a read at a timestamp that was published. *)
Definition event_ok (s : System) (ev : Event) : Prop :=
  match ev with
  | CommitAppended ts _ _ => Timestamp.valid ts
  | ClientSubscribes token =>
      read_set_ok (token_reads token) /\ Timestamp.valid (token_ts token) /\ token_ts token <= max_ts (system_log s)
  | _ => True
  end.

Inductive run : System -> Ghost -> Prop :=
| run_start num_managers initial_ts :
    Timestamp.valid initial_ts -> run (start num_managers (manager_new initial_ts)) (MkGhost [] ∅)
| run_step s g ev s' : run s g -> event_ok s ev -> handle s ev = Ret s' -> run s' (ghost_step s ev g).

(** *** The invariant *)

(** No commit after [from] and up to [to] conflicts with the watched reads. *)
Definition quiet (hist : list LogEntry) (reads : Reads) (from to : Z) : Prop :=
  forall e, e ∈ hist -> from < entry_ts e <= to -> ~ entry_conflicts (watched reads) e.

Lemma quiet_join hist reads a b c : quiet hist reads a b -> quiet hist reads b c -> quiet hist reads a c.
Proof. intros Hab Hbc e He Hr. destruct (Z.le_gt_cases (entry_ts e) b); [apply Hab|apply Hbc]; done || lia. Qed.

(** The subscription [h] on [reads] is valid at [t], and rightly so. *)
Record valid_at (vs : gmap Z Validity) (g : Ghost) (max h : Z) (reads : Reads) (t : Z) : Prop := {
  va_cell : exists v, vs !! h = Some v /\ valid_ts v = t;
  va_origin : exists ts0, origins g !! h = Some (reads, ts0) /\ 0 <= ts0 <= t /\ quiet (history g) reads ts0 t;
  va_max : t <= max;
}.

Definition handles_of_managers (ms : list Manager) : list Z := concat (map senders ms).
Definition handles_of_queues (qs : list (list (SubToken * Z))) : list Z := concat (map (map snd) qs).

Record log_history (l : WriteLog) (hist : list LogEntry) : Prop := {
  lh_ok : log_ok l;
  lh_purged : Timestamp.valid (purged_ts l);
  lh_max : Timestamp.valid (max_ts l);
  lh_past : forall e, e ∈ hist -> entry_ts e <= max_ts l;
  lh_kept : forall e, e ∈ hist -> purged_ts l < entry_ts e -> e ∈ by_ts l;
  lh_only : forall e, e ∈ by_ts l -> e ∈ hist;
}.

(** A manager in its place: what it has not processed is still in the log. *)
Record manager_at (c : RetentionCoordinator) (i : nat) (m : Manager) : Prop := {
  ma_ok : manager_ok m;
  ma_id : manager_id m = i;
  ma_ts : processed_timestamps c !! i = Some (processed_ts m);
  ma_range : purged_ts (log (owned_log c)) <= processed_ts m <= max_ts (log (owned_log c));
}.

Record system_ok (s : System) (g : Ghost) : Prop := {
  so_log : log_history (system_log s) (history g);
  so_len : length (processed_timestamps (coordinator s)) = length (managers s) /\ length (queues s) = length (managers s);
  so_managers : forall i m, managers s !! i = Some m -> manager_at (coordinator s) i m;
  so_handles : NoDup (handles_of_managers (managers s) ++ handles_of_queues (queues s));
  so_subscribers : forall i m id sub, managers s !! i = Some m -> slab_get id (subscribers m) = Some sub ->
    exists t, quiet (history g) (sub_reads sub) t (processed_ts m) /\
      valid_at (validities (world s)) g (max_ts (system_log s)) (sub_sender sub) (sub_reads sub) t;
  so_queued : forall q token h, q ∈ queues s -> (token, h) ∈ q ->
    read_set_ok (token_reads token) /\
    valid_at (validities (world s)) g (max_ts (system_log s)) h (token_reads token) (token_ts token);
  so_cells : forall h v, validities (world s) !! h = Some v ->
    h < next_handle s /\ (valid_ts v = -1 <-> gone (world s) h) /\
    (valid_ts v = -1 \/ exists reads, valid_at (validities (world s)) g (max_ts (system_log s)) h reads (valid_ts v));
  so_fresh : forall h, gone (world s) h -> h < next_handle s;
}.

Lemma valid_at_frame vs vs' g g' max max' h reads t :
  valid_at vs g max h reads t -> vs' !! h = vs !! h -> origins g' !! h = origins g !! h ->
  (forall e, e ∈ history g' -> e ∈ history g \/ max < entry_ts e) -> max <= max' -> valid_at vs' g' max' h reads t.
Proof.
  intros [(v & Hv & Ht) (ts0 & Ho & Hle & Hq) Hmax] Hvs Hor Hh Hm. constructor; [|exists ts0|lia].
  - exists v. by rewrite Hvs.
  - rewrite Hor. split_and!; try done; try lia. intros e He Hr. apply Hh in He as [He|He]; [by apply Hq|lia].
Qed.

(** What a handle in use is: its cell is valid, and its watcher was not told otherwise. *)
Lemma in_use s g h :
  system_ok s g -> h ∈ handles_of_managers (managers s) ++ handles_of_queues (queues s) ->
  exists reads t, valid_at (validities (world s)) g (max_ts (system_log s)) h reads t.
Proof.
  intros Hs [Hin|Hin]%elem_of_app; apply elem_of_concat_map in Hin as (x & Hx & Hh).
  - apply list_elem_of_lookup in Hx as [i Hi]. apply elem_of_senders in Hh as (id & sub & Hg & <-).
    destruct (so_subscribers _ _ Hs i x id sub Hi Hg) as (t & _ & Hv). eauto.
  - apply list_elem_of_fmap in Hh as ([token h'] & -> & Hp). destruct (so_queued _ _ Hs x token h' Hx Hp) as [_ Hv]. eauto.
Qed.

Lemma in_use_fresh s g h :
  system_ok s g -> h ∈ handles_of_managers (managers s) ++ handles_of_queues (queues s) -> h < next_handle s /\ ~ gone (world s) h.
Proof.
  intros Hs Hin. destruct (in_use s g h Hs Hin) as (reads & t & [(v & Hv & Ht) (ts0 & _ & ? & _) _]).
  destruct (so_cells _ _ Hs h v Hv) as (Hlt & Hg & _). split; [done|]. rewrite <- Hg. lia.
Qed.

(** From [w] to [w'] the cells in [keep] are the same, and others are the same
    or were cleared. *)
Record weakens (w w' : World) (keep : Z -> Prop) : Prop := {
  wk_keep : forall h, keep h -> validities w' !! h = validities w !! h;
  wk_cell : forall h v', validities w' !! h = Some v' ->
    validities w !! h = Some v' /\ (gone w' h <-> gone w h) \/ valid_ts v' = -1 /\ gone w' h /\ is_Some (validities w !! h);
  wk_gone : forall h, gone w' h -> gone w h \/ is_Some (validities w !! h);
}.

Lemma weakens_refl w keep : weakens w w keep.
Proof. constructor; auto. Qed.

Lemma dropped_weakens w h w' : is_Some (validities w !! h) -> sender_dropped w h w' -> weakens w w' (fun h' => h' <> h).
Proof.
  intros Hh [Hself Hdom Hother Hwatch]. constructor; [done| |].
  - intros h' v' Hv. destruct (decide (h' = h)) as [->|Hne].
    + right. split; [by apply Hself|]. split; [|done]. apply Hwatch. by right.
    + left. rewrite <- Hother by done. split; [done|]. rewrite Hwatch. tauto.
  - intros h' [?| ->]%Hwatch; auto.
Qed.

(** Losing subscribers keeps the invariant. *)
Lemma shrink_ok s g s' :
  system_ok s g -> coordinator s' = coordinator s -> next_handle s' = next_handle s ->
  length (managers s') = length (managers s) -> length (queues s') = length (queues s) ->
  NoDup (handles_of_managers (managers s') ++ handles_of_queues (queues s')) ->
  weakens (world s) (world s') (fun h => h ∈ handles_of_managers (managers s') ++ handles_of_queues (queues s')) ->
  (forall i m', managers s' !! i = Some m' -> exists m, managers s !! i = Some m /\ manager_ok m' /\ manager_id m' = manager_id m /\
     processed_ts m' = processed_ts m /\
     forall id sub, slab_get id (subscribers m') = Some sub -> slab_get id (subscribers m) = Some sub) ->
  (forall q' p, q' ∈ queues s' -> p ∈ q' -> exists q, q ∈ queues s /\ p ∈ q) ->
  system_ok s' g.
Proof.
  intros Hs Hc Hn Hlm Hlq Hnd [Hk Hcell Hgone] Hm Hq. pose proof Hs as [Hlog Hlen Hms Hh Hsub Hqu Hcells Hfr].
  assert (Hlg : system_log s' = system_log s) by (unfold system_log; by rewrite Hc).
  constructor; rewrite ?Hc, ?Hlg, ?Hn, ?Hlm, ?Hlq; try done.
  - intros i m' Hi. destruct (Hm i m' Hi) as (m & Hi' & Hok & Hid & Hp & _). destruct (Hms i m Hi') as [_ E2 E3 E4].
    constructor; congruence.
  - intros i m' id sub Hi Hg. destruct (Hm i m' Hi) as (m & Hi' & _ & _ & Hp & Hget).
    destruct (Hsub i m id sub Hi' (Hget _ _ Hg)) as (t & Ht & Hv). exists t. split; [by rewrite Hp|].
    eapply valid_at_frame; [done| |done|auto|lia]. apply Hk, elem_of_app. left. apply elem_of_concat_map. exists m'.
    split; [by eapply list_elem_of_lookup_2|]. apply elem_of_senders; eauto.
  - intros q' token h Hq' Hp. destruct (Hq q' _ Hq' Hp) as (q & Hqin & Hpin). destruct (Hqu q token h Hqin Hpin) as [Hok Hv].
    split; [done|]. eapply valid_at_frame; [done| |done|auto|lia]. apply Hk, elem_of_app. right. apply elem_of_concat_map.
    exists q'. split; [done|by apply (list_elem_of_fmap_2 snd _ (token, h))].
  - intros h v' Hv. destruct (Hcell h v' Hv) as [[Hv0 Hg]|(Hinv & Hg & [v0 Hv0])]; destruct (Hcells h _ Hv0) as (Hlt & Hiff & Hval).
    + split; [done|]. split; [by rewrite Hg|]. destruct Hval as [?|[r Hval]]; [by left|right]. exists r.
      eapply valid_at_frame; [done|by rewrite Hv, Hv0|done|auto|lia].
    + split; [done|]. split; [done|by left].
  - intros h [?|[v Hv]]%Hgone; [by apply Hfr|by eapply Hcells].
Qed.

(** *** Every event keeps the invariant *)

Lemma commit_step s g ts writes source s' :
  system_ok s g -> Timestamp.valid ts -> handle s (CommitAppended ts writes source) = Ret s' ->
  system_ok s' (ghost_step s (CommitAppended ts writes source) g).
Proof.
  intros Hs Hv Hstep. pose proof Hs as [[Hok Hp Hmax Hpast Hkept Honly] Hlen Hms Hh Hsub Hqu Hcells Hfr]. unfold system_log in *.
  cbn [handle] in Hstep. destruct (append_spec is_closed (E := subscription_error) (owned_log (coordinator s)) ts writes source Hok) as [Happ Hpanic].
  destruct (Z.le_gt_cases ts (max_ts (log (owned_log (coordinator s))))) as [Hle|Hlt]; [by rewrite (Hpanic Hle) in Hstep|].
  destruct (Happ Hlt) as (l' & n & Hap & Hlog & Hok' & Hmax' & _). rewrite Hap in Hstep. injection Hstep as <-.
  assert (Hframe : forall h reads t,
    valid_at (validities (world s)) g (max_ts (log (owned_log (coordinator s)))) h reads t ->
    valid_at (validities (world s)) (ghost_step s (CommitAppended ts writes source) g) ts h reads t).
  { intros h reads t Hva. eapply valid_at_frame; [done|done|done| |lia]. cbn [ghost_step history].
    intros e [?|He]%elem_of_app; [by left|right]. by apply list_elem_of_singleton in He as ->. }
  constructor; unfold system_log; cbn [coordinator owned_log processed_timestamps world managers queues next_handle]; rewrite ?Hmax'; try done.
  - constructor; rewrite ?Hmax'; try done; rewrite ?Hlog; cbn [by_ts purged_ts ghost_step history]; try done.
    + intros e [He%Hpast|He]%elem_of_app; [lia|]. apply list_elem_of_singleton in He as ->. done.
    + intros e [He|He]%elem_of_app Hlt'; apply elem_of_app; [left; by apply Hkept|by right].
    + intros e [He|He]%elem_of_app; apply elem_of_app; [left; by apply Honly|by right].
  - intros i m Hi. destruct (Hms i m Hi) as [M1 M2 M3 M4]. constructor; try done.
    cbn [owned_log]. rewrite Hmax', Hlog. cbn [purged_ts]. lia.
  - intros i m id sub Hi Hg. destruct (Hsub i m id sub Hi Hg) as (t & Ht & Hva). exists t. split; [|by apply Hframe].
    destruct (Hms i m Hi) as [_ _ _ M4]. cbn [ghost_step history].
    intros e [?|He]%elem_of_app Hr; [by apply Ht|]. apply list_elem_of_singleton in He as ->. unfold entry_ts in Hr. cbn in Hr. lia.
  - intros q token h Hq Hp'. destruct (Hqu q token h Hq Hp') as [? ?]. auto.
  - intros h v Hc. destruct (Hcells h v Hc) as (? & ? & [?|[r Hr]]); split_and!; auto. right. exists r. by apply Hframe.
Qed.

Lemma delay_step s g h s' : system_ok s g -> handle s (DelayElapsed h) = Ret s' -> system_ok s' g.
Proof.
  intros Hs. cbn [handle]. case_bool_decide as Hin; intros [= <-]; [|done].
  assert (Hg : gone (world s) h) by (by right). pose proof (so_handles _ _ Hs) as Hnd.
  apply (shrink_ok s g); try done; cbn [with_world world managers queues].
  - constructor.
    + intros h' Hh'. assert (h' <> h) by (intros ->; by eapply in_use_fresh).
      cbn [splay_elapsed validities]. destruct (drop_quietly_spec (world s) h) as [-> _]. by rewrite decide_False.
    + intros h' v' Hv. assert (Hw : gone (splay_elapsed (world s) h) h' <-> gone (world s) h').
      { unfold gone, splay_elapsed. cbn [states splayed sender_drop set_valid_ts]. rewrite elem_of_bfilter, negb_true_iff, Z.eqb_neq.
        destruct (decide (h' = h)) as [->|]; [rewrite lookup_insert_eq; tauto|rewrite lookup_insert_ne by done; tauto]. }
      cbn [splay_elapsed validities] in Hv. destruct (drop_quietly_spec (world s) h) as [Hl _]. rewrite Hl in Hv.
      destruct (decide (h' = h)) as [->|]; [right|by left]. destruct (validities (world s) !! h) as [v|] eqn:Hc; [|done].
      injection Hv as <-. split_and!; [done|by rewrite Hw|done].
    + intros h' [Hst|Hsp]; [|left; right; by apply elem_of_bfilter in Hsp as [? _]].
      cbn [splay_elapsed states sender_drop set_valid_ts] in Hst. destruct (decide (h' = h)) as [->|]; [by left|].
      rewrite lookup_insert_ne in Hst by done. left. by left.
  - intros i m Hi. exists m. destruct (so_managers _ _ Hs i m Hi). done.
  - eauto.
Qed.

Lemma manager_handles s i m m' :
  managers s !! i = Some m ->
  handles_of_managers (managers s) ≡ₚ senders m ++ handles_of_managers (delete i (managers s)) /\
  handles_of_managers (<[i := m']> (managers s)) ≡ₚ senders m' ++ handles_of_managers (delete i (managers s)).
Proof. intros Hi. split; [by apply concat_map_split|by eapply concat_map_insert]. Qed.

Lemma client_gone_step s g i key s' : system_ok s g -> handle s (ClientGone i key) = Ret s' -> system_ok s' g.
Proof.
  intros Hs. cbn [handle]. destruct (managers s !! i) as [m|] eqn:Hi; [|by intros [= <-]].
  case_bool_decide as Hin; [|by intros [= <-]]. destruct (so_managers _ _ Hs i m Hi) as [Hok Hid _ _].
  destruct (client_gone_ok m (world s) key Hok Hin) as (m' & w' & -> & Hok' & Hid' & Hp' & Hcase). intros [= <-].
  pose proof (so_handles _ _ Hs) as Hnd. destruct (manager_handles s i m m' Hi) as [Hp1 Hp2].
  assert (Hget : forall id sub, slab_get id (subscribers m') = Some sub -> slab_get id (subscribers m) = Some sub).
  { intros id sub. destruct Hcase as [[_ ->]|(s0 & _ & _ & Hg)]; [done|]. rewrite Hg. by destruct (decide _). }
  apply (shrink_ok s g); try done; cbn [with_manager managers queues world].
  - by rewrite length_insert.
  - destruct Hcase as [[_ Heq]|(s0 & Hs0 & _ & Hg)].
    + rewrite Hp2. rewrite Hp1 in Hnd. unfold senders in *. by rewrite Heq.
    + rewrite Hp2. rewrite Hp1, (removed_senders m m' _ s0 Hs0 Hg) in Hnd. cbn [app] in Hnd. by apply NoDup_cons in Hnd as [_ ?].
  - destruct Hcase as [[-> Heq]|(s0 & Hs0 & Hd & Hg)]; [apply weakens_refl|].
    destruct (so_subscribers _ _ Hs i m _ s0 Hi Hs0) as (t & _ & [(v & Hv & _) _ _]).
    destruct (dropped_weakens _ _ _ ltac:(by eexists) Hd) as [W1 W2 W3]. constructor; [|done|done].
    intros h. rewrite Hp2. intros Hh. apply W1. intros ->. rewrite Hp1, (removed_senders m m' _ s0 Hs0 Hg) in Hnd. cbn [app] in Hnd.
    apply NoDup_cons in Hnd as [? _]. done.
  - intros j m2 [(<- & <- & _)|(Hne & Hj)]%list_lookup_insert_Some; [by exists m|]. exists m2. destruct (so_managers _ _ Hs j m2 Hj). done.
  - eauto.
Qed.

(** Reads refreshed against the retained log have no conflict in the history. *)
Lemma log_quiet l hist (reads : Reads) from to :
  log_history l hist -> read_set_ok reads -> purged_ts l <= from ->
  (forall e, e ∈ by_ts l -> from < entry_ts e <= to -> ~ entry_conflicts reads e) -> quiet hist reads from to.
Proof. intros Hl Hok Hp Hq e He Hr Hc. apply (Hq e); [|done|by apply watched_conflicts]. apply (lh_kept _ _ Hl); [done|lia]. Qed.

Lemma pop_queue (qs : list (list (SubToken * Z))) i p rest :
  qs !! i = Some (p :: rest) -> handles_of_queues qs ≡ₚ p.2 :: handles_of_queues (<[i := rest]> qs).
Proof.
  intros Hi. unfold handles_of_queues. rewrite (concat_map_split (map snd) qs i _ Hi), (concat_map_insert (map snd) qs i _ rest Hi). done.
Qed.

Lemma pop_queue_elem (qs : list (list (SubToken * Z))) i p rest q x :
  qs !! i = Some (p :: rest) -> q ∈ <[i := rest]> qs -> x ∈ q -> exists q0, q0 ∈ qs /\ x ∈ q0.
Proof.
  intros Hi Hq Hx. apply list_elem_of_lookup in Hq as [j Hj]. apply list_lookup_insert_Some in Hj as [(<- & <- & _)|(_ & Hj)].
  - exists (p :: rest). split; [by eapply list_elem_of_lookup_2|by right].
  - exists q. split; [by eapply list_elem_of_lookup_2|done].
Qed.

Lemma receive_step s g i s' : system_ok s g -> handle s (RequestReceived i) = Ret s' -> system_ok s' g.
Proof.
  intros Hs. cbn [handle]. destruct (managers s !! i) as [m|] eqn:Hi; [|by intros [= <-]].
  destruct (queues s !! i) as [[|[token h] rest]|] eqn:Hq; [by intros [= <-]| |by intros [= <-]].
  destruct (so_managers _ _ Hs i m Hi) as [Hok Hid Hts Hr]. pose proof (so_log _ _ Hs) as Hl.
  assert (Hqin : (token, h) :: rest ∈ queues s) by (by eapply list_elem_of_lookup_2).
  destruct (so_queued _ _ Hs _ token h Hqin ltac:(left)) as [Hsub Hva]. pose proof Hva as [(v & Hv & Hvt) (ts0 & Hor & Hts0 & Hq0) Hmx].
  assert (Hvalid : Timestamp.valid (token_ts token)).
  { pose proof (lh_max _ _ Hl). unfold Timestamp.valid, Timestamp.MIN in *. lia. }
  pose proof (so_handles _ _ Hs) as Hnd. pose proof (pop_queue _ _ _ _ Hq) as Hpq. cbn [snd] in Hpq.
  rewrite Hpq, <- Permutation_middle in Hnd. apply NoDup_cons in Hnd as [Hnin Hnd].
  destruct (subscribe_ok m (system_log s) (world s) token h Hok (lh_ok _ _ Hl) Hvalid Hsub)
    as [(m' & id & -> & [R1 R2 R3 R4 R5] & Hqt)|[(w' & r & -> & Hd)| ->]]; [| |done]; intros [= <-].
  - destruct (manager_handles s i m m' Hi) as [Hp1 Hp2]. pose proof Hs as [_ Hlen Hms _ Hsubs Hqu Hcells Hfr].
    constructor; unfold system_log in *; cbn [coordinator world managers queues next_handle]; rewrite ?length_insert; try done.
    + intros j m2 [(<- & <- & _)|(Hne & Hj)]%list_lookup_insert_Some; [|by apply Hms]. constructor; rewrite ?R2, ?R3; done.
    + rewrite Hp2, R4. rewrite Hp1 in Hnd, Hnin. cbn [app]. by constructor.
    + intros j m2 id2 sub [(<- & <- & _)|(Hne & Hj)]%list_lookup_insert_Some; [|by apply (Hsubs j)]. rewrite R3.
      intros [Hg|[-> ->]]%R5; [by apply (Hsubs i m id2)|].
      exists (token_ts token). split; [|done]. destruct (Z.le_gt_cases (processed_ts m) (token_ts token)); [intros e _ ?; lia|].
      destruct (Hqt ltac:(lia)). by eapply log_quiet.
    + intros q tk h2 Hq2 Hp2'. destruct (pop_queue_elem _ _ _ _ _ _ Hq Hq2 Hp2') as (q0 & ? & ?). by apply (Hqu q0).
  - apply (shrink_ok s g); try done; cbn [coordinator world managers queues next_handle]; rewrite ?length_insert, ?list_insert_id by done; try done.
    + destruct (dropped_weakens _ _ _ ltac:(by eexists) Hd) as [W1 W2 W3]. constructor; [|done|done]. intros h' Hh'. apply W1. by intros ->.
    + intros j m2 Hj. exists m2. destruct (so_managers _ _ Hs j m2 Hj). done.
    + intros q2 x Hq2 Hx. by eapply pop_queue_elem.
Qed.

(** The premises of [advance_log_ok] and of the retention hold in a system. *)
Lemma retention_ready s g i m :
  system_ok s g -> managers s !! i = Some m -> processed_ts m < max_ts (system_log s) ->
  (manager_id m < length (processed_timestamps (coordinator s)))%nat /\
  forall t, t ∈ <[manager_id m := max_ts (system_log s)]> (processed_timestamps (coordinator s)) ->
    0 <= t /\ purged_ts (system_log s) <= t.
Proof.
  intros Hs Hi Hlt. pose proof (so_len _ _ Hs) as [Hlen _]. destruct (so_managers _ _ Hs i m Hi) as [_ Hid Hts Hr].
  pose proof (so_log _ _ Hs) as [Hok Hp _ _ _ _]. unfold Timestamp.valid, Timestamp.MIN, system_log in *.
  split; [rewrite Hid; by apply lookup_lt_Some in Hts|]. intros t Ht. apply list_elem_of_lookup in Ht as [j Hj].
  apply list_lookup_insert_Some in Hj as [(<- & <- & _)|(Hne & Hj)]; [lia|].
  assert (Hjm : is_Some (managers s !! j)) by (apply lookup_lt_is_Some; rewrite <- Hlen; by apply lookup_lt_Some in Hj).
  destruct Hjm as [mj Hmj]. destruct (so_managers _ _ Hs j mj Hmj) as [_ _ Htj Hrj]. rewrite Hj in Htj. injection Htj as ->. lia.
Qed.

(** A manager advances in any system: nothing fails, and the fates of its
    subscribers are as [advance_log_ok] says. *)
Lemma advance_ready s g i m :
  system_ok s g -> managers s !! i = Some m -> processed_ts m < max_ts (system_log s) ->
  exists m' c' w' dropped,
    handle s (LogAdvanced i) = Ret {| coordinator := c'; world := w'; managers := <[i := m']> (managers s); queues := queues s;
      next_manager := next_manager s; next_handle := next_handle s |} /\
    advanced_to m m' (world s) w' (system_log s) (max_ts (system_log s)) /\
    processed_timestamps c' = <[i := max_ts (system_log s)]> (processed_timestamps (coordinator s)) /\
    log_ok (log (owned_log c')) /\ by_ts (system_log s) = dropped ++ by_ts (log (owned_log c')) /\
    (forall e, e ∈ dropped -> entry_ts e <= purged_ts (log (owned_log c'))) /\
    purged_ts (system_log s) <= purged_ts (log (owned_log c')) /\
    max_ts (log (owned_log c')) = max_ts (system_log s) /\
    (forall t, t ∈ processed_timestamps c' -> purged_ts (log (owned_log c')) <= t).
Proof.
  intros Hs Hi Hlt. destruct (so_managers _ _ Hs i m Hi) as [Hok Hid _ Hr]. pose proof (so_log _ _ Hs) as [Hlok Hp Hmx _ _ _].
  destruct (retention_ready s g i m Hs Hi Hlt) as [Hlen Hts].
  destruct (update_and_enforce_retention_ok heap_size min_retention max_retention soft_max_size (coordinator s) (manager_id m)
    (max_ts (system_log s)) Hlen Hlok Hts) as (c' & dropped & Hc & C1 & C2 & _ & C3 & C4 & C5 & C6 & C7).
  assert (Hnd : NoDup (senders m)).
  { pose proof (so_handles _ _ Hs) as Hnd. rewrite (proj1 (manager_handles s i m m Hi)), <- app_assoc in Hnd.
    by apply NoDup_app in Hnd as [? _]. }
  assert (Hval : Timestamp.valid (processed_ts m)).
  { unfold Timestamp.valid, system_log in *. lia. }
  destruct (advance_log_ok heap_size min_retention max_retention soft_max_size delay_threshold m (coordinator s) (world s)
    (max_ts (system_log s)) Hok Hnd Hlok Hval Hmx ltac:(unfold system_log in *; lia) c' Hc) as (m' & w' & Hadv & Hto).
  rewrite Hid in C1. exists m', c', w', dropped. split; [|done]. cbn [handle]. rewrite Hi.
  rewrite (proj2 (Z.leb_gt _ _)) by done. by rewrite Hadv.
Qed.

(** The log after trimming still answers for the whole history. *)
Lemma trimmed_history l l' hist dropped :
  log_history l hist -> log_ok l' -> by_ts l = dropped ++ by_ts l' -> (forall e, e ∈ dropped -> entry_ts e <= purged_ts l') ->
  purged_ts l <= purged_ts l' -> max_ts l' = max_ts l -> log_history l' hist.
Proof.
  intros [L1 L2 L3 L4 L5 L6] Hok Hby Hd Hp Hm. pose proof (purged_le_max l' Hok). constructor; rewrite ?Hm; try done.
  - unfold Timestamp.valid in *. lia.
  - intros e He Hlt. assert (Hin : e ∈ by_ts l) by (apply L5; [done|lia]). rewrite Hby in Hin.
    apply elem_of_app in Hin as [Hin|?]; [|done]. apply Hd in Hin. lia.
  - intros e He. apply L6. rewrite Hby. apply elem_of_app. by right.
Qed.

(** A subscriber that is kept is rightly valid at the new timestamp. *)
Lemma kept_valid s g i m id sub w' :
  system_ok s g -> managers s !! i = Some m -> slab_get id (subscribers m) = Some sub -> processed_ts m < max_ts (system_log s) ->
  validities w' !! sub_sender sub = at_ts (max_ts (system_log s)) <$> validities (world s) !! sub_sender sub ->
  (forall e, in_range (system_log s) (processed_ts m) (max_ts (system_log s)) e -> ~ entry_conflicts (watched (sub_reads sub)) e) ->
  valid_at (validities w') g (max_ts (system_log s)) (sub_sender sub) (sub_reads sub) (max_ts (system_log s)).
Proof.
  intros Hs Hi Hg Hlt Hv Hno. destruct (so_subscribers _ _ Hs i m id sub Hi Hg) as (t & Hq & [(v & Hc & _) (ts0 & Ho & Hr & Hq0) Hmx]).
  destruct (so_managers _ _ Hs i m Hi) as [_ _ _ Hrange]. constructor; [|exists ts0|done].
  - rewrite Hv, Hc. eexists. split; [done|]. done.
  - split; [done|]. split; [lia|]. eapply quiet_join; [done|]. eapply quiet_join; [done|].
    intros e He Hre. apply Hno. split; [|done]. apply (lh_kept _ _ (so_log _ _ Hs)); [done|]. unfold system_log in *. lia.
Qed.

Lemma advance_step s g i s' : system_ok s g -> handle s (LogAdvanced i) = Ret s' -> system_ok s' g.
Proof.
  intros Hs Hstep. destruct (managers s !! i) as [m|] eqn:Hi; [|cbn [handle] in Hstep; rewrite Hi in Hstep; by injection Hstep as <-].
  destruct (Z.le_gt_cases (max_ts (system_log s)) (processed_ts m)) as [Hle|Hlt].
  { cbn [handle] in Hstep. rewrite Hi, (proj2 (Z.leb_le _ _)) in Hstep by done. by injection Hstep as <-. }
  destruct (advance_ready s g i m Hs Hi Hlt) as (m' & c' & w' & dropped & Hh & Hto & C1 & C2 & C3 & C4 & C5 & C6 & C7).
  rewrite Hh in Hstep. injection Hstep as <-. destruct Hto as [A1 A2 A3 A4 A5 [hs A6] A7 A8 A9].
  pose proof Hs as [HL [Hl1 Hl2] Hms Hnd Hsubs Hqu Hcells Hfr]. destruct (Hms i m Hi) as [M1 M2 M3 M4].
  destruct (manager_handles s i m m' Hi) as [Hp1 Hp2]. pose proof Hnd as Hnd'. rewrite Hp1, <- app_assoc in Hnd.
  apply NoDup_app in Hnd as (HndS & Hdisj & HndR). pose proof HndS as HndS'. rewrite A6 in HndS'. apply NoDup_app in HndS' as (_ & _ & HndS').
  assert (Hne : forall j mj id sub, j <> i -> managers s !! j = Some mj -> slab_get id (subscribers mj) = Some sub -> sub_sender sub ∉ senders m).
  { intros j mj id sub Hji Hj Hg Hin. apply (Hdisj _ Hin), elem_of_app. left. apply elem_of_concat_map. exists mj.
    split; [|apply elem_of_senders; eauto]. apply (list_elem_of_lookup_2 _ (if decide (j < i)%nat then j else Nat.pred j)).
    destruct (decide (j < i)%nat); [by rewrite list_lookup_delete_lt|]. rewrite list_lookup_delete_ge by lia. by replace (S (Nat.pred j)) with j by lia. }
  assert (Hvalid : forall id sub, slab_get id (subscribers m') = Some sub ->
    valid_at (validities w') g (max_ts (system_log s)) (sub_sender sub) (sub_reads sub) (max_ts (system_log s))).
  { intros id sub Hg. destruct (A4 id sub (A5 _ _ Hg)) as [(_ & Hv & Hno)|(Hn & _)]; [|congruence].
    eapply kept_valid; [done|done|by apply A5|done|done|done]. }
  constructor; unfold system_log; cbn [coordinator world managers queues next_handle]; rewrite ?length_insert, ?C1, ?length_insert; try done.
  - by eapply trimmed_history.
  - intros j m2 [(<- & <- & _)|(Hne' & Hj)]%list_lookup_insert_Some.
    + assert (Hts : processed_timestamps c' !! i = Some (max_ts (system_log s))).
      { rewrite C1. apply list_lookup_insert_eq. by apply lookup_lt_Some in M3. }
      constructor; [done|congruence|by rewrite A3|]. rewrite A3, C6. split; [|done]. apply C7. by eapply list_elem_of_lookup_2.
    + destruct (Hms j m2 Hj) as [N1 N2 N3 N4].
      assert (Hts : processed_timestamps c' !! j = Some (processed_ts m2)) by (by rewrite C1, list_lookup_insert_ne).
      constructor; [done|done|done|]. rewrite C6. split; [|apply N4]. apply C7. by eapply list_elem_of_lookup_2.
  - rewrite Hp2, <- app_assoc. apply NoDup_app. split; [done|]. split; [|done]. intros h Hin. apply Hdisj. rewrite A6. apply elem_of_app. by right.
  - unfold system_log in *. rewrite C6. intros j m2 id sub [(<- & <- & _)|(Hne' & Hj)]%list_lookup_insert_Some Hg.
    + exists (max_ts (log (owned_log (coordinator s)))). rewrite A3. split; [intros e _ ?; lia|by eapply Hvalid].
    + destruct (Hsubs j m2 id sub Hj Hg) as (t & Hq & Hva). exists t. split; [done|].
      eapply valid_at_frame; [done| |done|auto|lia]. eapply A8, Hne; [|done|done]. congruence.
  - unfold system_log in *. rewrite C6. intros q token h Hq Hp. destruct (Hqu q token h Hq Hp) as [? Hva]. split; [done|].
    eapply valid_at_frame; [done| |done|auto|lia]. apply A8. intros Hin. apply (Hdisj _ Hin), elem_of_app. right. apply elem_of_concat_map.
    exists q. split; [done|by apply (list_elem_of_fmap_2 snd _ (token, h))].
  - unfold system_log in *. rewrite C6. intros h v' Hv'. destruct (decide (h ∈ senders m)) as [Hin|Hnin].
    + apply elem_of_senders in Hin as (id & sub & Hg & <-).
      assert (Hold : exists v, validities (world s) !! sub_sender sub = Some v /\ valid_ts v <> -1).
      { destruct (Hsubs i m id sub Hi Hg) as (t & _ & [(v & Hc & <-) (ts0 & _ & ? & _) _]). exists v. split; [done|lia]. }
      destruct Hold as (v & Hc & Hpos). destruct (Hcells _ v Hc) as (Hfresh & Hiff & _). split; [done|].
      destruct (A4 id sub Hg) as [(Hg' & Hv & _)|(Hg' & t & Hv & _)]; rewrite Hv, Hc in Hv'; injection Hv' as <-; cbn [at_ts invalidated valid_ts].
      * pose proof (Hvalid id sub Hg') as Hva. destruct (va_origin _ _ _ _ _ _ Hva) as (ts0 & _ & ? & _).
        split; [|right; eauto]. split; [lia|]. rewrite A9. intros [Hgone|(id' & sub' & Hid' & Hn & Heq)]; [tauto|].
        rewrite (senders_inj m id id' sub sub' HndS Hg Hid' (eq_sym Heq)) in Hg'. congruence.
      * split; [|by left]. split; [|done]. intros _. apply A9. right. exists id, sub. done.
    + rewrite A8 in Hv' by done. destruct (Hcells h v' Hv') as (? & Hiff & Hval). split; [done|]. split.
      * rewrite Hiff, A9. split; [by left|]. intros [?|(id' & sub' & Hid' & _ & <-)]; [done|]. exfalso. apply Hnin, elem_of_senders. eauto.
      * destruct Hval as [?|[r Hva]]; [by left|right]. exists r. eapply valid_at_frame; [done| |done|auto|lia]. by apply A8.
  - intros h [?|(id & sub & Hg & _ & <-)]%A9; [by apply Hfr|]. apply (in_use_fresh s g); [done|]. apply elem_of_app. left.
    apply elem_of_concat_map. exists m. split; [by eapply list_elem_of_lookup_2|apply elem_of_senders; eauto].
Qed.

(** A fresh cell. *)
Lemma fresh_cell s g h reads t : system_ok s g ->
  valid_at (validities (world s)) g (max_ts (system_log s)) h reads t -> h <> next_handle s.
Proof. intros Hs [(v & Hv & _) _ _] ->. apply (so_cells _ _ Hs) in Hv. lia. Qed.

(** A new subscription gets a fresh handle: the cells of the others are as before. *)
Record new_cell (s : System) (w' : World) : Prop := {
  nc_cells : forall h, h <> next_handle s -> validities w' !! h = validities (world s) !! h;
  nc_gone : forall h, h <> next_handle s -> gone w' h <-> gone (world s) h;
}.

Lemma subscribed_ok s g token s' :
  system_ok s g -> new_cell s (world s') -> coordinator s' = coordinator s -> managers s' = managers s ->
  next_handle s' = next_handle s + 1 -> length (queues s') = length (queues s) ->
  NoDup (handles_of_managers (managers s) ++ handles_of_queues (queues s')) ->
  (forall v, validities (world s') !! next_handle s = Some v -> (valid_ts v = -1 <-> gone (world s') (next_handle s)) /\
     (valid_ts v = -1 \/ valid_at (validities (world s')) (ghost_step s (ClientSubscribes token) g) (max_ts (system_log s))
                            (next_handle s) (token_reads token) (valid_ts v))) ->
  (forall q p, q ∈ queues s' -> p ∈ q -> (exists q0, q0 ∈ queues s /\ p ∈ q0) \/
     (p.2 = next_handle s /\ read_set_ok (token_reads p.1) /\
      valid_at (validities (world s')) (ghost_step s (ClientSubscribes token) g) (max_ts (system_log s)) p.2 (token_reads p.1) (token_ts p.1))) ->
  system_ok s' (ghost_step s (ClientSubscribes token) g).
Proof.
  intros Hs [Nc Ng] Hc Hm Hn Hlq Hnd Hnew Hq. pose proof Hs as [HL Hlen Hms _ Hsubs Hqu Hcells Hfr].
  assert (Hlg : system_log s' = system_log s) by (unfold system_log; by rewrite Hc).
  assert (Hframe : forall h reads t, valid_at (validities (world s)) g (max_ts (system_log s)) h reads t ->
    valid_at (validities (world s')) (ghost_step s (ClientSubscribes token) g) (max_ts (system_log s)) h reads t).
  { intros h reads t Hva. pose proof (fresh_cell s g h reads t Hs Hva). eapply valid_at_frame; [done|by apply Nc| |auto|lia].
    cbn [ghost_step origins]. by rewrite lookup_insert_ne. }
  constructor; rewrite ?Hc, ?Hlg, ?Hm, ?Hn, ?Hlq; try done.
  - intros i m id sub Hi Hg. destruct (Hsubs i m id sub Hi Hg) as (t & ? & ?). exists t. auto.
  - intros q tk h Hq' Hp. destruct (Hq q (tk, h) Hq' Hp) as [(q0 & Hq0 & Hp0)|(_ & Hsub & Hva)]; [|done].
    destruct (Hqu q0 tk h Hq0 Hp0). auto.
  - intros h v Hv. destruct (decide (h = next_handle s)) as [->|Hne].
    + destruct (Hnew v Hv) as [? [?|?]]; (split; [lia|]); eauto.
    + rewrite Nc in Hv by done. destruct (Hcells h v Hv) as (? & Hiff & Hval). split; [lia|]. split; [by rewrite Hiff, (Ng h Hne)|].
      destruct Hval as [?|[r Hva]]; [by left|right]. exists r. by apply Hframe.
  - intros h Hg. destruct (decide (h = next_handle s)) as [->|Hne]; [lia|]. apply Ng in Hg; [|done]. apply Hfr in Hg. lia.
Qed.

Lemma push_queue (qs : list (list (SubToken * Z))) i q token h :
  qs !! i = Some q -> handles_of_queues (<[i := q ++ [(token, h)]]> qs) ≡ₚ h :: handles_of_queues qs.
Proof.
  intros Hi. unfold handles_of_queues. rewrite (concat_map_split (map snd) qs i _ Hi), (concat_map_insert (map snd) qs i _ _ Hi).
  rewrite map_app, <- app_assoc. cbn [map snd app]. by rewrite <- Permutation_middle.
Qed.

Lemma origin_ok s g token : system_ok s g -> system_ok s (ghost_step s (ClientSubscribes token) g).
Proof.
  intros Hs. pose proof Hs as [HL Hlen Hms Hnd Hsubs Hqu Hcells Hfr].
  assert (Hframe : forall h reads t, valid_at (validities (world s)) g (max_ts (system_log s)) h reads t ->
    valid_at (validities (world s)) (ghost_step s (ClientSubscribes token) g) (max_ts (system_log s)) h reads t).
  { intros h reads t Hva. pose proof (fresh_cell s g h reads t Hs Hva). eapply valid_at_frame; [done|done| |auto|lia].
    cbn [ghost_step origins]. by rewrite lookup_insert_ne. }
  constructor; try done.
  - intros i m id sub Hi Hg. destruct (Hsubs i m id sub Hi Hg) as (t & ? & ?). exists t. auto.
  - intros q tk h Hq Hp. destruct (Hqu q tk h Hq Hp). auto.
  - intros h v Hv. destruct (Hcells h v Hv) as (? & ? & [?|[r ?]]); (split; [done|]); eauto.
Qed.

Lemma client_step s g token s' :
  system_ok s g -> event_ok s (ClientSubscribes token) -> handle s (ClientSubscribes token) = Ret s' ->
  system_ok s' (ghost_step s (ClientSubscribes token) g).
Proof.
  intros Hs (Hsub & Hval & Hmax) Hstep. cbn [handle] in Hstep. unfold client_subscribe in Hstep.
  pose proof (so_log _ _ Hs) as HL. pose proof (refresh_token_spec (system_log s) token (max_ts (system_log s)) (lh_ok _ _ HL) Hval) as Hr.
  unfold refresh_reads_until_max_ts in Hstep. pose proof (so_handles _ _ Hs) as Hnd.
  assert (Hng : ~ gone (world s) (next_handle s)) by (intros Hg%(so_fresh _ _ Hs); lia).
  destruct (refresh_token (system_log s) token (max_ts (system_log s))) as [[token'|its]|e|]; [| | |done].
  3:{ injection Hstep as <-. by apply origin_ok. }
  2:{ injection Hstep as <-. apply (subscribed_ok s g); try done; cbn [world queues].
      - constructor; intros h Hne; unfold gone; cbn [subscription_invalid validities states splayed]; by rewrite lookup_insert_ne.
      - intros v. cbn [subscription_invalid validities]. rewrite lookup_insert_eq. intros [= <-]. cbn [validity_invalid valid_ts].
        split; [|by left]. split; [|done]. intros _. left. cbn [subscription_invalid states]. by rewrite lookup_insert_eq.
      - eauto. }
  destruct Hr as (Hrd & Hts & Hp & Hq). rewrite Z.max_r in Hts by done. cbn [obind] in Hstep. rewrite Hts in Hstep.
  unfold rassert in Hstep. destruct (0 <? length (queues s))%nat; [|done]. cbn [obind] in Hstep.
  set (i := Z.to_nat _) in Hstep. destruct (queues s !! i) as [q|] eqn:Hqi; [|done]. cbn [expect obind] in Hstep.
  set (w := subscription_new (world s) (next_handle s) (max_ts (system_log s))) in *.
  assert (Hcell : validities w !! next_handle s = Some (validity_valid (max_ts (system_log s))))
    by (unfold w; cbn [subscription_new validities]; by rewrite lookup_insert_eq).
  assert (Hi64 : Timestamp.to_i64 (max_ts (system_log s)) = max_ts (system_log s)) by (apply to_i64_valid, HL).
  assert (Hnw : new_cell s w).
  { constructor; intros h Hne; unfold gone, w; cbn [subscription_new validities states splayed]; by rewrite lookup_insert_ne. }
  assert (Hnotgone : ~ gone w (next_handle s)).
  { unfold gone, w. cbn [subscription_new states splayed]. rewrite lookup_insert_eq. intros [?|?]; [done|]. apply Hng. by right. }
  assert (Hva : valid_at (validities w) (ghost_step s (ClientSubscribes token) g) (max_ts (system_log s)) (next_handle s)
                  (token_reads token) (max_ts (system_log s))).
  { constructor; [by eexists| |done]. exists (token_ts token). cbn [ghost_step origins history]. rewrite lookup_insert_eq.
    split; [done|]. split; [unfold Timestamp.valid, Timestamp.MIN in Hval; lia|]. by eapply log_quiet. }
  destruct (length q <? queue_size)%nat; injection Hstep as <-.
  - apply (subscribed_ok s g); try done; cbn [world queues].
    + by rewrite length_insert.
    + rewrite (push_queue _ _ _ _ _ Hqi). rewrite <- Permutation_middle. constructor; [|done]. intros Hin. apply (in_use_fresh s g) in Hin as [? _]; [lia|done].
    + rewrite Hcell. intros v [= <-]. cbn [validity_valid valid_ts]. rewrite Hi64. split; [|by right].
      pose proof (lh_max _ _ HL) as Hm. unfold Timestamp.valid, Timestamp.MIN in Hm. split; [lia|tauto].
    + intros q' p Hq' Hp'. apply list_elem_of_lookup in Hq' as [j Hj]. apply list_lookup_insert_Some in Hj as [(<- & <- & _)|(_ & Hj)].
      * apply elem_of_app in Hp' as [Hp'|Hp']; [left; exists q; split; [by eapply list_elem_of_lookup_2|done]|right].
        apply list_elem_of_singleton in Hp' as ->. cbn [fst snd]. rewrite Hrd, Hts. done.
      * left. exists q'. split; [by eapply list_elem_of_lookup_2|done].
  - destruct (drop_quietly_spec w (next_handle s)) as [Dv Dg]. destruct Hnw as [Nc Ng]. apply (subscribed_ok s g); try done; cbn [world queues].
    + constructor; intros h Hne; [rewrite Dv, decide_False by done; by apply Nc|]. rewrite Dg, (Ng h Hne). tauto.
    + rewrite Dv, decide_True, Hcell by done. intros v [= <-]. cbn [at_ts valid_ts]. split; [|by left]. split; [|done].
      intros _. apply Dg. by right.
    + eauto.
Qed.

Lemma worker_start_ok n ts : Timestamp.valid ts -> system_ok (start n (manager_new ts)) (MkGhost [] ∅).
Proof.
  intros Hv. assert (Hempty : forall h, ~ gone (MkWorld ∅ ∅ []) h).
  { intros h [Hst|Hsp]; cbn [states splayed] in *; [by rewrite lookup_empty in Hst|by apply elem_of_nil in Hsp]. }
  assert (Hms : forall i m, managers (start n (manager_new ts)) !! i = Some m -> (i < n)%nat /\ m = sub_manager_new i ts).
  { intros i m Hi. cbn [start managers] in Hi. apply list_lookup_fmap_Some in Hi as (j & -> & Hj). apply lookup_seq in Hj as [-> ?]. done. }
  constructor.
  - constructor; try done; by intros e ?%elem_of_nil.
  - cbn [start coordinator coordinator_new processed_timestamps managers queues]. by rewrite !length_replicate, length_map, length_seq.
  - intros i m Hi. apply Hms in Hi as [Hlt ->]. constructor; cbn; [apply manager_new_ok|done| |lia].
    by rewrite lookup_replicate_2.
  - cbn [start managers queues]. replace (handles_of_managers _) with (@nil Z).
    + replace (handles_of_queues _) with (@nil Z); [constructor|]. symmetry. apply elem_of_nil_inv. intros h (q & Hq & Hh)%elem_of_concat_map.
      apply elem_of_replicate in Hq as [-> _]. by apply elem_of_nil in Hh.
    + symmetry. apply elem_of_nil_inv. intros h (m & Hm & Hh)%elem_of_concat_map. apply list_elem_of_fmap in Hm as (i & -> & _).
      apply elem_of_senders in Hh as (id & sub & Hg & _). cbn [sub_manager_new subscribers] in Hg. by rewrite slab_get_new in Hg.
  - intros i m id sub Hi. apply Hms in Hi as [_ ->]. cbn [sub_manager_new subscribers]. by rewrite slab_get_new.
  - intros q token h Hq. cbn [start queues] in Hq. apply elem_of_replicate in Hq as [-> _]. by intros ?%elem_of_nil.
  - intros h v. cbn [start world validities]. by rewrite lookup_empty.
  - intros h Hg. by apply Hempty in Hg.
Qed.

Lemma worker_run_ok s g : run s g -> system_ok s g.
Proof.
  induction 1 as [n ts Hv|s g ev s' _ IH Hev Hstep]; [by apply worker_start_ok|]. destruct ev as [ts writes source|token|i|i|i key|h].
  - by eapply commit_step.
  - by eapply client_step.
  - by eapply receive_step.
  - by eapply advance_step.
  - by eapply client_gone_step.
  - by eapply delay_step.
Qed.

End worker.

(** ** Runs with one subscriber *)

Module WorkerExample.
Notation alist := (fun V : Type => list (list Z * V)).
Notation vec := (fun A : Type => list (option A)).
Notation Treap := (TreapMap (Sl := vec) (Rng := Z)).

#[global] Instance ops : IntervalMapOps Treap := treap_ops 42 TreapExample.lcg.
#[global] Instance laws : IntervalMapLaws Treap := treap_laws 42 TreapExample.lcg.

Notation Sys := (System (M := alist) (Trace := Z) (IM := Treap) (Sl := vec)).
Notation Ev := (Event (M := alist) (Trace := Z)).
Notation size := (fun l : list LogEntry => Z.of_nat (length l)).
Notation closed := (fun _ : Z => false).
Notation step := (handle size 100 200 1000 10 4 closed).

(** A commit that touches what [example_reads] read, and one that does not. *)
Definition conflicting (ts : Z) : Ev :=
  CommitAppended ts [(MkResolved [1] (MkId 3 []), MkKeysUpdate (MkResolved [1] (MkId 3 [])) None (Some [(([1], [98]), Standard [1; 5])]), None)] None.
Definition quiet_commit (ts : Z) : Ev := CommitAppended ts [] None.

Definition after (s : Sys) (ev : Ev) : Sys := match step s ev with Ret s => s | _ => s end.

Definition s0 : Sys := start 2 (manager_new 1).
Definition s1 : Sys := after s0 (quiet_commit 5).
Definition s2 : Sys := after s1 (ClientSubscribes (MkToken example_reads 1)).
Definition s3 : Sys := after s2 (RequestReceived 0).
Definition s4 : Sys := after s3 (LogAdvanced 0).
Definition s5 : Sys := after s4 (conflicting 8).

Notation reachable := (run size 100 200 1000 10 4 closed).

Definition origin : gmap Z (ReadSet (M := alist) (Trace := Z) * Z) := <[0 := (example_reads, 1)]> ∅.

Lemma timestamp_ok ts : 0 <= ts < 1000 -> Timestamp.valid ts.
Proof. unfold Timestamp.valid, Timestamp.MIN, Timestamp.MAX. lia. Qed.

Lemma run4 : reachable s4 (MkGhost [(5, [], None)] origin).
Proof.
  assert (H0 : reachable s0 (MkGhost [] ∅)) by (apply run_start, timestamp_ok; lia).
  assert (H1 := run_step size 100 200 1000 10 4 closed s0 _ (quiet_commit 5) s1 H0 (timestamp_ok 5 ltac:(lia)) ltac:(vm_compute; reflexivity)).
  assert (Hev : event_ok s1 (ClientSubscribes (MkToken example_reads 1))).
  { split; [apply example_reads_ok|]. split; [apply timestamp_ok; cbn; lia|]. vm_compute. discriminate. }
  assert (H2 := run_step size 100 200 1000 10 4 closed s1 _ _ s2 H1 Hev ltac:(vm_compute; reflexivity)).
  assert (H3 := run_step size 100 200 1000 10 4 closed s2 _ (RequestReceived 0) s3 H2 I ltac:(vm_compute; reflexivity)).
  exact (run_step size 100 200 1000 10 4 closed s3 _ (LogAdvanced 0) s4 H3 I ltac:(vm_compute; reflexivity)).
Qed.

Definition history5 : list LogEntry :=
  [(5, [], None);
   (8, [(MkResolved [1] (MkId 3 []), MkKeysUpdate (MkResolved [1] (MkId 3 [])) None (Some [(([1], [98]), Standard [1; 5])]), None)], None)].

Lemma run5 : reachable s5 (MkGhost history5 origin).
Proof.
  exact (run_step size 100 200 1000 10 4 closed s4 _ (conflicting 8) s5 run4 (timestamp_ok 8 ltac:(lia)) ltac:(vm_compute; reflexivity)).
Qed.
End WorkerExample.

(** ** Theorems *)

(** C3: Subscriptions are sound.  In every run of the clients, the managers and
    the committer, while a subscription says it is current at a timestamp, no
    commit after the timestamp of the original read and up to the one it is
    current at overlaps, by the index keys it logged, the intervals that were
    read or a text search among the reads that has a filter or a term (managers
    do not watch a search with neither, such as one for the empty text); this
    survives trimming of the log, lagging managers, full queues and delayed
    invalidations. *)
Theorem subscription_sound {M} `{StringMapLaws M} {Trace} {IM} `{IntervalMapLaws IM} {Sl} `{SlabLaws Sl}
    (heap_size : list LogEntry -> Z) (min_retention max_retention soft_max_size delay_threshold : Z) (queue_size : nat)
    (is_closed : Z -> bool) (s : System (M := M) (Trace := Trace) (IM := IM) (Sl := Sl)) (g : Ghost) (h v : Z) :
  run heap_size min_retention max_retention soft_max_size delay_threshold queue_size is_closed s g ->
  current_ts (E := False) (world s) h = Ret (Some v) ->
  exists reads ts0, origins g !! h = Some (reads, ts0) /\ ts0 <= v <= max_ts (system_log s) /\
    forall e, e ∈ history g -> ts0 < entry_ts e <= v -> ~ entry_conflicts (watched reads) e.
Proof.
  intros Hrun%worker_run_ok Hc. unfold current_ts in Hc. destruct (validities (world s) !! h) as [c|] eqn:Hv; [|done].
  destruct (so_cells _ _ Hrun h c Hv) as (_ & _ & Hval). unfold load_valid_ts, load_ts in Hc.
  destruct (Z.eqb_spec (valid_ts c) (-1)) as [|Hne]; [done|]. destruct Hval as [?|[reads [_ (ts0 & Ho & Hr & Hq) Hm]]]; [done|].
  unfold Timestamp.try_from_i64 in Hc. destruct (valid_ts c <? 0); [done|]. injection Hc as <-. exists reads, ts0. split_and!; try done; lia.
Qed.

Lemma subscription_sound_witness :
  exists reads ts0, WorkerExample.origin !! 0 = Some (reads, ts0) /\ ts0 <= 5.
Proof.
  destruct (subscription_sound _ _ _ _ _ _ _ WorkerExample.s4 _ 0 5 WorkerExample.run4 ltac:(vm_compute; reflexivity)) as (reads & ts0 & Ho & Hr & _).
  exists reads, ts0. split; [exact Ho|apply Hr].
Defined.

(** C17: No conflict with a watched read is missed.  In every run, when a manager
    that is behind the log advances, the call neither fails nor panics (the
    commits it still has to process were retained), and each of its subscribers
    either is then current at the log's last timestamp, in which case no commit
    in between overlapped, by the index keys it logged, the intervals it read or
    one of its text searches that has a filter or a term (a search with neither
    is not watched), or is no longer current, with an invalidation timestamp
    that is a commit's and is not after its first such conflict. *)
Theorem advance_decides_all {M} `{StringMapLaws M} {Trace} {IM} `{IntervalMapLaws IM} {Sl} `{SlabLaws Sl}
    (heap_size : list LogEntry -> Z) (min_retention max_retention soft_max_size delay_threshold : Z) (queue_size : nat)
    (is_closed : Z -> bool) (s : System (M := M) (Trace := Trace) (IM := IM) (Sl := Sl)) (g : Ghost) (i : nat) (m : SubscriptionManager) :
  run heap_size min_retention max_retention soft_max_size delay_threshold queue_size is_closed s g ->
  managers s !! i = Some m -> processed_ts m < max_ts (system_log s) ->
  exists s', handle heap_size min_retention max_retention soft_max_size delay_threshold queue_size is_closed s (LogAdvanced i) = Ret s' /\
    forall id sub, slab_get id (subscribers m) = Some sub ->
      (current_ts (E := False) (world s') (sub_sender sub) = Ret (Some (max_ts (system_log s))) /\
       forall e, e ∈ history g -> processed_ts m < entry_ts e -> ~ entry_conflicts (watched (sub_reads sub)) e) \/
      (current_ts (E := False) (world s') (sub_sender sub) = Ret None /\
       exists t, subscription_invalid_ts (E := False) (world s') (sub_sender sub) = Ret (Some t) /\
         (exists e, e ∈ history g /\ entry_ts e = t /\ processed_ts m < t) /\
         forall e, e ∈ history g -> processed_ts m < entry_ts e -> entry_conflicts (watched (sub_reads sub)) e -> t <= entry_ts e).
Proof.
  intros Hrun%worker_run_ok Hi Hlt.
  destruct (advance_ready heap_size min_retention max_retention soft_max_size delay_threshold queue_size is_closed s g i m Hrun Hi Hlt)
    as (m' & c' & w' & dropped & Hh & [_ _ _ Hfate _ _ _ _ _] & _). eexists. split; [exact Hh|]. cbn [world]. intros id sub Hg.
  destruct (so_subscribers _ _ Hrun i m id sub Hi Hg) as (t0 & _ & [(v & Hc & _) _ _]). destruct (so_log _ _ Hrun) as [Lok Lp Lm Lpast Lkept Lonly].
  destruct (so_managers _ _ Hrun i m Hi) as [_ _ _ Hr]. unfold current_ts, subscription_invalid_ts, load_valid_ts, load_invalid_ts, load_ts, Timestamp.try_from_i64.
  assert (Hrange : forall e, e ∈ history g -> processed_ts m < entry_ts e -> in_range (system_log s) (processed_ts m) (max_ts (system_log s)) e).
  { intros e He Hgt. split; [apply Lkept; [done|unfold system_log in *; lia]|]. apply Lpast in He. lia. }
  destruct (Hfate id sub Hg) as [(_ & -> & Hno)|(_ & t & -> & (e & [Hin Hle] & He) & Hfirst)]; rewrite Hc; cbn.
  - left. unfold Timestamp.valid, Timestamp.MIN in Lm. rewrite (proj2 (Z.eqb_neq _ _)), (proj2 (Z.ltb_ge _ _)) by lia. split; [done|]. auto.
  - right. split; [done|]. exists t. assert (Hv : Timestamp.valid t) by (unfold Timestamp.valid in *; subst t; unfold system_log in *; lia).
    rewrite to_i64_valid by done. unfold Timestamp.valid, Timestamp.MIN in Hv. rewrite (proj2 (Z.eqb_neq _ _)), (proj2 (Z.ltb_ge _ _)) by lia.
    split_and!; [done| |auto]. exists e. split_and!; [by apply Lonly|done|lia].
Qed.

Lemma advance_decides_all_witness :
  exists s', WorkerExample.step WorkerExample.s5 (LogAdvanced 0) = Ret s' /\ current_ts (E := False) (world s') 0 = Ret None.
Proof.
  destruct (managers WorkerExample.s5 !! 0%nat) as [m|] eqn:Hm; [|vm_compute in Hm; discriminate Hm].
  assert (Hlt : processed_ts m < max_ts (system_log WorkerExample.s5)).
  { vm_compute in Hm. injection Hm as <-. vm_compute. reflexivity. }
  destruct (advance_decides_all _ _ _ _ _ _ _ WorkerExample.s5 _ 0 m WorkerExample.run5 Hm Hlt) as (s' & He & _).
  exists s'. split; [exact He|]. vm_compute in He. injection He as <-. vm_compute. reflexivity.
Defined.

(** A subscription and its watch channel agree in every run: it is not
    current exactly when its watcher was told so or its delayed notification
    is pending, so no client waits forever on a subscription that was
    invalidated, and none is woken for one that is current. *)
Theorem invalidation_is_announced {M} `{StringMapLaws M} {Trace} {IM} `{IntervalMapLaws IM} {Sl} `{SlabLaws Sl}
    (heap_size : list LogEntry -> Z) (min_retention max_retention soft_max_size delay_threshold : Z) (queue_size : nat)
    (is_closed : Z -> bool) (s : System (M := M) (Trace := Trace) (IM := IM) (Sl := Sl)) (g : Ghost) (h : Z) :
  run heap_size min_retention max_retention soft_max_size delay_threshold queue_size is_closed s g ->
  is_Some (validities (world s) !! h) ->
  (current_ts (E := False) (world s) h = Ret None <-> gone (world s) h) /\ current_ts (E := False) (world s) h <> Panic.
Proof.
  intros Hrun%worker_run_ok [v Hv]. destruct (so_cells _ _ Hrun h v Hv) as (_ & <- & Hval). unfold current_ts, load_valid_ts, load_ts, Timestamp.try_from_i64.
  rewrite Hv. destruct (Z.eqb_spec (valid_ts v) (-1)) as [|Hne]; [done|]. destruct Hval as [?|[reads [_ (ts0 & _ & ? & _) _]]]; [done|].
  rewrite (proj2 (Z.ltb_ge _ _)) by lia. done.
Qed.

Lemma invalidation_is_announced_witness :
  current_ts (E := False) (world WorkerExample.s4) 0 = Ret None <-> gone (world WorkerExample.s4) 0.
Proof.
  apply (proj1 (invalidation_is_announced _ _ _ _ _ _ _ WorkerExample.s4 _ 0 WorkerExample.run4 ltac:(vm_compute; eexists; reflexivity))).
Defined.

(** A manager that lags behind a subscriber invalidates it for a commit that
    came before the read: the subscriber read at 5, the only commit is the one
    at 5, and it is told it became invalid at 5.  The entries from the processed
    timestamp to the token's are not all processed twice, some are processed
    for the first time, though they precede the reads. *)
Lemma lagging_manager_invalidates_early :
  let s1 := WorkerExample.after WorkerExample.s0 (WorkerExample.conflicting 5) in
  let s2 := WorkerExample.after s1 (ClientSubscribes (MkToken example_reads 5)) in
  let s3 := WorkerExample.after s2 (RequestReceived 0) in
  let s4 := WorkerExample.after s3 (LogAdvanced 0) in
  map entry_ts (by_ts (system_log s4)) = [5] /\
  current_ts (E := False) (world s2) 0 = Ret (Some 5) /\
  current_ts (E := False) (world s4) 0 = Ret None /\ subscription_invalid_ts (E := False) (world s4) 0 = Ret (Some 5).
Proof. vm_compute. done. Qed.
