(* ===== verification/Sync.v ===== *)
(** * Sync: the server side of the sync protocol
      (src/crates/sync/src/state.rs, src/crates/sync/src/worker.rs,
       src/crates/application/src/redaction.rs,
       src/crates/convex/sync_types/src/types.rs)

    A client keeps a set of queries and an identity, each with a version; the
    worker of its connection computes the results at a timestamp and sends
    [Transition]s from one [StateVersion] to the next.  A result is sent only if
    its hash differs from the last one.  Identities and subscriptions are
    abstract, and the application ([Api]: running a query, subscribing to what
    it read, extending a subscription) is an argument of the steps that call
    it.  A value is its JSON text.  Futures are handles: the pending ones with
    the query they watch, and the handles that were aborted. *)

From S2P Require Import Prelude Ord BTreeMap Timestamp.

Local Open Scope Z_scope.

Notation QueryId := Z (only parsing).
Notation QuerySetVersion := Z (only parsing).
Notation IdentityVersion := Z (only parsing).
Notation Journal := (option (list Z)) (only parsing).
Notation LogLines := (list (list Z)) (only parsing).

Record Query := MkQuery {
  query_id : QueryId;
  udf_path : list Z;
  args : list Z;
  component_path : option (list Z);
  journal : option Journal;
}.

Inductive QuerySetModification := AddQuery (query : Query) | RemoveQuery (query_id : QueryId).

Record RedactedJsError := MkJsError {
  error_text : list Z;
  custom_data : option (list Z);
  block_logging : bool;
  request_id : list Z;
}.

(** [impl Display]: ["[Request ID: {}] Server Error"] and, unless logging is
    blocked, a newline and the error. *)
Definition error_to_string (e : RedactedJsError) : list Z :=
  [91; 82; 101; 113; 117; 101; 115; 116; 32; 73; 68; 58; 32] ++ request_id e ++
  [93; 32; 83; 101; 114; 118; 101; 114; 32; 69; 114; 114; 111; 114] ++ (if block_logging e then [] else 10 :: error_text e).

Notation UdfResult := (list Z + RedactedJsError)%type (only parsing).

Inductive StateModification :=
| QueryUpdated (query_id : QueryId) (value : list Z) (log_lines : list (list Z)) (journal : option (list Z))
| QueryFailed (query_id : QueryId) (error_message : list Z) (log_lines : list (list Z)) (journal : option (list Z)) (error_data : option (list Z))
| QueryRemoved (query_id : QueryId).

Record StateVersion := MkVersion {
  v_query_set : QuerySetVersion;
  v_identity : IdentityVersion;
  v_ts : Timestamp;
}.

Definition version_initial : StateVersion := MkVersion 0 0 MIN.

(** The derived order, field by field. *)
Definition version_leb (a b : StateVersion) : bool :=
  match cmp ((v_query_set a, v_identity a), v_ts a) ((v_query_set b, v_identity b), v_ts b) with Gt => false | _ => true end.

#[global] Instance StateVersion_EqDecision : EqDecision StateVersion.
Proof. solve_decision. Defined.

(** [ServerMessage::Transition]. *)
Record Transition := MkTransition {
  start_version : StateVersion;
  end_version : StateVersion;
  modifications : list StateModification;
}.

Inductive sync_error :=
| VersionWentBackwards
| BaseVersionMismatch
| VersionNotIncreasing
| IdentityVersionMismatch
| TokenExpired
| DuplicateQueryId
| NonexistentQueryId
| NoPriorResult
| AlreadyUpToDate
| MissingSubscription
| NotValid
| UnexpectedUnavailable
| ApiError.

(** ** Hashes of results *)

(** [usize::to_le_bytes]. *)
Fixpoint le_bytes (n : nat) (x : Z) : list Z :=
  match n with
  | O => []
  | S n => x mod 256 :: le_bytes n (x / 256)
  end.

Definition hash_log_lines (log_lines : LogLines) : list Z :=
  flat_map (fun line => le_bytes 8 (Z.of_nat (length line)) ++ line) log_lines.

(** The bytes that [udf_result_sha256] hashes; [str::hash] ends with [0xff]. *)
Definition udf_result_bytes (return_value : list Z) (log_lines : LogLines) : list Z :=
  return_value ++ [255] ++ hash_log_lines log_lines.

(** The bytes of [deduplication_hash] and the log lines. *)
Definition deduplication_bytes (e : RedactedJsError) (log_lines : LogLines) : list Z :=
  error_text e ++ [if block_logging e then 1 else 0] ++ hash_log_lines log_lines.

Section sync.
Context {Identity Subscription Token : Type}.
Context (sha256 : list Z -> list Z) (is_expired : Identity -> Z -> bool).

Definition hash_result (r : UdfResult) (log_lines : LogLines) : list Z + list Z :=
  match r with
  | inl v => inl (sha256 (udf_result_bytes v log_lines))
  | inr e => inr (sha256 (deduplication_bytes e log_lines))
  end.

(** ** The state of a session *)

Record SyncedQuery := MkSynced {
  sq_query : Query;
  subscription : option Subscription;
  result_hash : option (list Z + list Z);
  invalidation_future : option nat;
}.

Record ClientVersion := MkClientVersion { cv_query_set : QuerySetVersion; cv_identity : IdentityVersion }.

Record SyncState := MkSync {
  current_version : StateVersion;
  invalidation_futures : list (nat * QueryId);
  aborted : list nat;
  next_handle : nat;
  queries : BTreeMap.t Z SyncedQuery;
  in_progress_queries : BTreeMap.t Z Query;
  identity : Identity;
  refill_needed : bool;
  pending_query_updates : list QuerySetModification;
  pending_identity : option Identity;
  received_client_version : ClientVersion;
}.

Definition sync_new (unknown : Identity) : SyncState :=
  MkSync version_initial [] [] 0 [] [] unknown false [] None (MkClientVersion 0 0).

Definition advance_version (self : SyncState) (new_version : StateVersion) : outcome sync_error SyncState :=
  ensure (version_leb (current_version self) new_version) VersionWentBackwards ;?
  Ret (MkSync new_version (invalidation_futures self) (aborted self) (next_handle self) (queries self) (in_progress_queries self)
    (identity self) (refill_needed self) (pending_query_updates self) (pending_identity self) (received_client_version self)).

Definition is_Some_b {A} (o : option A) : bool := match o with Some _ => true | None => false end.

Definition validate (self : SyncState) : outcome sync_error unit :=
  ensure (forallb (fun e : Z * SyncedQuery =>
    is_Some_b (result_hash e.2) &&
    (refill_needed self || is_Some_b (subscription e.2)) &&
    (refill_needed self || is_Some_b (invalidation_future e.2))) (queries self)) NotValid.

Definition modify_query_set (self : SyncState) (base_version new_version : QuerySetVersion) (mods : list QuerySetModification)
    : outcome sync_error SyncState :=
  let current := cv_query_set (received_client_version self) in
  ensure (current =? base_version) BaseVersionMismatch ;?
  ensure (base_version <? new_version) VersionNotIncreasing ;?
  Ret (MkSync (current_version self) (invalidation_futures self) (aborted self) (next_handle self) (queries self) (in_progress_queries self)
    (identity self) (refill_needed self) (pending_query_updates self ++ mods) (pending_identity self)
    (MkClientVersion new_version (cv_identity (received_client_version self)))).

Definition take_modifications (self : SyncState)
    : SyncState * (list QuerySetModification * QuerySetVersion * option Identity * IdentityVersion) :=
  (MkSync (current_version self) (invalidation_futures self) (aborted self) (next_handle self) (queries self) (in_progress_queries self)
     (identity self) (refill_needed self) [] None (received_client_version self),
   (pending_query_updates self, cv_query_set (received_client_version self), pending_identity self,
    cv_identity (received_client_version self))).

Definition modify_identity (self : SyncState) (new_identity : Identity) (base_version : IdentityVersion) : outcome sync_error SyncState :=
  let current := cv_identity (received_client_version self) in
  ensure (current =? base_version) IdentityVersionMismatch ;?
  Ret (MkSync (current_version self) (invalidation_futures self) (aborted self) (next_handle self) (queries self) (in_progress_queries self)
    (identity self) (refill_needed self) (pending_query_updates self) (Some new_identity)
    (MkClientVersion (cv_query_set (received_client_version self)) (current + 1))).

Definition insert_identity (self : SyncState) (new_identity : Identity) : SyncState :=
  MkSync (current_version self) (invalidation_futures self) (aborted self) (next_handle self) (queries self) (in_progress_queries self)
    new_identity (refill_needed self) (pending_query_updates self) (pending_identity self) (received_client_version self).

Definition current_identity (self : SyncState) (current_time : Z) : outcome sync_error Identity :=
  let i := default (identity self) (pending_identity self) in
  ensure (negb (is_expired i current_time)) TokenExpired ;? Ret i.

(** The fields that the operations on queries change. *)
Definition with_queries (self : SyncState) (qs : BTreeMap.t Z SyncedQuery) (in_progress : BTreeMap.t Z Query)
    (futures : list (nat * QueryId)) (aborted' : list nat) (next : nat) (refill : bool) : SyncState :=
  MkSync (current_version self) futures aborted' next qs in_progress (identity self) refill
    (pending_query_updates self) (pending_identity self) (received_client_version self).

Definition take_future (q : SyncedQuery) : SyncedQuery := MkSynced (sq_query q) (subscription q) (result_hash q) None.
Definition abort (q : SyncedQuery) (aborted' : list nat) : list nat :=
  match invalidation_future q with Some handle => handle :: aborted' | None => aborted' end.

(** [next_invalidated_query] when the future [h] is ready; [None] blocks. *)
Definition next_invalidated_query (self : SyncState) (h : nat) : option (SyncState * option QueryId) :=
  if refill_needed self then None
  else match find (fun e : nat * QueryId => (e.1 =? h)%nat) (invalidation_futures self) with
  | None => None
  | Some (_, query_id) =>
      let futures := bfilter (fun e : nat * QueryId => negb (e.1 =? h)%nat) (invalidation_futures self) in
      if bool_decide (h ∈ aborted self)
      then Some (with_queries self (queries self) (in_progress_queries self) futures (aborted self) (next_handle self) (refill_needed self), None)
      else
        let qs := match BTreeMap.get query_id (queries self) with
          | Some query => BTreeMap.insert query_id (take_future query) (queries self)
          | None => queries self
          end in
        Some (with_queries self qs (in_progress_queries self) futures (aborted self) (next_handle self) true, Some query_id)
  end.

Definition insert_query (self : SyncState) (query : Query) : outcome sync_error SyncState :=
  ensure (negb (is_Some_b (BTreeMap.get (query_id query) (in_progress_queries self)))) DuplicateQueryId ;?
  Ret (with_queries self (queries self) (BTreeMap.insert (query_id query) query (in_progress_queries self))
    (invalidation_futures self) (aborted self) (next_handle self) true).

Definition remove_query (self : SyncState) (query_id : QueryId) : outcome sync_error SyncState :=
  match BTreeMap.get query_id (queries self) with
  | Some query =>
      Ret (with_queries self (BTreeMap.remove query_id (queries self)) (in_progress_queries self)
        (invalidation_futures self) (abort query (aborted self)) (next_handle self) (refill_needed self))
  | None =>
      match BTreeMap.get query_id (in_progress_queries self) with
      | Some _ =>
          Ret (with_queries self (queries self) (BTreeMap.remove query_id (in_progress_queries self))
            (invalidation_futures self) (aborted self) (next_handle self) (refill_needed self))
      | None => Err NonexistentQueryId
      end
  end.

Definition take_subscription (q : SyncedQuery) : SyncedQuery := MkSynced (sq_query q) None (result_hash q) None.

Definition take_subscriptions (self : SyncState) : SyncState * BTreeMap.t Z Subscription :=
  (with_queries self (map (fun e : Z * SyncedQuery => (e.1, take_subscription e.2)) (queries self)) (in_progress_queries self)
     (invalidation_futures self) (fold_left (fun a (e : Z * SyncedQuery) => abort e.2 a) (queries self) (aborted self)) (next_handle self)
     (match queries self with [] => refill_needed self | _ => true end),
   flat_map (fun e : Z * SyncedQuery => match subscription e.2 with Some s => [(e.1, s)] | None => [] end) (queries self)).

Definition need_fetch (self : SyncState) : list Query :=
  map (fun e : Z * SyncedQuery => sq_query e.2) (bfilter (fun e : Z * SyncedQuery => negb (is_Some_b (subscription e.2))) (queries self)) ++
  map snd (in_progress_queries self).

Definition refill_subscription (self : SyncState) (query_id : QueryId) (s : Subscription) : outcome sync_error SyncState :=
  let? query := ok_or (BTreeMap.get query_id (queries self)) NonexistentQueryId in
  ensure (is_Some_b (result_hash query)) NoPriorResult ;?
  Ret (with_queries self (BTreeMap.insert query_id (MkSynced (sq_query query) (Some s) (result_hash query) (invalidation_future query)) (queries self))
    (in_progress_queries self) (invalidation_futures self) (aborted self) (next_handle self) (refill_needed self)).

Definition with_journal (q : Query) (j : Journal) : Query := MkQuery (query_id q) (udf_path q) (args q) (component_path q) (Some j).

(** The move of a query in progress to the synced ones. *)
Definition start_synced (self : SyncState) (query_id : QueryId) : outcome sync_error SyncState :=
  match BTreeMap.get query_id (in_progress_queries self) with
  | Some query =>
      ensure (negb (is_Some_b (BTreeMap.get query_id (queries self)))) DuplicateQueryId ;?
      Ret (with_queries self (BTreeMap.insert query_id (MkSynced query None None None) (queries self))
        (BTreeMap.remove query_id (in_progress_queries self)) (invalidation_futures self) (aborted self) (next_handle self) (refill_needed self))
  | None => Ret self
  end.

Definition modification_of (query_id : QueryId) (result : UdfResult) (log_lines : LogLines) (j : Journal) : StateModification :=
  match result with
  | inl value => QueryUpdated query_id value log_lines j
  | inr error => QueryFailed query_id (error_to_string error) log_lines j (custom_data error)
  end.

#[global] Instance hash_EqDecision : EqDecision (option (list Z + list Z)).
Proof. solve_decision. Defined.

Definition complete_fetch (self : SyncState) (query_id : QueryId) (result : UdfResult) (log_lines : LogLines) (j : Journal) (s : Subscription)
    : outcome sync_error (SyncState * option StateModification) :=
  let? self := start_synced self query_id in
  let? query := ok_or (BTreeMap.get query_id (queries self)) NonexistentQueryId in
  ensure (negb (is_Some_b (subscription query))) AlreadyUpToDate ;?
  let new_hash := hash_result result log_lines in
  let same_result := bool_decide (result_hash query = Some new_hash) in
  let query' := MkSynced (with_journal (sq_query query) j) (Some s) (Some new_hash) None in
  let self' := with_queries self (BTreeMap.insert query_id query' (queries self)) (in_progress_queries self)
    (invalidation_futures self) (abort query (aborted self)) (next_handle self) (refill_needed self) in
  Ret (self', if same_result then None else Some (modification_of query_id result log_lines j)).

(** The loop of [fill_invalidation_futures]. *)
Fixpoint fill_futures (qs : list (Z * SyncedQuery)) (futures : list (nat * QueryId)) (next : nat)
    : outcome sync_error (list (Z * SyncedQuery) * list (nat * QueryId) * nat) :=
  match qs with
  | [] => Ret ([], futures, next)
  | (query_id, sq) :: qs =>
      match invalidation_future sq with
      | Some _ => let? (qs, futures, next) := fill_futures qs futures next in Ret ((query_id, sq) :: qs, futures, next)
      | None =>
          match subscription sq with
          | None => Err MissingSubscription
          | Some _ =>
              let sq := MkSynced (sq_query sq) (subscription sq) (result_hash sq) (Some next) in
              let? (qs, futures, next) := fill_futures qs (futures ++ [(next, query_id)]) (S next) in
              Ret ((query_id, sq) :: qs, futures, next)
          end
      end
  end.

Definition fill_invalidation_futures (self : SyncState) : outcome sync_error SyncState :=
  let? (qs, futures, next) := fill_futures (queries self) (invalidation_futures self) (next_handle self) in
  Ret (with_queries self qs (in_progress_queries self) futures (aborted self) next false).

(** ** The worker *)

Inductive api_error := Unavailable | OtherError.

(** The application: [extend_validity], running a query at a timestamp, and
    [subscribe]. *)
Record Api := MkApi {
  extend_validity : Subscription -> Timestamp -> outcome api_error bool;
  execute_query : Identity -> Query -> Timestamp -> outcome api_error (UdfResult * LogLines * Journal * Token);
  subscribe : Token -> outcome api_error Subscription;
}.

Inductive QueryResult :=
| Rerun (result : UdfResult) (log_lines : LogLines) (j : Journal)
| TemporarilyUnavailable
| Refresh.

(** What [begin_update_queries] hands to the future that runs the queries, each
    with the subscription it had. *)
Record PendingTransition := MkPending {
  pt_need_fetch : list (Query * option Subscription);
  pt_identity : Identity;
  state_modifications : BTreeMap.t Z StateModification;
  pt_current_version : StateVersion;
  pt_new_version : StateVersion;
}.

Record TransitionState := MkTransitionState {
  udf_results : list (QueryId * QueryResult * Subscription);
  ts_modifications : BTreeMap.t Z StateModification;
  ts_current_version : StateVersion;
  ts_new_version : StateVersion;
  temporarily_unavailable : bool;
}.

(** The loop over the modifications of the query set. *)
Definition apply_modification (st : SyncState * BTreeMap.t Z StateModification) (m : QuerySetModification)
    : outcome sync_error (SyncState * BTreeMap.t Z StateModification) :=
  match m with
  | AddQuery query => let? self := insert_query st.1 query in Ret (self, st.2)
  | RemoveQuery query_id => let? self := remove_query st.1 query_id in Ret (self, BTreeMap.insert query_id (QueryRemoved query_id) st.2)
  end.

(** [remaining_subscriptions.remove(&query.query_id)], query after query. *)
Fixpoint take_remaining (need : list Query) (remaining : BTreeMap.t Z Subscription) : list (Query * option Subscription) :=
  match need with
  | [] => []
  | query :: need => (query, BTreeMap.get (query_id query) remaining) :: take_remaining need (BTreeMap.remove (query_id query) remaining)
  end.

Definition begin_update_queries (self : SyncState) (new_ts : Timestamp) (now : Z) : outcome sync_error (SyncState * PendingTransition) :=
  let current := current_version self in
  let '(self, (mods, new_query_version, pending, new_identity_version)) := take_modifications self in
  let '(self, identity_version) := match pending with
    | Some new_identity => (insert_identity (take_subscriptions self).1 new_identity, new_identity_version)
    | None => (self, v_identity current)
    end in
  let? i := current_identity self now in
  let new_version := MkVersion new_query_version identity_version new_ts in
  let? (self, state_modifications) := foldM apply_modification (self, []) mods in
  let '(self, remaining_subscriptions) := take_subscriptions self in
  Ret (self, MkPending (take_remaining (need_fetch self) remaining_subscriptions) i state_modifications current new_version).

Definition lift_api {A} (m : outcome api_error A) : outcome sync_error A :=
  match m with Ret a => Ret a | Err _ => Err ApiError | Panic => Panic end.

(** The future of one query. *)
Definition update_query (api : Api) (p : PendingTransition) (fetch : Query * option Subscription)
    : outcome sync_error (QueryId * QueryResult * option Subscription) :=
  let '(query, current_subscription) := fetch in
  let new_ts := v_ts (pt_new_version p) in
  let? new_subscription :=
    match current_subscription with
    | Some s => let? valid := lift_api (extend_validity api s new_ts) in Ret (if valid : bool then Some s else None)
    | None => Ret None
    end in
  match new_subscription with
  | Some s => Ret (query_id query, Refresh, Some s)
  | None =>
      match execute_query api (pt_identity p) query new_ts with
      | Ret (result, log_lines, j, token) =>
          let? s := lift_api (subscribe api token) in
          Ret (query_id query, Rerun result log_lines j, Some s)
      | Err Unavailable => Ret (query_id query, TemporarilyUnavailable, None)
      | Err OtherError => Err ApiError
      | Panic => Panic
      end
  end.

(** The future of the transition: the queries complete in the order [order]. *)
Fixpoint run_queries (api : Api) (p : PendingTransition) (order : list (Query * option Subscription))
    : outcome sync_error (list (QueryId * QueryResult * Subscription) * bool) :=
  match order with
  | [] => Ret ([], false)
  | fetch :: order =>
      let? (query_id, result, maybe_subscription) := update_query api p fetch in
      let? (results, unavailable) := run_queries api p order in
      let unavailable := match result with TemporarilyUnavailable => true | _ => unavailable end in
      Ret (match maybe_subscription with Some s => (query_id, result, s) :: results | None => results end, unavailable)
  end.

Definition run_transition (api : Api) (p : PendingTransition) (order : list (Query * option Subscription)) : outcome sync_error TransitionState :=
  let? (results, unavailable) := run_queries api p order in
  Ret (MkTransitionState results (state_modifications p) (pt_current_version p) (pt_new_version p) unavailable).

(** The loop of [finish_update_queries]. *)
Definition apply_result (st : SyncState * BTreeMap.t Z StateModification) (r : QueryId * QueryResult * Subscription)
    : outcome sync_error (SyncState * BTreeMap.t Z StateModification) :=
  let '(query_id, result, s) := r in
  match result with
  | Rerun result log_lines j =>
      let? (self, modification) := complete_fetch st.1 query_id result log_lines j s in
      Ret (self, match modification with Some m => BTreeMap.insert query_id m st.2 | None => st.2 end)
  | Refresh => let? self := refill_subscription st.1 query_id s in Ret (self, st.2)
  | TemporarilyUnavailable => Err UnexpectedUnavailable
  end.

Definition finish_update_queries (self : SyncState) (t : TransitionState) : outcome sync_error (SyncState * Transition) :=
  let? (self, state_modifications) := foldM apply_result (self, ts_modifications t) (udf_results t) in
  let? self := fill_invalidation_futures self in
  let? self := advance_version self (ts_new_version t) in
  Ret (self, MkTransition (ts_current_version t) (ts_new_version t) (map snd state_modifications)).

Record Worker := MkWorker {
  state : SyncState;
  transition_future : option PendingTransition;
  update_scheduled : bool;
  retry_scheduled : bool;
  sent : list Transition;
}.

Definition worker_new (unknown : Identity) : Worker := MkWorker (sync_new unknown) None false false [].

Inductive event :=
| ModifyQuerySet (base_version new_version : QuerySetVersion) (mods : list QuerySetModification)
| Authenticated (new_identity : Identity) (base_version : IdentityVersion)
| QueryInvalidated (h : nat)
| OperationCompleted
| RetryElapsed
| BeginTransition (new_ts : Timestamp) (now : Z)
| TransitionReady (api : Api) (order : list (Query * option Subscription)).

(** One turn of the loop of [go]: a branch of the [select] with its handler, or
    the start of a transition at the end of the turn.  Events that are not
    enabled have no effect. *)
Definition handle (self : Worker) (e : event) : outcome sync_error Worker :=
  match e with BeginTransition _ _ => Ret tt | _ => validate (state self) end ;?
  match e with
  | ModifyQuerySet base_version new_version mods =>
      let? st := modify_query_set (state self) base_version new_version mods in
      Ret (MkWorker st (transition_future self) true (retry_scheduled self) (sent self))
  | Authenticated new_identity base_version =>
      let? st := modify_identity (state self) new_identity base_version in
      Ret (MkWorker st (transition_future self) true (retry_scheduled self) (sent self))
  | QueryInvalidated h =>
      match next_invalidated_query (state self) h with
      | Some (st, Some _) => Ret (MkWorker st (transition_future self) true (retry_scheduled self) (sent self))
      | Some (st, None) => Ret (MkWorker st (transition_future self) (update_scheduled self) (retry_scheduled self) (sent self))
      | None => Ret self
      end
  | OperationCompleted => Ret (MkWorker (state self) (transition_future self) true (retry_scheduled self) (sent self))
  | RetryElapsed =>
      if retry_scheduled self then Ret (MkWorker (state self) (transition_future self) true false (sent self)) else Ret self
  | BeginTransition new_ts now =>
      if update_scheduled self && negb (is_Some_b (transition_future self)) then
        let? (st, p) := begin_update_queries (state self) new_ts now in
        Ret (MkWorker st (Some p) false (retry_scheduled self) (sent self))
      else Ret self
  | TransitionReady api order =>
      match transition_future self with
      | Some p =>
          let? t := run_transition api p order in
          let? (st, m) := finish_update_queries (state self) t in
          Ret (MkWorker st None (update_scheduled self) (retry_scheduled self || temporarily_unavailable t) (sent self ++ [m]))
      | None => Ret self
      end
  end.
End sync.
