(* ===== verification/SyncClient.v ===== *)
(** * SyncClient: the client side of the sync protocol
      (src/crates/convex/src/base_client/mod.rs, query_result.rs,
       request_manager.rs)

    The state machine of the Rust client: the queries it subscribes to, the
    results it has received, its mutations and actions in flight, and the queue
    of messages to the server.  Paths are canonical and arguments are their
    JSON text, so that a query token is the pair of the two.  The receivers of
    mutation and action results are the list of the notifications sent. *)

From S2P Require Import Prelude Ord BTreeMap Timestamp Sync.

Local Open Scope Z_scope.

(** ** Results *)

Inductive FunctionResult :=
| FValue (value : list Z)
| FErrorMessage (message : list Z)
| FConvexError (message data : list Z).

#[global] Instance FunctionResult_EqDecision : EqDecision FunctionResult.
Proof. solve_decision. Defined.

Notation SubscriberId := (Z * Z)%type (only parsing).

Record QueryResults := MkQueryResults {
  results : BTreeMap.t Z FunctionResult;
  subscribers : BTreeMap.t (Z * Z) unit;
}.

Definition query_results_get (self : QueryResults) (subscriber_id : SubscriberId) : option FunctionResult :=
  match BTreeMap.get subscriber_id (subscribers self) with
  | None => None
  | Some _ => BTreeMap.get subscriber_id.1 (results self)
  end.

(** ** Messages to the server *)

Inductive ClientMessage :=
| CModifyQuerySet (base_version new_version : Z) (mods : list QuerySetModification)
| CMutation (request_id : Z) (path arguments : list Z)
| CAction (request_id : Z) (path arguments : list Z)
| CAuthenticate (base_version : Z) (token : option (list Z)).

(** ** The queries of the client *)

Notation QueryToken := (list Z * list Z)%type (only parsing).

Record LocalQuery := MkLocalQuery {
  lq_id : Z;
  lq_path : list Z;
  lq_args : list Z;
  num_subscribers : Z;
  subscription_index : Z;
}.

(** [auth_token] is [None] for [AuthenticationToken::None]. *)
Record LocalSyncState := MkLocal {
  next_query_id : Z;
  query_set_version : Z;
  query_set : BTreeMap.t (list Z * list Z) LocalQuery;
  query_id_to_token : BTreeMap.t Z (list Z * list Z);
  latest_results : QueryResults;
  auth_token : option (list Z);
  identity_version : Z;
}.

Definition local_new : LocalSyncState := MkLocal 0 0 [] [] (MkQueryResults [] []) None 0.

(** [subscribers.insert] with its [assert!]. *)
Definition add_subscriber {E} (r : QueryResults) (s : SubscriberId) : outcome E QueryResults :=
  rassert (match BTreeMap.get s (subscribers r) with None => true | Some _ => false end) ;?
  Ret (MkQueryResults (results r) (BTreeMap.insert s tt (subscribers r))).

Definition local_subscribe {E} (self : LocalSyncState) (path arguments : list Z)
    : outcome E (LocalSyncState * (option ClientMessage * SubscriberId)) :=
  let query_token := (path, arguments) in
  match BTreeMap.get query_token (query_set self) with
  | Some existing =>
      let existing := MkLocalQuery (lq_id existing) (lq_path existing) (lq_args existing) (num_subscribers existing + 1) (subscription_index existing + 1) in
      let s := (lq_id existing, subscription_index existing) in
      let? r := add_subscriber (latest_results self) s in
      Ret (MkLocal (next_query_id self) (query_set_version self) (BTreeMap.insert query_token existing (query_set self))
             (query_id_to_token self) r (auth_token self) (identity_version self), (None, s))
  | None =>
      let query_id := next_query_id self in
      let base_version := query_set_version self in
      let new_version := base_version + 1 in
      let add := AddQuery (MkQuery query_id path arguments None None) in
      let query := MkLocalQuery query_id path arguments 1 0 in
      let s := (query_id, 0) in
      let? r := add_subscriber (latest_results self) s in
      Ret (MkLocal (query_id + 1) new_version (BTreeMap.insert query_token query (query_set self))
             (BTreeMap.insert query_id query_token (query_id_to_token self)) r (auth_token self) (identity_version self),
           (Some (CModifyQuerySet base_version new_version [add]), s))
  end.

Definition remove_subscriber {E} (self : LocalSyncState) (subscriber_id : SubscriberId) : outcome E (LocalSyncState * option ClientMessage) :=
  let? _ := expect (BTreeMap.get subscriber_id (subscribers (latest_results self))) in
  let r := MkQueryResults (results (latest_results self)) (BTreeMap.remove subscriber_id (subscribers (latest_results self))) in
  let query_id := subscriber_id.1 in
  let? query_token := expect (BTreeMap.get query_id (query_id_to_token self)) in
  let? local_query := expect (BTreeMap.get query_token (query_set self)) in
  if 1 <? num_subscribers local_query then
    let local_query := MkLocalQuery (lq_id local_query) (lq_path local_query) (lq_args local_query) (num_subscribers local_query - 1) (subscription_index local_query) in
    Ret (MkLocal (next_query_id self) (query_set_version self) (BTreeMap.insert query_token local_query (query_set self))
           (query_id_to_token self) r (auth_token self) (identity_version self), None)
  else
    let base_version := query_set_version self in
    let new_version := base_version + 1 in
    Ret (MkLocal (next_query_id self) new_version (BTreeMap.remove query_token (query_set self))
           (BTreeMap.remove query_id (query_id_to_token self)) r (auth_token self) (identity_version self),
         Some (CModifyQuerySet base_version new_version [RemoveQuery query_id])).

(** [query_path(id).is_some()]: is the query still in the set? *)
Definition in_query_set (self : LocalSyncState) (query_id : Z) : bool :=
  match BTreeMap.get query_id (query_id_to_token self) with
  | Some query_token => is_Some_b (BTreeMap.get query_token (query_set self))
  | None => false
  end.

Definition local_set_auth (self : LocalSyncState) (token : option (list Z)) : LocalSyncState * ClientMessage :=
  (MkLocal (next_query_id self) (query_set_version self) (query_set self) (query_id_to_token self) (latest_results self)
     token (identity_version self + 1),
   CAuthenticate (identity_version self) token).

Definition local_restart (self : LocalSyncState) : LocalSyncState * list ClientMessage :=
  let mods := map (fun e : QueryToken * LocalQuery => AddQuery (MkQuery (lq_id e.2) (lq_path e.2) (lq_args e.2) None None)) (query_set self) in
  let query_set_message := CModifyQuerySet 0 1 mods in
  let restarted v := MkLocal (next_query_id self) 1 (query_set self) (query_id_to_token self) (latest_results self) (auth_token self) v in
  match auth_token self with
  | None => (restarted 0, [query_set_message])
  | Some token => (restarted 1, [CAuthenticate 0 (Some token); query_set_message])
  end.

(** ** The results the server has sent *)

Record RemoteQuerySet := MkRemote {
  version : StateVersion;
  remote_query_set : BTreeMap.t Z FunctionResult;
}.

Definition remote_new : RemoteQuerySet := MkRemote version_initial [].

Definition apply_state_modification (m : BTreeMap.t Z FunctionResult) (modification : StateModification) : BTreeMap.t Z FunctionResult :=
  match modification with
  | QueryUpdated query_id value _ _ => BTreeMap.insert query_id (FValue value) m
  | QueryFailed query_id error_message _ _ error_data =>
      BTreeMap.insert query_id (match error_data with Some v => FConvexError error_message v | None => FErrorMessage error_message end) m
  | QueryRemoved query_id => BTreeMap.remove query_id m
  end.

Inductive reconnect_reason := StartVersionMismatch | InvalidRequestId | MismatchedRequestType | ServerError.

Definition transition (self : RemoteQuerySet) (t : Transition) : outcome reconnect_reason RemoteQuerySet :=
  ensure (bool_decide (start_version t = version self)) StartVersionMismatch ;?
  Ret (MkRemote (end_version t) (fold_left apply_state_modification (modifications t) (remote_query_set self))).

(** [ingest_query_results_from_server]: the results that changed. *)
Definition ingest_query_results (old new : BTreeMap.t Z FunctionResult) : BTreeMap.t Z FunctionResult :=
  bfilter (fun e : Z * FunctionResult => match BTreeMap.get e.1 old with
    | Some r => negb (bool_decide (r = e.2))
    | None => true
    end) new.

(** ** Requests *)

Inductive RequestType := Mutation | Action.
Inductive RequestStatus := Requested | Completed.
#[global] Instance RequestType_EqDecision : EqDecision RequestType.
Proof. solve_decision. Defined.
#[global] Instance RequestStatus_EqDecision : EqDecision RequestStatus.
Proof. solve_decision. Defined.

Record Request := MkRequest {
  typ : RequestType;
  status : RequestStatus;
  request_ts : option Timestamp;
  request_value : option FunctionResult;
  message : ClientMessage;
}.

Notation RequestManager := (BTreeMap.t Z Request) (only parsing).
Notation Notification := (Z * FunctionResult)%type (only parsing).

Definition notify_completed {E} (self : RequestManager) (request_id : Z) : outcome E (RequestManager * Notification) :=
  let? request := expect (BTreeMap.get request_id self) in
  let? value := expect (request_value request) in
  Ret (BTreeMap.remove request_id self, (request_id, value)).

Definition update_request (self : RequestManager) (request_id : Z) (request_type : RequestType) (value : FunctionResult) (ts : option Timestamp)
    : outcome reconnect_reason (RequestManager * list Notification) :=
  match BTreeMap.get request_id self with
  | None => Err InvalidRequestId
  | Some request =>
      ensure (bool_decide (typ request = request_type)) MismatchedRequestType ;?
      let errored := match value with FErrorMessage _ => true | _ => false end in
      let self := BTreeMap.insert request_id (MkRequest (typ request) Completed ts (Some value) (message request)) self in
      if bool_decide (request_type = Action) || errored then
        let? (self, n) := notify_completed self request_id in Ret (self, [n])
      else Ret (self, [])
  end.

Definition is_completed (request : Request) (ts : Timestamp) : bool :=
  bool_decide (status request = Completed) || match request_ts request with Some request_ts => request_ts <=? ts | None => false end.

Definition remove_and_notify_completed {E} (self : RequestManager) (ts : Timestamp) : outcome E (RequestManager * list Notification) :=
  foldM (fun (st : RequestManager * list Notification) id =>
    let? (self, n) := notify_completed st.1 id in Ret (self, st.2 ++ [n]))
    (self, []) (map fst (bfilter (fun e : Z * Request => is_completed e.2 ts) self)).

Definition track_request (self : RequestManager) (m : ClientMessage) (request_id : Z) (request_type : RequestType) : RequestManager :=
  BTreeMap.insert request_id (MkRequest request_type Requested None None m) self.

(** [sort_by] on the timestamps, the latest first: stable insertion. *)
Definition ts_before (a b : option Timestamp) : bool :=
  match a, b with Some x, Some y => y <? x | Some _, None => true | _, _ => false end.
Fixpoint insert_by_ts (r : Request) (l : list Request) : list Request :=
  match l with
  | [] => [r]
  | x :: l' => if ts_before (request_ts r) (request_ts x) then r :: l else x :: insert_by_ts r l'
  end.
Definition requests_restart (self : RequestManager) : list ClientMessage :=
  map message (fold_left (fun l e => insert_by_ts e l) (map snd self) []).

(** ** The client *)

Record BaseConvexClient := MkClient {
  local : LocalSyncState;
  remote : RemoteQuerySet;
  optimistic_query_results : BTreeMap.t Z FunctionResult;
  request_manager : BTreeMap.t Z Request;
  next_request_id : Z;
  outgoing_message_queue : list ClientMessage;
  max_observed_timestamp : option Timestamp;
  notified : list (Z * FunctionResult);
}.

Definition client_new : BaseConvexClient := MkClient local_new remote_new [] [] 0 [] None [].

Definition option_list {A} (o : option A) : list A := match o with Some a => [a] | None => [] end.

Definition client_subscribe {E} (self : BaseConvexClient) (path arguments : list Z) : outcome E (BaseConvexClient * SubscriberId) :=
  let? (l, (modification, s)) := local_subscribe (local self) path arguments in
  Ret (MkClient l (remote self) (optimistic_query_results self) (request_manager self) (next_request_id self)
    (outgoing_message_queue self ++ option_list modification) (max_observed_timestamp self) (notified self), s).

Definition client_unsubscribe {E} (self : BaseConvexClient) (subscriber_id : SubscriberId) : outcome E BaseConvexClient :=
  let? (l, m) := remove_subscriber (local self) subscriber_id in
  Ret (MkClient l (remote self) (optimistic_query_results self) (request_manager self) (next_request_id self)
    (outgoing_message_queue self ++ option_list m) (max_observed_timestamp self) (notified self)).

(** [mutation] and [action]. *)
Definition client_request (self : BaseConvexClient) (request_type : RequestType) (path arguments : list Z) : BaseConvexClient :=
  let request_id := next_request_id self in
  let m := match request_type with Mutation => CMutation request_id path arguments | Action => CAction request_id path arguments end in
  MkClient (local self) (remote self) (optimistic_query_results self) (track_request (request_manager self) m request_id request_type)
    (request_id + 1) (outgoing_message_queue self ++ [m]) (max_observed_timestamp self) (notified self).

Definition client_set_auth (self : BaseConvexClient) (token : option (list Z)) : BaseConvexClient :=
  let '(l, m) := local_set_auth (local self) token in
  MkClient l (remote self) (optimistic_query_results self) (request_manager self) (next_request_id self)
    (outgoing_message_queue self ++ [m]) (max_observed_timestamp self) (notified self).

Definition pop_next_message (self : BaseConvexClient) : BaseConvexClient * option ClientMessage :=
  match outgoing_message_queue self with
  | [] => (self, None)
  | m :: queue =>
      (MkClient (local self) (remote self) (optimistic_query_results self) (request_manager self) (next_request_id self)
         queue (max_observed_timestamp self) (notified self), Some m)
  end.

Definition observe_timestamp (observed : option Timestamp) (ts : Timestamp) : option Timestamp :=
  match observed with Some max_observed => Some (Z.max ts max_observed) | None => Some ts end.

Definition with_latest_results (l : LocalSyncState) (changed : BTreeMap.t Z FunctionResult) : LocalSyncState :=
  let r := latest_results l in
  MkLocal (next_query_id l) (query_set_version l) (query_set l) (query_id_to_token l)
    (MkQueryResults (fold_left (fun m (e : Z * FunctionResult) => BTreeMap.insert e.1 e.2 m) changed (results r)) (subscribers r))
    (auth_token l) (identity_version l).

(** [receive_message] of a [Transition]. *)
Definition receive_transition (self : BaseConvexClient) (t : Transition) : outcome reconnect_reason BaseConvexClient :=
  let ts := v_ts (end_version t) in
  let? remote' := transition (remote self) t in
  let? (requests, notifications) := remove_and_notify_completed (request_manager self) ts in
  let server_results := bfilter (fun e : Z * FunctionResult => in_query_set (local self) e.1) (remote_query_set remote') in
  let changed := ingest_query_results (optimistic_query_results self) server_results in
  Ret (MkClient (with_latest_results (local self) changed) remote' server_results requests (next_request_id self)
    (outgoing_message_queue self) (observe_timestamp (max_observed_timestamp self) ts) (notified self ++ notifications)).

(** [receive_message] of a [MutationResponse] or an [ActionResponse]. *)
Definition receive_response (self : BaseConvexClient) (request_type : RequestType) (request_id : Z) (value : FunctionResult) (ts : option Timestamp)
    : outcome reconnect_reason BaseConvexClient :=
  let observed := match request_type, ts with Mutation, Some ts => observe_timestamp (max_observed_timestamp self) ts | _, _ => max_observed_timestamp self end in
  let? (requests, notifications) := update_request (request_manager self) request_id request_type value
    (match request_type with Mutation => ts | Action => None end) in
  Ret (MkClient (local self) (remote self) (optimistic_query_results self) requests (next_request_id self)
    (outgoing_message_queue self) observed (notified self ++ notifications)).

(** The messages of the server. *)
Inductive ServerMessage :=
| TransitionMessage (t : Transition)
| MutationResponse (request_id : Z) (result : FunctionResult) (ts : option Timestamp)
| ActionResponse (request_id : Z) (result : FunctionResult)
| AuthError
| FatalError
| Ping
| TransitionChunk.

Definition receive_message (self : BaseConvexClient) (m : ServerMessage) : outcome reconnect_reason BaseConvexClient :=
  match m with
  | TransitionMessage t => receive_transition self t
  | MutationResponse request_id result ts => receive_response self Mutation request_id result ts
  | ActionResponse request_id result => receive_response self Action request_id result None
  | AuthError | FatalError | TransitionChunk => Err ServerError
  | Ping => Ret self
  end.

Definition resend_ongoing_queries_mutations (self : BaseConvexClient) : BaseConvexClient :=
  let '(l, state_restart_messages) := local_restart (local self) in
  MkClient l remote_new (optimistic_query_results self) (request_manager self) (next_request_id self)
    (outgoing_message_queue self ++ state_restart_messages ++ requests_restart (request_manager self))
    (max_observed_timestamp self) (notified self).
