(* ===== verification/SyncProtocol.v ===== *)
(** * SyncProtocol: what the messages of a sync session establish
      (src/crates/sync/src/worker.rs, src/crates/sync/src/state.rs,
       src/crates/convex/src/base_client/mod.rs)

    The worker of [Sync] and the client of [SyncClient] together.  The
    application is described by [db], the result of a query for an identity at a
    timestamp, and [watches], what a subscription stands for; [ApiLaws] says how
    an [Api] relates to them. *)

From S2P Require Import Prelude Ord BTreeMap Timestamp Sync SyncClient.

Local Open Scope Z_scope.

(** ** What the client shows *)

Definition shown (r : list Z + RedactedJsError) : FunctionResult :=
  match r with
  | inl v => FValue v
  | inr e => match custom_data e with Some d => FConvexError (error_to_string e) d | None => FErrorMessage (error_to_string e) end
  end.

(** What the hash of a result is computed from. *)
Definition dedup_key (x : (list Z + RedactedJsError) * list (list Z)) : list Z + list Z :=
  match x.1 with
  | inl v => inl (udf_result_bytes v x.2)
  | inr e => inr (deduplication_bytes e x.2)
  end.

(** The same run of a query, but for the random request id of an error. *)
Definition same_run (x y : (list Z + RedactedJsError) * list (list Z)) : Prop :=
  x.2 = y.2 /\
  match x.1, y.1 with
  | inl v, inl w => v = w
  | inr e, inr e' => error_text e = error_text e' /\ custom_data e = custom_data e' /\ block_logging e = block_logging e'
  | _, _ => False
  end.

#[global] Instance same_run_Equivalence : Equivalence same_run.
Proof.
  split.
  - intros [[v|e] l]; done.
  - intros [[v|e] l] [[v'|e'] l'] [H1 H2]; split; naive_solver.
  - intros [[v|e] l] [[v'|e'] l'] [[v''|e''] l''] [H1 H2] [H3 H4]; split; simpl in *; naive_solver congruence.
Qed.

Lemma same_run_key x y : same_run x y -> dedup_key x = dedup_key y.
Proof.
  destruct x as [[v|e] l], y as [[w|e'] l']; intros [Hl H]; simpl in *; subst; try done.
  unfold dedup_key, deduplication_bytes; simpl. destruct H as (-> & _ & ->). done.
Qed.

(** The value of a result can be read off its hashed bytes: UTF-8 has no [0xff]. *)
Lemma udf_result_bytes_inj v l v' l' :
  255 ∉ v -> 255 ∉ v' -> udf_result_bytes v l = udf_result_bytes v' l' -> v = v'.
Proof.
  unfold udf_result_bytes. revert v'. induction v as [|b v IH]; intros [|b' v'] Hv Hv' H; simpl in *; [done|set_solver..|].
  injection H as -> H. f_equal. apply IH; [set_solver..|done].
Qed.

(** ** Modifications *)

Definition modified_query (m : StateModification) : Z :=
  match m with QueryUpdated id _ _ _ | QueryFailed id _ _ _ _ | QueryRemoved id => id end.

Definition modified_result (m : StateModification) : option FunctionResult :=
  match m with
  | QueryUpdated _ v _ _ => Some (FValue v)
  | QueryFailed _ e _ _ d => Some (match d with Some v => FConvexError e v | None => FErrorMessage e end)
  | QueryRemoved _ => None
  end.

Lemma modification_of_result id r l j :
  modified_query (modification_of id r l j) = id /\ modified_result (modification_of id r l j) = Some (shown r).
Proof. destruct r; done. Qed.

(** The results of a client with [c] after the modifications [M]. *)
Definition overlay (M : BTreeMap.t Z StateModification) (c : BTreeMap.t Z FunctionResult) (id : Z) : option FunctionResult :=
  match BTreeMap.get id M with Some m => modified_result m | None => BTreeMap.get id c end.

Definition keyed (M : BTreeMap.t Z StateModification) : Prop := BTreeMap.wf M /\ forall id m, (id, m) ∈ M -> modified_query m = id.

Lemma keyed_insert M m : keyed M -> keyed (BTreeMap.insert (modified_query m) m M).
Proof.
  intros [Hwf HM]. split; [by apply BTreeMap.wf_insert|].
  intros id m' [[-> ->]|[_ H]]%BTreeMap.elem_of_insert; [done|by apply HM|done].
Qed.

Lemma apply_modification_get c m id :
  BTreeMap.wf c -> BTreeMap.wf (apply_state_modification c m) /\
  BTreeMap.get id (apply_state_modification c m) = if decide (id = modified_query m) then modified_result m else BTreeMap.get id c.
Proof.
  intros Hc. destruct m; simpl; (split; [by first [apply BTreeMap.wf_insert|apply BTreeMap.wf_remove]|]); [by rewrite BTreeMap.get_insert_if..|].
  case_decide; subst; [by apply BTreeMap.get_remove_eq|by apply BTreeMap.get_remove_ne].
Qed.

Lemma apply_modifications_get M c :
  keyed M -> BTreeMap.wf c ->
  let c' := fold_left apply_state_modification (map snd M) c in
  BTreeMap.wf c' /\ forall id, BTreeMap.get id c' = overlay M c id.
Proof.
  revert c. induction M as [|[k m] M IH]; intros c [Hwf HM] Hc; [by split|]. cbn [map fold_left snd].
  assert (modified_query m = k) as Hk by (apply HM; left).
  assert (keyed M) as HM' by (split; [apply Hwf|intros; apply HM; by right]).
  destruct (apply_modification_get c m 0 Hc) as [Hc1 _].
  destruct (IH _ HM' Hc1) as [Hc2 Hget]. split; [done|]. intros id. rewrite Hget. unfold overlay.
  destruct (apply_modification_get c m id Hc) as [_ ->]. rewrite Hk. simpl.
  destruct (decide (id = k)) as [->|Hne].
  - rewrite Ord.eqb_refl. replace (BTreeMap.get k M) with (@None StateModification); [done|]. symmetry. apply BTreeMap.get_None.
    intros v Hin. destruct Hwf as [Hlt _]. by apply (Ord.olt_irrefl k), (Hlt (k, v)).
  - by rewrite (proj2 (Ord.eqb_neq _ _) Hne).
Qed.

(** ** The queries of the state *)

Section state.
Context {Identity Subscription : Type}.

Implicit Types (s : Subscription) (sq : @SyncedQuery Subscription) (q : Query) (st : @SyncState Identity Subscription).

Record QueriesOk (st : @SyncState Identity Subscription) : Prop := {
  queries_wf : BTreeMap.wf (queries st);
  in_progress_wf : BTreeMap.wf (in_progress_queries st);
  queries_ids : forall id sq, BTreeMap.get id (queries st) = Some sq -> query_id (sq_query sq) = id;
  in_progress_ids : forall id q, BTreeMap.get id (in_progress_queries st) = Some q -> query_id q = id;
}.

(** The entry that [complete_fetch] completes. *)
Lemma start_synced_spec st id st1 :
  QueriesOk st -> start_synced st id = Ret st1 ->
  BTreeMap.wf (queries st1) /\ BTreeMap.wf (in_progress_queries st1) /\
  BTreeMap.get id (in_progress_queries st1) = None /\
  (forall k, k <> id -> BTreeMap.get k (queries st1) = BTreeMap.get k (queries st) /\
     BTreeMap.get k (in_progress_queries st1) = BTreeMap.get k (in_progress_queries st)) /\
  match BTreeMap.get id (in_progress_queries st) with
  | Some q => BTreeMap.get id (queries st) = None /\ BTreeMap.get id (queries st1) = Some (MkSynced q None None None)
  | None => BTreeMap.get id (queries st1) = BTreeMap.get id (queries st)
  end.
Proof.
  intros Hok. pose proof (queries_wf _ Hok) as Hwf. pose proof (in_progress_wf _ Hok) as Hwfp.
  unfold start_synced. destruct (BTreeMap.get id (in_progress_queries st)) as [q|] eqn:Hq.
  - destruct (BTreeMap.get id (queries st)) eqn:Hid; [done|]. intros [= <-]. cbn [with_queries queries in_progress_queries].
    split_and!; [by apply BTreeMap.wf_insert|by apply BTreeMap.wf_remove|by apply BTreeMap.get_remove_eq| |done|by apply BTreeMap.get_insert_eq].
    intros k Hk. by rewrite BTreeMap.get_insert_ne, BTreeMap.get_remove_ne.
  - intros [= <-]. by split_and!.
Qed.

(** Entries that differ in their futures alone. *)
Definition same_entry (sq sq' : @SyncedQuery Subscription) : Prop :=
  sq_query sq' = sq_query sq /\ subscription sq' = subscription sq /\ result_hash sq' = result_hash sq.

Lemma same_entry_refl sq : same_entry sq sq.
Proof. done. Qed.

(** An entry before and after [fill_invalidation_futures]. *)
Definition refilled (sq sq' : @SyncedQuery Subscription) : Prop :=
  same_entry sq sq' /\ (invalidation_future sq = None -> is_Some (subscription sq)) /\ is_Some (invalidation_future sq').

Lemma fill_futures_entries qs futures next qs' futures' next' :
  fill_futures qs futures next = Ret (qs', futures', next') ->
  Forall2 (fun e e' : Z * @SyncedQuery Subscription => e'.1 = e.1 /\ refilled e.2 e'.2) qs qs'.
Proof.
  revert futures next qs' futures' next'. induction qs as [|[id sq] qs IH]; intros futures next qs' futures' next' H; cbn [fill_futures] in H.
  - injection H as <- _ _. constructor.
  - destruct (invalidation_future sq) as [h|] eqn:Hfut; [|destruct (subscription sq) as [s|] eqn:Hs; [|done]].
    + destruct (fill_futures qs futures next) as [[[qs1 f1] n1]| |] eqn:Hf; try done. injection H as <- _ _.
      constructor; [|by eapply IH]. unfold refilled. cbn. rewrite Hfut. split_and!; eauto; done.
    + destruct (fill_futures qs _ (S next)) as [[[qs1 f1] n1]| |] eqn:Hf; try done. injection H as <- _ _.
      constructor; [|by eapply IH]. unfold refilled, same_entry. cbn. rewrite Hs. eauto 10.
Qed.

Lemma option_Forall2_is_Some {A B} (R : A -> B -> Prop) o o' : option_Forall2 R o o' -> is_Some o <-> is_Some o'.
Proof. destruct 1; [|done]. by split; eauto. Qed.

Lemma take_subscriptions_get st :
  QueriesOk st ->
  let st' := (take_subscriptions st).1 in
  QueriesOk st' /\ in_progress_queries st' = in_progress_queries st /\
  forall id, option_Forall2 (fun sq sq' => sq' = take_subscription sq) (BTreeMap.get id (queries st)) (BTreeMap.get id (queries st')).
Proof.
  intros Hok st'. destruct (BTreeMap.get_Forall2 (fun sq sq' => sq' = take_subscription sq) (queries st) (queries st')) as [Hwf Hget]; [|apply Hok|].
  { cbn. induction (queries st) as [|e m IH]; constructor; done. }
  split_and!; [split|done|done]; [done|apply Hok| |apply Hok].
  intros id sq Hsq. specialize (Hget id). rewrite Hsq in Hget. inversion Hget as [sq0 ? -> Heq|]; subst. by apply (queries_ids _ Hok id sq0).
Qed.

Lemma remove_query_spec st id st1 :
  QueriesOk st -> remove_query st id = Ret st1 ->
  QueriesOk st1 /\ (forall k, BTreeMap.get k (queries st1) = if decide (k = id) then None else BTreeMap.get k (queries st)) /\
  identity st1 = identity st /\ current_version st1 = current_version st /\ pending_identity st1 = pending_identity st.
Proof.
  intros Hok Hr. pose proof (queries_wf _ Hok) as Hwf. pose proof (in_progress_wf _ Hok) as Hwfp. unfold remove_query in Hr.
  destruct (BTreeMap.get id (queries st)) as [sq|] eqn:Hsq; [|destruct (BTreeMap.get id (in_progress_queries st)); [|done]];
    injection Hr as <-; cbn [with_queries queries in_progress_queries]; (split; [split; cbn [with_queries queries in_progress_queries]; try apply Hok|]).
  - by apply BTreeMap.wf_remove.
  - intros k sq' Hk%BTreeMap.get_remove_Some; [|done]. by apply (queries_ids _ Hok).
  - split; [|done]. intros k. case_decide; subst; [by apply BTreeMap.get_remove_eq|by apply BTreeMap.get_remove_ne].
  - by apply BTreeMap.wf_remove.
  - intros k q' Hk%BTreeMap.get_remove_Some; [|done]. by apply (in_progress_ids _ Hok).
  - split; [|done]. intros k. by case_decide; subst.
Qed.

Lemma take_remaining_fst (need : list Query) (remaining : BTreeMap.t Z Subscription) : (take_remaining need remaining).*1 = need.
Proof. revert remaining. induction need as [|q need IH]; intros remaining; simpl; [done|]. by rewrite IH. Qed.

Lemma take_remaining_sub (need : list Query) (remaining : BTreeMap.t Z Subscription) q s :
  BTreeMap.wf remaining -> (q, Some s) ∈ take_remaining need remaining -> BTreeMap.get (query_id q) remaining = Some s.
Proof.
  revert remaining. induction need as [|q' need IH]; intros remaining Hwf; cbn [take_remaining]; [set_solver|].
  intros [[= -> ->]|Hin]%elem_of_cons; [done|]. apply BTreeMap.get_remove_Some with (k := query_id q'); [done|].
  apply IH; [by apply BTreeMap.wf_remove|done].
Qed.

Definition taken (m : BTreeMap.t Z (@SyncedQuery Subscription)) : BTreeMap.t Z Subscription :=
  flat_map (fun e : Z * SyncedQuery => match subscription e.2 with Some s => [(e.1, s)] | None => [] end) m.

Lemma taken_elem m id s : (id, s) ∈ taken m -> exists sq, (id, sq) ∈ m /\ subscription sq = Some s.
Proof.
  induction m as [|[k sq] m IH]; [set_solver|]. change (taken ((k, sq) :: m)) with (match subscription sq with Some s => [(k, s)] | None => [] end ++ taken m).
  intros [Hin|Hin]%elem_of_app; [|destruct (IH Hin) as (sq' & ? & ?); exists sq'; split; [by right|done]].
  destruct (subscription sq) as [s'|] eqn:Hs; [|set_solver]. apply list_elem_of_singleton in Hin as [= -> ->]. exists sq. split; [by left|done].
Qed.

Lemma taken_wf m : BTreeMap.wf m -> BTreeMap.wf (taken m).
Proof.
  induction m as [|[k sq] m IH]; [done|]. intros [Hlt Hwf]. apply BTreeMap.wf_app; [simpl; destruct (subscription sq); simpl; set_solver|by apply IH|].
  intros [k1 s1] [k2 s2] H1 (sq2 & H2 & _)%taken_elem. simpl in *. destruct (subscription sq); [|set_solver].
  apply list_elem_of_singleton in H1 as [= -> ->]. by apply (Hlt (k2, sq2)).
Qed.

Lemma taken_get m id s : BTreeMap.wf m -> BTreeMap.get id (taken m) = Some s -> exists sq, BTreeMap.get id m = Some sq /\ subscription sq = Some s.
Proof.
  intros Hwf (sq & Hsq & Hs)%BTreeMap.elem_of_get%taken_elem; [|by apply taken_wf]. exists sq. by rewrite BTreeMap.elem_of_get.
Qed.

(** What [need_fetch] returns once the subscriptions are taken. *)
Lemma need_fetch_taken st :
  need_fetch (take_subscriptions st).1 = map (fun e : Z * SyncedQuery => sq_query e.2) (queries st) ++ map snd (in_progress_queries st).
Proof. unfold need_fetch. cbn. f_equal. induction (queries st) as [|e m IH]; simpl; [done|]. by f_equal. Qed.

(** A query to fetch is synced or in progress. *)
Lemma need_fetch_elem st q :
  QueriesOk st -> q ∈ need_fetch (take_subscriptions st).1 ->
  BTreeMap.get (query_id q) (in_progress_queries st) = Some q \/
  exists sq, BTreeMap.get (query_id q) (queries st) = Some sq /\ sq_query sq = q.
Proof.
  intros Hok. rewrite need_fetch_taken. intros [Hin|Hin]%elem_of_app.
  - apply list_elem_of_fmap in Hin as ([id sq] & -> & Hsq). right. cbn [snd]. exists sq. split; [|done].
    apply BTreeMap.elem_of_get in Hsq; [|apply Hok]. by rewrite (queries_ids _ Hok id sq).
  - apply list_elem_of_fmap in Hin as ([id q'] & -> & Hq). left. cbn [snd].
    apply BTreeMap.elem_of_get in Hq; [|apply Hok]. by rewrite (in_progress_ids _ Hok id q').
Qed.

(** A synced query that is not in progress too is fetched once. *)
Lemma need_fetch_once st q q' o o' (remaining : BTreeMap.t Z Subscription) :
  QueriesOk st -> BTreeMap.get (query_id q) (in_progress_queries st) = None ->
  (q, o) ∈ take_remaining (need_fetch (take_subscriptions st).1) remaining -> (q', o') ∈ take_remaining (need_fetch (take_subscriptions st).1) remaining ->
  query_id q' = query_id q -> (q', o') = (q, o).
Proof.
  intros Hok Hnone [k Hk]%list_elem_of_lookup [k' Hk']%list_elem_of_lookup Hid.
  assert (forall k q0 o0, take_remaining (need_fetch (take_subscriptions st).1) remaining !! k = Some (q0, o0) -> query_id q0 = query_id q ->
    (queries st).*1 !! k = Some (query_id q)) as Hpos.
  { intros k0 q0 o0 Hk0 Hid0. assert (need_fetch (take_subscriptions st).1 !! k0 = Some q0) as Hneed.
    { rewrite <- (take_remaining_fst _ remaining), list_lookup_fmap, Hk0. done. }
    rewrite need_fetch_taken in Hneed. apply lookup_app_Some in Hneed as [Hneed|[_ Hneed]].
    - rewrite list_lookup_fmap in Hneed. apply fmap_Some in Hneed as ([id sq] & Hq & ->). rewrite list_lookup_fmap. apply fmap_Some.
      exists (id, sq). split; [exact Hq|]. apply list_elem_of_lookup_2, BTreeMap.elem_of_get in Hq; [|apply Hok].
      cbn. rewrite <- Hid0. by apply (queries_ids _ Hok).
    - apply list_elem_of_lookup_2, list_elem_of_fmap in Hneed as ([id q1] & -> & Hq%BTreeMap.elem_of_get); [|apply Hok].
      cbn [snd] in *. rewrite <- (in_progress_ids _ Hok _ _ Hq), Hid0 in Hq. congruence. }
  assert (k' = k) as ->; [|congruence].
  exact (NoDup_lookup _ _ _ _ (BTreeMap.wf_NoDup_fst _ (queries_wf _ Hok)) (Hpos _ _ _ Hk' Hid) (Hpos _ _ _ Hk eq_refl)).
Qed.
End state.

(** ** The application *)

Section protocol.
Context {Identity Subscription Token : Type}.
Context (sha256 : list Z -> list Z) (is_expired : Identity -> Z -> bool).
Context (db : Identity -> Query -> Timestamp -> (list Z + RedactedJsError) * list (list Z)).
Context (watches : Subscription -> Identity -> Query -> Timestamp -> Prop).

Implicit Types (i : Identity) (s : Subscription) (sq : @SyncedQuery Subscription) (q : Query) (st : @SyncState Identity Subscription)
  (M : BTreeMap.t Z StateModification) (c : BTreeMap.t Z FunctionResult).

(** A query returns the result of the database and its subscription watches what
    it read; a subscription that is extended to a timestamp says that the
    query, run again, would return the same. *)
Class ApiLaws (api : @Api Identity Subscription Token) : Prop := {
  execute_query_db : forall i q ts r l j token,
    execute_query api i q ts = Ret (r, l, j, token) ->
    same_run (r, l) (db i q ts) /\ forall s, subscribe api token = Ret s -> watches s i q ts;
  extend_validity_db : forall s i q ts ts',
    watches s i q ts -> extend_validity api s ts' = Ret true ->
    watches s i q ts' /\ same_run (db i q ts') (db i q ts);
}.

Definition hash_of (x : (list Z + RedactedJsError) * list (list Z)) : list Z + list Z := hash_result sha256 x.1 x.2.

(** No two results of the database collide. *)
Definition collision_free : Prop := forall i q ts i' q' ts',
  hash_of (db i q ts) = hash_of (db i' q' ts') -> dedup_key (db i q ts) = dedup_key (db i' q' ts').

(** Values are UTF-8 text. *)
Definition utf8_values : Prop := forall i q ts v l, db i q ts = (inl v, l) -> 255 ∉ v.

Definition from_db (x : (list Z + RedactedJsError) * list (list Z)) : Prop := exists i q ts, same_run x (db i q ts).

(** [f] is the result of a run with the hashed bytes of [x], and [h] its hash. *)
Definition known (x : (list Z + RedactedJsError) * list (list Z)) (h : option (list Z + list Z)) (f : FunctionResult) : Prop :=
  h = Some (hash_of x) /\ exists y, from_db y /\ dedup_key y = dedup_key x /\ f = shown y.1.

Definition set_journal (q : Query) (j : option (option (list Z))) : Query :=
  MkQuery (query_id q) (udf_path q) (args q) (component_path q) j.

(** The client shows the result of the query at the timestamp, and the
    subscription watches it. *)
Definition synced_at (i : Identity) (ts : Timestamp) (s : Subscription) (sq : @SyncedQuery Subscription) (f : FunctionResult) : Prop :=
  exists j, let q := set_journal (sq_query sq) j in
  watches s i q ts /\ known (db i q ts) (result_hash sq) f.

Definition seen (sq : @SyncedQuery Subscription) (f : FunctionResult) : Prop := exists x, from_db x /\ known x (result_hash sq) f.

Lemma same_run_hash x y : same_run x y -> hash_of x = hash_of y.
Proof.
  intros H. pose proof (same_run_key _ _ H) as Hk. destruct x as [[v|e] l], y as [[w|e'] l']; unfold hash_of, hash_result in *;
    cbv [dedup_key fst snd] in *; congruence.
Qed.

Lemma from_db_run i q ts : from_db (db i q ts).
Proof. by exists i, q, ts. Qed.

Lemma hash_of_key x y : collision_free -> from_db x -> from_db y -> hash_of x = hash_of y -> dedup_key x = dedup_key y.
Proof.
  intros Hsha (i & q & ts & Hx) (i' & q' & ts' & Hy) Hh.
  rewrite (same_run_key _ _ Hx), (same_run_key _ _ Hy). apply Hsha. by rewrite <- (same_run_hash _ _ Hx), <- (same_run_hash _ _ Hy).
Qed.

Lemma synced_seen i ts s sq f : synced_at i ts s sq f -> seen sq f.
Proof. intros (j & _ & Hk). eexists. split; [apply from_db_run|exact Hk]. Qed.

Lemma known_same_run x y h f : same_run x y -> known x h f -> known y h f.
Proof.
  intros Hxy [-> (z & Hz & Hk & ->)]. split; [by rewrite (same_run_hash _ _ Hxy)|].
  exists z. by rewrite <- (same_run_key _ _ Hxy).
Qed.

(** ** The queries and the client's results *)

(** The client has a result for the synced queries and for no others. *)
Definition same_domain (st : @SyncState Identity Subscription) (M : BTreeMap.t Z StateModification) (c : BTreeMap.t Z FunctionResult) : Prop :=
  forall id, is_Some (BTreeMap.get id (queries st)) <-> is_Some (overlay M c id).

(** Between the start and the end of a transition: [sub] says what is known of a
    query that has a subscription. *)
Record QueriesSeen (sub : Subscription -> @SyncedQuery Subscription -> FunctionResult -> Prop)
    (st : @SyncState Identity Subscription) (M : BTreeMap.t Z StateModification) (c : BTreeMap.t Z FunctionResult) : Prop := {
  qs_ok : QueriesOk st;
  qs_keyed : keyed M;
  qs_domain : same_domain st M c;
  qs_seen : forall id sq f, BTreeMap.get id (queries st) = Some sq -> overlay M c id = Some f ->
    invalidation_future sq = None /\ match subscription sq with Some s => sub s sq f | None => seen sq f end;
}.

(** What a result that is yet to be applied says. *)
Definition result_ok i ts st M c (r : Z * QueryResult * Subscription) : Prop :=
  let '(id, result, s) := r in
  match result with
  | Refresh => exists sq f, BTreeMap.get id (queries st) = Some sq /\ overlay M c id = Some f /\ synced_at i ts s sq f
  | Rerun res l j => exists q, watches s i q ts /\ same_run (res, l) (db i q ts) /\
      (BTreeMap.get id (in_progress_queries st) = Some q \/
       exists sq, BTreeMap.get id (queries st) = Some sq /\ (subscription sq = None -> sq_query sq = q))
  | TemporarilyUnavailable => True
  end.

(** A query that is refreshed is not run as well, unless it was added twice. *)
Definition results_exclusive st (rs : list (Z * QueryResult * Subscription)) : Prop :=
  forall id s res l j s', (id, Refresh, s) ∈ rs -> (id, Rerun res l j, s') ∈ rs -> is_Some (BTreeMap.get id (in_progress_queries st)).

(** ** The results of a transition *)

Section results.
Context (i : Identity) (ts : Timestamp) (c : BTreeMap.t Z FunctionResult) (Hsha : collision_free).

Notation Seen := (QueriesSeen (synced_at i ts)) (only parsing).

Lemma overlay_insert M c' m id :
  BTreeMap.wf M -> overlay (BTreeMap.insert (modified_query m) m M) c' id = if decide (id = modified_query m) then modified_result m else overlay M c' id.
Proof. intros HM. unfold overlay. rewrite BTreeMap.get_insert_if by done. by case_decide. Qed.

(** Storing the entry [sq'] of [id], to which the client's result [f'] belongs. *)
Lemma seen_store st M id sq' st' M' f' :
  Seen st M c -> BTreeMap.wf (queries st') -> (forall k, BTreeMap.get k (queries st') = if decide (k = id) then Some sq' else BTreeMap.get k (queries st)) ->
  BTreeMap.wf (in_progress_queries st') -> (forall k q, BTreeMap.get k (in_progress_queries st') = Some q -> BTreeMap.get k (in_progress_queries st) = Some q) ->
  keyed M' -> (forall k, overlay M' c k = if decide (k = id) then Some f' else overlay M c k) ->
  query_id (sq_query sq') = id -> invalidation_future sq' = None ->
  (exists s, subscription sq' = Some s /\ synced_at i ts s sq' f') ->
  Seen st' M' c.
Proof.
  intros [Hok Hk Hdom Hs] Hwf Hq Hwfp Hp HM' Ho Hid Hfut (s & Hsub & Hat). split; [split|..]; try done.
  - intros k sq. rewrite Hq. case_decide; [naive_solver|]. apply (queries_ids _ Hok).
  - intros k q Hkq. by apply (in_progress_ids _ Hok), Hp.
  - intros k. rewrite Hq, Ho. case_decide; [by split; eauto|]. apply Hdom.
  - intros k sq f. rewrite Hq, Ho. case_decide; [|apply Hs]. intros [= <-] [= <-]. by rewrite Hsub.
Qed.

Lemma apply_refresh st M id s st' :
  Seen st M c -> result_ok i ts st M c (id, Refresh, s) -> refill_subscription st id s = Ret st' ->
  Seen st' M c /\ in_progress_queries st' = in_progress_queries st /\
  (forall k sq', BTreeMap.get k (queries st') = Some sq' ->
     exists sq, BTreeMap.get k (queries st) = Some sq /\ sq_query sq' = sq_query sq /\ result_hash sq' = result_hash sq /\
     (subscription sq' = None -> subscription sq = None)) /\
  (forall k, is_Some (BTreeMap.get k (queries st)) -> is_Some (BTreeMap.get k (queries st'))).
Proof.
  intros HS (sq & f & Hsq & Hf & Hat) Hst. pose proof (qs_ok _ _ _ _ HS) as Hok. pose proof (queries_wf _ Hok) as Hwf.
  unfold refill_subscription in Hst. rewrite Hsq in Hst. cbn [ok_or obind] in Hst. destruct_outcome.
  cbn [with_queries queries in_progress_queries]. split; [|split; [done|split]].
  - eapply (seen_store _ _ id _ _ _ f HS); cbn [with_queries queries in_progress_queries]; try done.
    + by apply BTreeMap.wf_insert.
    + intros k. by rewrite BTreeMap.get_insert_if.
    + apply (in_progress_wf _ Hok).
    + apply (qs_keyed _ _ _ _ HS).
    + intros k. case_decide; by subst.
    + exact (queries_ids _ Hok _ _ Hsq).
    + apply (qs_seen _ _ _ _ HS id sq f Hsq Hf).
    + eauto.
  - intros k sq'. rewrite BTreeMap.get_insert_if by done. case_decide; [|eauto 10]. intros [= <-]. subst. exists sq. by cbn.
  - intros k. rewrite BTreeMap.get_insert_if by done. case_decide; eauto.
Qed.

Lemma complete_fetch_spec st M id res l j s st' m :
  Seen st M c -> result_ok i ts st M c (id, Rerun res l j, s) -> complete_fetch sha256 st id res l j s = Ret (st', m) ->
  let M' := match m with Some m => BTreeMap.insert id m M | None => M end in
  Seen st' M' c /\
  (forall k, k <> id -> BTreeMap.get k (queries st') = BTreeMap.get k (queries st) /\
     BTreeMap.get k (in_progress_queries st') = BTreeMap.get k (in_progress_queries st) /\ overlay M' c k = overlay M c k) /\
  (exists sq', BTreeMap.get id (queries st') = Some sq' /\ is_Some (subscription sq')) /\
  (is_Some (BTreeMap.get id (queries st)) -> BTreeMap.get id (in_progress_queries st) = None).
Proof.
  intros HS (q & Hw & Hrun & Hwhere) Hc M'. pose proof (qs_keyed _ _ _ _ HS) as HM. pose proof (qs_ok _ _ _ _ HS) as Hok.
  unfold complete_fetch in Hc. destruct (start_synced st id) as [st1| |] eqn:Hst1; try done. cbn [obind] in Hc.
  destruct (start_synced_spec _ _ _ Hok Hst1) as (Hwf1 & Hwfp1 & Hnone & Hother & Hid).
  destruct (BTreeMap.get id (queries st1)) as [sq|] eqn:Hsq; [|done]. cbn [ok_or obind] in Hc.
  destruct (subscription sq) as [|] eqn:Hsub; [done|]. cbn [is_Some_b negb ensure obind] in Hc. injection Hc as <- <-.
  assert (sq_query sq = q /\ query_id q = id /\ (result_hash sq = None \/ exists f, overlay M c id = Some f /\ seen sq f)) as (Hq & Hqid & Hseen).
  { destruct (BTreeMap.get id (in_progress_queries st)) as [q0|] eqn:Hp.
    - destruct Hid as [Hno [= ->]]. destruct Hwhere as [[= ->]|(sq0 & ? & _)]; [|congruence].
      split_and!; [done|by apply (in_progress_ids _ Hok)|by left].
    - destruct Hwhere as [?|(sq0 & Hsq0 & Heq)]; [done|]. assert (sq0 = sq) as -> by congruence.
      specialize (Heq Hsub). split_and!; [done|subst q; by apply (queries_ids _ Hok)|right].
      destruct (proj1 (qs_domain _ _ _ _ HS id)) as [f Hf]; [eauto|]. exists f. split; [done|].
      destruct (qs_seen _ _ _ _ HS id sq f) as [_ Hs]; [congruence|done|]. by rewrite Hsub in Hs. }
  set (x := (res, l)) in *. assert (from_db x) as Hx by (by exists i, q, ts).
  assert (exists f', (forall k, overlay M' c k = if decide (k = id) then Some f' else overlay M c k) /\
    keyed M' /\ known (db i q ts) (Some (hash_of x)) f') as (f' & Hover & HM' & Hknown).
  { subst M'. change (hash_result sha256 res l) with (hash_of x). case_bool_decide as Hh.
    - destruct Hseen as [?|(f & Hf & y & Hy & [Hhy (z & Hz & Hzy & ->)])]; [congruence|]. exists (shown z.1). split_and!; [|done|].
      + intros k. by case_decide; subst.
      + apply (known_same_run x); [done|]. split; [done|]. exists z. split_and!; [done| |done].
        rewrite Hzy. apply hash_of_key; [done..|congruence].
    - destruct (modification_of_result id res l j) as [Hmid Hmres]. exists (shown res). split_and!.
      + intros k. rewrite <- Hmid at 1. rewrite overlay_insert by apply HM. by rewrite Hmid, Hmres.
      + rewrite <- Hmid at 1. by apply keyed_insert.
      + apply (known_same_run x); [done|]. split; [done|]. by exists x. }
  split_and!.
  - eapply (seen_store _ _ id _ _ _ f' HS); cbn [with_queries queries in_progress_queries]; try done.
    + by apply BTreeMap.wf_insert.
    + intros k. rewrite BTreeMap.get_insert_if by done. case_decide; [done|by apply Hother].
    + intros k q'. destruct (decide (k = id)) as [->|Hk]; [congruence|]. by rewrite (proj2 (Hother k Hk)).
    + cbn. congruence.
    + done.
    + eexists. split; [done|]. exists (journal q). cbn. rewrite Hq. by destruct q.
  - intros k Hk. cbn [with_queries queries in_progress_queries]. rewrite BTreeMap.get_insert_ne, Hover by done.
    rewrite decide_False by done. split; [|split]; [by apply Hother..|done].
  - cbn [with_queries queries]. rewrite BTreeMap.get_insert_eq by done. eauto.
  - intros [sq0 Hsq0]. destruct (BTreeMap.get id (in_progress_queries st)); [|done]. destruct Hid. congruence.
Qed.

Lemma synced_at_ext ts' s sq sq' f :
  sq_query sq' = sq_query sq -> result_hash sq' = result_hash sq -> synced_at i ts' s sq f -> synced_at i ts' s sq' f.
Proof. intros Hq Hh (j & Hj). exists j. by rewrite Hq, Hh. Qed.

Lemma apply_result_step r rs st M st' M' :
  Seen st M c -> Forall (result_ok i ts st M c) (r :: rs) -> results_exclusive st (r :: rs) ->
  apply_result sha256 (st, M) r = Ret (st', M') ->
  Seen st' M' c /\ Forall (result_ok i ts st' M' c) rs /\ results_exclusive st' rs.
Proof.
  intros HS [Hr Hrs]%Forall_cons Hex Hstep. destruct r as [[id [res l j| |]] s]; cbn [apply_result fst snd] in Hstep; [| done |].
  - destruct (complete_fetch sha256 st id res l j s) as [[st1 m]| |] eqn:Hc; try done. injection Hstep as <- <-.
    destruct (complete_fetch_spec _ _ _ _ _ _ _ _ _ HS Hr Hc) as (HS1 & Hother & (sq1 & Hsq1 & [s1 Hs1]) & Hnp). split; [done|].
    assert (forall s0, (id, Refresh, s0) ∈ rs -> False) as Hno.
    { intros s0 Hin. destruct (proj1 (Forall_forall _ _) Hrs _ Hin) as (sq & f & Hsq & _).
      destruct (Hex id s0 res l j s) as [q Hq]; [by right|by left|]. rewrite Hnp in Hq; [done|eauto]. }
    split.
    + apply Forall_forall. intros [[id' [res' l' j'| |]] s'] Hin; pose proof (proj1 (Forall_forall _ _) Hrs _ Hin) as Hok; [|done|].
      * destruct Hok as (q & Hw & Hrun & Hwhere). exists q. split_and!; [done..|].
        destruct (decide (id' = id)) as [->|Hne]; [right; exists sq1; split; [done|congruence]|].
        destruct (Hother id' Hne) as (-> & -> & _). done.
      * destruct (decide (id' = id)) as [->|Hne]; [by destruct (Hno s')|]. simpl. destruct (Hother id' Hne) as (-> & _ & ->). done.
    + intros id' s0 res' l' j' s0' H1 H2. destruct (decide (id' = id)) as [->|Hne]; [by destruct (Hno s0)|].
      rewrite (proj1 (proj2 (Hother id' Hne))). eapply Hex; by right.
  - destruct (refill_subscription st id s) as [st1| |] eqn:Hc; try done. injection Hstep as <- <-.
    destruct (apply_refresh _ _ _ _ _ HS Hr Hc) as (HS1 & Hip & Hback & Hfwd). split; [done|]. split.
    + apply Forall_forall. intros [[id' [res' l' j'| |]] s'] Hin; pose proof (proj1 (Forall_forall _ _) Hrs _ Hin) as Hok; [|done|].
      * destruct Hok as (q & Hw & Hrun & Hwhere). exists q. rewrite Hip. split_and!; [done..|].
        destruct Hwhere as [?|(sq & Hsq & Hq)]; [by left|right]. destruct (Hfwd id') as [sq' Hsq']; [eauto|].
        exists sq'. split; [done|]. destruct (Hback _ _ Hsq') as (sq2 & Hsq2 & -> & _ & Hn). assert (sq2 = sq) as -> by congruence. auto.
      * destruct Hok as (sq & f & Hsq & Hf & Hat). destruct (Hfwd id') as [sq' Hsq']; [eauto|]. exists sq', f. split_and!; [done..|].
        destruct (Hback _ _ Hsq') as (sq2 & Hsq2 & Hq2 & Hh2 & _). apply (synced_at_ext ts s' sq); congruence || done.
    + intros id' s0 res' l' j' s0' H1 H2. rewrite Hip. eapply Hex; by right.
Qed.

Lemma apply_results_spec rs st M st' M' :
  Seen st M c -> Forall (result_ok i ts st M c) rs -> results_exclusive st rs ->
  foldM (apply_result sha256) (st, M) rs = Ret (st', M') -> Seen st' M' c.
Proof.
  revert st M. induction rs as [|r rs IH]; intros st M HS Hrs Hex Hf; [by injection Hf as <- <-|]. cbn [foldM] in Hf.
  destruct (apply_result sha256 (st, M) r) as [[st1 M1]| |] eqn:Hr; try done. cbn [obind] in Hf.
  destruct (apply_result_step _ _ _ _ _ _ HS Hrs Hex Hr) as (HS1 & Hrs1 & Hex1). by apply (IH st1 M1).
Qed.
End results.

(** ** The queries of a transition *)

Lemma seen_mono (P Q : Subscription -> @SyncedQuery Subscription -> FunctionResult -> Prop) st M c :
  (forall s sq f, P s sq f -> Q s sq f) -> QueriesSeen P st M c -> QueriesSeen Q st M c.
Proof.
  intros HPQ [Hok HM Hdom Hs]. split; [done..|]. intros id sq f Hsq Hf. destruct (Hs id sq f Hsq Hf) as [Hfut H].
  split; [done|]. destruct (subscription sq); auto.
Qed.

Lemma run_again (api : @Api Identity Subscription Token) i q ts id res s (P : Prop) :
  match execute_query api i q ts with
  | Ret (result, log_lines, j, token) =>
      let? s := lift_api (subscribe api token) in
      Ret (query_id q, Rerun result log_lines j, Some s)
  | Err Unavailable => Ret (query_id q, TemporarilyUnavailable, None)
  | Err OtherError => Err ApiError
  | Panic => Panic
  end = Ret (id, res, Some s) ->
  id = query_id q /\
  match res with
  | Refresh => P
  | Rerun r l j => exists token, execute_query api i q ts = Ret (r, l, j, token) /\ subscribe api token = Ret s
  | TemporarilyUnavailable => False
  end.
Proof.
  destruct (execute_query api i q ts) as [[[[r l] j] token]|[]|] eqn:He; intros H; try done.
  destruct (subscribe api token) as [s1| |] eqn:Hs; cbn in H; try done. injection H as <- <- <-. eauto.
Qed.

Lemma update_query_spec (api : @Api Identity Subscription Token) p q o id res s :
  update_query api p (q, o) = Ret (id, res, Some s) ->
  id = query_id q /\
  match res with
  | Refresh => o = Some s /\ extend_validity api s (v_ts (pt_new_version p)) = Ret true
  | Rerun r l j => exists token, execute_query api (pt_identity p) q (v_ts (pt_new_version p)) = Ret (r, l, j, token) /\ subscribe api token = Ret s
  | TemporarilyUnavailable => False
  end.
Proof.
  intros H. unfold update_query in H. destruct o as [s1|].
  - destruct (extend_validity api s1 _) as [[]| |] eqn:Hv; cbn [lift_api obind] in H; try done; [by injection H as <- <- <-|].
    by apply run_again.
  - by apply run_again.
Qed.

Lemma run_queries_elem (api : @Api Identity Subscription Token) p order rs u id res s :
  run_queries api p order = Ret (rs, u) -> (id, res, s) ∈ rs ->
  exists q o, (q, o) ∈ order /\ update_query api p (q, o) = Ret (id, res, Some s).
Proof.
  revert rs u. induction order as [|[q o] order IH]; intros rs u H Hin; cbn [run_queries] in H; [injection H as <- <-; set_solver|].
  destruct (update_query api p (q, o)) as [[[id1 res1] o1]| |] eqn:Hu; try done. cbn [obind] in H.
  destruct (run_queries api p order) as [[rs1 u1]| |] eqn:Hr; try done. cbn [obind] in H. injection H as <- _.
  assert ((id, res, s) ∈ rs1 \/ (id, res, Some s) = (id1, res1, o1)) as [Hin1|Heq].
  { destruct o1 as [s1|]; [|by left]. apply elem_of_cons in Hin as [[= -> -> ->]|?]; auto. }
  - destruct (IH rs1 u1 eq_refl Hin1) as (q' & o' & ? & ?). exists q', o'. split; [by right|done].
  - exists q, o. split; [by left|]. by rewrite Heq.
Qed.

(** A transition under way: no synced query has a subscription; the fetches have
    them. *)
Record PendingOk (p : @PendingTransition Identity Subscription) (st : @SyncState Identity Subscription) (c : BTreeMap.t Z FunctionResult) : Prop := {
  pend_identity : pt_identity p = identity st;
  pend_version : pt_current_version p = current_version st;
  pend_seen : QueriesSeen (fun _ _ _ => False) st (state_modifications p) c;
  pend_fetch : forall q o, (q, o) ∈ pt_need_fetch p ->
    BTreeMap.get (query_id q) (in_progress_queries st) = Some q \/
    exists sq, BTreeMap.get (query_id q) (queries st) = Some sq /\ sq_query sq = q;
  pend_sub : forall q s, (q, Some s) ∈ pt_need_fetch p ->
    exists sq f, BTreeMap.get (query_id q) (queries st) = Some sq /\
      overlay (state_modifications p) c (query_id q) = Some f /\ synced_at (identity st) (v_ts (current_version st)) s sq f;
  pend_once : forall q s q' o, (q, Some s) ∈ pt_need_fetch p -> (q', o) ∈ pt_need_fetch p -> query_id q' = query_id q ->
    (q', o) = (q, Some s) \/ is_Some (BTreeMap.get (query_id q) (in_progress_queries st));
}.

Lemma results_ok (api : @Api Identity Subscription Token) `{!ApiLaws api} p st c order rs u :
  PendingOk p st c -> order ⊆ pt_need_fetch p -> run_queries api p order = Ret (rs, u) ->
  Forall (result_ok (identity st) (v_ts (pt_new_version p)) st (state_modifications p) c) rs /\ results_exclusive st rs.
Proof.
  intros Hp Hord Hrun. split.
  - apply Forall_forall. intros [[id res] s] Hin.
    destruct (run_queries_elem _ _ _ _ _ _ _ _ Hrun Hin) as (q & o & Hqo%Hord & Hu).
    destruct (update_query_spec _ _ _ _ _ _ _ Hu) as [-> Hres]. rewrite <- (pend_identity _ _ _ Hp). destruct res as [r l j| |]; [|done|].
    + destruct Hres as (token & He & Hsub). destruct (execute_query_db _ _ _ _ _ _ _ He) as [Hdb Hw]. exists q. split_and!; [auto|done|].
      destruct (pend_fetch _ _ _ Hp _ _ Hqo) as [?|(sq & ? & ?)]; [by left|right; eauto].
    + destruct Hres as [-> Hv]. destruct (pend_sub _ _ _ Hp _ _ Hqo) as (sq & f & Hsq & Hf & (j & Hw & Hk)).
      exists sq, f. split_and!; [done..|]. exists j. rewrite (pend_identity _ _ _ Hp). destruct (extend_validity_db _ _ _ _ _ Hw Hv) as [Hw' Hrun'].
      split; [done|]. by apply (known_same_run _ _ _ _ (symmetry Hrun')).
  - intros id s res l j s' H1 H2.
    destruct (run_queries_elem _ _ _ _ _ _ _ _ Hrun H1) as (q1 & o1 & Hqo1%Hord & Hu1).
    destruct (run_queries_elem _ _ _ _ _ _ _ _ Hrun H2) as (q2 & o2 & Hqo2%Hord & Hu2).
    destruct (update_query_spec _ _ _ _ _ _ _ Hu1) as [-> [-> _]]. destruct (update_query_spec _ _ _ _ _ _ _ Hu2) as [Hid _].
    destruct (pend_once _ _ _ Hp _ _ _ _ Hqo1 Hqo2 (symmetry Hid)) as [Heq|?]; [|done]. congruence.
Qed.

(** ** The end of a transition *)

(** No transition under way: the client shows the result of every query at the
    version's timestamp. *)
Record IdleOk (st : @SyncState Identity Subscription) (c : BTreeMap.t Z FunctionResult) : Prop := {
  idle_ok : QueriesOk st;
  idle_domain : same_domain st [] c;
  idle_synced : forall id sq f, BTreeMap.get id (queries st) = Some sq -> BTreeMap.get id c = Some f ->
    exists s, subscription sq = Some s /\ synced_at (identity st) (v_ts (current_version st)) s sq f;
}.

Lemma apply_result_frame st M r st' M' :
  apply_result sha256 (st, M) r = Ret (st', M') ->
  identity st' = identity st /\ current_version st' = current_version st /\ pending_query_updates st' = pending_query_updates st /\
  pending_identity st' = pending_identity st /\ received_client_version st' = received_client_version st.
Proof.
  destruct r as [[id [res l j| |]] s]; cbn [apply_result fst snd]; intros H; [|done|].
  - destruct (complete_fetch sha256 st id res l j s) as [[st1 m]| |] eqn:Hc; try done. injection H as <- <-.
    unfold complete_fetch, start_synced in Hc. destruct (BTreeMap.get id (in_progress_queries st)); destruct_outcome; done.
  - unfold refill_subscription in H. destruct_outcome. done.
Qed.

Lemma apply_results_frame rs st M st' M' :
  foldM (apply_result sha256) (st, M) rs = Ret (st', M') ->
  identity st' = identity st /\ current_version st' = current_version st /\ pending_query_updates st' = pending_query_updates st /\
  pending_identity st' = pending_identity st /\ received_client_version st' = received_client_version st.
Proof.
  revert st M. induction rs as [|r rs IH]; intros st M H; cbn [foldM] in H; [by injection H as <- <-|].
  destruct (apply_result sha256 (st, M) r) as [[st1 M1]| |] eqn:Hr; try done.
  destruct (apply_result_frame _ _ _ _ _ Hr) as (<- & <- & <- & <- & <-). by apply (IH st1 M1).
Qed.

(** Filling the futures needs a subscription of every query without one. *)
Lemma filled_idle i ts st M c st' :
  QueriesSeen (synced_at i ts) st M c -> fill_invalidation_futures st = Ret st' -> BTreeMap.wf c ->
  let c' := fold_left apply_state_modification (map snd M) c in
  QueriesOk st' /\ same_domain st' [] c' /\ forall id sq f, BTreeMap.get id (queries st') = Some sq -> BTreeMap.get id c' = Some f ->
    exists s, subscription sq = Some s /\ synced_at i ts s sq f.
Proof.
  intros [Hok HM Hdom Hs] Hfill Hc c'. unfold fill_invalidation_futures in Hfill.
  destruct (fill_futures _ _ _) as [[[qs futures] next]| |] eqn:Hf; try done. injection Hfill as <-.
  destruct (BTreeMap.get_Forall2 refilled _ _ (fill_futures_entries _ _ _ _ _ _ Hf) (queries_wf _ Hok)) as [Hwf Hget].
  destruct (apply_modifications_get M c HM Hc) as [Hwf' Hc'].
  assert (forall id sq', BTreeMap.get id qs = Some sq' -> exists sq, BTreeMap.get id (queries st) = Some sq /\ same_entry sq sq' /\
    (invalidation_future sq = None -> is_Some (subscription sq))) as Hback.
  { intros id sq' Hsq'. specialize (Hget id). rewrite Hsq' in Hget. inversion Hget as [sq ? (? & ? & ?) Heq|]; subst. by exists sq. }
  split_and!; cbn [with_queries queries in_progress_queries].
  - split; cbn [with_queries queries in_progress_queries]; [done|apply Hok| |apply Hok].
    intros id sq' (sq & Hsq & (-> & _) & _)%Hback. by apply (queries_ids _ Hok).
  - intros id. unfold overlay at 1. cbn [BTreeMap.get with_queries queries]. rewrite Hc'. etrans; [|apply Hdom]. symmetry. apply (option_Forall2_is_Some _ _ _ (Hget id)).
  - intros id sq' f (sq & Hsq & (Hq & Hsub & Hh) & Hfut)%Hback Hf'. rewrite Hc' in Hf'.
    destruct (Hs _ _ _ Hsq Hf') as [Hnone Hsome]. destruct (Hfut Hnone) as [s Hs1]. rewrite Hs1 in Hsome.
    exists s. split; [congruence|]. by eapply synced_at_ext.
Qed.

Lemma finish_ok (api : @Api Identity Subscription Token) `{!ApiLaws api} p st c order t st' tr :
  collision_free -> PendingOk p st c -> BTreeMap.wf c -> order ⊆ pt_need_fetch p ->
  run_transition api p order = Ret t -> finish_update_queries sha256 st t = Ret (st', tr) ->
  start_version tr = current_version st /\ end_version tr = current_version st' /\
  let c' := fold_left apply_state_modification (modifications tr) c in BTreeMap.wf c' /\ IdleOk st' c'.
Proof.
  intros Hsha Hp Hc Hord Ht Hfin. unfold run_transition in Ht. destruct (run_queries api p order) as [[rs u]| |] eqn:Hrun; try done.
  injection Ht as <-. unfold finish_update_queries in Hfin. cbn [udf_results ts_modifications ts_current_version ts_new_version] in Hfin.
  destruct (foldM _ _ rs) as [[st1 M1]| |] eqn:Hfold; try done. cbn [obind] in Hfin.
  destruct (fill_invalidation_futures st1) as [st2| |] eqn:Hfill; try done. cbn [obind] in Hfin.
  unfold advance_version in Hfin. destruct (version_leb _ _); [|done]. cbn [ensure obind] in Hfin. injection Hfin as <- <-.
  destruct (results_ok api p st c order rs u Hp Hord Hrun) as [Hrs Hex].
  assert (QueriesSeen (synced_at (identity st) (v_ts (pt_new_version p))) st1 M1 c) as HS.
  { eapply apply_results_spec; [done| |exact Hrs|done|exact Hfold]. eapply seen_mono; [|apply Hp]. done. }
  destruct (filled_idle _ _ _ _ _ _ HS Hfill Hc) as (Hok & Hdom & Hsync).
  destruct (apply_results_frame _ _ _ _ _ Hfold) as (Hi & Hv & _).
  assert (identity st2 = identity st1) as Hi2.
  { unfold fill_invalidation_futures in Hfill. destruct (fill_futures _ _ _) as [[[??]?]| |]; try done. by injection Hfill as <-. }
  split_and!; cbn [start_version end_version modifications]; [apply (pend_version _ _ _ Hp)|done|].
  split; [by apply apply_modifications_get, Hc; apply (qs_keyed _ _ _ _ HS)|].
  split; [by destruct Hok|by destruct Hok|]. cbn. by rewrite Hi2, Hi.
Qed.

(** ** The start of a transition *)

(** The queries while the modifications are applied. *)
Record Holding (i : Identity) (ts : Timestamp) (st : @SyncState Identity Subscription) (M : BTreeMap.t Z StateModification)
    (c : BTreeMap.t Z FunctionResult) : Prop := {
  hold_ok : QueriesOk st;
  hold_keyed : keyed M;
  hold_domain : same_domain st M c;
  hold_synced : forall id sq f, BTreeMap.get id (queries st) = Some sq -> overlay M c id = Some f ->
    seen sq f /\ forall s, subscription sq = Some s -> synced_at i ts s sq f;
}.

Lemma holding_take i ts st M c i' ts' :
  Holding i ts st M c -> Holding i' ts' (take_subscriptions st).1 M c /\
  forall id sq, BTreeMap.get id (queries (take_subscriptions st).1) = Some sq -> subscription sq = None /\ invalidation_future sq = None.
Proof.
  intros [Hok HM Hdom Hs]. destruct (take_subscriptions_get st Hok) as (Hok' & _ & Hget).
  assert (forall id sq, BTreeMap.get id (queries (take_subscriptions st).1) = Some sq ->
    exists sq0, BTreeMap.get id (queries st) = Some sq0 /\ sq = take_subscription sq0) as Hback.
  { intros id sq Hsq. specialize (Hget id). rewrite Hsq in Hget. inversion Hget; subst; eauto. }
  split; [split; [done..| |]|].
  - intros id. etrans; [|apply Hdom]. symmetry. apply (option_Forall2_is_Some _ _ _ (Hget id)).
  - intros id sq f (sq0 & Hsq0 & ->)%Hback Hf. destruct (Hs _ _ _ Hsq0 Hf) as [Hseen _]. by split.
  - by intros id sq (sq0 & _ & ->)%Hback.
Qed.

Lemma holding_modify i ts m st M c st' M' :
  Holding i ts st M c -> apply_modification (st, M) m = Ret (st', M') ->
  Holding i ts st' M' c /\ identity st' = identity st /\ current_version st' = current_version st /\ pending_identity st' = pending_identity st.
Proof.
  intros [Hok HM Hdom Hs] Hm. destruct m as [q|id]; cbn [apply_modification fst snd] in Hm.
  - unfold insert_query in Hm. destruct_outcome. split; [|done]. split; [split|..]; cbn [with_queries queries in_progress_queries]; try done; try apply Hok.
    + by apply BTreeMap.wf_insert, Hok.
    + intros id q'. rewrite BTreeMap.get_insert_if by apply Hok. case_decide; [naive_solver|apply Hok].
  - destruct (remove_query st id) as [st1| |] eqn:Hr; try done. injection Hm as <- <-.
    assert (forall k, overlay (BTreeMap.insert id (QueryRemoved id) M) c k = if decide (k = id) then None else overlay M c k) as Ho.
    { intros k. by apply (overlay_insert M c (QueryRemoved id)), HM. }
    assert (keyed (BTreeMap.insert id (QueryRemoved id) M)) as HM' by by apply (keyed_insert M (QueryRemoved id)).
    assert (QueriesOk st1 /\ (forall k, BTreeMap.get k (queries st1) = if decide (k = id) then None else BTreeMap.get k (queries st)) /\
      identity st1 = identity st /\ current_version st1 = current_version st /\ pending_identity st1 = pending_identity st) as (Hok1 & Hget & Hfr).
    { by apply remove_query_spec. }
    split; [|done]. split; [done..| |].
    + intros k. rewrite Hget, Ho. case_decide; [by split; intros []|apply Hdom].
    + intros k sq f. rewrite Hget, Ho. case_decide; [done|apply Hs].
Qed.

Lemma holding_modifies i ts mods st M c st' M' :
  Holding i ts st M c -> foldM apply_modification (st, M) mods = Ret (st', M') ->
  Holding i ts st' M' c /\ identity st' = identity st /\ current_version st' = current_version st /\ pending_identity st' = pending_identity st.
Proof.
  revert st M. induction mods as [|m mods IH]; intros st M HH H; cbn [foldM] in H; [by injection H as <- <-|].
  destruct (apply_modification (st, M) m) as [[st1 M1]| |] eqn:Hm; try done.
  destruct (holding_modify _ _ _ _ _ _ _ _ HH Hm) as (HH1 & <- & <- & <-). by apply (IH st1 M1).
Qed.

Lemma pending_intro st M c i cur new :
  i = identity st -> Holding (identity st) (v_ts cur) st M c -> current_version st = cur ->
  PendingOk (MkPending (take_remaining (need_fetch (take_subscriptions st).1) (take_subscriptions st).2) i M cur new) (take_subscriptions st).1 c.
Proof.
  intros -> HH Hcur. pose proof (hold_ok _ _ _ _ _ HH) as Hok.
  destruct (holding_take _ _ _ _ _ (identity st) (v_ts cur) HH) as [HH' Hnone]. destruct (take_subscriptions_get st Hok) as (Hok' & _ & Hget).
  assert (forall id sq, BTreeMap.get id (queries st) = Some sq -> BTreeMap.get id (queries (take_subscriptions st).1) = Some (take_subscription sq)) as Hfwd.
  { intros id sq Hsq. specialize (Hget id). rewrite Hsq in Hget. by inversion Hget; subst. }
  split; cbn [pt_identity pt_current_version state_modifications pt_need_fetch]; [done|done|..].
  - split; [done|apply HH|apply HH'|]. intros id sq f Hsq Hf. destruct (Hnone _ _ Hsq) as [-> ?]. split; [done|]. by apply (hold_synced _ _ _ _ _ HH' id).
  - intros q o Hqo. assert (q ∈ need_fetch (take_subscriptions st).1) as Hin.
    { rewrite <- (take_remaining_fst _ (take_subscriptions st).2). apply list_elem_of_fmap. by exists (q, o). }
    destruct (need_fetch_elem _ _ Hok Hin) as [?|(sq & Hsq & <-)]; [by left|right; eauto].
  - intros q s (sq & Hsq & Hs)%take_remaining_sub%taken_get; [|apply Hok|apply taken_wf, Hok].
    destruct (proj1 (hold_domain _ _ _ _ _ HH (query_id q))) as [f Hf]; [eauto|].
    exists (take_subscription sq), f. split_and!; [auto|done|]. subst cur. apply (synced_at_ext _ _ _ sq); [done..|].
    by apply (hold_synced _ _ _ _ _ HH (query_id q) sq f).
  - intros q s q' o Hin Hin' Hid. cbn [take_subscriptions fst with_queries in_progress_queries].
    destruct (BTreeMap.get (query_id q) (in_progress_queries st)) eqn:Hp; [by right; eauto|left].
    exact (need_fetch_once st q q' _ _ _ Hok Hp Hin Hin' Hid).
Qed.

(** [begin_update_queries] once the identity is in place. *)
Lemma begin_rest st c mods now new st' p :
  Holding (identity st) (v_ts (current_version st)) st [] c -> pending_identity st = None ->
  (let? i := current_identity is_expired st now in
   let? (self, M) := foldM apply_modification (st, []) mods in
   let '(self, remaining) := take_subscriptions self in
   Ret (self, MkPending (take_remaining (need_fetch self) remaining) i M (current_version st) new)) = Ret (E := sync_error) (st', p) ->
  PendingOk p st' c /\ current_version st' = current_version st /\ pt_new_version p = new.
Proof.
  intros HH Hnone H. unfold current_identity in H. rewrite Hnone in H. cbn [default] in H. destruct (is_expired _ _); [done|]. cbn [negb ensure obind] in H.
  destruct (foldM apply_modification (st, []) mods) as [[st1 M1]| |] eqn:Hf; try done. cbn [obind] in H.
  destruct (holding_modifies _ _ _ _ _ _ _ _ HH Hf) as (HH1 & Hi & Hv & _).
  injection H as <- <-. split_and!; [|done..]. rewrite <- Hi in HH1. by apply pending_intro.
Qed.

Lemma begin_ok st c new_ts now st' p :
  IdleOk st c -> begin_update_queries is_expired st new_ts now = Ret (st', p) ->
  PendingOk p st' c /\ current_version st' = current_version st /\ v_ts (pt_new_version p) = new_ts.
Proof.
  intros [Hok Hdom Hsync] H. set (st0 := (take_modifications st).1).
  assert (Holding (identity st0) (v_ts (current_version st0)) st0 [] c) as HH.
  { split; [by destruct Hok|by split; [|set_solver]|done|]. intros id sq f Hsq Hf. destruct (Hsync id sq f Hsq Hf) as (s & Hs & Hat).
    split; [by eapply synced_seen|]. intros s' Hs'. cbn in Hs'. by replace s' with s by congruence. }
  unfold begin_update_queries in H. change (take_modifications st) with (st0, (take_modifications st).2) in H. cbn [take_modifications snd] in H.
  destruct (pending_identity st) as [i'|].
  - set (st1 := insert_identity (take_subscriptions st0).1 i') in H.
    destruct (holding_take _ _ _ _ _ i' (v_ts (current_version st0)) HH) as [[Hok1 HM1 Hdom1 Hs1] _].
    assert (Holding (identity st1) (v_ts (current_version st1)) st1 [] c) as HH1 by (split; [by destruct Hok1|done..]).
    by destruct (begin_rest st1 c (pending_query_updates st) now _ st' p HH1 eq_refl H) as (? & ? & ->).
  - by destruct (begin_rest st0 c (pending_query_updates st) now _ st' p HH eq_refl H) as (? & ? & ->).
Qed.

(** ** Sessions *)

(** The turns of the worker's loop: the queries of a transition complete in any
    order. *)
Definition legal (w : @Worker Identity Subscription) (e : @event Identity Subscription Token) : Prop :=
  match e with
  | TransitionReady api order => ApiLaws api /\ forall p, transition_future w = Some p -> order ≡ₚ pt_need_fetch p
  | _ => True
  end.

Inductive session : @Worker Identity Subscription -> Prop :=
| session_new unknown : session (worker_new unknown)
| session_step w e w' : session w -> legal w e -> handle sha256 is_expired w e = Ret w' -> session w'.

(** The invariant of a session, with the results [c] of the client. *)
Record WorkerOk (w : @Worker Identity Subscription) (r : RemoteQuerySet) : Prop := {
  worker_sent : foldM transition remote_new (sent w) = Ret r;
  worker_version : version r = current_version (state w);
  worker_results_wf : BTreeMap.wf (remote_query_set r);
  worker_queries : match transition_future w with
    | Some p => PendingOk p (state w) (remote_query_set r)
    | None => IdleOk (state w) (remote_query_set r)
    end;
}.

(** Steps that change the queries in their futures at most. *)
Definition quieter (sq sq' : @SyncedQuery Subscription) : Prop :=
  same_entry sq sq' /\ (invalidation_future sq = None -> invalidation_future sq' = None).

Record Framed (st st' : @SyncState Identity Subscription) : Prop := {
  framed_identity : identity st' = identity st;
  framed_version : current_version st' = current_version st;
  framed_in_progress : in_progress_queries st' = in_progress_queries st;
  framed_wf : BTreeMap.wf (queries st) -> BTreeMap.wf (queries st');
  framed_queries : forall id, BTreeMap.wf (queries st) -> option_Forall2 quieter (BTreeMap.get id (queries st)) (BTreeMap.get id (queries st'));
}.

Lemma quieter_refl sq : quieter sq sq.
Proof. done. Qed.

Lemma framed_same st st' :
  identity st' = identity st -> current_version st' = current_version st -> in_progress_queries st' = in_progress_queries st -> queries st' = queries st ->
  Framed st st'.
Proof.
  intros Hi Hv Hp Hq. split; [done..|by rewrite Hq|]. intros id _. rewrite Hq.
  destruct (BTreeMap.get id (queries st)) as [sq|]; constructor. apply quieter_refl.
Qed.

Section framed.
Context (st st' : @SyncState Identity Subscription) (HF : Framed st st') (Hok : QueriesOk st).

Lemma framed_back id sq' : BTreeMap.get id (queries st') = Some sq' -> exists sq, BTreeMap.get id (queries st) = Some sq /\ quieter sq sq'.
Proof. intros H. pose proof (framed_queries _ _ HF id (queries_wf _ Hok)) as Hq. rewrite H in Hq. inversion Hq; subst; eauto. Qed.

Lemma framed_forward id sq : BTreeMap.get id (queries st) = Some sq -> exists sq', BTreeMap.get id (queries st') = Some sq' /\ quieter sq sq'.
Proof. intros H. pose proof (framed_queries _ _ HF id (queries_wf _ Hok)) as Hq. rewrite H in Hq. inversion Hq; subst; eauto. Qed.

Lemma framed_ok : QueriesOk st'.
Proof.
  split; [apply (framed_wf _ _ HF), Hok|rewrite (framed_in_progress _ _ HF); apply Hok| |rewrite (framed_in_progress _ _ HF); apply Hok].
  intros id sq' (sq & Hsq & (-> & _) & _)%framed_back. by apply (queries_ids _ Hok).
Qed.

Lemma framed_domain M c : same_domain st M c -> same_domain st' M c.
Proof.
  intros Hdom id. etrans; [|apply Hdom]. symmetry. apply (option_Forall2_is_Some quieter), (framed_queries _ _ HF), Hok.
Qed.
End framed.

Lemma idle_framed st st' c : Framed st st' -> IdleOk st c -> IdleOk st' c.
Proof.
  intros HF [Hok Hdom Hs]. split; [by eapply framed_ok|by eapply framed_domain|].
  intros id sq' f (sq & Hsq & (Hq & Hsub & Hh) & _)%(framed_back _ _ HF Hok) Hf. destruct (Hs _ _ _ Hsq Hf) as (s & Hs1 & Hat).
  rewrite (framed_identity _ _ HF), (framed_version _ _ HF). exists s. split; [congruence|]. by eapply synced_at_ext.
Qed.

Lemma pending_framed st st' p c : Framed st st' -> PendingOk p st c -> PendingOk p st' c.
Proof.
  intros HF [Hi Hv [Hok HM Hdom Hs] Hfetch Hsub Honce].
  split; rewrite ?(framed_identity _ _ HF), ?(framed_version _ _ HF), ?(framed_in_progress _ _ HF); [done..| | | |done].
  - split; [by eapply framed_ok|done|by eapply framed_domain|].
    intros id sq' f (sq & Hsq & (Hq & Hsb & Hh) & Hfut)%(framed_back _ _ HF Hok) Hf. destruct (Hs _ _ _ Hsq Hf) as [Hnone H].
    split; [auto|]. rewrite Hsb. destruct (subscription sq); [done|]. destruct H as (x & Hx & Hk). exists x. by rewrite Hh.
  - intros q o Hin. destruct (Hfetch q o Hin) as [?|(sq & Hsq & Heq)]; [by left|right].
    destruct (framed_forward _ _ HF Hok _ _ Hsq) as (sq' & Hsq' & (Hq & _) & _). exists sq'. split; [done|congruence].
  - intros q s Hin. destruct (Hsub q s Hin) as (sq & f & Hsq & Hf & Hat).
    destruct (framed_forward _ _ HF Hok _ _ Hsq) as (sq' & Hsq' & (Hq & _ & Hh) & _). exists sq', f. split_and!; [done..|]. by eapply synced_at_ext.
Qed.

Lemma next_invalidated_framed st h st' o : next_invalidated_query st h = Some (st', o) -> Framed st st'.
Proof.
  unfold next_invalidated_query. destruct (refill_needed st); [done|]. destruct (find _ _) as [[h' id]|]; [|done].
  case_bool_decide; intros [= <- <-]; [by apply framed_same|]. split; cbn [with_queries identity current_version in_progress_queries queries]; [done..| |].
  - intros Hwf. destruct (BTreeMap.get id (queries st)); [by apply BTreeMap.wf_insert|done].
  - intros k Hwf. destruct (BTreeMap.get id (queries st)) as [sq|] eqn:Hsq.
    + rewrite BTreeMap.get_insert_if by done. case_decide; [subst k; rewrite Hsq; by constructor|].
      destruct (BTreeMap.get k (queries st)); constructor. apply quieter_refl.
    + destruct (BTreeMap.get k (queries st)); constructor. apply quieter_refl.
Qed.

Lemma worker_framed w st' f' u' r' r :
  WorkerOk w r -> f' = transition_future w -> Framed (state w) st' -> WorkerOk (MkWorker st' f' u' r' (sent w)) r.
Proof.
  intros [Hs Hv Hwf Hq] -> HF. split; cbn [state transition_future sent]; [done|by rewrite (framed_version _ _ HF)|done|].
  destruct (transition_future w); [by eapply pending_framed|by eapply idle_framed].
Qed.

Lemma session_ok w : collision_free -> session w -> exists r, WorkerOk w r.
Proof.
  intros Hsha. induction 1 as [unknown|w e w' _ [r Hr] Hlegal Hstep].
  { exists remote_new. split; [done..|]. cbn. split; [split; done|by intros id; split; intros []|done]. }
  unfold handle in Hstep. destruct (match e with BeginTransition _ _ => Ret tt | _ => validate (state w) end); try done. cbn [obind] in Hstep.
  destruct e as [base new mods|i base|h| | |new_ts now|api order].
  - unfold modify_query_set in Hstep. destruct_outcome. exists r. apply worker_framed; [done..|]. by apply framed_same.
  - unfold modify_identity in Hstep. destruct_outcome. exists r. apply worker_framed; [done..|]. by apply framed_same.
  - destruct (next_invalidated_query (state w) h) as [[st' [id|]]|] eqn:Hn; injection Hstep as <-; exists r; [| |done];
      (apply worker_framed; [done..|by eapply next_invalidated_framed]).
  - injection Hstep as <-. exists r. apply worker_framed; [done..|]. by apply framed_same.
  - destruct (retry_scheduled w); injection Hstep as <-; exists r; [|done]. apply worker_framed; [done..|]. by apply framed_same.
  - destruct (transition_future w) as [p|] eqn:Hf; [rewrite andb_false_r in Hstep; injection Hstep as <-; by exists r|].
    destruct (update_scheduled w); [|injection Hstep as <-; by exists r]. cbn [is_Some_b negb andb] in Hstep.
    destruct (begin_update_queries is_expired (state w) new_ts now) as [[st' p]| |] eqn:Hb; try done. injection Hstep as <-.
    destruct Hr as [Hs Hv Hwf Hq]. rewrite Hf in Hq. destruct (begin_ok _ _ _ _ _ _ Hq Hb) as (Hp & Hcur & _). exists r. split; cbn; [done|congruence|done..].
  - destruct (transition_future w) as [p|] eqn:Hf; [|injection Hstep as <-; by exists r]. destruct Hlegal as [Hlaws Hord].
    destruct (run_transition api p order) as [t| |] eqn:Ht; try done. cbn [obind] in Hstep.
    destruct (finish_update_queries sha256 (state w) t) as [[st' tr]| |] eqn:Hfin; try done. injection Hstep as <-.
    destruct Hr as [Hs Hv Hwf Hq]. rewrite Hf in Hq. specialize (Hord p Hf).
    destruct (finish_ok api p (state w) _ order t st' tr Hsha Hq Hwf) as (H1 & H2 & Hwf' & Hidle); [by rewrite Hord|done..|].
    exists (MkRemote (end_version tr) (fold_left apply_state_modification (modifications tr) (remote_query_set r))).
    split; cbn; [|done..]. rewrite foldM_app, Hs. cbn [obind foldM]. unfold transition. rewrite bool_decide_true by congruence. done.
Qed.

(** What the client shows agrees with a run: the same value, or an error with the
    same hashed bytes. *)
Definition agrees (f : FunctionResult) (x : (list Z + RedactedJsError) * list (list Z)) : Prop :=
  match x.1 with
  | inl v => f = FValue v
  | inr e => exists e' l', f = shown (inr e') /\ deduplication_bytes e' l' = deduplication_bytes e x.2
  end.

Lemma known_agrees i q ts h f : utf8_values -> known (db i q ts) h f -> agrees f (db i q ts).
Proof.
  intros Hutf [_ ([[v|e] l] & (i' & q' & ts' & Hrun) & Hkey & ->)]; unfold agrees; destruct (db i q ts) as [[w|e'] l'] eqn:Hdb; try done.
  - injection Hkey as Hb. cbn. f_equal. destruct (db i' q' ts') as [[v'|?] l2] eqn:Hdb'; [|by destruct Hrun]. destruct Hrun as [_ Hv]. cbn in Hv. subst v'.
    eapply udf_result_bytes_inj; [by eapply Hutf|by eapply Hutf|done].
  - injection Hkey as Hb. cbn. eauto.
Qed.

Lemma session_shows w :
  collision_free -> utf8_values -> session w ->
  exists r, foldM transition remote_new (sent w) = Ret r /\ version r = current_version (state w) /\
  (transition_future w = None -> forall id,
    match BTreeMap.get id (queries (state w)) with
    | None => BTreeMap.get id (remote_query_set r) = None
    | Some sq => exists j f, BTreeMap.get id (remote_query_set r) = Some f /\
        agrees f (db (identity (state w)) (set_journal (sq_query sq) j) (v_ts (version r)))
    end).
Proof.
  intros Hsha Hutf Hses. destruct (session_ok w Hsha Hses) as [r [Hs Hv Hwf Hq]]. exists r. split_and!; [done..|].
  intros Hnone id. rewrite Hnone in Hq. destruct Hq as [Hok Hdom Hsync]. specialize (Hdom id). unfold overlay in Hdom. cbn in Hdom.
  destruct (BTreeMap.get id (queries (state w))) as [sq|] eqn:Hsq.
  - destruct (proj1 Hdom) as [f Hf]; [eauto|]. destruct (Hsync _ _ _ Hsq Hf) as (s & _ & j & _ & Hk).
    exists j, f. rewrite Hv. split; [done|]. by eapply known_agrees.
  - destruct (BTreeMap.get id (remote_query_set r)); [|done]. destruct (proj2 Hdom); [eauto|done].
Qed.

(** C5: The transitions that a session sends apply one after the other from the
    initial version, and end at the session's current version; when no transition
    is under way, the client holds a result for exactly the synced queries, and
    each is the result of the query for the session's identity at the version's
    timestamp (for an error, up to the bytes that are hashed), although results
    that did not change were not sent and unchanged subscriptions were not rerun. *)
Theorem transition_consistent w :
  collision_free -> utf8_values -> session w ->
  exists r, foldM transition remote_new (sent w) = Ret r /\ version r = current_version (state w) /\
  (transition_future w = None -> forall id,
    match BTreeMap.get id (queries (state w)) with
    | None => BTreeMap.get id (remote_query_set r) = None
    | Some sq => exists j f, BTreeMap.get id (remote_query_set r) = Some f /\
        agrees f (db (identity (state w)) (set_journal (sq_query sq) j) (v_ts (version r)))
    end).
Proof. apply session_shows. Qed.
End protocol.

(** ** Example: two queries whose result changes at timestamp 10 *)

Module SyncExample.

Definition example_db (i : Z) (q : Query) (ts : Timestamp) : (list Z + RedactedJsError) * list (list Z) :=
  (inl [if ts <? 10 then 48 else 49], []).

(** A subscription is the timestamp at which it was taken. *)
Definition example_watches (s i : Z) (q : Query) (ts : Timestamp) : Prop := (s <? 10) = (ts <? 10).

Definition example_api : @Api Z Z Z :=
  MkApi (fun s ts => Ret (Bool.eqb (s <? 10) (ts <? 10)))
    (fun i q ts => Ret ((example_db i q ts).1, (example_db i q ts).2, None, ts)) (fun token => Ret token).

Definition never_expires (i now : Z) : bool := false.

#[global] Instance example_laws : ApiLaws example_db example_watches example_api.
Proof.
  split.
  - intros i q ts r l j token [= <- <- <- <-]. split; [done|]. by intros s [= <-].
  - intros s i q ts ts' Hw [= Heq%eqb_prop]. unfold example_watches, example_db in *. by rewrite <- Heq, Hw.
Qed.

Lemma example_collision_free : collision_free id example_db.
Proof. by intros i q ts i' q' ts'. Qed.

Lemma example_utf8 : utf8_values example_db.
Proof. intros i q ts v l [= <- <-]. destruct (ts <? 10); by intros ?%list_elem_of_singleton. Qed.

Definition query1 : Query := MkQuery 1 [97] [] None None.
Definition query2 : Query := MkQuery 2 [98] [] None None.

(** The queries of a transition in the order in which they were started. *)
Definition in_order (w : @Worker Z Z) : @event Z Z Z :=
  TransitionReady example_api (match transition_future w with Some p => pt_need_fetch p | None => [] end).

Lemma in_order_legal w : legal example_db example_watches w (in_order w).
Proof. split; [apply example_laws|]. by intros p ->. Qed.

(** The turns of a session, the end of a transition being [None]. *)
Fixpoint run (w : @Worker Z Z) (es : list (option (@event Z Z Z))) : outcome sync_error (@Worker Z Z) :=
  match es with
  | [] => Ret w
  | e :: es => let? w' := handle id never_expires w (default (in_order w) e) in run w' es
  end.

Definition simple (e : option (@event Z Z Z)) : Prop := match e with Some (TransitionReady _ _) => False | _ => True end.

Lemma run_session w es w' :
  session (Token := Z) id never_expires example_db example_watches w -> Forall simple es -> run w es = Ret w' ->
  session (Token := Z) id never_expires example_db example_watches w'.
Proof.
  revert w. induction es as [|e es IH]; intros w Hw Hes H; cbn [run] in H; [by injection H as <-|]. apply Forall_cons in Hes as [He Hes].
  destruct (handle id never_expires w (default (in_order w) e)) as [w1| |] eqn:H1; try done. apply (IH w1); [|done..].
  eapply session_step; [done| |exact H1]. destruct e as [e|]; [by destruct e|apply in_order_legal].
Qed.

(** The queries are added and sent; an invalidation reruns both, and the second is
    removed. *)
Definition turns : list (option (@event Z Z Z)) :=
  [Some (ModifyQuerySet 0 1 [AddQuery query1; AddQuery query2]); Some (BeginTransition 5 0); None;
   Some OperationCompleted; Some (BeginTransition 7 0); None;
   Some (ModifyQuerySet 1 2 [RemoveQuery 2]); Some (BeginTransition 20 0); None].

Definition after (n : nat) : @Worker Z Z := match run (worker_new 0) (take n turns) with Ret w => w | _ => worker_new 0 end.

Lemma after_session n : session (Token := Z) id never_expires example_db example_watches (after n).
Proof.
  unfold after. destruct (run (worker_new 0) (take n turns)) as [w| |] eqn:H; [|apply session_new..].
  eapply run_session; [apply session_new| |exact H]. apply Forall_take. by repeat constructor.
Qed.
End SyncExample.

Lemma transition_consistent_witness :
  map (fun t => (v_ts (end_version t), modifications t)) (sent (SyncExample.after 9)) =
    [(5, [QueryUpdated 1 [48] [] None; QueryUpdated 2 [48] [] None]); (7, []); (20, [QueryUpdated 1 [49] [] None; QueryRemoved 2])] /\
  exists r, foldM transition remote_new (sent (SyncExample.after 9)) = Ret r /\ version r = current_version (state (SyncExample.after 9)) /\
  (transition_future (SyncExample.after 9) = None -> forall id,
    match BTreeMap.get id (queries (state (SyncExample.after 9))) with
    | None => BTreeMap.get id (remote_query_set r) = None
    | Some sq => exists j f, BTreeMap.get id (remote_query_set r) = Some f /\
        agrees f (SyncExample.example_db (identity (state (SyncExample.after 9))) (set_journal (sq_query sq) j) (v_ts (version r)))
    end).
Proof.
  split; [vm_compute; reflexivity|].
  exact (transition_consistent id SyncExample.never_expires SyncExample.example_db SyncExample.example_watches (SyncExample.after 9)
    SyncExample.example_collision_free SyncExample.example_utf8 (SyncExample.after_session 9)).
Defined.
