(* ===== verification/SyncProgress.v ===== *)
(** * SyncProgress: a sync session with an orderly client does not fail
      (src/crates/sync/src/worker.rs, src/crates/sync/src/state.rs)

    The queries that a client has asked for, as a set that its modifications
    change, and the conditions under which no turn of the worker's loop returns
    an error. *)

From stdpp Require Import gmap.
From S2P Require Import Prelude Ord BTreeMap Timestamp Sync SyncClient SyncProtocol.

Local Open Scope Z_scope.

(** ** The query set *)

(** A query set changes by adding a new query or removing one of it. *)
Definition track_mod (S : gset Z) (m : QuerySetModification) : option (gset Z) :=
  match m with
  | AddQuery q => if decide (query_id q ∈ S) then None else Some ({[query_id q]} ∪ S)
  | RemoveQuery id => if decide (id ∈ S) then Some (S ∖ {[id]}) else None
  end.

Fixpoint track (mods : list QuerySetModification) (S : gset Z) : option (gset Z) :=
  match mods with
  | [] => Some S
  | m :: mods => S' ← track_mod S m; track mods S'
  end.

Lemma track_app mods mods' S : track (mods ++ mods') S = (S' ← track mods S; track mods' S').
Proof. revert S. induction mods as [|m mods IH]; intros S; simpl; [done|]. destruct (track_mod S m); simpl; auto. Qed.

Section progress.
Context {Identity Subscription Token : Type}.
Context (sha256 : list Z -> list Z) (is_expired : Identity -> Z -> bool).

Implicit Types (s : Subscription) (sq : @SyncedQuery Subscription) (q : Query) (st : @SyncState Identity Subscription).

Definition ids (st : @SyncState Identity Subscription) : gset Z := list_to_set ((queries st).*1 ++ (in_progress_queries st).*1).

(** The query set once the received modifications are applied. *)
Definition asked (st : @SyncState Identity Subscription) : option (gset Z) := track (pending_query_updates st) (ids st).

Lemma get_keys {V} (m : BTreeMap.t Z V) id : BTreeMap.wf m -> is_Some (BTreeMap.get id m) <-> id ∈ m.*1.
Proof.
  intros Hwf. rewrite list_elem_of_fmap. split.
  - intros [v Hv%BTreeMap.elem_of_get]; [|done]. by exists (id, v).
  - intros ([k v] & -> & Hv%BTreeMap.elem_of_get); [|done]. eauto.
Qed.

Lemma insert_keys {V} (m : BTreeMap.t Z V) id v : BTreeMap.wf m -> is_Some (BTreeMap.get id m) -> (BTreeMap.insert id v m).*1 = m.*1.
Proof.
  intros Hwf Hid. induction m as [|[k w] m IH]; [by destruct Hid|]. destruct Hwf as [Hlt Hwf].
  apply get_keys in Hid; [|done]. cbn [BTreeMap.insert]. destruct (Z.compare_spec id k) as [->|Hc|Hc]; unfold cmp, Z_Ord.
  - by rewrite Z.compare_refl.
  - exfalso. apply elem_of_cons in Hid as [->|([k' w'] & -> & Hin)%list_elem_of_fmap]; [cbn in Hc; lia|].
    specialize (Hlt _ Hin). cbn in Hlt, Hc. change (k < k') in Hlt. lia.
  - rewrite (proj2 (Z.compare_gt_iff _ _) Hc). cbn. f_equal. apply IH; [done|]. apply get_keys; [done|].
    apply elem_of_cons in Hid as [->|?]; [cbn in Hc; lia|done].
Qed.

Lemma elem_of_ids st id :
  QueriesOk st -> id ∈ ids st <-> is_Some (BTreeMap.get id (queries st)) \/ is_Some (BTreeMap.get id (in_progress_queries st)).
Proof. intros Hok. unfold ids. rewrite elem_of_list_to_set, elem_of_app, !get_keys by apply Hok. done. Qed.

(** ** The invariant *)

Record Settled (st : @SyncState Identity Subscription) : Prop := {
  set_ok : QueriesOk st;
  set_disjoint : forall id, is_Some (BTreeMap.get id (queries st)) -> BTreeMap.get id (in_progress_queries st) = None;
  set_hash : forall id sq, BTreeMap.get id (queries st) = Some sq -> is_Some (result_hash sq);
}.

(** The fields that the operations on queries leave alone. *)
Definition frame (st : @SyncState Identity Subscription) :=
  (identity st, pending_identity st, current_version st, received_client_version st, pending_query_updates st).

(** ** The start of a transition *)

Lemma settled_add st q :
  Settled st -> query_id q ∉ ids st ->
  exists st', insert_query st q = Ret st' /\ Settled st' /\ ids st' = {[query_id q]} ∪ ids st /\ queries st' = queries st /\ frame st' = frame st.
Proof.
  intros [Hok Hdis Hh] Hq. rewrite elem_of_ids in Hq by done. unfold insert_query.
  destruct (BTreeMap.get (query_id q) (in_progress_queries st)) eqn:Hp; [naive_solver|]. cbn [is_Some_b negb ensure obind].
  eexists. split; [done|]. set (st' := with_queries _ _ _ _ _ _ _).
  assert (forall id, BTreeMap.get id (in_progress_queries st') = if decide (id = query_id q) then Some q else BTreeMap.get id (in_progress_queries st)) as Hget.
  { intros id. cbn. by apply BTreeMap.get_insert_if, Hok. }
  assert (QueriesOk st') as Hok'.
  { split; [apply Hok|by apply BTreeMap.wf_insert, Hok|apply Hok|]. intros id q'. rewrite Hget. case_decide; [naive_solver|apply Hok]. }
  split_and!; [split; [done| |done]| |done..].
  - intros id Hid. rewrite Hget. case_decide; [subst; naive_solver|by apply Hdis].
  - apply set_eq. intros id. rewrite elem_of_union, elem_of_singleton, !elem_of_ids, Hget by done. cbn. case_decide; naive_solver.
Qed.

Lemma settled_remove st id :
  Settled st -> id ∈ ids st ->
  exists st', remove_query st id = Ret st' /\ Settled st' /\ ids st' = ids st ∖ {[id]} /\
    (forall k sq, BTreeMap.get k (queries st') = Some sq -> BTreeMap.get k (queries st) = Some sq) /\
    frame st' = frame st.
Proof.
  intros [Hok Hdis Hh] Hid. rewrite elem_of_ids in Hid by done. destruct (remove_query st id) as [st'| |] eqn:Hr.
  2, 3: unfold remove_query in Hr; destruct (BTreeMap.get id (queries st)); [done|]; destruct (BTreeMap.get id (in_progress_queries st)); [done|]; by destruct Hid as [[]|[]].
  destruct (remove_query_spec _ _ _ Hok Hr) as (Hok' & Hget & Hi & Hv & Hp). exists st'.
  assert (forall k, BTreeMap.get k (in_progress_queries st') = if decide (k = id) then None else BTreeMap.get k (in_progress_queries st)) as Hgetp.
  { intros k. unfold remove_query in Hr. destruct (BTreeMap.get id (queries st)) eqn:Hq; [|destruct (BTreeMap.get id (in_progress_queries st)); [|done]]; injection Hr as <-; cbn.
    - case_decide; [|done]. subst k. apply Hdis. eauto.
    - case_decide; [subst; apply BTreeMap.get_remove_eq, Hok|]. apply BTreeMap.get_remove_ne; [apply Hok|done]. }
  split_and!; [done|split; [done| |]| | |].
  - intros k. rewrite Hget, Hgetp. case_decide; [done|apply Hdis].
  - intros k sq. rewrite Hget. case_decide; [done|apply Hh].
  - apply set_eq. intros k. rewrite elem_of_difference, elem_of_singleton, !elem_of_ids, Hget, Hgetp by done. case_decide; naive_solver.
  - intros k sq. rewrite Hget. by case_decide.
  - unfold remove_query in Hr. repeat case_match; naive_solver.
Qed.

Lemma settled_modify mods st M S :
  Settled st -> track mods (ids st) = Some S ->
  exists st' M', foldM apply_modification (st, M) mods = Ret (st', M') /\ Settled st' /\ ids st' = S /\ frame st' = frame st.
Proof.
  revert st M. induction mods as [|m mods IH]; intros st M Hset Ht; cbn [foldM track] in *; [injection Ht as <-; by exists st, M|].
  destruct (track_mod (ids st) m) as [S1|] eqn:Hm; [|done]. cbn in Ht. unfold track_mod in Hm.
  assert (exists st1 M1, apply_modification (st, M) m = Ret (st1, M1) /\ Settled st1 /\ ids st1 = S1 /\ frame st1 = frame st) as (st1 & M1 & -> & Hset1 & <- & <-).
  { destruct m as [q|id]; case_decide as Hin; try done; injection Hm as <-; cbn [apply_modification fst snd].
    - destruct (settled_add _ _ Hset Hin) as (st1 & -> & ? & ? & _ & ?). by exists st1, M.
    - destruct (settled_remove _ _ Hset Hin) as (st1 & -> & ? & ? & _ & ?). by eexists st1, _. }
  by apply IH.
Qed.

Lemma ids_same st st' : (queries st').*1 = (queries st).*1 -> in_progress_queries st' = in_progress_queries st -> ids st' = ids st.
Proof. unfold ids. by intros -> ->. Qed.

Lemma taken_keys (m : BTreeMap.t Z (@SyncedQuery Subscription)) : (map (fun e : Z * SyncedQuery => (e.1, take_subscription e.2)) m).*1 = m.*1.
Proof. induction m as [|e m IH]; [done|]. cbn. f_equal. exact IH. Qed.

Lemma settled_take st :
  Settled st -> let st' := (take_subscriptions st).1 in
  Settled st' /\ ids st' = ids st /\ frame st' = frame st /\
  (forall id sq, BTreeMap.get id (queries st') = Some sq -> subscription sq = None /\ invalidation_future sq = None) /\
  (forall id, is_Some (BTreeMap.get id (queries st')) -> refill_needed st' = true) /\
  forall id, is_Some (BTreeMap.get id (queries st)) -> is_Some (BTreeMap.get id (queries st')).
Proof.
  intros [Hok Hdis Hh] st'. destruct (take_subscriptions_get st Hok) as (Hok' & Hp & Hget). fold st' in Hok', Hp, Hget.
  assert (forall id sq, BTreeMap.get id (queries st') = Some sq -> exists sq0, BTreeMap.get id (queries st) = Some sq0 /\ sq = take_subscription sq0) as Hback.
  { intros id sq Hsq. specialize (Hget id). rewrite Hsq in Hget. inversion Hget; subst; eauto. }
  split_and!; [split; [done| |]| |done| | |].
  - intros id [sq (sq0 & Hsq0 & _)%Hback]. rewrite Hp. apply Hdis. eauto.
  - intros id sq (sq0 & Hsq0 & ->)%Hback. by apply (Hh id sq0).
  - apply ids_same; [apply taken_keys|done].
  - by intros id sq (sq0 & _ & ->)%Hback.
  - intros id [sq (sq0 & Hsq0 & _)%Hback]. cbn. by destruct (queries st).
  - intros id. apply (option_Forall2_is_Some _ _ _ (Hget id)).
Qed.

(** A transition under way. *)
Record Fetching (p : @PendingTransition Identity Subscription) (st : @SyncState Identity Subscription) : Prop := {
  fet_need : (pt_need_fetch p).*1 = need_fetch st;
  fet_sub : forall q s, (q, Some s) ∈ pt_need_fetch p -> is_Some (BTreeMap.get (query_id q) (queries st));
  fet_none : forall id sq, BTreeMap.get id (queries st) = Some sq -> subscription sq = None /\ invalidation_future sq = None;
  fet_refill : forall id, is_Some (BTreeMap.get id (queries st)) -> refill_needed st = true;
  fet_version : version_leb (current_version st) (pt_new_version p) = true;
}.

Lemma version_leb_mono a b :
  v_query_set a <= v_query_set b -> v_identity a <= v_identity b -> v_ts a <= v_ts b -> version_leb a b = true.
Proof.
  intros H1 H2 H3. unfold version_leb, cmp, prod_Ord, cmp, Z_Ord. cbn [fst snd].
  destruct (Z.compare_spec (v_query_set a) (v_query_set b)), (Z.compare_spec (v_identity a) (v_identity b)), (Z.compare_spec (v_ts a) (v_ts b)); done || lia.
Qed.

(** The identity and the version of a new transition. *)
Definition next_identity (st : @SyncState Identity Subscription) : Identity := default (identity st) (pending_identity st).

Lemma begin_progress st new_ts now S :
  Settled st -> asked st = Some S -> is_expired (next_identity st) now = false ->
  v_query_set (current_version st) <= cv_query_set (received_client_version st) ->
  v_identity (current_version st) <= cv_identity (received_client_version st) -> v_ts (current_version st) <= new_ts ->
  exists st' p, begin_update_queries is_expired st new_ts now = Ret (st', p) /\ Settled st' /\ ids st' = S /\ Fetching p st' /\
    frame st' = (next_identity st, None, current_version st, received_client_version st, []) /\
    v_query_set (pt_new_version p) <= cv_query_set (received_client_version st) /\ v_identity (pt_new_version p) <= cv_identity (received_client_version st).
Proof.
  intros Hset Hask Hexp Hq Hi Hts.
  set (st0 := (take_modifications st).1). assert (Settled st0) as Hset0 by (destruct Hset as [[] ? ?]; by split).
  set (st1 := match pending_identity st with Some i => insert_identity (take_subscriptions st0).1 i | None => st0 end).
  set (iv := match pending_identity st with Some _ => cv_identity (received_client_version st) | None => v_identity (current_version st) end).
  assert (Settled st1 /\ ids st1 = ids st /\ frame st1 = (next_identity st, None, current_version st, received_client_version st, [])) as (Hset1 & Hids1 & Hfr1).
  { subst st1. unfold next_identity. destruct (settled_take st0 Hset0) as ([[] ? ?] & Hids & Hfr & _). destruct (pending_identity st) eqn:Hpi; [|done].
    split_and!; [by split|exact Hids|done]. }
  injection Hfr1 as Hi1 Hp1 Hv1 Hr1 Hu1.
  destruct (settled_modify (pending_query_updates st) st1 [] S Hset1) as (st2 & M2 & Hm & Hset2 & Hids2 & Hfr2); [by rewrite Hids1|].
  injection Hfr2 as Hi2 Hp2 Hv2 Hr2 Hu2.
  destruct (settled_take st2 Hset2) as (Hset3 & Hids3 & Hfr3 & Hnone & Hrefill & Hfwd).
  exists (take_subscriptions st2).1, (MkPending (take_remaining (need_fetch (take_subscriptions st2).1) (take_subscriptions st2).2) (identity st1) M2
    (current_version st) (MkVersion (cv_query_set (received_client_version st)) iv new_ts)).
  split_and!; [|done|congruence| | | |subst iv; cbn; destruct (pending_identity st); lia].
  - unfold begin_update_queries. change (take_modifications st) with (st0, (take_modifications st).2). cbn [take_modifications snd].
    assert (match pending_identity st with Some i => (insert_identity (take_subscriptions st0).1 i, cv_identity (received_client_version st))
      | None => (st0, v_identity (current_version st)) end = (st1, iv)) as -> by (subst st1 iv; by destruct (pending_identity st)).
    unfold current_identity. rewrite Hp1. cbn [default]. rewrite Hi1, Hexp. cbn [negb ensure obind].
    match goal with |- obind _ ?k = _ => exact (f_equal (fun m => obind m k) Hm) end.
  - split; [apply take_remaining_fst| |done|done|].
    + intros q s Hin. cbn [pt_need_fetch] in Hin. pose proof (queries_wf _ (set_ok _ Hset2)) as Hwf2.
      apply (take_remaining_sub _ (taken (queries st2)) _ _ (taken_wf _ Hwf2)) in Hin.
      destruct (taken_get (queries st2) _ _ Hwf2 Hin) as (sq & Hsq & _). apply Hfwd. eauto.
    + cbn [pt_new_version]. apply version_leb_mono; cbn [v_query_set v_identity v_ts]; change (current_version (take_subscriptions st2).1) with (current_version st2);
        rewrite Hv2, Hv1; [done| |done]. subst iv. destruct (pending_identity st); lia.
  - rewrite Hfr3. unfold frame. congruence.
  - cbn. lia.
Qed.

(** ** The end of a transition *)

(** The application answers; a search index may still be unavailable, but to
    queries that have not returned yet only. *)
Record Available (api : @Api Identity Subscription Token) (st : @SyncState Identity Subscription) : Prop := {
  av_extend : forall s ts, exists b, extend_validity api s ts = Ret b;
  av_execute : forall i q ts, (exists x, execute_query api i q ts = Ret x) \/
    (execute_query api i q ts = Err Unavailable /\ BTreeMap.get (query_id q) (queries st) = None);
  av_subscribe : forall token, exists s, subscribe api token = Ret s;
}.

Definition result_id (r : Z * @QueryResult * Subscription) : Z := r.1.1.

Definition applicable st (r : Z * QueryResult * Subscription) : Prop :=
  let '(id, result, s) := r in
  match result with
  | Rerun _ _ _ => is_Some (BTreeMap.get id (in_progress_queries st)) \/ exists sq, BTreeMap.get id (queries st) = Some sq /\ subscription sq = None
  | Refresh => is_Some (BTreeMap.get id (queries st))
  | TemporarilyUnavailable => False
  end.

Record Todo (st : @SyncState Identity Subscription) (rs : list (Z * QueryResult * Subscription)) : Prop := {
  todo_settled : Settled st;
  todo_once : NoDup (map result_id rs);
  todo_applicable : Forall (applicable st) rs;
  todo_left : forall id sq, BTreeMap.get id (queries st) = Some sq -> invalidation_future sq = None /\ (is_Some (subscription sq) \/ id ∈ map result_id rs);
}.

(** Storing an entry with a subscription. *)
Lemma todo_store st st' id res s rs sq' :
  Todo st ((id, res, s) :: rs) -> QueriesOk st' -> (forall k, BTreeMap.get k (queries st') = if decide (k = id) then Some sq' else BTreeMap.get k (queries st)) ->
  BTreeMap.get id (in_progress_queries st') = None ->
  (forall k, k <> id -> BTreeMap.get k (in_progress_queries st') = BTreeMap.get k (in_progress_queries st)) ->
  is_Some (result_hash sq') -> invalidation_future sq' = None -> is_Some (subscription sq') ->
  ids st' = ids st /\ Todo st' rs.
Proof.
  intros [[Hok Hdis Hh] Hnd [Happ Hrs]%Forall_cons Hleft] Hok' Hq Hpn Hp Hh' Hfut Hsub. cbn [map] in Hnd. apply NoDup_cons in Hnd as [Hnin Hnd].
  assert (id ∈ ids st) as Hin.
  { rewrite elem_of_ids by done. destruct res; cbn in Happ; [destruct Happ as [?|(? & -> & _)]; eauto|done|by left]. }
  split; [|split; [split; [done| |]|done| |]].
  - apply set_eq. intros k. rewrite !elem_of_ids, Hq by done. case_decide as Hk; [subst k; rewrite elem_of_ids in Hin by done; naive_solver|]. by rewrite Hp.
  - intros k. rewrite Hq. case_decide; [by subst|]. intros ?. rewrite Hp by done. by apply Hdis.
  - intros k sq. rewrite Hq. case_decide; [naive_solver|apply Hh].
  - apply Forall_forall. intros [[id2 res2] s2] Hin2. pose proof (proj1 (Forall_forall _ _) Hrs _ Hin2) as Ha.
    assert (id2 <> id) as Hne by (intros ->; apply Hnin, list_elem_of_fmap; by exists (id, res2, s2)).
    destruct res2; cbn in Ha |- *; [|done|]; rewrite Hq, decide_False, ?Hp by done; done.
  - intros k sq. rewrite Hq. case_decide as Hk; [intros [= <-]; by split; [|left]|]. intros Hsq. destruct (Hleft k sq Hsq) as [? [?|Hkin]]; [by split; [|left]|].
    split; [done|right]. cbn [map] in Hkin. apply elem_of_cons in Hkin as [?|?]; [done|done].
Qed.

Lemma apply_result_progress st M r rs :
  Todo st (r :: rs) -> exists st' M', apply_result sha256 (st, M) r = Ret (st', M') /\ ids st' = ids st /\ Todo st' rs.
Proof.
  intros Htodo. pose proof (todo_settled _ _ Htodo) as [Hok Hdis Hh]. pose proof (queries_wf _ Hok) as Hwf.
  pose proof (Forall_inv (todo_applicable _ _ Htodo)) as Happ.
  destruct r as [[id [res l j| |]] s]; cbn [apply_result fst snd]; [|by destruct Happ|].
  - unfold complete_fetch. destruct (start_synced st id) as [st1| |] eqn:Hst1.
    2, 3: exfalso; unfold start_synced in Hst1; destruct (BTreeMap.get id (in_progress_queries st)) eqn:Hp; [|done];
      destruct (BTreeMap.get id (queries st)) eqn:Hq; [|done]; specialize (Hdis id); rewrite Hq, Hp in Hdis; discriminate Hdis; eauto.
    destruct (start_synced_spec _ _ _ Hok Hst1) as (Hwf1 & Hwfp1 & Hnone & Hother & Hid). cbn [obind].
    assert (exists sq, BTreeMap.get id (queries st1) = Some sq /\ subscription sq = None /\ query_id (sq_query sq) = id) as (sq & Hsq & Hsub & Hqid).
    { cbn in Happ. destruct (BTreeMap.get id (in_progress_queries st)) as [q|] eqn:Hp.
      - destruct Hid as [_ ->]. eexists. split_and!; [done..|]. cbn. by apply (in_progress_ids _ Hok).
      - destruct Happ as [[]|(sq & Hsq & Hsub)]; [done|]. exists sq. rewrite Hid. split_and!; [done..|]. by apply (queries_ids _ Hok). }
    rewrite Hsq. cbn [ok_or obind]. rewrite Hsub. cbn [is_Some_b negb ensure obind]. eexists _, _. split; [done|]. 
    apply (todo_store _ _ id _ s rs (MkSynced (with_journal (sq_query sq) j) (Some s) (Some (hash_result sha256 res l)) None) Htodo);
      cbn [with_queries queries in_progress_queries]; [| |done|intros k Hk; by apply Hother|cbn; eauto|done|cbn; eauto].
    + split; cbn [with_queries queries in_progress_queries]; [by apply BTreeMap.wf_insert|done| |].
      * intros k sq'. rewrite BTreeMap.get_insert_if by done. case_decide as Hk; [intros [= <-]; cbn; congruence|].
        rewrite (proj1 (Hother k Hk)). apply (queries_ids _ Hok).
      * intros k q. destruct (decide (k = id)) as [->|Hk]; [congruence|]. rewrite (proj2 (Hother k Hk)). apply (in_progress_ids _ Hok).
    + intros k. rewrite BTreeMap.get_insert_if by done. case_decide; [done|by apply Hother].
  - destruct Happ as [sq Hsq]. unfold refill_subscription. rewrite Hsq. cbn [ok_or obind]. destruct (Hh _ _ Hsq) as [h Hhash]. rewrite Hhash. cbn [is_Some_b ensure obind].
    eexists _, _. split; [done|]. 
    apply (todo_store _ _ id _ s rs (MkSynced (sq_query sq) (Some s) (Some h) (invalidation_future sq)) Htodo); cbn [with_queries queries in_progress_queries];
      [| |apply Hdis; eauto|done|cbn; eauto|cbn; by apply (todo_left _ _ Htodo id sq)|cbn; eauto].
    + split; cbn [with_queries queries in_progress_queries]; [by apply BTreeMap.wf_insert|apply Hok| |apply Hok].
      intros k sq'. rewrite BTreeMap.get_insert_if by done. case_decide as Hk; [intros [= <-]; cbn; subst k; by apply (queries_ids _ Hok)|apply (queries_ids _ Hok)].
    + intros k. by rewrite BTreeMap.get_insert_if.
Qed.

Lemma apply_results_progress rs st M :
  Todo st rs -> exists st' M', foldM (apply_result sha256) (st, M) rs = Ret (st', M') /\ ids st' = ids st /\ Todo st' [].
Proof.
  revert st M. induction rs as [|r rs IH]; intros st M Htodo; [by exists st, M|].
  destruct (apply_result_progress _ M _ _ Htodo) as (st1 & M1 & Hr & <- & Htodo1). cbn [foldM]. rewrite Hr. by apply IH.
Qed.

Lemma fill_progress qs futures next :
  (forall id sq, (id, sq) ∈ qs -> is_Some (subscription sq)) -> exists x, fill_futures qs futures next = Ret (E := sync_error) x.
Proof.
  revert futures next. induction qs as [|[id sq] qs IH]; intros futures next Hall; cbn [fill_futures]; [eauto|].
  destruct (Hall id sq) as [s Hs]; [left|]. rewrite Hs.
  assert (forall id sq, (id, sq) ∈ qs -> is_Some (subscription sq)) as Hall' by (intros; eapply Hall; by right).
  destruct (IH futures next Hall') as [[[??]?] Hf1], (IH (futures ++ [(next, id)]) (S next) Hall') as [[[??]?] Hf2].
  rewrite Hf1, Hf2. destruct (invalidation_future sq); cbn; eauto.
Qed.

Lemma update_query_total (api : @Api Identity Subscription Token) p st q o :
  Available api st ->
  exists res o', update_query api p (q, o) = Ret (query_id q, res, o') /\
  match o' with
  | Some _ => match res with Rerun _ _ _ => True | Refresh => is_Some o | TemporarilyUnavailable => False end
  | None => BTreeMap.get (query_id q) (queries st) = None
  end.
Proof.
  intros [Hext Hexe Hsub]. unfold update_query.
  assert (exists sub, match o with Some s => let? valid := lift_api (extend_validity api s (v_ts (pt_new_version p))) in Ret (if valid : bool then Some s else None) | None => Ret None end
    = Ret (E := sync_error) sub /\ (is_Some sub -> is_Some o)) as (sub & -> & Hsub').
  { destruct o as [s|]; [|by exists None]. destruct (Hext s (v_ts (pt_new_version p))) as [b ->]. cbn. destruct b; eauto. }
  cbn [obind]. destruct sub as [s|]; [eexists _, _; split; [done|]; cbn; eauto|].
  destruct (Hexe (pt_identity p) q (v_ts (pt_new_version p))) as [[[[[r l] j] token] ->]|[-> Hnone]]; [|by eexists _, _].
  destruct (Hsub token) as [s ->]. by eexists _, _.
Qed.

Definition fetch_id (f : Query * option Subscription) : Z := query_id f.1.

Lemma run_queries_total (api : @Api Identity Subscription Token) p st order :
  Available api st ->
  exists rs u, run_queries api p order = Ret (rs, u) /\ map result_id rs `sublist_of` map fetch_id order /\
  (forall f, f ∈ order -> is_Some (BTreeMap.get (fetch_id f) (queries st)) -> fetch_id f ∈ map result_id rs) /\
  (forall id res s, (id, res, s) ∈ rs -> exists q o, (q, o) ∈ order /\ query_id q = id /\
     match res with Rerun _ _ _ => True | Refresh => is_Some o | TemporarilyUnavailable => False end).
Proof.
  intros Hav. induction order as [|[q o] order (rs & u & Hrun & Hsub & Hall & Hfrom)]; [exists [], false; split_and!; [done..|set_solver|set_solver]|].
  destruct (update_query_total api p st q o Hav) as (res & o' & Hu & Ho'). cbn [run_queries]. rewrite Hu. cbn [obind]. rewrite Hrun. cbn [obind].
  eexists _, _. split; [done|]. destruct o' as [s|].
  - cbn [map]. split_and!; [by constructor| |].
    + intros f [->|Hf]%elem_of_cons Hid; [by left|right; by apply Hall].
    + intros id res' s' [[= -> -> ->]|Hin]%elem_of_cons; [exists q, o; split_and!; [by left|done|by destruct res]|].
      destruct (Hfrom _ _ _ Hin) as (q' & o' & ? & ?). exists q', o'. split; [by right|done].
  - split_and!; [by constructor| |].
    + intros f [->|Hf]%elem_of_cons Hid; [unfold fetch_id in Hid; cbn in Hid; rewrite Ho' in Hid; by destruct Hid|by apply Hall].
    + intros id res' s' Hin. destruct (Hfrom _ _ _ Hin) as (q' & o' & ? & ?). exists q', o'. split; [by right|done].
Qed.

(** The ids of the queries to fetch. *)
Lemma need_fetch_ids st :
  QueriesOk st -> (forall id sq, BTreeMap.get id (queries st) = Some sq -> subscription sq = None) ->
  map query_id (need_fetch st) = (queries st).*1 ++ (in_progress_queries st).*1.
Proof.
  intros Hok Hnone. unfold need_fetch. rewrite map_app. f_equal.
  - assert (forall m, (forall id sq, (id, sq) ∈ m -> subscription sq = None /\ query_id (sq_query sq) = id) ->
      map query_id (map (fun e : Z * SyncedQuery => sq_query e.2) (bfilter (fun e : Z * @SyncedQuery Subscription => negb (is_Some_b (subscription e.2))) m)) = m.*1) as Hm.
    { induction m as [|[id sq] m IH]; intros Hall; [done|]. destruct (Hall id sq) as [Hs Hid]; [left|]. cbn [bfilter fst snd]. rewrite Hs. cbn.
      rewrite Hid. f_equal. apply IH. intros. apply Hall. by right. }
    apply Hm. intros id sq Hin%BTreeMap.elem_of_get; [|apply Hok]. split; [by eapply Hnone|by apply (queries_ids _ Hok)].
  - assert (forall m : list (Z * Query), (forall id q, (id, q) ∈ m -> query_id q = id) -> map query_id (map snd m) = m.*1) as Hm.
    { induction m as [|[id q] m IH]; intros Hall; [done|]. cbn. rewrite (Hall id q) by left. f_equal. apply IH. intros. apply Hall. by right. }
    apply Hm. intros id q Hin%BTreeMap.elem_of_get; [|apply Hok]. by apply (in_progress_ids _ Hok).
Qed.

Lemma fetches_once p st order :
  Settled st -> Fetching p st -> order ≡ₚ pt_need_fetch p ->
  NoDup (map fetch_id order) /\ forall id, id ∈ map fetch_id order <-> is_Some (BTreeMap.get id (queries st)) \/ is_Some (BTreeMap.get id (in_progress_queries st)).
Proof.
  intros [Hok Hdis Hh] [Hneed _ Hnone _ _] Hord.
  assert (map fetch_id order ≡ₚ (queries st).*1 ++ (in_progress_queries st).*1) as Hids.
  { rewrite Hord, <- (need_fetch_ids st Hok), <- Hneed by (intros; by eapply Hnone). by rewrite map_map. }
  split.
  - rewrite Hids. apply NoDup_app. split_and!; [apply BTreeMap.wf_NoDup_fst, Hok| |apply BTreeMap.wf_NoDup_fst, Hok].
    intros id Hq Hp. apply get_keys, Hdis in Hq; [|apply Hok]. apply get_keys in Hp; [|apply Hok]. rewrite Hq in Hp. by destruct Hp.
  - intros id. rewrite Hids, elem_of_app, !get_keys by apply Hok. done.
Qed.

Lemma todo_intro (api : @Api Identity Subscription Token) p st order :
  Settled st -> Fetching p st -> Available api st -> order ≡ₚ pt_need_fetch p -> exists rs u, run_queries api p order = Ret (rs, u) /\ Todo st rs.
Proof.
  intros Hset Hfet Hav Hord. destruct (fetches_once _ _ _ Hset Hfet Hord) as [Hnd Hids].
  destruct (run_queries_total api p st order Hav) as (rs & u & Hrun & Hsub & Hall & Hfrom). exists rs, u. split; [done|]. split; [done| | |].
  - by eapply sublist_NoDup.
  - apply Forall_forall. intros [[id res] s] Hin. destruct (Hfrom _ _ _ Hin) as (q & o & Hqo & <- & Hres). destruct res; cbn; [|done|].
    + destruct (proj1 (Hids (query_id q))) as [[sq Hsq]|?]; [apply list_elem_of_fmap; by exists (q, o)| |by left].
      right. exists sq. split; [done|]. by apply (fet_none _ _ Hfet _ _ Hsq).
    + destruct Hres as [s' ->]. apply (fet_sub _ _ Hfet q s'). by rewrite <- Hord.
  - intros id sq Hsq. split; [by apply (fet_none _ _ Hfet _ _ Hsq)|right].
    destruct (proj1 (list_elem_of_fmap fetch_id order id)) as (f & -> & Hf); [apply Hids; eauto|]. apply Hall; eauto.
Qed.

Lemma finish_progress (api : @Api Identity Subscription Token) p st order :
  Settled st -> Fetching p st -> Available api st -> order ≡ₚ pt_need_fetch p ->
  exists t st' tr, run_transition api p order = Ret t /\ finish_update_queries sha256 st t = Ret (st', tr) /\ Settled st' /\ ids st' = ids st /\
    (forall id sq, BTreeMap.get id (queries st') = Some sq -> is_Some (subscription sq) /\ is_Some (invalidation_future sq)) /\
    frame st' = (identity st, pending_identity st, pt_new_version p, received_client_version st, pending_query_updates st).
Proof.
  intros Hset Hfet Hav Hord. destruct (todo_intro _ _ _ _ Hset Hfet Hav Hord) as (rs & u & Hrun & Htodo).
  destruct (apply_results_progress rs st (state_modifications p) Htodo) as (st1 & M1 & Hfold & Hids1 & [[Hok1 Hdis1 Hh1] _ _ Hleft]).
  destruct (apply_results_frame _ _ _ _ _ _ Hfold) as (Hi & Hv & Hu & Hp & Hr). 
  destruct (fill_progress (queries st1) (invalidation_futures st1) (next_handle st1)) as [[[qs fs] n] Hfill].
  { intros id sq Hin%BTreeMap.elem_of_get; [|apply Hok1]. destruct (Hleft id sq Hin) as [_ [?|?]]; [done|set_solver]. }
  pose proof (fill_futures_entries _ _ _ _ _ _ Hfill) as Hent.
  destruct (BTreeMap.get_Forall2 refilled _ _ Hent (queries_wf _ Hok1)) as [Hwf Hget].
  assert (forall id sq', BTreeMap.get id qs = Some sq' -> exists sq, BTreeMap.get id (queries st1) = Some sq /\ refilled sq sq') as Hback.
  { intros id sq' Hsq'. specialize (Hget id). rewrite Hsq' in Hget. inversion Hget; subst. eauto. }
  unfold run_transition. rewrite Hrun. cbn [obind]. eexists _, _, _. split; [done|]. unfold finish_update_queries.
  cbn [udf_results ts_modifications ts_current_version ts_new_version]. rewrite Hfold. cbn [obind].
  unfold fill_invalidation_futures. rewrite Hfill. cbn [obind]. unfold advance_version. cbn [with_queries current_version].
  rewrite Hv, (fet_version _ _ Hfet). cbn [ensure obind]. split; [done|]. split_and!.
  - split; [split|..]; cbn; [done|apply Hok1| |apply Hok1| |].
    + intros id sq' (sq & Hsq & (-> & _) & _)%Hback. by apply (queries_ids _ Hok1).
    + intros id [sq' (sq & Hsq & _)%Hback]. apply Hdis1. eauto.
    + intros id sq' (sq & Hsq & (_ & _ & ->) & _)%Hback. by apply (Hh1 id).
  - rewrite <- Hids1. apply ids_same; [|done]. cbn. clear -Hent. induction Hent as [|e e' m m' [He _] _ IH]; [done|]. cbn. by f_equal.
  - cbn. intros id sq' (sq & Hsq & (_ & -> & _) & _ & Hfut)%Hback. split; [|done]. by destruct (Hleft id sq Hsq) as [_ [?|?]]; [|set_solver].
  - unfold frame. cbn. congruence.
Qed.

(** ** Sessions *)

(** What a turn of the loop needs: messages that follow on those received, a
    timestamp that does not go back, an identity that has not expired, and an
    application that answers. *)
Definition orderly (w : @Worker Identity Subscription) (e : @event Identity Subscription Token) : Prop :=
  match e with
  | ModifyQuerySet base new mods =>
      base = cv_query_set (received_client_version (state w)) /\ base < new /\ exists S, asked (state w) = Some S /\ is_Some (track mods S)
  | Authenticated _ base => base = cv_identity (received_client_version (state w))
  | BeginTransition new_ts now => v_ts (current_version (state w)) <= new_ts /\ is_expired (next_identity (state w)) now = false
  | TransitionReady api order => Available api (state w) /\ forall p, transition_future w = Some p -> order ≡ₚ pt_need_fetch p
  | _ => True
  end.

Record Live (w : @Worker Identity Subscription) : Prop := {
  live_settled : Settled (state w);
  live_asked : is_Some (asked (state w));
  live_query_set : v_query_set (current_version (state w)) <= cv_query_set (received_client_version (state w));
  live_identity : v_identity (current_version (state w)) <= cv_identity (received_client_version (state w));
  live_future : match transition_future w with
    | Some p => Fetching p (state w) /\ v_query_set (pt_new_version p) <= cv_query_set (received_client_version (state w)) /\
        v_identity (pt_new_version p) <= cv_identity (received_client_version (state w))
    | None => forall id sq, BTreeMap.get id (queries (state w)) = Some sq ->
        is_Some (subscription sq) /\ (refill_needed (state w) = false -> is_Some (invalidation_future sq))
    end;
}.

Lemma live_new unknown : Live (worker_new unknown).
Proof. split; [split; [split|..]|eexists| | |]; cbn; done. Qed.

Lemma live_validate w : Live w -> validate (state w) = Ret tt.
Proof.
  intros [Hset _ _ _ Hfut]. unfold validate. rewrite (proj2 (forallb_forall _ _)); [done|]. intros [id sq] Hin.
  apply list_elem_of_In, BTreeMap.elem_of_get in Hin; [|apply Hset]. cbn. destruct (set_hash _ Hset _ _ Hin) as [h ->]. cbn.
  destruct (transition_future w) as [p|]; [destruct Hfut as [Hf _]; rewrite (fet_refill _ _ Hf id) by eauto; done|].
  destruct (Hfut _ _ Hin) as [[s ->] Hfill]. destruct (refill_needed (state w)); [done|]. destruct (Hfill eq_refl) as [h' ->]. done.
Qed.

(** Steps that change the query set and its version, or what is scheduled. *)
Lemma live_messages w st' u' r' :
  Live w -> queries st' = queries (state w) -> in_progress_queries st' = in_progress_queries (state w) -> refill_needed st' = refill_needed (state w) ->
  current_version st' = current_version (state w) -> is_Some (asked st') ->
  cv_query_set (received_client_version (state w)) <= cv_query_set (received_client_version st') ->
  cv_identity (received_client_version (state w)) <= cv_identity (received_client_version st') ->
  Live (MkWorker st' (transition_future w) u' r' (sent w)).
Proof.
  intros [[[] Hdis Hh] Hask Hq Hi Hfut] Eq Ep Er Ev Hask' Hq' Hi'. split; cbn [state transition_future].
  - split; [split|..]; rewrite ?Eq, ?Ep; done.
  - done.
  - rewrite Ev. lia.
  - rewrite Ev. lia.
  - destruct (transition_future w) as [p|]; [|by rewrite Eq, Er]. destruct Hfut as ([Hn Hs Hno Hre Hve] & ? & ?). split; [|lia].
    split; rewrite ?Eq, ?Er, ?Ev; try done. rewrite Hn. unfold need_fetch. by rewrite Eq, Ep.
Qed.

(** What the server has received. *)
Definition client_view (w : @Worker Identity Subscription) : option (gset Z) * ClientVersion := (asked (state w), received_client_version (state w)).

Lemma live_invalidated w h st' o u' r' :
  Live w -> next_invalidated_query (state w) h = Some (st', o) ->
  let w' := MkWorker st' (transition_future w) u' r' (sent w) in Live w' /\ client_view w' = client_view w.
Proof.
  intros Hl Hn. unfold next_invalidated_query in Hn. destruct (refill_needed (state w)) eqn:Hre; [done|].
  destruct (find _ _) as [[h' id]|]; [|done]. case_bool_decide; injection Hn as <- <-.
  { cbn zeta. split; [|done]. apply live_messages; try done; apply Hl. }
  destruct Hl as [[[] Hdis Hh] Hask Hq Hi Hfut]. cbn zeta.
  destruct (BTreeMap.get id (queries (state w))) as [sq|] eqn:Hsq.
  - set (qs := BTreeMap.insert id (take_future sq) (queries (state w))).
    assert (forall k, BTreeMap.get k qs = if decide (k = id) then Some (take_future sq) else BTreeMap.get k (queries (state w))) as Hget.
    { intros k. by apply BTreeMap.get_insert_if. }
    assert (qs.*1 = (queries (state w)).*1) as Hkeys.
    { subst qs. apply insert_keys; [done|by rewrite Hsq]. }
    split; [|unfold client_view, asked; cbn [state]; by rewrite (ids_same (state w)) by done].
    split; cbn [state transition_future]; [split; [split|..]|..]; cbn [with_queries queries in_progress_queries current_version received_client_version]; try done.
    + by apply BTreeMap.wf_insert.
    + intros k sq'. rewrite Hget. case_decide; [intros [= <-]; subst k; cbn; auto|auto].
    + intros k. rewrite Hget. case_decide; [subst; intros _; apply Hdis; eauto|apply Hdis].
    + intros k sq'. rewrite Hget. case_decide; [intros [= <-]; subst k; by apply (Hh id sq)|apply Hh].
    + unfold asked in *. erewrite ids_same; [exact Hask|exact Hkeys|done].
    + destruct (transition_future w) as [p|]; [destruct Hfut as [Hf _]; rewrite (fet_refill _ _ Hf id) in Hre by eauto; done|].
      intros k sq'. cbn. rewrite Hget. case_decide; [intros [= <-]; subst k; split; [by apply (Hfut id sq)|done]|]. intros Hk. split; [by apply (Hfut k)|done].
  - split; [|done]. split; cbn [state transition_future]; [by split|done..|]. destruct (transition_future w) as [p|].
    + destruct Hfut as ([] & ? & ?). split; [by split|done].
    + cbn. intros k sq' Hk. split; [by apply (Hfut k)|done].
Qed.

Definition receive (v : option (gset Z) * ClientVersion) (e : @event Identity Subscription Token) : option (gset Z) * ClientVersion :=
  match e with
  | ModifyQuerySet _ new mods => (S ← v.1; track mods S, MkClientVersion new (cv_identity v.2))
  | Authenticated _ _ => (v.1, MkClientVersion (cv_query_set v.2) (cv_identity v.2 + 1))
  | _ => v
  end.

Lemma live_begin w new_ts now :
  let e : @event Identity Subscription Token := BeginTransition new_ts now in
  Live w -> orderly w e -> exists w', handle sha256 is_expired w e = Ret w' /\ Live w' /\ client_view w' = client_view w.
Proof.
  intros e Hl [Hts Hexp]. subst e. unfold handle. cbn [obind]. destruct (transition_future w) as [p|] eqn:Hf; [rewrite andb_false_r; by exists w|].
  destruct (update_scheduled w); [|by exists w]. cbn [is_Some_b negb andb]. destruct Hl as [Hset [S Hask] Hq Hi Hfut].
  destruct (begin_progress _ _ _ _ Hset Hask Hexp Hq Hi Hts) as (st' & p & -> & Hset' & Hids & Hfet & Hfr & Hqs & His). cbn [obind].
  injection Hfr as Hi' Hp' Hv' Hr' Hu'. eexists. split; [done|].
  assert (asked st' = Some S) as Hask' by (unfold asked; by rewrite Hu', Hids).
  split; [|unfold client_view; cbn; by rewrite Hask', Hask, Hr'].
  split; cbn [state transition_future]; [done|by rewrite Hask'|by rewrite Hv', Hr'|by rewrite Hv', Hr'|]. rewrite Hr'. done.
Qed.

Lemma live_finish w (api : @Api Identity Subscription Token) order :
  Live w -> orderly w (TransitionReady api order) ->
  exists w', handle sha256 is_expired w (TransitionReady api order) = Ret w' /\ Live w' /\ client_view w' = client_view w.
Proof.
  intros Hl [Hav Hord]. unfold handle. rewrite (live_validate w Hl). cbn [obind]. destruct (transition_future w) as [p|] eqn:Hf; [|by exists w].
  destruct Hl as [Hset [S Hask] Hq Hi Hfut]. rewrite Hf in Hfut. destruct Hfut as (Hfet & Hpq & Hpi).
  destruct (finish_progress api p (state w) order Hset Hfet Hav (Hord p eq_refl)) as (t & st' & tr & -> & Hfin & Hset' & Hids & Hall & Hfr). cbn [obind].
  rewrite Hfin. cbn [obind]. injection Hfr as Hi' Hp' Hv' Hr' Hu'. eexists. split; [done|].
  assert (asked st' = asked (state w)) as Hask' by (unfold asked; by rewrite Hu', Hids).
  split; [|unfold client_view; cbn; by rewrite Hask', Hr'].
  split; cbn [state transition_future]; [done|by rewrite Hask', Hask|by rewrite Hv', Hr'|by rewrite Hv', Hr'|].
  intros id sq Hsq. by destruct (Hall id sq Hsq).
Qed.

Lemma live_step w e :
  Live w -> orderly w e -> exists w', handle sha256 is_expired w e = Ret w' /\ Live w' /\ client_view w' = receive (client_view w) e.
Proof.
  intros Hl Ho. pose proof (live_validate w Hl) as Hval. pose proof (live_asked w Hl) as [S0 HS0]. destruct e as [base new mods|i base|h| | |new_ts now|api order].
  - destruct Ho as (Hbase & Hlt & S & HS & [S' HS']). unfold handle. rewrite Hval. cbn [obind]. unfold modify_query_set.
    rewrite (proj2 (Z.eqb_eq _ _) (symmetry Hbase)), (proj2 (Z.ltb_lt _ _) Hlt). cbn [ensure obind]. eexists. split; [done|].
    assert (track (pending_query_updates (state w) ++ mods) (ids (state w)) = (S ← asked (state w); track mods S)) as Htr by apply track_app.
    split; [|unfold client_view, receive, asked; cbn; f_equal; exact Htr].
    apply live_messages; try done; cbn; [|lia]. rewrite HS in Htr. cbn in Htr. rewrite HS' in Htr. by exists S'.
  - cbn in Ho. unfold handle. rewrite Hval. cbn [obind]. unfold modify_identity. rewrite (proj2 (Z.eqb_eq _ _) (symmetry Ho)). cbn [ensure obind].
    eexists. split; [done|]. split; [|done]. apply live_messages; try done; first [apply Hl|cbn; lia].
  - unfold handle. rewrite Hval. cbn [obind]. destruct (next_invalidated_query (state w) h) as [[st' o]|] eqn:Hn; [|by exists w].
    destruct o; (eexists; split; [done|by eapply live_invalidated]).
  - unfold handle. rewrite Hval. cbn [obind]. eexists. split; [done|]. split; [|done]. apply live_messages; try done; apply Hl.
  - unfold handle. rewrite Hval. cbn [obind]. destruct (retry_scheduled w); eexists; (split; [done|]); [|done]. split; [|done]. apply live_messages; try done; apply Hl.
  - by apply live_begin.
  - by apply live_finish.
Qed.

Inductive orderly_session : @Worker Identity Subscription -> Prop :=
| orderly_new unknown : orderly_session (worker_new unknown)
| orderly_step w e w' : orderly_session w -> orderly w e -> handle sha256 is_expired w e = Ret w' -> orderly_session w'.

Lemma orderly_live w : orderly_session w -> Live w.
Proof.
  induction 1 as [unknown|w e w' _ Hl Ho Hstep]; [apply live_new|]. destruct (live_step w e Hl Ho) as (w2 & Hw2 & ? & _). congruence.
Qed.

(** C6: No turn of the loop fails in a session whose client adds new queries and
    removes existing ones with consecutive versions, while the timestamps do not
    go back, the identity has not expired and the application answers (a query
    that never returned may be unavailable): the modifications apply, every result
    finds its query, every synced query has its subscription again, and the
    version does not go backwards. *)
Theorem session_never_fails w e : orderly_session w -> orderly w e -> exists w', handle sha256 is_expired w e = Ret w'.
Proof. intros Hl%orderly_live Ho. destruct (live_step w e Hl Ho) as (w' & ? & _). eauto. Qed.
End progress.

(** ** Example *)

Lemma example_available st : Available SyncExample.example_api st.
Proof. split; [eauto| |eauto]. left. eauto. Qed.

Lemma example_orderly2 : orderly_session (Token := Z) id SyncExample.never_expires (SyncExample.after 2).
Proof.
  apply (orderly_step _ _ (SyncExample.after 1) (BeginTransition 5 0)); [|by split; vm_compute|vm_compute; reflexivity].
  apply (orderly_step _ _ (worker_new 0) (ModifyQuerySet 0 1 [AddQuery SyncExample.query1; AddQuery SyncExample.query2]));
    [apply orderly_new| |vm_compute; reflexivity].
  split; [done|]. split; [done|]. exists ∅. split; [done|]. eexists. vm_compute. reflexivity.
Qed.

Lemma session_never_fails_witness :
  exists w', handle id SyncExample.never_expires (SyncExample.after 2) (SyncExample.in_order (SyncExample.after 2)) = Ret w'.
Proof.
  apply (session_never_fails id SyncExample.never_expires); [exact example_orderly2|].
  split; [apply example_available|]. by intros p ->.
Defined.
