(* ===== verification/SyncSystem.v ===== *)
(** * SyncSystem: a client and the server's worker together
      (src/crates/convex/src/base_client/mod.rs, src/crates/sync/src/worker.rs)

    The client of [SyncClient] connected to the worker of [Sync]: the operations
    of the client, the messages in both directions and reconnections, as a step
    relation, and what subscribers are shown when the client has caught up. *)

From stdpp Require Import gmap.
From S2P Require Import Prelude Ord BTreeMap Timestamp Sync SyncClient SyncProtocol SyncProgress.

Local Open Scope Z_scope.

(** ** The queries of the client *)

Definition local_ids (l : LocalSyncState) : gset Z := list_to_set (query_id_to_token l).*1.

(** The number of subscribers of a query. *)
Definition count (id : Z) (subs : BTreeMap.t (Z * Z) unit) : Z := Z.of_nat (length (bfilter (fun e : (Z * Z) * unit => e.1.1 =? id) subs)).

Record LocalOk (l : LocalSyncState) : Prop := {
  lo_set_wf : BTreeMap.wf (query_set l);
  lo_token_wf : BTreeMap.wf (query_id_to_token l);
  lo_subs_wf : BTreeMap.wf (subscribers (latest_results l));
  lo_token : forall id tok, BTreeMap.get id (query_id_to_token l) = Some tok -> exists lq, BTreeMap.get tok (query_set l) = Some lq /\ lq_id lq = id;
  lo_set : forall tok lq, BTreeMap.get tok (query_set l) = Some lq ->
    BTreeMap.get (lq_id lq) (query_id_to_token l) = Some tok /\ num_subscribers lq = count (lq_id lq) (subscribers (latest_results l));
  lo_subs : forall id k, is_Some (BTreeMap.get (id, k) (subscribers (latest_results l))) ->
    exists tok lq, BTreeMap.get id (query_id_to_token l) = Some tok /\ BTreeMap.get tok (query_set l) = Some lq /\ k <= subscription_index lq;
  lo_next : forall id, is_Some (BTreeMap.get id (query_id_to_token l)) -> id < next_query_id l;
  lo_path : forall tok lq, BTreeMap.get tok (query_set l) = Some lq -> tok = (lq_path lq, lq_args lq);
}.

Lemma count_insert id id' k subs :
  BTreeMap.get (id', k) subs = None -> count id (BTreeMap.insert (id', k) tt subs) = count id subs + if decide (id = id') then 1 else 0.
Proof.
  unfold count. intros Hn.
  replace (if decide (id = id') then 1 else 0) with (Z.of_nat (if id' =? id then 1%nat else 0%nat)).
  2: { destruct (decide (id = id')) as [->|Hne]; [by rewrite Z.eqb_refl|]. rewrite (proj2 (Z.eqb_neq id' id)); [done|congruence]. }
  induction subs as [|[[i j] []] subs IH]; cbn [BTreeMap.insert BTreeMap.get bfilter length fst snd] in *; [destruct (id' =? id); cbn; lia|].
  destruct ((id', k) ==? (i, j)) eqn:E; [done|]. apply Ord.eqb_neq in E. destruct (cmp (id', k) (i, j)) eqn:Hc.
  - by apply cmp_eq_iff in Hc.
  - cbn [bfilter fst snd]. destruct (id' =? id), (i =? id); cbn [length]; lia.
  - specialize (IH Hn). cbn [bfilter fst snd]. destruct (i =? id); cbn [length]; lia.
Qed.

Lemma count_remove id s subs :
  is_Some (BTreeMap.get s subs) -> count id (BTreeMap.remove s subs) = count id subs - if decide (id = s.1) then 1 else 0.
Proof.
  destruct s as [id' k]. unfold count. intros Hs. cbn [fst].
  replace (if decide (id = id') then 1 else 0) with (Z.of_nat (if id' =? id then 1%nat else 0%nat)).
  2: { destruct (decide (id = id')) as [->|Hne]; [by rewrite Z.eqb_refl|]. rewrite (proj2 (Z.eqb_neq id' id)); [done|congruence]. }
  induction subs as [|[[i j] []] subs IH]; [by destruct Hs|]. cbn [BTreeMap.remove BTreeMap.get bfilter length fst snd] in *.
  destruct ((id', k) ==? (i, j)) eqn:E.
  - apply (proj1 (Ord.eqb_eq _ _)) in E. injection E as <- <-. destruct (id' =? id); cbn [length]; lia.
  - specialize (IH Hs). cbn [bfilter fst snd]. destruct (i =? id); cbn [length]; lia.
Qed.

Lemma count_pos id k subs : is_Some (BTreeMap.get (id, k) subs) -> 1 <= count id subs.
Proof. intros Hs. pose proof (count_remove id (id, k) subs Hs) as H. cbn [fst] in H. rewrite decide_True in H by done. unfold count in *. lia. Qed.

Lemma count_zero id subs : (forall k, BTreeMap.get (id, k) subs = None) -> count id subs = 0.
Proof.
  intros Hn. unfold count. replace (bfilter _ subs) with (@nil ((Z * Z) * unit)); [done|]. symmetry. induction subs as [|[[i j] []] subs IH]; [done|].
  cbn [bfilter fst]. destruct (i =? id) eqn:E.
  - apply Z.eqb_eq in E. subst. specialize (Hn j). cbn in Hn. by rewrite Ord.eqb_refl in Hn.
  - apply IH. intros k. specialize (Hn k). cbn in Hn. by destruct ((id, k) ==? (i, j)).
Qed.

(** ** Messages *)

(** What the server has received once it has handled a message. *)
Definition expect_msg (v : gset Z * ClientVersion) (m : ClientMessage) : option (gset Z * ClientVersion) :=
  match m with
  | CModifyQuerySet base new mods =>
      if (base =? cv_query_set v.2) && (base <? new) then S ← track mods v.1; Some (S, MkClientVersion new (cv_identity v.2)) else None
  | CAuthenticate base _ => if base =? cv_identity v.2 then Some (v.1, MkClientVersion (cv_query_set v.2) (cv_identity v.2 + 1)) else None
  | CMutation _ _ _ | CAction _ _ _ => Some v
  end.

Fixpoint expect_msgs (msgs : list ClientMessage) (v : gset Z * ClientVersion) : option (gset Z * ClientVersion) :=
  match msgs with
  | [] => Some v
  | m :: msgs => v' ← expect_msg v m; expect_msgs msgs v'
  end.

Lemma expect_msgs_app msgs msgs' v : expect_msgs (msgs ++ msgs') v = (v' ← expect_msgs msgs v; expect_msgs msgs' v').
Proof. revert v. induction msgs as [|m msgs IH]; intros v; simpl; [done|]. destruct (expect_msg v m); simpl; auto. Qed.

(** The modifications of a message. *)
Definition mods_of (m : ClientMessage) : list QuerySetModification :=
  match m with CModifyQuerySet _ _ mods => mods | _ => [] end.

Definition adds_hold (P : Query -> Prop) (mods : list QuerySetModification) : Prop := forall q, AddQuery q ∈ mods -> P q.

(** A query has an id that the client has used, and is the one of that id. *)
Definition query_ok (l : LocalSyncState) (q : Query) : Prop :=
  query_id q < next_query_id l /\ forall tok, BTreeMap.get (query_id q) (query_id_to_token l) = Some tok -> tok = (udf_path q, args q).

Definition local_view (l : LocalSyncState) : gset Z * ClientVersion := (local_ids l, MkClientVersion (query_set_version l) (identity_version l)).

Lemma elem_of_local_ids l id : LocalOk l -> id ∈ local_ids l <-> is_Some (BTreeMap.get id (query_id_to_token l)).
Proof. intros Hl. unfold local_ids. rewrite elem_of_list_to_set, get_keys by apply Hl. done. Qed.

(** An operation of the client and the message it returns. *)
Definition local_step (l l' : LocalSyncState) (m : list ClientMessage) : Prop :=
  LocalOk l' /\ expect_msgs m (local_view l) = Some (local_view l') /\ next_query_id l <= next_query_id l' /\
  results (latest_results l') = results (latest_results l) /\
  (forall id tok, BTreeMap.get id (query_id_to_token l') = Some tok -> BTreeMap.get id (query_id_to_token l) = Some tok \/ id = next_query_id l) /\
  Forall (fun m => adds_hold (query_ok l') (mods_of m)) m.

Lemma subscribe_existing l path arguments lq :
  LocalOk l -> BTreeMap.get (path, arguments) (query_set l) = Some lq ->
  let s := (lq_id lq, subscription_index lq + 1) in
  let lq' := MkLocalQuery (lq_id lq) (lq_path lq) (lq_args lq) (num_subscribers lq + 1) (subscription_index lq + 1) in
  BTreeMap.get s (subscribers (latest_results l)) = None /\
  LocalOk (MkLocal (next_query_id l) (query_set_version l) (BTreeMap.insert (path, arguments) lq' (query_set l)) (query_id_to_token l)
    (MkQueryResults (results (latest_results l)) (BTreeMap.insert s tt (subscribers (latest_results l)))) (auth_token l) (identity_version l)).
Proof.
  intros [Hws Hwt Hwsub Htok Hset Hsubs Hnext Hpath] Hlq s lq'. destruct (Hset _ _ Hlq) as [Hid Hnum].
  assert (BTreeMap.get s (subscribers (latest_results l)) = None) as Hs.
  { destruct (BTreeMap.get s _) eqn:Hs; [|done]. destruct (Hsubs (lq_id lq) (subscription_index lq + 1)) as (tok & lq2 & Ht & Hq & Hk); [eauto|].
    rewrite Hid in Ht. injection Ht as <-. rewrite Hlq in Hq. injection Hq as <-. lia. }
  split; [done|]. split; cbn [query_set query_id_to_token latest_results next_query_id subscribers]; [by apply BTreeMap.wf_insert|done|by apply BTreeMap.wf_insert|..].
  - intros id tok Ht. rewrite BTreeMap.get_insert_if by done. case_decide; [|by apply Htok]. subst tok.
    destruct (Htok _ _ Ht) as (lq2 & Hq & <-). rewrite Hlq in Hq. injection Hq as <-. eauto.
  - intros tok lq2. rewrite BTreeMap.get_insert_if by done. subst s. rewrite count_insert by done. case_decide as Ht.
    + intros [= <-]. subst tok. cbn. rewrite decide_True by done. split; [done|lia].
    + intros Hq. destruct (Hset _ _ Hq) as [Hid' Hnum']. split; [done|]. rewrite decide_False; [lia|]. intros Heq. rewrite Heq, Hid in Hid'. congruence.
  - intros id k. subst s. rewrite BTreeMap.get_insert_if by done. intros Hk.
    destruct (decide ((id, k) = (lq_id lq, subscription_index lq + 1))) as [[= -> ->]|Hne].
    + eexists _, _. split; [exact Hid|]. rewrite BTreeMap.get_insert_eq by done. split; [done|]. cbn. lia.
    + destruct (Hsubs _ _ Hk) as (tok & lq2 & Ht & Hq & Hk'). exists tok. rewrite BTreeMap.get_insert_if by done. case_decide; [subst tok|eauto].
      eexists. split_and!; [done..|]. rewrite Hlq in Hq. injection Hq as <-. cbn. lia.
  - done.
  - intros tok lq2. rewrite BTreeMap.get_insert_if by done. case_decide; [|apply Hpath]. intros [= <-]. subst tok. by rewrite (Hpath _ _ Hlq).
Qed.

Lemma subscribe_new l path arguments :
  LocalOk l -> BTreeMap.get (path, arguments) (query_set l) = None ->
  let id := next_query_id l in
  BTreeMap.get (id, 0) (subscribers (latest_results l)) = None /\
  LocalOk (MkLocal (id + 1) (query_set_version l + 1) (BTreeMap.insert (path, arguments) (MkLocalQuery id path arguments 1 0) (query_set l))
    (BTreeMap.insert id (path, arguments) (query_id_to_token l))
    (MkQueryResults (results (latest_results l)) (BTreeMap.insert (id, 0) tt (subscribers (latest_results l)))) (auth_token l) (identity_version l)).
Proof.
  intros [Hws Hwt Hwsub Htok Hset Hsubs Hnext Hpath] Hlq id.
  assert (forall k, BTreeMap.get (id, k) (subscribers (latest_results l)) = None) as Hs.
  { intros k. destruct (BTreeMap.get (id, k) _) eqn:Hs; [|done]. destruct (Hsubs id k) as (tok & lq2 & Ht & _); [eauto|]. specialize (Hnext id). rewrite Ht in Hnext.
    subst id. specialize (Hnext (mk_is_Some _ _ eq_refl)). lia. }
  split; [done|]. split; cbn [query_set query_id_to_token latest_results next_query_id subscribers]; try by apply BTreeMap.wf_insert.
  - intros id' tok. rewrite !BTreeMap.get_insert_if by done. case_decide as Hid; [intros [= <-]; rewrite decide_True by done; subst id'; eauto|].
    intros Ht. destruct (Htok _ _ Ht) as (lq2 & Hq & <-). rewrite decide_False by congruence. eauto.
  - intros tok lq2. rewrite !BTreeMap.get_insert_if, count_insert by done. case_decide as Ht.
    + intros [= <-]. subst tok. cbn. rewrite !decide_True by done. split; [done|]. by rewrite count_zero.
    + intros Hq. destruct (Hset _ _ Hq) as [Hid' Hnum']. assert (lq_id lq2 <> id) as Hne by (specialize (Hnext _ (mk_is_Some _ _ Hid')); lia).
      rewrite !decide_False by done. split; [done|lia].
  - intros id' k. rewrite BTreeMap.get_insert_if by done. intros Hk. destruct (decide ((id', k) = (id, 0))) as [[= -> ->]|Hne].
    + eexists _, _. rewrite !BTreeMap.get_insert_eq by done. split_and!; [done..|]. cbn. lia.
    + destruct (Hsubs _ _ Hk) as (tok & lq2 & Ht & Hq & Hk'). exists tok, lq2. rewrite !BTreeMap.get_insert_ne; [done..|congruence|done|].
      intros ->. specialize (Hnext _ (mk_is_Some _ _ Ht)). lia.
  - intros id'. rewrite BTreeMap.get_insert_if by done. case_decide; [subst; lia|]. intros ?%Hnext. lia.
  - intros tok lq2. rewrite BTreeMap.get_insert_if by done. case_decide; [|apply Hpath]. intros [= <-]. done.
Qed.

Lemma local_subscribe_ok {E} l path arguments :
  LocalOk l -> exists l' m s, local_subscribe (E := E) l path arguments = Ret (l', (m, s)) /\ local_step l l' (option_list m) /\
    is_Some (BTreeMap.get s (subscribers (latest_results l'))).
Proof.
  intros Hl. unfold local_subscribe. destruct (BTreeMap.get (path, arguments) (query_set l)) as [lq|] eqn:Hlq.
  - destruct (subscribe_existing _ _ _ _ Hl Hlq) as [Hs Hl']. cbn [lq_id subscription_index]. unfold add_subscriber. rewrite Hs. cbn [rassert obind].
    eexists _, _, _. split; [done|]. split; [|cbn; rewrite BTreeMap.get_insert_eq by apply Hl; eauto].
    split_and!; [done|done|cbn; lia|done|cbn; by left|constructor].
  - destruct (subscribe_new _ _ _ Hl Hlq) as [Hs Hl']. cbn [rassert obind]. unfold add_subscriber. rewrite Hs. cbn [rassert obind].
    eexists _, _, _. split; [done|]. split; [|cbn; rewrite BTreeMap.get_insert_eq by apply Hl; eauto].
    assert (next_query_id l ∉ local_ids l) as Hnew by (rewrite elem_of_local_ids by done; intros ?%(lo_next _ Hl); lia).
    split_and!; [done| |cbn; lia|done| |].
    + cbn [option_list expect_msgs expect_msg local_view snd cv_query_set query_set_version]. rewrite Z.eqb_refl, (proj2 (Z.ltb_lt _ _)) by lia.
      cbn [andb track track_mod query_id fst]. rewrite decide_False by done. cbn. unfold local_view. cbn [query_set_version identity_version]. do 2 f_equal.
      apply set_eq. intros id.
      rewrite elem_of_union, elem_of_singleton, !elem_of_local_ids by done. cbn [query_id_to_token]. rewrite BTreeMap.get_insert_if by apply Hl. case_decide; naive_solver.
    + intros id tok. cbn [query_id_to_token]. rewrite BTreeMap.get_insert_if by apply Hl. case_decide; [by right|by left].
    + constructor; [|constructor]. intros q [= ->]%list_elem_of_singleton. split; cbn; [lia|]. rewrite BTreeMap.get_insert_eq by apply Hl. by intros tok [= <-].
Qed.

(** Removing one of several subscribers of a query, or the last. *)
Lemma unsubscribe_keeps l id k tok lq :
  LocalOk l -> is_Some (BTreeMap.get (id, k) (subscribers (latest_results l))) ->
  BTreeMap.get id (query_id_to_token l) = Some tok -> BTreeMap.get tok (query_set l) = Some lq -> 1 < num_subscribers lq ->
  LocalOk (MkLocal (next_query_id l) (query_set_version l)
    (BTreeMap.insert tok (MkLocalQuery (lq_id lq) (lq_path lq) (lq_args lq) (num_subscribers lq - 1) (subscription_index lq)) (query_set l))
    (query_id_to_token l) (MkQueryResults (results (latest_results l)) (BTreeMap.remove (id, k) (subscribers (latest_results l)))) (auth_token l) (identity_version l)).
Proof.
  intros [Hws Hwt Hwsub Htok Hset Hsubs Hnext Hpath] Hs Ht Hlq Hnum. destruct (Htok _ _ Ht) as (lq0 & Hlq0 & Hid). assert (lq0 = lq) as -> by congruence.
  split; cbn [query_set query_id_to_token latest_results next_query_id subscribers]; [by apply BTreeMap.wf_insert|done|by apply BTreeMap.wf_remove|..].
  - intros id' tok' Ht'. rewrite BTreeMap.get_insert_if by done. case_decide; [|by apply Htok]. subst tok'.
    destruct (Htok _ _ Ht') as (lq2 & Hq & <-). assert (lq2 = lq) as -> by congruence. eauto.
  - intros tok' lq2. rewrite BTreeMap.get_insert_if, count_remove by done. cbn [fst]. case_decide as Htk.
    + intros [= <-]. subst tok'. cbn. rewrite decide_True by done. destruct (Hset _ _ Hlq) as [? ?]. split; [done|lia].
    + intros Hq. destruct (Hset _ _ Hq) as [Hid' Hnum']. rewrite decide_False by (intros Heq; rewrite Heq in Hid'; congruence). split; [done|lia].
  - intros id' k' [v Hk]. apply BTreeMap.get_remove_Some in Hk; [|done]. destruct (Hsubs id' k') as (tok' & lq2 & Ht' & Hq & Hk'); [eauto|].
    exists tok'. rewrite BTreeMap.get_insert_if by done. case_decide; [subst tok'|eauto]. eexists. split_and!; [done..|]. assert (lq2 = lq) as -> by congruence. done.
  - done.
  - intros tok' lq2. rewrite BTreeMap.get_insert_if by done. case_decide; [|apply Hpath]. intros [= <-]. subst tok'. by rewrite (Hpath _ _ Hlq).
Qed.

Lemma unsubscribe_last l id k tok lq :
  LocalOk l -> is_Some (BTreeMap.get (id, k) (subscribers (latest_results l))) ->
  BTreeMap.get id (query_id_to_token l) = Some tok -> BTreeMap.get tok (query_set l) = Some lq -> num_subscribers lq <= 1 ->
  LocalOk (MkLocal (next_query_id l) (query_set_version l + 1) (BTreeMap.remove tok (query_set l)) (BTreeMap.remove id (query_id_to_token l))
    (MkQueryResults (results (latest_results l)) (BTreeMap.remove (id, k) (subscribers (latest_results l)))) (auth_token l) (identity_version l)).
Proof.
  intros [Hws Hwt Hwsub Htok Hset Hsubs Hnext Hpath] Hs Ht Hlq Hnum. destruct (Htok _ _ Ht) as (lq0 & Hlq0 & Hid). assert (lq0 = lq) as -> by congruence.
  destruct (Hset _ _ Hlq) as [_ Hcount]. rewrite Hid in Hcount.
  split; cbn [query_set query_id_to_token latest_results next_query_id subscribers]; try by apply BTreeMap.wf_remove.
  - intros id' tok' Ht'. destruct (decide (id' = id)) as [->|Hne]; [by rewrite BTreeMap.get_remove_eq in Ht'|]. rewrite BTreeMap.get_remove_ne in Ht' by done.
    destruct (Htok _ _ Ht') as (lq2 & Hq & Hid2). exists lq2. rewrite BTreeMap.get_remove_ne; [done|done|]. intros ->. congruence.
  - intros tok' lq2 Hq. destruct (decide (tok' = tok)) as [->|Hne]; [by rewrite BTreeMap.get_remove_eq in Hq|]. rewrite BTreeMap.get_remove_ne in Hq by done.
    destruct (Hset _ _ Hq) as [Hid2 Hn2]. assert (lq_id lq2 <> id) by congruence. rewrite BTreeMap.get_remove_ne, count_remove by done. cbn [fst].
    rewrite decide_False by done. split; [done|lia].
  - intros id' k' Hk. assert (id' <> id) as Hne.
    { intros ->. assert (count id (BTreeMap.remove (id, k) (subscribers (latest_results l))) = count id (subscribers (latest_results l)) - 1) as Hc.
      { rewrite count_remove by done. cbn [fst]. by rewrite decide_True. }
      pose proof (count_pos _ _ _ Hk). lia. }
    destruct Hk as [v Hk]. apply BTreeMap.get_remove_Some in Hk; [|done]. destruct (Hsubs id' k') as (tok' & lq2 & Ht' & Hq & Hk'); [eauto|].
    exists tok', lq2. rewrite !BTreeMap.get_remove_ne; [done..|intros ->; destruct (Htok _ _ Ht') as (? & ? & ?); congruence|done|done].
  - intros id' [t Ht']. apply BTreeMap.get_remove_Some in Ht'; [|done]. eauto.
  - intros tok' lq2 ?%BTreeMap.get_remove_Some; [by apply Hpath|done].
Qed.

Lemma local_unsubscribe_ok {E} l s :
  LocalOk l -> is_Some (BTreeMap.get s (subscribers (latest_results l))) ->
  exists l' m, remove_subscriber (E := E) l s = Ret (l', m) /\ local_step l l' (option_list m).
Proof.
  destruct s as [id k]. intros Hl Hs. destruct (lo_subs _ Hl _ _ Hs) as (tok & lq & Ht & Hlq & _).
  unfold remove_subscriber. pose proof Hs as [v ->]. cbn [expect obind fst]. rewrite Ht. cbn [expect obind]. rewrite Hlq. cbn [expect obind].
  destruct (1 <? num_subscribers lq) eqn:Hn; bool_hyps; eexists _, _; (split; [done|]).
  - split_and!; [by apply unsubscribe_keeps|done|cbn; lia|done|cbn; by left|constructor].
  - pose proof (unsubscribe_last _ _ _ _ _ Hl Hs Ht Hlq Hn) as Hl'.
    assert (id ∈ local_ids l) as Hin by (rewrite elem_of_local_ids by done; eauto).
    split_and!; [done| |cbn; lia|done| |].
    + cbn [option_list expect_msgs expect_msg local_view snd cv_query_set query_set_version]. rewrite Z.eqb_refl, (proj2 (Z.ltb_lt _ _)) by lia.
      cbn [andb track track_mod fst]. rewrite decide_True by done. cbn. unfold local_view. cbn [query_set_version identity_version]. do 2 f_equal.
      apply set_eq. intros id'. rewrite elem_of_difference, elem_of_singleton, !elem_of_local_ids by done. cbn [query_id_to_token].
      destruct (decide (id' = id)) as [->|Hne]; [rewrite BTreeMap.get_remove_eq by apply Hl; split; [naive_solver|by intros []]|].
      rewrite BTreeMap.get_remove_ne by (apply Hl || done). naive_solver.
    + intros id' t Ht'. left. apply BTreeMap.get_remove_Some in Ht'; [done|apply Hl].
    + constructor; [|constructor]. by intros q ?%list_elem_of_singleton.
Qed.

Lemma local_same l l' :
  next_query_id l' = next_query_id l -> query_set l' = query_set l -> query_id_to_token l' = query_id_to_token l ->
  subscribers (latest_results l') = subscribers (latest_results l) -> LocalOk l -> LocalOk l'.
Proof. intros Hn Hq Ht Hs []. split; rewrite ?Hn, ?Hq, ?Ht, ?Hs; done. Qed.

Lemma local_set_auth_ok l token : LocalOk l -> let r := local_set_auth l token in local_step l r.1 [r.2].
Proof.
  intros Hl. split_and!; cbn; [by eapply local_same; [..|exact Hl]| |lia|done|by left|].
  - by rewrite Z.eqb_refl.
  - constructor; [|constructor]. by intros q ?%elem_of_nil.
Qed.

(** Adding queries of distinct ids. *)
Lemma track_add (qs : list Query) (S : gset Z) :
  NoDup (map query_id qs) -> (forall id, id ∈ map query_id qs -> id ∉ S) -> track (map AddQuery qs) S = Some (list_to_set (map query_id qs) ∪ S).
Proof.
  revert S. induction qs as [|q qs IH]; intros S Hnd Hdis; cbn [map track]; [f_equal; set_solver|]. apply NoDup_cons in Hnd as [Hn Hnd].
  unfold track_mod at 1. rewrite decide_False by (apply Hdis; left). cbn [mbind option_bind]. rewrite IH; [f_equal; set_solver|done|]. intros id Hid. set_solver.
Qed.

Lemma local_restart_ok l :
  LocalOk l -> let r := local_restart l in
  LocalOk r.1 /\ expect_msgs r.2 (∅, MkClientVersion 0 0) = Some (local_view r.1) /\ next_query_id r.1 = next_query_id l /\
  results (latest_results r.1) = results (latest_results l) /\ local_ids r.1 = local_ids l /\
  query_id_to_token r.1 = query_id_to_token l /\ Forall (fun m => adds_hold (query_ok l) (mods_of m)) r.2.
Proof.
  intros Hl. set (qs := map (fun e : (list Z * list Z) * LocalQuery => MkQuery (lq_id e.2) (lq_path e.2) (lq_args e.2) None None) (query_set l)).
  assert (map (fun e : (list Z * list Z) * LocalQuery => AddQuery (MkQuery (lq_id e.2) (lq_path e.2) (lq_args e.2) None None)) (query_set l) = map AddQuery qs) as Hmods.
  { subst qs. by rewrite map_map. }
  assert (map query_id qs = map (fun e : (list Z * list Z) * LocalQuery => lq_id e.2) (query_set l)) as Hqs by (subst qs; by rewrite map_map).
  assert (forall id, id ∈ map query_id qs <-> id ∈ local_ids l) as Hids.
  { intros id. rewrite Hqs, elem_of_local_ids by done. split.
    - intros ([tok lq] & -> & Hin%BTreeMap.elem_of_get)%list_elem_of_fmap; [|apply Hl]. destruct (lo_set _ Hl _ _ Hin) as [? _]. eauto.
    - intros [tok Ht]. destruct (lo_token _ Hl _ _ Ht) as (lq & Hq & <-). apply list_elem_of_fmap. exists (tok, lq). split; [done|]. by apply BTreeMap.elem_of_get; [apply Hl|]. }
  assert (track (map AddQuery qs) ∅ = Some (local_ids l)) as Htrack.
  { rewrite track_add; [f_equal; apply set_eq; intros id; rewrite elem_of_union, elem_of_list_to_set, Hids; set_solver| |set_solver]. rewrite Hqs. apply NoDup_fmap_2_strong.
    - intros [t1 q1] [t2 q2] H1 H2 Heq. apply BTreeMap.elem_of_get in H1, H2; [|apply Hl..]. cbn in Heq.
      destruct (lo_set _ Hl _ _ H1) as [Ht1 _], (lo_set _ Hl _ _ H2) as [Ht2 _]. assert (t1 = t2) as -> by congruence. congruence.
    - apply NoDup_fmap_1 with (f := fst), BTreeMap.wf_NoDup_fst, Hl. }
  assert (adds_hold (query_ok l) (map AddQuery qs)) as Hadd.
  { intros q (q' & [= <-] & Hin)%list_elem_of_fmap. subst qs. apply list_elem_of_fmap in Hin as ([tok lq] & -> & Hin%BTreeMap.elem_of_get); [|apply Hl].
    destruct (lo_set _ Hl _ _ Hin) as [Ht _]. split; cbn; [apply (lo_next _ Hl); eauto|]. rewrite Ht. intros t [= <-]. by apply (lo_path _ Hl). }
  unfold local_restart. rewrite Hmods. destruct (auth_token l) as [t|]; cbn [fst snd]; split_and!; try done.
  - by eapply local_same; [..|exact Hl].
  - cbn -[track map]. rewrite Htrack. done.
  - repeat (constructor; [done || by intros q ?%elem_of_nil|]); constructor.
  - by eapply local_same; [..|exact Hl].
  - cbn -[track map]. rewrite Htrack. done.
  - repeat (constructor; [done || by intros q ?%elem_of_nil|]); constructor.
Qed.

(** ** The queries the server knows of *)

Section entries.
Context {K V : Type} `{OrdLaws K}.

Lemma insert_elem (k : K) (v : V) (m : BTreeMap.t K V) e : e ∈ BTreeMap.insert k v m -> e = (k, v) \/ e ∈ m.
Proof.
  induction m as [|[k' v'] m IH]; cbn [BTreeMap.insert]; [set_solver|]. destruct (cmp k k'); rewrite ?elem_of_cons; [naive_solver..|].
  intros [->|[->|?]%IH]; auto.
Qed.

Lemma remove_elem (k : K) (m : BTreeMap.t K V) e : e ∈ BTreeMap.remove k m -> e ∈ m.
Proof. induction m as [|[k' v'] m IH]; cbn [BTreeMap.remove]; [done|]. destruct (k ==? k'); rewrite ?elem_of_cons; naive_solver. Qed.

Lemma entry_of_get (k : K) (v : V) (m : BTreeMap.t K V) : BTreeMap.get k m = Some v -> exists k', (k', v) ∈ m.
Proof.
  induction m as [|[k' v'] m IH]; cbn [BTreeMap.get]; [done|]. destruct (k ==? k'); [intros [= <-]; exists k'; left|].
  intros [k2 ?]%IH. exists k2. by right.
Qed.
End entries.

Section known.
Context {Identity Subscription Token : Type}.
Context (sha256 : list Z -> list Z) (is_expired : Identity -> Z -> bool).
Context (P : Query -> Prop) (HP : forall q j, P q -> P (with_journal q j)).

(** Every query of the state satisfies [P]. *)
Record Holds (st : @SyncState Identity Subscription) : Prop := {
  holds_pending : adds_hold P (pending_query_updates st);
  holds_in_progress : forall id q, (id, q) ∈ in_progress_queries st -> P q;
  holds_queries : forall id sq, (id, sq) ∈ queries st -> P (sq_query sq);
}.

Lemma holds_modify (st : @SyncState Identity Subscription) M m st' M' :
  Holds st -> adds_hold P [m] -> apply_modification (st, M) m = Ret (st', M') -> Holds st'.
Proof.
  intros [Hp Hi Hq] Hm. destruct m as [q|id]; cbn [apply_modification fst snd]; intros Hr.
  - unfold insert_query in Hr. destruct_outcome. split; [done| |done]. cbn. intros id q' [[= -> ->]|?]%insert_elem; [apply Hm; left|eauto].
  - unfold remove_query in Hr. destruct (BTreeMap.get id (queries st)); [|destruct (BTreeMap.get id (in_progress_queries st)); [|done]]; injection Hr as <- <-; (split; [done|..]); cbn.
    + done.
    + intros id' sq' ?%remove_elem. eauto.
    + intros id' q' ?%remove_elem. eauto.
    + done.
Qed.

Lemma holds_modifies mods (st : @SyncState Identity Subscription) M st' M' :
  Holds st -> adds_hold P mods -> foldM apply_modification (st, M) mods = Ret (st', M') -> Holds st'.
Proof.
  revert st M. induction mods as [|m mods IH]; intros st M Hst Hm Hr; cbn [foldM] in Hr; [by injection Hr as <- <-|].
  destruct (apply_modification (st, M) m) as [[st1 M1]| |] eqn:H1; try done. apply (IH st1 M1); [|intros q ?; apply Hm; by right|done].
  eapply holds_modify; [done| |done]. intros q <-%list_elem_of_singleton. apply Hm. left.
Qed.

Lemma holds_take (st : @SyncState Identity Subscription) : Holds st -> Holds (take_subscriptions st).1.
Proof. intros [Hp Hi Hq]. split; cbn; [done..|]. intros id sq ([id' sq'] & [= -> ->] & Hin)%list_elem_of_fmap. cbn. eauto. Qed.

Lemma holds_begin (st : @SyncState Identity Subscription) new_ts now st' p :
  Holds st -> begin_update_queries is_expired st new_ts now = Ret (st', p) -> Holds st'.
Proof.
  intros Hst H. unfold begin_update_queries in H. set (st0 := (take_modifications st).1) in H.
  assert (Holds st0) as Hst0 by (destruct Hst; by split; [intros ? ?%elem_of_nil|..]).
  change (take_modifications st) with (st0, (take_modifications st).2) in H. cbn [take_modifications snd] in H.
  set (x := match pending_identity st with Some _ => _ | None => _ end) in H. destruct x as [st1 iv] eqn:Hx.
  assert (Holds st1) as Hst1.
  { subst x. destruct (pending_identity st); injection Hx as <- <-; [|done]. destruct (holds_take _ Hst0). by split. }
  destruct (current_identity is_expired st1 now) as [i| |]; try done. cbn [obind] in H.
  destruct (foldM apply_modification (st1, []) (pending_query_updates st)) as [[st2 M2]| |] eqn:Hm; try done. cbn [obind] in H.
  injection H as <- _. eapply holds_take, holds_modifies; [exact Hst1|apply Hst|exact Hm].
Qed.

Lemma holds_result (st : @SyncState Identity Subscription) M r st' M' : Holds st -> apply_result sha256 (st, M) r = Ret (st', M') -> Holds st'.
Proof.
  intros [Hp Hi Hq] H. destruct r as [[id [res l j| |]] s]; cbn [apply_result fst snd] in H; [|done|].
  - destruct (complete_fetch sha256 st id res l j s) as [[st1 m]| |] eqn:Hc; try done. injection H as <- <-. unfold complete_fetch in Hc.
    destruct (start_synced st id) as [st0| |] eqn:Hs; try done. cbn [obind] in Hc.
    assert (Holds st0) as [Hp0 Hi0 Hq0].
    { unfold start_synced in Hs. destruct (BTreeMap.get id (in_progress_queries st)) as [q|] eqn:Hg; [|injection Hs as <-; by split].
      destruct_outcome. destruct (entry_of_get _ _ _ Hg) as [k Hk]. split; cbn; [done|intros ?? ?%remove_elem; eauto|].
      intros ? sq [[= -> ->]|?]%insert_elem; [by eapply Hi|by eapply Hq]. }
    destruct (BTreeMap.get id (queries st0)) as [sq|] eqn:Hg; [|done]. destruct (entry_of_get _ _ _ Hg) as [k Hk]. cbn [ok_or obind] in Hc. destruct_outcome.
    split; cbn; [done..|]. intros ? sq' [[= -> ->]|?]%insert_elem; [cbn; by eapply HP, Hq0|by eapply Hq0].
  - destruct (refill_subscription st id s) as [st1| |] eqn:Hc; try done. injection H as <- <-. unfold refill_subscription in Hc.
    destruct (BTreeMap.get id (queries st)) as [sq|] eqn:Hg; [|done]. destruct (entry_of_get _ _ _ Hg) as [k Hk]. cbn [ok_or obind] in Hc. destruct_outcome.
    split; cbn; [done..|]. intros ? sq' [[= -> ->]|?]%insert_elem; [cbn; by eapply Hq|by eapply Hq].
Qed.

Lemma holds_finish (st : @SyncState Identity Subscription) t st' tr : Holds st -> finish_update_queries sha256 st t = Ret (st', tr) -> Holds st'.
Proof.
  intros Hst H. unfold finish_update_queries in H.
  destruct (foldM _ _ _) as [[st1 M1]| |] eqn:Hf; try done. cbn [obind] in H.
  assert (Holds st1) as [Hp Hi Hq].
  { revert Hst Hf. generalize (ts_modifications t). generalize (udf_results t). intros rs. revert st. induction rs as [|r rs IH]; intros st M Hst Hf; [by injection Hf as <- <-|].
    cbn [foldM] in Hf. destruct (apply_result sha256 (st, M) r) as [[st2 M2]| |] eqn:Hr; try done. apply (IH st2 M2); [by eapply holds_result|done]. }
  unfold fill_invalidation_futures in H. destruct (fill_futures _ _ _) as [[[qs fs] n]| |] eqn:Hfill; try done. cbn [obind] in H.
  unfold advance_version in H. destruct_outcome. split; cbn; [done..|]. intros id sq' [k Hk]%list_elem_of_lookup.
  destruct (Forall2_lookup_r _ _ _ _ _ (fill_futures_entries _ _ _ _ _ _ Hfill) Hk) as ([id' sq] & Hk' & _ & ((Hsq & _) & _)). cbn in Hsq. rewrite Hsq.
  apply (Hq id'). by eapply list_elem_of_lookup_2.
Qed.

Lemma holds_invalidated (st : @SyncState Identity Subscription) h st' o : Holds st -> next_invalidated_query st h = Some (st', o) -> Holds st'.
Proof.
  intros [Hp Hi Hq] H. unfold next_invalidated_query in H. destruct (refill_needed st); [done|]. destruct (find _ _) as [[h' id]|]; [|done].
  case_bool_decide; injection H as <- <-; (split; cbn; [done..|]); [done|]. destruct (BTreeMap.get id (queries st)) as [sq|] eqn:Hg; [|done].
  destruct (entry_of_get _ _ _ Hg) as [k Hk]. intros ? sq' [[= -> ->]|?]%insert_elem; [cbn; by eapply Hq|by eapply Hq].
Qed.

Lemma holds_step (w : @Worker Identity Subscription) (e : @event Identity Subscription Token) w' :
  Holds (state w) -> match e with ModifyQuerySet _ _ mods => adds_hold P mods | _ => True end -> handle sha256 is_expired w e = Ret w' -> Holds (state w').
Proof.
  intros Hst He H. unfold handle in H. destruct (match e with BeginTransition _ _ => Ret tt | _ => validate (state w) end); try done. cbn [obind] in H.
  destruct e as [base new mods|i base|h| | |new_ts now|api order].
  - unfold modify_query_set in H. destruct_outcome. destruct Hst as [Hp Hi Hq]. split; cbn; [|done..]. intros q [?|?]%elem_of_app; auto.
  - unfold modify_identity in H. destruct_outcome. by destruct Hst.
  - destruct (next_invalidated_query (state w) h) as [[st' o]|] eqn:Hn; [|by injection H as <-].
    assert (Holds st') by (by eapply holds_invalidated). by destruct o; injection H as <-.
  - by injection H as <-.
  - by destruct (retry_scheduled w); injection H as <-.
  - destruct (update_scheduled w && _); [|by injection H as <-].
    destruct (begin_update_queries is_expired (state w) new_ts now) as [[st' p]| |] eqn:Hb; try done. injection H as <-. by eapply holds_begin.
  - destruct (transition_future w) as [p|]; [|by injection H as <-]. destruct (run_transition api p order) as [t| |]; try done. cbn [obind] in H.
    destruct (finish_update_queries sha256 (state w) t) as [[st' tr]| |] eqn:Hf; try done. injection H as <-. by eapply holds_finish.
Qed.
End known.

(** ** The results that are shown *)

Lemma get_bfilter {V} (p : Z * V -> bool) (m : BTreeMap.t Z V) id v :
  BTreeMap.wf m -> BTreeMap.get id (bfilter p m) = Some v <-> BTreeMap.get id m = Some v /\ p (id, v) = true.
Proof. intros Hm. rewrite !BTreeMap.elem_of_get by (done || by apply BTreeMap.wf_bfilter). apply elem_of_bfilter. Qed.

Lemma fold_insert_get {V} (changed m : BTreeMap.t Z V) :
  BTreeMap.wf changed -> BTreeMap.wf m ->
  let m' := fold_left (fun m (e : Z * V) => BTreeMap.insert e.1 e.2 m) changed m in
  BTreeMap.wf m' /\ forall id, BTreeMap.get id m' = match BTreeMap.get id changed with Some f => Some f | None => BTreeMap.get id m end.
Proof.
  revert m. induction changed as [|[k v] changed IH]; intros m Hc Hm; [done|]. destruct Hc as [Hlt Hc]. cbn [fold_left fst snd].
  destruct (IH (BTreeMap.insert k v m) Hc) as [Hwf Hget]; [by apply BTreeMap.wf_insert|]. split; [done|]. intros id. rewrite Hget.
  cbn [BTreeMap.get]. rewrite BTreeMap.get_insert_if by done. destruct (id ==? k) eqn:E.
  - apply (proj1 (Ord.eqb_eq _ _)) in E. subst. rewrite decide_True by done. replace (BTreeMap.get k changed) with (@None V); [done|].
    symmetry. apply BTreeMap.get_None. intros v' Hin. by apply (Ord.olt_irrefl k), (Hlt (k, v')).
  - apply Ord.eqb_neq in E. by rewrite decide_False.
Qed.

(** The results shown contain those last received for the query set. *)
Record ShownOk (c : BaseConvexClient) : Prop := {
  shown_wf : BTreeMap.wf (results (latest_results (local c)));
  optimistic_wf : BTreeMap.wf (optimistic_query_results c);
  optimistic_shown : forall id f, BTreeMap.get id (optimistic_query_results c) = Some f -> BTreeMap.get id (results (latest_results (local c))) = Some f;
  remote_wf : BTreeMap.wf (remote_query_set (remote c));
  remote_optimistic : forall id f, id ∈ local_ids (local c) -> BTreeMap.get id (remote_query_set (remote c)) = Some f ->
    BTreeMap.get id (optimistic_query_results c) = Some f;
}.

Definition is_request (m : ClientMessage) : Prop := match m with CMutation _ _ _ | CAction _ _ _ => True | _ => False end.

Definition request_ok (r : Request) : Prop :=
  is_request (message r) /\ ((status r = Completed \/ is_Some (request_ts r)) -> is_Some (request_value r)).

Definition RequestsOk (m : BTreeMap.t Z Request) : Prop := BTreeMap.wf m /\ forall id r, BTreeMap.get id m = Some r -> request_ok r.

Lemma in_query_set_ids l id : LocalOk l -> in_query_set l id = true <-> id ∈ local_ids l.
Proof.
  intros Hl. rewrite elem_of_local_ids by done. unfold in_query_set. destruct (BTreeMap.get id (query_id_to_token l)) as [tok|] eqn:Ht.
  - destruct (lo_token _ Hl _ _ Ht) as (lq & -> & _). cbn. split; eauto.
  - by split; [|intros []].
Qed.

Lemma notify_requests_ok {E} ids m ns :
  NoDup ids -> RequestsOk m -> (forall id, id ∈ ids -> exists r, BTreeMap.get id m = Some r /\ is_Some (request_value r)) ->
  exists m' ns', foldM (fun (st : BTreeMap.t Z Request * list (Z * FunctionResult)) id => let? (self, n) := notify_completed st.1 id in Ret (self, st.2 ++ [n])) (m, ns) ids
    = Ret (E := E) (m', ns') /\ RequestsOk m'.
Proof.
  revert m ns. induction ids as [|id ids IH]; intros m ns Hnd Hm Hall; [by exists m, ns|]. apply NoDup_cons in Hnd as [Hn Hnd].
  destruct (Hall id) as (r & Hr & [v Hv]); [left|]. cbn [foldM fst snd]. unfold notify_completed at 1. rewrite Hr. cbn [expect obind]. rewrite Hv. cbn [expect obind].
  destruct Hm as [Hwf Hok]. apply IH; [done| |].
  - split; [by apply BTreeMap.wf_remove|]. intros id' r' ?%BTreeMap.get_remove_Some; [by eapply Hok|done].
  - intros id' Hin. rewrite BTreeMap.get_remove_ne; [apply Hall; by right|done|]. intros ->. done.
Qed.

Lemma remove_completed_ok {E} m ts :
  RequestsOk m -> exists m' ns, remove_and_notify_completed (E := E) m ts = Ret (m', ns) /\ RequestsOk m'.
Proof.
  intros Hm. pose proof Hm as [Hwf Hok]. apply notify_requests_ok; [by apply BTreeMap.wf_NoDup_fst, BTreeMap.wf_bfilter|done|].
  intros id ([id' r] & -> & [Hin Hc]%elem_of_bfilter)%list_elem_of_fmap. apply BTreeMap.elem_of_get in Hin; [|done]. exists r. split; [done|]. apply (Hok _ _ Hin).
  unfold is_completed in Hc. cbn [snd] in Hc. apply orb_true_iff in Hc as [Hc|Hc]; [left; by apply bool_decide_eq_true in Hc|right]. destruct (request_ts r); [eauto|done].
Qed.

Lemma apply_modifications_wf mods c : BTreeMap.wf c -> BTreeMap.wf (fold_left apply_state_modification mods c).
Proof. revert c. induction mods as [|m mods IH]; intros c Hc; [done|]. apply IH, (apply_modification_get c m 0 Hc). Qed.

Lemma receive_transition_ok c t :
  LocalOk (local c) -> ShownOk c -> RequestsOk (request_manager c) -> start_version t = version (remote c) ->
  exists c', receive_transition c t = Ret c' /\ LocalOk (local c') /\ ShownOk c' /\ RequestsOk (request_manager c') /\
    local_view (local c') = local_view (local c) /\ query_id_to_token (local c') = query_id_to_token (local c) /\
    next_query_id (local c') = next_query_id (local c) /\
    outgoing_message_queue c' = outgoing_message_queue c /\ transition (remote c) t = Ret (remote c').
Proof.
  intros Hl [Hsw How Hos Hrw Hro] Hreq Hv. unfold receive_transition, transition. rewrite bool_decide_true by done. cbn [ensure obind].
  destruct (remove_completed_ok (E := reconnect_reason) (request_manager c) (v_ts (end_version t)) Hreq) as (m' & ns & -> & Hreq'). cbn [obind].
  eexists. split; [done|]. cbn [local remote request_manager outgoing_message_queue]. split_and!; try done; [by eapply local_same; [..|exact Hl]|].
  set (rs := fold_left _ _ _). assert (BTreeMap.wf rs) as Hrs by by apply apply_modifications_wf.
  set (server := bfilter (fun e : Z * FunctionResult => in_query_set (local c) e.1) rs). assert (BTreeMap.wf server) as Hserver by by apply BTreeMap.wf_bfilter.
  set (changed := ingest_query_results (optimistic_query_results c) server). assert (BTreeMap.wf changed) as Hch by by apply BTreeMap.wf_bfilter.
  destruct (fold_insert_get changed (results (latest_results (local c))) Hch Hsw) as [Hwf Hget]. split; cbn [local remote optimistic_query_results remote_query_set]; [done|done| |done|].
  - intros id f Hf. change (BTreeMap.get id server = Some f) in Hf. cbn. rewrite Hget. destruct (BTreeMap.get id changed) as [g|] eqn:Hg.
    + apply get_bfilter in Hg as [Hg _]; [|done]. congruence.
    + destruct (BTreeMap.get id (optimistic_query_results c)) as [g|] eqn:Ho.
      * destruct (decide (g = f)) as [->|Hne]; [by apply Hos|]. exfalso.
        assert (BTreeMap.get id changed = Some f) as Hc; [|congruence]. apply get_bfilter; [done|]. cbn [fst snd]. rewrite Ho, bool_decide_false by done. done.
      * exfalso. assert (BTreeMap.get id changed = Some f) as Hc; [|congruence]. apply get_bfilter; [done|]. cbn [fst snd]. by rewrite Ho.
  - intros id f Hid Hf. apply get_bfilter; [done|]. split; [done|]. cbn [fst]. by apply in_query_set_ids.
Qed.

(** ** The system *)

Section system.
Context {Identity Subscription Token : Type}.
Context (sha256 : list Z -> list Z) (is_expired : Identity -> Z -> bool).
Context (db : Identity -> Query -> Timestamp -> (list Z + RedactedJsError) * list (list Z)).
Context (watches : Subscription -> Identity -> Query -> Timestamp -> Prop).
Context (authenticate : option (list Z) -> Identity).

(** A client, the worker of its connection, and how many of the worker's
    transitions it has received. *)
Record System := MkSystem {
  client : BaseConvexClient;
  worker : @Worker Identity Subscription;
  received : nat;
}.

(** [handle_message]; a mutation or an action runs apart, for the identity. *)
Definition deliver (w : @Worker Identity Subscription) (m : ClientMessage) (now : Z) : outcome sync_error (@Worker Identity Subscription) :=
  match m with
  | CModifyQuerySet base new mods => handle (Token := Token) sha256 is_expired w (ModifyQuerySet base new mods)
  | CAuthenticate base token => handle (Token := Token) sha256 is_expired w (Authenticated (authenticate token) base)
  | CMutation _ _ _ | CAction _ _ _ => let? _ := current_identity is_expired (state w) now in Ret w
  end.

(** The turns of the worker that are not messages. *)
Definition own_turn (e : @event Identity Subscription Token) : Prop :=
  match e with ModifyQuerySet _ _ _ | Authenticated _ _ => False | _ => True end.

Inductive sys_step : System -> System -> Prop :=
| sys_subscribe sys path arguments c s : client_subscribe (E := reconnect_reason) (client sys) path arguments = Ret (c, s) ->
    sys_step sys (MkSystem c (worker sys) (received sys))
| sys_unsubscribe sys s c : client_unsubscribe (E := reconnect_reason) (client sys) s = Ret c ->
    sys_step sys (MkSystem c (worker sys) (received sys))
| sys_set_auth sys token : sys_step sys (MkSystem (client_set_auth (client sys) token) (worker sys) (received sys))
| sys_request sys t path arguments : sys_step sys (MkSystem (client_request (client sys) t path arguments) (worker sys) (received sys))
| sys_send sys c m w now : pop_next_message (client sys) = (c, Some m) -> deliver (worker sys) m now = Ret w ->
    sys_step sys (MkSystem c w (received sys))
| sys_turn sys e w : own_turn e -> legal db watches (worker sys) e -> orderly is_expired (worker sys) e -> handle sha256 is_expired (worker sys) e = Ret w ->
    sys_step sys (MkSystem (client sys) w (received sys))
| sys_receive sys t c : sent (worker sys) !! received sys = Some t -> receive_transition (client sys) t = Ret c ->
    sys_step sys (MkSystem c (worker sys) (S (received sys)))
| sys_response sys t id value ts c : receive_response (client sys) t id value ts = Ret c ->
    sys_step sys (MkSystem c (worker sys) (received sys))
| sys_reconnect sys unknown : outgoing_message_queue (client sys) = [] ->
    sys_step sys (MkSystem (resend_ongoing_queries_mutations (client sys)) (worker_new unknown) 0).

Inductive sys_reachable : System -> Prop :=
| sys_start unknown : sys_reachable (MkSystem client_new (worker_new unknown) 0)
| sys_more sys sys' : sys_reachable sys -> sys_step sys sys' -> sys_reachable sys'.

(** The invariant. *)
Record SysOk (sys : System) : Prop := {
  so_local : LocalOk (local (client sys));
  so_shown : ShownOk (client sys);
  so_requests : RequestsOk (request_manager (client sys));
  so_session : session (Token := Token) sha256 is_expired db watches (worker sys);
  so_live : Live (worker sys);
  so_link : exists S, asked (state (worker sys)) = Some S /\
    expect_msgs (outgoing_message_queue (client sys)) (S, received_client_version (state (worker sys))) = Some (local_view (local (client sys)));
  so_remote : foldM transition remote_new (take (received sys) (sent (worker sys))) = Ret (remote (client sys));
  so_count : (received sys <= length (sent (worker sys)))%nat;
  so_queue : Forall (fun m => adds_hold (query_ok (local (client sys))) (mods_of m)) (outgoing_message_queue (client sys));
  so_holds : Holds (query_ok (local (client sys))) (state (worker sys));
  so_past : forall k r id, foldM transition remote_new (take k (sent (worker sys))) = Ret r -> is_Some (BTreeMap.get id (remote_query_set r)) ->
    id < next_query_id (local (client sys));
}.

Lemma query_ok_step l l' ms q : local_step l l' ms -> query_ok l q -> query_ok l' q.
Proof.
  intros (_ & _ & Hn & _ & Htok & _) [Hlt Hq]. split; [lia|]. intros tok Ht. destruct (Htok _ _ Ht) as [?|?]; [by apply Hq|lia].
Qed.

Lemma adds_hold_mono (P Q : Query -> Prop) mods : (forall q, P q -> Q q) -> adds_hold P mods -> adds_hold Q mods.
Proof. intros H HP q Hq. apply H, HP, Hq. Qed.

Lemma holds_mono (P Q : Query -> Prop) (st : @SyncState Identity Subscription) : (forall q, P q -> Q q) -> Holds P st -> Holds Q st.
Proof. intros H [Hp Hi Hq]. split; [by eapply adds_hold_mono|eauto..]. Qed.

(** An operation of the client: its state, and the messages it adds. *)
Lemma sys_local sys l' ms rm nr nt :
  SysOk sys -> local_step (local (client sys)) l' ms -> RequestsOk rm ->
  (forall ms2, ms2 = outgoing_message_queue (client sys) ++ ms ->
    SysOk (MkSystem (MkClient l' (remote (client sys)) (optimistic_query_results (client sys)) rm nr ms2
      (max_observed_timestamp (client sys)) nt) (worker sys) (received sys))).
Proof.
  intros [Hl [Hsw How Hos Hrw Hro] Hreq Hses Hlive (S & HS & Hlink) Hrem Hcount Hqueue Hholds Hpast] Hstep Hrm ms2 ->.
  pose proof Hstep as (Hl' & Hexp & Hnext & Hres & Htok & Hadds).
  split; cbn [client worker received local remote optimistic_query_results request_manager outgoing_message_queue]; try done.
  - split; cbn [client worker received local remote optimistic_query_results request_manager outgoing_message_queue]; rewrite ?Hres; try done.
    intros id f Hid Hf. apply Hro; [|done]. rewrite elem_of_local_ids in Hid |- * by done. destruct Hid as [tok Ht]. destruct (Htok _ _ Ht) as [?| ->]; [eauto|].
    assert (next_query_id (local (client sys)) < next_query_id (local (client sys))); [|lia]. eapply Hpast; [exact Hrem|eauto].
  - exists S. split; [done|]. by rewrite expect_msgs_app, Hlink.
  - apply Forall_app. split; [|done]. eapply Forall_impl; [exact Hqueue|]. intros m. apply adds_hold_mono. intros q. by eapply query_ok_step.
  - eapply holds_mono; [|exact Hholds]. intros q. by eapply query_ok_step.
  - intros k r id H1 H2. specialize (Hpast k r id H1 H2). lia.
Qed.

Lemma handle_sent (w : @Worker Identity Subscription) (e : @event Identity Subscription Token) w' :
  handle sha256 is_expired w e = Ret w' -> sent w' = sent w \/ (exists t, sent w' = sent w ++ [t]) /\ transition_future w' = None.
Proof.
  unfold handle. intros H. destruct (match e with BeginTransition _ _ => Ret tt | _ => validate (state w) end); try done. cbn [obind] in H.
  destruct e as [base new mods|i base|h| | |new_ts now|api order].
  - destruct_outcome. by left.
  - destruct_outcome. by left.
  - destruct (next_invalidated_query (state w) h) as [[st' []]|]; injection H as <-; by left.
  - injection H as <-. by left.
  - destruct (retry_scheduled w); injection H as <-; by left.
  - destruct (update_scheduled w && _); [|injection H as <-; by left].
    destruct (begin_update_queries _ _ _ _) as [[st' p]| |]; try done. injection H as <-. by left.
  - destruct (transition_future w); [|injection H as <-; by left]. destruct (run_transition _ _ _); try done. cbn [obind] in H.
    destruct (finish_update_queries _ _ _) as [[st' tr]| |]; try done. injection H as <-. right. eauto.
Qed.

Definition with_queue (c : BaseConvexClient) (queue : list ClientMessage) : BaseConvexClient :=
  MkClient (local c) (remote c) (optimistic_query_results c) (request_manager c) (next_request_id c) queue (max_observed_timestamp c) (notified c).

Context (Hsha : collision_free sha256 db).

(** The results a client can have received are of queries it has added. *)
Lemma past_step l (w : @Worker Identity Subscription) (e : @event Identity Subscription Token) w' :
  session (Token := Token) sha256 is_expired db watches w' -> handle sha256 is_expired w e = Ret w' -> Holds (query_ok l) (state w') ->
  (forall k r id, foldM transition remote_new (take k (sent w)) = Ret r -> is_Some (BTreeMap.get id (remote_query_set r)) -> id < next_query_id l) ->
  forall k r id, foldM transition remote_new (take k (sent w')) = Ret r -> is_Some (BTreeMap.get id (remote_query_set r)) -> id < next_query_id l.
Proof.
  intros Hses Hstep Hholds Hpast k r id Hr Hid. destruct (handle_sent _ _ _ Hstep) as [Heq|[[t Heq] Hnone]]; [rewrite Heq in Hr; by eapply Hpast|].
  destruct (decide (k <= length (sent w))%nat) as [Hk|Hk]; [rewrite Heq, take_app_le in Hr by done; by eapply Hpast|].
  rewrite take_ge in Hr by (rewrite Heq, length_app; cbn; lia).
  destruct (session_ok sha256 is_expired db watches w' Hsha Hses) as [r' [Hr' _ _ Hq]]. rewrite Hr in Hr'. injection Hr' as <-. rewrite Hnone in Hq.
  destruct Hq as [Hok Hdom _]. destruct (proj2 (Hdom id) Hid) as [sq Hsq]. pose proof (queries_ids _ Hok _ _ Hsq) as <-.
  apply BTreeMap.elem_of_get in Hsq; [|apply Hok]. apply (holds_queries _ _ Hholds _ _ Hsq).
Qed.

Lemma sys_handle sys (e : @event Identity Subscription Token) w' queue' :
  SysOk sys -> legal db watches (worker sys) e -> orderly is_expired (worker sys) e ->
  match e with ModifyQuerySet _ _ mods => adds_hold (query_ok (local (client sys))) mods | _ => True end ->
  handle sha256 is_expired (worker sys) e = Ret w' ->
  Forall (fun m => adds_hold (query_ok (local (client sys))) (mods_of m)) queue' ->
  (exists S, receive (client_view (worker sys)) e = (Some S, (receive (client_view (worker sys)) e).2) /\
    expect_msgs queue' (S, (receive (client_view (worker sys)) e).2) = Some (local_view (local (client sys)))) ->
  SysOk (MkSystem (with_queue (client sys) queue') w' (received sys)).
Proof.
  intros [Hl [] Hreq Hses Hlive Hlink Hrem Hcount Hqueue Hholds Hpast] Hlegal Horder Hadds Hstep Hqueue' (S & HS & Hlink').
  destruct (live_step sha256 is_expired _ _ Hlive Horder) as (w2 & Hw2 & Hlive' & Hview). rewrite Hstep in Hw2. injection Hw2 as <-.
  assert (session (Token := Token) sha256 is_expired db watches w') as Hses' by (by eapply session_step).
  assert (Holds (query_ok (local (client sys))) (state w')) as Hholds' by (eapply holds_step; [|exact Hholds|exact Hadds|exact Hstep]; by intros q j []).
  split; cbn [client worker received with_queue local remote optimistic_query_results request_manager outgoing_message_queue]; try done.
  - exists S. rewrite HS in Hview. injection Hview as -> ->. done.
  - destruct (handle_sent _ _ _ Hstep) as [->|[[t ->] _]]; [done|]. by rewrite take_app_le.
  - destruct (handle_sent _ _ _ Hstep) as [->|[[t ->] _]]; [done|]. rewrite length_app. lia.
  - by eapply past_step.
Qed.

(** The next message to the server is accepted. *)
Lemma sys_deliver sys c m now :
  SysOk sys -> pop_next_message (client sys) = (c, Some m) -> is_expired (next_identity (state (worker sys))) now = false ->
  exists w, deliver (worker sys) m now = Ret w.
Proof.
  intros Hok Hpop Hexp. pose proof (so_link _ Hok) as (S & HS & Hlink). unfold pop_next_message in Hpop.
  destruct (outgoing_message_queue (client sys)) as [|m' queue] eqn:Hq; [done|]. injection Hpop as <- ->. cbn [expect_msgs] in Hlink.
  destruct (expect_msg _ m) as [v|] eqn:Hm; [|done]. pose proof (so_live _ Hok) as Hlive. destruct m as [base new mods| | |base token]; cbn [deliver expect_msg fst snd] in *.
  - destruct (_ && _) eqn:Hb; [|done]. bool_hyps. destruct (track mods S) as [S'|] eqn:Ht; [|done].
    destruct (live_step sha256 is_expired (worker sys) (ModifyQuerySet (Token := Token) base new mods) Hlive) as (w & Hw & _); [|eauto].
    split; [done|]. split; [done|]. exists S. by rewrite Ht.
  - unfold current_identity. fold (next_identity (state (worker sys))). rewrite Hexp. cbn. eauto.
  - unfold current_identity. fold (next_identity (state (worker sys))). rewrite Hexp. cbn. eauto.
  - destruct (_ =? _) eqn:Hb; [|done]. bool_hyps.
    destruct (live_step sha256 is_expired (worker sys) (Authenticated (Token := Token) (authenticate token) base) Hlive) as (w & Hw & _); eauto.
Qed.

Lemma sys_sent sys c m w now : SysOk sys -> pop_next_message (client sys) = (c, Some m) -> deliver (worker sys) m now = Ret w -> SysOk (MkSystem c w (received sys)).
Proof.
  intros Hok Hpop Hdel. pose proof (so_link _ Hok) as (S & HS & Hlink). unfold pop_next_message in Hpop.
  destruct (outgoing_message_queue (client sys)) as [|m' queue] eqn:Hq; [done|]. injection Hpop as <- ->. fold (with_queue (client sys) queue).
  cbn [expect_msgs] in Hlink. destruct (expect_msg _ m) as [v|] eqn:Hm; [|done]. cbn in Hlink.
  pose proof (so_queue _ Hok) as Hqueue. rewrite Hq in Hqueue. apply Forall_cons in Hqueue as [Hadds Hqueue].
  assert (client_view (worker sys) = (Some S, received_client_version (state (worker sys)))) as Hview by (unfold client_view; by rewrite HS).
  destruct m as [base new mods| | |base token]; cbn [deliver expect_msg fst snd] in *.
  - destruct (_ && _) eqn:Hb; [|done]. bool_hyps. destruct (track mods S) as [S'|] eqn:Ht; [|done]. injection Hm as <-.
    apply (sys_handle sys (ModifyQuerySet base new mods)); [done|exact I| |exact Hadds|exact Hdel|done|].
    + split; [done|]. split; [done|]. exists S. by rewrite Ht.
    + exists S'. rewrite Hview. cbn [receive fst snd mbind option_bind]. by rewrite Ht.
  - injection Hm as <-. unfold current_identity in Hdel. destruct_outcome. destruct Hok as [? [] ? ? ? ? ? ? ? ? ?]. split; try done. by exists S.
  - injection Hm as <-. unfold current_identity in Hdel. destruct_outcome. destruct Hok as [? [] ? ? ? ? ? ? ? ? ?]. split; try done. by exists S.
  - destruct (_ =? _) eqn:Hb; [|done]. bool_hyps. injection Hm as <-. apply (sys_handle sys (Authenticated (authenticate token) base)); [done|exact I|exact Hb|done|exact Hdel|done|].
    exists S. rewrite Hview. done.
Qed.

Lemma expect_requests ms v : Forall is_request ms -> expect_msgs ms v = Some v.
Proof. revert v. induction 1 as [|m ms Hm _ IH]; [done|]. cbn. by destruct m. Qed.

Lemma insert_by_ts_elem r rs x : x ∈ insert_by_ts r rs -> x = r \/ x ∈ rs.
Proof.
  induction rs as [|y rs IH]; cbn [insert_by_ts]; [set_solver|]. destruct (ts_before _ _); rewrite !elem_of_cons; naive_solver.
Qed.

Lemma requests_restart_ok m : RequestsOk m -> Forall is_request (requests_restart m).
Proof.
  intros [Hwf Hok]. unfold requests_restart. apply Forall_forall. intros x (r & -> & Hr)%list_elem_of_fmap.
  assert (forall rs acc, r ∈ fold_left (fun l e => insert_by_ts e l) rs acc -> r ∈ rs \/ r ∈ acc) as Hin.
  { induction rs as [|y rs IH]; intros acc H; cbn [fold_left] in H; [by right|]. destruct (IH _ H) as [?|[->|?]%insert_by_ts_elem]; [left; by right|left; left|by right]. }
  destruct (Hin _ _ Hr) as [Hr'|?]; [|set_solver]. apply list_elem_of_fmap in Hr' as ([id r'] & -> & Hr'%BTreeMap.elem_of_get); [|done]. apply (Hok _ _ Hr').
Qed.

Lemma track_request_ok m msg id t : is_request msg -> RequestsOk m -> RequestsOk (track_request m msg id t).
Proof.
  intros Hmsg [Hwf Hok]. split; [by apply BTreeMap.wf_insert|]. intros id' r. unfold track_request. rewrite BTreeMap.get_insert_if by done.
  case_decide; [|apply Hok]. intros [= <-]. split; [done|]. intros [?|[]]; done.
Qed.

Lemma update_request_ok m id t value ts m' ns : RequestsOk m -> update_request m id t value ts = Ret (m', ns) -> RequestsOk m'.
Proof.
  intros [Hwf Hok] H. unfold update_request in H. destruct (BTreeMap.get id m) as [r|] eqn:Hr; [|done]. destruct (bool_decide (typ r = t)); [|done]. cbn [ensure obind] in H.
  assert (RequestsOk (BTreeMap.insert id (MkRequest (typ r) Completed ts (Some value) (message r)) m)) as [Hwf' Hok'].
  { split; [by apply BTreeMap.wf_insert|]. intros id' r'. rewrite BTreeMap.get_insert_if by done. destruct (decide (id' = id)); [|apply Hok].
    intros [= <-]. split; [apply (Hok _ _ Hr)|cbn; eauto]. }
  destruct (_ || _); [|injection H as <- <-; by split]. unfold notify_completed in H. rewrite BTreeMap.get_insert_eq in H by done. cbn in H. injection H as <- <-.
  split; [by apply BTreeMap.wf_remove|]. intros id' r' ?%BTreeMap.get_remove_Some; [by eapply Hok'|done].
Qed.

Lemma local_step_refl l m : LocalOk l -> is_request m -> local_step l l [m].
Proof.
  intros Hl Hm. split_and!; [done|by destruct m|lia|done|by left|]. constructor; [|constructor]. destruct m; try done; by intros q ?%elem_of_nil.
Qed.

(** The next transition is the one the client waits for. *)
Lemma next_transition sys t : SysOk sys -> sent (worker sys) !! received sys = Some t -> start_version t = version (remote (client sys)).
Proof.
  intros Hok Ht. destruct (session_ok sha256 is_expired db watches _ Hsha (so_session _ Hok)) as [r [Hr _ _ _]].
  rewrite <- (take_drop_middle _ _ _ Ht), foldM_app, (so_remote _ Hok) in Hr. cbn [obind foldM] in Hr. unfold transition in Hr.
  case_bool_decide; [done|]. cbn in Hr. done.
Qed.

Lemma sys_received sys t c :
  SysOk sys -> sent (worker sys) !! received sys = Some t -> receive_transition (client sys) t = Ret c -> SysOk (MkSystem c (worker sys) (S (received sys))).
Proof.
  intros Hok Ht Hc. pose proof (next_transition _ _ Hok Ht) as Hv. destruct Hok as [Hl Hsh Hreq Hses Hlive Hlink Hrem Hcount Hqueue Hholds Hpast].
  destruct (receive_transition_ok _ _ Hl Hsh Hreq Hv) as (c' & Hc' & Hl' & Hsh' & Hreq' & Hview & Htok & Hnext & Hq & Htr). rewrite Hc in Hc'. injection Hc' as <-.
  assert (forall q, query_ok (local (client sys)) q -> query_ok (local c) q) as Hmono by (intros q; unfold query_ok; by rewrite Htok, Hnext).
  split; cbn [client worker received]; rewrite ?Hq, ?Hview, ?Hnext; try done.
  - rewrite (take_S_r _ _ _ Ht), foldM_app, Hrem. cbn [obind foldM]. by rewrite Htr.
  - apply lookup_lt_Some in Ht. lia.
  - eapply Forall_impl; [exact Hqueue|]. intros m. by apply adds_hold_mono.
  - by eapply holds_mono.
Qed.

Lemma sys_reconnected sys unknown :
  SysOk sys -> outgoing_message_queue (client sys) = [] -> SysOk (MkSystem (resend_ongoing_queries_mutations (client sys)) (worker_new unknown) 0).
Proof.
  intros [Hl [Hsw How Hos _ _] Hreq _ _ _ _ _ _ _ _] Hq.
  destruct (local_restart_ok _ Hl) as (Hl' & Hexp & Hnext & Hres & Hids & Htok & Hadds). pose proof (requests_restart_ok _ Hreq) as Hrr.
  unfold resend_ongoing_queries_mutations. rewrite Hq. destruct (local_restart (local (client sys))) as [l' ms]. cbn [fst snd] in *.
  assert (forall k r, foldM transition remote_new (take k (sent (worker_new (Subscription := Subscription) unknown))) = Ret r -> r = remote_new) as Hpast.
  { intros k r. cbn [worker_new sent]. rewrite take_nil. by intros [= <-]. }
  split; cbn [client worker received local remote optimistic_query_results request_manager outgoing_message_queue]; try done.
  - split; cbn [local remote optimistic_query_results]; rewrite ?Hres; done.
  - apply session_new.
  - exists ∅. split; [done|]. cbn [app]. rewrite expect_msgs_app. cbn [worker_new state sync_new received_client_version]. rewrite Hexp. cbn. by apply expect_requests.
  - cbn [app]. apply Forall_app. split.
    + eapply Forall_impl; [exact Hadds|]. intros m. apply adds_hold_mono. intros q. unfold query_ok. by rewrite Htok, Hnext.
    + eapply Forall_impl; [exact Hrr|]. intros m Hm. destruct m; try done; by intros q ?%elem_of_nil.
  - split; [by intros q ?%elem_of_nil|by intros id q ?%elem_of_nil|by intros id sq ?%elem_of_nil].
  - intros k r id ->%Hpast []. done.
Qed.

Lemma sys_step_ok sys sys' : SysOk sys -> sys_step sys sys' -> SysOk sys'.
Proof.
  intros Hok Hstep. destruct Hstep as [sys path arguments c s Hc|sys s c Hc|sys token|sys t path arguments|sys c m w now Hpop Hdel|sys e w Hown Hlegal Hord Hw|sys t c Ht Hc|sys t id value ts c Hc|sys unknown Hq].
  - destruct (local_subscribe_ok (E := reconnect_reason) _ path arguments (so_local _ Hok)) as (l' & m & s' & Hl & Hls & _).
    unfold client_subscribe in Hc. rewrite Hl in Hc. injection Hc as <- <-. by eapply sys_local; [..|apply Hok|].
  - unfold client_unsubscribe in Hc. destruct (BTreeMap.get s (subscribers (latest_results (local (client sys))))) as [[]|] eqn:Hs.
    + destruct (local_unsubscribe_ok (E := reconnect_reason) _ s (so_local _ Hok)) as (l' & m & Hl & Hls); [eauto|].
      rewrite Hl in Hc. injection Hc as <-. by eapply sys_local; [..|apply Hok|].
    + unfold remove_subscriber in Hc. rewrite Hs in Hc. done.
  - pose proof (local_set_auth_ok _ token (so_local _ Hok)) as Hls. by eapply sys_local; [..|apply Hok|].
  - eapply sys_local; [done|apply local_step_refl; [apply Hok|]|apply track_request_ok; [|apply Hok]|done]; by destruct t.
  - by eapply sys_sent.
  - replace (client sys) with (with_queue (client sys) (outgoing_message_queue (client sys))) by by destruct (client sys).
    pose proof (so_link _ Hok) as (S & HS & Hlink).
    apply (sys_handle sys e); [done|done|done|by destruct e|done|apply Hok|]. exists S.
    replace (receive (client_view (worker sys)) e) with (client_view (worker sys)) by by destruct e. unfold client_view. cbn [fst snd]. by rewrite HS.
  - by eapply sys_received.
  - unfold receive_response in Hc. destruct (update_request _ _ _ _ _) as [[m' ns]| |] eqn:Hu; try done. injection Hc as <-.
    pose proof (update_request_ok _ _ _ _ _ _ _ (so_requests _ Hok) Hu) as Hreq. destruct Hok as [? [] ? ? ? ? ? ? ? ? ?]. split; try done; by split.
  - by apply sys_reconnected.
Qed.

Lemma sys_reachable_ok sys : sys_reachable sys -> SysOk sys.
Proof.
  induction 1 as [unknown|sys sys' _ IH Hstep]; [|by eapply sys_step_ok].
  split; cbn [client worker received client_new local remote optimistic_query_results request_manager outgoing_message_queue]; try done.
  - split; cbn; try done; by intros id k [].
  - apply session_new.
  - exists ∅. done.
  - split; [by intros q ?%elem_of_nil|by intros id q ?%elem_of_nil|by intros id sq ?%elem_of_nil].
  - intros k r id. cbn [worker_new sent]. rewrite take_nil. by intros [= <-] [].
Qed.

(** C7: In every reachable state of a client and its connection, subscribing never
    panics, nor does removing a live subscriber; the server accepts the client's
    next message (the base versions match, added queries are new and removed ones
    exist), unless the identity has expired; and the client accepts the next
    transition.  The states are those of any interleaving of the two, also after
    reconnections that find the client's outgoing queue empty; after a
    reconnection with a change of the query set left unsent the restart is
    refused ([unsent_messages_break_restart]).  The results of the database do
    not collide under the hash. *)
Theorem system_never_stuck sys :
  sys_reachable sys ->
  (forall path arguments, exists c s, client_subscribe (E := reconnect_reason) (client sys) path arguments = Ret (c, s)) /\
  (forall s, is_Some (BTreeMap.get s (subscribers (latest_results (local (client sys))))) ->
     exists c, client_unsubscribe (E := reconnect_reason) (client sys) s = Ret c) /\
  (forall c m now, pop_next_message (client sys) = (c, Some m) -> is_expired (next_identity (state (worker sys))) now = false ->
     exists w, deliver (worker sys) m now = Ret w) /\
  (forall t, sent (worker sys) !! received sys = Some t -> exists c, receive_transition (client sys) t = Ret c).
Proof.
  intros Hok%sys_reachable_ok. split_and!.
  - intros path arguments. destruct (local_subscribe_ok (E := reconnect_reason) _ path arguments (so_local _ Hok)) as (l & m & s & Hl & _).
    unfold client_subscribe. rewrite Hl. cbn. eauto.
  - intros s Hs. destruct (local_unsubscribe_ok (E := reconnect_reason) _ s (so_local _ Hok) Hs) as (l & m & Hl & _). unfold client_unsubscribe. rewrite Hl. cbn. eauto.
  - intros c m now. by apply sys_deliver.
  - intros t Ht. destruct (receive_transition_ok (client sys) t) as (c & Hc & _); [apply Hok..|by apply next_transition|eauto].
Qed.

(** C4: Once the client's messages have been applied and it has received every
    transition, each subscriber whose query the server has been able to run is
    shown the result of its own query (the path and arguments it subscribed to,
    with some journal) for the session's identity at the timestamp of the
    current version: the value itself, or an error with the same bytes under the
    hash that results are deduplicated by (the data of an error is not among
    them, so it can be that of an earlier run); the other queries are still in
    progress at the server.  This holds through any number of reconnections that
    find no message left unsent (after one that finds a change of the query set
    in the queue the server refuses the restart:
    [unsent_messages_break_restart]), when the results of the database do not
    collide under the hash and its values are UTF-8 text. *)
Theorem caught_up_client_shows_results sys :
  utf8_values db -> sys_reachable sys ->
  outgoing_message_queue (client sys) = [] -> pending_query_updates (state (worker sys)) = [] -> transition_future (worker sys) = None ->
  received sys = length (sent (worker sys)) ->
  forall id k, is_Some (BTreeMap.get (id, k) (subscribers (latest_results (local (client sys))))) ->
  match BTreeMap.get id (queries (state (worker sys))) with
  | Some sq =>
      BTreeMap.get id (query_id_to_token (local (client sys))) = Some (udf_path (sq_query sq), args (sq_query sq)) /\
      exists j f, query_results_get (latest_results (local (client sys))) (id, k) = Some f /\
        agrees f (db (identity (state (worker sys))) (set_journal (sq_query sq) j) (v_ts (version (remote (client sys)))))
  | None => is_Some (BTreeMap.get id (in_progress_queries (state (worker sys))))
  end.
Proof.
  intros Hutf Hok%sys_reachable_ok Hqueue Hpend Hnone Hall id k Hsub.
  destruct (so_link _ Hok) as (S & HS & Hlink). rewrite Hqueue in Hlink. unfold asked in HS. rewrite Hpend in HS. injection HS as <-. injection Hlink as Hids _.
  destruct (lo_subs _ (so_local _ Hok) _ _ Hsub) as (tok & lq & Ht & _). pose proof (set_ok _ (live_settled _ (so_live _ Hok))) as Hqok.
  assert (id ∈ ids (state (worker sys))) as Hid by (rewrite Hids, elem_of_local_ids by apply Hok; eauto). rewrite elem_of_ids in Hid by done.
  destruct (BTreeMap.get id (queries (state (worker sys)))) as [sq|] eqn:Hsq; [|destruct Hid as [[]|?]; done].
  destruct (session_shows sha256 is_expired db watches _ Hsha Hutf (so_session _ Hok)) as (r & Hr & Hv & Hshow).
  pose proof (so_remote _ Hok) as Hrem. rewrite Hall, firstn_all, Hr in Hrem. injection Hrem as ->. specialize (Hshow Hnone id). rewrite Hsq in Hshow.
  destruct Hshow as (j & f & Hf & Hag). split.
  - rewrite Ht. f_equal. pose proof (queries_ids _ Hqok _ _ Hsq) as Hqid. apply BTreeMap.elem_of_get in Hsq; [|apply Hqok].
    destruct (holds_queries _ _ (so_holds _ Hok) _ _ Hsq) as [_ Hq]. apply Hq. by rewrite Hqid.
  - exists j, f. split; [|done]. unfold query_results_get. destruct Hsub as [v ->]. cbn [fst].
    apply (optimistic_shown _ (so_shown _ Hok)), (remote_optimistic _ (so_shown _ Hok)); [|done]. rewrite elem_of_local_ids by apply Hok. eauto.
Qed.
End system.

(** ** Example: a subscription that outlives a reconnection *)

Module SystemExample.
Import SyncExample.

Definition anyone (token : option (list Z)) : Z := 0.

Inductive cmd := Subscribe (path : list Z) | Send | Begin (ts : Timestamp) | Ready | Receive | Reconnect.

Definition to_option {E A} (m : outcome E A) : option A := match m with Ret a => Some a | _ => None end.

Definition do (sys : @System Z Z) (x : cmd) : option (@System Z Z) :=
  match x with
  | Subscribe path =>
      '(c, _) ← to_option (client_subscribe (E := reconnect_reason) (client sys) path []);
      Some (MkSystem c (worker sys) (received sys))
  | Send =>
      match pop_next_message (client sys) with
      | (c, Some m) => w ← to_option (deliver (Token := Z) id never_expires anyone (worker sys) m 0); Some (MkSystem c w (received sys))
      | _ => None
      end
  | Begin ts =>
      if v_ts (current_version (state (worker sys))) <=? ts
      then w ← to_option (handle id never_expires (worker sys) (BeginTransition (Token := Z) ts 0)); Some (MkSystem (client sys) w (received sys))
      else None
  | Ready => w ← to_option (handle id never_expires (worker sys) (in_order (worker sys))); Some (MkSystem (client sys) w (received sys))
  | Receive =>
      match sent (worker sys) !! received sys with
      | Some t => c ← to_option (receive_transition (client sys) t); Some (MkSystem c (worker sys) (S (received sys)))
      | None => None
      end
  | Reconnect =>
      match outgoing_message_queue (client sys) with
      | [] => Some (MkSystem (resend_ongoing_queries_mutations (client sys)) (worker_new 0) 0)
      | _ => None
      end
  end.

Notation example_reachable := (sys_reachable (Token := Z) id never_expires example_db example_watches anyone) (only parsing).

Lemma to_option_Some {E A} (m : outcome E A) a : to_option m = Some a -> m = Ret a.
Proof. destruct m; [by intros [= ->]|done..]. Qed.

Lemma do_step sys x sys' : do sys x = Some sys' -> sys_step (Token := Z) id never_expires example_db example_watches anyone sys sys'.
Proof.
  destruct x; cbn [do]; intros H.
  - apply bind_Some in H as ([c s] & Hc%to_option_Some & [= <-]). by eapply sys_subscribe.
  - destruct (pop_next_message (client sys)) as [c [m|]] eqn:Hp; [|done]. apply bind_Some in H as (w & Hw%to_option_Some & [= <-]). by eapply sys_send.
  - destruct (_ <=? ts) eqn:Hts; [|done]. bool_hyps. apply bind_Some in H as (w & Hw%to_option_Some & [= <-]). by eapply (sys_turn _ _ _ _ _ _ (BeginTransition ts 0)).
  - apply bind_Some in H as (w & Hw%to_option_Some & [= <-]). eapply (sys_turn _ _ _ _ _ _ (in_order (worker sys))); [done|apply in_order_legal| |done].
    split; [apply example_available|]. by intros p ->.
  - destruct (sent (worker sys) !! received sys) as [t|] eqn:Ht; [|done]. apply bind_Some in H as (c & Hc%to_option_Some & [= <-]). by eapply sys_receive.
  - destruct (outgoing_message_queue (client sys)) eqn:Hq; [|done]. injection H as <-. by apply sys_reconnect.
Qed.

Fixpoint do_all (sys : @System Z Z) (xs : list cmd) : option (@System Z Z) :=
  match xs with [] => Some sys | x :: xs => sys' ← do sys x; do_all sys' xs end.

Lemma do_all_reachable xs sys sys' : example_reachable sys -> do_all sys xs = Some sys' -> example_reachable sys'.
Proof.
  revert sys. induction xs as [|x xs IH]; intros sys Hs H; [by injection H as <-|]. apply bind_Some in H as (s1 & H1%do_step & H). apply (IH s1); [|done].
  by eapply sys_more.
Qed.

Definition start : @System Z Z := MkSystem client_new (worker_new 0) 0.

Definition before : @System Z Z :=
  default start (do_all start [Subscribe [97]; Send; Begin 5; Ready; Receive; Subscribe [98]]).

Definition reconnected : @System Z Z :=
  default start (do_all start [Subscribe [97]; Send; Begin 5; Ready; Receive; Reconnect; Send; Begin 20; Ready; Receive]).

Lemma start_reachable : example_reachable start.
Proof. apply sys_start. Qed.

Lemma before_reachable : example_reachable before.
Proof.
  unfold before. destruct (do_all start _) as [sys|] eqn:H; [|apply start_reachable]. eapply do_all_reachable; [apply start_reachable|exact H].
Qed.

Lemma reconnected_reachable : example_reachable reconnected.
Proof.
  unfold reconnected. destruct (do_all start _) as [sys|] eqn:H; [|apply start_reachable]. eapply do_all_reachable; [apply start_reachable|exact H].
Qed.
End SystemExample.

Lemma system_never_stuck_witness :
  outgoing_message_queue (client SystemExample.before) = [CModifyQuerySet 1 2 [AddQuery (MkQuery 1 [98] [] None None)]] /\
  exists w, deliver (Token := Z) id SyncExample.never_expires SystemExample.anyone (worker SystemExample.before)
    (CModifyQuerySet 1 2 [AddQuery (MkQuery 1 [98] [] None None)]) 0 = Ret w.
Proof.
  split; [vm_compute; reflexivity|].
  refine (proj1 (proj2 (proj2 (system_never_stuck id SyncExample.never_expires SyncExample.example_db SyncExample.example_watches SystemExample.anyone
    SyncExample.example_collision_free SystemExample.before SystemExample.before_reachable))) _ _ 0 _ _); [vm_compute; reflexivity|reflexivity].
Defined.

Lemma caught_up_client_shows_results_witness :
  exists j f, query_results_get (latest_results (local (client SystemExample.reconnected))) (0, 0) = Some f /\
    agrees f (SyncExample.example_db 0 (set_journal (MkQuery 0 [97] [] None (Some None)) j) 20) /\ f = FValue [49].
Proof.
  pose proof (caught_up_client_shows_results id SyncExample.never_expires SyncExample.example_db SyncExample.example_watches SystemExample.anyone
    SyncExample.example_collision_free SystemExample.reconnected SyncExample.example_utf8 SystemExample.reconnected_reachable
    ltac:(vm_compute; reflexivity) ltac:(vm_compute; reflexivity) ltac:(vm_compute; reflexivity) ltac:(vm_compute; reflexivity) 0 0
    ltac:(eexists; vm_compute; reflexivity)) as H.
  vm_compute in H. destruct H as (_ & j & f & Hf & Hag). exists j, f. split; [vm_compute; exact Hf|]. subst f. split; reflexivity.
Defined.
