(* ===== verification/SyncErrors.v ===== *)
(** * SyncErrors: where the sync protocol does less than it means to
      (src/crates/sync/src/worker.rs, src/crates/application/src/redaction.rs,
       src/crates/convex/src/base_client/request_manager.rs,
       src/crates/convex/src/base_client/mod.rs) *)

From stdpp Require Import gmap.
From S2P Require Import Prelude Ord BTreeMap Timestamp Sync SyncClient SyncProtocol SyncProgress SyncSystem.

Local Open Scope Z_scope.

Section errors.
Context {Identity Subscription Token : Type}.
Context (sha256 : list Z -> list Z) (is_expired : Identity -> Z -> bool).

(** ** Unavailable queries *)

(** Applying a result leaves the other queries alone. *)
Lemma apply_result_other (st : @SyncState Identity Subscription) M r st' M' :
  QueriesOk st -> apply_result sha256 (st, M) r = Ret (st', M') ->
  QueriesOk st' /\ forall k, k <> result_id r -> BTreeMap.get k (queries st') = BTreeMap.get k (queries st).
Proof.
  intros Hok H. destruct r as [[id [res l j| |]] s]; cbn [apply_result fst snd] in H; [|done|]; cbn [result_id fst].
  - destruct (complete_fetch sha256 st id res l j s) as [[st2 m]| |] eqn:Hc; try done. injection H as <- <-. unfold complete_fetch in Hc.
    destruct (start_synced st id) as [st1| |] eqn:Hst1; try done. cbn [obind] in Hc.
    destruct (start_synced_spec _ _ _ Hok Hst1) as (Hwf1 & Hwfp1 & Hnone & Hother & Hid).
    destruct (BTreeMap.get id (queries st1)) as [sq|] eqn:Hsq; [|done]. cbn [ok_or obind] in Hc. destruct_outcome.
    assert (query_id (sq_query sq) = id) as Hqid.
    { destruct (BTreeMap.get id (in_progress_queries st)) eqn:Hp; [destruct Hid as [_ [= ->]]; by apply (in_progress_ids _ Hok)|].
      apply (queries_ids _ Hok). congruence. }
    split; [split|]; cbn [with_queries queries in_progress_queries]; [by apply BTreeMap.wf_insert|done|..].
    + intros k sq'. rewrite BTreeMap.get_insert_if by done. destruct (decide (k = id)) as [->|Hk]; [by intros [= <-]|]. rewrite (proj1 (Hother k Hk)). apply Hok.
    + intros k q. destruct (decide (k = id)) as [->|Hk]; [congruence|]. rewrite (proj2 (Hother k Hk)). apply Hok.
    + intros k Hk. rewrite BTreeMap.get_insert_ne by done. by apply Hother.
  - destruct (refill_subscription st id s) as [st2| |] eqn:Hc; try done. injection H as <- <-. unfold refill_subscription in Hc.
    destruct (BTreeMap.get id (queries st)) as [sq|] eqn:Hsq; [|done]. cbn [ok_or obind] in Hc. destruct_outcome.
    split; [split|]; cbn [with_queries queries in_progress_queries]; [by apply BTreeMap.wf_insert, Hok|apply Hok| |apply Hok|].
    + intros k sq'. rewrite BTreeMap.get_insert_if by apply Hok. destruct (decide (k = id)) as [->|Hk]; [|apply Hok]. intros [= <-]. exact (queries_ids _ Hok _ _ Hsq).
    + intros k Hk. apply BTreeMap.get_insert_ne; [apply Hok|done].
Qed.

Lemma apply_results_other rs (st : @SyncState Identity Subscription) M st' M' k :
  QueriesOk st -> foldM (apply_result sha256) (st, M) rs = Ret (st', M') -> k ∉ map result_id rs ->
  QueriesOk st' /\ BTreeMap.get k (queries st') = BTreeMap.get k (queries st).
Proof.
  revert st M. induction rs as [|r rs IH]; intros st M Hok Hf Hk; [by injection Hf as <- <-|]. cbn [foldM map] in *.
  destruct (apply_result sha256 (st, M) r) as [[st1 M1]| |] eqn:Hr; try done. destruct (apply_result_other _ _ _ _ _ Hok Hr) as [Hok1 Hsame].
  destruct (IH st1 M1 Hok1 Hf) as [Hok' Heq]; [set_solver|]. split; [done|]. rewrite Heq. apply Hsame. set_solver.
Qed.

(** The results of a run have the ids of queries that were not unavailable. *)
Lemma run_queries_unavailable (api : @Api Identity Subscription Token) p order rs u q o :
  NoDup (map fetch_id order) -> (q, o) ∈ order -> update_query api p (q, o) = Ret (query_id q, TemporarilyUnavailable, None) ->
  run_queries api p order = Ret (rs, u) -> query_id q ∉ map result_id rs.
Proof.
  intros Hnd Hq Hu Hrun ([[id res] s] & Heq & Hin)%list_elem_of_fmap. cbn [result_id fst] in Heq.
  destruct (run_queries_elem _ _ _ _ _ _ _ _ Hrun Hin) as (q' & o' & Hq' & Hu'). destruct (update_query_spec _ _ _ _ _ _ _ Hu') as [Hid _].
  assert ((q', o') = (q, o)) as [= -> ->]; [|congruence].
  apply list_elem_of_lookup in Hq as [k Hk]. apply list_elem_of_lookup in Hq' as [k' Hk'].
  assert (k' = k) as ->; [|congruence]. eapply NoDup_lookup; [exact Hnd|by rewrite list_lookup_fmap, Hk'|].
  rewrite list_lookup_fmap, Hk. cbn. unfold fetch_id. cbn. congruence.
Qed.

Lemma fill_futures_missing (qs : list (Z * @SyncedQuery Subscription)) futures next id sq x :
  (id, sq) ∈ qs -> subscription sq = None -> invalidation_future sq = None -> fill_futures qs futures next <> Ret x.
Proof.
  intros Hin Hs Hf H. destruct x as [[qs' fs'] n']. pose proof (fill_futures_entries _ _ _ _ _ _ H) as Hent.
  apply list_elem_of_lookup in Hin as [k Hk]. destruct (Forall2_lookup_l _ _ _ _ _ Hent Hk) as (e' & _ & _ & _ & Hsome & _).
  cbn in Hsome. rewrite Hs in Hsome. destruct (Hsome Hf); done.
Qed.

(** The retry that [finish_update_queries] schedules for a query that is
    temporarily unavailable never happens for a query that has returned before:
    its old subscription was taken and it has no new one, so the turn of the loop
    fails at [fill_invalidation_futures] and the session ends. *)
Theorem unavailable_synced_query_ends_session (w : @Worker Identity Subscription) (api : @Api Identity Subscription Token) order p q o sq :
  Live w -> transition_future w = Some p -> order ≡ₚ pt_need_fetch p -> (q, o) ∈ order ->
  BTreeMap.get (query_id q) (queries (state w)) = Some sq ->
  update_query api p (q, o) = Ret (query_id q, TemporarilyUnavailable, None) ->
  forall w', handle sha256 is_expired w (TransitionReady api order) <> Ret w'.
Proof.
  intros Hlive Hf Hord Hq Hsq Hu w' H. pose proof (live_future _ Hlive) as Hfut. rewrite Hf in Hfut. destruct Hfut as [Hfet _].
  destruct (fetches_once _ _ _ (live_settled _ Hlive) Hfet Hord) as [Hnd _]. destruct (fet_none _ _ Hfet _ _ Hsq) as [Hs Hfn].
  unfold handle in H. rewrite (live_validate _ Hlive), Hf in H. cbn [obind] in H. unfold run_transition in H.
  destruct (run_queries api p order) as [[rs u]| |] eqn:Hrun; try done. cbn [obind] in H. unfold finish_update_queries in H. cbn [ts_modifications udf_results] in H.
  destruct (foldM _ _ rs) as [[st1 M1]| |] eqn:Hfold; try done. cbn [obind] in H.
  destruct (apply_results_other rs _ _ _ _ (query_id q) (set_ok _ (live_settled _ Hlive)) Hfold) as [Hok1 Heq]; [by eapply run_queries_unavailable|].
  unfold fill_invalidation_futures in H. destruct (fill_futures _ _ _) as [x| |] eqn:Hfill; try done. rewrite Hsq in Heq.
  apply BTreeMap.elem_of_get in Heq; [|apply Hok1]. by eapply fill_futures_missing.
Qed.

(** ** Errors with new data *)

(** An error that differs from the last one in its data alone is taken for the
    same result, and the client keeps the old data. *)
Theorem error_data_change_not_sent (st : @SyncState Identity Subscription) id e e' l j s st' m sq :
  BTreeMap.get id (queries st) = Some sq -> BTreeMap.get id (in_progress_queries st) = None ->
  result_hash sq = Some (hash_result sha256 (inr e) l) -> error_text e' = error_text e -> block_logging e' = block_logging e ->
  complete_fetch sha256 st id (inr e') l j s = Ret (st', m) -> m = None.
Proof.
  intros Hsq Hp Hh Ht Hb H. unfold complete_fetch, start_synced in H. rewrite Hp in H. cbn [obind] in H. rewrite Hsq in H. cbn [ok_or obind] in H.
  destruct_outcome. rewrite bool_decide_true; [done|]. rewrite Hh. unfold hash_result, deduplication_bytes. by rewrite Ht, Hb.
Qed.

(** ** Mutations that complete early *)

Lemma notify_all_elem {E} ids m (ns : list (Z * FunctionResult)) m' ns' id :
  foldM (fun (st : BTreeMap.t Z Request * list (Z * FunctionResult)) id => let? (self, n) := notify_completed st.1 id in Ret (self, st.2 ++ [n])) (m, ns) ids
    = Ret (E := E) (m', ns') -> id ∈ ids \/ id ∈ ns.*1 -> id ∈ ns'.*1.
Proof.
  revert m ns. induction ids as [|i ids IH]; intros m ns H Hid; [injection H as <- <-; destruct Hid as [?%elem_of_nil|?]; done|]. cbn [foldM fst snd] in H.
  destruct (notify_completed m i) as [[m1 [i1 v1]]| |] eqn:Hn; try done. cbn [obind] in H.
  assert (i1 = i) as -> by (unfold notify_completed in Hn; destruct_outcome; done).
  eapply IH; [exact H|]. rewrite fmap_app, elem_of_app. cbn. rewrite elem_of_cons in Hid. set_solver.
Qed.

(** A mutation whose response has arrived completes at the next transition, also
    when that transition is to a timestamp before the mutation's, whose writes the
    query results then do not show. *)
Theorem mutation_completes_at_any_timestamp m id r ts :
  RequestsOk m -> BTreeMap.get id m = Some r -> status r = Completed ->
  exists m' ns, remove_and_notify_completed (E := reconnect_reason) m ts = Ret (m', ns) /\ id ∈ ns.*1.
Proof.
  intros Hm Hr Hs. destruct (remove_completed_ok (E := reconnect_reason) m ts Hm) as (m' & ns & Hrem & _). exists m', ns. split; [done|].
  eapply notify_all_elem; [exact Hrem|]. left. apply list_elem_of_fmap. exists (id, r). split; [done|]. apply elem_of_bfilter. cbn.
  split; [apply BTreeMap.elem_of_get; [apply Hm|done]|]. unfold is_completed. by rewrite bool_decide_true.
Qed.

(** ** Messages left over from a lost connection *)

Context (authenticate : option (list Z) -> Identity).

Notation send now := (fun w m => deliver (Subscription := Subscription) (Token := Token) sha256 is_expired authenticate w m now) (only parsing).
Notation query_set_received w := (cv_query_set (received_client_version (state w))) (only parsing).

Lemma deliver_version (w : @Worker Identity Subscription) m now w' :
  deliver (Token := Token) sha256 is_expired authenticate w m now = Ret w' ->
  match m with
  | CModifyQuerySet base new _ => base = query_set_received w /\ base < query_set_received w'
  | _ => query_set_received w' = query_set_received w
  end.
Proof.
  intros H. destruct m as [base new mods| | |base token]; cbn [deliver] in H.
  - unfold handle in H. destruct (validate (state w)); try done. cbn [obind] in H. unfold modify_query_set in H.
    destruct (_ =? base) eqn:Hb; [|done]. destruct (base <? new) eqn:Hn; [|done]. cbn in H. injection H as <-. cbn. bool_hyps. split; [done|lia].
  - unfold current_identity in H. by destruct_outcome.
  - unfold current_identity in H. by destruct_outcome.
  - unfold handle in H. destruct (validate (state w)); try done. cbn [obind] in H. unfold modify_identity in H. by destruct_outcome.
Qed.

Lemma deliver_all_version ms (w : @Worker Identity Subscription) now w' :
  foldM (send now) w ms = Ret w' ->
  query_set_received w <= query_set_received w' /\
  forall base new mods, CModifyQuerySet base new mods ∈ ms -> query_set_received w < query_set_received w'.
Proof.
  revert w. induction ms as [|m ms IH]; intros w H; [injection H as <-; split; [done|set_solver]|]. cbn [foldM] in H.
  destruct (deliver _ _ _ w m now) as [w1| |] eqn:Hm; try done. cbn [obind] in H. destruct (IH w1 H) as [Hle Hlt].
  pose proof (deliver_version _ _ _ _ Hm) as Hv. split; [destruct m; lia|].
  intros base new mods [<-|Hin]%elem_of_cons; [lia|]. specialize (Hlt _ _ _ Hin). destruct m; lia.
Qed.

(** The messages that restart a session follow the ones that are still in the
    queue.  If a change of the query set was left there when the connection was
    lost, no new session accepts the queue: it starts at version 0, the left-over
    change is refused or moves it on, and the restart again expects version 0. *)
Theorem unsent_messages_break_restart (c : BaseConvexClient) base new mods unknown now :
  CModifyQuerySet base new mods ∈ outgoing_message_queue c ->
  forall w, foldM (send now) (worker_new unknown) (outgoing_message_queue (resend_ongoing_queries_mutations c)) <> Ret w.
Proof.
  intros Hin w H. unfold resend_ongoing_queries_mutations in H. destruct (local_restart (local c)) as [l ms] eqn:Hl. cbn [outgoing_message_queue] in H.
  rewrite foldM_app in H. destruct (foldM _ _ (outgoing_message_queue c)) as [w1| |] eqn:H1; try done. cbn [obind] in H.
  destruct (deliver_all_version _ _ _ _ H1) as [_ Hlt]. specialize (Hlt _ _ _ Hin). cbn in Hlt. rewrite foldM_app in H.
  destruct (foldM _ w1 ms) as [w2| |] eqn:H2; try done. unfold local_restart in Hl. destruct (auth_token (local c)); injection Hl as <- <-; cbn [foldM] in H2.
  - destruct (deliver _ _ _ w1 _ now) as [w3| |] eqn:H3; try done. cbn [obind] in H2. destruct (deliver _ _ _ w3 _ now) as [w4| |] eqn:H4; try done.
    apply deliver_version in H3, H4. lia.
  - destruct (deliver _ _ _ w1 _ now) as [w3| |] eqn:H3; try done. apply deliver_version in H3. lia.
Qed.
End errors.

(** ** Examples *)

(** A search index is unavailable when the queries of [SyncExample] rerun at
    timestamp 20. *)
Definition unavailable_api : @Api Z Z Z :=
  MkApi (fun s ts => Ret (Bool.eqb (s <? 10) (ts <? 10))) (fun i q ts => Err Unavailable) (fun token => Ret token).

Definition rerunning : @Worker Z Z :=
  match SyncExample.run (SyncExample.after 3) [Some OperationCompleted; Some (BeginTransition 20 0)] with Ret w => w | _ => worker_new 0 end.

Lemma rerunning_live : Live rerunning.
Proof.
  apply (orderly_live (Token := Z) id SyncExample.never_expires).
  apply (orderly_step _ _ (match SyncExample.run (SyncExample.after 3) [Some OperationCompleted] with Ret w => w | _ => worker_new 0 end) (BeginTransition 20 0));
    [|by split; vm_compute|vm_compute; reflexivity].
  apply (orderly_step _ _ (SyncExample.after 3) OperationCompleted); [|done|vm_compute; reflexivity].
  apply (orderly_step _ _ (SyncExample.after 2) (SyncExample.in_order (SyncExample.after 2))); [apply example_orderly2| |vm_compute; reflexivity].
  split; [apply example_available|]. by intros p ->.
Qed.

Definition rerun_order : list (Query * option Z) := match transition_future rerunning with Some p => pt_need_fetch p | None => [] end.

Lemma unavailable_synced_query_ends_session_witness :
  handle id SyncExample.never_expires rerunning (TransitionReady unavailable_api rerun_order) = Err MissingSubscription /\
  forall w', handle id SyncExample.never_expires rerunning (TransitionReady unavailable_api rerun_order) <> Ret w'.
Proof.
  split; [vm_compute; reflexivity|].
  destruct (transition_future rerunning) as [p|] eqn:Hp; [|vm_compute in Hp; discriminate Hp].
  destruct (BTreeMap.get 1 (queries (state rerunning))) as [sq|] eqn:Hsq; [|vm_compute in Hsq; discriminate Hsq].
  apply (unavailable_synced_query_ends_session id SyncExample.never_expires rerunning unavailable_api rerun_order p
    (MkQuery 1 [97] [] None (Some None)) (Some 5) sq rerunning_live Hp); [unfold rerun_order; by rewrite Hp| |exact Hsq|].
  - unfold rerun_order. rewrite Hp. vm_compute in Hp. injection Hp as <-. left.
  - vm_compute in Hp. injection Hp as <-. reflexivity.
Defined.

(** A client that loses its connection before it has sent its first query. *)
Definition unsent : BaseConvexClient := match client_subscribe (E := reconnect_reason) client_new [97] [] with Ret (c, _) => c | _ => client_new end.

Lemma unsent_messages_break_restart_witness :
  outgoing_message_queue (resend_ongoing_queries_mutations unsent) =
    [CModifyQuerySet 0 1 [AddQuery (MkQuery 0 [97] [] None None)]; CModifyQuerySet 0 1 [AddQuery (MkQuery 0 [97] [] None None)]] /\
  forall w : @Worker Z Z, foldM (fun w m => deliver (Token := Z) id SyncExample.never_expires SystemExample.anyone w m 0) (worker_new 0)
    (outgoing_message_queue (resend_ongoing_queries_mutations unsent)) <> Ret w.
Proof.
  split; [vm_compute; reflexivity|].
  apply (unsent_messages_break_restart id SyncExample.never_expires SystemExample.anyone unsent 0 1 [AddQuery (MkQuery 0 [97] [] None None)] 0 0).
  vm_compute. left.
Defined.
