(* ===== verification/SchemaModel.v ===== *)
(** * SchemaModel: the life of a schema
      (src/crates/database/src/bootstrap_model/schema/mod.rs,
       schema_validation_progress/mod.rs, and what they use of table.rs,
       system_metadata.rs and transaction.rs)

    The operations on the schemas of one namespace inside a transaction: a
    schema is submitted, validated, made active, fails or is overwritten, and
    every document written is checked against the active schema and against the
    one in progress.  [SchemaTx] is what the transaction sees of the namespace:
    its tables, the [_schemas] documents and their registry, the validation
    progress and the documents of user tables.  An operation that fails keeps
    the changes it had made, as the transaction does.  The ids, numbers and
    creation times that the transaction generates are arguments; read
    dependencies are left to SchemaRegistry.v, index metadata to
    IndexRegistry.v. *)

From S2P Require Import Prelude Ord BTreeMap Identifier Value Sorting SortingDecode Base32 IdV6 Document TableMapping IndexRegistry Validator Shape Schema TableRegistry SchemaRegistry.

Local Open Scope Z_scope.

#[global] Instance Validator_EqDecision : EqDecision Validator.
Proof. intros a b. destruct (validator_eqb a b) eqn:E; [left; by apply validator_eqb_eq|right; intros H%validator_eqb_eq; congruence]. Defined.
#[global] Instance DocumentSchema_EqDecision : EqDecision DocumentSchema.
Proof. solve_decision. Defined.
#[global] Instance TextIndexSchema_EqDecision : EqDecision TextIndexSchema.
Proof. solve_decision. Defined.
#[global] Instance VectorIndexSchema_EqDecision : EqDecision VectorIndexSchema.
Proof. solve_decision. Defined.
#[global] Instance TableDefinition_EqDecision : EqDecision TableDefinition.
Proof. solve_decision. Defined.
#[global] Instance DatabaseSchema_EqDecision : EqDecision DatabaseSchema.
Proof. solve_decision. Defined.

(** ** State *)

(** [SchemaValidationProgressMetadata], kept by schema. *)
Record Progress := MkProgress { num_docs_validated : Z; total_docs : option Z }.

Record SchemaTx := MkSchemaTx {
  st_tables : TableRegistry;
  st_schemas : BTreeMap.t ResolvedDocumentId SchemaMetadata;
  st_created : BTreeMap.t ResolvedDocumentId Z;
  st_registry : NamespacedSchemaRegistry;
  st_progress : BTreeMap.t ResolvedDocumentId Progress;
  st_docs : BTreeMap.t ResolvedDocumentId PackedDocument;
}.

Inductive model_error :=
| RegistryFailed (e : schemas_error)
| MappingFailed (e : mapping_error)
| TablesFailed (e : table_error)
| Enforced (e : SchemaEnforcementError)
| StateNotUnique
| PendingAndValidated
| NonexistentDocument
| DuplicateDocument
| NotSystemTable
| TooManyTables
| BadSerialization
| SchemaNotFound
| AlreadyValidated
| AlreadyActive
| SchemaAlreadyFailed (error : list Z)
| SchemaAlreadyOverwritten
| ExpectedValidated
| ActiveCannotFail
| TimeUnderflow.

(** ** Operations in a transaction: state and errors *)

Definition txm (A : Type) : Type := SchemaTx -> SchemaTx * outcome model_error A.

Definition mret {A} (a : A) : txm A := fun s => (s, Ret a).
Definition mbind {A B} (m : txm A) (k : A -> txm B) : txm B := fun s =>
  match m s with
  | (s', Ret a) => k a s'
  | (s', Err e) => (s', Err e)
  | (s', Panic) => (s', Panic)
  end.
Definition mlift {A} (m : outcome model_error A) : txm A := fun s => (s, m).
Definition mget {A} (f : SchemaTx -> A) : txm A := fun s => (s, Ret (f s)).
Definition mset (f : SchemaTx -> SchemaTx) : txm unit := fun s => (f s, Ret tt).

Notation "'let!' x ':=' m 'in' k" := (mbind m (fun x => k))
  (at level 10, x pattern, m at level 100, k at level 200) : rust_scope.
Notation "m ';!' k" := (mbind m (fun _ => k)) (at level 100, k at level 200, right associativity) : rust_scope.

Definition mensure (b : bool) (e : model_error) : txm unit := mlift (ensure b e).

Fixpoint mfor {A} (f : A -> txm unit) (l : list A) : txm unit :=
  match l with [] => mret tt | x :: l => f x ;! mfor f l end.

Definition mapping_of (s : SchemaTx) : TableMapping := table_mapping (st_tables s).

Definition with_tables (t : TableRegistry) (s : SchemaTx) : SchemaTx :=
  MkSchemaTx t (st_schemas s) (st_created s) (st_registry s) (st_progress s) (st_docs s).
Definition with_progress (p : BTreeMap.t ResolvedDocumentId Progress) (s : SchemaTx) : SchemaTx :=
  MkSchemaTx (st_tables s) (st_schemas s) (st_created s) (st_registry s) p (st_docs s).
Definition with_docs (d : BTreeMap.t ResolvedDocumentId PackedDocument) (s : SchemaTx) : SchemaTx :=
  MkSchemaTx (st_tables s) (st_schemas s) (st_created s) (st_registry s) (st_progress s) d.

(** A write to a [_schemas] document goes to the registry as well
    ([apply_validated_write]). *)
Definition write_schema (i : ResolvedDocumentId) (new : option SchemaMetadata) (s : SchemaTx) : SchemaTx :=
  MkSchemaTx (st_tables s) (set_schema (st_schemas s) i new) (st_created s)
    (apply_change (st_schemas s) (st_registry s) (i, new)) (st_progress s) (st_docs s).

Definition set_created (i : ResolvedDocumentId) (time : Z) (s : SchemaTx) : SchemaTx :=
  MkSchemaTx (st_tables s) (st_schemas s) (BTreeMap.insert i time (st_created s)) (st_registry s) (st_progress s) (st_docs s).

Section model.
(** The namespace, the virtual tables, the JSON of schemas, the text of errors,
    and the creation time one hour before the transaction began. *)
Context (ns : TableNamespace) (vm : VirtualSystemMapping).
Context (json_deserialize : list Z -> option DatabaseSchema) (json_serialize : DatabaseSchema -> option (list Z)).
Context (error_string : SchemaValidationError -> list Z) (hour_ago : option Z).

Definition ns_mapping (s : SchemaTx) : NamespacedTableMapping := mapping_namespace (mapping_of s) ns.

(** *** System metadata *)

(** [patch(id, {state})] and [delete] of [SystemMetadataModel] on a [_schemas] document. *)
Definition patch_schema_state (i : ResolvedDocumentId) (state : SchemaState) : txm unit :=
  let! m := mget mapping_of in
  mensure (is_system_tablet m (tablet_id i)) NotSystemTable ;!
  let! old := mget (fun s => BTreeMap.get i (st_schemas s)) in
  let! old := mlift (ok_or old NonexistentDocument) in
  mset (write_schema i (Some (MkSchemaMetadata state (raw_schema old)))).

Definition delete_schema_document (i : ResolvedDocumentId) : txm unit :=
  let! m := mget mapping_of in
  mensure (is_system_tablet m (tablet_id i)) NotSystemTable ;!
  let! old := mget (fun s => BTreeMap.get i (st_schemas s)) in
  let! _ := mlift (ok_or old NonexistentDocument) in
  mset (write_schema i None).

(** [insert]: [i] and [time] are the id and creation time it generates. *)
Definition insert_schema_document (i : ResolvedDocumentId) (time : Z) (metadata : SchemaMetadata) : txm unit :=
  let! table_id := mget (fun s => name_to_id (ns_mapping s) SCHEMAS_TABLE) in
  let! _ := mlift (lift_err MappingFailed table_id) in
  let! existing := mget (fun s => BTreeMap.get i (st_schemas s)) in
  mensure (match existing with None => true | Some _ => false end) DuplicateDocument ;!
  mset (fun s => set_created i time (write_schema i (Some metadata) s)).

(** *** Validation progress *)

Definition initialize_schema_validation_progress (i : ResolvedDocumentId) (total : option Z) : txm unit :=
  mset (fun s => with_progress (BTreeMap.insert i (MkProgress 0 total) (st_progress s)) s).

Definition update_schema_validation_progress (i : ResolvedDocumentId) (num : Z) (total : option Z) : txm bool :=
  let! existing := mget (fun s => BTreeMap.get i (st_progress s)) in
  match existing with
  | None => mret false
  | Some existing =>
      let new := MkProgress (num_docs_validated existing + num) (match total_docs existing with Some t => Some t | None => total end) in
      mset (fun s => with_progress (BTreeMap.insert i new (st_progress s)) s) ;! mret true
  end.

Definition delete_schema_validation_progress (i : ResolvedDocumentId) : txm unit :=
  mset (fun s => with_progress (BTreeMap.remove i (st_progress s)) s).

(** *** States *)

Definition get_schema_by_state (state : SchemaState) : txm (option (ResolvedDocumentId * DatabaseSchema)) :=
  mensure (is_unique state) StateNotUnique ;!
  let! exists_ := mget (fun s => name_exists (ns_mapping s) SCHEMAS_TABLE) in
  if negb exists_ then mret None
  else
    let! registry := mget st_registry in
    mlift (lift_err RegistryFailed (namespaced_get json_deserialize registry state)).

(** The documents of [_schemas] in the order of [by_creation_time]. *)
Definition schemas_by_creation_time (s : SchemaTx) : list (ResolvedDocumentId * (Z * SchemaMetadata)) :=
  map (fun e : (Z * ResolvedDocumentId) * SchemaMetadata => (e.1.2, (e.1.1, e.2)))
    (fold_left (fun m (e : ResolvedDocumentId * SchemaMetadata) =>
      BTreeMap.insert (default 0 (BTreeMap.get e.1 (st_created s)), e.1) e.2 m) (st_schemas s) []).

Fixpoint delete_old_loop (l : list (ResolvedDocumentId * (Z * SchemaMetadata))) : txm unit :=
  match l with
  | [] => mret tt
  | (i, (time, md)) :: l =>
      if is_unique (sm_state md) then delete_old_loop l
      else
        let! limit := mlift (ok_or hour_ago TimeUnderflow) in
        if limit <? time then mret tt
        else delete_schema_document i ;! delete_old_loop l
  end.

Definition delete_old_failed_and_overwritten_schemas : txm unit :=
  let! l := mget schemas_by_creation_time in delete_old_loop l.

(** The table named in the error. *)
Definition error_table (error : SchemaValidationError) : list Z :=
  match error with
  | ExistingDocument _ table_name _ => table_name
  | NewDocument _ table_name => table_name
  | ValidationTableCannotBeDeleted table_name => table_name
  | ValidationReferencedTableCannotBeDeleted _ table_name => table_name
  end.

(** [self.tx.get(id)] and its parsed metadata. *)
Definition get_schema (i : ResolvedDocumentId) : txm SchemaMetadata :=
  let! doc := mget (fun s => BTreeMap.get i (st_schemas s)) in
  mlift (ok_or doc SchemaNotFound).

Definition mark_failed (i : ResolvedDocumentId) (error : SchemaValidationError) : txm unit :=
  let! schema := get_schema i in
  match sm_state schema with
  | SchemaPending | SchemaValidated => patch_schema_state i (SchemaFailed (error_string error) (Some (error_table error)))
  | SchemaActive => mlift (Err ActiveCannotFail)
  | SchemaFailed _ _ | SchemaOverwritten => mret tt
  end ;!
  delete_old_failed_and_overwritten_schemas ;!
  delete_schema_validation_progress i.

Definition mark_overwritten (i : ResolvedDocumentId) : txm unit :=
  patch_schema_state i SchemaOverwritten ;!
  delete_old_failed_and_overwritten_schemas ;!
  delete_schema_validation_progress i.

Definition overwrite_by_state (state : SchemaState) : txm bool :=
  let! found := get_schema_by_state state in
  match found with
  | Some (i, _) => mark_overwritten i ;! mret true
  | None => mret false
  end.

Definition clear_active : txm unit := let! _ := overwrite_by_state SchemaActive in mret tt.

Definition overwrite_all : txm bool :=
  let! a := overwrite_by_state SchemaPending in
  let! b := overwrite_by_state SchemaActive in
  let! c := overwrite_by_state SchemaValidated in
  mret (c || (b || a)).

Definition mark_validated (i : ResolvedDocumentId) : txm unit :=
  let! schema := get_schema i in
  match sm_state schema with
  | SchemaPending => patch_schema_state i SchemaValidated
  | SchemaValidated => mlift (Err AlreadyValidated)
  | SchemaActive => mlift (Err AlreadyActive)
  | SchemaFailed error _ => mlift (Err (SchemaAlreadyFailed error))
  | SchemaOverwritten => mlift (Err SchemaAlreadyOverwritten)
  end.

Definition get_validated_or_active (i : ResolvedDocumentId) : txm SchemaMetadata :=
  let! schema := get_schema i in
  match sm_state schema with
  | SchemaPending => mlift (Err ExpectedValidated)
  | SchemaValidated | SchemaActive => mret schema
  | SchemaFailed error _ => mlift (Err (SchemaAlreadyFailed error))
  | SchemaOverwritten => mlift (Err SchemaAlreadyOverwritten)
  end.

Definition mark_active (i : ResolvedDocumentId) : txm unit :=
  let! schema := get_validated_or_active i in
  delete_schema_validation_progress i ;!
  match sm_state schema with
  | SchemaActive => mret tt
  | SchemaValidated => clear_active ;! patch_schema_state i SchemaActive
  | _ => mlift (Err ExpectedValidated)
  end.

Definition apply (schema_id : option ResolvedDocumentId) : txm (option (option DatabaseSchema * option DatabaseSchema) * option DatabaseSchema) :=
  let! previous := get_schema_by_state SchemaActive in
  let previous_schema := option_map snd previous in
  let! next_schema :=
    match schema_id with
    | Some i =>
        let! md := get_validated_or_active i in
        let! schema := mlift (ok_or (json_deserialize (raw_schema md)) BadSerialization) in mret (Some schema)
    | None => mret None
    end in
  let schema_diff := if bool_decide (previous_schema = next_schema) then None else Some (previous_schema, next_schema) in
  match schema_id with Some i => mark_active i | None => clear_active end ;!
  mret (schema_diff, next_schema).

(** *** Tables *)

Definition MAX_USER_TABLES : nat := 10000.

(** [TableModel::insert_table_metadata]: [alloc] are the tablet and the number
    that a new table gets. *)
Definition insert_table_metadata (alloc : list Z -> list Z * Z) (name : list Z) : txm unit :=
  if is_system name then mret tt
  else
    let! tables := mget st_tables in
    if table_exists tables ns name then mret tt
    else
      mensure (length (mapping_iter_active_user_tables (table_mapping tables)) <? MAX_USER_TABLES)%nat TooManyTables ;!
      let '(tablet, number) := alloc name in
      mensure (match table_state tables tablet with None => true | Some _ => false end) DuplicateDocument ;!
      mlift (lift_err TablesFailed (validate_table_number tables ns number name)) ;!
      let! tables := mlift (apply_update tables (Some (MkTableUpdate ns tablet number name (Create Active)))) in
      mset (with_tables tables).

(** *** Submitting *)

Definition submit_pending (alloc : list Z -> list Z * Z) (new_id : ResolvedDocumentId) (time : Z) (schema : DatabaseSchema)
    : txm (ResolvedDocumentId * SchemaState) :=
  mfor (fun name => let! exists_ := mget (fun s => table_exists (st_tables s) ns name) in
                    if exists_ : bool then mret tt else insert_table_metadata alloc name) (map fst (tables schema)) ;!
  let! active := get_schema_by_state SchemaActive in
  let! unchanged := match active with
  | Some (active_id, active_schema) =>
      if bool_decide (active_schema = schema) then
        (let! pending := get_schema_by_state SchemaPending in
         match pending with Some (i, _) => mark_overwritten i | None => mret tt end) ;!
        (let! validated := get_schema_by_state SchemaValidated in
         match validated with Some (i, _) => mark_overwritten i | None => mret tt end) ;!
        mret (Some active_id)
      else mret None
  | None => mret None
  end in
  match unchanged with
  | Some i => mret (i, SchemaActive)
  | None =>
      let! pending := get_schema_by_state SchemaPending in
      let! validated := get_schema_by_state SchemaValidated in
      let! existing :=
        match pending, validated with
        | Some _, Some _ => mlift (Err PendingAndValidated)
        | Some (i, existing_schema), None =>
            if bool_decide (existing_schema = schema) then mret (Some (i, SchemaPending)) else mark_overwritten i ;! mret None
        | None, Some (i, existing_schema) =>
            if bool_decide (existing_schema = schema) then mret (Some (i, SchemaValidated)) else mark_overwritten i ;! mret None
        | None, None => mret None
        end in
      match existing with
      | Some r => mret r
      | None =>
          let! raw := mlift (ok_or (json_serialize schema) BadSerialization) in
          insert_schema_document new_id time (MkSchemaMetadata SchemaPending raw) ;!
          mret (new_id, SchemaPending)
      end
  end.
(** *** Enforcement *)

Definition mcheck (m : outcome SchemaEnforcementError unit) : txm (option SchemaEnforcementError) :=
  match m with Ret _ => mret None | Err e => mret (Some e) | Panic => mlift Panic end.

(** A schema in progress fails when the check does. *)
Definition fail_in_progress (check : DatabaseSchema -> outcome SchemaEnforcementError unit) : txm unit :=
  let! pending := get_schema_by_state SchemaPending in
  let! validated := get_schema_by_state SchemaValidated in
  match pending, validated with
  | None, None => mret tt
  | Some (i, in_progress_schema), None | None, Some (i, in_progress_schema) =>
      let! failed := mcheck (check in_progress_schema) in
      match failed with
      | Some enforcement_error => mark_failed i (enforcement_to_validation enforcement_error)
      | None => mret tt
      end
  | Some _, Some _ => mlift (Err PendingAndValidated)
  end.

(** The active schema rejects; then the schema in progress fails. *)
Definition enforce_check (check : DatabaseSchema -> outcome SchemaEnforcementError unit) : txm unit :=
  let! active := get_schema_by_state SchemaActive in
  match active with
  | Some (_, active_schema) => mlift (lift_err Enforced (check active_schema))
  | None => mret tt
  end ;!
  fail_in_progress check.

Definition enforce_with_table_mapping (document : PackedDocument) (table_mapping_for_schema : NamespacedTableMapping) : txm unit :=
  let! table_name := mlift (lift_err MappingFailed (ns_tablet_name table_mapping_for_schema (tablet_id (id document)))) in
  enforce_check (fun schema => check_new_document schema document table_name table_mapping_for_schema vm).

Definition enforce (document : PackedDocument) : txm unit :=
  let! m := mget mapping_of in
  if is_system_tablet m (tablet_id (id document)) then mret tt
  else enforce_with_table_mapping document (mapping_namespace m ns).

Definition enforce_table_deletion (active_table_to_delete : list Z) : txm unit :=
  enforce_check (fun schema => check_delete_table schema active_table_to_delete).

(** *** Documents and tables of the transaction *)

Definition insert_document (document : PackedDocument) : txm ResolvedDocumentId :=
  let! m := mget mapping_of in
  let! _ := mlift (lift_err MappingFailed (tablet_namespace m (tablet_id (id document)))) in
  enforce document ;!
  let! existing := mget (fun s => BTreeMap.get (id document) (st_docs s)) in
  mensure (match existing with None => true | Some _ => false end) DuplicateDocument ;!
  mset (fun s => with_docs (BTreeMap.insert (id document) document (st_docs s)) s) ;!
  mret (id document).

(** [replace_inner] and [patch_inner]: [new_value] makes the new value from the old. *)
Definition replace_inner (i : ResolvedDocumentId) (new_value : ConvexValue -> outcome model_error ConvexValue) : txm PackedDocument :=
  let! m := mget mapping_of in
  let! _ := mlift (lift_err MappingFailed (tablet_namespace m (tablet_id i))) in
  let! old := mget (fun s => BTreeMap.get i (st_docs s)) in
  let! old := mlift (ok_or old NonexistentDocument) in
  let! v := mlift (new_value (value old)) in
  let new_document := MkDoc v i in
  enforce new_document ;!
  mset (fun s => with_docs (BTreeMap.insert i new_document (st_docs s)) s) ;!
  mret new_document.

Definition delete_inner (i : ResolvedDocumentId) : txm PackedDocument :=
  let! m := mget mapping_of in
  let! _ := mlift (lift_err MappingFailed (tablet_name m (tablet_id i))) in
  let! old := mget (fun s => BTreeMap.get i (st_docs s)) in
  let! old := mlift (ok_or old NonexistentDocument) in
  mset (fun s => with_docs (BTreeMap.remove i (st_docs s)) s) ;!
  mret old.

(** [delete_active_table]: the documents of a tablet that is being deleted are no
    longer part of the database. *)
Definition delete_active_table (name : list Z) : txm unit :=
  let! tables := mget st_tables in
  if negb (table_exists tables ns name) then mret tt
  else
    enforce_table_deletion name ;!
    let! tables := mget st_tables in
    let! table_id := mlift (lift_err MappingFailed (name_to_id (mapping_namespace (table_mapping tables) ns) name)) in
    let! tables := mlift (apply_update tables (Some (MkTableUpdate ns (it_tablet table_id) (it_number table_id) name Drop))) in
    mset (with_tables tables) ;!
    mset (fun s => with_docs (bfilter (fun e : ResolvedDocumentId * PackedDocument => negb (bool_decide (tablet_id e.1 = it_tablet table_id))) (st_docs s)) s).
End model.

(** ** What every operation maintains *)

(** The arrows of the diagram in schema_state.rs. *)
Inductive state_step : SchemaState -> SchemaState -> Prop :=
| step_validated : state_step SchemaPending SchemaValidated
| step_active : state_step SchemaValidated SchemaActive
| step_pending_failed error table : state_step SchemaPending (SchemaFailed error table)
| step_validated_failed error table : state_step SchemaValidated (SchemaFailed error table)
| step_overwritten s : is_unique s = true -> state_step s SchemaOverwritten.

Definition state_path : SchemaState -> SchemaState -> Prop := rtc state_step.

Lemma step_from_unique s s' : state_step s s' -> is_unique s = true.
Proof. by destruct 1. Qed.

Lemma path_to_pending s : state_path s SchemaPending -> s = SchemaPending.
Proof. intros Hp. apply rtc_inv_r in Hp as [->|(y & _ & Hy)]; [done|inversion Hy]. Qed.

Section invariant.
Context (ns : TableNamespace) (vm : VirtualSystemMapping) (json_deserialize : list Z -> option DatabaseSchema).
Notation ns_mapping := (ns_mapping ns).

Definition schema_of (s : SchemaTx) (i : ResolvedDocumentId) : option SchemaMetadata := BTreeMap.get i (st_schemas s).
Definition doc_of (s : SchemaTx) (i : ResolvedDocumentId) : option PackedDocument := BTreeMap.get i (st_docs s).

(** A schema accepts a document, and all documents of the namespace. *)
Definition accepts_doc (schema : DatabaseSchema) (s : SchemaTx) (d : PackedDocument) : Prop :=
  schema_check_value schema d (ns_mapping s) vm = Ret tt.
Definition accepts (schema : DatabaseSchema) (s : SchemaTx) : Prop := forall i d, doc_of s i = Some d -> accepts_doc schema s d.

(** Documents are objects in user tables of the namespace. *)
Definition doc_ok (m : TableMapping) (i : ResolvedDocumentId) (d : PackedDocument) : Prop :=
  id d = i /\ (exists o, value d = Object o /\ valid (Object o) = true) /\
  exists n name, tablet_lookup m (tablet_id i) = Some (ns, n, name) /\ is_system name = false.

(** Every tablet of the mapping is active, and names and numbers resolve. *)
Record tables_ok (t : TableRegistry) : Prop := {
  tok_wf : mapping_wf (table_mapping t);
  tok_states_wf : BTreeMap.wf (tablet_states t);
  tok_states i : is_Some (tablet_lookup (table_mapping t) i) -> is_Some (table_state t i);
  tok_tablets i ns' n name : tablet_lookup (table_mapping t) i = Some (ns', n, name) ->
    name_lookup (table_mapping t) ns' name = Some i /\ number_lookup (table_mapping t) ns' n = Some i;
  tok_names ns' name i : name_lookup (table_mapping t) ns' name = Some i -> exists n, tablet_lookup (table_mapping t) i = Some (ns', n, name);
  tok_numbers ns' n i : number_lookup (table_mapping t) ns' n = Some i -> exists name, tablet_lookup (table_mapping t) i = Some (ns', n, name);
}.

(** The documented invariants: at most one schema is pending or validated, and
    at most one is active. *)
Definition one_schema_per_role (s : SchemaTx) : Prop :=
  unique_states (st_schemas s) /\
  forall i j md md', schema_of s i = Some md -> schema_of s j = Some md' -> sm_state md = SchemaPending -> sm_state md' <> SchemaValidated.

Record model_ok (s : SchemaTx) : Prop := {
  mo_follows : registry_follows (st_registry s) (st_schemas s);
  mo_roles : one_schema_per_role s;
  mo_created : BTreeMap.wf (st_created s) /\ forall i, is_Some (schema_of s i) -> is_Some (BTreeMap.get i (st_created s));
  mo_tables : tables_ok (st_tables s);
  mo_table : is_Some (name_lookup (mapping_of s) ns SCHEMAS_TABLE);
  mo_docs : BTreeMap.wf (st_docs s) /\ forall i d, doc_of s i = Some d -> doc_ok (mapping_of s) i d;
  mo_accepts i md schema : schema_of s i = Some md -> sm_state md = SchemaValidated \/ sm_state md = SchemaActive ->
    json_deserialize (raw_schema md) = Some schema -> accepts schema s;
}.

(** What a schema accepts, it accepts after the tables changed. *)
Definition keeps (schema : DatabaseSchema) (s s' : SchemaTx) : Prop :=
  forall d o, value d = Object o -> valid (Object o) = true -> is_Some (table_state (st_tables s) (tablet_id (id d))) ->
    accepts_doc schema s d -> accepts_doc schema s' d.

(** How the state evolves: schemas move along the arrows, and while one stays
    pending the documents written conform to it and no table it needs goes. *)
Record evolves (s s' : SchemaTx) : Prop := {
  ev_created i : is_Some (BTreeMap.get i (st_created s)) -> is_Some (BTreeMap.get i (st_created s'));
  ev_tables t : is_Some (table_state (st_tables s) t) -> is_Some (table_state (st_tables s') t);
  ev_schema i md' : is_Some (BTreeMap.get i (st_created s)) -> schema_of s' i = Some md' ->
    exists md, schema_of s i = Some md /\ raw_schema md = raw_schema md' /\ state_path (sm_state md) (sm_state md');
  ev_docs i md' schema : is_Some (BTreeMap.get i (st_created s)) -> schema_of s' i = Some md' -> sm_state md' = SchemaPending ->
    json_deserialize (raw_schema md') = Some schema ->
    keeps schema s s' /\ forall j d, doc_of s' j = Some d -> doc_of s j = Some d \/ accepts_doc schema s' d;
}.

Lemma evolves_refl s : evolves s s.
Proof.
  constructor; [done|done| |].
  - intros i md _ Hi. exists md. split_and!; [done|done|apply rtc_refl].
  - intros i md schema _ _ _ _. split; [by intros d o _ _ _|by left].
Qed.

Lemma doc_used s i d : model_ok s -> doc_of s i = Some d -> is_Some (table_state (st_tables s) (tablet_id (id d))).
Proof.
  intros Hs Hd. destruct (proj2 (mo_docs s Hs) i d Hd) as (-> & _ & n & name & Hl & _).
  apply (tok_states _ (mo_tables s Hs)). by eexists.
Qed.

Lemma evolves_trans s1 s2 s3 : model_ok s2 -> evolves s1 s2 -> evolves s2 s3 -> evolves s1 s3.
Proof.
  intros Hok [C1 T1 S1 D1] [C2 T2 S2 D2]. constructor; [auto|auto| |].
  - intros i md3 Hc H3. destruct (S2 i md3 (C1 i Hc) H3) as (md2 & H2 & Hr & Hp). destruct (S1 i md2 Hc H2) as (md1 & H1 & Hr1 & Hp1).
    exists md1. split_and!; [done|congruence|by etrans].
  - intros i md3 schema Hc H3 Hst Hj. destruct (S2 i md3 (C1 i Hc) H3) as (md2 & H2 & Hr & Hp). rewrite Hst in Hp. apply path_to_pending in Hp.
    rewrite <- Hr in Hj. destruct (D1 i md2 schema Hc H2 Hp Hj) as [K1 W1]. rewrite Hr in Hj.
    destruct (D2 i md3 schema (C1 i Hc) H3 Hst Hj) as [K2 W2]. split.
    + intros d o Hv Hval Hu Ha. apply (K2 d o Hv Hval (T1 _ Hu)). by apply (K1 d o).
    + intros j d [H2d|Ha]%W2; [|by right]. pose proof (doc_used s2 j d Hok H2d) as Hu.
      destruct (proj2 (mo_docs s2 Hok) j d H2d) as (_ & (o & Hv & Hval) & _). apply W1 in H2d as [H1d|Ha]; [by left|right]. by apply (K2 d o).
Qed.

(** *** Specifications of operations *)

Definition spec {A} (P : SchemaTx -> Prop) (m : txm A) (Q : A -> SchemaTx -> Prop) : Prop :=
  forall s, model_ok s -> P s -> model_ok (m s).1 /\ evolves s (m s).1 /\ forall a, (m s).2 = Ret a -> Q a (m s).1.

Lemma spec_bind {A B} (P : SchemaTx -> Prop) (m : txm A) Q (k : A -> txm B) R :
  spec P m Q -> (forall a, spec (Q a) (k a) R) -> spec P (mbind m k) R.
Proof.
  intros Hm Hk s Hs HP. destruct (Hm s Hs HP) as (Hs1 & He1 & HQ). unfold mbind. destruct (m s) as [s1 [a|e|]]; cbn [fst snd] in *; [|done|done].
  destruct (Hk a s1 Hs1 (HQ a eq_refl)) as (Hs2 & He2 & HR). split_and!; [done|by apply (evolves_trans s s1)|done].
Qed.

Lemma spec_seq {A B} (P Q : SchemaTx -> Prop) (m : txm A) (k : txm B) R : spec P m (fun _ => Q) -> spec Q k R -> spec P (m ;! k) R.
Proof. intros Hm Hk. by eapply spec_bind. Qed.

Lemma spec_ret {A} (P : SchemaTx -> Prop) (a : A) (Q : A -> SchemaTx -> Prop) : (forall s, model_ok s -> P s -> Q a s) -> spec P (mret a) Q.
Proof. intros HQ s Hs HP. split_and!; [done|apply evolves_refl|]. intros a' [= <-]. by apply HQ. Qed.

Lemma spec_lift {A} (P : SchemaTx -> Prop) (m : outcome model_error A) (Q : A -> SchemaTx -> Prop) :
  (forall s a, model_ok s -> P s -> m = Ret a -> Q a s) -> spec P (mlift m) Q.
Proof. intros HQ s Hs HP. split_and!; [done|apply evolves_refl|]. intros a Ha. by apply HQ. Qed.

Lemma spec_get {A} (P : SchemaTx -> Prop) (f : SchemaTx -> A) : spec P (mget f) (fun a s => P s /\ a = f s).
Proof. intros s Hs HP. split_and!; [done|apply evolves_refl|]. by intros a [= <-]. Qed.

Lemma spec_ensure (P : SchemaTx -> Prop) b e : spec P (mensure b e) (fun _ s => P s /\ b = true).
Proof. apply spec_lift. intros s [] _ HP. by destruct b. Qed.

Lemma spec_weaken {A} (P P' : SchemaTx -> Prop) (m : txm A) (Q Q' : A -> SchemaTx -> Prop) :
  spec P' m Q' -> (forall s, P s -> P' s) -> (forall a s, Q' a s -> Q a s) -> spec P m Q.
Proof. intros Hm HP HQ s Hs H. destruct (Hm s Hs (HP s H)) as (? & ? & ?). split_and!; eauto. Qed.

Lemma spec_pre {A} (P P' : SchemaTx -> Prop) (m : txm A) (Q : A -> SchemaTx -> Prop) :
  spec P' m Q -> (forall s, P s -> P' s) -> spec P m Q.
Proof. intros Hm HP s Hs H. apply Hm; auto. Qed.

Lemma spec_conj {A} (P P' : SchemaTx -> Prop) (m : txm A) (Q Q' : A -> SchemaTx -> Prop) :
  spec P m Q -> spec P' m Q' -> spec (fun s => P s /\ P' s) m (fun a s => Q a s /\ Q' a s).
Proof. intros H H' s Hs [HP HP']. destruct (H s Hs HP) as (? & ? & ?), (H' s Hs HP') as (_ & _ & ?). split_and!; eauto. Qed.

Lemma spec_fail {A} P (e : model_error) (Q : A -> SchemaTx -> Prop) : spec P (mlift (Err e)) Q.
Proof. by apply spec_lift. Qed.

(** *** Changes of a schema document *)

(** The roles of a schema that can be used for writes. *)
Definition role (state : SchemaState) : option bool :=
  match state with SchemaPending | SchemaValidated => Some false | SchemaActive => Some true | _ => None end.

Lemma role_unique state : is_unique state = true <-> is_Some (role state).
Proof. destruct state; cbn; split; intros H; first [done|by eexists|by destruct H]. Qed.

Lemma roles_alt s : one_schema_per_role s <->
  forall i j md md', schema_of s i = Some md -> schema_of s j = Some md' -> is_Some (role (sm_state md)) -> role (sm_state md') = role (sm_state md) -> i = j /\ md = md'.
Proof.
  split.
  - intros [Hu Hne] i j md md' Hi Hj Hr He. assert (Hs : sm_state md' = sm_state md).
    { pose proof (Hne i j md md' Hi Hj) as N1. pose proof (Hne j i md' md Hj Hi) as N2.
      destruct (sm_state md), (sm_state md'); try done; try (by destruct Hr); naive_solver. }
    assert (i = j) as <- by (apply (Hu i j md md'); [done|done|by apply role_unique|done]). split; [done|congruence].
  - intros H. split.
    + intros i j md md' Hi Hj Hu He. apply (H i j md md'); [done|done|by apply role_unique|by rewrite He].
    + intros i j md md' Hi Hj Hp Hv. destruct (H i j md md' Hi Hj) as [_ ->]; [by rewrite Hp; eexists|by rewrite Hp, Hv|congruence].
Qed.

(** A change of one document along an arrow, its removal, or a new one. *)
Lemma schema_change_ok s s' i new :
  model_ok s -> st_tables s' = st_tables s -> st_docs s' = st_docs s ->
  st_schemas s' = set_schema (st_schemas s) i new -> st_registry s' = apply_change (st_schemas s) (st_registry s) (i, new) ->
  BTreeMap.wf (st_created s') -> (forall j, is_Some (BTreeMap.get j (st_created s)) -> is_Some (BTreeMap.get j (st_created s'))) ->
  (is_Some new -> is_Some (BTreeMap.get i (st_created s'))) ->
  (forall md', new = Some md' ->
    (exists md, schema_of s i = Some md /\ raw_schema md = raw_schema md' /\ state_step (sm_state md) (sm_state md')) \/
    (schema_of s i = None /\ ~ is_Some (BTreeMap.get i (st_created s)))) ->
  (forall md' j md, new = Some md' -> is_Some (role (sm_state md')) -> j <> i -> schema_of s j = Some md -> role (sm_state md) <> role (sm_state md')) ->
  (forall md' schema, new = Some md' -> sm_state md' = SchemaValidated \/ sm_state md' = SchemaActive ->
    json_deserialize (raw_schema md') = Some schema -> accepts schema s) ->
  model_ok s' /\ evolves s s'.
Proof.
  intros [Hf Hr [Hcw Hc] Ht Htab Hd Ha] Et Ed Es Er Hcw' Hcr Hci Hstep Hrole Hacc.
  assert (Hget : forall j, schema_of s' j = if decide (j = i) then new else schema_of s j).
  { intros j. unfold schema_of. rewrite Es. by apply get_set_schema, Hf. }
  assert (Hdoc : forall j, doc_of s' j = doc_of s j) by (intros j; unfold doc_of; by rewrite Ed).
  assert (Hm : mapping_of s' = mapping_of s) by (unfold mapping_of; by rewrite Et).
  assert (Hacc' : forall schema d, accepts_doc schema s' d <-> accepts_doc schema s d) by (intros; unfold accepts_doc, ns_mapping; by rewrite Hm).
  assert (Hr' : one_schema_per_role s').
  { apply roles_alt. intros j k md md' Hj Hk Hrj Hrk. rewrite Hget in Hj, Hk. destruct (decide (j = i)) as [->|Hji], (decide (k = i)) as [->|Hki].
    - split; [done|congruence].
    - exfalso. by apply (Hrole md k md').
    - exfalso. apply (Hrole md' j md); [done|by rewrite Hrk|done|done|done].
    - by apply (proj1 (roles_alt s) Hr). }
  split.
  - constructor.
    + rewrite Er, Es. apply change_follows; [done|apply Hr| |].
      * rewrite <- Es. apply Hr'.
      * intros md md' Hi Hn Hu. destruct (Hstep md' Hn) as [(md0 & H0 & _ & Hst)|[H0 _]]; unfold schema_of in H0; [|congruence].
        rewrite Hi in H0. injection H0 as <-. by eapply step_from_unique.
    + done.
    + split; [done|]. intros j. rewrite Hget. destruct (decide (j = i)) as [->|]; [done|]. intros Hj. by apply Hcr, Hc.
    + by rewrite Et.
    + by rewrite Hm.
    + rewrite Ed, Hm. split; [apply Hd|]. intros j d. rewrite Hdoc. by apply Hd.
    + intros j md schema Hj Hst Hjs k d Hk. apply Hacc'. rewrite Hdoc in Hk. rewrite Hget in Hj. destruct (decide (j = i)) as [->|].
      * by apply (Hacc md schema Hj Hst Hjs k).
      * by apply (Ha j md schema Hj Hst Hjs k).
  - constructor; [done|by rewrite Et| |].
    + intros j md' Hj Hs'. rewrite Hget in Hs'. destruct (decide (j = i)) as [->|].
      * destruct (Hstep md' Hs') as [(md & H0 & Hraw & Hst)|[_ Hno]]; [|done]. exists md. split_and!; [done|done|by apply rtc_once].
      * exists md'. split_and!; [done|done|apply rtc_refl].
    + intros j md schema _ _ _ _. split; [|intros k d; rewrite Hdoc; by left].
      intros d o _ _ _. by apply Hacc'.
Qed.

(** Changes that schemas and documents do not see. *)
Lemma progress_ok s p : model_ok s -> model_ok (with_progress p s) /\ evolves s (with_progress p s).
Proof.
  intros []. split; [by constructor|]. constructor; [done|done| |].
  - intros i md _ Hi. exists md. split_and!; [done|done|apply rtc_refl].
  - intros i md schema _ _ _ _. split; [by intros d o _ _ _|by left].
Qed.
End invariant.

(** ** The operations keep the invariant *)

Section operations.
Context (ns : TableNamespace) (vm : VirtualSystemMapping).
Context (json_deserialize : list Z -> option DatabaseSchema) (json_serialize : DatabaseSchema -> option (list Z)).
Context (error_string : SchemaValidationError -> list Z) (hour_ago : option Z).
Notation model_ok := (model_ok ns vm json_deserialize).
Notation evolves := (evolves ns vm json_deserialize).
Notation spec := (spec ns vm json_deserialize).
Notation accepts := (accepts ns vm).

Lemma spec_pointwise {A} P (m : txm A) (Q : A -> SchemaTx -> Prop) :
  (forall s1, model_ok s1 -> P s1 -> spec (fun s => s = s1) m Q) -> spec P m Q.
Proof. intros H s Hs HP. by apply (H s Hs HP). Qed.

(** From [s0] to [s], schemas at [I] may have lost their role, and no other. *)
Record retires (I : ResolvedDocumentId -> Prop) (s0 s : SchemaTx) : Prop := {
  re_tables : st_tables s = st_tables s0;
  re_docs : st_docs s = st_docs s0;
  re_created : st_created s = st_created s0;
  re_old j md : schema_of s j = Some md -> is_Some (role (sm_state md)) -> schema_of s0 j = Some md;
  re_keep j md : schema_of s0 j = Some md -> is_Some (role (sm_state md)) -> I j \/ schema_of s j = Some md;
}.

Lemma retires_refl I s : retires I s s.
Proof. constructor; auto. Qed.

Lemma retires_trans (I : ResolvedDocumentId -> Prop) s0 s1 s2 : retires I s0 s1 -> retires I s1 s2 -> retires I s0 s2.
Proof.
  intros [T1 D1 C1 O1 K1] [T2 D2 C2 O2 K2]. constructor; [congruence..| |].
  - intros j md H2 Hr. by apply O1, Hr; apply O2.
  - intros j md H0 Hr. destruct (K1 j md H0 Hr) as [|H1]; [by left|]. by apply K2.
Qed.

Lemma retires_mono (I J : ResolvedDocumentId -> Prop) s0 s : (forall j, I j -> J j) -> retires I s0 s -> retires J s0 s.
Proof. intros HIJ []. constructor; [done..|]. naive_solver. Qed.

(** A schema without a role. *)
Definition retired (i : ResolvedDocumentId) (s : SchemaTx) : Prop := forall md, schema_of s i = Some md -> role (sm_state md) = None.

Lemma retires_retired (I : ResolvedDocumentId -> Prop) i s0 s : retires I s0 s -> retired i s0 -> retired i s.
Proof.
  intros [_ _ _ O _] Hr md Hi. destruct (role (sm_state md)) as [b|] eqn:Hb; [|done]. exfalso.
  specialize (O i md Hi). rewrite Hb in O. specialize (O (mk_is_Some _ _ eq_refl)). specialize (Hr md O). congruence.
Qed.

(** Removing a document without a role, or taking its role away. *)
Lemma retire_write s i new : model_ok s -> (forall md', new = Some md' -> role (sm_state md') = None /\
    exists md, schema_of s i = Some md /\ raw_schema md = raw_schema md' /\ state_step (sm_state md) (sm_state md')) ->
  let s' := write_schema i new s in
  model_ok s' /\ evolves s s' /\ retires (eq i) s s' /\ retired i s' /\ (retired i s -> retires (fun _ => False) s s').
Proof.
  intros Hs Hnew s'. assert (Hget : forall j, schema_of s' j = if decide (j = i) then new else schema_of s j).
  { intros j. by apply get_set_schema, Hs. }
  assert (Hret : retired i s').
  { intros md. rewrite Hget, decide_True by done. intros ->. by apply Hnew. }
  assert (Hre : forall I : ResolvedDocumentId -> Prop, (I i \/ retired i s) -> retires I s s').
  { intros I HI. constructor; [done..| |].
    - intros j md. rewrite Hget. destruct (decide (j = i)) as [->|]; [|done]. intros Hn Hr. exfalso.
      destruct (Hnew md Hn) as [Hno _]. rewrite Hno in Hr. by destruct Hr.
    - intros j md. rewrite Hget. destruct (decide (j = i)) as [->|]; [|by right]. intros Hj Hr. destruct HI as [|Hri]; [by left|].
      rewrite (Hri md Hj) in Hr. by destruct Hr. }
  destruct (schema_change_ok ns vm json_deserialize s s' i new) as [Hok Hev]; [done|done|done|done|done|apply Hs|done| | | | |].
  - intros [md' Hmd']. destruct (Hnew md' Hmd') as (_ & md & Hi & _). apply Hs. by eexists.
  - intros md' Hn. left. by apply Hnew.
  - intros md' j md Hn Hr. destruct (Hnew md' Hn) as [Hno _]. rewrite Hno in Hr. by destruct Hr.
  - intros md' schema Hn Hst. destruct (Hnew md' Hn) as [Hno _]. by destruct Hst as [Hst|Hst]; rewrite Hst in Hno.
  - split_and!; [done|done|apply Hre; by left|done|intros ?; apply Hre; by right].
Qed.

(** One operation that ends in a write, for all its errors. *)
Lemma spec_write_schema (P : SchemaTx -> Prop) (f : SchemaTx -> SchemaTx) Q :
  (forall s, model_ok s -> P s -> model_ok (f s) /\ evolves s (f s) /\ Q tt (f s)) -> spec P (mset f) Q.
Proof. intros H s Hs HP. destruct (H s Hs HP) as (? & ? & ?). split_and!; [done|done|]. by intros [] _. Qed.

Ltac spec_reads := repeat first
  [ eapply spec_bind; [apply spec_get|intros ?; cbn beta]
  | eapply spec_bind; [apply spec_ensure|intros []; cbn beta] ].

Lemma delete_schema_document_ok I i s0 :
  spec (fun s => retires I s0 s /\ retired i s) (delete_schema_document i) (fun _ s => retires I s0 s /\ retired i s).
Proof.
  unfold delete_schema_document. spec_reads. eapply spec_bind; [apply (spec_lift _ _ _ _ _ (fun _ s => retires I s0 s /\ retired i s)); naive_solver|].
  intros ?. cbn beta. apply spec_write_schema. intros s Hs [Hr Hi]. destruct (retire_write s i None Hs) as (? & ? & _ & ? & Hre); [done|].
  split_and!; [done|done| |done]. eapply retires_trans; [exact Hr|]. eapply retires_mono; [|by apply Hre]. done.
Qed.

Lemma patch_retire_ok (I : ResolvedDocumentId -> Prop) i state s0 : role state = None -> I i ->
  spec (fun s => retires I s0 s /\ exists md, schema_of s i = Some md /\ state_step (sm_state md) state)
    (patch_schema_state i state) (fun _ s => retires I s0 s /\ retired i s).
Proof.
  intros Hrole HI. unfold patch_schema_state. spec_reads.
  eapply spec_bind; [apply (spec_lift _ _ _ _ _ (fun old s => retires I s0 s /\ schema_of s i = Some old /\ state_step (sm_state old) state))|].
  - intros s old Hs [[[[Hr (md & Hi & Hst)] _] _] ->]. unfold schema_of in Hi. rewrite Hi. by intros [= <-].
  - intros old. apply spec_write_schema. intros s Hs (Hr & Hi & Hst).
    destruct (retire_write s i (Some (MkSchemaMetadata state (raw_schema old))) Hs) as (? & ? & Hre & ? & _); [intros md' [= <-]; by eauto|].
    split_and!; [done|done| |done]. eapply retires_trans; [exact Hr|]. eapply retires_mono; [|exact Hre]. by intros j <-.
Qed.

Lemma by_creation_time_elem s e : model_ok s -> e ∈ schemas_by_creation_time s -> schema_of s e.1 = Some e.2.2.
Proof.
  intros Hs ([[t i] md] & -> & Hin)%list_elem_of_fmap. cbn [fst snd].
  destruct (fold_insert_spec (fun e : ResolvedDocumentId * SchemaMetadata => (default 0 (BTreeMap.get e.1 (st_created s)), e.1)) snd (st_schemas s) [] I)
    as (Hwf & Hget & _).
  apply BTreeMap.elem_of_get in Hin; [|done]. apply Hget in Hin as [([i' md'] & Hin & [= _ <-] & <-)|?]; [|done]. cbn [fst snd] in *.
  apply BTreeMap.elem_of_get; [apply Hs|done].
Qed.

Lemma delete_old_loop_ok I s0 s1 l : (forall e, e ∈ l -> schema_of s1 e.1 = Some e.2.2) ->
  spec (fun s => retires I s0 s /\ retires (fun _ => False) s1 s) (delete_old_loop hour_ago l)
    (fun _ s => retires I s0 s /\ retires (fun _ => False) s1 s).
Proof.
  induction l as [|[i [time md]] l IH]; intros Hl; cbn [delete_old_loop]; [by apply spec_ret|].
  assert (IH' := IH (fun e He => Hl e (list_elem_of_further _ _ _ He))). destruct (is_unique (sm_state md)) eqn:Hu; [done|].
  eapply spec_bind; [apply (spec_lift _ _ _ _ _ (fun _ s => retires I s0 s /\ retires (fun _ => False) s1 s)); naive_solver|].
  intros limit. cbn beta. destruct (limit <? time); [by apply spec_ret|]. eapply spec_seq; [|exact IH'].
  intros s Hs [Hr0 Hr1]. assert (Hi : retired i s).
  { eapply retires_retired; [exact Hr1|]. intros md' Hmd'. specialize (Hl _ (list_elem_of_here _ _)). cbn [fst snd] in Hl. rewrite Hl in Hmd'. injection Hmd' as <-.
    destruct (role (sm_state md)) as [b|] eqn:Hb; [|done]. assert (is_unique (sm_state md) = true) by (apply role_unique; by eexists). congruence. }
  destruct (delete_schema_document_ok I i s0 s Hs (conj Hr0 Hi)) as (? & ? & HQ).
  destruct (delete_schema_document_ok (fun _ => False) i s1 s Hs (conj Hr1 Hi)) as (_ & _ & HQ'). split_and!; [done|done|]. naive_solver.
Qed.

Lemma delete_old_ok I s0 i :
  spec (fun s => retires I s0 s /\ retired i s) (delete_old_failed_and_overwritten_schemas hour_ago) (fun _ s => retires I s0 s /\ retired i s).
Proof.
  intros s Hs [Hr Hi]. unfold delete_old_failed_and_overwritten_schemas, mbind at 1, mget.
  destruct (delete_old_loop_ok I s0 s (schemas_by_creation_time s)) with (s := s) as (? & ? & HQ);
    [intros e He; by apply by_creation_time_elem|done|split; [done|apply retires_refl]|].
  split_and!; [done|done|]. intros a Ha. destruct (HQ a Ha) as [? Hr']. split; [done|]. by eapply retires_retired.
Qed.

Lemma delete_progress_ok I s0 i j :
  spec (fun s => retires I s0 s /\ retired i s) (delete_schema_validation_progress j) (fun _ s => retires I s0 s /\ retired i s).
Proof.
  apply spec_write_schema. intros s Hs [[] Hi]. destruct (progress_ok ns vm json_deserialize s (BTreeMap.remove j (st_progress s)) Hs) as [? ?].
  split_and!; [done|done|by constructor|done].
Qed.

Lemma cleanup_ok I s0 i :
  spec (fun s => retires I s0 s /\ retired i s)
    (delete_old_failed_and_overwritten_schemas hour_ago ;! delete_schema_validation_progress i) (fun _ s => retires I s0 s /\ retired i s).
Proof. eapply spec_seq; [apply delete_old_ok|apply delete_progress_ok]. Qed.

Lemma mark_failed_ok (I : ResolvedDocumentId -> Prop) s0 i e : I i ->
  spec (retires I s0) (mark_failed error_string hour_ago i e) (fun _ s => retires I s0 s /\ retired i s).
Proof.
  intros HI. unfold mark_failed, get_schema. apply spec_pointwise. intros s1 Hs1 Hr1.
  eapply spec_bind; [eapply spec_bind; [apply spec_get|]; intros md; cbn beta;
    apply (spec_lift _ _ _ _ _ (fun md s => s = s1 /\ schema_of s1 i = Some md))|].
  { intros s md' Hs [-> ->]. unfold schema_of. by destruct (BTreeMap.get i (st_schemas s1)) as [?|]; intros [= ->]. }
  intros md. cbn beta. eapply spec_seq; [|apply cleanup_ok].
  assert (Hdone : role (sm_state md) = None -> spec (fun s => s = s1 /\ schema_of s1 i = Some md) (mret tt) (fun _ s => retires I s0 s /\ retired i s)).
  { intros Hn. apply spec_ret. intros s _ [-> Hi]. split; [done|]. intros md' Hmd'. congruence. }
  destruct (sm_state md) eqn:Hst; [| |by apply spec_lift|by apply Hdone|by apply Hdone].
  all: eapply spec_weaken; [by apply (patch_retire_ok I i _ s0)| |done]; intros s [-> Hi]; split; [done|]; exists md; rewrite Hst; split; [done|constructor].
Qed.

Lemma mark_overwritten_ok (I : ResolvedDocumentId -> Prop) s0 i : I i ->
  spec (fun s => retires I s0 s /\ exists md, schema_of s i = Some md /\ is_unique (sm_state md) = true)
    (mark_overwritten hour_ago i) (fun _ s => retires I s0 s /\ retired i s).
Proof.
  intros HI. unfold mark_overwritten. eapply spec_seq; [|apply cleanup_ok].
  eapply spec_weaken; [by apply (patch_retire_ok I i SchemaOverwritten s0)| |done]. intros s [Hr (md & Hi & Hu)].
  split; [done|]. exists md. split; [done|by constructor].
Qed.

(** What [get_by_state] answers. *)
Definition by_state (state : SchemaState) (a : option (ResolvedDocumentId * DatabaseSchema)) (s : SchemaTx) : Prop :=
  match a with
  | Some (i, schema) => exists raw, schema_of s i = Some (MkSchemaMetadata state raw) /\ json_deserialize raw = Some schema
  | None => forall i md, schema_of s i = Some md -> sm_state md <> state
  end.

Lemma get_schema_by_state_ok P state :
  spec P (get_schema_by_state ns json_deserialize state) (fun a s => P s /\ is_unique state = true /\ by_state state a s).
Proof.
  intros s Hs HP. unfold get_schema_by_state, mensure, mbind, mlift, mget. destruct (is_unique state) eqn:Hu; cbn [ensure fst snd]; [|split_and!; [done|apply evolves_refl|done]].
  assert (Hex : name_exists (ns_mapping ns s) SCHEMAS_TABLE = true).
  { destruct (mo_table _ _ _ s Hs) as [t Ht]. unfold name_exists, id_if_exists, ns_mapping. cbn [mapping_namespace ns_table_name_to_canonical_tablet].
    rewrite nested_get_default. unfold name_lookup in Ht. by rewrite Ht. }
  rewrite Hex. cbn [negb fst snd]. split_and!; [done|apply evolves_refl|]. intros a Ha.
  pose proof (follows_get json_deserialize (st_registry s) (st_schemas s) state (mo_follows _ _ _ s Hs) (proj1 (mo_roles _ _ _ s Hs))) as Hf.
  destruct (namespaced_get json_deserialize (st_registry s) state) as [r|e|]; cbn [lift_err] in Ha; [|done|done]. injection Ha as <-.
  split_and!; [done|done|]. destruct r as [[i schema]|]; [by destruct Hf|exact (Hf Hu)].
Qed.

Lemma overwrite_by_state_ok (I : ResolvedDocumentId -> Prop) s0 state :
  (forall i raw, schema_of s0 i = Some (MkSchemaMetadata state raw) -> I i) ->
  spec (retires I s0) (overwrite_by_state ns json_deserialize hour_ago state)
    (fun _ s => retires I s0 s /\ forall j md, schema_of s j = Some md -> sm_state md <> state).
Proof.
  intros HI. unfold overwrite_by_state. apply spec_pointwise. intros s1 Hs1 Hr1. eapply spec_bind; [apply get_schema_by_state_ok|].
  intros [[i schema]|]; cbn beta; [|apply spec_ret; by intros s _ (-> & _ & Hno)].
  apply spec_pointwise. intros s2 _ (-> & Hu & raw & Hi & _). assert (HIi : I i).
  { apply (HI i raw). apply (re_old _ _ _ Hr1 _ _ Hi). by apply role_unique. }
  eapply spec_bind; [eapply spec_weaken; [exact (spec_conj _ _ _ _ _ _ _ _ (mark_overwritten_ok I s0 i HIi) (mark_overwritten_ok I s1 i HIi))| |done]|].
  - intros s ->. assert (Hmd : exists md, schema_of s1 i = Some md /\ is_unique (sm_state md) = true) by (by eexists).
    split; (split; [done || apply retires_refl|done]).
  - intros []. apply spec_ret. intros s _ ([Hr Hret] & Hr' & _). split; [done|]. intros j md Hj Hst.
    assert (Hrole : is_Some (role (sm_state md))) by (rewrite Hst; by apply role_unique).
    pose proof (re_old _ _ _ Hr' j md Hj Hrole) as Hj1.
    destruct (proj1 (roles_alt s1) (mo_roles _ _ _ s1 Hs1) j i md (MkSchemaMetadata state raw) Hj1 Hi Hrole) as [-> _]; [by rewrite Hst|].
    rewrite (Hret md Hj) in Hrole. by destruct Hrole.
Qed.

(** Runs the monad in the goal; closes a goal where nothing changed. *)
Ltac run := cbv beta iota delta [mbind mget mlift mset mensure mret ensure ok_or fst snd].
Ltac same_state := by split_and!; [|apply evolves_refl|].

(** A schema that moves to another role. *)
Lemma patch_schema_state_ok i state :
  spec (fun s => exists md, schema_of s i = Some md /\ state_step (sm_state md) state /\
      (forall j md', j <> i -> schema_of s j = Some md' -> is_Some (role state) -> role (sm_state md') <> role state) /\
      (state = SchemaValidated \/ state = SchemaActive -> forall schema, json_deserialize (raw_schema md) = Some schema -> accepts schema s))
    (patch_schema_state i state) (fun _ _ => True).
Proof.
  intros s Hs (md & Hi & Hst & Hrole & Hacc). unfold patch_schema_state, mensure, mbind, mget, mlift, mset.
  destruct (is_system_tablet (mapping_of s) (tablet_id i)); cbn [ensure fst snd]; [|split_and!; [done|apply evolves_refl|done]].
  unfold schema_of in Hi. rewrite Hi. cbn [ok_or fst snd].
  destruct (schema_change_ok ns vm json_deserialize s (write_schema i (Some (MkSchemaMetadata state (raw_schema md))) s) i (Some (MkSchemaMetadata state (raw_schema md))))
    as [? ?]; [done|done|done|done|done|apply Hs|done| | | | |done].
  - intros _. apply Hs. by eexists.
  - intros md' [= <-]. left. by exists md.
  - intros md' j md0 [= <-] Hr Hji Hj. by apply (Hrole j).
  - intros md' schema [= <-] Hv. by apply Hacc.
Qed.

Lemma get_schema_ok P i : spec P (get_schema i) (fun md s => P s /\ schema_of s i = Some md).
Proof.
  unfold get_schema. eapply spec_bind; [apply spec_get|]. intros o. cbn beta. apply spec_lift. intros s md Hs [HP ->].
  unfold schema_of. destruct (BTreeMap.get i (st_schemas s)); [|done]. by intros [= ->].
Qed.

(** A pending schema that accepts every document may be marked validated. *)
Lemma mark_validated_ok i :
  spec (fun s => forall md schema, schema_of s i = Some md -> sm_state md = SchemaPending -> json_deserialize (raw_schema md) = Some schema -> accepts schema s)
    (mark_validated i) (fun _ _ => True).
Proof.
  unfold mark_validated. eapply spec_bind; [apply get_schema_ok|]. intros md. cbn beta. destruct (sm_state md) eqn:Hst; try (by apply spec_lift).
  intros s Hs [HP Hi]. apply patch_schema_state_ok; [done|]. exists md. rewrite Hst. split_and!; [done|constructor| |].
  - intros j md' Hji Hj _ Hr. apply Hji. symmetry. apply (proj1 (roles_alt s) (mo_roles _ _ _ s Hs) i j md md' Hi Hj); rewrite Hst; [by eexists|done].
  - intros _ schema Hjs. by apply (HP md).
Qed.

Lemma get_validated_or_active_ok P i :
  spec P (get_validated_or_active i) (fun md s => P s /\ schema_of s i = Some md /\ (sm_state md = SchemaValidated \/ sm_state md = SchemaActive)).
Proof.
  unfold get_validated_or_active. eapply spec_bind; [apply get_schema_ok|]. intros md. cbn beta.
  destruct (sm_state md) eqn:Hst; try (by apply spec_lift); apply spec_ret; intros s _ [HP Hi]; rewrite Hst; auto.
Qed.

Lemma clear_active_ok s0 :
  spec (retires (fun _ => False) s0) (clear_active ns json_deserialize hour_ago)
    (fun _ s => retires (fun i => exists raw, schema_of s0 i = Some (MkSchemaMetadata SchemaActive raw)) s0 s /\
      forall j md, schema_of s j = Some md -> sm_state md <> SchemaActive).
Proof.
  unfold clear_active. set (I := fun i => exists raw, schema_of s0 i = Some (MkSchemaMetadata SchemaActive raw)).
  eapply spec_bind; [eapply spec_weaken; [apply (overwrite_by_state_ok I s0 SchemaActive); unfold I; eauto| |]|].
  - intros s. by apply retires_mono.
  - intros b s H. exact H.
  - intros b. by apply spec_ret.
Qed.

Lemma progress_spec (P : SchemaTx -> Prop) f : (forall s, P s -> P (with_progress (f s) s)) ->
  spec P (mset (fun s => with_progress (f s) s)) (fun _ => P).
Proof. intros HP. apply spec_write_schema. intros s Hs Hp. destruct (progress_ok ns vm json_deserialize s (f s) Hs). auto. Qed.

Lemma mark_active_ok i : spec (fun _ => True) (mark_active ns json_deserialize hour_ago i) (fun _ _ => True).
Proof.
  unfold mark_active. eapply spec_bind; [apply get_validated_or_active_ok|]. intros md. cbn beta.
  eapply spec_seq; [apply (progress_spec (fun s => True /\ schema_of s i = Some md /\ (sm_state md = SchemaValidated \/ sm_state md = SchemaActive)))|].
  { done. }
  destruct (sm_state md) eqn:Hst; try (by apply spec_lift).
  apply spec_pointwise. intros s1 Hs1 (_ & Hi & _).
  eapply spec_seq; [eapply spec_weaken; [apply (clear_active_ok s1)| |intros [] s H; exact H]; intros s ->; apply retires_refl|].
  intros s Hs [Hr Hno]. apply patch_schema_state_ok; [done|]. exists md. rewrite Hst.
  assert (His : schema_of s i = Some md).
  { destruct (re_keep _ _ _ Hr i md Hi) as [[raw Hraw]|]; [by rewrite Hst; eexists| |done]. rewrite Hi in Hraw. injection Hraw as ->. done. }
  split_and!; [done|constructor| |].
  - intros j md' Hji Hj _ Hrole. apply (Hno j md' Hj). by destruct (sm_state md').
  - intros _ schema Hjs. apply (mo_accepts _ _ _ s Hs i md); [done|by left|done].
Qed.

Lemma apply_ok schema_id : spec (fun _ => True) (apply ns json_deserialize hour_ago schema_id) (fun _ _ => True).
Proof.
  unfold apply. eapply spec_bind; [apply get_schema_by_state_ok|]. intros previous. cbn beta.
  eapply (spec_bind _ _ _ _ _ (fun _ _ => True)).
  - destruct schema_id as [i|]; [|by apply spec_ret]. eapply spec_bind; [apply get_validated_or_active_ok|]. intros md. cbn beta.
    eapply (spec_bind _ _ _ _ _ (fun _ _ => True)); [by apply spec_lift|]. intros schema. by apply spec_ret.
  - intros next. eapply spec_seq; [|by apply spec_ret]. destruct schema_id as [i|]; [apply mark_active_ok|].
    apply spec_pointwise. intros s1 Hs1 _. eapply spec_weaken; [apply (clear_active_ok s1)| |done]. intros s ->. apply retires_refl.
Qed.

(** *** Enforcement *)

(** Every schema in use passes the check. *)
Definition all_pass (check : DatabaseSchema -> outcome SchemaEnforcementError unit) (s : SchemaTx) : Prop :=
  forall i md schema, schema_of s i = Some md -> is_Some (role (sm_state md)) -> json_deserialize (raw_schema md) = Some schema -> check schema = Ret tt.

Definition active_passes (check : DatabaseSchema -> outcome SchemaEnforcementError unit) (s : SchemaTx) : Prop :=
  forall i md schema, schema_of s i = Some md -> sm_state md = SchemaActive -> json_deserialize (raw_schema md) = Some schema -> check schema = Ret tt.

Lemma in_progress_fails check s1 i schema raw state : model_ok s1 -> role state = Some false ->
  schema_of s1 i = Some (MkSchemaMetadata state raw) -> json_deserialize raw = Some schema -> active_passes check s1 ->
  spec (fun s => s = s1)
    (let! failed := mcheck (check schema) in
     match failed with
     | Some enforcement_error => mark_failed error_string hour_ago i (enforcement_to_validation enforcement_error)
     | None => mret tt
     end) (fun _ s => retires (fun _ => True) s1 s /\ all_pass check s).
Proof.
  intros Hs1 Hrole Hi Hjs Hact.
  assert (Hother : forall j md schema', schema_of s1 j = Some md -> is_Some (role (sm_state md)) -> json_deserialize (raw_schema md) = Some schema' ->
    check schema' = Ret tt \/ (j = i /\ schema' = schema)).
  { intros j md schema' Hj Hr Hjs'. destruct (sm_state md) eqn:Hst; try (by destruct Hr); [right|right|left; by eapply Hact].
    all: destruct (proj1 (roles_alt s1) (mo_roles _ _ _ s1 Hs1) i j (MkSchemaMetadata state raw) md Hi Hj) as [<- <-];
      [cbn [sm_state]; by rewrite Hrole; eexists|cbn [sm_state]; by rewrite Hst, Hrole|]; cbn [raw_schema] in *; split; [done|congruence]. }
  unfold mcheck. destruct (check schema) as [[]|e|] eqn:Hc.
  - intros s Hs ->. split_and!; [done|apply evolves_refl|]. intros [] _. cbn [fst]. split; [apply retires_refl|].
    intros j md schema' Hj Hr Hjs'. destruct (Hother j md schema' Hj Hr Hjs') as [|[-> ->]]; done.
  - eapply (spec_bind _ _ _ _ _ (fun a s => s = s1 /\ a = Some e)); [by apply spec_ret|]. intros a. cbn beta. apply spec_pointwise. intros s2 _ [-> ->].
    eapply spec_weaken; [apply (mark_failed_ok (fun _ => True) s1 i (enforcement_to_validation e) I)|intros s ->; apply retires_refl|].
    intros [] s [Hr Hret]. split; [done|]. intros j md schema' Hj Hrj Hjs'.
    destruct (Hother j md schema' (re_old _ _ _ Hr j md Hj Hrj) Hrj Hjs') as [|[-> ->]]; [done|]. rewrite (Hret md Hj) in Hrj. by destruct Hrj.
  - intros s Hs ->. split_and!; [done|apply evolves_refl|done].
Qed.

Lemma enforce_check_ok check s0 :
  spec (fun s => s = s0) (enforce_check ns json_deserialize error_string hour_ago check)
    (fun _ s => retires (fun _ => True) s0 s /\ all_pass check s).
Proof.
  unfold enforce_check. eapply spec_bind; [apply get_schema_by_state_ok|]. intros active. cbn beta.
  eapply (spec_seq _ _ _ _ (fun s => s = s0 /\ active_passes check s0)).
  { destruct active as [[ia a]|].
    - apply spec_lift. intros s [] Hs (-> & _ & raw & Hia & Hja). destruct (check a) as [[]|e|] eqn:Hc; cbn [lift_err]; [|done|done]. intros _.
      split; [done|]. intros i md schema Hi Hst Hjs.
      destruct (proj1 (roles_alt s0) (mo_roles _ _ _ s0 Hs) ia i (MkSchemaMetadata SchemaActive raw) md Hia Hi) as [<- <-]; [by eexists|by rewrite Hst|].
      cbn [raw_schema] in Hjs. congruence.
    - apply spec_ret. intros s Hs (-> & _ & Hno). split; [done|]. intros i md schema Hi Hst. by apply Hno in Hi. }
  unfold fail_in_progress. eapply spec_bind; [apply get_schema_by_state_ok|]. intros pending. cbn beta.
  eapply spec_bind; [apply get_schema_by_state_ok|]. intros validated. cbn beta.
  apply spec_pointwise. intros s1 Hs1 (([-> Hact] & _ & Hp) & _ & Hv).
  destruct pending as [[ip sp]|], validated as [[iv sv]|]; [by apply spec_lift|..].
  - destruct Hp as (raw & Hi & Hjs). by apply (in_progress_fails check s0 ip sp raw SchemaPending).
  - destruct Hv as (raw & Hi & Hjs). by apply (in_progress_fails check s0 iv sv raw SchemaValidated).
  - apply spec_ret. intros s _ ->. split; [apply retires_refl|]. intros i md schema Hi Hr Hjs. destruct (sm_state md) eqn:Hst; try (by destruct Hr).
    + by apply Hp in Hi.
    + by apply Hv in Hi.
    + by apply (Hact i md).
Qed.

(** *** Tables *)

Notation accepts_doc := (accepts_doc ns vm).
Notation keeps := (keeps ns vm).

Lemma check_mono schema d o tm tm' :
  value d = Object o -> valid (Object o) = true ->
  (forall n t, all_tables_number_to_name tm vm n = Ret t -> all_tables_number_to_name tm' vm n = Ret t) ->
  (forall name, ns_tablet_name tm' (tablet_id (id d)) = Ret name -> ns_tablet_name tm (tablet_id (id d)) = Ret name) ->
  schema_check_value schema d tm vm = Ret tt -> schema_check_value schema d tm' vm = Ret tt.
Proof.
  intros Hval Hv Hlook Hname. unfold schema_check_value. rewrite Hval. cbn [object_of]. destruct (schema_validation schema); [|done].
  destruct (ns_tablet_name tm' _) as [name|e|] eqn:Hn; [|done|done]. rewrite (Hname _ eq_refl).
  destruct (schema_for_table schema name) as [ds|]; [|done]. intros Hc%document_check_spec; [|done]. apply document_check_spec; [done|].
  eapply foreign_keys_frame; [|exact Hc]. intros n t _. apply Hlook.
Qed.

Lemma number_to_name_alt m n : all_tables_number_to_name (mapping_namespace m ns) vm n =
  match number_lookup m ns n with
  | Some i => match tablet_lookup m i with
              | Some (_, _, name) => Ret (default name (BTreeMap.get name (system_to_virtual vm)))
              | None => Err CannotFindTable
              end
  | None => Err CannotFindTable
  end.
Proof.
  unfold all_tables_number_to_name, number_to_name, name_by_number_if_exists. cbn [mapping_namespace ns_table_number_to_canonical_tablet ns_tablet_to_table].
  rewrite nested_get_default. change (nested_get ns n (table_number_to_canonical_tablet m)) with (number_lookup m ns n).
  destruct (number_lookup m ns n) as [i|]; [|done]. change (BTreeMap.get i (tablet_to_table m)) with (tablet_lookup m i).
  destruct (tablet_lookup m i) as [[[? ?] name]|]; [|done]. cbn. by destruct (BTreeMap.get name (system_to_virtual vm)).
Qed.

Lemma ns_tablet_name_alt m t : ns_tablet_name (mapping_namespace m ns) t = match tablet_lookup m t with Some (_, _, name) => Ret name | None => Err CannotFindTable end.
Proof. unfold ns_tablet_name, tablet_lookup. cbn [mapping_namespace ns_tablet_to_table]. by destruct (BTreeMap.get t (tablet_to_table m)) as [[[? ?] ?]|]. Qed.

(** Changing the tables, when what is in use keeps accepting the documents. *)
Lemma tables_change_ok s t docs :
  let s' := with_docs docs (with_tables t s) in
  model_ok s -> tables_ok t -> is_Some (name_lookup (table_mapping t) ns SCHEMAS_TABLE) ->
  (forall i, is_Some (table_state (st_tables s) i) -> is_Some (table_state t i)) ->
  BTreeMap.wf docs -> (forall i d, BTreeMap.get i docs = Some d -> doc_of s i = Some d /\ doc_ok ns (table_mapping t) i d) ->
  (forall i md schema, schema_of s i = Some md -> is_Some (role (sm_state md)) -> json_deserialize (raw_schema md) = Some schema -> keeps schema s s') ->
  model_ok s' /\ evolves s s'.
Proof.
  intros s' Hs Ht Hn Hu Hw Hd Hk. pose proof Hs as [Hf Hr Hc _ _ Hdocs Ha]. split.
  - constructor; [done|done|done|done|done|split; [done|]; intros i d Hi; by apply Hd|].
    intros i md schema Hi Hst Hjs j d Hj. destruct (Hd j d Hj) as [Hj' _].
    destruct (proj2 Hdocs j d Hj') as (_ & (o & Hv & Hval) & _). eapply (Hk i md schema Hi); [by destruct Hst as [-> | ->]; eexists|done|exact Hv|done| |].
    + by eapply doc_used.
    + by apply (Ha i md schema Hi Hst Hjs j).
  - constructor; [done|done| |].
    + intros i md _ Hi. exists md. split_and!; [done|done|apply rtc_refl].
    + intros i md schema _ Hi Hst Hjs. split; [apply (Hk i md schema Hi); [by rewrite Hst; eexists|done]|]. intros j d Hj. left. by apply Hd.
Qed.

Lemma insert_table_metadata_ok P alloc name :
  spec (fun s => P (st_created s)) (insert_table_metadata ns alloc name) (fun _ s => P (st_created s)).
Proof.
  intros s Hs HP. unfold insert_table_metadata. destruct (is_system name) eqn:Hsys; [same_state|]. run.
  destruct (table_exists (st_tables s) ns name) eqn:Hex; [same_state|].
  destruct (_ <? MAX_USER_TABLES)%nat; [|same_state]. destruct (alloc name) as [tablet number].
  destruct (table_state (st_tables s) tablet) as [ts|] eqn:Hts; [same_state|].
  destruct (validate_table_number (st_tables s) ns number name) as [[]|e|] eqn:Hnum; cbn [lift_err]; [|same_state..].
  cbn [apply_update activates tu_mode tu_tablet tu_namespace tu_number tu_name fst snd].
  pose proof (mo_tables _ _ _ s Hs) as [Hwf Hsw Hst Htab Hnam Hnu]. set (m := table_mapping (st_tables s)) in *.
  assert (Hnone : tablet_lookup m tablet = None).
  { destruct (tablet_lookup m tablet) as [x|] eqn:Hx; [|done]. destruct (Hst tablet) as [y Hy]; [by rewrite Hx|congruence]. }
  assert (Hname : name_lookup m ns name = None).
  { unfold table_exists, name_exists, id_if_exists in Hex. cbn [mapping_namespace ns_table_name_to_canonical_tablet] in Hex.
    rewrite nested_get_default in Hex. unfold name_lookup. fold m in Hex. by destruct (nested_get ns name (table_name_to_canonical_tablet m)). }
  assert (Hnumber : number_lookup m ns number = None).
  { destruct (number_lookup m ns number) as [i|] eqn:Hi; [|done]. exfalso. destruct (Hnu _ _ _ Hi) as [name' Hn']. destruct (Htab _ _ _ _ Hn') as [Hnl _].
    unfold validate_table_number, name_by_number_if_exists in Hnum. cbn [mapping_namespace ns_table_number_to_canonical_tablet ns_tablet_to_table] in Hnum.
    rewrite nested_get_default in Hnum. fold m in Hnum. unfold number_lookup in Hi. rewrite Hi in Hnum. unfold tablet_lookup in Hn'. rewrite Hn' in Hnum.
    cbn [option_map] in Hnum. case_bool_decide; [|done]. subst name'. congruence. }
  destruct (mapping_insert_ok m tablet ns number name Hwf) as (Hwf1 & Ht1 & Hn1 & Hu1).
  destruct (insert_tablet_ok (mapping_insert m tablet ns number name) tablet ns number name Hwf1) as (Hwf2 & Ht2 & Hn2 & Hu2).
  set (m2 := insert_tablet (mapping_insert m tablet ns number name) tablet ns number name) in *.
  assert (Ht : forall t', tablet_lookup m2 t' = if decide (t' = tablet) then Some (ns, number, name) else tablet_lookup m t').
  { intros t'. rewrite Ht2. destruct (decide (t' = tablet)) as [->|] eqn:E; [done|]. by rewrite Ht1, E. }
  assert (Hn : forall ns' n, name_lookup m2 ns' n = if decide (ns' = ns /\ n = name) then Some tablet else name_lookup m ns' n) by (intros; by rewrite Hn2, Hn1).
  assert (Hu : forall ns' n, number_lookup m2 ns' n = if decide (ns' = ns /\ n = number) then Some tablet else number_lookup m ns' n) by (intros; by rewrite Hu2, Hu1).
  destruct (tables_change_ok s (MkTables (BTreeMap.insert tablet Active (tablet_states (st_tables s))) m2) (st_docs s)) as [Hok Hev]; [done|..].
  - constructor; cbn [table_mapping tablet_states]; [done|by apply BTreeMap.wf_insert| | | |].
    + intros i Hi. unfold table_state. cbn [tablet_states]. rewrite BTreeMap.get_insert_if by done. case_decide as E; [by eexists|].
      rewrite Ht in Hi. rewrite decide_False in Hi by done. by apply Hst.
    + intros i ns' n name'. rewrite Ht, Hn, Hu. destruct (decide (i = tablet)) as [->|Hne]; [intros [= <- <- <-]; by rewrite !decide_True|].
      intros [H1 H2]%Htab. rewrite !decide_False; [done|..]; intros [-> ->]; congruence.
    + intros ns' name' i. rewrite Hn. case_decide as E; [destruct E as [-> ->]; intros [= <-]; exists number; by rewrite Ht, decide_True|].
      intros [n Hi]%Hnam. exists n. rewrite Ht, decide_False; [done|]. intros ->. congruence.
    + intros ns' n i. rewrite Hu. case_decide as E; [destruct E as [-> ->]; intros [= <-]; exists name; by rewrite Ht, decide_True|].
      intros [n' Hi]%Hnu. exists n'. rewrite Ht, decide_False; [done|]. intros ->. congruence.
  - cbn [table_mapping]. rewrite Hn. case_decide; [by eexists|]. apply (mo_table _ _ _ s Hs).
  - intros i Hi. unfold table_state in *. cbn [tablet_states]. rewrite BTreeMap.get_insert_if by done. by case_decide; [eexists|].
  - apply (mo_docs _ _ _ s Hs).
  - intros i d Hi. split; [done|]. destruct (proj2 (mo_docs _ _ _ s Hs) i d Hi) as (Hid & Hv & n & name' & Hl & Hsy). split_and!; [done|done|].
    exists n, name'. split; [|done]. cbn [table_mapping]. rewrite Ht, decide_False; [done|]. intros Htt. unfold mapping_of in Hl. fold m in Hl. congruence.
  - intros i md schema _ _ _ d o Hv Hval Hused. apply (check_mono schema d o); [done|done| |].
    + intros n t. unfold ns_mapping. cbn [mapping_of st_tables with_docs with_tables table_mapping]. rewrite !number_to_name_alt. change (mapping_of s) with m. rewrite Hu.
      destruct (number_lookup m ns n) as [i'|] eqn:Hi'; [|done]. rewrite decide_False by (intros [_ ->]; congruence). rewrite Ht.
      destruct (decide (i' = tablet)) as [->|]; [by rewrite Hnone|done].
    + intros name'. unfold ns_mapping. cbn [mapping_of st_tables with_docs with_tables table_mapping]. rewrite !ns_tablet_name_alt. change (mapping_of s) with m. rewrite Ht.
      rewrite decide_False; [done|]. intros He. rewrite He, Hts in Hused. by destruct Hused.
  - split_and!; [done|done|done].
Qed.

(** *** Submitting a schema *)

Lemma spec_for {A} (P : SchemaTx -> Prop) (f : A -> txm unit) l : (forall x, spec P (f x) (fun _ => P)) -> spec P (mfor f l) (fun _ => P).
Proof. intros Hf. induction l as [|x l IH]; cbn [mfor]; [by apply spec_ret|]. eapply spec_seq; [apply Hf|exact IH]. Qed.

(** Overwriting the schema that [get_by_state] found. *)
Lemma overwrite_found_ok P state (found : option (ResolvedDocumentId * DatabaseSchema)) :
  spec (fun s => P (st_created s) /\ is_unique state = true /\ by_state state found s)
    (match found with Some (i, _) => mark_overwritten hour_ago i | None => mret tt end)
    (fun _ s => P (st_created s)).
Proof.
  destruct found as [[i schema]|]; [|apply spec_ret; by intros s _ (? & _)]. apply spec_pointwise. intros s1 Hs1 (HP & Hu & raw & Hi & _).
  eapply spec_weaken; [apply (mark_overwritten_ok (fun _ => True) s1 i I)| |].
  - intros s ->. split; [apply retires_refl|]. by eexists.
  - intros [] s [Hr _]. by rewrite (re_created _ _ _ Hr).
Qed.

Definition no_in_progress (s : SchemaTx) : Prop := forall j md, schema_of s j = Some md -> role (sm_state md) <> Some false.

(** Overwriting the schema in progress leaves none. *)
Lemma overwrite_in_progress_ok s1 i state raw : model_ok s1 -> schema_of s1 i = Some (MkSchemaMetadata state raw) -> role state = Some false ->
  spec (fun s => s = s1) (mark_overwritten hour_ago i) (fun _ s => st_created s = st_created s1 /\ no_in_progress s).
Proof.
  intros Hs1 Hi Hst. eapply spec_weaken; [apply (mark_overwritten_ok (fun _ => True) s1 i I)| |].
  - intros s ->. split; [apply retires_refl|]. exists (MkSchemaMetadata state raw). split; [done|]. cbn. apply role_unique. by rewrite Hst.
  - intros [] s [Hr Hret]. split; [apply Hr|]. intros j md Hj Hrole. assert (Hsome : is_Some (role (sm_state md))) by (by rewrite Hrole).
    destruct (proj1 (roles_alt s1) (mo_roles _ _ _ s1 Hs1) j i md (MkSchemaMetadata state raw) (re_old _ _ _ Hr j md Hj Hsome) Hi Hsome) as [-> _];
      [cbn [sm_state]; congruence|]. rewrite (Hret md Hj) in Hrole. done.
Qed.

Lemma insert_schema_document_ok i time raw :
  spec (fun s => BTreeMap.get i (st_created s) = None /\ no_in_progress s)
    (insert_schema_document ns i time (MkSchemaMetadata SchemaPending raw)) (fun _ _ => True).
Proof.
  intros s Hs [Hfresh Hno]. unfold insert_schema_document. run. destruct (lift_err MappingFailed _); [|same_state..].
  destruct (BTreeMap.get i (st_schemas s)) as [md|] eqn:Hi; [same_state|].
  set (new := MkSchemaMetadata SchemaPending raw).
  destruct (schema_change_ok ns vm json_deserialize s (set_created i time (write_schema i (Some new) s)) i (Some new)) as [? ?]; [done|done|done|done|done| | | | | | |done].
  - apply BTreeMap.wf_insert, Hs.
  - intros j Hj. cbn [st_created set_created write_schema]. rewrite BTreeMap.get_insert_if by apply Hs. by case_decide; [eexists|].
  - intros _. cbn [st_created set_created write_schema]. rewrite BTreeMap.get_insert_eq by apply Hs. by eexists.
  - intros md' [= <-]. right. split; [done|]. rewrite Hfresh. by intros [? ?].
  - intros md' j md [= <-] _ _ Hj. by apply Hno in Hj.
  - intros md' schema [= <-] [?|?]; done.
Qed.

Lemma submit_pending_ok alloc new_id time schema :
  spec (fun s => BTreeMap.get new_id (st_created s) = None)
    (submit_pending ns json_deserialize json_serialize hour_ago alloc new_id time schema) (fun _ _ => True).
Proof.
  set (fresh := fun c : BTreeMap.t ResolvedDocumentId Z => BTreeMap.get new_id c = None). unfold submit_pending.
  eapply spec_seq; [apply (spec_for (fun s => fresh (st_created s)))|].
  { intros name. eapply spec_bind; [apply spec_get|]. intros b. cbn beta. eapply (spec_pre _ _ _ _ (fun s => fresh (st_created s))); [|by intros s [? _]].
    destruct b; [by apply spec_ret|]. apply insert_table_metadata_ok. }
  eapply spec_bind; [apply get_schema_by_state_ok|]. intros active. cbn beta.
  eapply (spec_bind _ _ _ _ _ (fun unchanged s => fresh (st_created s))).
  { eapply (spec_pre _ _ _ _ (fun s => fresh (st_created s))); [|by intros s [? _]].
    destruct active as [[active_id active_schema]|]; [|by apply spec_ret]. case_bool_decide; [|by apply spec_ret].
    eapply spec_seq; [eapply spec_bind; [apply get_schema_by_state_ok|]; intros found; apply overwrite_found_ok|].
    eapply spec_seq; [eapply spec_bind; [apply get_schema_by_state_ok|]; intros found; apply overwrite_found_ok|]. by apply spec_ret. }
  intros unchanged. cbn beta. destruct unchanged as [i|]; [by apply spec_ret|].
  eapply spec_bind; [apply get_schema_by_state_ok|]. intros pending. cbn beta.
  eapply spec_bind; [apply get_schema_by_state_ok|]. intros validated. cbn beta.
  apply spec_pointwise. intros s1 Hs1 ((Hfresh & _ & Hp) & _ & Hv).
  eapply (spec_bind _ _ _ _ _ (fun existing s => existing = None -> st_created s = st_created s1 /\ no_in_progress s)).
  { assert (Hover : forall i state raw, schema_of s1 i = Some (MkSchemaMetadata state raw) -> role state = Some false ->
      spec (fun s => s = s1) (mark_overwritten hour_ago i ;! mret (None (A := ResolvedDocumentId * SchemaState)))
        (fun existing s => existing = None -> st_created s = st_created s1 /\ no_in_progress s)).
    { intros i state raw Hi Hst. eapply spec_bind; [by eapply overwrite_in_progress_ok|]. intros []. by apply spec_ret. }
    destruct pending as [[ip sp]|], validated as [[iv sv]|]; [by apply spec_lift|..].
    - destruct Hp as (raw & Hi & _). case_bool_decide; [by apply spec_ret|]. by eapply Hover.
    - destruct Hv as (raw & Hi & _). case_bool_decide; [by apply spec_ret|]. by eapply Hover.
    - apply spec_ret. intros s _ -> _. split; [done|]. intros j md Hj Hr. destruct (sm_state md) eqn:Hst; try done; [by apply Hp in Hj|by apply Hv in Hj]. }
  intros existing. cbn beta. destruct existing as [r|]; [by apply spec_ret|].
  eapply (spec_bind _ _ _ _ _ (fun _ s => BTreeMap.get new_id (st_created s) = None /\ no_in_progress s)).
  - apply spec_lift. intros s raw _ HN _. destruct (HN eq_refl) as [-> ?]. done.
  - intros raw. eapply spec_seq; [apply insert_schema_document_ok|]. by apply spec_ret.
Qed.

(** *** Documents *)

(** Every schema in use accepts the document. *)
Definition in_use_accept (s : SchemaTx) (d : PackedDocument) : Prop :=
  forall i md schema, schema_of s i = Some md -> is_Some (role (sm_state md)) -> json_deserialize (raw_schema md) = Some schema -> accepts_doc schema s d.

Lemma write_doc_ok s i d : model_ok s -> doc_ok ns (mapping_of s) i d -> in_use_accept s d ->
  let s' := with_docs (BTreeMap.insert i d (st_docs s)) s in model_ok s' /\ evolves s s'.
Proof.
  intros Hs Hd Hacc s'. pose proof Hs as [Hf Hr Hc Ht Htab [Hdw Hdocs] Ha].
  assert (Hget : forall j, doc_of s' j = if decide (j = i) then Some d else doc_of s j) by (intros j; unfold doc_of; cbn; by rewrite BTreeMap.get_insert_if).
  split.
  - constructor; [done|done|done|done|done| |].
    + split; [by apply BTreeMap.wf_insert|]. intros j d'. rewrite Hget. destruct (decide (j = i)) as [->|]; [by intros [= <-]|apply Hdocs].
    + intros j md schema Hj Hst Hjs k d'. rewrite Hget. destruct (decide (k = i)) as [->|].
      * intros [= <-]. apply (Hacc j md); [done|by destruct Hst as [-> | ->]; eexists|done].
      * by apply (Ha j md schema Hj Hst Hjs k).
  - constructor; [done|done| |].
    + intros j md _ Hj. exists md. split_and!; [done|done|apply rtc_refl].
    + intros j md schema _ Hj Hst Hjs. split; [by intros d' o _ _ _|]. intros k d'. rewrite Hget. destruct (decide (k = i)) as [->|]; [|by left].
      intros [= <-]. right. by apply (Hacc j md); [|rewrite Hst; eexists|].
Qed.

Lemma remove_doc_ok s i : model_ok s -> let s' := with_docs (BTreeMap.remove i (st_docs s)) s in model_ok s' /\ evolves s s'.
Proof.
  intros Hs s'. pose proof Hs as [Hf Hr Hc Ht Htab [Hdw Hdocs] Ha].
  assert (Hget : forall j d, doc_of s' j = Some d -> doc_of s j = Some d) by (intros j d; by apply BTreeMap.get_remove_Some).
  split.
  - constructor; [done|done|done|done|done| |].
    + split; [by apply BTreeMap.wf_remove|]. intros j d Hj%Hget. by apply Hdocs.
    + intros j md schema Hj Hst Hjs k d Hk%Hget. by apply (Ha j md schema Hj Hst Hjs k).
  - constructor; [done|done| |].
    + intros j md _ Hj. exists md. split_and!; [done|done|apply rtc_refl].
    + intros j md schema _ _ _ _. split; [by intros d o _ _ _|]. intros k d Hk%Hget. by left.
Qed.

Lemma enforce_ok s0 d : doc_ok ns (mapping_of s0) (id d) d ->
  spec (fun s => s = s0) (enforce ns vm json_deserialize error_string hour_ago d) (fun _ s => retires (fun _ => True) s0 s /\ in_use_accept s d).
Proof.
  intros (_ & _ & n & name & Hl & Hsys). unfold enforce. eapply spec_bind; [apply spec_get|]. intros m. cbn beta.
  apply spec_pointwise. intros s1 _ [-> ->]. unfold is_system_tablet. unfold tablet_lookup in Hl. rewrite Hl, Hsys.
  unfold enforce_with_table_mapping. eapply (spec_bind _ _ _ _ _ (fun _ s => s = s0)); [by apply spec_lift|]. intros table_name. cbn beta.
  eapply spec_weaken; [apply (enforce_check_ok _ s0)|done|]. intros [] s [Hr Hall]. split; [done|]. intros i md schema Hi Hrole Hjs.
  specialize (Hall i md schema Hi Hrole Hjs). unfold check_new_document in Hall.
  assert (Hm : mapping_of s = mapping_of s0) by (unfold mapping_of; by rewrite (re_tables _ _ _ Hr)).
  unfold accepts_doc, ns_mapping. rewrite Hm. by destruct (schema_check_value schema d (mapping_namespace (mapping_of s0) ns) vm) as [[]| |].
Qed.

Lemma insert_document_ok d :
  spec (fun s => doc_ok ns (mapping_of s) (id d) d) (insert_document ns vm json_deserialize error_string hour_ago d) (fun _ _ => True).
Proof.
  apply spec_pointwise. intros s0 Hs0 Hd. unfold insert_document. eapply spec_bind; [apply spec_get|]. intros m. cbn beta.
  eapply (spec_bind _ _ _ _ _ (fun _ s => s = s0)); [apply spec_lift; by intros s ? _ [-> _]|]. intros n. cbn beta.
  eapply spec_bind; [by apply enforce_ok|]. intros []. eapply spec_bind; [apply spec_get|]. intros existing. cbn beta.
  eapply spec_bind; [apply spec_ensure|]. intros []. eapply (spec_seq _ _ _ _ (fun _ => True)); [|by apply spec_ret].
  apply spec_write_schema. intros s Hs [[[Hr Hacc] _] _].
  destruct (write_doc_ok s (id d) d Hs) as [? ?]; [|done|done]. unfold mapping_of. by rewrite (re_tables _ _ _ Hr).
Qed.

Lemma replace_inner_ok i f : (forall v v', f v = Ret v' -> exists o, v' = Object o /\ valid (Object o) = true) ->
  spec (fun _ => True) (replace_inner ns vm json_deserialize error_string hour_ago i f) (fun _ _ => True).
Proof.
  intros Hf. apply spec_pointwise. intros s0 Hs0 _. unfold replace_inner. eapply spec_bind; [apply spec_get|]. intros m. cbn beta.
  eapply (spec_bind _ _ _ _ _ (fun _ s => s = s0)); [apply spec_lift; by intros s ? _ [-> _]|]. intros n. cbn beta.
  eapply spec_bind; [apply spec_get|]. intros old. cbn beta.
  eapply (spec_bind _ _ _ _ _ (fun o s => s = s0 /\ doc_of s0 i = Some o)).
  { apply spec_lift. intros s d _ [-> ->]. unfold doc_of. destruct (BTreeMap.get i (st_docs s0)); [|done]. by intros [= ->]. }
  intros d. cbn beta. eapply (spec_bind _ _ _ _ _ (fun v s => s = s0 /\ doc_ok ns (mapping_of s0) i (MkDoc v i))).
  { apply spec_lift. intros s v Hs [-> Hd] Hv. split; [done|]. destruct (proj2 (mo_docs _ _ _ s0 Hs) i d Hd) as (_ & _ & Hl). split_and!; [done|by eapply Hf|done]. }
  intros v. cbn beta. apply spec_pointwise. intros s1 _ [-> Hd]. eapply spec_bind; [by apply (enforce_ok s0)|]. intros [].
  eapply (spec_seq _ _ _ _ (fun _ => True)); [|by apply spec_ret].
  apply spec_write_schema. intros s Hs [Hr Hacc]. destruct (write_doc_ok s i (MkDoc v i) Hs) as [? ?]; [|done|done].
  unfold mapping_of. by rewrite (re_tables _ _ _ Hr).
Qed.

Lemma delete_inner_ok i : spec (fun _ => True) (delete_inner i) (fun _ _ => True).
Proof.
  intros s Hs _. unfold delete_inner. run. destruct (lift_err MappingFailed _); [|same_state..].
  destruct (BTreeMap.get i (st_docs s)); [|same_state]. destruct (remove_doc_ok s i Hs). done.
Qed.

(** *** Deleting a table *)

(** Virtual tables stand for system tables. *)
Hypothesis Hvirtual : forall t, is_system t = false -> BTreeMap.get t (system_to_virtual vm) = None.

Lemma delete_active_table_ok name : is_system name = false ->
  spec (fun _ => True) (delete_active_table ns json_deserialize error_string hour_ago name) (fun _ _ => True).
Proof.
  intros Hsys. apply spec_pointwise. intros s0 Hs0 _. unfold delete_active_table. eapply spec_bind; [apply spec_get|]. intros t. cbn beta.
  destruct (table_exists t ns name); cbn [negb]; [|by apply spec_ret].
  eapply spec_seq; [eapply spec_weaken; [apply (enforce_check_ok (fun schema => check_delete_table schema name) s0)|by intros s [? _]|]|].
  { intros [] s H. exact H. }
  clear t. intros s Hs [Hr Hall]. run. destruct (name_to_id (mapping_namespace (table_mapping (st_tables s)) ns) name) as [it|e|] eqn:Hid; cbn [lift_err]; [|same_state..].
  pose proof (mo_tables _ _ _ s Hs) as [Hwf Hsw Hst Htab Hnam Hnu]. set (m := table_mapping (st_tables s)) in *.
  assert (Hl : exists n, tablet_lookup m (it_tablet it) = Some (ns, n, name)).
  { apply Hnam. unfold name_to_id, id_and_number_if_exists, id_if_exists in Hid. cbn [mapping_namespace ns_table_name_to_canonical_tablet] in Hid.
    rewrite nested_get_default in Hid. unfold name_lookup. destruct (nested_get ns name (table_name_to_canonical_tablet m)) as [i|]; [|done].
    cbn [ns_tablet_to_table mapping_namespace] in Hid. destruct (BTreeMap.get i (tablet_to_table m)) as [[[? ?] ?]|]; [|done]. by injection Hid as <-. }
  destruct Hl as [n Hl]. destruct (mapping_remove_ok (E := model_error) m (it_tablet it) ns n name Hwf Hl) as (m' & Hrm & Hwf' & Ht & Hn & Hu).
  cbn [apply_update activates tu_mode tu_tablet]. change (table_mapping (st_tables s)) with m. rewrite Hrm. cbn [obind]. run.
  set (docs := bfilter _ _). set (t := MkTables _ _).
  assert (Hdocs : forall i d, BTreeMap.get i docs = Some d -> doc_of s i = Some d /\ tablet_id i <> it_tablet it).
  { intros i d Hi. apply BTreeMap.elem_of_get in Hi; [|apply BTreeMap.wf_bfilter, Hs]. apply elem_of_bfilter in Hi as [Hi Hne]. cbn [fst] in Hne.
    apply BTreeMap.elem_of_get in Hi; [|apply Hs]. split; [done|]. intros He. by rewrite bool_decide_true in Hne. }
  destruct (tables_change_ok s t docs) as [? ?]; [done| | | | | | |].
  - constructor; cbn [table_mapping tablet_states t]; [done|by apply BTreeMap.wf_insert| | | |].
    + intros i. rewrite Ht. case_decide as E; [by intros []|]. intros Hi. unfold table_state. cbn [tablet_states t].
      rewrite BTreeMap.get_insert_if by done. rewrite decide_False by done. by apply Hst.
    + intros i ns' n' name'. rewrite Ht, Hn, Hu. destruct (decide (i = it_tablet it)); [done|]. intros [H1 H2]%Htab. rewrite H1, H2.
      rewrite !decide_False; [done|..]; intros (_ & _ & [= ?]); done.
    + intros ns' name' i. rewrite Hn. case_decide as E; [done|]. intros Hi. destruct (Hnam _ _ _ Hi) as [n' Hn']. exists n'. rewrite Ht, decide_False; [done|].
      intros ->. apply E. rewrite Hl in Hn'. injection Hn' as <- <- <-. done.
    + intros ns' n' i. rewrite Hu. case_decide as E; [done|]. intros Hi. destruct (Hnu _ _ _ Hi) as [name' Hn']. exists name'. rewrite Ht, decide_False; [done|].
      intros ->. apply E. rewrite Hl in Hn'. injection Hn' as <- <- <-. done.
  - cbn [table_mapping t]. rewrite Hn. rewrite decide_False; [apply (mo_table _ _ _ s Hs)|]. intros (_ & <- & _). done.
  - intros i Hi. unfold table_state in *. cbn [tablet_states t]. rewrite BTreeMap.get_insert_if by done. by case_decide; [eexists|].
  - apply BTreeMap.wf_bfilter, Hs.
  - intros i d Hi. destruct (Hdocs i d Hi) as [Hi' Hne]. split; [done|]. destruct (proj2 (mo_docs _ _ _ s Hs) i d Hi') as (Hidd & Hv & n' & name' & Hl' & Hsy).
    split_and!; [done|done|]. exists n', name'. split; [|done]. cbn [table_mapping t]. by rewrite Ht, decide_False.
  - intros i md schema Hi Hrole Hjs d o Hv Hval _. apply (delete_ok schema name _ _ vm d o Hv Hval (Hall i md schema Hi Hrole Hjs)).
    + unfold ns_mapping. cbn [mapping_of st_tables with_docs with_tables table_mapping t]. eapply removed_lookup; [done|done|done|by apply Hvirtual].
    + intros name'. unfold ns_mapping. cbn [mapping_of st_tables with_docs with_tables table_mapping t]. rewrite !ns_tablet_name_alt, Ht.
      change (mapping_of s) with m. by case_decide.
  - done.
Qed.
End operations.
