(* ===== verification/SchemaWorker.v ===== *)
(** * SchemaWorker: validating a schema in the background
      (src/crates/application/src/schema_worker/mod.rs)

    The worker picks the pending schema of a namespace, decides from the active
    schema and the table summaries which tables to scan, checks every document
    of those tables as of the timestamp at which it began, and marks the schema
    failed or validated.  Each of its transactions is one step, and the
    transactions of everyone else run between its steps: [System] is the
    database with the worker, and [run_event] one transaction of either.  The
    streams of the table iterator give the documents as of their timestamp;
    timers, logging and back-off delays are left out. *)

From S2P Require Import Prelude Ord BTreeMap Identifier Value Sorting SortingDecode Base32 IdV6 Document TableMapping IndexRegistry Validator Shape ShapeMultiset Schema TableRegistry SchemaRegistry TableSummaries SchemaModel.

Local Open Scope Z_scope.

(** [Snapshot::table_summaries]: absent until they are bootstrapped. *)
Definition Summaries : Type := option TableSummaries.

(** [(total as f64 * 0.05).ceil() as u64]: [round53] rounds to the 53 bits of a
    double, ties to even, and 0.05 is 7205759403792794 / 2^57. *)
Definition round53 (n : Z) : Z :=
  let k := Z.log2 n - 52 in
  if k <=? 0 then n
  else
    let q := n / 2 ^ k in
    let r := n mod 2 ^ k in
    let up := (2 ^ (k - 1) <? r) || ((2 ^ (k - 1) =? r) && Z.odd q) in
    (q + if up then 1 else 0) * 2 ^ k.
Definition five_percent (total : Z) : Z := - (- round53 (round53 total * 7205759403792794) / 2 ^ 57).

(** How a commit ended. *)
Inductive Commit := Committed | Occ | CommitFailed.
Inductive worker_error := ModelFailed (e : model_error) | SummaryMissing | OccFailure | CommitFailure.

Section worker.
Context (ns : TableNamespace) (vm : VirtualSystemMapping).
Context (json_deserialize : list Z -> option DatabaseSchema) (json_serialize : DatabaseSchema -> option (list Z)).
Context (error_string : SchemaValidationError -> list Z).

Definition table_summary (s : SchemaTx) (summaries : Summaries) (table : list Z) : option TableSummary :=
  match name_to_id (ns_mapping ns s) table with
  | Ret table_id => option_map (fun tables => tablet_summary tables (it_tablet table_id)) summaries
  | _ => Some summary_empty
  end.

(** ** What to validate *)

(** [PendingSchemaValidation], the tables to validate, and the documents as of
    its timestamp. *)
Record Validation := MkValidation {
  v_id : ResolvedDocumentId;
  v_table_mapping : NamespacedTableMapping;
  v_db_schema : DatabaseSchema;
  v_tables_to_validate : list (list Z);
  v_snapshot : BTreeMap.t ResolvedDocumentId PackedDocument;
}.

Definition pending_schema_validation (s : SchemaTx) : outcome model_error (option (ResolvedDocumentId * DatabaseSchema * option DatabaseSchema)) :=
  snd ((let! pending := get_schema_by_state ns json_deserialize SchemaPending in
   match pending with
   | Some (i, db_schema) =>
       let! active := get_schema_by_state ns json_deserialize SchemaActive in
       mret (Some (i, db_schema, option_map snd active))
   | None => mret None
   end) s).

(** The beginning of [run], up to [validate_tables]. *)
Definition run_begin (s : SchemaTx) (summaries : Summaries) : outcome model_error (option Validation) :=
  let? pending := pending_schema_validation s in
  match pending with
  | Some (i, db_schema, active_schema) =>
      let tables := tables_to_validate (ns_mapping ns s) vm db_schema active_schema
        (fun table_name => option_map (fun t => (inferred_type t).1) (table_summary s summaries table_name)) in
      Ret (Some (MkValidation i (ns_mapping ns s) db_schema tables (st_docs s)))
  | None => Ret None
  end.

(** ** The progress tracker *)

Record Tracker := MkTracker { update_threshold : Z; docs_validated : Z }.

(** [_total_docs] *)
Fixpoint doc_counts (s : SchemaTx) (summaries : Summaries) (tables : list (list Z)) : option (list Z) :=
  match tables with
  | [] => Some []
  | table_name :: tables =>
      t ← table_summary s summaries table_name; rest ← doc_counts s summaries tables; Some (num_values t :: rest)
  end.

Definition sum (l : list Z) : Z := foldr Z.add 0 l.

Definition _total_docs (s : SchemaTx) (summaries : Summaries) (tables : list (list Z)) : outcome worker_error (option Z) :=
  match summaries with
  | Some _ => let? counts := ok_or (doc_counts s summaries tables) SummaryMissing in Ret (Some (sum counts))
  | None => Ret None
  end.

(** [database.begin], a body and [database.commit_with_write_source]: a failed body
    drops the transaction. *)
Definition transact {A} (commit : Commit) (body : txm A) (s : SchemaTx) : SchemaTx * outcome worker_error A :=
  match body s with
  | (s', Ret a) =>
      match commit with
      | Committed => (s', Ret a)
      | Occ => (s, Err OccFailure)
      | CommitFailed => (s, Err CommitFailure)
      end
  | (_, Err e) => (s, Err (ModelFailed e))
  | (_, Panic) => (s, Panic)
  end.

Definition tracker_new (commit : Commit) (summaries : Summaries) (v : Validation) (s : SchemaTx) : SchemaTx * outcome worker_error Tracker :=
  match _total_docs s summaries (v_tables_to_validate v) with
  | Ret total_docs =>
      match transact commit (initialize_schema_validation_progress (v_id v) total_docs) s with
      | (s', Ret _) =>
          let threshold := match total_docs with Some total => Z.min 500 (five_percent total) | None => 500 end in
          (s', Ret (MkTracker threshold 0))
      | (s', Err e) => (s', Err e)
      | (s', Panic) => (s', Panic)
      end
  | Err e => (s, Err e)
  | Panic => (s, Panic)
  end.

(** Writing [docs_validated] to the progress, with the total of the latest snapshot. *)
Definition write_progress (commit : Commit) (summaries : Summaries) (v : Validation) (tr : Tracker) (s : SchemaTx)
    : SchemaTx * outcome worker_error bool :=
  match _total_docs s summaries (v_tables_to_validate v) with
  | Ret total_docs => transact commit (update_schema_validation_progress (v_id v) (docs_validated tr) total_docs) s
  | Err e => (s, Err e)
  | Panic => (s, Panic)
  end.

(** The remainder panics when the threshold is 0. *)
Definition record_document_validated (commit : Commit) (summaries : Summaries) (v : Validation) (tr : Tracker) (s : SchemaTx)
    : SchemaTx * outcome worker_error (Tracker * bool) :=
  let tr := MkTracker (update_threshold tr) (docs_validated tr + 1) in
  if update_threshold tr =? 0 then (s, Panic)
  else if negb (docs_validated tr mod update_threshold tr =? 0) then (s, Ret (tr, true))
  else
    match write_progress commit summaries v tr s with
    | (s', Ret progress_exists) => (s', Ret (MkTracker (update_threshold tr) 0, progress_exists))
    | (s', Err e) => (s', Err e)
    | (s', Panic) => (s', Panic)
    end.

(** ** The worker *)

Definition MAX_COMMIT_FAILURES : nat := 3.

(** Between two transactions of [run]: [Idle] before it begins or after it ended,
    [Started] before the tracker, [Scanning] with the documents left to check,
    [Failing] while the failure is being committed, [Flushed] before the schema
    is marked validated. *)
Inductive WorkerState :=
| Idle
| Started (v : Validation)
| Scanning (v : Validation) (tr : Tracker) (rest : list PackedDocument)
| Failing (v : Validation) (error : SchemaValidationError) (failures : nat)
| Flushed (v : Validation)
| Panicked.

(** The documents of the tables to validate, table by table. *)
Fixpoint documents_to_check (m : NamespacedTableMapping) (docs : BTreeMap.t ResolvedDocumentId PackedDocument) (tables : list (list Z))
    : outcome mapping_error (list PackedDocument) :=
  match tables with
  | [] => Ret []
  | table_name :: tables =>
      let? tablet := name_to_tablet m table_name in
      let? rest := documents_to_check m docs tables in
      Ret (map snd (bfilter (fun e : ResolvedDocumentId * PackedDocument => bool_decide (tablet_id e.1 = tablet)) docs) ++ rest)
  end.

Definition worker_step (hour_ago : option Z) (summaries : Summaries) (commit : Commit) (w : WorkerState) (s : SchemaTx) : WorkerState * SchemaTx :=
  match w with
  | Idle => match run_begin s summaries with Ret (Some v) => (Started v, s) | Panic => (Panicked, s) | _ => (Idle, s) end
  | Started v =>
      match tracker_new commit summaries v s with
      | (s', Ret tr) =>
          match documents_to_check (v_table_mapping v) (v_snapshot v) (v_tables_to_validate v) with
          | Ret docs => (Scanning v tr docs, s')
          | Err _ => (Idle, s')
          | Panic => (Panicked, s')
          end
      | (s', Err _) => (Idle, s')
      | (s', Panic) => (Panicked, s')
      end
  | Scanning v tr (doc :: rest) =>
      match ns_tablet_name (v_table_mapping v) (tablet_id (id doc)) with
      | Ret table_name =>
          match check_existing_document (v_db_schema v) doc table_name (v_table_mapping v) vm with
          | Err schema_error => (Failing v schema_error 0, s)
          | Ret _ =>
              match record_document_validated commit summaries v tr s with
              | (s', Ret (tr, true)) => (Scanning v tr rest, s')
              | (s', Ret (_, false)) | (s', Err _) => (Idle, s')
              | (s', Panic) => (Panicked, s')
              end
          | Panic => (Panicked, s)
          end
      | Err _ => (Idle, s)
      | Panic => (Panicked, s)
      end
  | Failing v error failures =>
      match transact commit (mark_failed error_string hour_ago (v_id v) error) s with
      | (s', Err OccFailure) => (if (S failures <? MAX_COMMIT_FAILURES)%nat then Failing v error (S failures) else Idle, s')
      | (s', Ret _) | (s', Err _) => (Idle, s')
      | (s', Panic) => (Panicked, s')
      end
  | Scanning v tr [] =>
      match write_progress commit summaries v tr s with
      | (s', Ret _) => (Flushed v, s')
      | (s', Err _) => (Idle, s')
      | (s', Panic) => (Panicked, s')
      end
  | Flushed v =>
      match transact commit (mark_validated (v_id v)) s with
      | (s', Panic) => (Panicked, s')
      | (s', _) => (Idle, s')
      end
  | Panicked => (Panicked, s)
  end.

(** ** The worker beside other transactions *)

(** A transaction on the schemas, tables and documents of the namespace; [hour_ago]
    is the creation time one hour before it began. *)
Inductive operation :=
| OpSubmit (alloc : list Z -> list Z * Z) (new_id : ResolvedDocumentId) (time : Z) (schema : DatabaseSchema)
| OpApply (schema_id : option ResolvedDocumentId)
| OpOverwriteAll
| OpCreateTable (alloc : list Z -> list Z * Z) (name : list Z)
| OpDeleteTable (name : list Z)
| OpInsert (document : PackedDocument)
| OpReplace (i : ResolvedDocumentId) (new_value : ConvexValue -> outcome model_error ConvexValue)
| OpDelete (i : ResolvedDocumentId).

(** The state after the operation, also when it failed: the code that ran it may
    catch the error and commit what was written. *)
Definition run_operation (hour_ago : option Z) (op : operation) (s : SchemaTx) : SchemaTx :=
  match op with
  | OpSubmit alloc new_id time schema => (submit_pending ns json_deserialize json_serialize hour_ago alloc new_id time schema s).1
  | OpApply schema_id => (apply ns json_deserialize hour_ago schema_id s).1
  | OpOverwriteAll => (overwrite_all ns json_deserialize hour_ago s).1
  | OpCreateTable alloc name => (insert_table_metadata ns alloc name s).1
  | OpDeleteTable name => (delete_active_table ns json_deserialize error_string hour_ago name s).1
  | OpInsert document => (insert_document ns vm json_deserialize error_string hour_ago document s).1
  | OpReplace i new_value => (replace_inner ns vm json_deserialize error_string hour_ago i new_value s).1
  | OpDelete i => (delete_inner i s).1
  end.

Record System := MkSystem { sys_db : SchemaTx; sys_worker : WorkerState }.

Inductive event :=
| EvOperation (hour_ago : option Z) (op : operation)
| EvWorker (hour_ago : option Z) (summaries : Summaries) (commit : Commit).

Definition run_event (e : event) (y : System) : System :=
  match e with
  | EvOperation hour_ago op => MkSystem (run_operation hour_ago op (sys_db y)) (sys_worker y)
  | EvWorker hour_ago summaries commit =>
      let '(w, s) := worker_step hour_ago summaries commit (sys_worker y) (sys_db y) in MkSystem s w
  end.

(** A namespace whose only table is [_schemas]. *)
Definition start_tables (tablet : list Z) (number : Z) : TableRegistry :=
  MkTables [(tablet, Active)] (mapping_insert mapping_new tablet ns number SCHEMAS_TABLE).
Definition system_start (tablet : list Z) (number : Z) : System :=
  MkSystem (MkSchemaTx (start_tables tablet number) [] [] namespaced_default [] []) Idle.

Definition run_events (es : list event) (y : System) : System := fold_left (fun y e => run_event e y) es y.
End worker.

(** ** Every transaction keeps the invariant *)

Section system.
Context (ns : TableNamespace) (vm : VirtualSystemMapping).
Context (json_deserialize : list Z -> option DatabaseSchema) (json_serialize : DatabaseSchema -> option (list Z)).
Context (error_string : SchemaValidationError -> list Z).
Notation model_ok := (model_ok ns vm json_deserialize).
Notation evolves := (evolves ns vm json_deserialize).
Notation run_operation := (run_operation ns vm json_deserialize json_serialize error_string).
Notation worker_step := (worker_step ns vm json_deserialize error_string).
Notation run_event := (run_event ns vm json_deserialize json_serialize error_string).
Notation run_events := (run_events ns vm json_deserialize json_serialize error_string).
Notation accepts_doc := (accepts_doc ns vm).

(** What the generators of ids and values and the table summaries are relied on
    for: new ids are fresh, documents are objects in user tables, and the
    summary of a table holds the shape of its documents. *)
Definition summaries_ok (s : SchemaTx) (summaries : Summaries) : Prop :=
  forall tables i d, summaries = Some tables -> doc_of s i = Some d ->
    let t := tablet_summary tables (tablet_id i) in shape_wf (inferred_type t).1 /\ contains (inferred_type t).1 (value d) = true.

Definition operation_allowed (op : operation) (s : SchemaTx) : Prop :=
  match op with
  | OpSubmit _ new_id _ _ => BTreeMap.get new_id (st_created s) = None
  | OpDeleteTable name => is_system name = false
  | OpInsert document => doc_ok ns (mapping_of s) (id document) document
  | OpReplace _ new_value => forall v v', new_value v = Ret v' -> exists o, v' = Object o /\ valid (Object o) = true
  | _ => True
  end.

Definition allowed (e : event) (y : System) : Prop :=
  match e with
  | EvOperation _ op => operation_allowed op (sys_db y)
  | EvWorker _ summaries _ => summaries_ok (sys_db y) summaries
  end.

Inductive reachable (y0 : System) : System -> Prop :=
| reach_start : reachable y0 y0
| reach_event y e : reachable y0 y -> allowed e y -> reachable y0 (run_event e y).

(** Parsed schemas keep their tables by name, and virtual tables stand for
    system tables. *)
Hypothesis Hjson : forall raw schema, json_deserialize raw = Some schema -> BTreeMap.wf (tables schema).
Hypothesis Hvirtual : forall t, is_system t = false -> BTreeMap.get t (system_to_virtual vm) = None.

Lemma overwrite_all_ok hour_ago : spec ns vm json_deserialize (fun _ => True) (overwrite_all ns json_deserialize hour_ago) (fun _ _ => True).
Proof.
  apply spec_pointwise. intros s0 _ _. unfold overwrite_all.
  assert (Ho : forall state, spec ns vm json_deserialize (retires (fun _ => True) s0) (overwrite_by_state ns json_deserialize hour_ago state) (fun _ => retires (fun _ => True) s0)).
  { intros state. eapply spec_weaken; [apply (overwrite_by_state_ok ns vm json_deserialize hour_ago (fun _ => True) s0 state)|done|by intros ? ? [? _]]. done. }
  eapply spec_pre; [|by intros s ->; apply retires_refl]. repeat (eapply spec_bind; [apply Ho|intros ?]). by apply spec_ret.
Qed.

Lemma operation_ok hour_ago op s : model_ok s -> operation_allowed op s ->
  model_ok (run_operation hour_ago op s) /\ evolves s (run_operation hour_ago op s).
Proof.
  intros Hs Hop.
  assert (Hspec : forall {A} P (m : txm A) Q, spec ns vm json_deserialize P m Q -> P s -> model_ok (m s).1 /\ evolves s (m s).1) by (intros A P m Q H HP; by destruct (H s Hs HP) as (? & ? & _)).
  destruct op; cbn [SchemaWorker.run_operation operation_allowed] in *.
  - by eapply Hspec; [apply submit_pending_ok|].
  - by eapply Hspec; [apply apply_ok|].
  - by eapply Hspec; [apply overwrite_all_ok|].
  - by eapply Hspec; [apply (insert_table_metadata_ok _ _ _ (fun _ => True))|].
  - by eapply Hspec; [apply delete_active_table_ok|].
  - by eapply Hspec; [apply insert_document_ok|].
  - by eapply Hspec; [apply replace_inner_ok|].
  - by eapply Hspec; [apply delete_inner_ok|].
Qed.

Lemma transact_ok {A} P commit (body : txm A) Q s : spec ns vm json_deserialize P body Q -> model_ok s -> P s ->
  model_ok (transact commit body s).1 /\ evolves s (transact commit body s).1.
Proof.
  intros Hb Hs HP. destruct (Hb s Hs HP) as (H1 & H2 & _). unfold transact. destruct (body s) as [s' [a|e|]]; cbn [fst] in *; [|by split; [|apply evolves_refl]..].
  by destruct commit; split; try done; apply evolves_refl.
Qed.

Lemma progress_step p s : model_ok s -> model_ok (with_progress p s) /\ evolves s (with_progress p s).
Proof. apply progress_ok. Qed.

Lemma initialize_progress_ok i total : spec ns vm json_deserialize (fun _ => True) (initialize_schema_validation_progress i total) (fun _ _ => True).
Proof. intros s Hs _. cbn [initialize_schema_validation_progress mset fst snd]. by split_and!; [apply progress_step..|]. Qed.

Lemma update_progress_ok i num total : spec ns vm json_deserialize (fun _ => True) (update_schema_validation_progress i num total) (fun _ _ => True).
Proof.
  intros s Hs _. unfold update_schema_validation_progress, mbind, mget. destruct (BTreeMap.get i (st_progress s)); cbn [mset mret fst snd]; split_and!; try done; by first [apply progress_step|apply evolves_refl].
Qed.

Lemma tracker_new_ok commit summaries v s : model_ok s ->
  model_ok (tracker_new ns commit summaries v s).1 /\ evolves s (tracker_new ns commit summaries v s).1.
Proof.
  intros Hs. unfold tracker_new. destruct (_total_docs ns s summaries (v_tables_to_validate v)) as [total|e|]; cbn [fst]; [|by split; [|apply evolves_refl]..].
  pose proof (transact_ok _ commit _ _ s (initialize_progress_ok (v_id v) total) Hs I) as H. by destruct (transact _ _ _) as [s' [a|e|]].
Qed.

Lemma write_progress_ok commit summaries v tr s : model_ok s ->
  model_ok (write_progress ns commit summaries v tr s).1 /\ evolves s (write_progress ns commit summaries v tr s).1.
Proof.
  intros Hs. unfold write_progress. destruct (_total_docs ns s summaries (v_tables_to_validate v)) as [total|e|]; cbn [fst]; [|by split; [|apply evolves_refl]..].
  by apply (transact_ok _ commit _ _ s (update_progress_ok (v_id v) (docs_validated tr) total)).
Qed.

Lemma record_validated_ok commit summaries v tr s : model_ok s ->
  model_ok (record_document_validated ns commit summaries v tr s).1 /\ evolves s (record_document_validated ns commit summaries v tr s).1.
Proof.
  intros Hs. unfold record_document_validated. cbn [update_threshold docs_validated]. destruct (_ =? 0); [by split; [|apply evolves_refl]|].
  destruct (negb _); [by split; [|apply evolves_refl]|]. set (tr' := MkTracker _ _).
  pose proof (write_progress_ok commit summaries v tr' s Hs) as H. by destruct (write_progress _ _ _ _ _ _) as [s' [a|e|]].
Qed.

(** *** What the worker knows *)

(** The schema was pending when the worker began, and the documents of that time
    that are not [left] conform to it. *)
Definition validated_but (v : Validation) (left : PackedDocument -> Prop) (s : SchemaTx) : Prop :=
  exists s0 raw, model_ok s0 /\ evolves s0 s /\ v_table_mapping v = ns_mapping ns s0 /\ v_snapshot v = st_docs s0 /\
    schema_of s0 (v_id v) = Some (MkSchemaMetadata SchemaPending raw) /\ json_deserialize raw = Some (v_db_schema v) /\
    forall i d, doc_of s0 i = Some d -> accepts_doc (v_db_schema v) s0 d \/ left d.

Definition in_scanned_table (v : Validation) (d : PackedDocument) : Prop :=
  exists name, ns_tablet_name (v_table_mapping v) (tablet_id (id d)) = Ret name /\ name ∈ v_tables_to_validate v.

Definition worker_ok (w : WorkerState) (s : SchemaTx) : Prop :=
  match w with
  | Started v => validated_but v (in_scanned_table v) s
  | Scanning v _ rest => validated_but v (fun d => d ∈ rest) s
  | Flushed v => validated_but v (fun _ => False) s
  | Idle | Failing _ _ _ | Panicked => True
  end.

Lemma validated_later v left s s' : model_ok s -> evolves s s' -> validated_but v left s -> validated_but v left s'.
Proof.
  intros Hs He (s0 & raw & H0 & He0 & Hrest). exists s0, raw. split; [done|]. split; [by apply (evolves_trans _ _ _ s0 s)|done].
Qed.

Lemma validated_less v (left left' : PackedDocument -> Prop) s :
  (forall s0 i d, model_ok s0 -> v_table_mapping v = ns_mapping ns s0 -> v_snapshot v = st_docs s0 -> doc_of s0 i = Some d -> left d -> accepts_doc (v_db_schema v) s0 d \/ left' d) ->
  validated_but v left s -> validated_but v left' s.
Proof.
  intros Hl (s0 & raw & H0 & He & Hm & Hd & Hi & Hj & Hall). exists s0, raw. split_and!; [done..|]. intros i d Hid.
  destruct (Hall i d Hid) as [|H]; [by left|by apply (Hl s0 i d)].
Qed.

Lemma worker_later w s s' : model_ok s -> evolves s s' -> worker_ok w s -> worker_ok w s'.
Proof. intros Hs He. destruct w; try done; by apply validated_later. Qed.

(** The pending schema and the active one, as [pending_schema_validation] finds them. *)
Lemma pending_found s i schema active : model_ok s -> pending_schema_validation ns json_deserialize s = Ret (Some (i, schema, active)) ->
  (exists raw, schema_of s i = Some (MkSchemaMetadata SchemaPending raw) /\ json_deserialize raw = Some schema) /\
  (forall a, active = Some a -> exists j raw, schema_of s j = Some (MkSchemaMetadata SchemaActive raw) /\ json_deserialize raw = Some a).
Proof.
  intros Hs. unfold pending_schema_validation.
  assert (Hspec : spec ns vm json_deserialize (fun s' => s' = s) (let! pending := get_schema_by_state ns json_deserialize SchemaPending in
     match pending with Some (i, db_schema) => let! active := get_schema_by_state ns json_deserialize SchemaActive in mret (Some (i, db_schema, option_map snd active))
     | None => mret None end)
    (fun r _ => forall i schema active, r = Some (i, schema, active) -> by_state json_deserialize SchemaPending (Some (i, schema)) s /\
       forall a, active = Some a -> exists j, by_state json_deserialize SchemaActive (Some (j, a)) s)).
  { eapply spec_bind; [apply get_schema_by_state_ok|]. intros [[i' sc]|]; cbn beta; [|by apply spec_ret].
    eapply spec_bind; [apply get_schema_by_state_ok|]. intros ac. cbn beta. apply spec_ret. intros s' _ [(-> & _ & Hp) [_ Ha]] i1 s1 a1 [= <- <- <-].
    split; [done|]. intros a. destruct ac as [[j aa]|]; [|done]. cbn [option_map snd]. intros [= <-]. by exists j. }
  destruct (Hspec s Hs eq_refl) as (_ & _ & HQ). intros Hret. destruct (HQ _ Hret i schema active eq_refl) as [Hp Ha].
  split; [done|]. intros a Hact. destruct (Ha a Hact) as (j & raw & Hj). by exists j, raw.
Qed.

Lemma name_to_id_lookup m name t ns' n name' : name_lookup m ns name = Some t -> tablet_lookup m t = Some (ns', n, name') ->
  name_to_id (mapping_namespace m ns) name = Ret (MkTabletId t n).
Proof.
  unfold name_lookup, tablet_lookup, name_to_id, id_and_number_if_exists, id_if_exists. cbn [mapping_namespace ns_table_name_to_canonical_tablet ns_tablet_to_table].
  intros Hn Ht. by rewrite nested_get_default, Hn, Ht.
Qed.

(** Documents of tables that are not scanned conform already. *)
Lemma run_begin_ok s summaries v : model_ok s -> summaries_ok s summaries -> run_begin ns vm json_deserialize s summaries = Ret (Some v) ->
  validated_but v (in_scanned_table v) s.
Proof.
  intros Hs Hsum. unfold run_begin. destruct (pending_schema_validation ns json_deserialize s) as [[[[i schema] active]|]| |] eqn:Hp; cbn [obind]; [|done..].
  destruct (pending_found s i schema active Hs Hp) as [(raw & Hi & Hj) Hact]. intros [= <-]. exists s, raw. cbn [v_id v_db_schema v_table_mapping v_snapshot].
  split_and!; [done|apply evolves_refl|done..|]. intros j d Hd. destruct (proj2 (mo_docs _ _ _ s Hs) j d Hd) as (Hid & (o & Hv & Hval) & n & name & Hl & _).
  assert (Hname : ns_tablet_name (ns_mapping ns s) (tablet_id (id d)) = Ret name) by (unfold ns_mapping; rewrite ns_tablet_name_alt, Hid, Hl; done).
  set (shapes := fun table_name => _). destruct (decide (name ∈ tables_to_validate (ns_mapping ns s) vm schema active shapes)) as [Hin|Hnin]; [right; by exists name|left].
  apply (skipped_ok _ _ schema active shapes d o name Hv Hval Hname); [by eapply Hjson| | |done].
  - intros a Ha. destruct (Hact a Ha) as (k & raw' & Hk & Hjk). by apply (mo_accepts _ _ _ s Hs k _ a Hk (or_intror eq_refl) Hjk j).
  - intros sh. destruct (tok_tablets _ (mo_tables _ _ _ s Hs) _ _ _ _ Hl) as [Hnl _]. unfold shapes, table_summary, ns_mapping, mapping_of.
    rewrite (name_to_id_lookup _ name _ _ _ _ Hnl Hl). destruct summaries as [tables|]; [|done]. cbn [option_map it_tablet]. intros [= <-].
    destruct (Hsum tables j d eq_refl Hd) as [Hw Hc]. by rewrite <- Hv.
Qed.

(** The scan sees every document of its tables. *)
Lemma documents_complete m docs tables l name t d i :
  documents_to_check m docs tables = Ret l -> name ∈ tables -> name_to_tablet m name = Ret t -> (i, d) ∈ docs -> tablet_id i = t -> d ∈ l.
Proof.
  revert l. induction tables as [|n tables IH]; cbn [documents_to_check]; intros l Hl Hin Ht Hd Hi; [by apply elem_of_nil in Hin|].
  destruct (name_to_tablet m n) as [tn| |] eqn:Hn; cbn [obind] in Hl; [|done..]. destruct (documents_to_check m docs tables) as [rest| |] eqn:Hr; cbn [obind] in Hl; [|done..].
  injection Hl as <-. apply elem_of_app. apply elem_of_cons in Hin as [<-|Hin]; [left|right; by apply IH].
  apply list_elem_of_fmap. exists (i, d). split; [done|]. apply elem_of_bfilter. split; [done|]. apply bool_decide_eq_true_2. cbn [fst]. congruence.
Qed.

Lemma scan_begins v s docs : documents_to_check (v_table_mapping v) (v_snapshot v) (v_tables_to_validate v) = Ret docs ->
  validated_but v (in_scanned_table v) s -> validated_but v (fun d => d ∈ docs) s.
Proof.
  intros Hdocs. apply validated_less. intros s0 i d H0 Hm Hsn Hd (name & Hname & Hin). right.
  destruct (proj2 (mo_docs _ _ _ s0 H0) i d Hd) as (Hid & _ & n & name' & Hl & _). rewrite Hm in *. unfold ns_mapping in *.
  rewrite ns_tablet_name_alt, Hid, Hl in Hname. injection Hname as ->. destruct (tok_tablets _ (mo_tables _ _ _ s0 H0) _ _ _ _ Hl) as [Hnl _].
  eapply (documents_complete _ _ _ _ name (tablet_id i) d i Hdocs); [done| |by rewrite Hsn; apply BTreeMap.elem_of_get; [apply H0|]|done].
  unfold name_to_tablet, mapping_of. by rewrite (name_to_id_lookup _ name _ _ _ _ Hnl Hl).
Qed.

Lemma document_checked v d rest name s : check_existing_document (v_db_schema v) d name (v_table_mapping v) vm = Ret tt ->
  validated_but v (fun d' => d' ∈ d :: rest) s -> validated_but v (fun d' => d' ∈ rest) s.
Proof.
  intros Hc. apply validated_less. intros s0 i d' H0 Hm _ _ [->|H]%elem_of_cons; [left|by right].
  unfold check_existing_document in Hc. unfold SchemaModel.accepts_doc. rewrite <- Hm. by destruct (schema_check_value _ _ _ _) as [[]| |].
Qed.

(** Once all are checked, the schema accepts the documents of today. *)
Lemma all_checked v s : model_ok s -> validated_but v (fun _ => False) s ->
  forall md schema, schema_of s (v_id v) = Some md -> sm_state md = SchemaPending -> json_deserialize (raw_schema md) = Some schema -> accepts ns vm schema s.
Proof.
  intros Hs (s0 & raw & H0 & He & _ & _ & Hi & Hj & Hall) md schema Hmd Hst Hjs.
  assert (Hc : is_Some (BTreeMap.get (v_id v) (st_created s0))) by (apply (proj2 (mo_created _ _ _ s0 H0)); by eexists).
  destruct (ev_schema _ _ _ _ _ He (v_id v) md Hc Hmd) as (md0 & Hmd0 & Hraw & _). rewrite Hi in Hmd0. injection Hmd0 as <-.
  assert (schema = v_db_schema v) as -> by (rewrite <- Hraw in Hjs; cbn in Hjs; congruence).
  destruct (ev_docs _ _ _ _ _ He (v_id v) md _ Hc Hmd Hst Hjs) as [Hk Hd]. intros j d Hjd. destruct (Hd j d Hjd) as [Hjd0|]; [|done].
  destruct (Hall j d Hjd0) as [Ha|[]]. destruct (proj2 (mo_docs _ _ _ s0 H0) j d Hjd0) as (_ & (o & Hv & Hval) & _).
  apply (Hk d o Hv Hval); [by eapply doc_used|done].
Qed.

Lemma worker_step_ok hour_ago summaries commit w s : model_ok s -> worker_ok w s -> summaries_ok s summaries ->
  let r := worker_step hour_ago summaries commit w s in model_ok r.2 /\ evolves s r.2 /\ worker_ok r.1 r.2.
Proof.
  intros Hs Hw Hsum. destruct w as [|v|v tr [|d rest]|v e n|v|]; cbn [SchemaWorker.worker_step worker_ok] in *.
  - destruct (run_begin ns vm json_deserialize s summaries) as [[v|]| |] eqn:Hb; cbn [fst snd worker_ok]; split_and!; try done; try apply evolves_refl.
    by eapply run_begin_ok.
  - pose proof (tracker_new_ok commit summaries v s Hs) as [H1 H2]. destruct (tracker_new ns commit summaries v s) as [s' [tr| |]]; cbn [fst snd] in *; [|done..].
    destruct (documents_to_check _ _ _) as [docs| |] eqn:Hd; cbn [fst snd worker_ok]; [|done..]. split_and!; [done..|].
    eapply scan_begins; [done|]. by apply (validated_later v _ s).
  - pose proof (write_progress_ok commit summaries v tr s Hs) as [H1 H2]. destruct (write_progress ns commit summaries v tr s) as [s' [b| |]]; cbn [fst snd worker_ok] in *; [|done..].
    split_and!; [done..|]. eapply (validated_later v _ s); [done|done|]. eapply validated_less; [|done]. intros ? ? ? _ _ _ _ Hin. by apply elem_of_nil in Hin.
  - destruct (ns_tablet_name _ _) as [name| |]; [|by split_and!; [|apply evolves_refl|]..].
    destruct (check_existing_document _ _ _ _ _) as [[]|e|] eqn:Hc; [|by split_and!; [|apply evolves_refl|]..].
    pose proof (record_validated_ok commit summaries v tr s Hs) as [H1 H2].
    destruct (record_document_validated ns commit summaries v tr s) as [s' [[tr' []]| |]]; cbn [fst snd worker_ok] in *; [|done..].
    split_and!; [done..|]. apply (validated_later v _ s); [done|done|]. by eapply document_checked.
  - pose proof (transact_ok _ commit _ _ s (mark_failed_ok ns vm json_deserialize error_string hour_ago (fun _ => True) s (v_id v) e I) Hs (retires_refl _ _)) as [H1 H2].
    destruct (transact commit _ s) as [s' [|[]|]]; cbn [fst snd] in *; try done. by destruct (_ <? _)%nat.
  - pose proof (transact_ok _ commit _ _ s (mark_validated_ok ns vm json_deserialize (v_id v)) Hs (all_checked v s Hs Hw)) as [H1 H2].
    by destruct (transact commit _ s) as [s' []].
  - by split_and!; [|apply evolves_refl|].
Qed.

(** *** Runs *)

Record system_ok (y : System) : Prop := { so_model : model_ok (sys_db y); so_worker : worker_ok (sys_worker y) (sys_db y) }.

Lemma event_ok e y : system_ok y -> allowed e y -> system_ok (run_event e y) /\ evolves (sys_db y) (sys_db (run_event e y)).
Proof.
  intros [Hm Hw] Ha. destruct e as [h op|h summaries c]; cbn [SchemaWorker.run_event allowed] in *.
  - destruct (operation_ok h op (sys_db y) Hm Ha) as [H1 H2]. split; [constructor; [done|by apply (worker_later _ (sys_db y))]|done].
  - pose proof (worker_step_ok h summaries c (sys_worker y) (sys_db y) Hm Hw Ha) as (H1 & H2 & H3).
    destruct (worker_step h summaries c (sys_worker y) (sys_db y)) as [w s]. by split; [constructor|].
Qed.

Lemma reachable_ok y0 y : system_ok y0 -> reachable y0 y -> system_ok y /\ evolves (sys_db y0) (sys_db y).
Proof.
  intros H0. induction 1 as [|y e _ [IH1 IH2] Ha]; [split; [done|apply evolves_refl]|].
  destruct (event_ok e y IH1 Ha) as [H1 H2]. split; [done|]. apply (evolves_trans _ _ _ _ (sys_db y)); [apply IH1|done|done].
Qed.

Fixpoint allowed_run (es : list event) (y : System) : Prop :=
  match es with [] => True | e :: es => allowed e y /\ allowed_run es (run_event e y) end.

Lemma run_reachable y0 es y : reachable y0 y -> allowed_run es y -> reachable y0 (run_events es y).
Proof. revert y. induction es as [|e es IH]; intros y Hr; [done|]. cbn. intros [Ha Hes]. apply IH; [by constructor|done]. Qed.

(** *** The start *)

Lemma start_tables_ok tablet number : tables_ok (start_tables ns tablet number).
Proof.
  destruct (mapping_insert_ok mapping_new tablet ns number SCHEMAS_TABLE mapping_new_wf) as (Hwf & Ht & Hn & Hu).
  assert (H0 : forall i, tablet_lookup mapping_new i = None) by done.
  assert (Hn0 : forall ns' n, name_lookup mapping_new ns' n = None) by done. assert (Hu0 : forall ns' n, number_lookup mapping_new ns' n = None) by done.
  constructor; cbn [start_tables table_mapping tablet_states].
  - done.
  - split; [by intros ? H%elem_of_nil|done].
  - intros i. rewrite Ht. unfold table_state. cbn [tablet_states start_tables]. case_decide as E; [|rewrite H0; by intros []].
    subst. intros _. exists Active. apply BTreeMap.elem_of_get; [split; [by intros ? H%elem_of_nil|done]|by left].
  - intros i ns' n name. rewrite Ht. case_decide as E; [|by rewrite H0]. intros [= <- <- <-]. subst i. by rewrite Hn, Hu, !decide_True.
  - intros ns' name i. rewrite Hn. case_decide as E; [|by rewrite Hn0]. destruct E as [-> ->]. intros [= <-]. exists number. by rewrite Ht, decide_True.
  - intros ns' n i. rewrite Hu. case_decide as E; [|by rewrite Hu0]. destruct E as [-> ->]. intros [= <-]. eexists. by rewrite Ht, decide_True.
Qed.

Lemma system_start_ok tablet number : system_ok (system_start ns tablet number).
Proof.
  destruct (mapping_insert_ok mapping_new tablet ns number SCHEMAS_TABLE mapping_new_wf) as (_ & _ & Hn & _).
  constructor; [|done]. constructor; cbn [system_start sys_db st_registry st_schemas st_created st_tables st_docs].
  - by constructor.
  - by split; intros ? ? ? ?.
  - split; [done|]. by intros i [? ?].
  - apply start_tables_ok.
  - unfold mapping_of. cbn [st_tables start_tables table_mapping system_start sys_db]. rewrite Hn, decide_True by done. by eexists.
  - by split; [|intros ? ?].
  - by intros ? ?.
Qed.
End system.

(** ** An example *)

Module SchemaWorkerExample.
(** The table [t], its schema [{a: int64}], a document that conforms and one that does not. *)
Definition t : list Z := [116].
Definition schema : DatabaseSchema :=
  MkSchema [(t, MkTableDef t [] [] [] [] [] [] (Some (UnionOf [[([97], (VInt64, false))]])))] true.
Definition json (raw : list Z) : option DatabaseSchema := if bool_decide (raw = [1]) then Some schema else None.
Definition to_json (s : DatabaseSchema) : option (list Z) := if bool_decide (s = schema) then Some [1] else None.
Definition text (e : SchemaValidationError) : list Z := [].
Definition alloc (name : list Z) : list Z * Z := ([2], 10001).
Definition schema_id : ResolvedDocumentId := MkResolved [1] (MkId 1 (replicate 16 5)).
Definition doc_id (n : Z) : ResolvedDocumentId := MkResolved [2] (MkId 10001 (replicate 16 n)).
Definition good : PackedDocument := MkDoc (Object [([97], Int64 1)]) (doc_id 1).
Definition bad : PackedDocument := MkDoc (Object [([97], String [120])]) (doc_id 2).
Definition start : System := system_start Global [1] 1.
Notation run := (run_events Global example_virtual json to_json text).
Notation allowed_run := (allowed_run Global example_virtual json to_json text).

Definition worker : event := EvWorker (Some 0) None Committed.

(** A schema is submitted, validated and made active; a document is inserted. *)
Definition enforced_run : list event :=
  [EvOperation (Some 0) (OpSubmit alloc schema_id 10 schema); worker; worker; worker; worker;
   EvOperation (Some 0) (OpApply (Some schema_id)); EvOperation (Some 0) (OpInsert good); EvOperation (Some 0) (OpInsert bad)].

(** The worker begins while the table has two documents; they are deleted before
    the tracker reads the count. *)
Definition shape : ShapeEnum := SObject [([97], ((SUnion [(SInt64, 1); (SString, 1)], 2), false))].
Definition panic_run : list event :=
  [EvOperation (Some 0) (OpCreateTable alloc t); EvOperation (Some 0) (OpInsert good); EvOperation (Some 0) (OpInsert bad);
   EvOperation (Some 0) (OpSubmit alloc schema_id 10 schema);
   EvWorker (Some 0) (Some (MkSummaries [([2], MkSummary (shape, 2) 0)] 2 0 0)) Committed;
   EvOperation (Some 0) (OpDelete (doc_id 1)); EvOperation (Some 0) (OpDelete (doc_id 2));
   EvWorker (Some 0) (Some (MkSummaries [([2], summary_empty)] 0 0 0)) Committed;
   EvWorker (Some 0) (Some (MkSummaries [([2], summary_empty)] 0 0 0)) Committed].

Lemma no_summaries h c y : allowed Global (EvWorker h None c) y.
Proof. by intros ? ? ?. Qed.

Lemma listed_summaries h c y tables docs : st_docs (sys_db y) = docs -> BTreeMap.wf docs ->
  Forall (fun e : ResolvedDocumentId * PackedDocument => let u := (inferred_type (tablet_summary tables (tablet_id e.1))).1 in shape_wf u /\ contains u (value e.2) = true) docs ->
  allowed Global (EvWorker h (Some tables) c) y.
Proof.
  intros Hd Hwf Hall tables' i d [= <-] Hi. unfold doc_of in Hi. rewrite Hd in Hi. apply BTreeMap.elem_of_get in Hi; [|done]. rewrite Forall_forall in Hall. exact (Hall (i, d) Hi).
Qed.

Lemma insert_allowed h y d n name : (exists o, value d = Object o /\ valid (Object o) = true) ->
  tablet_lookup (mapping_of (sys_db y)) (tablet_id (id d)) = Some (Global, n, name) -> is_system name = false -> allowed Global (EvOperation h (OpInsert d)) y.
Proof. intros Ho Hl Hs. by split_and!; [|done|exists n, name]. Qed.

Ltac allow := split; [lazymatch goal with
  | |- allowed _ (EvWorker _ None _) _ => apply no_summaries
  | |- allowed _ (EvOperation _ (OpInsert _)) _ =>
      apply (insert_allowed _ _ _ 10001 t); [eexists; split; [reflexivity|by vm_compute]|by vm_compute|by vm_compute]
  | |- allowed _ (EvOperation _ (OpApply _)) _ => exact I
  | |- _ => vm_compute; done
  end|].

Lemma json_tables raw s : json raw = Some s -> BTreeMap.wf (tables s).
Proof. unfold json. case_bool_decide; [|done]. intros [= <-]. split; [by intros ? []%elem_of_nil|done]. Qed.

Lemma enforced_run_allowed : allowed_run enforced_run start.
Proof. unfold enforced_run, worker. do 8 allow. exact I. Qed.

Lemma shape_holds : shape_wf shape /\ contains shape (value good) = true /\ contains shape (value bad) = true.
Proof.
  split_and!; [|by vm_compute|by vm_compute]. apply wf_object; [split; [by intros ? []%elem_of_nil|done]|].
  intros e ->%list_elem_of_singleton. apply wf_union. intros u [->|[->|[]%elem_of_nil]%elem_of_cons]%elem_of_cons; by constructor.
Qed.

Lemma panic_run_allowed : allowed_run panic_run start.
Proof.
  destruct shape_holds as (Hw & Hg & Hb). unfold panic_run. do 4 allow. split; [|].
  { apply (listed_summaries _ _ _ _ [(doc_id 1, good); (doc_id 2, bad)]); [by vm_compute| |].
    2: { constructor; [exact (conj Hw Hg)|]. constructor; [exact (conj Hw Hb)|constructor]. }
    split; [by intros ? ->%list_elem_of_singleton|]. split; [by intros ? []%elem_of_nil|done]. }
  do 2 allow. do 2 (split; [apply (listed_summaries _ _ _ _ []); [by vm_compute|done|constructor]|]). exact I.
Qed.
End SchemaWorkerExample.

(** ** The properties *)

Import SchemaWorkerExample.

(** C9: from a fresh namespace on, whatever transactions run and however they
    interleave with the worker, every document of the namespace conforms to a
    schema that is active or validated. *)
Theorem active_schema_enforced ns vm json_deserialize json_serialize error_string tablet number y i md schema j d :
  (forall raw schema, json_deserialize raw = Some schema -> BTreeMap.wf (tables schema)) ->
  (forall t, is_system t = false -> BTreeMap.get t (system_to_virtual vm) = None) ->
  reachable ns vm json_deserialize json_serialize error_string (system_start ns tablet number) y ->
  schema_of (sys_db y) i = Some md -> sm_state md = SchemaValidated \/ sm_state md = SchemaActive -> json_deserialize (raw_schema md) = Some schema ->
  doc_of (sys_db y) j = Some d ->
  schema_check_value schema d (ns_mapping ns (sys_db y)) vm = Ret tt.
Proof.
  intros Hjson Hvirtual Hr Hi Hst Hj Hd.
  destruct (reachable_ok ns vm json_deserialize json_serialize error_string Hjson Hvirtual _ y (system_start_ok ns vm json_deserialize tablet number) Hr) as [[Hm _] _].
  by apply (mo_accepts _ _ _ _ Hm i md schema Hi Hst Hj j).
Qed.

Lemma active_schema_enforced_witness :
  let y := run_events Global example_virtual json to_json text enforced_run start in
  doc_of (sys_db y) (doc_id 1) = Some good /\ schema_check_value schema good (ns_mapping Global (sys_db y)) example_virtual = Ret tt.
Proof.
  intros y. split; [by vm_compute|].
  apply (active_schema_enforced Global example_virtual json to_json text [1] 1 y schema_id (MkSchemaMetadata SchemaActive [1]) schema (doc_id 1)).
  - apply json_tables.
  - done.
  - apply run_reachable; [apply reach_start|apply enforced_run_allowed].
  - by vm_compute.
  - by right.
  - by vm_compute.
  - by vm_compute.
Defined.

(** C11: at most one schema is active and at most one is pending or validated, and
    from any state of a run to a later one the schemas that existed keep their
    definition and move along the arrows of the documented diagram; the id of a
    schema that was removed does not come back. *)
Theorem schema_states_follow_diagram ns vm json_deserialize json_serialize error_string tablet number y y' :
  (forall raw schema, json_deserialize raw = Some schema -> BTreeMap.wf (tables schema)) ->
  (forall t, is_system t = false -> BTreeMap.get t (system_to_virtual vm) = None) ->
  reachable ns vm json_deserialize json_serialize error_string (system_start ns tablet number) y ->
  reachable ns vm json_deserialize json_serialize error_string y y' ->
  one_schema_per_role (sys_db y') /\
  forall i md', is_Some (BTreeMap.get i (st_created (sys_db y))) -> schema_of (sys_db y') i = Some md' ->
    exists md, schema_of (sys_db y) i = Some md /\ raw_schema md = raw_schema md' /\ state_path (sm_state md) (sm_state md').
Proof.
  intros Hjson Hvirtual Hr Hr'.
  destruct (reachable_ok ns vm json_deserialize json_serialize error_string Hjson Hvirtual _ y (system_start_ok ns vm json_deserialize tablet number) Hr) as [Hok _].
  destruct (reachable_ok ns vm json_deserialize json_serialize error_string Hjson Hvirtual _ y' Hok Hr') as [[Hm _] He].
  split; [apply Hm|]. apply He.
Qed.

Lemma schema_states_follow_diagram_witness :
  let y := run_events Global example_virtual json to_json text (firstn 1 enforced_run) start in
  let y' := run_events Global example_virtual json to_json text enforced_run start in
  one_schema_per_role (sys_db y') /\
  exists md, schema_of (sys_db y) schema_id = Some md /\ raw_schema md = [1] /\ state_path (sm_state md) SchemaActive.
Proof.
  intros y y'. pose proof enforced_run_allowed as Ha.
  destruct (schema_states_follow_diagram Global example_virtual json to_json text [1] 1 y y') as [H1 H2].
  - apply json_tables.
  - done.
  - apply run_reachable; [apply reach_start|]. split; [apply Ha|done].
  - apply (run_reachable Global example_virtual json to_json text y (skipn 1 enforced_run) y); [apply reach_start|apply Ha].
  - split; [done|]. apply (H2 schema_id (MkSchemaMetadata SchemaActive [1])); [by exists 10; vm_compute|by vm_compute].
Defined.

(** The worker can divide by zero. When the documents of the tables to
    validate are deleted between the moment the worker begins and the moment its
    progress tracker counts them, the update threshold is 0, and the remainder
    taken after the first scanned document that conforms panics. *)
Theorem emptied_table_panics_worker :
  exists y, reachable Global example_virtual json to_json text start y /\ sys_worker y = Panicked.
Proof.
  exists (run_events Global example_virtual json to_json text panic_run start). split; [|by vm_compute].
  apply run_reachable; [apply reach_start|apply panic_run_allowed].
Qed.
