(* ===== verification/SchemaLiveness.v ===== *)
(** * SchemaLiveness: the schema worker decides
      (src/crates/application/src/schema_worker/mod.rs)

    While nobody else writes to the namespace, the steps of the worker end, and
    they end with the pending schema validated when every document conforms, and
    failed when one does not.  The progress tracker never divides by zero then:
    it counts the documents that the scan sees. *)

From S2P Require Import Prelude Ord BTreeMap Identifier Value Sorting SortingDecode Base32 IdV6 Document TableMapping IndexRegistry Validator Shape ShapeMultiset Schema TableRegistry SchemaRegistry TableSummaries SchemaModel SchemaWorker.

Local Open Scope Z_scope.

(** ** The update threshold *)

Lemma round53_pos n : 0 < n -> 0 < round53 n.
Proof.
  intros Hn. unfold round53. destruct (Z.leb_spec (Z.log2 n - 52) 0) as [|Hk]; [done|]. set (k := Z.log2 n - 52) in *.
  assert (Hq : 0 < n / 2 ^ k).
  { apply Z.div_str_pos. split; [by apply Z.pow_pos_nonneg; lia|]. etrans; [|apply (Z.log2_spec n Hn)]. apply Z.pow_le_mono_r; lia. }
  apply Z.mul_pos_pos; [destruct (_ || _); lia|]. apply Z.pow_pos_nonneg; lia.
Qed.

Lemma five_percent_pos total : 0 < total -> 0 < five_percent total.
Proof.
  intros Ht. unfold five_percent. set (r := round53 _).
  assert (0 < r) by (apply round53_pos, Z.mul_pos_pos; [by apply round53_pos|done]).
  enough (- r / 2 ^ 57 < 0) by lia. apply Z.div_lt_upper_bound; lia.
Qed.

Section alone.
Context (ns : TableNamespace) (vm : VirtualSystemMapping).
Context (json_deserialize : list Z -> option DatabaseSchema) (json_serialize : DatabaseSchema -> option (list Z)).
Context (error_string : SchemaValidationError -> list Z).
Context (limit : Z) (summaries : Summaries).
Notation worker_step := (worker_step ns vm json_deserialize error_string (Some limit) summaries Committed).
Notation model_ok := (model_ok ns vm json_deserialize).
Notation run_events := (run_events ns vm json_deserialize json_serialize error_string).
Notation accepts_doc := (accepts_doc ns vm).

(** The summaries count the documents of each tablet. *)
Definition summaries_count (s : SchemaTx) : Prop :=
  forall tables t, summaries = Some tables ->
    num_values (tablet_summary tables t) = Z.of_nat (length (bfilter (fun e : ResolvedDocumentId * PackedDocument => bool_decide (tablet_id e.1 = t)) (st_docs s))).

(** Steps of the worker with nothing in between. *)
Definition worker_alone (y y' : System) : Prop := exists n, y' = run_events (replicate n (EvWorker (Some limit) summaries Committed)) y.

Lemma alone_refl y : worker_alone y y.
Proof. by exists 0%nat. Qed.

Lemma alone_trans y1 y2 y3 : worker_alone y1 y2 -> worker_alone y2 y3 -> worker_alone y1 y3.
Proof. intros [n ->] [m ->]. exists (n + m)%nat. unfold SchemaWorker.run_events. by rewrite replicate_add, fold_left_app. Qed.

Lemma alone_step w s w' s' y : worker_step w s = (w', s') -> worker_alone (MkSystem s' w') y -> worker_alone (MkSystem s w) y.
Proof.
  intros Hw. apply alone_trans. exists 1%nat. cbn [replicate SchemaWorker.run_events fold_left SchemaWorker.run_event sys_worker sys_db].
  unfold SchemaWorker.run_events. cbn [fold_left SchemaWorker.run_event sys_worker sys_db]. by rewrite Hw.
Qed.

(** ** The tracker *)

Lemma total_docs_ret s tables : exists total, _total_docs ns s summaries tables = Ret total.
Proof.
  unfold _total_docs. destruct summaries as [ts|]; [|by eexists].
  assert (exists counts, doc_counts ns s (Some ts) tables = Some counts) as [counts ->]; [|by eexists].
  induction tables as [|name tables [counts IH]]; [by eexists|]. cbn [doc_counts]. rewrite IH.
  unfold table_summary. destruct (name_to_id _ _); by eexists.
Qed.

(** The total is the number of documents that will be scanned. *)
Lemma total_docs_counts s tables docs : summaries_count s -> documents_to_check (ns_mapping ns s) (st_docs s) tables = Ret docs ->
  forall total, _total_docs ns s summaries tables = Ret (Some total) -> total = Z.of_nat (length docs).
Proof.
  intros Hc Hdocs total. unfold _total_docs. unfold summaries_count in Hc. destruct summaries as [ts|]; [|done].
  enough (He : doc_counts ns s (Some ts) tables = None \/ exists counts, doc_counts ns s (Some ts) tables = Some counts /\ sum counts = Z.of_nat (length docs)).
  { destruct He as [->|(counts & -> & <-)]; cbn [ok_or obind]; [done|]. by intros [= <-]. }
  revert docs Hdocs. induction tables as [|name tables IH]; cbn [documents_to_check doc_counts]; intros docs; [intros [= <-]; right; by exists []|].
  unfold name_to_tablet, table_summary. destruct (name_to_id (ns_mapping ns s) name) as [it| |]; cbn [obind option_map]; [|done..].
  destruct (documents_to_check (ns_mapping ns s) (st_docs s) tables) as [rest| |]; cbn [obind]; [|done..]. intros [= <-].
  destruct (IH rest eq_refl) as [->|(counts & -> & Hs)]; [by left|right]. eexists. split; [done|].
  cbn [sum foldr]. change (foldr Z.add 0 counts) with (sum counts). rewrite Hs, (Hc ts _ eq_refl), length_app, length_map. lia.
Qed.

Lemma get_insert_here {K V} `{OrdLaws K} (k : K) (v : V) m : BTreeMap.get k (BTreeMap.insert k v m) = Some v.
Proof.
  induction m as [|[q w] m IH]; cbn [BTreeMap.insert BTreeMap.get]; [by rewrite eqb_refl|].
  destruct (cmp k q) eqn:Hc; cbn [BTreeMap.get]; [by rewrite eqb_refl..|]. rewrite IH.
  destruct (k ==? q) eqn:Hk; [|done]. apply eqb_eq in Hk as ->. by rewrite cmp_refl in Hc.
Qed.

Lemma tracker_step s v docs : v_table_mapping v = ns_mapping ns s -> v_snapshot v = st_docs s -> summaries_count s ->
  documents_to_check (ns_mapping ns s) (st_docs s) (v_tables_to_validate v) = Ret docs ->
  exists p tr, worker_step (Started v) s = (Scanning v tr docs, with_progress p s) /\ is_Some (BTreeMap.get (v_id v) p) /\ (docs <> [] -> 0 < update_threshold tr).
Proof.
  intros Hm Hsn Hc Hd. cbn [SchemaWorker.worker_step]. unfold tracker_new. destruct (total_docs_ret s (v_tables_to_validate v)) as [total Ht].
  rewrite Ht, Hm, Hsn, Hd. cbn [transact initialize_schema_validation_progress mset fst snd]. eexists _, _. split; [done|]. split; [by rewrite get_insert_here|].
  cbn [update_threshold]. intros Hne. destruct total as [total|]; [|done]. apply Z.min_glb_lt; [done|]. apply five_percent_pos.
  rewrite (total_docs_counts s _ docs Hc Hd total Ht). destruct docs; [done|cbn [length]; lia].
Qed.

Lemma write_step v tr p s : is_Some (BTreeMap.get (v_id v) p) ->
  exists p', write_progress ns Committed summaries v tr (with_progress p s) = (with_progress p' s, Ret true) /\ is_Some (BTreeMap.get (v_id v) p').
Proof.
  intros [x Hx]. unfold write_progress. destruct (total_docs_ret (with_progress p s) (v_tables_to_validate v)) as [total ->].
  unfold transact, update_schema_validation_progress, mbind, mget. cbn [st_progress with_progress]. rewrite Hx. cbn [mset mret fst snd].
  eexists. split; [done|]. by rewrite get_insert_here.
Qed.

Lemma record_step v tr p s : is_Some (BTreeMap.get (v_id v) p) -> 0 < update_threshold tr ->
  exists p' tr', record_document_validated ns Committed summaries v tr (with_progress p s) = (with_progress p' s, Ret (tr', true)) /\
    is_Some (BTreeMap.get (v_id v) p') /\ update_threshold tr' = update_threshold tr.
Proof.
  intros Hp Ht. unfold record_document_validated. cbn [update_threshold docs_validated]. destruct (Z.eqb_spec (update_threshold tr) 0) as [|_]; [lia|].
  destruct (negb _); [by exists p; eexists|]. set (tr1 := MkTracker _ _). destruct (write_step v tr1 p s Hp) as (p' & -> & Hp'). exists p'. by eexists.
Qed.

(** ** The scan *)

Definition conforming (v : Validation) (d : PackedDocument) : Prop := schema_check_value (v_db_schema v) d (v_table_mapping v) vm = Ret tt.

Lemma scan_steps s v : forall docs tr p, is_Some (BTreeMap.get (v_id v) p) -> (docs <> [] -> 0 < update_threshold tr) ->
  (forall d, d ∈ docs -> (exists name, ns_tablet_name (v_table_mapping v) (tablet_id (id d)) = Ret name) /\ schema_check_value (v_db_schema v) d (v_table_mapping v) vm <> Panic) ->
  exists w p', worker_alone (MkSystem (with_progress p s) (Scanning v tr docs)) (MkSystem (with_progress p' s) w) /\ is_Some (BTreeMap.get (v_id v) p') /\
    ((exists tr', w = Scanning v tr' []) /\ Forall (conforming v) docs \/ (exists e, w = Failing v e 0) /\ exists d, d ∈ docs /\ ~ conforming v d).
Proof.
  induction docs as [|d docs IH]; intros tr p Hp Ht Hdocs.
  { exists (Scanning v tr []), p. split_and!; [apply alone_refl|done|]. left. split; [by exists tr|constructor]. }
  destruct (Hdocs d (list_elem_of_here _ _)) as [[name Hname] Hpanic].
  destruct (schema_check_value (v_db_schema v) d (v_table_mapping v) vm) as [[]|e|] eqn:Hc; [| |done].
  - destruct (record_step v tr p s Hp) as (p1 & tr1 & Hr & Hp1 & Ht1); [by apply Ht|].
    destruct (IH tr1 p1 Hp1) as (w & p' & Hw & Hp' & Hcase); [rewrite Ht1; intros _; by apply Ht|intros d' Hd'; apply Hdocs; by right|].
    exists w, p'. split_and!; [|done|].
    + eapply alone_step; [|exact Hw]. cbn [SchemaWorker.worker_step]. unfold check_existing_document. by rewrite Hname, Hc, Hr.
    + destruct Hcase as [[Hw' Hall]|[Hw' (d' & Hd' & Hn)]]; [left; split; [done|by constructor]|right; split; [done|]]. exists d'. split; [by right|done].
  - exists (Failing v (ExistingDocument e name (developer_id (id d))) 0), p. split_and!; [|done|].
    + eapply alone_step; [|apply alone_refl]. cbn [SchemaWorker.worker_step]. unfold check_existing_document. by rewrite Hname, Hc.
    + right. split; [by eexists|]. exists d. split; [by left|]. unfold conforming. by rewrite Hc.
Qed.

(** ** The verdict *)

Definition schema_tablets (s : SchemaTx) : Prop := forall j, is_Some (schema_of s j) -> is_system_tablet (mapping_of s) (tablet_id j) = true.

Lemma schema_of_write s i new j : BTreeMap.wf (st_schemas s) -> schema_of (write_schema i new s) j = if decide (j = i) then new else schema_of s j.
Proof. intros Hwf. by apply get_set_schema. Qed.

Lemma patch_runs s i md state : schema_of s i = Some md -> is_system_tablet (mapping_of s) (tablet_id i) = true ->
  patch_schema_state i state s = (write_schema i (Some (MkSchemaMetadata state (raw_schema md))) s, Ret tt).
Proof.
  intros Hi Hsys. unfold patch_schema_state, mbind, mget, mensure, mlift. rewrite Hsys. cbn [ensure]. unfold schema_of in Hi. by rewrite Hi.
Qed.

(** Validating. *)
Lemma validated_steps s v raw tr p : is_Some (BTreeMap.get (v_id v) p) -> BTreeMap.wf (st_schemas s) -> schema_tablets s ->
  schema_of s (v_id v) = Some (MkSchemaMetadata SchemaPending raw) ->
  exists s', worker_alone (MkSystem (with_progress p s) (Scanning v tr [])) (MkSystem s' Idle) /\ st_docs s' = st_docs s /\
    schema_of s' (v_id v) = Some (MkSchemaMetadata SchemaValidated raw).
Proof.
  intros Hp Hwf Hsys Hi. destruct (write_step v tr p s Hp) as (p' & Hw & _).
  assert (Hi' : schema_of (with_progress p' s) (v_id v) = Some (MkSchemaMetadata SchemaPending raw)) by done.
  eexists. split; [|split].
  - eapply alone_step; [cbn [SchemaWorker.worker_step]; by rewrite Hw|]. eapply alone_step; [|apply alone_refl].
    cbn [SchemaWorker.worker_step]. unfold transact, mark_validated, get_schema, mbind at 1 2, mget, mlift. unfold schema_of in Hi'. rewrite Hi'. cbn [ok_or sm_state].
    rewrite (patch_runs (with_progress p' s) (v_id v) _ SchemaValidated Hi'); [done|]. apply Hsys. by eexists.
  - done.
  - rewrite schema_of_write by done. by rewrite decide_True.
Qed.

(** Deleting old schemas succeeds and only removes some. *)
Lemma delete_old_runs l : forall s, NoDup (map fst l) -> BTreeMap.wf (st_schemas s) -> schema_tablets s -> (forall e, e ∈ l -> is_Some (schema_of s e.1)) ->
  exists s', delete_old_loop (Some limit) l s = (s', Ret tt) /\ st_docs s' = st_docs s /\ forall j, schema_of s' j = schema_of s j \/ schema_of s' j = None.
Proof.
  induction l as [|[i [time md]] l IH]; intros s Hnd Hwf Hsys Hl; cbn [delete_old_loop]; [exists s; by split_and!; [..|left]|].
  cbn [map fst] in Hnd. apply NoDup_cons in Hnd as [Hni Hnd]. destruct (is_unique (sm_state md)); [apply IH; try done; intros e He; apply Hl; by right|].
  unfold mbind at 1, mlift at 1. cbn [ok_or]. destruct (limit <? time); [exists s; by split_and!; [..|left]|].
  destruct (Hl (i, (time, md)) (list_elem_of_here _ _)) as [md' Hi]. cbn [fst] in Hi.
  assert (Hdel : delete_schema_document i s = (write_schema i None s, Ret tt)).
  { unfold delete_schema_document, mbind, mget, mensure, mlift. rewrite (Hsys i) by (by eexists). cbn [ensure]. unfold schema_of in Hi. by rewrite Hi. }
  unfold mbind at 1. rewrite Hdel.
  assert (Hget : forall j, schema_of (write_schema i None s) j = if decide (j = i) then None else schema_of s j) by (intros j; by apply schema_of_write).
  destruct (IH (write_schema i None s) Hnd) as (s' & Hs' & Hd' & Hj').
  - cbn [write_schema st_schemas]. by apply (get_set_schema _ _ _ i).
  - intros j Hj. apply Hsys. rewrite Hget in Hj. destruct (decide (j = i)); [by destruct Hj|done].
  - intros e He. rewrite Hget, decide_False; [apply Hl; by right|]. intros <-. apply Hni. apply list_elem_of_fmap. by exists e.
  - exists s'. split_and!; [done|done|]. intros j. destruct (Hj' j) as [->| ->]; [|by right]. rewrite Hget. destruct (decide (j = i)); [by right|by left].
Qed.

Lemma by_creation_time_ids s : BTreeMap.wf (st_schemas s) ->
  NoDup (map fst (schemas_by_creation_time s)) /\ forall e, e ∈ schemas_by_creation_time s -> is_Some (schema_of s e.1).
Proof.
  intros Hwf. unfold schemas_by_creation_time.
  destruct (fold_insert_spec (fun e : ResolvedDocumentId * SchemaMetadata => (default 0 (BTreeMap.get e.1 (st_created s)), e.1)) snd (st_schemas s) [] I) as (Hw & Hget & _).
  cbn zeta in Hw, Hget. revert Hw Hget. set (m := fold_left _ _ _). intros Hw Hget. change (fold_left _ (st_schemas s) []) with m.
  assert (Hm : forall e, e ∈ m -> e.1.1 = default 0 (BTreeMap.get e.1.2 (st_created s)) /\ is_Some (schema_of s e.1.2)).
  { intros [[t i] md] He. apply BTreeMap.elem_of_get in He; [|done]. apply Hget in He as [([i' md'] & Hin & [= <- <-] & <-)|?]; [|done]. cbn [fst snd] in *.
    split; [done|]. exists md'. by apply BTreeMap.elem_of_get. }
  split.
  - rewrite map_map. cbn [fst]. change (NoDup ((fun e : (Z * ResolvedDocumentId) * SchemaMetadata => e.1.2) <$> m)). apply NoDup_fmap_2_strong.
    + intros [[t1 i1] md1] [[t2 i2] md2] H1 H2 Heq. cbn [fst snd] in Heq. subst i2. destruct (Hm _ H1) as [E1 _], (Hm _ H2) as [E2 _]. cbn [fst snd] in *. subst t1 t2.
      by rewrite (BTreeMap.wf_unique _ _ _ _ Hw H1 H2).
    + eapply NoDup_fmap_1. by apply BTreeMap.wf_NoDup_fst.
  - intros e (x & -> & Hx)%list_elem_of_fmap. cbn [fst]. by apply Hm.
Qed.

Lemma failed_steps s v raw e : BTreeMap.wf (st_schemas s) -> schema_tablets s -> schema_of s (v_id v) = Some (MkSchemaMetadata SchemaPending raw) ->
  exists s', worker_alone (MkSystem s (Failing v e 0)) (MkSystem s' Idle) /\ st_docs s' = st_docs s /\
    forall md, schema_of s' (v_id v) = Some md -> md = MkSchemaMetadata (SchemaFailed (error_string e) (Some (error_table e))) raw.
Proof.
  intros Hwf Hsys Hi. set (failed := MkSchemaMetadata (SchemaFailed (error_string e) (Some (error_table e))) raw).
  set (s1 := write_schema (v_id v) (Some failed) s).
  assert (Hget : forall j, schema_of s1 j = if decide (j = v_id v) then Some failed else schema_of s j) by (intros j; by apply schema_of_write).
  assert (Hwf1 : BTreeMap.wf (st_schemas s1)) by (by apply (get_set_schema _ _ _ (v_id v))).
  assert (Hsys1 : schema_tablets s1).
  { intros j Hj. rewrite Hget in Hj. apply (Hsys j). destruct (decide (j = v_id v)) as [->|]; [by eexists|done]. }
  destruct (by_creation_time_ids s1 Hwf1) as [Hnd Hl]. destruct (delete_old_runs _ s1 Hnd Hwf1 Hsys1 Hl) as (s2 & Hs2 & Hd2 & Hj2).
  exists (with_progress (BTreeMap.remove (v_id v) (st_progress s2)) s2). split_and!; [|done|].
  - eapply alone_step; [|apply alone_refl]. cbn [SchemaWorker.worker_step]. unfold transact, mark_failed, get_schema, mbind at 1 2 3, mget at 1, mlift at 1.
    unfold schema_of in Hi. rewrite Hi. cbn [ok_or sm_state]. rewrite (patch_runs s (v_id v) _ _ Hi) by (apply Hsys; by eexists). fold failed s1.
    cbn [raw_schema]. unfold mbind, delete_old_failed_and_overwritten_schemas, mbind, mget. fold failed. fold s1. by rewrite Hs2.
  - intros md. change (schema_of s2 (v_id v) = Some md -> md = failed). destruct (Hj2 (v_id v)) as [->| ->]; [|done]. rewrite Hget, decide_True by done. by intros [= <-].
Qed.

(** ** From the beginning *)

(** The tables of a schema exist: submitting it creates them. *)
Definition schema_tables_exist (s : SchemaTx) (schema : DatabaseSchema) : Prop :=
  forall name, name ∈ map fst (tables schema) -> exists t, name_lookup (mapping_of s) ns name = Some t.

Lemma documents_found s names : model_ok s -> (forall name, name ∈ names -> exists t, name_lookup (mapping_of s) ns name = Some t) ->
  exists docs, documents_to_check (ns_mapping ns s) (st_docs s) names = Ret docs /\ forall d, d ∈ docs -> exists i, doc_of s i = Some d.
Proof.
  intros Hs. induction names as [|name names IH]; intros Hn; cbn [documents_to_check]; [exists []; split; [done|by intros d []%elem_of_nil]|].
  destruct (Hn name (list_elem_of_here _ _)) as [t Ht]. destruct (tok_names _ (mo_tables _ _ _ s Hs) _ _ _ Ht) as [n Hl].
  unfold name_to_tablet, ns_mapping, mapping_of in *. rewrite (name_to_id_lookup ns _ name _ _ _ _ Ht Hl). cbn [obind it_tablet].
  destruct IH as (docs & -> & Hd); [intros x Hx; apply Hn; by right|]. eexists. split; [done|]. intros d [H|H]%elem_of_app; [|by apply Hd].
  apply list_elem_of_fmap in H as ([i d'] & -> & [Hi _]%elem_of_bfilter). exists i. apply BTreeMap.elem_of_get; [apply Hs|done].
Qed.

Lemma check_total s schema i d : model_ok s -> doc_of s i = Some d -> schema_check_value schema d (ns_mapping ns s) vm <> Panic.
Proof.
  intros Hs Hi. destruct (proj2 (mo_docs _ _ _ s Hs) i d Hi) as (_ & (o & Hv & Hval) & _). unfold schema_check_value. rewrite Hv. cbn [object_of].
  destruct (schema_validation schema); [|done]. destruct (ns_tablet_name _ _); [|done..]. destruct (schema_for_table _ _) as [ds|]; [|done].
  by apply document_check_spec.
Qed.

Lemma scan_all s i schema active : (forall raw schema, json_deserialize raw = Some schema -> BTreeMap.wf (tables schema)) ->
  model_ok s -> summaries_ok s summaries -> summaries_count s -> schema_tables_exist s schema ->
  pending_schema_validation ns json_deserialize s = Ret (Some (i, schema, active)) ->
  exists v w p, worker_alone (MkSystem s Idle) (MkSystem (with_progress p s) w) /\ v_id v = i /\ is_Some (BTreeMap.get i p) /\
    ((exists tr, w = Scanning v tr []) /\ (forall j d, doc_of s j = Some d -> accepts_doc schema s d) \/
     (exists e, w = Failing v e 0) /\ exists j d, doc_of s j = Some d /\ ~ accepts_doc schema s d).
Proof.
  intros Hjson Hs Hsum Hcnt Htab Hpend.
  assert (Hb : exists names, run_begin ns vm json_deserialize s summaries = Ret (Some (MkValidation i (ns_mapping ns s) schema names (st_docs s))) /\ forall n, n ∈ names -> n ∈ map fst (tables schema)).
  { unfold run_begin. rewrite Hpend. cbn [obind]. eexists. split; [done|]. intros n. unfold tables_to_validate. destruct (negb _); [by intros []%elem_of_nil|].
    intros (e & -> & [He _]%elem_of_bfilter)%list_elem_of_fmap. apply list_elem_of_fmap. by exists e. }
  destruct Hb as (names & Hb & Hsub). set (v := MkValidation _ _ _ _ _) in Hb.
  destruct (documents_found s names Hs) as (docs & Hd & Hin); [intros n Hn; by apply Htab, Hsub|].
  destruct (tracker_step s v docs eq_refl eq_refl Hcnt Hd) as (p & tr & Hstep & Hp & Htr).
  destruct (scan_steps s v docs tr p Hp Htr) as (w & p' & Hw & Hp' & Hcase).
  { intros d Hdd. destruct (Hin d Hdd) as [j Hj]. split; [|by apply (check_total s schema j)].
    destruct (proj2 (mo_docs _ _ _ s Hs) j d Hj) as (-> & _ & n & name & Hl & _). exists name. cbn [v_table_mapping v]. unfold ns_mapping. by rewrite ns_tablet_name_alt, Hl. }
  exists v, w, p'. split_and!; [|done|done|].
  - eapply alone_step; [cbn [SchemaWorker.worker_step]; by rewrite Hb|]. by eapply alone_step.
  - destruct Hcase as [[Htr' Hall]|[Hf (d & Hdd & Hn)]]; [left|right; split; [done|]; destruct (Hin d Hdd) as [j Hj]; by exists j, d].
    split; [done|]. intros j d Hj. destruct (scan_begins ns vm json_deserialize v s docs Hd (run_begin_ok ns vm json_deserialize Hjson s summaries v Hs Hsum Hb)) as (s0 & raw & _ & _ & Hm & Hsn & _ & _ & Hacc).
    cbn [v_snapshot v_table_mapping v v_db_schema] in Hm, Hsn, Hacc. rewrite Forall_forall in Hall.
    destruct (Hacc j d) as [Ha|Hl]; [unfold doc_of in *; by rewrite <- Hsn|unfold SchemaModel.accepts_doc in *; by rewrite Hm|by apply (Hall d Hl)].
Qed.
End alone.

(** C10: left alone, the worker decides every pending schema: it ends, without a
    panic and without touching documents, with the schema validated when every
    document conforms to it, and otherwise with the schema failed (or already
    removed, as failed schemas of more than an hour ago are). *)
Theorem worker_decides ns vm json_deserialize json_serialize error_string limit summaries s i schema active :
  (forall raw schema, json_deserialize raw = Some schema -> BTreeMap.wf (tables schema)) ->
  model_ok ns vm json_deserialize s -> summaries_ok s summaries -> summaries_count summaries s -> schema_tablets s -> schema_tables_exist ns s schema ->
  pending_schema_validation ns json_deserialize s = Ret (Some (i, schema, active)) ->
  exists s', worker_alone ns vm json_deserialize json_serialize error_string limit summaries (MkSystem s Idle) (MkSystem s' Idle) /\ st_docs s' = st_docs s /\
    ((forall j d, doc_of s j = Some d -> accepts_doc ns vm schema s d) /\ (exists md, schema_of s' i = Some md /\ sm_state md = SchemaValidated) \/
     (exists j d, doc_of s j = Some d /\ ~ accepts_doc ns vm schema s d) /\
       forall md, schema_of s' i = Some md -> exists error table, sm_state md = SchemaFailed error table).
Proof.
  intros Hjson Hs Hsum Hcnt Hsys Htab Hpend. destruct (pending_found ns vm json_deserialize s i schema active Hs Hpend) as [(raw & Hi & _) _].
  destruct (scan_all ns vm json_deserialize json_serialize error_string limit summaries s i schema active Hjson Hs Hsum Hcnt Htab Hpend) as (v & w & p & Hw & <- & Hp & Hcase).
  assert (Hwf : BTreeMap.wf (st_schemas s)) by apply (mo_follows _ _ _ s Hs). destruct Hcase as [[[tr ->] Hall]|[[e ->] Hbad]].
  - destruct (validated_steps ns vm json_deserialize json_serialize error_string limit summaries s v raw tr p Hp Hwf Hsys Hi) as (s' & Hs' & Hd & Hi').
    exists s'. split_and!; [by eapply alone_trans|done|]. left. split; [done|]. by eexists.
  - destruct (failed_steps ns vm json_deserialize json_serialize error_string limit summaries (with_progress p s) v raw e Hwf Hsys Hi) as (s' & Hs' & Hd & Hi').
    exists s'. split_and!; [by eapply alone_trans|done|]. right. split; [done|]. intros md ->%Hi'. by eexists _, _.
Qed.

Import SchemaWorkerExample.

Module SchemaLivenessExample.
(** Two documents, one of which does not conform to the schema that was submitted. *)
Definition before : System := run_events Global example_virtual json to_json text (firstn 4 panic_run) start.
Definition summaries : Summaries := Some (MkSummaries [([2], MkSummary (shape, 2) 0)] 2 0 0).

Lemma before_ok : model_ok Global example_virtual json (sys_db before).
Proof.
  destruct (reachable_ok Global example_virtual json to_json text json_tables (fun _ _ => eq_refl) start before) as [[Hm _] _];
    [apply system_start_ok| |done].
  apply run_reachable; [apply reach_start|]. destruct panic_run_allowed as (H1 & H2 & H3 & H4 & _).
  exact (conj H1 (conj H2 (conj H3 (conj H4 I)))).
Qed.

Lemma before_summaries : summaries_ok (sys_db before) summaries.
Proof. destruct panic_run_allowed as (_ & _ & _ & _ & H & _). exact H. Qed.

Lemma before_count : summaries_count summaries (sys_db before).
Proof.
  intros tables u [= <-]. unfold tablet_summary. cbn [ts_tables BTreeMap.get]. destruct (u ==? [2]) eqn:Hu.
  - apply eqb_eq in Hu as ->. by vm_compute.
  - assert (st_docs (sys_db before) = [(doc_id 1, good); (doc_id 2, bad)]) as -> by (by vm_compute).
    assert (u <> [2]) by (intros ->; by rewrite eqb_refl in Hu). cbn [bfilter fst doc_id tablet_id]. rewrite !bool_decide_false by congruence. reflexivity.
Qed.
End SchemaLivenessExample.
Import SchemaLivenessExample.

Lemma worker_decides_witness : exists s', worker_alone Global example_virtual json to_json text 0 summaries before (MkSystem s' Idle) /\
  forall md, schema_of s' schema_id = Some md -> exists error table, sm_state md = SchemaFailed error table.
Proof.
  destruct (worker_decides Global example_virtual json to_json text 0 summaries (sys_db before) schema_id schema None) as (s' & H1 & _ & [[Hacc _]|[_ H2]]).
  - exact json_tables.
  - exact before_ok.
  - exact before_summaries.
  - exact before_count.
  - intros j [md Hj]. assert (st_schemas (sys_db before) = [(schema_id, MkSchemaMetadata SchemaPending [1])]) as He by (by vm_compute).
    unfold schema_of in Hj. rewrite He in Hj. cbn [BTreeMap.get] in Hj. destruct (j ==? schema_id) eqn:E; [|discriminate Hj]. apply eqb_eq in E as ->. vm_compute. reflexivity.
  - intros n ->%list_elem_of_singleton. exists [2]. by vm_compute.
  - by vm_compute.
  - exfalso. assert (doc_of (sys_db before) (doc_id 2) = Some bad) as Hd by (by vm_compute). specialize (Hacc _ _ Hd). vm_compute in Hacc. discriminate Hacc.
  - exists s'. split; [|exact H2]. assert (before = MkSystem (sys_db before) Idle) as -> by (by vm_compute). exact H1.
Defined.

(** ** The summaries of a snapshot *)

(** The summaries that [TableSummaries::update] keeps ([tracks]) meet what the
    worker relies on, however far their totals have drifted. *)
Lemma tracked_summaries_serve s vm docs d self :
  Forall2 (fun (e : ResolvedDocumentId * PackedDocument) (e' : ResolvedDocumentId * ConvexObject) => e.1 = e'.1 /\ value e.2 = Object e'.2) (st_docs s) docs ->
  BTreeMap.wf (st_docs s) -> (forall i x, doc_of s i = Some x -> is_Some (tablet_lookup (mapping_of s) (tablet_id i))) ->
  tracks (mapping_of s) vm docs d self -> summaries_ok s (Some self) /\ summaries_count (Some self) s.
Proof.
  intros Hdocs Hwf Hin [_ Tt _ _].
  assert (Hobj : forall t, map (fun e : ResolvedDocumentId * PackedDocument => value e.2) (bfilter (fun e : ResolvedDocumentId * PackedDocument => bool_decide (tablet_id e.1 = t)) (st_docs s)) = objects_of docs t).
  { intros t. unfold objects_of. clear -Hdocs. induction Hdocs as [|[i x] [i' o] l l' [Hi Ho] _ IH]; [done|]. cbn [fst snd bfilter] in *. subst i'. destruct (bool_decide (tablet_id i = t)); cbn [map snd]; [by rewrite Ho, IH|done]. }
  split.
  - intros tables i x [= <-] Hx. unfold tablet_summary. destruct (Hin i x Hx) as [e He]. specialize (Tt (tablet_id i)). destruct (BTreeMap.get (tablet_id i) (ts_tables self)) as [t|]; [|congruence].
    destruct Tt as [_ [(_ & Hh & _) _]]. cbn [from_option]. split; [by eapply holds_wf|]. eapply holds_contains; [exact Hh|]. rewrite <- Hobj. apply list_elem_of_fmap. exists (i, x). split; [done|]. apply elem_of_bfilter. split; [by apply BTreeMap.elem_of_get|]. cbn [fst]. by apply bool_decide_true.
  - intros tables t [= <-]. specialize (Tt t). unfold tablet_summary. destruct (BTreeMap.get t (ts_tables self)) as [x|]; cbn [from_option Datatypes.id].
    + destruct Tt as [_ Tt]. rewrite (proj2 (summarises_nonneg _ _ Tt)), <- Hobj. unfold zlen. by rewrite length_map.
    + rewrite bfilter_none; [done|]. intros [i x] Hi. apply bool_decide_eq_false. intros Ht. cbn [fst] in Ht. apply BTreeMap.elem_of_get in Hi; [|done]. destruct (Hin i x Hi) as [e He]. congruence.
Qed.
