(* ===== verification/Persistence.v ===== *)
(** * Persistence: the log of documents and the rows of indexes
      (src/crates/sqlite/src/lib.rs, src/crates/common/src/persistence.rs,
       src/crates/common/src/persistence_helpers.rs)

    The tables of the sqlite driver are sorted maps by their primary keys (the
    collation of blobs is the order of bytes), a query is a function of them, a
    transaction replaces them or fails and leaves them.  Values are stored as
    they are, without their JSON.  A retention validator is the function that
    checks a timestamp, called after the rows are read. *)

From S2P Require Import Prelude Ord BTreeMap BinaryKey Bounds Interval Timestamp Identifier Value Sorting SortingDecode Base32 IdV6 Document IndexRegistry IndexUpdates IndexKeys MemoryIndexes.

Local Open Scope Z_scope.

(** ** Data *)

(** [InternalDocumentId]: the table and the id in it. *)
Notation InternalDocumentId := (list Z * list Z)%type (only parsing).

Definition id_with_table_id (d : PackedDocument) : InternalDocumentId := (tablet_id (id d), internal_id (developer_id (id d))).

Inductive RetentionType := RetainDocument | RetainIndex.

Inductive persistence_error :=
| UniqueViolation
| DanglingIndexReference
| IndexReferenceToDeleted
| DeletedPrevRev
| OutOfRetention (t : RetentionType)
| TsFailed (e : ts_error)
| NotPrior
| IoFailed
| WrongIndexTable
| MalformedIndex
| CursorWentBackward.

Record DocumentLogEntry := MkLogEntry {
  log_ts : Z;
  log_id : InternalDocumentId;
  log_value : option PackedDocument;
  log_prev_ts : option Z;
}.

Record PersistenceIndexEntry := MkPersistenceIndexEntry {
  pie_ts : Z;
  pie_index_id : list Z;
  pie_key : list Z;
  pie_value : option InternalDocumentId;
}.

Definition from_index_update (ts : Z) (update : DatabaseIndexUpdate) : PersistenceIndexEntry :=
  MkPersistenceIndexEntry ts (upd_index_id update) (upd_key update)
    match upd_value update with
    | Deleted => None
    | NonClustered i => Some (tablet_id i, internal_id (developer_id i))
    end.

(** [IndexEntry]: a row of an index, its key split. *)
Record IndexEntry := MkIndexEntry {
  ie_index_id : list Z;
  key_prefix : list Z;
  key_sha256 : list Z;
  ie_ts : Z;
  key_suffix : option (list Z);
  ie_deleted : bool;
}.

(** A [DocumentPrevTsQuery] is (id, ts, prev_ts). *)
Notation DocumentPrevTsQuery := ((list Z * list Z) * (Z * Z))%type (only parsing).

(** The table [documents], by (ts, table_id, id), and [indexes], by
    (index_id, key, ts); an index row without a document is a deletion. *)
Notation Documents := (BTreeMap.t (Z * (list Z * list Z)) (option PackedDocument * option Z)).
Notation Indexes := (BTreeMap.t (list Z * (list Z * Z)) (option (list Z * list Z))).

Record Store := MkStore { documents : Documents; indexes : Indexes }.

Inductive ConflictStrategy := ConflictError | ConflictOverwrite.

(** ** Ranges of timestamps *)

Record TimestampRange := MkRange { start_inclusive : Z; end_inclusive : Z }.

Definition range_empty : TimestampRange := MkRange MAX MIN.

(** [TimestampRange::new(a..b)] and [snapshot]. *)
Definition range_new (a b : Z) : TimestampRange := match pred_opt b with Some e => MkRange a e | None => range_empty end.
Definition range_snapshot (ts : Z) : TimestampRange := MkRange MIN ts.

Definition min_timestamp_inclusive (self : TimestampRange) : Z := start_inclusive self.
Definition max_timestamp_exclusive (self : TimestampRange) : Z := default MAX (succ_opt (end_inclusive self)).

Definition intersect (self other : TimestampRange) : TimestampRange :=
  MkRange (Z.max (start_inclusive self) (start_inclusive other)) (Z.min (end_inclusive self) (end_inclusive other)).

(** ** Streams *)

(** The items of a stream, and how it ended. *)
Notation stream A := (list A * outcome persistence_error unit)%type.

Fixpoint stream_bind {A B} (f : A -> stream B) (l : list A) (ended : outcome persistence_error unit) : stream B :=
  match l with
  | [] => ([], ended)
  | x :: l =>
      let (ys, e) := f x in
      match e with
      | Ret _ => let (zs, e) := stream_bind f l ended in (ys ++ zs, e)
      | _ => (ys, e)
      end
  end.

(** [try_chunks]: the last chunk may be shorter, an incomplete one is lost when
    the stream fails. *)
Fixpoint chunk_loop {A} (cap : nat) (items l : list A) (ended : outcome persistence_error unit) : stream (list A) :=
  match l with
  | [] => match ended with Ret _ => (match items with [] => [] | _ => [items] end, ended) | _ => ([], ended) end
  | x :: l =>
      let items := items ++ [x] in
      if (cap <=? length items)%nat then let (chunks, e) := chunk_loop cap [] l ended in (items :: chunks, e)
      else chunk_loop cap items l ended
  end.

Definition try_chunks2 {A} (cap : nat) (s : stream A) : stream (list A) :=
  match cap with O => ([], Panic) | _ => chunk_loop cap [] s.1 s.2 end.

Definition stream_of {A} (m : outcome persistence_error (list A)) : stream A :=
  match m with Ret l => (l, Ret tt) | Err e => ([], Err e) | Panic => ([], Panic) end.

(** ** Writing *)

(** [INSERT INTO] and [INSERT OR REPLACE INTO]. *)
Definition insert_row {K V} `{Ord K} (conflict_strategy : ConflictStrategy) (k : K) (v : V) (m : BTreeMap.t K V) : outcome persistence_error (BTreeMap.t K V) :=
  match conflict_strategy, BTreeMap.get k m with
  | ConflictError, Some _ => Err UniqueViolation
  | _, _ => Ret (BTreeMap.insert k v m)
  end.

Definition write_document (conflict_strategy : ConflictStrategy) (m : Documents) (update : DocumentLogEntry) : outcome persistence_error Documents :=
  match log_value update with Some document => rassert (bool_decide (log_id update = id_with_table_id document)) | None => Ret tt end ;?
  insert_row conflict_strategy (log_ts update, log_id update) (log_value update, log_prev_ts update) m.

Definition write_index (conflict_strategy : ConflictStrategy) (m : Indexes) (update : PersistenceIndexEntry) : outcome persistence_error Indexes :=
  insert_row conflict_strategy (pie_index_id update, (pie_key update, pie_ts update)) (pie_value update) m.

Definition write (self : Store) (docs : list DocumentLogEntry) (rows : list PersistenceIndexEntry) (conflict_strategy : ConflictStrategy) : outcome persistence_error Store :=
  let? d := foldM (write_document conflict_strategy) (documents self) docs in
  let? i := foldM (write_index conflict_strategy) (indexes self) rows in
  Ret (MkStore d i).

(** ** Reading the log *)

Definition row_to_document (e : (Z * (list Z * list Z)) * (option PackedDocument * option Z)) : DocumentLogEntry :=
  MkLogEntry e.1.1 e.1.2 e.2.1 e.2.2.

Definition load_docs (self : Store) (range : TimestampRange) (order : Order) : list DocumentLogEntry :=
  map row_to_document (order_apply order
    (bfilter (fun e => (min_timestamp_inclusive range <=? e.1.1) && (e.1.1 <? max_timestamp_exclusive range)) (documents self))).

Section reads.
Context (validate_snapshot validate_document_snapshot : Z -> outcome persistence_error unit).

Definition load_documents (self : Store) (range : TimestampRange) (order : Order) : outcome persistence_error (list DocumentLogEntry) :=
  let? _ := validate_document_snapshot (min_timestamp_inclusive range) in Ret (load_docs self range order).

Definition load_documents_from_table (self : Store) (tablet : list Z) (range : TimestampRange) (order : Order) : outcome persistence_error (list DocumentLogEntry) :=
  let? entries := load_documents self range order in
  Ret (bfilter (fun doc => bool_decide ((log_id doc).1 = tablet)) entries).

(** [PREV_REV_QUERY]. *)
Definition prev_rev (self : Store) (i : InternalDocumentId) (ts : Z) : option DocumentLogEntry :=
  option_map row_to_document (last (bfilter (fun e => bool_decide (e.1.2 = i) && (e.1.1 <? ts)) (documents self))).

Definition previous_revisions (self : Store) (ids : list (InternalDocumentId * Z)) : outcome persistence_error (BTreeMap.t (InternalDocumentId * Z) DocumentLogEntry) :=
  let out := fold_left (fun out (q : InternalDocumentId * Z) =>
    match prev_rev self q.1 q.2 with Some e => BTreeMap.insert (log_id e, q.2) e out | None => out end) ids [] in
  let min_ts := fold_left (fun m (q : InternalDocumentId * Z) => Z.min q.2 m) ids MAX in
  let? _ := validate_document_snapshot min_ts in Ret out.

(** [EXACT_REV_QUERY]. *)
Definition exact_rev (self : Store) (i : InternalDocumentId) (ts : Z) : option DocumentLogEntry :=
  option_map (fun row => row_to_document ((ts, i), row)) (BTreeMap.get (ts, i) (documents self)).

Definition previous_revisions_of_documents (self : Store) (ids : list DocumentPrevTsQuery) : outcome persistence_error (BTreeMap.t DocumentPrevTsQuery DocumentLogEntry) :=
  let min_ts := fold_left (fun m (q : DocumentPrevTsQuery) => Some match m with Some m => Z.min m q.2.1 | None => q.2.1 end) ids None in
  let out := fold_left (fun out (q : DocumentPrevTsQuery) =>
    match exact_rev self q.1 q.2.2 with Some e => BTreeMap.insert (log_id e, (q.2.1, log_ts e)) e out | None => out end) ids [] in
  let? _ := match min_ts with Some ts => validate_document_snapshot ts | None => Ret tt end in
  Ret out.

(** *** Revision pairs *)

Record DocumentRevision := MkRevision { revision_ts : Z; revision_document : option PackedDocument }.

Record RevisionPair := MkRevisionPair { pair_id : InternalDocumentId; pair_rev : DocumentRevision; pair_prev_rev : option DocumentRevision }.

Fixpoint pair_loop (prev_revs : BTreeMap.t DocumentPrevTsQuery DocumentLogEntry) (read_chunk : list DocumentLogEntry) : stream RevisionPair :=
  match read_chunk with
  | [] => ([], Ret tt)
  | entry :: read_chunk =>
      let rev := MkRevision (log_ts entry) (log_value entry) in
      match log_prev_ts entry with
      | None =>
          let (pairs, e) := pair_loop prev_revs read_chunk in
          (MkRevisionPair (log_id entry) rev None :: pairs, e)
      | Some prev_ts =>
          let query := (log_id entry, (log_ts entry, prev_ts)) in
          match BTreeMap.get query prev_revs with
          | Some (MkLogEntry _ _ None _) => ([], Err DeletedPrevRev)
          | found =>
              let document := match found with Some e => log_value e | None => None end in
              let (pairs, e) := pair_loop (BTreeMap.remove query prev_revs) read_chunk in
              (MkRevisionPair (log_id entry) rev (Some (MkRevision prev_ts document)) :: pairs, e)
          end
      end
  end.

Definition prev_ts_queries (read_chunk : list DocumentLogEntry) : list DocumentPrevTsQuery :=
  filter_map (fun entry => option_map (fun prev_ts => (log_id entry, (log_ts entry, prev_ts))) (log_prev_ts entry)) read_chunk.

Definition revision_pairs_of_chunk (self : Store) (read_chunk : list DocumentLogEntry) : stream RevisionPair :=
  match previous_revisions_of_documents self (prev_ts_queries read_chunk) with
  | Ret prev_revs => pair_loop prev_revs read_chunk
  | Err e => ([], Err e)
  | Panic => ([], Panic)
  end.

Definition stream_revision_pairs (DOCUMENTS_IN_MEMORY : nat) (self : Store) (docs : stream DocumentLogEntry) : stream RevisionPair :=
  let chunks := try_chunks2 DOCUMENTS_IN_MEMORY docs in
  stream_bind (revision_pairs_of_chunk self) chunks.1 chunks.2.

(** [RepeatablePersistence::load_revision_pairs] for all tables. *)
Definition load_revision_pairs (DOCUMENTS_IN_MEMORY : nat) (self : Store) (upper_bound : Z) (range : TimestampRange) (order : Order) : stream RevisionPair :=
  stream_revision_pairs DOCUMENTS_IN_MEMORY self (stream_of (load_documents self (intersect range (range_snapshot upper_bound)) order)).

(** ** Reading an index *)

(** The rows of the subquery [A] joined with [B]: of each key in the interval
    the row with the latest timestamp, if it is not a deletion. *)
Definition in_scan (index_id : list Z) (read_timestamp : Z) (interval : Interval) (e : (list Z * (list Z * Z)) * option InternalDocumentId) : bool :=
  bool_decide (e.1.1 = index_id) && (e.1.2.2 <=? read_timestamp) && contains interval e.1.2.1.

Definition latest_rows (self : Store) (index_id : list Z) (read_timestamp : Z) (interval : Interval) : Indexes :=
  let scanned := bfilter (in_scan index_id read_timestamp interval) (indexes self) in
  bfilter (fun e => match e.2 with Some _ => true | None => false end
    && negb (existsb (fun e' : (list Z * (list Z * Z)) * option InternalDocumentId => bool_decide (e'.1.2.1 = e.1.2.1) && (e.1.2.2 <? e'.1.2.2)) scanned)) scanned.

Record LatestDocument := MkLatest { latest_ts : Z; latest_value : PackedDocument; latest_prev_ts : option Z }.

(** [ResolvedDocument::from_database]: the number of the table and the id are
    read from the value. *)
Definition from_database (tablet : list Z) (d : PackedDocument) : PackedDocument := MkDoc (value d) (MkResolved tablet (developer_id (id d))).

Definition join_document (self : Store) (tablet : list Z) (e : (list Z * (list Z * Z)) * option InternalDocumentId) : outcome persistence_error (list Z * LatestDocument) :=
  let? i := ok_or e.2 DanglingIndexReference in
  let? (json_value, prev_ts) := ok_or (BTreeMap.get (e.1.2.2, i) (documents self)) DanglingIndexReference in
  let? document := ok_or json_value IndexReferenceToDeleted in
  Ret (e.1.2.1, MkLatest e.1.2.2 (from_database tablet document) prev_ts).

Definition index_scan_inner (self : Store) (index_id tablet : list Z) (read_timestamp : Z) (interval : Interval) (order : Order) : outcome persistence_error (list (list Z * LatestDocument)) :=
  mapM (join_document self tablet) (order_apply order (latest_rows self index_id read_timestamp interval)).

Definition index_scan (self : Store) (index_id tablet : list Z) (read_timestamp : Z) (interval : Interval) (order : Order) : outcome persistence_error (list (list Z * LatestDocument)) :=
  let? triples := index_scan_inner self index_id tablet read_timestamp interval order in
  let? _ := validate_snapshot read_timestamp in Ret triples.
End reads.

(** ** Deleting *)

Definition delete_index_row (st : Indexes * Z) (e : IndexEntry) : Indexes * Z :=
  let expired (r : (list Z * (list Z * Z)) * option InternalDocumentId) :=
    bool_decide (r.1.1 = ie_index_id e) && (r.1.2.2 <=? ie_ts e) && bool_decide (r.1.2.1 = key_prefix e) in
  (bfilter (fun r => negb (expired r)) st.1, st.2 + Z.of_nat (length (bfilter expired st.1))).

(** [delete_index_entries] and [delete] return the number of rows deleted. *)
Definition delete_index_entries (self : Store) (expired_rows : list IndexEntry) : Store * Z :=
  let st := fold_left delete_index_row expired_rows (indexes self, 0) in (MkStore (documents self) st.1, st.2).

Definition delete_document_row (st : Documents * Z) (q : Z * InternalDocumentId) : Documents * Z :=
  let expired (r : (Z * (list Z * list Z)) * (option PackedDocument * option Z)) := bool_decide (r.1.2 = q.2) && (r.1.1 <=? q.1) in
  (bfilter (fun r => negb (expired r)) st.1, st.2 + Z.of_nat (length (bfilter expired st.1))).

Definition persistence_delete (self : Store) (docs : list (Z * InternalDocumentId)) : Store * Z :=
  let st := fold_left delete_document_row docs (documents self, 0) in (MkStore st.1 (indexes self), st.2).

(** ** What the tables should hold

    [H] is the log with nothing deleted. *)

Definition current (H : Documents) (i : InternalDocumentId) (ts t : Z) (d : PackedDocument) : Prop :=
  (exists p, BTreeMap.get (t, i) H = Some (Some d, p)) /\ t <= ts /\ forall t', t < t' <= ts -> BTreeMap.get (t', i) H = None.

(** The previous revision of an entry is the one before it, if that is a
    document; a document that is not the latest version has a successor. *)
Record history_ok (H : Documents) : Prop := {
  ho_wf : BTreeMap.wf H;
  ho_ts t i row : BTreeMap.get (t, i) H = Some row -> MIN < t < MAX;
  ho_value t i d p : BTreeMap.get (t, i) H = Some (Some d, p) -> id_with_table_id d = i /\ good_doc d;
  ho_prev t i v p : BTreeMap.get (t, i) H = Some (v, Some p) -> p < t /\ exists d q, BTreeMap.get (p, i) H = Some (Some d, q);
  ho_between t i v p t' : BTreeMap.get (t, i) H = Some (v, Some p) -> p < t' < t -> BTreeMap.get (t', i) H = None;
  ho_next t i d q s row : BTreeMap.get (t, i) H = Some (Some d, q) -> t < s -> BTreeMap.get (s, i) H = Some row ->
    exists s' v, t < s' <= s /\ BTreeMap.get (s', i) H = Some (v, Some t);
}.

(** An entry that nothing at [b] or later can depend on: it was replaced, or is
    a deletion, before [b]. *)
Definition expired (H : Documents) (b t : Z) (i : InternalDocumentId) : Prop :=
  (exists s v, BTreeMap.get (s, i) H = Some (v, Some t) /\ s < b) \/ (exists q, BTreeMap.get (t, i) H = Some (None, q) /\ t < b).

(** The table holds entries of the log, all that are not expired, and of each
    document the latest. *)
Record retains (H D : Documents) (b : Z) : Prop := {
  rt_wf : BTreeMap.wf D;
  rt_sub k row : BTreeMap.get k D = Some row -> BTreeMap.get k H = Some row;
  rt_kept t i row : BTreeMap.get (t, i) H = Some row -> ~ expired H b t i -> BTreeMap.get (t, i) D = Some row;
  rt_suffix t t' i row : t < t' -> BTreeMap.get (t', i) H = Some row -> BTreeMap.get (t', i) D = None -> BTreeMap.get (t, i) D = None;
}.

Definition row_visible (R : Indexes) (iid k : list Z) (ts : Z) (i : InternalDocumentId) (t : Z) : Prop :=
  BTreeMap.get (iid, (k, t)) R = Some (Some i) /\ t <= ts /\ forall t', t < t' <= ts -> BTreeMap.get (iid, (k, t')) R = None.

(** The rows of an index that are visible at a timestamp are the keys of the
    documents of its table at that timestamp. *)
Definition reads_right (H : Documents) (R : Indexes) (iid tablet : list Z) (fields : list FieldPath) (ts : Z) : Prop :=
  forall k i t, row_visible R iid k ts i t <-> exists d, current H i ts t d /\ i.1 = tablet /\ doc_key d fields = k.


Lemma expired_later H b t i row : history_ok H -> BTreeMap.get (t, i) H = Some row -> b <= t -> ~ expired H b t i.
Proof. intros HH Hg Hb [(s & v & Hs & Hlt)|(q & _ & Hlt)]; [|lia]. apply (ho_prev _ HH) in Hs as [? _]. lia. Qed.

Lemma current_kept H D b i ts t d p : history_ok H ->
  retains H D b -> b <= ts -> current H i ts t d -> BTreeMap.get (t, i) H = Some (Some d, p) -> BTreeMap.get (t, i) D = Some (Some d, p).
Proof.
  intros HH HD Hb (_ & Ht & Hn) Hg. apply (rt_kept _ _ _ HD); [done|]. intros [(s & v & Hs & Hlt)|(q & Hq & _)]; [|congruence].
  pose proof (ho_prev _ HH _ _ _ _ Hs) as [? _]. rewrite Hn in Hs by lia. done.
Qed.

Lemma current_unique H i ts t t' d d' : current H i ts t d -> current H i ts t' d' -> t = t' /\ d = d'.
Proof.
  intros ((p & Hg) & Ht & Hn) ((p' & Hg') & Ht' & Hn'). destruct (Z.lt_trichotomy t t') as [Hlt|[->|Hlt]].
  - rewrite Hn in Hg' by lia. done.
  - split; congruence.
  - rewrite Hn' in Hg by lia. done.
Qed.

Lemma elem_of_latest_rows S iid ts interval e :
  BTreeMap.wf (indexes S) -> e ∈ latest_rows S iid ts interval <->
  e.1.1 = iid /\ inside interval e.1.2.1 /\ exists i, e.2 = Some i /\ row_visible (indexes S) iid e.1.2.1 ts i e.1.2.2.
Proof.
  intros Hwf. unfold latest_rows, in_scan. destruct e as [[j [k t]] v]. rewrite !elem_of_bfilter. cbn [fst snd].
  rewrite !andb_true_iff, bool_decide_eq_true, Z.leb_le, negb_true_iff. fold (inside interval k).
  rewrite <- not_true_iff_false, existsb_elem. unfold row_visible. split.
  - intros ((Hin & (-> & Ht) & Hk) & Hv & Hmax). destruct v as [i|]; [|done]. split_and!; [done..|]. exists i.
    split_and!; [done|by apply BTreeMap.elem_of_get|done|]. intros t' Ht'. destruct (BTreeMap.get _ _) as [v'|] eqn:Hg; [|done].
    exfalso. apply Hmax. exists ((iid, (k, t')), v'). cbn [fst snd]. rewrite !elem_of_bfilter. cbn [fst snd].
    rewrite !andb_true_iff, !bool_decide_eq_true, Z.leb_le, Z.ltb_lt. split_and!; try done; try lia. by apply BTreeMap.elem_of_get.
  - intros (-> & Hk & i & -> & Hg & Ht & Hmax). split_and!; try done; [by apply BTreeMap.elem_of_get|].
    intros ([[j' [k' t']] v'] & Hin & Hlt). rewrite elem_of_bfilter in Hin. cbn [fst snd] in *.
    rewrite !andb_true_iff, !bool_decide_eq_true, Z.leb_le, Z.ltb_lt in *. destruct Hin as (Hin & (-> & Ht') & _), Hlt as [-> Hlt].
    apply BTreeMap.elem_of_get in Hin; [|done]. rewrite Hmax in Hin by lia. done.
Qed.

Lemma visible_unique R iid k ts i t i' t' : row_visible R iid k ts i t -> row_visible R iid k ts i' t' -> t = t' /\ i = i'.
Proof.
  intros (Hg & Ht & Hn) (Hg' & Ht' & Hn'). destruct (Z.lt_trichotomy t t') as [Hlt|[->|Hlt]].
  - rewrite Hn in Hg' by lia. done.
  - split; congruence.
  - rewrite Hn' in Hg by lia. done.
Qed.

(** The documents at a timestamp. *)
Definition snapshot_at (H : Documents) (ts : Z) (i : ResolvedDocumentId) : option (Z * PackedDocument) :=
  match last (bfilter (fun e => bool_decide (e.1.2 = (tablet_id i, internal_id (developer_id i))) && (e.1.1 <=? ts)) H) with
  | Some ((t, _), (Some d, _)) => if bool_decide (id d = i) then Some (t, d) else None
  | _ => None
  end.

Lemma last_greatest {K V} `{OrdLaws K} (m : BTreeMap.t K V) e : BTreeMap.wf m -> last m = Some e <-> e ∈ m /\ forall e', e' ∈ m -> e'.1 ≼ e.1.
Proof.
  intros Hwf. split; [by apply BTreeMap.last_Some|]. intros [Hin Hmax]. destruct (last m) as [e'|] eqn:Hl.
  - apply BTreeMap.last_Some in Hl as [Hin' Hmax']; [|done]. destruct e as [k v], e' as [k' v'].
    assert (k' = k) as -> by (apply ole_antisym; [by apply (Hmax (k', v'))|by apply (Hmax' (k, v))]).
    by rewrite (BTreeMap.wf_unique m k v v').
  - apply last_None in Hl as ->. by apply elem_of_nil in Hin.
Qed.

Lemma last_of_id (H : Documents) j ts t row :
  BTreeMap.wf H -> last (bfilter (fun e => bool_decide (e.1.2 = j) && (e.1.1 <=? ts)) H) = Some ((t, j), row) <->
  BTreeMap.get (t, j) H = Some row /\ t <= ts /\ forall t', t < t' <= ts -> BTreeMap.get (t', j) H = None.
Proof.
  intros Hwf. set (l := bfilter _ H). assert (Hl : BTreeMap.wf l) by (by apply BTreeMap.wf_bfilter).
  assert (Hel : forall t' i' row', ((t', i'), row') ∈ l <-> i' = j /\ BTreeMap.get (t', i') H = Some row' /\ t' <= ts).
  { intros t' i' row'. unfold l. rewrite elem_of_bfilter, BTreeMap.elem_of_get by done. cbn [fst snd].
    rewrite andb_true_iff, bool_decide_eq_true, Z.leb_le. tauto. }
  rewrite last_greatest by done. split.
  - intros [Hin Hmax]. apply Hel in Hin as (_ & Hg & Ht). split_and!; [done..|]. intros t' Ht'.
    destruct (BTreeMap.get (t', j) H) as [row'|] eqn:Hg'; [|done]. exfalso.
    assert (Hin' : ((t', j), row') ∈ l) by (apply Hel; split_and!; [done..|lia]). apply Hmax in Hin'. cbn [fst] in Hin'.
    apply ole_alt in Hin' as [Heq|Heq]; [|simplify_eq; lia]. apply pair_olt in Heq as [Heq|[-> _]]; [apply (proj1 (Z_olt _ _)) in Heq|]; lia.
  - intros (Hg & Ht & Hn). split; [by apply Hel|]. intros [[t' i'] row'] Hin'. apply Hel in Hin' as (-> & Hg' & Ht').
    apply ole_alt. cbn [fst]. destruct (Z.lt_trichotomy t t') as [Hlt|[->|Hlt]]; [rewrite Hn in Hg' by lia; done|by right|].
    left. apply pair_olt. left. by apply (proj2 (Z_olt _ _)).
Qed.

Lemma snapshot_at_Some H ts i t d : history_ok H -> snapshot_at H ts i = Some (t, d) <-> id d = i /\ current H (id_with_table_id d) ts t d.
Proof.
  intros HH. unfold snapshot_at, current. set (j := (tablet_id i, internal_id (developer_id i))).
  assert (Hj : forall p, id p = i -> id_with_table_id p = j) by (by intros p <-). split.
  - intros Hs. destruct (last _) as [[[t' j'] [[d'|] p]]|] eqn:Hl; [|done..]. case_bool_decide as Hid; [|done]. injection Hs as -> ->.
    assert (j' = j) as ->.
    { apply last_Some_elem_of in Hl. rewrite elem_of_bfilter in Hl. destruct Hl as [_ Hb]. bool_hyps. by apply bool_decide_eq_true in H0. }
    apply last_of_id in Hl as (Hg & Ht & Hn); [|apply HH]. rewrite (Hj d Hid). split_and!; eauto.
  - intros (Hid & (p & Hg) & Ht & Hn). rewrite (Hj d Hid) in *.
    rewrite (proj2 (last_of_id H j ts t (Some d, p) (ho_wf _ HH))) by done. by rewrite bool_decide_eq_true_2.
Qed.

Lemma snapshot_at_ok H ts : history_ok H -> db_ok (snapshot_at H ts).
Proof. intros HH i t d [Hid ((p & Hg) & _)]%snapshot_at_Some; [|done]. split; [done|]. by apply (ho_value _ HH _ _ _ _ Hg). Qed.

(** *** A scan of an index returns the documents of the snapshot *)

Lemma mapM_each {A B E} (f : A -> outcome E B) (g : A -> B) l : (forall x, x ∈ l -> f x = Ret (g x)) -> mapM f l = Ret (map g l).
Proof.
  induction l as [|x l IH]; intros Hf; cbn [mapM map]; [done|]. rewrite Hf by left. cbn [obind].
  rewrite IH; [done|]. intros y Hy. apply Hf. by right.
Qed.

Lemma map_order_apply {A B} (f : A -> B) order l : map f (order_apply order l) = order_apply order (map f l).
Proof. destruct order; [done|]. apply map_rev. Qed.

(** Sorted by index, key and timestamp with one row per key is sorted by key. *)
Lemma wf_by_key {V W} (l : BTreeMap.t (list Z * (list Z * Z)) V) (g : (list Z * (list Z * Z)) * V -> list Z * W) iid :
  BTreeMap.wf l -> (forall e, e ∈ l -> e.1.1 = iid /\ (g e).1 = e.1.2.1) ->
  (forall e e', e ∈ l -> e' ∈ l -> e.1.2.1 = e'.1.2.1 -> e.1.2.2 = e'.1.2.2) -> BTreeMap.wf (map g l).
Proof.
  induction l as [|[[j [k t]] v] l IH]; [done|]. intros [Hlt Hwf] Hg Hu. cbn [map].
  destruct (g ((j, (k, t)), v)) as [k' w] eqn:Hgk. destruct (Hg ((j, (k, t)), v) ltac:(left)) as [Hj Hk]. rewrite Hgk in Hk. cbn [fst snd] in *. subst k'.
  split; [|apply IH; [done|intros e' He'; apply Hg; by right|intros e' e'' He' He''; apply Hu; by right]].
  intros ? (e & -> & He)%list_elem_of_fmap. destruct (Hg e) as [He1 ->]; [by right|]. specialize (Hlt e He).
  destruct e as [[j' [k' t']] v']. cbn [fst snd] in *. subst j j'. apply pair_olt in Hlt as [[]%olt_irrefl|[_ Hlt]].
  apply pair_olt in Hlt as [?|[-> Hlt]]; [done|]. exfalso.
  specialize (Hu ((iid, (k', t)), v) ((iid, (k', t')), v') ltac:(left) ltac:(by right) eq_refl). cbn [fst snd] in Hu. subst t'. by apply olt_irrefl in Hlt.
Qed.

Section scan.
Context (S : Store) (H : Documents) (b : Z) (iid tablet : list Z) (fields : list FieldPath) (ts : Z).
Context (HH : history_ok H) (HD : retains H (documents S) b) (HI : BTreeMap.wf (indexes S)) (Hb : b <= ts) (HR : reads_right H (indexes S) iid tablet fields ts).

(** The row of a document as the scan returns it. *)
Definition scanned_row (e : (list Z * (list Z * Z)) * option InternalDocumentId) : list Z * LatestDocument :=
  match join_document S tablet e with Ret r => r | _ => ([], MkLatest 0 (MkDoc Null (MkResolved [] (MkId 0 []))) None) end.

Lemma latest_row_document interval e :
  e ∈ latest_rows S iid ts interval -> exists d p, e.2 = Some (id_with_table_id d) /\ current H (id_with_table_id d) ts e.1.2.2 d /\ tablet_id (id d) = tablet /\ doc_key d fields = e.1.2.1 /\
    inside interval e.1.2.1 /\ BTreeMap.get (e.1.2.2, id_with_table_id d) H = Some (Some d, p) /\ join_document S tablet e = Ret (e.1.2.1, MkLatest e.1.2.2 d p).
Proof using HH HD HI Hb HR.
  intros (_ & Hin & i & Hv & Hvis)%elem_of_latest_rows; [|done]. destruct e as [[j [k t]] v]. cbn [fst snd] in *. subst v.
  apply HR in Hvis as (d & Hc & Ht & Hk). pose proof Hc as ((p & Hg) & _).
  destruct (ho_value _ HH _ _ _ _ Hg) as [<- _]. exists d, p. split_and!; [done..|].
  unfold join_document. cbn [ok_or obind fst snd]. rewrite (current_kept H _ b _ ts t d p HH HD Hb Hc Hg). cbn [ok_or obind].
  unfold from_database. rewrite <- Ht. destruct d as [v [tab dev]]. done.
Qed.

Lemma index_scan_exact m interval order :
  index_exact (snapshot_at H ts) tablet fields m ->
  exists rows, index_scan_inner S iid tablet ts interval order = Ret rows /\
    map (fun e => (e.1, (latest_ts e.2, latest_value e.2))) rows = order_apply order (rows_in interval m) /\
    (forall e, e ∈ rows -> BTreeMap.get (latest_ts e.2, id_with_table_id (latest_value e.2)) H = Some (Some (latest_value e.2), latest_prev_ts e.2)).
Proof using HH HD HI Hb HR.
  intros [Hmwf Hm]. set (l := latest_rows S iid ts interval).
  assert (Hj : forall e, e ∈ l -> exists d p, e.2 = Some (id_with_table_id d) /\ current H (id_with_table_id d) ts e.1.2.2 d /\ tablet_id (id d) = tablet /\ doc_key d fields = e.1.2.1 /\
    inside interval e.1.2.1 /\ BTreeMap.get (e.1.2.2, id_with_table_id d) H = Some (Some d, p) /\
    join_document S tablet e = Ret (scanned_row e) /\ scanned_row e = (e.1.2.1, MkLatest e.1.2.2 d p)).
  { intros e He. destruct (latest_row_document interval e He) as (d & p & He2 & Hc & Ht & Hk & Hin & Hg & Hd). exists d, p. unfold scanned_row. by rewrite Hd. }
  exists (map scanned_row (order_apply order l)). split_and!.
  - unfold index_scan_inner. fold l. apply mapM_each. intros e He. apply elem_of_order_apply, Hj in He as (? & ? & ? & ? & ? & ? & ? & ? & ? & ?). done.
  - rewrite map_map, map_order_apply. f_equal. apply BTreeMap.wf_ext.
    + apply (wf_by_key l _ iid).
      * by apply BTreeMap.wf_bfilter, BTreeMap.wf_bfilter.
      * intros e He. split; [by apply elem_of_latest_rows in He as (? & _)|]. by destruct (Hj e He) as (? & ? & ? & ? & ? & ? & ? & ? & ? & ->).
      * intros e e' He He' Hk. apply elem_of_latest_rows in He as (_ & _ & i & _ & Hv); [|done]. apply elem_of_latest_rows in He' as (_ & _ & i' & _ & Hv'); [|done].
        rewrite Hk in Hv. by apply (visible_unique _ _ _ _ _ _ _ _ Hv Hv').
    + by apply BTreeMap.wf_bfilter.
    + intros [k [t d]]. unfold rows_in. rewrite elem_of_bfilter, list_elem_of_fmap, <- BTreeMap.elem_of_get, Hm by done. cbn [fst snd]. fold (inside interval k).
      unfold entry_of. cbn [fst snd]. rewrite snapshot_at_Some by done. split.
      * intros (e & Heq & He). destruct (Hj e He) as (d' & p & _ & Hc & Ht & Hk & Hin & Hg & _ & Hs). rewrite Hs in Heq. cbn in Heq. by simplify_eq.
      * intros (((_ & Hc) & Ht & ->) & Hin). exists ((iid, (doc_key d fields, t)), Some (id_with_table_id d)).
        assert (He : ((iid, (doc_key d fields, t)), Some (id_with_table_id d)) ∈ l).
        { apply elem_of_latest_rows; [done|]. cbn [fst snd]. split_and!; [done..|]. eexists. split; [done|]. apply HR. eauto. }
        split; [|done]. destruct (Hj _ He) as (d' & p & Heq & Hc' & _ & _ & _ & _ & _ & ->). cbn [fst snd] in *.
        assert (Heq' : id_with_table_id d = id_with_table_id d') by congruence. rewrite <- Heq' in Hc'. by destruct (current_unique _ _ _ _ _ _ _ Hc Hc') as [_ ->].
  - intros ? (e & -> & He)%list_elem_of_fmap. apply elem_of_order_apply, Hj in He as (d & p & _ & _ & _ & _ & _ & Hg & _ & ->). done.
Qed.
End scan.

(** The index at a timestamp, computed from the log. *)
Definition is_current (H : Documents) (ts : Z) (e : (Z * (list Z * list Z)) * (option PackedDocument * option Z)) : bool :=
  (e.1.1 <=? ts) && negb (existsb (fun e' : (Z * (list Z * list Z)) * (option PackedDocument * option Z) => bool_decide (e'.1.2 = e.1.2) && (e.1.1 <? e'.1.1) && (e'.1.1 <=? ts)) H).

Definition index_at (H : Documents) (ts : Z) (tablet : list Z) (fields : list FieldPath) : BTreeMap.t (list Z) (Z * PackedDocument) :=
  fold_left (fun m e => match e.2.1 with Some d => if is_current H ts e && bool_decide (e.1.2.1 = tablet) then BTreeMap.insert (doc_key d fields) (e.1.1, d) m else m | None => m end) H [].

Lemma is_current_spec H ts t i d p : history_ok H -> ((t, i), (Some d, p)) ∈ H -> is_current H ts ((t, i), (Some d, p)) = true <-> current H i ts t d.
Proof.
  intros HH Hin. unfold is_current, current. cbn [fst snd]. rewrite andb_true_iff, Z.leb_le, negb_true_iff, <- not_true_iff_false, existsb_elem.
  apply BTreeMap.elem_of_get in Hin; [|apply HH]. split.
  - intros [Ht Hn]. split_and!; [eauto|done|]. intros t' Ht'. destruct (BTreeMap.get (t', i) H) as [row|] eqn:Hg; [|done]. exfalso. apply Hn. exists ((t', i), row).
    split; [by apply BTreeMap.elem_of_get; [apply HH|]|]. cbn [fst snd]. rewrite bool_decide_eq_true_2, (proj2 (Z.ltb_lt _ _)), (proj2 (Z.leb_le _ _)) by (done || lia). done.
  - intros (_ & Ht & Hn). split; [done|]. intros ([[t' i'] row] & Hin' & Hb). cbn [fst snd] in Hb. bool_hyps. apply bool_decide_eq_true in H0 as ->.
    apply BTreeMap.elem_of_get in Hin'; [|apply HH]. rewrite Hn in Hin' by lia. done.
Qed.

(** Insertion of values with distinct keys, from a list. *)
Lemma collected_rows_get {A K V} `{OrdLaws K} (f : A -> option (K * V)) (l : list A) : forall m, BTreeMap.wf m ->
  (forall x y k v w, x ∈ l -> y ∈ l -> f x = Some (k, v) -> f y = Some (k, w) -> v = w) -> (forall x k v, x ∈ l -> f x = Some (k, v) -> BTreeMap.get k m = None \/ BTreeMap.get k m = Some v) ->
  let m' := fold_left (fun m x => match f x with Some (k, v) => BTreeMap.insert k v m | None => m end) l m in
  BTreeMap.wf m' /\ forall k v, BTreeMap.get k m' = Some v <-> BTreeMap.get k m = Some v \/ exists x, x ∈ l /\ f x = Some (k, v).
Proof.
  induction l as [|x l IH]; intros m Hwf Hu Hm; cbn [fold_left]; [split; [done|]; intros k v; split; [by left|]; intros [?|(x & ?%elem_of_nil & _)]; done|].
  assert (Hu' : forall x0 y k v w, x0 ∈ l -> y ∈ l -> f x0 = Some (k, v) -> f y = Some (k, w) -> v = w) by (intros x0 y k v w Hx Hy; apply Hu; by right).
  destruct (f x) as [[k0 v0]|] eqn:Hfx.
  - destruct (IH (BTreeMap.insert k0 v0 m)) as [Hwf' Hg]; [by apply BTreeMap.wf_insert|done| |].
    + intros y k v Hy Hfy. destruct (decide (cmp k k0 = Eq)) as [->%cmp_eq_iff|Hne]; [right; rewrite BTreeMap.get_insert_eq by done; f_equal; by apply (Hu x y k0); [left|right|..]|].
      rewrite BTreeMap.get_insert_ne; [apply (Hm y); [by right|done]|done|]. intros ->. by rewrite cmp_refl in Hne.
    + split; [done|]. intros k v. rewrite Hg. destruct (decide (cmp k k0 = Eq)) as [->%cmp_eq_iff|Hne].
      * rewrite BTreeMap.get_insert_eq by done. split; [intros [[= <-]|(y & Hy & Hfy)]; right; [exists x; by split; [left|]|exists y; by split; [right|]]|].
        intros [Hg0|(y & [->|Hy]%elem_of_cons & Hfy)]; [|left; congruence|right; eauto]. left. destruct (Hm x k0 v0 ltac:(left) Hfx) as [?|?]; congruence.
      * rewrite BTreeMap.get_insert_ne by (done || intros ->; by rewrite cmp_refl in Hne). split; (intros [?|(y & Hy & Hfy)]; [by left|right]); [exists y; by split; [right|]|].
        apply elem_of_cons in Hy as [->|Hy]; [|eauto]. rewrite Hfx in Hfy. injection Hfy as <- _. by rewrite cmp_refl in Hne.
  - destruct (IH m Hwf Hu') as [Hwf' Hg]; [intros y k v Hy; apply (Hm y); by right|]. split; [done|]. intros k v. rewrite Hg.
    split; (intros [?|(y & Hy & Hfy)]; [by left|right]); [exists y; by split; [right|]|]. apply elem_of_cons in Hy as [->|Hy]; [congruence|eauto].
Qed.

Lemma index_at_exact H ts tablet fields : history_ok H -> index_exact (snapshot_at H ts) tablet fields (index_at H ts tablet fields).
Proof.
  intros HH. set (f := fun e : (Z * (list Z * list Z)) * (option PackedDocument * option Z) => match e.2.1 with Some d => if is_current H ts e && bool_decide (e.1.2.1 = tablet) then Some (doc_key d fields, (e.1.1, d)) else None | None => None end).
  assert (Hf : forall e k v, e ∈ H -> f e = Some (k, v) -> current H (id_with_table_id v.2) ts v.1 v.2 /\ good_doc v.2 /\ tablet_id (id v.2) = tablet /\ k = doc_key v.2 fields).
  { intros [[t i] [[d|] p]] k v Hin; unfold f; cbn [fst snd]; [|done]. destruct (is_current _ _ _) eqn:Hc; cbn [andb]; [|done]. case_bool_decide as Ht; [|done]. intros [= <- <-]. cbn [fst snd].
    apply is_current_spec in Hc; [|done|done]. apply BTreeMap.elem_of_get in Hin; [|apply HH]. destruct (ho_value _ HH _ _ _ _ Hin) as [<- Hg]. done. }
  assert (Heq : index_at H ts tablet fields = fold_left (fun m x => match f x with Some (k, v) => BTreeMap.insert k v m | None => m end) H []).
  { unfold index_at. generalize (@nil (list Z * (Z * PackedDocument))) as m. generalize H at 2 3 as l. induction l as [|e l IH]; intros m; cbn [fold_left]; [done|].
    rewrite IH. f_equal. unfold f. destruct (e.2.1); [|done]. by destruct (_ && _). }
  destruct (collected_rows_get f H []) as [Hwf Hg]; [done| |by intros; left|].
  - intros x y k v w Hx Hy Hfx Hfy. destruct (Hf x k v Hx Hfx) as (Hc & Hgd & Ht & Hk), (Hf y k w Hy Hfy) as (Hc' & Hgd' & Ht' & Hk').
    rewrite Hk in Hk'. apply doc_key_inj in Hk'; [|done..]. assert (Hid : id_with_table_id v.2 = id_with_table_id w.2) by (unfold id_with_table_id; congruence).
    rewrite <- Hid in Hc'. destruct (current_unique _ _ _ _ _ _ _ Hc Hc') as [H1 H2]. destruct v, w. cbn in *. congruence.
  - rewrite Heq. split; [done|]. intros k v. rewrite Hg. unfold entry_of. destruct v as [t d]. cbn [fst snd]. rewrite snapshot_at_Some by done. split.
    + intros [?|(e & Hin & Hfe)]; [done|]. destruct (Hf e k (t, d) Hin Hfe) as (Hc & _ & Ht & Hk). done.
    + intros ((_ & Hc) & Ht & ->). right. pose proof Hc as ((p & Hgp) & _). exists ((t, id_with_table_id d), (Some d, p)). assert (Hin : ((t, id_with_table_id d), (Some d, p)) ∈ H) by (by apply BTreeMap.elem_of_get; [apply HH|]).
      split; [done|]. unfold f. cbn [fst snd]. rewrite (proj2 (is_current_spec H ts t _ d p HH Hin)) by done. rewrite bool_decide_eq_true_2 by done. done.
Qed.
