(* ===== verification/Retention.v ===== *)
(** * Retention: deleting data that no snapshot in the window can read
      (src/crates/database/src/retention.rs)

    A worker advances the earliest snapshots at which indexes and the log of
    documents may be read; two more delete index rows and log entries that are
    superseded before them, and checkpoint how far they got.  The definitions
    are one round of each loop.  Persistence can fail: a read stops after some
    items, a write is lost or reported lost although it was applied, each part
    of a chunk on its own.  Timers, rate limits (but for the one that skips
    checkpoints) and back-off are left out. *)

From S2P Require Import Prelude Ord BTreeMap BinaryKey Bounds Interval Timestamp Identifier Value Sorting SortingDecode Base32 IdV6 Document IndexRegistry IndexUpdates MemoryIndexes Persistence.

Local Open Scope Z_scope.

Definition ts_part (m : outcome ts_error Z) : outcome persistence_error Z :=
  match m with Ret ts => Ret ts | Err e => Err (TsFailed e) | Panic => Panic end.

(** [RepeatableTimestamp::prior_ts], [sub] and [pred]. *)
Definition prior_ts (self ts : Z) : outcome persistence_error Z := if ts <=? self then Ret ts else Err NotPrior.
Definition repeatable_sub (self duration : Z) : outcome persistence_error Z := let? ts := ts_part (sub self duration) in prior_ts self ts.
Definition repeatable_pred (self : Z) : outcome persistence_error Z := let? ts := ts_part (pred self) in prior_ts self ts.

(** [knobs.rs]. *)
Record Knobs := MkKnobs {
  INDEX_RETENTION_DELAY : Z;
  DOCUMENT_RETENTION_DELAY : Z;
  RETENTION_DELETES_ENABLED : bool;
  RETENTION_DOCUMENT_DELETES_ENABLED : bool;
  INDEX_RETENTION_DELETE_CHUNK : nat;
  INDEX_RETENTION_DELETE_PARALLEL : nat;
  RETENTION_DELETE_BATCH : Z;
  DOCUMENT_RETENTION_DELETE_CHUNK : nat;
  DOCUMENT_RETENTION_DELETE_PARALLEL : nat;
  DOCUMENT_RETENTION_MAX_SCANNED_DOCUMENTS : Z;
  DOCUMENTS_IN_MEMORY : nat;
}.

(** ** Bounds and checkpoints *)

Record SnapshotBounds := MkBounds { min_index_snapshot_ts : Z; min_document_snapshot_ts : Z }.

Definition advance_min_snapshot_ts (self : SnapshotBounds) (candidate : Z) : SnapshotBounds :=
  MkBounds (Z.max (min_index_snapshot_ts self) candidate) (min_document_snapshot_ts self).
Definition advance_min_document_snapshot_ts (self : SnapshotBounds) (candidate : Z) : SnapshotBounds :=
  MkBounds (min_index_snapshot_ts self) (Z.max (min_document_snapshot_ts self) candidate).

Definition advance_checkpoint (checkpoint : option Z) (candidate : Z) : option Z :=
  Some match checkpoint with Some c => Z.max c candidate | None => candidate end.

(** The timestamps that are kept in persistence. *)
Record Globals := MkGlobals {
  IndexRetentionMinSnapshotTimestamp : option Z;
  DocumentRetentionMinSnapshotTimestamp : option Z;
  IndexRetentionConfirmedDeletedTimestamp : option Z;
  DocumentRetentionConfirmedDeletedTimestamp : option Z;
}.

Definition latest_retention_min_snapshot_ts (globals : Globals) (retention_type : RetentionType) : Z :=
  default MIN match retention_type with
    | RetainDocument => DocumentRetentionMinSnapshotTimestamp globals
    | RetainIndex => IndexRetentionMinSnapshotTimestamp globals
    end.

Definition get_checkpoint_not_repeatable (globals : Globals) (retention_type : RetentionType) : Z :=
  default MIN match retention_type with
    | RetainDocument => DocumentRetentionConfirmedDeletedTimestamp globals
    | RetainIndex => IndexRetentionConfirmedDeletedTimestamp globals
    end.

Definition get_checkpoint (globals : Globals) (max_repeatable_ts : Z) (retention_type : RetentionType) : outcome persistence_error Z :=
  prior_ts max_repeatable_ts (get_checkpoint_not_repeatable globals retention_type).

Definition load_snapshot_bounds (globals : Globals) (repeatable_ts : Z) : outcome persistence_error SnapshotBounds :=
  let min_index_snapshot_ts := latest_retention_min_snapshot_ts globals RetainIndex in
  let min_document_snapshot_ts := latest_retention_min_snapshot_ts globals RetainDocument in
  if repeatable_ts <? min_index_snapshot_ts then Err (OutOfRetention RetainIndex)
  else if repeatable_ts <? min_document_snapshot_ts then Err (OutOfRetention RetainDocument)
  else Ret (MkBounds min_index_snapshot_ts min_document_snapshot_ts).

(** The validators of the leader and of followers; a follower reads the bound
    from persistence and remembers it. *)
Definition validate_snapshot (bounds : SnapshotBounds) (ts : Z) : outcome persistence_error unit :=
  ensure (min_index_snapshot_ts bounds <=? ts) (OutOfRetention RetainIndex).
Definition validate_document_snapshot (bounds : SnapshotBounds) (ts : Z) : outcome persistence_error unit :=
  ensure (min_document_snapshot_ts bounds <=? ts) (OutOfRetention RetainDocument).
Definition follower_validate_snapshot (globals : Globals) (bounds : SnapshotBounds) (ts : Z) : SnapshotBounds * outcome persistence_error unit :=
  let latest := latest_retention_min_snapshot_ts globals RetainIndex in
  (advance_min_snapshot_ts bounds latest, ensure (latest <=? ts) (OutOfRetention RetainIndex)).
Definition follower_validate_document_snapshot (globals : Globals) (bounds : SnapshotBounds) (ts : Z) : SnapshotBounds * outcome persistence_error unit :=
  let latest := latest_retention_min_snapshot_ts globals RetainDocument in
  (advance_min_document_snapshot_ts bounds latest, ensure (latest <=? ts) (OutOfRetention RetainDocument)).

(** *** Advancing the bounds *)

Definition candidate_min_snapshot_ts (knobs : Knobs) (max_repeatable_ts : Z) (checkpoint : option Z) (retention_type : RetentionType) : outcome persistence_error Z :=
  let delay := match retention_type with RetainDocument => DOCUMENT_RETENTION_DELAY knobs | RetainIndex => INDEX_RETENTION_DELAY knobs end in
  let? candidate := repeatable_sub max_repeatable_ts delay in
  match retention_type with
  | RetainDocument => Ret (Z.min candidate (default MIN checkpoint))
  | RetainIndex => Ret candidate
  end.

(** How a write to persistence ends; it may have failed after it was applied. *)
Inductive io := IoOk | IoLost (applied : bool).

Definition write_min_snapshot (globals : Globals) (retention_type : RetentionType) (ts : Z) : Globals :=
  match retention_type with
  | RetainDocument => MkGlobals (IndexRetentionMinSnapshotTimestamp globals) (Some ts) (IndexRetentionConfirmedDeletedTimestamp globals) (DocumentRetentionConfirmedDeletedTimestamp globals)
  | RetainIndex => MkGlobals (Some ts) (DocumentRetentionMinSnapshotTimestamp globals) (IndexRetentionConfirmedDeletedTimestamp globals) (DocumentRetentionConfirmedDeletedTimestamp globals)
  end.

Definition advance_timestamp (knobs : Knobs) (bounds : SnapshotBounds) (globals : Globals) (max_repeatable_ts : Z) (checkpoint : option Z)
    (retention_type : RetentionType) (write : io) : SnapshotBounds * Globals * outcome persistence_error (option Z) :=
  match candidate_min_snapshot_ts knobs max_repeatable_ts checkpoint retention_type with
  | Err e => (bounds, globals, Err e)
  | Panic => (bounds, globals, Panic)
  | Ret candidate =>
      let min_snapshot_ts := match retention_type with RetainDocument => min_document_snapshot_ts bounds | RetainIndex => min_index_snapshot_ts bounds end in
      if candidate <=? min_snapshot_ts then (bounds, globals, Ret None)
      else
        let written := write_min_snapshot globals retention_type candidate in
        match write with
        | IoLost applied => (bounds, if applied then written else globals, Err IoFailed)
        | IoOk =>
            let bounds := match retention_type with
              | RetainDocument => advance_min_document_snapshot_ts bounds candidate
              | RetainIndex => advance_min_snapshot_ts bounds candidate
              end in
            (bounds, written, let? _ := get_checkpoint written max_repeatable_ts retention_type in Ret (Some candidate))
        end
  end.

(** [emit_timestamp]: the watch channel that the deleters wait on. *)
Definition emit_timestamp (channel : Z) (ts : outcome persistence_error (option Z)) : Z :=
  match ts with Ret (Some ts) => ts | _ => channel end.

Definition checkpoint (globals : Globals) (checkpoints : option Z) (cursor : Z) (retention_type : RetentionType) (write : io) : Globals * option Z * outcome persistence_error unit :=
  let written := match retention_type with
    | RetainDocument => MkGlobals (IndexRetentionMinSnapshotTimestamp globals) (DocumentRetentionMinSnapshotTimestamp globals) (IndexRetentionConfirmedDeletedTimestamp globals) (Some cursor)
    | RetainIndex => MkGlobals (IndexRetentionMinSnapshotTimestamp globals) (DocumentRetentionMinSnapshotTimestamp globals) (Some cursor) (DocumentRetentionConfirmedDeletedTimestamp globals)
    end in
  match write with
  | IoOk => (written, advance_checkpoint checkpoints cursor, Ret tt)
  | IoLost applied => (if applied then written else globals, checkpoints, Err IoFailed)
  end.

(** ** Deleting *)

(** A stream that may be cut short by a failing read. *)
Definition cut {A} (lost : option nat) (s : stream A) : stream A :=
  match lost with Some n => if (n <=? length s.1)%nat then (take n s.1, Err IoFailed) else s | None => s end.

(** [partition_chunk] and [partition_document_chunk]: [hash] of the key. *)
Definition partition {A} (hash : A -> Z) (parallel : nat) (to_partition : list A) : outcome persistence_error (list (list A)) :=
  foldM (fun parts entry =>
    match parallel with
    | O => Panic
    | _ => Ret (alter (fun part => part ++ [entry]) (Z.to_nat (hash entry mod Z.of_nat parallel)) parts)
    end) (replicate parallel []) to_partition.

(** The cursor of [delete_chunk] and [delete_document_chunk]. *)
Definition chunk_cursor {A} (new_cursor : Z) (delete_chunk : list (Z * A)) : outcome persistence_error Z :=
  foldM (fun new_cursor (e : Z * A) => if MIN <? e.1 then let? ts := ts_part (pred e.1) in Ret (Z.max new_cursor ts) else Ret new_cursor) new_cursor delete_chunk.

(** One part: its rows are deleted if there are any. *)
Definition delete_part {A} (delete_rows : Store -> list A -> Store * Z) (self : Store) (new_cursor : Z) (delete_chunk : list (Z * A)) (write : io) : Store * outcome persistence_error Z :=
  match chunk_cursor new_cursor delete_chunk with
  | Ret new_cursor =>
      match delete_chunk with
      | [] => (self, Ret new_cursor)
      | _ =>
          let deleted := (delete_rows self (map snd delete_chunk)).1 in
          match write with
          | IoOk => (deleted, Ret new_cursor)
          | IoLost applied => (if applied then deleted else self, Err IoFailed)
          end
      end
  | Err e => (self, Err e)
  | Panic => (self, Panic)
  end.

(** [try_join_all] over the parts; those after a failure may have run. *)
Fixpoint delete_parts {A} (delete_rows : Store -> list A -> Store * Z) (self : Store) (new_cursor : Z) (parts : list (list (Z * A))) (writes : nat -> io) : Store * outcome persistence_error (list Z) :=
  match parts with
  | [] => (self, Ret [])
  | part :: parts =>
      let (self, r) := delete_part delete_rows self new_cursor part (writes O) in
      let (self, rs) := delete_parts delete_rows self new_cursor parts (fun n => writes (S n)) in
      (self, let? c := r in let? cs := rs in Ret (c :: cs))
  end.

Definition max_cursor (cursors : list Z) : option Z :=
  match cursors with [] => None | c :: cs => Some (fold_left Z.max cs c) end.

(** The loop of [delete] and [delete_documents] over the chunks: [select] are
    the rows to delete of a chunk, [full] when to return early with which
    count, from the rows and the items counted so far. *)
Section chunks.
Context {A B : Type} (select : list A -> list (Z * B)) (hash : Z * B -> Z) (parallel : nat)
  (delete_rows : Store -> list B -> Store * Z) (full : Z -> Z -> option Z) (snapshot_ts cursor : Z).

Fixpoint delete_loop (self : Store) (new_cursor total_expired_entries scanned : Z) (chunks : list (list A)) (ended : outcome persistence_error unit) (writes : nat -> nat -> io)
    : Store * outcome persistence_error (Z * Z) :=
  match chunks with
  | [] => (self, let? _ := ended in let? ts := repeatable_pred snapshot_ts in Ret (ts, total_expired_entries))
  | chunk :: chunks =>
      let delete_chunk := select chunk in
      let scanned := scanned + Z.of_nat (length chunk) in
      let total_expired_entries := total_expired_entries + Z.of_nat (length delete_chunk) in
      match partition hash parallel delete_chunk with
      | Err e => (self, Err e)
      | Panic => (self, Panic)
      | Ret parts =>
          let (self, results) := delete_parts delete_rows self new_cursor parts (writes O) in
          let new_cursor := let? cursors := results in match max_cursor cursors with Some c => prior_ts snapshot_ts c | None => Ret new_cursor end in
          match new_cursor with
          | Err e => (self, Err e)
          | Panic => (self, Panic)
          | Ret new_cursor =>
              match (if cursor <? new_cursor then full total_expired_entries scanned else None) with
              | Some n => (self, Ret (new_cursor, n))
              | None => delete_loop self new_cursor total_expired_entries scanned chunks ended (fun n => writes (S n))
              end
          end
      end
  end.
End chunks.

(** *** Index rows *)

Notation AllIndexes := (BTreeMap.t (list Z) ((list Z * list Z) * list FieldPath)).

(** [index_key(..).to_bytes()] of a [ResolvedDocument]. *)
Definition document_key (d : PackedDocument) (fields : list FieldPath) : outcome persistence_error (list Z) :=
  match value d with
  | Object o => let? key := resolved_index_key o (developer_id (id d)) fields in to_bytes key
  | _ => Panic
  end.

Section retention.
Context (knobs : Knobs) (sha256 : list Z -> list Z) (hash_bytes : list Z -> Z) (hash_id : list Z * list Z -> Z).

(** The entries of one index for a pair of revisions. *)
Definition expired_entries (ts prev_rev_ts : Z) (prev_rev : PackedDocument) (maybe_doc : option PackedDocument) (index : list Z * ((list Z * list Z) * list FieldPath)) : stream (Z * IndexEntry) :=
  match document_key prev_rev index.2.2 with
  | Err e => ([], Err e)
  | Panic => ([], Panic)
  | Ret index_key =>
      let key := SplitKey_new index_key in
      let entry ts deleted := MkIndexEntry index.1 (split_prefix key) (sha256 index_key) ts (split_suffix key) deleted in
      match maybe_doc with
      | None => ([(ts, entry prev_rev_ts false); (ts, entry ts true)], Ret tt)
      | Some doc =>
          match document_key doc index.2.2 with
          | Err e => ([(ts, entry prev_rev_ts false)], Err e)
          | Panic => ([(ts, entry prev_rev_ts false)], Panic)
          | Ret next_index_key =>
              (if bool_decide (index_key = next_index_key) then [(ts, entry prev_rev_ts false)]
               else [(ts, entry prev_rev_ts false); (ts, entry ts true)], Ret tt)
          end
      end
  end.

(** A pair without a previous document is skipped. *)
Definition expired_entries_of_pair (all_indexes : AllIndexes) (rev : RevisionPair) : stream (Z * IndexEntry) :=
  match pair_prev_rev rev with
  | Some (MkRevision prev_rev_ts (Some prev_rev)) =>
      stream_bind (expired_entries (revision_ts (pair_rev rev)) prev_rev_ts prev_rev (revision_document (pair_rev rev)))
        (bfilter (fun e => bool_decide (e.2.1.1 = (pair_id rev).1)) all_indexes) (Ret tt)
  | _ => ([], Ret tt)
  end.

Definition expired_index_entries (self : Store) (bounds : SnapshotBounds) (cursor min_snapshot_ts : Z) (all_indexes : AllIndexes) : stream (Z * IndexEntry) :=
  let revs := load_revision_pairs (validate_document_snapshot bounds) (DOCUMENTS_IN_MEMORY knobs) self min_snapshot_ts (range_new cursor min_snapshot_ts) Asc in
  stream_bind (expired_entries_of_pair all_indexes) revs.1 revs.2.

Definition delete (min_snapshot_ts : Z) (self : Store) (cursor : Z) (all_indexes : AllIndexes) (bounds : SnapshotBounds) (lost : option nat) (writes : nat -> nat -> io) : Store * outcome persistence_error (Z * Z) :=
  if negb (RETENTION_DELETES_ENABLED knobs) || (min_snapshot_ts =? MIN) then (self, Ret (cursor, 0))
  else
    let expired_chunks := try_chunks2 (INDEX_RETENTION_DELETE_CHUNK knobs) (cut lost (expired_index_entries self bounds cursor min_snapshot_ts all_indexes)) in
    delete_loop (fun delete_chunk => delete_chunk) (fun entry => hash_bytes (key_sha256 entry.2)) (INDEX_RETENTION_DELETE_PARALLEL knobs) delete_index_entries
      (fun total_expired_entries _ => if RETENTION_DELETE_BATCH knobs <? total_expired_entries then Some total_expired_entries else None)
      min_snapshot_ts cursor self cursor 0 0 expired_chunks.1 expired_chunks.2 writes.

(** [None] while the loop is still running after [fuel] rounds. *)
Fixpoint delete_all_no_checkpoint (fuel : nat) (cursor_ts min_snapshot_ts : Z) (self : Store) (all_indexes : AllIndexes) (bounds : SnapshotBounds) (faults : nat -> option nat * (nat -> nat -> io))
    : option (Store * outcome persistence_error unit) :=
  match fuel with
  | O => None
  | S fuel =>
      match ts_part (succ cursor_ts) with
      | Err e => Some (self, Err e)
      | Panic => Some (self, Panic)
      | Ret next =>
          if next <? min_snapshot_ts then
            let (self, r) := delete min_snapshot_ts self cursor_ts all_indexes bounds (faults O).1 (faults O).2 in
            match r with
            | Ret (new_cursor_ts, _) => delete_all_no_checkpoint fuel new_cursor_ts min_snapshot_ts self all_indexes bounds (fun n => faults (S n))
            | Err e => Some (self, Err e)
            | Panic => Some (self, Panic)
            end
          else Some (self, Ret tt)
      end
  end.

(** *** The log of documents *)

Definition expired_documents_of (rev : DocumentLogEntry) : list (Z * option (Z * InternalDocumentId)) :=
  match log_prev_ts rev with
  | None => match log_value rev with None => [(log_ts rev, Some (log_ts rev, log_id rev))] | Some _ => [(log_ts rev, None)] end
  | Some prev_rev_ts =>
      (log_ts rev, Some (prev_rev_ts, log_id rev))
        :: match log_value rev with None => [(log_ts rev, Some (log_ts rev, log_id rev))] | Some _ => [] end
  end.

Definition expired_documents (self : Store) (cursor min_document_snapshot_ts : Z) : stream (Z * option (Z * InternalDocumentId)) :=
  let revs := stream_of (load_documents (fun _ => Ret tt) self (range_new cursor min_document_snapshot_ts) Asc) in
  stream_bind (fun rev => (expired_documents_of rev, Ret tt)) revs.1 revs.2.

Definition delete_documents (min_snapshot_ts : Z) (self : Store) (cursor : Z) (lost : option nat) (writes : nat -> nat -> io) : Store * outcome persistence_error (Z * Z) :=
  if negb (RETENTION_DOCUMENT_DELETES_ENABLED knobs) || (min_snapshot_ts =? MIN) then (self, Ret (cursor, 0))
  else
    let expired_chunks := try_chunks2 (DOCUMENT_RETENTION_DELETE_CHUNK knobs) (cut lost (expired_documents self cursor min_snapshot_ts)) in
    delete_loop (filter_map (fun doc : Z * option (Z * InternalDocumentId) => option_map (pair doc.1) doc.2))
      (fun doc => hash_id doc.2.2) (DOCUMENT_RETENTION_DELETE_PARALLEL knobs) persistence_delete
      (fun _ scanned_documents => if DOCUMENT_RETENTION_MAX_SCANNED_DOCUMENTS knobs <=? scanned_documents then Some scanned_documents else None)
      min_snapshot_ts cursor self cursor 0 0 expired_chunks.1 expired_chunks.2 writes.

(** ** Which indexes are cleaned *)

(** An [_index] document: the name, and the fields of a database index with
    [retention_started] while it is backfilling. *)
Context (parse_index : PackedDocument -> option ((list Z * list Z) * option (list FieldPath * option bool))).

Definition accumulate_index_document (doc : PackedDocument) (all_indexes : AllIndexes) : outcome persistence_error AllIndexes :=
  let index_id := internal_id (developer_id (id doc)) in
  let? (name, config) := ok_or (parse_index doc) MalformedIndex in
  match config with
  | None => Ret all_indexes
  | Some (_, Some false) => Ret all_indexes
  | Some (fields, _) => Ret (BTreeMap.insert index_id (name, fields) all_indexes)
  end.

(** The map keeps what was added before an error. *)
Fixpoint accumulate_loop (index_table_id : list Z) (all_indexes : AllIndexes) (entries : list DocumentLogEntry) (ended : outcome persistence_error unit) : AllIndexes * outcome persistence_error unit :=
  match entries with
  | [] => (all_indexes, ended)
  | entry :: entries =>
      match log_value entry with
      | None => accumulate_loop index_table_id all_indexes entries ended
      | Some doc =>
          match (ensure (bool_decide (tablet_id (id doc) = index_table_id)) WrongIndexTable ;? accumulate_index_document doc all_indexes) with
          | Ret all_indexes => accumulate_loop index_table_id all_indexes entries ended
          | Err e => (all_indexes, Err e)
          | Panic => (all_indexes, Panic)
          end
      end
  end.

(** The map, the cursor and the result. *)
Definition accumulate_indexes (self : Store) (all_indexes : AllIndexes) (cursor latest_ts : Z) (index_table_id : list Z) (bounds : SnapshotBounds) (lost : option nat) : AllIndexes * Z * outcome persistence_error unit :=
  let document_stream := cut lost (stream_of (load_documents_from_table (validate_document_snapshot bounds) self index_table_id (range_new cursor latest_ts) Asc)) in
  let (all_indexes, r) := accumulate_loop index_table_id all_indexes document_stream.1 document_stream.2 in
  (all_indexes, match r with Ret _ => latest_ts | _ => cursor end, r).

(** ** The workers *)

(** The tables and globals in persistence, what the leader shares, and the
    variables of its loops. *)
Record Retention := MkRetention {
  store : Store;
  globals : Globals;
  bounds : SnapshotBounds;
  checkpoint_reader : option Z;
  document_checkpoint_reader : option Z;
  min_snapshot_rx : Z;
  min_document_snapshot_rx : Z;
  retention_indexes : AllIndexes;
  index_cursor : Z;
  cursor : Z;
  document_cursor : Z;
}.

(** One iteration of [go_advance_min_snapshot] for one of the two bounds. *)
Definition go_advance_min_snapshot (st : Retention) (max_repeatable_ts : Z) (retention_type : RetentionType) (write : io) : Retention :=
  let '(bounds, globals, ts) := advance_timestamp knobs (bounds st) (globals st) max_repeatable_ts (checkpoint_reader st) retention_type write in
  MkRetention (store st) globals bounds (checkpoint_reader st) (document_checkpoint_reader st)
    (match retention_type with RetainIndex => emit_timestamp (min_snapshot_rx st) ts | RetainDocument => min_snapshot_rx st end)
    (match retention_type with RetainDocument => emit_timestamp (min_document_snapshot_rx st) ts | RetainIndex => min_document_snapshot_rx st end)
    (retention_indexes st) (index_cursor st) (cursor st) (document_cursor st).

(** What fails in a round: reads, parts of chunks, the checkpoint; and whether
    the rate limiter lets the round checkpoint. *)
Record Faults := MkFaults {
  lost_indexes : option nat;
  lost_entries : option nat;
  lost_indexes_again : option nat;
  part_writes : nat -> nat -> io;
  checkpoint_allowed : bool;
  checkpoint_write : io;
}.

Definition waits_for (cursor min_snapshot_ts : Z) : bool := match succ_opt cursor with Some c1 => c1 <? min_snapshot_ts | None => false end.

Definition delete_indexes_round (st : Retention) (index_table_id : list Z) (first_latest_ts second_latest_ts : Z) (faults : Faults) : Retention * outcome persistence_error unit :=
  let min_snapshot_ts := min_snapshot_rx st in
  let '(all_indexes, index_cursor', r) := accumulate_indexes (store st) (retention_indexes st) (index_cursor st) first_latest_ts index_table_id (bounds st) (lost_indexes faults) in
  let upd store all_indexes index_cursor :=
    MkRetention store (globals st) (bounds st) (checkpoint_reader st) (document_checkpoint_reader st) (min_snapshot_rx st) (min_document_snapshot_rx st) all_indexes index_cursor (cursor st) (document_cursor st) in
  match r with
  | Err e => (upd (store st) all_indexes index_cursor', Err e)
  | Panic => (upd (store st) all_indexes index_cursor', Panic)
  | Ret _ =>
      let (store', r) := delete min_snapshot_ts (store st) (cursor st) all_indexes (bounds st) (lost_entries faults) (part_writes faults) in
      match r with
      | Err e => (upd store' all_indexes index_cursor', Err e)
      | Panic => (upd store' all_indexes index_cursor', Panic)
      | Ret (new_cursor, _) =>
          let index_count_before := length all_indexes in
          let '(all_indexes, index_cursor', r) := accumulate_indexes store' all_indexes index_cursor' second_latest_ts index_table_id (bounds st) (lost_indexes_again faults) in
          match r with
          | Err e => (upd store' all_indexes index_cursor', Err e)
          | Panic => (upd store' all_indexes index_cursor', Panic)
          | Ret _ =>
              if negb (length all_indexes =? index_count_before)%nat then (upd store' all_indexes index_cursor', Ret tt)
              else
                let '(globals, checkpoints, r) :=
                  if checkpoint_allowed faults then checkpoint (globals st) (checkpoint_reader st) new_cursor RetainIndex (checkpoint_write faults)
                  else (globals st, checkpoint_reader st, Ret tt) in
                (MkRetention store' globals (bounds st) checkpoints (document_checkpoint_reader st) (min_snapshot_rx st) (min_document_snapshot_rx st)
                   all_indexes index_cursor' new_cursor (document_cursor st), r)
          end
      end
  end.

(** One iteration of [go_delete_indexes]. *)
Definition go_delete_indexes (st : Retention) (index_table_id : list Z) (first_latest_ts second_latest_ts : Z) (faults : Faults) : Retention * outcome persistence_error unit :=
  if waits_for (cursor st) (min_snapshot_rx st) then delete_indexes_round st index_table_id first_latest_ts second_latest_ts faults else (st, Ret tt).

(** One iteration of [go_delete_documents]: [now] is [rt.generate_timestamp()]. *)
Definition delete_documents_round (st : Retention) (now : Z) (faults : Faults) : Retention * outcome persistence_error unit :=
  let min_document_snapshot_ts := min_document_snapshot_rx st in
  match (let? ts := ts_part (sub now (DOCUMENT_RETENTION_DELAY knobs)) in prior_ts min_document_snapshot_ts (Z.min min_document_snapshot_ts ts)) with
  | Err e => (st, Err e)
  | Panic => (st, Panic)
  | Ret max_end_cursor =>
      if max_end_cursor <=? document_cursor st then (st, Ret tt)
      else
        let (store', r) := delete_documents max_end_cursor (store st) (document_cursor st) (lost_entries faults) (part_writes faults) in
        let upd globals checkpoints cursor' :=
          MkRetention store' globals (bounds st) (checkpoint_reader st) checkpoints (min_snapshot_rx st) (min_document_snapshot_rx st) (retention_indexes st) (index_cursor st) (cursor st) cursor' in
        match r with
        | Err e => (upd (globals st) (document_checkpoint_reader st) (document_cursor st), Err e)
        | Panic => (upd (globals st) (document_checkpoint_reader st) (document_cursor st), Panic)
        | Ret (new_cursor, _) =>
            if new_cursor <? document_cursor st then (upd (globals st) (document_checkpoint_reader st) (document_cursor st), Err CursorWentBackward)
            else
              match prior_ts max_end_cursor new_cursor with
              | Ret _ =>
                  let '(globals, checkpoints, r) :=
                    if checkpoint_allowed faults then checkpoint (globals st) (document_checkpoint_reader st) new_cursor RetainDocument (checkpoint_write faults)
                    else (globals st, document_checkpoint_reader st, Ret tt) in
                  (upd globals checkpoints new_cursor, r)
              | Err e => (upd (globals st) (document_checkpoint_reader st) new_cursor, Err e)
              | Panic => (upd (globals st) (document_checkpoint_reader st) new_cursor, Panic)
              end
        end
  end.

Definition go_delete_documents (st : Retention) (now : Z) (faults : Faults) : Retention * outcome persistence_error unit :=
  if waits_for (document_cursor st) (min_document_snapshot_rx st) then delete_documents_round st now faults else (st, Ret tt).

(** *** Starting *)

(** [LeaderRetentionManager::new] and [start_retention]. *)
Definition start_retention (store : Store) (globals : Globals) (repeatable_ts max_repeatable_ts latest_ts : Z) (index_by_id index_table_id : list Z) (lost : option nat) : outcome persistence_error Retention :=
  let? bounds := load_snapshot_bounds globals repeatable_ts in
  let? meta_index_scan := index_scan (validate_snapshot bounds) store index_by_id index_table_id (min_index_snapshot_ts bounds) Interval.all Asc in
  let? all_indexes := foldM (fun indexes (rev : list Z * LatestDocument) => accumulate_index_document (latest_value rev.2) indexes) [] meta_index_scan in
  let '(all_indexes, index_cursor, r) := accumulate_indexes store all_indexes (min_index_snapshot_ts bounds) latest_ts index_table_id bounds lost in
  let? _ := r in
  let? cursor := get_checkpoint globals max_repeatable_ts RetainIndex in
  let? document_cursor := get_checkpoint globals max_repeatable_ts RetainDocument in
  Ret (MkRetention store globals bounds None None (min_index_snapshot_ts bounds) (min_document_snapshot_ts bounds) all_indexes index_cursor cursor document_cursor).
End retention.
