(* ===== verification/RetentionDeletes.v ===== *)
(** * RetentionDeletes: a round of deletions
      (src/crates/database/src/retention.rs: delete, delete_documents)

    What the loop over the chunks of a stream deletes and how far its cursor
    gets; then that deleting index rows and log entries leaves what snapshots
    in the window read. *)

From Stdlib Require Import Sorting.Sorted.
From S2P Require Import Prelude Ord BTreeMap BinaryKey Bounds Interval Timestamp Identifier Value Sorting SortingDecode Base32 IdV6 Document IndexRegistry IndexUpdates IndexKeys MemoryIndexes Persistence Retention.

Local Open Scope Z_scope.

(** ** Streams and chunks *)

Lemma stream_bind_elem {A B} (f : A -> stream B) l ended y : y ∈ (stream_bind f l ended).1 -> exists x, x ∈ l /\ y ∈ (f x).1.
Proof.
  induction l as [|x l IH]; cbn [stream_bind]; [by intros ?%elem_of_nil|]. destruct (f x) as [ys e] eqn:Hf.
  assert (Hx : y ∈ ys -> exists x', x' ∈ x :: l /\ y ∈ (f x').1) by (intros Hy; exists x; rewrite Hf; split; [left|done]).
  destruct e; [|done..]. destruct (stream_bind f l ended) as [zs e']. cbn [fst] in *. intros [Hy|Hy]%elem_of_app; [by apply Hx|].
  destruct (IH Hy) as (x' & Hx' & Hy'). exists x'. split; [by right|done].
Qed.

(** A stream that ends well has the items of all its sources. *)
Lemma stream_bind_done {A B} (f : A -> stream B) l ended :
  (stream_bind f l ended).2 = Ret tt -> ended = Ret tt /\ (forall x, x ∈ l -> (f x).2 = Ret tt) /\ (stream_bind f l ended).1 = concat (map (fun x => (f x).1) l).
Proof.
  induction l as [|x l IH]; cbn [stream_bind map concat fst snd]; [intros ->; split_and!; [done| |done]; by intros x ?%elem_of_nil|].
  destruct (f x) as [ys e] eqn:Hf. destruct e as [[]| |]; [|done..]. destruct (stream_bind f l ended) as [zs e']. cbn [fst snd] in *.
  intros H. destruct (IH H) as (-> & Hl & ->). split_and!; [done| |done]. intros x' [->|Hx']%elem_of_cons; [by rewrite Hf|by apply Hl].
Qed.

Lemma stream_bind_total {A B} (f : A -> stream B) l ended : ended = Ret tt -> (forall x, x ∈ l -> (f x).2 = Ret tt) -> (stream_bind f l ended).2 = Ret tt.
Proof.
  intros ->. induction l as [|x l IH]; intros Hl; cbn [stream_bind]; [done|]. pose proof (Hl x ltac:(left)) as Hx.
  destruct (f x) as [ys e]. cbn [snd] in Hx. subst e. destruct (stream_bind f l (Ret tt)) as [zs e']. cbn [snd] in *. apply IH. intros x' Hx'. apply Hl. by right.
Qed.

Lemma chunk_loop_spec {A} cap (l : list A) : forall items ended,
  concat (chunk_loop cap items l ended).1 `prefix_of` items ++ l /\
  (ended = Ret tt -> concat (chunk_loop cap items l ended).1 = items ++ l /\ (chunk_loop cap items l ended).2 = Ret tt) /\
  ((chunk_loop cap items l ended).2 = Ret tt -> ended = Ret tt).
Proof.
  induction l as [|x l IH]; intros items ended; cbn [chunk_loop].
  - destruct ended as [[]| |]; cbn [fst snd]; rewrite ?app_nil_r.
    + assert (Hc : concat match items with [] => [] | _ => [items] end = items) by (destruct items; cbn [concat]; by rewrite ?app_nil_r).
      rewrite Hc. split_and!; [done|by split|done].
    + split_and!; [apply prefix_nil|done..].
    + split_and!; [apply prefix_nil|done..].
  - replace (items ++ x :: l) with ((items ++ [x]) ++ l) by (by rewrite <- (assoc (++))). destruct (cap <=? _)%nat.
    + specialize (IH [] ended). destruct (chunk_loop cap [] l ended) as [cs e]. cbn [fst snd concat app] in *. destruct IH as (Hp & Hd & He).
      split_and!; [by apply prefix_app| |done]. intros ->. destruct (Hd eq_refl) as [-> ->]. done.
    + apply IH.
Qed.

Lemma try_chunks2_spec {A} cap (s : stream A) :
  concat (try_chunks2 cap s).1 `prefix_of` s.1 /\
  ((try_chunks2 cap s).2 = Ret tt -> concat (try_chunks2 cap s).1 = s.1 /\ s.2 = Ret tt) /\
  (cap <> O -> s.2 = Ret tt -> (try_chunks2 cap s).2 = Ret tt).
Proof.
  unfold try_chunks2. destruct cap as [|cap]; [split_and!; [apply prefix_nil|done..]|]. destruct (chunk_loop_spec (S cap) s.1 [] s.2) as (Hp & Hd & He).
  split_and!; [done| |]; [intros H; split; [by apply Hd, He|by apply He]|]. intros _ H. by apply Hd.
Qed.

Lemma cut_prefix {A} lost (s : stream A) : (cut lost s).1 `prefix_of` s.1 /\ ((cut lost s).2 = Ret tt -> cut lost s = s).
Proof.
  unfold cut. destruct lost as [n|]; [|done]. destruct (n <=? length s.1)%nat; [|done]. cbn [fst snd]. split; [|done].
  exists (drop n s.1). by rewrite take_drop.
Qed.

(** ** Parts *)

Lemma partition_ret {A} (hash : A -> Z) parallel l : parallel <> O -> exists parts, partition hash parallel l = Ret parts.
Proof.
  intros Hp. unfold partition. destruct (foldM_inv (E := persistence_error) (fun _ : list (list A) => True)
    (fun parts entry => match parallel with O => Panic | _ => Ret (alter (fun part => part ++ [entry]) (Z.to_nat (hash entry mod Z.of_nat parallel)) parts) end) l (replicate parallel [])) as (parts & H & _); [done| |eauto].
  intros s x _ _. destruct parallel; [done|eauto].
Qed.

Lemma concat_alter {A} (parts : list (list A)) n x y : (n < length parts)%nat ->
  y ∈ concat (alter (fun part => part ++ [x]) n parts) <-> y ∈ concat parts \/ y = x.
Proof.
  revert n. induction parts as [|p parts IH]; intros n Hn; cbn [length] in Hn; [lia|]. destruct n as [|n]; cbn [alter list_alter concat].
  - rewrite !elem_of_app, list_elem_of_singleton. tauto.
  - rewrite !elem_of_app. change (list_alter _ n parts) with (alter (fun part => part ++ [x]) n parts). rewrite IH by lia. tauto.
Qed.

(** Every entry is in a part. *)
Lemma partition_elem {A} (hash : A -> Z) parallel l parts : partition hash parallel l = Ret parts -> length parts = parallel /\ forall x, x ∈ concat parts <-> x ∈ l.
Proof.
  unfold partition. assert (Hgen : forall acc, length acc = parallel -> foldM (E := persistence_error) (fun parts entry => match parallel with O => Panic | _ =>
      Ret (alter (fun part => part ++ [entry]) (Z.to_nat (hash entry mod Z.of_nat parallel)) parts) end) acc l = Ret parts ->
    length parts = parallel /\ forall x, x ∈ concat parts <-> x ∈ concat acc \/ x ∈ l).
  { induction l as [|y l IH]; intros acc Hacc; cbn [foldM]; [intros [= ->]; split; [done|]; intros x; rewrite elem_of_nil; tauto|].
    destruct parallel as [|n] eqn:Hn; [done|]. cbn [obind]. intros H. apply IH in H as [Hlen Hel]; [|by rewrite length_alter]. split; [done|]. intros x.
    rewrite Hel, concat_alter, elem_of_cons; [tauto|]. rewrite Hacc. pose proof (Z.mod_pos_bound (hash y) (Z.of_nat (S n))). lia. }
  intros H. apply Hgen in H as [Hlen Hel]; [|by rewrite length_replicate]. split; [done|]. intros x. rewrite Hel.
  assert (Hnil : forall n, concat (replicate n []) = ([] : list A)) by (intros n; by induction n). rewrite Hnil, elem_of_nil. tauto.
Qed.

(** ** The loop over the chunks *)

Section loop.
Context {A B : Type} (delete_rows : Store -> list B -> Store * Z).

(** Deletions of rows that satisfy [P]. *)
Inductive deletes (P : B -> Prop) : Store -> Store -> Prop :=
| deletes_none S : deletes P S S
| deletes_some S bs S' : (forall b, b ∈ bs -> P b) -> deletes P (delete_rows S bs).1 S' -> deletes P S S'.

Lemma deletes_trans P S1 S2 S3 : deletes P S1 S2 -> deletes P S2 S3 -> deletes P S1 S3.
Proof. induction 1 as [|S bs S' Hbs _ IH]; [done|]. intros H. apply (deletes_some _ _ bs); [done|by apply IH]. Qed.

Lemma deletes_one (P : B -> Prop) S bs : (forall b, b ∈ bs -> P b) -> deletes P S (delete_rows S bs).1.
Proof. intros H. apply (deletes_some _ _ bs); [done|constructor]. Qed.

Lemma deletes_mono (P P' : B -> Prop) S S' : (forall b, P b -> P' b) -> deletes P S S' -> deletes P' S S'.
Proof. intros HP. induction 1 as [|S bs S' Hbs _ IH]; [constructor|]. apply (deletes_some _ _ bs); [|done]. intros b Hb. by apply HP, Hbs. Qed.

Lemma deletes_inv (P : B -> Prop) (I : Store -> Prop) S S' :
  (forall S bs, (forall b, b ∈ bs -> P b) -> I S -> I (delete_rows S bs).1) -> deletes P S S' -> I S -> I S'.
Proof. intros HI. induction 1 as [|S bs S' Hbs _ IH]; [done|]. intros HS. by apply IH, HI. Qed.

(** [gone b] holds once [b] is deleted. *)
Context (gone : B -> Store -> Prop)
  (gone_after : forall S bs b, b ∈ bs -> gone b (delete_rows S bs).1)
  (gone_still : forall S bs b, gone b S -> gone b (delete_rows S bs).1).

Lemma gone_deletes P S S' b : deletes P S S' -> gone b S -> gone b S'.
Proof using gone_still. apply deletes_inv. intros. by apply gone_still. Qed.

(** Where a cursor can be after some items. *)
Definition cursor_from (c : Z) (l : list (Z * B)) (c' : Z) : Prop := c <= c' /\ (c' = c \/ exists e, e ∈ l /\ c' = e.1 - 1).

Lemma chunk_cursor_ret (l : list (Z * B)) : forall c, exists c', chunk_cursor c l = Ret c' /\ cursor_from c l c'.
Proof.
  unfold chunk_cursor, cursor_from. induction l as [|[s b] l IH]; intros c; cbn [foldM]; [exists c; split_and!; [done|lia|by left]|].
  cbn [fst]. destruct (Z.ltb_spec MIN s) as [Hs|Hs].
  - assert (Hp : pred s = Ret (s - 1)) by (unfold pred, pred_opt; by rewrite (proj2 (Z.leb_gt _ _))). rewrite Hp. cbn [ts_part obind]. destruct (IH (Z.max c (s - 1))) as (c' & -> & Hle & Hc).
    exists c'. split_and!; [done|lia|]. destruct Hc as [->|(e & He & ->)]; [|right; exists e; split; [by right|done]].
    destruct (Z.max_spec c (s - 1)) as [[_ ->]|[_ ->]]; [right; exists (s, b); by split; [left|]|by left].
  - cbn [obind]. destruct (IH c) as (c' & -> & Hle & Hc). exists c'. split_and!; [done..|]. destruct Hc as [->|(e & He & ->)]; [by left|]. right. exists e. split; [by right|done].
Qed.

Lemma delete_part_spec S c (part : list (Z * B)) w :
  let '(S', r) := delete_part delete_rows S c part w in
  deletes (fun b => exists s, (s, b) ∈ part) S S' /\
  match r with Ret c' => cursor_from c part c' /\ forall s b, (s, b) ∈ part -> gone b S' | Err e => e = IoFailed /\ w <> IoOk | Panic => False end.
Proof using gone_after.
  unfold delete_part. destruct (chunk_cursor_ret part c) as (c' & -> & Hc).
  destruct part as [|x part]; [split_and!; [constructor|done|]; by intros s b ?%elem_of_nil|]. set (l := x :: part) in *.
  assert (Hd : deletes (fun b => exists s, (s, b) ∈ l) S (delete_rows S (map snd l)).1).
  { apply deletes_one. intros b ([s b'] & -> & Hin)%list_elem_of_fmap. eauto. }
  destruct w as [|[|]]; [|split; [done|by split]|split; [constructor|by split]]. split_and!; [done..|]. intros s b Hin. apply gone_after.
  apply list_elem_of_fmap. by exists (s, b).
Qed.

Lemma delete_parts_spec (parts : list (list (Z * B))) : forall S c writes,
  let '(S', r) := delete_parts delete_rows S c parts writes in
  deletes (fun b => exists s, (s, b) ∈ concat parts) S S' /\
  match r with
  | Ret cs => length cs = length parts /\ (forall c', c' ∈ cs -> cursor_from c (concat parts) c') /\ forall s b, (s, b) ∈ concat parts -> gone b S'
  | Err e => e = IoFailed /\ exists n, writes n <> IoOk
  | Panic => False
  end.
Proof using gone_after gone_still.
  induction parts as [|part parts IH]; intros S c writes; cbn [delete_parts concat].
  { split; [constructor|]. split_and!; [done| |]; [by intros c' ?%elem_of_nil|by intros s b ?%elem_of_nil]. }
  pose proof (delete_part_spec S c part (writes O)) as H1. destruct (delete_part delete_rows S c part (writes O)) as [S1 r1]. destruct H1 as [Hd1 Hr1].
  specialize (IH S1 c (fun n => writes (Datatypes.S n))). destruct (delete_parts delete_rows S1 c parts _) as [S2 r2]. destruct IH as [Hd2 Hr2].
  split.
  { eapply deletes_trans; (eapply deletes_mono; [|eassumption]); intros b (s & Hs); exists s; apply elem_of_app; [by left|by right]. }
  destruct r1 as [c1|e|]; cbn [obind]; [|by destruct Hr1 as [-> ?]; eauto|done].
  destruct r2 as [cs|e|]; cbn [obind]; [|by destruct Hr2 as (-> & n & ?); eauto|done].
  destruct Hr1 as [Hc1 Hg1], Hr2 as (Hlen & Hcs & Hg2). split_and!; [cbn [length]; lia| |].
  - assert (Hmono : forall c' l, cursor_from c l c' -> (forall e, e ∈ l -> e ∈ part ++ concat parts) -> cursor_from c (part ++ concat parts) c').
    { intros c' l [Hle [->|(e & He & ->)]] Hl; (split; [done|]); [by left|right; eauto]. }
    intros c' [->|Hc']%elem_of_cons; [apply (Hmono _ part Hc1)|apply (Hmono _ (concat parts) (Hcs _ Hc'))]; intros e He; apply elem_of_app; [by left|by right].
  - intros s b [Hin|Hin]%elem_of_app; [|by apply (Hg2 s)]. apply (gone_deletes _ _ _ _ Hd2). by apply (Hg1 s).
Qed.

Lemma max_cursor_spec cs : match max_cursor cs with Some c => c ∈ cs | None => cs = [] end.
Proof.
  destruct cs as [|c cs]; cbn [max_cursor]; [done|]. revert c. induction cs as [|d cs IH]; intros c; cbn [fold_left]; [left|].
  specialize (IH (Z.max c d)). rewrite !elem_of_cons in *. destruct IH as [->|IH]; [|auto]. destruct (Z.max_spec c d) as [[_ ->]|[_ ->]]; auto.
Qed.

Context (select : list A -> list (Z * B)) (hash : Z * B -> Z) (parallel : nat) (full : Z -> Z -> option Z) (snapshot_ts cursor : Z).

Definition selected (chunks : list (list A)) : list (Z * B) := concat (map select chunks).

(** The rows that are deleted are selected.  A result [c] is the end of the
    window when every chunk was processed, and otherwise just before an item of
    the chunks that were. *)
Lemma delete_loop_spec chunks : forall S nc total scanned ended writes,
  let '(S', r) := delete_loop select hash parallel delete_rows full snapshot_ts cursor S nc total scanned chunks ended writes in
  deletes (fun b => exists s, (s, b) ∈ selected chunks) S S' /\
  match r with
  | Ret (c, _) =>
      ended = Ret tt /\ c = snapshot_ts - 1 /\ (forall s b, (s, b) ∈ selected chunks -> gone b S') \/
      exists chunks1 chunks2, chunks = chunks1 ++ chunks2 /\ cursor < c /\ cursor_from nc (selected chunks1) c /\ (forall s b, (s, b) ∈ selected chunks1 -> gone b S')
  | Err _ => True
  | Panic => parallel = O \/ ended = Panic
  end.
Proof using gone_after gone_still.
  induction chunks as [|chunk chunks IH]; intros S nc total scanned ended writes; cbn [delete_loop].
  { split; [constructor|]. destruct ended as [[]| |]; cbn [obind]; [|done|by right]. unfold repeatable_pred, pred, pred_opt. destruct (snapshot_ts <=? MIN); cbn [ok_or ts_part obind]; [done|].
    unfold prior_ts. rewrite (proj2 (Z.leb_le _ _)) by lia. cbn [obind]. left. split_and!; [done..|]. intros s b Hin. by apply elem_of_nil in Hin. }
  destruct (partition hash parallel (select chunk)) as [parts|e|] eqn:Hpart; [|by split; [constructor|]|].
  2:{ split; [constructor|]. left. destruct (decide (parallel = O)) as [|Hne]; [done|]. destruct (partition_ret hash parallel (select chunk) Hne) as (? & Hr). congruence. }
  apply partition_elem in Hpart as [Hlen Hel]. pose proof (delete_parts_spec parts S nc (writes O)) as Hp.
  destruct (delete_parts delete_rows S nc parts (writes O)) as [S1 r1]. destruct Hp as [Hd1 Hr1].
  assert (Hd1' : deletes (fun b => exists s, (s, b) ∈ selected (chunk :: chunks)) S S1).
  { eapply deletes_mono; [|exact Hd1]. intros b (s & Hs). exists s. unfold selected. cbn [map concat]. apply elem_of_app. left. by apply Hel. }
  destruct r1 as [cs|e|]; cbn [obind]; [|by split|done]. destruct Hr1 as (_ & Hcs & Hg1).
  set (nc' := match max_cursor cs with Some c => prior_ts snapshot_ts c | None => Ret nc end).
  assert (Hnc : match nc' with Ret c => cursor_from nc (select chunk) c | Err _ => True | Panic => False end).
  { unfold nc'. pose proof (max_cursor_spec cs) as Hm. destruct (max_cursor cs) as [c|]; [|split; [lia|by left]]. unfold prior_ts. destruct (c <=? snapshot_ts); [|done].
    destruct (Hcs c Hm) as [Hle [->|(e & He & ->)]]; (split; [done|]); [by left|right]. exists e. split; [by apply Hel|done]. }
  destruct nc' as [c1|e|]; [|by split|done]. assert (Hg : forall s b, (s, b) ∈ select chunk -> gone b S1) by (intros s b Hin; apply (Hg1 s), Hel, Hin).
  destruct (if cursor <? c1 then full _ _ else None) as [n|] eqn:Hfull.
  { split; [done|]. right. exists [chunk], chunks. unfold selected. cbn [map concat app]. rewrite app_nil_r. split_and!; [done| |done|done].
    destruct (Z.ltb_spec cursor c1); [done|discriminate Hfull]. }
  specialize (IH S1 c1 (total + Z.of_nat (length (select chunk))) (scanned + Z.of_nat (length chunk)) ended (fun n => writes (Datatypes.S n))).
  destruct (delete_loop _ _ _ _ _ _ _ S1 c1 _ _ chunks ended _) as [S2 r2]. destruct IH as [Hd2 Hr2]. split.
  { eapply deletes_trans; [exact Hd1'|]. eapply deletes_mono; [|exact Hd2]. intros b (s & Hs). exists s. unfold selected. cbn [map concat]. apply elem_of_app. by right. }
  destruct r2 as [[c n]|e|]; [|done..]. assert (Hg' : forall s b, (s, b) ∈ select chunk -> gone b S2) by (intros s b Hin; apply (gone_deletes _ _ _ _ Hd2), (Hg s b Hin)).
  destruct Hr2 as [(-> & -> & Hall)|(ch1 & ch2 & -> & Hlt & [Hle Hc] & Hall)]; [left|right].
  - split_and!; [done..|]. intros s b [Hin|Hin]%elem_of_app; [by apply (Hg' s)|by apply (Hall s)].
  - exists (chunk :: ch1), ch2. destruct Hnc as [Hle' Hc']. split_and!; [done..| |].
    + split; [lia|]. destruct Hc as [->|(e & He & ->)]; [|right; exists e; split; [apply elem_of_app; by right|done]].
      destruct Hc' as [->|(e & He & ->)]; [by left|]. right. exists e. split; [apply elem_of_app; by left|done].
    + intros s b [Hin|Hin]%elem_of_app; [by apply (Hg' s)|by apply (Hall s)].
Qed.
(** Without failures the loop returns. *)
Lemma delete_loop_ret chunks : forall S nc total scanned writes, parallel <> O -> MIN < snapshot_ts -> nc <= snapshot_ts ->
  (forall x, x ∈ selected chunks -> x.1 - 1 <= snapshot_ts) -> (forall n i, writes n i = IoOk) ->
  exists c n, (delete_loop select hash parallel delete_rows full snapshot_ts cursor S nc total scanned chunks (Ret tt) writes).2 = Ret (c, n).
Proof using gone gone_after gone_still.
  induction chunks as [|chunk chunks IH]; intros S nc total scanned writes Hp Hs Hnc Hsel Hw; cbn [delete_loop].
  { cbn [obind snd]. unfold repeatable_pred, pred, pred_opt. rewrite (proj2 (Z.leb_gt _ _)) by done. cbn [ok_or ts_part obind]. unfold prior_ts. rewrite (proj2 (Z.leb_le _ _)) by lia. cbn [obind]. eauto. }
  destruct (partition_ret hash parallel (select chunk) Hp) as (parts & Hpart). rewrite Hpart. apply partition_elem in Hpart as [_ Hel].
  pose proof (delete_parts_spec parts S nc (writes O)) as Hd. destruct (delete_parts delete_rows S nc parts (writes O)) as [S1 r1]. destruct Hd as [_ Hr].
  destruct r1 as [cs|e|]; [|by destruct Hr as (_ & n & []); apply Hw|done]. cbn [obind]. destruct Hr as (_ & Hcs & _).
  assert (Hcur : exists nc', match max_cursor cs with Some c => prior_ts snapshot_ts c | None => Ret nc end = Ret nc' /\ nc' <= snapshot_ts).
  { pose proof (max_cursor_spec cs) as Hm. destruct (max_cursor cs) as [c|]; [|eauto]. assert (Hle : c <= snapshot_ts).
    { destruct (Hcs c Hm) as [_ [->|(e & He & ->)]]; [done|]. apply Hsel. unfold selected. cbn [map concat]. apply elem_of_app. left. by apply Hel. }
    unfold prior_ts. rewrite (proj2 (Z.leb_le _ _)) by done. eauto. }
  destruct Hcur as (nc' & -> & Hnc'). destruct (if cursor <? nc' then _ else None) as [n|]; [cbn [snd]; eauto|].
  apply IH; [done..| |by intros; apply Hw]. intros x Hx. apply Hsel. unfold selected. cbn [map concat]. apply elem_of_app. by right.
Qed.
End loop.

(** ** Reading the log in pairs *)

Lemma exact_rev_Some S i t e : exact_rev S i t = Some e <-> exists v p, BTreeMap.get (t, i) (documents S) = Some (v, p) /\ e = MkLogEntry t i v p.
Proof.
  unfold exact_rev. destruct (BTreeMap.get (t, i) (documents S)) as [[v p]|]; cbn [option_map row_to_document fst snd].
  - split; [intros [= <-]; by exists v, p|]. by intros (? & ? & [= <- <-] & ->).
  - by split; [|intros (? & ? & ? & _)].
Qed.

Lemma prev_revs_get S ids : forall out, BTreeMap.wf out ->
  let out' := fold_left (fun out (q : DocumentPrevTsQuery) => match exact_rev S q.1 q.2.2 with Some e => BTreeMap.insert (log_id e, (q.2.1, log_ts e)) e out | None => out end) ids out in
  BTreeMap.wf out' /\ forall q, BTreeMap.get q out' = if bool_decide (q ∈ ids) then match exact_rev S q.1 q.2.2 with Some e => Some e | None => BTreeMap.get q out end else BTreeMap.get q out.
Proof.
  induction ids as [|q0 ids IH]; intros out Hwf; cbn [fold_left]; [by split|].
  destruct (exact_rev S q0.1 q0.2.2) as [e0|] eqn:He.
  - destruct (IH (BTreeMap.insert (log_id e0, (q0.2.1, log_ts e0)) e0 out)) as [Hwf' Hget]; [by apply BTreeMap.wf_insert|]. split; [done|]. intros q. rewrite Hget.
    assert (Hk : (log_id e0, (q0.2.1, log_ts e0)) = q0).
    { apply exact_rev_Some in He as (v & p & _ & ->). by destruct q0 as [? [? ?]]. }
    rewrite Hk, BTreeMap.get_insert_if by done. destruct (decide (q = q0)) as [->|Hne].
    + rewrite (bool_decide_eq_true_2 (q0 ∈ q0 :: ids)) by left. rewrite He. by case_bool_decide.
    + rewrite (bool_decide_ext (q ∈ q0 :: ids) (q ∈ ids)); [done|]. rewrite elem_of_cons. naive_solver.
  - destruct (IH out Hwf) as [Hwf' Hget]. split; [done|]. intros q. rewrite Hget. destruct (decide (q = q0)) as [->|Hne].
    + rewrite (bool_decide_eq_true_2 (q0 ∈ q0 :: ids)) by left. rewrite He. by case_bool_decide.
    + rewrite (bool_decide_ext (q ∈ q0 :: ids) (q ∈ ids)); [done|]. rewrite elem_of_cons. naive_solver.
Qed.

Lemma previous_revisions_get validate S ids out :
  previous_revisions_of_documents validate S ids = Ret out -> BTreeMap.wf out /\ forall q e, (BTreeMap.get q out = Some e <-> q ∈ ids /\ exact_rev S q.1 q.2.2 = Some e).
Proof.
  unfold previous_revisions_of_documents. destruct (prev_revs_get S ids [] I) as [Hwf Hget]. intros H. destruct_outcome. split; [done|]. intros q e. rewrite Hget. case_bool_decide as Hin.
  - destruct (exact_rev S q.1 q.2.2); [|by split; [|intros [_ ?]]]. split; [by intros [= <-]|]. by intros [_ [= <-]].
  - by split; [|intros [? _]].
Qed.

(** A pair holds an entry of the log and, if it was found, the one before it. *)
Definition pair_sound (D : Documents) (p : RevisionPair) : Prop :=
  BTreeMap.get (revision_ts (pair_rev p), pair_id p) D = Some (revision_document (pair_rev p), option_map revision_ts (pair_prev_rev p)) /\
  forall r d, pair_prev_rev p = Some r -> revision_document r = Some d -> exists q, BTreeMap.get (revision_ts r, pair_id p) D = Some (Some d, q).

Lemma pair_loop_sound S chunk : forall prev_revs p, BTreeMap.wf prev_revs ->
  (forall q e, BTreeMap.get q prev_revs = Some e -> exact_rev S q.1 q.2.2 = Some e) ->
  (forall e, e ∈ chunk -> BTreeMap.get (log_ts e, log_id e) (documents S) = Some (log_value e, log_prev_ts e)) ->
  p ∈ (pair_loop prev_revs chunk).1 -> pair_sound (documents S) p /\ exists e, e ∈ chunk /\ log_ts e = revision_ts (pair_rev p).
Proof.
  induction chunk as [|e chunk IH]; intros prev_revs p Hwf Hq He; cbn [pair_loop]; [by intros ?%elem_of_nil|].
  pose proof (He e ltac:(left)) as Hg. assert (Hrest : forall prev_revs', BTreeMap.wf prev_revs' -> (forall q e, BTreeMap.get q prev_revs' = Some e -> exact_rev S q.1 q.2.2 = Some e) ->
    p ∈ (pair_loop prev_revs' chunk).1 -> pair_sound (documents S) p /\ exists e', e' ∈ e :: chunk /\ log_ts e' = revision_ts (pair_rev p)).
  { intros m Hm Hm' Hin. destruct (IH m p Hm Hm') as [Hs (e' & He' & Ht)]; [intros e' He'; apply He; by right|done|]. split; [done|]. exists e'. split; [by right|done]. }
  destruct (log_prev_ts e) as [prev|] eqn:Hp.
  - set (q := (log_id e, (log_ts e, prev))). intros Hin.
    assert (Hin' : exists doc, (forall d, doc = Some d -> exists x, BTreeMap.get (prev, log_id e) (documents S) = Some (Some d, x)) /\
      (p = MkRevisionPair (log_id e) (MkRevision (log_ts e) (log_value e)) (Some (MkRevision prev doc)) \/ p ∈ (pair_loop (BTreeMap.remove q prev_revs) chunk).1)).
    { destruct (BTreeMap.get q prev_revs) as [[t i [d|] x]|] eqn:Hqe.
      - exists (Some d). apply Hq, exact_rev_Some in Hqe as (v & y & Hget & [= -> -> <- ->]). cbn [fst snd q] in Hget. split; [intros ? [= <-]; by eexists|].
        destruct (pair_loop _ chunk). cbn [fst] in *. by apply elem_of_cons in Hin.
      - by apply elem_of_nil in Hin.
      - exists None. split; [done|]. destruct (pair_loop _ chunk). cbn [fst] in *. by apply elem_of_cons in Hin. }
    destruct Hin' as (doc & Hdoc & [->|Hin']).
    + split; [|exists e; by split; [left|]]. split; [done|]. intros r d [= <-] Hd. by apply Hdoc.
    + apply (Hrest _ (BTreeMap.wf_remove _ q Hwf)) in Hin'; [done|]. intros q' e' Hg'. apply Hq. by eapply BTreeMap.get_remove_Some.
  - destruct (pair_loop prev_revs chunk) as [pairs r] eqn:Hl. cbn [fst]. intros [->|Hin]%elem_of_cons; [|apply (Hrest prev_revs Hwf Hq); by rewrite Hl].
    split; [|exists e; by split; [left|]]. split; [done|]. by intros ? ? [=].
Qed.

Definition pair_of (D : Documents) (e : DocumentLogEntry) : RevisionPair :=
  MkRevisionPair (log_id e) (MkRevision (log_ts e) (log_value e))
    (option_map (fun p => MkRevision p match BTreeMap.get (p, log_id e) D with Some (v, _) => v | None => None end) (log_prev_ts e)).

(** The previous revisions are found when the log still has them. *)
Definition has_prev (D : Documents) (e : DocumentLogEntry) : Prop :=
  forall p, log_prev_ts e = Some p -> exists d q, BTreeMap.get (p, log_id e) D = Some (Some d, q).

Lemma pair_loop_complete S chunk : forall prev_revs, BTreeMap.wf prev_revs ->
  NoDup (map (fun e => (log_ts e, log_id e)) chunk) -> (forall e, e ∈ chunk -> has_prev (documents S) e) ->
  (forall e p, e ∈ chunk -> log_prev_ts e = Some p -> BTreeMap.get (log_id e, (log_ts e, p)) prev_revs = exact_rev S (log_id e) p) ->
  pair_loop prev_revs chunk = (map (pair_of (documents S)) chunk, Ret tt).
Proof.
  induction chunk as [|e chunk IH]; intros m Hwf Hnd Hp Hm; cbn [pair_loop map]; [done|]. cbn [map] in Hnd. apply NoDup_cons in Hnd as [Hne Hnd].
  assert (Hrest : forall m', BTreeMap.wf m' -> (forall e' p, e' ∈ chunk -> log_prev_ts e' = Some p -> BTreeMap.get (log_id e', (log_ts e', p)) m' = exact_rev S (log_id e') p) ->
    pair_loop m' chunk = (map (pair_of (documents S)) chunk, Ret tt)).
  { intros m' Hw' Hm'. apply IH; [done..| |done]. intros e' He'. apply Hp. by right. }
  unfold pair_of at 1. destruct (log_prev_ts e) as [p|] eqn:Hpe; cbn [option_map].
  - rewrite (Hm e p ltac:(left) Hpe). destruct (Hp e ltac:(left) p Hpe) as (d & q & Hg). unfold exact_rev. rewrite Hg. cbn [option_map row_to_document fst snd log_value].
    rewrite Hrest; [done|by apply BTreeMap.wf_remove|]. intros e' p' He' Hpe'. rewrite BTreeMap.get_remove_ne; [apply Hm; [by right|done]|done|].
    intros [= Hi Ht _]. apply Hne. apply list_elem_of_fmap. exists e'. by rewrite Hi, Ht.
  - rewrite Hrest; [done..|]. intros e' p' He'. apply Hm. by right.
Qed.

Lemma elem_of_queries chunk q : q ∈ prev_ts_queries chunk <-> exists e, e ∈ chunk /\ log_id e = q.1 /\ log_ts e = q.2.1 /\ log_prev_ts e = Some q.2.2.
Proof.
  unfold prev_ts_queries. rewrite elem_of_filter_map. split.
  - intros (e & He & Hq). destruct (log_prev_ts e) as [p|] eqn:Hp; [|done]. injection Hq as <-. by exists e.
  - intros (e & He & Hi & Ht & Hp). exists e. split; [done|]. rewrite Hp. cbn [option_map]. rewrite Hi, Ht. by destruct q as [? [? ?]].
Qed.

(** The revisions before the entries of a chunk are read at their timestamps. *)
Lemma previous_revisions_ret validate S chunk :
  (forall e, e ∈ chunk -> validate (log_ts e) = Ret tt) -> exists out, previous_revisions_of_documents validate S (prev_ts_queries chunk) = Ret out.
Proof.
  intros Hv. unfold previous_revisions_of_documents. set (ids := prev_ts_queries chunk).
  assert (Hmin : forall l m, (forall q, q ∈ l -> q ∈ ids) -> (forall t, m = Some t -> validate t = Ret tt) ->
    forall t, fold_left (fun m (q : DocumentPrevTsQuery) => Some match m with Some m => Z.min m q.2.1 | None => q.2.1 end) l m = Some t -> validate t = Ret tt).
  { induction l as [|q l IH]; intros m Hl Hm; cbn [fold_left]; [done|]. apply IH; [intros q' Hq'; apply Hl; by right|]. intros t [= <-].
    assert (Hq : validate q.2.1 = Ret tt) by (destruct (proj1 (elem_of_queries chunk q)) as (e & He & _ & <- & _); [apply Hl; left|by apply Hv]).
    destruct m as [m|]; [|done]. destruct (Z.min_spec m q.2.1) as [[_ ->]|[_ ->]]; [by apply Hm|done]. }
  destruct (fold_left _ ids None) as [t|] eqn:Hf; cbn [obind]; [|eauto]. rewrite (Hmin ids None); [cbn [obind]; eauto|done|done|done].
Qed.

Lemma pairs_of_chunk_complete validate S chunk :
  NoDup (map (fun e => (log_ts e, log_id e)) chunk) -> (forall e, e ∈ chunk -> has_prev (documents S) e /\ validate (log_ts e) = Ret tt) ->
  revision_pairs_of_chunk validate S chunk = (map (pair_of (documents S)) chunk, Ret tt).
Proof.
  intros Hnd He. unfold revision_pairs_of_chunk. destruct (previous_revisions_ret validate S chunk) as (out & Hout); [intros e Hin; by apply He|]. rewrite Hout.
  apply pair_loop_complete; [by apply (previous_revisions_get validate S _ out Hout)|done|intros e Hin; by apply He|].
  intros e p Hin Hp. destruct (proj1 (He e Hin) p Hp) as (d & q & Hg). unfold exact_rev. rewrite Hg. cbn [option_map].
  apply (previous_revisions_get validate S _ out Hout). split; [apply elem_of_queries; by exists e|]. unfold exact_rev. cbn [fst snd]. by rewrite Hg.
Qed.

Lemma NoDup_concat_elem {A B} (f : A -> B) (ls : list (list A)) l : NoDup (map f (concat ls)) -> l ∈ ls -> NoDup (map f l).
Proof.
  induction ls as [|k ls IH]; cbn [concat]; [by intros _ ?%elem_of_nil|]. rewrite map_app, NoDup_app. intros (H1 & _ & H2) [->|Hin]%elem_of_cons; [done|by apply IH].
Qed.

Lemma revision_pairs_complete cap validate S L :
  cap <> O -> NoDup (map (fun e => (log_ts e, log_id e)) L) -> (forall e, e ∈ L -> has_prev (documents S) e /\ validate (log_ts e) = Ret tt) ->
  stream_revision_pairs validate cap S (L, Ret tt) = (map (pair_of (documents S)) L, Ret tt).
Proof.
  intros Hcap Hnd He. unfold stream_revision_pairs. destruct (try_chunks2_spec cap (L, Ret tt)) as (_ & Hc & Hr). specialize (Hr Hcap eq_refl). destruct (Hc Hr) as [Hcat _]. cbn [fst snd] in Hcat.
  destruct (try_chunks2 cap (L, Ret tt)) as [chunks ended]. cbn [fst snd] in *. subst L ended.
  assert (Hch : forall chunk, chunk ∈ chunks -> revision_pairs_of_chunk validate S chunk = (map (pair_of (documents S)) chunk, Ret tt)).
  { intros chunk Hin. apply pairs_of_chunk_complete; [by eapply NoDup_concat_elem|]. intros e Hin'. apply He. apply list_elem_of_In, in_concat. exists chunk. split; by apply list_elem_of_In. }
  assert (Hend : (stream_bind (revision_pairs_of_chunk validate S) chunks (Ret tt)).2 = Ret tt) by (apply stream_bind_total; [done|]; intros x Hx; by rewrite Hch).
  destruct (stream_bind_done _ _ _ Hend) as (_ & _ & Hitems). destruct (stream_bind (revision_pairs_of_chunk validate S) chunks (Ret tt)) as [items ended]. cbn [fst snd] in *. subst items ended. f_equal.
  rewrite concat_map. f_equal. apply map_ext_in. intros chunk Hin. rewrite Hch; [done|by apply list_elem_of_In].
Qed.

Lemma revision_pairs_sound cap validate S docs p :
  (forall e, e ∈ docs.1 -> BTreeMap.get (log_ts e, log_id e) (documents S) = Some (log_value e, log_prev_ts e)) ->
  p ∈ (stream_revision_pairs validate cap S docs).1 -> pair_sound (documents S) p /\ exists e, e ∈ docs.1 /\ log_ts e = revision_ts (pair_rev p).
Proof.
  intros He Hp. apply stream_bind_elem in Hp as (chunk & Hchunk & Hp). destruct (try_chunks2_spec cap docs) as ([rest Hpre] & _).
  assert (Hsub : forall e, e ∈ chunk -> e ∈ docs.1).
  { intros e Hin. rewrite Hpre. apply elem_of_app. left. apply list_elem_of_In, in_concat. exists chunk. split; by apply list_elem_of_In. }
  unfold revision_pairs_of_chunk in Hp. destruct (previous_revisions_of_documents _ _ _) as [out|e|] eqn:Hout; [|by apply elem_of_nil in Hp..].
  apply pair_loop_sound with (S := S) in Hp as [Hs (e & Hin & Ht)]; [split; [done|]; exists e; split; [by apply Hsub|done]| | |intros e Hin; by apply He, Hsub].
  - by apply (previous_revisions_get validate S _ out Hout).
  - intros q e Hq. by apply (previous_revisions_get validate S _ out Hout) in Hq as [_ ?].
Qed.

(** ** The window of the log that is scanned *)

Definition window (D : Documents) (c m : Z) : list DocumentLogEntry := map row_to_document (bfilter (fun e => (c <=? e.1.1) && (e.1.1 <? m)) D).

Lemma load_window S c m : MIN <= c -> MIN < m <= MAX ->
  load_docs S (range_new c m) Asc = window (documents S) c m /\ load_docs S (intersect (range_new c m) (range_snapshot m)) Asc = window (documents S) c m /\
  min_timestamp_inclusive (range_new c m) = c /\ min_timestamp_inclusive (intersect (range_new c m) (range_snapshot m)) = c.
Proof.
  intros Hc Hm. assert (Hr : range_new c m = MkRange c (m - 1)) by (unfold range_new, pred_opt; by rewrite (proj2 (Z.leb_gt _ _)) by lia).
  assert (Hi : intersect (MkRange c (m - 1)) (range_snapshot m) = MkRange c (m - 1)) by (unfold intersect; cbn; f_equal; lia).
  assert (Hs : max_timestamp_exclusive (MkRange c (m - 1)) = m).
  { unfold max_timestamp_exclusive, succ_opt. cbn [end_inclusive]. rewrite (proj2 (Z.leb_gt _ _)) by lia. cbn. lia. }
  rewrite Hr, Hi. unfold load_docs, window. rewrite Hs. done.
Qed.

Lemma elem_of_window D c m e : BTreeMap.wf D ->
  e ∈ window D c m <-> BTreeMap.get (log_ts e, log_id e) D = Some (log_value e, log_prev_ts e) /\ c <= log_ts e < m.
Proof.
  intros Hwf. unfold window. rewrite list_elem_of_fmap. split.
  - intros ([[t i] [v p]] & -> & Hin). apply elem_of_bfilter in Hin as [Hin Hb]. cbn [row_to_document fst snd log_ts log_id log_value log_prev_ts] in *.
    apply BTreeMap.elem_of_get in Hin; [|done]. bool_hyps. done.
  - intros [Hg Hr]. exists ((log_ts e, log_id e), (log_value e, log_prev_ts e)). split; [by destruct e|]. apply elem_of_bfilter. split; [by apply BTreeMap.elem_of_get|].
    cbn [fst]. apply andb_true_intro. split; [apply Z.leb_le|apply Z.ltb_lt]; lia.
Qed.

Definition by_ts (l : list Z) : Prop := StronglySorted Z.le l.

Lemma window_sorted D c m : BTreeMap.wf D -> by_ts (map log_ts (window D c m)) /\ NoDup (map (fun e => (log_ts e, log_id e)) (window D c m)).
Proof.
  intros Hwf. unfold window. apply (BTreeMap.wf_bfilter (fun e => (c <=? e.1.1) && (e.1.1 <? m))) in Hwf.
  set (l := bfilter _ D) in *. clearbody l. rewrite !map_map. induction l as [|[[t i] row] l IH]; cbn [map]; [split; constructor|].
  destruct Hwf as [Hlt Hwf]. destruct (IH Hwf) as [Hs Hn]. split; constructor; [done| | |done].
  - apply Forall_map, Forall_forall. intros [[t' i'] row'] Hin. apply Hlt in Hin. cbn [fst snd row_to_document log_ts] in *.
    apply pair_olt in Hin as [Hin|[-> _]]; [apply (proj1 (Z_olt _ _)) in Hin|]; lia.
  - intros ([[t' i'] row'] & Heq & Hin)%list_elem_of_fmap. apply Hlt in Hin. cbn [fst snd row_to_document log_ts log_id] in *. injection Heq as -> ->. by apply olt_irrefl in Hin.
Qed.

(** What comes later in a sorted list is not earlier. *)
Lemma by_ts_app {B} (l1 l2 : list (Z * B)) x y : by_ts (map fst (l1 ++ l2)) -> x ∈ l1 -> y ∈ l2 -> x.1 <= y.1.
Proof.
  induction l1 as [|z l1 IH]; cbn [app map]; [by intros _ ?%elem_of_nil|]. intros Hs Hx Hy. inversion Hs as [|a l Hs' Hall]; subst. apply elem_of_cons in Hx as [->|Hx]; [|by apply IH].
  rewrite Forall_forall in Hall. apply Hall. apply list_elem_of_fmap. exists y. split; [done|]. apply elem_of_app. by right.
Qed.

Lemma by_ts_concat {A B} (ts : A -> Z) (f : A -> list (Z * B)) l :
  by_ts (map ts l) -> (forall x y, x ∈ l -> y ∈ f x -> y.1 = ts x) -> by_ts (map fst (concat (map f l))).
Proof.
  induction l as [|x l IH]; intros Hs Hf; cbn [map concat]; [constructor|]. cbn [map] in Hs. inversion Hs as [|a k Hs' Hall]; subst.
  assert (IH' : by_ts (map fst (concat (map f l)))) by (apply IH; [done|intros; apply Hf; [by right|done]]).
  assert (Hx : forall y, y ∈ f x -> y.1 = ts x) by (intros y; apply Hf; left). induction (f x) as [|y ys IHy]; cbn [app map]; [done|].
  constructor; [apply IHy; intros y' Hy'; apply Hx; by right|]. apply Forall_map, Forall_forall. intros z [Hz|Hz]%elem_of_app.
  - rewrite (Hx y), (Hx z) by first [left|by right]. lia.
  - apply elem_of_concat_map in Hz as (x' & Hx' & Hz). rewrite (Hx y) by left. rewrite (Hf x' z) by first [by right|done]. rewrite Forall_forall in Hall. apply Hall, list_elem_of_fmap. eauto.
Qed.

Lemma document_key_ok d fields : good_doc d -> document_key d fields = Ret (doc_key d fields).
Proof.
  intros Hd. unfold document_key. destruct (value d) as [| | | | | | |o] eqn:Hv; try (by destruct Hd as ((o & Ho) & _); rewrite Hv in Ho).
  destruct (resolved_index_key_ok (E := persistence_error) d o fields Hd Hv) as (key & -> & Hk). cbn [obind]. unfold to_bytes. rewrite Hk.
  by apply values_to_bytes_enc, Forall_good_valid, index_values_good.
Qed.
