(* ===== verification/RetentionReads.v ===== *)
(** * RetentionReads: deletions leave what the window reads
      (src/crates/database/src/retention.rs: delete, delete_documents)

    Index rows are deleted by a prefix of their keys, up to the timestamp of a
    revision that was replaced; log entries up to a revision that was replaced
    or a deletion.  No snapshot at or after the bound sees a difference, and
    the cursor that is returned is behind everything that remains. *)

From S2P Require Import Prelude Ord BTreeMap BinaryKey Bounds Interval Timestamp Identifier Value Sorting SortingDecode Base32 IdV6 Document IndexRegistry IndexUpdates IndexKeys MemoryIndexes Persistence Retention RetentionDeletes.

Local Open Scope Z_scope.

(** ** Index rows *)

(** The rows with key [k] up to [t] belong to a revision that was replaced at
    [s]: the key is its key; the row at [s] is a deletion unless the new
    revision has the same key. *)
Definition superseded (H : Documents) (tablet : list Z) (fields : list FieldPath) (s : Z) (k : list Z) (t : Z) : Prop :=
  exists i v p d q, i.1 = tablet /\ BTreeMap.get (s, i) H = Some (v, Some p) /\ BTreeMap.get (p, i) H = Some (Some d, q) /\ k = doc_key d fields /\
    (t = p \/ t = s /\ forall d', v = Some d' -> doc_key d' fields <> k).

(** The prefix that an entry is deleted by. *)
Definition deleted_key (k : list Z) : list Z := split_prefix (SplitKey_new k).

Definition entry_sound (H : Documents) (all_indexes : AllIndexes) (s : Z) (b : IndexEntry) : Prop :=
  exists name fields k, (ie_index_id b, (name, fields)) ∈ all_indexes /\ superseded H name.1 fields s k (ie_ts b) /\ key_prefix b = deleted_key k.

Lemma deleted_key_prefix k : deleted_key k `prefix_of` k.
Proof.
  unfold deleted_key. destruct (split_key_cases k) as [[-> _]|(p & s & -> & _ & _ & ->)]; cbn [split_prefix]; [done|]. by exists s.
Qed.

Lemma deleted_key_short k : (length k <= MAX_INDEX_KEY_PREFIX_LEN)%nat -> deleted_key k = k.
Proof. intros Hl. unfold deleted_key, SplitKey_new. by rewrite (proj2 (Nat.ltb_ge _ _)). Qed.

Lemma get_filtered_row {K V} `{OrdLaws K} (p : K * V -> bool) (m : BTreeMap.t K V) k : BTreeMap.wf m ->
  BTreeMap.get k (bfilter p m) = match BTreeMap.get k m with Some v => if p (k, v) then Some v else None | None => None end.
Proof.
  intros Hwf. pose proof (BTreeMap.wf_bfilter p m Hwf) as Hwf'.
  destruct (BTreeMap.get k (bfilter p m)) as [v|] eqn:Hg.
  - apply BTreeMap.elem_of_get in Hg; [|done]. apply elem_of_bfilter in Hg as [Hin Hp]. apply BTreeMap.elem_of_get in Hin; [|done]. by rewrite Hin, Hp.
  - rewrite BTreeMap.get_None in Hg. destruct (BTreeMap.get k m) as [v|] eqn:Hk; [|done]. destruct (p (k, v)) eqn:Hp; [|done]. exfalso.
    apply (Hg v), elem_of_bfilter. split; [by apply BTreeMap.elem_of_get|done].
Qed.

(** The row is deleted by the entry. *)
Definition row_matches (b : IndexEntry) (iid k : list Z) (t : Z) : Prop := ie_index_id b = iid /\ t <= ie_ts b /\ key_prefix b = k.

Lemma delete_index_row_get R n b iid k t : BTreeMap.wf R ->
  let R' := (delete_index_row (R, n) b).1 in
  BTreeMap.wf R' /\ (row_matches b iid k t -> BTreeMap.get (iid, (k, t)) R' = None) /\ (~ row_matches b iid k t -> BTreeMap.get (iid, (k, t)) R' = BTreeMap.get (iid, (k, t)) R).
Proof.
  intros Hwf. unfold delete_index_row, row_matches. cbn [fst]. split; [by apply BTreeMap.wf_bfilter|]. rewrite get_filtered_row by done.
  destruct (BTreeMap.get (iid, (k, t)) R) as [v|]; [|done]. cbn [fst snd]. split; intros Hm.
  - destruct Hm as (-> & Ht & ->). rewrite !bool_decide_eq_true_2, (proj2 (Z.leb_le _ _)) by done. done.
  - rewrite (proj2 (negb_true_iff _)); [done|]. apply not_true_iff_false. rewrite !andb_true_iff, !bool_decide_eq_true, Z.leb_le. intros ((-> & ?) & ->). by apply Hm.
Qed.

Lemma delete_index_entries_get S bs iid k t : BTreeMap.wf (indexes S) ->
  let S' := (delete_index_entries S bs).1 in
  documents S' = documents S /\ BTreeMap.wf (indexes S') /\ ((exists b, b ∈ bs /\ row_matches b iid k t) -> BTreeMap.get (iid, (k, t)) (indexes S') = None) /\
  ((forall b, b ∈ bs -> ~ row_matches b iid k t) -> BTreeMap.get (iid, (k, t)) (indexes S') = BTreeMap.get (iid, (k, t)) (indexes S)).
Proof.
  intros Hwf. unfold delete_index_entries. cbn [fst documents indexes]. split; [done|].
  assert (Hgen : forall bs R n, BTreeMap.wf R -> let R' := (fold_left delete_index_row bs (R, n)).1 in BTreeMap.wf R' /\
    ((exists b, b ∈ bs /\ row_matches b iid k t) \/ BTreeMap.get (iid, (k, t)) R = None -> BTreeMap.get (iid, (k, t)) R' = None) /\
    ((forall b, b ∈ bs -> ~ row_matches b iid k t) -> BTreeMap.get (iid, (k, t)) R' = BTreeMap.get (iid, (k, t)) R)).
  { clear. induction bs as [|b bs IH]; intros R n Hwf; cbn [fold_left]; [split_and!; [done| |done]; intros [(b & Hb & _)|]; [by apply elem_of_nil in Hb|done]|].
    destruct (delete_index_row_get R n b iid k t Hwf) as (Hwf1 & Hm & Hnm). destruct (delete_index_row (R, n) b) as [R1 n1] eqn:HR1. cbn [fst] in *.
    destruct (IH R1 n1 Hwf1) as (Hwf2 & Hn & Hk). split_and!; [done| |].
    - intros Hor. apply Hn. destruct Hor as [(b' & [->|Hb']%elem_of_cons & Hb'')|HN]; [right; by apply Hm|left; eauto|]. right.
      injection HR1 as <- _. rewrite get_filtered_row by done. by rewrite HN.
    - intros Hno. rewrite Hk by (intros b' Hb'; apply Hno; by right). apply Hnm. apply Hno. left. }
  destruct (Hgen bs (indexes S) 0 Hwf) as (H1 & H2 & H3). split_and!; [done|intros Hex; apply H2; by left|done].
Qed.

#[global] Instance row_matches_dec b iid k t : Decision (row_matches b iid k t).
Proof. unfold row_matches. apply _. Defined.

Section keep_reads.
Context (H : Documents) (all_indexes : AllIndexes) (m : Z) (iid tablet : list Z) (fields : list FieldPath) (ts : Z).
Context (HH : history_ok H) (Hts : m <= ts) (Hspec : forall name f, (iid, (name, f)) ∈ all_indexes -> name.1 = tablet /\ f = fields).

(** An entry whose replacement is before the bound. *)
Definition stale (b : IndexEntry) : Prop := exists s, s < m /\ entry_sound H all_indexes s b.

(** What is visible at the timestamp is not deleted. *)
Lemma visible_not_stale R b k i t : reads_right H R iid tablet fields ts -> stale b -> row_visible R iid k ts i t -> ~ row_matches b iid k t.
Proof using HH Hts Hspec.
  intros HR (s & Hs & name & f & k' & Hin & Hsup & Hpre) Hvis (Hb & Hle & Hk). apply HR in Hvis as (d & ((x & Hg) & Ht & Hnew) & Hi & Hkey).
  rewrite Hb in Hin. destruct (Hspec _ _ Hin) as [Htab ->]. destruct Hsup as (i' & v & p & d' & q & Hi' & Hgs & Hgp & -> & Hwhen).
  destruct (ho_value _ HH _ _ _ _ Hg) as [Hid Hgood], (ho_value _ HH _ _ _ _ Hgp) as [Hid' Hgood'].
  assert (Hsame : doc_key d fields = doc_key d' fields /\ developer_id (id d) = developer_id (id d')).
  { apply doc_key_prefix; [done..|]. rewrite Hkey, <- Hk, Hpre. apply deleted_key_prefix. }
  destruct Hsame as [Hkk Hdev]. assert (i' = i) as ->.
  { unfold id_with_table_id in *. destruct i as [a b0], i' as [a' b']. cbn [fst] in *. congruence. }
  pose proof (ho_prev _ HH _ _ _ _ Hgs) as [Hps _]. destruct (decide (t < s)) as [Hlt|Hge]; [rewrite Hnew in Hgs by lia; done|].
  destruct Hwhen as [Hp|[Hp Hne]]; [lia|]. assert (t = s) as -> by lia. rewrite Hg in Hgs. injection Hgs as Hv _. by apply (Hne d).
Qed.

Lemma delete_keeps_reads S bs : BTreeMap.wf (indexes S) -> reads_right H (indexes S) iid tablet fields ts -> (forall b, b ∈ bs -> stale b) ->
  reads_right H (indexes (delete_index_entries S bs).1) iid tablet fields ts.
Proof using HH Hts Hspec.
  intros Hwf HR Hbs k i t. rewrite <- (HR k i t). set (R' := indexes (delete_index_entries S bs).1).
  assert (Hgone : forall t', (exists b, b ∈ bs /\ row_matches b iid k t') -> BTreeMap.get (iid, (k, t')) R' = None) by (intros t'; by apply (delete_index_entries_get S bs iid k t' Hwf)).
  assert (Hkept : forall t', (forall b, b ∈ bs -> ~ row_matches b iid k t') -> BTreeMap.get (iid, (k, t')) R' = BTreeMap.get (iid, (k, t')) (indexes S)) by (intros t'; by apply (delete_index_entries_get S bs iid k t' Hwf)).
  assert (Hdec : forall t', (exists b, b ∈ bs /\ row_matches b iid k t') \/ (forall b, b ∈ bs -> ~ row_matches b iid k t')).
  { intros t'. destruct (decide (Exists (fun b => row_matches b iid k t') bs)) as [HE|HE]; [left; by apply Exists_exists in HE|right]. intros b Hb Hm. apply HE, Exists_exists. eauto. }
  split.
  - intros (Hg & Ht & Hnew). assert (Hno : forall b, b ∈ bs -> ~ row_matches b iid k t) by (intros b Hb Hm; rewrite Hgone in Hg by eauto; done).
    split_and!; [by rewrite <- Hkept|done|]. intros t' Ht'. destruct (Hdec t') as [(b & Hb & Hm)|Hno']; [|rewrite <- Hkept by done; by apply Hnew].
    exfalso. apply (Hno b Hb). destruct Hm as (Hm1 & Hm2 & Hm3). split_and!; [done|lia|done].
  - intros Hvis. pose proof Hvis as (Hg & Ht & Hnew). assert (Hno : forall b, b ∈ bs -> ~ row_matches b iid k t) by (intros b Hb; eapply visible_not_stale; eauto).
    split_and!; [by rewrite Hkept|done|]. intros t' Ht'. destruct (Hdec t') as [Hm|Hno']; [by apply Hgone|]. rewrite Hkept by done. by apply Hnew.
Qed.

Lemma deletes_keep_reads S S' : deletes delete_index_entries stale S S' -> BTreeMap.wf (indexes S) -> reads_right H (indexes S) iid tablet fields ts ->
  reads_right H (indexes S') iid tablet fields ts.
Proof using HH Hts Hspec.
  intros Hd Hwf HR. apply (deletes_inv _ stale (fun S => BTreeMap.wf (indexes S) /\ reads_right H (indexes S) iid tablet fields ts) _ _) in Hd; [by apply Hd| |done].
  intros S0 bs Hbs [Hwf0 HR0]. split; [by apply (delete_index_entries_get S0 bs [] [] 0)|by apply delete_keeps_reads].
Qed.
End keep_reads.

Lemma deletes_indexes_only P S S' : deletes delete_index_entries P S S' -> BTreeMap.wf (indexes S) -> documents S' = documents S /\ BTreeMap.wf (indexes S').
Proof.
  intros Hd Hwf. apply (deletes_inv _ P (fun S' => documents S' = documents S /\ BTreeMap.wf (indexes S')) _ _) in Hd; [done| |done].
  intros S0 bs _ [<- Hwf0]. destruct (delete_index_entries_get S0 bs [] [] 0 Hwf0) as (-> & Hw & _). done.
Qed.

(** No row is left that the entry deletes. *)
Definition row_gone (b : IndexEntry) (S : Store) : Prop := forall iid k t v, ((iid, (k, t)), v) ∈ indexes S -> ~ row_matches b iid k t.

Lemma elem_of_delete_index_entries S bs iid k t v :
  ((iid, (k, t)), v) ∈ indexes (delete_index_entries S bs).1 <-> ((iid, (k, t)), v) ∈ indexes S /\ forall b, b ∈ bs -> ~ row_matches b iid k t.
Proof.
  unfold delete_index_entries. cbn [indexes fst]. generalize 0 as n. generalize (indexes S) as R. induction bs as [|b bs IH]; intros R n; cbn [fold_left].
  - split; [|by intros [? _]]. intros Hin. split; [done|]. by intros b ?%elem_of_nil.
  - destruct (delete_index_row (R, n) b) as [R1 n1] eqn:HR1. rewrite IH. injection HR1 as <- _. rewrite elem_of_bfilter. cbn [fst snd].
    rewrite negb_true_iff, <- not_true_iff_false, !andb_true_iff, !bool_decide_eq_true, Z.leb_le. setoid_rewrite elem_of_cons. unfold row_matches. naive_solver.
Qed.

Lemma row_gone_after S bs b : b ∈ bs -> row_gone b (delete_index_entries S bs).1.
Proof. intros Hb iid k t v [_ Hno]%elem_of_delete_index_entries. by apply Hno. Qed.

Lemma row_gone_still S bs b : row_gone b S -> row_gone b (delete_index_entries S bs).1.
Proof. intros Hg iid k t v [Hin _]%elem_of_delete_index_entries. by apply (Hg _ _ _ _ Hin). Qed.

Section index_round.
Context (knobs : Knobs) (sha256 : list Z -> list Z) (hash_bytes : list Z -> Z).
Context (H : Documents) (S : Store) (bounds : SnapshotBounds) (c m : Z) (all_indexes : AllIndexes).
Context (HH : history_ok H) (Hwf : BTreeMap.wf (documents S)) (Hsub : forall k row, BTreeMap.get k (documents S) = Some row -> BTreeMap.get k H = Some row).
Context (Hc : MIN <= c) (Hm : MIN < m <= MAX).

Notation entry index key ts deleted := (MkIndexEntry index (split_prefix (SplitKey_new key)) (sha256 key) ts (split_suffix (SplitKey_new key)) deleted).

Lemma expired_entries_spec s p d v index : good_doc d -> (forall d', v = Some d' -> good_doc d') ->
  let k := doc_key d index.2.2 in let r := expired_entries sha256 s p d v index in
  r.2 = Ret tt /\ forall s' b, (s', b) ∈ r.1 <-> s' = s /\ (b = entry index.1 k p false \/ b = entry index.1 k s true /\ forall d', v = Some d' -> doc_key d' index.2.2 <> k).
Proof.
  intros Hd Hv. cbv zeta. unfold expired_entries. rewrite document_key_ok by done. destruct v as [d'|].
  - rewrite document_key_ok by (by apply Hv). case_bool_decide as Hk; cbn [fst snd]; (split; [done|]); intros s' b.
    + rewrite list_elem_of_singleton. split; [intros [= -> ->]; auto|]. intros [-> [->|[-> Hne]]]; [done|]. by destruct (Hne d' eq_refl).
    + rewrite !elem_of_cons, elem_of_nil. split.
      * intros [[= -> ->]|[[= -> ->]|[]]]; (split; [done|]); [by left|right]. split; [done|]. by intros ? [= <-].
      * intros [-> [->|[-> _]]]; auto.
  - cbn [fst snd]. split; [done|]. intros s' b. rewrite !elem_of_cons, elem_of_nil. split.
    + intros [[= -> ->]|[[= -> ->]|[]]]; (split; [done|]); [by left|by right].
    + intros [-> [->|[-> _]]]; auto.
Qed.

(** The stream of revisions, for a validator that accepts the cursor. *)
Notation revs := (load_revision_pairs (validate_document_snapshot bounds) (DOCUMENTS_IN_MEMORY knobs) S m (range_new c m) Asc).

Lemma revs_sound rev : rev ∈ revs.1 -> pair_sound H rev /\ c <= revision_ts (pair_rev rev) < m.
Proof using Hwf Hsub Hc Hm.
  unfold load_revision_pairs, load_documents. destruct (load_window S c m Hc Hm) as (_ & -> & _ & _). intros Hin.
  assert (Hdocs : forall e, e ∈ (stream_of (let? _ := validate_document_snapshot bounds (min_timestamp_inclusive (intersect (range_new c m) (range_snapshot m))) in Ret (window (documents S) c m))).1 -> e ∈ window (documents S) c m).
  { intros e. destruct (validate_document_snapshot _ _); cbn [obind stream_of fst]; [done|by intros ?%elem_of_nil..]. }
  apply revision_pairs_sound in Hin as [[Hg Hp] (e & He%Hdocs & Ht)].
  - apply elem_of_window in He as [_ Hr]; [|done]. rewrite <- Ht. split; [|done]. split; [by apply Hsub|]. intros r d Hr' Hd. destruct (Hp r d Hr' Hd) as (q & Hq). exists q. by apply Hsub.
  - intros e He%Hdocs. by apply elem_of_window in He as [? _].
Qed.

Lemma expired_index_entries_sound s b : (s, b) ∈ (expired_index_entries knobs sha256 S bounds c m all_indexes).1 -> entry_sound H all_indexes s b /\ c <= s < m.
Proof using HH Hwf Hsub Hc Hm.
  intros Hin. apply stream_bind_elem in Hin as (rev & Hrev & Hin). destruct (revs_sound rev Hrev) as [[Hg Hp] Hr].
  unfold expired_entries_of_pair in Hin. destruct rev as [i [t v] [[p [d|]]|]]; cbn [pair_id pair_rev pair_prev_rev revision_ts revision_document option_map] in *; try (by apply elem_of_nil in Hin).
  destruct (Hp _ d eq_refl eq_refl) as (q & Hgp). cbn [revision_ts] in Hgp. apply stream_bind_elem in Hin as ([iid [name f]] & Hidx & Hin). apply elem_of_bfilter in Hidx as [Hidx Htab]. apply bool_decide_eq_true in Htab.
  apply expired_entries_spec in Hin as [-> Hb]; [|by apply (ho_value _ HH _ _ _ _ Hgp)|intros d' ->; by apply (ho_value _ HH _ _ _ _ Hg)]. cbn [fst snd] in *.
  split; [|done]. exists name, f, (doc_key d f). destruct Hb as [->|[-> Hne]]; (split_and!; [done| |done]); exists i, v, p, d, q; split_and!; try done; [by left|by right].
Qed.

(** *** Nothing is missed *)

Context (b : Z) (Hret : retains H (documents S) b) (Hb : b <= c).

(** A revision in the window still has the one before it. *)
Lemma prev_retained s i v p : BTreeMap.get (s, i) H = Some (v, Some p) -> c <= s -> exists d q, BTreeMap.get (p, i) H = Some (Some d, q) /\ BTreeMap.get (p, i) (documents S) = Some (Some d, q).
Proof using HH Hret Hb.
  intros Hg Hs. destruct (ho_prev _ HH _ _ _ _ Hg) as [Hps (d & q & Hp)]. exists d, q. split; [done|]. apply (rt_kept _ _ _ Hret); [done|].
  intros [(s' & v' & Hs' & Hlt)|(x & Hx & _)]; [|congruence]. pose proof (ho_prev _ HH _ _ _ _ Hs') as [Hps' _].
  rewrite (ho_between _ HH _ _ _ _ s' Hg) in Hs' by lia. done.
Qed.

Lemma expired_of_pair_spec e : e ∈ window (documents S) c m ->
  let r := expired_entries_of_pair sha256 all_indexes (pair_of (documents S) e) in
  r.2 = Ret tt /\ (forall x, x ∈ r.1 -> x.1 = log_ts e) /\
  forall p d q iid name f, log_prev_ts e = Some p -> BTreeMap.get (p, log_id e) H = Some (Some d, q) -> (iid, (name, f)) ∈ all_indexes -> name.1 = (log_id e).1 ->
    (log_ts e, entry iid (doc_key d f) p false) ∈ r.1 /\
    ((forall d', log_value e = Some d' -> doc_key d' f <> doc_key d f) -> (log_ts e, entry iid (doc_key d f) (log_ts e) true) ∈ r.1).
Proof using HH Hwf Hret Hb.
  intros He. cbv zeta. pose proof He as [Hg Hr]%elem_of_window; [|done]. apply (rt_sub _ _ _ Hret) in Hg.
  assert (Hv : forall d', log_value e = Some d' -> good_doc d') by (intros d' Hd'; rewrite Hd' in Hg; by apply (ho_value _ HH _ _ _ _ Hg)).
  unfold expired_entries_of_pair, pair_of. cbn [pair_prev_rev pair_rev pair_id revision_ts revision_document].
  destruct (log_prev_ts e) as [p|] eqn:Hp; cbn [option_map]; [|split_and!; [done|by intros x ?%elem_of_nil|done]].
  destruct (prev_retained _ _ _ _ Hg) as (d & q & HgH & HgD); [lia|]. rewrite HgD.
  assert (Hd : good_doc d) by (by apply (ho_value _ HH _ _ _ _ HgH)).
  set (l := bfilter _ all_indexes). set (f0 := expired_entries sha256 (log_ts e) p d (log_value e)).
  assert (Hend : (stream_bind f0 l (Ret tt)).2 = Ret tt) by (apply stream_bind_total; [done|]; intros x _; by apply expired_entries_spec).
  destruct (stream_bind_done _ _ _ Hend) as (_ & _ & Hitems). split_and!; [done| |].
  - intros [s x] Hx. apply stream_bind_elem in Hx as (ix & _ & Hx). by apply expired_entries_spec in Hx as [-> _].
  - intros p' d' q' iid name f [= <-] Hg' Hin Htab. rewrite HgH in Hg'. injection Hg' as <- <-.
    assert (Hsub' : forall x, x ∈ (f0 (iid, (name, f))).1 -> x ∈ (stream_bind f0 l (Ret tt)).1).
    { intros x Hx. rewrite Hitems. apply elem_of_concat_map. exists (iid, (name, f)). split; [|done]. apply elem_of_bfilter. split; [done|]. by apply bool_decide_eq_true_2. }
    split; [|intros Hne]; apply Hsub', expired_entries_spec; try done; (split; [done|]); [by left|by right].
Qed.

Context (Hvalid : min_document_snapshot_ts bounds <= c).

Lemma window_has_prev e : e ∈ window (documents S) c m -> has_prev (documents S) e /\ validate_document_snapshot bounds (log_ts e) = Ret tt.
Proof using HH Hwf Hret Hb Hvalid.
  intros He. apply elem_of_window in He as [Hg Hr]; [|done]. split.
  - intros p Hp. rewrite Hp in Hg. apply (rt_sub _ _ _ Hret) in Hg. destruct (prev_retained _ _ _ _ Hg) as (d & q & _ & ?); [lia|eauto].
  - unfold validate_document_snapshot. by rewrite (proj2 (Z.leb_le _ _)) by lia.
Qed.

Context (Hmem : DOCUMENTS_IN_MEMORY knobs <> O).

Lemma revs_complete : revs = (map (pair_of (documents S)) (window (documents S) c m), Ret tt).
Proof using HH Hwf Hc Hm Hret Hb Hvalid Hmem.
  unfold load_revision_pairs, load_documents. destruct (load_window S c m Hc Hm) as (_ & -> & _ & ->).
  unfold validate_document_snapshot at 2. rewrite (proj2 (Z.leb_le _ _)) by lia. cbn [ensure obind stream_of].
  apply revision_pairs_complete; [done|by apply window_sorted|apply window_has_prev].
Qed.

Lemma expired_index_entries_complete : let r := expired_index_entries knobs sha256 S bounds c m all_indexes in
  r.2 = Ret tt /\ by_ts (map fst r.1) /\ forall e x, e ∈ window (documents S) c m -> x ∈ (expired_entries_of_pair sha256 all_indexes (pair_of (documents S) e)).1 -> x ∈ r.1.
Proof using HH Hwf Hc Hm Hret Hb Hvalid Hmem.
  cbv zeta. unfold expired_index_entries. rewrite revs_complete. cbn [fst snd]. set (f := expired_entries_of_pair sha256 all_indexes). set (L := window (documents S) c m).
  assert (Hend : (stream_bind f (map (pair_of (documents S)) L) (Ret tt)).2 = Ret tt).
  { apply stream_bind_total; [done|]. intros ? (e & -> & He)%list_elem_of_fmap. by apply expired_of_pair_spec. }
  destruct (stream_bind_done _ _ _ Hend) as (_ & _ & Hitems). split; [done|]. rewrite Hitems, map_map. split.
  - apply (by_ts_concat log_ts); [by apply window_sorted|]. intros e y He Hy. by apply (expired_of_pair_spec e He).
  - intros e x He Hx. apply elem_of_concat_map. eauto.
Qed.

(** *** One round *)

(** The rows of the revision before [e] that nothing can see any more are gone,
    from all the indexes that retention knows. *)
Definition cleaned (S' : Store) (e : DocumentLogEntry) : Prop :=
  forall p d q iid name f t v, log_prev_ts e = Some p -> BTreeMap.get (p, log_id e) H = Some (Some d, q) -> (iid, (name, f)) ∈ all_indexes -> name.1 = (log_id e).1 ->
    ((iid, (deleted_key (doc_key d f), t)), v) ∈ indexes S' -> p < t /\ ((forall d', log_value e = Some d' -> doc_key d' f <> doc_key d f) -> log_ts e < t).

Lemma selected_id {B} (chunks : list (list (Z * B))) : selected (fun l => l) chunks = concat chunks.
Proof. unfold selected. by rewrite map_id. Qed.

Lemma delete_stale lost writes : deletes delete_index_entries (stale H all_indexes m) S (delete knobs sha256 hash_bytes m S c all_indexes bounds lost writes).1.
Proof using HH Hwf Hsub Hc Hm.
  unfold delete. destruct (_ || _); [constructor|]. set (s := cut lost _).
  pose proof (delete_loop_spec delete_index_entries row_gone row_gone_after row_gone_still (fun l => l) (fun entry => hash_bytes (key_sha256 entry.2)) (INDEX_RETENTION_DELETE_PARALLEL knobs)
    (fun total_expired_entries _ => if RETENTION_DELETE_BATCH knobs <? total_expired_entries then Some total_expired_entries else None) m c
    (try_chunks2 (INDEX_RETENTION_DELETE_CHUNK knobs) s).1 S c 0 0 (try_chunks2 (INDEX_RETENTION_DELETE_CHUNK knobs) s).2 writes) as Hl.
  destruct (delete_loop _ _ _ _ _ _ _ _ _ _ _ _ _ _) as [S' r]. destruct Hl as [Hd _]. eapply deletes_mono; [|exact Hd]. intros e (t & Hin). rewrite selected_id in Hin.
  destruct (try_chunks2_spec (INDEX_RETENTION_DELETE_CHUNK knobs) s) as ([r1 H1] & _). destruct (cut_prefix lost (expired_index_entries knobs sha256 S bounds c m all_indexes)) as ([r2 H2] & _). fold s in H2.
  assert (Hin' : (t, e) ∈ (expired_index_entries knobs sha256 S bounds c m all_indexes).1) by (rewrite H2, H1, !elem_of_app; auto).
  apply expired_index_entries_sound in Hin' as [Hs Hr]. exists t. split; [apply Hr|done].
Qed.

Lemma delete_progress lost writes S' c' n : c < m -> delete knobs sha256 hash_bytes m S c all_indexes bounds lost writes = (S', Ret (c', n)) ->
  (c' = c /\ RETENTION_DELETES_ENABLED knobs = false \/ c <= c' < m /\ (c + 1 < m -> c < c')) /\
  (RETENTION_DELETES_ENABLED knobs = true -> forall e, e ∈ window H c m -> log_ts e <= c' -> cleaned S' e).
Proof using HH Hwf Hsub Hc Hm Hret Hb Hvalid Hmem.
  intros Hcm. unfold delete. rewrite (proj2 (Z.eqb_neq _ _)) by (unfold MIN in *; lia). rewrite orb_false_r. destruct (RETENTION_DELETES_ENABLED knobs); cbn [negb]; [|by intros [= <- <- <-]; split; [left|]].
  set (all := expired_index_entries knobs sha256 S bounds c m all_indexes). set (s := cut lost all). set (chunks := try_chunks2 _ s). intros Hdel.
  pose proof (delete_loop_spec delete_index_entries row_gone row_gone_after row_gone_still (fun l => l) (fun entry => hash_bytes (key_sha256 entry.2)) (INDEX_RETENTION_DELETE_PARALLEL knobs)
    (fun total_expired_entries _ => if RETENTION_DELETE_BATCH knobs <? total_expired_entries then Some total_expired_entries else None) m c chunks.1 S c 0 0 chunks.2 writes) as Hl.
  rewrite Hdel in Hl. destruct Hl as [_ Hl]. destruct (try_chunks2_spec (INDEX_RETENTION_DELETE_CHUNK knobs) s) as ([r1 H1] & Hdone & _). fold chunks in H1, Hdone.
  destruct (cut_prefix lost all) as ([r2 H2] & Hcut). fold s in H2, Hcut. pose proof expired_index_entries_complete as (_ & Hsorted & Hall). fold all in Hsorted, Hall.
  assert (Hgone : (c <= c' < m /\ (c + 1 < m -> c < c')) /\ forall x, x ∈ all.1 -> x.1 <= c' -> row_gone x.2 S').
  { destruct Hl as [(Hend & -> & Hg)|(ch1 & ch2 & Hch & Hlt & [_ Hfrom] & Hg)].
    - split; [lia|]. intros [t x] Hx _. destruct (Hdone Hend) as [Hcat Hs2]. rewrite <- (Hcut Hs2) in Hx. apply (Hg t). by rewrite selected_id, Hcat.
    - rewrite selected_id in Hfrom, Hg. assert (Hal : all.1 = concat ch1 ++ (concat ch2 ++ r1 ++ r2)) by (rewrite H2, H1, Hch, concat_app, <- !(assoc (++)); done).
      destruct Hfrom as [->|(y & Hy & ->)]; [lia|]. split.
      + assert (Hy' : y ∈ all.1) by (rewrite Hal; apply elem_of_app; by left). destruct y as [t y]. apply expired_index_entries_sound in Hy' as [_ ?]. cbn [fst] in *. lia.
      + intros [t x] Hx Hle. cbn [fst] in Hle. rewrite Hal in Hx. apply elem_of_app in Hx as [Hx|Hx]; [by apply (Hg t)|]. exfalso.
        rewrite Hal in Hsorted. pose proof (by_ts_app _ _ _ _ Hsorted Hy Hx). cbn [fst] in *. lia. }
  destruct Hgone as [Hr Hgone]. split; [by right|]. intros _ e He Hle.
  assert (HeD : e ∈ window (documents S) c m).
  { apply elem_of_window in He as [Hg ?]; [|apply HH]. apply elem_of_window; [done|]. split; [|done]. apply (rt_kept _ _ _ Hret); [done|]. eapply expired_later; [done|done|lia]. }
  intros p d q iid name f t v Hp Hg Hin Htab Hrow. destruct (expired_of_pair_spec e HeD) as (_ & _ & Hitems). destruct (Hitems p d q iid name f Hp Hg Hin Htab) as [Hi1 Hi2]. split.
  - apply (Hall e) in Hi1; [|done]. apply Hgone in Hi1; [|done]. apply Hi1 in Hrow. unfold row_matches in Hrow. cbn in Hrow. destruct (decide (p < t)); [done|]. exfalso. apply Hrow. split_and!; [done|lia|done].
  - intros Hne. specialize (Hi2 Hne). apply (Hall e) in Hi2; [|done]. apply Hgone in Hi2; [|done]. apply Hi2 in Hrow. unfold row_matches in Hrow. cbn in Hrow. destruct (decide (log_ts e < t)); [done|]. exfalso. apply Hrow. split_and!; [done|lia|done].
Qed.

Lemma delete_returns writes : c + 1 < m -> RETENTION_DELETES_ENABLED knobs = true -> INDEX_RETENTION_DELETE_CHUNK knobs <> O -> INDEX_RETENTION_DELETE_PARALLEL knobs <> O ->
  (forall n i, writes n i = IoOk) -> exists S' c' n, delete knobs sha256 hash_bytes m S c all_indexes bounds None writes = (S', Ret (c', n)) /\ c < c'.
Proof using HH Hwf Hsub Hc Hm Hret Hb Hvalid Hmem.
  intros Hcm Hen Hch Hpar Hw. destruct (delete knobs sha256 hash_bytes m S c all_indexes bounds None writes) as [S' r] eqn:Hdel.
  assert (Hr : exists c' n, r = Ret (c', n)).
  { revert Hdel. unfold delete. rewrite Hen, (proj2 (Z.eqb_neq _ _)) by (unfold MIN in *; lia). cbn [negb orb cut]. set (all := expired_index_entries knobs sha256 S bounds c m all_indexes).
    destruct (try_chunks2_spec (INDEX_RETENTION_DELETE_CHUNK knobs) all) as ([rest Hpre] & _ & Hend). rewrite (Hend Hch); [|apply expired_index_entries_complete]. intros Hdel.
    match type of Hdel with delete_loop ?sel ?h ?par ?dr ?fu ?st ?cu ?s0 ?nc ?to ?sc ?chs _ ?w = _ =>
      destruct (delete_loop_ret dr row_gone row_gone_after row_gone_still sel h par fu st cu chs s0 nc to sc w) as (c' & n & Hret') end; [done|lia|lia| |done|rewrite Hdel in Hret'; eauto].
    intros [t x] Hx. rewrite selected_id in Hx. assert (Hx' : (t, x) ∈ all.1) by (rewrite Hpre; apply elem_of_app; by left). apply expired_index_entries_sound in Hx' as [_ ?]. cbn [fst]. lia. }
  destruct Hr as (c' & n & ->). exists S', c', n. split; [done|]. destruct (delete_progress _ _ _ _ _ ltac:(lia) Hdel) as [[[_ ?]|[_ Hlt]] _]; [congruence|]. by apply Hlt.
Qed.
End index_round.

(** ** Rounds until the bound *)

Section all_rounds.
Context (knobs : Knobs) (sha256 : list Z -> list Z) (hash_bytes : list Z -> Z).
Context (H : Documents) (bounds : SnapshotBounds) (m b : Z) (all_indexes : AllIndexes) (faults : nat -> option nat * (nat -> nat -> io)).
Context (HH : history_ok H) (Hm : MIN < m <= MAX) (Hen : RETENTION_DELETES_ENABLED knobs = true) (Hch : INDEX_RETENTION_DELETE_CHUNK knobs <> O)
  (Hpar : INDEX_RETENTION_DELETE_PARALLEL knobs <> O) (Hmem : DOCUMENTS_IN_MEMORY knobs <> O).

Lemma cleaned_fewer S S' e : (forall r, r ∈ indexes S' -> r ∈ indexes S) -> cleaned H all_indexes S e -> cleaned H all_indexes S' e.
Proof. intros Hsub Hcl p d q iid name f t v Hp Hg Hin Ht Hrow. by eapply Hcl; eauto. Qed.

Lemma deletes_fewer P S S' r : deletes delete_index_entries P S S' -> r ∈ indexes S' -> r ∈ indexes S.
Proof.
  intros Hd. revert r. refine (deletes_inv _ P (fun S' => forall r, r ∈ indexes S' -> r ∈ indexes S) S S' _ Hd _); [|done].
  intros S0 bs _ IH [[i [k t]] v] Hin. apply IH. by apply elem_of_delete_index_entries in Hin as [? _].
Qed.

Lemma delete_all_ok fuel : forall c S faults, MIN <= c -> b <= c -> min_document_snapshot_ts bounds <= c -> retains H (documents S) b -> BTreeMap.wf (indexes S) ->
  (forall n, (faults n).1 = None /\ forall i j, (faults n).2 i j = IoOk) -> c < MAX -> (Z.to_nat (m - c) < fuel)%nat ->
  exists S', delete_all_no_checkpoint knobs sha256 hash_bytes fuel c m S all_indexes bounds faults = Some (S', Ret tt) /\
    deletes delete_index_entries (stale H all_indexes m) S S' /\ forall e, e ∈ window H c m -> c + 1 < m -> cleaned H all_indexes S' e.
Proof using HH Hm Hen Hch Hpar Hmem.
  clear faults. induction fuel as [|fuel IH]; intros c S faults Hc Hb Hv Hret Hwf Hf Hmax Hfuel; [lia|]. cbn [delete_all_no_checkpoint].
  unfold succ, succ_opt. rewrite (proj2 (Z.leb_gt _ _)) by done. cbn [ok_or ts_part]. destruct (Z.ltb_spec (c + 1) m) as [Hlt|Hge]; [|exists S; split_and!; [done|constructor|lia]].
  destruct (Hf O) as [Hf1 Hf2]. rewrite Hf1.
  destruct (delete_returns knobs sha256 hash_bytes H S bounds c m all_indexes HH (rt_wf _ _ _ Hret) (rt_sub _ _ _ Hret) Hc Hm b Hret Hb Hv Hmem (faults O).2 Hlt Hen Hch Hpar Hf2) as (S1 & c1 & n & Hdel & Hc1).
  rewrite Hdel. pose proof (delete_stale knobs sha256 hash_bytes H S bounds c m all_indexes HH (rt_wf _ _ _ Hret) (rt_sub _ _ _ Hret) Hc Hm None (faults O).2) as Hd. rewrite Hdel in Hd. cbn [fst] in Hd.
  destruct (deletes_indexes_only _ _ _ Hd Hwf) as [Hdocs Hwf1].
  destruct (delete_progress knobs sha256 hash_bytes H S bounds c m all_indexes HH (rt_wf _ _ _ Hret) (rt_sub _ _ _ Hret) Hc Hm b Hret Hb Hv Hmem None (faults O).2 S1 c1 n ltac:(lia) Hdel) as [Hr Hcl].
  assert (Hr' : c < c1 < m) by (destruct Hr as [[_ ?]|[? _]]; [congruence|lia]).
  destruct (IH c1 S1 (fun n => faults (Datatypes.S n))) as (S2 & Hrun & Hd2 & Hcl2); [lia..|by rewrite Hdocs|done|intros k; apply Hf|lia|lia|].
  exists S2. split_and!; [done|by eapply deletes_trans|]. intros e He _. pose proof He as [Hg Hw]%elem_of_window; [|apply HH]. destruct (decide (log_ts e <= c1)) as [Hle|Hgt].
  - eapply cleaned_fewer; [|by apply Hcl]. intros r Hin. by eapply deletes_fewer.
  - apply Hcl2; [|lia]. apply elem_of_window; [apply HH|]. split; [done|lia].
Qed.
End all_rounds.

(** With deletes disabled the loop of an index backfill over its retention never
    ends: every round returns the cursor it was given. *)
Theorem disabled_retention_never_returns (knobs : Knobs) (sha256 : list Z -> list Z) (hash_bytes : list Z -> Z) (S : Store) (bounds : SnapshotBounds) (c m : Z) (all_indexes : AllIndexes) :
  RETENTION_DELETES_ENABLED knobs = false -> c < MAX -> c + 1 < m ->
  forall fuel faults, delete_all_no_checkpoint knobs sha256 hash_bytes fuel c m S all_indexes bounds faults = None.
Proof.
  intros Hen Hc Hm fuel. induction fuel as [|fuel IH]; intros faults; cbn [delete_all_no_checkpoint]; [done|].
  unfold succ, succ_opt. rewrite (proj2 (Z.leb_gt _ _)) by done. cbn [ok_or ts_part]. rewrite (proj2 (Z.ltb_lt _ _)) by done. unfold delete. rewrite Hen. cbn [negb orb]. apply IH.
Qed.

(** A key that is cut is not deleted by what it is cut to. *)
Lemma deletes_keep_long H all_indexes m S S' iid k t v : deletes delete_index_entries (stale H all_indexes m) S S' -> deleted_key k <> k ->
  ((iid, (k, t)), v) ∈ indexes S -> ((iid, (k, t)), v) ∈ indexes S'.
Proof.
  intros Hd Hlong Hin. refine (deletes_inv _ _ (fun S' => ((iid, (k, t)), v) ∈ indexes S') _ _ _ Hd Hin). intros S0 bs Hbs Hin0. apply elem_of_delete_index_entries. split; [done|].
  intros e He (_ & _ & Hk). destruct (Hbs e He) as (s & _ & name & f & k' & _ & _ & Hpre). apply Hlong. rewrite <- Hk, Hpre. apply deleted_key_short.
  unfold deleted_key. destruct (split_key_cases k') as [[-> Hl]|(p & x & -> & Hl & _ & ->)]; cbn [split_prefix]; lia.
Qed.
