(* ===== verification/RetentionLog.v ===== *)
(** * RetentionLog: deleting from the log of documents
      (src/crates/database/src/retention.rs: delete_documents) *)

From S2P Require Import Prelude Ord BTreeMap BinaryKey Bounds Interval Timestamp Identifier Value Sorting SortingDecode Base32 IdV6 Document IndexRegistry IndexUpdates IndexKeys MemoryIndexes Persistence Retention RetentionDeletes RetentionReads.

Local Open Scope Z_scope.

Definition doc_gone (q : Z * InternalDocumentId) (S : Store) : Prop := forall t i row, ((t, i), row) ∈ documents S -> ~ (i = q.2 /\ t <= q.1).

Lemma elem_of_persistence_delete S qs t i row :
  ((t, i), row) ∈ documents (persistence_delete S qs).1 <-> ((t, i), row) ∈ documents S /\ forall q, q ∈ qs -> ~ (i = q.2 /\ t <= q.1).
Proof.
  unfold persistence_delete. cbn [documents fst]. generalize 0 as n. generalize (documents S) as D. induction qs as [|q qs IH]; intros D n; cbn [fold_left].
  - split; [|by intros [? _]]. intros Hin. split; [done|]. by intros q ?%elem_of_nil.
  - destruct (delete_document_row (D, n) q) as [D1 n1] eqn:HD1. rewrite IH. injection HD1 as <- _. rewrite elem_of_bfilter. cbn [fst snd].
    rewrite negb_true_iff, <- not_true_iff_false, !andb_true_iff, !bool_decide_eq_true, Z.leb_le. setoid_rewrite elem_of_cons. naive_solver.
Qed.

Lemma persistence_delete_wf S qs : BTreeMap.wf (documents S) -> BTreeMap.wf (documents (persistence_delete S qs).1) /\ indexes (persistence_delete S qs).1 = indexes S.
Proof.
  intros Hwf. split; [|done]. unfold persistence_delete. cbn [documents fst]. generalize 0 as n. revert Hwf. generalize (documents S) as D.
  induction qs as [|q qs IH]; intros D Hwf n; cbn [fold_left]; [done|]. destruct (delete_document_row (D, n) q) as [D1 n1] eqn:HD1. injection HD1 as <- _. by apply IH, BTreeMap.wf_bfilter.
Qed.

Lemma doc_gone_after S qs q : q ∈ qs -> doc_gone q (persistence_delete S qs).1.
Proof. intros Hq t i row [_ Hno]%elem_of_persistence_delete. by apply Hno. Qed.

Lemma doc_gone_still S qs q : doc_gone q S -> doc_gone q (persistence_delete S qs).1.
Proof. intros Hg t i row [Hin _]%elem_of_persistence_delete. by apply (Hg _ _ _ Hin). Qed.

(** Everything up to an expired entry of a document is expired. *)
Lemma expired_before H b x t i row : history_ok H -> expired H b x i -> BTreeMap.get (t, i) H = Some row -> t <= x -> expired H b t i.
Proof.
  intros HH Hx Hg Ht. destruct (decide (t = x)) as [->|Hne]; [done|].
  assert (Hrx : (exists rx, BTreeMap.get (x, i) H = Some rx) /\ x < b).
  { destruct Hx as [(s & v & Hs & Hlt)|(q & Hq & Hlt)]; [|eauto]. destruct (ho_prev _ HH _ _ _ _ Hs) as [? (d & q & ?)]. split; [eauto|lia]. }
  destruct Hrx as [(rx & Hrx) Hxb], row as [[d|] q]; [|right; exists q; split; [done|lia]].
  destruct (ho_next _ HH t i d q x rx) as (s & v & Hs & Hgs); [done|lia|done|]. left. exists s, v. split; [done|lia].
Qed.

Lemma expired_mono H b b' t i : b <= b' -> expired H b t i -> expired H b' t i.
Proof. intros Hb [(s & v & Hs & Hlt)|(q & Hq & Hlt)]; [left; exists s, v|right; exists q]; (split; [done|lia]). Qed.

Lemma delete_keeps_log H S b m qs : history_ok H -> b <= m -> retains H (documents S) b -> (forall q, q ∈ qs -> expired H m q.1 q.2) -> retains H (documents (persistence_delete S qs).1) m.
Proof.
  intros HH Hbm HD Hqs. pose proof (rt_wf _ _ _ HD) as Hwf. destruct (persistence_delete_wf S qs Hwf) as [Hwf' _]. split; [done| | |].
  - intros [t i] row Hg. apply BTreeMap.elem_of_get in Hg; [|done]. apply elem_of_persistence_delete in Hg as [Hin _]. apply (rt_sub _ _ _ HD). by apply BTreeMap.elem_of_get.
  - intros t i row Hg Hne. apply BTreeMap.elem_of_get; [done|]. apply elem_of_persistence_delete. split.
    + apply BTreeMap.elem_of_get; [done|]. apply (rt_kept _ _ _ HD); [done|]. intros He. apply Hne. by eapply expired_mono.
    + intros q Hq [-> Ht]. apply Hne. by eapply expired_before; [done|apply Hqs|..].
  - intros t t' i row Hlt Hg Hnone. rewrite BTreeMap.get_None in *. intros row' Hin. apply elem_of_persistence_delete in Hin as [Hin Hno].
    destruct (BTreeMap.get (t', i) (documents S)) as [r'|] eqn:Hg'.
    + apply (Hnone r'), elem_of_persistence_delete. split; [by apply BTreeMap.elem_of_get|]. intros q Hq [-> Ht]. apply (Hno q Hq). split; [done|lia].
    + apply (rt_suffix _ _ _ HD t t' i row Hlt Hg) in Hg'. rewrite BTreeMap.get_None in Hg'. by apply (Hg' row').
Qed.

Lemma retains_mono H D b b' : b <= b' -> retains H D b -> retains H D b'.
Proof. intros Hb [H1 H2 H3 H4]. split; [done|done| |done]. intros t i row Hg Hne. apply H3; [done|]. intros He. apply Hne. by eapply expired_mono. Qed.

Lemma deletes_keep_log H S S' b m : history_ok H -> b <= m -> retains H (documents S) b -> deletes persistence_delete (fun q => expired H m q.1 q.2) S S' ->
  retains H (documents S') m /\ indexes S' = indexes S.
Proof.
  intros HH Hbm HD Hd. apply (deletes_inv _ (fun q => expired H m q.1 q.2) (fun S' => retains H (documents S') m /\ indexes S' = indexes S)) in Hd; [done| |].
  - intros S0 qs Hqs [HD0 <-]. split; [|done]. by apply (delete_keeps_log H S0 m).
  - split; [by eapply retains_mono|done].
Qed.

Section document_round.
Context (knobs : Knobs) (hash_id : list Z * list Z -> Z) (H : Documents) (S : Store) (c m b : Z).
Context (HH : history_ok H) (Hret : retains H (documents S) b) (Hc : MIN <= c) (Hm : MIN < m <= MAX).

Lemma expired_documents_items : expired_documents S c m = (concat (map expired_documents_of (window (documents S) c m)), Ret tt).
Proof using Hc Hm.
  unfold expired_documents, load_documents. destruct (load_window S c m Hc Hm) as (-> & _). cbn [obind stream_of fst snd]. set (L := window _ _ _).
  assert (Hend : (stream_bind (fun rev => (expired_documents_of rev, Ret tt)) L (Ret tt)).2 = Ret tt) by (by apply stream_bind_total).
  destruct (stream_bind_done _ _ _ Hend) as (_ & _ & Hitems). destruct (stream_bind _ L (Ret tt)) as [l r]. cbn [fst snd] in *. by subst.
Qed.

Lemma expired_documents_of_sound e s q : e ∈ window (documents S) c m -> (s, Some q) ∈ expired_documents_of e -> s = log_ts e /\ expired H m q.1 q.2.
Proof using Hret.
  intros [Hg Hr]%elem_of_window Hin; [|apply Hret]. apply (rt_sub _ _ _ Hret) in Hg. unfold expired_documents_of in Hin.
  destruct (log_prev_ts e) as [p|] eqn:Hp, (log_value e) as [d|] eqn:Hv; rewrite ?elem_of_cons, ?elem_of_nil in Hin; destruct_or?; simplify_eq; (split; [done|]); cbn [fst snd].
  - left. exists (log_ts e), (Some d). split; [done|lia].
  - left. exists (log_ts e), None. split; [done|lia].
  - right. eexists. split; [done|lia].
  - right. eexists. split; [done|lia].
Qed.

Notation select := (filter_map (fun doc : Z * option (Z * InternalDocumentId) => option_map (pair doc.1) doc.2)).

Lemma elem_of_selected (chunks : list (list (Z * option (Z * InternalDocumentId)))) s q : (s, q) ∈ selected select chunks <-> (s, Some q) ∈ concat chunks.
Proof.
  unfold selected. induction chunks as [|chunk chunks IH]; cbn [map concat]; [by rewrite !elem_of_nil|]. rewrite !elem_of_app, IH, elem_of_filter_map. split; (intros [Hin|Hin]; [left|by right]).
  - destruct Hin as ([s' [q'|]] & Hin & Heq); [|done]. cbn in Heq. by injection Heq as <- <-.
  - by exists (s, Some q).
Qed.

Lemma delete_documents_expired lost writes : deletes persistence_delete (fun q => expired H m q.1 q.2) S (delete_documents knobs hash_id m S c lost writes).1.
Proof using Hret Hc Hm.
  unfold delete_documents. destruct (_ || _); [constructor|]. set (s := cut lost _).
  pose proof (delete_loop_spec persistence_delete doc_gone doc_gone_after doc_gone_still select (fun doc => hash_id doc.2.2) (DOCUMENT_RETENTION_DELETE_PARALLEL knobs)
    (fun _ scanned_documents => if DOCUMENT_RETENTION_MAX_SCANNED_DOCUMENTS knobs <=? scanned_documents then Some scanned_documents else None) m c
    (try_chunks2 (DOCUMENT_RETENTION_DELETE_CHUNK knobs) s).1 S c 0 0 (try_chunks2 (DOCUMENT_RETENTION_DELETE_CHUNK knobs) s).2 writes) as Hl.
  destruct (delete_loop _ _ _ _ _ _ _ _ _ _ _ _ _ _) as [S' r]. destruct Hl as [Hd _]. eapply deletes_mono; [|exact Hd]. intros q (t & Hin). rewrite elem_of_selected in Hin.
  destruct (try_chunks2_spec (DOCUMENT_RETENTION_DELETE_CHUNK knobs) s) as ([r1 H1] & _). destruct (cut_prefix lost (expired_documents S c m)) as ([r2 H2] & _). fold s in H2.
  assert (Hin' : (t, Some q) ∈ (expired_documents S c m).1) by (rewrite H2, H1, !elem_of_app; auto).
  rewrite expired_documents_items in Hin'. apply elem_of_concat_map in Hin' as (e & He & Hin'). by apply (expired_documents_of_sound e t q He).
Qed.

Lemma delete_documents_progress lost writes S' c' n : c < m -> delete_documents knobs hash_id m S c lost writes = (S', Ret (c', n)) ->
  (c' = c /\ RETENTION_DOCUMENT_DELETES_ENABLED knobs = false \/ c <= c' < m) /\
  (RETENTION_DOCUMENT_DELETES_ENABLED knobs = true -> forall e, e ∈ window H c m -> log_ts e <= c' ->
    (forall p, log_prev_ts e = Some p -> BTreeMap.get (p, log_id e) (documents S') = None) /\ (log_value e = None -> BTreeMap.get (log_ts e, log_id e) (documents S') = None)).
Proof using HH Hret Hc Hm.
  intros Hcm Hdel. pose proof (delete_documents_expired lost writes) as Hd. rewrite Hdel in Hd. cbn [fst] in Hd. revert Hdel.
  unfold delete_documents. rewrite (proj2 (Z.eqb_neq _ _)) by (unfold MIN in *; lia). rewrite orb_false_r. destruct (RETENTION_DOCUMENT_DELETES_ENABLED knobs); cbn [negb]; [|by intros [= <- <- <-]; split; [left|]].
  rewrite expired_documents_items. set (L := window (documents S) c m). set (all := concat (map expired_documents_of L)). set (s := cut lost (all, Ret tt)). set (chunks := try_chunks2 _ s). intros Hdel.
  pose proof (delete_loop_spec persistence_delete doc_gone doc_gone_after doc_gone_still select (fun doc => hash_id doc.2.2) (DOCUMENT_RETENTION_DELETE_PARALLEL knobs)
    (fun _ scanned_documents => if DOCUMENT_RETENTION_MAX_SCANNED_DOCUMENTS knobs <=? scanned_documents then Some scanned_documents else None) m c chunks.1 S c 0 0 chunks.2 writes) as Hl.
  rewrite Hdel in Hl. destruct Hl as [_ Hl]. destruct (try_chunks2_spec (DOCUMENT_RETENTION_DELETE_CHUNK knobs) s) as ([r1 H1] & Hdone & _). fold chunks in H1, Hdone.
  destruct (cut_prefix lost (all, Ret tt)) as ([r2 H2] & Hcut). fold s in H2, Hcut. cbn [fst snd] in H2.
  assert (Hts : forall e x, e ∈ L -> x ∈ expired_documents_of e -> x.1 = log_ts e).
  { intros e x _ Hx. unfold expired_documents_of in Hx. destruct (log_prev_ts e), (log_value e); rewrite ?elem_of_cons, ?elem_of_nil in Hx; destruct_or?; by simplify_eq. }
  assert (Hsorted : by_ts (map fst all)) by (apply (by_ts_concat log_ts); [apply window_sorted, Hret|done]).
  assert (Hgone : (c <= c' < m) /\ forall t q, (t, Some q) ∈ all -> t <= c' -> doc_gone q S').
  { destruct Hl as [(Hend & -> & Hg)|(ch1 & ch2 & Hch & Hlt & [_ Hfrom] & Hg)].
    - split; [lia|]. intros t q Hx _. destruct (Hdone Hend) as [Hcat Hs2]. specialize (Hcut Hs2). apply (Hg t), elem_of_selected. rewrite Hcat. by rewrite Hcut.
    - assert (Hal : all = concat ch1 ++ (concat ch2 ++ r1 ++ r2)) by (rewrite H2, H1, Hch, concat_app, <- !(assoc (++)); done).
      destruct Hfrom as [->|([ty qy] & Hy & ->)]; [lia|]. apply elem_of_selected in Hy. cbn [fst] in *. split.
      + assert (Hy' : (ty, Some qy) ∈ all) by (rewrite Hal; apply elem_of_app; by left). apply elem_of_concat_map in Hy' as (e & He & Hy'). apply (Hts e) in Hy'; [|done]. cbn [fst] in Hy'.
        apply elem_of_window in He as [_ He]; [|apply Hret]. lia.
      + intros t q Hx Hle. rewrite Hal in Hx. apply elem_of_app in Hx as [Hx|Hx]; [by apply (Hg t), elem_of_selected|]. exfalso.
        rewrite Hal in Hsorted. pose proof (by_ts_app _ _ _ _ Hsorted Hy Hx). cbn [fst] in *. lia. }
  destruct Hgone as [Hr Hgone]. split; [by right|]. intros _ e [Hg He]%elem_of_window Hle; [|apply HH].
  assert (Hsub : forall x, x ∈ documents S' -> x ∈ documents S).
  { refine (deletes_inv _ _ (fun S' => forall x, x ∈ documents S' -> x ∈ documents S) S S' _ Hd _); [|done]. intros S0 qs _ IH [[t i] row] Hin. apply IH. by apply elem_of_persistence_delete in Hin as [? _]. }
  assert (Hnone : forall k, BTreeMap.get k (documents S) = None -> BTreeMap.get k (documents S') = None).
  { intros k. rewrite !BTreeMap.get_None. intros Hk v Hv. by apply (Hk v), Hsub. }
  destruct (BTreeMap.get (log_ts e, log_id e) (documents S)) as [row|] eqn:HgS.
  - pose proof (rt_sub _ _ _ Hret _ _ HgS) as HgH. rewrite Hg in HgH. injection HgH as <-.
    assert (HeL : e ∈ L) by (apply elem_of_window; [apply Hret|]; done).
    assert (Hit : forall q, (log_ts e, Some q) ∈ expired_documents_of e -> BTreeMap.get q (documents S') = None).
    { intros [t i] Hq. apply BTreeMap.get_None. intros v Hv. apply (Hgone (log_ts e) (t, i)) in Hv; [by apply Hv|apply elem_of_concat_map; eauto|done]. }
    unfold expired_documents_of in Hit. split.
    + intros p Hp. apply Hit. rewrite Hp. left.
    + intros Hv. apply Hit. rewrite Hv. destruct (log_prev_ts e); [right; left|left].
  - split; [|intros _; by apply Hnone]. intros p Hp. apply Hnone. rewrite Hp in Hg. destruct (ho_prev _ HH _ _ _ _ Hg) as [Hlt _]. by apply (rt_suffix _ _ _ Hret p (log_ts e) _ _ Hlt Hg).
Qed.
End document_round.
