(* ===== verification/RetentionCommit.v ===== *)
(** * RetentionCommit: commits keep the log and the indexes in step
      (src/crates/sqlite/src/lib.rs: write,
       src/crates/common/src/persistence.rs: from_index_update)

    A commit writes the new revisions of its documents and the updates of the
    indexes that IndexUpdates.v computes for them. *)

From S2P Require Import Prelude Ord BTreeMap BinaryKey Bounds Interval Timestamp Identifier Value Sorting SortingDecode Base32 IdV6 Document TableMapping IndexRegistry IndexUpdates IndexKeys MemoryIndexes Persistence.

Local Open Scope Z_scope.

(** ** Inserting rows *)

Section insert_all.
Context {A K V : Type} `{OrdLaws K, !EqDecision K} (key : A -> K) (val : A -> V).

Definition insert_all (xs : list A) (m : BTreeMap.t K V) : BTreeMap.t K V := fold_left (fun m x => BTreeMap.insert (key x) (val x) m) xs m.

Lemma insert_all_get xs : forall m, BTreeMap.wf m -> NoDup (map key xs) ->
  BTreeMap.wf (insert_all xs m) /\ (forall x, x ∈ xs -> BTreeMap.get (key x) (insert_all xs m) = Some (val x)) /\
  (forall k, k ∉ map key xs -> BTreeMap.get k (insert_all xs m) = BTreeMap.get k m).
Proof.
  unfold insert_all. induction xs as [|x xs IH]; intros m Hwf Hnd; cbn [fold_left map]; [split_and!; [done| |done]; by intros ? ?%elem_of_nil|].
  cbn [map] in Hnd. apply NoDup_cons in Hnd as [Hni Hnd]. destruct (IH (BTreeMap.insert (key x) (val x) m)) as (Hwf' & Hin & Hout); [by apply BTreeMap.wf_insert|done|].
  split_and!; [done| |].
  - intros y [->|Hy]%elem_of_cons; [|by apply Hin]. rewrite Hout by done. by apply BTreeMap.get_insert_eq.
  - intros k [Hk Hni']%not_elem_of_cons. rewrite Hout by done. by apply BTreeMap.get_insert_ne.
Qed.

Lemma insert_rows_ret (guard : A -> outcome persistence_error unit) xs : forall m m', BTreeMap.wf m ->
  foldM (fun m x => guard x ;? insert_row ConflictError (key x) (val x) m) m xs = Ret m' ->
  m' = insert_all xs m /\ NoDup (map key xs) /\ (forall x, x ∈ xs -> guard x = Ret tt /\ BTreeMap.get (key x) m = None).
Proof.
  induction xs as [|x xs IH]; intros m m' Hwf; cbn [foldM map]; [intros [= <-]; split_and!; [done|constructor|]; by intros ? ?%elem_of_nil|].
  destruct (guard x) as [[]| |] eqn:Hg; cbn [obind]; [|done..]. unfold insert_row at 1. destruct (BTreeMap.get (key x) m) as [v|] eqn:Hx; [done|]. cbn [obind]. intros Hf.
  apply IH in Hf as (-> & Hnd & Hall); [|by apply BTreeMap.wf_insert].
  assert (Hne : forall y, y ∈ xs -> key y <> key x).
  { intros y Hy Heq. destruct (Hall y Hy) as [_ Hn]. rewrite Heq, BTreeMap.get_insert_eq in Hn by done. done. }
  split_and!; [done| |].
  - constructor; [|done]. intros (y & Heq & Hy)%list_elem_of_fmap. by apply (Hne y Hy).
  - intros y [->|Hy]%elem_of_cons; [done|]. destruct (Hall y Hy) as [? Hn]. split; [done|]. by rewrite BTreeMap.get_insert_ne in Hn by first [done|by apply Hne].
Qed.
End insert_all.

Definition log_key (e : DocumentLogEntry) : Z * InternalDocumentId := (log_ts e, log_id e).
Definition log_row (e : DocumentLogEntry) : option PackedDocument * option Z := (log_value e, log_prev_ts e).
Definition index_row_key (e : PersistenceIndexEntry) : list Z * (list Z * Z) := (pie_index_id e, (pie_key e, pie_ts e)).

(** The log after a commit. *)
Definition append (H : Documents) (docs : list DocumentLogEntry) : Documents := insert_all log_key log_row docs H.

(** ** What a commit writes *)

Section commit.
Context (H : Documents) (c : Z) (docs : list DocumentLogEntry).

(** The revisions of the documents at a new timestamp: [prev_ts] is the
    timestamp of the document that is replaced. *)
Record commit_ok : Prop := {
  co_range : MIN < c < MAX;
  co_new t i row : BTreeMap.get (t, i) H = Some row -> t < c;
  co_ts e : e ∈ docs -> log_ts e = c;
  co_ids : NoDup (map log_id docs);
  co_value e d : e ∈ docs -> log_value e = Some d -> id_with_table_id d = log_id e /\ good_doc d;
  co_prev e p : e ∈ docs -> log_prev_ts e = Some p <-> exists d, current H (log_id e) (c - 1) p d;
}.

(** The rows of one index: the keys of the new revisions, and deletions of the
    keys that are no longer. *)
Definition rows_ok (rows : list PersistenceIndexEntry) (iid tablet : list Z) (fields : list FieldPath) : Prop :=
  forall k,
    (forall i, (exists r, r ∈ rows /\ pie_index_id r = iid /\ pie_key r = k /\ pie_value r = Some i) <->
      exists e d, e ∈ docs /\ log_id e = i /\ i.1 = tablet /\ log_value e = Some d /\ doc_key d fields = k) /\
    ((exists r, r ∈ rows /\ pie_index_id r = iid /\ pie_key r = k /\ pie_value r = None) <->
      exists e p d, e ∈ docs /\ (log_id e).1 = tablet /\ current H (log_id e) (c - 1) p d /\ doc_key d fields = k /\
        ~ exists d', log_value e = Some d' /\ doc_key d' fields = k).

Context (HC : commit_ok).

(** A table of entries before the commit, after it. *)
Lemma append_get D : BTreeMap.wf D -> (forall t i row, BTreeMap.get (t, i) D = Some row -> t < c) ->
  BTreeMap.wf (append D docs) /\ (forall e, e ∈ docs -> BTreeMap.get (c, log_id e) (append D docs) = Some (log_row e)) /\
  (forall t i, t <> c -> BTreeMap.get (t, i) (append D docs) = BTreeMap.get (t, i) D) /\
  (forall i row, BTreeMap.get (c, i) (append D docs) = Some row -> exists e, e ∈ docs /\ log_id e = i /\ row = log_row e).
Proof using HC.
  intros HD Hnew. assert (Hkeys : map log_key docs = map (pair c) (map log_id docs)).
  { rewrite map_map. apply map_ext_in. intros e He. unfold log_key. rewrite (co_ts HC e); [done|by apply list_elem_of_In]. }
  destruct (insert_all_get log_key log_row docs D HD) as (Hwf & Hin & Hout).
  { rewrite Hkeys. apply NoDup_fmap_2; [by intros ? ? [= ->]|apply HC]. }
  assert (Hin' : forall e, e ∈ docs -> BTreeMap.get (c, log_id e) (append D docs) = Some (log_row e)).
  { intros e He. rewrite <- (co_ts HC e He). by apply Hin. }
  split_and!; [done|done| |].
  - intros t i Hne. apply Hout. rewrite Hkeys. intros (j & [= -> ->] & _)%list_elem_of_fmap. done.
  - intros i row Hg. destruct (decide (i ∈ map log_id docs)) as [Hi|Hni].
    + apply list_elem_of_fmap in Hi as (e & -> & He). rewrite Hin' in Hg by done. injection Hg as <-. eauto.
    + unfold append in Hg. rewrite Hout in Hg; [apply Hnew in Hg; lia|]. rewrite Hkeys. intros (j & [= ->] & Hj)%list_elem_of_fmap. done.
Qed.

(** The latest document before the commit is the latest at any later time. *)
Lemma current_before i ts t d : c - 1 <= ts -> current H i ts t d <-> current H i (c - 1) t d.
Proof using HC.
  intros Hts. unfold current. split; intros ((p & Hg) & Ht & Hn); (split; [eauto|]).
  - pose proof (co_new HC _ _ _ Hg). split; [lia|]. intros t' Ht'. apply Hn. lia.
  - split; [lia|]. intros t' Ht'. destruct (BTreeMap.get (t', i) H) as [row|] eqn:Hg'; [|done]. pose proof (co_new HC _ _ _ Hg'). by rewrite Hn in Hg' by lia.
Qed.

Context (HH : history_ok H).

Let H' := append H docs.

Lemma append_history : BTreeMap.wf H' /\ (forall e, e ∈ docs -> BTreeMap.get (c, log_id e) H' = Some (log_row e)) /\
  (forall t i, t <> c -> BTreeMap.get (t, i) H' = BTreeMap.get (t, i) H) /\
  (forall i row, BTreeMap.get (c, i) H' = Some row -> exists e, e ∈ docs /\ log_id e = i /\ row = log_row e).
Proof using HC HH. apply append_get; [apply HH|apply HC]. Qed.

(** A document is the latest version before the commit, or has a successor. *)
Lemma current_or_next t i d q : BTreeMap.get (t, i) H = Some (Some d, q) -> current H i (c - 1) t d \/ exists s v, t < s < c /\ BTreeMap.get (s, i) H = Some (v, Some t).
Proof using HC HH.
  intros Hg. pose proof (co_new HC _ _ _ Hg) as Ht. set (l := bfilter (fun e : (Z * (list Z * list Z)) * (option PackedDocument * option Z) => bool_decide (e.1.2 = i) && (e.1.1 <=? c - 1)) H).
  destruct (last l) as [[[t0 i0] row0]|] eqn:Hl.
  - assert (i0 = i) as -> by (apply last_Some_elem_of, elem_of_bfilter in Hl as [_ Hb]; cbn in Hb; bool_hyps; by apply bool_decide_eq_true in H0).
    apply last_of_id in Hl as (Hg0 & Ht0 & Hn0); [|apply HH]. destruct (Z.lt_trichotomy t t0) as [Hlt|[->|Hlt]].
    + right. destruct (ho_next _ HH t i d q t0 row0 Hg Hlt Hg0) as (s & v & Hs & Hgs). exists s, v. split; [lia|done].
    + left. split_and!; [eauto|done..].
    + rewrite Hn0 in Hg by lia. done.
  - apply last_None in Hl. assert (Hin : ((t, i), (Some d, q)) ∈ l); [|rewrite Hl in Hin; by apply elem_of_nil in Hin].
    apply elem_of_bfilter. split; [by apply BTreeMap.elem_of_get; [apply HH|]|]. cbn [fst]. rewrite bool_decide_eq_true_2 by done. cbn [andb]. apply Z.leb_le. lia.
Qed.

Lemma append_history_ok : history_ok H'.
Proof using HC HH.
  destruct append_history as (Hwf & Hin & Hout & Hinv). split; [done|..].
  - intros t i row Hg. destruct (decide (t = c)) as [->|]; [apply HC|]. rewrite Hout in Hg by done. by apply (ho_ts _ HH) in Hg.
  - intros t i d p Hg. destruct (decide (t = c)) as [->|]; [|rewrite Hout in Hg by done; by apply (ho_value _ HH) in Hg].
    apply Hinv in Hg as (e & He & <- & Hrow). injection Hrow as Hv _. by apply (co_value HC).
  - intros t i v p Hg. destruct (decide (t = c)) as [->|].
    + apply Hinv in Hg as (e & He & <- & Hrow). injection Hrow as _ Hp. symmetry in Hp. apply (co_prev HC) in Hp as (d & (q & Hg) & Ht & _); [|done].
      split; [lia|]. exists d, q. rewrite Hout by lia. done.
    + rewrite Hout in Hg by done. pose proof (co_new HC _ _ _ Hg). destruct (ho_prev _ HH _ _ _ _ Hg) as [Hlt (d & q & Hp)]. split; [done|]. exists d, q. rewrite Hout by lia. done.
  - intros t i v p t' Hg Ht'. destruct (decide (t = c)) as [->|].
    + apply Hinv in Hg as (e & He & <- & Hrow). injection Hrow as _ Hp. symmetry in Hp. apply (co_prev HC) in Hp as (d & _ & _ & Hn); [|done]. rewrite Hout by lia. apply Hn. lia.
    + rewrite Hout in Hg by done. pose proof (co_new HC _ _ _ Hg). rewrite Hout by lia. by apply (ho_between _ HH _ _ _ _ t' Hg).
  - intros t i d q s row Hg Hlt Hs. destruct (decide (s = c)) as [->|Hne].
    + rewrite Hout in Hg by lia. apply Hinv in Hs as (e & He & <- & ->). destruct (current_or_next t (log_id e) d q Hg) as [Hcur|(s' & v & Hs' & Hgs)].
      * exists c, (log_value e). split; [lia|]. rewrite Hin by done. unfold log_row. by rewrite (proj2 (co_prev HC e t He)) by eauto.
      * exists s', v. split; [lia|]. rewrite Hout by lia. done.
    + rewrite Hout in Hs by done. pose proof (co_new HC _ _ _ Hs). rewrite Hout in Hg by lia. destruct (ho_next _ HH t i d q s row Hg Hlt Hs) as (s' & v & Hs' & Hgs).
      exists s', v. split; [done|]. rewrite Hout by lia. done.
Qed.

Lemma append_retains D b : retains H D b -> retains H' (append D docs) b.
Proof using HC HH.
  intros HD. destruct append_history as (_ & Hin & Hout & Hinv).
  destruct (append_get D (rt_wf _ _ _ HD)) as (Hwf & HinD & HoutD & HinvD); [intros t i row Hg; apply (rt_sub _ _ _ HD) in Hg; by apply (co_new HC) in Hg|]. split; [done|..].
  - intros [t i] row Hg. destruct (decide (t = c)) as [->|]; [|rewrite HoutD in Hg by done; rewrite Hout by done; by apply (rt_sub _ _ _ HD)].
    apply HinvD in Hg as (e & He & <- & ->). by apply Hin.
  - intros t i row Hg Hne. destruct (decide (t = c)) as [->|Htc]; [apply Hinv in Hg as (e & He & <- & ->); by apply HinD|]. rewrite Hout in Hg by done. rewrite HoutD by done.
    apply (rt_kept _ _ _ HD); [done|]. intros He. apply Hne. assert (Hkeep : forall s row, BTreeMap.get (s, i) H = Some row -> BTreeMap.get (s, i) H' = Some row).
    { intros s row' Hs. pose proof (co_new HC _ _ _ Hs). by rewrite Hout by lia. }
    destruct He as [(s & v & Hs & Hlt)|(q & Hq & Hlt)]; [left; exists s, v|right; exists q]; split; eauto.
  - intros t t' i row Hlt Hg Hn. destruct (decide (t' = c)) as [->|Hne]; [apply Hinv in Hg as (e & He & <- & ->); rewrite HinD in Hn by done; done|].
    rewrite Hout in Hg by done. rewrite HoutD in Hn by done. pose proof (co_new HC _ _ _ Hg). rewrite HoutD by lia. by apply (rt_suffix _ _ _ HD t t' i row).
Qed.

Lemma current_append_old i ts t d : ts < c -> current H' i ts t d <-> current H i ts t d.
Proof using HC HH.
  intros Hts. destruct append_history as (_ & _ & Hout & _). unfold current. split; intros ((p & Hg) & Ht & Hn); (split_and!; [exists p|done|]).
  - by rewrite <- Hout by lia.
  - intros t' Ht'. rewrite <- Hout by lia. by apply Hn.
  - by rewrite Hout by lia.
  - intros t' Ht'. rewrite Hout by lia. by apply Hn.
Qed.

Lemma current_append_new i ts t d : c <= ts ->
  current H' i ts t d <-> (t = c /\ exists e, e ∈ docs /\ log_id e = i /\ log_value e = Some d) \/ ((forall e, e ∈ docs -> log_id e <> i) /\ current H i (c - 1) t d).
Proof using HC HH.
  intros Hts. destruct append_history as (_ & Hin & Hout & Hinv). split.
  - intros ((p & Hg) & Ht & Hn). destruct (decide (t = c)) as [->|Hne].
    + left. split; [done|]. apply Hinv in Hg as (e & He & <- & Hrow). injection Hrow as Hv _. eauto.
    + right. rewrite Hout in Hg by done. pose proof (co_new HC _ _ _ Hg). split.
      * intros e He <-. specialize (Hn c ltac:(lia)). rewrite Hin in Hn by done. done.
      * split_and!; [eauto|lia|]. intros t' Ht'. rewrite <- Hout by lia. apply Hn. lia.
  - assert (Hlater : forall t', c < t' -> BTreeMap.get (t', i) H' = None).
    { intros t' Ht'. rewrite Hout by lia. destruct (BTreeMap.get (t', i) H) as [row|] eqn:Hg; [|done]. pose proof (co_new HC _ _ _ Hg). lia. }
    intros [(-> & e & He & <- & Hv)|(Hno & (p & Hg) & Ht & Hn)].
    + split_and!; [exists (log_prev_ts e); rewrite Hin by done; unfold log_row; by rewrite Hv|done|]. intros t' Ht'. apply Hlater. lia.
    + pose proof (co_new HC _ _ _ Hg). split_and!; [exists p; by rewrite Hout by lia|lia|]. intros t' Ht'. destruct (Z.lt_trichotomy t' c) as [Hlt|[->|Hgt]]; [rewrite Hout by lia; apply Hn; lia| |by apply Hlater].
      destruct (BTreeMap.get (c, i) H') as [row|] eqn:Hg'; [|done]. apply Hinv in Hg' as (e & He & Hi & _). by destruct (Hno e He).
Qed.

(** *** Index rows *)

Context (R : Indexes) (rows : list PersistenceIndexEntry) (iid tablet : list Z) (fields : list FieldPath).
Context (HR : BTreeMap.wf R) (Hnd : NoDup (map index_row_key rows)) (Hrts : forall r, r ∈ rows -> pie_ts r = c).
Context (Hold : forall k t v, BTreeMap.get (iid, (k, t)) R = Some v -> t < c).

Let R' := insert_all index_row_key pie_value rows R.

Lemma append_rows_get : BTreeMap.wf R' /\ (forall j k t, t <> c -> BTreeMap.get (j, (k, t)) R' = BTreeMap.get (j, (k, t)) R) /\
  (forall k v, BTreeMap.get (iid, (k, c)) R' = Some v <-> exists r, r ∈ rows /\ pie_index_id r = iid /\ pie_key r = k /\ pie_value r = v).
Proof using HR Hnd Hrts Hold.
  destruct (insert_all_get index_row_key pie_value rows R HR Hnd) as (Hwf & Hin & Hout). split_and!; [done| |].
  - intros j k t Hne. apply Hout. intros (r & Heq & Hr)%list_elem_of_fmap. unfold index_row_key in Heq. injection Heq as _ _ ->. by apply Hne, Hrts.
  - intros k v. split.
    + intros Hg. destruct (decide ((iid, (k, c)) ∈ map index_row_key rows)) as [Hk|Hk].
      * apply list_elem_of_fmap in Hk as (r & Heq & Hr). pose proof (Hin r Hr) as Hg'. rewrite <- Heq in Hg'. unfold R' in Hg. rewrite Hg' in Hg. injection Hg as <-.
        unfold index_row_key in Heq. injection Heq as -> -> _. eauto.
      * unfold R' in Hg. rewrite Hout in Hg by done. apply Hold in Hg. lia.
    + intros (r & Hr & <- & <- & <-). rewrite <- (Hrts r Hr). by apply (Hin r).
Qed.

Lemma visible_append_old k ts i t : ts < c -> row_visible R' iid k ts i t <-> row_visible R iid k ts i t.
Proof using HR Hnd Hrts Hold.
  intros Hts. destruct append_rows_get as (_ & Hout & _). unfold row_visible. split; intros (Hg & Ht & Hn); split_and!.
  - by rewrite <- Hout by lia.
  - done.
  - intros t' Ht'. rewrite <- Hout by lia. by apply Hn.
  - by rewrite Hout by lia.
  - done.
  - intros t' Ht'. rewrite Hout by lia. by apply Hn.
Qed.

Lemma visible_append_new k ts i t : c <= ts -> row_visible R' iid k ts i t <->
  (t = c /\ exists r, r ∈ rows /\ pie_index_id r = iid /\ pie_key r = k /\ pie_value r = Some i) \/
  ((forall r, r ∈ rows -> pie_index_id r = iid -> pie_key r <> k) /\ row_visible R iid k (c - 1) i t).
Proof using HR Hnd Hrts Hold.
  intros Hts. destruct append_rows_get as (_ & Hout & Hrow). split.
  - intros (Hg & Ht & Hn). destruct (decide (t = c)) as [->|Hne]; [left; split; [done|]; by apply Hrow|]. right. rewrite Hout in Hg by done. pose proof (Hold _ _ _ Hg). split.
    + intros r Hr Hj Hk. specialize (Hn c ltac:(lia)). rewrite (proj2 (Hrow k (pie_value r))) in Hn by eauto. done.
    + split_and!; [done|lia|]. intros t' Ht'. rewrite <- (Hout iid k t') by lia. apply Hn. lia.
  - assert (Hlater : forall t', c < t' -> BTreeMap.get (iid, (k, t')) R' = None).
    { intros t' Ht'. rewrite Hout by lia. destruct (BTreeMap.get (iid, (k, t')) R) as [v|] eqn:Hg; [|done]. apply Hold in Hg. lia. }
    intros [(-> & Hr)|(Hno & Hg & Ht & Hn)].
    + split_and!; [by apply Hrow|done|]. intros t' Ht'. apply Hlater. lia.
    + pose proof (Hold _ _ _ Hg). split_and!; [by rewrite Hout by lia|lia|]. intros t' Ht'. destruct (Z.lt_trichotomy t' c) as [Hlt|[->|Hgt]]; [rewrite Hout by lia; apply Hn; lia| |by apply Hlater].
      destruct (BTreeMap.get (iid, (k, c)) R') as [v|] eqn:Hg'; [|done]. apply Hrow in Hg' as (r & Hr & Hj & Hk & _). by destruct (Hno r Hr Hj).
Qed.

(** Documents of one table with the same key are the same. *)
Lemma key_owner i i' t t' d d' : current H i (c - 1) t d -> i.1 = tablet ->
  (exists e, e ∈ docs /\ log_id e = i' /\ log_value e = Some d') \/ current H i' (c - 1) t' d' -> i'.1 = tablet -> doc_key d fields = doc_key d' fields -> i = i'.
Proof using HC HH.
  intros ((p & Hg) & _) Hi Hor Hi' Hk. destruct (ho_value _ HH _ _ _ _ Hg) as [<- Hgood].
  assert (Hd' : id_with_table_id d' = i' /\ good_doc d').
  { destruct Hor as [(e & He & <- & Hv)|((q & Hg') & _)]; [by apply (co_value HC)|by apply (ho_value _ HH _ _ _ _ Hg')]. }
  destruct Hd' as [<- Hgood']. apply doc_key_inj in Hk; [|done..]. unfold id_with_table_id in *. cbn [fst] in *. congruence.
Qed.

Lemma append_reads ts : rows_ok rows iid tablet fields -> (ts < c -> reads_right H R iid tablet fields ts) -> reads_right H R iid tablet fields (c - 1) -> reads_right H' R' iid tablet fields ts.
Proof using HC HH HR Hnd Hrts Hold.
  intros Hrows Hts Hlast k i t. destruct (decide (ts < c)) as [Hlt|Hge].
  { rewrite visible_append_old, (Hts Hlt k i t) by done. split; intros (d & Hc & Hd); exists d; (split; [|done]); by apply current_append_old. }
  rewrite visible_append_new, (Hlast k i t) by lia. destruct (Hrows k) as [Hnew Hdel]. split.
  - intros [(-> & Hr)|(Hno & d & Hc & Hi & Hk)].
    + apply Hnew in Hr as (e & d & He & <- & Hi & Hv & Hk). exists d. split; [|done]. apply current_append_new; [lia|]. left. eauto.
    + exists d. split; [|done]. apply current_append_new; [lia|]. right. split; [|done]. intros e He <-.
      assert (Hdec : (exists d', log_value e = Some d' /\ doc_key d' fields = k) \/ ~ exists d', log_value e = Some d' /\ doc_key d' fields = k).
      { destruct (log_value e) as [d'|]; [|right; by intros (? & ? & _)]. destruct (decide (doc_key d' fields = k)); [left; eauto|right; by intros (? & [= <-] & ?)]. }
      destruct Hdec as [(d' & Hv & Hk')|Hne].
      * destruct (proj2 (Hnew (log_id e))) as (r & Hr & Hj & Hkr & _); [by exists e, d'|]. by apply (Hno r).
      * destruct (proj2 Hdel) as (r & Hr & Hj & Hkr & _); [by exists e, t, d|]. by apply (Hno r).
  - intros (d & Hc & Hi & Hk). apply current_append_new in Hc as [(-> & e & He & <- & Hv)|(Hno & Hc)]; [| |lia].
    + left. split; [done|]. apply Hnew. eauto 10.
    + right. split; [|eauto]. intros r Hr Hj Hkr. destruct (pie_value r) as [i'|] eqn:Hv.
      * destruct (proj1 (Hnew i')) as (e & d' & He & Hie & Hi' & Hv' & Hk'); [eauto|]. apply (Hno e He). rewrite Hie. symmetry. eapply (key_owner i i' t t d d'); eauto. congruence.
      * destruct (proj1 Hdel) as (e & p & d' & He & Hi' & Hc' & Hk' & _); [eauto|]. apply (Hno e He). symmetry. eapply (key_owner i (log_id e) t p d d'); eauto. congruence.
Qed.
End commit.

(** ** The updates of the index registry are these rows *)

Section updates.
Context (H : Documents) (c : Z) (docs : list DocumentLogEntry) (HC : commit_ok H c docs) (HH : history_ok H).
Context (r : IndexRegistry) (Hr : registry_ok r) (cat : list Z -> option (list Z * list FieldPath)) (Hcat : catalogued cat r).
Context (old : DocumentLogEntry -> option PackedDocument) (Hold : forall e d, e ∈ docs -> old e = Some d <-> exists p, current H (log_id e) (c - 1) p d).
Context (updates : DocumentLogEntry -> list DatabaseIndexUpdate) (Hupd : forall e, e ∈ docs -> index_updates (E := persistence_error) r (old e) (log_value e) = Ret (updates e)).
Context (ix : Index) (tablet : list Z) (fields : list FieldPath) (Hix : database_index r tablet ix fields).

Definition commit_rows : list PersistenceIndexEntry := concat (map (fun e => map (from_index_update c) (updates e)) docs).

(** What the updates of one document say of a key of the index. *)
Lemma updates_of_key e k : e ∈ docs ->
  (forall i, (exists u, u ∈ updates e /\ upd_index_id u = index_id ix /\ upd_key u = k /\ pie_value (from_index_update c u) = Some i) <->
    exists d, log_id e = i /\ i.1 = tablet /\ log_value e = Some d /\ doc_key d fields = k) /\
  ((exists u, u ∈ updates e /\ upd_index_id u = index_id ix /\ upd_key u = k /\ pie_value (from_index_update c u) = None) <->
    (log_id e).1 = tablet /\ exists p d, current H (log_id e) (c - 1) p d /\ doc_key d fields = k /\ ~ exists d', log_value e = Some d' /\ doc_key d' fields = k).
Proof using HC HH Hr Hcat Hold Hupd Hix.
  intros He. assert (Hoid : forall d, old e = Some d -> id_with_table_id d = log_id e /\ good_doc d).
  { intros d (p & (q & Hg) & _)%Hold; [|done]. by apply (ho_value _ HH _ _ _ _ Hg). }
  assert (Hnid : forall d, log_value e = Some d -> id_with_table_id d = log_id e /\ good_doc d) by (intros d; by apply (co_value _ _ _ HC)).
  destruct (index_updates_ret r (old e) (log_value e) Hr) as (m & Hm & Hwf & Hkeys & Hat); [intros d [Hd|Hd]; [by apply Hoid|by apply Hnid]|].
  specialize (Hupd e He). rewrite Hm in Hupd. injection Hupd as Hlist. specialize (Hat (index_id ix) k).
  assert (Hu : forall P : DatabaseIndexValue -> Prop, (exists u, u ∈ updates e /\ upd_index_id u = index_id ix /\ upd_key u = k /\ P (upd_value u)) <-> exists v, option_map upd_value (BTreeMap.get (index_id ix, k) m) = Some v /\ P v).
  { intros P. rewrite <- Hlist. split.
    - intros (u & ([k' u'] & -> & Hin)%list_elem_of_fmap & Hi & Hk & HP). cbn [snd] in *. pose proof (Hkeys _ Hin) as Hk'. cbn [fst snd] in Hk'. rewrite Hi, Hk in Hk'. subst k'.
      apply BTreeMap.elem_of_get in Hin; [|done]. rewrite Hin. eauto.
    - intros (v & Hg & HP). destruct (BTreeMap.get (index_id ix, k) m) as [u|] eqn:Hgu; [|done]. injection Hg as <-. apply BTreeMap.elem_of_get in Hgu; [|done].
      pose proof (Hkeys _ Hgu) as Hk'. cbn [fst snd] in Hk'. injection Hk' as Hk1 Hk2. exists u. split_and!; [apply list_elem_of_fmap; by exists ((index_id ix, k), u)|done..]. }
  (* the index of a document of the log entry is [ix] *)
  assert (Hspec : forall d ix' f, database_index r (tablet_id (id d)) ix' f -> index_id ix' = index_id ix -> tablet_id (id d) = tablet /\ f = fields).
  { intros d ix' f Hdb Hid. pose proof (Hcat _ _ _ Hdb) as H1. rewrite Hid, (Hcat _ _ _ Hix) in H1. by injection H1. }
  set (HasKey := fun o : option PackedDocument => exists d, o = Some d /\ tablet_id (id d) = tablet /\ doc_key d fields = k).
  assert (Hhas : forall o, (exists d ix' f, o = Some d /\ database_index r (tablet_id (id d)) ix' f /\ index_id ix' = index_id ix /\ k = doc_key d f) <-> HasKey o).
  { intros o. split.
    - intros (d & ix' & f & -> & Hdb & Hid & ->). destruct (Hspec d ix' f Hdb Hid) as [Ht ->]. by exists d.
    - intros (d & -> & Ht & <-). exists d, ix, fields. by rewrite Ht. }
  assert (Hcase : match option_map upd_value (BTreeMap.get (index_id ix, k) m) with
    | Some (NonClustered i) => exists d, log_value e = Some d /\ i = id d /\ tablet_id (id d) = tablet /\ doc_key d fields = k
    | Some Deleted => HasKey (old e) /\ ~ HasKey (log_value e) | None => ~ HasKey (old e) /\ ~ HasKey (log_value e) end).
  { destruct (option_map upd_value _) as [[|i]|]; cbn in Hat.
    - rewrite !Hhas in Hat. done.
    - destruct Hat as (d & ix' & f & Hv & -> & Hdb & Hid & ->). destruct (Hspec d ix' f Hdb Hid) as [Ht ->]. eauto 10.
    - rewrite <- !Hhas. split; intros (d & ix' & f & Hv & Hrest); apply Hat; exists d, ix', f; eauto. }
  clear Hat. split.
  - intros i. rewrite (Hu (fun v => match v with Deleted => None | NonClustered j => Some (tablet_id j, internal_id (developer_id j)) end = Some i)). split.
    + intros (v & Hg & Hv). rewrite Hg in Hcase. destruct v as [|j]; [done|]. destruct Hcase as (d & Hd & -> & Ht & Hk). injection Hv as <-. exists d.
      destruct (Hnid d Hd) as [Hid _]. unfold id_with_table_id in Hid. by rewrite <- Hid.
    + intros (d & <- & Ht & Hv & Hk). destruct (Hnid d Hv) as [Hid _]. rewrite <- Hid in Ht |- *. assert (HK : HasKey (log_value e)) by (by exists d).
      destruct (option_map upd_value _) as [[|j]|]; [by destruct Hcase|..|by destruct Hcase]. exists (NonClustered j). split; [done|].
      destruct Hcase as (d' & Hv' & -> & _). rewrite Hv in Hv'. by injection Hv' as <-.
  - rewrite (Hu (fun v => match v with Deleted => None | NonClustered j => Some (tablet_id j, internal_id (developer_id j)) end = None)). split.
    + intros (v & Hg & Hv). rewrite Hg in Hcase. destruct v as [|j]; [|done]. destruct Hcase as [(d & Ho & Ht & Hk) Hno]. destruct (Hoid d Ho) as [Hid _]. rewrite <- Hid. split; [done|].
      apply Hold in Ho as (p & Hc); [|done]. rewrite Hid. exists p, d. split_and!; [done..|]. intros (d' & Hv' & Hk'). apply Hno. exists d'. split_and!; [done| |done].
      destruct (Hnid d' Hv') as [Hid' _]. unfold id_with_table_id in *. rewrite <- Hid in Hid'. injection Hid' as -> _. done.
    + intros (Ht & p & d & Hc & Hk & Hno). assert (Ho : old e = Some d) by (apply Hold; eauto). destruct (Hoid d Ho) as [Hid _]. rewrite <- Hid in Ht. cbn in Ht.
      assert (HK : HasKey (old e)) by (by exists d). assert (HN : ~ HasKey (log_value e)) by (intros (d' & Hv & _ & Hk'); apply Hno; eauto).
      destruct (option_map upd_value _) as [[|j]|]; [by exists Deleted| |by destruct Hcase]. destruct Hcase as (d' & Hv & _ & ? & ?). destruct HN. by exists d'.
Qed.

Lemma updates_rows_ok : rows_ok H c docs commit_rows (index_id ix) tablet fields /\ forall row, row ∈ commit_rows -> pie_ts row = c.
Proof using HC HH Hr Hcat Hold Hupd Hix.
  assert (Hrow : forall row, row ∈ commit_rows <-> exists e u, e ∈ docs /\ u ∈ updates e /\ row = from_index_update c u).
  { intros row. unfold commit_rows. rewrite elem_of_concat_map. split.
    - intros (e & He & (u & -> & Hu)%list_elem_of_fmap). eauto.
    - intros (e & u & He & Hu & ->). exists e. split; [done|]. apply list_elem_of_fmap. eauto. }
  split; [|by intros row (e & u & _ & _ & ->)%Hrow]. intros k. split; [intros i|]; split.
  - intros (row & (e & u & He & Hu & ->)%Hrow & Hi & Hk & Hv). destruct (proj1 (proj1 (updates_of_key e k He) i)) as (d & ? & ? & ? & ?); [eauto|]. eauto 10.
  - intros (e & d & He & Hi & Ht & Hv & Hk). destruct (proj2 (proj1 (updates_of_key e k He) i)) as (u & Hu & ? & ? & ?); [eauto|]. exists (from_index_update c u). split; [apply Hrow; eauto|done].
  - intros (row & (e & u & He & Hu & ->)%Hrow & Hi & Hk & Hv). destruct (proj1 (proj2 (updates_of_key e k He))) as (Ht & p & d & ? & ? & ?); [eauto|]. eauto 10.
  - intros (e & p & d & He & Ht & Hc & Hk & Hno). destruct (proj2 (proj2 (updates_of_key e k He))) as (u & Hu & ? & ? & ?); [eauto 10|]. exists (from_index_update c u). split; [apply Hrow; eauto|done].
Qed.
End updates.
