(* ===== verification/RetentionSystem.v ===== *)
(** * RetentionSystem: retention beside commits and reads
      (src/crates/database/src/retention.rs, src/crates/sqlite/src/lib.rs)

    Commits, index backfills, the advance of the bounds, rounds of both
    deleters with any failures, and restarts, in any order, each as one step.  A
    read is data taken from the tables in one state and validated in a later
    one. *)

From S2P Require Import Prelude Ord BTreeMap BinaryKey Bounds Interval Timestamp Identifier Value Sorting SortingDecode Base32 IdV6 Document IndexRegistry IndexUpdates IndexKeys MemoryIndexes Persistence Retention RetentionDeletes RetentionReads RetentionLog RetentionCommit.

Local Open Scope Z_scope.

(** ** The bounds in order *)

(** In memory at most in persistence, what the deleters were told at most in
    memory, and
    min_document_snapshot <= index checkpoint <= index cursor <= min_index_snapshot. *)
Record ordered (st : Retention) (repeatable : Z) : Prop := {
  or_index : MIN <= min_index_snapshot_ts (bounds st) <= latest_retention_min_snapshot_ts (globals st) RetainIndex;
  or_index_max : latest_retention_min_snapshot_ts (globals st) RetainIndex <= repeatable < MAX;
  or_document : MIN <= min_document_snapshot_ts (bounds st) <= latest_retention_min_snapshot_ts (globals st) RetainDocument;
  or_index_rx : MIN <= min_snapshot_rx st <= min_index_snapshot_ts (bounds st);
  or_document_rx : MIN <= min_document_snapshot_rx st <= min_document_snapshot_ts (bounds st);
  or_checkpoint : latest_retention_min_snapshot_ts (globals st) RetainDocument <= get_checkpoint_not_repeatable (globals st) RetainIndex;
  or_memory : default MIN (checkpoint_reader st) <= get_checkpoint_not_repeatable (globals st) RetainIndex;
  or_cursor : get_checkpoint_not_repeatable (globals st) RetainIndex <= cursor st <= min_index_snapshot_ts (bounds st);
  or_document_cursor : MIN <= document_cursor st /\ MIN <= get_checkpoint_not_repeatable (globals st) RetainDocument;
}.

Section ordered.
Context (knobs : Knobs).

Lemma candidate_bound max_repeatable_ts ckpt t c : candidate_min_snapshot_ts knobs max_repeatable_ts ckpt t = Ret c ->
  c <= max_repeatable_ts /\ (t = RetainDocument -> c <= default MIN ckpt).
Proof.
  unfold candidate_min_snapshot_ts, repeatable_sub, prior_ts. intros Hc. destruct (sub _ _) as [x|e|]; cbn [ts_part obind] in Hc; [|done..].
  destruct (Z.leb_spec x max_repeatable_ts); cbn [obind] in Hc; [|done]. destruct t; injection Hc as <-; split; intros; try done; lia.
Qed.

Lemma advance_ordered st repeatable t w : ordered st repeatable -> ordered (go_advance_min_snapshot knobs st repeatable t w) repeatable.
Proof.
  intros Ho. unfold go_advance_min_snapshot, advance_timestamp. destruct (candidate_min_snapshot_ts _ _ _ _) as [cand|e|] eqn:Hc.
  2,3: by destruct Ho; destruct t; split. apply candidate_bound in Hc as [Hc Hd].
  destruct t.
  - specialize (Hd eq_refl). destruct (Z.leb_spec cand (min_document_snapshot_ts (bounds st))); [by destruct Ho; split|]. destruct Ho as [h1 h2 h3 h4 h5 h6 h7 h8 h9].
    destruct w as [|[]]; [destruct (get_checkpoint _ _ _) as [z|?|]|..]; split; cbn in *; try lia; done.
  - destruct (Z.leb_spec cand (min_index_snapshot_ts (bounds st))); [by destruct Ho; split|]. destruct Ho as [h1 h2 h3 h4 h5 h6 h7 h8 h9].
    destruct w as [|[]]; [destruct (get_checkpoint _ _ _) as [z|?|]|..]; split; cbn in *; try lia; done.
Qed.
End ordered.

(** ** The indexes that are cleaned *)

Section indexes.
Context (parse_index : PackedDocument -> option ((list Z * list Z) * option (list FieldPath * option bool))) (index_table_id : list Z) (spec : list Z -> option (list Z * list FieldPath)).

(** The table and the fields of an index, as its document says. *)
Definition index_document_ok (d : PackedDocument) : Prop :=
  forall name f s, parse_index d = Some (name, Some (f, s)) -> spec (internal_id (developer_id (id d))) = Some (name.1, f).

Definition index_log_ok (H : Documents) : Prop := forall t i d p, BTreeMap.get (t, i) H = Some (Some d, p) -> i.1 = index_table_id -> index_document_ok d.

Definition indexes_ok (all_indexes : AllIndexes) : Prop := BTreeMap.wf all_indexes /\ forall iid name f, (iid, (name, f)) ∈ all_indexes -> spec iid = Some (name.1, f).

Lemma accumulate_document_ok d all_indexes all' : index_document_ok d -> indexes_ok all_indexes -> accumulate_index_document parse_index d all_indexes = Ret all' -> indexes_ok all'.
Proof.
  intros Hd [Hwf Hall]. unfold accumulate_index_document. destruct (parse_index d) as [[name config]|] eqn:Hp; cbn [ok_or obind]; [|done].
  assert (Hins : forall f s, config = Some (f, s) -> indexes_ok (BTreeMap.insert (internal_id (developer_id (id d))) (name, f) all_indexes)).
  { intros f s ->. split; [by apply BTreeMap.wf_insert|]. intros iid name' f' Hin. apply BTreeMap.elem_of_insert in Hin as [[-> Heq]|[_ Hin]]; [injection Heq as -> ->; by apply (Hd _ _ s)|by apply Hall|done]. }
  destruct config as [[f [[|]|]]|]; intros [= <-]; first [done|by split|by eapply Hins].
Qed.

Lemma accumulate_loop_ok entries : forall all_indexes ended, (forall e d, e ∈ entries -> log_value e = Some d -> index_document_ok d) -> indexes_ok all_indexes ->
  indexes_ok (accumulate_loop parse_index index_table_id all_indexes entries ended).1.
Proof.
  induction entries as [|e entries IH]; intros all_indexes ended He Hall; cbn [accumulate_loop]; [done|].
  assert (He' : forall e' d, e' ∈ entries -> log_value e' = Some d -> index_document_ok d) by (intros e' d Hin; apply He; by right).
  destruct (log_value e) as [d|] eqn:Hv; [|by apply IH]. destruct (ensure _ _); cbn [obind]; [|done..]. destruct (accumulate_index_document _ d all_indexes) as [all'|x|] eqn:Ha; [|done..].
  apply IH; [done|]. eapply accumulate_document_ok; [|done|done]. apply (He e); [left|done].
Qed.

Lemma accumulate_indexes_ok H S all_indexes c latest bounds lost : history_ok H -> BTreeMap.wf (documents S) -> (forall k row, BTreeMap.get k (documents S) = Some row -> BTreeMap.get k H = Some row) ->
  index_log_ok H -> indexes_ok all_indexes -> indexes_ok (accumulate_indexes parse_index S all_indexes c latest index_table_id bounds lost).1.1.
Proof.
  intros HH Hwf Hsub Hlog Hall. unfold accumulate_indexes. set (s := cut lost _).
  assert (Hs : forall e d, e ∈ s.1 -> log_value e = Some d -> index_document_ok d).
  { intros e d Hin Hv. destruct (cut_prefix lost (stream_of (load_documents_from_table (validate_document_snapshot bounds) S index_table_id (range_new c latest) Asc))) as [[rest Hpre] _]. fold s in Hpre.
    assert (Hin' : e ∈ (stream_of (load_documents_from_table (validate_document_snapshot bounds) S index_table_id (range_new c latest) Asc)).1) by (rewrite Hpre; apply elem_of_app; by left).
    unfold load_documents_from_table, load_documents in Hin'. destruct (validate_document_snapshot _ _); cbn [obind stream_of fst] in Hin'; [|by apply elem_of_nil in Hin'..].
    apply elem_of_bfilter in Hin' as [Hin' Ht]. apply bool_decide_eq_true in Ht. apply list_elem_of_fmap in Hin' as ([[t i] [v p]] & -> & Hin'). cbn in Hv, Ht. subst v.
    apply elem_of_bfilter in Hin' as [Hin' _]. apply BTreeMap.elem_of_get, Hsub in Hin'; [|done]. by apply (Hlog _ _ _ _ Hin'). }
  pose proof (accumulate_loop_ok s.1 all_indexes s.2 Hs Hall) as Hok. destruct (accumulate_loop _ _ _ _ _) as [all' r]. done.
Qed.
End indexes.

(** ** Rounds of the deleters *)

Section rounds.
Context (knobs : Knobs) (sha256 : list Z -> list Z) (hash_bytes : list Z -> Z) (hash_id : list Z * list Z -> Z).
Context (parse_index : PackedDocument -> option ((list Z * list Z) * option (list FieldPath * option bool))) (index_table_id : list Z) (spec : list Z -> option (list Z * list FieldPath)).
Context (Hmem : DOCUMENTS_IN_MEMORY knobs <> O).
Context (H : Documents) (st : Retention) (repeatable : Z).
Context (HH : history_ok H) (Ho : ordered st repeatable) (HD : retains H (documents (store st)) (min_document_snapshot_ts (bounds st))).

Lemma checkpoint_ordered r store' all_indexes index_cursor' c' : cursor st <= c' <= min_index_snapshot_ts (bounds st) ->
  let '(globals', checkpoints, _) := r in
  (r = (globals st, checkpoint_reader st, Ret tt) \/ exists w, r = checkpoint (globals st) (checkpoint_reader st) c' RetainIndex w) ->
  ordered (MkRetention store' globals' (bounds st) checkpoints (document_checkpoint_reader st) (min_snapshot_rx st) (min_document_snapshot_rx st) all_indexes index_cursor' c' (document_cursor st)) repeatable /\
  (forall t, latest_retention_min_snapshot_ts globals' t = latest_retention_min_snapshot_ts (globals st) t).
Proof using Ho.
  clear Hmem. destruct r as [[globals' checkpoints] r]. intros Hc' Hr. destruct Ho as [h1 h2 h3 h4 h5 h6 h7 h8 h9]. destruct Hr as [[= -> -> ->]|(w & Hw)].
  - split; [split; cbn in *; try lia; done|done].
  - unfold checkpoint, advance_checkpoint in Hw. destruct w as [|[]]; injection Hw as -> -> ->; (split; [split; cbn in *; try lia; try done|by intros []]).
    destruct (checkpoint_reader st); cbn in *; lia.
Qed.

Definition same_bounds (st' : Retention) : Prop := bounds st' = bounds st /\ forall t, latest_retention_min_snapshot_ts (globals st') t = latest_retention_min_snapshot_ts (globals st) t.

Lemma delete_indexes_step first second faults : BTreeMap.wf (indexes (store st)) -> index_log_ok parse_index index_table_id spec H -> indexes_ok spec (retention_indexes st) ->
  let st' := (go_delete_indexes knobs sha256 hash_bytes parse_index st index_table_id first second faults).1 in
  ordered st' repeatable /\ same_bounds st' /\ indexes_ok spec (retention_indexes st') /\
  exists all, indexes_ok spec all /\ deletes delete_index_entries (stale H all (min_snapshot_rx st)) (store st) (store st').
Proof using Hmem HH Ho HD.
  intros Hwf Hlog Hall. cbv zeta. unfold go_delete_indexes. destruct (waits_for (cursor st) (min_snapshot_rx st)) eqn:Hw; cbn [fst]; [|split_and!; [done|by split|done|]; exists (retention_indexes st); split; [done|constructor]].
  assert (Hcm : cursor st + 1 < min_snapshot_rx st).
  { unfold waits_for, succ_opt in Hw. destruct (MAX <=? cursor st); [done|]. by apply Z.ltb_lt. }
  unfold delete_indexes_round. pose proof (rt_wf _ _ _ HD) as HDwf. pose proof (rt_sub _ _ _ HD) as HDsub.
  pose proof (accumulate_indexes_ok parse_index index_table_id spec H (store st) (retention_indexes st) (index_cursor st) first (bounds st) (lost_indexes faults) HH HDwf HDsub Hlog Hall) as Hall1.
  destruct (accumulate_indexes _ _ _ _ _ _ _ _) as [[all1 ic1] r1]. cbn [fst] in Hall1.
  assert (Herr : forall S' all2 ic2, indexes_ok spec all2 -> (exists all, indexes_ok spec all /\ deletes delete_index_entries (stale H all (min_snapshot_rx st)) (store st) S') ->
    let st' := MkRetention S' (globals st) (bounds st) (checkpoint_reader st) (document_checkpoint_reader st) (min_snapshot_rx st) (min_document_snapshot_rx st) all2 ic2 (cursor st) (document_cursor st) in
    ordered st' repeatable /\ same_bounds st' /\ indexes_ok spec (retention_indexes st') /\ exists all, indexes_ok spec all /\ deletes delete_index_entries (stale H all (min_snapshot_rx st)) (store st) (store st')).
  { intros S' all2 ic2 H1 H2. split_and!; [by destruct Ho; split|done..]. }
  destruct r1 as [[]|e|]; [|cbn [fst]; apply Herr; [done|]; exists all1; split; [done|constructor]..].
  assert (Hrange : MIN <= cursor st /\ MIN < min_snapshot_rx st <= MAX /\ min_document_snapshot_ts (bounds st) <= cursor st) by (destruct Ho; cbn in *; lia). destruct Hrange as (Hc & Hm & Hb).
  pose proof (delete_stale knobs sha256 hash_bytes H (store st) (bounds st) (cursor st) (min_snapshot_rx st) all1 HH HDwf HDsub Hc Hm (lost_entries faults) (part_writes faults)) as Hd.
  destruct (delete _ _ _ _ _ _ _ _ _ _) as [S' r] eqn:Hdel. cbn [fst] in Hd. assert (Hdels : exists all, indexes_ok spec all /\ deletes delete_index_entries (stale H all (min_snapshot_rx st)) (store st) S') by eauto.
  destruct r as [[c' n]|e|]; [|cbn [fst]; by apply Herr..].
  destruct (delete_progress knobs sha256 hash_bytes H (store st) (bounds st) (cursor st) (min_snapshot_rx st) all1 HH HDwf HDsub Hc Hm _ HD Hb Hb Hmem _ _ _ _ _ ltac:(lia) Hdel) as [Hc' _].
  destruct (deletes_indexes_only _ _ _ Hd Hwf) as [Hdocs _].
  pose proof (accumulate_indexes_ok parse_index index_table_id spec H S' all1 ic1 second (bounds st) (lost_indexes_again faults) HH ltac:(by rewrite Hdocs) ltac:(by rewrite Hdocs) Hlog Hall1) as Hall2.
  destruct (accumulate_indexes _ _ _ _ _ _ _ _) as [[all2 ic2] r2]. cbn [fst] in Hall2. destruct r2 as [[]|e|]; [|cbn [fst]; by apply Herr..].
  destruct (negb _); [cbn [fst]; by apply Herr|]. set (r := if checkpoint_allowed faults then _ else _).
  pose proof (checkpoint_ordered r S' all2 ic2 c') as Hck. destruct r as [[globals' ckpts] r3] eqn:Hr.
  destruct Hck as [Ho' Hg']; [destruct Ho; destruct Hc' as [[-> _]|[? _]]; cbn in *; lia|destruct (checkpoint_allowed faults); [right; exists (checkpoint_write faults)|left]; done|]. cbn [fst]. split_and!; [done|by split|done..].
Qed.

Lemma delete_documents_step now faults :
  let st' := (go_delete_documents knobs hash_id st now faults).1 in
  ordered st' repeatable /\ same_bounds st' /\ retention_indexes st' = retention_indexes st /\
  retains H (documents (store st')) (min_document_snapshot_ts (bounds st)) /\ indexes (store st') = indexes (store st).
Proof using HH Ho HD.
  clear Hmem. cbv zeta. assert (Hid : forall st', st' = st -> ordered st' repeatable /\ same_bounds st' /\ retention_indexes st' = retention_indexes st /\ retains H (documents (store st')) (min_document_snapshot_ts (bounds st)) /\ indexes (store st') = indexes (store st)).
  { intros st' ->. split_and!; [done|by split|done..]. }
  unfold go_delete_documents. destruct (waits_for _ _); [|by apply Hid]. unfold delete_documents_round.
  destruct (let? _ := _ in _) as [m|e|] eqn:Hm; [|by apply Hid..]. destruct (Z.leb_spec m (document_cursor st)) as [|Hcm]; [by apply Hid|].
  assert (Hmle : m <= min_document_snapshot_ts (bounds st)).
  { destruct (ts_part _) as [ts|e|]; cbn [obind] in Hm; [|done..]. unfold prior_ts in Hm. destruct (_ <=? _) in Hm; [|done]. injection Hm as <-. destruct Ho. lia. }
  assert (Hrange : MIN <= document_cursor st /\ MIN < m <= MAX) by (destruct Ho; cbn in *; lia). destruct Hrange as [Hc Hmr].
  pose proof (delete_documents_expired knobs hash_id H (store st) (document_cursor st) m _ HD Hc Hmr (lost_entries faults) (part_writes faults)) as Hd.
  destruct (delete_documents _ _ _ _ _ _ _) as [S' r]. cbn [fst] in Hd.
  destruct (deletes_keep_log H (store st) S' (min_document_snapshot_ts (bounds st)) (min_document_snapshot_ts (bounds st)) HH ltac:(lia) HD) as [HD' HI'].
  { eapply deletes_mono; [|exact Hd]. intros q Hq. by eapply expired_mono. }
  assert (Hnew : forall globals' ckpts c', MIN <= c' -> (globals' = globals st \/ globals' = (checkpoint (globals st) (document_checkpoint_reader st) c' RetainDocument IoOk).1.1) ->
    let st' := MkRetention S' globals' (bounds st) (checkpoint_reader st) ckpts (min_snapshot_rx st) (min_document_snapshot_rx st) (retention_indexes st) (index_cursor st) (cursor st) c' in
    ordered st' repeatable /\ same_bounds st' /\ retention_indexes st' = retention_indexes st /\ retains H (documents (store st')) (min_document_snapshot_ts (bounds st)) /\ indexes (store st') = indexes (store st)).
  { intros globals' ckpts c' Hc' Hg. destruct Ho as [h1 h2 h3 h4 h5 h6 h7 h8 h9]. split_and!; [|split; [done|]; by destruct Hg as [->| ->]; [|intros []]|done..].
    destruct Hg as [->| ->]; split; cbn in *; try lia; try done; split; lia. }
  destruct r as [[c' n]|e|]; [|cbn [fst]; apply Hnew; [done|by left]..]. destruct (Z.ltb_spec c' (document_cursor st)); [cbn [fst]; apply Hnew; [done|by left]|].
  destruct (prior_ts m c') as [x|e|]; [|cbn [fst]; apply Hnew; [lia|by left]..].
  destruct (checkpoint_allowed faults); [|cbn [fst]; apply Hnew; [lia|by left]]. destruct (checkpoint_write faults) as [|[]]; cbn; (apply Hnew; [lia|]); [by right|by right|by left].
Qed.
End rounds.

(** ** The system *)

(** The log with nothing deleted, the last commit, the timestamp from which
    each index that is ready can be read, the timestamp up to which commits are
    repeatable, and retention. *)
Record System := MkSystem {
  history : Documents;
  last_commit : Z;
  ready : BTreeMap.t (list Z) Z;
  persisted_max_repeatable_ts : Z;
  retention : Retention;
}.

Definition with_retention (s : System) (st : Retention) : System := MkSystem (history s) (last_commit s) (ready s) (persisted_max_repeatable_ts s) st.

Definition with_store (st : Retention) (S : Store) : Retention :=
  MkRetention S (globals st) (bounds st) (checkpoint_reader st) (document_checkpoint_reader st) (min_snapshot_rx st) (min_document_snapshot_rx st) (retention_indexes st) (index_cursor st) (cursor st) (document_cursor st).

Section system.
Context (knobs : Knobs) (sha256 : list Z -> list Z) (hash_bytes : list Z -> Z) (hash_id : list Z * list Z -> Z).
Context (parse_index : PackedDocument -> option ((list Z * list Z) * option (list FieldPath * option bool))) (index_by_id index_table_id : list Z) (spec : list Z -> option (list Z * list FieldPath)).

(** A commit writes its rows for every index that is ready ([rows_ok], which the
    updates of IndexUpdates.v meet); a backfill writes rows of an index that is
    not ready yet, and makes it ready when its rows are those of the documents. *)
Inductive step (s : System) : System -> Prop :=
| step_commit c docs rows S' :
    commit_ok (history s) c docs -> last_commit s < c -> persisted_max_repeatable_ts s < c ->
    (forall e d, e ∈ docs -> (log_id e).1 = index_table_id -> log_value e = Some d -> index_document_ok parse_index spec d) ->
    (forall r, r ∈ rows -> pie_ts r = c) ->
    (forall iid since tablet fields, BTreeMap.get iid (ready s) = Some since -> spec iid = Some (tablet, fields) -> rows_ok (history s) c docs rows iid tablet fields) ->
    write (store (retention s)) docs rows ConflictError = Ret S' ->
    step s (MkSystem (append (history s) docs) c (ready s) (persisted_max_repeatable_ts s) (with_store (retention s) S'))
| step_repeatable ts :
    persisted_max_repeatable_ts s <= ts < MAX ->
    step s (MkSystem (history s) (last_commit s) (ready s) ts (retention s))
| step_backfill rows S' conflict_strategy :
    (forall r, r ∈ rows -> BTreeMap.get (pie_index_id r) (ready s) = None) ->
    write (store (retention s)) [] rows conflict_strategy = Ret S' ->
    step s (with_retention s (with_store (retention s) S'))
| step_ready iid tablet fields since :
    spec iid = Some (tablet, fields) -> since <= last_commit s ->
    (forall ts, since <= ts -> reads_right (history s) (indexes (store (retention s))) iid tablet fields ts) ->
    (forall k t v, BTreeMap.get (iid, (k, t)) (indexes (store (retention s))) = Some v -> t <= last_commit s) ->
    step s (MkSystem (history s) (last_commit s) (BTreeMap.insert iid since (ready s)) (persisted_max_repeatable_ts s) (retention s))
| step_advance t w : step s (with_retention s (go_advance_min_snapshot knobs (retention s) (persisted_max_repeatable_ts s) t w))
| step_delete_indexes first second faults :
    step s (with_retention s (go_delete_indexes knobs sha256 hash_bytes parse_index (retention s) index_table_id first second faults).1)
| step_delete_documents now faults : step s (with_retention s (go_delete_documents knobs hash_id (retention s) now faults).1)
| step_restart fields since repeatable_ts latest_ts lost st' :
    spec index_by_id = Some (index_table_id, fields) -> BTreeMap.get index_by_id (ready s) = Some since ->
    since <= latest_retention_min_snapshot_ts (globals (retention s)) RetainIndex ->
    start_retention parse_index (store (retention s)) (globals (retention s)) repeatable_ts (persisted_max_repeatable_ts s) latest_ts index_by_id index_table_id lost = Ret st' ->
    step s (with_retention s st').

Inductive steps : System -> System -> Prop :=
| steps_refl s : steps s s
| steps_next s s' s'' : step s s' -> steps s' s'' -> steps s s''.

(** ** What holds throughout *)

Record system_ok (s : System) : Prop := {
  so_history : history_ok (history s);
  so_last t i row : BTreeMap.get (t, i) (history s) = Some row -> t <= last_commit s;
  so_log : index_log_ok parse_index index_table_id spec (history s);
  so_ordered : ordered (retention s) (persisted_max_repeatable_ts s);
  so_documents : retains (history s) (documents (store (retention s))) (min_document_snapshot_ts (bounds (retention s)));
  so_rows : BTreeMap.wf (indexes (store (retention s)));
  so_ready : BTreeMap.wf (ready s);
  so_since iid since : BTreeMap.get iid (ready s) = Some since -> since <= last_commit s /\ forall k t v, BTreeMap.get (iid, (k, t)) (indexes (store (retention s))) = Some v -> t <= last_commit s;
  so_reads iid since tablet fields ts : BTreeMap.get iid (ready s) = Some since -> spec iid = Some (tablet, fields) ->
    since <= ts -> min_index_snapshot_ts (bounds (retention s)) <= ts -> reads_right (history s) (indexes (store (retention s))) iid tablet fields ts;
  so_indexes : indexes_ok spec (retention_indexes (retention s));
}.

Context (Hmem : DOCUMENTS_IN_MEMORY knobs <> O).

Lemma write_ret S docs rows S' : BTreeMap.wf (documents S) -> BTreeMap.wf (indexes S) -> write S docs rows ConflictError = Ret S' ->
  S' = MkStore (append (documents S) docs) (insert_all index_row_key pie_value rows (indexes S)) /\ NoDup (map index_row_key rows).
Proof.
  intros HD HI. unfold write. destruct (foldM (write_document ConflictError) (documents S) docs) as [d|e|] eqn:Hd; cbn [obind]; [|done..].
  destruct (foldM (write_index ConflictError) (indexes S) rows) as [i|e|] eqn:Hi; cbn [obind]; [|done..]. intros [= <-].
  apply (insert_rows_ret log_key log_row) in Hd as (-> & _); [|done]. 
  assert (Hi' : foldM (fun m x => Ret tt ;? insert_row ConflictError (index_row_key x) (pie_value x) m) (indexes S) rows = Ret i) by exact Hi.
  apply (insert_rows_ret index_row_key pie_value) in Hi' as (-> & ? & _); [|done]. done.
Qed.

Lemma commit_preserves s c docs rows S' : system_ok s ->
  commit_ok (history s) c docs -> last_commit s < c -> persisted_max_repeatable_ts s < c ->
  (forall e d, e ∈ docs -> (log_id e).1 = index_table_id -> log_value e = Some d -> index_document_ok parse_index spec d) ->
  (forall r, r ∈ rows -> pie_ts r = c) ->
  (forall iid since tablet fields, BTreeMap.get iid (ready s) = Some since -> spec iid = Some (tablet, fields) -> rows_ok (history s) c docs rows iid tablet fields) ->
  write (store (retention s)) docs rows ConflictError = Ret S' ->
  system_ok (MkSystem (append (history s) docs) c (ready s) (persisted_max_repeatable_ts s) (with_store (retention s) S')).
Proof.
  intros Hs HC Hlast Hrep Hdocs Hrts Hrows Hw. pose proof (so_history _ Hs) as HH. pose proof (so_documents _ Hs) as HD.
  apply write_ret in Hw as [-> Hnd]; [|apply HD|apply Hs]. pose proof (append_history _ c docs HC HH) as (_ & Hin & Hout & Hinv).
  pose proof (insert_all_get index_row_key pie_value rows (indexes (store (retention s))) (so_rows _ Hs) Hnd) as (HRwf & HRin & HRout).
  assert (Hnewrow : forall iid k t v, BTreeMap.get (iid, (k, t)) (insert_all index_row_key pie_value rows (indexes (store (retention s)))) = Some v ->
    t = c \/ BTreeMap.get (iid, (k, t)) (indexes (store (retention s))) = Some v).
  { intros iid k t v Hg. destruct (decide ((iid, (k, t)) ∈ map index_row_key rows)) as [Hk|Hk]; [left|right; by rewrite HRout in Hg].
    apply list_elem_of_fmap in Hk as (r & Heq & Hr). unfold index_row_key in Heq. injection Heq as _ _ ->. by apply Hrts. }
  split; cbn [history last_commit ready persisted_max_repeatable_ts retention with_store store bounds documents indexes retention_indexes].
  - by apply (append_history_ok _ c docs).
  - intros t i row Hg. destruct (decide (t = c)) as [->|]; [lia|]. rewrite Hout in Hg by done. apply (so_last _ Hs) in Hg. lia.
  - intros t i d p Hg Ht. destruct (decide (t = c)) as [->|]; [|rewrite Hout in Hg by done; by apply (so_log _ Hs _ _ _ _ Hg)].
    apply Hinv in Hg as (e & He & <- & Hrow). injection Hrow as Hv _. by apply (Hdocs e).
  - by destruct (so_ordered _ Hs); split.
  - by apply (append_retains _ c docs).
  - done.
  - apply Hs.
  - intros iid since Hg. destruct (so_since _ Hs _ _ Hg) as [Hsi Hr]. split; [lia|]. intros k t v [->|Hg']%Hnewrow; [lia|]. apply Hr in Hg'. lia.
  - intros iid since tablet fields ts Hg Hsp Hsi Hmin. destruct (so_since _ Hs _ _ Hg) as [Hsi' Hr]. destruct (so_ordered _ Hs) as [h1 h2 h3 h4 h5 h6 h7 h8 h9].
    apply (append_reads _ c docs HC HH _ rows iid tablet fields (so_rows _ Hs) Hnd Hrts); [|by eapply Hrows| |].
    + intros k t v Hg'. apply Hr in Hg'. lia.
    + intros _. by apply (so_reads _ Hs iid since).
    + apply (so_reads _ Hs iid since); [done..|lia|lia].
  - apply Hs.
Qed.

Lemma reads_right_ext H R R' iid tablet fields ts : (forall k t, BTreeMap.get (iid, (k, t)) R' = BTreeMap.get (iid, (k, t)) R) ->
  reads_right H R iid tablet fields ts -> reads_right H R' iid tablet fields ts.
Proof. intros Hext HR k i t. rewrite <- (HR k i t). unfold row_visible. rewrite Hext. by setoid_rewrite Hext. Qed.

Lemma write_indexes_get strategy rows : forall R R', BTreeMap.wf R -> foldM (write_index strategy) R rows = Ret R' ->
  BTreeMap.wf R' /\ forall iid k t, (forall r, r ∈ rows -> pie_index_id r <> iid) -> BTreeMap.get (iid, (k, t)) R' = BTreeMap.get (iid, (k, t)) R.
Proof.
  induction rows as [|r rows IH]; intros R R' Hwf; cbn [foldM]; [by intros [= <-]|]. unfold write_index at 1, insert_row.
  intros Hf. assert (Hf' : foldM (write_index strategy) (BTreeMap.insert (pie_index_id r, (pie_key r, pie_ts r)) (pie_value r) R) rows = Ret R') by (destruct strategy; [destruct (BTreeMap.get _ R)|]; done).
  apply IH in Hf' as [Hwf' Hg]; [|by apply BTreeMap.wf_insert]. split; [done|]. intros iid k t Hne. rewrite Hg by (intros r' Hr'; apply Hne; by right).
  apply BTreeMap.get_insert_ne; [done|]. intros [= Heq _ _]. by apply (Hne r ltac:(left)).
Qed.

Lemma backfill_preserves s rows S' strategy : system_ok s -> (forall r, r ∈ rows -> BTreeMap.get (pie_index_id r) (ready s) = None) ->
  write (store (retention s)) [] rows strategy = Ret S' -> system_ok (with_retention s (with_store (retention s) S')).
Proof.
  intros Hs Hrows Hw. unfold write in Hw. cbn [foldM obind] in Hw. destruct (foldM (write_index strategy) _ rows) as [R'|e|] eqn:HR; cbn [obind] in Hw; [|done..]. injection Hw as <-.
  apply write_indexes_get in HR as [Hwf Hget]; [|apply Hs].
  assert (Hsame : forall iid since, BTreeMap.get iid (ready s) = Some since -> forall k t, BTreeMap.get (iid, (k, t)) R' = BTreeMap.get (iid, (k, t)) (indexes (store (retention s)))).
  { intros iid since Hg k t. apply Hget. intros r Hr Heq. specialize (Hrows r Hr). rewrite Heq in Hrows. congruence. }
  destruct Hs as [h1 h2 h3 h4 h5 h6 h7 h8 h9 h10]. split; cbn; [done..|by destruct h4; split|done|done|done| | |done].
  - intros iid since Hg. destruct (h8 iid since Hg) as [? Hr]. split; [done|]. intros k t v Hg'. apply (Hr k t v). by rewrite <- (Hsame iid since).
  - intros iid since tablet fields ts Hg Hsp Hsi Hmin. apply (reads_right_ext _ (indexes (store (retention s)))); [by apply (Hsame iid since)|by apply (h9 iid since)].
Qed.

Lemma ready_preserves s iid tablet fields since : system_ok s -> spec iid = Some (tablet, fields) -> since <= last_commit s ->
  (forall ts, since <= ts -> reads_right (history s) (indexes (store (retention s))) iid tablet fields ts) ->
  (forall k t v, BTreeMap.get (iid, (k, t)) (indexes (store (retention s))) = Some v -> t <= last_commit s) ->
  system_ok (MkSystem (history s) (last_commit s) (BTreeMap.insert iid since (ready s)) (persisted_max_repeatable_ts s) (retention s)).
Proof.
  intros Hs Hsp Hsi Hreads Hrows. destruct Hs as [h1 h2 h3 h4 h5 h6 h7 h8 h9 h10]. split; cbn; try done; [by apply BTreeMap.wf_insert|..].
  - intros iid' since' Hg. rewrite BTreeMap.get_insert_if in Hg by done. destruct (decide (iid' = iid)) as [->|]; [injection Hg as <-; done|by apply h8].
  - intros iid' since' tablet' fields' ts Hg Hsp' Hts Hmin. rewrite BTreeMap.get_insert_if in Hg by done. destruct (decide (iid' = iid)) as [->|]; [|by apply (h9 iid' since')].
    injection Hg as <-. rewrite Hsp in Hsp'. injection Hsp' as <- <-. by apply Hreads.
Qed.

(** After a deletion of index rows that are stale at the bound in memory. *)
Lemma delete_indexes_preserves s first second faults : system_ok s ->
  system_ok (with_retention s (go_delete_indexes knobs sha256 hash_bytes parse_index (retention s) index_table_id first second faults).1).
Proof using Hmem.
  intros Hs. destruct (delete_indexes_step knobs sha256 hash_bytes parse_index index_table_id spec Hmem (history s) (retention s) (persisted_max_repeatable_ts s)
    (so_history _ Hs) (so_ordered _ Hs) (so_documents _ Hs) first second faults (so_rows _ Hs) (so_log _ Hs) (so_indexes _ Hs)) as (Ho & [Hb _] & Hi & all & Hall & Hd).
  set (st' := (go_delete_indexes _ _ _ _ _ _ _ _ _).1) in *. destruct (deletes_indexes_only _ _ _ Hd (so_rows _ Hs)) as [Hdocs Hwf].
  destruct Hs as [h1 h2 h3 h4 h5 h6 h7 h8 h9 h10]. split; cbn [history last_commit ready persisted_max_repeatable_ts retention with_retention]; rewrite ?Hb, ?Hdocs; try done.
  - intros iid since Hg. destruct (h8 iid since Hg) as [? Hr]. split; [done|]. intros k t v Hg'. apply (Hr k t v). apply BTreeMap.elem_of_get; [done|]. eapply deletes_fewer; [exact Hd|]. by apply BTreeMap.elem_of_get.
  - intros iid since tablet fields ts Hg Hsp Hsi Hmin. apply (deletes_keep_reads (history s) all (min_snapshot_rx (retention s)) iid tablet fields ts h1) with (S := store (retention s)); [destruct h4; lia| |done|done|by apply (h9 iid since)].
    intros name f Hin. destruct Hall as [_ Hall]. apply Hall in Hin. rewrite Hsp in Hin. by injection Hin as -> ->.
Qed.

Lemma delete_documents_preserves s now faults : system_ok s -> system_ok (with_retention s (go_delete_documents knobs hash_id (retention s) now faults).1).
Proof.
  intros Hs. destruct (delete_documents_step knobs hash_id (history s) (retention s) (persisted_max_repeatable_ts s) (so_history _ Hs) (so_ordered _ Hs) (so_documents _ Hs) now faults) as (Ho & [Hb _] & Hi & HD & HI).
  set (st' := (go_delete_documents _ _ _ _ _).1) in *. destruct Hs as [h1 h2 h3 h4 h5 h6 h7 h8 h9 h10].
  split; cbn [history last_commit ready persisted_max_repeatable_ts retention with_retention]; rewrite ?Hb, ?HI, ?Hi; done.
Qed.

Lemma advance_preserves s t w : system_ok s -> system_ok (with_retention s (go_advance_min_snapshot knobs (retention s) (persisted_max_repeatable_ts s) t w)).
Proof.
  intros Hs. pose proof (advance_ordered knobs _ _ t w (so_ordered _ Hs)) as Ho. set (st' := go_advance_min_snapshot _ _ _ _ _) in *.
  assert (Hst : store st' = store (retention s) /\ retention_indexes st' = retention_indexes (retention s) /\ min_index_snapshot_ts (bounds (retention s)) <= min_index_snapshot_ts (bounds st') /\ min_document_snapshot_ts (bounds (retention s)) <= min_document_snapshot_ts (bounds st')).
  { unfold st', go_advance_min_snapshot, advance_timestamp. destruct (candidate_min_snapshot_ts _ _ _ _) as [cand|e|]; [|split_and!; done..]. destruct t.
    - destruct (_ <=? _); [split_and!; done|]. destruct w; cbn; split_and!; try done; lia.
    - destruct (_ <=? _); [split_and!; done|]. destruct w; cbn; split_and!; try done; lia. }
  destruct Hst as (Hst & Hix & Hbi & Hbd). destruct Hs as [h1 h2 h3 h4 h5 h6 h7 h8 h9 h10]. split; cbn [history last_commit ready persisted_max_repeatable_ts retention with_retention]; rewrite ?Hst, ?Hix; try done.
  - by eapply retains_mono.
  - intros iid since tablet fields ts Hg Hsp Hsi Hmin. apply (h9 iid since); [done..|lia].
Qed.

Lemma mapM_elem {A B E} (f : A -> outcome E B) l : forall ys y, mapM f l = Ret ys -> y ∈ ys -> exists x, x ∈ l /\ f x = Ret y.
Proof.
  induction l as [|x l IH]; intros ys y; cbn [mapM]; [intros [= <-]; by intros ?%elem_of_nil|]. destruct (f x) as [z|e|] eqn:Hf; cbn [obind]; [|done..].
  destruct (mapM f l) as [zs|e|] eqn:Hm; cbn [obind]; [|done..]. intros [= <-] [->|Hy]%elem_of_cons; [exists x; by split; [left|]|]. destruct (IH zs y eq_refl Hy) as (x' & Hx' & Hf'). exists x'. by split; [right|].
Qed.

(** The scan of the table of indexes returns documents of the log. *)
Lemma scanned_indexes_ok s fields since ts interval scan e : system_ok s -> spec index_by_id = Some (index_table_id, fields) -> BTreeMap.get index_by_id (ready s) = Some since -> since <= ts ->
  min_index_snapshot_ts (bounds (retention s)) <= ts -> index_scan_inner (store (retention s)) index_by_id index_table_id ts interval Asc = Ret scan -> e ∈ scan -> index_document_ok parse_index spec (latest_value e.2).
Proof.
  intros Hs Hsp Hg Hsi Hmin Hscan Hin. eapply mapM_elem in Hscan as (row & Hrow & Hj); [|done]. cbn [order_apply] in Hrow.
  destruct (latest_row_document (store (retention s)) (history s) _ index_by_id index_table_id fields ts (so_history _ Hs) (so_documents _ Hs) (so_rows _ Hs)) with (interval := interval) (e := row)
    as (d & p & _ & _ & Ht & _ & _ & Hget & Hjoin); [destruct (so_ordered _ Hs); lia|by apply (so_reads _ Hs index_by_id since)|done|].
  rewrite Hj in Hjoin. injection Hjoin as ->. cbn [snd latest_value]. by apply (so_log _ Hs _ _ _ _ Hget).
Qed.

Lemma restart_preserves s fields since repeatable_ts latest_ts lost st' : system_ok s ->
  spec index_by_id = Some (index_table_id, fields) -> BTreeMap.get index_by_id (ready s) = Some since -> since <= latest_retention_min_snapshot_ts (globals (retention s)) RetainIndex ->
  start_retention parse_index (store (retention s)) (globals (retention s)) repeatable_ts (persisted_max_repeatable_ts s) latest_ts index_by_id index_table_id lost = Ret st' ->
  system_ok (with_retention s st') /\ bounds st' = MkBounds (latest_retention_min_snapshot_ts (globals (retention s)) RetainIndex) (latest_retention_min_snapshot_ts (globals (retention s)) RetainDocument) /\ globals st' = globals (retention s).
Proof.
  intros Hs Hsp Hg Hsince Hstart. unfold start_retention in Hstart. destruct (load_snapshot_bounds _ _) as [bnds|e|] eqn:Hb; cbn [obind] in Hstart; [|done..].
  assert (bnds = MkBounds (latest_retention_min_snapshot_ts (globals (retention s)) RetainIndex) (latest_retention_min_snapshot_ts (globals (retention s)) RetainDocument)) as ->.
  { unfold load_snapshot_bounds in Hb. destruct (_ <? _); [done|]. destruct (_ <? _); [done|]. by injection Hb as <-. }
  cbn [min_index_snapshot_ts min_document_snapshot_ts] in *. set (mi := latest_retention_min_snapshot_ts (globals (retention s)) RetainIndex) in *.
  set (md := latest_retention_min_snapshot_ts (globals (retention s)) RetainDocument) in *.
  pose proof (so_ordered _ Hs) as [h1 h2 h3 h4 h5 h6 h7 h8 h9]. fold mi md in h1, h2, h3, h6.
  unfold index_scan in Hstart. destruct (index_scan_inner _ _ _ _ _ _) as [scan|e|] eqn:Hscan; cbn [obind] in Hstart; [|done..]. destruct (validate_snapshot _ _) as [[]|e|]; cbn [obind] in Hstart; [|done..].
  destruct (foldM (E := persistence_error) (S := AllIndexes) (A := list Z * LatestDocument) _ [] scan) as [all0|e|] eqn:Hfold; cbn [obind] in Hstart; [|done..].
  assert (Hall0 : indexes_ok spec all0).
  { assert (Hgen : forall l a, (forall x, x ∈ l -> x ∈ scan) -> indexes_ok spec a ->
    foldM (fun indexes (rev : list Z * LatestDocument) => accumulate_index_document parse_index (latest_value rev.2) indexes) a l = Ret all0 -> indexes_ok spec all0).
    { induction l as [|x l IH]; intros a Hl Ha; cbn [foldM]; [by intros [= <-]|]. destruct (accumulate_index_document _ _ a) as [a'|e|] eqn:Hacc; cbn [obind]; [|done..]. apply IH; [intros y Hy; apply Hl; by right|].
      eapply accumulate_document_ok; [|exact Ha|exact Hacc]. eapply (scanned_indexes_ok s fields since mi all); [done..|lia|exact Hscan|apply Hl; left]. }
    eapply (Hgen scan []); [done| |exact Hfold]. split; [done|]. by intros ? ? ? ?%elem_of_nil. }
  pose proof (accumulate_indexes_ok parse_index index_table_id spec (history s) (store (retention s)) all0 mi latest_ts (MkBounds mi md) lost (so_history _ Hs) (rt_wf _ _ _ (so_documents _ Hs)) (rt_sub _ _ _ (so_documents _ Hs)) (so_log _ Hs) Hall0) as Hall1.
  destruct (accumulate_indexes _ _ _ _ _ _ _ _) as [[all1 ic] r]. cbn [fst] in Hall1. destruct r as [[]|e|]; cbn [obind] in Hstart; [|done..].
  destruct (get_checkpoint _ _ RetainIndex) as [c|e|] eqn:Hc; cbn [obind] in Hstart; [|done..]. destruct (get_checkpoint _ _ RetainDocument) as [dc|e|] eqn:Hdc; cbn [obind] in Hstart; [|done..]. injection Hstart as <-.
  assert (c = get_checkpoint_not_repeatable (globals (retention s)) RetainIndex) as -> by (unfold get_checkpoint, prior_ts in Hc; destruct (_ <=? _) in Hc; [by injection Hc as <-|done]).
  assert (dc = get_checkpoint_not_repeatable (globals (retention s)) RetainDocument) as -> by (unfold get_checkpoint, prior_ts in Hdc; destruct (_ <=? _) in Hdc; [by injection Hdc as <-|done]).
  split; [|done]. destruct Hs as [g1 g2 g3 g4 g5 g6 g7 g8 g9 g10].
  split; cbn [history last_commit ready persisted_max_repeatable_ts retention with_retention store bounds min_index_snapshot_ts min_document_snapshot_ts retention_indexes]; try done.
  - split; cbn [bounds globals min_snapshot_rx min_document_snapshot_rx checkpoint_reader cursor document_cursor min_index_snapshot_ts min_document_snapshot_ts default]; fold mi md; try lia.
  - eapply retains_mono; [|exact g5]. lia.
  - intros iid since' tablet fields' ts Hgr Hsp' Hsi Hts. apply (g9 iid since'); [done..|]. fold mi in Hts. lia.
Qed.

Lemma step_preserves s s' : step s s' -> system_ok s -> system_ok s'.
Proof using Hmem.
  intros Hstep Hs. destruct Hstep as [c docs rows S'|ts Hts|rows S' strategy|iid tablet fields since|t w|first second faults|now faults|fields since rts lts lost st'].
  - by apply (commit_preserves s c docs rows).
  - destruct Hs as [h1 h2 h3 h4 h5 h6 h7 h8 h9 h10]. split; cbn; try done. destruct h4. split; cbn in *; try done; lia.
  - by eapply backfill_preserves.
  - by eapply ready_preserves.
  - by apply advance_preserves.
  - by apply delete_indexes_preserves.
  - by apply delete_documents_preserves.
  - by eapply restart_preserves.
Qed.

Lemma steps_preserve s s' : steps s s' -> system_ok s -> system_ok s'.
Proof using Hmem. induction 1 as [|s s' s'' Hstep _ IH]; [done|]. intros Hs. by eapply IH, step_preserves. Qed.

(** The bounds in memory never go back, through restarts as well. *)
Lemma step_bounds s s' : step s s' -> system_ok s ->
  min_index_snapshot_ts (bounds (retention s)) <= min_index_snapshot_ts (bounds (retention s')) /\ min_document_snapshot_ts (bounds (retention s)) <= min_document_snapshot_ts (bounds (retention s')).
Proof using Hmem.
  intros Hstep Hs. assert (Heq : forall st', bounds st' = bounds (retention s) ->
    min_index_snapshot_ts (bounds (retention s)) <= min_index_snapshot_ts (bounds st') /\ min_document_snapshot_ts (bounds (retention s)) <= min_document_snapshot_ts (bounds st')) by (intros st' ->; split; lia).
  destruct Hstep as [c docs rows S'|ts Hts|rows S' strategy|iid tablet fields since|t w|first second faults|now faults|fields since rts lts lost st' Hsp Hg Hsi Hst]; cbn [retention with_retention].
  - by apply Heq.
  - by apply Heq.
  - by apply Heq.
  - by apply Heq.
  - unfold go_advance_min_snapshot, advance_timestamp. destruct (candidate_min_snapshot_ts _ _ _ _) as [cand|e|]; cbn [bounds]; [|lia..]. destruct t; (destruct (_ <=? _); [cbn [bounds]; lia|]); destruct w; cbn; lia.
  - apply Heq. by apply (delete_indexes_step knobs sha256 hash_bytes parse_index index_table_id spec Hmem (history s) (retention s) (persisted_max_repeatable_ts s) (so_history _ Hs) (so_ordered _ Hs) (so_documents _ Hs) first second faults (so_rows _ Hs) (so_log _ Hs) (so_indexes _ Hs)).
  - apply Heq. by apply (delete_documents_step knobs hash_id (history s) (retention s) (persisted_max_repeatable_ts s) (so_history _ Hs) (so_ordered _ Hs) (so_documents _ Hs) now faults).
  - destruct (restart_preserves s fields since rts lts lost st' Hs Hsp Hg Hsi Hst) as (_ & -> & _). cbn [min_index_snapshot_ts min_document_snapshot_ts]. destruct (so_ordered _ Hs). lia.
Qed.

Lemma steps_bounds s s' : steps s s' -> system_ok s ->
  min_index_snapshot_ts (bounds (retention s)) <= min_index_snapshot_ts (bounds (retention s')) /\ min_document_snapshot_ts (bounds (retention s)) <= min_document_snapshot_ts (bounds (retention s')).
Proof using Hmem.
  induction 1 as [|s s' s'' Hstep _ IH]; [lia|]. intros Hs. pose proof (step_bounds _ _ Hstep Hs). pose proof (step_preserves _ _ Hstep Hs) as Hs'. specialize (IH Hs'). lia.
Qed.

(** A fresh database. *)
Definition initial : System :=
  MkSystem [] MIN [] MIN (MkRetention (MkStore [] []) (MkGlobals None None None None) (MkBounds MIN MIN) None None MIN MIN [] MIN MIN MIN).

Lemma initial_ok : system_ok initial.
Proof.
  split; cbn; try done. by split; [|intros ? ? ? ?%elem_of_nil].
Qed.

(** Accepted by the validator of the leader, or of a follower that reads the
    bound from persistence. *)
Definition snapshot_accepted (s : System) (ts : Z) : Prop :=
  validate_snapshot (bounds (retention s)) ts = Ret tt \/ exists follower, (follower_validate_snapshot (globals (retention s)) follower ts).2 = Ret tt.
Definition document_snapshot_accepted (s : System) (ts : Z) : Prop :=
  validate_document_snapshot (bounds (retention s)) ts = Ret tt \/ exists follower, (follower_validate_document_snapshot (globals (retention s)) follower ts).2 = Ret tt.

Lemma accepted_bound s ts : system_ok s ->
  (snapshot_accepted s ts -> min_index_snapshot_ts (bounds (retention s)) <= ts) /\ (document_snapshot_accepted s ts -> min_document_snapshot_ts (bounds (retention s)) <= ts).
Proof.
  intros Hs. destruct (so_ordered _ Hs) as [h1 h2 h3 h4 h5 h6 h7 h8 h9].
  split; (intros [Hv|(f & Hv)]; [unfold validate_snapshot, validate_document_snapshot in Hv|unfold follower_validate_snapshot, follower_validate_document_snapshot in Hv; cbn [snd] in Hv]); match type of Hv with ensure (?a <=? ?b) _ = _ => destruct (Z.leb_spec a b); [lia|done] end.
Qed.

Lemma window_retained H D b c m : history_ok H -> retains H D b -> b <= c -> window D c m = window H c m.
Proof.
  intros HH HD Hb. unfold window. f_equal. apply BTreeMap.wf_ext; [apply BTreeMap.wf_bfilter, HD|apply BTreeMap.wf_bfilter, HH|].
  intros [[t i] row]. rewrite !elem_of_bfilter. cbn [fst]. split; intros [Hin Hr]; (split; [|done]); apply BTreeMap.elem_of_get in Hin; try apply HD; try apply HH; (apply BTreeMap.elem_of_get; [first [apply HD|apply HH]|]).
  - by apply (rt_sub _ _ _ HD).
  - apply (rt_kept _ _ _ HD); [done|]. eapply expired_later; [done|done|]. bool_hyps. lia.
Qed.

(** C8: reads at snapshots inside the window are exact.  Take any run from a fresh
    database: commits, index backfills, bounds that advance, rounds of both
    deleters in which any read, part of a chunk or checkpoint may fail, and
    restarts.  A scan of an index that was ready by the timestamp, on the tables
    of some state, whose timestamp a leader or a follower accepts in that or any
    later state, succeeds and returns the documents of the log with nothing
    deleted, at that timestamp, in the interval and in order. *)
Theorem retained_snapshots_read (s s' : System) (iid tablet : list Z) (fields : list FieldPath) (since ts : Z) (interval : Interval) (order : Order) :
  steps initial s -> steps s s' -> snapshot_accepted s' ts -> BTreeMap.get iid (ready s) = Some since -> spec iid = Some (tablet, fields) -> since <= ts ->
  exists rows, index_scan_inner (store (retention s)) iid tablet ts interval order = Ret rows /\
    map (fun e => (e.1, (latest_ts e.2, latest_value e.2))) rows = order_apply order (rows_in interval (index_at (history s) ts tablet fields)).
Proof using Hmem.
  intros H0 H1 Hacc Hg Hsp Hsi. pose proof (steps_preserve _ _ H0 initial_ok) as Hs. pose proof (steps_preserve _ _ H1 Hs) as Hs'.
  apply accepted_bound in Hacc; [|done]. destruct (steps_bounds _ _ H1 Hs) as [Hb _].
  destruct (index_scan_exact (store (retention s)) (history s) (min_document_snapshot_ts (bounds (retention s))) iid tablet fields ts (so_history _ Hs) (so_documents _ Hs) (so_rows _ Hs)) with (m := index_at (history s) ts tablet fields) (interval := interval) (order := order) as (rows & Hscan & Hrows & _).
  - destruct (so_ordered _ Hs). lia.
  - apply (so_reads _ Hs iid since); [done..|lia].
  - by apply index_at_exact, Hs.
  - eauto.
Qed.

(** C12: reads of the log inside its window are exact: in the same runs, the revision
    pairs of a range of timestamps whose start a leader or a follower accepts
    are all the revisions of the range, each with the document it replaced. *)
Theorem retained_log_read (s s' : System) (c m : Z) :
  steps initial s -> steps s s' -> document_snapshot_accepted s' c -> MIN <= c -> MIN < m <= MAX ->
  load_revision_pairs (fun _ => Ret tt) (DOCUMENTS_IN_MEMORY knobs) (store (retention s)) m (range_new c m) Asc = (map (pair_of (history s)) (window (history s) c m), Ret tt).
Proof using Hmem.
  intros H0 H1 Hacc Hc Hm. pose proof (steps_preserve _ _ H0 initial_ok) as Hs. pose proof (steps_preserve _ _ H1 Hs) as Hs'.
  apply accepted_bound in Hacc; [|done]. destruct (steps_bounds _ _ H1 Hs) as [_ Hb]. pose proof (so_documents _ Hs) as HD. pose proof (so_history _ Hs) as HH.
  assert (Hbc : min_document_snapshot_ts (bounds (retention s)) <= c) by lia.
  unfold load_revision_pairs, load_documents. destruct (load_window (store (retention s)) c m Hc Hm) as (_ & -> & _ & _). cbn [obind stream_of].
  rewrite (revision_pairs_complete _ _ _ _ Hmem).
  - f_equal. rewrite (window_retained _ _ _ _ _ HH HD Hbc). apply map_ext_in. intros e He%list_elem_of_In. apply elem_of_window in He as [Hg Hr]; [|apply HH].
    unfold pair_of. destruct (log_prev_ts e) as [p|]; [|done]. cbn [option_map]. destruct (prev_retained (history s) (store (retention s)) c HH _ HD Hbc _ _ _ _ Hg) as (d & q & H2 & H3); [lia|]. by rewrite H2, H3.
  - apply window_sorted, HD.
  - intros e He. split; [|done]. apply elem_of_window in He as [Hg Hr]; [|apply HD]. intros p Hp. rewrite Hp in Hg. apply (rt_sub _ _ _ HD) in Hg.
    destruct (prev_retained (history s) (store (retention s)) c HH _ HD Hbc _ _ _ _ Hg) as (d & q & _ & H3); [lia|eauto].
Qed.

(** The order of the timestamps of retention that the code relies on holds in
    every state of every run, whatever writes fail: the earliest snapshot of the
    log is at most the checkpoint of index deletion, that at most its cursor,
    the cursor at most the earliest snapshot of the indexes, which is at most
    the repeatable timestamp; and a bound in memory, which deletions use, never
    exceeds the one in persistence, which followers and restarts read. *)
Theorem retention_bounds_ordered (s : System) :
  steps initial s ->
  let st := retention s in
  min_document_snapshot_ts (bounds st) <= latest_retention_min_snapshot_ts (globals st) RetainDocument <= get_checkpoint_not_repeatable (globals st) RetainIndex /\
  get_checkpoint_not_repeatable (globals st) RetainIndex <= cursor st <= min_index_snapshot_ts (bounds st) /\
  min_index_snapshot_ts (bounds st) <= latest_retention_min_snapshot_ts (globals st) RetainIndex <= persisted_max_repeatable_ts s /\
  min_snapshot_rx st <= min_index_snapshot_ts (bounds st) /\ min_document_snapshot_rx st <= min_document_snapshot_ts (bounds st).
Proof using Hmem. intros H0. destruct (so_ordered _ (steps_preserve _ _ H0 initial_ok)) as [h1 h2 h3 h4 h5 h6 h7 h8 h9]. cbv zeta. lia. Qed.

(** C13: the rounds of index retention end and leave nothing behind.  In every
    reachable state, with deletes enabled (RETENTION_DELETES_ENABLED; without
    them the loop never returns: [disabled_retention_never_returns]) and nonzero
    chunk, parallelism and batch sizes, from a cursor at or after the lower bound
    of the document log and at least two before the target, while no read or
    write fails, the loop that deletes up
    to a bound returns within as many rounds as there are timestamps in the
    window; then, for every revision in the window that replaced a document, the
    rows of that document are gone from all the indexes that are cleaned, and so
    is the deletion of its key if the key changed or the document was deleted
    (under the prefix of the key that rows are deleted by). *)
Theorem retention_leaves_nothing (s : System) (c m : Z) (all_indexes : AllIndexes) (faults : nat -> option nat * (nat -> nat -> io)) :
  steps initial s -> min_document_snapshot_ts (bounds (retention s)) <= c -> c + 1 < m <= MAX ->
  RETENTION_DELETES_ENABLED knobs = true -> INDEX_RETENTION_DELETE_CHUNK knobs <> O -> INDEX_RETENTION_DELETE_PARALLEL knobs <> O ->
  (forall n, (faults n).1 = None /\ forall i j, (faults n).2 i j = IoOk) ->
  exists S', delete_all_no_checkpoint knobs sha256 hash_bytes (Datatypes.S (Z.to_nat (m - c))) c m (store (retention s)) all_indexes (bounds (retention s)) faults = Some (S', Ret tt) /\
    forall e, e ∈ window (history s) c m -> cleaned (history s) all_indexes S' e.
Proof using Hmem.
  intros H0 Hc Hm Hen Hch Hpar Hf. pose proof (steps_preserve _ _ H0 initial_ok) as Hs. assert (Hc0 : MIN <= c) by (destruct (so_ordered _ Hs); lia).
  destruct (delete_all_ok knobs sha256 hash_bytes (history s) (bounds (retention s)) m (min_document_snapshot_ts (bounds (retention s))) all_indexes (so_history _ Hs) ltac:(lia) Hen Hch Hpar Hmem (Datatypes.S (Z.to_nat (m - c))) c
    (store (retention s)) faults Hc0 Hc Hc (so_documents _ Hs) (so_rows _ Hs) Hf ltac:(lia) ltac:(lia)) as (S' & Hrun & _ & Hcl).
  exists S'. split; [done|]. intros e He. apply Hcl; [done|lia].
Qed.

(** C33: index rows with long keys are never deleted.  Retention asks for the
    deletion of a row by the first 2500 bytes of its key ([deleted_key]), which
    the sqlite driver compares with the whole key: in no state does a round of
    the deleter remove a row whose key is longer, even if it was replaced long
    ago and retention's cursor has passed it. *)
Theorem long_keys_are_kept (s : System) (first second : Z) (f : Faults) (iid k : list Z) (t : Z) (v : option (list Z * list Z)) :
  steps initial s -> deleted_key k <> k -> ((iid, (k, t)), v) ∈ indexes (store (retention s)) ->
  ((iid, (k, t)), v) ∈ indexes (store (go_delete_indexes knobs sha256 hash_bytes parse_index (retention s) index_table_id first second f).1).
Proof using Hmem.
  intros H0 Hlong Hin. pose proof (steps_preserve _ _ H0 initial_ok) as Hs.
  destruct (delete_indexes_step knobs sha256 hash_bytes parse_index index_table_id spec Hmem (history s) (retention s) (persisted_max_repeatable_ts s)
    (so_history _ Hs) (so_ordered _ Hs) (so_documents _ Hs) first second f (so_rows _ Hs) (so_log _ Hs) (so_indexes _ Hs)) as (_ & _ & _ & all & _ & Hd).
  by eapply deletes_keep_long.
Qed.
End system.

Module RetentionExample.
(** Table [1] with an index over the field "a", whose document is in the table
    [9] of indexes; a document is inserted and updated, and retention runs. *)
Import MemoryExample.

Definition knobs : Knobs := MkKnobs 5 5 true true 1 2 100 1 2 100 3.
Definition sha256 (key : list Z) : list Z := key.
Definition hash_bytes (bytes : list Z) : Z := fold_left Z.add bytes 0.
Definition hash_id (i : list Z * list Z) : Z := hash_bytes i.2.
Definition index_document : PackedDocument := MkDoc (Object []) (MkResolved [9] (MkId 4 a_index)).
Definition parse_index (doc : PackedDocument) : option ((list Z * list Z) * option (list FieldPath * option bool)) :=
  if bool_decide (id doc = id index_document) then Some (([1], [98; 121; 95; 97]), Some ([[[97]]], None)) else None.
Notation run := (steps knobs sha256 hash_bytes hash_id parse_index (replicate 16 1) [9] c).
Notation one_step := (step knobs sha256 hash_bytes hash_id parse_index (replicate 16 1) [9] c).

(** The latest version of a document. *)
Definition latest_version (H : Documents) (i : InternalDocumentId) (ts : Z) : option (Z * PackedDocument) :=
  match last (bfilter (fun e => bool_decide (e.1.2 = i) && (e.1.1 <=? ts)) H) with Some ((t, _), (Some x, _)) => Some (t, x) | _ => None end.

Lemma latest_version_spec H i ts t x : BTreeMap.wf H -> latest_version H i ts = Some (t, x) <-> current H i ts t x.
Proof.
  intros Hwf. unfold latest_version, current. split.
  - intros Hl. destruct (last _) as [[[t' i'] [[x'|] p]]|] eqn:Hlast; [|done..]. injection Hl as -> ->. assert (i' = i) as ->.
    { apply last_Some_elem_of, elem_of_bfilter in Hlast as [_ Hb]. cbn in Hb. bool_hyps. by apply bool_decide_eq_true in H0. }
    apply last_of_id in Hlast as (? & ? & ?); [|done]. split_and!; eauto.
  - intros ((p & Hg) & Ht & Hn). by rewrite (proj2 (last_of_id H i ts t (Some x, p) Hwf)).
Qed.

(** A commit of one document. *)
Definition entry (s : System) (ts : Z) (i : InternalDocumentId) (v : option PackedDocument) : DocumentLogEntry :=
  MkLogEntry ts i v (option_map fst (latest_version (history s) i (ts - 1))).
Definition commit (s : System) (ts : Z) (i : InternalDocumentId) (v : option PackedDocument) : option System :=
  match index_updates (E := unit) r (option_map snd (latest_version (history s) i (ts - 1))) v with
  | Ret ups =>
      match write (store (retention s)) [entry s ts i v] (map (from_index_update ts) ups) ConflictError with
      | Ret S' => Some (MkSystem (append (history s) [entry s ts i v]) ts (ready s) (persisted_max_repeatable_ts s) (with_store (retention s) S'))
      | _ => None
      end
  | _ => None
  end.

Lemma commit_is_step s ts i v s' : system_ok parse_index [9] c s -> last_commit s < ts < MAX -> MIN <= last_commit s -> persisted_max_repeatable_ts s < ts ->
  (forall x, v = Some x -> id_with_table_id x = i /\ good_doc x /\ (i.1 = [9] -> index_document_ok parse_index c x)) ->
  (forall iid since, BTreeMap.get iid (ready s) = Some since -> iid = a_index) ->
  commit s ts i v = Some s' -> one_step s s'.
Proof.
  intros Hs Hts Hmin Hrep Hv Hready. unfold commit. destruct (index_updates _ _ _) as [ups|e|] eqn:Hu; [|done..]. destruct (write _ _ _ _) as [S'|e|] eqn:Hw; [|done..]. intros [= <-].
  pose proof (so_history _ _ _ _ Hs) as HH. assert (HC : commit_ok (history s) ts [entry s ts i v]).
  { split; [lia|..].
    - intros t j row Hg. apply (so_last _ _ _ _ Hs) in Hg. lia.
    - by intros ? ->%list_elem_of_singleton.
    - constructor; [by intros ?%elem_of_nil|constructor].
    - intros ? x ->%list_elem_of_singleton Hx. by destruct (Hv x Hx) as (? & ? & _).
    - intros ? p ->%list_elem_of_singleton. cbn [entry log_prev_ts log_id]. destruct (latest_version (history s) i (ts - 1)) as [[t x]|] eqn:Hl; cbn [option_map fst].
      + pose proof Hl as Hl'%latest_version_spec; [|apply HH]. split; [intros [= <-]; eauto|]. intros (x' & Hc). f_equal. by apply (current_unique _ _ _ _ _ _ _ Hl' Hc).
      + split; [done|]. intros (x & Hc%latest_version_spec); [congruence|apply HH]. }
  assert (Hrows : forall tablet fields ix, database_index r tablet ix fields ->
    rows_ok (history s) ts [entry s ts i v] (map (from_index_update ts) ups) (index_id ix) tablet fields /\ forall row, row ∈ map (from_index_update ts) ups -> pie_ts row = ts).
  { intros tablet fields ix Hix. assert (Hcr : commit_rows ts [entry s ts i v] (fun _ => ups) = map (from_index_update ts) ups) by (unfold commit_rows; cbn [map concat]; by rewrite app_nil_r).
    rewrite <- Hcr. apply (updates_rows_ok (history s) ts _ HC HH r r_ok c r_catalogued (fun _ => option_map snd (latest_version (history s) i (ts - 1)))); [| |done].
    - intros ? x ->%list_elem_of_singleton. cbn [entry log_id]. destruct (latest_version (history s) i (ts - 1)) as [[t y]|] eqn:Hl; cbn [option_map snd].
      + pose proof Hl as Hl'%latest_version_spec; [|apply HH]. split; [intros [= <-]; eauto|]. intros (p & Hc). f_equal. by apply (current_unique _ _ _ _ _ _ _ Hl' Hc).
      + split; [done|]. intros (p & Hc%latest_version_spec); [congruence|apply HH].
    - intros ? ->%list_elem_of_singleton. cbn [entry log_value].
      destruct (index_updates_ret r (option_map snd (latest_version (history s) i (ts - 1))) v r_ok) as (m & Hm & _).
      { intros x [Hx|Hx]; [|by apply Hv]. destruct (latest_version (history s) i (ts - 1)) as [[t y]|] eqn:Hl; [|done]. injection Hx as <-.
      apply latest_version_spec in Hl as ((p & Hg) & _); [|apply HH]. by apply (ho_value _ HH _ _ _ _ Hg). }
      rewrite Hm in Hu |- *. by injection Hu as <-. }
  assert (Ha : database_index r [1] RegistryExample.enabled [[[97]]]) by (split_and!; [done|by left|by eexists]).
  apply (step_commit knobs sha256 hash_bytes hash_id parse_index (replicate 16 1) [9] c s ts [entry s ts i v] (map (from_index_update ts) ups)); [done|lia|done| |by apply (Hrows _ _ _ Ha)| |done].
  - intros ? x ->%list_elem_of_singleton Hi Hx. by apply (Hv x).
  - intros iid since tablet fields Hg Hsp. apply Hready in Hg as ->. vm_compute in Hsp. injection Hsp as <- <-. by apply (Hrows _ _ _ Ha).
Qed.

Definition key : InternalDocumentId := ([1], replicate 16 7).
Definition faults : Faults := MkFaults None None None (fun _ _ => IoOk) true IoOk.

Definition s1 : System := MkSystem [] MIN [(a_index, MIN)] MIN (retention initial).
Definition s2 : System := default initial (commit s1 3 ([9], a_index) (Some index_document)).
Definition s3 : System := default initial (commit s2 5 key (Some (d 1 7))).
Definition s4 : System := default initial (commit s3 7 key (Some (d 2 7))).
Definition s5 : System := MkSystem (history s4) (last_commit s4) (ready s4) 20 (retention s4).
Definition s6 : System := with_retention s5 (go_advance_min_snapshot knobs (retention s5) 20 RetainIndex IoOk).
Definition s7 : System := with_retention s6 (go_delete_indexes knobs sha256 hash_bytes parse_index (retention s6) [9] 20 20 faults).1.
Definition s8 : System := with_retention s7 (go_advance_min_snapshot knobs (retention s7) 20 RetainDocument IoOk).
Definition s9 : System := with_retention s8 (go_delete_documents knobs hash_id (retention s8) 30 faults).1.

(** The old version and its index rows are gone, the cursors have moved. *)
Lemma run_deletes :
  (length (documents (store (retention s6))), length (bfilter (fun e => bool_decide (e.1.1 = a_index)) (indexes (store (retention s6))))) = (3, 3)%nat /\
  (length (documents (store (retention s9))), length (bfilter (fun e => bool_decide (e.1.1 = a_index)) (indexes (store (retention s9))))) = (2, 1)%nat /\
  (cursor (retention s9), document_cursor (retention s9), bounds (retention s9)) = (14, 13, MkBounds 15 14).
Proof. vm_compute. done. Qed.

Lemma index_document_good : good_doc index_document /\ index_document_ok parse_index c index_document.
Proof.
  split.
  - split; [by eexists|]. split; [split; vm_compute; reflexivity|]. apply (bool_decide_unpack _). vm_compute. exact I.
  - intros name f st Hp. unfold parse_index in Hp. rewrite bool_decide_eq_true_2 in Hp by done. injection Hp as <- <- _. done.
Qed.

Lemma ready_only s : ready s = [(a_index, MIN)] -> forall iid since, BTreeMap.get iid (ready s) = Some since -> iid = a_index.
Proof. intros -> iid since. cbn [BTreeMap.get]. destruct (iid ==? a_index)%ord eqn:E; [|done]. intros _. by apply eqb_eq. Qed.

Lemma run_ready : one_step initial s1.
Proof.
  apply (step_ready _ _ _ _ _ _ _ c initial a_index [1] [[[97]]] MIN); [done|done| |done]. intros ts _ k i t. split; [by intros (? & _)|]. by intros (x & ((p & ?) & _) & _).
Qed.

Lemma knobs_memory : DOCUMENTS_IN_MEMORY knobs <> O.
Proof. done. Qed.

(** Once [s] is reached, so is a commit of one document. *)
Lemma run_commit s ts i x s' : run initial s -> ready s = [(a_index, MIN)] -> last_commit s < ts < MAX -> MIN <= last_commit s -> persisted_max_repeatable_ts s < ts ->
  id_with_table_id x = i -> good_doc x -> (i.1 = [9] -> index_document_ok parse_index c x) -> commit s ts i (Some x) = Some s' -> one_step s s'.
Proof.
  intros Hrun Hr Hts Hmin Hrep Hid Hg Hix Hc. apply (commit_is_step s ts i (Some x)); [|done|done|done|by intros ? [= <-]|by apply ready_only|done].
  eapply steps_preserve; [apply knobs_memory|exact Hrun|apply initial_ok].
Qed.

Lemma steps_snoc s s' s'' : run s s' -> one_step s' s'' -> run s s''.
Proof. induction 1 as [|s s' t Hstep _ IH]; intros H; eapply steps_next; [exact H|constructor|exact Hstep|by apply IH]. Qed.

Lemma run_s4 : run initial s4.
Proof.
  assert (H1 : run initial s1) by (eapply steps_next; [apply run_ready|constructor]).
  assert (H2 : run initial s2).
  { eapply steps_snoc; [exact H1|]. apply (run_commit s1 3 ([9], a_index) index_document); [done|done|done|done|done|done|apply index_document_good|intros _; apply index_document_good|vm_compute; reflexivity]. }
  assert (H3 : run initial s3).
  { eapply steps_snoc; [exact H2|]. apply (run_commit s2 5 key (d 1 7)); [done|vm_compute; reflexivity|vm_compute; done|vm_compute; done|vm_compute; reflexivity|done|by apply d_good|done|vm_compute; reflexivity]. }
  eapply steps_snoc; [exact H3|]. apply (run_commit s3 7 key (d 2 7)); [done|vm_compute; reflexivity|vm_compute; done|vm_compute; done|vm_compute; reflexivity|done|by apply d_good|done|vm_compute; reflexivity].
Qed.

Lemma run_s9 : run initial s7 /\ run s7 s9.
Proof.
  split.
  - assert (H5 : run initial s5) by (eapply steps_snoc; [apply run_s4|]; apply step_repeatable; vm_compute; done).
    eapply steps_snoc; [eapply steps_snoc; [exact H5|apply step_advance]|apply step_delete_indexes].
  - eapply steps_next; [apply step_advance|]. eapply steps_next; [apply step_delete_documents|constructor].
Qed.

(** The same with a document whose key is longer than 2500 bytes. *)
Definition long : PackedDocument := MkDoc (Object [([97], String (replicate 2600 97))]) (MkResolved [1] (MkId 3 (replicate 16 7))).
Definition l3 : System := default initial (commit s2 5 key (Some long)).
Definition l4 : System := default initial (commit l3 7 key (Some (d 2 7))).
Definition l5 : System := MkSystem (history l4) (last_commit l4) (ready l4) 20 (retention l4).
Definition l6 : System := with_retention l5 (go_advance_min_snapshot knobs (retention l5) 20 RetainIndex IoOk).

Lemma long_good : good_doc long.
Proof. split; [by eexists|]. split; [split; vm_compute; reflexivity|]. apply (bool_decide_unpack _). vm_compute. exact I. Qed.

Lemma run_l6 : run initial l6.
Proof.
  assert (H2 : run initial s2).
  { eapply steps_snoc; [eapply steps_next; [apply run_ready|constructor]|].
    apply (run_commit s1 3 ([9], a_index) index_document); [eapply steps_next; [apply run_ready|constructor]|done|done|done|done|done|apply index_document_good|intros _; apply index_document_good|vm_compute; reflexivity]. }
  assert (H3 : run initial l3).
  { eapply steps_snoc; [exact H2|]. apply (run_commit s2 5 key long); [done|vm_compute; reflexivity|vm_compute; done|vm_compute; done|vm_compute; reflexivity|done|apply long_good|done|vm_compute; reflexivity]. }
  assert (H4 : run initial l4).
  { eapply steps_snoc; [exact H3|]. apply (run_commit l3 7 key (d 2 7)); [done|vm_compute; reflexivity|vm_compute; done|vm_compute; done|vm_compute; reflexivity|done|by apply d_good|done|vm_compute; reflexivity]. }
  eapply steps_snoc; [eapply steps_snoc; [exact H4|]|apply step_advance]. apply step_repeatable. vm_compute. done.
Qed.
End RetentionExample.

Lemma retained_snapshots_read_witness :
  exists rows, index_scan_inner (store (retention RetentionExample.s7)) MemoryExample.a_index [1] 16 Interval.all Asc = Ret rows /\
    map (fun e => (e.1, (latest_ts e.2, latest_value e.2))) rows = order_apply Asc (rows_in Interval.all (index_at (history RetentionExample.s7) 16 [1] [[[97]]])).
Proof.
  apply (retained_snapshots_read RetentionExample.knobs RetentionExample.sha256 RetentionExample.hash_bytes RetentionExample.hash_id RetentionExample.parse_index (replicate 16 1) [9] MemoryExample.c
    RetentionExample.knobs_memory RetentionExample.s7 RetentionExample.s9 MemoryExample.a_index [1] [[[97]]] MIN 16 Interval.all Asc).
  - apply RetentionExample.run_s9.
  - apply RetentionExample.run_s9.
  - left. vm_compute. reflexivity.
  - vm_compute. reflexivity.
  - reflexivity.
  - unfold MIN. lia.
Defined.

Lemma retained_log_read_witness :
  load_revision_pairs (fun _ => Ret tt) 3 (store (retention RetentionExample.s7)) 20 (range_new 14 20) Asc = (map (pair_of (history RetentionExample.s7)) (window (history RetentionExample.s7) 14 20), Ret tt).
Proof.
  apply (retained_log_read RetentionExample.knobs RetentionExample.sha256 RetentionExample.hash_bytes RetentionExample.hash_id RetentionExample.parse_index (replicate 16 1) [9] MemoryExample.c
    RetentionExample.knobs_memory RetentionExample.s7 RetentionExample.s9 14 20).
  - apply RetentionExample.run_s9.
  - apply RetentionExample.run_s9.
  - left. vm_compute. reflexivity.
  - unfold MIN. lia.
  - unfold MIN, MAX. lia.
Defined.

Lemma retention_bounds_ordered_witness :
  min_document_snapshot_ts (bounds (retention RetentionExample.s7)) <= get_checkpoint_not_repeatable (globals (retention RetentionExample.s7)) RetainIndex /\
  cursor (retention RetentionExample.s7) <= min_index_snapshot_ts (bounds (retention RetentionExample.s7)).
Proof.
  destruct (retention_bounds_ordered RetentionExample.knobs RetentionExample.sha256 RetentionExample.hash_bytes RetentionExample.hash_id RetentionExample.parse_index (replicate 16 1) [9] MemoryExample.c
    RetentionExample.knobs_memory RetentionExample.s7 (proj1 RetentionExample.run_s9)) as ((H1 & H2) & (H3 & H4) & _).
  split; [lia|exact H4].
Defined.

Lemma retention_leaves_nothing_witness :
  exists S', delete_all_no_checkpoint RetentionExample.knobs RetentionExample.sha256 RetentionExample.hash_bytes 11 0 10 (store (retention RetentionExample.s4))
      [(MemoryExample.a_index, (([1], [98]), [[[97]]]))] (bounds (retention RetentionExample.s4)) (fun _ => (None, fun _ _ => IoOk)) = Some (S', Ret tt) /\
    forall e, e ∈ window (history RetentionExample.s4) 0 10 -> cleaned (history RetentionExample.s4) [(MemoryExample.a_index, (([1], [98]), [[[97]]]))] S' e.
Proof.
  apply (retention_leaves_nothing RetentionExample.knobs RetentionExample.sha256 RetentionExample.hash_bytes RetentionExample.hash_id RetentionExample.parse_index (replicate 16 1) [9] MemoryExample.c
    RetentionExample.knobs_memory RetentionExample.s4 0 10).
  - apply RetentionExample.run_s4.
  - vm_compute. discriminate.
  - unfold MAX. lia.
  - reflexivity.
  - discriminate.
  - discriminate.
  - intros n. split; reflexivity.
Defined.

Lemma long_keys_are_kept_witness :
  ((MemoryExample.a_index, (doc_key RetentionExample.long [[[97]]], 5)), Some RetentionExample.key)
    ∈ indexes (store (go_delete_indexes RetentionExample.knobs RetentionExample.sha256 RetentionExample.hash_bytes RetentionExample.parse_index (retention RetentionExample.l6) [9] 20 20 RetentionExample.faults).1).
Proof.
  apply (long_keys_are_kept RetentionExample.knobs RetentionExample.sha256 RetentionExample.hash_bytes RetentionExample.hash_id RetentionExample.parse_index (replicate 16 1) [9] MemoryExample.c
    RetentionExample.knobs_memory RetentionExample.l6 20 20 RetentionExample.faults).
  - apply RetentionExample.run_l6.
  - intros Heq. apply (f_equal length) in Heq. vm_compute in Heq. discriminate Heq.
  - apply (list_elem_of_lookup_2 _ 4). vm_compute. reflexivity.
Defined.
